(* ===== verification/_CoqProject ===== *)
-Q . S2P
Prelude.v
Dict.v
Tensor.v
Groups.v
Pack.v
Balance.v
SeqlenBalance.v
Json.v
Wire.v
Batch.v
BatchMetrics.v
Zorro.v
Slots.v
ReplayCache.v
Scheduler.v
Topology.v
PrefixPool.v
ActionMasks.v
ActionReplay.v
Microbatch.v
StreamBuffer.v
StreamClient.v
StreamWorker.v
StreamDelivery.v
SuffixCache.v
Demuxer.v
Pipelines.v
Episodes.v
OptionRegistry.v
ModelOptions.v
Coroutine.v
ReplicaPool.v
MultiModel.v
PackedReduction.v
ReplayExchange.v
ReplayTransfer.v
