(* ===== verification/Prelude.v ===== *)
(** * Arctic Platform: a verification development

    Arctic Platform trains and serves large language models.  Its own logic, as opposed to the
    PyTorch, Ray, DeepSpeed and vLLM code it drives, decides _where data goes_: which rows of a
    request run together and on which rank, how they are packed, deduplicated, sent and
    restored, which worker serves a request, which part of a GPU an engine owns, which blocks
    and routing tensors are kept, and how a stream of tokens reaches its client.  This
    development models that logic from the Python sources under [src/arctic_platform/] and
    proves what makes it correct.

    ** Parts of the program and where they are modelled

    Training side (a request batch flows through these):
    - [common/utils/batch.py] (Batch.v, BatchMetrics.v): a request is cut into one shard per
      worker, the answers are merged and put back into the request's order, metrics are combined
      over microbatches and ranks;
    - [common/utils/balanced_batch.py], [common/balance_metadata.py] (Balance.v): assigning the
      rows of a request to ranks (row LPT, whole prompt groups by bounded backtracking) and the
      metadata with which a client asks for it;
    - [common/packing/groups.py], [walk.py] (Tensor.v, Groups.v): batches as nested dictionaries
      of tensors, validity masks, first-fit-decreasing groups under a token budget, splitting
      to a number of groups, row selection and the order that restores the rows;
    - [common/packing/pack.py], [windows.py] (Pack.v): packing the rows of a micro-batch into
      one sequence, padding, cutting it into the windows of sequence-parallel shards, and
      unpacking the output;
    - [rl/processors/microbatch.py] (Microbatch.v): the micro-batches of the RL processors and
      the agreement of the ranks on their number; [packed_reduction.py] (PackedReduction.v): how
      their losses and metrics become those of the batch;
    - [rl/zorro_train/seqlen_balancing.py] (SeqlenBalance.v): Karmarkar-Karp and greedy
      partitions, prompt groups, the plan of micro-batches;
    - [rl/zorro_train/zorro_train.py] (Zorro.v): prompt deduplication: layout, metadata,
      unpadding, reconstruction and deduplication in padded and packed format;
    - [integrations/harness/episodes.py], [proxy.py] (Episodes.v): the calls of an agent as
      episodes, continuation prompts that keep the sampled tokens, and the training sequences
      with the mask of what was sampled.

    Serving side:
    - [inference/server/scheduler.py] (Scheduler.v): routing, group affinity, admission and
      worker management of the request scheduler, for requests and for the streams that
      [streaming.py] opens on its workers;
    - [inference/server/replica_pool.py], the life cycle in [worker.py] (ReplicaPool.v): a pool
      of workers: start and stop, sleep and wake, new weights, scaling, restarts and slots;
      [multi_model.py] (MultiModel.v): the driver that shares a cluster between such pools;
    - [inference/server/streaming.py]: the bounded event buffer (StreamBuffer.v), the worker's
      session with its pump, reader, acknowledgements and stops (StreamWorker.v), the checking
      client (StreamClient.v), and all three together (StreamDelivery.v);
    - [inference/server/action_masks.py], [action_mask_replay.py] (ActionMasks.v,
      ActionReplay.v): the masks that a grammar put on the sampler, encoded and replayed;
    - [inference/server/router_replay/cache.py] (ReplayCache.v): the byte-bounded caches of
      routing tensors with eviction and tombstones; [all2all.py]: the plan by which ranks
      exchange them (ReplayExchange.v) and a step of the whole group (ReplayTransfer.v);
    - [inference/suffix_decoding/cache.py] (SuffixCache.v): which responses the suffix trees of
      speculative decoding hold;
    - [inference/vllm/kvcached/prefix_block_pool.py] (PrefixPool.v): the reference-counted pool
      of KV blocks with its eviction queue;
    - [inference/semi_persistence/]: the buddy allocator of GPU slots with its queue of blocked
      callers ([slots.py], Slots.v), the demultiplexer of worker results ([demuxer.py],
      Demuxer.v), and the per-model operation pipelines ([pipeline.py], Pipelines.v).

    Shared by both sides:
    - [wire.py] (Json.v, Wire.v): values as frames of tensors and JSON, and chunked frames;
    - [model/parallel/topology.py], [validation.py] and [inference/server/weight_sync/schedule.py]
      (Topology.v): the rank groups of sequence and expert parallelism, and which training rank
      sends new weights to which inference worker;
    - [common/option_registry.py] (OptionRegistry.v), [model_options.py], [profiles/] (ModelOptions.v):
      the options and model profiles, the check that every profile settles every option, and
      the matrix in the documentation.

    Prelude.v (this file) holds the error monad, Python's stable [sorted], [min] and [max], sums
    and partitions of row indices; Dict.v holds dictionaries with insertion order.  The files
    build on each other as the code does: Batch.v on Balance.v, Pack.v on Groups.v, Zorro.v on
    SeqlenBalance.v, ReplayTransfer.v on ReplayCache.v and ReplayExchange.v, StreamDelivery.v on
    the three parts of a stream, MultiModel.v on ReplicaPool.v and that on Scheduler.v; Wire.v,
    StreamBuffer.v and Episodes.v share the JSON of Json.v.

    ** How the code is modelled

    A function that can raise returns [res]: [Ok] or [Raise] with the exception and a tag for
    the raise site.  A method that changes its object and may then raise returns the new state
    beside its result.  Tensors are a shape with a flat list of integers; [int64] arithmetic in
    these components stays far below [2^63] and is not wrapped, while the [int32] sequence ids
    of the suffix cache wrap around as in the code and its tokens are refused outside [int32].
    The [int32] cumulative lengths of a packed micro-batch are not wrapped (it would need [2^31]
    tokens).  Token costs, which the code sums as floats,
    are integers (exact below [2^53]); ratios and metrics are exact rationals.  Clocks are
    integer arguments, or a step may happen at any time.  Dictionaries are [gmap]s where only
    lookups matter and ordered item lists (Dict.v) where iteration order is observed.  Objects
    that are shared and mutated carry an identity (a [_Waiter] of the allocator, a [WorkerState]
    of the scheduler, an entry of the event buffer).

    Concurrent code is a step relation, or a function that runs a list of actions, whose steps
    are the critical sections or single shared accesses of the source; the theorems are about
    every interleaving: [slots_step] and [sched_step] (threads and coroutines that block),
    [wstep] (the tasks of a stream), the [step] of the demultiplexer, the [act] of the
    pipelines, [slot_reach] (requests, drops and keys of the harness proxy).  The operations of
    a pool are functions in a state and exception monad ([stx] of Coroutine.v, with
    a weakest precondition [swp]); whether each remote call arrives, succeeds or is cancelled is an argument,
    and [pool_step] is their sequences.  A life of a pool, between an [initialize] that returned and
    the call of [shutdown], is a list of [pool_op]s: the operations that hold the pool's lock, each
    from the moment it gets it.  A history of the multi-model driver is a list of [driver_event]s,
    in which a load has a beginning and an end and other events fall between them.

    Code outside the repository is a parameter, with its documented behaviour as laws and an
    instance that satisfies them: [Safetensors], NCCL ([Nccl]), kvcached and vLLM's block queue
    and hash map ([KvManager], [BlockQueue], [HashMap]), the C++ suffix tree ([SuffixTree]),
    xgrammar, the tokenizer and reasoning parser of ActionReplay.v, [np.argsort] and
    [all_gather_object] of Microbatch.v, vLLM's engine outputs in StreamWorker.v, the chat
    template in Episodes.v, the callbacks of instances in Demuxer.v and the bodies of operations
    in Pipelines.v, the callback of an objective in PackedReduction.v.  Interfaces of the program's own parts are classes too: [StrictWeak] for the
    orders given to [sorted] and [min], [Heapq] for the priority queue of Karmarkar-Karp,
    [CacheHooks] for the methods that the TX cache overrides.

    ** What the theorems show

    - Restoring: unpacking undoes packing, merged shards and concatenated micro-batches give
      back their rows, deduplicated batches reconstruct every sample, frames and their chunks in
      any order give back the value that was sent.
    - Reducing: losses and metrics of microbatches, and of ranks, combine to those of the batch.
    - Planning: every plan partitions the rows, respects budgets and cardinalities, keeps
      prompt groups whole and is balanced up to the longest item; verdicts such as "no
      placement fits" are exact; ranks derive the same exchange; rank groups partition the
      world; the error paths that the planners carry are unreachable or characterised.
    - Delivery: an exchange step leaves the requested tensors in the receivers' caches; a client
      accepts exactly the valid streams, accepts what a worker sends under every schedule, and a
      completed stream has the engine's text and tokens; the masks shipped for a generation are
      those the sampler saw; training sequences train exactly the sampled tokens.
    - Invariants of long-lived state over every reachable state: slots never overlap and tile
      their GPU, [bytes_in_use] and the sizes of the event buffer are exact and bounded,
      [active_requests] counts the admitted requests and streams until shutdown, blocks are in the
      eviction queue exactly when nobody holds them (but for those that failed calls have lost,
      which [run_lost] computes), the suffix cache holds what its specification holds,
      operations run in the order of submission, a pool whose scheduler runs has only ready
      workers unless one of two careless calls was made, workers of a node have different ports,
      and models that share a cluster evenly never hold more GPUs than it has if loads do not
      overlap with each other, with unloads or with pending scale-ups.
    - Weight updates: after a synchronisation that pauses, drains or skips, with any outcome, a
      request is admitted only when all workers have the weights of before or all the new ones.
    - Options: the coverage check passes exactly for complete tables, whatever the order of
      registration, and the tables of the repository pass it.
    - Concurrency: workers that wait for each other never wait in a circle; a caller for whom
      the demultiplexer is idle has its answers, if no other caller is in the middle of a send.
    - Deviations, each with a run or a proof: a cache emptied by a rejected insert
      ([tx_put_always_makes_room]), a counter that under-counts after shutdown
      ([shutdown_undercounts]), blocks lost when an allocation fails half-way
      ([get_new_blocks_spec]), ranks that do not agree on a number of micro-batches
      ([sync_counts_differ]), an answer that overtakes its count ([count_overtaken]), a pause
      that is overtaken and not waited for ([pause_races]), an operation lost behind the stop
      mark ([lost_after_shutdown]), an edited reply taken for the returned one
      ([edited_reply_ignored]), a dropped session that comes back ([drop_undone_in_flight]), a
      reset that resumes a sleeping pool ([reset_wakes_scheduler]), a cancellation after which
      the workers generate nothing ([cancelled_pause_stalls]), draft weights that leave the
      scheduler paused ([spec_sync_stays_paused]), a slot given twice ([unknown_node_shares_slot]),
      a pool that failed to start and cannot be started again ([no_gpu_no_retry]), tasks and
      loads that ask for more GPUs than there are ([each_condition_needed]), a failed load that
      leaves the others scaled down ([failed_load_keeps_share]).

    ** Fuel and bounds

    [pack_loop] runs with the node budget plus one as fuel, the bound at which the code itself
    gives up; [kk_loop] runs as often as the queue has states, one fewer being left after each
    merge; [split_down] and [coalesce] get the level of the slot, which changes by one in every
    turn; the JSON reader gets the length of its text plus one, every turn consuming a
    character; the sizing loop of the chunks gets the size of the payload; [find_seq_id] gets one
    turn more than there are ids in use; [evict_loop] gets the number of cached requests, one
    of which goes in every turn; [ffd_loop] gets one turn more than there are values, the number
    of groups growing in every turn; [bisect_loop] and the drain of a queue get its length; [chain_loop] gets one
    turn more than there are profiles, which differ along a chain; the pattern matcher gets the
    length of the pattern; [lowest_free] gets one turn more than there are taken slots.  The theorems
    state the results without a proviso about fuel.

    ** What is not modelled

    Attention kernels, flash-attention parameters and model patching of ZoRRo; the concurrency
    controller and the metrics of the scheduler; the validation of requests and the chat mode of
    streaming; placement options and environments of actors, router-replay calls, LoRA names and
    status of a pool, and what its workers do inside vLLM (a sleep keeps the version of the
    weights); what the operations of the semi-persistent engine do to processes and GPUs; HTTP,
    Ray and ZeroMQ transports; logging; model code, optimizers and training loops, the patches
    of vLLM, clients and most integrations, which call third-party systems.  Of what is left,
    the walk of a semi-persistent engine through its states
    ([inference/semi_persistence/orchestrator.py]) and the tool-call parser of the harness are
    the parts with most logic of their own. *)

From stdpp Require Import prelude gmap strings list sorting.
From Stdlib Require Import ZArith Lia ZifyNat ZifyBool.

(** ** Python exceptions and fallible code

    Every function of the source that can raise is modelled in the [res] monad:
    [Ok a] is a normal return, [Raise e] an uncaught exception.  The message of an
    exception is kept as a short tag that names the raise site. *)

Inductive exn :=
  | ValueError (msg : string)
  | TypeError (msg : string)
  | KeyError (msg : string)
  | IndexError (msg : string)
  | RuntimeError (msg : string)
  | ZeroDivisionError
  | AssertionError (msg : string)
  | ErrorWithIds (cls : string) (ids : list string). (* a class of the program that carries ids *)

#[export] Instance exn_eq_dec : EqDecision exn.
Proof. solve_decision. Defined.

Inductive res (A : Type) :=
  | Ok (a : A)
  | Raise (e : exn).
Arguments Ok {A} a.
Arguments Raise {A} e.

#[export] Instance res_ret : MRet res := fun A a => Ok a.
#[export] Instance res_bind : MBind res := fun A B f m =>
  match m with Ok a => f a | Raise e => Raise e end.
#[export] Instance res_fmap : FMap res := fun A B f m =>
  match m with Ok a => Ok (f a) | Raise e => Raise e end.

(** [check b e] is Python's [if not b: raise e] (and [assert b]). *)
Definition check (b : bool) (e : exn) : res unit := if b then Ok () else Raise e.

(** List indexing [l[i]] with a non-negative index. *)
Definition at_index {A} (l : list A) (i : nat) : res A :=
  match l !! i with Some x => Ok x | None => Raise (IndexError "list index out of range") end.

Definition is_ok {A} (r : res A) : bool := match r with Ok _ => true | Raise _ => false end.

(** A left fold whose body may raise: Python's [for x in l: acc = f acc x]. *)
Fixpoint foldM {A B} (f : B -> A -> res B) (acc : B) (l : list A) : res B :=
  match l with
  | [] => Ok acc
  | x :: l => acc' ← f acc x; foldM f acc' l
  end.

Create HintDb arctic.

(** [res_inv] destructs the binds and checks of a hypothesis [_ = Ok _]. *)
Lemma bind_Ok_inv {A B} (m : res A) (f : A -> res B) b :
  m ≫= f = Ok b -> exists a, m = Ok a /\ f a = Ok b.
Proof. destruct m; [eauto | done]. Qed.

Lemma check_Ok_inv b e u : check b e = Ok u -> b = true.
Proof. by destruct b. Qed.

Ltac res_inv :=
  repeat match goal with
  | H : _ ≫= _ = Ok _ |- _ =>
      let x := fresh "r" in let H1 := fresh "Hm" in let H2 := fresh "Hk" in
      apply bind_Ok_inv in H as (x & H1 & H2)
  | H : check _ _ = Ok _ |- _ => apply check_Ok_inv in H
  | H : Ok _ = Ok _ |- _ => injection H as H
  | H : Raise _ = Ok _ |- _ => discriminate H
  end; try subst.

Lemma foldM_app {A B} (f : B -> A -> res B) acc l k :
  foldM f acc (l ++ k) = acc' ← foldM f acc l; foldM f acc' k.
Proof.
  revert acc; induction l as [|x l IH]; intros acc; [done|]. simpl.
  destruct (f acc x); simpl; [apply IH|done].
Qed.

(** Nested loops are one loop over the flat list. *)
Lemma foldM_bind {A B C} (f : B -> C -> res B) (g : A -> list C) acc (l : list A) :
  foldM f acc (l ≫= g) = foldM (fun acc x => foldM f acc (g x)) acc l.
Proof.
  revert acc; induction l as [|x l IH]; intros acc; [done|]. cbn [mbind list_bind foldM].
  rewrite foldM_app. destruct (foldM f acc (g x)); [apply IH|done].
Qed.

Lemma foldM_fmap {A B C} (f : B -> C -> res B) (h : A -> C) acc (l : list A) :
  foldM f acc (h <$> l) = foldM (fun acc x => f acc (h x)) acc l.
Proof. revert acc; induction l as [|x l IH]; intros acc; [done|]. csimpl. destruct (f acc (h x)); [apply IH|done]. Qed.

Lemma foldM_ext {A B} (f g : B -> A -> res B) acc l :
  (forall acc x, f acc x = g acc x) -> foldM f acc l = foldM g acc l.
Proof.
  intros H. revert acc; induction l as [|x l IH]; intros acc; [done|]. cbn [foldM].
  rewrite H. destruct (g acc x); [apply IH|done].
Qed.

(** The invariant rule of a loop: [P done acc] relates the elements already visited and the
    accumulator. *)
Lemma foldM_inv {A B} (P : list A -> B -> Prop) (f : B -> A -> res B) acc l b :
  P [] acc ->
  (forall pre x c c', P pre c -> x ∈ l -> f c x = Ok c' -> P (pre ++ [x]) c') ->
  foldM f acc l = Ok b -> P l b.
Proof.
  intros H0 Hs. assert (Hgen : forall pre suf c, l = pre ++ suf -> P pre c -> foldM f c suf = Ok b -> P l b).
  { intros pre suf; revert pre. induction suf as [|x suf IH]; intros pre c -> HP Hf.
    - rewrite app_nil_r. by injection Hf as <-.
    - simpl in Hf. apply bind_Ok_inv in Hf as (c' & Hc & Hf).
      eapply (IH (pre ++ [x]) c'); [by rewrite <- app_assoc| |done]. eapply Hs; [done|set_solver|done]. }
  intros Hf. by eapply (Hgen [] l acc).
Qed.

(** The same rule when the body cannot raise from an invariant state; the step may use which elements are left. *)
Lemma foldM_ok_split {A B} (P : list A -> B -> Prop) (f : B -> A -> res B) acc l :
  P [] acc ->
  (forall pre x suf c, l = pre ++ x :: suf -> P pre c -> exists c', f c x = Ok c' /\ P (pre ++ [x]) c') ->
  exists b, foldM f acc l = Ok b /\ P l b.
Proof.
  intros H0 Hs. assert (Hgen : forall suf pre c, l = pre ++ suf -> P pre c -> exists b, foldM f c suf = Ok b /\ P l b).
  { intros suf. induction suf as [|x suf IH]; intros pre c E HP.
    - exists c. split; [done|]. by rewrite E, app_nil_r.
    - destruct (Hs pre x suf c E HP) as (c' & Hc & HP'). simpl. rewrite Hc. simpl.
      apply (IH (pre ++ [x]) c'); [by rewrite <- app_assoc|done]. }
  by apply (Hgen l [] acc).
Qed.

Lemma foldM_ok {A B} (P : list A -> B -> Prop) (f : B -> A -> res B) acc l :
  P [] acc ->
  (forall pre x c, P pre c -> x ∈ l -> exists c', f c x = Ok c' /\ P (pre ++ [x]) c') ->
  exists b, foldM f acc l = Ok b /\ P l b.
Proof. intros H0 Hs. apply foldM_ok_split; [done|]. intros pre x suf c -> HP. apply Hs; [done|]. set_solver. Qed.

(** Loops without exceptions. *)
Lemma fold_left_inv {A B} (P : list A -> B -> Prop) (f : B -> A -> B) acc l :
  P [] acc -> (forall pre x c, P pre c -> x ∈ l -> P (pre ++ [x]) (f c x)) -> P l (fold_left f l acc).
Proof.
  intros H0 Hs. assert (Hgen : forall suf pre c, l = pre ++ suf -> P pre c -> P l (fold_left f suf c)).
  { intros suf. induction suf as [|x suf IH]; intros pre c E HP; simpl.
    - by rewrite E, app_nil_r.
    - apply (IH (pre ++ [x])); [by rewrite <- app_assoc|]. apply Hs; [done|]. set_solver. }
  by apply (Hgen l [] acc).
Qed.

Lemma Forall2_impl_in {A B} (P Q : A -> B -> Prop) l k :
  Forall2 P l k -> (forall x y, x ∈ l -> P x y -> Q x y) -> Forall2 Q l k.
Proof. induction 1 as [|x y l k Hxy _ IH]; intros HQ; constructor; [apply HQ|apply IH; intros]; set_solver. Qed.

Section mapM.
Context {A B : Type}.
Implicit Types (f : A -> res B) (l : list A).

Lemma mapM_ok f (g : A -> B) l :
  (forall x, x ∈ l -> f x = Ok (g x)) -> mapM f l = Ok (g <$> l).
Proof.
  induction l as [|x l IH]; intros H; [done|]. simpl.
  rewrite (H x) by set_solver. simpl. rewrite IH by set_solver. done.
Qed.

Lemma mapM_total f l :
  (forall x, x ∈ l -> exists y, f x = Ok y) -> exists k, mapM f l = Ok k /\ Forall2 (fun x y => f x = Ok y) l k.
Proof.
  induction l as [|x l IH]; intros H; [by exists []|].
  destruct (H x) as [y Hy]; [set_solver|]. destruct IH as (k & Hk & HF); [set_solver|].
  exists (y :: k). cbn [mapM]. rewrite Hy. simpl. rewrite Hk. split; [done|]. by constructor.
Qed.

Lemma mapM_map {C} f (h : C -> A) (l : list C) : mapM f (List.map h l) = mapM (fun c => f (h c)) l.
Proof. induction l as [|c l IH]; [done|]. simpl. by rewrite IH. Qed.

Lemma mapM_ok_inv f l k : mapM f l = Ok k -> Forall2 (fun x y => f x = Ok y) l k.
Proof.
  revert k; induction l as [|x l IH]; intros k H; simpl in H.
  - injection H as <-. constructor.
  - apply bind_Ok_inv in H as (y & Hy & H).
    apply bind_Ok_inv in H as (ys & Hys & H). injection H as <-.
    constructor; auto.
Qed.

Lemma mapM_ok_length f l k : mapM f l = Ok k -> length k = length l.
Proof. intros H%mapM_ok_inv. symmetry. by eapply Forall2_length. Qed.
End mapM.

Lemma at_index_ok {A} (l : list A) i x : l !! i = Some x -> at_index l i = Ok x.
Proof. unfold at_index. by intros ->. Qed.

Lemma at_index_lt {A} (l : list A) i : i < length l -> exists x, l !! i = Some x /\ at_index l i = Ok x.
Proof.
  intros [x Hx]%lookup_lt_is_Some_2. exists x. split; [done|]. by apply at_index_ok.
Qed.

(** ** Python ordering: [sorted], [min] and [max] with a key

    All three are defined from the [<] of the compared values, as in Python: [sorted] is
    stable, [min] and [max] return the first extremal element. *)

Class StrictWeak {A} (lt : A -> A -> bool) : Prop := {
  sw_asym : forall x y, lt x y = true -> lt y x = false;
  sw_ntrans : forall x y z, lt x y = false -> lt y z = false -> lt x z = false;
}.

Definition by_key {A B} (key : A -> B) (lt : B -> B -> bool) : A -> A -> bool :=
  fun x y => lt (key x) (key y).
Definition rev_order {A} (lt : A -> A -> bool) : A -> A -> bool := fun x y => lt y x.
Definition lex_pair {A B} (ltA : A -> A -> bool) (ltB : B -> B -> bool) (p q : A * B) : bool :=
  ltA p.1 q.1 || (negb (ltA q.1 p.1) && ltB p.2 q.2).
Fixpoint lex_list {A} (lt : A -> A -> bool) (l k : list A) : bool :=
  match l, k with
  | _, [] => false
  | [], _ :: _ => true
  | x :: l, y :: k => lt x y || (negb (lt y x) && lex_list lt l k)
  end.

#[global] Typeclasses Opaque by_key rev_order lex_pair lex_list.
#[global] Hint Mode StrictWeak - ! : typeclass_instances.

#[export] Instance sw_Z : StrictWeak Z.ltb.
Proof. split; intros; lia. Qed.
#[export] Instance sw_nat : StrictWeak Nat.ltb.
Proof. split; intros; lia. Qed.
#[export] Instance sw_by_key {A B} (key : A -> B) lt : StrictWeak lt -> StrictWeak (by_key key lt).
Proof. intros [H1 H2]. split; unfold by_key; eauto. Qed.
#[export] Instance sw_rev {A} (lt : A -> A -> bool) : StrictWeak lt -> StrictWeak (rev_order lt).
Proof. intros [H1 H2]. split; unfold rev_order; eauto. Qed.
#[export] Instance sw_lex_pair {A B} (ltA : A -> A -> bool) (ltB : B -> B -> bool) :
  StrictWeak ltA -> StrictWeak ltB -> StrictWeak (lex_pair ltA ltB).
Proof.
  intros HA HB. split; unfold lex_pair.
  - intros [x1 x2] [y1 y2]; simpl. intros [H|[H1 H2]%andb_true_iff]%orb_true_iff.
    + rewrite (sw_asym _ _ H), H. done.
    + apply negb_true_iff in H1. rewrite H1. simpl. rewrite (sw_asym _ _ H2).
      by rewrite andb_false_r.
  - intros [x1 x2] [y1 y2] [z1 z2]; simpl.
    intros [H1 H2]%orb_false_iff [H3 H4]%orb_false_iff.
    apply orb_false_iff; split; [by eapply sw_ntrans|].
    apply andb_false_iff. destruct (ltA z1 x1) eqn:Hzx; [by left|]. right.
    assert (Hyx : ltA y1 x1 = false) by (by eapply sw_ntrans).
    assert (Hzy : ltA z1 y1 = false) by (by eapply sw_ntrans).
    rewrite Hyx in H2. rewrite Hzy in H4. simpl in *. by eapply sw_ntrans.
Qed.

Lemma lex_list_asym {A} (lt : A -> A -> bool) `{!StrictWeak lt} l k :
  lex_list lt l k = true -> lex_list lt k l = false.
Proof.
  revert k; induction l as [|x l IH]; intros [|y k]; simpl; try done.
  intros [H|[H1 H2]%andb_true_iff]%orb_true_iff.
  - rewrite (sw_asym _ _ H), H. done.
  - apply negb_true_iff in H1. rewrite H1. simpl. rewrite (IH _ H2). by rewrite andb_false_r.
Qed.

Lemma lex_list_ntrans {A} (lt : A -> A -> bool) `{!StrictWeak lt} l k m :
  lex_list lt l k = false -> lex_list lt k m = false -> lex_list lt l m = false.
Proof.
  revert k m; induction l as [|x l IH]; intros [|y k] [|z m]; simpl; try done.
  intros [H1 H2]%orb_false_iff [H3 H4]%orb_false_iff.
  apply orb_false_iff; split; [by eapply sw_ntrans|].
  apply andb_false_iff. destruct (lt z x) eqn:Hzx; [by left|]. right.
  assert (Hyx : lt y x = false) by (by eapply sw_ntrans).
  assert (Hzy : lt z y = false) by (by eapply sw_ntrans).
  rewrite Hyx in H2. rewrite Hzy in H4. simpl in *. by eapply IH.
Qed.

#[export] Instance sw_lex_list {A} (lt : A -> A -> bool) : StrictWeak lt -> StrictWeak (lex_list lt).
Proof. intros H. split; [by apply lex_list_asym|by apply lex_list_ntrans]. Qed.

Section sorting.
Context {A : Type} (lt : A -> A -> bool).

Fixpoint py_insert (x : A) (l : list A) : list A :=
  match l with
  | [] => [x]
  | y :: l' => if lt y x then y :: py_insert x l' else x :: y :: l'
  end.
Definition py_sorted (l : list A) : list A := foldr py_insert [] l.

Definition py_min (l : list A) : option A :=
  match l with
  | [] => None
  | x :: l => Some (fold_left (fun best y => if lt y best then y else best) l x)
  end.

Lemma py_insert_perm x l : py_insert x l ≡ₚ x :: l.
Proof.
  induction l as [|y l IH]; simpl; [done|]. destruct (lt y x); [|done].
  rewrite IH. by constructor.
Qed.

Lemma py_sorted_perm l : py_sorted l ≡ₚ l.
Proof. induction l as [|x l IH]; simpl; [done|]. by rewrite py_insert_perm, IH. Qed.

Lemma py_sorted_length l : length (py_sorted l) = length l.
Proof. by rewrite py_sorted_perm. Qed.

Lemma py_sorted_id l : StronglySorted (fun x y => lt y x = false) l -> py_sorted l = l.
Proof.
  induction 1 as [|x l _ IH Hx]; simpl; [done|]. rewrite IH. destruct l as [|y l]; simpl; [done|]. apply Forall_cons in Hx as [-> _]. done.
Qed.

Context `{!StrictWeak lt}.

Lemma sw_trans_le x y z : lt y x = false -> lt z y = false -> lt z x = false.
Proof. intros. by eapply sw_ntrans. Qed.

Lemma py_insert_sorted x l :
  StronglySorted (fun x y => lt y x = false) l ->
  StronglySorted (fun x y => lt y x = false) (py_insert x l).
Proof.
  induction 1 as [|y l Hl IH Hy]; simpl; [repeat constructor|].
  destruct (lt y x) eqn:E.
  - constructor; [done|]. rewrite py_insert_perm. constructor; [|done]. by apply sw_asym.
  - constructor; [by constructor|]. constructor; [done|].
    eapply Forall_impl; [exact Hy|]. simpl. intros z Hz. by eapply sw_trans_le.
Qed.

Lemma py_sorted_sorted l : StronglySorted (fun x y => lt y x = false) (py_sorted l).
Proof. induction l; simpl; [constructor|]. by apply py_insert_sorted. Qed.

Lemma fold_min_spec l x :
  let m := fold_left (fun best y => if lt y best then y else best) l x in
  m ∈ x :: l /\ Forall (fun y => lt y m = false) (x :: l).
Proof.
  revert x; induction l as [|y l IH]; intros x; simpl.
  - split; [set_solver|]. constructor; [|done].
    destruct (lt x x) eqn:E; [|done]. by rewrite (sw_asym _ _ E) in E.
  - destruct (lt y x) eqn:E.
    + destruct (IH y) as [Hin Hall]. split; [set_solver|]. constructor; [|done].
      inversion Hall as [|? ? Hy Hl]; subst.
      apply sw_ntrans with y; [by apply sw_asym|done].
    + destruct (IH x) as [Hin Hall]. split; [set_solver|].
      inversion Hall as [|? ? Hx Hl]; subst. constructor; [done|]. constructor; [|done].
      by eapply sw_ntrans.
Qed.

Lemma py_min_spec l m :
  py_min l = Some m -> m ∈ l /\ Forall (fun y => lt y m = false) l.
Proof. destruct l as [|x l]; [done|]. intros [= <-]. apply fold_min_spec. Qed.

Lemma py_min_is_Some l : l <> [] -> is_Some (py_min l).
Proof. destruct l; [done|]. simpl. eauto. Qed.
End sorting.

(** Python's [max(l, key)]: the first maximal element. *)
Definition py_max {A} (lt : A -> A -> bool) (l : list A) : option A := py_min (rev_order lt) l.

Lemma py_max_spec {A} (lt : A -> A -> bool) `{!StrictWeak lt} l m :
  py_max lt l = Some m -> m ∈ l /\ Forall (fun y => lt m y = false) l.
Proof. intros H%py_min_spec; [done|apply _]. Qed.

#[export] Hint Resolve py_sorted_perm py_insert_perm : arctic.

#[export] Instance py_sorted_Proper {A} (lt : A -> A -> bool) :
  Proper (Permutation ==> Permutation) (py_sorted lt).
Proof. intros l k H. by rewrite !py_sorted_perm. Qed.

(** ** Sums *)

Fixpoint sumZ (l : list Z) : Z := match l with [] => 0%Z | x :: l => (x + sumZ l)%Z end.

Lemma sumZ_app l k : sumZ (l ++ k) = (sumZ l + sumZ k)%Z.
Proof. induction l; simpl; lia. Qed.
#[export] Instance sumZ_perm : Proper (Permutation ==> eq) sumZ.
Proof. intros l k H. induction H; simpl in *; lia. Qed.
Lemma sumZ_nonneg l : Forall (fun x => 0 <= x)%Z l -> (0 <= sumZ l)%Z.
Proof. induction 1 as [|x l Hx Hl IH]; simpl in *; lia. Qed.
Lemma sumZ_elem_le l x : Forall (fun x => (0 <= x)%Z) l -> x ∈ l -> (x <= sumZ l)%Z.
Proof.
  induction 1 as [|y l Hy Hl IH]; intros Hin; [set_solver|]. simpl.
  pose proof (sumZ_nonneg l Hl). apply elem_of_cons in Hin as [->|Hin]; [lia|].
  specialize (IH Hin). lia.
Qed.
Lemma sumZ_concat (ls : list (list Z)) : sumZ (concat ls) = sumZ (sumZ <$> ls).
Proof. induction ls; csimpl; [done|]. rewrite sumZ_app. lia. Qed.

(** ** Lists of groups: appending to one group, and partitions of [0 .. n) *)

(** [groups[i].append(x)]. *)
Definition append_at {A} (i : nat) (x : A) (gs : list (list A)) : list (list A) :=
  alter (fun g => g ++ [x]) i gs.

Lemma list_alter_split {A} (f : A -> A) (l : list A) i x :
  l !! i = Some x -> alter f i l = take i l ++ f x :: drop (S i) l.
Proof.
  revert i; induction l as [|y l IH]; intros [|i] H; simplify_eq/=; [done|].
  f_equal. by apply IH.
Qed.

Lemma list_split_at {A} (l : list A) i x :
  l !! i = Some x -> l = take i l ++ x :: drop (S i) l.
Proof. intros H. by rewrite (take_drop_middle l i x H). Qed.

Lemma concat_append_at {A} (gs : list (list A)) i x :
  i < length gs -> concat (append_at i x gs) ≡ₚ x :: concat gs.
Proof.
  intros [g Hg]%lookup_lt_is_Some_2. unfold append_at.
  rewrite (list_alter_split _ _ _ _ Hg).
  rewrite (list_split_at _ _ _ Hg) at 3.
  rewrite !concat_app. simpl. rewrite <- app_assoc. simpl.
  rewrite app_assoc. rewrite <- Permutation_middle. by rewrite <- app_assoc.
Qed.

Lemma length_append_at {A} (gs : list (list A)) i x : length (append_at i x gs) = length gs.
Proof. apply length_alter. Qed.

(** Every row of [0 .. n) occurs in exactly one group, exactly once. *)
Definition is_partition (gs : list (list nat)) (n : nat) : Prop := concat gs ≡ₚ seq 0 n.

#[export] Instance concat_perm {A} : Proper (Permutation ==> Permutation) (@concat A).
Proof.
  intros gs hs H. induction H; simpl.
  - done.
  - by f_equiv.
  - rewrite !app_assoc. by rewrite (Permutation_app_comm y x).
  - etrans; eauto.
Qed.

Lemma elem_of_concat {A} (x : A) (ls : list (list A)) : x ∈ concat ls <-> exists l, x ∈ l /\ l ∈ ls.
Proof.
  rewrite list_elem_of_In, in_concat. split; intros (l & H1 & H2); exists l; rewrite !list_elem_of_In in *; done.
Qed.

Lemma concat_map_perm {A} (f : list A -> list A) (gs : list (list A)) :
  (forall g, f g ≡ₚ g) -> concat (f <$> gs) ≡ₚ concat gs.
Proof. intros Hf. induction gs as [|g gs IH]; simpl; [done|]. by rewrite Hf, IH. Qed.

Lemma is_partition_lt gs n g r : is_partition gs n -> g ∈ gs -> r ∈ g -> r < n.
Proof.
  intros HP Hg Hr. assert (r ∈ concat gs) as H.
  { apply list_elem_of_In, in_concat. exists g.
    split; by apply list_elem_of_In. }
  rewrite HP in H. apply elem_of_seq in H. lia.
Qed.

Lemma filter_ext_elem {A} (P Q : A -> Prop) `{!forall x, Decision (P x), !forall x, Decision (Q x)} (l : list A) :
  (forall x, x ∈ l -> P x <-> Q x) -> filter P l = filter Q l.
Proof.
  induction l as [|x l IH]; intros HPQ; [done|]. rewrite !filter_cons.
  assert (P x <-> Q x) by (apply HPQ; set_solver).
  rewrite IH by set_solver. repeat case_decide; tauto.
Qed.

Lemma StronglySorted_weaken {A} (R S : A -> A -> Prop) l :
  (forall x y, R x y -> S x y) -> StronglySorted R l -> StronglySorted S l.
Proof.
  intros HRS. induction 1 as [|x l Hl IH Hx]; constructor; [done|].
  eapply Forall_impl; eauto.
Qed.

(** [sorted(l) == list(range(n))] is exactly being a permutation of [0 .. n). *)
(** Sorting commutes with a map that preserves the order. *)
Lemma py_sorted_fmap {A B} (f : A -> B) (ltA : A -> A -> bool) (ltB : B -> B -> bool) (l : list A) :
  (forall x y, ltB (f x) (f y) = ltA x y) -> py_sorted ltB (f <$> l) = f <$> py_sorted ltA l.
Proof.
  intros H. induction l as [|x l IH]; [done|]. csimpl. rewrite IH. generalize (py_sorted ltA l) as k.
  induction k as [|y k IHk]; [done|]. simpl. rewrite H. destruct (ltA y x); csimpl; [by rewrite IHk|done].
Qed.

Lemma py_sorted_seq l n : l ≡ₚ seq 0 n -> py_sorted Nat.ltb l = seq 0 n.
Proof.
  intros H. apply (StronglySorted_unique_strong Nat.le); [|..].
  - intros x y ????. lia.
  - eapply StronglySorted_weaken; [|apply py_sorted_sorted, _]. simpl. intros; lia.
  - apply Sorted_StronglySorted; [intros ???; lia|].
    clear H. generalize 0. induction n as [|n IH]; intros k; simpl; constructor; [done|].
    destruct n; simpl; constructor. lia.
  - by rewrite py_sorted_perm.
Qed.

Lemma py_sorted_seq_inv l n : py_sorted Nat.ltb l = seq 0 n -> l ≡ₚ seq 0 n.
Proof. intros <-. by rewrite py_sorted_perm. Qed.

Lemma filter_all {A} (P : A -> Prop) `{!forall x, Decision (P x)} (l : list A) :
  (forall x, x ∈ l -> P x) -> filter P l = l.
Proof.
  induction l as [|x l IH]; intros HP; [done|]. rewrite filter_cons, decide_True by set_solver.
  rewrite IH by set_solver. done.
Qed.

Lemma filter_none {A} (P : A -> Prop) `{!forall x, Decision (P x)} (l : list A) :
  (forall x, x ∈ l -> ~ P x) -> filter P l = [].
Proof.
  induction l as [|x l IH]; intros HP; [done|]. rewrite filter_cons, decide_False by set_solver.
  apply IH. set_solver.
Qed.

Lemma Forall_filter {A} (P Q : A -> Prop) `{!forall x, Decision (P x)} (l : list A) :
  Forall Q l -> Forall Q (filter P l).
Proof.
  rewrite !Forall_forall. intros HQ x [_ Hx]%list_elem_of_filter. by apply HQ.
Qed.

(** Lists that agree key by key are permutations of each other. *)
Lemma filter_by_key_perm {A K} `{!EqDecision K} (key : A -> K) (l k : list A) :
  (forall s, filter (fun x => key x = s) l = filter (fun x => key x = s) k) -> l ≡ₚ k.
Proof.
  revert k; induction l as [|x l IH]; intros k H.
  - destruct k as [|y k]; [done|]. specialize (H (key y)).
    rewrite filter_nil, filter_cons, decide_True in H by done. done.
  - assert (Hx := H (key x)). rewrite filter_cons, decide_True in Hx by done.
    destruct (head_filter_Some (fun y => key y = key x) k x) as (k1 & k2 & -> & Hk1); [by rewrite <- Hx|].
    rewrite <- Permutation_middle. constructor. apply IH. intros s. specialize (H s).
    rewrite filter_app, !filter_cons in H. rewrite filter_app.
    destruct (decide (key x = s)) as [<-|]; [|done].
    rewrite Forall_forall in Hk1. rewrite (filter_none _ k1) in * by done. by injection H.
Qed.
