(* ===== verification/Dict.v ===== *)
(** * Python dictionaries with their insertion order

    Iteration over a [dict] (or an [OrderedDict]) follows insertion order, and code that
    sorts or scans a dictionary depends on it; [gmap] has no such order.  A dictionary is
    the list of its items: assigning to a key that is present keeps its place, assigning to
    a new key appends, and removal keeps the order of the rest.  Dictionaries built by these
    operations have distinct keys ([NoDup (dict_keys d)]). *)

From stdpp Require Import prelude strings list.
From Stdlib Require Import ZArith Lia.
From S2P Require Import Prelude.

Section dict.
Context {K V : Type} `{!EqDecision K}.
Implicit Types (d : list (K * V)) (k : K) (v : V).

Definition dict_keys d : list K := d.*1.

Fixpoint dict_get d k : option V :=
  match d with
  | [] => None
  | (k', v) :: d => if decide (k = k') then Some v else dict_get d k
  end.

Fixpoint dict_set d k v : list (K * V) :=
  match d with
  | [] => [(k, v)]
  | (k', v') :: d => if decide (k = k') then (k, v) :: d else (k', v') :: dict_set d k v
  end.

Definition dict_del d k : list (K * V) := filter (fun kv => kv.1 <> k) d.

(** [d[k]], which raises on an absent key. *)
Definition dict_at d k : res V :=
  match dict_get d k with Some v => Ok v | None => Raise (KeyError "key") end.

Lemma dict_get_set_eq d k v : dict_get (dict_set d k v) k = Some v.
Proof.
  induction d as [|[k' v'] d IH]; simpl; [by rewrite decide_True|].
  destruct (decide (k = k')); simpl; [by rewrite decide_True|by rewrite decide_False].
Qed.

Lemma dict_get_set_ne d k k' v : k <> k' -> dict_get (dict_set d k v) k' = dict_get d k'.
Proof.
  intros Hne. induction d as [|[k0 v0] d IH]; simpl; [by rewrite decide_False by congruence|].
  destruct (decide (k = k0)) as [->|]; simpl.
  - by rewrite !decide_False by congruence.
  - by rewrite IH.
Qed.

Lemma dict_get_del_eq d k : dict_get (dict_del d k) k = None.
Proof.
  unfold dict_del. induction d as [|[k0 v0] d IH]; [done|]. rewrite filter_cons. simpl.
  case_decide; [|done]. simpl. by rewrite decide_False by congruence.
Qed.

Lemma dict_get_del_ne d k k' : k <> k' -> dict_get (dict_del d k) k' = dict_get d k'.
Proof.
  intros Hne. unfold dict_del. induction d as [|[k0 v0] d IH]; [done|]. rewrite filter_cons. simpl.
  destruct (decide (k0 = k)) as [->|].
  - rewrite decide_False by tauto. by rewrite decide_False by congruence.
  - rewrite decide_True by done. simpl. by rewrite IH.
Qed.

Lemma dict_get_keys d k : k ∈ dict_keys d <-> is_Some (dict_get d k).
Proof.
  unfold dict_keys. induction d as [|[k0 v0] d IH]; csimpl.
  - split; [set_solver|by intros []].
  - rewrite elem_of_cons, IH. destruct (decide (k = k0)); naive_solver.
Qed.

Lemma dict_get_None d k : dict_get d k = None <-> k ∉ dict_keys d.
Proof. rewrite dict_get_keys, eq_None_not_Some. done. Qed.

Lemma dict_keys_set_old d k v : k ∈ dict_keys d -> dict_keys (dict_set d k v) = dict_keys d.
Proof.
  unfold dict_keys. induction d as [|[k0 v0] d IH]; csimpl; [set_solver|].
  destruct (decide (k = k0)) as [->|]; csimpl; [done|].
  intros [?|?]%elem_of_cons; [done|]. f_equal. auto.
Qed.

Lemma dict_keys_set_new d k v : k ∉ dict_keys d -> dict_keys (dict_set d k v) = dict_keys d ++ [k].
Proof.
  unfold dict_keys. induction d as [|[k0 v0] d IH]; csimpl; [done|].
  rewrite not_elem_of_cons. intros [? ?]. rewrite decide_False by done. csimpl. f_equal. auto.
Qed.

Lemma dict_keys_set d k v k' : k' ∈ dict_keys (dict_set d k v) <-> k' = k \/ k' ∈ dict_keys d.
Proof.
  destruct (decide (k ∈ dict_keys d)).
  - rewrite dict_keys_set_old by done. set_solver.
  - rewrite dict_keys_set_new by done. set_solver.
Qed.

Lemma dict_keys_del d k : dict_keys (dict_del d k) = filter (fun k' => k' <> k) (dict_keys d).
Proof.
  unfold dict_keys, dict_del. induction d as [|[k0 v0] d IH]; [done|]. csimpl.
  rewrite !filter_cons. simpl. case_decide; csimpl; by rewrite IH.
Qed.

Lemma dict_set_new d k v : k ∉ dict_keys d -> dict_set d k v = d ++ [(k, v)].
Proof.
  unfold dict_keys. induction d as [|[k0 v0] d IH]; csimpl; [done|].
  rewrite not_elem_of_cons. intros [? ?]. rewrite decide_False by done. f_equal. auto.
Qed.

Lemma dict_set_nodup d k v : NoDup (dict_keys d) -> NoDup (dict_keys (dict_set d k v)).
Proof.
  intros H. destruct (decide (k ∈ dict_keys d)).
  - by rewrite dict_keys_set_old.
  - rewrite dict_keys_set_new, <- Permutation_cons_append by done. by constructor.
Qed.

Lemma dict_del_nodup d k : NoDup (dict_keys d) -> NoDup (dict_keys (dict_del d k)).
Proof. intros H. rewrite dict_keys_del. by apply NoDup_filter. Qed.

Lemma dict_get_elem d k v : dict_get d k = Some v -> (k, v) ∈ d.
Proof.
  induction d as [|[k0 v0] d IH]; simpl; [done|].
  destruct (decide (k = k0)) as [->|]; [intros [= ->]|]; set_solver.
Qed.

Lemma dict_elem_get d k v : NoDup (dict_keys d) -> (k, v) ∈ d -> dict_get d k = Some v.
Proof.
  unfold dict_keys. induction d as [|[k0 v0] d IH]; csimpl; [set_solver|].
  intros [Hk Hd]%NoDup_cons [[= -> ->]|H]%elem_of_cons; [by rewrite decide_True|].
  rewrite decide_False; [auto|]. intros ->. apply Hk. by apply (list_elem_of_fmap_2 fst _ (k0, v)).
Qed.

Lemma dict_del_not_in d k : k ∉ dict_keys d -> dict_del d k = d.
Proof.
  intros H. apply filter_all. intros [k' v'] Hkv E. apply H. simpl in E. subst k'.
  by apply (list_elem_of_fmap_2 fst _ (k, v')).
Qed.

(** Assignments in a loop: the last one for a key wins; here all of them agree. *)
Lemma dict_get_fold_set {A} (key : A -> K) (val : A -> V) (l : list A) d k :
  (forall x y, x ∈ l -> y ∈ l -> key x = key y -> val x = val y) ->
  (forall x, x ∈ l -> key x = k -> dict_get (fold_left (fun d x => dict_set d (key x) (val x)) l d) k = Some (val x)) /\
  (k ∉ (key <$> l) -> dict_get (fold_left (fun d x => dict_set d (key x) (val x)) l d) k = dict_get d k).
Proof.
  revert d; induction l as [|x l IH]; intros d H; simpl; [split; [set_solver|done]|].
  destruct (IH (dict_set d (key x) (val x))) as [IH1 IH2]; [intros; apply H; set_solver|]. split.
  - intros y [->|Hy]%elem_of_cons Hk; [|by apply IH1].
    destruct (decide (k ∈ (key <$> l))) as [(z & Hz & Hin)%list_elem_of_fmap|Hn].
    + assert (E : val x = val z) by (apply H; [set_solver|set_solver|congruence]).
      rewrite (IH1 z) by done. by rewrite E.
    + rewrite IH2 by done. by rewrite Hk, dict_get_set_eq.
  - csimpl. rewrite not_elem_of_cons. intros [Hne Hn]. rewrite IH2 by done. by rewrite dict_get_set_ne.
Qed.
End dict.

(** Dictionaries related item by item. *)
Lemma dict_get_Forall2 {K V W} `{!EqDecision K} (R : K -> V -> W -> Prop) (d : list (K * V)) (d' : list (K * W)) k :
  Forall2 (fun kv kv' => kv'.1 = kv.1 /\ R kv.1 kv.2 kv'.2) d d' ->
  match dict_get d k, dict_get d' k with
  | Some v, Some v' => R k v v'
  | None, None => True
  | _, _ => False
  end.
Proof.
  induction 1 as [|[k1 v1] [k2 v2] d d' [E HR] HF IH]; [done|]. simpl in *. subst k2. by case_decide; subst.
Qed.

Lemma dict_keys_Forall2 {K V W} (R : K * V -> K * W -> Prop) (d : list (K * V)) (d' : list (K * W)) :
  Forall2 (fun kv kv' => kv'.1 = kv.1 /\ R kv kv') d d' -> dict_keys d' = dict_keys d.
Proof. unfold dict_keys. induction 1 as [|kv kv' d d' [E _] HF IH]; csimpl; congruence. Qed.

Lemma dict_sum_set {K} `{!EqDecision K} (d : list (K * Z)) k v :
  sumZ (dict_set d k v).*2 = (sumZ d.*2 - default 0 (dict_get d k) + v)%Z.
Proof.
  induction d as [|[k0 v0] d IH]; csimpl; [lia|].
  destruct (decide (k = k0)); csimpl; lia.
Qed.

Lemma dict_sum_del {K} `{!EqDecision K} (d : list (K * Z)) k :
  NoDup (dict_keys d) -> sumZ (dict_del d k).*2 = (sumZ d.*2 - default 0 (dict_get d k))%Z.
Proof.
  unfold dict_keys, dict_del. induction d as [|[k0 v0] d IH]; csimpl; [done|].
  intros [Hk Hd]%NoDup_cons. rewrite filter_cons. simpl. destruct (decide (k0 = k)) as [->|].
  - rewrite decide_False by tauto. rewrite decide_True by done. simpl.
    pose proof (dict_del_not_in d k Hk) as E. unfold dict_del in E. rewrite E. lia.
  - rewrite decide_True by done. rewrite decide_False by congruence. csimpl. rewrite IH by done. lia.
Qed.

#[export] Hint Rewrite @dict_get_set_eq @dict_get_del_eq : arctic.
#[export] Hint Resolve dict_set_nodup dict_del_nodup : arctic.
