(* ===== verification/Tensor.v ===== *)
(** * Tensors and request batches

    The data every packing routine works on.  A tensor is its shape and its row-major
    contents, as [torch.reshape] and [view] see it: a reshape keeps [t_data] and only
    changes [t_shape].  Elements are integers; floating-point payloads are only moved or
    padded with integral constants by the code modelled here, never computed with, so an
    integer stands for the element's encoding.  A batch is an insertion-ordered Python
    dict with string keys whose values are tensors, nested dicts or anything else.

    [map_batch_values] is [common/packing/walk.py]. *)

From S2P Require Import Prelude Dict.
From stdpp Require Import prelude gmap strings list.
From Stdlib Require Import ZArith Lia ZifyNat ZifyBool.

(** ** Fixed-width chunks of a list *)

(** The [i]-th chunk of width [w]. *)
Definition chunk {A} (w : nat) (l : list A) (i : nat) : list A := take w (drop (i * w) l).
(** The first [n] chunks of width [w]. *)
Definition chunks {A} (w n : nat) (l : list A) : list (list A) := chunk w l <$> seq 0 n.

Section chunk.
Context {A : Type}.
Implicit Types (l : list A) (ps : list (list A)).

Lemma length_chunk w l i : S i * w <= length l -> length (chunk w l i) = w.
Proof. intros H. unfold chunk. rewrite length_take, length_drop. lia. Qed.

Lemma length_chunks w n l : length (chunks w n l) = n.
Proof. unfold chunks. by rewrite length_fmap, length_seq. Qed.

Lemma chunks_S w n l : chunks w (S n) l = take w l :: chunks w n (drop w l).
Proof.
  unfold chunks. simpl. f_equal. rewrite <- seq_shift. rewrite <- list_fmap_compose.
  apply list_fmap_ext. intros _ i _. unfold chunk, compose. simpl. by rewrite drop_drop.
Qed.

Lemma chunks_lookup w n l i : i < n -> chunks w n l !! i = Some (chunk w l i).
Proof.
  intros Hi. unfold chunks. rewrite list_lookup_fmap.
  by rewrite lookup_seq_lt by done.
Qed.

Lemma concat_chunks w n l : length l = n * w -> concat (chunks w n l) = l.
Proof.
  revert l; induction n as [|n IH]; intros l Hl.
  - by destruct l.
  - rewrite chunks_S. simpl. rewrite IH by (rewrite length_drop; lia).
    apply take_drop.
Qed.

Lemma concat_chunks_take w n l : concat (chunks w n l) = take (n * w) l.
Proof.
  revert l; induction n as [|n IH]; intros l; [done|]. rewrite chunks_S. simpl. rewrite IH.
  by rewrite take_take_drop.
Qed.

Lemma chunks_widths w n l : n * w <= length l -> Forall (fun p => length p = w) (chunks w n l).
Proof.
  intros H. apply Forall_forall. intros p [i [-> Hi]]%list_elem_of_fmap.
  apply elem_of_seq in Hi. apply length_chunk. nia.
Qed.

Lemma length_concat_const w ps :
  Forall (fun p => length p = w) ps -> length (concat ps) = length ps * w.
Proof. induction 1 as [|p ps Hp Hps IH]; simpl; [done|]. rewrite length_app. lia. Qed.

Lemma chunk_concat w ps i p :
  Forall (fun p => length p = w) ps -> ps !! i = Some p -> chunk w (concat ps) i = p.
Proof.
  intros H; revert i; induction H as [|q ps Hq Hps IH]; intros [|i] Hi; simplify_eq/=.
  - unfold chunk. simpl. rewrite drop_0. by rewrite take_app_length.
  - rewrite <- (IH i Hi). unfold chunk. simpl.
    rewrite drop_app_add. done.
Qed.

Lemma chunks_concat w ps :
  Forall (fun p => length p = w) ps -> chunks w (length ps) (concat ps) = ps.
Proof.
  intros H. apply list_eq. intros i. destruct (decide (i < length ps)) as [Hi|Hi].
  - rewrite chunks_lookup by done. destruct (lookup_lt_is_Some_2 _ _ Hi) as [p Hp].
    rewrite Hp. f_equal. by apply chunk_concat.
  - rewrite !lookup_ge_None_2; [done|lia|rewrite length_chunks; lia].
Qed.
End chunk.

(** ** Tensors *)

Record tensor := mk_tensor { t_shape : list nat; t_data : list Z }.

#[export] Instance tensor_eq_dec : EqDecision tensor.
Proof. solve_decision. Defined.

Fixpoint prodn (l : list nat) : nat := match l with [] => 1 | x :: l => x * prodn l end.

Definition t_wf (t : tensor) : Prop := length (t_data t) = prodn (t_shape t).
#[export] Instance t_wf_dec t : Decision (t_wf t).
Proof. unfold t_wf. apply _. Defined.

Definition ndim (t : tensor) : nat := length (t_shape t).
(** [t.shape[i]]; the source only reads dimensions it has checked to exist. *)
Definition dim (t : tensor) (i : nat) : nat := default 0 (t_shape t !! i).

(** The rows of a 2-D tensor. *)
Definition rows2 (t : tensor) : list (list Z) := chunks (dim t 1) (dim t 0) (t_data t).
(** The inverse: [torch.tensor(rows)] with a known second dimension. *)
Definition of_rows2 (s : nat) (rows : list (list Z)) : tensor :=
  mk_tensor [length rows; s] (concat rows).

(** [t.index_select(0, idx)]: an index outside dimension 0 raises. *)
Definition index_select0 (t : tensor) (idx : list nat) : res tensor :=
  match t_shape t with
  | [] => Raise (IndexError "index_select of a 0-d tensor")
  | d :: tr =>
      _ ← check (forallb (fun i => i <? d) idx) (IndexError "index out of range");
      Ok (mk_tensor (length idx :: tr) (concat (chunk (prodn tr) (t_data t) <$> idx)))
  end.

(** [t.unsqueeze(0)] and [t.squeeze(0)] on a leading dimension of 1. *)
Definition unsqueeze0 (t : tensor) : tensor := mk_tensor (1 :: t_shape t) (t_data t).

(** [t[:, a:b]] on dimension 1, with Python's clamping of slice bounds. *)
Definition slice1 (t : tensor) (a b : nat) : tensor :=
  match t_shape t with
  | d0 :: d1 :: tr =>
      let w := prodn tr in
      let a' := min a d1 in
      let b' := max a' (min b d1) in
      mk_tensor (d0 :: (b' - a') :: tr)
        (concat ((fun row => take ((b' - a') * w) (drop (a' * w) row)) <$> chunks (d1 * w) d0 (t_data t)))
  | _ => t
  end.

(** [F.pad] on the right of dimension 1 with a constant. *)
Definition pad1 (t : tensor) (n : nat) (v : Z) : tensor :=
  match t_shape t with
  | d0 :: d1 :: tr =>
      let w := prodn tr in
      mk_tensor (d0 :: (d1 + n) :: tr)
        (concat ((fun row => row ++ replicate (n * w) v) <$> chunks (d1 * w) d0 (t_data t)))
  | _ => t
  end.

(** [torch.cat(ts, dim=0)] of tensors with equal trailing dimensions. *)
Definition cat0 (tr : list nat) (ts : list tensor) : tensor :=
  mk_tensor (sum_list (flip dim 0 <$> ts) :: tr) (concat (t_data <$> ts)).

Lemma prodn_cons d tr : prodn (d :: tr) = d * prodn tr.
Proof. done. Qed.

Lemma index_select0_wf t d tr idx t' :
  t_shape t = d :: tr -> t_wf t -> index_select0 t idx = Ok t' ->
  t_shape t' = length idx :: tr /\ t_wf t' /\ t_data t' = concat (chunk (prodn tr) (t_data t) <$> idx).
Proof.
  intros Hs Hwf H. unfold index_select0 in H. rewrite Hs in H. res_inv.
  rename Hm into Hall. split; [done|]. split; [|done].
  unfold t_wf in *. rewrite Hs in Hwf. simpl in *.
  rewrite (length_concat_const (prodn tr)); [by rewrite length_fmap|].
  apply Forall_forall. intros p [i [-> Hi]]%list_elem_of_fmap. apply length_chunk.
  rewrite Hwf. rewrite forallb_forall in Hall. apply list_elem_of_In in Hi.
  specialize (Hall i Hi). nia.
Qed.

Lemma index_select0_ok t d tr idx :
  t_shape t = d :: tr -> Forall (fun i => i < d) idx ->
  index_select0 t idx = Ok (mk_tensor (length idx :: tr) (concat (chunk (prodn tr) (t_data t) <$> idx))).
Proof.
  intros Hs Hall. unfold index_select0. rewrite Hs.
  replace (forallb _ idx) with true; [done|]. symmetry. apply forallb_forall.
  intros i Hi. rewrite Forall_forall in Hall. specialize (Hall i ltac:(by apply list_elem_of_In)). lia.
Qed.

(** ** Batches *)

Inductive value :=
  | VTensor (t : tensor)
  | VDict (d : list (string * value))
  | VNone
  | VScalar (z : Z).

Abbreviation batch := (list (string * value)).



(** [map_batch_values] of walk.py: rebuild a batch with [transform key value] on every
    value that is not a dict, recursing into sub-dicts; [Ok None] is the [DROP] marker. *)
Section walk.
Variable transform : string -> value -> res (option value).

Fixpoint map_value (k : string) (v : value) : res (option value) :=
  match v with
  | VDict d =>
      d' ← (fix go (d : list (string * value)) : res (list (string * value)) :=
              match d with
              | [] => Ok []
              | (k', v') :: d =>
                  r ← map_value k' v';
                  rest ← go d;
                  Ok (match r with Some v'' => (k', v'') :: rest | None => rest end)
              end) d;
      Ok (Some (VDict d'))
  | _ => transform k v
  end.

Fixpoint map_batch_values (b : batch) : res batch :=
  match b with
  | [] => Ok []
  | (k, v) :: b =>
      r ← map_value k v;
      rest ← map_batch_values b;
      Ok (match r with Some v' => (k, v') :: rest | None => rest end)
  end.
End walk.

Lemma map_value_dict transform k d :
  map_value transform k (VDict d) = (d' ← map_batch_values transform d; Ok (Some (VDict d'))).
Proof.
  simpl. match goal with |- ?f d ≫= _ = _ => assert (f d = map_batch_values transform d) as -> end; [|done].
  clear k. induction d as [|[k v] d IH]; simpl; [done|].
  destruct (map_value transform k v) as [r|e]; simpl; [|done]. by rewrite IH.
Qed.

(** What a rewrite does to the value under a key: a leaf is transformed, a sub-dict is
    walked, and keys whose transform drops them disappear. *)
Lemma map_batch_values_get transform b b' k v :
  NoDup b.*1 -> map_batch_values transform b = Ok b' -> dict_get b k = Some v ->
  exists r, map_value transform k v = Ok r /\ dict_get b' k = r.
Proof.
  revert b'; induction b as [|[k0 v0] b IH]; intros b' Hnd H Hget; [done|].
  csimpl in *. apply NoDup_cons in Hnd as [Hk0 Hnd]. res_inv. case_decide; simplify_eq.
  - exists r. split; [done|]. destruct r; simpl; [by rewrite decide_True|].
    clear -Hk0 Hm0. revert r0 Hm0; induction b as [|[k1 v1] b IH]; intros r0 H; simpl in H; res_inv; [done|].
    csimpl in Hk0. apply not_elem_of_cons in Hk0 as [Hne Hk0].
    destruct r; simpl; rewrite ?decide_False by done; eauto.
  - destruct (IH _ Hnd Hm0 Hget) as (r' & Hr' & Hg). exists r'. split; [done|].
    destruct r; simpl; rewrite ?decide_False by done; done.
Qed.

Lemma map_batch_values_keys transform b b' :
  map_batch_values transform b = Ok b' -> NoDup b.*1 -> NoDup b'.*1 /\ b'.*1 ⊆ b.*1.
Proof.
  revert b'; induction b as [|[k v] b IH]; intros b' H Hnd; simpl in H; res_inv; [done|].
  csimpl in Hnd. apply NoDup_cons in Hnd as [Hk Hnd].
  destruct (IH _ Hm0 Hnd) as [Hnd' Hsub]. destruct r; csimpl.
  - split; [constructor; [|done]|]; set_solver.
  - split; [done|]. set_solver.
Qed.

(** ** Leaves of nested batches *)

(** The value at a path of keys: top-level leaves have a path of one key, RL's per-token
    tensors the path ["context"; key]. *)
Fixpoint get_path (b : batch) (path : list string) : option value :=
  match path with
  | [] => None
  | [k] => dict_get b k
  | k :: path => match dict_get b k with Some (VDict d) => get_path d path | _ => None end
  end.

(** Python dicts have distinct keys; this says so of the dicts a path goes through. *)
Fixpoint nodup_along (b : batch) (path : list string) : Prop :=
  NoDup b.*1 /\
  match path with
  | k :: path => match dict_get b k with Some (VDict d) => nodup_along d path | _ => True end
  | [] => True
  end.

Lemma map_batch_values_path transform b b' path k v :
  nodup_along b path -> last path = Some k -> get_path b path = Some v ->
  (forall d, v <> VDict d) -> map_batch_values transform b = Ok b' ->
  exists r, transform k v = Ok r /\ get_path b' path = r.
Proof.
  revert b b'; induction path as [|k0 path IH]; intros b b' Hnd Hl Hget Hv Hm; [done|].
  destruct Hnd as [Hnd Hrest]. destruct path as [|k1 path].
  - simpl in Hl. injection Hl as ->. simpl in Hget.
    destruct (map_batch_values_get _ _ _ _ _ Hnd Hm Hget) as (r & Hr & Hg).
    exists r. split; [|exact Hg]. by destruct v; [|destruct (Hv d)|..].
  - change (last (k0 :: k1 :: path)) with (last (k1 :: path)) in Hl.
    cbn [get_path] in Hget |- *. destruct (dict_get b k0) as [[|d| |]|] eqn:E; try done.
    destruct (map_batch_values_get _ _ _ _ _ Hnd Hm E) as (r & Hr & Hg).
    rewrite map_value_dict in Hr. res_inv. rewrite Hg.
    destruct (IH d r0 Hrest Hl Hget Hv Hm0) as (r' & Hr' & Hg'). eauto.
Qed.

(** Writing cells at distinct positions of a list of cells. *)
Lemma fold_insert_zip {A} (idx : list nat) (cells rows : list A) :
  NoDup idx -> length idx = length cells -> Forall (fun i => i < length rows) idx ->
  let out := fold_left (fun rows '(i, cell) => <[i := cell]> rows) (zip idx cells) rows in
  length out = length rows /\
  (forall p i cell, idx !! p = Some i -> cells !! p = Some cell -> out !! i = Some cell) /\
  (forall i, i ∉ idx -> out !! i = rows !! i).
Proof.
  revert cells rows; induction idx as [|i0 idx IH]; intros [|c0 cells] rows Hnd Hlen Hlt; simplify_eq/=.
  - split_and!; [done|intros; done|done].
  - apply NoDup_cons in Hnd as [Hi0 Hnd]. inversion Hlt as [|? ? H1 H2]; subst.
    destruct (IH cells (<[i0 := c0]> rows) Hnd) as (Hl & Hin & Hout); [done|by rewrite length_insert|].
    rewrite length_insert in Hl. split_and!; [exact Hl| |].
    + intros [|p] i cell Hp Hc; simplify_eq/=.
      * rewrite Hout by done. by rewrite list_lookup_insert_eq.
      * by eapply Hin.
    + intros i Hi. apply not_elem_of_cons in Hi as [Hne Hi].
      rewrite Hout by done. by rewrite list_lookup_insert_ne.
Qed.

Lemma nodup_along_map transform b b' path t t' :
  nodup_along b path -> map_batch_values transform b = Ok b' ->
  get_path b path = Some (VTensor t) -> get_path b' path = Some (VTensor t') -> nodup_along b' path.
Proof.
  revert b b'; induction path as [|k path IH]; intros b b' [Hnd Hrest] Hm Hg Hg'; [done|].
  split; [by eapply map_batch_values_keys|]. destruct path as [|k1 path].
  - simpl in Hg'. by rewrite Hg'.
  - cbn [get_path] in Hg, Hg'. destruct (dict_get b k) as [[|d| |]|] eqn:E; try done.
    destruct (map_batch_values_get _ _ _ _ _ Hnd Hm E) as (r & Hr & Hgr).
    rewrite map_value_dict in Hr. res_inv. rewrite Hgr in Hg' |- *. by eapply IH.
Qed.

Lemma last_key_of_path b path v : get_path b path = Some v -> exists k, last path = Some k.
Proof.
  destruct path as [|k0 path]; [done|]. destruct (last (k0 :: path)) eqn:E; [eauto|].
  by apply last_None in E.
Qed.

(** Induction over nested values. *)
Lemma value_rect_nested (P : value -> Prop) :
  (forall t, P (VTensor t)) -> (forall d, Forall (fun kv => P kv.2) d -> P (VDict d)) ->
  P VNone -> (forall z, P (VScalar z)) -> forall v, P v.
Proof.
  intros Ht Hd Hn Hs. fix IH 1. intros [t|d| |z]; [apply Ht| |exact Hn|apply Hs].
  apply Hd. induction d as [|[k v] d IHd]; constructor; [apply IH|exact IHd].
Qed.

(** A transform that never raises on a leaf never raises on a batch. *)
Lemma map_batch_values_total (f : string -> value -> res (option value)) b :
  (forall k v, (forall d, v <> VDict d) -> exists r, f k v = Ok r) ->
  exists b', map_batch_values f b = Ok b'.
Proof.
  intros Hf.
  assert (Hd : forall d, Forall (fun kv => forall k, exists r, map_value f k kv.2 = Ok r) d ->
                 exists d', map_batch_values f d = Ok d').
  { induction 1 as [|[k v] d Hv _ [d' IH]]; simpl; [eauto|].
    destruct (Hv k) as [r Hr]. simpl in Hr. rewrite Hr. simpl. rewrite IH. simpl. eauto. }
  apply Hd, Forall_forall. intros [k0 v] _. simpl. clear k0 b.
  induction v as [t|d IH| |z] using value_rect_nested; intros k; [simpl; eauto| |simpl; eauto..].
  rewrite map_value_dict. destruct (Hd d IH) as [d' ->]. simpl. eauto.
Qed.

(** If [g] accepts everything [f] produces, walking with [f] and then with [g] cannot raise
    in the second walk. *)
Lemma map_batch_values_then (f g : string -> value -> res (option value)) :
  (forall k v r, (forall d, v <> VDict d) -> f k v = Ok (Some r) ->
     (forall d, r <> VDict d) /\ exists r', g k r = Ok r') ->
  forall b b', map_batch_values f b = Ok b' -> exists b'', map_batch_values g b' = Ok b''.
Proof.
  intros Hfg.
  assert (Hv : forall v k r, map_value f k v = Ok (Some r) -> exists r', map_value g k r = Ok r').
  { intros v. induction v as [t|d Hd| |z] using value_rect_nested; intros k r Hr.
    2: { rewrite map_value_dict in Hr. res_inv. rename r0 into d', Hm into Hmap.
      rewrite map_value_dict. assert (exists d'', map_batch_values g d' = Ok d'') as [d'' ->]; [|eauto].
      clear k. revert d' Hmap; induction Hd as [|[k v] d Hv _ IH]; intros d' Hmap; simpl in Hmap;
        res_inv; [by exists []|]. destruct (IH _ Hm0) as [d'' Hd''].
      destruct r; [|eauto]. simpl in *. destruct (Hv _ _ Hm) as [r' ->]. simpl. rewrite Hd''. eauto. }
    all: edestruct Hfg as [Hnd [r' Hr']]; [|exact Hr|exists r'];
      [intros ?; discriminate|destruct r as [|d| |]; [exact Hr'|by destruct (Hnd d)|exact Hr'..]]. }
  induction b as [|[k v] b IH]; intros b' Hm; simpl in Hm; res_inv; [by exists []|].
  destruct (IH _ Hm) as [b'' Hb'']. destruct r; [|eauto]. simpl.
  destruct (Hv _ _ _ Hm0) as [r' ->]. simpl. rewrite Hb''. eauto.
Qed.
