(* ===== verification/Groups.v ===== *)
(** * Which rows share a model call ([common/packing/groups.py])

    Reading a batch's shape, the validity mask, first-fit-decreasing token-budget groups,
    splitting groups to a request-wide count, and applying a row plan to a batch.  The
    theorems: a plan is always a partition of the shard's rows, each group respects the
    token budget unless it is a single over-long row, any two groups together exceed the
    budget, splitting reaches exactly the requested count when there are enough rows, and
    the restore order returned by [split_microbatches] puts every row back. *)

From S2P Require Import Prelude Dict Tensor.
From stdpp Require Import prelude gmap strings list sorting.
From Stdlib Require Import ZArith Lia ZifyNat ZifyBool.

(** ** Looking at a batch *)

Definition batch_tensor (b : batch) (key : string) (min_dims : nat) : option tensor :=
  let candidates :=
    dict_get b key ::
      match dict_get b "context" with
      | Some (VDict context) => [dict_get context key]
      | _ => []
      end in
  foldr (fun c rest =>
           match c with
           | Some (VTensor t) => if min_dims <=? ndim t then Some t else rest
           | _ => rest
           end) None candidates.

Definition batch_position_ids (b : batch) : option tensor :=
  match batch_tensor b "position_ids" 2 with
  | Some t => if ndim t =? 2 then Some t else None
  | None => None
  end.

Definition batch_input_ids (b : batch) : option tensor := batch_tensor b "input_ids" 2.

Definition batch_num_rows (b : batch) : option nat := (fun t => dim t 0) <$> batch_input_ids b.
Definition batch_seqlen (b : batch) : option nat := (fun t => dim t 1) <$> batch_input_ids b.

(** [cumprod(dim=1)] of one row. *)
Fixpoint cumprod (acc : Z) (l : list Z) : list Z :=
  match l with
  | [] => []
  | x :: l => (acc * x)%Z :: cumprod (acc * x)%Z l
  end.

(** One row of the position-based mask: positions equal to [p0 + i], cut at the first break. *)
Definition advancing_run (row : list Z) : list Z :=
  match row with
  | [] => []
  | p0 :: _ => cumprod 1 (imap (fun i p => if (p =? p0 + Z.of_nat i)%Z then 1%Z else 0%Z) row)
  end.

Definition token_validity_mask (b : batch) : res tensor :=
  let from_positions :=
    match batch_position_ids b with
    | Some p => Ok (of_rows2 (dim p 1) (advancing_run <$> rows2 p))
    | None => Raise (ValueError "token-budget grouping requires attention_mask or position_ids")
    end in
  match batch_tensor b "attention_mask" 2 with
  | Some m => if ndim m =? 2 then Ok m else from_positions
  | None => from_positions
  end.

Definition shard_valid_lengths (b : batch) : res (list Z) :=
  m ← token_validity_mask b;
  if dim m 0 =? 0 then Ok [] else Ok (sumZ <$> rows2 m).

(** ** Row selection *)

Definition selected (index : list nat) (n_rows : nat) (_ : string) (v : value) : res (option value) :=
  match v with
  | VTensor t =>
      if (1 <=? ndim t) && (dim t 0 =? n_rows)
      then t' ← index_select0 t index; Ok (Some (VTensor t'))
      else Ok (Some v)
  | _ => Ok (Some v)
  end.

Definition select_rows (b : batch) (index : list nat) (n_rows : nat) : res batch :=
  map_batch_values (selected index n_rows) b.

(** ** Grouping rows *)

Definition singleton_microbatch_groups (n_rows : Z) : res (list (list nat)) :=
  if (n_rows <? 0)%Z then Raise (ValueError "n_rows must be non-negative")
  else Ok ((fun row => [row]) <$> seq 0 (Z.to_nat n_rows)).

(** [sorted(sorted(group) for group in groups)]. *)
Definition sort_groups (gs : list (list nat)) : list (list nat) :=
  py_sorted (lex_list Nat.ltb) (py_sorted Nat.ltb <$> gs).

(** [lengths[row]] for a row of [range(len(lengths))]. *)
Definition len_of (lens : list Z) (row : nat) : Z := default 0%Z (lens !! row).

(** The first group whose load still has room. *)
Fixpoint first_fit (loads : list Z) (len max_tokens : Z) : option nat :=
  match loads with
  | [] => None
  | load :: loads =>
      if (load + len <=? max_tokens)%Z then Some 0
      else S <$> first_fit loads len max_tokens
  end.

Definition place_row (lens : list Z) (max_tokens : Z)
    (st : list (list nat) * list Z) (row : nat) : list (list nat) * list Z :=
  let '(groups, loads) := st in
  let len := len_of lens row in
  match first_fit loads len max_tokens with
  | Some i => (append_at i row groups, alter (fun load => load + len)%Z i loads)
  | None => (groups ++ [[row]], loads ++ [len])
  end.

(** [sorted(range(n), key=lengths, reverse=True)]. *)
Definition decreasing_order (lens : list Z) : list nat :=
  py_sorted (rev_order (by_key (len_of lens) Z.ltb)) (seq 0 (length lens)).

Definition token_budget_groups (lens : list Z) (max_tokens_per_mb : Z) : res (list (list nat)) :=
  if (max_tokens_per_mb <=? 0)%Z then Raise (ValueError "max_tokens_per_mb must be positive")
  else
    let '(groups, _) := fold_left (place_row lens max_tokens_per_mb) (decreasing_order lens) ([], []) in
    Ok (sort_groups groups).

(** [group.remove(row)]: drop the first occurrence. *)
Fixpoint py_remove (x : nat) (l : list nat) : list nat :=
  match l with
  | [] => []
  | y :: l => if y =? x then l else y :: py_remove x l
  end.

(** [max(candidates, key)] where evaluating the key may raise. *)
Definition max_by_key (key : nat -> res Z) (candidates : list nat) : res nat :=
  keyed ← mapM (fun c => k ← key c; Ok (c, k)) candidates;
  match py_max (by_key snd Z.ltb) keyed with
  | Some (c, _) => Ok c
  | None => Raise (ValueError "max() of an empty sequence")
  end.

(** [sum(valid_lengths[row] for row in group)]. *)
Definition group_sum (lens : list Z) (group : list nat) : res Z :=
  ls ← mapM (at_index lens) group; Ok (sumZ ls).

(** One round of the [while] loop; [None] is its [break]. *)
Definition split_step (lens : list Z) (result : list (list nat)) : res (option (list (list nat))) :=
  let splittable := filter (fun i => 1 < length (default [] (result !! i))) (seq 0 (length result)) in
  match splittable with
  | [] => Ok None
  | _ :: _ =>
      source ← max_by_key (fun i => g ← at_index result i; group_sum lens g) splittable;
      g ← at_index result source;
      longest_row ← max_by_key (at_index lens) g;
      Ok (Some (<[source := py_remove longest_row g]> result ++ [[longest_row]]))
  end.

(** The loop runs while there are fewer than [target_count] groups, and every round that
    does not break adds exactly one group, so it makes at most
    [target_count - len(groups)] rounds. *)
Fixpoint split_loop (rounds : nat) (lens : list Z) (result : list (list nat)) : res (list (list nat)) :=
  match rounds with
  | 0 => Ok result
  | S rounds =>
      r ← split_step lens result;
      match r with
      | None => Ok result
      | Some result' => split_loop rounds lens result'
      end
  end.

Definition split_groups_to_count (groups : list (list nat)) (lens : list Z) (target_count : Z) :
    res (list (list nat)) :=
  if (target_count <? Z.of_nat (length groups))%Z then Raise (ValueError "cannot reduce groups")
  else
    result ← split_loop (Z.to_nat target_count - length groups) lens groups;
    Ok (sort_groups result).

Definition token_budget_microbatch_groups (b : batch) (max_tokens_per_mb min_groups : Z) :
    res (list (list nat)) :=
  lens ← shard_valid_lengths b;
  let n_rows := length lens in
  if n_rows =? 0 then Ok []
  else
    groups ← token_budget_groups lens max_tokens_per_mb;
    groups ← (if (Z.of_nat (length groups) <? min_groups)%Z
              then split_groups_to_count groups lens min_groups else Ok groups);
    _ ← check (bool_decide (py_sorted Nat.ltb (concat groups) = seq 0 n_rows))
          (ValueError "token-budget groups must partition rows");
    Ok groups.

(** ** Applying a plan *)

Record microbatch_split := { mb_batches : list batch; mb_restore_order : option (list nat) }.

Definition restore_positions (n_rows : nat) (forward_order : list nat) : list nat :=
  fold_left (fun acc '(position, row) => <[row := position]> acc)
    (imap pair forward_order) (replicate n_rows 0).

Definition split_microbatches (b : batch) (groups : list (list nat)) (n_rows : nat) :
    res microbatch_split :=
  let forward_order := concat groups in
  _ ← check (bool_decide (py_sorted Nat.ltb forward_order = seq 0 n_rows))
        (ValueError "microbatch groups must partition rows");
  mbs ← mapM (fun group => select_rows b group n_rows) groups;
  Ok {| mb_batches := mbs;
        mb_restore_order :=
          if bool_decide (forward_order = seq 0 n_rows) then None
          else Some (restore_positions n_rows forward_order) |}.

(** ** Helper lemmas: sorting groups *)

Definition load_of (lens : list Z) (g : list nat) : Z := sumZ (len_of lens <$> g).

#[export] Instance load_of_perm lens : Proper (Permutation ==> eq) (load_of lens).
Proof. intros g h H. unfold load_of. by rewrite H. Qed.

Lemma load_of_app lens g h : load_of lens (g ++ h) = (load_of lens g + load_of lens h)%Z.
Proof. unfold load_of. by rewrite fmap_app, sumZ_app. Qed.

Lemma len_of_nonneg lens r : Forall (fun x => 0 <= x)%Z lens -> (0 <= len_of lens r)%Z.
Proof.
  intros H. unfold len_of. destruct (lens !! r) eqn:E; simpl; [|lia].
  by apply (Forall_lookup_1 _ _ _ _ H E).
Qed.

Lemma load_of_nonneg lens g : Forall (fun x => 0 <= x)%Z lens -> (0 <= load_of lens g)%Z.
Proof.
  intros H. apply sumZ_nonneg, Forall_fmap, Forall_true. intros r. by apply len_of_nonneg.
Qed.

Lemma load_of_elem lens g r :
  Forall (fun x => 0 <= x)%Z lens -> r ∈ g -> (len_of lens r <= load_of lens g)%Z.
Proof.
  intros H Hr. apply sumZ_elem_le; [|by apply list_elem_of_fmap_2].
  apply Forall_fmap, Forall_true. intros x. by apply len_of_nonneg.
Qed.

Lemma sort_groups_concat gs : concat (sort_groups gs) ≡ₚ concat gs.
Proof.
  unfold sort_groups. rewrite py_sorted_perm. apply concat_map_perm, py_sorted_perm.
Qed.

Lemma length_sort_groups gs : length (sort_groups gs) = length gs.
Proof. unfold sort_groups. by rewrite py_sorted_length, length_fmap. Qed.

(** A property of groups that does not depend on the order of rows survives sorting. *)
Lemma sort_groups_Forall (P : list nat -> Prop) gs :
  Proper (Permutation ==> iff) P -> Forall P gs -> Forall P (sort_groups gs).
Proof.
  intros HP H. unfold sort_groups. rewrite py_sorted_perm, Forall_fmap.
  eapply Forall_impl; [exact H|]. intros g Hg. simpl. by rewrite (py_sorted_perm _ g).
Qed.

Lemma sort_groups_rows_sorted gs : Forall (Sorted Nat.le) (sort_groups gs).
Proof.
  unfold sort_groups. rewrite py_sorted_perm, Forall_fmap. apply Forall_true. intros g. simpl.
  apply StronglySorted_Sorted. eapply StronglySorted_weaken; [|apply py_sorted_sorted, _].
  intros x y H. simpl in H. lia.
Qed.

(** A non-empty group that respects the budget, or a single row. *)
Definition within_budget (lens : list Z) (m : Z) (g : list nat) : Prop :=
  g <> [] /\ ((load_of lens g <= m)%Z \/ length g = 1).

#[export] Instance within_budget_perm lens m : Proper (Permutation ==> iff) (within_budget lens m).
Proof.
  intros g h Hgh. unfold within_budget.
  assert (Hnil : g = [] <-> h = []).
  { split; intros ->; [by apply Permutation_nil in Hgh|by apply Permutation_nil_r in Hgh]. }
  rewrite Hnil. assert (load_of lens g = load_of lens h) as -> by (by rewrite Hgh).
  assert (length g = length h) as -> by (by rewrite Hgh). done.
Qed.

(** Two different groups of a plan, whatever their positions. *)
Definition two_of {A} (x y : A) (l : list A) : Prop := exists rest, x :: y :: rest ≡ₚ l.

Lemma two_of_sort_groups g h gs :
  two_of g h (sort_groups gs) -> exists g' h', two_of g' h' gs /\ g' ≡ₚ g /\ h' ≡ₚ h.
Proof.
  intros [rest H]. unfold sort_groups in H. rewrite py_sorted_perm in H.
  apply Permutation_map_inv in H as (gs' & Heq & Hp).
  destruct gs' as [|g' [|h' gs']]; simplify_eq/=. exists g', h'.
  split; [by exists gs'|]. by rewrite !(py_sorted_perm _ _).
Qed.

(** ** First-fit-decreasing *)

Lemma first_fit_Some loads len m i :
  first_fit loads len m = Some i -> exists load, loads !! i = Some load /\ (load + len <= m)%Z.
Proof.
  revert i; induction loads as [|l loads IH]; intros i H; simpl in H; [done|].
  destruct (l + len <=? m)%Z eqn:E; simplify_eq/=; [eexists; split; [done|lia]|].
  apply fmap_Some in H as (j & Hj & ->). by apply IH.
Qed.

Lemma first_fit_None loads len m :
  first_fit loads len m = None -> Forall (fun load => m < load + len)%Z loads.
Proof.
  induction loads as [|l loads IH]; intros H; simpl in H; [done|].
  destruct (l + len <=? m)%Z eqn:E; simplify_eq/=. apply fmap_None in H.
  constructor; [lia|auto].
Qed.

Section token_budget.
Context (lens : list Z) (m : Z).

(** What the placement loop maintains: [loads] are the groups' token counts, groups are
    not empty, and a group over budget holds a single row. *)
Definition plan_inv (placed : list nat) (st : list (list nat) * list Z) : Prop :=
  st.2 = load_of lens <$> st.1 /\
  concat st.1 ≡ₚ placed /\
  Forall (within_budget lens m) st.1.

Lemma place_row_inv placed st row :
  plan_inv placed st -> plan_inv (placed ++ [row]) (place_row lens m st row).
Proof.
  destruct st as [groups loads]. intros (Hl & Hc & Hg). simpl in *. subst loads.
  unfold place_row. destruct (first_fit _ _ _) as [i|] eqn:E.
  - apply first_fit_Some in E as (load & Hi & Hle).
    rewrite list_lookup_fmap in Hi. apply fmap_Some in Hi as (g & Hg' & ->).
    assert (Hlt : i < length groups) by (by eapply lookup_lt_Some).
    unfold plan_inv; simpl. split_and!.
    + unfold append_at. rewrite !(list_alter_split _ _ _ (load_of lens g)) by
        (by rewrite list_lookup_fmap, Hg').
      rewrite (list_alter_split _ _ _ _ Hg'). rewrite fmap_app, fmap_cons, fmap_take, fmap_drop.
      f_equal. f_equal. rewrite load_of_app. unfold load_of at 3. simpl. lia.
    + rewrite (concat_append_at _ _ _ Hlt), Hc. by rewrite Permutation_app_comm.
    + unfold append_at. rewrite (list_alter_split _ _ _ _ Hg').
      rewrite (list_split_at _ _ _ Hg') in Hg. apply Forall_app in Hg as [H1 H2].
      apply Forall_cons in H2 as [_ H2]. apply Forall_app. split; [done|].
      constructor; [|done]. split; [by destruct g|]. left.
      rewrite load_of_app. unfold load_of at 2. simpl. lia.
  - unfold plan_inv; simpl. split_and!.
    + rewrite fmap_app. simpl. unfold load_of at 3. simpl. by rewrite Z.add_0_r.
    + rewrite concat_app. simpl. by rewrite Hc.
    + apply Forall_app. split; [done|]. constructor; [|done]. split; [done|]. by right.
Qed.

Lemma place_rows_inv order placed st :
  plan_inv placed st -> plan_inv (placed ++ order) (fold_left (place_row lens m) order st).
Proof.
  revert placed st. induction order as [|row order IH]; intros placed st H; simpl.
  - by rewrite app_nil_r.
  - rewrite cons_middle, app_assoc. by apply IH, place_row_inv.
Qed.

Hypothesis lens_nonneg : Forall (fun x => 0 <= x)%Z lens.

(** First fit: the row that opened a group did not fit into any earlier group. *)
Definition tight (groups : list (list nat)) : Prop :=
  forall i j gi r gj, i < j -> groups !! i = Some gi -> groups !! j = Some (r :: gj) ->
    (m < load_of lens gi + len_of lens r)%Z.

Lemma place_row_tight placed st row :
  plan_inv placed st -> tight st.1 -> tight (place_row lens m st row).1.
Proof.
  destruct st as [groups loads]. intros (Hl & Hc & Hg) Ht. simpl in *. subst loads.
  unfold place_row. destruct (first_fit _ _ _) as [k|] eqn:E; simpl.
  - intros i j gi r gj Hij Hi Hj. unfold append_at in *.
    assert (exists gj', groups !! j = Some (r :: gj')) as [gj' Hj'].
    { destruct (decide (j = k)) as [->|Hne].
      - rewrite list_lookup_alter_eq in Hj. apply fmap_Some in Hj as (g & Hg' & Heq).
        destruct g as [|r' g]; [|simplify_eq/=; eauto].
        apply (Forall_lookup_1 _ _ _ _ Hg) in Hg' as [? _]. done.
      - rewrite list_lookup_alter_ne in Hj by done. eauto. }
    destruct (decide (i = k)) as [->|Hne].
    + rewrite list_lookup_alter_eq in Hi. apply fmap_Some in Hi as (g & Hg' & ->).
      specialize (Ht _ _ _ _ _ Hij Hg' Hj'). rewrite load_of_app.
      pose proof (load_of_nonneg lens [row] lens_nonneg). lia.
    + rewrite list_lookup_alter_ne in Hi by done. exact (Ht _ _ _ _ _ Hij Hi Hj').
  - apply first_fit_None in E. intros i j gi r gj Hij Hi Hj.
    apply lookup_app_Some in Hj as [Hj|[Hlen Hj]].
    + assert (j < length groups) by (by eapply lookup_lt_Some).
      rewrite lookup_app_l in Hi by lia. exact (Ht _ _ _ _ _ Hij Hi Hj).
    + apply list_lookup_singleton_Some in Hj as [Hj [= <- <-]].
      rewrite lookup_app_l in Hi by lia.
      rewrite Forall_fmap in E. by apply (Forall_lookup_1 _ _ _ _ E Hi).
Qed.

Lemma place_rows_tight order placed st :
  plan_inv placed st -> tight st.1 -> tight (fold_left (place_row lens m) order st).1.
Proof.
  revert placed st. induction order as [|row order IH]; intros placed st H Ht; simpl; [done|].
  eapply IH; [by apply place_row_inv|by eapply place_row_tight].
Qed.

Lemma tight_two groups g h :
  Forall (fun g => g <> []) groups -> tight groups -> two_of g h groups ->
  (m < load_of lens g + load_of lens h)%Z.
Proof.
  intros Hne Ht [rest Hp].
  assert (Hij : exists i j, i <> j /\ groups !! i = Some g /\ groups !! j = Some h).
  { apply Permutation_inj in Hp as (_ & f & Hinj & Hf).
    exists (f 0), (f 1). rewrite <- !Hf. split; [|done]. intros Heq. by apply Hinj in Heq. }
  destruct Hij as (i & j & Hij & Hi & Hj).
  assert (Hlt : forall i j g h, i < j -> groups !! i = Some g -> groups !! j = Some h ->
             (m < load_of lens g + load_of lens h)%Z).
  { clear -Hne Ht lens_nonneg. intros i j g h Hij Hi Hj. destruct h as [|r h].
    - by apply (Forall_lookup_1 _ _ _ _ Hne) in Hj.
    - specialize (Ht _ _ _ _ _ Hij Hi Hj).
      pose proof (load_of_elem lens (r :: h) r lens_nonneg ltac:(set_solver)). lia. }
  destruct (decide (i < j)); [by eapply Hlt|].
  rewrite Z.add_comm. eapply Hlt; [|done..]. lia.
Qed.
End token_budget.

Lemma decreasing_order_perm lens : decreasing_order lens ≡ₚ seq 0 (length lens).
Proof. apply py_sorted_perm. Qed.

Lemma load_of_all lens : load_of lens (seq 0 (length lens)) = sumZ lens.
Proof.
  unfold load_of. f_equal. apply list_eq. intros i. rewrite list_lookup_fmap.
  destruct (decide (i < length lens)) as [Hi|Hi].
  - rewrite lookup_seq_lt by done. simpl. unfold len_of.
    by destruct (lookup_lt_is_Some_2 _ _ Hi) as [x ->].
  - rewrite lookup_seq_ge, lookup_ge_None_2 by lia. done.
Qed.

Lemma load_of_concat lens gs : load_of lens (concat gs) = sumZ (load_of lens <$> gs).
Proof. induction gs as [|g gs IH]; csimpl; [done|]. by rewrite load_of_app, IH. Qed.

Lemma partition_load lens gs :
  is_partition gs (length lens) -> sumZ (load_of lens <$> gs) = sumZ lens.
Proof. intros H. rewrite <- load_of_concat, <- load_of_all. by rewrite H. Qed.

(** A list whose elements pairwise sum to more than [m] sums to more than [n * m / 2]. *)
Lemma pairwise_sum (P : Z) (l : list Z) :
  (forall x y, two_of x y l -> P < x + y)%Z -> 2 <= length l ->
  (Z.of_nat (length l) * P < 2 * sumZ l)%Z.
Proof.
  remember (length l) as n eqn:Hn. revert l Hn.
  induction n as [n IH] using lt_wf_ind; intros l Hn Hpair Hlen.
  destruct l as [|a [|b l]]; simpl in Hn; [lia..|].
  assert (Hab : (P < a + b)%Z) by (apply Hpair; by exists l).
  destruct l as [|c [|d l]]; simpl in *.
  - subst. lia.
  - assert (Hac : (P < a + c)%Z) by (apply Hpair; exists [b]; by rewrite (Permutation_swap b c)).
    assert (Hbc : (P < b + c)%Z) by (apply Hpair; exists [a]; solve_Permutation).
    subst. lia.
  - assert (H : (Z.of_nat (length (c :: d :: l)) * P < 2 * sumZ (c :: d :: l))%Z).
    { eapply (IH (length (c :: d :: l))); simpl; [lia|done| |lia].
      intros x y [rest Hr]. apply Hpair. exists (a :: b :: rest).
      rewrite <- Hr. solve_Permutation. }
    simpl in H. subst. lia.
Qed.

Lemma token_budget_groups_ok (lens : list Z) (m : Z) :
  (0 < m)%Z ->
  exists gs, token_budget_groups lens m = Ok gs /\
    is_partition gs (length lens) /\
    Forall (fun g => Sorted Nat.le g /\ within_budget lens m g) gs.
Proof.
  intros Hm. unfold token_budget_groups. destruct (m <=? 0)%Z eqn:E; [lia|].
  pose proof (place_rows_inv lens m (decreasing_order lens) [] ([], [])) as H.
  destruct (fold_left _ _ _) as [groups loads] eqn:Ef.
  destruct H as (_ & Hc & Hg); [by repeat split|]. simpl in *.
  exists (sort_groups groups). split; [done|]. split.
  - unfold is_partition. by rewrite sort_groups_concat, Hc, decreasing_order_perm.
  - pose proof (sort_groups_rows_sorted groups) as Hs.
    apply (sort_groups_Forall _ _ (within_budget_perm lens m)) in Hg.
    rewrite Forall_forall in Hs, Hg. apply Forall_forall. intros g Hin.
    specialize (Hs g Hin). specialize (Hg g Hin). done.
Qed.

(** C5: for every list of row lengths and every positive budget, [token_budget_groups]
    returns a plan whose groups partition the rows [0 .. n), are non-empty, list their rows
    in ascending order, and hold at most [max_tokens_per_mb] tokens unless they are a single
    row. *)
Theorem token_budget_groups_plan (lens : list Z) (m : Z) :
  (0 < m)%Z ->
  exists gs, token_budget_groups lens m = Ok gs /\
    is_partition gs (length lens) /\
    Forall (fun g => Sorted Nat.le g /\ within_budget lens m g) gs.
Proof. apply token_budget_groups_ok. Qed.

Lemma token_budget_groups_plan_witness :
  exists gs, token_budget_groups [5; 9; 3; 4]%Z 8 = Ok gs /\
    is_partition gs 4 /\
    Forall (fun g => Sorted Nat.le g /\ within_budget [5; 9; 3; 4]%Z 8 g) gs.
Proof. exact (token_budget_groups_plan [5; 9; 3; 4]%Z 8 eq_refl). Defined.

(** First-fit-decreasing never wastes calls: any two groups of a plan hold more than
    one budget between them, so a plan with at least two groups has fewer than twice as
    many groups as the total token count divided by the budget. *)
Theorem token_budget_groups_dense (lens : list Z) (m : Z) gs :
  Forall (fun x => 0 <= x)%Z lens ->
  token_budget_groups lens m = Ok gs ->
  (forall g h, two_of g h gs -> (m < load_of lens g + load_of lens h)%Z) /\
  (2 <= length gs -> (Z.of_nat (length gs) * m < 2 * sumZ lens)%Z).
Proof.
  intros Hpos H. unfold token_budget_groups in H. destruct (m <=? 0)%Z eqn:E; [done|].
  pose proof (place_rows_inv lens m (decreasing_order lens) [] ([], [])) as Hinv.
  pose proof (place_rows_tight lens m Hpos (decreasing_order lens) [] ([], [])) as Ht.
  destruct (fold_left _ _ _) as [groups loads] eqn:Ef. injection H as <-.
  destruct Hinv as (_ & Hc & Hg); [by repeat split|]. simpl in *.
  assert (Htight : tight lens m groups) by (apply Ht; [by repeat split|intros ?????; done]).
  assert (Hne : Forall (fun g => g <> []) groups)
    by (eapply Forall_impl; [exact Hg|by intros g [? _]]).
  assert (Hpair : forall g h, two_of g h (sort_groups groups) ->
                   (m < load_of lens g + load_of lens h)%Z).
  { intros g h (g' & h' & H2 & <- & <-)%two_of_sort_groups. by eapply tight_two. }
  split; [done|]. intros Hlen.
  assert (Hpart : is_partition (sort_groups groups) (length lens))
    by (unfold is_partition; by rewrite sort_groups_concat, Hc, decreasing_order_perm).
  rewrite <- (partition_load _ _ Hpart).
  rewrite <- (length_fmap (load_of lens) (sort_groups groups)) in Hlen |- *.
  apply pairwise_sum; [|done]. intros x y [rest Hr].
  apply Permutation_map_inv in Hr as (gs & Heq & Hp).
  destruct gs as [|g [|h gs]]; simplify_eq/=. apply Hpair. by exists gs.
Qed.

Lemma token_budget_groups_dense_witness :
  (forall g h, two_of g h [[0; 2]; [1]; [3]] -> (8 < load_of [5; 9; 3; 4]%Z g + load_of [5; 9; 3; 4]%Z h)%Z) /\
  (2 <= 3 -> (Z.of_nat 3 * 8 < 2 * sumZ [5; 9; 3; 4]%Z)%Z).
Proof.
  apply (token_budget_groups_dense [5; 9; 3; 4]%Z 8 [[0; 2]; [1]; [3]]).
  - repeat constructor; discriminate.
  - vm_compute. reflexivity.
Defined.

(** ** Splitting groups to a count *)

Lemma py_remove_perm x l : x ∈ l -> x :: py_remove x l ≡ₚ l.
Proof.
  induction l as [|y l IH]; intros Hin; [set_solver|]. simpl.
  destruct (y =? x) eqn:E; [by replace y with x by lia|].
  apply elem_of_cons in Hin as [->|Hin]; [lia|].
  rewrite Permutation_swap. by rewrite IH.
Qed.

Lemma max_by_key_ok (key : nat -> res Z) (k : nat -> Z) cs :
  (forall c, c ∈ cs -> key c = Ok (k c)) -> cs <> [] ->
  exists c, max_by_key key cs = Ok c /\ c ∈ cs /\ forall d, d ∈ cs -> (k d <= k c)%Z.
Proof.
  intros Hk Hne. unfold max_by_key.
  rewrite (mapM_ok _ (fun c => (c, k c))) by (intros c Hc; by rewrite Hk). simpl.
  destruct (py_min_is_Some (rev_order (by_key snd Z.ltb)) ((fun c => (c, k c)) <$> cs)) as [[c kc] Hc].
  { by destruct cs. }
  unfold py_max. rewrite Hc. apply py_min_spec in Hc as [Hin Hmax]; [|apply _].
  apply list_elem_of_fmap in Hin as (c' & [= -> ->] & Hin).
  exists c'. split_and!; [done|done|]. intros d Hd. rewrite Forall_fmap, Forall_forall in Hmax.
  specialize (Hmax d Hd). unfold rev_order, by_key in Hmax. simpl in Hmax. lia.
Qed.

Lemma at_index_len lens r : r < length lens -> at_index lens r = Ok (len_of lens r).
Proof. intros (x & Hx & ->)%at_index_lt. unfold len_of. by rewrite Hx. Qed.

Section split.
Context (lens : list Z).

Definition split_inv (result : list (list nat)) : Prop :=
  Forall (fun g => g <> [] /\ Forall (fun r => r < length lens) g) result.

Lemma group_sum_ok g : Forall (fun r => r < length lens) g -> group_sum lens g = Ok (load_of lens g).
Proof.
  intros Hg. unfold group_sum. rewrite (mapM_ok _ (len_of lens)); [done|].
  intros r Hr. rewrite Forall_forall in Hg. by apply at_index_len, Hg.
Qed.

(** A round either stops because every group is a single row, or takes one row out of a
    group of several and makes it a group of its own. *)
Lemma split_step_spec result :
  split_inv result ->
  (split_step lens result = Ok None /\ Forall (fun g => length g = 1) result) \/
  (exists i g r, result !! i = Some g /\ r ∈ g /\ 1 < length g /\
     split_step lens result = Ok (Some (<[i := py_remove r g]> result ++ [[r]]))).
Proof.
  intros Hinv. unfold split_step.
  set (sp := filter (fun i => 1 < length (default [] (result !! i))) (seq 0 (length result))).
  assert (Hsp : forall i, i ∈ sp -> exists g, result !! i = Some g /\ 1 < length g).
  { intros i [Hlen Hi%elem_of_seq]%list_elem_of_filter.
    destruct (lookup_lt_is_Some_2 result i ltac:(lia)) as [g Hg].
    rewrite Hg in Hlen. eauto. }
  destruct sp as [|i0 sp'] eqn:Esp.
  - left. split; [done|]. apply Forall_lookup. intros i g Hg.
    pose proof (Forall_lookup_1 _ _ _ _ Hinv Hg) as [Hne _].
    assert (~ 1 < length g).
    { intros H. assert (i ∈ sp) as Hin; [|by rewrite Esp in Hin; set_solver].
      apply list_elem_of_filter. rewrite Hg. split; [done|].
      apply elem_of_seq. apply lookup_lt_Some in Hg. lia. }
    destruct g; simpl in *; [done|lia].
  - right.
    destruct (max_by_key_ok (fun i => g ← at_index result i; group_sum lens g)
                (fun i => load_of lens (default [] (result !! i))) (i0 :: sp')) as (i & -> & Hin & _).
    + intros c Hc. destruct (Hsp c Hc) as (g & Hg & _). rewrite (at_index_ok _ _ _ Hg). simpl.
      rewrite Hg. apply group_sum_ok. by apply (Forall_lookup_1 _ _ _ _ Hinv Hg).
    + done.
    + destruct (Hsp i Hin) as (g & Hg & Hlen). simpl. rewrite (at_index_ok _ _ _ Hg). simpl.
      destruct (Forall_lookup_1 _ _ _ _ Hinv Hg) as [Hne Hr].
      destruct (max_by_key_ok (at_index lens) (len_of lens) g) as (r & -> & Hrin & _); [|done|].
      * intros c Hc. rewrite Forall_forall in Hr. by apply at_index_len, Hr.
      * simpl. eauto 10.
Qed.

Lemma split_result_concat result i g r :
  result !! i = Some g -> r ∈ g ->
  concat (<[i := py_remove r g]> result ++ [[r]]) ≡ₚ concat result.
Proof.
  intros Hg Hr. rewrite concat_app. simpl.
  rewrite insert_take_drop by (by eapply lookup_lt_Some).
  rewrite (list_split_at _ _ _ Hg) at 3. rewrite !concat_app. simpl.
  rewrite <- (py_remove_perm r g Hr) at 2. solve_Permutation.
Qed.

Lemma split_result_Forall (P : list nat -> Prop) result i g r :
  result !! i = Some g -> P (py_remove r g) -> P [r] -> Forall P result ->
  Forall P (<[i := py_remove r g]> result ++ [[r]]).
Proof.
  intros Hg H1 H2 H. apply Forall_app. split; [by apply Forall_insert|]. by constructor.
Qed.

Lemma split_inv_step result i g r :
  split_inv result -> result !! i = Some g -> r ∈ g -> 1 < length g ->
  split_inv (<[i := py_remove r g]> result ++ [[r]]).
Proof.
  intros Hinv Hg Hr Hlen. destruct (Forall_lookup_1 _ _ _ _ Hinv Hg) as [_ Hall].
  rewrite <- (py_remove_perm r g Hr) in Hall, Hlen. inversion Hall; subst.
  eapply split_result_Forall; [done| |by repeat constructor|done].
  split; [|done]. destruct (py_remove r g); [simpl in Hlen; lia|done].
Qed.

(** The loop: rows are kept, the count grows by one per round until it reaches the
    target or every group is a single row. *)
Lemma split_loop_spec rounds result :
  split_inv result ->
  exists result', split_loop rounds lens result = Ok result' /\
    split_inv result' /\ concat result' ≡ₚ concat result /\
    length result' = min (length result + rounds) (length (concat result)).
Proof.
  revert result; induction rounds as [|rounds IH]; intros result Hinv; simpl.
  - exists result. split_and!; [done..|]. rewrite Nat.add_0_r, Nat.min_l; [done|].
    clear -Hinv. induction Hinv as [|g result [Hg _] Hinv IH]; simpl; [done|].
    rewrite length_app. destruct g; simpl; [done|lia].
  - destruct (split_step_spec result Hinv) as [[-> Hone]|(i & g & r & Hg & Hr & Hlen & ->)]; simpl.
    + exists result. split_and!; [done..|].
      rewrite (length_concat_const 1) by done. lia.
    + destruct (IH _ (split_inv_step _ _ _ _ Hinv Hg Hr Hlen)) as (result' & -> & Hinv' & Hc & Hl).
      exists result'. rewrite (split_result_concat _ _ _ _ Hg Hr) in Hc.
      split_and!; [done..|]. rewrite Hl, (split_result_concat _ _ _ _ Hg Hr).
      rewrite length_app, length_insert. simpl. f_equal. lia.
Qed.

Lemma split_loop_Forall (P : list nat -> Prop) rounds result result' :
  (forall g r, r ∈ g -> 1 < length g -> P g -> P (py_remove r g)) -> (forall r, P [r]) ->
  split_inv result -> Forall P result -> split_loop rounds lens result = Ok result' -> Forall P result'.
Proof.
  intros HP1 HP2. revert result; induction rounds as [|rounds IH]; intros result Hinv HP H; simpl in H.
  - by injection H as <-.
  - destruct (split_step_spec result Hinv) as [[Hs _]|(i & g & r & Hg & Hr & Hlen & Hs)];
      rewrite Hs in H; simpl in H; [by injection H as <-|].
    eapply IH; [by apply split_inv_step| |exact H].
    eapply split_result_Forall; eauto. eapply HP1; eauto. by eapply Forall_lookup_1.
Qed.
End split.

Lemma partition_split_inv lens gs :
  is_partition gs (length lens) -> Forall (fun g => g <> []) gs -> split_inv lens gs.
Proof.
  intros Hp Hne. unfold split_inv. rewrite Forall_forall in *. intros g Hg.
  split; [by apply Hne|]. apply Forall_forall. intros r Hr. by eapply is_partition_lt.
Qed.

Lemma within_budget_remove lens m g r :
  Forall (fun x => 0 <= x)%Z lens -> r ∈ g -> 1 < length g ->
  within_budget lens m g -> within_budget lens m (py_remove r g).
Proof.
  intros Hpos Hr Hlen Hb. rewrite <- (py_remove_perm r g Hr) in Hlen, Hb.
  destruct Hb as [_ [Hle|Hone]]; [|simpl in *; lia]. split; [destruct (py_remove r g); [simpl in Hlen; lia|done]|]. left.
  change (r :: py_remove r g) with ([r] ++ py_remove r g) in Hle. rewrite load_of_app in Hle.
  pose proof (load_of_nonneg lens [r] Hpos). lia.
Qed.

Lemma split_groups_to_count_ok (lens : list Z) (m target : Z) gs :
  is_partition gs (length lens) ->
  Forall (fun x => 0 <= x)%Z lens ->
  Forall (within_budget lens m) gs ->
  (Z.of_nat (length gs) <= target)%Z ->
  exists gs', split_groups_to_count gs lens target = Ok gs' /\
    is_partition gs' (length lens) /\
    Forall (fun g => Sorted Nat.le g /\ within_budget lens m g) gs' /\
    Z.of_nat (length gs') = Z.min target (Z.of_nat (length lens)).
Proof.
  intros Hp Hpos Hb Hlen. unfold split_groups_to_count.
  destruct (target <? _)%Z eqn:E; [lia|].
  assert (Hinv : split_inv lens gs).
  { apply partition_split_inv; [done|]. eapply Forall_impl; [exact Hb|]. by intros g [? _]. }
  destruct (split_loop_spec lens (Z.to_nat target - length gs) gs Hinv) as (gs' & Hl & Hinv' & Hc & Hn).
  rewrite Hl. simpl. exists (sort_groups gs'). split; [done|]. split_and!.
  - unfold is_partition. by rewrite sort_groups_concat, Hc.
  - assert (Hb' : Forall (within_budget lens m) gs').
    { eapply split_loop_Forall; [..|exact Hl]; [|intros r; split; [done|by right]|done|done].
      intros g r ???. by apply within_budget_remove. }
    apply (sort_groups_Forall _ _ (within_budget_perm lens m)) in Hb'.
    pose proof (sort_groups_rows_sorted gs') as Hs.
    rewrite Forall_forall in *. intros g Hg. auto.
  - rewrite length_sort_groups, Hn, Hp, length_seq. lia.
Qed.

(** [split_groups_to_count] on a plan of non-empty groups always returns: the rows are
    unchanged, no group is empty, the count is exactly the target when the shard has that
    many rows and the row count otherwise, and groups within budget stay within budget. *)
Theorem split_groups_to_count_spec (lens : list Z) (m target : Z) gs :
  is_partition gs (length lens) ->
  Forall (fun x => 0 <= x)%Z lens ->
  Forall (within_budget lens m) gs ->
  (Z.of_nat (length gs) <= target)%Z ->
  exists gs', split_groups_to_count gs lens target = Ok gs' /\
    is_partition gs' (length lens) /\
    Forall (fun g => Sorted Nat.le g /\ within_budget lens m g) gs' /\
    Z.of_nat (length gs') = Z.min target (Z.of_nat (length lens)).
Proof. apply split_groups_to_count_ok. Qed.

Lemma split_groups_to_count_witness :
  exists gs', split_groups_to_count [[0; 2]; [1]; [3]] [5; 9; 3; 4]%Z 7 = Ok gs' /\
    is_partition gs' 4 /\
    Forall (fun g => Sorted Nat.le g /\ within_budget [5; 9; 3; 4]%Z 8 g) gs' /\
    Z.of_nat (length gs') = Z.min 7 (Z.of_nat 4).
Proof.
  apply (split_groups_to_count_spec [5; 9; 3; 4]%Z 8 7).
  - unfold is_partition. simpl. solve_Permutation.
  - repeat constructor; discriminate.
  - repeat constructor; try discriminate; vm_compute; intuition congruence.
  - vm_compute. discriminate.
Defined.

(** ** The plan of a batch *)

(** Whatever the batch's real row lengths are, [token_budget_microbatch_groups] with a
    positive budget returns a partition of the rows whose groups respect the budget, with
    at least [min_groups] groups when there are that many rows; the final partition check
    never raises. *)
Theorem token_budget_microbatch_groups_total (b : batch) (lens : list Z) (m k : Z) :
  shard_valid_lengths b = Ok lens ->
  Forall (fun x => 0 <= x)%Z lens ->
  (0 < m)%Z ->
  exists gs, token_budget_microbatch_groups b m k = Ok gs /\
    is_partition gs (length lens) /\
    Forall (fun g => Sorted Nat.le g /\ within_budget lens m g) gs /\
    (Z.min k (Z.of_nat (length lens)) <= Z.of_nat (length gs))%Z.
Proof.
  intros Hl Hpos Hm. unfold token_budget_microbatch_groups. rewrite Hl. simpl.
  destruct (length lens =? 0) eqn:E0.
  { exists []. replace (length lens) with 0 by lia. split_and!; [done|constructor|constructor|simpl; lia]. }
  destruct (token_budget_groups_ok lens m Hm) as (gs & Hgs & Hp & Hb). rewrite Hgs. simpl.
  assert (Hsplit : exists gs',
    (if (Z.of_nat (length gs) <? k)%Z then split_groups_to_count gs lens k else Ok gs) = Ok gs' /\
    is_partition gs' (length lens) /\
    Forall (fun g => Sorted Nat.le g /\ within_budget lens m g) gs' /\
    (Z.min k (Z.of_nat (length lens)) <= Z.of_nat (length gs'))%Z).
  { destruct (_ <? _)%Z eqn:E.
    - destruct (split_groups_to_count_ok lens m k gs) as (gs' & Hgs' & Hp' & Hb' & Hn'); [done..| |lia|].
      + eapply Forall_impl; [exact Hb|]. by intros g [_ ?].
      + exists gs'. rewrite Hn'. split_and!; done.
    - exists gs. split_and!; [done..|]. lia. }
  destruct Hsplit as (gs' & -> & Hp' & Hb' & Hn'). simpl.
  rewrite bool_decide_eq_true_2 by (by apply py_sorted_seq). simpl. eauto.
Qed.

Definition example_batch : batch :=
  [("input_ids", VTensor (of_rows2 3 [[7; 8; 9]; [5; 0; 0]; [4; 4; 0]]%Z));
   ("context", VDict [("position_ids", VTensor (of_rows2 3 [[0; 1; 2]; [0; 0; 0]; [0; 1; 0]]%Z))])].

Lemma token_budget_microbatch_groups_witness :
  exists gs, token_budget_microbatch_groups example_batch 4 0 = Ok gs /\
    is_partition gs 3 /\
    Forall (fun g => Sorted Nat.le g /\ within_budget [3; 1; 2]%Z 4 g) gs /\
    (Z.min 0 (Z.of_nat 3) <= Z.of_nat (length gs))%Z.
Proof.
  apply (token_budget_microbatch_groups_total example_batch [3; 1; 2]%Z 4 0).
  - vm_compute. reflexivity.
  - repeat constructor; discriminate.
  - reflexivity.
Defined.

Lemma cumprod_zero l : sumZ (cumprod 0 l) = 0%Z.
Proof. induction l as [|x l IH]; cbn [cumprod sumZ]; [done|]. by rewrite Z.mul_0_l, IH. Qed.

Lemma cumprod_run (row : list Z) (q : Z) :
  exists k, k <= length row /\
    sumZ (cumprod 1 (imap (fun i p => if (p =? q + Z.of_nat i)%Z then 1%Z else 0%Z) row)) = Z.of_nat k /\
    (forall i, i < k -> row !! i = Some (q + Z.of_nat i)%Z) /\
    (forall p, row !! k = Some p -> p <> (q + Z.of_nat k)%Z).
Proof.
  revert q; induction row as [|p row IH]; intros q.
  - exists 0. split_and!; [done|done|intros; lia|done].
  - rewrite imap_cons. cbn [cumprod sumZ].
    destruct (p =? q + Z.of_nat 0)%Z eqn:E; rewrite Z.mul_1_l.
    + destruct (IH (q + 1)%Z) as (k & Hk & Hs & Hlt & Hbr). exists (S k). split_and!; [simpl; lia| | |].
      * rewrite (imap_ext _ (fun i p => if (p =? q + 1 + Z.of_nat i)%Z then 1%Z else 0%Z)); [lia|].
        intros i x _. simpl. by replace (q + Z.of_nat (S i))%Z with (q + 1 + Z.of_nat i)%Z by lia.
      * intros [|i] Hi; simpl; [f_equal; lia|]. rewrite Hlt by lia. f_equal. lia.
      * intros x Hx. specialize (Hbr x Hx). lia.
    + exists 0. rewrite cumprod_zero. split_and!; [lia|done|intros; lia|]. intros x [= <-]. lia.
Qed.

(** Without an attention mask, a row's billed length is the length of its leading run of
    positions that advance by one from the first position: every position inside the run
    matches, and the run stops at the first column that does not, whatever the later padding
    happens to hold. *)
Theorem advancing_run_length (p0 : Z) (rest : list Z) :
  exists k, k <= length (p0 :: rest) /\
    sumZ (advancing_run (p0 :: rest)) = Z.of_nat k /\ 1 <= k /\
    (forall i, i < k -> (p0 :: rest) !! i = Some (p0 + Z.of_nat i)%Z) /\
    (forall p, (p0 :: rest) !! k = Some p -> p <> (p0 + Z.of_nat k)%Z).
Proof.
  destruct (cumprod_run (p0 :: rest) p0) as (k & Hk & Hs & Hlt & Hbr).
  exists k. split_and!; [done|exact Hs| |done|done].
  destruct k; [|lia]. exfalso. apply (Hbr p0); [done|]. simpl. lia.
Qed.

(** ** Restoring row order *)

(** Writing every position at its row inverts a permutation, whatever was there before. *)
Lemma invert_order_spec n fo (init : list nat) :
  fo ≡ₚ seq 0 n -> length init = n ->
  let out := fold_left (fun acc '(position, row) => <[row := position]> acc) (imap pair fo) init in
  length out = n /\ (forall p r, fo !! p = Some r -> out !! r = Some p).
Proof.
  intros Hp Hinit. assert (Hnd : NoDup fo) by (rewrite Hp; apply NoDup_seq).
  assert (Hz : fold_left (fun acc '(position, row) => <[row := position]> acc) (imap pair fo) init =
    fold_left (fun rows '(i, cell) => <[i := cell]> rows) (zip fo (seq 0 (length fo))) init).
  { generalize init. clear.
    change (imap pair fo) with (imap (fun i r => (0 + i, r)) fo). generalize 0.
    induction fo as [|r fo IH]; intros k acc; simpl; [done|]. rewrite Nat.add_0_r.
    rewrite <- IH. f_equal. apply imap_ext. intros i x _. simpl. f_equal. lia. }
  rewrite Hz. destruct (fold_insert_zip fo (seq 0 (length fo)) init Hnd) as (Hl & Hin & _).
  { by rewrite length_seq. }
  { rewrite Hp, Hinit. apply Forall_forall. intros r Hr%elem_of_seq. lia. }
  split; [by rewrite Hl|]. intros p r Hr.
  eapply Hin; [done|]. apply lookup_seq_lt. by eapply lookup_lt_Some.
Qed.

Lemma restore_positions_spec n fo :
  fo ≡ₚ seq 0 n ->
  length (restore_positions n fo) = n /\
  (forall p r, fo !! p = Some r -> restore_positions n fo !! r = Some p).
Proof. intros H. apply invert_order_spec; [done|]. apply length_replicate. Qed.

(** Gathering rows in the forward order and then in the restore order is the identity. *)
Lemma restore_gather {A} (D : list A) w n fo ro :
  length D = n * w -> fo ≡ₚ seq 0 n -> length ro = n ->
  (forall p r, fo !! p = Some r -> ro !! r = Some p) ->
  concat (chunk w (concat (chunk w D <$> fo)) <$> ro) = D.
Proof.
  intros HD Hfo Hro Hinv.
  assert (HW : Forall (fun p => length p = w) (chunk w D <$> fo)).
  { rewrite Forall_fmap, Hfo. apply Forall_forall. intros r Hr%elem_of_seq. simpl.
    apply length_chunk. nia. }
  transitivity (concat (chunks w n D)); [|by apply concat_chunks]. f_equal. apply list_eq. intros r.
  rewrite list_lookup_fmap. unfold chunks. rewrite list_lookup_fmap.
  destruct (decide (r < n)) as [Hr|Hr].
  - rewrite lookup_seq_lt by done. simpl.
    assert (Hin : r ∈ fo) by (rewrite Hfo; apply elem_of_seq; lia).
    apply list_elem_of_lookup in Hin as [p Hp]. rewrite (Hinv _ _ Hp). simpl. f_equal.
    apply chunk_concat; [done|]. by rewrite list_lookup_fmap, Hp.
  - rewrite (lookup_ge_None_2 ro) by lia. by rewrite lookup_seq_ge by lia.
Qed.

Lemma select_rows_leaf b idx n b' path t tr :
  nodup_along b path -> get_path b path = Some (VTensor t) -> t_shape t = n :: tr ->
  select_rows b idx n = Ok b' ->
  exists t', get_path b' path = Some (VTensor t') /\ index_select0 t idx = Ok t'.
Proof.
  intros Hnd Hget Hs Hsel.
  assert (exists k, last path = Some k) as [k Hk].
  { destruct path as [|k0 path]; [done|]. destruct (last (k0 :: path)) eqn:E; [eauto|].
    by apply last_None in E. }
  destruct (map_batch_values_path _ _ _ _ _ _ Hnd Hk Hget ltac:(done) Hsel) as (r & Hr & Hg).
  simpl in Hr. unfold ndim, dim in Hr. rewrite Hs in Hr. simpl in Hr.
  rewrite Nat.eqb_refl in Hr. simpl in Hr.
  destruct (index_select0 t idx) as [t'|e] eqn:E; simplify_eq/=. eauto.
Qed.

(** When [split_microbatches] accepts a plan, concatenating a row-aligned leaf (at the
    top level or inside [context]) over the
    microbatches in order and then gathering its rows by [restore_order] (the identity when
    it is [None]) gives back the leaf of the original batch. *)
Theorem split_microbatches_restore (b : batch) groups n path t tr sp :
  nodup_along b path ->
  get_path b path = Some (VTensor t) -> t_wf t -> t_shape t = n :: tr ->
  split_microbatches b groups n = Ok sp ->
  exists ts, (fun mb => get_path mb path) <$> mb_batches sp = (fun x => Some (VTensor x)) <$> ts /\
    index_select0 (cat0 tr ts) (default (seq 0 n) (mb_restore_order sp)) = Ok t.
Proof.
  intros Hnd Hget Hwf Hs H. unfold split_microbatches in H. res_inv.
  rename Hm into Hchk, Hm0 into Hmap. apply bool_decide_eq_true, py_sorted_seq_inv in Hchk.
  apply mapM_ok_inv in Hmap. set (fo := concat groups) in *.
  assert (Hts : exists ts, (fun mb => get_path mb path) <$> r0 = (fun x => Some (VTensor x)) <$> ts /\
            Forall2 (fun g x => index_select0 t g = Ok x) groups ts).
  { clear -Hmap Hnd Hget Hs. induction Hmap as [|g mb gs mbs Hg _ (ts & IH1 & IH2)]; [by exists []|].
    destruct (select_rows_leaf _ _ _ _ _ _ _ Hnd Hget Hs Hg) as (x & Hx & Hi).
    exists (x :: ts). csimpl. rewrite IH1, Hx. split; [done|]. by constructor. }
  destruct Hts as (ts & Hts & Hsel). exists ts. split; [exact Hts|]. simpl.
  assert (Hdata : concat (t_data <$> ts) = concat (chunk (prodn tr) (t_data t) <$> fo) /\
                  sum_list (flip dim 0 <$> ts) = length fo).
  { clear -Hsel Hwf Hs. subst fo. induction Hsel as [|g x gs ts Hg _ [IH1 IH2]]; csimpl; [done|].
    destruct (index_select0_wf _ _ _ _ _ Hs Hwf Hg) as (Hs' & _ & Hd).
    rewrite fmap_app, concat_app, IH1, Hd. split; [done|].
    rewrite length_app, IH2. f_equal. unfold dim. simpl. by rewrite Hs'. }
  destruct Hdata as [Hd Hlen].
  set (ro := default (seq 0 n) _).
  assert (Hro : length ro = n /\ forall p r, fo !! p = Some r -> ro !! r = Some p).
  { subst ro. case_bool_decide as Hid; simpl.
    - rewrite Hid, length_seq. split; [done|]. intros p q [-> Hlt]%lookup_seq. simpl.
      by rewrite lookup_seq_lt by lia.
    - by apply restore_positions_spec. }
  destruct Hro as [Hrol Hinv].
  rewrite (index_select0_ok _ n tr).
  - unfold cat0. simpl. rewrite Hd.
    unfold t_wf in Hwf. rewrite Hs in Hwf. simpl in Hwf.
    rewrite (restore_gather _ _ n) by done. rewrite Hrol, <- Hs. by destruct t.
  - unfold cat0. simpl. by rewrite Hlen, Hchk, length_seq.
  - apply Forall_lookup. intros i p Hp.
    assert (Hi : i < n) by (apply lookup_lt_Some in Hp; lia).
    assert (Hin : i ∈ fo) by (rewrite Hchk; apply elem_of_seq; lia).
    apply list_elem_of_lookup in Hin as [q Hq]. rewrite (Hinv _ _ Hq) in Hp. simplify_eq.
    apply lookup_lt_Some in Hq. rewrite Hchk, length_seq in Hq. done.
Qed.

Lemma split_microbatches_restore_witness :
  exists sp ts,
    split_microbatches example_batch [[1]; [0; 2]] 3 = Ok sp /\
    (fun mb => get_path mb ["context"; "position_ids"]) <$> mb_batches sp = (fun x => Some (VTensor x)) <$> ts /\
    index_select0 (cat0 [3] ts) (default (seq 0 3) (mb_restore_order sp)) =
      Ok (of_rows2 3 [[0; 1; 2]; [0; 0; 0]; [0; 1; 0]]%Z).
Proof.
  destruct (split_microbatches example_batch [[1]; [0; 2]] 3) as [sp|e] eqn:E; [|discriminate E].
  destruct (split_microbatches_restore example_batch [[1]; [0; 2]] 3 ["context"; "position_ids"]
    (of_rows2 3 [[0; 1; 2]; [0; 0; 0]; [0; 1; 0]]%Z) [3] sp) as (ts & H1 & H2).
  - simpl. split_and!; (repeat constructor); set_solver.
  - reflexivity.
  - reflexivity.
  - reflexivity.
  - exact E.
  - exists sp, ts. split; [reflexivity|]. split; assumption.
Defined.
