(* ===== verification/Pack.v ===== *)
(** * Packing a row group into one varlen call ([common/packing/pack.py] and [windows.py])

    [pack_microbatch] drops padding and lays the rows' real tokens end to end,
    [pad_packed_microbatch] widens the call to a multiple of the shard count, [token_shard]
    cuts one shard's window, and [unpack_output] / [window_row_pieces] map results back to
    rows.  The theorems are the round trips of the packing contract: unpacking a packed leaf
    restores every real token and pads the rest, the shards of a call concatenate to the
    call, the row pieces over all shards concatenate to the rows, and the varlen boundaries
    read back from [position_ids] are the packed ones. *)

From S2P Require Import Prelude Dict Tensor Groups.
From stdpp Require Import prelude gmap strings list sorting.
From Stdlib Require Import ZArith Lia ZifyNat ZifyBool.

Definition IGNORE_INDEX : Z := -100.
Definition ROW_BROADCAST_KEYS : list string := ["sampler_kl_weights"].

Record PackMetadata := {
  batch_size : nat;
  sequence_length : nat;
  valid_lengths : list Z;
  cu_seqlens : list Z;
  padded_tokens : nat;
}.

Definition sequence_pad_value (key : string) : Z :=
  if decide (key = "labels") then IGNORE_INDEX
  else if decide (key = "temperature") then 1%Z
  else 0%Z.

(** [torch.cumsum]. *)
Fixpoint cumsum (acc : Z) (l : list Z) : list Z :=
  match l with
  | [] => []
  | x :: l => (acc + x)%Z :: cumsum (acc + x)%Z l
  end.

(** [torch.repeat_interleave(values, lengths)]. *)
Definition repeat_interleave {A} (values : list A) (lengths : list Z) : list A :=
  concat (zip_with (fun v l => replicate (Z.to_nat l) v) values lengths).

Definition packed_token_index (lens cu : list Z) (S : nat) : list Z :=
  let packed := Z.to_nat (sumZ lens) in
  let row_ids := repeat_interleave (seq 0 (length lens)) lens in
  let row_starts := repeat_interleave (take (length cu - 1) cu) lens in
  let within_row := zip_with (fun i s => (Z.of_nat i - s)%Z) (seq 0 packed) row_starts in
  zip_with (fun r w => (Z.of_nat r * Z.of_nat S + w)%Z) row_ids within_row.

(** ** Packing *)

Definition packed_value (B S : nat) (lens : list Z) (token_index : list nat)
    (key : string) (v : value) : res (option value) :=
  if decide (key = "attention_mask") then Ok None
  else
    match v with
    | VTensor t =>
        if bool_decide (key ∈ ROW_BROADCAST_KEYS) && bool_decide (t_shape t = [B]) then
          let data := repeat_interleave (t_data t) lens in
          Ok (Some (VTensor (mk_tensor [1; length data] data)))
        else if (2 <=? ndim t) && bool_decide (take 2 (t_shape t) = [B; S]) then
          t' ← index_select0 (mk_tensor (B * S :: drop 2 (t_shape t)) (t_data t)) token_index;
          Ok (Some (VTensor (unsqueeze0 t')))
        else Ok (Some v)
    | _ => Ok (Some v)
    end.

(** [torch.arange(S) < length], one row of the prefix mask. *)
Definition prefix_row (S : nat) (len : Z) : list bool := (fun i => (Z.of_nat i <? len)%Z) <$> seq 0 S.

Definition pack_microbatch (data : batch) : res (batch * PackMetadata) :=
  match batch_tensor data "attention_mask" 2 with
  | None => Raise (ValueError "packing requires a 2D attention_mask")
  | Some mask =>
      _ ← check (ndim mask =? 2) (ValueError "packing requires a 2D attention_mask");
      match batch_position_ids data with
      | None => Raise (ValueError "packing requires position_ids")
      | Some pos =>
          _ ← check (bool_decide (take 2 (t_shape pos) = t_shape mask))
                (ValueError "position_ids and attention_mask disagree");
          let B := dim mask 0 in
          let S := dim mask 1 in
          let lens := sumZ <$> rows2 mask in
          _ ← check (bool_decide ((fun row => (fun x => negb (x =? 0)%Z) <$> row) <$> rows2 mask =
                                  prefix_row S <$> lens))
                (ValueError "packing requires left-aligned rows");
          let cu := 0%Z :: cumsum 0 lens in
          let packed_tokens := Z.to_nat (default 0%Z (last cu)) in
          let token_index := Z.to_nat <$> packed_token_index lens cu S in
          packed ← map_batch_values (packed_value B S lens token_index) data;
          Ok (packed, {| batch_size := B; sequence_length := S; valid_lengths := lens;
                         cu_seqlens := cu; padded_tokens := packed_tokens |})
      end
  end.

Definition padded_value (current pad_tokens : nat) (key : string) (v : value) : res (option value) :=
  match v with
  | VTensor t =>
      if (2 <=? ndim t) && (dim t 1 =? current)
      then Ok (Some (VTensor (pad1 t pad_tokens (sequence_pad_value key))))
      else Ok (Some v)
  | _ => Ok (Some v)
  end.

Definition with_padded_tokens (md : PackMetadata) (n : nat) : PackMetadata :=
  {| batch_size := batch_size md; sequence_length := sequence_length md;
     valid_lengths := valid_lengths md; cu_seqlens := cu_seqlens md; padded_tokens := n |}.

Definition pad_packed_microbatch (packed : batch) (md : PackMetadata) (multiple : Z) :
    res (batch * PackMetadata) :=
  _ ← check (0 <? multiple)%Z (ValueError "multiple must be positive");
  let current := Z.of_nat (padded_tokens md) in
  let padded := (((current + multiple - 1) / multiple) * multiple)%Z in
  if (padded =? current)%Z then Ok (packed, md)
  else
    let pad_tokens := Z.to_nat (padded - current) in
    packed' ← map_batch_values (padded_value (padded_tokens md) pad_tokens) packed;
    Ok (packed', with_padded_tokens md (Z.to_nat padded)).

(** [torch.diff]. *)
Fixpoint diff (l : list Z) : list Z :=
  match l with
  | x :: (y :: _) as l' => (y - x)%Z :: diff l'
  | _ => []
  end.

(** [output.index_copy_(0, index, source)] on rows of [w] elements. *)
Definition index_copy0 (w n : nat) (out : list Z) (index : list nat) (source : list (list Z)) : res (list Z) :=
  _ ← check (length source =? length index) (IndexError "index_copy_(): source and index sizes differ");
  _ ← check (forallb (fun i => i <? n) index) (IndexError "index_copy_(): index out of range");
  Ok (concat (fold_left (fun rows '(i, cell) => <[i := cell]> rows) (zip index source) (chunks w n out))).

Definition unpack_output (packed : tensor) (md : PackMetadata) (pad_value : Z) : res tensor :=
  let B := batch_size md in
  let S := sequence_length md in
  _ ← check (length (valid_lengths md) =? B) (ValueError "pack metadata must contain one length per row");
  let shape := match t_shape packed with
               | 1 :: (_ :: _) as rest => rest
               | s => s
               end in
  let trailing := tail shape in
  let w := prodn trailing in
  let output := replicate (B * S * w) pad_value in
  if B =? 0 then Ok (mk_tensor (B :: S :: trailing) output)
  else
    let lens := valid_lengths md in
    _ ← check (forallb (fun l => (0 <=? l)%Z && (l <=? Z.of_nat S)%Z) lens)
          (ValueError "valid sequence lengths out of range");
    _ ← check (bool_decide (diff (cu_seqlens md) = lens)) (ValueError "pack metadata disagrees with itself");
    let index := Z.to_nat <$> packed_token_index lens (cu_seqlens md) S in
    let tokens := default 0 (head shape) in
    let source := chunks w (min (length index) tokens) (t_data packed) in
    data ← index_copy0 w (B * S) output index source;
    Ok (mk_tensor (B :: S :: trailing) data).

(** ** Windows of one shard *)

Definition token_window (padded shard_count shard_index : Z) : res (Z * Z) :=
  _ ← check (0 <? shard_count)%Z (ValueError "shard_count must be positive");
  _ ← check ((0 <=? shard_index)%Z && (shard_index <? shard_count)%Z) (ValueError "shard_index out of range");
  _ ← check (padded mod shard_count =? 0)%Z (ValueError "packed tokens must divide by shard_count");
  let window_tokens := (padded / shard_count)%Z in
  let start := (shard_index * window_tokens)%Z in
  Ok (start, start + window_tokens)%Z.

Definition sliced (md : PackMetadata) (start stop : nat) (key : string) (v : value) : res (option value) :=
  match v with
  | VTensor t =>
      if 2 <=? ndim t then
        let token_count := dim t 1 in
        let unpadded := default 0%Z (last (cu_seqlens md)) in
        if token_count =? padded_tokens md then Ok (Some (VTensor (slice1 t start stop)))
        else if (Z.of_nat token_count =? unpadded)%Z && negb (unpadded =? Z.of_nat (padded_tokens md))%Z
        then Raise (ValueError "leaf still has the unpadded token width")
        else Ok (Some v)
      else Ok (Some v)
  | _ => Ok (Some v)
  end.

Definition token_shard (packed : batch) (md : PackMetadata) (shard_count shard_index : Z) : res batch :=
  '(start, stop) ← token_window (Z.of_nat (padded_tokens md)) shard_count shard_index;
  map_batch_values (sliced md (Z.to_nat start) (Z.to_nat stop)) packed.

Definition clamp (lo hi x : Z) : Z := Z.min hi (Z.max lo x).

Definition window_cu_seqlens (md : PackMetadata) (shard_count shard_index : Z) : res (list Z) :=
  '(window_start, window_end) ← token_window (Z.of_nat (padded_tokens md)) shard_count shard_index;
  let boundaries := (fun c => clamp window_start window_end c - window_start)%Z <$> cu_seqlens md in
  Ok (<[(length boundaries - 1) := (window_end - window_start)%Z]> boundaries).

(** [flat[:-1][(flat == 0)[1:]] + 1]: the positions that precede a restart at 0, plus one. *)
Fixpoint segment_ends (flat : list Z) : list Z :=
  match flat with
  | x :: (y :: _) as rest => if (y =? 0)%Z then (x + 1)%Z :: segment_ends rest else segment_ends rest
  | _ => []
  end.

(** A 3-D tensor contributes its first slice; the rest is flattened. *)
Definition cu_seqlens_from_position_ids (position_ids : tensor) : res (list Z) :=
  _ ← check (1 <=? ndim position_ids) (ValueError "position_ids must have at least one dimension");
  let flat := match t_shape position_ids with
              | [_; d1; d2] => take (d1 * d2) (t_data position_ids)
              | _ => t_data position_ids
              end in
  match flat, last flat with
  | x :: _, Some z => Ok (cumsum 0 (x :: segment_ends flat ++ [z + 1])%Z)
  | _, _ => Ok [0%Z]
  end.

(** [t[a:b]] on dimension 0, with Python's clamping of slice bounds. *)
Definition slice0 (t : tensor) (a b : nat) : tensor :=
  match t_shape t with
  | d :: tr =>
      let w := prodn tr in
      let a' := min a d in
      let b' := max a' (min b d) in
      mk_tensor ((b' - a') :: tr) (take ((b' - a') * w) (drop (a' * w) (t_data t)))
  | [] => t
  end.

Definition row_piece (window_values : tensor) (window_start window_end row_start row_end : Z) : tensor :=
  let overlap_start := Z.max row_start window_start in
  let overlap_end := Z.min row_end window_end in
  if (overlap_end <=? overlap_start)%Z then slice0 window_values 0 0
  else slice0 window_values (Z.to_nat (overlap_start - window_start)) (Z.to_nat (overlap_end - window_start)).

Definition window_row_pieces (window_values : tensor) (md : PackMetadata) (shard_count shard_index : Z) :
    res (list tensor) :=
  _ ← check (1 <=? ndim window_values) (ValueError "window_values must have a token axis");
  let wv := match t_shape window_values with
            | 1 :: (_ :: _) as rest => mk_tensor rest (t_data window_values)
            | _ => window_values
            end in
  '(window_start, window_end) ← token_window (Z.of_nat (padded_tokens md)) shard_count shard_index;
  _ ← check (Z.of_nat (dim wv 0) =? window_end - window_start)%Z (ValueError "window has the wrong token count");
  mapM (fun row =>
          row_start ← at_index (cu_seqlens md) row;
          row_end ← at_index (cu_seqlens md) (S row);
          Ok (row_piece wv window_start window_end row_start row_end))
    (seq 0 (batch_size md)).

(** ** The packed order of tokens *)

(** Row by row, the flat positions [r * S + c] of the real tokens. *)
Fixpoint positions_from (r : nat) (lens : list Z) (S : nat) : list nat :=
  match lens with
  | [] => []
  | l :: lens => ((fun c => r * S + c) <$> seq 0 (Z.to_nat l)) ++ positions_from (Datatypes.S r) lens S
  end.

Abbreviation row_lens_ok lens S := (Forall (fun l => 0 <= l <= Z.of_nat S)%Z lens).

Lemma length_cumsum acc l : length (cumsum acc l) = length l.
Proof. revert acc; induction l; intros acc; simpl; auto. Qed.

Lemma take_cumsum c l lens :
  take (length (l :: lens)) (c :: cumsum c (l :: lens)) = c :: take (length lens) (cumsum c (l :: lens)).
Proof. done. Qed.

Lemma zip_with_replicate_l' {A B C} (f : A -> B -> C) n x (k : list B) :
  length k = n -> zip_with f (replicate n x) k = f x <$> k.
Proof.
  revert k; induction n as [|n IH]; intros [|y k] H; simplify_eq/=; [done|]. by rewrite IH.
Qed.
Lemma zip_with_replicate_r' {A B C} (f : A -> B -> C) n y (l : list A) :
  length l = n -> zip_with f l (replicate n y) = (fun x => f x y) <$> l.
Proof.
  revert l; induction n as [|n IH]; intros [|x l] H; simplify_eq/=; [done|]. by rewrite IH.
Qed.

Lemma length_repeat_interleave {A} (vs : list A) lens :
  Forall (fun l => 0 <= l)%Z lens -> length vs = length lens ->
  length (repeat_interleave vs lens) = Z.to_nat (sumZ lens).
Proof.
  unfold repeat_interleave. intros H; revert vs; induction H as [|l lens Hl Hls IH];
    intros [|v vs] Hlen; simplify_eq/=; [done|].
  rewrite length_app, length_replicate, IH by done. pose proof (sumZ_nonneg _ Hls). lia.
Qed.

Lemma packed_token_index_from (lens : list Z) (r a S : nat) :
  Forall (fun l => 0 <= l)%Z lens ->
  Z.to_nat <$>
    zip_with (fun r w => (Z.of_nat r * Z.of_nat S + w)%Z) (repeat_interleave (seq r (length lens)) lens)
      (zip_with (fun i s => (Z.of_nat i - s)%Z) (seq a (Z.to_nat (sumZ lens)))
         (repeat_interleave (take (length lens) (Z.of_nat a :: cumsum (Z.of_nat a) lens)) lens))
  = positions_from r lens S.
Proof.
  intros H; revert r a; induction H as [|l lens Hl Hls IH]; intros r a; [done|].
  pose proof (sumZ_nonneg _ Hls). cbn [sumZ length seq cumsum take positions_from].
  assert (Hlen : length (take (length lens) ((Z.of_nat a + l)%Z :: cumsum (Z.of_nat a + l) lens)) = length lens)
    by (rewrite length_take; simpl; rewrite length_cumsum; lia).
  unfold repeat_interleave. cbn [zip_with concat]. fold (@repeat_interleave nat) (@repeat_interleave Z).
  replace (Z.to_nat (l + sumZ lens)) with (Z.to_nat l + Z.to_nat (sumZ lens)) by lia.
  rewrite seq_app, zip_with_app by (by rewrite length_seq, length_replicate).
  rewrite zip_with_app by (rewrite length_zip_with, length_seq, !length_replicate; lia).
  rewrite fmap_app. f_equal.
  - rewrite zip_with_replicate_r' by (by rewrite length_seq).
    rewrite zip_with_replicate_l' by (by rewrite length_fmap, length_seq).
    rewrite <- !list_fmap_compose. apply list_eq. intros i. rewrite !list_lookup_fmap.
    destruct (decide (i < Z.to_nat l)).
    + rewrite !lookup_seq_lt by done. simpl. f_equal. unfold compose. lia.
    + by rewrite !lookup_seq_ge by lia.
  - replace (Z.of_nat a + l)%Z with (Z.of_nat (a + Z.to_nat l)) by lia. apply IH.
Qed.

Lemma packed_token_index_positions lens S :
  Forall (fun l => 0 <= l)%Z lens ->
  Z.to_nat <$> packed_token_index lens (0%Z :: cumsum 0 lens) S = positions_from 0 lens S.
Proof.
  intros H. unfold packed_token_index. simpl length. rewrite length_cumsum.
  replace (Datatypes.S (length lens) - 1) with (length lens) by lia.
  by apply (packed_token_index_from lens 0 0 S).
Qed.

Lemma elem_of_positions r0 lens S q :
  row_lens_ok lens S ->
  q ∈ positions_from r0 lens S <->
  exists i l c, lens !! i = Some l /\ c < Z.to_nat l /\ q = (r0 + i) * S + c.
Proof.
  intros H; revert r0; induction H as [|l lens Hl Hls IH]; intros r0; simpl.
  - split; [set_solver|]. intros (i & l & c & Hi & _). done.
  - rewrite elem_of_app, IH, list_elem_of_fmap. split.
    + intros [(c & -> & Hc%elem_of_seq)|(i & l' & c & Hi & Hc & ->)].
      * exists 0, l, c. split_and!; [done|lia|lia].
      * exists (Datatypes.S i), l', c. split_and!; [done|lia|]. f_equal. f_equal. lia.
    + intros (i & l' & c & Hi & Hc & ->). destruct i as [|i]; simplify_eq/=.
      * left. exists c. rewrite elem_of_seq. split; [f_equal; lia|lia].
      * right. exists i, l', c. split_and!; [done|lia|]. f_equal. f_equal. lia.
Qed.

Lemma NoDup_positions r0 lens S : row_lens_ok lens S -> NoDup (positions_from r0 lens S).
Proof.
  intros H; revert r0; induction H as [|l lens Hl Hls IH]; intros r0; simpl; [constructor|].
  apply NoDup_app. split_and!; [|intros q|apply IH].
  - apply NoDup_fmap_2; [intros ??; lia|apply NoDup_seq].
  - intros (c & -> & Hc%elem_of_seq)%list_elem_of_fmap.
    rewrite elem_of_positions by done. intros (i & l' & c' & _ & _ & Heq). nia.
Qed.

Lemma length_positions r0 lens S :
  Forall (fun l => 0 <= l)%Z lens -> length (positions_from r0 lens S) = Z.to_nat (sumZ lens).
Proof.
  intros H; revert r0; induction H as [|l lens Hl Hls IH]; intros r0; simpl; [done|].
  rewrite length_app, length_fmap, length_seq, IH. pose proof (sumZ_nonneg _ Hls). lia.
Qed.

Lemma positions_lt lens S q :
  row_lens_ok lens S -> q ∈ positions_from 0 lens S -> q < length lens * S.
Proof.
  intros H Hq. apply (elem_of_positions _ _ _ _ H) in Hq as (i & l & c & Hi & Hc & ->).
  pose proof (Forall_lookup_1 _ _ _ _ H Hi) as Hl. simpl in Hl.
  apply lookup_lt_Some in Hi. nia.
Qed.

Lemma cumsum_app acc k m : cumsum acc (k ++ m) = cumsum acc k ++ cumsum (acc + sumZ k) m.
Proof.
  revert acc; induction k as [|x k IH]; intros acc; simpl; [f_equal; lia|].
  by rewrite IH, Z.add_assoc.
Qed.

Lemma diff_cumsum c lens : diff (c :: cumsum c lens) = lens.
Proof.
  revert c; induction lens as [|l lens IH]; intros c; [done|].
  cbn [cumsum]. cbn [diff]. f_equal; [lia|]. apply IH.
Qed.

Lemma last_cumsum c lens : last (c :: cumsum c lens) = Some (c + sumZ lens)%Z.
Proof.
  revert c; induction lens as [|l lens IH]; intros c; simpl cumsum; [simpl; f_equal; lia|].
  change (last (c :: (c + l)%Z :: cumsum (c + l) lens)) with (last ((c + l)%Z :: cumsum (c + l) lens)).
  rewrite IH. simpl. f_equal. lia.
Qed.

(** ** Unpacking *)

Lemma chunk_replicate {A} w n i (x : A) : i < n -> chunk w (replicate (n * w) x) i = replicate w x.
Proof.
  intros H. unfold chunk. rewrite drop_replicate, take_replicate. f_equal.
  assert (S i * w <= n * w) by (apply Nat.mul_le_mono_r; lia). lia.
Qed.

(** [index_copy_] of gathered cells into a padded output puts each cell back in place. *)
Lemma index_copy0_cells (w n : nat) (pad : Z) (idx : list nat) (cells : list (list Z)) :
  NoDup idx -> length idx = length cells -> Forall (fun i => i < n) idx ->
  Forall (fun c => length c = w) cells ->
  exists data, index_copy0 w n (replicate (n * w) pad) idx cells = Ok data /\
    length data = n * w /\
    (forall p i cell, idx !! p = Some i -> cells !! p = Some cell -> chunk w data i = cell) /\
    (forall i, i < n -> i ∉ idx -> chunk w data i = replicate w pad).
Proof.
  intros Hnd Hlen Hlt Hw. unfold index_copy0.
  rewrite Hlen, Nat.eqb_refl. simpl.
  rewrite (proj2 (forallb_forall _ _)) by (intros i Hi; rewrite Forall_forall in Hlt;
    apply list_elem_of_In, Hlt in Hi; lia). simpl.
  destruct (fold_insert_zip idx cells (chunks w n (replicate (n * w) pad)) Hnd Hlen) as (Hl & Hin & Hout).
  { by rewrite length_chunks. }
  set (out := fold_left _ _ _) in *. rewrite length_chunks in Hl.
  assert (Hpad : forall i, i < n -> i ∉ idx -> out !! i = Some (replicate w pad)).
  { intros i Hi Hni. rewrite Hout by done. rewrite chunks_lookup by done. by rewrite chunk_replicate. }
  assert (HW : Forall (fun c => length c = w) out).
  { apply Forall_lookup. intros i c Hc. destruct (decide (i ∈ idx)) as [Hi|Hi].
    - apply list_elem_of_lookup in Hi as [p Hp].
      destruct (lookup_lt_is_Some_2 cells p) as [cell Hcell];
        [rewrite <- Hlen; by eapply lookup_lt_Some|].
      rewrite (Hin _ _ _ Hp Hcell) in Hc. simplify_eq. by apply (Forall_lookup_1 _ _ _ _ Hw Hcell).
    - rewrite Hpad in Hc; [|apply lookup_lt_Some in Hc; lia|done]. simplify_eq.
      by rewrite length_replicate. }
  exists (concat out). split_and!; [done|by rewrite (length_concat_const w), Hl| |].
  - intros p i cell Hp Hc. apply chunk_concat; [done|]. by eapply Hin.
  - intros i Hi Hni. apply chunk_concat; [done|]. by apply Hpad.
Qed.

Section unpack.
Context (lens : list Z) (S T : nat) (tr : list nat) (p : tensor) (cell : nat -> list Z).
Context (Hlens : row_lens_ok lens S).
Context (Hshape : t_shape p = 1 :: T :: tr) (Hwf : t_wf p) (HT : Z.to_nat (sumZ lens) <= T).
Context (Hcells : forall i q, positions_from 0 lens S !! i = Some q -> chunk (prodn tr) (t_data p) i = cell q).

Definition metadata_for (padded : nat) : PackMetadata :=
  {| batch_size := length lens; sequence_length := S; valid_lengths := lens;
     cu_seqlens := 0%Z :: cumsum 0 lens; padded_tokens := padded |}.

Lemma unpack_output_cells padded pad :
  exists u, unpack_output p (metadata_for padded) pad = Ok u /\
    t_shape u = length lens :: S :: tr /\ t_wf u /\
    forall r c l, lens !! r = Some l -> c < S ->
      chunk (prodn tr) (t_data u) (r * S + c) =
        if (Z.of_nat c <? l)%Z then cell (r * S + c) else replicate (prodn tr) pad.
Proof.
  assert (Hpos : Forall (fun l => 0 <= l)%Z lens) by (eapply Forall_impl; [exact Hlens|]; simpl; lia).
  unfold unpack_output, metadata_for. cbn [batch_size sequence_length valid_lengths cu_seqlens].
  rewrite Nat.eqb_refl, Hshape. cbn [mbind res_bind check tail head default].
  destruct (length lens =? 0) eqn:E.
  { assert (lens = []) as -> by (destruct lens; [done|simpl in E; lia]).
    eexists. split; [done|]. split; [done|]. split; [|intros r c l Hr; done].
    unfold t_wf. simpl. done. }
  rewrite (proj2 (forallb_forall _ _)); last first.
  { intros l Hl%list_elem_of_In. rewrite Forall_forall in Hlens. apply Hlens in Hl. lia. }
  rewrite diff_cumsum, bool_decide_eq_true_2 by done.
  rewrite packed_token_index_positions by done. cbn [mbind res_bind check].
  rewrite length_positions by done. rewrite Nat.min_l by done.
  set (w := prodn tr) in *. unfold t_wf in Hwf. rewrite Hshape in Hwf. simpl in Hwf.
  fold w in Hwf.
  destruct (index_copy0_cells w (length lens * S) pad (positions_from 0 lens S)
              (chunks w (Z.to_nat (sumZ lens)) (t_data p))) as (data & -> & Hl & Hin & Hout).
  - by apply NoDup_positions.
  - by rewrite length_positions, length_chunks.
  - apply Forall_forall. intros q Hq. by apply positions_lt.
  - apply chunks_widths. rewrite Hwf. nia.
  - cbn [mbind res_bind]. eexists. split; [done|]. split; [done|]. split.
    { unfold t_wf. simpl. fold w. rewrite Hl. lia. }
    intros r c l Hr Hc. simpl t_data.
    destruct (Z.of_nat c <? l)%Z eqn:Ec.
    + assert (Hq : r * S + c ∈ positions_from 0 lens S).
      { apply elem_of_positions; [done|]. exists r, l, c. split_and!; [done|lia|lia]. }
      apply list_elem_of_lookup in Hq as [i Hi]. rewrite <- (Hcells _ _ Hi).
      apply (Hin i); [done|]. apply chunks_lookup.
      apply lookup_lt_Some in Hi. by rewrite length_positions in Hi.
    + apply Hout.
      * apply lookup_lt_Some in Hr. nia.
      * intros (i & l' & c' & Hi & Hc' & Heq)%elem_of_positions; [|done].
        assert (Hl' : (0 <= l' <= Z.of_nat S)%Z) by (apply (Forall_lookup_1 _ _ _ _ Hlens Hi)).
        assert (r = i) by nia. subst i. assert (c = c') by lia. simplify_eq. lia.
Qed.
End unpack.

(** ** What packing does to a leaf *)

Definition mask_01 (mask : tensor) : Prop := Forall (fun x => x = 0 \/ x = 1)%Z (t_data mask).

Lemma sumZ_01 (l : list Z) :
  Forall (fun x => x = 0 \/ x = 1)%Z l -> (0 <= sumZ l <= Z.of_nat (length l))%Z.
Proof. induction 1 as [|x l Hx Hl IH]; cbn [sumZ length] in *; lia. Qed.

Lemma rows2_lens_ok mask :
  t_wf mask -> ndim mask = 2 -> mask_01 mask -> row_lens_ok (sumZ <$> rows2 mask) (dim mask 1).
Proof.
  intros Hwf Hnd H01. unfold rows2. rewrite Forall_fmap.
  assert (HW : Forall (fun row => length row = dim mask 1) (chunks (dim mask 1) (dim mask 0) (t_data mask))).
  { apply chunks_widths. unfold t_wf, ndim, dim in *.
    destruct (t_shape mask) as [|a [|b [|? ?]]]; simplify_eq/=. lia. }
  rewrite Forall_forall in *. intros row Hrow. specialize (HW row Hrow).
  apply list_elem_of_fmap in Hrow as (i & -> & _).
  assert (Hsub : Forall (fun x => x = 0 \/ x = 1)%Z (chunk (dim mask 1) (t_data mask) i)).
  { unfold chunk. apply Forall_take, Forall_drop, H01. }
  unfold compose. cbv beta. pose proof (sumZ_01 _ Hsub). lia.
Qed.

Lemma pack_microbatch_inv data packed md mask :
  batch_tensor data "attention_mask" 2 = Some mask -> t_wf mask -> mask_01 mask ->
  pack_microbatch data = Ok (packed, md) ->
  let lens := sumZ <$> rows2 mask in
  row_lens_ok lens (dim mask 1) /\ length lens = dim mask 0 /\
  md = metadata_for lens (dim mask 1) (Z.to_nat (sumZ lens)) /\
  map_batch_values (packed_value (dim mask 0) (dim mask 1) lens (positions_from 0 lens (dim mask 1))) data = Ok packed.
Proof.
  intros Hmask Hwf H01 H. unfold pack_microbatch in H. rewrite Hmask in H. res_inv.
  destruct (batch_position_ids data) as [pos|] eqn:Ep; [|done]. res_inv.
  rename Hm into Hnd, Hm2 into Hmap. simplify_eq/=.
  assert (Hok : row_lens_ok (sumZ <$> rows2 mask) (dim mask 1)) by (apply rows2_lens_ok; [done|lia|done]).
  assert (Hpos : Forall (fun l => 0 <= l)%Z (sumZ <$> rows2 mask))
    by (eapply Forall_impl; [exact Hok|]; simpl; lia).
  assert (Hlen : length (sumZ <$> rows2 mask) = dim mask 0)
    by (unfold rows2; by rewrite length_fmap, length_chunks).
  rewrite packed_token_index_positions in Hmap by done.
  split_and!; [done|done| |done]. unfold metadata_for. rewrite Hlen. f_equal.
  pose proof (last_cumsum 0 (sumZ <$> rows2 mask)) as Hlast. by rewrite Hlast.
Qed.

(** The packed form of a [B, S, ...] leaf: its real tokens, row by row. *)
Lemma packed_leaf B S lens key t tr v :
  key <> "attention_mask" -> t_shape t = B :: S :: tr -> t_wf t ->
  row_lens_ok lens S -> length lens = B ->
  packed_value B S lens (positions_from 0 lens S) key (VTensor t) = Ok v ->
  exists p, v = Some (VTensor p) /\ t_shape p = 1 :: Z.to_nat (sumZ lens) :: tr /\ t_wf p /\
    forall i q, positions_from 0 lens S !! i = Some q ->
      chunk (prodn tr) (t_data p) i = chunk (prodn tr) (t_data t) q.
Proof.
  intros Hkey Hs Hwf Hok HB H. unfold packed_value in H. rewrite decide_False in H by done.
  rewrite Hs in H. rewrite (bool_decide_eq_false_2 (_ = [B])) in H by done.
  rewrite andb_false_r in H. unfold ndim in H. rewrite Hs in H. cbn [length] in H.
  rewrite bool_decide_eq_true_2 in H by done. simpl in H.
  assert (Hpos : Forall (fun l => 0 <= l)%Z lens) by (eapply Forall_impl; [exact Hok|]; simpl; lia).
  unfold t_wf in Hwf. rewrite Hs in Hwf. simpl in Hwf.
  rewrite drop_0 in H. destruct (index_select0 _ _) as [t'|e] eqn:E; simplify_eq/=.
  apply (index_select0_wf _ (length lens * S) tr) in E as (Hs' & Hwf' & Hd); [|done|].
  2: { unfold t_wf. simpl. lia. }
  exists (unsqueeze0 t'). split; [done|]. rewrite length_positions in Hs' by done.
  split_and!.
  - unfold unsqueeze0. simpl. by rewrite Hs'.
  - unfold t_wf, unsqueeze0 in *. simpl. rewrite Hwf'. lia.
  - intros i q Hi. simpl. rewrite Hd. simpl. apply chunk_concat.
    + apply Forall_fmap, Forall_forall. intros q' Hq'. simpl.
      apply positions_lt in Hq'; [|done]. apply length_chunk. nia.
    + by rewrite list_lookup_fmap, Hi.
Qed.

(** ** Padding to a multiple *)

Lemma pad1_leaf p T tr n v :
  t_shape p = 1 :: T :: tr -> t_wf p ->
  t_shape (pad1 p n v) = 1 :: (T + n) :: tr /\ t_wf (pad1 p n v) /\
  t_data (pad1 p n v) = t_data p ++ replicate (n * prodn tr) v.
Proof.
  intros Hs Hwf. unfold t_wf in *. rewrite Hs in Hwf. simpl in Hwf.
  assert (Hd : t_data (pad1 p n v) = t_data p ++ replicate (n * prodn tr) v).
  { unfold pad1. rewrite Hs. simpl. unfold chunks. simpl. unfold chunk. simpl.
    rewrite drop_0, take_ge by lia. by rewrite app_nil_r. }
  assert (Hsh : t_shape (pad1 p n v) = 1 :: (T + n) :: tr) by (unfold pad1; by rewrite Hs).
  split_and!; [done| |done]. rewrite Hd, Hsh, length_app, length_replicate. simpl. lia.
Qed.

Lemma chunk_app_l {A} w (l k : list A) i : S i * w <= length l -> chunk w (l ++ k) i = chunk w l i.
Proof.
  intros H. unfold chunk. rewrite drop_app_le by lia. rewrite take_app_le; [done|].
  rewrite length_drop. lia.
Qed.

Lemma pad_packed_inv packed md multiple packed' md' :
  pad_packed_microbatch packed md multiple = Ok (packed', md') ->
  (0 < multiple)%Z /\
  (packed' = packed /\ md' = md /\ (Z.of_nat (padded_tokens md) mod multiple = 0)%Z \/
   exists n, n <> 0 /\ md' = with_padded_tokens md (padded_tokens md + n) /\
     (Z.of_nat (padded_tokens md + n) mod multiple = 0)%Z /\
     (Z.of_nat n < multiple)%Z /\
     map_batch_values (padded_value (padded_tokens md) n) packed = Ok packed').
Proof.
  intros H. unfold pad_packed_microbatch in H. res_inv. rename Hm into Hpos.
  set (c := Z.of_nat (padded_tokens md)) in *.
  pose proof (Z.div_mod (c + multiple - 1) multiple ltac:(lia)) as Hdm.
  pose proof (Z.mod_pos_bound (c + multiple - 1) multiple ltac:(lia)) as Hb.
  split; [lia|]. destruct (_ =? c)%Z eqn:E; res_inv.
  - left. simplify_eq. split_and!; [done..|].
    replace c with ((c + multiple - 1) / multiple * multiple)%Z by lia. apply Z.mod_mul. lia.
  - right. simplify_eq. set (P := ((c + multiple - 1) / multiple * multiple)%Z) in *.
    assert (Hge : (c <= P)%Z) by (unfold P; lia).
    exists (Z.to_nat (P - c)).
    assert (HP : padded_tokens md + Z.to_nat (P - c) = Z.to_nat P) by (unfold c in *; lia).
    rewrite HP. split_and!; [lia|done| | |done].
    + rewrite Z2Nat.id by lia. apply Z.mod_mul. lia.
    + unfold P in *. lia.
Qed.

(** The leaf of a packed and padded call, whichever branch padding took. *)
Lemma pad_packed_leaf packed lens S multiple packed' md' path p tr :
  let T := Z.to_nat (sumZ lens) in
  pad_packed_microbatch packed (metadata_for lens S T) multiple = Ok (packed', md') ->
  nodup_along packed path -> get_path packed path = Some (VTensor p) ->
  t_shape p = 1 :: T :: tr -> t_wf p ->
  exists n v p', md' = metadata_for lens S (T + n) /\ (Z.of_nat (T + n) mod multiple = 0)%Z /\
    get_path packed' path = Some (VTensor p') /\
    t_shape p' = 1 :: (T + n) :: tr /\ t_wf p' /\
    t_data p' = t_data p ++ replicate (n * prodn tr) v /\
    (forall key, last path = Some key -> n <> 0 -> v = sequence_pad_value key).
Proof.
  intros T H Hnd Hget Hs Hwf. apply pad_packed_inv in H as [Hpos [(-> & -> & Hmod)|(n & Hn & -> & Hmod & _ & Hmap)]].
  - exists 0, 0%Z, p. rewrite Nat.add_0_r. simpl. rewrite app_nil_r. split_and!; try done.
  - destruct (last_key_of_path _ _ _ Hget) as [key Hk].
    destruct (map_batch_values_path _ _ _ _ _ _ Hnd Hk Hget ltac:(done) Hmap) as (r & Hr & Hg).
    unfold padded_value, ndim, dim in Hr. rewrite Hs in Hr. simpl in Hr.
    rewrite Nat.eqb_refl in Hr. simpl in Hr. injection Hr as <-.
    destruct (pad1_leaf p T tr n (sequence_pad_value key) Hs Hwf) as (Hs' & Hwf' & Hd).
    exists n, (sequence_pad_value key), (pad1 p n (sequence_pad_value key)). split_and!; try done.
    intros key' Hk'. by simplify_eq.
Qed.

(** Packing followed by padding, at one [B, S, ...] leaf. *)
Lemma pack_pad_leaf data packed md multiple packed' md' mask path key t tr :
  batch_tensor data "attention_mask" 2 = Some mask -> t_wf mask -> mask_01 mask ->
  pack_microbatch data = Ok (packed, md) ->
  pad_packed_microbatch packed md multiple = Ok (packed', md') ->
  nodup_along data path -> last path = Some key -> key <> "attention_mask" ->
  get_path data path = Some (VTensor t) ->
  t_shape t = dim mask 0 :: dim mask 1 :: tr -> t_wf t ->
  let lens := sumZ <$> rows2 mask in
  let T := Z.to_nat (sumZ lens) in
  row_lens_ok lens (dim mask 1) /\ length lens = dim mask 0 /\
  exists n v p, md' = metadata_for lens (dim mask 1) (T + n) /\ (Z.of_nat (T + n) mod multiple = 0)%Z /\
    get_path packed' path = Some (VTensor p) /\ t_shape p = 1 :: (T + n) :: tr /\ t_wf p /\
    (n <> 0 -> v = sequence_pad_value key) /\
    t_data p = concat (chunk (prodn tr) (t_data t) <$> positions_from 0 lens (dim mask 1))
               ++ replicate (n * prodn tr) v.
Proof.
  intros Hmask Hwfm H01 Hpack Hpad Hnd Hk Hkey Hget Hs Hwf lens T.
  destruct (pack_microbatch_inv _ _ _ _ Hmask Hwfm H01 Hpack) as (Hok & Hlen & Hmd & Hmap).
  fold lens in Hok, Hlen, Hmd, Hmap. split; [done|]. split; [done|].
  destruct (map_batch_values_path _ _ _ _ _ _ Hnd Hk Hget ltac:(done) Hmap) as (r & Hr & Hg).
  destruct (packed_leaf _ _ _ _ _ _ _ Hkey Hs Hwf Hok Hlen Hr) as (p & -> & Hsp & Hwfp & Hcells).
  rewrite Hmd in Hpad.
  destruct (pad_packed_leaf _ _ _ _ _ _ path p tr Hpad) as (n & v & p' & -> & Hmod & Hg' & Hs' & Hwf' & Hd & Hv);
    [by eapply nodup_along_map|done..|].
  exists n, v, p'. split_and!; try done; [by apply Hv|]. rewrite Hd. f_equal.
  unfold t_wf in Hwfp. rewrite Hsp in Hwfp. simpl in Hwfp.
  rewrite <- (concat_chunks (prodn tr) T (t_data p)) by (fold T in Hwfp; lia).
  assert (Hpos : Forall (fun l => 0 <= l)%Z lens) by (eapply Forall_impl; [exact Hok|]; simpl; lia).
  f_equal. apply list_eq. intros i. rewrite list_lookup_fmap.
  destruct (positions_from 0 lens (dim mask 1) !! i) as [q|] eqn:Eq; simpl.
  - rewrite chunks_lookup by (apply lookup_lt_Some in Eq; by rewrite length_positions in Eq).
    f_equal. by apply Hcells.
  - apply lookup_ge_None_2. rewrite length_chunks.
    apply lookup_ge_None_1 in Eq. by rewrite length_positions in Eq.
Qed.

(** C1: unpacking undoes packing.  Take any 0/1 attention mask the packer accepts and any
    [B, S, ...] leaf of the batch (top level or nested): after [pack_microbatch] and
    [pad_packed_microbatch] to any multiple, [unpack_output] of the packed leaf returns a
    [B, S, ...] tensor that agrees with the original on every real token and holds the pad
    value everywhere else. *)
Theorem pack_unpack_roundtrip data packed md multiple packed' md' mask path key t tr pad :
  batch_tensor data "attention_mask" 2 = Some mask -> t_wf mask -> mask_01 mask ->
  pack_microbatch data = Ok (packed, md) ->
  pad_packed_microbatch packed md multiple = Ok (packed', md') ->
  nodup_along data path -> last path = Some key -> key <> "attention_mask" ->
  get_path data path = Some (VTensor t) ->
  t_shape t = dim mask 0 :: dim mask 1 :: tr -> t_wf t ->
  exists p u, get_path packed' path = Some (VTensor p) /\
    unpack_output p md' pad = Ok u /\ t_shape u = t_shape t /\
    forall r c row, rows2 mask !! r = Some row -> c < dim mask 1 ->
      chunk (prodn tr) (t_data u) (r * dim mask 1 + c) =
        if (Z.of_nat c <? sumZ row)%Z then chunk (prodn tr) (t_data t) (r * dim mask 1 + c)
        else replicate (prodn tr) pad.
Proof.
  intros Hmask Hwfm H01 Hpack Hpad Hnd Hk Hkey Hget Hs Hwf.
  destruct (pack_pad_leaf data packed md multiple packed' md' mask path key t tr)
    as (Hok & Hlen & n & v & p & -> & _ & Hg & Hsp & Hwfp & _ & Hd); [done..|].
  set (lens := sumZ <$> rows2 mask) in *. set (S := dim mask 1) in *.
  assert (Hpos : Forall (fun l => 0 <= l)%Z lens) by (eapply Forall_impl; [exact Hok|]; simpl; lia).
  destruct (unpack_output_cells lens S _ tr p (chunk (prodn tr) (t_data t)) Hok Hsp Hwfp ltac:(lia))
    with (padded := Z.to_nat (sumZ lens) + n) (pad := pad) as (u & Hu & Hsu & _ & Hcells).
  - intros i q Hi. rewrite Hd.
    assert (HW : Forall (fun c => length c = prodn tr) (chunk (prodn tr) (t_data t) <$> positions_from 0 lens S)).
    { apply Forall_fmap, Forall_forall. intros q' Hq'%positions_lt; [|done]. simpl. apply length_chunk.
      unfold t_wf in Hwf. rewrite Hs in Hwf. simpl in Hwf. rewrite Hlen in Hq'. nia. }
    rewrite chunk_app_l.
    + apply chunk_concat; [done|]. by rewrite list_lookup_fmap, Hi.
    + rewrite (length_concat_const _ _ HW), length_fmap. apply lookup_lt_Some in Hi. nia.
  - exists p, u. rewrite Hsu, Hlen, Hs. split_and!; [done..|].
    intros r c row Hr Hc. apply Hcells; [|done]. unfold lens. by rewrite list_lookup_fmap, Hr.
Qed.

Definition example_call : batch :=
  [("attention_mask", VTensor (of_rows2 3 [[1; 1; 0]; [1; 1; 1]]%Z));
   ("position_ids", VTensor (of_rows2 3 [[0; 1; 0]; [0; 1; 2]]%Z));
   ("context", VDict [("labels", VTensor (of_rows2 3 [[7; 8; 9]; [4; 5; 6]]%Z))])].

Definition example_mask : tensor := of_rows2 3 [[1; 1; 0]; [1; 1; 1]]%Z.

Lemma pack_unpack_roundtrip_witness :
  exists packed md packed' md' p u,
    pack_microbatch example_call = Ok (packed, md) /\
    pad_packed_microbatch packed md 4 = Ok (packed', md') /\
    get_path packed' ["context"; "labels"] = Some (VTensor p) /\
    unpack_output p md' 0 = Ok u /\ t_shape u = [2; 3] /\
    forall r c row, rows2 example_mask !! r = Some row -> c < 3 ->
      chunk 1 (t_data u) (r * 3 + c) =
        if (Z.of_nat c <? sumZ row)%Z then chunk 1 [7; 8; 9; 4; 5; 6]%Z (r * 3 + c)
        else replicate 1 0%Z.
Proof.
  destruct (pack_microbatch example_call) as [[packed md]|] eqn:E1; [|discriminate E1].
  destruct (pad_packed_microbatch packed md 4) as [[packed' md']|] eqn:E2.
  2: { vm_compute in E1. injection E1 as <- <-. discriminate E2. }
  destruct (pack_unpack_roundtrip example_call packed md 4 packed' md' example_mask
    ["context"; "labels"] "labels" (of_rows2 3 [[7; 8; 9]; [4; 5; 6]]%Z) [] 0)
    as (p & u & H1 & H2 & H3 & H4).
  - reflexivity.
  - reflexivity.
  - repeat constructor; vm_compute; intuition congruence.
  - exact E1.
  - exact E2.
  - simpl. split_and!; (repeat constructor); set_solver.
  - reflexivity.
  - discriminate.
  - reflexivity.
  - reflexivity.
  - reflexivity.
  - exists packed, md, packed', md', p, u. split; [reflexivity|]. split; [exact E2|]. auto.
Defined.

(** ** Shards of a call *)

(** Tokens [a .. b) of a flat list of [w]-element cells. *)
Definition seg {A} (w : nat) (D : list A) (a b : nat) : list A := take ((b - a) * w) (drop (a * w) D).

Section seg.
Context {A : Type} (w : nat) (D : list A).

Lemma seg_nil a b : b <= a -> seg w D a b = [].
Proof. intros H. unfold seg. replace (b - a) with 0 by lia. done. Qed.

Lemma seg_app a b c : a <= b -> b <= c -> seg w D a b ++ seg w D b c = seg w D a c.
Proof.
  intros H1 H2. unfold seg.
  replace ((c - a) * w) with ((b - a) * w + (c - b) * w) by nia.
  rewrite <- take_take_drop. rewrite drop_drop. by replace (a * w + (b - a) * w) with (b * w) by nia.
Qed.

Lemma seg_seg a b c d : c + a <= d -> c + b <= d -> seg w (seg w D c d) a b = seg w D (c + a) (c + b).
Proof.
  intros H1 H2. unfold seg. rewrite skipn_firstn_comm. rewrite firstn_firstn, drop_drop.
  f_equal; [nia|]. f_equal. lia.
Qed.

Lemma length_seg a b : b * w <= length D -> length (seg w D a b) = (b - a) * w.
Proof. intros H. unfold seg. rewrite length_take, length_drop. nia. Qed.

Lemma seg_all n : length D = n * w -> seg w D 0 n = D.
Proof. intros H. unfold seg. rewrite drop_0, take_ge; [done|lia]. Qed.

(** Cutting [a, b) at the multiples of [W] and concatenating the parts. *)
Lemma seg_windows (W a b n : nat) :
  concat ((fun i => seg w D (max a (i * W)) (min b ((i + 1) * W))) <$> seq 0 n) = seg w D a (min b (n * W)).
Proof.
  induction n as [|n IH]; [simpl; by rewrite seg_nil by lia|].
  rewrite seq_S, fmap_app, concat_app, IH. simpl. rewrite app_nil_r.
  replace ((n + 1) * W) with (n * W + W) by lia. replace (W + n * W) with (n * W + W) by lia.
  destruct (decide (min b (n * W) <= a)) as [H1|H1].
  - rewrite seg_nil by done. simpl. destruct (decide (b <= a)).
    + by rewrite !seg_nil by lia.
    + by replace (max a (n * W)) with a by lia.
  - destruct (decide (b <= n * W)).
    + rewrite (seg_nil (max _ _)) by lia. rewrite app_nil_r. f_equal. lia.
    + replace (max a (n * W)) with (n * W) by lia. replace (min b (n * W)) with (n * W) by lia.
      apply seg_app; lia.
Qed.
End seg.

Lemma slice1_leaf p P tr a b :
  t_shape p = 1 :: P :: tr -> t_wf p -> a <= b -> b <= P ->
  t_shape (slice1 p a b) = 1 :: (b - a) :: tr /\ t_data (slice1 p a b) = seg (prodn tr) (t_data p) a b.
Proof.
  intros Hs Hwf Hab Hb. unfold t_wf in Hwf. rewrite Hs in Hwf. simpl in Hwf.
  unfold slice1. rewrite Hs. cbn [t_shape t_data].
  replace (min a P) with a by lia. replace (max a (min b P)) with b by lia. split; [done|].
  unfold chunks, chunk. simpl. rewrite drop_0, (take_ge (t_data p)) by lia. by rewrite app_nil_r.
Qed.

Lemma token_window_ok (P n i : nat) :
  i < n -> (Z.of_nat P mod Z.of_nat n = 0)%Z ->
  exists W, P = n * W /\
    token_window (Z.of_nat P) (Z.of_nat n) (Z.of_nat i) = Ok (Z.of_nat (i * W), Z.of_nat ((i + 1) * W))%Z.
Proof.
  intros Hi Hmod. exists (P / n).
  assert (HP : P = n * (P / n)).
  { pose proof (Nat.div_mod_eq P n). assert (P mod n = 0); [|lia].
    apply Nat2Z.inj. rewrite Nat2Z.inj_mod. lia. }
  split; [done|]. unfold token_window.
  replace (0 <? Z.of_nat n)%Z with true by lia.
  replace ((0 <=? Z.of_nat i)%Z && (Z.of_nat i <? Z.of_nat n)%Z) with true by lia.
  rewrite Hmod. simpl. rewrite <- Nat2Z.inj_div. f_equal. f_equal; lia.
Qed.

Lemma token_window_divides P n i r : token_window P n i = Ok r -> (P mod n = 0)%Z.
Proof. unfold token_window. intros H. res_inv. lia. Qed.

(** A padded call can always be sharded.  After packing with a 0/1 mask and padding to a
    multiple of the shard count, [token_shard] returns for every shard index: no leaf is
    left at the unpadded width. *)
Theorem token_shard_total data packed md packed' md' mask (n i : nat) :
  batch_tensor data "attention_mask" 2 = Some mask -> t_wf mask -> mask_01 mask ->
  pack_microbatch data = Ok (packed, md) ->
  pad_packed_microbatch packed md (Z.of_nat n) = Ok (packed', md') ->
  i < n ->
  exists shard, token_shard packed' md' (Z.of_nat n) (Z.of_nat i) = Ok shard.
Proof.
  intros Hmask Hwfm H01 Hpack Hpad Hi.
  destruct (pack_microbatch_inv _ _ _ _ Hmask Hwfm H01 Hpack) as (Hok & _ & Hmd & _).
  set (lens := sumZ <$> rows2 mask) in *. rewrite Hmd in Hpad.
  assert (Hpos : (0 <= sumZ lens)%Z) by (apply sumZ_nonneg; eapply Forall_impl; [exact Hok|]; simpl; lia).
  assert (Hlast : forall k S, default 0%Z (last (cu_seqlens (metadata_for lens S k))) = sumZ lens)
    by (intros k S; unfold metadata_for; simpl cu_seqlens; rewrite last_cumsum; simpl; lia).
  apply pad_packed_inv in Hpad as [_ [(-> & -> & Hmod)|(k & Hk & -> & Hmod & _ & Hmap)]].
  - destruct (token_window_ok _ n i Hi Hmod) as (W & _ & Hw). unfold token_shard. rewrite Hw. simpl.
    apply map_batch_values_total. intros key v Hv.
    destruct v as [t|d| |z]; [|by destruct (Hv d)|simpl; eauto..].
    unfold sliced. destruct (2 <=? ndim t); [|eauto]. destruct (_ =? _) eqn:E; [eauto|].
    rewrite Hlast. cbn [padded_tokens metadata_for] in *.
    replace (_ && _) with false by lia. eauto.
  - destruct (token_window_ok _ n i Hi Hmod) as (W & _ & Hw). unfold token_shard.
    cbn [padded_tokens with_padded_tokens metadata_for] in *. rewrite Hw. simpl.
    eapply map_batch_values_then; [|exact Hmap]. intros key v r Hv Hr.
    destruct v as [t|d| |z]; [|by destruct (Hv d)|by injection Hr as <-; simpl; eauto..].
    unfold padded_value in Hr. destruct ((2 <=? ndim t) && _) eqn:E.
    + injection Hr as <-. split; [done|]. apply andb_true_iff in E as [E1 E3].
      assert (Hd : ndim (pad1 t k (sequence_pad_value key)) = ndim t /\
                   dim (pad1 t k (sequence_pad_value key)) 1 = dim t 1 + k).
      { unfold pad1, ndim, dim in *. by destruct (t_shape t) as [|d0 [|d1 tr]]. }
      destruct Hd as [Hd1 Hd2]. unfold sliced. rewrite Hd1, Hd2, E1.
      cbn [padded_tokens with_padded_tokens]. replace (dim t 1 + k =? _) with true by lia. eauto.
    + injection Hr as <-. split; [done|]. unfold sliced.
      destruct (2 <=? ndim t) eqn:E1; [|eauto]. simpl in E.
      destruct (_ =? padded_tokens _) eqn:E2; [eauto|].
      change (cu_seqlens (with_padded_tokens _ _)) with (cu_seqlens (metadata_for lens (dim mask 1) 0)).
      rewrite Hlast. replace (_ && _) with false by lia. eauto.
Qed.

Lemma token_shard_total_witness :
  exists packed md packed' md',
    pack_microbatch example_call = Ok (packed, md) /\
    pad_packed_microbatch packed md (Z.of_nat 2) = Ok (packed', md') /\
    exists shard, token_shard packed' md' (Z.of_nat 2) (Z.of_nat 1) = Ok shard.
Proof.
  destruct (pack_microbatch example_call) as [[packed md]|] eqn:E1; [|discriminate E1].
  destruct (pad_packed_microbatch packed md (Z.of_nat 2)) as [[packed' md']|] eqn:E2.
  2: { vm_compute in E1. injection E1 as <- <-. discriminate E2. }
  exists packed, md, packed', md'. split; [reflexivity|]. split; [exact E2|].
  apply (token_shard_total example_call packed md packed' md' example_mask 2 1).
  - reflexivity.
  - reflexivity.
  - repeat constructor; vm_compute; intuition congruence.
  - exact E1.
  - exact E2.
  - lia.
Defined.

Lemma token_shard_leaf packed md (n i : nat) shard path p W tr :
  token_shard packed md (Z.of_nat n) (Z.of_nat i) = Ok shard ->
  padded_tokens md = n * W -> i < n ->
  nodup_along packed path -> get_path packed path = Some (VTensor p) ->
  t_shape p = 1 :: padded_tokens md :: tr -> t_wf p ->
  exists s, get_path shard path = Some (VTensor s) /\ t_shape s = 1 :: W :: tr /\
    t_data s = seg (prodn tr) (t_data p) (i * W) ((i + 1) * W).
Proof.
  intros H HW Hi Hnd Hget Hs Hwf. unfold token_shard in H.
  apply bind_Ok_inv in H as ([start stop] & Hw' & Hm).
  pose proof (token_window_divides _ _ _ _ Hw') as Hmod.
  destruct (token_window_ok _ n i Hi Hmod) as (W' & HW' & Hw). rewrite Hw in Hw'. injection Hw' as <- <-.
  assert (W' = W) as -> by nia. rewrite !Nat2Z.id in Hm.
  destruct (last_key_of_path _ _ _ Hget) as [key Hkey].
  destruct (map_batch_values_path _ _ _ _ _ _ Hnd Hkey Hget ltac:(done) Hm) as (r & Hr & Hg).
  unfold sliced, ndim, dim in Hr. rewrite Hs in Hr. simpl in Hr. rewrite Nat.eqb_refl in Hr.
  injection Hr as <-. destruct (slice1_leaf p _ tr (i * W) ((i + 1) * W) Hs Hwf) as [Hs' Hd]; [nia..|].
  eexists. split; [done|]. rewrite Hs', Hd. split; [|done]. do 2 f_equal. lia.
Qed.

(** Concatenating one leaf of all shards in index order reproduces that leaf of the
    packed call exactly, and every shard holds the same number of tokens. *)
Theorem token_shards_concat packed md (n : nat) shards path p tr :
  mapM (fun i => token_shard packed md (Z.of_nat n) (Z.of_nat i)) (seq 0 n) = Ok shards ->
  nodup_along packed path -> get_path packed path = Some (VTensor p) ->
  t_shape p = 1 :: padded_tokens md :: tr -> t_wf p -> 0 < n ->
  exists ts, (fun sh => get_path sh path) <$> shards = (fun s => Some (VTensor s)) <$> ts /\
    Forall (fun s => t_shape s = 1 :: padded_tokens md / n :: tr) ts /\
    concat (t_data <$> ts) = t_data p.
Proof.
  intros H Hnd Hget Hs Hwf Hn. set (P := padded_tokens md) in *.
  assert (HW : P = n * (P / n)).
  { destruct n as [|n]; [lia|]. apply bind_Ok_inv in H as (sh & Hsh & _).
    unfold token_shard in Hsh. apply bind_Ok_inv in Hsh as (w & Hw & _).
    destruct (token_window_ok P (S n) 0 ltac:(lia) (token_window_divides _ _ _ _ Hw)) as (W & HW & _).
    rewrite HW, (Nat.mul_comm (S n) W), Nat.div_mul by lia. lia. }
  set (W := P / n) in *. apply mapM_ok_inv in H.
  assert (Hts : exists ts, (fun sh => get_path sh path) <$> shards = (fun s => Some (VTensor s)) <$> ts /\
            Forall (fun s => t_shape s = 1 :: W :: tr) ts /\
            t_data <$> ts = (fun i => seg (prodn tr) (t_data p) (i * W) ((i + 1) * W)) <$> seq 0 n).
  { assert (Hlt : Forall (fun i => i < n) (seq 0 n)) by (apply Forall_forall; intros i Hi%elem_of_seq; lia).
    revert Hlt. induction H as [|i sh js shs Hsh _ IH]; intros Hlt; [by exists []|].
    inversion Hlt as [|? ? Hi Hlt']; subst. destruct (IH Hlt') as (ts & H1 & H2 & H3).
    destruct (token_shard_leaf _ _ _ _ _ _ _ W tr Hsh HW Hi Hnd Hget Hs Hwf) as (s & Hg & Hss & Hd).
    exists (s :: ts). csimpl. rewrite H1, H3, Hg, Hd. split_and!; [done|by constructor|done]. }
  destruct Hts as (ts & H1 & H2 & H3). exists ts. split_and!; [done..|]. rewrite H3.
  unfold t_wf in Hwf. rewrite Hs in Hwf. simpl in Hwf.
  transitivity (seg (prodn tr) (t_data p) 0 (min P (n * W))).
  - rewrite <- seg_windows. f_equal. apply list_fmap_ext. intros j i [Hj Hi]%lookup_seq. simpl in Hj. subst i.
    rewrite Nat.max_0_l, Nat.min_r; [done|]. nia.
  - rewrite <- HW, Nat.min_id. apply seg_all. lia.
Qed.

Lemma token_shards_concat_witness :
  exists packed md shards ts,
    pack_microbatch example_call = Ok (packed, md) /\
    mapM (fun i => token_shard packed md (Z.of_nat 5) (Z.of_nat i)) (seq 0 5) = Ok shards /\
    (fun sh => get_path sh ["context"; "labels"]) <$> shards = (fun s => Some (VTensor s)) <$> ts /\
    Forall (fun s => t_shape s = [1; 5 / 5]) ts /\
    concat (t_data <$> ts) = [7; 8; 4; 5; 6]%Z.
Proof.
  destruct (pack_microbatch example_call) as [[packed md]|] eqn:E1; [|discriminate E1].
  vm_compute in E1. injection E1 as <- <-.
  match goal with |- exists packed md _ _, Ok (?b, ?m) = _ /\ _ => pose (bb := b); pose (mm := m) end.
  destruct (mapM (fun i => token_shard bb mm (Z.of_nat 5) (Z.of_nat i)) (seq 0 5)) as [shards|] eqn:E2;
    [|discriminate E2].
  destruct (token_shards_concat bb mm 5 shards ["context"; "labels"]
    (mk_tensor [1; 5] [7; 8; 4; 5; 6]%Z) [] E2) as (ts & H1 & H2 & H3).
  - simpl. split_and!; (repeat constructor); set_solver.
  - reflexivity.
  - reflexivity.
  - reflexivity.
  - lia.
  - exists bb, mm, shards, ts. split; [reflexivity|]. split; [exact E2|]. split; [exact H1|].
    split; [exact H2|exact H3].
Defined.

(** ** Row pieces of a window *)

(** The first packed token of row [r]. *)
Definition row_start (lens : list Z) (r : nat) : nat := Z.to_nat (sumZ (take r lens)).

Lemma cu_lookup acc lens r :
  r <= length lens -> (acc :: cumsum acc lens) !! r = Some (acc + sumZ (take r lens))%Z.
Proof.
  revert acc r; induction lens as [|l lens IH]; intros acc [|r] Hr; simpl in *; try lia.
  - f_equal. lia.
  - f_equal. lia.
  - specialize (IH (acc + l)%Z r ltac:(lia)). simpl in IH. rewrite IH. f_equal. lia.
Qed.

Lemma sumZ_take_S lens r l : lens !! r = Some l -> sumZ (take (S r) lens) = (sumZ (take r lens) + l)%Z.
Proof. intros H. rewrite (take_S_r _ _ _ H), sumZ_app. simpl. lia. Qed.

Lemma sumZ_take_bounds lens r :
  Forall (fun l => 0 <= l)%Z lens -> (0 <= sumZ (take r lens) <= sumZ lens)%Z.
Proof.
  intros H. pose proof (sumZ_nonneg _ (Forall_take _ r _ H)).
  pose proof (sumZ_nonneg _ (Forall_drop _ r _ H)).
  rewrite <- (take_drop r lens) at 3. rewrite sumZ_app. lia.
Qed.

Section pieces.
Context (lens : list Z) (S P n W : nat) (tr : list nat) (p : tensor).
Context (Hpos : Forall (fun l => 0 <= l)%Z lens).
Context (Hs : t_shape p = 1 :: P :: tr) (Hwf : t_wf p) (HW : P = n * W).

Lemma slice0_seg t a b d :
  t_shape t = d :: tr -> a <= b -> b <= d -> t_data (slice0 t a b) = seg (prodn tr) (t_data t) a b.
Proof.
  intros Ht Hab Hb. unfold slice0. rewrite Ht. simpl.
  replace (min a d) with a by lia. by replace (max a (min b d)) with b by lia.
Qed.

Lemma row_piece_data wv i (a b : nat) :
  t_shape wv = W :: tr -> t_data wv = seg (prodn tr) (t_data p) (i * W) ((i + 1) * W) ->
  t_data (row_piece wv (Z.of_nat (i * W)) (Z.of_nat ((i + 1) * W)) (Z.of_nat a) (Z.of_nat b)) =
    seg (prodn tr) (t_data p) (max a (i * W)) (min b ((i + 1) * W)).
Proof.
  intros Hsw Hdw. unfold row_piece. destruct (_ <=? _)%Z eqn:E.
  - rewrite (slice0_seg _ _ _ W Hsw) by lia. rewrite !seg_nil by lia. done.
  - rewrite (slice0_seg _ _ _ W Hsw) by lia. rewrite Hdw, seg_seg by lia. f_equal; lia.
Qed.

Lemma window_row_pieces_ok i :
  i < n ->
  exists pcs, window_row_pieces (slice1 p (i * W) ((i + 1) * W)) (metadata_for lens S P) (Z.of_nat n) (Z.of_nat i)
      = Ok pcs /\
    forall r l, lens !! r = Some l ->
      t_data <$> pcs !! r =
        Some (seg (prodn tr) (t_data p) (max (row_start lens r) (i * W))
                (min (row_start lens r + Z.to_nat l) ((i + 1) * W))).
Proof.
  intros Hi. destruct (slice1_leaf p P tr (i * W) ((i + 1) * W) Hs Hwf) as [Hss Hds]; [nia..|].
  assert (Hmod : (Z.of_nat P mod Z.of_nat n = 0)%Z)
    by (rewrite HW, Nat2Z.inj_mul, Z.mul_comm; apply Z.mod_mul; lia).
  destruct (token_window_ok P n i Hi Hmod) as (W' & HW' & Hw). assert (W' = W) as -> by nia.
  unfold window_row_pieces. unfold ndim. rewrite Hss. cbn [length].
  change (1 <=? _) with true. cbn [check mbind res_bind metadata_for padded_tokens batch_size cu_seqlens].
  rewrite Hw. cbn [mbind res_bind dim t_shape default].
  match goal with |- context [check (?x =? ?y)%Z _] =>
    replace (x =? y)%Z with true by (unfold dim; simpl; lia) end.
  cbn [check mbind res_bind]. set (wv := mk_tensor _ _).
  rewrite (mapM_ok _ (fun r => row_piece wv (Z.of_nat (i * W)) (Z.of_nat ((i + 1) * W))
              (sumZ (take r lens)) (sumZ (take (Datatypes.S r) lens)))).
  2: { intros r Hr%elem_of_seq. rewrite (at_index_ok _ r (0 + sumZ (take r lens))%Z) by (apply cu_lookup; lia).
       simpl. rewrite (at_index_ok _ (Datatypes.S r) (0 + sumZ (take (Datatypes.S r) lens))%Z)
         by (apply (cu_lookup 0 lens (Datatypes.S r)); lia). done. }
  eexists. split; [done|]. intros r l Hr. rewrite list_lookup_fmap.
  assert (Hrl : r < length lens) by (by eapply lookup_lt_Some).
  rewrite lookup_seq_lt by done. simpl. f_equal.
  pose proof (sumZ_take_bounds lens r Hpos).
  assert (Hl : (0 <= l)%Z) by (apply (Forall_lookup_1 _ _ _ _ Hpos Hr)).
  rewrite (sumZ_take_S _ _ _ Hr). unfold row_start.
  rewrite <- (Z2Nat.id (sumZ (take r lens))) at 1 2 by lia.
  replace (Z.of_nat (Z.to_nat (sumZ (take r lens))) + l)%Z
    with (Z.of_nat (Z.to_nat (sumZ (take r lens)) + Z.to_nat l)) by lia.
  apply row_piece_data; [|done]. simpl. f_equal. lia.
Qed.
End pieces.

(** Cutting every shard's window at the row boundaries and concatenating a row's pieces in
    shard order rebuilds that row's tokens of the packed call, for every row, every shard
    count dividing the padded width, and any trailing dimensions; no window raises. *)
Theorem window_row_pieces_concat (lens : list Z) (S P n : nat) (tr : list nat) (p : tensor) :
  Forall (fun l => 0 <= l)%Z lens ->
  t_shape p = 1 :: P :: tr -> t_wf p ->
  (Z.of_nat P mod Z.of_nat n = 0)%Z -> (sumZ lens <= Z.of_nat P)%Z -> 0 < n ->
  exists pieces,
    mapM (fun i => window_row_pieces (slice1 p (i * (P / n)) ((i + 1) * (P / n))) (metadata_for lens S P)
                     (Z.of_nat n) (Z.of_nat i)) (seq 0 n) = Ok pieces /\
    forall r l, lens !! r = Some l ->
      concat ((fun pcs => default [] (t_data <$> pcs !! r)) <$> pieces) =
        seg (prodn tr) (t_data p) (row_start lens r) (row_start lens r + Z.to_nat l).
Proof.
  intros Hpos Hs Hwf Hmod HT Hn.
  assert (HW : P = n * (P / n)).
  { destruct (token_window_ok P n 0 Hn Hmod) as (W & HW & _).
    rewrite HW at 2. rewrite (Nat.mul_comm n W), Nat.div_mul by lia. lia. }
  set (W := P / n) in *.
  assert (Hp : forall m, m <= n -> exists pieces,
    mapM (fun i => window_row_pieces (slice1 p (i * W) ((i + 1) * W)) (metadata_for lens S P)
                     (Z.of_nat n) (Z.of_nat i)) (seq (n - m) m) = Ok pieces /\
    forall r l, lens !! r = Some l ->
      (fun pcs => default [] (t_data <$> pcs !! r)) <$> pieces =
      (fun i => seg (prodn tr) (t_data p) (max (row_start lens r) (i * W))
                  (min (row_start lens r + Z.to_nat l) ((i + 1) * W))) <$> seq (n - m) m).
  { induction m as [|m IH]; intros Hm; [by exists []|].
    destruct (window_row_pieces_ok lens S P n W tr p Hpos Hs Hwf HW (n - Datatypes.S m) ltac:(lia))
      as (pcs & Hpcs & Hr). destruct (IH ltac:(lia)) as (rest & Hrest & Hr').
    exists (pcs :: rest). cbn [seq mapM]. rewrite Hpcs. cbn [mbind res_bind].
    replace (Datatypes.S (n - Datatypes.S m)) with (n - m) by lia. rewrite Hrest. split; [done|].
    intros r l Hl. csimpl. rewrite (Hr _ _ Hl), (Hr' _ _ Hl). done. }
  destruct (Hp n ltac:(lia)) as (pieces & Hpc & Hr). rewrite Nat.sub_diag in *.
  exists pieces. split; [done|]. intros r l Hl. rewrite (Hr _ _ Hl), seg_windows. f_equal.
  pose proof (sumZ_take_bounds lens (Datatypes.S r) Hpos). rewrite (sumZ_take_S _ _ _ Hl) in *.
  assert (0 <= l)%Z by (apply (Forall_lookup_1 _ _ _ _ Hpos Hl)).
  pose proof (sumZ_take_bounds lens r Hpos). unfold row_start. lia.
Qed.

Lemma window_row_pieces_witness :
  exists pieces,
    mapM (fun i => window_row_pieces (slice1 (mk_tensor [1; 6] [7; 8; 4; 5; 6; 0]%Z) (i * (6 / 2)) ((i + 1) * (6 / 2)))
                     (metadata_for [2; 3]%Z 3 6) (Z.of_nat 2) (Z.of_nat i)) (seq 0 2) = Ok pieces /\
    forall r l, [2; 3]%Z !! r = Some l ->
      concat ((fun pcs => default [] (t_data <$> pcs !! r)) <$> pieces) =
        seg 1 [7; 8; 4; 5; 6; 0]%Z (row_start [2; 3]%Z r) (row_start [2; 3]%Z r + Z.to_nat l).
Proof.
  apply (window_row_pieces_concat [2; 3]%Z 3 6 2 [] (mk_tensor [1; 6] [7; 8; 4; 5; 6; 0]%Z)).
  - repeat constructor; discriminate.
  - reflexivity.
  - reflexivity.
  - reflexivity.
  - discriminate.
  - lia.
Defined.

(** ** Varlen boundaries *)

Lemma diff_lookup l r x y : l !! r = Some x -> l !! S r = Some y -> diff l !! r = Some (y - x)%Z.
Proof.
  revert r; induction l as [|a l IH]; intros r Hx Hy; [done|].
  destruct l as [|b l]; [by destruct r|].
  destruct r as [|r]; simplify_eq/=; [done|]. by apply IH.
Qed.

Lemma length_diff l : length (diff l) = length l - 1.
Proof.
  induction l as [|a l IH]; [done|]. destruct l as [|b l]; [done|]. cbn [diff length] in *. lia.
Qed.

Definition overlap (a b lo hi : Z) : Z := Z.max 0 (Z.min b hi - Z.max a lo).

(** The varlen boundaries of a shard's window have one segment per packed row whatever the
    window holds: they start at 0, end at the window width, never decrease, and every row but
    the last gets exactly the tokens it has inside the window (tail padding is folded into the
    last row's segment). *)
Theorem window_cu_seqlens_spec (lens : list Z) (S P n i : nat) :
  Forall (fun l => 0 <= l)%Z lens -> (sumZ lens <= Z.of_nat P)%Z -> lens <> [] ->
  (Z.of_nat P mod Z.of_nat n = 0)%Z -> i < n ->
  let lo := Z.of_nat (i * (P / n)) in
  let hi := Z.of_nat ((i + 1) * (P / n)) in
  exists bs, window_cu_seqlens (metadata_for lens S P) (Z.of_nat n) (Z.of_nat i) = Ok bs /\
    length bs = Datatypes.S (length lens) /\
    bs !! 0 = Some 0%Z /\ bs !! length lens = Some (hi - lo)%Z /\
    Forall (fun d => 0 <= d)%Z (diff bs) /\
    forall r l, lens !! r = Some l -> Datatypes.S r < length lens ->
      diff bs !! r = Some (overlap (sumZ (take r lens)) (sumZ (take r lens) + l) lo hi).
Proof.
  intros Hpos HT Hne Hmod Hi lo hi.
  destruct (token_window_ok P n i Hi Hmod) as (W & HW & Hw).
  assert (HW' : P / n = W) by (rewrite HW, (Nat.mul_comm n W), Nat.div_mul by lia; done).
  unfold lo, hi. rewrite HW'. clear lo hi.
  set (lo := Z.of_nat (i * W)) in *. set (hi := Z.of_nat ((i + 1) * W)) in *.
  assert (Hlohi : (lo <= hi)%Z) by (unfold lo, hi; lia).
  unfold window_cu_seqlens. cbn [metadata_for padded_tokens cu_seqlens]. rewrite Hw. cbn [mbind res_bind].
  eexists. split; [done|]. set (f := fun c => (clamp lo hi c - lo)%Z).
  set (raw := f <$> 0%Z :: cumsum 0 lens).
  assert (Hlen : length raw = Datatypes.S (length lens)) by (unfold raw; rewrite length_fmap; simpl; by rewrite length_cumsum).
  rewrite Hlen. replace (Datatypes.S (length lens) - 1) with (length lens) by lia.
  set (bs := <[length lens := (hi - lo)%Z]> raw).
  assert (Hbs : length bs = Datatypes.S (length lens)) by (unfold bs; by rewrite length_insert).
  assert (Hin : forall r, r < length lens -> bs !! r = Some (f (sumZ (take r lens)))).
  { intros r Hr. unfold bs, raw. rewrite list_lookup_insert_ne by lia.
    rewrite list_lookup_fmap, cu_lookup by lia. simpl. f_equal. }
  assert (Hend : bs !! length lens = Some (hi - lo)%Z)
    by (unfold bs; apply list_lookup_insert_eq; lia).
  assert (Hmono : forall r l, lens !! r = Some l -> (0 <= l)%Z) by (intros r l Hl; apply (Forall_lookup_1 _ _ _ _ Hpos Hl)).
  split_and!; [done| |done| |].
  - rewrite Hin by (destruct lens; [done|simpl; lia]). simpl. unfold f, clamp. f_equal. lia.
  - apply Forall_lookup. intros r d Hd.
    assert (Hr : r < length lens) by (apply lookup_lt_Some in Hd; rewrite length_diff in Hd; lia).
    destruct (lookup_lt_is_Some_2 lens r Hr) as [l Hl]. specialize (Hmono r l Hl).
    destruct (decide (Datatypes.S r < length lens)) as [Hr'|Hr'].
    + rewrite (diff_lookup _ _ _ _ (Hin r Hr) (Hin _ Hr')) in Hd. simplify_eq.
      rewrite (sumZ_take_S _ _ _ Hl). unfold f, clamp. lia.
    + replace (length lens) with (Datatypes.S r) in Hend by lia.
      rewrite (diff_lookup _ _ _ _ (Hin r Hr) Hend) in Hd. simplify_eq. unfold f, clamp. lia.
  - intros r l Hl Hr'. specialize (Hmono r l Hl).
    rewrite (diff_lookup _ _ _ _ (Hin r ltac:(lia)) (Hin _ Hr')). f_equal.
    rewrite (sumZ_take_S _ _ _ Hl). unfold f, clamp, overlap. lia.
Qed.

Lemma window_cu_seqlens_witness :
  exists bs, window_cu_seqlens (metadata_for [2; 3]%Z 3 6) (Z.of_nat 2) (Z.of_nat 1) = Ok bs /\
    length bs = 3 /\
    bs !! 0 = Some 0%Z /\ bs !! 2 = Some (6 - 3)%Z /\
    Forall (fun d => 0 <= d)%Z (diff bs) /\
    forall r l, [2; 3]%Z !! r = Some l -> S r < 2 ->
      diff bs !! r = Some (overlap (sumZ (take r [2; 3]%Z)) (sumZ (take r [2; 3]%Z) + l) 3 6).
Proof.
  apply (window_cu_seqlens_spec [2; 3]%Z 3 6 2 1).
  - repeat constructor; discriminate.
  - discriminate.
  - discriminate.
  - reflexivity.
  - lia.
Defined.

(** ** Boundaries read back from the positions *)

(** [0, 1, ..., l - 1]. *)
Definition iota (l : Z) : list Z := Z.of_nat <$> seq 0 (Z.to_nat l).

Lemma segment_ends_step x y l : segment_ends (x :: y :: l) = (if (y =? 0)%Z then [(x + 1)%Z] else []) ++ segment_ends (y :: l).
Proof. simpl. by destruct (y =? 0)%Z. Qed.

(** Inside a row the positions never return to 0. *)
Lemma segment_ends_run a k rest :
  segment_ends (Z.of_nat a :: (Z.of_nat <$> seq (S a) k) ++ rest) = segment_ends (Z.of_nat (a + k) :: rest).
Proof.
  revert a; induction k as [|k IH]; intros a; [simpl; by rewrite Nat.add_0_r|].
  cbn [seq fmap list_fmap app]. rewrite segment_ends_step.
  replace (Z.of_nat (S a) =? 0)%Z with false by lia. simpl app.
  rewrite <- Nat.add_succ_comm. apply IH.
Qed.

Lemma iota_S l : (1 <= l)%Z -> iota l = Z.of_nat 0 :: (Z.of_nat <$> seq 1 (Z.to_nat (l - 1))).
Proof. intros H. unfold iota. by replace (Z.to_nat l) with (S (Z.to_nat (l - 1))) by lia. Qed.

Lemma last_iota l : (1 <= l)%Z -> last (iota l) = Some (l - 1)%Z.
Proof.
  intros H. unfold iota. replace (Z.to_nat l) with (S (Z.to_nat (l - 1))) by lia.
  rewrite seq_S, fmap_app, last_app. simpl. f_equal. lia.
Qed.

Lemma segment_ends_rows lens z :
  Forall (fun l => 1 <= l)%Z lens -> last (concat (iota <$> lens)) = Some z ->
  (segment_ends (concat (iota <$> lens)) ++ [z + 1])%Z = lens.
Proof.
  intros H; revert z; induction H as [|l lens Hl Hls IH]; intros z Hz; [done|]. csimpl in *.
  rewrite last_app in Hz. rewrite (iota_S l Hl). rewrite <- app_comm_cons, segment_ends_run.
  destruct lens as [|l' lens].
  - csimpl in *. rewrite last_iota in Hz by done. simplify_eq. f_equal. lia.
  - inversion Hls as [|? ? Hl' _]; subst. csimpl in *. rewrite (iota_S l' Hl') in *.
    cbn [app] in *. change (Z.of_nat 0 =? 0)%Z with true.
    cbn [app]. f_equal; [lia|]. apply IH. destruct (last (Z.of_nat 0 :: _)) eqn:E; [exact Hz|]. by apply last_None in E.
Qed.

(** Rows whose positions count up from 0 pack to the concatenation of their counts. *)
Lemma positions_iota data lens S r0 :
  (forall r c l, lens !! r = Some l -> c < Z.to_nat l -> chunk 1 data ((r0 + r) * S + c) = [Z.of_nat c]) ->
  concat (chunk 1 data <$> positions_from r0 lens S) = concat (iota <$> lens).
Proof.
  revert r0; induction lens as [|l lens IH]; intros r0 H; [done|]. csimpl.
  rewrite fmap_app, concat_app. f_equal.
  - rewrite <- list_fmap_compose. unfold iota.
    assert (He : forall m, m <= Z.to_nat l ->
      concat ((chunk 1 data ∘ (fun c => r0 * S + c)) <$> seq 0 m) = Z.of_nat <$> seq 0 m).
    { induction m as [|m IHm]; intros Hm; [done|]. rewrite seq_S, !fmap_app, concat_app, IHm by lia.
      f_equal. csimpl. specialize (H 0 m l eq_refl ltac:(lia)).
      rewrite Nat.add_0_r in H. unfold compose. by rewrite H. }
    by apply He.
  - apply IH. intros r c l' Hl Hc. specialize (H (Datatypes.S r) c l' Hl Hc).
    by replace (Datatypes.S r0 + r) with (r0 + Datatypes.S r) by lia.
Qed.

Lemma replicate_iota n : replicate n 0%Z = concat (iota <$> replicate n 1%Z).
Proof. induction n as [|n IH]; [done|]. csimpl. by rewrite IH. Qed.

(** The positions are a self-describing layout.  If every row has at least one real token
    and its positions count up from 0, then after packing and padding to any multiple,
    [cu_seqlens_from_position_ids] of the packed [position_ids] returns exactly the packed
    boundaries, followed by one single-token segment per pad token. *)
Theorem cu_seqlens_from_positions_roundtrip data packed md multiple packed' md' mask path t :
  batch_tensor data "attention_mask" 2 = Some mask -> t_wf mask -> mask_01 mask ->
  pack_microbatch data = Ok (packed, md) ->
  pad_packed_microbatch packed md multiple = Ok (packed', md') ->
  nodup_along data path -> last path = Some "position_ids" ->
  get_path data path = Some (VTensor t) ->
  t_shape t = [dim mask 0; dim mask 1] -> t_wf t ->
  dim mask 0 <> 0 ->
  Forall (fun row => 1 <= sumZ row)%Z (rows2 mask) ->
  (forall r c row, rows2 mask !! r = Some row -> c < Z.to_nat (sumZ row) ->
     chunk 1 (t_data t) (r * dim mask 1 + c) = [Z.of_nat c]) ->
  exists p n, get_path packed' path = Some (VTensor p) /\
    padded_tokens md' = padded_tokens md + n /\
    cu_seqlens_from_position_ids p =
      Ok (cu_seqlens md ++ cumsum (Z.of_nat (padded_tokens md)) (replicate n 1%Z)).
Proof.
  intros Hmask Hwfm H01 Hpack Hpad Hnd Hk Hget Hs Hwf HB Hone Hpos'.
  destruct (pack_microbatch_inv _ _ _ _ Hmask Hwfm H01 Hpack) as (_ & _ & Hmd & _).
  destruct (pack_pad_leaf data packed md multiple packed' md' mask path "position_ids" t [])
    as (Hok & Hlen & n & v & p & -> & _ & Hg & Hsp & Hwfp & Hv & Hd); [done..|].
  set (lens := sumZ <$> rows2 mask) in *. set (S := dim mask 1) in *.
  assert (Hlens : Forall (fun l => 1 <= l)%Z lens) by (unfold lens; by rewrite Forall_fmap).
  assert (Hdata : t_data p = concat (iota <$> lens ++ replicate n 1%Z)).
  { rewrite Hd, fmap_app, concat_app. f_equal.
    - apply positions_iota. intros r c l Hl Hc. unfold lens in Hl. rewrite list_lookup_fmap in Hl.
      apply fmap_Some in Hl as (row & Hrow & ->). by eapply Hpos'.
    - change (prodn []) with 1. rewrite Nat.mul_1_r. destruct (decide (n = 0)) as [->|Hn]; [done|].
      rewrite (Hv Hn). apply replicate_iota. }
  assert (Hall : Forall (fun l => 1 <= l)%Z (lens ++ replicate n 1%Z)).
  { apply Forall_app. split; [done|]. apply Forall_replicate. lia. }
  exists p, n. split; [done|]. rewrite Hmd. cbn [metadata_for padded_tokens cu_seqlens].
  split; [done|]. unfold cu_seqlens_from_position_ids, ndim. rewrite Hsp. cbn [length].
  change (1 <=? 2) with true. cbn [check mbind res_bind]. rewrite Hdata.
  destruct lens as [|l lens'] eqn:El; [simpl in Hlen; lia|].
  set (L := l :: lens') in *. set (flat := concat (iota <$> L ++ replicate n 1%Z)) in *.
  assert (Hhd : exists rest, flat = 0%Z :: rest).
  { unfold flat, L. csimpl. rewrite (iota_S l) by (inversion Hlens; lia). simpl. eauto. }
  destruct Hhd as [rest Hflat]. destruct (last flat) as [z|] eqn:Ez.
  2: { apply last_None in Ez. by rewrite Ez in Hflat. }
  pose proof (segment_ends_rows _ z Hall Ez) as Hse. fold flat in Hse.
  rewrite Hflat in Ez, Hse |- *. rewrite Ez, Hse. cbn [cumsum app]. rewrite cumsum_app.
  assert (0 <= sumZ L)%Z by (apply sumZ_nonneg; eapply Forall_impl; [exact Hlens|]; simpl; lia).
  by replace (Z.of_nat (Z.to_nat (sumZ L))) with (0 + 0 + sumZ L)%Z by lia.
Qed.

Lemma cu_seqlens_from_positions_witness :
  exists packed md packed' md' p n,
    pack_microbatch example_call = Ok (packed, md) /\
    pad_packed_microbatch packed md 4 = Ok (packed', md') /\
    get_path packed' ["position_ids"] = Some (VTensor p) /\
    padded_tokens md' = padded_tokens md + n /\
    cu_seqlens_from_position_ids p =
      Ok (cu_seqlens md ++ cumsum (Z.of_nat (padded_tokens md)) (replicate n 1%Z)).
Proof.
  destruct (pack_microbatch example_call) as [[packed md]|] eqn:E1; [|discriminate E1].
  destruct (pad_packed_microbatch packed md 4) as [[packed' md']|] eqn:E2.
  2: { vm_compute in E1. injection E1 as <- <-. discriminate E2. }
  destruct (cu_seqlens_from_positions_roundtrip example_call packed md 4 packed' md' example_mask
    ["position_ids"] (of_rows2 3 [[0; 1; 0]; [0; 1; 2]]%Z)) as (p & n & H1 & H2 & H3).
  - reflexivity.
  - reflexivity.
  - repeat constructor; vm_compute; intuition congruence.
  - exact E1.
  - exact E2.
  - simpl. split_and!; (repeat constructor); set_solver.
  - reflexivity.
  - reflexivity.
  - reflexivity.
  - reflexivity.
  - discriminate.
  - repeat constructor; vm_compute; discriminate.
  - intros r c row Hr Hc. destruct r as [|[|r]]; [| |discriminate Hr];
      injection Hr as <-; vm_compute in Hc; do 3 (destruct c as [|c]; [reflexivity || lia|]); lia.
  - exists packed, md, packed', md', p, n. split; [reflexivity|]. split; [exact E2|]. auto.
Defined.
