(* ===== verification/Balance.v ===== *)
(** * Rank assignment ([common/utils/balanced_batch.py], [common/balance_metadata.py])

    Which data-parallel rank trains which row of a request.  The module models the entry
    point [assign_balanced_batch] and everything below it: cardinality-constrained LPT over
    rows, the backtracking packer of whole prompt groups with its explicit stack, node
    budget and symmetry pruning, prompt grouping and its split to a maximum length, and the
    client-side metadata stamps.  The theorems: LPT never strands a row and gives every rank
    the cardinality of [torch.tensor_split]; a packed assignment keeps groups whole and
    fills every rank exactly; the packer terminates within its node budget and its
    "do not fit" verdict is right; grouping and splitting keep every row once. *)

From S2P Require Import Prelude Dict Tensor Groups.
From stdpp Require Import prelude gmap strings list sorting.
From Stdlib Require Import ZArith Lia ZifyNat ZifyBool.

(** ** Request metadata

    The dict values the balance stamp reads and writes. *)

Inductive mval :=
  | MBool (b : bool)
  | MInt (z : Z)
  | MTensor (t : tensor)
  | MNone
  | MList (l : list mval).

Abbreviation meta := (list (string * mval)).

(** [meta.get(k)], a stored [None] and a missing key being the same. *)
Definition meta_get (m : meta) (k : string) : option mval :=
  match dict_get m k with Some MNone | None => None | Some v => Some v end.
(** [meta.get(k) is b]. *)
Definition meta_is (m : meta) (k : string) (b : bool) : bool :=
  match dict_get m k with Some (MBool b') => eqb b b' | _ => false end.
(** [int(v)]. *)
Definition py_int (v : mval) : res Z :=
  match v with
  | MBool b => Ok (if b then 1 else 0)%Z
  | MInt z => Ok z
  | MTensor t => match t_data t with [z] => Ok z | _ => Raise (RuntimeError "cannot be converted to Scalar") end
  | MNone => Raise (TypeError "int() argument must not be NoneType")
  | MList _ => Raise (TypeError "int() argument must not be a list")
  end.

(** ** Cardinality-constrained LPT *)

Definition tensor_split_caps (n num_shards : nat) : list nat :=
  (fun rank => n / num_shards + (if rank <? n mod num_shards then 1 else 0)) <$> seq 0 num_shards.

(** [rank for rank, indices in enumerate(assignment) if len(indices) < caps[rank]]. *)
Definition open_ranks (assignment : list (list nat)) (caps : list nat) : list nat :=
  filter (fun rank => length (default [] (assignment !! rank)) < default 0 (caps !! rank))
    (seq 0 (length assignment)).

(** The key [(shard_costs[candidate], candidate)]. *)
Definition cheaper (shard_costs : list Z) : nat -> nat -> bool :=
  by_key (fun rank => (len_of shard_costs rank, rank)) (lex_pair Z.ltb Nat.ltb).

Definition lpt_step (costs : list Z) (caps : list nat)
    (st : list (list nat) * list Z) (idx : nat) : res (list (list nat) * list Z) :=
  let '(assignment, shard_costs) := st in
  match py_min (cheaper shard_costs) (open_ranks assignment caps) with
  | None => Raise (RuntimeError "Unable to assign row")
  | Some rank =>
      Ok (append_at rank idx assignment, alter (fun c => c + len_of costs idx)%Z rank shard_costs)
  end.

Definition assign_row_lpt (costs : list Z) (num_shards : Z) : res (list (list nat)) :=
  if (num_shards <? 1)%Z then Raise (ValueError "num_shards must be >= 1")
  else
    let n := length costs in
    if (Z.of_nat n <? num_shards)%Z then Raise (ValueError "batch_size is smaller than num_shards")
    else
      let k := Z.to_nat num_shards in
      let order := py_sorted (by_key (fun idx => - len_of costs idx)%Z Z.ltb) (seq 0 n) in
      let caps := tensor_split_caps n k in
      '(assignment, _) ← foldM (lpt_step costs caps) (replicate k [], replicate k 0%Z) order;
      Ok ((py_sorted Nat.ltb <$> assignment) : list (list nat)).

(** ** The group packer

    [float] costs are modelled as integers: every cost the callers pass is a sum of token
    counts (or of their squares), which a double holds exactly below [2^53]. *)

Definition PACK_NODE_BUDGET : Z := 100000.

(** A frame: the position, the ranks still worth trying, the choice in that list, and the
    rank's row count and cost before that choice. *)
Record frame := Frame {
  f_pos : nat; f_ranks : list nat; f_choice : nat; f_saved_rows : nat; f_saved_cost : Z }.

Record pack_state := PackState {
  ps_rows : list nat; ps_costs : list Z; ps_placed : gmap nat nat;
  ps_stack : list frame; ps_pos : nat; ps_nodes : Z }.

Inductive pack_outcome :=
  | Packed (placed : gmap nat nat)
  | NoFit
  | SearchBudgetExceeded (nodes : Z).

(** [l[i]] on a list of counts, for an index the source has in range. *)
Definition nat_at (l : list nat) (i : nat) : nat := default 0 (l !! i).

Section pack_groups.
Variables (sizes : list nat) (costs : list Z) (order : list nat) (num_shards cap : nat).

Definition candidates (rows : list nat) (rank_costs : list Z) (index : nat) : list nat :=
  (fold_left (fun '(tried, found) rank =>
      let state := (nat_at rows rank, len_of rank_costs rank) in
      if (cap <? nat_at rows rank + nat_at sizes index) || bool_decide (state ∈ tried)
      then (tried, found) else (state :: tried, found ++ [rank]))
    (py_sorted (cheaper rank_costs) (seq 0 num_shards)) ([], [])).2.

(** Put group [index] on [ranks[choice]] and push the frame that undoes it. *)
Definition place_group (pos : nat) (ranks : list nat) (choice : nat)
    (rows : list nat) (rank_costs : list Z) (placed : gmap nat nat) (stack : list frame)
    (nodes : Z) : pack_state :=
  let index := nat_at order pos in
  let rank := nat_at ranks choice in
  let saved_rows := nat_at rows rank in
  let saved_cost := len_of rank_costs rank in
  {| ps_rows := <[rank := saved_rows + nat_at sizes index]> rows;
     ps_costs := <[rank := (saved_cost + len_of costs index)%Z]> rank_costs;
     ps_placed := <[index := rank]> placed;
     ps_stack := Frame pos ranks choice saved_rows saved_cost :: stack;
     ps_pos := S pos; ps_nodes := nodes |}.

(** The inner [while stack] loop: undo frames until one has another rank to try. *)
Fixpoint backtrack (stack : list frame) (rows : list nat) (rank_costs : list Z)
    (placed : gmap nat nat) (nodes : Z) : pack_outcome + pack_state :=
  match stack with
  | [] => inl NoFit
  | f :: stack =>
      let rank := nat_at (f_ranks f) (f_choice f) in
      let rows := <[rank := f_saved_rows f]> rows in
      let rank_costs := <[rank := f_saved_cost f]> rank_costs in
      let placed := delete (nat_at order (f_pos f)) placed in
      if length (f_ranks f) <=? f_choice f + 1 then backtrack stack rows rank_costs placed nodes
      else if (PACK_NODE_BUDGET <=? nodes)%Z then inl (SearchBudgetExceeded nodes)
      else inr (place_group (f_pos f) (f_ranks f) (f_choice f + 1) rows rank_costs placed stack
                  (nodes + 1)%Z)
  end.

(** One iteration of the outer [while True] loop. *)
Definition pack_iter (st : pack_state) : pack_outcome + pack_state :=
  if ps_pos st =? length order then inl (Packed (ps_placed st))
  else if (PACK_NODE_BUDGET <=? ps_nodes st)%Z then inl (SearchBudgetExceeded (ps_nodes st))
  else
    let ranks := candidates (ps_rows st) (ps_costs st) (nat_at order (ps_pos st)) in
    let nodes := (ps_nodes st + 1)%Z in
    match ranks with
    | _ :: _ =>
        inr (place_group (ps_pos st) ranks 0 (ps_rows st) (ps_costs st) (ps_placed st)
               (ps_stack st) nodes)
    | [] => backtrack (ps_stack st) (ps_rows st) (ps_costs st) (ps_placed st) nodes
    end.

(** [None] is running out of fuel; [pack_loop_total] shows it cannot happen. *)
Fixpoint pack_loop (fuel : nat) (st : pack_state) : option pack_outcome :=
  match fuel with
  | 0 => None
  | S fuel =>
      match pack_iter st with
      | inl out => Some out
      | inr st' => pack_loop fuel st'
      end
  end.

Definition pack_init : pack_state :=
  {| ps_rows := replicate num_shards 0; ps_costs := replicate num_shards 0%Z;
     ps_placed := ∅; ps_stack := []; ps_pos := 0; ps_nodes := 0 |}.

(** Every iteration that continues explores a node, so the budget bounds the loop. *)
Definition pack_groups : option pack_outcome := pack_loop (Z.to_nat (PACK_NODE_BUDGET + 1)) pack_init.
End pack_groups.

Definition group_at (groups : list (list nat)) (i : nat) : list nat := default [] (groups !! i).

(** [sorted(range(len(groups)), key=(len(groups[i]), costs[i]), reverse=True)]. *)
Definition group_order (groups : list (list nat)) (costs : list Z) : list nat :=
  py_sorted (rev_order (by_key (fun i => (length (group_at groups i), len_of costs i))
                          (lex_pair Nat.ltb Z.ltb)))
    (seq 0 (length groups)).

(** [bins[placed[index]].extend(groups[index])]. *)
Definition extend_bin (groups : list (list nat)) (placed : gmap nat nat)
    (bins : list (list nat)) (index : nat) : res (list (list nat)) :=
  match placed !! index with
  | None => Raise (KeyError "placed")
  | Some rank => Ok (alter (fun bin => bin ++ group_at groups index) rank bins)
  end.

(** The equal-size argument that skips the search. *)
Definition equal_sizes_overflow (sizes : list nat) (num_groups num_shards cap : nat) : bool :=
  match sizes with
  | s :: rest =>
      forallb (Nat.eqb s) rest && (0 <? s) && (num_shards * (cap / s) <? num_groups)
  | [] => false
  end.

Definition assign_zorro_groups (groups : list (list nat)) (costs : list Z) (num_shards : Z)
    (num_rows : nat) : res (option (list (list nat))) :=
  if (num_shards <? 1)%Z then Raise (ValueError "num_shards must be >= 1")
  else
    let k := Z.to_nat num_shards in
    _ ← check (length groups =? length costs) (ValueError "groups and costs differ in length");
    if num_rows <=? k then Ok None
    else
      _ ← check (num_rows mod k =? 0) (ValueError "batch_size not divisible by num_shards");
      _ ← check (bool_decide (py_sorted Nat.ltb (concat groups) = seq 0 num_rows))
            (ValueError "prompt groups must be a permutation of the rows");
      let cap := num_rows / k in
      let order := group_order groups costs in
      _ ← check (forallb (fun index => length (group_at groups index) <=? cap) order)
            (ValueError "prompt group does not fit in a rank cap");
      let sizes := (fun index => length (group_at groups index)) <$> order in
      _ ← check (negb (equal_sizes_overflow sizes (length groups) k cap))
            (ValueError "prompt groups do not fit into ranks");
      match pack_groups (length <$> groups) costs order k cap with
      | None => Raise (RuntimeError "out of fuel")
      | Some (SearchBudgetExceeded _) => Raise (ValueError "prompt group search budget exhausted")
      | Some NoFit => Raise (ValueError "prompt groups do not fit into ranks")
      | Some (Packed placed) =>
          bins ← foldM (extend_bin groups placed) (replicate k []) order;
          Ok (Some bins)
      end.

(** ** Prompt groups *)

(** [grouped.setdefault(key, []).append(row)] on an insertion-ordered dict. *)
Fixpoint setdefault_append {K} `{EqDecision K} (d : list (K * list nat)) (key : K) (row : nat) :
    list (K * list nat) :=
  match d with
  | [] => [(key, [row])]
  | (key', rows) :: d =>
      if decide (key = key') then (key', rows ++ [row]) :: d
      else (key', rows) :: setdefault_append d key row
  end.

(** Rows per key in first-seen order. *)
Definition first_seen_groups {K} `{EqDecision K} (keys : list K) : list (list nat) :=
  snd <$> fold_left (fun d '(row, key) => setdefault_append d key row) (imap pair keys) [].

(** The argument when [torch.is_tensor] holds. *)
Definition as_tensor (v : option mval) : option tensor :=
  match v with Some (MTensor t) => Some t | _ => None end.

Definition id_groups (prompt_group_ids : option mval) (num_rows : nat) : option (list (list nat)) :=
  match as_tensor prompt_group_ids with
  | Some t =>
      if (ndim t =? 1) && (dim t 0 =? num_rows) then Some (first_seen_groups (t_data t)) else None
  | None => None
  end.

Definition balance_disabled (m : meta) : bool := meta_is m "balance_batch" false.

Definition mask_lengths (attention_mask : option tensor) : option (list Z) :=
  match attention_mask with
  | Some m => if ndim m =? 2 then Some (sumZ <$> rows2 m) else None
  | None => None
  end.

(** [group[start : start + m] for start in range(0, len(group), m)]. *)
Definition split_group (m : nat) (group : list nat) : list (list nat) :=
  chunks m ((length group + m - 1) / m) group.

Definition split_groups_to_max_length (groups : list (list nat))
    (prompt_len response_length max_token_len : Z) (max_group_length : option Z) :
    res (list (list nat)) :=
  match groups, max_group_length with
  | _ :: _, Some m =>
      if (m <=? 0)%Z then Ok groups
      else if (max_token_len <? prompt_len + response_length * m)%Z then
        Raise (ValueError "max_token_len is smaller than max_token_len_effective")
      else
        let m := Z.to_nat m in
        if forallb (fun group : list nat => length group <=? m) groups then Ok groups
        else Ok (concat ((fun group : list nat =>
                   if m <? length group then split_group m group else [group]) <$> groups))
  | _, _ => Ok groups
  end.

Definition prompt_groups (input_ids : option tensor) (response_length max_token_len : Z)
    (max_group_length : option Z) (prompt_group_ids : option mval) : res (list (list nat)) :=
  match input_ids with
  | Some t =>
      if ndim t =? 2 then
        let batch_size := dim t 0 in
        let seq_len := Z.of_nat (dim t 1) in
        if (response_length <? 0)%Z || (seq_len <? response_length)%Z then
          Raise (ValueError "response_length is outside sequence width")
        else
          let prompt_len := (seq_len - response_length)%Z in
          let groups :=
            match id_groups prompt_group_ids batch_size with
            | Some groups => groups
            | None => first_seen_groups (take (Z.to_nat prompt_len) <$> rows2 t)
            end in
          split_groups_to_max_length groups prompt_len response_length max_token_len max_group_length
      else Raise (ValueError "prompt_groups requires 2D input_ids")
  | None => Raise (ValueError "prompt_groups requires 2D input_ids")
  end.

(** Prompt tokens once, plus every response token. *)
Definition group_dedup_cost (rows : list (list Z)) (prompt_len : nat) (group : list nat) : res Z :=
  first ← at_index group 0;
  first_row ← at_index rows first;
  group_rows ← mapM (at_index rows) group;
  Ok (sumZ (take prompt_len first_row) + sumZ (sumZ ∘ drop prompt_len <$> group_rows))%Z.

Definition linear_dedup_costs (attention_mask : option tensor) (groups : list (list nat))
    (prompt_len : Z) : res (list Z) :=
  match attention_mask with
  | Some m =>
      if ndim m =? 2 then
        if (prompt_len <? 0)%Z || (Z.of_nat (dim m 1) <? prompt_len)%Z then
          Raise (ValueError "prompt_len is outside attention width")
        else mapM (group_dedup_cost (rows2 m) (Z.to_nat prompt_len)) groups
      else Raise (ValueError "linear_dedup_costs requires a 2D attention_mask")
  | None => Raise (ValueError "linear_dedup_costs requires a 2D attention_mask")
  end.

(** ** The entry point *)

Definition assign_prompt_groups (num_shards : Z) (m : meta)
    (input_ids attention_mask : option tensor) (prompt_group_ids : option mval) :
    res (option (list (list nat))) :=
  let max_group :=
    match meta_get m "zorro_train_max_rollouts" with
    | Some v => Some v
    | None => meta_get m "rollout_n"
    end in
  match meta_get m "max_response_len", meta_get m "max_token_len_per_gpu", max_group with
  | Some response_length, Some max_token_len, Some max_group =>
      match input_ids, attention_mask with
      | Some ids, Some mask =>
          if ndim ids =? 2 then
            response_length ← py_int response_length;
            max_token_len ← py_int max_token_len;
            max_group ← py_int max_group;
            groups ← prompt_groups (Some ids) response_length max_token_len (Some max_group)
                       prompt_group_ids;
            let prompt_len := (Z.of_nat (dim ids 1) - response_length)%Z in
            costs ← linear_dedup_costs (Some mask) groups prompt_len;
            assign_zorro_groups groups costs num_shards (dim ids 0)
          else Raise (ValueError "ZoRRo balancing requires input_ids and attention_mask")
      | _, _ => Raise (ValueError "ZoRRo balancing requires input_ids and attention_mask")
      end
  | _, _, _ => Raise (ValueError "ZoRRo balancing requires max_response_len")
  end.

(** [try: ... except ValueError: return None]. *)
Definition catch_value_error {A} (r : res (option A)) : res (option A) :=
  match r with Raise (ValueError _) => Ok None | _ => r end.

Definition assign_whole_groups (costs : list Z) (prompt_group_ids : option mval) (num_shards : Z) :
    res (option (list (list nat))) :=
  match id_groups prompt_group_ids (length costs) with
  | None => Ok None
  | Some groups =>
      group_costs ← mapM (group_sum costs) groups;
      catch_value_error (assign_zorro_groups groups group_costs num_shards (length costs))
  end.

Definition assign_balanced_batch (num_shards : Z) (m : meta)
    (input_ids attention_mask : option tensor) (lengths : option (list Z))
    (prompt_group_ids : option mval) : res (option (list (list nat))) :=
  if balance_disabled m then Ok None
  else
    let group_ids :=
      match prompt_group_ids with Some v => Some v | None => meta_get m "prompt_group_ids" end in
    if meta_is m "zorro_train_enable" true then
      assign_prompt_groups num_shards m input_ids attention_mask group_ids
    else
      match (match lengths with Some l => Some l | None => mask_lengths attention_mask end) with
      | None => Ok None
      | Some measured =>
          if (Z.of_nat (length measured) <? num_shards)%Z then Ok None
          else
            let costs := (fun len => len * len)%Z <$> measured in
            match group_ids with
            | None => Some <$> assign_row_lpt costs num_shards
            | Some _ => assign_whole_groups costs group_ids num_shards
            end
      end.

(** ** Client-side stamps ([common/balance_metadata.py]) *)

Definition LEGACY_BALANCE_KEYS : list string :=
  ["load_balancer"; "zorro_load_balancer"; "zorro_train_load_balancer"].

Definition ZORRO_SPLIT_KEYS : list string :=
  ["rollout_n"; "zorro_train_max_rollouts"; "max_prompt_len"; "max_response_len";
   "max_token_len_per_gpu"].

(** [torch.equal(block, block[:1].expand_as(block))] for every block of [width] rows. *)
Definition blocks_share_rows (rows : list (list Z)) (width : nat) : bool :=
  forallb (fun block : list (list Z) =>
             match block with [] => true | r :: rest => forallb (fun r' => bool_decide (r = r')) rest end)
    (chunks width (length rows / width) rows).

Definition rollout_prompt_group_ids (input_ids prompts : option tensor) (rollout_n : option mval) :
    res (option tensor) :=
  match rollout_n, input_ids with
  | Some n, Some ids =>
      if negb (ndim ids =? 2) then Ok None
      else
        let rows := dim ids 0 in
        width ← py_int n;
        if (width <? 1)%Z || negb (rows mod Z.to_nat width =? 0) then Ok None
        else
          let width := Z.to_nat width in
          match prompts with
          | Some p =>
              if negb (ndim p =? 2) || negb (dim p 0 =? rows) then Ok None
              else if blocks_share_rows (rows2 p) width
              then Ok (Some (mk_tensor [rows] ((fun i => Z.of_nat (i / width)) <$> seq 0 rows)))
              else Ok None
          | None => Ok None
          end
  | _, _ => Ok None
  end.

Definition assert_contiguous_rollout_blocks (prompts : option tensor) (rollout_n : mval) : res unit :=
  match prompts with
  | Some p =>
      if negb (ndim p =? 2) then Raise (ValueError "prompt_group_ids require batch prompts")
      else
        width ← py_int rollout_n;
        if (width <? 1)%Z || negb (dim p 0 mod Z.to_nat width =? 0) then Ok ()
        else check (blocks_share_rows (rows2 p) (Z.to_nat width))
               (ValueError "prompt_group_ids require each rollout block to share prompt columns")
  | None => Raise (ValueError "prompt_group_ids require batch prompts")
  end.

Definition apply_balance_metadata (context m : meta) : meta :=
  let context := fold_left dict_del LEGACY_BALANCE_KEYS context in
  let context :=
    match dict_get m "balance_batch" with
    | Some (MBool b) => dict_set context "balance_batch" (MBool b)
    | _ => dict_del context "balance_batch"
    end in
  let context :=
    if meta_is m "zorro_train_enable" true then
      fold_left (fun context key =>
                   match dict_get m key with Some v => dict_set context key v | None => context end)
        ZORRO_SPLIT_KEYS (dict_set context "zorro_train_enable" (MBool true))
    else context in
  match dict_get m "prompt_group_ids" with
  | Some (MTensor t) => dict_set context "prompt_group_ids" (MTensor t)
  | _ => dict_del context "prompt_group_ids"
  end.

(** Jagged prompts are passed as [None]: the tensor model is dense. *)
Definition prompt_rows_for_balance (prompts input_ids : option tensor) (max_prompt_len : option mval) :
    res (option tensor) :=
  let fallback :=
    match input_ids, max_prompt_len with
    | Some ids, Some n =>
        if ndim ids =? 2 then
          n ← py_int n;
          let stop := if (n <? 0)%Z then Z.max 0 (Z.of_nat (dim ids 1) + n) else n in
          Ok (Some (slice1 ids 0 (Z.to_nat stop)))
        else Ok prompts
    | _, _ => Ok prompts
    end in
  match prompts with
  | Some p => if ndim p =? 2 then Ok prompts else fallback
  | None => fallback
  end.

Definition stamp_balance_meta (m : meta) (balance_batch zorro_train_enable : bool)
    (prompts : option tensor) (rollout_n : option mval) : res meta :=
  let m := fold_left dict_del LEGACY_BALANCE_KEYS m in
  let m := dict_del m "prompt_group_ids" in
  let m := dict_set m "balance_batch" (MBool balance_batch) in
  if negb balance_batch || negb zorro_train_enable then Ok m
  else
    group_ids ← rollout_prompt_group_ids prompts prompts rollout_n;
    Ok (match group_ids with
        | Some ids => dict_set m "prompt_group_ids" (MTensor ids)
        | None => m
        end).

Definition stamp_client_balance (m : meta) (balance_batch zorro_train_enable : bool)
    (rollout_n : option mval) (prompts input_ids : option tensor) (max_prompt_len : option mval) :
    res meta :=
  rows ← (if balance_batch && zorro_train_enable
          then prompt_rows_for_balance prompts input_ids max_prompt_len else Ok prompts);
  stamp_balance_meta m balance_batch zorro_train_enable rows rollout_n.

(** ** Counting rows per rank *)

(** Lists that are pointwise below their capacities and have the same total are full. *)
Lemma full_when_sum_eq (l caps : list nat) :
  Forall2 le l caps -> sum_list caps <= sum_list l -> l = caps.
Proof.
  intros H. assert (Hle : sum_list l <= sum_list caps) by (induction H; simpl; lia).
  induction H as [|x c l caps Hx H IH]; intros Hs; [done|]. simpl in *.
  assert (sum_list l <= sum_list caps) by (clear -H; induction H; simpl; lia).
  f_equal; [lia|]. apply IH; lia.
Qed.

Lemma sum_list_caps k q m :
  m <= k -> sum_list ((fun rank => q + (if rank <? m then 1 else 0)) <$> seq 0 k) = k * q + m.
Proof.
  revert m; induction k as [|k IH]; intros m Hm; [simpl; lia|].
  rewrite seq_S, fmap_app, sum_list_with_app. simpl.
  destruct (k <? m) eqn:E.
  - replace m with (S k) by lia.
    rewrite (list_fmap_ext _ (fun rank => q + (if rank <? k then 1 else 0))).
    + rewrite IH by lia. lia.
    + intros i r [-> Hr]%lookup_seq. replace (0 + i <? S k) with true by lia.
      by replace (0 + i <? k) with true by lia.
  - rewrite IH by lia. lia.
Qed.

Lemma sum_tensor_split_caps n k : 0 < k -> sum_list (tensor_split_caps n k) = n.
Proof.
  intros Hk. unfold tensor_split_caps.
  rewrite sum_list_caps by (pose proof (Nat.mod_upper_bound n k); lia).
  symmetry. rewrite (Nat.div_mod n k) at 1 by lia. lia.
Qed.

Lemma length_concat_sum {A} (gs : list (list A)) : length (concat gs) = sum_list (length <$> gs).
Proof. induction gs as [|g gs IH]; csimpl; [done|]. rewrite length_app. lia. Qed.

Lemma replicate_le k caps : length caps = k -> Forall2 le (replicate k 0) caps.
Proof. intros <-. induction caps; simpl; constructor; [lia|done]. Qed.

(** ** LPT *)

Section lpt.
Context (costs : list Z) (caps : list nat).

Definition lpt_inv (placed : list nat) (st : list (list nat) * list Z) : Prop :=
  concat st.1 ≡ₚ placed /\ Forall2 le (length <$> st.1) caps /\
  st.2 = load_of costs <$> st.1.

Lemma open_ranks_elem a r :
  r ∈ open_ranks a caps <->
  exists rows, a !! r = Some rows /\ length rows < nat_at caps r.
Proof.
  unfold open_ranks. rewrite list_elem_of_filter, elem_of_seq. split.
  - intros [Hlt [_ Hr]]. destruct (lookup_lt_is_Some_2 a r) as [rows Hrows]; [lia|].
    rewrite Hrows in Hlt. eauto.
  - intros (rows & Hrows & Hlt). rewrite Hrows. split; [done|].
    apply lookup_lt_Some in Hrows. lia.
Qed.

(** As long as rows remain, some rank is below its cap. *)
Lemma open_ranks_nonempty a :
  Forall2 le (length <$> a) caps -> length (concat a) < sum_list caps -> open_ranks a caps <> [].
Proof.
  intros Hle Hlt Hnil. rewrite length_concat_sum in Hlt.
  assert (Forall2 le caps (length <$> a)) as Hge.
  { apply Forall2_same_length_lookup_2; [symmetry; by eapply Forall2_length|].
    intros i c la Hc Hla. apply list_lookup_fmap_Some in Hla as (rows & -> & Hrows).
    destruct (decide (length rows < c)) as [Hl|]; [|lia].
    assert (i ∈ open_ranks a caps) as Hin.
    { apply open_ranks_elem. exists rows. unfold nat_at. by rewrite Hc. }
    rewrite Hnil in Hin. set_solver. }
  assert (sum_list caps <= sum_list (length <$> a)); [|lia].
  clear -Hge. induction Hge; simpl; lia.
Qed.

Lemma lpt_step_ok placed st idx :
  lpt_inv placed st -> length placed < sum_list caps ->
  exists st', lpt_step costs caps st idx = Ok st' /\ lpt_inv (placed ++ [idx]) st'.
Proof.
  destruct st as [a sc]. intros (Hp & Hle & Hsc) Hlen. simpl in *. subst sc.
  destruct (py_min_is_Some (cheaper (load_of costs <$> a)) (open_ranks a caps)) as [r Hr].
  { apply open_ranks_nonempty; [done|]. by rewrite Hp. }
  rewrite Hr. eexists. split; [done|]. apply py_min_spec in Hr as [Hr _]; [|apply _].
  apply open_ranks_elem in Hr as (rows & Hrows & Hlt).
  assert (Hi : r < length a) by (by eapply lookup_lt_Some).
  unfold lpt_inv; simpl. split_and!.
  - rewrite concat_append_at by done. rewrite Hp. by rewrite Permutation_app_comm.
  - unfold append_at. rewrite list_fmap_alter with (h := Nat.add 1).
    + apply Forall2_same_length_lookup_2.
      { rewrite length_alter. by eapply Forall2_length. }
      intros i x c Hx Hc. destruct (decide (i = r)) as [->|Hne].
      * rewrite list_lookup_alter_eq, list_lookup_fmap, Hrows in Hx. simplify_eq/=.
        unfold nat_at in Hlt. rewrite Hc in Hlt. simpl in Hlt. lia.
      * rewrite list_lookup_alter_ne in Hx by done. by eapply Forall2_lookup_lr.
    + apply Forall_true. intros g. rewrite length_app. simpl. lia.
  - unfold append_at. rewrite list_fmap_alter with (h := fun c => (c + len_of costs idx)%Z); [done|].
    apply Forall_true. intros g. rewrite load_of_app. unfold load_of at 2. simpl. lia.
Qed.

Lemma lpt_steps_ok order placed st :
  lpt_inv placed st -> length placed + length order <= sum_list caps ->
  exists st', foldM (lpt_step costs caps) st order = Ok st' /\ lpt_inv (placed ++ order) st'.
Proof.
  revert placed st; induction order as [|idx order IH]; intros placed st Hinv Hlen; simpl in *.
  - rewrite app_nil_r. eauto.
  - destruct (lpt_step_ok placed st idx) as (st' & Hst' & Hinv'); [done|lia|].
    rewrite Hst'. simpl. rewrite cons_middle, app_assoc. apply IH; [done|].
    rewrite length_app. simpl. lia.
Qed.
End lpt.

Lemma assign_row_lpt_ok costs k :
  0 < k <= length costs ->
  exists a, assign_row_lpt costs (Z.of_nat k) = Ok a /\
    is_partition a (length costs) /\
    length <$> a = tensor_split_caps (length costs) k /\
    Forall (Sorted Nat.le) a.
Proof.
  intros Hk. unfold assign_row_lpt.
  destruct (Z.of_nat k <? 1)%Z eqn:E1; [lia|].
  destruct (Z.of_nat (length costs) <? Z.of_nat k)%Z eqn:E2; [lia|]. rewrite Nat2Z.id.
  set (n := length costs) in *. set (caps := tensor_split_caps n k).
  set (order := py_sorted _ (seq 0 n)).
  assert (Horder : order ≡ₚ seq 0 n) by apply py_sorted_perm.
  assert (Hsum : sum_list caps = n) by (apply sum_tensor_split_caps; lia).
  assert (Hcaps : length caps = k) by (unfold caps, tensor_split_caps; by rewrite length_fmap, length_seq).
  destruct (lpt_steps_ok costs caps order [] (replicate k [], replicate k 0%Z)) as ([a sc] & -> & Hp & Hle & _).
  { split_and!; simpl.
    - clear. induction k; simpl; done.
    - rewrite fmap_replicate. by apply replicate_le.
    - by rewrite fmap_replicate. }
  { simpl. rewrite Horder, length_seq. lia. }
  simpl in *. eexists. split; [done|]. split_and!.
  - unfold is_partition. rewrite concat_map_perm by apply py_sorted_perm. by rewrite Hp, Horder.
  - rewrite <- list_fmap_compose.
    rewrite (list_fmap_ext _ length) by (intros ? g _; apply py_sorted_length).
    apply full_when_sum_eq; [done|]. rewrite <- length_concat_sum, Hp, Horder, length_seq. lia.
  - apply Forall_fmap, Forall_true. intros g. simpl. apply StronglySorted_Sorted.
    eapply StronglySorted_weaken; [|apply py_sorted_sorted, _]. intros x y H. simpl in H. lia.
Qed.

(** With at least one row per rank, [assign_row_lpt] returns (its "Unable to assign row"
    error cannot happen): every row goes to exactly one rank, rank [r] receives exactly as
    many rows as [torch.tensor_split] cuts for it, and each rank lists its rows in
    ascending order. *)
Theorem assign_row_lpt_spec costs k :
  0 < k <= length costs ->
  exists a, assign_row_lpt costs (Z.of_nat k) = Ok a /\
    is_partition a (length costs) /\
    length <$> a = tensor_split_caps (length costs) k /\
    Forall (Sorted Nat.le) a.
Proof. apply assign_row_lpt_ok. Qed.

Lemma assign_row_lpt_witness :
  exists a, assign_row_lpt [5; 4; 3; 2; 1]%Z 2 = Ok a /\
    is_partition a 5 /\ length <$> a = tensor_split_caps 5 2 /\ Forall (Sorted Nat.le) a.
Proof. exact (assign_row_lpt_spec [5; 4; 3; 2; 1]%Z 2 ltac:(simpl; lia)). Defined.

(** ** The group packer: candidates and feasibility *)

Lemma nat_at_Some l i x : l !! i = Some x -> nat_at l i = x.
Proof. unfold nat_at. by intros ->. Qed.

Lemma nat_at_lt l i : i < length l -> l !! i = Some (nat_at l i).
Proof. intros [x Hx]%lookup_lt_is_Some_2. by rewrite Hx, (nat_at_Some _ _ _ Hx). Qed.

(** Overwriting equal entries of permuted lists leaves them permuted. *)
Lemma insert_perm (l l' : list nat) r r' v x :
  l ≡ₚ l' -> l !! r = Some v -> l' !! r' = Some v -> <[r := x]> l ≡ₚ <[r' := x]> l'.
Proof.
  intros Hp Hr Hr'.
  rewrite !insert_take_drop by (by eapply lookup_lt_Some).
  rewrite (list_split_at l r v Hr), (list_split_at l' r' v Hr') in Hp.
  rewrite <- !Permutation_middle in Hp |- *. apply Permutation_cons_inv in Hp.
  by constructor.
Qed.

Section pack_proofs.
Context (sizes : list nat) (costs : list Z) (order : list nat) (k cap : nat).

(** The groups of [rest] can be placed one by one on top of [rows] without overflow. *)
Fixpoint fits (rows : list nat) (rest : list nat) : Prop :=
  match rest with
  | [] => True
  | i :: rest =>
      exists r, r < length rows /\ nat_at rows r + nat_at sizes i <= cap /\
        fits (<[r := nat_at rows r + nat_at sizes i]> rows) rest
  end.

Lemma fits_perm rest rows rows' : rows ≡ₚ rows' -> fits rows rest -> fits rows' rest.
Proof.
  revert rows rows'; induction rest as [|i rest IH]; intros rows rows' Hp H; [done|].
  destruct H as (r & Hr & Hle & H). apply nat_at_lt in Hr.
  assert (Hin : nat_at rows r ∈ rows') by (rewrite <- Hp; by eapply list_elem_of_lookup_2).
  apply list_elem_of_lookup in Hin as [r' Hr']. exists r'.
  rewrite (nat_at_Some _ _ _ Hr'). split_and!; [by eapply lookup_lt_Some|done|].
  eapply IH; [|exact H]. by eapply insert_perm.
Qed.

(** The loop over ranks in [candidates]: only ranks with room are found, and every rank
    with room has a found rank in the same state. *)
Lemma candidates_spec rows rank_costs index :
  (forall r, r ∈ candidates sizes k cap rows rank_costs index ->
     r < k /\ nat_at rows r + nat_at sizes index <= cap) /\
  (forall r, r < k -> nat_at rows r + nat_at sizes index <= cap ->
     exists r', r' ∈ candidates sizes k cap rows rank_costs index /\ nat_at rows r' = nat_at rows r).
Proof.
  unfold candidates.
  set (ranks := py_sorted (cheaper rank_costs) (seq 0 k)).
  assert (Hranks : forall r, r ∈ ranks <-> r < k).
  { intros r. unfold ranks. rewrite py_sorted_perm, elem_of_seq. lia. }
  clearbody ranks.
  set (state r := (nat_at rows r, len_of rank_costs r)).
  set (step := fun '(tried, found) rank => _).
  assert (Hloop : forall l tried found,
    tried ≡ₚ state <$> found ->
    let '(tried', found') := fold_left step l (tried, found) in
    tried' ≡ₚ state <$> found' /\
    (forall r, r ∈ found' -> r ∈ found \/ (r ∈ l /\ nat_at rows r + nat_at sizes index <= cap)) /\
    (forall r, r ∈ found -> r ∈ found') /\
    (forall r, r ∈ l -> nat_at rows r + nat_at sizes index <= cap -> state r ∈ tried')).
  { induction l as [|r l IH]; intros tried found Ht; simpl; [set_solver|].
    destruct ((cap <? _) || _) eqn:E.
    - specialize (IH tried found Ht). destruct (fold_left _ _ _) as [t' f'].
      destruct IH as (H1 & H2 & H3 & H4). split_and!; [done|set_solver|done|].
      intros r' [->|Hr']%elem_of_cons Hle; [|by apply H4].
      apply orb_true_iff in E as [E|E]; [lia|]. apply bool_decide_eq_true in E.
      rewrite H1. rewrite Ht in E. apply list_elem_of_fmap in E as (r'' & Heq & Hin).
      replace (state r) with (state r'') by done.
      apply list_elem_of_fmap_2. auto.
    - apply orb_false_iff in E as [E _].
      specialize (IH (state r :: tried) (found ++ [r])).
      destruct (fold_left _ _ _) as [t' f'].
      destruct IH as (H1 & H2 & H3 & H4).
      { rewrite fmap_app, Ht. simpl. by rewrite Permutation_app_comm. }
      split_and!; [done| |set_solver|].
      + intros r' Hr'. destruct (H2 r' Hr') as [Hf|[Hl Hle]]; [|set_solver].
        apply elem_of_app in Hf as [Hf| ->%list_elem_of_singleton]; [by left|].
        right. split; [set_solver|lia].
      + intros r' [->|Hr']%elem_of_cons Hle; [|by apply H4].
        rewrite H1. apply list_elem_of_fmap_2, H3. set_solver. }
  specialize (Hloop ranks [] []). destruct (fold_left step ranks ([], [])) as [t f] eqn:Ef.
  destruct Hloop as (H1 & H2 & _ & H4); [done|]. simpl. split.
  - intros r Hr. destruct (H2 r Hr) as [Hf|[Hl Hle]]; [set_solver|]. by rewrite <- Hranks.
  - intros r Hr Hle. specialize (H4 r (proj2 (Hranks r) Hr) Hle).
    rewrite H1 in H4. apply list_elem_of_fmap in H4 as (r' & Heq & Hin).
    exists r'. split; [done|]. unfold state in Heq. congruence.
Qed.

Lemma candidates_fit rows rank_costs i rest :
  length rows = k -> fits rows (i :: rest) ->
  exists r, r ∈ candidates sizes k cap rows rank_costs i /\
    fits (<[r := nat_at rows r + nat_at sizes i]> rows) rest.
Proof.
  intros Hlen (r & Hr & Hle & H).
  destruct (candidates_spec rows rank_costs i) as [H1 H2].
  destruct (H2 r) as (r' & Hin & Heq); [lia|done|]. exists r'. split; [done|].
  rewrite Heq. eapply fits_perm; [|exact H]. apply H1 in Hin as [Hr' _].
  eapply insert_perm; [done|by apply nat_at_lt|]. rewrite <- Heq. apply nat_at_lt. lia.
Qed.

(** ** The stack invariant *)

(** Each frame undoes exactly the placement it was pushed for, and all its ranks had room. *)
Fixpoint stack_inv (stack : list frame) (rows : list nat) (placed : gmap nat nat) (pos : nat) : Prop :=
  match stack with
  | [] => rows = replicate k 0 /\ placed = ∅ /\ pos = 0
  | f :: stack =>
      let i := nat_at order (f_pos f) in
      let r := nat_at (f_ranks f) (f_choice f) in
      let rows0 := <[r := f_saved_rows f]> rows in
      f_choice f < length (f_ranks f) /\ pos = S (f_pos f) /\ f_pos f < length order /\
      rows !! r = Some (f_saved_rows f + nat_at sizes i) /\ placed !! i = Some r /\
      (forall r', r' ∈ f_ranks f -> r' < k /\ nat_at rows0 r' + nat_at sizes i <= cap) /\
      stack_inv stack rows0 (delete i placed) (f_pos f)
  end.

(** Some frame has an untried rank from which the remaining groups fit. *)
Fixpoint alt (stack : list frame) (rows : list nat) : Prop :=
  match stack with
  | [] => False
  | f :: stack =>
      let i := nat_at order (f_pos f) in
      let rows0 := <[nat_at (f_ranks f) (f_choice f) := f_saved_rows f]> rows in
      (exists c r, f_choice f < c /\ f_ranks f !! c = Some r /\
         fits (<[r := nat_at rows0 r + nat_at sizes i]> rows0) (drop (S (f_pos f)) order)) \/
      alt stack rows0
  end.

Definition state_inv (st : pack_state) : Prop :=
  stack_inv (ps_stack st) (ps_rows st) (ps_placed st) (ps_pos st).
Definition open_state (st : pack_state) : Prop :=
  fits (ps_rows st) (drop (ps_pos st) order) \/ alt (ps_stack st) (ps_rows st).

(** Rows on rank [r] once the groups [l] are placed. *)
Definition rank_rows (place : nat -> option nat) (l : list nat) (r : nat) : nat :=
  sum_list (nat_at sizes <$> filter (fun i => place i = Some r) l).

Hypothesis order_nodup : NoDup order.

Lemma stack_inv_sound stack rows placed pos :
  stack_inv stack rows placed pos ->
  length rows = k /\ pos <= length order /\
  (forall i, is_Some (placed !! i) <-> i ∈ take pos order) /\
  (forall i r, placed !! i = Some r -> r < k) /\
  (forall r, r < k -> nat_at rows r = rank_rows (fun i => placed !! i) (take pos order) r) /\
  (forall r, nat_at rows r <= cap).
Proof.
  revert rows placed pos; induction stack as [|f stack IH]; intros rows placed pos; simpl.
  - intros (-> & -> & ->). rewrite length_replicate. split_and!; [done|lia| | | |].
    + intros i. rewrite lookup_empty, take_0. split; [by intros [? ?]|set_solver].
    + by intros i r.
    + intros r Hr. unfold nat_at. rewrite lookup_replicate_2 by done. by rewrite take_0.
    + intros r. unfold nat_at. destruct (_ !! r) as [x|] eqn:E; simpl; [|lia].
      apply lookup_replicate in E as [-> _]. lia.
  - set (p := f_pos f). set (i := nat_at order p). set (r := nat_at (f_ranks f) (f_choice f)).
    intros (Hc & -> & Hp & Hr & Hi & Hranks & Hs). apply IH in Hs as (H1 & H2 & H3 & H4 & H5 & H6).
    rewrite length_insert in H1.
    assert (Hoi : order !! p = Some i) by (by apply nat_at_lt).
    assert (Hnotin : i ∉ take p order).
    { intros Hin. apply list_elem_of_lookup in Hin as [j Hj].
      apply lookup_take_Some in Hj as [Hj Hlt].
      assert (j = p) by (by eapply NoDup_lookup). lia. }
    rewrite (take_S_r _ _ _ Hoi).
    assert (Hrk : r < k) by (rewrite <- H1; by eapply lookup_lt_Some).
    assert (Hfr : r ∈ f_ranks f) by (eapply list_elem_of_lookup_2; by apply nat_at_lt).
    split_and!; [done|lia| | | |].
    + intros j. rewrite elem_of_app, list_elem_of_singleton, <- H3.
      destruct (decide (j = i)) as [->|Hne].
      * rewrite Hi. split; [by right|eauto].
      * rewrite lookup_delete_ne by done. naive_solver.
    + intros j r' Hj. destruct (decide (j = i)) as [->|Hne]; [congruence|].
      apply (H4 j). by rewrite lookup_delete_ne.
    + intros r' Hr'. unfold rank_rows. rewrite filter_app, fmap_app, sum_list_with_app.
      assert (Hpre : filter (fun j => placed !! j = Some r') (take p order) =
                     filter (fun j => delete i placed !! j = Some r') (take p order)).
      { apply filter_ext_elem. intros j Hj.
        rewrite lookup_delete_ne; [done|]. intros <-. done. }
      rewrite Hpre. specialize (H5 r' Hr'). unfold rank_rows in H5. rewrite <- H5.
      destruct (decide (r' = r)) as [->|Hne].
      * rewrite filter_cons_True by done. simpl. rewrite (nat_at_Some _ _ _ Hr).
        unfold nat_at at 2. rewrite list_lookup_insert_eq by lia. simpl. fold i. lia.
      * rewrite filter_cons_False by congruence. simpl. unfold nat_at at 2.
        rewrite list_lookup_insert_ne by done. unfold nat_at. lia.
    + intros r'. destruct (decide (r' = r)) as [->|Hne].
      * rewrite (nat_at_Some _ _ _ Hr). apply Hranks in Hfr as [_ Hfr].
        unfold nat_at at 1 in Hfr. rewrite list_lookup_insert_eq in Hfr by lia. done.
      * specialize (H6 r'). unfold nat_at in H6. rewrite list_lookup_insert_ne in H6 by done. done.
Qed.

(** ** The search loop *)

Lemma place_group_inv stack rows rank_costs placed pos ranks choice nodes :
  stack_inv stack rows placed pos -> pos < length order -> choice < length ranks ->
  (forall r, r ∈ ranks -> r < k /\ nat_at rows r + nat_at sizes (nat_at order pos) <= cap) ->
  state_inv (place_group sizes costs order pos ranks choice rows rank_costs placed stack nodes).
Proof.
  intros Hs Hpos Hc Hranks. unfold state_inv, place_group; simpl.
  pose proof (stack_inv_sound _ _ _ _ Hs) as (Hlen & _ & Hdom & _).
  set (i := nat_at order pos) in *. set (r := nat_at ranks choice).
  assert (Hr : r < k).
  { apply Hranks. eapply list_elem_of_lookup_2. by apply nat_at_lt. }
  assert (Hi : placed !! i = None).
  { apply eq_None_not_Some. rewrite Hdom. intros (j & Hj)%list_elem_of_lookup.
    apply lookup_take_Some in Hj as [Hj Hlt].
    assert (j = pos) by (eapply NoDup_lookup; [done|done|by apply nat_at_lt]). lia. }
  rewrite list_insert_insert_eq, (list_insert_id rows r (nat_at rows r)) by (apply nat_at_lt; lia).
  rewrite delete_insert_id by done. rewrite lookup_insert_eq.
  rewrite list_lookup_insert_eq by lia. done.
Qed.

Lemma place_group_restore stack rows rank_costs placed pos ranks choice nodes :
  length rows = k -> nat_at ranks choice < k ->
  alt (ps_stack (place_group sizes costs order pos ranks choice rows rank_costs placed stack nodes))
      (ps_rows (place_group sizes costs order pos ranks choice rows rank_costs placed stack nodes)) <->
  (exists c r, choice < c /\ ranks !! c = Some r /\
     fits (<[r := nat_at rows r + nat_at sizes (nat_at order pos)]> rows) (drop (S pos) order)) \/
  alt stack rows.
Proof.
  intros Hlen Hr. simpl. rewrite list_insert_insert_eq, (list_insert_id rows _ (nat_at rows (nat_at ranks choice))) by (apply nat_at_lt; lia).
  done.
Qed.

Lemma backtrack_inv stack rows rank_costs placed pos nodes st :
  stack_inv stack rows placed pos ->
  backtrack sizes costs order stack rows rank_costs placed nodes = inr st -> state_inv st.
Proof.
  revert rows rank_costs placed pos; induction stack as [|f stack IH];
    intros rows rank_costs placed pos; simpl; [done|].
  intros (Hc & -> & Hp & Hr & Hi & Hranks & Hs) H.
  destruct (_ <=? _) eqn:E; [by eapply IH|].
  destruct (_ <=? _)%Z eqn:E2; [done|]. injection H as <-.
  apply place_group_inv; [done|done|lia|done].
Qed.

Lemma backtrack_open stack rows rank_costs placed pos nodes :
  stack_inv stack rows placed pos -> alt stack rows ->
  match backtrack sizes costs order stack rows rank_costs placed nodes with
  | inl NoFit => False
  | inl _ => True
  | inr st => open_state st
  end.
Proof.
  revert rows rank_costs placed pos; induction stack as [|f stack IH];
    intros rows rank_costs placed pos; simpl; [done|].
  intros (Hc & -> & Hp & Hr & Hi & Hranks & Hs) Halt.
  pose proof (stack_inv_sound _ _ _ _ Hs) as (Hlen & _).
  destruct (length (f_ranks f) <=? f_choice f + 1) eqn:E.
  - eapply IH; [exact Hs|]. destruct Halt as [(c & r & Hlt & Hcr & _)|Halt]; [|done].
    apply lookup_lt_Some in Hcr. lia.
  - destruct (_ <=? _)%Z eqn:E2; [done|]. unfold open_state.
    rewrite place_group_restore; [|done|].
    2:{ apply Hranks. eapply list_elem_of_lookup_2. apply nat_at_lt. lia. }
    destruct Halt as [(c & r & Hlt & Hcr & Hfit)|Halt]; [|by right; right].
    destruct (decide (c = f_choice f + 1)) as [->|Hne].
    + left. simpl. rewrite (nat_at_Some _ _ _ Hcr). done.
    + right; left. exists c, r. split_and!; [lia|done|done].
Qed.

Lemma drop_at pos : pos < length order -> drop pos order = nat_at order pos :: drop (S pos) order.
Proof. intros H. by apply drop_S, nat_at_lt. Qed.

(** One iteration keeps the invariant, explores at least one node, and never drops the
    last way to fit the groups. *)
Lemma pack_iter_step st st' :
  state_inv st -> pack_iter sizes costs order k cap st = inr st' ->
  state_inv st' /\ (ps_nodes st < ps_nodes st')%Z /\ (ps_nodes st < PACK_NODE_BUDGET)%Z.
Proof.
  intros Hinv H. unfold pack_iter in H. destruct (_ =? _) eqn:E; [done|].
  destruct (_ <=? _)%Z eqn:E2; [done|].
  pose proof (stack_inv_sound _ _ _ _ Hinv) as (_ & Hle & _).
  destruct (candidates _ _ _ _ _ _) as [|r ranks] eqn:Ec.
  - split_and!; [by eapply backtrack_inv| |lia].
    assert (Hn : forall stack rows rc placed n s,
      backtrack sizes costs order stack rows rc placed n = inr s -> (n < ps_nodes s)%Z).
    { induction stack as [|f stack IH]; intros rows rc placed n s; simpl; [done|].
      destruct (length _ <=? _); [apply IH|]. destruct (_ <=? n)%Z; [done|]. intros Heq. injection Heq as <-. simpl. lia. }
    apply Hn in H. lia.
  - injection H as <-. split_and!; [|simpl; lia|lia].
    apply place_group_inv; [done|lia|simpl; lia|]. rewrite <- Ec. apply candidates_spec.
Qed.

Lemma pack_iter_open st :
  state_inv st -> open_state st ->
  match pack_iter sizes costs order k cap st with
  | inl NoFit => False
  | inl _ => True
  | inr st' => open_state st'
  end.
Proof.
  intros Hinv Hopen. unfold pack_iter. destruct (_ =? _) eqn:E; [done|].
  destruct (_ <=? _)%Z eqn:E2; [done|].
  pose proof (stack_inv_sound _ _ _ _ Hinv) as (Hlen & Hle & _).
  pose proof (candidates_fit (ps_rows st) (ps_costs st) (nat_at order (ps_pos st))
                (drop (S (ps_pos st)) order) Hlen) as Hfit.
  pose proof (candidates_spec (ps_rows st) (ps_costs st) (nat_at order (ps_pos st))) as [Hroom _].
  rewrite <- drop_at in Hfit by lia.
  destruct (candidates _ _ _ _ _ _) as [|r ranks] eqn:Ec.
  - eapply backtrack_open; [exact Hinv|]. destruct Hopen as [H|H]; [|done].
    destruct (Hfit H) as (r & Hr & _). set_solver.
  - unfold open_state. rewrite place_group_restore; [|done|apply Hroom; simpl; set_solver].
    destruct Hopen as [H|H]; [|by right; right].
    destruct (Hfit H) as (r' & [c Hc]%list_elem_of_lookup & Hf).
    destruct c as [|c]; [left; simplify_eq/=; done|].
    right; left. exists (S c), r'. split_and!; [lia|done|done].
Qed.

(** Every run ends within the fuel [pack_groups] gives it. *)
Lemma pack_loop_total fuel st :
  state_inv st -> (PACK_NODE_BUDGET - ps_nodes st < Z.of_nat fuel)%Z -> 0 < fuel ->
  is_Some (pack_loop sizes costs order k cap fuel st).
Proof.
  revert st; induction fuel as [|fuel IH]; intros st Hinv Hf Hpos; [lia|]. simpl.
  destruct (pack_iter _ _ _ _ _ _) as [out|st'] eqn:E; [eauto|].
  apply pack_iter_step in E as (Hinv' & Hn & Hb); [|done]. apply IH; [done|lia|lia].
Qed.

Lemma pack_loop_spec fuel st out :
  state_inv st -> pack_loop sizes costs order k cap fuel st = Some out ->
  match out with
  | Packed placed => exists st', state_inv st' /\ ps_placed st' = placed /\ ps_pos st' = length order
  | NoFit => ~ open_state st
  | SearchBudgetExceeded n => (PACK_NODE_BUDGET <= n)%Z
  end.
Proof.
  revert st; induction fuel as [|fuel IH]; intros st Hinv; simpl; [done|].
  pose proof (pack_iter_open st Hinv) as Hopen.
  destruct (pack_iter _ _ _ _ _ _) as [o|st'] eqn:E.
  - intros [= ->]. unfold pack_iter in E. destruct out as [placed| |n].
    + destruct (_ =? _) eqn:E1.
      { exists st. injection E as <-. split_and!; [done|done|lia]. }
      destruct (_ <=? _)%Z; [done|]. destruct (candidates _ _ _ _ _ _); [|done].
      exfalso. clear -E. revert E. generalize (ps_rows st), (ps_costs st), (ps_placed st).
      induction (ps_stack st) as [|f stack IHs]; intros rows rc pl; simpl; [done|].
      destruct (_ <=? _); [apply IHs|]. by destruct (_ <=? _)%Z.
    + intros H. by apply Hopen.
    + destruct (_ =? _) eqn:E1; [done|]. destruct (_ <=? _)%Z eqn:E2; [injection E as <-; lia|].
      destruct (candidates _ _ _ _ _ _); [|done].
      clear -E. revert E. generalize (ps_rows st), (ps_costs st), (ps_placed st).
      induction (ps_stack st) as [|f stack IHs]; intros rows rc pl; simpl; [done|].
      destruct (_ <=? _); [apply IHs|]. destruct (_ <=? _)%Z eqn:E; [intros [= <-]; lia|done].
  - intros Hl. apply pack_iter_step in E as (Hinv' & _ & _); [|done].
    specialize (IH _ Hinv' Hl). destruct out; [done| |done]. intros H. by apply IH, Hopen.
Qed.

Lemma pack_groups_spec :
  exists out, pack_groups sizes costs order k cap = Some out /\
  match out with
  | Packed placed =>
      (forall i, i ∈ order -> exists r, placed !! i = Some r /\ r < k) /\
      (forall r, r < k -> rank_rows (fun i => placed !! i) order r <= cap)
  | NoFit => ~ fits (replicate k 0) order
  | SearchBudgetExceeded n => (PACK_NODE_BUDGET <= n)%Z
  end.
Proof.
  assert (Hinit : state_inv (pack_init k)) by done.
  destruct (pack_loop_total (Z.to_nat (PACK_NODE_BUDGET + 1)) (pack_init k)) as [out Hout];
    [done|simpl; unfold PACK_NODE_BUDGET; lia|unfold PACK_NODE_BUDGET; lia|].
  exists out. split; [done|]. apply pack_loop_spec in Hout; [|done]. destruct out as [placed| |n]; [|..|done].
  - destruct Hout as (st' & Hs & <- & Hpos).
    apply stack_inv_sound in Hs as (_ & _ & Hdom & Hlt & Hrows & Hcap).
    rewrite Hpos in *. rewrite take_ge in Hdom, Hrows by done. split.
    + intros i [r Hr]%Hdom. eauto.
    + intros r Hr. by rewrite <- Hrows.
  - intros H. apply Hout. by left.
Qed.
End pack_proofs.

(** ** Whole groups in equal bins *)

(** Some assignment of whole groups to [k] ranks keeps every rank within [cap] rows. *)
Definition packable (groups : list (list nat)) (k cap : nat) : Prop :=
  exists place : nat -> nat,
    (forall i, i < length groups -> place i < k) /\
    (forall r, r < k ->
       rank_rows (length <$> groups) (fun i => Some (place i)) (seq 0 (length groups)) r <= cap).

Lemma rank_rows_cons sizes place i l r :
  rank_rows sizes place (i :: l) r =
  (if decide (place i = Some r) then nat_at sizes i else 0) + rank_rows sizes place l r.
Proof.
  unfold rank_rows. rewrite filter_cons. case_decide; csimpl; lia.
Qed.

#[export] Instance rank_rows_perm sizes place :
  Proper (Permutation ==> eq ==> eq) (rank_rows sizes place).
Proof. intros l l' Hl r ? <-. unfold rank_rows. by rewrite Hl. Qed.

Lemma sum_one_hot (k r x : nat) (f : nat -> nat) :
  r < k ->
  sum_list ((fun r' => (if decide (Some r = Some r') then x else 0) + f r') <$> seq 0 k) =
  x + sum_list (f <$> seq 0 k).
Proof.
  induction k as [|k IH]; intros Hr; [lia|].
  rewrite seq_S, !fmap_app, !sum_list_with_app. simpl.
  destruct (decide (r = k)) as [->|Hne].
  - rewrite (list_fmap_ext _ f).
    + rewrite decide_True by done. lia.
    + intros j r' [-> Hr']%lookup_seq. rewrite decide_False; [done|]. intros [= ->]. lia.
  - rewrite IH by lia. rewrite decide_False by congruence. lia.
Qed.

(** The ranks' row counts add up to the rows of all groups. *)
Lemma sum_rank_rows sizes place l k :
  (forall i, i ∈ l -> exists r, place i = Some r /\ r < k) ->
  sum_list (rank_rows sizes place l <$> seq 0 k) = sum_list (nat_at sizes <$> l).
Proof.
  induction l as [|i l IH]; intros H.
  - clear. simpl. by induction (seq 0 k).
  - destruct (H i ltac:(set_solver)) as (r & Hr & Hlt).
    rewrite (list_fmap_ext _ (fun r' => (if decide (Some r = Some r') then nat_at sizes i else 0) +
               rank_rows sizes place l r')).
    + rewrite sum_one_hot by done. rewrite IH by set_solver. by csimpl.
    + intros j r' _. by rewrite rank_rows_cons, Hr.
Qed.

Lemma fits_of_place sizes cap place rest rows :
  (forall i, i ∈ rest -> place i < length rows) ->
  (forall r, r < length rows -> nat_at rows r + rank_rows sizes (fun i => Some (place i)) rest r <= cap) ->
  fits sizes cap rows rest.
Proof.
  revert rows; induction rest as [|i rest IH]; intros rows Hp Hcap; simpl; [done|].
  assert (Hi : place i < length rows) by (apply Hp; set_solver).
  exists (place i). split; [done|].
  pose proof (Hcap _ Hi) as Hc. rewrite rank_rows_cons, decide_True in Hc by done. split; [lia|].
  apply IH; rewrite length_insert; [set_solver|]. intros r Hr.
  specialize (Hcap r Hr). rewrite rank_rows_cons in Hcap.
  destruct (decide (r = place i)) as [->|Hne].
  - unfold nat_at at 1. rewrite list_lookup_insert_eq by done. simpl. lia.
  - unfold nat_at at 1. rewrite list_lookup_insert_ne by done. unfold nat_at in Hcap. lia.
Qed.

Lemma group_order_perm groups costs : group_order groups costs ≡ₚ seq 0 (length groups).
Proof. apply py_sorted_perm. Qed.

Lemma nat_at_length groups i : nat_at (length <$> groups) i = length (group_at groups i).
Proof. unfold nat_at, group_at. rewrite list_lookup_fmap. by destruct (groups !! i). Qed.

Lemma packable_fits groups costs k cap :
  packable groups k cap ->
  fits (length <$> groups) cap (replicate k 0) (group_order groups costs).
Proof.
  intros (place & Hp & Hcap). apply (fits_of_place _ _ place); rewrite length_replicate.
  - intros i Hi. apply Hp. rewrite group_order_perm in Hi. apply elem_of_seq in Hi. lia.
  - intros r Hr. rewrite group_order_perm. unfold nat_at at 1. rewrite lookup_replicate_2 by done.
    simpl. by apply Hcap.
Qed.

Lemma rank_rows_multiple sizes s place l r :
  (forall i, i ∈ l -> nat_at sizes i = s) -> exists c, rank_rows sizes place l r = c * s.
Proof.
  induction l as [|i l IH]; intros H; [by exists 0|].
  destruct IH as [c Hc]; [set_solver|]. rewrite rank_rows_cons, Hc.
  rewrite (H i) by set_solver. case_decide; [by exists (S c)|by exists c].
Qed.

(** Equal groups: a rank holds at most [cap / s] of them. *)
Lemma equal_sizes_overflow_sound groups costs k cap :
  equal_sizes_overflow ((fun i => length (group_at groups i)) <$> group_order groups costs)
    (length groups) k cap = true ->
  ~ packable groups k cap.
Proof.
  intros H (place & Hp & Hcap). unfold equal_sizes_overflow in H.
  destruct (_ <$> _) as [|s rest] eqn:E; [done|].
  apply andb_true_iff in H as [[Hall Hs]%andb_true_iff Hov].
  assert (Heq : forall i, i ∈ seq 0 (length groups) -> nat_at (length <$> groups) i = s).
  { intros i Hi. rewrite nat_at_length. rewrite <- (group_order_perm groups costs) in Hi.
    assert (Hin : length (group_at groups i) ∈ s :: rest).
    { rewrite <- E. by apply (list_elem_of_fmap_2 (fun i => length (group_at groups i))). }
    apply elem_of_cons in Hin as [->|Hin]; [done|].
    rewrite forallb_forall in Hall. specialize (Hall _ (proj1 (list_elem_of_In _ _) Hin)). lia. }
  pose proof (sum_rank_rows (length <$> groups) (fun i => Some (place i)) (seq 0 (length groups)) k) as Hsum.
  rewrite (list_fmap_ext (nat_at _) (fun _ => s)) in Hsum.
  2:{ intros j i Hj. apply Heq. by eapply list_elem_of_lookup_2. }
  assert (Hbound : forall l, (forall r, r ∈ l -> r < k) ->
    sum_list (rank_rows (length <$> groups) (fun i => Some (place i)) (seq 0 (length groups)) <$> l)
      <= length l * (s * (cap / s))).
  { induction l as [|r l IHl]; intros Hl; csimpl; [lia|].
    specialize (IHl ltac:(set_solver)). specialize (Hcap r ltac:(set_solver)).
    destruct (rank_rows_multiple (length <$> groups) s (fun i => Some (place i)) _ r Heq) as [c Hc].
    assert (c <= cap / s) by (apply Nat.div_le_lower_bound; lia). nia. }
  specialize (Hbound (seq 0 k)). rewrite length_seq in Hbound.
  rewrite Hsum in Hbound.
  - assert (Hconst : forall m, sum_list ((fun _ => s) <$> seq m (length groups)) = length groups * s).
    { clear. induction (length groups) as [|n IHn]; intros m; simpl; [done|]. by rewrite IHn. }
    rewrite Hconst in Hbound.
    specialize (Hbound ltac:(intros r Hr%elem_of_seq; lia)). nia.
  - intros i Hi%elem_of_seq. exists (place i). split; [done|apply Hp; lia].
Qed.

Section bins.
Context (groups : list (list nat)) (placed : gmap nat nat) (k : nat).

(** A group stays in one piece. *)
Definition whole_in (bins : list (list nat)) (g : list nat) : Prop :=
  exists bin pre post, bin ∈ bins /\ bin = pre ++ g ++ post.

Definition bins_inv (l : list nat) (bins : list (list nat)) : Prop :=
  length bins = k /\ concat bins ≡ₚ concat (group_at groups <$> l) /\
  (forall r bin, bins !! r = Some bin ->
     length bin = rank_rows (length <$> groups) (fun i => placed !! i) l r) /\
  (forall i, i ∈ l -> whole_in bins (group_at groups i)).

Lemma whole_in_extend bins r g h : r < length bins ->
  whole_in bins g -> whole_in (alter (fun bin => bin ++ h) r bins) g.
Proof.
  intros Hr (bin & pre & post & [j Hj]%list_elem_of_lookup & ->).
  destruct (decide (j = r)) as [->|Hne].
  - exists ((pre ++ g ++ post) ++ h), pre, (post ++ h). rewrite <- !app_assoc. split; [|done].
    apply list_elem_of_lookup. exists r. rewrite list_lookup_alter_eq, Hj. simpl.
    by rewrite <- !app_assoc.
  - exists (pre ++ g ++ post), pre, post. split; [|done]. apply list_elem_of_lookup.
    exists j. by rewrite list_lookup_alter_ne.
Qed.

Lemma extend_bin_ok l bins i r :
  bins_inv l bins -> placed !! i = Some r -> r < k ->
  exists bins', extend_bin groups placed bins i = Ok bins' /\ bins_inv (l ++ [i]) bins'.
Proof.
  intros (Hlen & Hc & Hsz & Hwh) Hi Hr. unfold extend_bin. rewrite Hi. eexists. split; [done|].
  destruct (lookup_lt_is_Some_2 bins r) as [bin Hbin]; [lia|].
  split_and!.
  - by rewrite length_alter.
  - rewrite (list_alter_split _ _ _ _ Hbin), fmap_app, !concat_app. simpl.
    rewrite app_nil_r, <- Hc. rewrite (list_split_at _ _ _ Hbin) at 3. rewrite concat_app. simpl.
    rewrite <- !app_assoc. f_equiv. f_equiv. by rewrite Permutation_app_comm.
  - intros r' bin' Hb. unfold rank_rows. rewrite filter_app, fmap_app, sum_list_with_app.
    destruct (decide (r' = r)) as [->|Hne].
    + rewrite list_lookup_alter_eq, Hbin in Hb. simplify_eq/=. rewrite length_app.
      rewrite filter_cons_True by done. csimpl. rewrite nat_at_length.
      rewrite (Hsz _ _ Hbin). unfold rank_rows. simpl. lia.
    + rewrite list_lookup_alter_ne in Hb by done.
      rewrite filter_cons_False by congruence. csimpl. rewrite (Hsz _ _ Hb). unfold rank_rows. lia.
  - intros j [Hj| ->%list_elem_of_singleton]%elem_of_app.
    + apply whole_in_extend; [lia|]. by apply Hwh.
    + exists (bin ++ group_at groups i), bin, []. rewrite app_nil_r. split; [|done].
      apply list_elem_of_lookup. exists r. by rewrite list_lookup_alter_eq, Hbin.
Qed.

Lemma extend_bins_ok rest l bins :
  bins_inv l bins -> (forall i, i ∈ rest -> exists r, placed !! i = Some r /\ r < k) ->
  exists bins', foldM (extend_bin groups placed) bins rest = Ok bins' /\ bins_inv (l ++ rest) bins'.
Proof.
  revert l bins; induction rest as [|i rest IH]; intros l bins Hinv H; simpl.
  - rewrite app_nil_r. eauto.
  - destruct (H i ltac:(set_solver)) as (r & Hr & Hlt).
    destruct (extend_bin_ok l bins i r Hinv Hr Hlt) as (bins' & -> & Hinv'). simpl.
    rewrite cons_middle, app_assoc. apply IH; [done|set_solver].
Qed.
End bins.

Lemma group_at_all (groups : list (list nat)) : group_at groups <$> seq 0 (length groups) = groups.
Proof.
  apply list_eq. intros i. rewrite list_lookup_fmap.
  destruct (decide (i < length groups)) as [Hi|Hi].
  - rewrite lookup_seq_lt by done. simpl. unfold group_at.
    by destruct (lookup_lt_is_Some_2 _ _ Hi) as [g ->].
  - rewrite lookup_seq_ge, lookup_ge_None_2 by lia. done.
Qed.

Lemma too_large_unpackable groups costs k cap :
  forallb (fun i => length (group_at groups i) <=? cap) (group_order groups costs) = false ->
  ~ packable groups k cap.
Proof.
  intros H (place & Hp & Hcap). rewrite <- not_true_iff_false, forallb_forall in H. apply H.
  intros i Hi%list_elem_of_In. rewrite group_order_perm in Hi. apply elem_of_seq in Hi as Hi'.
  specialize (Hp i ltac:(lia)). specialize (Hcap _ Hp).
  apply elem_of_Permutation in Hi as [l Hl]. rewrite Hl, rank_rows_cons in Hcap.
  rewrite decide_True in Hcap by done. rewrite nat_at_length in Hcap. lia.
Qed.

(** The bins of a placement that respects the cap are exactly full. *)
Lemma placed_bins_spec groups costs placed k cap :
  0 < k -> is_partition groups (k * cap) ->
  (forall i, i ∈ group_order groups costs -> exists r, placed !! i = Some r /\ r < k) ->
  (forall r, r < k ->
     rank_rows (length <$> groups) (fun i => placed !! i) (group_order groups costs) r <= cap) ->
  exists bins, foldM (extend_bin groups placed) (replicate k []) (group_order groups costs) = Ok bins /\
    is_partition bins (k * cap) /\ length <$> bins = replicate k cap /\ Forall (whole_in bins) groups.
Proof.
  intros Hk Hpart Hpl Hcap.
  destruct (extend_bins_ok groups placed k (group_order groups costs) [] (replicate k []))
    as (bins & -> & Hlen & Hc & Hsz & Hwh); [|done|].
  { split_and!; [by rewrite length_replicate| | |set_solver].
    - clear. by induction k.
    - intros r bin Hb. apply lookup_replicate in Hb as [-> _]. done. }
  simpl in *. exists bins. split; [done|].
  rewrite group_order_perm, group_at_all in Hc.
  assert (Hpb : is_partition bins (k * cap)) by (unfold is_partition; by rewrite Hc).
  split_and!; [done| |].
  - apply full_when_sum_eq.
    + apply Forall2_same_length_lookup_2; [by rewrite length_fmap, length_replicate|].
      intros r x c Hx [-> Hr]%lookup_replicate. apply list_lookup_fmap_Some in Hx as (bin & -> & Hb).
      rewrite (Hsz _ _ Hb). by apply Hcap.
    + rewrite <- length_concat_sum, Hpb, length_seq. clear. induction k; simpl; lia.
  - apply Forall_forall. intros g [i Hi]%list_elem_of_lookup.
    replace g with (group_at groups i) by (unfold group_at; by rewrite Hi).
    apply Hwh. rewrite group_order_perm. apply elem_of_seq. apply lookup_lt_Some in Hi. lia.
Qed.

(** What each outcome of [assign_zorro_groups] on a well-formed request means. *)
Definition zorro_outcome_ok (groups : list (list nat)) (k cap : nat)
    (r : res (option (list (list nat)))) : Prop :=
  match r with
  | Ok (Some bins) =>
      is_partition bins (k * cap) /\ length <$> bins = replicate k cap /\ Forall (whole_in bins) groups
  | Ok None => cap <= 1
  | Raise e =>
      e = ValueError "prompt group search budget exhausted" \/
      ((e = ValueError "prompt groups do not fit into ranks" \/
        e = ValueError "prompt group does not fit in a rank cap") /\ ~ packable groups k cap)
  end.

Lemma assign_zorro_groups_ok groups costs k cap :
  0 < k -> length costs = length groups -> is_partition groups (k * cap) ->
  zorro_outcome_ok groups k cap (assign_zorro_groups groups costs (Z.of_nat k) (k * cap)).
Proof.
  intros Hk Hlen Hpart. unfold assign_zorro_groups.
  destruct (Z.of_nat k <? 1)%Z eqn:E1; [lia|]. rewrite Nat2Z.id.
  replace (length groups =? length costs) with true by lia. simpl.
  destruct (k * cap <=? k) eqn:E2; [simpl; nia|].
  replace ((k * cap) mod k =? 0) with true.
  2:{ symmetry. apply Nat.eqb_eq. rewrite Nat.mul_comm. apply Nat.Div0.mod_mul. }
  simpl. rewrite bool_decide_eq_true_2 by (by apply py_sorted_seq). simpl.
  replace (k * cap / k) with cap by (rewrite Nat.mul_comm, Nat.div_mul; lia).
  destruct (forallb _ _) eqn:E3; simpl.
  2:{ right. split; [by right|]. by eapply too_large_unpackable. }
  destruct (equal_sizes_overflow _ _ _ _) eqn:E4; simpl.
  { right. split; [by left|]. by eapply equal_sizes_overflow_sound. }
  destruct (pack_groups_spec (length <$> groups) costs (group_order groups costs) k cap)
    as (out & -> & Hout).
  { rewrite group_order_perm. apply NoDup_seq. }
  destruct out as [placed| |n]; simpl.
  - destruct Hout as [Hpl Hcap].
    destruct (placed_bins_spec groups costs placed k cap) as (bins & -> & H); [done..|]. done.
  - right. split; [by left|]. intros H. by eapply Hout, packable_fits.
  - by left.
Qed.

(** ** Prompt groups *)

Section first_seen.
Context {K : Type} `{EqDecision K}.

(** The rows of [range(len(keys))] that carry [key], in order. *)
Definition rows_with (keys : list K) (key : K) : list nat :=
  filter (fun r => keys !! r = Some key) (seq 0 (length keys)).

Lemma rows_with_elem keys key r : r ∈ rows_with keys key <-> keys !! r = Some key.
Proof.
  unfold rows_with. rewrite list_elem_of_filter, elem_of_seq. split; [by intros [? _]|].
  intros H. split; [done|]. apply lookup_lt_Some in H. lia.
Qed.

Lemma rows_with_snoc keys key k' :
  rows_with (keys ++ [key]) k' =
  if decide (k' = key) then rows_with keys k' ++ [length keys] else rows_with keys k'.
Proof.
  unfold rows_with. rewrite length_app, Nat.add_1_r, seq_S, filter_app. simpl.
  rewrite (filter_ext_elem _ (fun r => keys !! r = Some k')).
  2:{ intros r Hr%elem_of_seq. by rewrite lookup_app_l by lia. }
  destruct (decide (k' = key)) as [->|Hne].
  - rewrite filter_cons_True by (by rewrite list_lookup_middle). done.
  - rewrite filter_cons_False by (rewrite list_lookup_middle by done; congruence).
    by rewrite app_nil_r.
Qed.

Lemma setdefault_append_fmap (ks : list K) (F G : K -> list nat) key row :
  NoDup ks -> (forall k', G k' = if decide (k' = key) then F k' ++ [row] else F k') ->
  (key ∉ ks -> F key = []) ->
  setdefault_append ((fun k' => (k', F k')) <$> ks) key row =
  (fun k' => (k', G k')) <$> (if decide (key ∈ ks) then ks else ks ++ [key]).
Proof.
  intros Hnd HG. induction Hnd as [|k' ks Hk Hnd IH]; intros HF; csimpl.
  - rewrite HG, decide_True, HF by set_solver. done.
  - destruct (decide (key = k')) as [->|Hne].
    + rewrite decide_True by set_solver. csimpl. rewrite HG, decide_True by done. f_equal.
      apply list_fmap_ext. intros i k2 Hk2. rewrite HG, decide_False; [done|].
      intros ->. apply Hk. by eapply list_elem_of_lookup_2.
    + rewrite IH by set_solver. destruct (decide (key ∈ ks)) as [Hin|Hin].
      * rewrite decide_True by set_solver. csimpl. by rewrite HG, decide_False.
      * rewrite decide_False by set_solver. csimpl. by rewrite HG, decide_False.
Qed.

Lemma setdefault_append_concat (d : list (K * list nat)) key row :
  concat (setdefault_append d key row).*2 ≡ₚ row :: concat d.*2.
Proof.
  induction d as [|[k' rows] d IH]; csimpl; [done|]. case_decide; csimpl.
  - rewrite <- app_assoc. simpl. by rewrite <- Permutation_middle.
  - rewrite IH. by rewrite <- Permutation_middle.
Qed.

Lemma first_seen_dict (keys : list K) :
  exists ks, NoDup ks /\ (forall key, key ∈ ks <-> key ∈ keys) /\
    fold_left (fun d '(row, key) => setdefault_append d key row) (imap pair keys) [] =
    (fun key => (key, rows_with keys key)) <$> ks.
Proof.
  induction keys as [|key keys IH] using rev_ind.
  - exists []. split_and!; [constructor|done|done].
  - destruct IH as (ks & Hnd & Hks & Heq). rewrite imap_app, fold_left_app, Heq. simpl.
    rewrite Nat.add_0_r.
    rewrite (setdefault_append_fmap ks _ (rows_with (keys ++ [key]))); [|done| |].
    + eexists. split_and!; [| |done].
      * case_decide; [done|]. apply NoDup_app. split_and!; [done|set_solver|apply NoDup_singleton].
      * intros k'. case_decide; rewrite elem_of_app, <- ?Hks; set_solver.
    + intros k'. by rewrite rows_with_snoc.
    + intros Hn. rewrite Hks in Hn. apply elem_of_nil_inv. intros r Hr%rows_with_elem.
      apply Hn. by eapply list_elem_of_lookup_2.
Qed.

(** Every row is in exactly one group, and a group is all rows of one key. *)
Lemma first_seen_groups_spec (keys : list K) :
  is_partition (first_seen_groups keys) (length keys) /\
  Forall (fun g => g <> [] /\ exists key, g = rows_with keys key) (first_seen_groups keys).
Proof.
  unfold first_seen_groups. split.
  - unfold is_partition. induction keys as [|key keys IH] using rev_ind; [done|].
    rewrite imap_app, fold_left_app. simpl. rewrite setdefault_append_concat, IH.
    rewrite length_app, Nat.add_1_r, seq_S, Nat.add_0_r. simpl.
    by rewrite <- Permutation_cons_append.
  - destruct (first_seen_dict keys) as (ks & _ & Hks & ->).
    rewrite <- list_fmap_compose. apply Forall_fmap, Forall_forall. intros key Hkey. simpl.
    split; [|by exists key]. apply Hks, list_elem_of_lookup in Hkey as [r Hr].
    apply rows_with_elem in Hr. by destruct (rows_with keys key); [set_solver|].
Qed.
End first_seen.

Lemma split_group_spec m (g : list nat) :
  0 < m -> concat (split_group m g) = g /\ Forall (fun c => c <> [] /\ length c <= m) (split_group m g).
Proof.
  intros Hm. unfold split_group. set (n := (length g + m - 1) / m).
  assert (Hn : length g <= n * m /\ (n <> 0 -> (n - 1) * m < length g)).
  { unfold n. pose proof (Nat.div_mod (length g + m - 1) m ltac:(lia)) as Hd.
    pose proof (Nat.mod_upper_bound (length g + m - 1) m ltac:(lia)). split; [nia|]. intros H0. nia. }
  split; [rewrite concat_chunks_take; apply take_ge; lia|].
  apply Forall_forall. intros c (i & -> & Hi)%list_elem_of_fmap. apply elem_of_seq in Hi.
  assert (Hlen : length (chunk m g i) = min m (length g - i * m))
    by (unfold chunk; by rewrite length_take, length_drop).
  split; [|lia]. intros Hnil. rewrite Hnil in Hlen. simpl in Hlen.
  assert (i * m <= (n - 1) * m) by (apply Nat.mul_le_mono_r; lia). lia.
Qed.

(** [g] is a run of consecutive elements of [h]. *)
Definition infix {A} (g h : list A) : Prop := exists pre post, h = pre ++ g ++ post.

Lemma infix_concat {A} (c : list A) cs : c ∈ cs -> infix c (concat cs).
Proof.
  intros [i Hi]%list_elem_of_lookup. rewrite (list_split_at _ _ _ Hi), concat_app. simpl.
  by exists (concat (take i cs)), (concat (drop (S i) cs)).
Qed.

Lemma split_groups_ok gs p r t m :
  (0 < m)%Z -> (p + r * m <= t)%Z -> Forall (fun g => g <> []) gs ->
  exists gs', split_groups_to_max_length gs p r t (Some m) = Ok gs' /\
    concat gs' = concat gs /\
    Forall (fun c => c <> [] /\ length c <= Z.to_nat m /\ exists g, g ∈ gs /\ infix c g) gs'.
Proof.
  intros Hm Ht Hne. unfold split_groups_to_max_length.
  destruct gs as [|g0 gs0] eqn:Hgs; [exists []; by repeat split|]. rewrite <- Hgs in *. clear Hgs g0 gs0.
  destruct (m <=? 0)%Z eqn:E1; [lia|]. destruct (t <? _)%Z eqn:E2; [lia|].
  destruct (forallb _ gs) eqn:E3.
  - exists gs. split_and!; [done|done|]. apply Forall_forall. intros g Hg.
    rewrite Forall_forall in Hne. rewrite forallb_forall in E3.
    specialize (E3 g (proj1 (list_elem_of_In _ _) Hg)). split_and!; [by apply Hne|lia|].
    exists g. split; [done|]. exists [], []. by rewrite app_nil_r.
  - eexists. split; [done|]. clear E3.
    induction Hne as [|g gs Hg Hne IH]; csimpl; [done|]. destruct IH as [IH1 IH2].
    rewrite concat_app, IH1. rewrite Forall_app.
    assert (IH2' : Forall (fun c => c <> [] /\ length c <= Z.to_nat m /\
               exists g', g' ∈ g :: gs /\ infix c g') (concat ((fun group : list nat =>
        if Z.to_nat m <? length group then split_group (Z.to_nat m) group else [group]) <$> gs))).
    { eapply Forall_impl; [exact IH2|]. intros c (? & ? & g' & ? & ?). split_and!; [done|done|].
      exists g'. split; [set_solver|done]. }
    destruct (Z.to_nat m <? length g) eqn:E.
    + destruct (split_group_spec (Z.to_nat m) g) as [Hc Hs]; [lia|]. split; [by rewrite Hc|].
      split; [|done]. apply Forall_forall. intros c Hin. rewrite Forall_forall in Hs.
      destruct (Hs c Hin). split_and!; [done|done|]. exists g. split; [set_solver|].
      rewrite <- Hc. by apply infix_concat.
    + simpl. rewrite app_nil_r. split; [done|]. split; [|done]. constructor; [|done].
      split_and!; [done|lia|]. exists g. split; [set_solver|]. exists [], []. by rewrite app_nil_r.
Qed.

(** ** The packer's contract *)

(** C38: the backtracking packer of whole groups always returns within its node budget, and
    its verdict is right.  A placement puts every group on a rank and no rank above [cap]
    rows; [None] (here [NoFit]) is returned only when no placement exists at all, so
    skipping ranks with equal row count and cost loses no solution; the only other outcome
    is an exhausted budget. *)
Theorem pack_groups_decides sizes costs order k cap :
  NoDup order ->
  exists out, pack_groups sizes costs order k cap = Some out /\
  match out with
  | Packed placed =>
      (forall i, i ∈ order -> exists r, placed !! i = Some r /\ r < k) /\
      (forall r, r < k -> rank_rows sizes (fun i => placed !! i) order r <= cap)
  | NoFit => ~ fits sizes cap (replicate k 0) order
  | SearchBudgetExceeded n => (PACK_NODE_BUDGET <= n)%Z
  end.
Proof. apply pack_groups_spec. Qed.

Lemma pack_groups_decides_witness :
  exists out, pack_groups [3; 3; 2; 2; 2] [9; 8; 3; 2; 1]%Z [0; 1; 2; 3; 4] 2 6 = Some out /\
  match out with
  | Packed placed =>
      (forall i, i ∈ [0; 1; 2; 3; 4] -> exists r, placed !! i = Some r /\ r < 2) /\
      (forall r, r < 2 -> rank_rows [3; 3; 2; 2; 2] (fun i => placed !! i) [0; 1; 2; 3; 4] r <= 6)
  | NoFit => ~ fits [3; 3; 2; 2; 2] 6 (replicate 2 0) [0; 1; 2; 3; 4]
  | SearchBudgetExceeded n => (PACK_NODE_BUDGET <= n)%Z
  end.
Proof.
  apply (pack_groups_decides [3; 3; 2; 2; 2] [9; 8; 3; 2; 1]%Z [0; 1; 2; 3; 4] 2 6).
  exact (bool_decide_unpack (NoDup [0; 1; 2; 3; 4]) I).
Defined.

(** The greedy pass puts the two groups of three rows on different ranks and gets stuck; the
    search recovers the only shape that fits. *)
Example pack_groups_backtracks :
  match pack_groups [3; 3; 2; 2; 2] [9; 8; 3; 2; 1]%Z [0; 1; 2; 3; 4] 2 6 with
  | Some (Packed placed) => (fun i => placed !! i) <$> [0; 1; 2; 3; 4]
  | _ => []
  end = [Some 0; Some 0; Some 1; Some 1; Some 1].
Proof. vm_compute. reflexivity. Qed.

(** C8: on a request whose groups partition [k * cap] rows, [assign_zorro_groups] either
    keeps arrival order because there is nothing to balance, or returns [k] bins of exactly
    [cap] rows that partition the rows and hold every prompt group in one piece, or raises
    [ValueError]: for an exhausted search budget, or because no assignment of whole groups
    to [k] ranks of [cap] rows exists.  No other exception is possible. *)
Theorem assign_zorro_groups_outcomes groups costs k cap :
  0 < k -> length costs = length groups -> is_partition groups (k * cap) ->
  zorro_outcome_ok groups k cap (assign_zorro_groups groups costs (Z.of_nat k) (k * cap)).
Proof. apply assign_zorro_groups_ok. Qed.

Lemma assign_zorro_groups_outcomes_witness :
  zorro_outcome_ok [[0; 1; 2]; [3; 4; 5]; [6; 7]; [8; 9]; [10; 11]] 2 6
    (assign_zorro_groups [[0; 1; 2]; [3; 4; 5]; [6; 7]; [8; 9]; [10; 11]] [9; 8; 3; 2; 1]%Z 2 12).
Proof.
  apply (assign_zorro_groups_outcomes
           [[0; 1; 2]; [3; 4; 5]; [6; 7]; [8; 9]; [10; 11]] [9; 8; 3; 2; 1]%Z 2 6).
  - lia.
  - reflexivity.
  - unfold is_partition. reflexivity.
Defined.

(** ** Grouping by prompt *)

(** What a row is grouped by: its id when there is one id per row, else its prompt columns. *)
Definition prompt_keys (t : tensor) (response_length : Z) (ids : option mval) : list (list Z) :=
  let prompts := take (Z.to_nat (Z.of_nat (dim t 1) - response_length)) <$> rows2 t in
  match as_tensor ids with
  | Some i => if (ndim i =? 1) && (dim i 0 =? dim t 0) then (fun z => [z]) <$> t_data i else prompts
  | None => prompts
  end.

Definition ids_wf (ids : option mval) : Prop :=
  match as_tensor ids with Some i => t_wf i | None => True end.

Lemma ids_wf_length ids t : ids_wf ids -> as_tensor ids = Some t -> ndim t = 1 ->
  length (t_data t) = dim t 0.
Proof.
  unfold ids_wf. intros Hwf Ht. rewrite Ht in Hwf. rewrite Hwf. unfold ndim, dim.
  destruct (t_shape t) as [|d [|]]; simpl; lia.
Qed.

Lemma id_groups_partition ids n gs :
  ids_wf ids -> id_groups ids n = Some gs -> is_partition gs n /\ Forall (fun g => g <> []) gs.
Proof.
  intros Hwf H. unfold id_groups in H. destruct (as_tensor ids) as [t|] eqn:E; [|done].
  destruct (ndim t =? 1) eqn:E1; [|done]. destruct (dim t 0 =? n) eqn:E2; [|done].
  injection H as <-. pose proof (ids_wf_length _ _ Hwf E ltac:(lia)) as Hlen.
  destruct (first_seen_groups_spec (t_data t)) as [Hp Hf].
  replace (length (t_data t)) with n in Hp by lia. split; [done|].
  eapply Forall_impl; [exact Hf|]. by intros g [? _].
Qed.

Lemma prompt_groups_ok t resp tok m ids :
  ndim t = 2 -> ids_wf ids -> (0 <= resp <= Z.of_nat (dim t 1))%Z -> (0 < m)%Z ->
  (Z.of_nat (dim t 1) - resp + resp * m <= tok)%Z ->
  exists gs, prompt_groups (Some t) resp tok (Some m) ids = Ok gs /\
    is_partition gs (dim t 0) /\
    Forall (fun g => g <> [] /\ length g <= Z.to_nat m /\
              forall r r', r ∈ g -> r' ∈ g ->
                prompt_keys t resp ids !! r = prompt_keys t resp ids !! r') gs.
Proof.
  intros Hnd Hwf Hresp Hm Htok. unfold prompt_groups. rewrite Hnd. simpl.
  destruct ((resp <? 0)%Z || _) eqn:E; [lia|].
  set (gs0 := match id_groups ids (dim t 0) with Some g => g | None => _ end).
  assert (H0 : is_partition gs0 (dim t 0) /\
    Forall (fun g => g <> [] /\ forall r r', r ∈ g -> r' ∈ g ->
      prompt_keys t resp ids !! r = prompt_keys t resp ids !! r') gs0).
  { unfold gs0, prompt_keys, id_groups. destruct (as_tensor ids) as [i|] eqn:Ei.
    - destruct ((ndim i =? 1) && (dim i 0 =? dim t 0)) eqn:Ev.
      + pose proof (ids_wf_length _ _ Hwf Ei ltac:(lia)) as Hlen.
        destruct (first_seen_groups_spec (t_data i)) as [Hp Hf].
        replace (length (t_data i)) with (dim t 0) in Hp by lia. split; [done|].
        eapply Forall_impl; [exact Hf|]. intros g (Hg & key & ->). split; [done|].
        intros r r' Hr%rows_with_elem Hr'%rows_with_elem. by rewrite !list_lookup_fmap, Hr, Hr'.
      + destruct (first_seen_groups_spec (take (Z.to_nat (Z.of_nat (dim t 1) - resp)) <$> rows2 t)) as [Hp Hf].
        rewrite length_fmap in Hp. unfold rows2 in Hp. rewrite length_chunks in Hp. split; [done|].
        eapply Forall_impl; [exact Hf|]. intros g (Hg & key & ->). split; [done|].
        intros r r' Hr%rows_with_elem Hr'%rows_with_elem. by rewrite Hr, Hr'.
    - destruct (first_seen_groups_spec (take (Z.to_nat (Z.of_nat (dim t 1) - resp)) <$> rows2 t)) as [Hp Hf].
      rewrite length_fmap in Hp. unfold rows2 in Hp. rewrite length_chunks in Hp. split; [done|].
      eapply Forall_impl; [exact Hf|]. intros g (Hg & key & ->). split; [done|].
      intros r r' Hr%rows_with_elem Hr'%rows_with_elem. by rewrite Hr, Hr'. }
  destruct H0 as [Hp Hf].
  destruct (split_groups_ok gs0 (Z.of_nat (dim t 1) - resp) resp tok m) as (gs & -> & Hc & Hgs);
    [done|done|eapply Forall_impl; [exact Hf|]; by intros g [? _]|].
  exists gs. split; [done|]. split; [unfold is_partition; by rewrite Hc|].
  eapply Forall_impl; [exact Hgs|]. intros g (Hg & Hl & g0 & Hg0 & pre & post & ->).
  split_and!; [done|done|]. intros r r' Hr Hr'. rewrite Forall_forall in Hf.
  apply (Hf _ Hg0); set_solver.
Qed.

(** On a two-dimensional [input_ids] whose response fits the row and whose token budget
    admits a group of [m] rollouts, [prompt_groups] returns groups that partition the rows,
    are non-empty, hold at most [m] rows each, and only put rows together that carry the
    same [prompt_group_ids] entry (or, without usable ids, the same prompt columns). *)
Theorem prompt_groups_spec t resp tok m ids :
  ndim t = 2 -> ids_wf ids -> (0 <= resp <= Z.of_nat (dim t 1))%Z -> (0 < m)%Z ->
  (Z.of_nat (dim t 1) - resp + resp * m <= tok)%Z ->
  exists gs, prompt_groups (Some t) resp tok (Some m) ids = Ok gs /\
    is_partition gs (dim t 0) /\
    Forall (fun g => g <> [] /\ length g <= Z.to_nat m /\
              forall r r', r ∈ g -> r' ∈ g ->
                prompt_keys t resp ids !! r = prompt_keys t resp ids !! r') gs.
Proof. apply prompt_groups_ok. Qed.

Lemma prompt_groups_spec_witness :
  let t := of_rows2 2 [[7; 1]; [8; 2]; [7; 3]; [7; 4]]%Z in
  exists gs, prompt_groups (Some t) 1 9 (Some 2%Z) None = Ok gs /\
    is_partition gs 4 /\
    Forall (fun g => g <> [] /\ length g <= 2 /\
              forall r r', r ∈ g -> r' ∈ g ->
                prompt_keys t 1 None !! r = prompt_keys t 1 None !! r') gs.
Proof.
  apply (prompt_groups_spec (of_rows2 2 [[7; 1]; [8; 2]; [7; 3]; [7; 4]]%Z) 1 9 2 None);
    simpl; unfold ids_wf; simpl; try done; lia.
Defined.

(** ** The entry point *)

Lemma tensor_split_caps_even k cap : 0 < k -> tensor_split_caps (k * cap) k = replicate k cap.
Proof.
  intros Hk. unfold tensor_split_caps. rewrite (Nat.mul_comm k cap), Nat.div_mul by lia.
  rewrite Nat.Div0.mod_mul. transitivity (replicate (length (seq 0 k)) cap); [|by rewrite length_seq].
  induction (seq 0 k) as [|r l IH]; [done|]. rewrite fmap_cons, IH. simpl. f_equal. lia.
Qed.

Lemma assign_zorro_groups_Some groups costs k n bins :
  0 < k -> assign_zorro_groups groups costs (Z.of_nat k) n = Ok (Some bins) ->
  is_partition bins n /\ length <$> bins = tensor_split_caps n k.
Proof.
  intros Hk H. assert (Hc : length groups = length costs /\ is_partition groups n /\ exists cap, n = k * cap).
  { unfold assign_zorro_groups in H. destruct (Z.of_nat k <? 1)%Z eqn:E1; [done|].
    rewrite Nat2Z.id in H. res_inv. destruct (n <=? k) eqn:E2; [done|]. res_inv.
    apply bool_decide_eq_true in Hm1. apply py_sorted_seq_inv in Hm1. split_and!; [lia|done|].
    exists (n / k). rewrite (Nat.div_mod n k) at 1 by lia. lia. }
  destruct Hc as (Hlen & Hp & cap & ->).
  pose proof (assign_zorro_groups_ok groups costs k cap Hk (eq_sym Hlen) Hp) as Ho.
  rewrite H in Ho. destruct Ho as (Hb & Hl & _). split; [done|]. by rewrite tensor_split_caps_even.
Qed.

Lemma assign_zorro_groups_errors groups costs k n e :
  0 < k -> length costs = length groups -> is_partition groups n ->
  assign_zorro_groups groups costs (Z.of_nat k) n = Raise e -> exists msg, e = ValueError msg.
Proof.
  intros Hk Hlen Hp H. destruct (decide (n mod k = 0)) as [Hd|Hd].
  - assert (exists cap, n = k * cap) as [cap ->].
    { exists (n / k). rewrite (Nat.div_mod n k) at 1 by lia. lia. }
    pose proof (assign_zorro_groups_ok groups costs k cap Hk Hlen Hp) as Ho. rewrite H in Ho.
    destruct Ho as [->|[[->| ->] _]]; eauto.
  - unfold assign_zorro_groups in H. destruct (Z.of_nat k <? 1)%Z eqn:E1; [lia|].
    rewrite Nat2Z.id in H. replace (length groups =? length costs) with true in H by lia. simpl in H.
    destruct (n <=? k); [done|]. replace (n mod k =? 0) with false in H by lia. simpl in H.
    injection H as <-. eauto.
Qed.

(** The number of rows the request is about. *)
Definition request_rows (m : meta) (input_ids attention_mask : option tensor)
    (lengths : option (list Z)) : nat :=
  if meta_is m "zorro_train_enable" true
  then match input_ids with Some t => dim t 0 | None => 0 end
  else match lengths with
       | Some l => length l
       | None => match mask_lengths attention_mask with Some l => length l | None => 0 end
       end.

Lemma assign_balanced_batch_ok k m ids mask lens pg a :
  0 < k ->
  assign_balanced_batch (Z.of_nat k) m ids mask lens pg = Ok (Some a) ->
  is_partition a (request_rows m ids mask lens) /\
  length <$> a = tensor_split_caps (request_rows m ids mask lens) k.
Proof.
  intros Hk H. unfold assign_balanced_batch, request_rows in *.
  destruct (balance_disabled m); [done|]. destruct (meta_is m _ true).
  - unfold assign_prompt_groups in H. repeat case_match; simplify_eq; res_inv;
      by eapply assign_zorro_groups_Some.
  - set (measured := match lens with Some l => Some l | None => _ end) in H.
    assert (Hrows : match lens with Some l => length l
      | None => match mask_lengths mask with Some l => length l | None => 0 end end =
      match measured with Some l => length l | None => 0 end) by (unfold measured; by destruct lens).
    rewrite Hrows. destruct measured as [l|]; [|done].
    destruct (_ <? _)%Z eqn:E; [done|]. destruct (match pg with Some v => Some v | None => _ end).
    + unfold assign_whole_groups in H. rewrite length_fmap in H. destruct (id_groups _ _); [|done].
      res_inv. destruct (assign_zorro_groups _ _ _ _) as [[b|]|[]] eqn:Ez; simplify_eq/=.
      by eapply assign_zorro_groups_Some.
    + destruct (assign_row_lpt_ok ((fun len => len * len)%Z <$> l) k) as (a' & Ha & Hp & Hl & _).
      { rewrite length_fmap. lia. }
      rewrite Ha in H. simplify_eq/=. rewrite length_fmap in Hp, Hl. done.
Qed.

(** C4: whatever path a request takes (row LPT, whole groups by id, ZoRRo prompt groups), an
    assignment returned by [assign_balanced_batch] puts every row of the request on exactly
    one of [k] ranks, and gives each rank exactly the number of rows that the later
    [torch.tensor_split] cut gives it. *)
Theorem assign_balanced_batch_sound k m ids mask lens pg a :
  0 < k ->
  assign_balanced_batch (Z.of_nat k) m ids mask lens pg = Ok (Some a) ->
  is_partition a (request_rows m ids mask lens) /\
  length <$> a = tensor_split_caps (request_rows m ids mask lens) k.
Proof. apply assign_balanced_batch_ok. Qed.

Lemma assign_balanced_batch_sound_witness :
  is_partition [[0; 3]; [1; 2]] (request_rows [] None None (Some [4; 3; 2; 1]%Z)) /\
  length <$> [[0; 3]; [1; 2]] = tensor_split_caps (request_rows [] None None (Some [4; 3; 2; 1]%Z)) 2.
Proof.
  apply (assign_balanced_batch_sound 2 [] None None (Some [4; 3; 2; 1]%Z) None); [lia|].
  vm_compute. reflexivity.
Defined.

(** A request without ZoRRo never fails to balance: with at least one rank,
    [assign_balanced_batch] returns an assignment or keeps arrival order, also when whole
    groups cannot be packed. *)
Theorem assign_balanced_batch_total k m ids mask lens pg :
  0 < k -> meta_is m "zorro_train_enable" true = false ->
  ids_wf (match pg with Some v => Some v | None => meta_get m "prompt_group_ids" end) ->
  exists r, assign_balanced_batch (Z.of_nat k) m ids mask lens pg = Ok r.
Proof.
  intros Hk Hz Hwf. unfold assign_balanced_batch. destruct (balance_disabled m); [eauto|].
  rewrite Hz. destruct (match lens with Some l => Some l | None => _ end) as [l|]; [|eauto].
  destruct (_ <? _)%Z eqn:E; [eauto|].
  set (gids := match pg with Some v => Some v | None => _ end) in *.
  destruct gids as [g|] eqn:Eg.
  - unfold assign_whole_groups. destruct (id_groups _ _) as [gs|] eqn:Ei; [|eauto].
    apply id_groups_partition in Ei as [Hp Hne]; [|done].
    rewrite (mapM_ok _ (load_of ((fun len => len * len)%Z <$> l))).
    2:{ intros x Hx. apply group_sum_ok, Forall_forall. intros r Hr. by eapply is_partition_lt. }
    simpl. destruct (assign_zorro_groups _ _ _ _) as [r|e] eqn:Ez; [simpl; eauto|].
    apply assign_zorro_groups_errors in Ez as [msg ->]; [simpl; eauto|done|by rewrite length_fmap|done].
  - destruct (assign_row_lpt_ok ((fun len => len * len)%Z <$> l) k) as (a' & Ha & _).
    { rewrite length_fmap. lia. }
    rewrite Ha. simpl. eauto.
Qed.

Lemma assign_balanced_batch_total_witness :
  exists r, assign_balanced_batch 2 [] None None (Some [4; 3; 2]%Z)
    (Some (MTensor (mk_tensor [3] [5; 5; 6]%Z))) = Ok r.
Proof.
  apply (assign_balanced_batch_total 2 [] None None (Some [4; 3; 2]%Z)
           (Some (MTensor (mk_tensor [3] [5; 5; 6]%Z)))); [lia|reflexivity|reflexivity].
Defined.

(** ** Client stamps *)

Lemma seq_sorted a n : StronglySorted Nat.le (seq a n).
Proof.
  revert a; induction n as [|n IH]; intros a; simpl; constructor; [apply IH|].
  apply Forall_forall. intros x Hx%elem_of_seq. lia.
Qed.

Lemma filter_sorted {A} (R : A -> A -> Prop) (P : A -> Prop) `{!forall x, Decision (P x)} (l : list A) :
  StronglySorted R l -> StronglySorted R (filter P l).
Proof.
  induction 1 as [|x l Hl IH Hx]; [constructor|]. rewrite filter_cons. case_decide; [|done].
  constructor; [done|]. apply Forall_forall. intros y [_ Hy]%list_elem_of_filter.
  rewrite Forall_forall in Hx. auto.
Qed.

(** The rows of one block id are the block's consecutive rows. *)
Lemma rows_with_block w rows b :
  0 < w -> rows mod w = 0 -> b < rows / w ->
  rows_with ((fun i => Z.of_nat (i / w)) <$> seq 0 rows) (Z.of_nat b) = seq (b * w) w.
Proof.
  intros Hw Hmod Hb. set (keys := _ <$> seq 0 rows).
  assert (Hrows : rows = w * (rows / w)) by (rewrite (Nat.div_mod rows w) at 1 by lia; lia).
  apply (StronglySorted_unique_strong Nat.le).
  - intros x y _ _ ??. lia.
  - apply filter_sorted, seq_sorted.
  - apply seq_sorted.
  - apply NoDup_Permutation; [apply NoDup_filter, NoDup_seq|apply NoDup_seq|].
    intros i. rewrite rows_with_elem, elem_of_seq. unfold keys.
    rewrite list_lookup_fmap. destruct (decide (i < rows)) as [Hi|Hi].
    + rewrite lookup_seq_lt by done. simpl. pose proof (Nat.div_mod i w ltac:(lia)) as Hd.
      pose proof (Nat.mod_upper_bound i w ltac:(lia)). split.
      * intros [= Heq]. assert (i / w = b) by lia. nia.
      * intros [H1 H2]. f_equal. f_equal. symmetry. apply (Nat.div_unique i w b (i - b * w)); lia.
    + rewrite lookup_seq_ge by lia. split; [done|]. intros [H1 H2]. nia.
Qed.

Lemma blocks_share_rows_spec rows w b i j :
  0 < w -> length rows mod w = 0 -> blocks_share_rows rows w = true -> b < length rows / w ->
  i ∈ seq (b * w) w -> j ∈ seq (b * w) w -> rows !! i = rows !! j.
Proof.
  intros Hw Hmod H Hb Hi%elem_of_seq Hj%elem_of_seq.
  assert (Hrows : length rows = w * (length rows / w))
    by (rewrite (Nat.div_mod (length rows) w) at 1 by lia; lia).
  unfold blocks_share_rows in H. rewrite forallb_forall in H.
  specialize (H (chunk w rows b)).
  assert (Hat : forall x, b * w <= x < b * w + w -> rows !! x = chunk w rows b !! (x - b * w)).
  { intros x Hx. unfold chunk. rewrite lookup_take_lt, lookup_drop by lia. f_equal. lia. }
  rewrite !Hat by done.
  assert (Hl : length (chunk w rows b) = w) by (apply length_chunk; nia).
  destruct (chunk w rows b) as [|r rest] eqn:Ec; [simpl in Hl; lia|].
  rewrite forallb_forall in H.
  assert (Hall : forall x y, (r :: rest) !! x = Some y -> y = r).
  { intros [|x] y Hy; simpl in Hy; [congruence|].
    symmetry. apply (bool_decide_eq_true_1 (r = y)), H; [|apply list_elem_of_In; by eapply list_elem_of_lookup_2].
    rewrite <- Ec. apply list_elem_of_In, list_elem_of_lookup. exists b. by apply chunks_lookup. }
  destruct (lookup_lt_is_Some_2 (r :: rest) (i - b * w)) as [y Hy]; [lia|].
  destruct (lookup_lt_is_Some_2 (r :: rest) (j - b * w)) as [z Hz]; [lia|].
  rewrite Hy, Hz. by rewrite (Hall _ _ Hy), (Hall _ _ Hz).
Qed.

(** Group ids that [stamp_client_balance] writes for a balanced ZoRRo request describe
    real rollout blocks: grouping the rows by them, as the server does, gives groups of
    exactly [rollout_n] consecutive rows whose prompt rows are identical. *)
Theorem stamp_client_balance_groups m w p l m' ids gs :
  ndim p = 2 ->
  stamp_client_balance m true true (Some (MInt w)) (Some p) None l = Ok m' ->
  dict_get m' "prompt_group_ids" = Some (MTensor ids) ->
  id_groups (Some (MTensor ids)) (dim p 0) = Some gs ->
  is_partition gs (dim p 0) /\
  Forall (fun g => exists b, g = seq (b * Z.to_nat w) (Z.to_nat w) /\
            forall i j, i ∈ g -> j ∈ g -> rows2 p !! i = rows2 p !! j) gs.
Proof.
  intros Hnd H Hids Hgs. unfold stamp_client_balance in H. simpl in H. rewrite Hnd in H. simpl in H.
  unfold stamp_balance_meta, rollout_prompt_group_ids in H. rewrite Hnd in H. simpl in H.
  assert (Habsent : forall m0, dict_get (dict_set (dict_del m0 "prompt_group_ids") "balance_batch"
                      (MBool true)) "prompt_group_ids" = None).
  { intros m0. rewrite dict_get_set_ne by done. apply dict_get_del_eq. }
  destruct ((w <? 1)%Z || _) eqn:E1; simpl in H.
  { injection H as <-. by rewrite Habsent in Hids. }
  rewrite Nat.eqb_refl in H. simpl in H. destruct (blocks_share_rows _ _) eqn:E2; simpl in H.
  2:{ injection H as <-. by rewrite Habsent in Hids. }
  injection H as <-. rewrite dict_get_set_eq in Hids. injection Hids as <-.
  unfold id_groups in Hgs. simpl in Hgs. unfold dim in Hgs at 1. simpl in Hgs.
  rewrite Nat.eqb_refl in Hgs. injection Hgs as <-.
  set (keys := _ <$> _). destruct (first_seen_groups_spec keys) as [Hp Hf].
  assert (Hlen : length keys = dim p 0) by (unfold keys; by rewrite length_fmap, length_seq).
  rewrite Hlen in Hp. split; [done|]. eapply Forall_impl; [exact Hf|]. intros g (Hg & key & ->).
  destruct (rows_with keys key) as [|i0 ?] eqn:Eg; [done|]. rewrite <- Eg in *.
  assert (Hi0 : i0 ∈ rows_with keys key) by (rewrite Eg; set_solver).
  apply rows_with_elem in Hi0. unfold keys in Hi0. apply list_lookup_fmap_Some in Hi0 as (i & -> & Hi).
  apply lookup_seq in Hi as [-> Hi]. simpl in *. apply orb_false_iff in E1 as [Ew Em].
  assert (Hb : i0 / Z.to_nat w < dim p 0 / Z.to_nat w).
  { apply Nat.Div0.div_lt_upper_bound.
    rewrite (Nat.div_mod (dim p 0) (Z.to_nat w)) in Hi by lia. lia. }
  exists (i0 / Z.to_nat w). unfold keys. rewrite rows_with_block by lia. split; [done|].
  intros i j. assert (Hr : length (rows2 p) = dim p 0) by (unfold rows2; apply length_chunks).
  apply (blocks_share_rows_spec (rows2 p)); rewrite ?Hr; lia || done.
Qed.

Lemma stamp_client_balance_witness :
  let p := of_rows2 1 [[7]; [7]; [8]; [8]]%Z in
  is_partition [[0; 1]; [2; 3]] 4 /\
  Forall (fun g => exists b, g = seq (b * 2) 2 /\
            forall i j, i ∈ g -> j ∈ g -> rows2 p !! i = rows2 p !! j) [[0; 1]; [2; 3]].
Proof.
  apply (stamp_client_balance_groups [] 2 (of_rows2 1 [[7]; [7]; [8]; [8]]%Z) None
           [("balance_batch", MBool true); ("prompt_group_ids", MTensor (mk_tensor [4] [0; 0; 1; 1]%Z))]
           (mk_tensor [4] [0; 0; 1; 1]%Z) [[0; 1]; [2; 3]]); vm_compute; reflexivity.
Defined.
