(* ===== verification/SeqlenBalance.v ===== *)
(** * Sequence-length balancing ([rl/zorro_train/seqlen_balancing.py])

    The Karmarkar-Karp differencing method over [k] sets, the greedy fallback, the checked
    entry point [get_seqlen_balanced_partitions], prompt grouping and deduplicated costs,
    and the plan of [rearrange_micro_batches_with_dedup]: how many micro-batches, which
    prompt group goes to which, and the row order that undoes it.

    The theorems: for non-negative lengths and at least as many items as partitions the
    entry point never trips one of its assertions, its partitions cover every index once,
    are non-empty and sorted, have equal sizes on request, and their sums differ by at most
    the largest item; [create_prompt_groups] agrees with the server's [prompt_groups]; a
    micro-batch plan keeps every prompt group in one micro-batch and every row exactly
    once, and [get_reverse_idx] inverts its row order. *)

From S2P Require Import Prelude Dict Tensor Groups Balance.
From stdpp Require Import prelude gmap strings list sorting.
From Stdlib Require Import ZArith Lia ZifyNat ZifyBool.

(** ** The priority queue

    [heapq] keeps its heap in a list.  The balancing code only relies on the documented
    contract: a push adds one element, a pop removes a smallest one. *)

Class Heapq := {
  heappush : forall {A}, (A -> A -> bool) -> list A -> A -> list A;
  heappop : forall {A}, (A -> A -> bool) -> list A -> option (A * list A);
  is_heap : forall {A}, (A -> A -> bool) -> list A -> Prop;
  heappush_perm : forall A lt (h : list A) x, heappush lt h x ≡ₚ x :: h;
  heappush_heap : forall A lt (h : list A) x, StrictWeak lt -> is_heap lt h -> is_heap lt (heappush lt h x);
  heappop_perm : forall A lt (h : list A) x h', heappop lt h = Some (x, h') -> h ≡ₚ x :: h';
  heappop_some : forall A lt (h : list A), h <> [] -> is_Some (heappop lt h);
  heappop_min : forall A lt (h : list A) x h', StrictWeak lt -> is_heap lt h ->
    heappop lt h = Some (x, h') -> Forall (fun y => lt y x = false) h' /\ is_heap lt h';
}.

(** The executable instance: a list kept in ascending order. *)
#[export, refine] Instance sorted_heapq : Heapq := {
  heappush A lt h x := py_insert lt x h;
  heappop A lt h := match h with [] => None | x :: h' => Some (x, h') end;
  is_heap A lt h := StronglySorted (fun x y => lt y x = false) h;
  heappush_perm := _; heappush_heap := _; heappop_perm := _; heappop_some := _; heappop_min := _;
}.
Proof.
  - intros. apply py_insert_perm.
  - intros A lt h x Hsw Hs. by apply py_insert_sorted.
  - intros A lt [|y h] x h' H; by simplify_eq.
  - intros A lt [|y h] H; [done|eauto].
  - intros A lt [|y h] x h' Hsw Hs H; simplify_eq. inversion Hs; by subst.
Defined.

(** ** Karmarkar-Karp *)

Record kset := KSet { ks_sum : Z; ks_items : list (nat * Z) }.

Definition kset_empty : kset := KSet 0 [].
Definition kset_add (s : kset) (idx : nat) (val : Z) : kset :=
  KSet (ks_sum s + val) (ks_items s ++ [(idx, val)]).
Definition kset_merge (s other : kset) : kset :=
  fold_left (fun s '(idx, val) => kset_add s idx val) (ks_items other) s.

(** [Set.__lt__]: sum, then number of items, then the items themselves. *)
Definition kset_lt : kset -> kset -> bool :=
  by_key (fun s => (ks_sum s, (length (ks_items s), ks_items s)))
    (lex_pair Z.ltb (lex_pair Nat.ltb (lex_list (lex_pair Nat.ltb Z.ltb)))).

(** [sorted(self.sets, reverse=True)]. *)
Definition sort_sets (sets : list kset) : list kset := py_sorted (rev_order kset_lt) sets.

Abbreviation kstate := (list kset).

(** [State(items, k)]. *)
Definition mk_state (items : list (nat * Z)) (k : nat) : res kstate :=
  _ ← check ((length items =? 1) || (length items =? k)) (AssertionError "len(items) not in [1, k]");
  _ ← check (length items <=? k) (IndexError "list index out of range");
  Ok (sort_sets (((fun '(idx, val) => kset_add kset_empty idx val) <$> items) ++
                 replicate (k - length items) kset_empty)).

(** [State.merge]: largest with smallest. *)
Definition state_merge (s other : kstate) : kstate :=
  sort_sets (zip_with kset_merge s (reverse other)).

Definition spread (s : kstate) : Z :=
  match s, last s with
  | first :: _, Some final => ks_sum first - ks_sum final
  | _, _ => 0
  end.

Definition first_set (s : kstate) : kset := default kset_empty (head s).

(** [State.__lt__]: larger spread first, then larger first set. *)
Definition kstate_lt (s other : kstate) : bool :=
  if (spread s =? spread other)%Z then kset_lt (first_set other) (first_set s)
  else (spread other <? spread s)%Z.

Definition get_partitions (s : kstate) : list (list nat) := (fun set => (ks_items set).*1) <$> s.

Section kk.
Context `{!Heapq}.

Definition push_state (pq : list kstate) (items : list (nat * Z)) (k : nat) : res (list kstate) :=
  s ← mk_state items k; Ok (heappush kstate_lt pq s).

(** The [while len(states_pq) > 1] loop; every round shortens the queue by one. *)
Fixpoint kk_loop (fuel : nat) (pq : list kstate) : option (list kstate) :=
  match fuel with
  | 0 => None
  | S fuel =>
      if length pq <=? 1 then Some pq
      else
        match heappop kstate_lt pq with
        | None => None
        | Some (state0, pq) =>
            match heappop kstate_lt pq with
            | None => None
            | Some (state1, pq) => kk_loop fuel (heappush kstate_lt pq (state_merge state0 state1))
            end
        end
  end.

(** [sorted([(seqlen, i) ...])], as the [(idx, seqlen)] items the states hold. *)
Definition sorted_items (seqlen_list : list Z) : list (nat * Z) :=
  (fun '(seqlen, idx) => (idx, seqlen)) <$>
    py_sorted (lex_pair Z.ltb Nat.ltb) (imap (fun i seqlen => (seqlen, i)) seqlen_list).

Definition equal_sizes (partitions : list (list nat)) (k n : nat) : bool :=
  forallb (fun p : list nat => length p * k =? n) partitions.

Definition karmarkar_karp (seqlen_list : list Z) (k : nat) (equal_size : bool) : res (list (list nat)) :=
  let items := sorted_items seqlen_list in
  let n := length seqlen_list in
  pq ← (if equal_size then
          if k =? 0 then Raise ZeroDivisionError
          else
            _ ← check (n mod k =? 0) (AssertionError "len(seqlen_list) % k_partitions != 0");
            foldM (fun pq chunk => push_state pq chunk k) [] (chunks k (n / k) items)
        else foldM (fun pq item => push_state pq [item] k) [] items);
  match kk_loop (S (length pq)) pq with
  | None => Raise (RuntimeError "out of fuel")
  | Some pq =>
      final_state ← at_index pq 0;
      let partitions := get_partitions final_state in
      _ ← check (negb equal_size || equal_sizes partitions k n)
            (AssertionError "len(partition) * k_partitions != len(seqlen_list)");
      Ok partitions
  end.

(** [_check_and_sort_partitions]. *)
Definition check_and_sort_partitions (n k : nat) (partitions : list (list nat)) : res (list (list nat)) :=
  _ ← check (length partitions =? k) (AssertionError "len(partitions) != k_partitions");
  _ ← check (forallb (fun p : list nat => 0 <? length p) partitions) (AssertionError "partition is empty");
  _ ← check (bool_decide (list_to_set (concat partitions) =@{gset nat} list_to_set (seq 0 n)))
        (AssertionError "seen_idx == set(range(len(seqlen_list)))");
  Ok (py_sorted Nat.ltb <$> partitions).

Definition get_seqlen_balanced_partitions (seqlen_list : list Z) (k : nat) (equal_size : bool) :
    res (list (list nat)) :=
  _ ← check (k <=? length seqlen_list) (AssertionError "number of items < k_partitions");
  partitions ← karmarkar_karp seqlen_list k equal_size;
  check_and_sort_partitions (length seqlen_list) k partitions.
End kk.

(** ** Greedy partitioning *)

(** The scan for the first partition with the smallest sum. *)
Definition min_partition (sums : list Z) : option nat :=
  py_min (by_key (len_of sums) Z.ltb) (seq 0 (length sums)).

Definition greedy_step (st : list (list nat) * list Z) (item : Z * nat) : res (list (list nat) * list Z) :=
  let '(partitions, sums) := st in
  let '(seqlen, i) := item in
  match min_partition sums with
  | None => Raise (TypeError "list indices must be integers, not NoneType")
  | Some j => Ok (append_at j i partitions, alter (fun s => s + seqlen)%Z j sums)
  end.

Definition greedy_partition (seqlen_list : list Z) (k : nat) (equal_size : bool) : res (list (list nat)) :=
  let bias := if equal_size then (sumZ seqlen_list + 1)%Z else 0%Z in
  let sorted_seqlen := imap (fun i seqlen => ((seqlen + bias)%Z, i)) seqlen_list in
  '(partitions, _) ← foldM greedy_step (replicate k [], replicate k 0%Z) sorted_seqlen;
  _ ← check (negb equal_size || equal_sizes partitions k (length seqlen_list))
        (AssertionError "len(partition) * k_partitions != len(seqlen_list)");
  Ok partitions.

(** ** Micro-batches of whole prompt groups *)

Definition ceildiv (a b : Z) : res Z :=
  if (b =? 0)%Z then Raise ZeroDivisionError else Ok (- (a / - b))%Z.
Definition roundup_divisible (a b : Z) : res Z :=
  if (b =? 0)%Z then Raise ZeroDivisionError else Ok ((a + b - 1) / b * b)%Z.

(** The stop of a slice [row[:stop]] of a row of width [w]. *)
Definition py_stop (w : nat) (stop : Z) : nat :=
  Z.to_nat (if (stop <? 0)%Z then Z.max 0 (Z.of_nat w + stop) else Z.min stop (Z.of_nat w)).

(** [reverse_idx_map[idx] = i] over a copy of [idx_map]. *)
Definition get_reverse_idx (idx_map : list nat) : res (list nat) :=
  foldM (fun acc '(i, idx) =>
           if idx <? length acc then Ok (<[idx := i]> acc)
           else Raise (IndexError "list assignment index out of range"))
    idx_map (imap pair idx_map).

(** One group of [compute_group_costs]: its cost and its token count.  Every caller leaves
    [quadratic_coeff] at its default [0]; fractional coefficients are not modelled. *)
Definition group_cost (rows : list (list Z)) (prompt_len : Z) (quadratic_coeff : Z) (group : list nat) :
    res (Z * Z) :=
  first ← at_index group 0;
  first_row ← at_index rows first;
  let stop := fun row : list Z => py_stop (length row) prompt_len in
  let prompt_tokens := sumZ (take (stop first_row) first_row) in
  responses ← mapM (fun idx => row ← at_index rows idx; Ok (sumZ (drop (stop row) row))) group;
  let quadratic := (prompt_tokens * prompt_tokens + sumZ ((fun r => (prompt_tokens + r) * r) <$> responses))%Z in
  let linear := (prompt_tokens + sumZ responses)%Z in
  Ok ((quadratic_coeff * quadratic + (1 - quadratic_coeff) * linear)%Z, linear).

Definition compute_group_costs (rows : list (list Z)) (prompt_groups : list (list nat))
    (prompt_len quadratic_coeff : Z) : res (list (Z * list nat) * Z) :=
  _ ← check ((0 <=? quadratic_coeff)%Z && (quadratic_coeff <=? 1)%Z)
        (ValueError "quadratic_coeff value needs to be between 0 and 1");
  costs ← mapM (fun group => ct ← group_cost rows prompt_len quadratic_coeff group; Ok (ct, group)) prompt_groups;
  Ok ((fun '((cost, _), group) => (cost, group)) <$> costs,
      sumZ ((fun '((_, tokens), _) => tokens) <$> costs)).

(** [group[i : min(i + threshold, len(group))] for i in range(0, len(group), threshold)]. *)
Definition split_prompt_group (threshold : nat) (group : list nat) : list (list nat) :=
  (fun j => let i := j * threshold in
            let end_idx := min (i + threshold) (length group) in
            take (end_idx - i) (drop i group))
    <$> seq 0 ((length group + threshold - 1) / threshold).

Definition create_prompt_groups (input_ids : tensor) (response_length max_token_len : Z)
    (max_group_length_threshold : option Z) : res (list (list nat)) :=
  _ ← check (ndim input_ids =? 2) (ValueError "too many values to unpack");
  let seq_len := dim input_ids 1 in
  let prompt_len := (Z.of_nat seq_len - response_length)%Z in
  let prompts := take (py_stop seq_len prompt_len) <$> rows2 input_ids in
  let prompt_groups := first_seen_groups prompts in
  match prompt_groups, max_group_length_threshold with
  | _ :: _, Some threshold =>
      if (0 <? threshold)%Z then
        if (max_token_len <? prompt_len + response_length * threshold)%Z then
          Raise (ValueError "max_token_len is smaller than max_token_len_effective")
        else
          let t := Z.to_nat threshold in
          if existsb (fun group : list nat => t <? length group) prompt_groups then
            Ok (concat ((fun group : list nat =>
                   if t <? length group then split_prompt_group t group else [group]) <$> prompt_groups))
          else Ok prompt_groups
      else Ok prompt_groups
  | _, _ => Ok prompt_groups
  end.

(** What [torch.distributed] contributes when it is initialised: every rank's group count,
    and the maximum over the data-parallel group. *)
Record dist_env := { all_gather_counts : nat -> list nat; all_reduce_max : Z -> Z }.

(** [len(set(counts)) == 1]. *)
Definition one_count (counts : list nat) : bool :=
  match counts with [] => false | c :: rest => forallb (Nat.eqb c) rest end.

(** One round of the greedy bin packing: [min(range(n), key=micro_batch_costs)]. *)
Definition bin_step (st : list (list (list nat)) * list Z) (item : Z * list nat) :
    res (list (list (list nat)) * list Z) :=
  let '(bins, costs) := st in
  let '(cost, group) := item in
  match min_partition costs with
  | None => Raise (ValueError "min() iterable argument is empty")
  | Some i => Ok (append_at i group bins, alter (fun c => c + cost)%Z i costs)
  end.

(** Steps 1 to 4 and the index lists of step 5: the prompt groups of the batch, the number
    of micro-batches, the bins in descending cost order and the sorted rows of each
    non-empty bin. *)
Definition micro_batch_indices (input_ids attention_mask : tensor)
    (response_length max_token_len : Z) (dist : option dist_env) (same_micro_num_in_dp : bool)
    (num_batches_divided_by min_num_micro_batch max_group_length_threshold : option Z) :
    res (list (list nat)) :=
  _ ← check (ndim attention_mask =? 2) (ValueError "attention_mask of shape [bs, seqlen] is required");
  groups ← create_prompt_groups input_ids response_length max_token_len max_group_length_threshold;
  let prompt_len := (Z.of_nat (dim input_ids 1) - response_length)%Z in
  _ ← (match dist with
       | Some d => check (one_count (all_gather_counts d (length groups)))
                     (AssertionError "Number of prompt_groups must be the same across all ranks")
       | None => Ok ()
       end);
  '(group_costs, total_dedup_tokens) ← compute_group_costs (rows2 attention_mask) groups prompt_len 0;
  needed ← ceildiv total_dedup_tokens max_token_len;
  let num := Z.min (Z.of_nat (length groups)) needed in
  let num := match min_num_micro_batch with Some m => Z.max m num | None => num end in
  let num := match dist with
             | Some d => if same_micro_num_in_dp then all_reduce_max d num else num
             | None => num
             end in
  num ← (match num_batches_divided_by with Some d => roundup_divisible num d | None => Ok num end);
  let sorted_costs := py_sorted (rev_order (by_key fst Z.ltb)) group_costs in
  '(bins, costs) ← foldM bin_step (replicate (Z.to_nat num) [], replicate (Z.to_nat num) 0%Z) sorted_costs;
  match py_sorted (rev_order (lex_pair Z.ltb (lex_list (lex_list Nat.ltb)))) (zip costs bins) with
  | [] => Raise (ValueError "not enough values to unpack")
  | sorted_bins =>
      Ok ((fun '(_, bin) => py_sorted Nat.ltb (concat bin)) <$>
            filter (fun cb : Z * list (list nat) => cb.2 <> []) sorted_bins)
  end.

(** ** Sets and states *)

#[export] Instance kset_lt_sw : StrictWeak kset_lt.
Proof. unfold kset_lt. apply _. Qed.

Lemma kset_merge_eq s o :
  kset_merge s o = KSet (ks_sum s + sumZ (ks_items o).*2) (ks_items s ++ ks_items o).
Proof.
  unfold kset_merge. generalize (ks_items o). intros l. revert s.
  induction l as [|[idx val] l IH]; intros s; csimpl.
  - rewrite Z.add_0_r, app_nil_r. by destruct s.
  - rewrite IH. simpl. rewrite <- app_assoc. simpl. f_equal. lia.
Qed.

Section states.
Context (k : nat).

(** A set whose sum is right and whose items are not negative. *)
Definition set_ok (s : kset) : Prop :=
  ks_sum s = sumZ (ks_items s).*2 /\ Forall (fun it => 0 <= it.2)%Z (ks_items s).

(** A state holds [k] sets in descending order. *)
Definition state_ok (s : kstate) : Prop :=
  length s = k /\ Forall set_ok s /\ StronglySorted (fun x y => kset_lt x y = false) s.

Definition state_items (s : kstate) : list (nat * Z) := concat (ks_items <$> s).
Definition is_filled (x : kset) : bool := match ks_items x with [] => false | _ => true end.
Definition count_true (l : list bool) : nat := length (filter (fun b => b = true) l).
Definition filled (s : kstate) : nat := count_true (is_filled <$> s).
Definition balanced (M : Z) (s : kstate) : Prop :=
  forall x y, x ∈ s -> y ∈ s -> (ks_sum x - ks_sum y <= M)%Z.
Definition uniform (s : kstate) : Prop := exists L, Forall (fun x => length (ks_items x) = L) s.

Lemma set_ok_nonneg s : set_ok s -> (0 <= ks_sum s)%Z.
Proof. intros [-> H]. apply sumZ_nonneg. by apply Forall_fmap. Qed.

Lemma set_ok_merge x y : set_ok x -> set_ok y -> set_ok (kset_merge x y).
Proof.
  intros [Hx1 Hx2] [Hy1 Hy2]. rewrite kset_merge_eq. split; simpl.
  - rewrite fmap_app, sumZ_app. lia.
  - by apply Forall_app.
Qed.

Lemma sort_sets_perm s : sort_sets s ≡ₚ s.
Proof. apply py_sorted_perm. Qed.

Lemma sort_sets_sorted s : StronglySorted (fun x y => kset_lt x y = false) (sort_sets s).
Proof. unfold sort_sets. apply (py_sorted_sorted (rev_order kset_lt)). Qed.

Lemma count_true_perm l l' : l ≡ₚ l' -> count_true l = count_true l'.
Proof. intros H. unfold count_true. by rewrite H. Qed.

Lemma count_true_app l l' : count_true (l ++ l') = count_true l + count_true l'.
Proof. unfold count_true. by rewrite filter_app, length_app. Qed.

Lemma count_true_replicate n b : count_true (replicate n b) = if b then n else 0.
Proof.
  induction n as [|n IH]; simpl; [by destruct b|]. unfold count_true in *. rewrite filter_cons.
  destruct b; simpl in *; [by rewrite IH|done].
Qed.

(** In a sorted state the empty sets come last. *)
Lemma filled_prefix s :
  Forall set_ok s -> StronglySorted (fun x y => kset_lt x y = false) s ->
  is_filled <$> s = replicate (filled s) true ++ replicate (length s - filled s) false.
Proof.
  intros Hok Hs. induction Hs as [|x s Hs IH Hx]; [done|].
  apply Forall_cons in Hok as [Hokx Hok]. specialize (IH Hok). csimpl.
  destruct (is_filled x) eqn:E.
  - assert (filled (x :: s) = S (filled s)) as ->.
    { unfold filled, count_true. csimpl. rewrite filter_cons, E, decide_True by done. done. }
    simpl. by rewrite IH at 1.
  - assert (Hempty : forall y, y ∈ s -> is_filled y = false).
    { intros y Hy. rewrite Forall_forall in Hx, Hok. specialize (Hx y Hy). specialize (Hok y Hy).
      apply set_ok_nonneg in Hok. destruct Hokx as [Hsum _]. unfold is_filled in *.
      destruct (ks_items x) as [|] eqn:Ex; [|done]. destruct (ks_items y) as [|] eqn:Ey; [done|].
      exfalso. unfold kset_lt, by_key, lex_pair in Hx. rewrite Ex, Ey in Hx. simpl in Hx, Hsum.
      rewrite Hsum in Hx. destruct (Z.ltb_spec 0 (ks_sum y)); simpl in Hx; [done|].
      destruct (Z.ltb_spec (ks_sum y) 0); simpl in Hx; [lia|done]. }
    assert (Hmap : is_filled <$> s = replicate (length s) false).
    { clear -Hempty. induction s as [|y s IH]; csimpl; [done|].
      rewrite (Hempty y) by set_solver. f_equal. apply IH. set_solver. }
    assert (filled (x :: s) = 0) as ->.
    { unfold filled. csimpl. rewrite E, Hmap.
      change (false :: replicate (length s) false) with (replicate (S (length s)) false).
      by rewrite count_true_replicate. }
    simpl. by rewrite Hmap.
Qed.

Lemma is_filled_merge x y : is_filled (kset_merge x y) = is_filled x || is_filled y.
Proof.
  rewrite kset_merge_eq. unfold is_filled. simpl. by destruct (ks_items x); simpl; [destruct (ks_items y)|].
Qed.

Lemma zip_orb p q : p <= k -> q <= k ->
  count_true (zip_with orb (replicate p true ++ replicate (k - p) false)
                           (replicate (k - q) false ++ replicate q true)) = min k (p + q).
Proof.
  intros Hp Hq. destruct (decide (p + q <= k)) as [Hle|Hgt].
  - transitivity (count_true (zip_with orb
      (replicate p true ++ replicate (k - p - q) false ++ replicate q false)
      (replicate p false ++ replicate (k - p - q) false ++ replicate q true))).
    { rewrite <- !replicate_add, app_assoc, <- replicate_add.
      by replace (k - p - q + q) with (k - p) by lia; replace (p + (k - p - q)) with (k - q) by lia. }
    rewrite !zip_with_app, !zip_with_replicate by (by rewrite !length_replicate).
    rewrite !count_true_app, !count_true_replicate. simpl. lia.
  - transitivity (count_true (zip_with orb
      (replicate (k - q) true ++ replicate (p + q - k) true ++ replicate (k - p) false)
      (replicate (k - q) false ++ replicate (p + q - k) true ++ replicate (k - p) true))).
    { rewrite <- !replicate_add, app_assoc, <- replicate_add.
      by replace (p + q - k + (k - p)) with q by lia; replace (k - q + (p + q - k)) with p by lia. }
    rewrite !zip_with_app, !zip_with_replicate by (by rewrite !length_replicate).
    rewrite !count_true_app, !count_true_replicate. simpl. lia.
Qed.

Lemma count_true_le l : count_true l <= length l.
Proof. unfold count_true. apply length_filter. Qed.

Lemma filled_le s : filled s <= length s.
Proof. unfold filled. etrans; [apply count_true_le|]. by rewrite length_fmap. Qed.

(** Merging fills as many sets as both states filled together, up to [k]. *)
Lemma filled_merge s o : state_ok s -> state_ok o -> filled (state_merge s o) = min k (filled s + filled o).
Proof.
  intros (Hs1 & Hs2 & Hs3) (Ho1 & Ho2 & Ho3). unfold state_merge, filled at 1.
  rewrite (count_true_perm _ _ (fmap_Permutation _ _ _ (sort_sets_perm _))).
  assert (Heq : is_filled <$> zip_with kset_merge s (reverse o) =
                zip_with orb (is_filled <$> s) (reverse (is_filled <$> o))).
  { rewrite <- fmap_reverse. generalize (reverse o). clear.
    induction s as [|x s IH]; intros [|y o]; csimpl; [done..|]. by rewrite is_filled_merge, IH. }
  rewrite Heq, (filled_prefix s), (filled_prefix o) by done.
  rewrite reverse_app, !reverse_replicate, Hs1, Ho1.
  apply zip_orb; [rewrite <- Hs1|rewrite <- Ho1]; apply filled_le.
Qed.

Lemma state_merge_ok s o : state_ok s -> state_ok o -> state_ok (state_merge s o).
Proof.
  intros (Hs1 & Hs2 & Hs3) (Ho1 & Ho2 & Ho3). unfold state_merge. split_and!.
  - rewrite sort_sets_perm, length_zip_with, length_reverse. lia.
  - rewrite sort_sets_perm. apply Forall_forall. intros x Hx. apply elem_of_zip_with in Hx as (y & z & -> & Hy & Hz).
    rewrite elem_of_reverse in Hz. rewrite Forall_forall in Hs2, Ho2. apply set_ok_merge; auto.
  - apply sort_sets_sorted.
Qed.
End states.

Lemma state_items_perm s s' : s ≡ₚ s' -> state_items s ≡ₚ state_items s'.
Proof. intros H. unfold state_items. by rewrite H. Qed.

Lemma state_merge_items k s o :
  length s = k -> length o = k -> state_items (state_merge s o) ≡ₚ state_items s ++ state_items o.
Proof.
  intros Hs Ho. unfold state_merge. rewrite (state_items_perm _ _ (sort_sets_perm _)).
  rewrite <- (state_items_perm _ _ (reverse_Permutation o)).
  assert (Hlen : length s = length (reverse o)) by (rewrite length_reverse; lia).
  revert Hlen. generalize (reverse o). clear. unfold state_items.
  induction s as [|x s IH]; intros [|y o]; csimpl; try done; intros Hlen.
  rewrite kset_merge_eq. simpl. rewrite IH by lia. rewrite <- !app_assoc. f_equiv.
  rewrite !app_assoc. f_equiv. by rewrite Permutation_app_comm.
Qed.

Lemma sorted_sums s i j x y :
  StronglySorted (fun x y => kset_lt x y = false) s -> i <= j ->
  s !! i = Some x -> s !! j = Some y -> (ks_sum y <= ks_sum x)%Z.
Proof.
  intros Hs Hij Hi Hj. destruct (decide (i = j)) as [->|Hne]; [simplify_eq; lia|].
  assert (Hlt : kset_lt x y = false).
  { revert i j Hij Hne Hi Hj. induction Hs as [|z s Hs IH Hz]; intros [|i] [|j]; simpl; intros; simplify_eq/=.
    - rewrite Forall_forall in Hz. apply Hz. by eapply list_elem_of_lookup_2.
    - lia.
    - apply (IH i j); [lia..|done|done]. }
  unfold kset_lt, by_key, lex_pair in Hlt. simpl in Hlt. apply orb_false_iff in Hlt as [Hlt _]. lia.
Qed.

(** Pairing the largest set with the smallest never widens the larger spread. *)
Lemma balanced_merge k M s o :
  state_ok k s -> state_ok k o -> balanced M s -> balanced M o -> balanced M (state_merge s o).
Proof.
  intros (Hs1 & Hs2 & Hs3) (Ho1 & Ho2 & Ho3) Hb Hc.
  intros x y Hx Hy. unfold state_merge in Hx, Hy. rewrite sort_sets_perm in Hx, Hy.
  apply list_elem_of_lookup in Hx as [i Hi], Hy as [j Hj].
  apply lookup_zip_with_Some in Hi as (a & c & -> & Ha & Hcc).
  apply lookup_zip_with_Some in Hj as (b & d & -> & Hbb & Hd).
  assert (Hik : i < k) by (rewrite <- Hs1; by eapply lookup_lt_Some).
  assert (Hjk : j < k) by (rewrite <- Hs1; by eapply lookup_lt_Some).
  rewrite reverse_lookup in Hcc, Hd by lia. rewrite !kset_merge_eq. simpl.
  assert (Hsum : forall n z, o !! n = Some z -> sumZ (ks_items z).*2 = ks_sum z).
  { intros n z Hz. rewrite Forall_lookup in Ho2. by destruct (Ho2 _ _ Hz) as [-> _]. }
  rewrite (Hsum _ _ Hcc), (Hsum _ _ Hd).
  assert (ks_sum a - ks_sum b <= M)%Z by (apply Hb; by eapply list_elem_of_lookup_2).
  assert (ks_sum c - ks_sum d <= M)%Z by (apply Hc; by eapply list_elem_of_lookup_2).
  destruct (decide (i <= j)) as [Hij|Hij].
  - assert (ks_sum c <= ks_sum d)%Z
      by (refine (sorted_sums o (length o - S j) (length o - S i) d c Ho3 _ Hd Hcc); lia). lia.
  - assert (ks_sum a <= ks_sum b)%Z by (refine (sorted_sums s j i b a Hs3 _ Hbb Ha); lia). lia.
Qed.

Lemma uniform_merge s o : uniform s -> uniform o -> uniform (state_merge s o).
Proof.
  intros [L1 H1] [L2 H2]. exists (L1 + L2). unfold state_merge. rewrite sort_sets_perm.
  apply Forall_forall. intros x Hx. apply elem_of_zip_with in Hx as (y & z & -> & Hy & Hz).
  rewrite elem_of_reverse in Hz. rewrite Forall_forall in H1, H2.
  rewrite kset_merge_eq. simpl. rewrite length_app, H1, H2 by done. done.
Qed.

(** ** The differencing loop *)

Section loop.
Context `{!Heapq} (P : list kstate -> Prop).
Hypothesis P_perm : forall l l', l ≡ₚ l' -> P l -> P l'.
Hypothesis P_merge : forall a b l, P (a :: b :: l) -> P (state_merge a b :: l).

(** Whatever order the queue pops in, the loop ends with one state that satisfies [P]. *)
Lemma kk_loop_ind fuel pq :
  pq <> [] -> length pq <= fuel -> P pq -> exists s, kk_loop fuel pq = Some [s] /\ P [s].
Proof.
  revert pq; induction fuel as [|fuel IH]; intros pq Hne Hlen HP; [by destruct pq; simpl in *; [|lia]|].
  simpl. destruct (length pq <=? 1) eqn:E.
  - destruct pq as [|s [|]]; simpl in *; [done| |lia]. eauto.
  - destruct (heappop_some _ kstate_lt pq Hne) as [[s0 pq1] H0]. rewrite H0.
    apply heappop_perm in H0 as Hp0. assert (Hl1 : length pq = S (length pq1)) by (by rewrite Hp0).
    destruct (heappop_some _ kstate_lt pq1) as [[s1 pq2] H1]; [destruct pq1; simpl in *; [lia|done]|].
    rewrite H1. apply heappop_perm in H1 as Hp1.
    assert (Hl2 : length pq1 = S (length pq2)) by (by rewrite Hp1).
    apply IH.
    + intros Hnil. pose proof (heappush_perm _ kstate_lt pq2 (state_merge s0 s1)) as Hpp.
      rewrite Hnil in Hpp. by apply Permutation_nil_cons in Hpp.
    + rewrite heappush_perm. simpl. lia.
    + eapply P_perm; [symmetry; apply heappush_perm|]. apply P_merge.
      eapply P_perm; [|exact HP]. by rewrite Hp0, Hp1.
Qed.
End loop.

Definition total_filled (pq : list kstate) : nat := sum_list (filled <$> pq).

Record kk_inv (k : nat) (M : Z) (equal : bool) (items : list (nat * Z)) (pq : list kstate) : Prop := {
  kk_states : Forall (state_ok k) pq;
  kk_items : concat (state_items <$> pq) ≡ₚ items;
  kk_balanced : Forall (balanced M) pq;
  kk_filled : k <= total_filled pq;
  kk_uniform : equal = true -> Forall uniform pq;
}.

Lemma sum_list_perm (l l' : list nat) : l ≡ₚ l' -> sum_list l = sum_list l'.
Proof. induction 1; simpl; lia. Qed.

Lemma kk_inv_perm k M e items l l' : l ≡ₚ l' -> kk_inv k M e items l -> kk_inv k M e items l'.
Proof.
  intros H [H1 H2 H3 H4 H5].
  assert (total_filled l = total_filled l') as Hf by (apply sum_list_perm; by rewrite H).
  split; rewrite <- ?Hf, <- ?H; done.
Qed.

Lemma kk_inv_merge k M e items a b l :
  kk_inv k M e items (a :: b :: l) -> kk_inv k M e items (state_merge a b :: l).
Proof.
  intros [H1 H2 H3 H4 H5]. apply Forall_cons in H1 as [Ha [Hb Hl]%Forall_cons].
  apply Forall_cons in H3 as [Hba [Hbb Hbl]%Forall_cons]. split.
  - constructor; [by apply state_merge_ok|done].
  - csimpl. rewrite (state_merge_items k) by (by destruct Ha as [? _]; destruct Hb as [? _]).
    rewrite <- app_assoc. done.
  - constructor; [by eapply balanced_merge|done].
  - unfold total_filled in *. csimpl in H4. csimpl. rewrite (filled_merge k) by done. lia.
  - intros He. apply H5 in He. apply Forall_cons in He as [Hua [Hub Hul]%Forall_cons].
    constructor; [by apply uniform_merge|done].
Qed.

(** ** Initial states *)

Definition init_state (k : nat) (items : list (nat * Z)) : kstate :=
  sort_sets (((fun '(idx, val) => kset_add kset_empty idx val) <$> items) ++
             replicate (k - length items) kset_empty).

Lemma mk_state_ok k items :
  (length items = 1 \/ length items = k) -> length items <= k ->
  mk_state items k = Ok (init_state k items).
Proof.
  intros H Hle. unfold mk_state, init_state.
  replace ((length items =? 1) || (length items =? k)) with true by lia.
  by replace (length items <=? k) with true by lia.
Qed.

Lemma init_state_elem k items x :
  x ∈ init_state k items -> x = kset_empty \/ exists it, it ∈ items /\ x = KSet it.2 [it].
Proof.
  unfold init_state. rewrite sort_sets_perm, elem_of_app. intros [Hx|[-> _]%elem_of_replicate]; [|by left].
  right. apply list_elem_of_fmap in Hx as ([idx val] & -> & Hin). by exists (idx, val).
Qed.

Lemma init_state_props k M items :
  length items <= k -> Forall (fun it => 0 <= it.2 <= M)%Z items -> (0 <= M)%Z ->
  state_ok k (init_state k items) /\ state_items (init_state k items) ≡ₚ items /\
  balanced M (init_state k items) /\ filled (init_state k items) = length items /\
  (length items = k -> uniform (init_state k items)).
Proof.
  intros Hle Hr HM. rewrite Forall_forall in Hr. split_and!.
  - split_and!.
    + unfold init_state. rewrite sort_sets_perm, length_app, length_fmap, length_replicate. lia.
    + apply Forall_forall. intros x [->|(it & Hit & ->)]%init_state_elem; [done|].
      split; simpl; [lia|]. constructor; [by apply Hr|done].
    + apply sort_sets_sorted.
  - unfold init_state. rewrite (state_items_perm _ _ (sort_sets_perm _)). unfold state_items.
    rewrite fmap_app, concat_app. clear.
    assert (concat (ks_items <$> replicate (k - length items) kset_empty) = []) as ->
      by (by induction (k - length items)).
    rewrite app_nil_r. induction items as [|[idx val] items IH]; csimpl; [done|]. by rewrite IH.
  - intros x y Hx Hy. apply init_state_elem in Hx as [->|(it & Hit & ->)];
      apply init_state_elem in Hy as [->|(jt & Hjt & ->)]; simpl;
      repeat match goal with H : _ ∈ items |- _ => apply Hr in H end; lia.
  - unfold filled, init_state. rewrite (count_true_perm _ _ (fmap_Permutation _ _ _ (sort_sets_perm _))).
    rewrite fmap_app, count_true_app, fmap_replicate, count_true_replicate. simpl. rewrite Nat.add_0_r.
    clear. induction items as [|[idx val] items IH]; csimpl; [done|].
    unfold count_true in *. rewrite filter_cons, decide_True by done. simpl. by rewrite IH.
  - intros Hk. exists 1. apply Forall_forall. intros x Hx. unfold init_state in Hx.
    rewrite Hk, Nat.sub_diag, sort_sets_perm in Hx. simpl in Hx. rewrite app_nil_r in Hx.
    apply list_elem_of_fmap in Hx as ([idx val] & -> & _). done.
Qed.

Lemma push_states_ok `{!Heapq} k (cs : list (list (nat * Z))) pq :
  Forall (fun c => (length c = 1 \/ length c = k) /\ length c <= k) cs ->
  exists pq', foldM (fun pq c => push_state pq c k) pq cs = Ok pq' /\ pq' ≡ₚ (init_state k <$> cs) ++ pq.
Proof.
  intros Hcs. revert pq; induction Hcs as [|c cs [Hc Hle] Hcs IH]; intros pq; simpl; [eauto|].
  unfold push_state at 2. rewrite mk_state_ok by done. simpl.
  destruct (IH (heappush kstate_lt pq (init_state k c))) as (pq' & -> & Hp).
  exists pq'. split; [done|]. rewrite Hp, heappush_perm. by rewrite <- Permutation_middle.
Qed.

(** The queue built from chunks of items satisfies the invariant. *)
Lemma kk_inv_init k M e cs :
  0 < k <= length (concat cs) -> (0 <= M)%Z ->
  Forall (fun c => length c <= k /\ (e = true -> length c = k)) cs ->
  Forall (fun it => 0 <= it.2 <= M)%Z (concat cs) ->
  kk_inv k M e (concat cs) (init_state k <$> cs).
Proof.
  intros Hk HM Hcs Hr.
  assert (Hprops : Forall (fun c => state_ok k (init_state k c) /\ state_items (init_state k c) ≡ₚ c /\
    balanced M (init_state k c) /\ filled (init_state k c) = length c /\
    (length c = k -> uniform (init_state k c))) cs).
  { apply Forall_forall. intros c Hc. rewrite Forall_forall in Hcs. destruct (Hcs c Hc) as [Hle _].
    apply init_state_props; [done| |done]. rewrite Forall_concat, Forall_forall in Hr. by apply Hr. }
  split.
  - apply Forall_fmap. eapply Forall_impl; [exact Hprops|]. by intros c (? & _).
  - clear -Hprops. induction Hprops as [|c cs (_ & Hc & _) H IH]; csimpl; [done|]. by rewrite Hc, IH.
  - apply Forall_fmap. eapply Forall_impl; [exact Hprops|]. by intros c (_ & _ & ? & _).
  - unfold total_filled. rewrite length_concat_sum in Hk.
    assert (sum_list (filled <$> (init_state k <$> cs)) = sum_list (length <$> cs)) as ->; [|lia].
    clear -Hprops. induction Hprops as [|c cs (_ & _ & _ & Hc & _) H IH]; csimpl; [done|]. by rewrite Hc, IH.
  - intros He. apply Forall_fmap. rewrite Forall_forall in Hprops, Hcs. apply Forall_forall.
    intros c Hc. simpl. destruct (Hprops c Hc) as (_ & _ & _ & _ & Hu). apply Hu. by apply Hcs.
Qed.

(** ** The balanced partitions *)

Lemma sorted_items_perm lens : sorted_items lens ≡ₚ imap pair lens.
Proof.
  unfold sorted_items. rewrite py_sorted_perm.
  match goal with |- ?l ≡ₚ ?r => assert (l = r) as ->; [|done] end.
  apply list_eq. intros i. rewrite list_lookup_fmap, !list_lookup_imap. by destruct (lens !! i).
Qed.

Lemma imap_pair_elem {A} (l : list A) i x : (i, x) ∈ imap pair l <-> l !! i = Some x.
Proof.
  rewrite list_elem_of_lookup. split.
  - intros (j & Hj). apply list_lookup_imap_Some in Hj as (y & Hy & Heq). by simplify_eq.
  - intros H. exists i. apply list_lookup_imap_Some. eauto.
Qed.

Lemma imap_pair_fst {A} (l : list A) : (imap pair l).*1 = seq 0 (length l).
Proof.
  apply list_eq. intros i. rewrite list_lookup_fmap, list_lookup_imap.
  destruct (l !! i) as [x|] eqn:E; simpl.
  - rewrite lookup_seq_lt; [done|]. by eapply lookup_lt_Some.
  - rewrite lookup_seq_ge; [done|]. by apply lookup_ge_None.
Qed.

Lemma get_partitions_concat s : concat (get_partitions s) = (state_items s).*1.
Proof.
  unfold get_partitions, state_items. induction s as [|x s IH]; csimpl; [done|].
  by rewrite fmap_app, IH.
Qed.

Lemma concat_singletons {A} (l : list A) : concat ((fun x => [x]) <$> l) = l.
Proof. induction l as [|x l IH]; csimpl; [done|]. by rewrite IH. Qed.

(** What a run of the differencing method guarantees. *)
Definition good_partitions (lens : list Z) (k : nat) (equal : bool) (M : Z) (ps : list (list nat)) : Prop :=
  is_partition ps (length lens) /\ length ps = k /\
  Forall (fun p => p <> []) ps /\
  (forall p q, p ∈ ps -> q ∈ ps -> (load_of lens p - load_of lens q <= M)%Z) /\
  (equal = true -> Forall (fun p => length p * k = length lens) ps).

Lemma uniform_sizes (ls : list nat) L : Forall (fun n => n = L) ls -> sum_list ls = length ls * L.
Proof. induction 1; simpl in *; lia. Qed.

Lemma final_state_good lens k M e s :
  kk_inv k M e (sorted_items lens) [s] -> good_partitions lens k e M (get_partitions s).
Proof.
  intros [H1 H2 H3 H4 H5]. apply Forall_cons in H1 as [(Hlen & Hok & Hs) _].
  apply Forall_cons in H3 as [Hb _]. csimpl in H2. rewrite app_nil_r, sorted_items_perm in H2.
  unfold total_filled in H4. simpl in H4. rewrite Nat.add_0_r in H4.
  assert (Hload : forall x, x ∈ s -> ks_sum x = load_of lens (ks_items x).*1).
  { intros x Hx. rewrite Forall_forall in Hok. destruct (Hok x Hx) as [-> _].
    unfold load_of. f_equal. rewrite <- list_fmap_compose. apply list_fmap_ext.
    intros j [i v] Hj. simpl. assert (Hin : (i, v) ∈ imap pair lens).
    { rewrite <- H2. unfold state_items. apply list_elem_of_In, in_concat.
      exists (ks_items x). split; apply list_elem_of_In; [by apply list_elem_of_fmap_2|].
      by eapply list_elem_of_lookup_2. }
    apply imap_pair_elem in Hin. unfold len_of. by rewrite Hin. }
  assert (Hpart : is_partition (get_partitions s) (length lens)).
  { unfold is_partition. by rewrite get_partitions_concat, H2, imap_pair_fst. }
  split_and!; [done|by unfold get_partitions; rewrite length_fmap| | |].
  - apply Forall_fmap, Forall_forall. intros x Hx. simpl. rewrite <- Hlen in H4.
    assert (Hall : is_filled <$> s = replicate (length s) true).
    { rewrite filled_prefix by done. pose proof (filled_le s).
      replace (filled s) with (length s) by lia. rewrite Nat.sub_diag. by rewrite app_nil_r. }
    assert (Hf : is_filled x ∈ replicate (length s) true)
      by (rewrite <- Hall; by apply list_elem_of_fmap_2).
    apply elem_of_replicate in Hf as [Hf _]. unfold is_filled in Hf. by destruct (ks_items x).
  - intros p q Hp Hq. apply list_elem_of_fmap in Hp as (x & -> & Hx), Hq as (y & -> & Hy).
    rewrite <- !Hload by done. by apply Hb.
  - intros He. apply H5 in He. apply Forall_cons in He as [[L HL] _].
    assert (Hsizes : Forall (fun n => n = L) (length <$> get_partitions s)).
    { unfold get_partitions. rewrite <- list_fmap_compose. apply Forall_fmap.
      eapply Forall_impl; [exact HL|]. intros x Hx. simpl. by rewrite length_fmap. }
    pose proof (uniform_sizes _ _ Hsizes) as Hsum. rewrite <- length_concat_sum, Hpart in Hsum.
    rewrite length_seq, length_fmap in Hsum. unfold get_partitions in Hsum at 1.
    rewrite length_fmap, Hlen in Hsum. rewrite Forall_fmap in Hsizes.
    eapply Forall_impl; [exact Hsizes|]. intros p Hp. simpl in Hp. lia.
Qed.

Lemma karmarkar_karp_ok `{!Heapq} lens k M e :
  0 < k <= length lens -> Forall (fun x => 0 <= x <= M)%Z lens ->
  (e = true -> length lens mod k = 0) ->
  exists ps, karmarkar_karp lens k e = Ok ps /\ good_partitions lens k e M ps.
Proof.
  intros Hk Hr He. unfold karmarkar_karp. set (items := sorted_items lens). set (n := length lens).
  assert (Hn : length items = n) by (unfold items; rewrite sorted_items_perm; by rewrite length_imap).
  assert (HM : (0 <= M)%Z). { destruct lens as [|x l]; simpl in *; [lia|]. inversion Hr; subst. lia. }
  set (cs := if e then chunks k (n / k) items else (fun it => [it]) <$> items).
  assert (Hnk : e = true -> n = n / k * k).
  { intros E. specialize (He E). fold n in He. rewrite (Nat.div_mod n k) at 1 by lia. lia. }
  assert (Hconcat : concat cs = items).
  { unfold cs. destruct e; [|apply concat_singletons]. apply concat_chunks. specialize (Hnk eq_refl). lia. }
  assert (Hcs : Forall (fun c => ((length c = 1 \/ length c = k) /\ length c <= k) /\
                                 (length c <= k /\ (e = true -> length c = k))) cs).
  { unfold cs. destruct e.
    - eapply Forall_impl; [apply chunks_widths; specialize (Hnk eq_refl); lia|]. simpl. intros c ->. lia.
    - apply Forall_fmap, Forall_true. intros it. simpl. split; [split; [by left|lia]|]. split; [lia|done]. }
  destruct (push_states_ok k cs []) as (pq & Hpq & Hperm).
  { eapply Forall_impl; [exact Hcs|]. by intros c [? _]. }
  assert (Hbuild : (if e then if k =? 0 then Raise ZeroDivisionError
      else _ ← check (n mod k =? 0) (AssertionError "len(seqlen_list) % k_partitions != 0");
           foldM (fun pq chunk => push_state pq chunk k) [] (chunks k (n / k) items)
    else foldM (fun pq item => push_state pq [item] k) [] items) = Ok pq).
  { unfold cs in Hpq. destruct e.
    - replace (k =? 0) with false by lia. fold n in He. rewrite He by done. simpl. done.
    - rewrite <- Hpq. clear. generalize (@nil kstate).
      induction items as [|it items IH]; intros q; csimpl; [done|].
      destruct (push_state q [it] k); simpl; [apply IH|done]. }
  rewrite Hbuild. cbn [mbind res_bind]. rewrite app_nil_r in Hperm.
  assert (Hinv : kk_inv k M e items pq).
  { eapply kk_inv_perm; [symmetry; exact Hperm|]. rewrite <- Hconcat. apply kk_inv_init; [|done| |].
    - rewrite Hconcat, Hn. done.
    - eapply Forall_impl; [exact Hcs|]. by intros c [_ ?].
    - rewrite Hconcat. unfold items. rewrite sorted_items_perm. apply Forall_forall. intros [i x] Hx.
      apply imap_pair_elem in Hx. rewrite Forall_lookup in Hr. by apply (Hr i). }
  destruct (kk_loop_ind (kk_inv k M e items) (kk_inv_perm k M e items) (kk_inv_merge k M e items)
              (S (length pq)) pq) as (s & -> & Hs); [|lia|done|].
  { intros ->. destruct Hinv as [_ Hi _ _ _]. simpl in Hi. apply Permutation_nil in Hi.
    rewrite Hi in Hn. simpl in Hn. lia. }
  simpl. apply final_state_good in Hs. exists (get_partitions s). split; [|done].
  replace (negb e || _) with true; [done|]. symmetry. destruct e; [|done]. simpl.
  destruct Hs as (_ & _ & _ & _ & Hsz). apply forallb_forall. intros p Hp%list_elem_of_In.
  specialize (Hsz eq_refl). rewrite Forall_forall in Hsz. specialize (Hsz p Hp). fold n in Hsz. lia.
Qed.

Lemma check_and_sort_ok n k ps :
  is_partition ps n -> length ps = k -> Forall (fun p => p <> []) ps ->
  check_and_sort_partitions n k ps = Ok (py_sorted Nat.ltb <$> ps).
Proof.
  intros Hp Hl Hne. unfold check_and_sort_partitions. rewrite Hl, Nat.eqb_refl. simpl.
  replace (forallb _ ps) with true.
  2:{ symmetry. apply forallb_forall. intros p Hin%list_elem_of_In. rewrite Forall_forall in Hne.
      specialize (Hne p Hin). destruct p; simpl; [done|lia]. }
  simpl. rewrite bool_decide_eq_true_2; [done|]. apply set_eq. intros i.
  by rewrite !elem_of_list_to_set, Hp.
Qed.

Lemma good_partitions_sort lens k e M ps :
  good_partitions lens k e M ps ->
  good_partitions lens k e M (py_sorted Nat.ltb <$> ps) /\ Forall (Sorted Nat.le) (py_sorted Nat.ltb <$> ps).
Proof.
  intros (H1 & H2 & H3 & H4 & H5). split.
  - split_and!.
    + unfold is_partition. rewrite concat_map_perm by apply py_sorted_perm. done.
    + by rewrite length_fmap.
    + apply Forall_fmap. eapply Forall_impl; [exact H3|]. intros p Hp Hnil. apply Hp.
      pose proof (py_sorted_perm Nat.ltb p) as Hs. simpl in Hnil. rewrite Hnil in Hs.
      by apply Permutation_nil in Hs.
    + intros p q Hp Hq. apply list_elem_of_fmap in Hp as (p' & -> & Hp'), Hq as (q' & -> & Hq').
      rewrite !py_sorted_perm. by apply H4.
    + intros E. apply Forall_fmap. eapply Forall_impl; [by apply H5|]. intros p Hp. simpl.
      by rewrite py_sorted_length.
  - apply Forall_fmap, Forall_true. intros p. simpl. apply StronglySorted_Sorted.
    eapply StronglySorted_weaken; [|apply py_sorted_sorted, _]. intros x y H. simpl in H. lia.
Qed.

(** C36: for non-negative lengths of at most [M], at least as many items as partitions, and a
    divisible item count when [equal_size] is asked for, [get_seqlen_balanced_partitions]
    returns (none of its documented assertions fires, whatever order the heap pops in): [k]
    non-empty, sorted partitions that cover every index exactly once, whose token sums
    differ by at most [M], the longest sequence, and which all have [n / k] items when
    [equal_size] is set. *)
Theorem seqlen_partitions_balanced `{!Heapq} lens k M e :
  0 < k <= length lens -> Forall (fun x => 0 <= x <= M)%Z lens ->
  (e = true -> length lens mod k = 0) ->
  exists ps, get_seqlen_balanced_partitions lens k e = Ok ps /\
    good_partitions lens k e M ps /\ Forall (Sorted Nat.le) ps.
Proof.
  intros Hk Hr He. unfold get_seqlen_balanced_partitions.
  replace (k <=? length lens) with true by lia. simpl.
  destruct (karmarkar_karp_ok lens k M e Hk Hr He) as (ps & -> & Hg). simpl.
  destruct Hg as (H1 & H2 & H3 & H4). rewrite check_and_sort_ok by done.
  eexists. split; [done|]. by apply good_partitions_sort.
Qed.

Lemma seqlen_partitions_balanced_witness :
  exists ps, get_seqlen_balanced_partitions [8; 7; 6; 5; 4; 1]%Z 3 true = Ok ps /\
    good_partitions [8; 7; 6; 5; 4; 1]%Z 3 true 8 ps /\ Forall (Sorted Nat.le) ps.
Proof.
  apply (seqlen_partitions_balanced [8; 7; 6; 5; 4; 1]%Z 3 8 true).
  - simpl. lia.
  - repeat constructor; discriminate.
  - reflexivity.
Defined.

(** ** Greedy partitioning *)

Section greedy.
Context (lens : list Z) (bias : Z).
Hypothesis lens_nonneg : Forall (fun x => 0 <= x)%Z lens.
Hypothesis bias_large : (sumZ lens < bias)%Z.

(** The sums carry the bias once per item, so a smaller sum means no more items. *)
Definition greedy_inv (placed : list nat) (st : list (list nat) * list Z) : Prop :=
  concat st.1 ≡ₚ placed /\
  st.2 = (fun p : list nat => (load_of lens p + Z.of_nat (length p) * bias)%Z) <$> st.1 /\
  exists c, Forall (fun p : list nat => c <= length p <= c + 1) st.1.

Lemma part_load_bound (ps : list (list nat)) (placed : list nat) rest p :
  concat ps ≡ₚ placed -> placed ++ rest = seq 0 (length lens) -> p ∈ ps ->
  (0 <= load_of lens p < bias)%Z.
Proof.
  intros Hc Hpl Hp. split; [by apply load_of_nonneg|].
  apply elem_of_Permutation in Hp as [ps' Hps].
  assert (Hall : (load_of lens p + load_of lens (concat ps' ++ rest) = sumZ lens)%Z).
  { rewrite <- load_of_app, <- load_of_all, <- Hpl, <- Hc. rewrite !load_of_app.
    assert (Hcc : load_of lens (concat ps) = load_of lens (concat (p :: ps'))) by (by rewrite Hps).
    rewrite Hcc. simpl. rewrite load_of_app. lia. }
  pose proof (load_of_nonneg lens (concat ps' ++ rest) lens_nonneg). lia.
Qed.

Lemma greedy_step_ok placed rest st i x :
  0 < length st.1 -> greedy_inv placed st -> lens !! i = Some x ->
  placed ++ i :: rest = seq 0 (length lens) ->
  exists st', greedy_step st ((x + bias)%Z, i) = Ok st' /\ greedy_inv (placed ++ [i]) st' /\
    length st'.1 = length st.1.
Proof.
  destruct st as [ps sums]. intros Hne (Hc & Hs & c & Hcnt) Hx Hpl. simpl in *. subst sums.
  set (key := fun p : list nat => (load_of lens p + Z.of_nat (length p) * bias)%Z).
  unfold min_partition. rewrite length_fmap.
  destruct (py_min_is_Some (by_key (len_of (key <$> ps)) Z.ltb) (seq 0 (length ps))) as [j Hj].
  { destruct ps; simpl in *; [lia|done]. }
  rewrite Hj. eexists. split; [done|]. simpl. apply py_min_spec in Hj as [Hin Hmin]; [|apply _].
  apply elem_of_seq in Hin. destruct (lookup_lt_is_Some_2 ps j) as [p Hp]; [lia|].
  assert (Hleast : Forall (fun q => length p <= length q) ps).
  { apply Forall_forall. intros q [l Hl]%list_elem_of_lookup.
    rewrite Forall_forall in Hmin. specialize (Hmin l). unfold by_key in Hmin.
    assert (Hkey : (key p <= key q)%Z).
    { assert (l ∈ seq 0 (length ps)) as Hls by (apply elem_of_seq; apply lookup_lt_Some in Hl; lia).
      specialize (Hmin Hls). unfold len_of in Hmin. rewrite !list_lookup_fmap, Hl, Hp in Hmin.
      simpl in Hmin. lia. }
    assert (0 <= load_of lens p < bias)%Z
      by (eapply part_load_bound; [exact Hc|exact Hpl|by eapply list_elem_of_lookup_2]).
    assert (0 <= load_of lens q < bias)%Z
      by (eapply part_load_bound; [exact Hc|exact Hpl|by eapply list_elem_of_lookup_2]).
    unfold key in Hkey. nia. }
  split; [|by rewrite length_append_at]. unfold greedy_inv; simpl. split_and!.
  - rewrite concat_append_at by lia. rewrite Hc. by rewrite Permutation_app_comm.
  - unfold append_at. rewrite list_fmap_alter with (h := fun s => (s + (x + bias))%Z); [done|].
    apply Forall_true. intros q. rewrite load_of_app, length_app. unfold load_of at 2. simpl.
    unfold len_of. rewrite Hx. simpl. lia.
  - exists (if decide (length p = c) then c else c + 1).
    apply Forall_forall. intros q [l Hl]%list_elem_of_lookup. unfold append_at in Hl.
    rewrite Forall_lookup in Hcnt, Hleast. pose proof (Hcnt _ _ Hp).
    destruct (decide (l = j)) as [->|Hlj].
    + rewrite list_lookup_alter_eq, Hp in Hl. simplify_eq/=. rewrite length_app. simpl. case_decide; lia.
    + rewrite list_lookup_alter_ne in Hl by done. specialize (Hcnt _ _ Hl). specialize (Hleast _ _ Hl).
      case_decide; lia.
Qed.

Lemma greedy_steps_ok l placed st :
  0 < length st.1 -> greedy_inv placed st -> placed ++ l = seq 0 (length lens) ->
  exists st', foldM greedy_step st ((fun i => ((len_of lens i + bias)%Z, i)) <$> l) = Ok st' /\
    greedy_inv (placed ++ l) st' /\ length st'.1 = length st.1.
Proof.
  revert placed st; induction l as [|i l IH]; intros placed st Hk Hinv Hpl; csimpl.
  - rewrite app_nil_r. eauto.
  - assert (Hi : i < length lens).
    { assert (i ∈ seq 0 (length lens)) as H by (rewrite <- Hpl; set_solver). apply elem_of_seq in H. lia. }
    destruct (lookup_lt_is_Some_2 _ _ Hi) as [x Hx].
    destruct (greedy_step_ok placed l st i x Hk Hinv Hx Hpl) as (st' & Hst' & Hinv' & Hlen).
    assert (len_of lens i = x) as -> by (unfold len_of; by rewrite Hx).
    rewrite Hst'. simpl. destruct (IH (placed ++ [i]) st') as (st'' & -> & H1 & H2);
      [lia|done|by rewrite <- app_assoc|].
    exists st''. split; [done|]. rewrite <- app_assoc in H1. split; [done|lia].
Qed.
End greedy.

Lemma even_counts (ls : list nat) c k m :
  length ls = k -> Forall (fun n => c <= n <= c + 1) ls -> sum_list ls = k * m ->
  Forall (fun n => n = m) ls.
Proof.
  intros <- Hc Hsum.
  assert (Hbounds : length ls * c <= sum_list ls <= length ls * (c + 1)).
  { clear Hsum. induction Hc; simpl in *; lia. }
  destruct (decide (m = c)) as [->|Hne].
  - assert (Hle : Forall2 le (replicate (length ls) c) ls).
    { clear -Hc. induction Hc; simpl; constructor; [lia|done]. }
    assert (Hs : sum_list (replicate (length ls) c) = length ls * c)
      by (clear; induction (length ls); simpl; lia).
    apply full_when_sum_eq in Hle; [|lia]. rewrite <- Hle. by apply Forall_replicate.
  - destruct ls as [|n0 ls0] eqn:E; [done|]. rewrite <- E in *.
    assert (m = c + 1) as ->.
    { assert (length ls <> 0) by (by rewrite E). nia. }
    assert (Hle : Forall2 le ls (replicate (length ls) (c + 1))).
    { clear -Hc. induction Hc; simpl; constructor; [lia|done]. }
    assert (Hs : sum_list (replicate (length ls) (c + 1)) = length ls * (c + 1))
      by (clear; induction (length ls); simpl; lia).
    apply full_when_sum_eq in Hle; [|lia]. rewrite Hle. by apply Forall_replicate.
Qed.

(** [greedy_partition] with [equal_size], on non-negative lengths whose number is a
    multiple of [k], returns a partition of the indices into [k] parts of exactly [n / k]
    items each, so its own size assertion never fires: the bias added to every length
    keeps the part sizes within one of each other at every step. *)
Theorem greedy_partition_equal lens k :
  0 < k -> Forall (fun x => 0 <= x)%Z lens -> length lens mod k = 0 ->
  exists ps, greedy_partition lens k true = Ok ps /\
    is_partition ps (length lens) /\ length <$> ps = replicate k (length lens / k).
Proof.
  intros Hk Hpos Hmod. unfold greedy_partition. set (bias := (sumZ lens + 1)%Z).
  assert (Hitems : imap (fun i seqlen => ((seqlen + bias)%Z, i)) lens =
    (fun i => ((len_of lens i + bias)%Z, i)) <$> seq 0 (length lens)).
  { apply list_eq. intros i. rewrite list_lookup_imap, list_lookup_fmap.
    destruct (lens !! i) as [x|] eqn:E; simpl.
    - rewrite lookup_seq_lt by (by eapply lookup_lt_Some). simpl. unfold len_of. by rewrite E.
    - rewrite lookup_seq_ge by (by apply lookup_ge_None). done. }
  rewrite Hitems.
  destruct (greedy_steps_ok lens bias Hpos ltac:(lia) (seq 0 (length lens)) []
              (replicate k [], replicate k 0%Z)) as ([ps sums] & -> & (Hc & _ & c & Hcnt) & Hlen).
  { simpl. rewrite length_replicate. lia. }
  { split_and!; simpl.
    - clear. by induction k.
    - rewrite fmap_replicate. done.
    - exists 0. apply Forall_replicate. simpl. lia. }
  { done. }
  simpl in *. rewrite length_replicate in Hlen.
  assert (Hm : length lens = k * (length lens / k)) by (rewrite (Nat.div_mod (length lens) k) at 1; lia).
  assert (Heq : Forall (fun n => n = length lens / k) (length <$> ps)).
  { apply (even_counts _ c k); [by rewrite length_fmap|by apply Forall_fmap|].
    rewrite <- length_concat_sum, Hc, length_seq. done. }
  exists ps. split_and!; [|done|].
  - replace (equal_sizes ps k (length lens)) with true; [done|]. symmetry.
    apply forallb_forall. intros p Hp%list_elem_of_In. rewrite Forall_fmap, Forall_forall in Heq.
    specialize (Heq p Hp). simpl in Heq. lia.
  - revert Heq. generalize (length lens / k). intros m Heq. rewrite <- Hlen. clear -Heq.
    induction ps as [|p ps IH]; csimpl; [done|].
    csimpl in Heq. apply Forall_cons in Heq as [-> Heq]. by rewrite IH.
Qed.

Lemma greedy_partition_equal_witness :
  exists ps, greedy_partition [9; 1; 1; 8]%Z 2 true = Ok ps /\
    is_partition ps 4 /\ length <$> ps = replicate 2 (4 / 2).
Proof.
  apply (greedy_partition_equal [9; 1; 1; 8]%Z 2); [lia| |reflexivity].
  repeat constructor; discriminate.
Defined.

(** ** Prompt groups and micro-batches *)

Lemma split_prompt_group_eq m g : split_prompt_group m g = split_group m g.
Proof.
  unfold split_prompt_group, split_group, chunks. apply list_fmap_ext. intros j i _. unfold chunk.
  destruct (decide (i * m + m <= length g)) as [H|H].
  - by replace (min (i * m + m) (length g) - i * m) with m by lia.
  - rewrite !take_ge; [done|..]; rewrite length_drop; lia.
Qed.

Lemma existsb_forallb {A} (f : A -> bool) l : existsb f l = negb (forallb (negb ∘ f) l).
Proof.
  induction l as [|x l IH]; simpl; [done|]. rewrite IH. unfold compose. by destruct (f x).
Qed.

Lemma forallb_ext' {A} (f g : A -> bool) l : (forall x, f x = g x) -> forallb f l = forallb g l.
Proof. intros H. induction l as [|x l IH]; simpl; [done|]. by rewrite H, IH. Qed.

Lemma py_stop_in w p : (0 <= p <= Z.of_nat w)%Z -> py_stop w p = Z.to_nat p.
Proof. intros H. unfold py_stop. destruct (p <? 0)%Z eqn:E; lia. Qed.

Lemma create_prompt_groups_eq t resp tok m :
  ndim t = 2 -> (0 <= resp <= Z.of_nat (dim t 1))%Z ->
  create_prompt_groups t resp tok m = prompt_groups (Some t) resp tok m None.
Proof.
  intros Hnd Hr. unfold create_prompt_groups, prompt_groups. rewrite Hnd. simpl.
  destruct ((resp <? 0)%Z || _) eqn:E; [lia|]. rewrite py_stop_in by lia.
  set (gs := first_seen_groups _). unfold split_groups_to_max_length.
  destruct gs as [|g0 gs0] eqn:Egs; [by destruct m|]. rewrite <- Egs.
  destruct m as [m|]; [|done]. destruct (m <=? 0)%Z eqn:E1.
  { by replace (0 <? m)%Z with false by lia. }
  replace (0 <? m)%Z with true by lia. destruct (tok <? _)%Z; [done|].
  rewrite existsb_forallb.
  rewrite (forallb_ext' _ (fun g : list nat => length g <=? Z.to_nat m))
    by (intros g; unfold compose; lia).
  destruct (forallb _ gs); simpl; [done|]. do 2 f_equal. apply list_fmap_ext. intros i g _.
  by rewrite split_prompt_group_eq.
Qed.

(** The trainer's [create_prompt_groups] and the server's [prompt_groups] are the same
    function when no group ids are sent: same groups in the same order, same split, same
    token-budget error, for every response length within the row. *)
Theorem create_prompt_groups_agrees t resp tok m :
  ndim t = 2 -> (0 <= resp <= Z.of_nat (dim t 1))%Z ->
  create_prompt_groups t resp tok m = prompt_groups (Some t) resp tok m None.
Proof. apply create_prompt_groups_eq. Qed.

Lemma create_prompt_groups_agrees_witness :
  let t := of_rows2 2 [[7; 1]; [8; 2]; [7; 3]; [7; 4]]%Z in
  create_prompt_groups t 1 9 (Some 2%Z) = prompt_groups (Some t) 1 9 (Some 2%Z) None.
Proof.
  apply (create_prompt_groups_agrees (of_rows2 2 [[7; 1]; [8; 2]; [7; 3]; [7; 4]]%Z) 1 9 (Some 2%Z));
    [reflexivity|unfold dim; simpl; lia].
Defined.

Lemma foldM_assign_ok (l : list (nat * nat)) (acc : list nat) :
  Forall (fun it => it.2 < length acc) l ->
  foldM (fun acc '(i, idx) =>
           if idx <? length acc then Ok (<[idx := i]> acc)
           else Raise (IndexError "list assignment index out of range")) acc l =
  Ok (fold_left (fun acc '(i, idx) => <[idx := i]> acc) l acc).
Proof.
  revert acc; induction l as [|[i r] l IH]; intros acc H; simpl; [done|].
  apply Forall_cons in H as [Hr Hl]. simpl in Hr. replace (r <? length acc) with true by lia.
  simpl. apply IH. by rewrite length_insert.
Qed.

Lemma get_reverse_idx_ok idx_map n :
  idx_map ≡ₚ seq 0 n ->
  exists rev, get_reverse_idx idx_map = Ok rev /\ length rev = n /\
    forall p r, idx_map !! p = Some r -> rev !! r = Some p.
Proof.
  intros Hp. assert (Hlen : length idx_map = n) by (by rewrite Hp, length_seq).
  destruct (invert_order_spec n idx_map idx_map Hp Hlen) as [H1 H2].
  eexists. split; [|split; [exact H1|exact H2]].
  apply foldM_assign_ok, Forall_forall. intros [i r] Hin. apply imap_pair_elem in Hin. simpl.
  apply list_elem_of_lookup_2 in Hin. rewrite Hp in Hin. apply elem_of_seq in Hin. lia.
Qed.

Section binning.
Context (groups : list (list nat)).

(** The bins hold exactly the groups placed so far, and there is one cost per bin. *)
Definition bin_inv (k : nat) (placed : list (list nat)) (st : list (list (list nat)) * list Z) : Prop :=
  concat st.1 ≡ₚ placed /\ length st.1 = k /\ length st.2 = k.

Lemma bin_steps_ok k items placed st :
  0 < k -> bin_inv k placed st ->
  exists st', foldM bin_step st items = Ok st' /\ bin_inv k (placed ++ items.*2) st'.
Proof.
  intros Hk. revert placed st; induction items as [|[cost group] items IH]; intros placed [bins costs] Hinv; csimpl.
  - rewrite app_nil_r. eauto.
  - destruct Hinv as (Hc & Hl1 & Hl2). simpl in *. unfold min_partition.
    destruct (py_min_is_Some (by_key (len_of costs) Z.ltb) (seq 0 (length costs))) as [i Hi].
    { rewrite Hl2. destruct k; [lia|done]. }
    rewrite Hi. simpl. apply py_min_spec in Hi as [Hin _]; [|apply _]. apply elem_of_seq in Hin.
    rewrite cons_middle, app_assoc. apply IH. unfold bin_inv; simpl.
    rewrite length_append_at, length_alter. split_and!; [|done|done].
    rewrite concat_append_at by lia. rewrite Hc. by rewrite Permutation_app_comm.
Qed.
End binning.

(** The micro-batches of a set of bins. *)
Definition bin_rows (sorted_bins : list (Z * list (list nat))) : list (list nat) :=
  (fun '(_, bin) => py_sorted Nat.ltb (concat bin)) <$> filter (fun cb => cb.2 <> []) sorted_bins.

Lemma bin_rows_spec (sb : list (Z * list (list nat))) (groups : list (list nat)) n :
  concat sb.*2 ≡ₚ groups -> is_partition groups n -> Forall (fun g => g <> []) groups ->
  is_partition (bin_rows sb) n /\
  Forall (fun mb => mb <> [] /\ Sorted Nat.le mb) (bin_rows sb) /\
  Forall (fun g => exists mb, mb ∈ bin_rows sb /\ g ⊆ mb) groups.
Proof.
  intros Hc Hp Hne.
  assert (Hconcat : concat (bin_rows sb) ≡ₚ concat (concat sb.*2)).
  { clear. unfold bin_rows. induction sb as [|[c bin] sb IH]; [done|]. rewrite filter_cons. csimpl.
    case_decide as H; csimpl.
    - rewrite py_sorted_perm, concat_app, IH. done.
    - by destruct bin. }
  split_and!.
  - unfold is_partition. rewrite Hconcat, Hc. done.
  - apply Forall_fmap, Forall_forall. intros [c bin] [Hb Hin]%list_elem_of_filter. simpl in *. split.
    + destruct bin as [|g bin]; [done|]. intros Hnil.
      pose proof (py_sorted_perm Nat.ltb (concat (g :: bin))) as Hs. rewrite Hnil in Hs.
      apply Permutation_nil in Hs. simpl in Hs. apply app_eq_nil in Hs as [-> _].
      assert (Hg : [] ∈ groups).
      { rewrite <- Hc. apply list_elem_of_In, in_concat. exists ([] :: bin).
        split; [|by left]. apply list_elem_of_In. by apply (list_elem_of_fmap_2 snd sb (c, [] :: bin)). }
      rewrite Forall_forall in Hne. by apply (Hne [] Hg).
    + apply StronglySorted_Sorted. eapply StronglySorted_weaken; [|apply py_sorted_sorted, _].
      intros x y H. simpl in H. lia.
  - apply Forall_forall. intros g Hg. rewrite <- Hc in Hg.
    apply list_elem_of_In, in_concat in Hg as (bin & Hbin & Hg).
    apply list_elem_of_In, list_elem_of_fmap in Hbin as ([c bin'] & -> & Hin). simpl in *.
    exists (py_sorted Nat.ltb (concat bin')). split.
    + unfold bin_rows. apply list_elem_of_fmap. exists (c, bin'). split; [done|].
      apply list_elem_of_filter. split; [|done]. simpl. by intros ->.
    + intros r Hr. rewrite py_sorted_perm. apply list_elem_of_In, in_concat.
      exists g. split; [done|]. by apply list_elem_of_In.
Qed.

Lemma group_cost_ok rows p q g :
  g <> [] -> Forall (fun r => r < length rows) g -> exists ct, group_cost rows p q g = Ok ct.
Proof.
  intros Hne Hg. destruct g as [|r0 g]; [done|]. unfold group_cost.
  change (at_index (r0 :: g) 0) with (Ok r0). cbn [mbind res_bind].
  apply Forall_cons in Hg as Hg'. destruct Hg' as [Hr0 _].
  destruct (at_index_lt rows r0 Hr0) as (row & _ & ->). cbn [mbind res_bind].
  rewrite (mapM_ok _ (fun idx => let row := default [] (rows !! idx) in
             sumZ (drop (py_stop (length row) p) row)) (r0 :: g)); [simpl; eauto|].
  intros r Hr. rewrite Forall_forall in Hg. destruct (at_index_lt rows r (Hg r Hr)) as (x & Hx & ->).
  simpl. by rewrite Hx.
Qed.

Lemma compute_group_costs_ok rows groups p :
  Forall (fun g => g <> [] /\ Forall (fun r => r < length rows) g) groups ->
  exists costs total, compute_group_costs rows groups p 0 = Ok (costs, total) /\ costs.*2 = groups.
Proof.
  intros Hg. unfold compute_group_costs. simpl.
  destruct (mapM_total (fun group => ct ← group_cost rows p 0 group; Ok (ct, group)) groups) as (cs & Hcs & _).
  { intros g Hing. rewrite Forall_forall in Hg. destruct (Hg g Hing) as [Hne Hin].
    destruct (group_cost_ok rows p 0 g Hne Hin) as [ct Hct]. rewrite Hct. simpl. eauto. }
  rewrite Hcs. simpl. do 2 eexists. split; [done|]. apply mapM_ok_inv in Hcs.
  clear Hg. induction Hcs as [|g [[c t] g'] gs cs Hgc Hcs IH]; csimpl; [done|].
  apply bind_Ok_inv in Hgc as (ct & _ & [= -> <-]). by rewrite IH.
Qed.

(** Packing the groups into bins, sorting the bins and reading off their rows. *)
Lemma bins_to_indices (costs : list (Z * list nat)) (groups : list (list nat)) (num : Z) n :
  (0 < num)%Z -> costs.*2 = groups -> is_partition groups n -> Forall (fun g => g <> []) groups ->
  exists mbs,
    ('(bins, bcosts) ← foldM bin_step (replicate (Z.to_nat num) [], replicate (Z.to_nat num) 0%Z)
        (py_sorted (rev_order (by_key fst Z.ltb)) costs);
     match py_sorted (rev_order (lex_pair Z.ltb (lex_list (lex_list Nat.ltb)))) (zip bcosts bins) with
     | [] => Raise (ValueError "not enough values to unpack")
     | sorted_bins => Ok (bin_rows sorted_bins)
     end) = Ok mbs /\
    is_partition mbs n /\ Forall (fun mb => mb <> [] /\ Sorted Nat.le mb) mbs /\
    Forall (fun g => exists mb, mb ∈ mbs /\ g ⊆ mb) groups.
Proof.
  intros Hnum Hsnd Hpart Hne.
  destruct (bin_steps_ok (Z.to_nat num) (py_sorted (rev_order (by_key fst Z.ltb)) costs) []
              (replicate (Z.to_nat num) [], replicate (Z.to_nat num) 0%Z))
    as ([bins bcosts] & -> & Hc & Hl1 & Hl2); [lia| |].
  { unfold bin_inv; simpl. rewrite !length_replicate. split_and!; [|done|done].
    clear. by induction (Z.to_nat num). }
  simpl in *. set (sb := py_sorted _ (zip bcosts bins)).
  assert (Hsb : sb ≡ₚ zip bcosts bins) by apply py_sorted_perm.
  assert (Hconcat : concat sb.*2 ≡ₚ groups).
  { rewrite Hsb, snd_zip by lia. rewrite Hc, py_sorted_perm. by rewrite Hsnd. }
  assert (Hsne : sb <> []).
  { intros Hnil. rewrite Hnil in Hsb. apply Permutation_nil in Hsb.
    apply (f_equal length) in Hsb. rewrite length_zip_with in Hsb. simpl in Hsb. lia. }
  exists (bin_rows sb). split; [by destruct sb|]. by apply bin_rows_spec.
Qed.

Lemma split_groups_concat gs p r t m gs' :
  Forall (fun g => g <> []) gs -> split_groups_to_max_length gs p r t m = Ok gs' ->
  concat gs' = concat gs /\ Forall (fun g => g <> []) gs'.
Proof.
  intros Hne H. destruct m as [m|].
  - destruct (decide (0 < m /\ p + r * m <= t)%Z) as [[Hm Ht]|Hn].
    + destruct (split_groups_ok gs p r t m Hm Ht Hne) as (gs2 & H2 & Hc & Hf).
      rewrite H in H2. injection H2 as <-. split; [done|].
      eapply Forall_impl; [exact Hf|]. by intros g [? _].
    + unfold split_groups_to_max_length in H. destruct gs as [|g0 gs0] eqn:E; [by injection H as <-|].
      destruct (m <=? 0)%Z eqn:E1; [by injection H as <-|].
      destruct (t <? p + r * m)%Z eqn:E2; [done|lia].
  - unfold split_groups_to_max_length in H. destruct gs; by injection H as <-.
Qed.

Lemma create_groups_partition t resp tok thr gs :
  (0 <= resp <= Z.of_nat (dim t 1))%Z -> create_prompt_groups t resp tok thr = Ok gs ->
  is_partition gs (dim t 0) /\ Forall (fun g => g <> []) gs.
Proof.
  intros Hr H. assert (Hnd : ndim t = 2).
  { unfold create_prompt_groups in H. destruct (ndim t =? 2) eqn:E; [lia|done]. }
  rewrite create_prompt_groups_eq in H by done. unfold prompt_groups in H. rewrite Hnd in H. simpl in H.
  destruct ((resp <? 0)%Z || _) eqn:E; [lia|].
  destruct (first_seen_groups_spec (take (Z.to_nat (Z.of_nat (dim t 1) - resp)) <$> rows2 t)) as [Hp Hf].
  rewrite length_fmap in Hp. unfold rows2 in Hp at 2. rewrite length_chunks in Hp.
  apply split_groups_concat in H as [Hc Hne].
  - split; [unfold is_partition; by rewrite Hc|done].
  - eapply Forall_impl; [exact Hf|]. by intros g [? _].
Qed.

(** The laws of the collectives: counts agree when every rank has the same number of groups,
    and a maximum is not smaller than this rank's contribution. *)
Definition dist_ok (dist : option dist_env) : Prop :=
  match dist with
  | Some d => (forall c, one_count (all_gather_counts d c) = true) /\ (forall n, n <= all_reduce_max d n)%Z
  | None => True
  end.

Lemma roundup_ge a b : (0 < a)%Z -> (0 < b)%Z -> exists c, roundup_divisible a b = Ok c /\ (a <= c)%Z.
Proof.
  intros Ha Hb. unfold roundup_divisible. replace (b =? 0)%Z with false by lia.
  eexists. split; [done|]. pose proof (Z.div_mod (a + b - 1) b ltac:(lia)).
  pose proof (Z.mod_pos_bound (a + b - 1) b ltac:(lia)). nia.
Qed.

Lemma ceildiv_pos a b : (0 < a)%Z -> (0 < b)%Z -> exists c, ceildiv a b = Ok c /\ (0 < c)%Z.
Proof.
  intros Ha Hb. unfold ceildiv. replace (b =? 0)%Z with false by lia. eexists. split; [done|].
  pose proof (Z.div_mod a (- b) ltac:(lia)). pose proof (Z.mod_neg_bound a (- b) ltac:(lia)). nia.
Qed.

(** For a non-empty batch with a non-empty deduplicated token count and a positive token
    budget, the micro-batches of [rearrange_micro_batches_with_dedup] partition the rows of
    the batch, are non-empty and sorted, and keep every prompt group inside one
    micro-batch; and [get_reverse_idx] of their concatenated row order is the inverse
    permutation that puts per-row results back in place. *)
Theorem micro_batch_indices_spec ids mask resp tok dist same div minmb thr groups :
  ndim mask = 2 -> dim mask 0 = dim ids 0 -> 0 < dim ids 0 ->
  (0 <= resp <= Z.of_nat (dim ids 1))%Z -> (0 < tok)%Z ->
  create_prompt_groups ids resp tok thr = Ok groups ->
  (forall costs total,
     compute_group_costs (rows2 mask) groups (Z.of_nat (dim ids 1) - resp) 0 = Ok (costs, total) ->
     (0 < total)%Z) ->
  dist_ok dist -> match div with Some d => (0 < d)%Z | None => True end ->
  exists mbs rev, micro_batch_indices ids mask resp tok dist same div minmb thr = Ok mbs /\
    is_partition mbs (dim ids 0) /\
    Forall (fun mb => mb <> [] /\ Sorted Nat.le mb) mbs /\
    Forall (fun g => exists mb, mb ∈ mbs /\ g ⊆ mb) groups /\
    get_reverse_idx (concat mbs) = Ok rev /\
    (forall p r, concat mbs !! p = Some r -> rev !! r = Some p).
Proof.
  intros Hmask Hrows HB Hresp Htok Hgroups Htotal Hdist Hdiv.
  destruct (create_groups_partition ids resp tok thr groups Hresp Hgroups) as [Hpart Hne].
  assert (Hplan : exists mbs, micro_batch_indices ids mask resp tok dist same div minmb thr = Ok mbs /\
    is_partition mbs (dim ids 0) /\ Forall (fun mb => mb <> [] /\ Sorted Nat.le mb) mbs /\
    Forall (fun g => exists mb, mb ∈ mbs /\ g ⊆ mb) groups).
  { unfold micro_batch_indices. rewrite Hmask, Hgroups. simpl.
    assert (Hcheck : match dist with
      | Some d => check (one_count (all_gather_counts d (length groups)))
                    (AssertionError "Number of prompt_groups must be the same across all ranks")
      | None => Ok () end = Ok ()).
    { destruct dist as [d|]; [|done]. destruct Hdist as [Hd _]. by rewrite Hd. }
    rewrite Hcheck. simpl.
    destruct (compute_group_costs_ok (rows2 mask) groups (Z.of_nat (dim ids 1) - resp))
      as (costs & total & Hcosts & Hsnd).
    { apply Forall_forall. intros g Hg. rewrite Forall_forall in Hne. split; [by apply Hne|].
      apply Forall_forall. intros r Hr. unfold rows2. rewrite length_chunks, Hrows.
      by eapply is_partition_lt. }
    rewrite Hcosts. simpl. destruct (ceildiv_pos total tok) as (needed & -> & Hneed); [by eapply Htotal|done|].
    simpl. set (num1 := Z.min _ needed).
    set (num2 := match minmb with Some m => Z.max m num1 | None => num1 end).
    set (num3 := match dist with Some d => _ | None => num2 end).
    assert (Hnum1 : (0 < num1)%Z).
    { assert (length groups <> 0); [|lia]. intros Hnil. apply length_zero_iff_nil in Hnil as ->.
      unfold is_partition in Hpart. apply Permutation_nil in Hpart. destruct (dim ids 0); [lia|done]. }
    assert (Hnum3 : (0 < num3)%Z).
    { assert (0 < num2)%Z by (unfold num2; destruct minmb; lia). unfold num3.
      destruct dist as [d|]; [|done]. destruct Hdist as [_ Hd]. destruct same; [|done].
      specialize (Hd num2). lia. }
    assert (Hnum : exists num, match div with Some d => roundup_divisible num3 d | None => Ok num3 end = Ok num
                     /\ (0 < num)%Z).
    { destruct div as [d|]; [|eauto]. destruct (roundup_ge num3 d Hnum3 Hdiv) as (c & -> & Hc).
      exists c. split; [done|lia]. }
    destruct Hnum as (num & -> & Hnum). simpl. by apply bins_to_indices. }
  destruct Hplan as (mbs & Hmbs & Hp & Hs & Hg).
  destruct (get_reverse_idx_ok (concat mbs) (dim ids 0) Hp) as (rev & Hrev & _ & Hinv).
  exists mbs, rev. done.
Qed.

(** Two ranks that agree on the number of groups; the other one needs three micro-batches. *)
Definition two_ranks : dist_env :=
  {| all_gather_counts := fun c => [c; c]; all_reduce_max := Z.max 3 |}.

Lemma micro_batch_indices_witness :
  let ids := of_rows2 2 [[7; 1]; [8; 2]; [7; 3]; [7; 4]]%Z in
  let mask := of_rows2 2 [[1; 1]; [1; 1]; [1; 0]; [1; 1]]%Z in
  exists mbs rev, micro_batch_indices ids mask 1 4 (Some two_ranks) true None None (Some 2%Z) = Ok mbs /\
    is_partition mbs 4 /\
    Forall (fun mb => mb <> [] /\ Sorted Nat.le mb) mbs /\
    Forall (fun g => exists mb, mb ∈ mbs /\ g ⊆ mb) [[0; 2]; [3]; [1]] /\
    get_reverse_idx (concat mbs) = Ok rev /\
    (forall p r, concat mbs !! p = Some r -> rev !! r = Some p).
Proof.
  apply (micro_batch_indices_spec (of_rows2 2 [[7; 1]; [8; 2]; [7; 3]; [7; 4]]%Z)
           (of_rows2 2 [[1; 1]; [1; 1]; [1; 0]; [1; 1]]%Z) 1 4 (Some two_ranks) true None None (Some 2%Z)
           [[0; 2]; [3]; [1]]).
  - reflexivity.
  - reflexivity.
  - unfold dim; simpl; lia.
  - unfold dim; simpl; lia.
  - lia.
  - vm_compute. reflexivity.
  - intros costs total H. vm_compute in H. injection H as _ <-. lia.
  - split; [intros c; simpl; by rewrite Nat.eqb_refl|intros n; simpl; lia].
  - exact I.
Defined.
