(* ===== verification/Json.v ===== *)
(** * Python values and the JSON text of the standard library

    The wire protocol ([Wire]) stores the structure of a payload as JSON text.  This file has
    the Python values a payload is made of and what the source uses of the module [json]:
    [json.dumps] with its default options (separators [", "] and [": "], ASCII output) and
    [json.loads].

    Strings are sequences of characters below U+0100.  A float is represented by the literal
    that [repr] prints for it, so no arithmetic on floats is modelled.  Dictionaries keep their
    insertion order; their keys are strings or integers. *)

From stdpp Require Import prelude strings list.
From Stdlib Require Import ZArith Lia Ascii DecimalString DecimalZ.
From S2P Require Import Prelude Dict.
Local Open Scope nat_scope.

(** ** Values *)

Inductive pkey := KStr (s : string) | KInt (z : Z).
#[export] Instance pkey_eq_dec : EqDecision pkey.
Proof. solve_decision. Defined.

Record wtensor := WTensor { w_dtype : string; w_shape : list nat; w_data : list Z }.
#[export] Instance wtensor_eq_dec : EqDecision wtensor.
Proof. solve_decision. Defined.

(** [POpaque] is an object that JSON cannot represent. *)
Inductive pyval :=
  | PNone
  | PBool (b : bool)
  | PInt (z : Z)
  | PFloat (lit : string)
  | PStr (s : string)
  | PList (l : list pyval)
  | PTuple (l : list pyval)
  | PDict (d : list (pkey * pyval))
  | PTensor (t : wtensor)
  | POpaque (cls : string).

Section pyval_ind.
Context (P : pyval -> Prop).
Hypothesis HNone : P PNone.
Hypothesis HBool : forall b, P (PBool b).
Hypothesis HInt : forall z, P (PInt z).
Hypothesis HFloat : forall s, P (PFloat s).
Hypothesis HStr : forall s, P (PStr s).
Hypothesis HList : forall l, Forall P l -> P (PList l).
Hypothesis HTuple : forall l, Forall P l -> P (PTuple l).
Hypothesis HDict : forall d, Forall (fun kv => P kv.2) d -> P (PDict d).
Hypothesis HTensor : forall t, P (PTensor t).
Hypothesis HOpaque : forall s, P (POpaque s).

Fixpoint pyval_induction (v : pyval) : P v :=
  let fix go (l : list pyval) : Forall P l :=
    match l with [] => Forall_nil_2 P | x :: l => Forall_cons_2 P x l (pyval_induction x) (go l) end in
  match v with
  | PNone => HNone
  | PBool b => HBool b
  | PInt z => HInt z
  | PFloat s => HFloat s
  | PStr s => HStr s
  | PList l => HList l (go l)
  | PTuple l => HTuple l (go l)
  | PDict d =>
      HDict d ((fix god (d : list (pkey * pyval)) : Forall (fun kv => P kv.2) d :=
        match d with
        | [] => Forall_nil_2 _
        | kv :: d => Forall_cons_2 (fun kv => P kv.2) kv d (pyval_induction kv.2) (god d)
        end) d)
  | PTensor t => HTensor t
  | POpaque s => HOpaque s
  end.
End pyval_ind.

(** ** Printing *)

Abbreviation chars := (list ascii).
Definition chars_of (s : string) : chars := String.list_ascii_of_string s.
Definition string_of (cs : chars) : string := String.string_of_list_ascii cs.

(** [str.strip()]. *)
Definition py_space (c : ascii) : bool :=
  let n := nat_of_ascii c in ((9 <=? n) && (n <=? 13) || (28 <=? n) && (n <=? 32) || (n =? 133) || (n =? 160))%nat.
Fixpoint lstrip (cs : list ascii) : list ascii :=
  match cs with c :: rest => if py_space c then lstrip rest else cs | [] => [] end.
Definition strip (cs : list ascii) : list ascii := reverse (lstrip (reverse (lstrip cs))).

Definition int_text (z : Z) : string := NilZero.string_of_int (Z.to_int z).

Definition hex_digit (n : nat) : ascii := nth n (chars_of "0123456789abcdef") "0"%char.

Definition quote : ascii := ascii_of_nat 34.
Definition backslash : ascii := ascii_of_nat 92.

(** [ensure_ascii]: printable ASCII is printed as it is, everything else is escaped. *)
Definition escape (c : ascii) : chars :=
  let code := nat_of_ascii c in
  if decide (c = quote) then [backslash; quote]
  else if decide (c = backslash) then [backslash; backslash]
  else if (32 <=? code) && (code <=? 126) then [c]
  else if code =? 10 then [backslash; "n"%char]
  else if code =? 13 then [backslash; "r"%char]
  else if code =? 9 then [backslash; "t"%char]
  else if code =? 12 then [backslash; "f"%char]
  else if code =? 8 then [backslash; "b"%char]
  else [backslash; "u"%char; "0"%char; "0"%char; hex_digit (code / 16); hex_digit (code mod 16)].

Definition string_text (s : string) : chars := quote :: concat (List.map escape (chars_of s)) ++ [quote].

Definition join (sep : chars) (items : list chars) : chars :=
  match items with [] => [] | s :: rest => s ++ concat (List.map (fun t => sep ++ t) rest) end.

(** Keys that are not strings are converted. *)
Definition key_text (k : pkey) : string := match k with KStr s => s | KInt z => int_text z end.

Definition not_serializable : exn := TypeError "Object is not JSON serializable".

Definition bracket (open close : ascii) (texts : list chars) : chars := open :: join (chars_of ", ") texts ++ [close].
Definition member_text (k : pkey) (text : chars) : chars := string_text (key_text k) ++ chars_of ": " ++ text.

Fixpoint json_print (v : pyval) : res chars :=
  match v with
  | PNone => Ok (chars_of "null")
  | PBool b => Ok (chars_of (if b then "true" else "false"))
  | PInt z => Ok (chars_of (int_text z))
  | PFloat lit => Ok (chars_of lit)
  | PStr s => Ok (string_text s)
  | PList l | PTuple l => texts ← mapM json_print l; Ok (bracket "[" "]" texts)
  | PDict d => texts ← mapM (fun kv => member_text kv.1 <$> json_print kv.2) d; Ok (bracket "{" "}" texts)
  | PTensor _ | POpaque _ => Raise not_serializable
  end.

Definition json_dumps (v : pyval) : res string := string_of <$> json_print v.

(** ** Parsing *)

Definition is_space (c : ascii) : bool :=
  let code := nat_of_ascii c in (code =? 32) || (code =? 9) || (code =? 10) || (code =? 13).

Fixpoint skip_ws (cs : chars) : chars :=
  match cs with c :: cs' => if is_space c then skip_ws cs' else cs | [] => [] end.

Fixpoint strip_prefix (p cs : chars) : option chars :=
  match p, cs with
  | [], _ => Some cs
  | a :: p, c :: cs => if decide (a = c) then strip_prefix p cs else None
  | _ :: _, [] => None
  end.

Fixpoint span (p : ascii -> bool) (cs : chars) : chars * chars :=
  match cs with
  | c :: cs' => if p c then let '(a, b) := span p cs' in (c :: a, b) else ([], cs)
  | [] => ([], [])
  end.

Definition is_digit (c : ascii) : bool := let code := nat_of_ascii c in (48 <=? code) && (code <=? 57).
Definition is_numchar (c : ascii) : bool :=
  is_digit c || bool_decide (c ∈ ["+"; "-"; "."; "e"; "E"]%char).

(** [digits], then an optional fraction, then an optional exponent, at least one of the two. *)
Definition skip_sign (signs : chars) (cs : chars) : chars :=
  match cs with c :: cs' => if decide (c ∈ signs) then cs' else cs | [] => [] end.

Definition digits1 (cs : chars) : option chars :=
  match span is_digit cs with ([], _) => None | (_, rest) => Some rest end.

Definition exponent (cs : chars) : bool :=
  match cs with
  | c :: cs => bool_decide (c ∈ ["e"; "E"]%char) && bool_decide (digits1 (skip_sign ["+"; "-"]%char cs) = Some [])
  | [] => false
  end.

Definition float_literal (cs : chars) : bool :=
  match digits1 (skip_sign ["-"]%char cs) with
  | Some ("."%char :: cs) => match digits1 cs with Some [] => true | Some cs => exponent cs | None => false end
  | Some cs => exponent cs
  | None => false
  end.

Definition number (tok : chars) : option pyval :=
  match NilZero.int_of_string (string_of tok) with
  | Some d =>
      let z := Z.of_int d in
      if decide (string_of tok = int_text z \/ string_of tok = "-0") then Some (PInt z) else None
  | None => if float_literal tok then Some (PFloat (string_of tok)) else None
  end.

Definition literals : list (string * pyval) :=
  [("null", PNone); ("true", PBool true); ("false", PBool false);
   ("NaN", PFloat "NaN"); ("Infinity", PFloat "Infinity"); ("-Infinity", PFloat "-Infinity")].

Fixpoint literal (ls : list (string * pyval)) (cs : chars) : option (pyval * chars) :=
  match ls with
  | [] => None
  | (name, v) :: ls =>
      match strip_prefix (chars_of name) cs with Some rest => Some (v, rest) | None => literal ls cs end
  end.

Definition hex_value (c : ascii) : option nat :=
  let code := nat_of_ascii c in
  if (48 <=? code) && (code <=? 57) then Some (code - 48)
  else if (97 <=? code) && (code <=? 102) then Some (code - 87)
  else if (65 <=? code) && (code <=? 70) then Some (code - 55)
  else None.

(** One character of a string literal; code points above U+00FF are outside the model. *)
Definition unescape (cs : chars) : option (ascii * chars) :=
  match cs with
  | [] => None
  | c :: cs =>
      if decide (c = backslash) then
        match cs with
        | [] => None
        | e :: cs =>
            if decide (e = quote \/ e = backslash \/ e = "/"%char) then Some (e, cs)
            else if decide (e = "n"%char) then Some (ascii_of_nat 10, cs)
            else if decide (e = "r"%char) then Some (ascii_of_nat 13, cs)
            else if decide (e = "t"%char) then Some (ascii_of_nat 9, cs)
            else if decide (e = "f"%char) then Some (ascii_of_nat 12, cs)
            else if decide (e = "b"%char) then Some (ascii_of_nat 8, cs)
            else if decide (e = "u"%char) then
              match cs with
              | a :: b :: h :: l :: cs =>
                  if decide (hex_value a = Some 0 /\ hex_value b = Some 0) then
                    h ← hex_value h; l ← hex_value l; Some (ascii_of_nat (16 * h + l), cs)
                  else None
              | _ => None
              end
            else None
        end
      else if nat_of_ascii c <? 32 then None else Some (c, cs)
  end.

(** The characters up to the closing quote. *)
Fixpoint string_body (fuel : nat) (cs : chars) : option (chars * chars) :=
  match fuel with
  | 0 => None
  | S fuel =>
      match cs with
      | [] => None
      | c :: cs' =>
          if decide (c = quote) then Some ([], cs')
          else '(c, rest) ← unescape cs; '(s, rest) ← string_body fuel rest; Some (c :: s, rest)
      end
  end.

Definition parse_string (cs : chars) : option (string * chars) :=
  match cs with
  | c :: cs =>
      if decide (c = quote) then '(s, rest) ← string_body (S (length cs)) cs; Some (string_of s, rest) else None
  | [] => None
  end.

Definition build_dict (ms : list (string * pyval)) : list (pkey * pyval) :=
  fold_left (fun d kv => dict_set d (KStr kv.1) kv.2) ms [].

(** A number or a word. *)
Definition parse_word (cs : chars) : option (pyval * chars) :=
  let '(tok, rest) := span is_numchar cs in
  match number tok with Some v => Some (v, rest) | None => literal literals cs end.

(** [c], after white space. *)
Definition eat (c : ascii) (cs : chars) : option chars :=
  match skip_ws cs with c' :: rest => if decide (c' = c) then Some rest else None | [] => None end.

Fixpoint parse_value (fuel : nat) (cs : chars) : option (pyval * chars) :=
  match fuel with
  | 0 => None
  | S fuel =>
      match skip_ws cs with
      | [] => None
      | c :: rest =>
          if decide (c = quote) then '(s, rest) ← parse_string (c :: rest); Some (PStr s, rest)
          else if decide (c = "["%char) then
            match eat "]" rest with
            | Some rest => Some (PList [], rest)
            | None => '(l, rest) ← parse_items fuel rest; Some (PList l, rest)
            end
          else if decide (c = "{"%char) then
            match eat "}" rest with
            | Some rest => Some (PDict [], rest)
            | None => '(ms, rest) ← parse_members fuel rest; Some (PDict (build_dict ms), rest)
            end
          else parse_word (c :: rest)
      end
  end
with parse_items (fuel : nat) (cs : chars) : option (list pyval * chars) :=
  match fuel with
  | 0 => None
  | S fuel =>
      '(v, rest) ← parse_value fuel cs;
      match eat "," rest with
      | Some rest => '(l, rest) ← parse_items fuel rest; Some (v :: l, rest)
      | None => rest ← eat "]" rest; Some ([v], rest)
      end
  end
with parse_members (fuel : nat) (cs : chars) : option (list (string * pyval) * chars) :=
  match fuel with
  | 0 => None
  | S fuel =>
      '(k, rest) ← parse_string (skip_ws cs);
      rest ← eat ":" rest;
      '(v, rest) ← parse_value fuel rest;
      match eat "," rest with
      | Some rest => '(ms, rest) ← parse_members fuel rest; Some ((k, v) :: ms, rest)
      | None => rest ← eat "}" rest; Some ([(k, v)], rest)
      end
  end.

(** A text of [n] characters has fewer than [2 * n] values, items and members. *)
Definition json_loads (s : string) : res pyval :=
  let cs := chars_of s in
  match parse_value (S (length cs)) cs with
  | Some (v, rest) => match skip_ws rest with [] => Ok v | _ => Raise (ValueError "Extra data") end
  | None => Raise (ValueError "Expecting value")
  end.

(** ** What is printed can be read back *)

Lemma chars_of_app a b : chars_of (a +:+ b) = chars_of a ++ chars_of b.
Proof. induction a as [|c a IH]; [done|]. change (chars_of (String.String c a +:+ b)) with (c :: chars_of (a +:+ b)). by rewrite IH. Qed.

Lemma string_of_chars s : string_of (chars_of s) = s.
Proof. apply String.string_of_list_ascii_of_string. Qed.

Lemma unescape_escape c rest : unescape (escape c ++ rest) = Some (c, rest).
Proof. destruct c as [[] [] [] [] [] [] [] []]; reflexivity. Qed.

Lemma escape_head c rest : exists a l, escape c ++ rest = a :: l /\ a <> quote.
Proof. destruct c as [[] [] [] [] [] [] [] []]; do 2 eexists; (split; [reflexivity|discriminate]). Qed.

Lemma string_body_ok s fuel rest :
  length s < fuel -> string_body fuel (concat (List.map escape s) ++ quote :: rest) = Some (s, rest).
Proof.
  revert fuel; induction s as [|c s IH]; intros fuel Hf; (destruct fuel as [|fuel]; [lia|]); [done|].
  simpl in Hf. cbn [List.map concat]. rewrite <- app_assoc. cbn [string_body].
  destruct (escape_head c (concat (List.map escape s) ++ quote :: rest)) as (a & l & E & Ha). rewrite E.
  rewrite decide_False by done. rewrite <- E, unescape_escape. simpl. rewrite IH by lia. done.
Qed.

Lemma escaped_length s : length s <= length (concat (List.map escape s)).
Proof.
  induction s as [|c s IH]; simpl; [done|]. rewrite length_app.
  destruct (escape_head c []) as (a & l & E & _). rewrite app_nil_r in E. rewrite E. simpl. lia.
Qed.

Lemma parse_string_ok s rest : parse_string (string_text s ++ rest) = Some (s, rest).
Proof.
  assert (E : string_text s ++ rest = quote :: (concat (List.map escape (chars_of s)) ++ quote :: rest)).
  { unfold string_text. cbn [app]. by rewrite <- app_assoc. }
  rewrite E. unfold parse_string. rewrite decide_True by done.
  rewrite string_body_ok; [simpl; by rewrite string_of_chars|].
  pose proof (escaped_length (chars_of s)). rewrite length_app. simpl. lia.
Qed.

(** *** Numbers *)

Lemma span_app p t rest :
  Forall (fun c => p c = true) t -> match rest with c :: _ => p c = false | [] => True end -> span p (t ++ rest) = (t, rest).
Proof.
  intros Ht Hr. induction Ht as [|c t Hc Ht IH]; simpl; [|by rewrite Hc, IH].
  destruct rest as [|c rest]; [done|]. simpl. by rewrite Hr.
Qed.

Definition all_num (s : string) : Prop := Forall (fun c => is_numchar c = true) (chars_of s).

Lemma uint_text_num d : all_num (NilEmpty.string_of_uint d).
Proof. unfold all_num, chars_of. induction d; simpl; constructor; done. Qed.

Lemma int_text_num z : all_num (int_text z).
Proof.
  assert (Hu : forall d, all_num (NilZero.string_of_uint d)).
  { intros d. destruct d; try apply (uint_text_num (_ _)). by constructor. }
  unfold int_text. destruct (Z.to_int z) as [d|d]; [apply Hu|]. constructor; [done|apply Hu].
Qed.

Lemma to_int_not_nil z : Z.to_int z <> Decimal.Pos Decimal.Nil /\ Z.to_int z <> Decimal.Neg Decimal.Nil.
Proof.
  destruct z as [|p|p]; simpl; [done|..]; pose proof (DecimalPos.Unsigned.to_uint_nonnil p) as H;
    unfold Z.to_int; split; congruence.
Qed.

Lemma number_int z : number (chars_of (int_text z)) = Some (PInt z).
Proof.
  unfold number. rewrite string_of_chars. destruct (to_int_not_nil z) as [H1 H2].
  unfold int_text at 1. rewrite NilZero.isi by done. rewrite DecimalZ.of_to. rewrite decide_True; [done|by left].
Qed.

(** The literals that [repr] prints. *)
Definition finite_literal (lit : string) : bool :=
  forallb is_numchar (chars_of lit) && bool_decide (NilZero.int_of_string lit = None) && float_literal (chars_of lit).
Definition float_ok (lit : string) : bool :=
  finite_literal lit || bool_decide (lit ∈ ["NaN"; "Infinity"; "-Infinity"]).

Definition sep_ok (rest : chars) : Prop := match rest with c :: _ => is_numchar c = false | [] => True end.

Lemma parse_word_number s v rest :
  all_num s -> number (chars_of s) = Some v -> sep_ok rest -> parse_word (chars_of s ++ rest) = Some (v, rest).
Proof. intros Hs Hv Hr. unfold parse_word. rewrite span_app by done. by rewrite Hv. Qed.

Lemma parse_word_int z rest : sep_ok rest -> parse_word (chars_of (int_text z) ++ rest) = Some (PInt z, rest).
Proof. apply parse_word_number; [apply int_text_num|apply number_int]. Qed.

Lemma parse_word_float lit rest : float_ok lit = true -> sep_ok rest -> parse_word (chars_of lit ++ rest) = Some (PFloat lit, rest).
Proof.
  intros H Hr. apply orb_true_iff in H as [H|H].
  - apply andb_true_iff in H as [[H1 H2%bool_decide_eq_true]%andb_true_iff H3]. apply parse_word_number; [|unfold number; by rewrite string_of_chars, H2, H3|done].
    apply Forall_forall. intros c Hc. rewrite forallb_forall in H1. by apply H1, list_elem_of_In.
  - apply bool_decide_eq_true, list_elem_of_In in H as [<-|[<-|[<-|[]]]]; reflexivity.
Qed.

(** *** Values *)

(** What comes back: tuples are lists, all keys strings. *)
Fixpoint json_norm (v : pyval) : pyval :=
  match v with
  | PList l | PTuple l => PList (List.map json_norm l)
  | PDict d => PDict (List.map (fun kv => (KStr (key_text kv.1), json_norm kv.2)) d)
  | v => v
  end.

Fixpoint json_ok (v : pyval) : bool :=
  match v with
  | PFloat lit => float_ok lit
  | PList l | PTuple l => forallb json_ok l
  | PDict d => bool_decide (NoDup (List.map (fun kv : pkey * pyval => key_text kv.1) d)) && forallb (fun kv => json_ok kv.2) d
  | PTensor _ | POpaque _ => false
  | _ => true
  end.

Fixpoint vsize (v : pyval) : nat :=
  match v with
  | PList l | PTuple l => S (list_sum (List.map (fun x => S (vsize x)) l))
  | PDict d => S (list_sum (List.map (fun kv => S (vsize kv.2)) d))
  | _ => 1
  end.

(** A text that starts a value. *)
Definition starts_value (s : chars) : Prop :=
  exists c l, s = c :: l /\ is_space c = false /\ c <> "]"%char /\ c <> "}"%char.

Definition reads (v : pyval) (s : chars) : Prop :=
  vsize v <= length s /\ starts_value s /\
  forall fuel rest, vsize v <= fuel -> sep_ok rest -> parse_value fuel (s ++ rest) = Some (json_norm v, rest).
Definition parses (v : pyval) : Prop := exists s, json_print v = Ok s /\ reads v s.

Lemma skip_ws_start c l : is_space c = false -> skip_ws (c :: l) = c :: l.
Proof. intros H. simpl. by rewrite H. Qed.

Lemma parse_value_space fuel cs : parse_value fuel (" "%char :: cs) = parse_value fuel cs.
Proof. by destruct fuel. Qed.

Lemma eat_other c x l : is_space c = false -> c <> x -> eat x (c :: l) = None.
Proof. intros H Hne. unfold eat. rewrite skip_ws_start by done. by rewrite decide_False. Qed.

Lemma eat_same c l : is_space c = false -> eat c (c :: l) = Some l.
Proof. intros H. unfold eat. rewrite skip_ws_start by done. by rewrite decide_True. Qed.

(** Words and strings. *)
Lemma parse_value_word fuel c l v rest :
  is_space c = false -> c <> quote -> c <> "["%char -> c <> "{"%char ->
  parse_word (c :: l) = Some (v, rest) -> parse_value (S fuel) (c :: l) = Some (v, rest).
Proof.
  intros Hs Hq Hb Hc Hw. cbn [parse_value]. rewrite skip_ws_start by done.
  by rewrite !decide_False.
Qed.

Definition word_head (c : ascii) : bool :=
  negb (is_space c) && negb (bool_decide (c ∈ [quote; "["; "{"; "]"; "}"]%char)).

Lemma numchar_head c : is_numchar c = true -> word_head c = true.
Proof. destruct c as [[] [] [] [] [] [] [] []]; vm_compute; congruence. Qed.

Lemma parses_leaf v text :
  json_print v = Ok text -> vsize v = 1 -> json_norm v = v ->
  match text with c :: _ => word_head c = true | [] => False end ->
  (forall rest, sep_ok rest -> parse_word (text ++ rest) = Some (v, rest)) -> parses v.
Proof.
  intros Hp Hv Hn Hh Hw. destruct text as [|c l]; [done|].
  apply andb_true_iff in Hh as [H1%negb_true_iff H2%negb_true_iff%bool_decide_eq_false].
  rewrite !not_elem_of_cons in H2. destruct H2 as (Hq & Hb & Hc & Hb' & Hc' & _).
  exists (c :: l). split; [done|]. split; [rewrite Hv; simpl; lia|]. split; [by exists c, l|].
  intros fuel rest Hf Hr. rewrite Hn. destruct fuel as [|fuel]; [lia|]. apply parse_value_word; auto.
  by apply (Hw rest).
Qed.

Lemma all_num_head s : all_num s -> s <> String.EmptyString -> match chars_of s with c :: _ => word_head c = true | [] => False end.
Proof. intros H Hs. destruct s as [|c s]; [done|]. inversion H; subst. by apply numchar_head. Qed.

Lemma parses_int z : parses (PInt z).
Proof.
  eapply parses_leaf; [done..| |].
  - apply all_num_head; [apply int_text_num|]. intros E. pose proof (number_int z) as H. rewrite E in H. done.
  - intros rest. apply parse_word_int.
Qed.

Lemma parses_float lit : float_ok lit = true -> parses (PFloat lit).
Proof.
  intros H. eapply parses_leaf; [done..| |]; [|intros rest; by apply parse_word_float].
  unfold float_ok in H. apply orb_true_iff in H as [H|H].
  - apply andb_true_iff in H as [[H1 _]%andb_true_iff H3]. apply all_num_head.
    + apply Forall_forall. intros c Hc. rewrite forallb_forall in H1. by apply H1, list_elem_of_In.
    + intros ->. done.
  - apply bool_decide_eq_true, list_elem_of_In in H as [<-|[<-|[<-|[]]]]; reflexivity.
Qed.

Lemma parses_str s : parses (PStr s).
Proof.
  exists (string_text s). split; [done|]. split; [simpl; lia|]. split.
  { unfold string_text. eexists _, _. split; [done|]. by vm_compute. }
  intros fuel rest Hf Hr. destruct fuel as [|fuel]; [simpl in Hf; lia|].
  assert (E : exists l, string_text s ++ rest = quote :: l) by (unfold string_text; by eexists).
  destruct E as [l E]. rewrite E. cbn [parse_value]. rewrite skip_ws_start by done. rewrite decide_True by done.
  rewrite <- E, parse_string_ok. done.
Qed.

(** *** Lists *)

Abbreviation tail_text ts := (concat (List.map (fun t => chars_of ", " ++ t) ts)).
Definition items_size (l : list pyval) : nat := list_sum (List.map (fun x => S (vsize x)) l).

Lemma tail_sep ts close rest : is_numchar close = false -> sep_ok (tail_text ts ++ close :: rest).
Proof. by destruct ts. Qed.

Lemma items_ok l : forall ts x s fuel rest,
  reads x s -> Forall2 reads l ts -> items_size (x :: l) <= fuel ->
  parse_items fuel (s ++ tail_text ts ++ "]"%char :: rest) = Some (List.map json_norm (x :: l), rest).
Proof.
  induction l as [|y l IH]; intros ts x s fuel rest (_ & _ & Hx) HF Hf; unfold items_size in Hf; simpl in Hf;
    (destruct fuel as [|fuel]; [lia|]); cbn [parse_items]; rewrite Hx by (lia || by apply tail_sep).
  - inversion HF; subst. reflexivity.
  - inversion HF as [|? t ? ts' Hy HF']; subst. cbn [List.map concat]. rewrite <- !app_assoc.
    cbn [mbind option_bind]. change (chars_of ", " ++ ?a) with (","%char :: " "%char :: a). rewrite eat_same by done.
    destruct fuel as [|fuel]; [lia|].
    replace (parse_items (S fuel) (" "%char :: t ++ tail_text ts' ++ "]"%char :: rest))
      with (parse_items (S fuel) (t ++ tail_text ts' ++ "]"%char :: rest)) by (cbn [parse_items]; by rewrite parse_value_space).
    rewrite (IH ts' y t); [done|done|done|]. unfold items_size. simpl. lia.
Qed.

Lemma tail_length l ts : Forall2 reads l ts -> items_size l <= length (tail_text ts).
Proof.
  induction 1 as [|x s l ts (Hx & _) HF IH]; unfold items_size in *; simpl; [done|]. rewrite !length_app in *. simpl in *. lia.
Qed.

Lemma bracket_items s ts rest :
  bracket "[" "]" (s :: ts) ++ rest = "["%char :: s ++ tail_text ts ++ "]"%char :: rest.
Proof. unfold bracket, join. cbn [app]. by rewrite <- !app_assoc. Qed.

Lemma reads_list l ts : Forall2 reads l ts -> reads (PList l) (bracket "[" "]" ts).
Proof.
  intros HF. split; [|split].
  - unfold bracket. simpl. rewrite length_app. simpl. destruct HF as [|x s l ts (Hx & _) HF]; [simpl; lia|].
    pose proof (tail_length _ _ HF) as Ht. unfold items_size in Ht. simpl in *. rewrite length_app. lia.
  - eexists _, _. split; [done|]. by vm_compute.
  - intros fuel rest Hf Hr. destruct fuel as [|fuel]; [simpl in Hf; lia|]. destruct HF as [|x s l ts Hx HF]; [done|].
    rewrite bracket_items. cbn [parse_value]. rewrite skip_ws_start by done.
    rewrite decide_False by done. rewrite decide_True by done. pose proof Hx as (_ & (c & t & -> & Hs & Hb & _) & _).
    cbn [app]. rewrite eat_other by done. change (c :: t ++ ?a) with ((c :: t) ++ a).
    rewrite (items_ok l ts x (c :: t)) by (done || (unfold items_size; simpl in *; lia)). done.
Qed.

Lemma mapM_parses l : Forall parses l -> exists ts, mapM json_print l = Ok ts /\ Forall2 reads l ts.
Proof.
  intros H. destruct (mapM_total json_print l) as (ts & Hts & HF).
  - intros x Hx. rewrite Forall_forall in H. destruct (H x Hx) as (s & Hs & _). eauto.
  - exists ts. split; [done|]. eapply Forall2_impl_in; [exact HF|]. intros x s Hx Hs. rewrite Forall_forall in H.
    destruct (H x Hx) as (s' & Hs' & Hr). congruence.
Qed.

(** *** Dictionaries *)

Definition member_norm (kv : pkey * pyval) : string * pyval := (key_text kv.1, json_norm kv.2).
Definition reads_member (kv : pkey * pyval) (t : chars) : Prop := exists s, t = member_text kv.1 s /\ reads kv.2 s.
Definition members_size (d : list (pkey * pyval)) : nat := list_sum (List.map (fun kv => S (vsize kv.2)) d).

Lemma member_start k s rest : exists l, member_text k s ++ rest = quote :: l.
Proof. unfold member_text, string_text. by eexists. Qed.

Lemma parse_members_space fuel cs : parse_members fuel (" "%char :: cs) = parse_members fuel cs.
Proof. by destruct fuel. Qed.

Lemma parse_member_head k s rest :
  parse_string (skip_ws (member_text k s ++ rest)) = Some (key_text k, chars_of ": " ++ s ++ rest).
Proof.
  destruct (member_start k s rest) as [l E]. rewrite E, skip_ws_start by done. rewrite <- E. unfold member_text.
  rewrite <- !app_assoc. by rewrite parse_string_ok.
Qed.

Lemma members_ok d : forall ts kv s fuel rest,
  reads kv.2 s -> Forall2 reads_member d ts -> members_size (kv :: d) <= fuel ->
  parse_members fuel (member_text kv.1 s ++ tail_text ts ++ "}"%char :: rest) = Some (List.map member_norm (kv :: d), rest).
Proof.
  induction d as [|kv' d IH]; intros ts kv s fuel rest (_ & _ & Hx) HF Hf; unfold members_size in Hf; simpl in Hf;
    (destruct fuel as [|fuel]; [lia|]); cbn [parse_members]; rewrite parse_member_head; cbn [mbind option_bind];
    change (chars_of ": " ++ ?a) with (":"%char :: " "%char :: a); rewrite eat_same by done; cbn [mbind option_bind];
    rewrite parse_value_space, Hx by (lia || by apply tail_sep); cbn [mbind option_bind].
  - inversion HF; subst. reflexivity.
  - inversion HF as [|? t ? ts' (s' & -> & Hy) HF']; subst. cbn [List.map concat]. rewrite <- !app_assoc.
    change (chars_of ", " ++ ?a) with (","%char :: " "%char :: a). rewrite eat_same by done.
    rewrite parse_members_space, (IH ts' kv' s'); [done|done|done|]. unfold members_size. simpl. lia.
Qed.

Lemma member_length kv s : reads kv.2 s -> S (vsize kv.2) <= length (member_text kv.1 s).
Proof. intros (H & _). unfold member_text. rewrite !length_app. change (length (chars_of ": ")) with 2. lia. Qed.

Lemma members_tail_length d ts : Forall2 reads_member d ts -> members_size d <= length (tail_text ts).
Proof.
  induction 1 as [|kv t d ts (s & -> & Hs) HF IH]; unfold members_size in *; [done|].
  apply member_length in Hs. revert Hs. generalize (member_text kv.1 s). intros t Hs. simpl in *. rewrite !length_app in *. simpl in *. lia.
Qed.

Lemma bracket_members t ts rest :
  bracket "{" "}" (t :: ts) ++ rest = "{"%char :: t ++ tail_text ts ++ "}"%char :: rest.
Proof. unfold bracket, join. cbn [app]. by rewrite <- !app_assoc. Qed.

(** Building a dictionary from members with distinct names. *)
Lemma build_dict_nodup (ms : list (string * pyval)) :
  NoDup ms.*1 -> build_dict ms = List.map (fun kv => (KStr kv.1, kv.2)) ms.
Proof.
  unfold build_dict. intros Hn. enough (Hgen : forall acc, (forall k, k ∈ dict_keys acc -> forall s, k = KStr s -> s ∉ ms.*1) ->
    fold_left (fun d kv => dict_set d (KStr kv.1) kv.2) ms acc = acc ++ List.map (fun kv => (KStr kv.1, kv.2)) ms).
  { rewrite Hgen; [done|]. intros k Hk. by apply not_elem_of_nil in Hk. }
  induction ms as [|[k v] ms IH]; intros acc Hacc; [by rewrite app_nil_r|]. csimpl in Hn. apply NoDup_cons in Hn as [Hk Hn].
  simpl. assert (Hnew : KStr k ∉ dict_keys acc). { intros Hin. apply (Hacc _ Hin k); [done|]. csimpl. by left. }
  rewrite (IH Hn).
  - rewrite dict_set_new by done. by rewrite <- app_assoc.
  - intros k' Hk' s ->. rewrite dict_keys_set in Hk'. destruct Hk' as [[= ->]|Hk']; [done|].
    intros Hs. apply (Hacc _ Hk' s eq_refl). csimpl. by right.
Qed.

Lemma reads_dict d ts :
  NoDup (List.map (fun kv => key_text kv.1) d) -> Forall2 reads_member d ts -> reads (PDict d) (bracket "{" "}" ts).
Proof.
  intros Hn HF. split; [|split].
  - unfold bracket. simpl. rewrite length_app. destruct HF as [|kv t d ts (s & -> & Hs) HF]; [simpl; lia|].
    pose proof (members_tail_length _ _ HF) as Ht. apply member_length in Hs. revert Hs.
    generalize (member_text kv.1 s). intros t Hs. unfold members_size in Ht. simpl in *. rewrite length_app. lia.
  - eexists _, _. split; [done|]. by vm_compute.
  - intros fuel rest Hf Hr. destruct fuel as [|fuel]; [simpl in Hf; lia|].
    destruct HF as [|kv t d ts (s & -> & Hs) HF]; [done|].
    rewrite bracket_members. cbn [parse_value]. rewrite skip_ws_start by done.
    rewrite !decide_False by done. rewrite decide_True by done.
    destruct (member_start kv.1 s (tail_text ts ++ "}"%char :: rest)) as [l E]. rewrite E, eat_other by done. rewrite <- E.
    rewrite (members_ok d ts kv s) by (done || (unfold members_size; simpl in *; lia)). cbn [mbind option_bind].
    rewrite build_dict_nodup.
    + do 3 f_equal. rewrite List.map_map. done.
    + unfold member_norm. rewrite <- list_fmap_compose. exact Hn.
Qed.

Lemma mapM_reads_members d :
  Forall (fun kv => parses kv.2) d ->
  exists ts, mapM (fun kv => member_text kv.1 <$> json_print kv.2) d = Ok ts /\ Forall2 reads_member d ts.
Proof.
  intros H. destruct (mapM_total (fun kv : pkey * pyval => member_text kv.1 <$> json_print kv.2) d) as (ts & Hts & HF).
  - intros x Hx. rewrite Forall_forall in H. destruct (H x Hx) as (s & Hs & _). rewrite Hs. by eexists.
  - exists ts. split; [done|]. eapply Forall2_impl_in; [exact HF|]. intros x t Hx Ht. rewrite Forall_forall in H.
    destruct (H x Hx) as (s & Hs & Hr). simpl in Ht. rewrite Hs in Ht. injection Ht as <-. by exists s.
Qed.

(** *** The round trip *)

Lemma forallb_Forall {A} (P : A -> Prop) (f : A -> bool) l :
  Forall (fun x => f x = true -> P x) l -> forallb f l = true -> Forall P l.
Proof.
  induction 1 as [|x l Hx _ IH]; simpl; [constructor|]. intros [H1 H2]%andb_true_iff. constructor; auto.
Qed.

Lemma json_parses v : json_ok v = true -> parses v.
Proof.
  induction v as [|b|z|lit|s|l IH|l IH|d IH|t|cls] using pyval_induction; intros Hok; try discriminate Hok.
  - eapply parses_leaf; done.
  - destruct b; eapply parses_leaf; done.
  - apply parses_int.
  - by apply parses_float.
  - apply parses_str.
  - destruct (mapM_parses l) as (ts & Hts & HF); [by eapply forallb_Forall|].
    exists (bracket "[" "]" ts). split; [cbn [json_print]; by rewrite Hts|by apply reads_list].
  - destruct (mapM_parses l) as (ts & Hts & HF); [by eapply forallb_Forall|].
    exists (bracket "[" "]" ts). split; [cbn [json_print]; by rewrite Hts|]. exact (reads_list l ts HF).
  - simpl in Hok. apply andb_true_iff in Hok as [Hn%bool_decide_eq_true Hok].
    destruct (mapM_reads_members d) as (ts & Hts & HF); [by apply (forallb_Forall _ (fun kv => json_ok kv.2))|].
    exists (bracket "{" "}" ts). split; [cbn [json_print]; by rewrite Hts|by apply reads_dict].
Qed.

Lemma json_roundtrip v : json_ok v = true -> exists s, json_dumps v = Ok s /\ json_loads s = Ok (json_norm v).
Proof.
  intros (s & Hs & Hsz & _ & Hp)%json_parses. exists (string_of s). unfold json_dumps, json_loads. rewrite Hs. split; [done|].
  assert (E : chars_of (string_of s) = s) by apply String.list_ascii_of_string_of_list_ascii. rewrite E.
  specialize (Hp (S (length s)) [] ltac:(lia) I). rewrite app_nil_r in Hp. by rewrite Hp.
Qed.
