(* ===== verification/Wire.v ===== *)
(** * The binary wire protocol

    Source: [src/arctic_platform/wire.py].

    [dumps] turns a nested Python value into one safetensors frame: the tensors go into the
    tensor section under their path, the rest into a JSON skeleton in the header; [loads] is
    its inverse.  Operation metadata travels in the same header and can be read without the
    tensors ([read_metadata]).  A frame that is too large is cut into chunk frames that
    describe themselves ([encode_byte_chunks], [decode_byte_chunks]).

    The library safetensors is a parameter ([Safetensors]) with its documented behaviour
    ([SafetensorsLaws]): a frame is a little-endian 64-bit length, a JSON header with the
    metadata under ["__metadata__"], then the tensors, and loading gives the saved tensors
    back.  [BoxTensors] is a concrete implementation that satisfies the laws.  The digest
    function and the random group id are parameters without any law.

    Bytes are [ascii] characters.  UTF-8 decoding covers the characters below U+0100.  Tensor
    storage (devices, contiguity, shared memory) is not modelled: a tensor is its type, shape
    and values.  Skeleton nodes that are not lists, which no encoder writes, are rejected. *)

From stdpp Require Import prelude strings list.
From Stdlib Require Import ZArith NArith Lia Ascii ZifyNat ZifyN ZifyBool DecimalString.
From S2P Require Import Prelude Dict Tensor Json.
Local Open Scope nat_scope.

Abbreviation bytes := (list ascii).
Abbreviation tensors := (list (string * wtensor)).

Definition WIRE_FORMAT_VERSION : string := "DSSST1".
Definition STRUCT_KEY : string := "dss".
Definition OP_KEY : string := "op".
Definition REQUEST_CHUNK_KEY : string := "request_chunk".
Definition RESULT_CHUNK_KEY : string := "result_chunk".
Definition PLACEHOLDER_KEY : string := "__dss_empty__".
Definition ROOT_KEY : string := "__root__".
Definition MAX_HEADER_BYTES : N := 64 * 1024 * 1024.
Definition CHUNK_PAYLOAD_KEY : string := "payload".
Definition DEFAULT_CHUNK_OVERHEAD_BYTES : Z := 8192.

(** [WireError] is a subclass of [ValueError]. *)
Definition WireError (msg : string) : exn := ErrorWithIds "WireError" [msg].
Definition AttributeError (msg : string) : exn := ErrorWithIds "AttributeError" [msg].

Definition is_value_error (e : exn) : bool :=
  match e with
  | ValueError _ => true
  | ErrorWithIds cls _ => String.eqb cls "WireError"
  | _ => false
  end.

(** ** Python helpers *)

Definition truthy_value (v : pyval) : bool :=
  match v with
  | PNone => false
  | PBool b => b
  | PInt z => negb (Z.eqb z 0)
  | PFloat lit => negb (bool_decide (lit ∈ ["0.0"; "-0.0"]))
  | PStr s => negb (bool_decide (s = String.EmptyString))
  | PList l | PTuple l => negb (bool_decide (length l = 0))
  | PDict d => negb (bool_decide (length d = 0))
  | PTensor _ | POpaque _ => true
  end.

(** [v.get(k)]: [None] when the key is absent. *)
Definition py_get (v : pyval) (k : string) : res pyval :=
  match v with
  | PDict d => Ok (default PNone (dict_get d (KStr k)))
  | _ => Raise (AttributeError "object has no attribute get")
  end.

(** [v == w]; comparisons of a float with an integer are left out. *)
Fixpoint py_eqb (v w : pyval) : bool :=
  let fix all2 (l l' : list pyval) : bool :=
    match l, l' with
    | [], [] => true
    | x :: l, y :: l' => py_eqb x y && all2 l l'
    | _, _ => false
    end in
  match v, w with
  | PNone, PNone => true
  | PBool a, PBool b => Bool.eqb a b
  | PInt a, PInt b => Z.eqb a b
  | PBool a, PInt b | PInt b, PBool a => Z.eqb b (Z.b2z a)
  | PFloat a, PFloat b | PStr a, PStr b => String.eqb a b
  | PList l, PList l' | PTuple l, PTuple l' => all2 l l'
  | PDict d, PDict d' =>
      (length d =? length d') &&
      forallb (fun kv => match dict_get d' kv.1 with Some y => py_eqb kv.2 y | None => false end) d
  | _, _ => false
  end.

(** ** Token prompts *)

Definition int_fits (bits : Z) (z : Z) : bool := (- 2 ^ (bits - 1) <=? z)%Z && (z <? 2 ^ (bits - 1))%Z.

Definition token_tensor (tokens : list Z) : res pyval :=
  if forallb (int_fits 32) tokens then Ok (PTensor (WTensor "int32" [length tokens] tokens))
  else if forallb (int_fits 64) tokens then Ok (PTensor (WTensor "int64" [length tokens] tokens))
  else Raise (RuntimeError "Overflow when unpacking long").

(** The integers of a non-empty list of integers. *)
Definition all_ints (l : list pyval) : option (list Z) :=
  match l with [] => None | _ => mapM (fun v => match v with PInt z => Some z | _ => None end) l end.

Definition pack_prompt (prompt : pyval) : res pyval :=
  match prompt with
  | PList l => match all_ints l with Some tokens => token_tensor tokens | None => Ok prompt end
  | _ => Ok prompt
  end.

Definition pack_token_prompts (prompts : pyval) : res pyval :=
  match prompts with
  | PList [] => Ok prompts
  | PList l =>
      match all_ints l with
      | Some tokens => token_tensor tokens
      | None => packed ← mapM pack_prompt l; Ok (PList packed)
      end
  | _ => Ok prompts
  end.

(** ** Encoding *)

Fixpoint subtree_has_tensor (obj : pyval) : bool :=
  match obj with
  | PTensor _ => true
  | PDict d => existsb (fun kv => subtree_has_tensor kv.2) d
  | PList l | PTuple l => existsb subtree_has_tensor l
  | _ => false
  end.

Definition is_empty_str (s : string) : bool := bool_decide (s = String.EmptyString).

(** [f"{path}.{name}" if path else name]. *)
Definition child_path (path name : string) : string :=
  if is_empty_str path then name else path +:+ "." +:+ name.

Definition tensor_key (path : string) : string := if is_empty_str path then ROOT_KEY else path.

(** [reshape(1)] of a scalar. *)
Definition stored_tensor (t : wtensor) : wtensor :=
  match w_shape t with [] => WTensor (w_dtype t) [1] (w_data t) | _ => t end.

Definition tensor_node (t : wtensor) (key : string) : pyval :=
  match w_shape t with
  | [] => PList [PStr "t"; PStr key; PDict [(KStr "scalar", PBool true)]]
  | _ => PList [PStr "t"; PStr key]
  end.

Definition json_node (obj : pyval) : pyval := PList [PStr "j"; obj].

(** The loops over the elements of a list or tuple and over the items of a dictionary. *)
Definition encode_items (f : string -> pyval -> tensors -> res (pyval * tensors)) :
    nat -> list pyval -> tensors -> res (list pyval * tensors) :=
  fix go (i : nat) (l : list pyval) (ts : tensors) :=
    match l with
    | [] => Ok ([], ts)
    | v :: l =>
        '(node, ts) ← f (int_text (Z.of_nat i)) v ts;
        '(nodes, ts) ← go (S i) l ts;
        Ok (node :: nodes, ts)
    end.

Definition encode_members (f : string -> pyval -> tensors -> res (pyval * tensors)) :
    list (pkey * pyval) -> tensors -> res (list pyval * tensors) :=
  fix go (d : list (pkey * pyval)) (ts : tensors) :=
    match d with
    | [] => Ok ([], ts)
    | kv :: d =>
        match kv.1 with
        | KInt _ => Raise (WireError "DSSST1 dict keys must be strings")
        | KStr raw_key =>
            '(node, ts) ← f raw_key kv.2 ts;
            '(nodes, ts) ← go d ts;
            Ok (PList [PStr raw_key; node] :: nodes, ts)
        end
    end.

Fixpoint encode (obj : pyval) (path : string) (ts : tensors) : res (pyval * tensors) :=
  let child name v ts := encode v (child_path path name) ts in
  match obj with
  | PTensor t => Ok (tensor_node t (tensor_key path), dict_set ts (tensor_key path) (stored_tensor t))
  | PDict d =>
      if negb (subtree_has_tensor obj) then Ok (json_node obj, ts)
      else '(nodes, ts) ← encode_members child d ts; Ok (PList [PStr "d"; PList nodes], ts)
  | PTuple l => '(nodes, ts) ← encode_items child 0 l ts; Ok (PList [PStr "u"; PList nodes], ts)
  | PList l =>
      if negb (subtree_has_tensor obj) then Ok (json_node obj, ts)
      else '(nodes, ts) ← encode_items child 0 l ts; Ok (PList [PStr "l"; PList nodes], ts)
  | obj => Ok (json_node obj, ts)
  end.

(** ** Decoding *)

Definition reshape_scalar (t : wtensor) : res wtensor :=
  _ ← check (length (w_data t) =? 1) (RuntimeError "shape [] is invalid for input");
  Ok (WTensor (w_dtype t) [] (w_data t)).

Definition decode_tensor (key : pyval) (opts : list pyval) (ts : tensors) : res pyval :=
  match key with
  | PStr key =>
      t ← dict_at ts key;
      match opts with
      | PDict o :: _ =>
          if truthy_value (default PNone (dict_get o (KStr "scalar"))) then PTensor <$> reshape_scalar t else Ok (PTensor t)
      | _ => Ok (PTensor t)
      end
  | _ => Raise (KeyError "tensor name")
  end.

Definition as_key (v : pyval) : res pkey :=
  match v with
  | PStr s => Ok (KStr s)
  | PInt z => Ok (KInt z)
  | _ => Raise (TypeError "unhashable type")
  end.

Definition decode_members (f : pyval -> res pyval) : list (pkey * pyval) -> list pyval -> res (list (pkey * pyval)) :=
  fix go (acc : list (pkey * pyval)) (items : list pyval) :=
    match items with
    | [] => Ok acc
    | PList [key; child] :: items => k ← as_key key; v ← f child; go (dict_set acc k v) items
    | PList _ :: _ => Raise (ValueError "not enough values to unpack")
    | _ => Raise (TypeError "cannot unpack")
    end.

Definition no_index : exn := IndexError "list index out of range".

Fixpoint decode (node : pyval) (ts : tensors) : res pyval :=
  match node with
  | PList (PStr tag :: rest) =>
      if decide (tag = "t") then
        match rest with [] => Raise no_index | key :: opts => decode_tensor key opts ts end
      else if decide (tag = "j") then
        match rest with [] => Raise no_index | v :: _ => Ok v end
      else if decide (tag = "d") then
        match rest with
        | [] => Raise no_index
        | PList items :: _ => PDict <$> decode_members (fun child => decode child ts) [] items
        | _ => Raise (TypeError "not iterable")
        end
      else if decide (tag = "l") then
        match rest with
        | [] => Raise no_index
        | PList l :: _ => PList <$> mapM (fun child => decode child ts) l
        | _ => Raise (TypeError "not iterable")
        end
      else if decide (tag = "u") then
        match rest with
        | [] => Raise no_index
        | PList l :: _ => PTuple <$> mapM (fun child => decode child ts) l
        | _ => Raise (TypeError "not iterable")
        end
      else Raise (WireError "unknown DSSST1 node tag")
  | PList (_ :: _) => Raise (WireError "unknown DSSST1 node tag")
  | PList [] => Raise no_index
  | _ => Raise (TypeError "node is not a list")
  end.

(** ** Bytes *)

Fixpoint le_bytes (k : nat) (n : N) : bytes :=
  match k with 0 => [] | S k => ascii_of_N (n mod 256) :: le_bytes k (n / 256) end.
(** [int.from_bytes(bs, "little")]. *)
Fixpoint le_value (bs : bytes) : N :=
  match bs with [] => 0 | b :: bs => N_of_ascii b + 256 * le_value bs end.

(** [bs.decode("utf-8")] for characters below U+0100. *)
Fixpoint utf8_decode (bs : bytes) : res chars :=
  match bs with
  | [] => Ok []
  | b :: bs =>
      let code := nat_of_ascii b in
      if code <? 128 then cs ← utf8_decode bs; Ok (b :: cs)
      else
        match bs with
        | b' :: bs =>
            let code' := nat_of_ascii b' in
            _ ← check ((194 <=? code) && (code <=? 195) && (128 <=? code') && (code' <? 192)) (ValueError "invalid utf-8");
            cs ← utf8_decode bs;
            Ok (ascii_of_nat (64 * (code - 192) + (code' - 128)) :: cs)
        | [] => Raise (ValueError "unexpected end of data")
        end
  end.

(** ** The safetensors library *)

Class Safetensors := {
  st_save : tensors -> list (string * string) -> bytes;
  st_load : bytes -> res tensors;
}.

(** Frames. *)
Section frames.
Context {ST : Safetensors}.

Definition zeros1 : wtensor := WTensor "uint8" [1] [0%Z].

Definition struct_value (tree : pyval) : pyval := PDict [(KStr "v", PStr WIRE_FORMAT_VERSION); (KStr "tree", tree)].

Definition op_header (metadata : option pyval) : res (list (string * string)) :=
  match metadata with
  | Some md => if truthy_value md then text ← json_dumps md; Ok [(OP_KEY, text)] else Ok []
  | None => Ok []
  end.

Definition dumps (obj : pyval) (metadata : option pyval) : res bytes :=
  '(tree, ts) ← encode obj String.EmptyString [];
  let ts := match ts with [] => dict_set ts PLACEHOLDER_KEY zeros1 | _ => ts end in
  text ← json_dumps (struct_value tree);
  op ← op_header metadata;
  Ok (st_save ts ((STRUCT_KEY, text) :: op)).

Definition read_header (data : bytes) : res pyval :=
  _ ← check (8 <=? length data) (WireError "payload too short to be a DSSST1 safetensors blob");
  let header_len := le_value (take 8 data) in
  _ ← check ((0 <? header_len)%N && (8 + header_len <=? N.of_nat (length data))%N && (header_len <=? MAX_HEADER_BYTES)%N)
        (WireError "invalid DSSST1 safetensors header length");
  text ← utf8_decode (take (N.to_nat header_len) (drop 8 data));
  header ← json_loads (string_of text);
  md ← py_get header "__metadata__";
  Ok (if truthy_value md then md else PDict []).

Definition is_pickle (data : bytes) : bool :=
  bool_decide (take 2 data ∈ [[ascii_of_nat 128; ascii_of_nat 2]; [ascii_of_nat 128; ascii_of_nat 3];
                              [ascii_of_nat 128; ascii_of_nat 4]; [ascii_of_nat 128; ascii_of_nat 5]]).
Definition is_zip (data : bytes) : bool :=
  bool_decide (take 4 data = ["P"%char; "K"%char; ascii_of_nat 3; ascii_of_nat 4]).

(** [json.loads(raw)] for a header value. *)
Definition loads_text (raw : pyval) : res pyval :=
  match raw with
  | PStr s => json_loads s
  | _ => Raise (TypeError "the JSON object must be str, bytes or bytearray")
  end.

Definition loads (data : bytes) : res pyval :=
  match (ts ← st_load data; header ← read_header data; Ok (ts, header)) with
  | Raise _ =>
      if is_pickle data || is_zip data then Raise (WireError "refusing to deserialize a legacy pickle/torch.save payload")
      else Raise (WireError "not a valid DSSST1 safetensors payload")
  | Ok (ts, header) =>
      raw ← py_get header STRUCT_KEY;
      _ ← check (negb (py_eqb raw PNone)) (WireError "DSSST1 structure missing from safetensors header");
      info ← loads_text raw;
      v ← py_get info "v";
      _ ← check (py_eqb v (PStr WIRE_FORMAT_VERSION)) (WireError "unsupported DSSST1 wire version");
      tree ← match info with PDict d => dict_at d (KStr "tree") | _ => Raise (TypeError "not a dict") end;
      decode tree (dict_del ts PLACEHOLDER_KEY)
  end.

Definition read_metadata (data : bytes) : res pyval :=
  match (header ← read_header data; py_get header OP_KEY) with
  | Raise e => if is_value_error e then Ok (PDict []) else Raise e
  | Ok raw => if truthy_value raw then loads_text raw else Ok (PDict [])
  end.

(** ** Byte chunks *)

Definition chunk_key (kind : string) : res string :=
  if decide (kind = "request") then Ok REQUEST_CHUNK_KEY
  else if decide (kind = "result") then Ok RESULT_CHUNK_KEY
  else Raise (WireError "unknown byte chunk kind").

Definition bytes_to_tensor (data : bytes) : wtensor :=
  WTensor "uint8" [length data] (List.map (fun b => Z.of_N (N_of_ascii b)) data).

Definition tensor_to_bytes (v : pyval) : res bytes :=
  match v with
  | PTensor t =>
      _ ← check (bool_decide (w_dtype t = "uint8")) (WireError "byte chunk payload tensor must be uint8");
      _ ← check (length (w_shape t) =? 1) (WireError "byte chunk payload tensor must be 1-D");
      Ok (List.map (fun z => ascii_of_N (Z.to_N z)) (w_data t))
  | _ => Raise (WireError "byte chunk payload must be a tensor")
  end.

Section chunks.
(** [hashlib.sha256(frame).hexdigest()], [str(uuid.uuid4())] and [int] of a float. *)
Context (sha256 : bytes -> string) (uuid4 : string) (int_of_float : string -> res Z).

(** What all chunks of a frame say. *)
Record descriptor := Descriptor {
  d_kind : string; d_operation : option string; d_group : option string; d_total : nat;
}.

Definition optional_field (name : string) (v : option string) : list (pkey * pyval) :=
  match v with Some s => [(KStr name, PStr s)] | None => [] end.

Definition chunk_desc (frame : bytes) (ds : descriptor) (chunk_idx : nat) : list (pkey * pyval) :=
  [(KStr "chunk_idx", PInt (Z.of_nat chunk_idx)); (KStr "total_chunks", PInt (Z.of_nat (d_total ds)));
   (KStr "frame_sha256", PStr (sha256 frame)); (KStr "frame_size_bytes", PInt (Z.of_nat (length frame)))] ++
  optional_field "chunk_group_id" (d_group ds) ++ optional_field "operation" (d_operation ds).

Definition make_byte_chunk_frame (frame : bytes) (ds : descriptor) (chunk_idx : nat) (range : nat * nat) : res bytes :=
  key ← chunk_key (d_kind ds);
  dumps (PDict [(KStr CHUNK_PAYLOAD_KEY, PTensor (bytes_to_tensor (take (range.2 - range.1) (drop range.1 frame))))])
    (Some (PDict [(KStr key, PDict (chunk_desc frame ds chunk_idx))])).

Definition chunk_ranges (len payload_size : nat) : list (nat * nat) :=
  match List.map (fun i => (i * payload_size, (i * payload_size + payload_size) `min` len))
          (seq 0 ((len + payload_size - 1) / payload_size)) with
  | [] => [(0, 0)]
  | ranges => ranges
  end.

Definition chunk_frames (frame : bytes) (kind : string) (operation group_id : option string) (ranges : list (nat * nat)) :
    res (list bytes) :=
  mapM (fun '(idx, range) => make_byte_chunk_frame frame (Descriptor kind operation group_id (length ranges)) idx range)
    (imap pair ranges).

(** The sizing loop: halve the payload until every chunk frame fits. *)
Fixpoint sizing_loop (fuel : nat) (frame : bytes) (kind : string) (operation group_id : option string) (max_bytes : Z)
    (payload_size : nat) : res (list bytes) :=
  match fuel with
  | 0 => Raise (RuntimeError "out of fuel")
  | S fuel =>
      chunks ← chunk_frames frame kind operation group_id (chunk_ranges (length frame) payload_size);
      if forallb (fun c : bytes => Z.of_nat (length c) <=? max_bytes)%Z chunks then Ok chunks
      else if payload_size =? 1 then Raise (WireError "max_bytes is too small to hold one DSSST1 byte chunk frame")
      else sizing_loop fuel frame kind operation group_id max_bytes (1 `max` (payload_size / 2))
  end.

Definition encode_byte_chunks (frame : bytes) (kind : string) (operation : option string) (max_bytes : Z)
    (chunk_group_id : option string) (force_chunk : bool) : res (list bytes) :=
  if negb force_chunk && ((max_bytes <=? 0)%Z || (Z.of_nat (length frame) <=? max_bytes)%Z) then Ok [frame]
  else
    _ ← check (negb ((0 <? max_bytes)%Z && (max_bytes <=? DEFAULT_CHUNK_OVERHEAD_BYTES)%Z)) (WireError "max_bytes must exceed 8192 bytes");
    let group_id :=
      if decide (kind = "request") then
        match chunk_group_id with Some g => if is_empty_str g then Some uuid4 else Some g | None => Some uuid4 end
      else None in
    if (max_bytes <=? 0)%Z then chunk_frames frame kind operation group_id [(0, length frame)]
    else
      let payload_size := Z.to_nat (max_bytes - DEFAULT_CHUNK_OVERHEAD_BYTES) in
      sizing_loop payload_size frame kind operation group_id max_bytes payload_size.

(** [k in metadata], then [dict(metadata[k])] with the kind added. *)
Definition chunk_entry (metadata : pyval) (k kind : string) : res (option (list (pkey * pyval))) :=
  match metadata with
  | PDict d =>
      match dict_get d (KStr k) with
      | None => Ok None
      | Some (PDict desc) => Ok (Some (dict_set desc (KStr "kind") (PStr kind)))
      | Some _ => Raise (TypeError "cannot convert to a dict")
      end
  | PList l => if existsb (py_eqb (PStr k)) l then Raise (TypeError "list indices must be integers") else Ok None
  | PStr s =>
      match String.index 0 k s with Some _ => Raise (TypeError "string indices must be integers") | None => Ok None end
  | _ => Raise (TypeError "argument is not iterable")
  end.

Definition read_byte_chunk_metadata (frame : bytes) : res (option (list (pkey * pyval))) :=
  metadata ← read_metadata frame;
  request ← chunk_entry metadata REQUEST_CHUNK_KEY "request";
  match request with
  | Some desc => Ok (Some desc)
  | None => chunk_entry metadata RESULT_CHUNK_KEY "result"
  end.

Definition field (desc : list (pkey * pyval)) (k : string) : pyval := default PNone (dict_get desc (KStr k)).

(** [int(desc.get(k))]. *)
Definition int_field (desc : list (pkey * pyval)) (k : string) : res Z :=
  match field desc k with
  | PInt z => Ok z
  | PBool b => Ok (Z.b2z b)
  | PFloat lit => int_of_float lit
  | PStr s => match NilZero.int_of_string s with Some d => Ok (Z.of_int d) | None => Raise (ValueError "invalid literal for int()") end
  | _ => Raise (TypeError "int() argument must be a string or a number")
  end.

Record assembly := Assembly { seen : list Z; ordered : list (Z * bytes) }.

(** One turn of the loop over the chunks, compared with the first descriptor. *)
Definition accept_chunk (first : list (pkey * pyval)) (total size : Z) (acc : assembly) (cd : bytes * list (pkey * pyval)) :
    res assembly :=
  let '(chunk, desc) := cd in
  _ ← check (py_eqb (field desc "kind") (field first "kind")) (WireError "mixed byte chunk kinds");
  t ← int_field desc "total_chunks";
  _ ← check (t =? total)%Z (WireError "byte chunk total_chunks differs across frames");
  _ ← check (py_eqb (field desc "frame_sha256") (field first "frame_sha256")) (WireError "byte chunk frame_sha256 differs across frames");
  s ← int_field desc "frame_size_bytes";
  _ ← check (s =? size)%Z (WireError "byte chunk frame_size_bytes differs across frames");
  _ ← check (py_eqb (field desc "chunk_group_id") (field first "chunk_group_id")) (WireError "byte chunk chunk_group_id differs across frames");
  _ ← check (py_eqb (field desc "operation") (field first "operation")) (WireError "byte chunk operation differs across frames");
  idx ← int_field desc "chunk_idx";
  _ ← check ((0 <=? idx) && (idx <? total))%Z (WireError "byte chunk_idx out of range");
  _ ← check (negb (bool_decide (idx ∈ seen acc))) (WireError "duplicate byte chunk_idx");
  obj ← loads chunk;
  payload ← py_get obj CHUNK_PAYLOAD_KEY;
  data ← tensor_to_bytes payload;
  Ok (Assembly (idx :: seen acc) (ordered acc ++ [(idx, data)])).

Definition reassemble (first : list (pkey * pyval)) (chunks : list bytes) (descs : list (list (pkey * pyval))) : res bytes :=
  total ← int_field first "total_chunks";
  size ← int_field first "frame_size_bytes";
  _ ← check (Z.of_nat (length chunks) =? total)%Z (WireError "wrong number of byte chunks");
  acc ← foldM (accept_chunk first total size) (Assembly [] []) (zip chunks descs);
  _ ← check (forallb (fun i => bool_decide (Z.of_nat i ∈ seen acc)) (seq 0 (Z.to_nat total))) (WireError "missing byte chunks");
  let frame := concat (snd <$> py_sorted (fun a b : Z * bytes => a.1 <? b.1)%Z (ordered acc)) in
  _ ← check (Z.of_nat (length frame) =? size)%Z (WireError "reassembled frame size mismatch");
  _ ← check (py_eqb (PStr (sha256 frame)) (field first "frame_sha256")) (WireError "reassembled frame sha256 mismatch");
  Ok frame.

Definition decode_byte_chunks (chunks : list bytes) (kind : option string) : res bytes :=
  match chunks with
  | [] => Raise (WireError "decode_byte_chunks requires at least one frame")
  | chunk :: rest =>
      single ← match rest with [] => read_byte_chunk_metadata chunk | _ => Ok (Some []) end;
      match single with
      | None => Ok chunk
      | Some _ =>
          descs ← mapM read_byte_chunk_metadata chunks;
          descs ← mapM (fun d => match d with Some d => Ok d | None => Raise (WireError "frame without byte chunk metadata") end) descs;
          match descs with
          | [] => Raise (IndexError "list index out of range")
          | first :: _ =>
              _ ← check (match kind with Some k => py_eqb (field first "kind") (PStr k) | None => true end) (WireError "wrong kind of chunks");
              reassemble first chunks descs
          end
      end
  end.

Definition encode_result_chunks (result : pyval) (max_bytes : Z) : res (list bytes) :=
  frame ← dumps result None;
  encode_byte_chunks frame "result" None max_bytes None false.

Definition decode_result_chunks (chunks : list bytes) : res pyval :=
  frame ← decode_byte_chunks chunks (Some "result");
  loads frame.
End chunks.
End frames.

(** ** What the encoder writes *)

Definition map_from {A} (f : string -> pyval -> A) : nat -> list pyval -> list A :=
  fix go (i : nat) (l : list pyval) := match l with [] => [] | v :: l => f (int_text (Z.of_nat i)) v :: go (S i) l end.

(** The skeleton of a value, and its tensors under their paths. *)
Fixpoint node_of (obj : pyval) (path : string) : pyval :=
  let child name v := node_of v (child_path path name) in
  match obj with
  | PTensor t => tensor_node t (tensor_key path)
  | PDict d =>
      if negb (subtree_has_tensor obj) then json_node obj
      else PList [PStr "d"; PList (List.map (fun kv => PList [PStr (key_text kv.1); child (key_text kv.1) kv.2]) d)]
  | PTuple l => PList [PStr "u"; PList (map_from child 0 l)]
  | PList l => if negb (subtree_has_tensor obj) then json_node obj else PList [PStr "l"; PList (map_from child 0 l)]
  | obj => json_node obj
  end.

Fixpoint leaves (obj : pyval) (path : string) : tensors :=
  let child name v := leaves v (child_path path name) in
  match obj with
  | PTensor t => [(tensor_key path, stored_tensor t)]
  | PDict d => concat (List.map (fun kv => child (key_text kv.1) kv.2) d)
  | PTuple l | PList l => concat (map_from child 0 l)
  | _ => []
  end.

Definition is_str_key (k : pkey) : bool := match k with KStr _ => true | KInt _ => false end.

Definition str_keys (d : list (pkey * pyval)) : bool :=
  forallb (fun kv => is_str_key kv.1) d && bool_decide (NoDup (List.map (fun kv => key_text kv.1) d)).

(** JSON gives such a value back unchanged. *)
Fixpoint json_clean (v : pyval) : bool :=
  match v with
  | PFloat lit => float_ok lit
  | PList l => forallb json_clean l
  | PDict d => str_keys d && forallb (fun kv => json_clean kv.2) d
  | PTuple _ | PTensor _ | POpaque _ => false
  | _ => true
  end.

(** Tensors may be anywhere; tuples may be where the encoder still descends; dictionaries have
    string keys. *)
Fixpoint wire_ok (obj : pyval) : bool :=
  match obj with
  | PTensor _ => true
  | PDict d => if subtree_has_tensor obj then str_keys d && forallb (fun kv => wire_ok kv.2) d else json_clean obj
  | PTuple l => forallb wire_ok l
  | PList l => if subtree_has_tensor obj then forallb wire_ok l else json_clean obj
  | obj => json_clean obj
  end.

Lemma forallb_Forall_eq {A} (f : A -> bool) l : forallb f l = true <-> Forall (fun x => f x = true) l.
Proof. rewrite forallb_forall, Forall_forall. by setoid_rewrite list_elem_of_In. Qed.

Lemma map_id_Forall {A} (f : A -> A) l : Forall (fun x => f x = x) l -> List.map f l = l.
Proof. induction 1; simpl; congruence. Qed.

Lemma str_key_text k : is_str_key k = true -> KStr (key_text k) = k.
Proof. by destruct k. Qed.

Lemma Forall_mp {A} (P : A -> Prop) (f : A -> bool) l :
  Forall (fun x => f x = true -> P x) l -> forallb f l = true -> Forall P l.
Proof. apply forallb_Forall. Qed.

Lemma clean_fixed v : json_clean v = true -> json_ok v = true /\ json_norm v = v.
Proof.
  induction v as [|b|z|lit|s|l IH|l IH|d IH|t|cls] using pyval_induction; intros H; try done.
  - simpl in *. pose proof (Forall_mp _ _ _ IH H) as HF. split.
    + apply forallb_Forall_eq. eapply Forall_impl; [exact HF|]. by intros x [? ?].
    + f_equal. apply map_id_Forall. eapply Forall_impl; [exact HF|]. by intros x [? ?].
  - simpl in *. unfold str_keys in H. apply andb_true_iff in H as [[Hk Hn]%andb_true_iff H].
    pose proof (Forall_mp _ (fun kv => json_clean kv.2) _ IH H) as HF. split.
    + rewrite Hn. apply forallb_Forall_eq. eapply Forall_impl; [exact HF|]. by intros x [? ?].
    + f_equal. apply map_id_Forall. apply forallb_Forall_eq in Hk. apply Forall_forall. intros kv Hkv.
      rewrite Forall_forall in HF, Hk. destruct (HF kv Hkv) as [_ E]. rewrite E, str_key_text by (by apply Hk). by destruct kv.
Qed.

(** The skeleton survives JSON. *)
Definition fixed (v : pyval) : Prop := json_ok v = true /\ json_norm v = v.

Lemma fixed_list l : Forall fixed l -> fixed (PList l).
Proof.
  intros H. split; simpl.
  - apply forallb_Forall_eq. eapply Forall_impl; [exact H|]. by intros x [? ?].
  - f_equal. apply map_id_Forall. eapply Forall_impl; [exact H|]. by intros x [? ?].
Qed.

Lemma Forall_map_from {A} (P : A -> Prop) f i l :
  Forall (fun v => forall name, P (f name v)) l -> Forall P (map_from f i l).
Proof. intros H. revert i; induction H as [|v l Hv _ IH]; intros i; simpl; constructor; auto. Qed.

Lemma fixed_tagged tag l : Forall fixed l -> fixed (PList [PStr tag; PList l]).
Proof. intros Hl. apply fixed_list. constructor; [done|]. constructor; [by apply fixed_list|constructor]. Qed.

Lemma fixed_json v : json_clean v = true -> fixed (json_node v).
Proof. intros Hv%clean_fixed. apply fixed_list. constructor; [done|]. by constructor. Qed.

Lemma node_fixed obj : wire_ok obj = true -> forall path, fixed (node_of obj path).
Proof.
  induction obj as [|b|z|lit|s|l IH|l IH|d IH|t|cls] using pyval_induction; intros H path; try by apply fixed_json.
  - cbn [wire_ok node_of] in *. destruct (subtree_has_tensor (PList l)); [|by apply fixed_json]. apply fixed_tagged.
    apply (Forall_map_from fixed). eapply Forall_impl; [exact (Forall_mp _ _ _ IH H)|]. auto.
  - cbn [wire_ok node_of] in *. apply fixed_tagged, (Forall_map_from fixed).
    eapply Forall_impl; [exact (Forall_mp _ _ _ IH H)|]. auto.
  - cbn [wire_ok node_of] in *. destruct (subtree_has_tensor (PDict d)); [|by apply fixed_json]. apply fixed_tagged.
    apply andb_true_iff in H as [_ H]. apply Forall_fmap. pose proof (Forall_mp _ (fun kv => wire_ok kv.2) _ IH H) as HF.
    eapply Forall_impl; [exact HF|]. intros kv Hkv. apply fixed_list. constructor; [done|]. constructor; [apply Hkv|constructor].
  - cbn [node_of]. unfold tensor_node. destruct (w_shape t); apply fixed_list; repeat constructor.
Qed.

(** The encoder returns the skeleton and adds the leaves to the tensors. *)
Definition set_all (ls ts : tensors) : tensors := fold_left (fun ts kv => dict_set ts kv.1 kv.2) ls ts.

Lemma set_all_app l l' ts : set_all (l ++ l') ts = set_all l' (set_all l ts).
Proof. apply fold_left_app. Qed.

Lemma no_tensor_no_leaves obj : subtree_has_tensor obj = false -> forall path, leaves obj path = [].
Proof.
  assert (Hfrom : forall l i (f : string -> pyval -> tensors), Forall (fun v => forall n, f n v = []) l -> concat (map_from f i l) = []).
  { intros l i f Hl. revert i; induction Hl as [|v l Hv _ IH]; intros i; simpl; [done|]. by rewrite Hv, IH. }
  assert (Hmp : forall l, Forall (fun v => subtree_has_tensor v = false -> forall path, leaves v path = []) l ->
    existsb subtree_has_tensor l = false -> Forall (fun v => forall path, leaves v path = []) l).
  { induction 1 as [|v l Hv _ IH]; simpl; [constructor|]. intros [H1 H2]%orb_false_iff. constructor; auto. }
  induction obj as [|b|z|lit|s|l IH|l IH|d IH|t|cls] using pyval_induction; intros H path; try done; simpl in *.
  - apply Hfrom. eapply Forall_impl; [by apply Hmp|]. auto.
  - apply Hfrom. eapply Forall_impl; [by apply Hmp|]. auto.
  - induction IH as [|kv d Hkv _ IHd]; simpl in *; [done|]. apply orb_false_iff in H as [H1 H2].
    rewrite Hkv by done. by apply IHd.
Qed.

Definition encodes (obj : pyval) : Prop :=
  forall path ts, encode obj path ts = Ok (node_of obj path, set_all (leaves obj path) ts).

Lemma encode_items_ok path l : Forall encodes l -> forall i ts,
  encode_items (fun name v ts => encode v (child_path path name) ts) i l ts =
  Ok (map_from (fun name v => node_of v (child_path path name)) i l,
      set_all (concat (map_from (fun name v => leaves v (child_path path name)) i l)) ts).
Proof.
  induction 1 as [|v l Hv _ IH]; intros i ts; simpl; [done|]. rewrite Hv. simpl. rewrite IH. simpl. by rewrite set_all_app.
Qed.

Lemma encode_members_ok path d : Forall (fun kv => encodes kv.2) d -> forallb (fun kv => is_str_key kv.1) d = true -> forall ts,
  encode_members (fun name v ts => encode v (child_path path name) ts) d ts =
  Ok (List.map (fun kv => PList [PStr (key_text kv.1); node_of kv.2 (child_path path (key_text kv.1))]) d,
      set_all (concat (List.map (fun kv => leaves kv.2 (child_path path (key_text kv.1))) d)) ts).
Proof.
  induction 1 as [|[k v] d Hv _ IH]; intros Hk ts; simpl in *; [done|]. apply andb_true_iff in Hk as [Hk1 Hk2].
  destruct k as [k|]; [|done]. simpl. rewrite Hv. simpl. rewrite (IH Hk2). simpl. by rewrite set_all_app.
Qed.

Lemma encode_ok obj : wire_ok obj = true -> encodes obj.
Proof.
  assert (Hjson : forall v path ts, subtree_has_tensor v = false -> Ok (json_node v, ts) = Ok (json_node v, set_all (leaves v path) ts)).
  { intros v path ts Hv. by rewrite no_tensor_no_leaves. }
  induction obj as [|b|z|lit|s|l IH|l IH|d IH|t|cls] using pyval_induction; intros H path ts; try by apply (Hjson _ path).
  - cbn [wire_ok encode node_of] in *. destruct (subtree_has_tensor (PList l)) eqn:E; cbn [negb]; [|by apply Hjson].
    rewrite (encode_items_ok path l) by exact (Forall_mp _ _ _ IH H). done.
  - cbn [wire_ok encode node_of] in *. rewrite (encode_items_ok path l) by exact (Forall_mp _ _ _ IH H). done.
  - cbn [wire_ok encode node_of] in *. destruct (subtree_has_tensor (PDict d)) eqn:E; cbn [negb]; [|by apply Hjson].
    apply andb_true_iff in H as [[Hk _]%andb_true_iff H].
    rewrite (encode_members_ok path d) by (done || exact (Forall_mp _ (fun kv => wire_ok kv.2) _ IH H)). done.
  - done.
Qed.

(** *** Decoding the skeleton *)

(** A tensor's values fill its shape and fit its type (types that are not integers are kept as
    64-bit patterns). *)
Definition dtype_range (dtype : string) : Z * Z :=
  if decide (dtype = "uint8") then (0, 255)%Z
  else if decide (dtype = "int8") then (- 2 ^ 7, 2 ^ 7 - 1)%Z
  else if decide (dtype = "int16") then (- 2 ^ 15, 2 ^ 15 - 1)%Z
  else if decide (dtype = "int32") then (- 2 ^ 31, 2 ^ 31 - 1)%Z
  else if decide (dtype = "int64") then (- 2 ^ 63, 2 ^ 63 - 1)%Z
  else if decide (dtype = "bool") then (0, 1)%Z
  else (0, 2 ^ 64 - 1)%Z.

Definition w_valid (t : wtensor) : Prop :=
  length (w_data t) = prodn (w_shape t) /\
  Forall (fun z => (dtype_range (w_dtype t)).1 <= z <= (dtype_range (w_dtype t)).2)%Z (w_data t).

#[export] Instance w_valid_dec t : Decision (w_valid t).
Proof. apply _. Defined.

Definition holds (T : tensors) (kv : string * wtensor) : Prop := dict_get T kv.1 = Some kv.2 /\ w_valid kv.2.

Definition decodes (obj : pyval) : Prop :=
  forall path T, Forall (holds T) (leaves obj path) -> decode (node_of obj path) T = Ok obj.

Lemma decode_json v T : decode (json_node v) T = Ok v.
Proof. done. Qed.

Lemma decode_tensor_node t key T : holds T (key, stored_tensor t) -> decode (tensor_node t key) T = Ok (PTensor t).
Proof.
  intros [Hg [Hl _]]. cbn [fst snd] in *. destruct t as [dt sh data]. unfold tensor_node, stored_tensor in *. cbn [w_shape w_dtype w_data] in *.
  destruct sh as [|n sh]; cbn [decode decode_tensor]; simpl; unfold dict_at; rewrite Hg; simpl; [|done].
  unfold reshape_scalar. simpl in *. by rewrite Hl.
Qed.

Lemma decode_nodes_ok path l T : Forall decodes l -> forall i,
  Forall (holds T) (concat (map_from (fun name v => leaves v (child_path path name)) i l)) ->
  mapM (fun child => decode child T) (map_from (fun name v => node_of v (child_path path name)) i l) = Ok l.
Proof.
  induction 1 as [|v l Hv _ IH]; intros i HT; simpl in *; [done|]. apply Forall_app in HT as [H1 H2].
  rewrite Hv by done. simpl. by rewrite IH.
Qed.

Lemma decode_members_ok path d T : Forall (fun kv => decodes kv.2) d -> str_keys d = true -> 
  Forall (holds T) (concat (List.map (fun kv => leaves kv.2 (child_path path (key_text kv.1))) d)) ->
  forall acc, (forall kv, kv ∈ d -> kv.1 ∉ dict_keys acc) ->
  decode_members (fun child => decode child T) acc
    (List.map (fun kv => PList [PStr (key_text kv.1); node_of kv.2 (child_path path (key_text kv.1))]) d) = Ok (acc ++ d).
Proof.
  unfold str_keys. intros HF [Hk Hn%bool_decide_eq_true]%andb_true_iff. revert Hk Hn.
  induction HF as [|[k v] d Hv _ IH]; intros Hk Hn HT acc Hacc; [by rewrite app_nil_r|].
  simpl in Hk, Hn, HT. apply andb_true_iff in Hk as [Hk1 Hk2]. apply NoDup_cons in Hn as [Hn1 Hn2]. apply Forall_app in HT as [H1 H2].
  destruct k as [k|]; [|done]. simpl. rewrite Hv by done. simpl.
  assert (Hnew : KStr k ∉ dict_keys acc) by (apply (Hacc (KStr k, v)); by left).
  rewrite IH; [|done|done|done|].
  - by rewrite dict_set_new, <- app_assoc.
  - intros kv Hkv Hin. rewrite dict_keys_set in Hin. destruct Hin as [E|Hin]; [|by apply (Hacc kv); [right|]].
    apply Hn1. apply list_elem_of_fmap. exists kv. by rewrite E.
Qed.

Lemma decode_ok obj : wire_ok obj = true -> decodes obj.
Proof.
  induction obj as [|b|z|lit|s|l IH|l IH|d IH|t|cls] using pyval_induction; intros H path T HT; try done.
  - cbn [wire_ok node_of leaves] in *. destruct (subtree_has_tensor (PList l)); [|done]. simpl.
    by rewrite (decode_nodes_ok path l T (Forall_mp _ _ _ IH H)).
  - cbn [wire_ok node_of leaves] in *. simpl. by rewrite (decode_nodes_ok path l T (Forall_mp _ _ _ IH H)).
  - cbn [wire_ok node_of leaves] in *. destruct (subtree_has_tensor (PDict d)); [|done]. apply andb_true_iff in H as [Hk H].
    simpl. rewrite (decode_members_ok path d T (Forall_mp _ (fun kv => wire_ok kv.2) _ IH H)); [done|done|done|].
    intros kv _. by apply not_elem_of_nil.
  - apply decode_tensor_node. by inversion HT.
Qed.

(** ** Frames come back *)

Class SafetensorsLaws `{Safetensors} := {
  (** Loading gives the saved tensors, in some order. *)
  st_load_save ts md :
    NoDup (dict_keys ts) -> Forall (fun kv => w_valid kv.2) ts -> NoDup (dict_keys md) ->
    (N.of_nat (length (st_save ts md)) < 2 ^ 64)%N ->
    exists ts', st_load (st_save ts md) = Ok ts' /\ forall k, dict_get ts' k = dict_get ts k;
  (** The layout of a frame: length, JSON header with the metadata, tensor bytes. *)
  st_layout ts md :
    NoDup (dict_keys ts) -> Forall (fun kv => w_valid kv.2) ts -> NoDup (dict_keys md) ->
    (N.of_nat (length (st_save ts md)) < 2 ^ 64)%N ->
    exists header body text hd md',
      st_save ts md = le_bytes 8 (N.of_nat (length header)) ++ header ++ body /\ header <> [] /\
      utf8_decode header = Ok text /\ json_loads (string_of text) = Ok (PDict hd) /\
      dict_get hd (KStr "__metadata__") = Some (PDict md') /\
      forall k, dict_get md' (KStr k) = PStr <$> dict_get md k;
}.

(** The header is within the limit (and the frame has a 64-bit length). *)
Definition frame_fits (frame : bytes) : Prop :=
  (N.of_nat (length frame) < 2 ^ 64)%N /\ (le_value (take 8 frame) <= MAX_HEADER_BYTES)%N.

Lemma length_le_bytes k n : length (le_bytes k n) = k.
Proof. revert n; induction k as [|k IH]; intros n; simpl; [done|]. by rewrite IH. Qed.

Lemma le_value_bytes k n : (n < 256 ^ N.of_nat k)%N -> le_value (le_bytes k n) = n.
Proof.
  revert n; induction k as [|k IH]; intros n Hn; [simpl in *; lia|]. rewrite Nat2N.inj_succ, N.pow_succ_r' in Hn.
  cbn [le_bytes le_value]. rewrite N_ascii_embedding by (apply N.mod_lt; lia).
  rewrite IH by (apply N.Div0.div_lt_upper_bound; lia). pose proof (N.div_mod n 256). lia.
Qed.

(** What can be sent: see [wire_ok]; in addition no two tensors share a path, no path is the
    reserved one, and the tensors are well formed. *)
Record wire_value (obj : pyval) : Prop := {
  wv_ok : wire_ok obj = true;
  wv_paths : NoDup (dict_keys (leaves obj String.EmptyString));
  wv_reserved : PLACEHOLDER_KEY ∉ dict_keys (leaves obj String.EmptyString);
  wv_tensors : Forall (fun kv => w_valid kv.2) (leaves obj String.EmptyString);
}.

#[export] Instance wire_value_dec obj : Decision (wire_value obj).
Proof.
  destruct (decide (wire_ok obj = true)); [|right; by intros []].
  destruct (decide (NoDup (dict_keys (leaves obj String.EmptyString)))); [|right; by intros []].
  destruct (decide (PLACEHOLDER_KEY ∉ dict_keys (leaves obj String.EmptyString))); [|right; by intros []].
  destruct (decide (Forall (fun kv => w_valid kv.2) (leaves obj String.EmptyString))); [|right; by intros []].
  left. by constructor.
Defined.

Definition frame_tensors (obj : pyval) : tensors :=
  match leaves obj String.EmptyString with [] => [(PLACEHOLDER_KEY, zeros1)] | ls => ls end.

Lemma set_all_new ls acc :
  NoDup (dict_keys ls) -> (forall k, k ∈ dict_keys ls -> k ∉ dict_keys acc) -> set_all ls acc = acc ++ ls.
Proof.
  unfold dict_keys, set_all. revert acc; induction ls as [|[k v] ls IH]; intros acc Hn Hd; [by rewrite app_nil_r|].
  csimpl in *. apply NoDup_cons in Hn as [Hk Hn]. assert (Hnew : k ∉ dict_keys acc) by (apply Hd; set_solver).
  rewrite IH; [by rewrite dict_set_new, <- app_assoc|done|].
  intros k' Hk' Hin. apply dict_keys_set in Hin as [->|Hin]; [done|]. by apply (Hd k'); [set_solver|].
Qed.

Lemma encode_wire obj :
  wire_value obj -> encode obj String.EmptyString [] = Ok (node_of obj String.EmptyString, leaves obj String.EmptyString).
Proof. intros [H1 H2 _ _]. rewrite (encode_ok obj H1). rewrite set_all_new; [done|done|]. intros k _. by apply not_elem_of_nil. Qed.

Lemma frame_tensors_ok obj :
  wire_value obj -> NoDup (dict_keys (frame_tensors obj)) /\ Forall (fun kv => w_valid kv.2) (frame_tensors obj).
Proof.
  intros [_ H2 _ H4]. unfold frame_tensors. destruct (leaves obj String.EmptyString); [|done].
  split; [apply NoDup_singleton|]. repeat constructor; vm_compute; congruence.
Qed.

(** Metadata that JSON can carry, and what is read back. *)
Definition metadata_ok (md : option pyval) : Prop := match md with Some m => json_ok m = true | None => True end.
Definition metadata_read (md : option pyval) : pyval :=
  match md with Some m => if truthy_value m then json_norm m else PDict [] | None => PDict [] end.

(** ** Bytes, cuts and indices *)

Definition piece (frame : bytes) (range : nat * nat) : bytes := take (range.2 - range.1) (drop range.1 frame).

Lemma bytes_tensor_roundtrip data : tensor_to_bytes (PTensor (bytes_to_tensor data)) = Ok data.
Proof.
  unfold tensor_to_bytes, bytes_to_tensor. simpl. f_equal. rewrite List.map_map. apply map_id_Forall, Forall_true.
  intros b. by rewrite N2Z.id, ascii_N_embedding.
Qed.

Lemma bytes_tensor_valid data : w_valid (bytes_to_tensor data).
Proof.
  split; [simpl; rewrite length_map; lia|]. apply Forall_fmap, Forall_true. intros b.
  change (dtype_range (w_dtype (bytes_to_tensor data))) with (0, 255)%Z. pose proof (N_ascii_bounded b). cbn [fst snd compose]. lia.
Qed.

Definition payload_value (data : bytes) : pyval := PDict [(KStr CHUNK_PAYLOAD_KEY, PTensor (bytes_to_tensor data))].

Lemma payload_wire data : wire_value (payload_value data).
Proof.
  split; [done|apply NoDup_singleton| |].
  - cbn. rewrite list_elem_of_singleton. discriminate.
  - constructor; [|constructor]. apply bytes_tensor_valid.
Qed.

(** The cuts of a frame. *)
Lemma ranges_pieces frame p :
  0 < p -> concat (piece frame <$> chunk_ranges (length frame) p) = frame.
Proof.
  intros Hp. unfold chunk_ranges. set (n := (length frame + p - 1) / p).
  assert (Hn : length frame <= n * p < length frame + p).
  { unfold n. pose proof (Nat.div_mod_eq (length frame + p - 1) p). pose proof (Nat.mod_upper_bound (length frame + p - 1) p). nia. }
  destruct (List.map _ (seq 0 n)) as [|r rs] eqn:E.
  - destruct n; [|done]. destruct frame; [done|simpl in *; lia].
  - rewrite <- E. transitivity (concat (chunks p n frame)); [|rewrite concat_chunks_take; apply take_ge; lia].
    f_equal. unfold chunks. rewrite <- list_fmap_compose. apply list_fmap_ext. intros j i Hi. apply lookup_seq in Hi as [-> Hi].
    unfold piece, chunk. cbn [compose fst snd]. simpl. destruct (Nat.le_gt_cases (length frame) (j * p + p)).
    + rewrite !take_ge by (rewrite length_drop; lia). done.
    + f_equal. lia.
Qed.

Lemma list_as_fmap {A} (d : A) (l : list A) : l = (fun i => default d (l !! i)) <$> seq 0 (length l).
Proof.
  apply list_eq. intros i. rewrite list_lookup_fmap. destruct (decide (i < length l)) as [Hi|Hi].
  - rewrite lookup_seq_lt by done. simpl. by destruct (lookup_lt_is_Some_2 l i Hi) as [x ->].
  - rewrite !lookup_ge_None_2 by (rewrite ?length_seq; lia). done.
Qed.

Lemma chunk_ranges_ne len p : chunk_ranges len p <> [].
Proof. unfold chunk_ranges. by destruct (List.map _ _). Qed.

Lemma chunk_key_total kind : kind ∈ ["request"; "result"] -> exists key, chunk_key kind = Ok key.
Proof. intros [->|[->|[]%not_elem_of_nil]%elem_of_cons]%elem_of_cons; by eexists. Qed.

Definition all_fit (max_bytes : Z) (chunks : list bytes) : Prop := Forall (fun c => Z.of_nat (length c) <= max_bytes)%Z chunks.

Lemma all_fit_spec max_bytes chunks :
  forallb (fun c : bytes => Z.of_nat (length c) <=? max_bytes)%Z chunks = true <-> all_fit max_bytes chunks.
Proof. unfold all_fit. rewrite forallb_Forall_eq. apply Forall_iff. intros c. lia. Qed.

Lemma py_eqb_str_l v s : py_eqb v (PStr s) = true -> v = PStr s.
Proof. destruct v; try done. simpl. by intros ->%String.eqb_eq. Qed.
Lemma py_eqb_str_r v s : py_eqb (PStr s) v = true -> v = PStr s.
Proof. destruct v; try done. simpl. by intros ->%String.eqb_eq. Qed.

(** Distinct indices below their number are all of them. *)
Lemma indices_complete (idxs : list Z) n :
  NoDup idxs -> (forall i, i ∈ idxs -> (0 <= i < Z.of_nat n)%Z) -> length idxs = n ->
  exists order, idxs = Z.of_nat <$> order /\ order ≡ₚ seq 0 n.
Proof.
  intros Hn Hr Hl. exists (Z.to_nat <$> idxs).
  assert (E : Z.of_nat <$> (Z.to_nat <$> idxs) = idxs).
  { rewrite <- list_fmap_compose. apply map_id_Forall, Forall_forall. intros i Hi. specialize (Hr i Hi). simpl. lia. }
  split; [done|]. apply submseteq_length_Permutation; [|rewrite length_fmap, length_seq; lia].
  apply NoDup_submseteq; [rewrite <- E in Hn; by apply NoDup_fmap_1 in Hn|].
  intros i (z & -> & Hz)%list_elem_of_fmap. specialize (Hr z Hz). apply elem_of_seq. lia.
Qed.

Section roundtrip.
Context {ST : Safetensors} {LAWS : @SafetensorsLaws ST}.

Lemma read_header_save ts md :
  NoDup (dict_keys ts) -> Forall (fun kv => w_valid kv.2) ts -> NoDup (dict_keys md) -> md <> [] ->
  frame_fits (st_save ts md) ->
  exists md', read_header (st_save ts md) = Ok (PDict md') /\ forall k, dict_get md' (KStr k) = PStr <$> dict_get md k.
Proof.
  intros Hts Hv Hmd Hne [H64 Hmax]. destruct (st_layout ts md Hts Hv Hmd H64) as (h & body & text & hd & md' & E & Hh & Htext & Hjson & Hget & Hlook).
  exists md'. split; [|done]. rewrite E in *.
  assert (Htake : take 8 (le_bytes 8 (N.of_nat (length h)) ++ h ++ body) = le_bytes 8 (N.of_nat (length h))) by (apply take_app_length'; by rewrite length_le_bytes).
  assert (Hdrop : drop 8 (le_bytes 8 (N.of_nat (length h)) ++ h ++ body) = h ++ body) by (apply drop_app_length'; by rewrite length_le_bytes).
  assert (Hlen : length (le_bytes 8 (N.of_nat (length h)) ++ h ++ body) = 8 + (length h + length body))
    by (by rewrite !length_app, length_le_bytes).
  unfold read_header. rewrite Hlen in *. rewrite Htake in *. rewrite Hdrop.
  rewrite (le_value_bytes 8) in * by (change (256 ^ N.of_nat 8)%N with (2 ^ 64)%N; lia).
  assert (0 < length h) by (destruct h; [done|simpl; lia]).
  replace (8 <=? 8 + (length h + length body)) with true by lia. cbn [check mbind res_bind].
  replace (0 <? N.of_nat (length h))%N with true by lia.
  replace (8 + N.of_nat (length h) <=? N.of_nat (8 + (length h + length body)))%N with true by lia.
  replace (N.of_nat (length h) <=? MAX_HEADER_BYTES)%N with true by (symmetry; by apply N.leb_le).
  cbn [andb check mbind res_bind]. rewrite Nat2N.id, take_app_length, Htext. cbn [mbind res_bind]. rewrite Hjson. cbn [mbind res_bind py_get].
  rewrite Hget. cbn [default mbind res_bind]. destruct md' as [|kv md']; [|done].
  destruct md as [|[k v] md]; [done|]. specialize (Hlook k). simpl in Hlook. rewrite decide_True in Hlook by done. done.
Qed.

Lemma struct_text obj :
  wire_ok obj = true -> exists text, json_dumps (struct_value (node_of obj String.EmptyString)) = Ok text /\
    json_loads text = Ok (struct_value (node_of obj String.EmptyString)).
Proof.
  intros Hw. destruct (node_fixed obj Hw String.EmptyString) as [H1 H2].
  destruct (json_roundtrip (struct_value (node_of obj String.EmptyString))) as (text & Ht & Hl).
  - simpl. by rewrite H1.
  - exists text. split; [done|]. rewrite Hl. unfold struct_value. simpl. by rewrite H2.
Qed.

(** The header that [dumps] writes. *)
Lemma dumps_frame obj md :
  wire_value obj -> metadata_ok md ->
  exists text hdr, dumps obj md = Ok (st_save (frame_tensors obj) hdr) /\ NoDup (dict_keys hdr) /\ hdr <> [] /\
    dict_get hdr STRUCT_KEY = Some text /\ json_loads text = Ok (struct_value (node_of obj String.EmptyString)) /\
    match dict_get hdr OP_KEY with
    | Some op => op <> String.EmptyString /\ json_loads op = Ok (metadata_read md)
    | None => metadata_read md = PDict []
    end.
Proof.
  intros Hw Hmd. destruct (struct_text obj (wv_ok _ Hw)) as (text & Ht & Hl). unfold dumps. rewrite (encode_wire obj Hw). cbn [mbind res_bind].
  rewrite Ht. cbn [mbind res_bind].
  assert (Hts : match leaves obj String.EmptyString with [] => dict_set (leaves obj String.EmptyString) PLACEHOLDER_KEY zeros1 | _ => leaves obj String.EmptyString end = frame_tensors obj).
  { unfold frame_tensors. by destruct (leaves obj String.EmptyString). }
  rewrite Hts. unfold op_header, metadata_read. destruct md as [m|]; [destruct (truthy_value m)|].
  2, 3: exists text, [(STRUCT_KEY, text)]; split; [done|]; split; [apply NoDup_singleton|done].
  destruct (json_roundtrip m Hmd) as (op & Ho & Hlo). rewrite Ho. exists text, [(STRUCT_KEY, text); (OP_KEY, op)].
  split; [done|]. split; [apply (bool_decide_unpack _); vm_compute; exact I|]. split; [done|]. split; [done|]. split; [done|].
  simpl. split; [|done]. intros ->. done.
Qed.

Lemma dumps_loads obj md :
  wire_value obj -> metadata_ok md ->
  exists frame, dumps obj md = Ok frame /\
    (frame_fits frame -> loads frame = Ok obj /\ read_metadata frame = Ok (metadata_read md)).
Proof.
  intros Hw Hmd. destruct (dumps_frame obj md Hw Hmd) as (text & hdr & Hd & Hn & Hne & Hs & Hl & Hop).
  destruct (frame_tensors_ok obj Hw) as [Ht1 Ht2]. eexists. split; [exact Hd|]. intros Hfit.
  destruct (read_header_save _ _ Ht1 Ht2 Hn Hne Hfit) as (md' & Hrh & Hlook).
  destruct (st_load_save _ _ Ht1 Ht2 Hn (proj1 Hfit)) as (T & HT & HTk). split.
  - unfold loads. rewrite HT. cbn [mbind res_bind]. rewrite Hrh. cbn [mbind res_bind py_get]. rewrite Hlook, Hs. cbn [fmap option_fmap option_map from_option id mbind res_bind].
    cbn [py_eqb negb check mbind res_bind loads_text]. rewrite Hl. unfold struct_value. cbn [mbind res_bind].
    change (py_get _ "v") with (Ok (PStr WIRE_FORMAT_VERSION)). cbn [mbind res_bind].
    change (check (py_eqb (PStr WIRE_FORMAT_VERSION) (PStr WIRE_FORMAT_VERSION)) _) with (Ok ()). cbn [mbind res_bind].
    change (dict_at _ (KStr "tree")) with (Ok (node_of obj String.EmptyString)). cbn [mbind res_bind].
    apply (decode_ok obj (wv_ok _ Hw)). apply Forall_forall. intros [k t] Hin. split; cbn [fst snd].
    + assert (k <> PLACEHOLDER_KEY). { intros ->. apply (wv_reserved _ Hw). by apply (list_elem_of_fmap_2 fst _ (PLACEHOLDER_KEY, t)). }
      rewrite dict_get_del_ne by done. rewrite HTk. unfold frame_tensors.
      destruct (leaves obj String.EmptyString) as [|kv ls] eqn:E; [by apply not_elem_of_nil in Hin|]. rewrite <- E in *.
      apply dict_elem_get; [apply Hw|done].
    + pose proof (wv_tensors _ Hw) as Hv. rewrite Forall_forall in Hv. by apply (Hv (k, t)).
  - unfold read_metadata. rewrite Hrh. cbn [mbind res_bind py_get]. rewrite Hlook.
    destruct (dict_get hdr OP_KEY) as [op|]; cbn [fmap option_fmap option_map from_option id truthy_value].
    + destruct Hop as [Hop1 Hop2]. rewrite bool_decide_eq_false_2 by done. exact Hop2.
    + by rewrite Hop.
Qed.

(** ** Chunks come back *)

Section chunks.
Context (sha256 : bytes -> string) (uuid4 : string) (int_of_float : string -> res Z).

Lemma desc_fixed frame ds idx key : fixed (PDict [(KStr key, PDict (chunk_desc sha256 frame ds idx))]).
Proof.
  apply clean_fixed. cbn [json_clean forallb snd]. rewrite !andb_true_r. apply andb_true_iff. split.
  - done.
  - unfold chunk_desc. destruct (d_group ds), (d_operation ds); vm_compute; reflexivity.
Qed.

(** The descriptor as the receiver sees it. *)
Definition announced (frame : bytes) (ds : descriptor) (idx : nat) : list (pkey * pyval) :=
  dict_set (chunk_desc sha256 frame ds idx) (KStr "kind") (PStr (d_kind ds)).

Lemma chunk_frame_ok frame ds idx range c :
  make_byte_chunk_frame sha256 frame ds idx range = Ok c -> frame_fits c ->
  loads c = Ok (payload_value (piece frame range)) /\
  read_byte_chunk_metadata c = Ok (Some (announced frame ds idx)).
Proof.
  intros Hc Hfit. unfold make_byte_chunk_frame in Hc. apply bind_Ok_inv in Hc as (key & Hkey & Hc).
  destruct (desc_fixed frame ds idx key) as [Hok Hnorm].
  destruct (dumps_loads (payload_value (piece frame range)) (Some (PDict [(KStr key, PDict (chunk_desc sha256 frame ds idx))]))
    (payload_wire _) Hok) as (c' & Hd & Hrt). unfold payload_value, piece in Hd. rewrite Hc in Hd. injection Hd as ->.
  destruct (Hrt Hfit) as [Hl Hm]. split; [exact Hl|]. unfold read_byte_chunk_metadata. rewrite Hm. cbn [mbind res_bind metadata_read].
  change (truthy_value _) with true. cbn iota. rewrite Hnorm. unfold chunk_key in Hkey.
  destruct (decide (d_kind ds = "request")) as [E|]; [|destruct (decide (d_kind ds = "result")) as [E|]; [|done]];
    injection Hkey as <-; unfold announced; rewrite E; reflexivity.
Qed.


Lemma announced_fields frame ds i :
  field (announced frame ds i) "kind" = PStr (d_kind ds) /\
  int_field int_of_float (announced frame ds i) "total_chunks" = Ok (Z.of_nat (d_total ds)) /\
  field (announced frame ds i) "frame_sha256" = PStr (sha256 frame) /\
  int_field int_of_float (announced frame ds i) "frame_size_bytes" = Ok (Z.of_nat (length frame)) /\
  field (announced frame ds i) "chunk_group_id" = from_option PStr PNone (d_group ds) /\
  field (announced frame ds i) "operation" = from_option PStr PNone (d_operation ds) /\
  int_field int_of_float (announced frame ds i) "chunk_idx" = Ok (Z.of_nat i).
Proof. unfold announced, chunk_desc, field, int_field, field. destruct (d_group ds), (d_operation ds); split_and!; reflexivity. Qed.

Lemma py_eqb_str_opt (o : option string) : py_eqb (from_option PStr PNone o) (from_option PStr PNone o) = true.
Proof. destruct o; [apply String.eqb_refl|done]. Qed.

Section reassembly.
Context (frame : bytes) (ds : descriptor) (ck pc : nat -> bytes).
Hypothesis ck_loads : forall i, i < d_total ds -> loads (ck i) = Ok (payload_value (pc i)).
Hypothesis ck_meta : forall i, i < d_total ds -> read_byte_chunk_metadata (ck i) = Ok (Some (announced frame ds i)).

Lemma accept_one i0 i acc :
  i < d_total ds -> Z.of_nat i ∉ seen acc ->
  accept_chunk int_of_float (announced frame ds i0) (Z.of_nat (d_total ds)) (Z.of_nat (length frame)) acc (ck i, announced frame ds i) =
  Ok (Assembly (Z.of_nat i :: seen acc) (ordered acc ++ [(Z.of_nat i, pc i)])).
Proof.
  intros Hi Hs. destruct (announced_fields frame ds i) as (E1 & E2 & E3 & E4 & E5 & E6 & E7).
  destruct (announced_fields frame ds i0) as (F1 & _ & F3 & _ & F5 & F6 & _). unfold accept_chunk.
  rewrite E1, E2, E3, E4, E5, E6, E7, F1, F3, F5, F6. cbn [py_eqb]. rewrite !String.eqb_refl, !py_eqb_str_opt.
  cbn [check mbind res_bind]. rewrite !Z.eqb_refl. cbn [check mbind res_bind]. replace ((0 <=? Z.of_nat i) && (Z.of_nat i <? Z.of_nat (d_total ds)))%Z with true by lia.
  cbn [check mbind res_bind]. rewrite bool_decide_eq_false_2 by done. cbn [negb check mbind res_bind]. rewrite ck_loads by done.
  cbn [mbind res_bind]. change (py_get (payload_value (pc i)) CHUNK_PAYLOAD_KEY) with (Ok (PTensor (bytes_to_tensor (pc i)))).
  cbn [mbind res_bind]. by rewrite bytes_tensor_roundtrip.
Qed.

Lemma accept_all i0 idxs acc :
  Forall (fun i => i < d_total ds) idxs -> NoDup idxs -> (forall i, i ∈ idxs -> Z.of_nat i ∉ seen acc) ->
  foldM (accept_chunk int_of_float (announced frame ds i0) (Z.of_nat (d_total ds)) (Z.of_nat (length frame))) acc
    (zip (ck <$> idxs) (announced frame ds <$> idxs)) =
  Ok (Assembly (reverse (Z.of_nat <$> idxs) ++ seen acc) (ordered acc ++ ((fun i => (Z.of_nat i, pc i)) <$> idxs))).
Proof.
  intros HF. revert acc; induction HF as [|i idxs Hi _ IH]; intros acc Hn Hs.
  - destruct acc. csimpl. cbn [seen ordered]. by rewrite app_nil_r.
  - apply NoDup_cons in Hn as [Hni Hn]. rewrite !fmap_cons. cbn [zip_with foldM]. rewrite accept_one by (done || (apply Hs; set_solver)). cbn [mbind res_bind].
    rewrite IH; [|done|].
    + cbn [seen ordered]. by rewrite reverse_cons, <- !app_assoc.
    + intros j Hj. cbn [seen]. rewrite not_elem_of_cons. split; [intros E; apply Nat2Z.inj in E; by subst|apply Hs; set_solver].
Qed.

Lemma reassemble_ok i0 idxs :
  idxs ≡ₚ seq 0 (d_total ds) -> concat (pc <$> seq 0 (d_total ds)) = frame ->
  reassemble sha256 int_of_float (announced frame ds i0) (ck <$> idxs) (announced frame ds <$> idxs) = Ok frame.
Proof.
  intros HP Hcat. destruct (announced_fields frame ds i0) as (_ & F2 & F3 & F4 & _). unfold reassemble. rewrite F2, F4. cbn [mbind res_bind].
  assert (Hl : length idxs = d_total ds) by (rewrite HP; apply length_seq). rewrite length_fmap, Hl, Z.eqb_refl. cbn [check mbind res_bind].
  rewrite accept_all; [|by rewrite HP; apply Forall_seq; lia|rewrite HP; apply NoDup_seq|intros i _; apply not_elem_of_nil].
  cbn [mbind res_bind seen ordered]. rewrite app_nil_r, app_nil_l.
  replace (forallb _ _) with true.
  - cbn [check mbind res_bind].
    rewrite (py_sorted_fmap (fun i => (Z.of_nat i, pc i)) Nat.ltb) by (intros x y; simpl; lia).
    rewrite (py_sorted_seq idxs (d_total ds) HP), <- list_fmap_compose. change (snd ∘ (fun i => (Z.of_nat i, pc i))) with pc.
    rewrite Hcat, Z.eqb_refl. cbn [check mbind res_bind]. rewrite F3. cbn [py_eqb]. by rewrite String.eqb_refl.
  - symmetry. apply forallb_forall. intros i Hi. apply bool_decide_eq_true. rewrite elem_of_reverse.
    apply list_elem_of_fmap_2. rewrite HP. rewrite Nat2Z.id in Hi. by apply list_elem_of_In.
Qed.

Lemma decode_chunks_ok idxs :
  0 < d_total ds -> idxs ≡ₚ seq 0 (d_total ds) -> concat (pc <$> seq 0 (d_total ds)) = frame ->
  decode_byte_chunks sha256 int_of_float (ck <$> idxs) (Some (d_kind ds)) = Ok frame.
Proof.
  intros Ht HP Hcat. assert (HF : Forall (fun i => i < d_total ds) idxs) by (rewrite HP; apply Forall_seq; lia).
  assert (Hd : mapM read_byte_chunk_metadata (ck <$> idxs) = Ok ((fun i => Some (announced frame ds i)) <$> idxs)).
  { rewrite mapM_map. apply mapM_ok. intros i Hi. rewrite Forall_forall in HF. by apply ck_meta, HF. }
  destruct idxs as [|i0 idxs]; [apply Permutation_length in HP; rewrite length_seq in HP; simpl in HP; lia|].
  unfold decode_byte_chunks. rewrite fmap_cons. rewrite <- fmap_cons.
  assert (Hs : exists d, match ck <$> idxs with [] => read_byte_chunk_metadata (ck i0) | _ => Ok (Some []) end = Ok (Some d)).
  { inversion HF; subst. destruct idxs; [rewrite ck_meta by done; eauto|csimpl; eauto]. }
  destruct Hs as [d Hs]. rewrite Hs. cbn [mbind res_bind]. rewrite Hd. cbn [mbind res_bind].
  rewrite mapM_map, (mapM_ok _ (announced frame ds)) by done. cbn [mbind res_bind]. rewrite fmap_cons.
  destruct (announced_fields frame ds i0) as (F1 & _). rewrite F1. cbn [py_eqb]. rewrite String.eqb_refl. cbn [check mbind res_bind].
  rewrite <- fmap_cons. by apply reassemble_ok.
Qed.
End reassembly.

Lemma chunk_frames_lookup frame kind op gid ranges chunks :
  chunk_frames sha256 frame kind op gid ranges = Ok chunks ->
  length chunks = length ranges /\
  forall i c, chunks !! i = Some c -> exists r, ranges !! i = Some r /\
    make_byte_chunk_frame sha256 frame (Descriptor kind op gid (length ranges)) i r = Ok c.
Proof.
  unfold chunk_frames. intros H. pose proof (mapM_ok_length _ _ _ H) as Hl. rewrite length_imap in Hl. split; [done|].
  apply mapM_ok_inv in H. intros i c Hc. destruct (Forall2_lookup_r _ _ _ _ _ H Hc) as ([j r] & Hj & Hm).
  rewrite list_lookup_imap in Hj. destruct (ranges !! i) as [r'|]; [|done]. simpl in Hj. injection Hj as -> ->. eauto.
Qed.

Lemma chunk_frames_roundtrip frame kind op gid ranges chunks chunks' :
  chunk_frames sha256 frame kind op gid ranges = Ok chunks -> Forall frame_fits chunks -> ranges <> [] ->
  concat (piece frame <$> ranges) = frame -> chunks' ≡ₚ chunks ->
  decode_byte_chunks sha256 int_of_float chunks' (Some kind) = Ok frame.
Proof.
  intros Hc Hfit Hne Hcat HP. destruct (chunk_frames_lookup _ _ _ _ _ _ Hc) as [Hl Hlook].
  set (ds := Descriptor kind op gid (length ranges)).
  set (ck := fun i => default [] (chunks !! i)). set (pc := fun i => piece frame (default (0, 0) (ranges !! i))).
  rewrite (list_as_fmap [] chunks) in HP. apply Permutation_map_inv in HP as (idxs & -> & HP'). rewrite Hl in HP'.
  assert (Hck : forall i, i < d_total ds -> loads (ck i) = Ok (payload_value (pc i)) /\
    read_byte_chunk_metadata (ck i) = Ok (Some (announced frame ds i))).
  { intros i Hi. cbn [d_total ds] in Hi. unfold ck, pc. destruct (lookup_lt_is_Some_2 chunks i) as [c Hci]; [lia|].
    destruct (Hlook i c Hci) as (r & Hr & Hm). rewrite Hci, Hr. cbn [default from_option id].
    apply chunk_frame_ok; [done|]. rewrite Forall_lookup in Hfit. by apply (Hfit i). }
  apply (decode_chunks_ok frame ds ck pc).
  - intros i Hi. by apply Hck.
  - intros i Hi. by apply Hck.
  - cbn [d_total ds]. destruct ranges; [done|simpl; lia].
  - by symmetry.
  - cbn [d_total ds]. unfold pc. etransitivity; [|exact Hcat]. f_equal. rewrite (list_as_fmap (0, 0) ranges) at 2. by rewrite <- list_fmap_compose.
Qed.

(** The sizing loop. *)
Lemma chunk_frames_total frame kind op gid ranges :
  kind ∈ ["request"; "result"] -> exists chunks, chunk_frames sha256 frame kind op gid ranges = Ok chunks.
Proof.
  intros [key Hk]%chunk_key_total. unfold chunk_frames.
  destruct (mapM_total (fun '(idx, range) => make_byte_chunk_frame sha256 frame (Descriptor kind op gid (length ranges)) idx range)
    (imap pair ranges)) as (chunks & Hc & _); [|eauto].
  intros [i r] _. unfold make_byte_chunk_frame. cbn [d_kind]. rewrite Hk. cbn [mbind res_bind].
  destruct (desc_fixed frame (Descriptor kind op gid (length ranges)) i key) as [Hok _].
  destruct (dumps_loads (payload_value (piece frame r)) (Some (PDict [(KStr key, PDict (chunk_desc sha256 frame (Descriptor kind op gid (length ranges)) i))]))
    (payload_wire _) Hok) as (c & Hd & _). eauto.
Qed.

(** With at least as much fuel as the first payload size the loop ends: it returns the cuts of
    some payload size that fit, or has seen that cuts of one byte do not. *)
Lemma sizing_loop_ok fuel frame kind op gid max_bytes p :
  kind ∈ ["request"; "result"] -> 0 < p -> p <= fuel ->
  (exists q chunks, 0 < q /\ chunk_frames sha256 frame kind op gid (chunk_ranges (length frame) q) = Ok chunks /\ all_fit max_bytes chunks /\
     sizing_loop sha256 fuel frame kind op gid max_bytes p = Ok chunks) \/
  (exists chunks, chunk_frames sha256 frame kind op gid (chunk_ranges (length frame) 1) = Ok chunks /\ ~ all_fit max_bytes chunks /\
     sizing_loop sha256 fuel frame kind op gid max_bytes p = Raise (WireError "max_bytes is too small to hold one DSSST1 byte chunk frame")).
Proof.
  clear uuid4 int_of_float. intros Hkind. revert p; induction fuel as [|fuel IH]; intros p Hp Hf; [lia|].
  destruct (chunk_frames_total frame kind op gid (chunk_ranges (length frame) p) Hkind) as [chunks Hc].
  cbn [sizing_loop]. rewrite Hc. cbn [mbind res_bind].
  destruct (forallb _ chunks) eqn:E; [left; exists p, chunks; by rewrite <- all_fit_spec|].
  assert (Hno : ~ all_fit max_bytes chunks) by (rewrite <- all_fit_spec, E; done).
  destruct (Nat.eqb_spec p 1) as [->|Hp1]; [right; by exists chunks|].
  apply IH; [lia|]. pose proof (Nat.div_lt p 2). lia.
Qed.

(** The outcomes of [encode_byte_chunks]: the frame itself, one chunk, the cuts found by the
    sizing loop, or one of the two errors. *)
Definition group_of (kind : string) (gid : option string) : option string :=
  if decide (kind = "request") then
    match gid with Some g => if is_empty_str g then Some uuid4 else Some g | None => Some uuid4 end
  else None.

Lemma encode_outcomes frame kind op max_bytes gid force :
  kind ∈ ["request"; "result"] ->
  (force = false /\ (max_bytes <= 0 \/ Z.of_nat (length frame) <= max_bytes)%Z /\
     encode_byte_chunks sha256 uuid4 frame kind op max_bytes gid force = Ok [frame]) \/
  (exists ranges chunks, chunk_frames sha256 frame kind op (group_of kind gid) ranges = Ok chunks /\ ranges <> [] /\
     concat (piece frame <$> ranges) = frame /\ (0 < max_bytes -> all_fit max_bytes chunks)%Z /\
     encode_byte_chunks sha256 uuid4 frame kind op max_bytes gid force = Ok chunks) \/
  ((0 < max_bytes <= DEFAULT_CHUNK_OVERHEAD_BYTES)%Z /\
     encode_byte_chunks sha256 uuid4 frame kind op max_bytes gid force = Raise (WireError "max_bytes must exceed 8192 bytes")) \/
  (exists chunks, chunk_frames sha256 frame kind op (group_of kind gid) (chunk_ranges (length frame) 1) = Ok chunks /\ ~ all_fit max_bytes chunks /\
     encode_byte_chunks sha256 uuid4 frame kind op max_bytes gid force =
       Raise (WireError "max_bytes is too small to hold one DSSST1 byte chunk frame")).
Proof.
  clear int_of_float. intros Hkind. unfold encode_byte_chunks. fold (group_of kind gid).
  destruct (negb force && _) eqn:E; [left; destruct force; simpl in E; [done|split; [done|split; [lia|done]]]|].
  right. destruct ((0 <? max_bytes)%Z && (max_bytes <=? DEFAULT_CHUNK_OVERHEAD_BYTES)%Z) eqn:E1.
  { right. left. split; [unfold DEFAULT_CHUNK_OVERHEAD_BYTES in *; lia|done]. }
  cbn [negb check mbind res_bind]. destruct (max_bytes <=? 0)%Z eqn:E2.
  - left. destruct (chunk_frames_total frame kind op (group_of kind gid) [(0, length frame)] Hkind) as [chunks Hc].
    exists [(0, length frame)], chunks. split; [done|]. split; [done|]. split; [|split; [lia|done]].
    csimpl. unfold piece. simpl. rewrite drop_0, Nat.sub_0_r, firstn_all. apply app_nil_r.
  - assert (Hp : 0 < Z.to_nat (max_bytes - DEFAULT_CHUNK_OVERHEAD_BYTES)) by (unfold DEFAULT_CHUNK_OVERHEAD_BYTES in *; lia).
    destruct (sizing_loop_ok _ frame kind op (group_of kind gid) max_bytes _ Hkind Hp ltac:(reflexivity)) as
      [(q & chunks & Hq & Hc & Hfit & Hl)|(chunks & Hc & Hno & Hl)]; rewrite Hl.
    + left. exists (chunk_ranges (length frame) q), chunks. split; [done|]. split; [apply chunk_ranges_ne|].
      split; [by apply ranges_pieces|done].
    + right. right. by exists chunks.
Qed.

Lemma encode_kind_ok frame kind op max_bytes gid force chunks :
  encode_byte_chunks sha256 uuid4 frame kind op max_bytes gid force = Ok chunks -> chunks = [frame] \/ kind ∈ ["request"; "result"].
Proof.
  destruct (decide (kind ∈ ["request"; "result"])) as [Hk|Hk]; [by right|]. intros H. left.
  assert (Hno : forall ranges gid', ranges <> [] -> is_ok (chunk_frames sha256 frame kind op gid' ranges) = false).
  { intros ranges gid' Hr. destruct (chunk_frames sha256 frame kind op gid' ranges) as [chs|] eqn:E; [|done].
    destruct (chunk_frames_lookup _ _ _ _ _ _ E) as [Hl Hlook]. destruct chs as [|c chs]; [by destruct ranges|].
    destruct (Hlook 0 c eq_refl) as (r & _ & Hm). unfold make_byte_chunk_frame, chunk_key in Hm. cbn [d_kind] in Hm.
    rewrite !decide_False in Hm by set_solver. done. }
  unfold encode_byte_chunks in H. fold (group_of kind gid) in H. destruct (negb force && _); [by injection H as <-|].
  destruct (check _ _); [|done]. cbn [mbind res_bind] in H. destruct (max_bytes <=? 0)%Z.
  - specialize (Hno [(0, length frame)] (group_of kind gid) ltac:(done)). by rewrite H in Hno.
  - destruct (Z.to_nat _) as [|fuel] in H; [done|]. cbn [sizing_loop] in H.
    specialize (Hno (chunk_ranges (length frame) (S fuel)) (group_of kind gid) (chunk_ranges_ne _ _)).
    by destruct (chunk_frames _ _ _ _ _ _).
Qed.

Lemma byte_chunks_ok frame kind op max_bytes gid force chunks chunks' :
  encode_byte_chunks sha256 uuid4 frame kind op max_bytes gid force = Ok chunks -> Forall frame_fits chunks ->
  read_byte_chunk_metadata frame = Ok None -> chunks' ≡ₚ chunks ->
  decode_byte_chunks sha256 int_of_float chunks' (Some kind) = Ok frame.
Proof.
  intros He Hfit Hraw HP. assert (Hone : chunks = [frame] -> decode_byte_chunks sha256 int_of_float chunks' (Some kind) = Ok frame).
  { intros ->. apply Permutation_singleton_r in HP as ->. unfold decode_byte_chunks. by rewrite Hraw. }
  destruct (encode_kind_ok _ _ _ _ _ _ _ He) as [->|Hkind]; [by apply Hone|].
  destruct (encode_outcomes frame kind op max_bytes gid force Hkind) as [(_ & _ & E)|[(ranges & chs & Hc & Hne & Hcat & _ & E)|[[_ E]|(? & _ & _ & E)]]];
    rewrite E in He; simplify_eq; [by apply Hone|]. by eapply chunk_frames_roundtrip.
Qed.

(** ** What a reassembled frame is made of *)

Definition chunk_payload (chunk : bytes) : res bytes :=
  obj ← loads chunk; payload ← py_get obj CHUNK_PAYLOAD_KEY; tensor_to_bytes payload.

(** A descriptor that agrees with the first one. *)
Definition agrees (first : list (pkey * pyval)) (total size : Z) (desc : list (pkey * pyval)) : Prop :=
  py_eqb (field desc "kind") (field first "kind") = true /\ int_field int_of_float desc "total_chunks" = Ok total /\
  py_eqb (field desc "frame_sha256") (field first "frame_sha256") = true /\
  int_field int_of_float desc "frame_size_bytes" = Ok size.

Lemma accept_inv first total size acc chunk desc acc' :
  accept_chunk int_of_float first total size acc (chunk, desc) = Ok acc' ->
  exists idx data, int_field int_of_float desc "chunk_idx" = Ok idx /\ chunk_payload chunk = Ok data /\
    (0 <= idx < total)%Z /\ idx ∉ seen acc /\ agrees first total size desc /\
    acc' = Assembly (idx :: seen acc) (ordered acc ++ [(idx, data)]).
Proof.
  unfold accept_chunk, agrees. intros H. apply bind_Ok_inv in H as ([] & H1%check_Ok_inv & H).
  apply bind_Ok_inv in H as (t & Ht & H). apply bind_Ok_inv in H as ([] & H2%check_Ok_inv & H).
  apply bind_Ok_inv in H as ([] & H3%check_Ok_inv & H). apply bind_Ok_inv in H as (sz & Hsz & H).
  apply bind_Ok_inv in H as ([] & H4%check_Ok_inv & H). apply bind_Ok_inv in H as ([] & _ & H). apply bind_Ok_inv in H as ([] & _ & H).
  apply bind_Ok_inv in H as (idx & Hidx & H). apply bind_Ok_inv in H as ([] & H5%check_Ok_inv & H).
  apply bind_Ok_inv in H as ([] & H6%check_Ok_inv & H). apply bind_Ok_inv in H as (obj & Hobj & H).
  apply bind_Ok_inv in H as (payload & Hp & H). apply bind_Ok_inv in H as (data & Hdata & H). injection H as <-.
  apply Z.eqb_eq in H2 as ->. apply Z.eqb_eq in H4 as ->. apply negb_true_iff, bool_decide_eq_false in H6.
  exists idx, data. split; [done|]. split; [|split; [lia|done]]. unfold chunk_payload. rewrite Hobj. cbn [mbind res_bind]. by rewrite Hp.
Qed.

Lemma accept_fold first total size chunks descs acc acc' :
  foldM (accept_chunk int_of_float first total size) acc (zip chunks descs) = Ok acc' -> length chunks = length descs ->
  exists idxs parts, mapM chunk_payload chunks = Ok parts /\
    mapM (fun d => int_field int_of_float d "chunk_idx") descs = Ok idxs /\
    seen acc' = reverse idxs ++ seen acc /\ ordered acc' = ordered acc ++ zip idxs parts /\
    NoDup idxs /\ (forall i, i ∈ idxs -> (0 <= i < total)%Z /\ i ∉ seen acc) /\ Forall (agrees first total size) descs.
Proof.
  revert descs acc; induction chunks as [|c chunks IH]; intros [|d descs] acc H Hl; try done.
  - injection H as <-. exists [], []. split_and!; try done; [by rewrite app_nil_r|apply NoDup_nil_2|intros i Hi; by apply not_elem_of_nil in Hi].
  - cbn [zip_with foldM] in H. apply bind_Ok_inv in H as (acc1 & H1 & H). injection Hl as Hl.
    apply accept_inv in H1 as (idx & data & Hidx & Hdata & Hrange & Hnew & Hag & ->).
    destruct (IH _ _ H Hl) as (idxs & parts & Hp & Hi & Hs & Ho & Hn & Hr & HF). cbn [seen ordered] in *.
    exists (idx :: idxs), (data :: parts). cbn [mapM]. rewrite Hdata. cbn [mbind res_bind]. rewrite Hp, Hidx. cbn [mbind res_bind]. rewrite Hi.
    split; [done|]. split; [done|]. split; [by rewrite Hs, reverse_cons, <- app_assoc|]. split; [by rewrite Ho, <- app_assoc|].
    split; [constructor; [|done]; intros Hin; destruct (Hr idx Hin) as [_ Hni]; apply Hni; by left|]. split; [|by constructor].
    intros i [->|Hin]%elem_of_cons; [done|]. destruct (Hr i Hin) as [? Hni]. split; [done|]. intros ?. apply Hni. by right.
Qed.

Lemma reassemble_sound first chunks descs frame :
  reassemble sha256 int_of_float first chunks descs = Ok frame -> length chunks = length descs ->
  exists parts order, mapM chunk_payload chunks = Ok parts /\
    mapM (fun d => int_field int_of_float d "chunk_idx") descs = Ok (Z.of_nat <$> order) /\ order ≡ₚ seq 0 (length chunks) /\
    (forall d, d ∈ descs -> py_eqb (field d "kind") (field first "kind") = true /\ field d "frame_sha256" = PStr (sha256 frame) /\
       int_field int_of_float d "frame_size_bytes" = Ok (Z.of_nat (length frame))) /\
    frame = concat (snd <$> py_sorted (fun a b : Z * bytes => a.1 <? b.1)%Z (zip (Z.of_nat <$> order) parts)).
Proof.
  unfold reassemble. intros H Hl. apply bind_Ok_inv in H as (total & Ht & H). apply bind_Ok_inv in H as (size & Hsz & H).
  apply bind_Ok_inv in H as ([] & H1%check_Ok_inv & H). apply Z.eqb_eq in H1. apply bind_Ok_inv in H as (acc & Hacc & H).
  apply bind_Ok_inv in H as ([] & _ & H). apply bind_Ok_inv in H as ([] & H2%check_Ok_inv & H). apply bind_Ok_inv in H as ([] & H3%check_Ok_inv & H).
  injection H as Hf. destruct (accept_fold _ _ _ _ _ _ _ Hacc Hl) as (idxs & parts & Hp & Hi & _ & Ho & Hn & Hr & HF).
  destruct (indices_complete idxs (length chunks)) as (order & -> & HP).
  - done.
  - intros i Hin. destruct (Hr i Hin). lia.
  - rewrite (mapM_ok_length _ _ _ Hi). done.
  - exists parts, order. cbn [ordered] in Ho. rewrite app_nil_l in Ho. rewrite Ho in *. split; [done|]. split; [done|]. split; [done|].
    split; [|done]. rewrite Hf in *. apply Z.eqb_eq in H2. apply py_eqb_str_r in H3. intros d Hd. rewrite Forall_forall in HF.
    destruct (HF d Hd) as (A1 & _ & A3 & A4). split; [done|]. rewrite H3 in A3. apply py_eqb_str_l in A3. split; [done|]. by rewrite A4, H2.
Qed.

Lemma decode_sound chunks kind frame :
  decode_byte_chunks sha256 int_of_float chunks kind = Ok frame ->
  (chunks = [frame] /\ read_byte_chunk_metadata frame = Ok None) \/
  exists descs parts order,
    mapM read_byte_chunk_metadata chunks = Ok (Some <$> descs) /\ mapM chunk_payload chunks = Ok parts /\
    mapM (fun d => int_field int_of_float d "chunk_idx") descs = Ok (Z.of_nat <$> order) /\ order ≡ₚ seq 0 (length chunks) /\
    (forall d, d ∈ descs -> (forall k, kind = Some k -> field d "kind" = PStr k) /\ field d "frame_sha256" = PStr (sha256 frame) /\
       int_field int_of_float d "frame_size_bytes" = Ok (Z.of_nat (length frame))) /\
    frame = concat (snd <$> py_sorted (fun a b : Z * bytes => a.1 <? b.1)%Z (zip (Z.of_nat <$> order) parts)).
Proof.
  unfold decode_byte_chunks. destruct chunks as [|c rest]; [done|]. intros H. apply bind_Ok_inv in H as (single & Hs & H).
  destruct single as [ds|]; [|left; destruct rest; [by injection H as ->|done]]. right.
  apply bind_Ok_inv in H as (ods & Hods & H). apply bind_Ok_inv in H as (descs & Hdescs & H).
  assert (E : ods = Some <$> descs).
  { apply mapM_ok_inv in Hdescs. clear -Hdescs. induction Hdescs as [|o d ods descs Ho _ IH]; [done|]. csimpl. destruct o; [|done]. by injection Ho as ->; rewrite IH. }
  subst ods. assert (Hl : length (c :: rest) = length descs) by (apply mapM_ok_length in Hods; by rewrite length_fmap in Hods).
  destruct descs as [|first descs]; [done|]. apply bind_Ok_inv in H as ([] & Hk%check_Ok_inv & H).
  destruct (reassemble_sound _ _ _ _ H Hl) as (parts & order & H1 & H2 & H3 & H4 & H5).
  exists (first :: descs), parts, order. split_and!; try done. intros d Hd. destruct (H4 d Hd) as (A1 & A2 & A3). split_and!; try done.
  intros k ->. apply py_eqb_str_l in Hk. rewrite Hk in A1. by apply py_eqb_str_l.
Qed.

Lemma result_chunks_ok result max_bytes frame chunks chunks' :
  wire_value result -> dumps result None = Ok frame -> frame_fits frame ->
  encode_result_chunks sha256 uuid4 result max_bytes = Ok chunks -> Forall frame_fits chunks -> chunks' ≡ₚ chunks ->
  decode_result_chunks sha256 int_of_float chunks' = Ok result.
Proof.
  intros Hw Hd Hfit He Hfits HP. destruct (dumps_loads result None Hw I) as (frame' & Hd' & Hrt). rewrite Hd in Hd'. injection Hd' as <-.
  destruct (Hrt Hfit) as [Hl Hm]. unfold encode_result_chunks in He. rewrite Hd in He. cbn [mbind res_bind] in He.
  unfold decode_result_chunks. rewrite (byte_chunks_ok _ _ _ _ _ _ _ _ He Hfits); [done| |done].
  unfold read_byte_chunk_metadata. by rewrite Hm.
Qed.
End chunks.
End roundtrip.

(** ** A concrete implementation of the library

    The tensor section is JSON, too: names, types, shapes and values. *)
Module BoxTensors.

Definition utf8_char (c : ascii) : bytes :=
  let code := nat_of_ascii c in
  if code <? 128 then [c] else [ascii_of_nat (192 + code / 64); ascii_of_nat (128 + code mod 64)].
Definition utf8_encode (cs : chars) : bytes := concat (List.map utf8_char cs).

Definition text_of (v : pyval) : chars := match json_print v with Ok s => s | Raise _ => [] end.

Definition header_value (md : list (string * string)) : pyval :=
  PDict [(KStr "__metadata__", PDict (List.map (fun kv : string * string => (KStr kv.1, PStr kv.2)) md))].

Definition tensor_value (kv : string * wtensor) : pyval :=
  PList [PStr kv.1; PStr (w_dtype kv.2); PList (List.map (fun n => PInt (Z.of_nat n)) (w_shape kv.2)); PList (List.map PInt (w_data kv.2))].

Definition as_int (v : pyval) : Z := match v with PInt z => z | _ => 0%Z end.
Definition tensor_of (v : pyval) : res (string * wtensor) :=
  match v with
  | PList [PStr name; PStr dtype; PList shape; PList data] =>
      Ok (name, WTensor dtype (List.map (fun v => Z.to_nat (as_int v)) shape) (List.map as_int data))
  | _ => Raise (ValueError "tensor")
  end.

Definition box_save (ts : tensors) (md : list (string * string)) : bytes :=
  let header := utf8_encode (text_of (header_value md)) in
  le_bytes 8 (N.of_nat (length header)) ++ header ++ text_of (PList (List.map tensor_value ts)).

Definition box_load (data : bytes) : res tensors :=
  v ← json_loads (string_of (drop (8 + N.to_nat (le_value (take 8 data))) data));
  match v with PList l => mapM tensor_of l | _ => Raise (ValueError "tensors") end.

#[export] Instance box : Safetensors := {| st_save := box_save; st_load := box_load |}.

Lemma utf8_roundtrip cs : utf8_decode (utf8_encode cs) = Ok cs.
Proof.
  assert (Hc : forall c rest, utf8_decode (utf8_char c ++ rest) = cs ← utf8_decode rest; Ok (c :: cs)).
  { intros c rest. destruct c as [[] [] [] [] [] [] [] []]; reflexivity. }
  induction cs as [|c cs IH]; [done|]. unfold utf8_encode in *. cbn [List.map concat]. by rewrite Hc, IH.
Qed.

Lemma text_roundtrip v : json_ok v = true -> text_of v <> [] /\ json_loads (string_of (text_of v)) = Ok (json_norm v).
Proof.
  intros Hv. destruct (json_roundtrip v Hv) as (s & Hs & Hl). unfold json_dumps in Hs. unfold text_of.
  destruct (json_print v) as [t|]; [|done]. injection Hs as <-. split; [|done]. by intros ->.
Qed.

Lemma tensor_value_fixed kv : fixed (tensor_value kv).
Proof.
  apply fixed_list. repeat (constructor; [done|]). constructor; [|constructor; [|constructor]]; apply fixed_list, Forall_fmap, Forall_true; done.
Qed.

Lemma tensor_of_value kv : tensor_of (tensor_value kv) = Ok kv.
Proof.
  destruct kv as [name [dtype shape data]]. simpl. do 3 f_equal; rewrite List.map_map; apply map_id_Forall, Forall_true; [|done].
  intros n. simpl. lia.
Qed.

Lemma box_frame ts md :
  (N.of_nat (length (box_save ts md)) < 2 ^ 64)%N ->
  take 8 (box_save ts md) = le_bytes 8 (N.of_nat (length (utf8_encode (text_of (header_value md))))) /\
  drop (8 + N.to_nat (le_value (take 8 (box_save ts md)))) (box_save ts md) = text_of (PList (List.map tensor_value ts)).
Proof.
  unfold box_save. set (h := utf8_encode _). intros H64. assert (E : take 8 (le_bytes 8 (N.of_nat (length h)) ++ h ++ text_of (PList (List.map tensor_value ts))) =
    le_bytes 8 (N.of_nat (length h))) by (apply take_app_length'; by rewrite length_le_bytes).
  split; [exact E|]. rewrite E, (le_value_bytes 8), Nat2N.id.
  - rewrite <- drop_drop. rewrite drop_app_length' by (by rewrite length_le_bytes). by apply drop_app_length'.
  - rewrite !length_app, length_le_bytes in H64. change (256 ^ N.of_nat 8)%N with (2 ^ 64)%N. lia.
Qed.

Lemma header_ok md : NoDup (dict_keys md) -> json_ok (header_value md) = true.
Proof.
  intros Hn. simpl. rewrite !andb_true_r. apply andb_true_iff. split.
  - apply bool_decide_eq_true. rewrite List.map_map. exact Hn.
  - apply forallb_Forall_eq, Forall_fmap, Forall_true. done.
Qed.

Lemma header_lookup (md : list (string * string)) k :
  dict_get (List.map (fun kv : pkey * pyval => (KStr (key_text kv.1), json_norm kv.2)) (List.map (fun kv : string * string => (KStr kv.1, PStr kv.2)) md)) (KStr k) =
  PStr <$> dict_get md k.
Proof.
  induction md as [|[k' v] md IH]; [done|]. simpl. destruct (decide (k = k')) as [->|Hne]; [by rewrite decide_True|].
  rewrite decide_False by congruence. exact IH.
Qed.

#[export] Instance box_laws : @SafetensorsLaws box.
Proof.
  split; intros ts md Hts Hv Hmd H64; destruct (box_frame ts md H64) as [Ht Hd].
  - exists ts. split; [|done]. simpl. unfold box_load. rewrite Hd.
    assert (HF : fixed (PList (List.map tensor_value ts))) by (apply fixed_list, Forall_fmap, Forall_true; intros; apply tensor_value_fixed).
    destruct HF as [Hok Hnorm]. destruct (text_roundtrip _ Hok) as [_ ->]. rewrite Hnorm. cbn [mbind res_bind].
    rewrite mapM_map. rewrite (mapM_ok _ (fun kv => kv)) by (intros; apply tensor_of_value). by rewrite list_fmap_id.
  - destruct (text_roundtrip _ (header_ok md Hmd)) as [Hne Hl].
    eexists (utf8_encode (text_of (header_value md))), _, _, _, _. split; [reflexivity|]. split; [|split; [apply utf8_roundtrip|split; [exact Hl|]]].
    + destruct (text_of (header_value md)) as [|c l]; [done|]. unfold utf8_encode. simpl. unfold utf8_char. by destruct (_ <? 128).
    + split; [reflexivity|]. intros k. apply header_lookup.
Qed.
End BoxTensors.

(** ** Which names keep the paths apart

    Paths are joined with dots and not escaped.  Names without dots, not empty and not the
    reserved one give every tensor a path of its own. *)

Definition plain_name (s : string) : bool :=
  negb (is_empty_str s) && forallb (fun c => negb (bool_decide (c = "."%char))) (chars_of s) && negb (bool_decide (s = PLACEHOLDER_KEY)).

Fixpoint plain_keys (obj : pyval) : bool :=
  match obj with
  | PDict d => forallb (fun kv => plain_name (key_text kv.1) && plain_keys kv.2) d
  | PTuple l | PList l => forallb plain_keys l
  | _ => true
  end.

(** The names on the way to each tensor. *)
Fixpoint leaf_names (obj : pyval) : list (list string) :=
  match obj with
  | PTensor _ => [[]]
  | PDict d => concat (List.map (fun kv => cons (key_text kv.1) <$> leaf_names kv.2) d)
  | PTuple l | PList l => concat (map_from (fun name v => cons name <$> leaf_names v) 0 l)
  | _ => []
  end.

Definition path_of (path : string) (names : list string) : string := fold_left child_path names path.

Lemma concat_map_from_fmap {A B} (g : A -> B) (f : string -> pyval -> list A) (h : string -> pyval -> list B) l i :
  Forall (fun v => forall name, h name v = g <$> f name v) l -> concat (map_from h i l) = g <$> concat (map_from f i l).
Proof. intros H. revert i; induction H as [|v l Hv _ IH]; intros i; simpl; [done|]. by rewrite Hv, IH, fmap_app. Qed.

Lemma leaves_names obj : forall path, dict_keys (leaves obj path) = (fun names => tensor_key (path_of path names)) <$> leaf_names obj.
Proof.
  unfold dict_keys. induction obj as [|b|z|lit|s|l IH|l IH|d IH|t|cls] using pyval_induction; intros path; try done; cbn [leaves leaf_names].
  1, 2: rewrite <- (concat_map_from_fmap fst (fun name v => leaves v (child_path path name)) (fun name v => (leaves v (child_path path name)).*1)) by (apply Forall_true; done);
    apply concat_map_from_fmap; eapply Forall_impl; [exact IH|]; intros v Hv name; simpl; rewrite Hv, <- list_fmap_compose; done.
  induction IH as [|[k v] d Hv _ IHd]; simpl; [done|]. rewrite !fmap_app, IHd. f_equal. rewrite Hv, <- list_fmap_compose. done.
Qed.

(** Splitting at dots. *)
Fixpoint split_dots (cur : chars) (cs : chars) : list chars :=
  match cs with
  | [] => [cur]
  | c :: cs => if decide (c = "."%char) then cur :: split_dots [] cs else split_dots (cur ++ [c]) cs
  end.

Definition dotless (s : string) : Prop := Forall (fun c => c <> "."%char) (chars_of s).

Lemma split_dots_app cur s rest : dotless s -> split_dots cur (chars_of s ++ rest) = split_dots (cur ++ chars_of s) rest.
Proof.
  unfold dotless. generalize (chars_of s) as cs. intros cs H. revert cur; induction H as [|c cs Hc _ IH]; intros cur; [by rewrite app_nil_r|].
  simpl. rewrite decide_False by done. by rewrite IH, <- app_assoc.
Qed.

Lemma path_of_split path names :
  path <> String.EmptyString -> dotless path -> Forall (fun s => s <> String.EmptyString /\ dotless s) names ->
  split_dots [] (chars_of (path_of path names)) = chars_of path :: (chars_of <$> names).
Proof.
  intros Hp Hd Hn. enough (Hgen : forall p, p <> String.EmptyString -> forall parts,
    split_dots [] (chars_of p) = parts ->
    (forall rest, split_dots [] (chars_of p ++ "."%char :: rest) = parts ++ split_dots [] rest) ->
    split_dots [] (chars_of (path_of p names)) = parts ++ (chars_of <$> names)).
  { apply (Hgen path Hp [chars_of path]).
    - pose proof (split_dots_app [] path [] Hd) as E. rewrite app_nil_r in E. by rewrite E.
    - intros rest. rewrite (split_dots_app [] path) by done. done. }
  clear Hp Hd. induction Hn as [|s names [Hs Hds] Hn IH]; intros p Hp parts H1 H2; simpl; [by rewrite app_nil_r|].
  assert (E : child_path p s = p +:+ "." +:+ s). { unfold child_path, is_empty_str. by rewrite bool_decide_eq_false_2. }
  assert (Ec : forall rest, chars_of (child_path p s) ++ rest = chars_of p ++ "."%char :: (chars_of s ++ rest)).
  { intros rest. rewrite E, !chars_of_app, <- !app_assoc. done. }
  rewrite (IH (child_path p s)) with (parts := parts ++ [chars_of s]).
  - by rewrite <- app_assoc.
  - rewrite E. by destruct p.
  - pose proof (Ec []) as E0. rewrite !app_nil_r in E0. rewrite E0, H2. pose proof (split_dots_app [] s [] Hds) as E1.
    rewrite app_nil_r in E1. by rewrite E1.
  - intros rest. rewrite Ec, H2, split_dots_app by done. by rewrite <- app_assoc.
Qed.

Definition plain (s : string) : Prop := s <> String.EmptyString /\ dotless s /\ s <> PLACEHOLDER_KEY.

Lemma plain_name_spec s : plain_name s = true -> plain s.
Proof.
  unfold plain_name, is_empty_str. intros [[H1%negb_true_iff%bool_decide_eq_false H2]%andb_true_iff H3%negb_true_iff%bool_decide_eq_false]%andb_true_iff.
  split; [done|]. split; [|done]. apply forallb_Forall_eq in H2. eapply Forall_impl; [exact H2|].
  intros c Hc%negb_true_iff%bool_decide_eq_false. done.
Qed.

Lemma index_plain i : plain (int_text (Z.of_nat i)).
Proof.
  assert (Hd : forall d, dotless (NilEmpty.string_of_uint d)) by (intros d; induction d; constructor; done).
  split; [|split].
  - intros E. pose proof (number_int (Z.of_nat i)) as H. by rewrite E in H.
  - unfold int_text. destruct (Z.to_int (Z.of_nat i)) as [d|d]; simpl; [|constructor; [done|]]; (destruct d; [by constructor|..]); apply (Hd (_ _)).
  - intros E. pose proof (int_text_num (Z.of_nat i)) as H. rewrite E in H. inversion H; subst; done.
Qed.

Lemma int_text_inj z z' : int_text z = int_text z' -> z = z'.
Proof. intros E. pose proof (number_int z) as H. rewrite E, number_int in H. by injection H. Qed.

Lemma leaf_names_plain obj : plain_keys obj = true -> Forall (Forall plain) (leaf_names obj).
Proof.
  assert (Hcons : forall s l, plain s -> Forall (Forall plain) l -> Forall (Forall plain) (cons s <$> l)).
  { intros s l Hs Hl. apply Forall_fmap. eapply Forall_impl; [exact Hl|]. intros x Hx. by constructor. }
  assert (Hfrom : forall l i, Forall (fun v => Forall (Forall plain) (leaf_names v)) l ->
    Forall (Forall plain) (concat (map_from (fun name v => cons name <$> leaf_names v) i l))).
  { intros l i Hl. revert i; induction Hl as [|v l Hv _ IH]; intros i; simpl; [constructor|]. apply Forall_app. split; [|done].
    apply Hcons; [apply index_plain|done]. }
  induction obj as [|b|z|lit|s|l IH|l IH|d IH|t|cls] using pyval_induction; intros H; cbn [leaf_names plain_keys] in *; try by constructor.
  - by apply Hfrom, (Forall_mp _ _ _ IH).
  - by apply Hfrom, (Forall_mp _ _ _ IH).
  - induction IH as [|kv d Hkv _ IHd]; simpl in *; [constructor|]. apply andb_true_iff in H as [[H1 H2]%andb_true_iff H3].
    apply Forall_app. split; [|by apply IHd]. apply Hcons; [by apply plain_name_spec|by apply Hkv].
Qed.

Lemma leaf_names_none obj : subtree_has_tensor obj = false -> leaf_names obj = [].
Proof.
  intros H. pose proof (leaves_names obj String.EmptyString) as E. rewrite no_tensor_no_leaves in E by done.
  by destruct (leaf_names obj).
Qed.

Lemma NoDup_cons_names (s : string) (l : list (list string)) : NoDup l -> NoDup (cons s <$> l).
Proof. apply NoDup_fmap_2. by intros x y [=]. Qed.

Lemma leaf_names_nodup obj : wire_ok obj = true -> NoDup (leaf_names obj).
Proof.
  assert (Hfrom : forall l i, Forall (fun v => NoDup (leaf_names v)) l ->
    NoDup (concat (map_from (fun name v => cons name <$> leaf_names v) i l)) /\
    forall ns, ns ∈ concat (map_from (fun name v => cons name <$> leaf_names v) i l) -> exists j rest, i <= j /\ ns = int_text (Z.of_nat j) :: rest).
  { intros l i Hl. revert i; induction Hl as [|v l Hv _ IH]; intros i; simpl; [split; [apply NoDup_nil_2|set_solver]|].
    destruct (IH (S i)) as [I1 I2]. split.
    - apply NoDup_app. split; [by apply NoDup_cons_names|]. split; [|done]. intros ns (rest & -> & _)%list_elem_of_fmap Hin.
      apply I2 in Hin as (j & rest' & Hj & [= E _]). apply int_text_inj in E. lia.
    - intros ns [(rest & -> & _)%list_elem_of_fmap|Hin]%elem_of_app; [by exists i, rest|].
      apply I2 in Hin as (j & rest & Hj & ->). exists j, rest. split; [lia|done]. }
  induction obj as [|b|z|lit|s|l IH|l IH|d IH|t|cls] using pyval_induction; intros H; cbn [wire_ok leaf_names] in *; try apply NoDup_nil_2.
  - destruct (subtree_has_tensor (PList l)) eqn:E; [by apply (Hfrom l 0), (Forall_mp _ _ _ IH)|].
    pose proof (leaf_names_none (PList l) E) as E'. cbn [leaf_names] in E'. rewrite E'. apply NoDup_nil_2.
  - by apply (Hfrom l 0), (Forall_mp _ _ _ IH).
  - destruct (subtree_has_tensor (PDict d)) eqn:E.
    + apply andb_true_iff in H as [[_ Hn%bool_decide_eq_true]%andb_true_iff H]. clear E Hfrom.
      induction IH as [|kv d Hkv _ IHd]; simpl in *; [apply NoDup_nil_2|]. apply andb_true_iff in H as [H1 H2].
      apply NoDup_cons in Hn as [Hk Hn]. apply NoDup_app. split; [by apply NoDup_cons_names, Hkv|]. split; [|by apply IHd].
      intros ns (rest & -> & _)%list_elem_of_fmap Hin. apply list_elem_of_In, in_concat in Hin as (l & (kv' & <- & Hkv'%list_elem_of_In)%in_map_iff & Hin%list_elem_of_In).
      apply list_elem_of_fmap in Hin as (rest' & [= E _] & _). apply Hk. rewrite E. by apply (list_elem_of_fmap_2 (fun kv : pkey * pyval => key_text kv.1)).
    + pose proof (leaf_names_none (PDict d) E) as E'. cbn [leaf_names] in E'. rewrite E'. apply NoDup_nil_2.
  - apply NoDup_singleton.
Qed.

Lemma path_of_root n ns : path_of String.EmptyString (n :: ns) = path_of n ns.
Proof. done. Qed.

Lemma path_of_plain n ns :
  Forall plain (n :: ns) -> split_dots [] (chars_of (path_of String.EmptyString (n :: ns))) = chars_of <$> (n :: ns) /\
  path_of String.EmptyString (n :: ns) <> String.EmptyString.
Proof.
  intros HF. inversion HF as [|? ? (Hn1 & Hn2 & _) Hns]; subst. rewrite path_of_root.
  assert (E : split_dots [] (chars_of (path_of n ns)) = chars_of <$> (n :: ns)).
  { rewrite (path_of_split n ns Hn1 Hn2); [done|]. eapply Forall_impl; [exact Hns|]. by intros s (? & ? & _). }
  split; [done|]. intros E0. rewrite E0 in E. csimpl in E. injection E as E _. destruct n; done.
Qed.

Lemma chars_of_inj a b : chars_of a = chars_of b -> a = b.
Proof. intros E. rewrite <- (string_of_chars a), <- (string_of_chars b). by rewrite E. Qed.

Lemma names_from_ne l l' i : In l' (map_from (fun name v => cons name <$> leaf_names v) i l) -> In [] l' -> False.
Proof.
  revert i; induction l as [|v l IH]; intros i; [done|]. intros [<-|Hl'] Hin; [|by eapply IH].
  apply in_map_iff in Hin as (? & [=] & _).
Qed.

(** Plain names are enough. *)
Lemma plain_wire_value obj :
  wire_ok obj = true -> plain_keys obj = true -> Forall (fun kv => w_valid kv.2) (leaves obj String.EmptyString) -> wire_value obj.
Proof.
  intros Hw Hp Hv. pose proof (leaf_names_plain obj Hp) as HF. pose proof (leaf_names_nodup obj Hw) as Hn.
  assert (Htens : (exists t, obj = PTensor t) \/ forall ns, ns ∈ leaf_names obj -> ns <> []).
  { destruct obj; try (right; set_solver); [right|right|right|left; by eexists]; intros ns Hin ->; cbn [leaf_names] in Hin;
      apply list_elem_of_In, in_concat in Hin as (l' & Hl' & Hin).
    1, 2: by eapply names_from_ne.
    apply in_map_iff in Hl' as (kv & <- & _). apply in_map_iff in Hin as (? & [=] & _). }
  split; [done| | |done]; rewrite leaves_names; destruct Htens as [[t ->]|Hne].
  - apply NoDup_singleton.
  - apply NoDup_fmap_2_strong; [|done]. intros ns ns' Hin Hin' E. rewrite Forall_forall in HF.
    destruct ns as [|n ns]; [by apply Hne in Hin|]. destruct ns' as [|n' ns']; [by apply Hne in Hin'|].
    destruct (path_of_plain n ns (HF _ Hin)) as [S1 N1]. destruct (path_of_plain n' ns' (HF _ Hin')) as [S2 N2].
    unfold tensor_key, is_empty_str in E. rewrite !bool_decide_eq_false_2 in E by done. rewrite E, S2 in S1.
    symmetry. revert S1. apply list_fmap_eq_inj. intros a b. apply chars_of_inj.
  - cbn. rewrite list_elem_of_singleton. discriminate.
  - intros (ns & E & Hin)%list_elem_of_fmap. destruct ns as [|n ns]; [by apply Hne in Hin|]. rewrite Forall_forall in HF.
    specialize (HF _ Hin). destruct (path_of_plain n ns HF) as [S1 N1].
    unfold tensor_key, is_empty_str in E. rewrite bool_decide_eq_false_2 in E by done. rewrite <- E in S1.
    inversion HF as [|? ? (_ & _ & Hnp) _]; subst. apply Hnp. apply chars_of_inj. csimpl in S1.
    change (split_dots [] (chars_of PLACEHOLDER_KEY)) with [chars_of PLACEHOLDER_KEY] in S1. by injection S1.
Qed.

(** ** Properties *)

(** C33: every value that satisfies [wire_value] is serialized, and the frame, when its header is
    within the limit, gives back exactly that value, for any safetensors library with the
    documented layout.  [wire_value] excludes values that [dumps] accepts and [loads] changes or
    refuses: two tensors on the same dotted path ([path_collision_same_frame]), a tensor on the
    reserved path [__dss_empty__], keys that are not strings, and tuples inside a container
    without tensors, which JSON makes lists.  Metadata comes back as JSON renders it ([json_norm]:
    tuples as lists, keys as strings), and as the empty dictionary when there is none or it is
    falsy.  Characters are those below U+0100. *)
Theorem wire_roundtrip {ST : Safetensors} {LAWS : @SafetensorsLaws ST} obj md :
  wire_value obj -> metadata_ok md ->
  exists frame, dumps obj md = Ok frame /\
    (frame_fits frame -> loads frame = Ok obj /\ read_metadata frame = Ok (metadata_read md)).
Proof. apply dumps_loads. Qed.

Definition example_tensor (z : Z) : wtensor := WTensor "int64" [2] [z; (z + 1)%Z].
Definition example_value : pyval :=
  PDict [(KStr "batch", PDict [(KStr "input_ids", PTensor (example_tensor 5)); (KStr "weight", PTensor (WTensor "uint8" [] [7%Z]))]);
         (KStr "pair", PTuple [PInt 3; PList [PTensor (example_tensor (-1)); PNone]]);
         (KStr "meta", PDict [(KStr "temperature", PFloat "0.7"); (KStr "names", PList [PStr "x.y"; PBool true])])].
Definition example_metadata : pyval := PDict [(KStr "router_replay", PList [PInt 1; PInt 2])].

Definition ok_or {A} (d : A) (r : res A) : A := match r with Ok a => a | Raise _ => d end.
Definition example_frame : bytes := ok_or [] (@dumps BoxTensors.box example_value (Some example_metadata)).

Lemma wire_roundtrip_witness :
  @loads BoxTensors.box example_frame = Ok example_value /\ read_metadata example_frame = Ok example_metadata.
Proof.
  destruct (@wire_roundtrip BoxTensors.box BoxTensors.box_laws example_value (Some example_metadata)) as (frame & Hd & Hrt).
  - apply (bool_decide_unpack _). vm_compute. exact I.
  - vm_compute. reflexivity.
  - assert (E : example_frame = frame) by (unfold example_frame; rewrite Hd; reflexivity). rewrite E. apply Hrt. rewrite <- E.
    split; vm_compute; [reflexivity|discriminate].
Defined.

(** C34: the chunks of a frame, delivered in any order, reassemble to exactly that frame; and a
    result that is serialized and cut comes back as the same value. *)
Theorem byte_chunks_any_order {ST : Safetensors} {LAWS : @SafetensorsLaws ST} sha256 uuid4 int_of_float
    frame kind op max_bytes gid force chunks chunks' result rchunks rchunks' :
  encode_byte_chunks sha256 uuid4 frame kind op max_bytes gid force = Ok chunks -> Forall frame_fits chunks ->
  read_byte_chunk_metadata frame = Ok None -> chunks' ≡ₚ chunks ->
  wire_value result -> (forall f, dumps result None = Ok f -> frame_fits f) ->
  encode_result_chunks sha256 uuid4 result max_bytes = Ok rchunks -> Forall frame_fits rchunks -> rchunks' ≡ₚ rchunks ->
  decode_byte_chunks sha256 int_of_float chunks' (Some kind) = Ok frame /\
  decode_result_chunks sha256 int_of_float rchunks' = Ok result.
Proof.
  intros He Hf Hm HP Hw Hfit Hr Hrf HrP. split; [by eapply byte_chunks_ok|].
  destruct (dumps_loads result None Hw I) as (f & Hd & _). eapply result_chunks_ok; [done|exact Hd|by apply Hfit|done|done|done].
Qed.

(** A digest for examples: the bytes themselves. *)
Definition toy_sha (b : bytes) : string := string_of b.
Definition no_float (lit : string) : res Z := Raise (ValueError "float").
Definition abc : bytes := ["a"; "b"; "c"]%char.
Definition abc_chunks : list bytes :=
  ok_or [] (@encode_byte_chunks BoxTensors.box toy_sha "u" abc "result" (Some "fwd") 8193 None true).
Definition result_chunks : list bytes := ok_or [] (@encode_result_chunks BoxTensors.box toy_sha "u" example_value 0).

Lemma byte_chunks_any_order_witness :
  length abc_chunks = 3 /\
  @decode_byte_chunks BoxTensors.box toy_sha no_float (reverse abc_chunks) (Some "result") = Ok abc /\
  @decode_result_chunks BoxTensors.box toy_sha no_float result_chunks = Ok example_value.
Proof.
  split; [vm_compute; reflexivity|].
  apply (@byte_chunks_any_order BoxTensors.box BoxTensors.box_laws toy_sha "u" no_float abc "result" (Some "fwd") 8193 None true abc_chunks
    (reverse abc_chunks) example_value result_chunks result_chunks).
  - vm_compute. reflexivity.
  - repeat constructor; vm_compute; first [reflexivity|discriminate].
  - vm_compute. reflexivity.
  - apply reverse_Permutation.
  - apply (bool_decide_unpack _). vm_compute. exact I.
  - intros f Hf. assert (E : ok_or [] (@dumps BoxTensors.box example_value None) = f) by (rewrite Hf; reflexivity). rewrite <- E.
    split; vm_compute; [reflexivity|discriminate].
  - vm_compute. reflexivity.
  - repeat constructor; vm_compute; first [reflexivity|discriminate].
  - reflexivity.
Defined.

(** Cutting always ends (the sizing loop halves the payload at most as often as its size
    allows) and has one of these outcomes: chunk frames none of which exceeds [max_bytes]; a
    [WireError] because [max_bytes] does not exceed the fixed overhead; or a [WireError]
    because even chunks with one byte of payload are too large. *)
Theorem encode_byte_chunks_bounded {ST : Safetensors} {LAWS : @SafetensorsLaws ST} sha256 uuid4 frame kind op max_bytes gid force :
  kind ∈ ["request"; "result"] -> (0 < max_bytes)%Z ->
  match encode_byte_chunks sha256 uuid4 frame kind op max_bytes gid force with
  | Ok chunks => chunks <> [] /\ all_fit max_bytes chunks
  | Raise e =>
      (e = WireError "max_bytes must exceed 8192 bytes" /\ (max_bytes <= 8192)%Z) \/
      (e = WireError "max_bytes is too small to hold one DSSST1 byte chunk frame" /\
       exists chunks, chunk_frames sha256 frame kind op (group_of uuid4 kind gid) (chunk_ranges (length frame) 1) = Ok chunks /\
         ~ all_fit max_bytes chunks)
  end.
Proof.
  intros Hkind Hmax.
  destruct (encode_outcomes sha256 uuid4 frame kind op max_bytes gid force Hkind) as
    [(_ & Hl & ->)|[(ranges & chunks & Hc & Hne & _ & Hfit & ->)|[[Hs ->]|(chunks & Hc & Hno & ->)]]].
  - split; [done|]. constructor; [lia|constructor].
  - split; [|by apply Hfit]. apply chunk_frames_lookup in Hc as [Hl _]. by destruct chunks, ranges.
  - left. split; [done|]. unfold DEFAULT_CHUNK_OVERHEAD_BYTES in Hs. lia.
  - right. eauto.
Qed.

Lemma encode_byte_chunks_bounded_witness : abc_chunks <> [] /\ all_fit 8193 abc_chunks.
Proof.
  pose proof (@encode_byte_chunks_bounded BoxTensors.box BoxTensors.box_laws toy_sha "u" abc "result" (Some "fwd") 8193 None true) as H.
  specialize (H ltac:(apply (bool_decide_unpack _); vm_compute; exact I) ltac:(lia)).
  assert (E : @encode_byte_chunks BoxTensors.box toy_sha "u" abc "result" (Some "fwd") 8193 None true = Ok abc_chunks) by (vm_compute; reflexivity).
  rewrite E in H. exact H.
Defined.

(** A frame that [decode_byte_chunks] returns is either a single frame that is not a chunk,
    or was put together from chunks whose indices are exactly 0, 1, ..., each once, in index
    order, all of the expected kind, all announcing its length and its digest: missing,
    repeated, foreign or mixed chunks never yield a frame. *)
Theorem decode_byte_chunks_sound {ST : Safetensors} sha256 int_of_float chunks kind frame :
  decode_byte_chunks sha256 int_of_float chunks kind = Ok frame ->
  (chunks = [frame] /\ read_byte_chunk_metadata frame = Ok None) \/
  exists descs parts order,
    mapM read_byte_chunk_metadata chunks = Ok (Some <$> descs) /\ mapM chunk_payload chunks = Ok parts /\
    mapM (fun d => int_field int_of_float d "chunk_idx") descs = Ok (Z.of_nat <$> order) /\ order ≡ₚ seq 0 (length chunks) /\
    (forall d, d ∈ descs -> (forall k, kind = Some k -> field d "kind" = PStr k) /\ field d "frame_sha256" = PStr (sha256 frame) /\
       int_field int_of_float d "frame_size_bytes" = Ok (Z.of_nat (length frame))) /\
    frame = concat (snd <$> py_sorted (fun a b : Z * bytes => a.1 <? b.1)%Z (zip (Z.of_nat <$> order) parts)).
Proof. apply decode_sound. Qed.

Lemma decode_byte_chunks_sound_witness :
  exists descs parts order,
    mapM read_byte_chunk_metadata (reverse abc_chunks) = Ok (Some <$> descs) /\
    mapM (@chunk_payload BoxTensors.box) (reverse abc_chunks) = Ok parts /\
    mapM (fun d => int_field no_float d "chunk_idx") descs = Ok (Z.of_nat <$> order) /\ order ≡ₚ seq 0 3.
Proof.
  destruct (@decode_byte_chunks_sound BoxTensors.box toy_sha no_float (reverse abc_chunks) (Some "result") abc) as
    [[H _]|(descs & parts & order & H1 & H2 & H3 & H4 & _)].
  - vm_compute. reflexivity.
  - vm_compute in H. discriminate H.
  - exists descs, parts, order. split; [exact H1|]. split; [exact H2|]. split; [exact H3|exact H4].
Defined.

(** ** Values that do not come back *)

(** A dictionary key with a dot can have the path of a nested one: two different values then
    have the same frame, and the first tensor is lost without an error. *)
Theorem path_collision_same_frame {ST : Safetensors} n1 s1 data1 dtype1 n2 s2 data2 dtype2 md :
  let t1 := PTensor (WTensor dtype1 (n1 :: s1) data1) in
  let t2 := PTensor (WTensor dtype2 (n2 :: s2) data2) in
  dumps (PDict [(KStr "a", PDict [(KStr "b", t1)]); (KStr "a.b", t2)]) md =
  dumps (PDict [(KStr "a", PDict [(KStr "b", t2)]); (KStr "a.b", t2)]) md.
Proof. reflexivity. Qed.

(** The name of the placeholder is not reserved by the encoder: a tensor under it cannot be
    decoded. *)
Example placeholder_name_lost :
  (frame ← @dumps BoxTensors.box (PDict [(KStr "__dss_empty__", PTensor (example_tensor 1))]) None; @loads BoxTensors.box frame) = Raise (KeyError "key").
Proof. vm_compute. reflexivity. Qed.

(** A tuple inside a container without tensors comes back as a list. *)
Example json_tuple_becomes_list :
  (frame ← @dumps BoxTensors.box (PDict [(KStr "shape", PTuple [PInt 1; PInt 2])]) None; @loads BoxTensors.box frame) =
    Ok (PDict [(KStr "shape", PList [PInt 1; PInt 2])]).
Proof. vm_compute. reflexivity. Qed.
