(* ===== verification/Batch.v ===== *)
(** * Splitting a request over the workers and merging their answers

    Source: [src/arctic_platform/common/utils/batch.py] (and
    [resolve_parallelism_degree] of [src/arctic_platform/common/config.py]).

    A request has two bags of named values: [batch], whose values are cut along their first
    dimension, one shard per worker, and [meta], which every worker gets.  [unpack_batch]
    sorts the values into the right bag; [split_batch] balances the rows with
    [Balance.assign_balanced_batch], reorders and cuts them; [merge_dict_shards] joins what
    the workers return and [restore_batch_order] undoes the reordering.
    (The metric combiners of the same source file are in [BatchMetrics].)

    Values are those of [Balance.mval]; both bags are insertion-ordered dictionaries.  The
    iteration order of a [frozenset] or [set] is unspecified in Python: where the source
    iterates over one, a fixed order is taken, and the theorems read the results as mappings. *)

From stdpp Require Import prelude gmap strings list sorting.
From Stdlib Require Import ZArith Lia ZifyNat ZifyBool.
From S2P Require Import Prelude Dict Tensor Groups Balance.
Local Open Scope Z_scope.

(** ** Parallelism degrees *)

Definition resolve_parallelism_degree (v : mval) (name : string) : res Z :=
  match v with
  | MNone => Ok 1
  | MInt z => _ ← check (1 <=? z) (ValueError name); Ok z
  | _ => Raise (ValueError name)
  end.

Definition dp_sp_world_size (world_size : Z) (sp_size : mval) : res Z :=
  sp ← resolve_parallelism_degree sp_size "sp_size";
  _ ← check (1 <=? world_size) (ValueError "world_size must be >= 1");
  _ ← check (world_size mod sp =? 0) (ValueError "world_size must be divisible by sp_size");
  Ok (world_size / sp).

(** ** The two bags *)

Definition BATCH_DIM_CONTEXT_KEYS : list string :=
  ["advantages"; "old_log_probs"; "old_log_probs_shifted"; "loss_mask"; "response_mask"; "ref_log_prob";
   "ref_log_probs"; "ref_log_probs_shifted"; "prox_logp"; "prox_logp_shifted"; "labels"; "sft_mask";
   "echo_observation_mask"; "echo_observation_token_counts"; "nll_mask"; "teacher_log_probs_shifted";
   "sampler_kl_weights"; "versions"; "prompt_group_ids"; "prompt_token_counts"; "sequence_loss_weights";
   "rollout_is_weights"; "teacher_token_ids"; "teacher_log_probs"; "teacher_tail_log_prob"; "kd_mask";
   "logprob_weights_shifted"].

Definition META_FWD_SCALAR_KEYS : list string := ["temperature"; "calculate_entropy"].

Definition has_key (d : meta) (k : string) : bool := bool_decide (is_Some (dict_get d k)).

Definition bag_values_equal (left right : mval) : bool :=
  match left, right with
  | MTensor t, MTensor t' => bool_decide (t = t')
  | MTensor _, _ | _, MTensor _ => false
  | MList _, _ | _, MList _ => false
  | MNone, MNone => true
  | MNone, _ | _, MNone => false
  | MBool b, MBool b' => Bool.eqb b b'
  | MInt z, MInt z' => z =? z'
  | MBool b, MInt z | MInt z, MBool b => z =? Z.b2z b
  end.

(** [sorted(set(batch_data) & set(meta_data))]. *)
Definition overlap_keys (batch_data meta_data : meta) : list string :=
  py_sorted String.ltb (filter (fun k => k ∈ dict_keys meta_data) (dict_keys batch_data)).

Definition assert_disjoint_bags (batch_data meta_data : meta) : res unit :=
  check (bool_decide (overlap_keys batch_data meta_data = [])) (ValueError "keys are on both batch and meta").

Definition reject_meta_fwd_scalars_on_batch (batch_data : meta) : res unit :=
  check (forallb (fun k => negb (has_key batch_data k)) META_FWD_SCALAR_KEYS)
    (ValueError "forward scalars must be sent on meta").

Definition resolve_overlap_one (bags : meta * meta) (key : string) : res (meta * meta) :=
  let '(batch_data, meta_data) := bags in
  left ← dict_at batch_data key;
  right ← dict_at meta_data key;
  _ ← check (bag_values_equal left right) (ValueError "kwargs and context disagree");
  Ok (if decide (key ∈ META_FWD_SCALAR_KEYS) then (dict_del batch_data key, meta_data)
      else (batch_data, dict_del meta_data key)).

Definition resolve_cortex_overlap (batch_data meta_data : meta) : res (meta * meta) :=
  foldM resolve_overlap_one (batch_data, meta_data) (overlap_keys batch_data meta_data).

Definition promote_one (bags : meta * meta) (key : string) : meta * meta :=
  let '(batch_data, meta_data) := bags in
  match dict_get meta_data key with
  | Some (MTensor t) =>
      (if has_key batch_data key then batch_data else dict_set batch_data key (MTensor t), dict_del meta_data key)
  | _ => bags
  end.

Definition promote_batch_dim_to_batch (batch_data meta_data : meta) : meta * meta :=
  fold_left promote_one BATCH_DIM_CONTEXT_KEYS (batch_data, meta_data).

(** A microbatch of a list-shaped batch: a dictionary, or something else. *)
Abbreviation microbatch := (option meta).

Definition as_microbatch (mb : microbatch) : res meta :=
  match mb with Some d => Ok d | None => Raise (TypeError "gas microbatch must be a dict of tensors") end.

Definition promote_labels (meta_data : meta) (index : nat) (mb : microbatch) : res meta :=
  d ← as_microbatch mb;
  if has_key d "labels" then Ok d
  else match dict_get meta_data "labels" with
       | Some (MList labels) =>
           match labels !! index with
           | Some v => Ok (dict_set d "labels" v)
           | None => Raise (ValueError "meta labels list is too short")
           end
       | Some _ => Raise (ValueError "labels on meta cannot be applied to a list-shaped batch")
       | None => Ok d
       end.

(** The [raise] of the source's last branch is unreachable once every microbatch has labels. *)
Definition promote_list_batch (batch_list : list microbatch) (meta_data : meta) : res (list meta * meta) :=
  promoted ← mapM (fun '(index, mb) => promote_labels meta_data index mb) (imap pair batch_list);
  if has_key meta_data "labels" then
    _ ← check (forallb (fun d => has_key d "labels") promoted) (ValueError "labels remain on meta for a list-shaped batch");
    Ok (promoted, dict_del meta_data "labels")
  else Ok (promoted, meta_data).

(** ** Requests *)

Inductive wire_batch := OneBatch (d : meta) | Microbatches (l : list microbatch).

(** The AP shape [{"batch", "meta", "processing"}] (a missing key raises) and the Cortex shape
    [{"kwargs", "context", "processing"}] (a missing or empty value is an empty bag). *)
Inductive wire_request :=
  | ApRequest (batch : option wire_batch) (meta_data : option meta) (processing : option meta)
  | CortexRequest (kwargs context processing : meta).

Inductive bag := Rows (d : meta) | RowLists (l : list meta).

Definition required {A} (v : option A) : res A :=
  match v with Some a => Ok a | None => Raise (KeyError "key") end.

Definition check_microbatch (meta_data : meta) (mb : microbatch) : res unit :=
  match mb with
  | None => Ok ()
  | Some d => _ ← reject_meta_fwd_scalars_on_batch d; assert_disjoint_bags d meta_data
  end.

Definition promote_bags (b : wire_batch) (meta_data : meta) : res (bag * meta) :=
  match b with
  | OneBatch d => let '(d, m) := promote_batch_dim_to_batch d meta_data in Ok (Rows d, m)
  | Microbatches l => '(l, m) ← promote_list_batch l meta_data; Ok (RowLists l, m)
  end.

Definition unpack_batch (r : wire_request) : res (bag * meta * meta) :=
  match r with
  | CortexRequest kwargs context processing =>
      '(d, m) ← resolve_cortex_overlap kwargs context;
      _ ← reject_meta_fwd_scalars_on_batch d;
      '(b, m) ← promote_bags (OneBatch d) m;
      Ok (b, m, processing)
  | ApRequest batch meta_data processing =>
      b ← required batch;
      m ← required meta_data;
      processing ← required processing;
      _ ← match b with
          | OneBatch d => _ ← reject_meta_fwd_scalars_on_batch d; assert_disjoint_bags d m
          | Microbatches l => _ ← mapM (check_microbatch m) l; Ok ()
          end;
      '(b, m) ← promote_bags b m;
      Ok (b, m, processing)
  end.

(** ** Cutting *)

Definition bounds_step (base extra : nat) (acc : list (nat * nat) * nat) (index : nat) : list (nat * nat) * nat :=
  let '(bounds, start) := acc in
  let size := (base + (if index <? extra then 1 else 0))%nat in
  (bounds ++ [(start, start + size)], start + size)%nat.

Definition row_bounds (n_rows num_chunks : nat) : list (nat * nat) :=
  (fold_left (bounds_step (n_rows / num_chunks) (n_rows mod num_chunks)) (seq 0 num_chunks) ([], 0%nat)).1.

(** [t[start:end]] along dimension 0, for bounds inside it. *)
Definition slice0 (t : tensor) (a b : nat) : tensor :=
  match t_shape t with
  | [] => t
  | _ :: tr => mk_tensor ((b - a)%nat :: tr) (take ((b - a) * prodn tr) (drop (a * prodn tr) (t_data t)))
  end.

Definition too_few_rows : exn := ValueError "The client must send at least one sample per DP worker".

(** [torch.tensor_split] cuts at the bounds of [row_bounds]. *)
Definition split_value (v : mval) (num_chunks : nat) : res (list mval) :=
  match v with
  | MTensor t =>
      match t_shape t with
      | [] => Ok (replicate num_chunks v)
      | n :: _ =>
          _ ← check (negb (n <? num_chunks)%nat) too_few_rows;
          Ok ((fun ab => MTensor (slice0 t ab.1 ab.2)) <$> row_bounds n num_chunks)
      end
  | MList l =>
      _ ← check (negb (length l <? num_chunks)%nat) too_few_rows;
      Ok ((fun ab => MList (take (ab.2 - ab.1) (drop ab.1 l))) <$> row_bounds (length l) num_chunks)
  | _ => Ok (replicate num_chunks v)
  end.

Definition split_dict (d : meta) (num_chunks : nat) : res (list meta) :=
  match d with
  | [] => Ok (replicate num_chunks [])
  | _ =>
      split_vals ← mapM (fun kv => vs ← split_value kv.2 num_chunks; Ok (kv.1, vs)) d;
      Ok ((fun i => (fun kvs => (kvs.1, default MNone (kvs.2 !! i))) <$> split_vals) <$> seq 0 num_chunks)
  end.

Definition flatten_assignment (assignment : option (list (list nat))) : option (list nat) :=
  @concat nat <$> assignment.

Definition reorder_value (indices : list nat) (v : mval) : res mval :=
  match v with
  | MTensor t =>
      match t_shape t with
      | n :: _ => if (n =? length indices)%nat then MTensor <$> index_select0 t indices else Ok v
      | [] => Ok v
      end
  | MList l =>
      if (length l =? length indices)%nat then MList <$> mapM (at_index l) indices else Ok v
  | _ => Ok v
  end.

Definition reorder_rows (batch_data : meta) (indices : list nat) : res meta :=
  mapM (fun kv => v ← reorder_value indices kv.2; Ok (kv.1, v)) batch_data.

(** One row of [reconstruct_position_ids_]: [(cumsum - 1).clamp_(min=0) * mask]. *)
Fixpoint position_row (seen : Z) (mask : list Z) : list Z :=
  match mask with
  | [] => []
  | m :: mask => Z.max 0 (seen + m - 1) * m :: position_row (seen + m) mask
  end.

Definition reconstruct_position_ids (batch_data : meta) : res meta :=
  match dict_get batch_data "attention_mask" with
  | Some (MTensor t) =>
      match t_shape t with
      | [_; s] => Ok (dict_set batch_data "position_ids"
                        (MTensor (mk_tensor (t_shape t) (concat (position_row 0 <$> rows2 t)))))
      | _ => Raise (ValueError "Cannot reconstruct position_ids")
      end
  | _ => Raise (ValueError "Cannot reconstruct position_ids")
  end.

(** [meta_data.get("drop_position_ids", False)] as a condition. *)
Definition truthy (v : option mval) : res bool :=
  match v with
  | None | Some MNone => Ok false
  | Some (MBool b) => Ok b
  | Some (MInt z) => Ok (negb (z =? 0))
  | Some (MList l) => Ok (negb (bool_decide (l = [])))
  | Some (MTensor t) =>
      match t_data t with
      | [z] => Ok (negb (z =? 0))
      | _ => Raise (RuntimeError "Boolean value of Tensor with more than one value is ambiguous")
      end
  end.

Definition restore_dropped (meta_data d : meta) : res meta :=
  drop ← truthy (dict_get meta_data "drop_position_ids");
  if drop && negb (has_key d "position_ids") then reconstruct_position_ids d else Ok d.

Inductive shard_batch := ShardRows (d : meta) | ShardLists (l : list meta).
Record shard := Shard { s_batch : shard_batch; s_meta : meta; s_processing : meta }.

Definition split_microbatch (meta_data : meta) (num_workers : nat) (per_worker : list (list meta)) (mb : meta) :
    res (list (list meta)) :=
  mb ← restore_dropped meta_data mb;
  mb_shards ← split_dict mb num_workers;
  Ok (zip_with (fun ls s => ls ++ [s]) per_worker mb_shards).

(** A list of microbatches: each of them is cut independently. *)
Definition split_lists (l : list meta) (meta_data processing : meta) (num_workers : nat) : res (list shard) :=
  _ ← check (negb (bool_decide (l = []))) (ValueError "batch microbatch list is empty");
  per_worker ← foldM (split_microbatch meta_data num_workers) (replicate num_workers []) l;
  Ok (List.map (fun ls => Shard (ShardLists ls) meta_data processing) per_worker).

(** One batch: balanced, reordered and cut. *)
Definition split_rows (d meta_data processing : meta) (num_workers : nat) : res (list shard * option (list nat)) :=
  d ← restore_dropped meta_data d;
  assignment ← assign_balanced_batch (Z.of_nat num_workers) meta_data
    (as_tensor (dict_get d "input_ids")) (as_tensor (dict_get d "attention_mask")) None
    (meta_get d "prompt_group_ids");
  d ← match flatten_assignment assignment with Some idx => reorder_rows d idx | None => Ok d end;
  shards ← split_dict d num_workers;
  Ok (List.map (fun s => Shard (ShardRows s) meta_data processing) shards, flatten_assignment assignment).

Definition split_batch (r : wire_request) (num_workers : nat) (sp_size : mval) : res (list shard * option (list nat)) :=
  '(batch_data, meta_data, processing) ← unpack_batch r;
  sp ← resolve_parallelism_degree sp_size "sp_size";
  _ ← check (negb (1 <? sp)) (ValueError "sequence-parallel data-plane is not implemented");
  _ ← dp_sp_world_size (Z.of_nat num_workers) (MInt sp);
  let meta_data := dict_set meta_data "dp_size" (MInt (Z.of_nat num_workers)) in
  match batch_data with
  | RowLists l => shards ← split_lists l meta_data processing num_workers; Ok (shards, None)
  | Rows d => split_rows d meta_data processing num_workers
  end.

(** ** Merging *)

(** [torch.cat(ts)]: one-dimensional empty tensors are skipped, the others must agree in all
    dimensions but the first. *)
Definition is_empty_1d (t : tensor) : bool := bool_decide (t_shape t = [0%nat]).

Definition torch_cat (ts : list tensor) : res tensor :=
  _ ← check (negb (bool_decide (ts = []))) (RuntimeError "expected a non-empty list of Tensors");
  _ ← check (forallb (fun t => negb (bool_decide (t_shape t = []))) ts)
        (RuntimeError "zero-dimensional tensor cannot be concatenated");
  match filter (fun t => is_empty_1d t = false) ts with
  | [] => Ok (mk_tensor [0%nat] [])
  | t :: rest =>
      let tr := tail (t_shape t) in
      _ ← check (forallb (fun t' => bool_decide (tail (t_shape t') = tr)) rest)
            (RuntimeError "Sizes of tensors must match except in dimension 0");
      Ok (cat0 tr (t :: rest))
  end.

(** The [combined] dictionary of lists. *)
Definition combine_value (combined : list (string * list mval)) (kv : string * mval) : list (string * list mval) :=
  let old := default [] (dict_get combined kv.1) in
  dict_set combined kv.1 (match kv.2 with MList l => old ++ l | v => old ++ [v] end).

Definition combine_shards (shards : list meta) : list (string * list mval) :=
  fold_left combine_value (concat shards) [].

(** The tensors of a list all of whose elements are tensors. *)
Definition all_tensors (l : list mval) : option (list tensor) :=
  mapM (fun v => match v with MTensor t => Some t | _ => None end) l.

Definition merge_value (kv : string * list mval) : res (string * mval) :=
  match all_tensors kv.2 with
  | Some ts => t ← torch_cat ts; Ok (kv.1, MTensor t)
  | None => Ok (kv.1, MList kv.2)
  end.

Definition merge_dict_shards (shards : list meta) : res meta :=
  match shards with
  | [] => Ok []
  | [d] => Ok d
  | _ => mapM merge_value (combine_shards shards)
  end.

(** ** Undoing the reordering *)

Definition get_reverse_idx (idx_map : list nat) : res (list nat) :=
  foldM (fun acc '(i, idx) =>
           _ ← check (idx <? length acc)%nat (IndexError "list assignment index out of range");
           Ok (<[idx := i]> acc))
    (replicate (length idx_map) 0%nat) (imap pair idx_map).

Definition restore_value (revert : list nat) (v : mval) : res mval :=
  match v with MTensor t => MTensor <$> index_select0 t revert | _ => Ok v end.

Definition restore_batch_order (batch : meta) (indices : option (list nat)) : res meta :=
  match indices with
  | None => Ok batch
  | Some indices =>
      revert ← get_reverse_idx indices;
      mapM (fun kv => v ← restore_value revert kv.2; Ok (kv.1, v)) batch
  end.

(** ** The cuts of [torch.tensor_split] *)

(** Where chunk [i] starts. *)
Definition cut (n k i : nat) : nat := (i * (n / k) + i `min` (n mod k))%nat.

Lemma cut_S n k i : cut n k (S i) = (cut n k i + (n / k + (if i <? n mod k then 1 else 0)))%nat.
Proof. unfold cut. destruct (Nat.ltb_spec i (n mod k)); lia. Qed.

Lemma cut_end n k : (0 < k)%nat -> cut n k k = n.
Proof.
  intros Hk. unfold cut. pose proof (Nat.mod_upper_bound n k). pose proof (Nat.div_mod_eq n k). lia.
Qed.

Lemma bounds_loop n k j s bs :
  fold_left (bounds_step (n / k) (n mod k)) (seq s j) (bs, cut n k s) =
  (bs ++ ((fun i => (cut n k i, cut n k (S i))) <$> seq s j), cut n k (s + j)).
Proof.
  revert s bs; induction j as [|j IH]; intros s bs; simpl; [by rewrite app_nil_r, Nat.add_0_r|].
  rewrite <- cut_S, IH, <- app_assoc. simpl. by rewrite Nat.add_succ_r.
Qed.

Lemma row_bounds_eq n k : row_bounds n k = (fun i => (cut n k i, cut n k (S i))) <$> seq 0 k.
Proof. unfold row_bounds. pose proof (bounds_loop n k k 0 []) as H. cbn in H |- *. by rewrite H. Qed.

Lemma cut_size n k i : (n / k <= cut n k (S i) - cut n k i)%nat /\ (cut n k i <= cut n k (S i))%nat.
Proof. rewrite cut_S. lia. Qed.

Lemma cut_mono n k i j : (i <= j)%nat -> (cut n k i <= cut n k j)%nat.
Proof. unfold cut. nia. Qed.

Lemma cut_le n k i : (i < k)%nat -> (cut n k (S i) <= n)%nat.
Proof. intros H. rewrite <- (cut_end n k) at 2 by lia. apply cut_mono. lia. Qed.

(** The chunks put back together. *)
Lemma concat_cuts_prefix {A} (f : nat -> A) n k j :
  concat ((fun i => f <$> seq (cut n k i) (cut n k (S i) - cut n k i)) <$> seq 0 j) = f <$> seq 0 (cut n k j).
Proof.
  induction j as [|j IH]; [done|]. rewrite seq_S, fmap_app, concat_app, IH. simpl. rewrite app_nil_r, <- fmap_app.
  f_equal. pose proof (cut_size n k j). rewrite <- seq_app. f_equal. lia.
Qed.

Lemma concat_cuts {A} (f : nat -> A) n k :
  (0 < k)%nat ->
  concat ((fun i => f <$> seq (cut n k i) (cut n k (S i) - cut n k i)) <$> seq 0 k) = f <$> seq 0 n.
Proof. intros Hk. by rewrite concat_cuts_prefix, cut_end. Qed.

(** ** Rows of a batch *)

Definition t_rows (t : tensor) : list (list Z) :=
  match t_shape t with [] => [] | n :: tr => chunks (prodn tr) n (t_data t) end.
Definition of_rows (tr : list nat) (rows : list (list Z)) : tensor := mk_tensor (length rows :: tr) (concat rows).

(** What a value contributes to row [i] of the batch: its own row, or itself. *)
Definition row_value (v : mval) (i : nat) : mval :=
  match v with
  | MTensor t => match t_shape t with
                 | [] => v
                 | n :: tr => MTensor (mk_tensor tr (chunk (prodn tr) (t_data t) i))
                 end
  | MList l => default MNone (l !! i)
  | _ => v
  end.

Definition row_view (d : meta) (i : nat) : meta := (fun kv => (kv.1, row_value kv.2 i)) <$> d.
Definition views (d : meta) (n : nat) : list meta := row_view d <$> seq 0 n.

(** Every per-row value has [n] rows. *)
Definition value_aligned (n : nat) (v : mval) : Prop :=
  match v with
  | MTensor t => t_wf t /\ match t_shape t with [] => True | m :: _ => m = n end
  | MList l => length l = n
  | _ => True
  end.
Definition aligned (n : nat) (d : meta) : Prop := forall kv, kv ∈ d -> value_aligned n kv.2.

(** The batch has a value with rows, so that its number of rows is determined. *)
Definition per_row (v : mval) : Prop :=
  match v with MTensor t => t_shape t <> [] | MList _ => True | _ => False end.
Definition has_rows (d : meta) : Prop := exists kv, kv ∈ d /\ per_row kv.2.

Lemma aligned_get n d k v : aligned n d -> dict_get d k = Some v -> value_aligned n v.
Proof. intros H Hg. by apply (H (k, v)), dict_get_elem. Qed.

Lemma slice0_row t n tr a b i :
  t_wf t -> t_shape t = n :: tr -> (b <= n)%nat -> (i < b - a)%nat ->
  t_wf (slice0 t a b) /\ t_shape (slice0 t a b) = (b - a)%nat :: tr /\
  chunk (prodn tr) (t_data (slice0 t a b)) i = chunk (prodn tr) (t_data t) (a + i).
Proof.
  intros Hwf Hs Hb Hi. unfold slice0, t_wf in *. rewrite Hs in *. simpl in *.
  split; [rewrite length_take, length_drop, Hwf; nia|]. split; [done|].
  unfold chunk. replace ((b - a) * prodn tr)%nat with (i * prodn tr + (b - a - i) * prodn tr)%nat by nia.
  rewrite <- take_drop_commute, take_take, drop_drop. f_equal; [nia|f_equal; nia].
Qed.

(** A chunk of a value. *)
Lemma split_value_ok n k v :
  value_aligned n v -> (0 < k)%nat -> (k <= n)%nat ->
  exists vs, split_value v k = Ok vs /\ length vs = k /\
    forall j, (j < k)%nat -> exists v', vs !! j = Some v' /\ value_aligned (cut n k (S j) - cut n k j) v' /\
      (per_row v -> per_row v') /\
      forall i, (i < cut n k (S j) - cut n k j)%nat -> row_value v' i = row_value v (cut n k j + i).
Proof.
  intros Hv Hk Hn.
  assert (Hrep : (forall m, value_aligned m v) -> (forall i j, row_value v i = row_value v j) ->
    exists vs, Ok (replicate k v) = Ok vs /\ length vs = k /\
    forall j, (j < k)%nat -> exists v', vs !! j = Some v' /\ value_aligned (cut n k (S j) - cut n k j) v' /\
      (per_row v -> per_row v') /\
      forall i, (i < cut n k (S j) - cut n k j)%nat -> row_value v' i = row_value v (cut n k j + i)).
  { intros Ha Hr. eexists. split; [done|]. split; [apply length_replicate|]. intros j Hj.
    exists v. split; [by apply lookup_replicate_2|]. split; [apply Ha|]. split; [done|]. intros i Hi. apply Hr. }
  destruct v as [b|z|t| |l]; try (apply Hrep; done).
  - simpl in Hv. destruct Hv as [Hwf Hd]. unfold split_value. destruct (t_shape t) as [|m tr] eqn:Es.
    { apply Hrep; simpl; rewrite Es; done. }
    subst m. destruct (n <? k)%nat eqn:E; [lia|]. cbn [check negb mbind res_bind]. eexists. split; [done|]. rewrite row_bounds_eq.
    split; [by rewrite !length_fmap, length_seq|]. intros j Hj. rewrite !list_lookup_fmap, lookup_seq_lt by done. simpl.
    eexists. split; [done|]. pose proof (cut_le n k j Hj). pose proof (cut_size n k j). split; [|split].
    + destruct (decide (cut n k (S j) - cut n k j = 0)%nat) as [E0|E0].
      * split; [|unfold slice0; by rewrite Es]. unfold slice0, t_wf. rewrite Es, E0. done.
      * destruct (slice0_row t n tr (cut n k j) (cut n k (S j)) 0 Hwf Es) as (H1 & H2 & _); [lia|lia|].
        simpl. rewrite H2. done.
    + simpl. unfold slice0. by rewrite Es.
    + intros i Hi. destruct (slice0_row t n tr (cut n k j) (cut n k (S j)) i Hwf Es) as (H1 & H2 & H3); [lia|done|].
      simpl. by rewrite H2, Es, H3.
  - simpl in Hv. unfold split_value. subst n. destruct (length l <? k)%nat eqn:E; [lia|].
    cbn [check negb mbind res_bind]. eexists. split; [done|]. rewrite row_bounds_eq.
    split; [by rewrite !length_fmap, length_seq|]. intros j Hj. rewrite !list_lookup_fmap, lookup_seq_lt by done. simpl.
    eexists. split; [done|]. pose proof (cut_le (length l) k j Hj). pose proof (cut_size (length l) k j). simpl. split; [|split; [done|]].
    + rewrite length_take, length_drop. lia.
    + intros i Hi. rewrite lookup_take, lookup_drop. by case_decide; [|lia].
Qed.

Lemma fmap_Forall2 {A B C} (f : A -> C) (g : B -> C) (l : list A) (k : list B) :
  Forall2 (fun x y => g y = f x) l k -> g <$> k = f <$> l.
Proof. induction 1 as [|x y l k Hxy Hlk IH]; csimpl; congruence. Qed.

(** [mapM] over the items of a dictionary that keeps the keys. *)
Lemma mapM_items (f : mval -> res mval) (d : meta) :
  (forall kv, kv ∈ d -> exists v, f kv.2 = Ok v) ->
  exists d', mapM (fun kv => v ← f kv.2; Ok (kv.1, v)) d = Ok d' /\
    Forall2 (fun kv kv' => kv'.1 = kv.1 /\ f kv.2 = Ok kv'.2) d d'.
Proof.
  intros H. destruct (mapM_total (fun kv => v ← f kv.2; Ok (kv.1, v)) d) as (d' & Hd & HF).
  { intros kv Hkv. destruct (H kv Hkv) as [v Hv]. rewrite Hv. by eexists. }
  exists d'. split; [done|]. eapply Forall2_impl; [exact HF|]. intros kv kv' E. simpl in E. res_inv. done.
Qed.

Lemma split_dict_ok n k d :
  aligned n d -> (0 < k)%nat -> (k <= n)%nat ->
  exists shards, split_dict d k = Ok shards /\ length shards = k /\
    forall j, (j < k)%nat -> exists s, shards !! j = Some s /\ aligned (cut n k (S j) - cut n k j) s /\
      dict_keys s = dict_keys d /\ (has_rows d -> has_rows s) /\
      forall i, (i < cut n k (S j) - cut n k j)%nat -> row_view s i = row_view d (cut n k j + i).
Proof.
  intros Ha Hk Hn. assert (Hs : exists vss, mapM (fun kv => vs ← split_value kv.2 k; Ok (kv.1, vs)) d = Ok vss /\
    forall j, (j < k)%nat ->
      Forall2 (fun kv kvs => kvs.1 = kv.1 /\ exists v', kvs.2 !! j = Some v' /\
        value_aligned (cut n k (S j) - cut n k j) v' /\ (per_row kv.2 -> per_row v') /\
        forall i, (i < cut n k (S j) - cut n k j)%nat -> row_value v' i = row_value kv.2 (cut n k j + i)) d vss).
  { induction d as [|[key v] d IH]; [by exists []|].
    destruct (split_value_ok n k v) as (vs & Hvs & Hl & Hj); [apply (Ha (key, v)); set_solver|done|done|].
    destruct IH as (vss & Hvss & HF); [intros kv Hkv; apply Ha; set_solver|].
    exists ((key, vs) :: vss). cbn [mapM]. simpl. rewrite Hvs. simpl. rewrite Hvss. split; [done|].
    intros j Hjk. constructor; [split; [done|by apply Hj]|by apply HF]. }
  destruct Hs as (vss & Hvss & HF).
  assert (Hsd : exists shards, split_dict d k = Ok shards /\
     shards = (fun i => (fun kvs => (kvs.1, default MNone (kvs.2 !! i))) <$> vss) <$> seq 0 k).
  { unfold split_dict. destruct d as [|kv d]; [|rewrite Hvss; by eexists].
    injection Hvss as <-. eexists. split; [done|]. apply list_eq. intros i. rewrite list_lookup_fmap.
    destruct (decide (i < k)%nat); [by rewrite lookup_replicate_2, lookup_seq_lt|].
    rewrite !lookup_ge_None_2; [done|rewrite length_seq; lia|rewrite length_replicate; lia]. }
  destruct Hsd as (shards & Hsd & ->). eexists. split; [done|]. split; [by rewrite length_fmap, length_seq|].
  intros j Hj. rewrite list_lookup_fmap, lookup_seq_lt by done. simpl. eexists. split; [done|]. specialize (HF j Hj).
  clear Hvss Hsd Ha. split; [|split; [|split]].
  - intros kv (kvs & -> & Hin)%list_elem_of_fmap. apply list_elem_of_lookup in Hin as [p Hp].
    destruct (Forall2_lookup_r _ _ _ _ _ HF Hp) as (kv0 & _ & _ & v' & -> & Hal & _). done.
  - unfold dict_keys. rewrite <- list_fmap_compose. apply fmap_Forall2.
    eapply Forall2_impl; [exact HF|]. by intros kv kvs [Hk1 _].
  - intros (kv & [p Hp]%list_elem_of_lookup & Hrow).
    destruct (Forall2_lookup_l _ _ _ _ _ HF Hp) as (kvs & Hkvs & _ & v' & Hv' & _ & Hpr & _).
    exists (kvs.1, v'). split; [|by apply Hpr]. apply list_elem_of_fmap. exists kvs. rewrite Hv'. split; [done|].
    by eapply list_elem_of_lookup_2.
  - intros i Hi. unfold row_view. rewrite <- list_fmap_compose. apply fmap_Forall2.
    eapply Forall2_impl; [exact HF|]. intros kv kvs (Hk1 & v' & Hv' & _ & _ & Hr). simpl. by rewrite Hv', Hk1, <- Hr.
Qed.

(** ** Reordering *)

Lemma chunk_select (w n : nat) (l : list Z) (idx : list nat) i :
  length l = (n * w)%nat -> Forall (fun p => (p < n)%nat) idx ->
  chunk w (concat (chunk w l <$> idx)) i = from_option (chunk w l) (chunk w (concat (chunk w l <$> idx)) i) (idx !! i).
Proof.
  intros Hl Hidx. destruct (idx !! i) as [p|] eqn:Hp; [|done]. simpl. apply chunk_concat.
  - apply Forall_fmap. eapply Forall_impl; [exact Hidx|]. intros q Hq. apply length_chunk. rewrite Hl. by apply Nat.mul_le_mono_r.
  - by rewrite list_lookup_fmap, Hp.
Qed.

Lemma reorder_value_ok n idx v :
  value_aligned n v -> length idx = n -> Forall (fun p => (p < n)%nat) idx ->
  exists v', reorder_value idx v = Ok v' /\ value_aligned n v' /\ (per_row v -> per_row v') /\
    forall i p, idx !! i = Some p -> row_value v' i = row_value v p.
Proof.
  intros Hv Hl Hidx. assert (Hsame : value_aligned n v -> (forall i j, row_value v i = row_value v j) ->
    exists v', Ok v = Ok v' /\ value_aligned n v' /\ (per_row v -> per_row v') /\ forall i p, idx !! i = Some p -> row_value v' i = row_value v p).
  { intros Ha Hr. exists v. split; [done|]. split; [done|]. split; [done|]. intros. apply Hr. }
  destruct v as [b|z|t| |l]; try (apply Hsame; done); simpl in Hv.
  - destruct Hv as [Hwf Hd]. unfold reorder_value. destruct (t_shape t) as [|m tr] eqn:Es.
    { apply Hsame; simpl; rewrite Es; done. }
    subst m. rewrite Hl, Nat.eqb_refl. rewrite (index_select0_ok t n tr) by done. eexists. split; [done|].
    rewrite Hl. unfold t_wf in *. rewrite Es in Hwf. simpl in *. split; [split; [|done]|split; [done|]].
    + unfold t_wf. simpl. rewrite (length_concat_const (prodn tr)); [by rewrite length_fmap, Hl|].
      apply Forall_fmap. eapply Forall_impl; [exact Hidx|]. intros p Hp. apply length_chunk. rewrite Hwf. by apply Nat.mul_le_mono_r.
    + intros i p Hp. rewrite Es. do 2 f_equal. rewrite (chunk_select _ n) by done. by rewrite Hp.
  - unfold reorder_value. rewrite Hl, Hv, Nat.eqb_refl.
    rewrite (mapM_ok _ (fun p => default MNone (l !! p))).
    + eexists. split; [done|]. simpl. split; [by rewrite length_fmap|]. split; [done|]. intros i p Hp. by rewrite list_lookup_fmap, Hp.
    + intros p Hp. rewrite Forall_forall in Hidx. specialize (Hidx p Hp).
      destruct (at_index_lt l p) as (x & Hx & ->); [lia|]. by rewrite Hx.
Qed.

Lemma reorder_rows_ok n idx d :
  aligned n d -> idx ≡ₚ seq 0 n ->
  exists d', reorder_rows d idx = Ok d' /\ aligned n d' /\ dict_keys d' = dict_keys d /\ (has_rows d -> has_rows d') /\
    views d' n = row_view d <$> idx.
Proof.
  intros Ha HP. assert (Hl : length idx = n) by (rewrite HP; apply length_seq).
  assert (Hidx : Forall (fun p => (p < n)%nat) idx).
  { apply Forall_forall. intros p Hp. rewrite HP in Hp. apply elem_of_seq in Hp. lia. }
  assert (Hv : forall kv, kv ∈ d -> exists v', reorder_value idx kv.2 = Ok v' /\ value_aligned n v' /\ (per_row kv.2 -> per_row v') /\
    forall i p, idx !! i = Some p -> row_value v' i = row_value kv.2 p).
  { intros kv Hkv. apply reorder_value_ok; [by apply Ha|done|done]. }
  destruct (mapM_items (reorder_value idx) d) as (d' & Hd' & HF); [intros kv Hkv; destruct (Hv kv Hkv) as (v & E & _); eauto|].
  exists d'. split; [done|].
  assert (HF' : Forall2 (fun kv kv' => kv'.1 = kv.1 /\ value_aligned n kv'.2 /\ (per_row kv.2 -> per_row kv'.2) /\
    forall i p, idx !! i = Some p -> row_value kv'.2 i = row_value kv.2 p) d d').
  { clear Hd' Ha. induction HF as [|kv kv' d d' [Hk Hr] HF IH]; constructor.
    - destruct (Hv kv) as (v & E & Hal & Hpr & Hrow); [set_solver|]. rewrite Hr in E. by simplify_eq.
    - apply IH. intros kv0 Hkv0. apply Hv. set_solver. }
  split; [|split; [|split]].
  - intros kv' Hin. apply list_elem_of_lookup in Hin as [p Hp].
    by destruct (Forall2_lookup_r _ _ _ _ _ HF' Hp) as (kv0 & _ & _ & Hal & _).
  - unfold dict_keys. apply fmap_Forall2. eapply Forall2_impl; [exact HF'|]. by intros kv kv' [Hk _].
  - intros (kv & [p Hp]%list_elem_of_lookup & Hrow).
    destruct (Forall2_lookup_l _ _ _ _ _ HF' Hp) as (kv' & Hkv' & _ & _ & Hpr & _).
    exists kv'. split; [by eapply list_elem_of_lookup_2|by apply Hpr].
  - unfold views. apply list_eq. intros i. rewrite !list_lookup_fmap.
    destruct (idx !! i) as [p|] eqn:Hp.
    + assert (i < n)%nat by (apply lookup_lt_Some in Hp; lia). rewrite lookup_seq_lt by done. simpl. f_equal.
      unfold row_view. apply fmap_Forall2. eapply Forall2_impl; [exact HF'|].
      intros kv kv' (Hk & _ & _ & Hr). rewrite Hk. f_equal. by apply Hr.
    + apply lookup_ge_None in Hp. rewrite lookup_ge_None_2; [done|rewrite length_seq; lia].
Qed.

(** ** Joining rows *)

Lemma of_rows_wf tr rows : Forall (fun r => length r = prodn tr) rows -> t_wf (of_rows tr rows).
Proof. intros H. unfold t_wf. simpl. by rewrite (length_concat_const (prodn tr)). Qed.

Lemma cat0_of_rows tr (rss : list (list (list Z))) : cat0 tr (of_rows tr <$> rss) = of_rows tr (concat rss).
Proof.
  unfold cat0, of_rows. rewrite <- !list_fmap_compose. f_equal.
  - f_equal. induction rss as [|rs rss IH]; csimpl; [done|]. rewrite length_app. unfold dim at 1. simpl. by f_equal.
  - induction rss as [|rs rss IH]; csimpl; [done|]. by rewrite concat_app, IH.
Qed.

Lemma cat0_skip_empty tr (rss : list (list (list Z))) :
  concat (filter (fun rs => is_empty_1d (of_rows tr rs) = false) rss) = concat rss.
Proof.
  induction rss as [|rs rss IH]; [done|]. rewrite filter_cons. case_decide as E; simpl; [by rewrite IH|].
  apply not_false_is_true, bool_decide_eq_true in E. simpl in E. injection E as E _. by destruct rs.
Qed.

Lemma filter_fmap_of_rows tr (rss : list (list (list Z))) :
  filter (fun t => is_empty_1d t = false) (of_rows tr <$> rss) =
  of_rows tr <$> filter (fun rs => is_empty_1d (of_rows tr rs) = false) rss.
Proof. induction rss as [|rs rss IH]; [done|]. csimpl. rewrite !filter_cons. case_decide; csimpl; by rewrite IH. Qed.

Lemma torch_cat_of_rows tr (rss : list (list (list Z))) :
  rss <> [] -> torch_cat (of_rows tr <$> rss) = Ok (of_rows tr (concat rss)).
Proof.
  intros Hne. unfold torch_cat. rewrite bool_decide_eq_false_2 by (by destruct rss). simpl.
  replace (forallb _ _) with true by (symmetry; apply forallb_forall; intros t Ht;
    apply list_elem_of_In, list_elem_of_fmap in Ht as (rs & -> & _); done). simpl.
  rewrite filter_fmap_of_rows, <- (cat0_skip_empty tr rss).
  destruct (filter (fun rs => is_empty_1d (of_rows tr rs) = false) rss) as [|rs rss'] eqn:E; csimpl.
  - (* every piece is an empty one-dimensional tensor *)
    destruct rss as [|rs rss]; [done|]. rewrite filter_cons in E. case_decide as Hd; [done|].
    apply not_false_is_true, bool_decide_eq_true in Hd. simpl in Hd. by injection Hd as _ ->.
  - replace (forallb _ _) with true.
    + cbn [check mbind res_bind]. f_equal. apply (cat0_of_rows tr (rs :: rss')).
    + symmetry. apply forallb_forall. intros t Ht. apply list_elem_of_In, list_elem_of_fmap in Ht as (rs' & -> & _).
      by apply bool_decide_eq_true_2.
Qed.

(** ** What a pipeline returns

    Named outputs, each a tensor with one row per input row. *)
Record out_spec := OutSpec { o_name : string; o_tr : list nat; o_row : meta -> list Z }.

Section outputs.
Context (outs : list out_spec).
Hypothesis outs_nodup : NoDup (o_name <$> outs).
Hypothesis outs_width : forall o r, o ∈ outs -> length (o_row o r) = prodn (o_tr o).

Definition out_tensor (o : out_spec) (vs : list meta) : tensor := of_rows (o_tr o) (o_row o <$> vs).

(** [m] has exactly the outputs for the rows [vs]. *)
Definition renders (m : meta) (vs : list meta) : Prop :=
  NoDup (dict_keys m) /\
  forall k v, dict_get m k = Some v <-> exists o, o ∈ outs /\ k = o_name o /\ v = MTensor (out_tensor o vs).

Lemma renders_items m vs k v : renders m vs -> (k, v) ∈ m -> exists o, o ∈ outs /\ k = o_name o /\ v = MTensor (out_tensor o vs).
Proof. intros [Hn H] Hin. apply H. by apply dict_elem_get. Qed.

(** The entry of a key in the combined dictionary. *)
Definition as_items (v : mval) : list mval := match v with MList l => l | v => [v] end.

Lemma combine_value_get combined kv k :
  dict_get (combine_value combined kv) k =
  if decide (kv.1 = k) then Some (default [] (dict_get combined k) ++ as_items kv.2) else dict_get combined k.
Proof.
  unfold combine_value. case_decide as E; [subst k; rewrite dict_get_set_eq|by rewrite dict_get_set_ne].
  by destruct (kv.2).
Qed.

Lemma combine_get (items : list (string * mval)) combined k :
  dict_get (fold_left combine_value items combined) k =
  match filter (fun kv => kv.1 = k) items with
  | [] => dict_get combined k
  | own => Some (default [] (dict_get combined k) ++ concat ((fun kv => as_items kv.2) <$> own))
  end.
Proof.
  revert combined; induction items as [|kv items IH]; intros combined; [done|]. simpl. rewrite IH, filter_cons, combine_value_get.
  destruct (decide (kv.1 = k)); [|done]. simpl.
  destruct (filter (fun kv => kv.1 = k) items); csimpl; [by rewrite app_nil_r|]. by rewrite <- app_assoc.
Qed.

Lemma combine_nodup (items : list (string * mval)) combined :
  NoDup (dict_keys combined) -> NoDup (dict_keys (fold_left combine_value items combined)).
Proof.
  revert combined; induction items as [|kv items IH]; intros combined H; [done|]. simpl. apply IH.
  unfold combine_value. by apply dict_set_nodup.
Qed.

Lemma dict_filter_key (m : meta) k v :
  NoDup (dict_keys m) -> dict_get m k = Some v -> filter (fun kv => kv.1 = k) m = [(k, v)].
Proof.
  unfold dict_keys. induction m as [|[k' v'] m IH]; [done|]. csimpl. intros [Hk Hm]%NoDup_cons Hg. rewrite filter_cons.
  simpl in *. destruct (decide (k = k')) as [<-|Hne].
  - injection Hg as ->. rewrite decide_True by done. f_equal. apply filter_none. intros [k2 v2] Hin E. simpl in E. subst k2.
    apply Hk. by apply (list_elem_of_fmap_2 fst _ (k, v2)).
  - rewrite decide_False by done. by apply IH.
Qed.

Lemma filter_key_none (m : meta) k : dict_get m k = None -> filter (fun kv => kv.1 = k) m = [].
Proof.
  intros H%dict_get_None. apply filter_none. intros [k' v] Hin E. simpl in E. subst k'. apply H.
  by apply (list_elem_of_fmap_2 fst _ (k, v)).
Qed.

(** The items of one output in shards that all have it. *)
Lemma shards_items (ms : list meta) vss o :
  Forall2 renders ms vss -> o ∈ outs ->
  filter (fun kv => kv.1 = o_name o) (concat ms) = (fun vs => (o_name o, MTensor (out_tensor o vs))) <$> vss.
Proof.
  induction 1 as [|m vs ms vss Hm HF IH]; intros Ho; [done|]. csimpl. rewrite filter_app, IH by done.
  destruct Hm as [Hn Hg]. by rewrite (dict_filter_key m (o_name o) (MTensor (out_tensor o vs))) by (done || (apply Hg; eauto)).
Qed.

Lemma shards_no_items (ms : list meta) vss k :
  Forall2 renders ms vss -> k ∉ (o_name <$> outs) -> filter (fun kv => kv.1 = k) (concat ms) = [].
Proof.
  induction 1 as [|m vs ms vss Hm HF IH]; intros Hk; [done|]. csimpl. rewrite filter_app, IH by done.
  rewrite filter_key_none; [done|]. destruct (dict_get m k) as [v|] eqn:E; [|done].
  apply Hm in E as (o & Ho & -> & _). destruct Hk. by apply list_elem_of_fmap_2.
Qed.

Lemma combine_shards_get ms vss k l :
  Forall2 renders ms vss -> vss <> [] ->
  dict_get (combine_shards ms) k = Some l <->
  exists o, o ∈ outs /\ k = o_name o /\ l = (fun vs => MTensor (out_tensor o vs)) <$> vss.
Proof.
  intros HF Hne. unfold combine_shards. rewrite combine_get. split.
  - destruct (decide (k ∈ (o_name <$> outs))) as [(o & -> & Ho)%list_elem_of_fmap|Hk].
    + rewrite (shards_items ms vss o HF Ho). destruct vss as [|vs vss]; [done|]. csimpl. intros [= <-]. exists o. split; [done|].
      split; [done|]. f_equal. clear HF Hne. induction vss as [|vs' vss IH]; [done|]. csimpl. by rewrite IH.
    + by rewrite (shards_no_items ms vss k HF Hk).
  - intros (o & Ho & -> & ->). rewrite (shards_items ms vss o HF Ho). destruct vss as [|vs vss]; [done|]. csimpl. do 2 f_equal.
    clear HF Hne. induction vss as [|vs' vss IH]; [done|]. csimpl. by rewrite IH.
Qed.

Lemma out_of_name o o' : o ∈ outs -> o' ∈ outs -> o_name o = o_name o' -> o = o'.
Proof.
  intros [i Hi]%list_elem_of_lookup [j Hj]%list_elem_of_lookup E. assert (i = j) as ->; [|by simplify_eq].
  eapply NoDup_lookup; [exact outs_nodup| |]; rewrite list_lookup_fmap, ?Hi, ?Hj; simpl; [done|by rewrite E].
Qed.

Lemma merge_value_ok o vss :
  vss <> [] ->
  merge_value (o_name o, (fun vs => MTensor (out_tensor o vs)) <$> vss) = Ok (o_name o, MTensor (out_tensor o (concat vss))).
Proof.
  intros Hne. unfold merge_value. simpl.
  assert (Ht : all_tensors ((fun vs => MTensor (out_tensor o vs)) <$> vss) = Some (of_rows (o_tr o) <$> (fmap (o_row o) <$> vss))).
  { rewrite <- list_fmap_compose. unfold all_tensors. change (fun vs => MTensor (out_tensor o vs)) with (MTensor ∘ out_tensor o).
    rewrite list_fmap_compose. by apply mapM_fmap_Some. }
  rewrite Ht. rewrite torch_cat_of_rows by (by destruct vss). simpl. do 3 f_equal.
  unfold out_tensor. f_equal. clear. induction vss as [|vs vss IH]; [done|]. csimpl. by rewrite fmap_app, IH.
Qed.

(** Merging shards that have the outputs for their rows gives the outputs for all rows. *)
Lemma merge_many ms vss :
  Forall2 renders ms vss -> vss <> [] -> exists m, mapM merge_value (combine_shards ms) = Ok m /\ renders m (concat vss).
Proof.
  intros HF Hne. assert (Hnd : NoDup (dict_keys (combine_shards ms))) by (apply combine_nodup, NoDup_nil_2).
  assert (Hit : forall kl, kl ∈ combine_shards ms -> exists o, o ∈ outs /\ kl = (o_name o, (fun vs => MTensor (out_tensor o vs)) <$> vss)).
  { intros [k l] Hin. apply dict_elem_get in Hin; [|done]. rewrite (combine_shards_get ms vss) in Hin by done.
    destruct Hin as (o & Ho & -> & ->). eauto. }
  destruct (mapM_total merge_value (combine_shards ms)) as (m & Hm & HM).
  { intros kl Hin. destruct (Hit kl Hin) as (o & Ho & ->). eexists. by apply merge_value_ok. }
  exists m. split; [done|].
  assert (HM' : Forall2 (fun kl kv => kv.1 = kl.1 /\ exists o, o ∈ outs /\ kl.1 = o_name o /\ kv.2 = MTensor (out_tensor o (concat vss)))
    (combine_shards ms) m).
  { clear Hm Hnd. induction HM as [|kl kv c m E HM IH]; constructor; [|apply IH; set_solver].
    destruct (Hit kl) as (o & Ho & ->); [set_solver|]. rewrite merge_value_ok in E by done. simplify_eq/=. eauto. }
  pose proof (dict_keys_Forall2 _ _ _ HM') as Hk. split; [by rewrite Hk|]. intros k v.
  pose proof (dict_get_Forall2 (fun k _ w => exists o, o ∈ outs /\ k = o_name o /\ w = MTensor (out_tensor o (concat vss))) _ _ k HM') as Hg.
  split.
  - intros Hv. rewrite Hv in Hg. by destruct (dict_get (combine_shards ms) k).
  - intros (o & Ho & -> & ->).
    assert (Hc : dict_get (combine_shards ms) (o_name o) = Some ((fun vs => MTensor (out_tensor o vs)) <$> vss))
      by (apply (combine_shards_get ms vss); eauto).
    rewrite Hc in Hg. destruct (dict_get m (o_name o)) as [w|]; [|done]. destruct Hg as (o' & Ho' & E & ->).
    by rewrite (out_of_name o o').
Qed.

Lemma merge_renders ms vss :
  Forall2 renders ms vss -> vss <> [] -> exists m, merge_dict_shards ms = Ok m /\ renders m (concat vss).
Proof.
  intros HF Hne. destruct ms as [|m1 [|m2 ms]].
  - inversion HF; subst; done.
  - inversion HF as [|? vs ? ? H1 H2]; subst. inversion H2; subst. exists m1. csimpl. by rewrite app_nil_r.
  - by apply (merge_many (m1 :: m2 :: ms)).
Qed.

(** *** Undoing the reordering *)

Lemma reverse_idx_ok idx n :
  idx ≡ₚ seq 0 n ->
  exists rev, get_reverse_idx idx = Ok rev /\ length rev = n /\ forall i p, idx !! i = Some p -> rev !! p = Some i.
Proof.
  intros HP. assert (Hl : length idx = n) by (rewrite HP; apply length_seq). unfold get_reverse_idx. rewrite Hl.
  destruct (foldM_ok (fun (pre : list (nat * nat)) acc => length acc = n /\ (NoDup pre.*2 -> forall i p, (i, p) ∈ pre -> acc !! p = Some i))
    (fun acc '(i, p) => _ ← check (p <? length acc)%nat (IndexError "list assignment index out of range"); Ok (<[p := i]> acc))
    (replicate n 0%nat) (imap pair idx)) as (rev & Hrev & Hlr & Hr).
  - split; [apply length_replicate|set_solver].
  - intros pre [i p] acc [Hla Ha] Hin. apply elem_of_lookup_imap in Hin as (i' & p' & [= <- <-] & Hi).
    assert (p < n)%nat.
    { assert (Hp : p ∈ idx) by by eapply list_elem_of_lookup_2. rewrite HP in Hp. apply elem_of_seq in Hp. lia. }
    rewrite Hla. destruct (p <? n)%nat eqn:E; [|lia]. eexists. split; [done|]. split; [by rewrite length_insert|].
    rewrite fmap_app. simpl. intros [Hn1 [Hn2 _]]%NoDup_app i0 p0 [Hin|Hin]%elem_of_app.
    + assert (p0 <> p). { intros ->. apply (Hn2 p); [by apply (list_elem_of_fmap_2 snd _ (i0, p))|set_solver]. }
      rewrite list_lookup_insert_ne by done. by apply Ha.
    + apply list_elem_of_singleton in Hin as [= -> ->]. apply list_lookup_insert_eq. lia.
  - exists rev. split; [exact Hrev|]. split; [done|]. intros i p Hi. apply Hr.
    + assert (E : (imap pair idx).*2 = idx).
      { apply list_eq. intros j. rewrite list_lookup_fmap, list_lookup_imap. by destruct (idx !! j). }
      rewrite E, HP. apply NoDup_seq.
    + apply elem_of_lookup_imap. eauto.
Qed.

Lemma index_select_of_rows tr rows rev :
  Forall (fun r => length r = prodn tr) rows -> Forall (fun i => (i < length rows)%nat) rev ->
  index_select0 (of_rows tr rows) rev = Ok (of_rows tr ((fun i => default [] (rows !! i)) <$> rev)).
Proof.
  intros Hw Hr. rewrite (index_select0_ok _ (length rows) tr) by done. unfold of_rows. rewrite length_fmap. do 3 f_equal.
  apply list_fmap_ext. intros j i Hi. simpl. rewrite Forall_lookup in Hr. specialize (Hr j i Hi).
  destruct (lookup_lt_is_Some_2 rows i Hr) as [r Hrow]. rewrite Hrow. by apply chunk_concat.
Qed.

Lemma select_reversed {A} (g : nat -> A) (d : A) idx rev n :
  idx ≡ₚ seq 0 n -> length rev = n -> (forall i p, idx !! i = Some p -> rev !! p = Some i) ->
  (fun i => default d ((g <$> idx) !! i)) <$> rev = g <$> seq 0 n.
Proof.
  intros HP Hl Hr. apply list_eq. intros p. rewrite !list_lookup_fmap.
  destruct (decide (p < n)%nat) as [Hp|Hp].
  - rewrite lookup_seq_lt by done. simpl.
    assert (Hin : p ∈ idx) by (rewrite HP; apply elem_of_seq; lia). apply list_elem_of_lookup in Hin as [i Hi].
    rewrite (Hr i p Hi). simpl. by rewrite list_lookup_fmap, Hi.
  - rewrite !lookup_ge_None_2; [done|rewrite length_seq; lia|lia].
Qed.

Lemma restore_renders m (g : nat -> meta) idx n :
  idx ≡ₚ seq 0 n -> renders m (g <$> idx) ->
  exists m', restore_batch_order m (Some idx) = Ok m' /\ renders m' (g <$> seq 0 n).
Proof.
  intros HP Hm. destruct (reverse_idx_ok idx n HP) as (rev & Hrev & Hl & Hr).
  assert (Hlen : length idx = n) by (rewrite HP; apply length_seq).
  assert (Hsel : forall o, o ∈ outs -> index_select0 (out_tensor o (g <$> idx)) rev = Ok (out_tensor o (g <$> seq 0 n))).
  { intros o Ho. unfold out_tensor. rewrite index_select_of_rows.
    - do 2 f_equal. rewrite <- !list_fmap_compose. by apply select_reversed.
    - apply Forall_fmap, Forall_true. intros r. by apply outs_width.
    - rewrite !length_fmap, Hlen. apply Forall_lookup. intros p i Hp. assert (p < n)%nat by (apply lookup_lt_Some in Hp; lia).
      assert (Hin : p ∈ idx) by (rewrite HP; apply elem_of_seq; lia). apply list_elem_of_lookup in Hin as [i' Hi'].
      rewrite (Hr i' p Hi') in Hp. simplify_eq. apply lookup_lt_Some in Hi'. lia. }
  unfold restore_batch_order. rewrite Hrev. cbn [mbind res_bind].
  destruct (mapM_items (restore_value rev) m) as (m' & Hm' & HF).
  { intros [k v] Hin. destruct (renders_items _ _ _ _ Hm Hin) as (o & Ho & -> & ->). simpl. rewrite Hsel by done. by eexists. }
  exists m'. split; [done|].
  pose proof (dict_keys_Forall2 _ _ _ HF) as Hk. split; [rewrite Hk; apply Hm|]. intros k v.
  pose proof (dict_get_Forall2 (fun k v w => restore_value rev v = Ok w) _ _ k HF) as Hg.
  destruct Hm as [_ Hm]. split.
  - intros Hv. rewrite Hv in Hg. destruct (dict_get m k) as [v0|] eqn:E; [|done]. apply Hm in E as (o & Ho & -> & ->).
    simpl in Hg. rewrite Hsel in Hg by done. simplify_eq/=. eauto.
  - intros (o & Ho & -> & ->). assert (E : dict_get m (o_name o) = Some (MTensor (out_tensor o (g <$> idx)))) by (apply Hm; eauto).
    rewrite E in Hg. destruct (dict_get m' (o_name o)) as [w|]; [|done]. simpl in Hg. rewrite Hsel in Hg by done. by simplify_eq/=.
Qed.
End outputs.

(** ** The workers and the server

    [_forward_maybe_backward] of [common/deepspeed_worker.py] unpacks its shard, cuts it into
    microbatches, runs the model pipeline on each and merges their outputs; [forward] of
    [common/ray_server.py] splits, gathers, merges and restores the order.  The pipeline
    itself (the model) is a parameter; what follows concerns its row-wise ["batch"] output. *)
Section pipeline.
Context (run_pipeline : meta -> meta -> meta -> res meta).

Definition shard_request (s : shard) : wire_request :=
  ApRequest (Some (match s_batch s with ShardRows d => OneBatch d | ShardLists l => Microbatches (List.map Some l) end))
    (Some (s_meta s)) (Some (s_processing s)).

Definition micro_batches (b : bag) (grad_accum_steps : nat) : res (list meta) :=
  match b with
  | RowLists l =>
      _ ← check (length l =? grad_accum_steps)%nat (ValueError "wrong number of GAS microbatches");
      Ok l
  | Rows d => split_dict d grad_accum_steps
  end.

Definition worker_forward (grad_accum_steps : nat) (s : shard) : res meta :=
  '(b, m, processing) ← unpack_batch (shard_request s);
  micro ← micro_batches b grad_accum_steps;
  outputs ← mapM (fun mb => run_pipeline mb m processing) micro;
  merge_dict_shards outputs.

(** [shards[0]["meta"]["worker_return_tensors"] = True]: the shards share one [meta] dictionary,
    so every worker gets the flag. *)
Definition return_tensors (meta_data : meta) : meta := dict_set meta_data "worker_return_tensors" (MBool true).
Definition stamp_return_tensors (s : shard) : shard := Shard (s_batch s) (return_tensors (s_meta s)) (s_processing s).

Definition server_forward (r : wire_request) (num_workers : nat) (sp_size : mval) (grad_accum_steps : nat) : res meta :=
  '(shards, reorder_indices) ← split_batch r num_workers sp_size;
  results ← mapM (worker_forward grad_accum_steps) (List.map stamp_return_tensors shards);
  batch ← merge_dict_shards results;
  restore_batch_order batch reorder_indices.
End pipeline.

(** ** How evenly the rows are cut *)

Definition value_rows (v : mval) : option nat :=
  match v with
  | MTensor t => head (t_shape t)
  | MList l => Some (length l)
  | _ => None
  end.

Definition chunk_rows (n k j : nat) : nat := (n / k + (if j <? n mod k then 1 else 0))%nat.

Definition too_short (k : nat) (v : mval) : Prop := exists n, value_rows v = Some n /\ (n < k)%nat.
#[export] Instance too_short_dec k v : Decision (too_short k v).
Proof.
  unfold too_short. destruct (value_rows v) as [n|]; [|right; by intros (n & H & _)].
  destruct (decide (n < k)%nat) as [H|H]; [left; eauto|right; by intros (n' & [= ->] & H')].
Defined.

Lemma split_value_rows v k :
  (too_short k v -> split_value v k = Raise too_few_rows) /\
  (~ too_short k v -> exists vs, split_value v k = Ok vs /\ forall j, (j < k)%nat ->
     exists v', vs !! j = Some v' /\ value_rows v' = (fun n => chunk_rows n k j) <$> value_rows v).
Proof.
  assert (Hrep : value_rows v = None -> (too_short k v -> Ok (replicate k v) = Raise too_few_rows) /\
    (~ too_short k v -> exists vs, Ok (replicate k v) = Ok vs /\ forall j, (j < k)%nat ->
     exists v', vs !! j = Some v' /\ value_rows v' = (fun n => chunk_rows n k j) <$> value_rows v)).
  { intros Hv. split; [intros (n & E & _); congruence|]. intros _. eexists. split; [done|]. intros j Hj. exists v.
    rewrite Hv. by rewrite lookup_replicate_2. }
  destruct v as [b|z|t| |l]; try (apply Hrep; done); unfold split_value.
  - destruct (t_shape t) as [|n tr] eqn:Es; [apply Hrep; simpl; by rewrite Es|]. simpl value_rows. unfold too_short. simpl. rewrite Es. simpl.
    split; [intros (? & [= <-] & H); by replace (n <? k)%nat with true by lia|]. intros H.
    destruct (Nat.ltb_spec n k); [destruct H; eauto|]. eexists. split; [done|]. intros j Hj.
    rewrite row_bounds_eq, !list_lookup_fmap, lookup_seq_lt by done. eexists. split; [done|]. simpl. unfold slice0. rewrite Es. simpl.
    pose proof (cut_S n k j). unfold chunk_rows. f_equal. lia.
  - unfold too_short. simpl. split; [intros (? & [= <-] & H); by replace (length l <? k)%nat with true by lia|]. intros H.
    destruct (Nat.ltb_spec (length l) k); [destruct H; eauto|]. eexists. split; [done|]. intros j Hj.
    rewrite row_bounds_eq, !list_lookup_fmap, lookup_seq_lt by done. eexists. split; [done|]. simpl. f_equal.
    pose proof (cut_S (length l) k j). pose proof (cut_le (length l) k j Hj). rewrite length_take, length_drop. unfold chunk_rows. lia.
Qed.

(** What the values of a dictionary become in the shards. *)
Lemma split_items_rows (d : meta) k :
  (Exists (fun kv => too_short k kv.2) d ->
     mapM (fun kv => vs ← split_value kv.2 k; Ok (kv.1, vs)) d = Raise too_few_rows) /\
  (~ Exists (fun kv => too_short k kv.2) d -> exists vss, mapM (fun kv => vs ← split_value kv.2 k; Ok (kv.1, vs)) d = Ok vss /\
     Forall2 (fun kv kvs => kvs.1 = kv.1 /\ forall j, (j < k)%nat ->
       exists v', kvs.2 !! j = Some v' /\ value_rows v' = (fun n => chunk_rows n k j) <$> value_rows kv.2) d vss).
Proof.
  induction d as [|[key v] d [IH1 IH2]]; [split; [intros H; inversion H|by exists []]|].
  destruct (split_value_rows v k) as [H1 H2]. cbn [mapM]. destruct (decide (too_short k v)) as [Hs|Hs].
  - split; [|intros H; destruct H; by left]. intros _. simpl. by rewrite H1.
  - destruct (H2 Hs) as (vs & Hvs & Hj). split.
    + intros H. inversion H as [? ? Hs'|? ? Hd]; subst; [done|]. simpl. rewrite Hvs. simpl. by rewrite IH1.
    + intros H. destruct IH2 as (vss & Hvss & HF); [intros Hd; apply H; by right|].
      exists ((key, vs) :: vss). simpl. rewrite Hvs. simpl. rewrite Hvss. split; [done|]. constructor; [split; [done|exact Hj]|done].
Qed.

(** Cutting a batch for [k] workers is refused with a [ValueError] exactly when some value has
    fewer rows than there are workers; otherwise every worker gets all names, in order, and of
    a value with [n] rows [n / k] or one more (the first [n mod k] workers), so never none. *)
Theorem split_dict_even d k :
  (0 < k)%nat ->
  (Exists (fun kv => too_short k kv.2) d -> split_dict d k = Raise too_few_rows) /\
  (~ Exists (fun kv => too_short k kv.2) d -> exists shards, split_dict d k = Ok shards /\ length shards = k /\
     forall j s, shards !! j = Some s ->
       Forall2 (fun kv kv' => kv'.1 = kv.1 /\ value_rows kv'.2 = (fun n => chunk_rows n k j) <$> value_rows kv.2 /\
                  forall n, value_rows kv'.2 = Some n -> (0 < n)%nat) d s).
Proof.
  intros Hk. unfold split_dict. destruct (split_items_rows d k) as [H1 H2]. split.
  - intros H. destruct d as [|kv d]; [inversion H|]. by rewrite (H1 H).
  - intros H. destruct (H2 H) as (vss & Hvss & HF).
    assert (Hrows : forall kv n, kv ∈ d -> value_rows kv.2 = Some n -> (k <= n)%nat).
    { intros kv n Hin Hn. destruct (Nat.le_gt_cases k n); [done|]. destruct H. apply Exists_exists. exists kv.
      split; [done|]. by exists n. }
    destruct d as [|kv d].
    + eexists. split; [done|]. split; [apply length_replicate|]. intros j s [-> _]%lookup_replicate. constructor.
    + rewrite Hvss. eexists. split; [done|]. split; [by rewrite length_fmap, length_seq|]. intros j s Hs.
      apply list_lookup_fmap_Some in Hs as (j' & -> & [-> Hj]%lookup_seq). simpl in *. apply Forall2_fmap_r.
      eapply Forall2_impl_in; [exact HF|]. intros kv0 kvs Hin [Hk0 Hv]. destruct (Hv j Hj) as (v' & Hv' & Hr).
      simpl. rewrite Hv'. simpl. split; [done|]. split; [done|]. intros n Hn. rewrite Hr in Hn.
      destruct (value_rows kv0.2) as [n0|] eqn:E0; [|done]. injection Hn as <-. pose proof (Hrows kv0 n0 Hin E0).
      unfold chunk_rows. pose proof (Nat.div_str_pos n0 k ltac:(lia)). lia.
Qed.

(** ** The bags after unpacking *)

Record bags_ok (d m : meta) : Prop := {
  bo_scalars : forall k, k ∈ META_FWD_SCALAR_KEYS -> k ∉ dict_keys d;
  bo_disjoint : forall k, k ∈ dict_keys d -> k ∉ dict_keys m;
  bo_promoted : forall k t, k ∈ BATCH_DIM_CONTEXT_KEYS -> dict_get m k <> Some (MTensor t);
}.

Lemma has_key_spec d k : has_key d k = true <-> k ∈ dict_keys d.
Proof. unfold has_key. by rewrite bool_decide_eq_true, dict_get_keys. Qed.

Lemma reject_scalars_spec d : reject_meta_fwd_scalars_on_batch d = Ok () <-> forall k, k ∈ META_FWD_SCALAR_KEYS -> k ∉ dict_keys d.
Proof.
  unfold reject_meta_fwd_scalars_on_batch. split.
  - intros H%check_Ok_inv k Hk Hin. rewrite forallb_forall in H. apply list_elem_of_In in Hk.
    specialize (H k Hk). apply negb_true_iff in H. apply has_key_spec in Hin. congruence.
  - intros H. replace (forallb _ _) with true; [done|]. symmetry. apply forallb_forall. intros k Hk.
    apply list_elem_of_In in Hk. apply negb_true_iff, not_true_is_false. rewrite has_key_spec. by apply H.
Qed.

Lemma elem_of_overlap d m k : k ∈ overlap_keys d m <-> k ∈ dict_keys d /\ k ∈ dict_keys m.
Proof. unfold overlap_keys. rewrite py_sorted_perm, list_elem_of_filter. tauto. Qed.

Lemma disjoint_spec d m : assert_disjoint_bags d m = Ok () <-> forall k, k ∈ dict_keys d -> k ∉ dict_keys m.
Proof.
  unfold assert_disjoint_bags. split.
  - intros H%check_Ok_inv%bool_decide_eq_true k Hd Hm. assert (Hk : k ∈ overlap_keys d m) by by apply elem_of_overlap.
    rewrite H in Hk. set_solver.
  - intros H. rewrite bool_decide_eq_true_2; [done|]. destruct (overlap_keys d m) as [|k l] eqn:E; [done|].
    assert (Hk : k ∈ overlap_keys d m) by (rewrite E; set_solver). apply elem_of_overlap in Hk as [Hd Hm]. by destruct (H k).
Qed.

(** What one promotion does: it keeps disjoint bags disjoint, adds only its own key to the
    batch and leaves no tensor under its key in the metadata. *)
Lemma promote_one_ok d m k d' m' :
  promote_one (d, m) k = (d', m') ->
  (forall t, dict_get m' k <> Some (MTensor t)) /\
  (forall k' t, dict_get m' k' = Some (MTensor t) -> dict_get m k' = Some (MTensor t)) /\
  ((forall k', k' ∈ dict_keys d -> k' ∉ dict_keys m) -> forall k', k' ∈ dict_keys d' -> k' ∉ dict_keys m') /\
  (forall k', k' ∈ dict_keys d' -> k' ∈ dict_keys d \/ k' = k).
Proof.
  unfold promote_one. intros E. destruct (dict_get m k) as [[| |t| |]|] eqn:Ek; simplify_eq;
    try (split_and!; [congruence|done|done|by left]).
  assert (Hsub : forall k', k' ∈ dict_keys (if has_key d k then d else dict_set d k (MTensor t)) -> k' ∈ dict_keys d \/ k' = k).
  { intros k'. destruct (has_key d k); [by left|]. rewrite dict_keys_set. tauto. }
  split_and!; [|..|done].
  - intros t'. by rewrite dict_get_del_eq.
  - intros k' t' Hk'. destruct (decide (k = k')) as [->|]; [by rewrite dict_get_del_eq in Hk'|].
    by rewrite dict_get_del_ne in Hk'.
  - intros Hdis k' Hk' Hm'. rewrite dict_keys_del in Hm'. apply list_elem_of_filter in Hm' as [Hne Hm'].
    apply Hsub in Hk' as [Hk'| ->]; [by apply (Hdis k')|done].
Qed.

Lemma scalars_not_batch_dim k : k ∈ META_FWD_SCALAR_KEYS -> k ∉ BATCH_DIM_CONTEXT_KEYS.
Proof.
  assert (H : Forall (fun k => k ∉ BATCH_DIM_CONTEXT_KEYS) META_FWD_SCALAR_KEYS)
    by (apply (bool_decide_unpack _); vm_compute; exact I).
  rewrite Forall_forall in H. apply H.
Qed.

(** The loop over any list of keys without forward scalars. *)
Definition promoted (pre : list string) (bags : meta * meta) : Prop :=
  (forall k, k ∈ dict_keys bags.1 -> k ∉ dict_keys bags.2) /\
  (forall k t, k ∈ pre -> dict_get bags.2 k <> Some (MTensor t)) /\
  (forall k, k ∈ META_FWD_SCALAR_KEYS -> k ∉ dict_keys bags.1).

Lemma promote_loop keys bags :
  (forall k, k ∈ META_FWD_SCALAR_KEYS -> k ∉ keys) -> promoted [] bags -> promoted keys (fold_left promote_one keys bags).
Proof.
  intros Hsc H0. apply (fold_left_inv promoted); [done|].
  intros pre key [d1 m1] (H1 & H2 & H3) Hkey. destruct (promote_one (d1, m1) key) as [d2 m2] eqn:E2.
  destruct (promote_one_ok _ _ _ _ _ E2) as (P1 & P2 & P3 & P4). split; [by apply P3|]. split.
  - intros k t [Hk| ->%list_elem_of_singleton]%elem_of_app; [|by apply P1]. intros Hg%P2. by apply (H2 k t).
  - intros k Hk Hin. apply P4 in Hin as [Hin| ->]; [by apply (H3 k)|]. by apply (Hsc key).
Qed.

(** The list of keys is long: it must not be unfolded by conversion. *)
Strategy opaque [BATCH_DIM_CONTEXT_KEYS].

Lemma promote_ok d m d' m' :
  promote_batch_dim_to_batch d m = (d', m') -> (forall k, k ∈ dict_keys d -> k ∉ dict_keys m) ->
  (forall k, k ∈ META_FWD_SCALAR_KEYS -> k ∉ dict_keys d) -> bags_ok d' m'.
Proof.
  intros E Hdis Hsc. destruct (promote_loop BATCH_DIM_CONTEXT_KEYS (d, m) scalars_not_batch_dim) as (H1 & H2 & H3).
  - split; [done|]. split; [by intros k t Hk%not_elem_of_nil|done].
  - unfold promote_batch_dim_to_batch in E. rewrite E in H1, H2, H3. exact (Build_bags_ok d' m' H3 H1 H2).
Qed.

Lemma promote_fixed d m : bags_ok d m -> promote_batch_dim_to_batch d m = (d, m).
Proof.
  intros [_ _ HP]. unfold promote_batch_dim_to_batch. revert HP. generalize BATCH_DIM_CONTEXT_KEYS as keys.
  induction keys as [|k keys IH]; intros HP; [done|]. cbn [fold_left].
  replace (promote_one (d, m) k) with (d, m); [apply IH; intros k' t Hk'; apply HP; set_solver|].
  unfold promote_one. destruct (dict_get m k) as [[| |t| |]|] eqn:E; try done. destruct (HP k t); set_solver.
Qed.

(** Dropping a shared key from one bag. *)
Lemma resolve_overlap_disjoint keys d m d' m' :
  foldM resolve_overlap_one (d, m) keys = Ok (d', m') ->
  (forall k, k ∈ dict_keys d' -> k ∈ dict_keys d) /\ (forall k, k ∈ dict_keys m' -> k ∈ dict_keys m) /\
  (forall k, k ∈ keys -> k ∈ dict_keys d' -> k ∉ dict_keys m').
Proof.
  revert d m; induction keys as [|key keys IH]; intros d m H.
  - injection H as <- <-. split; [done|]. split; [done|]. by intros k Hk%not_elem_of_nil.
  - cbn [foldM] in H. apply bind_Ok_inv in H as ([d1 m1] & H1 & H). apply IH in H as (I1 & I2 & I3).
    assert (Hstep : (forall k, k ∈ dict_keys d1 -> k ∈ dict_keys d) /\ (forall k, k ∈ dict_keys m1 -> k ∈ dict_keys m) /\
      (key ∈ dict_keys d1 -> key ∉ dict_keys m1)).
    { unfold resolve_overlap_one in H1. res_inv. case_decide; simplify_eq;
        (split_and!; [intros k|intros k|]; rewrite ?dict_keys_del, ?list_elem_of_filter; tauto). }
    destruct Hstep as (S1 & S2 & S3). split; [eauto|]. split; [eauto|].
    intros k [->|Hk]%elem_of_cons Hd Hm; [|by apply (I3 k)]. apply S3; eauto.
Qed.

Lemma resolve_cortex_ok d m d' m' :
  resolve_cortex_overlap d m = Ok (d', m') -> forall k, k ∈ dict_keys d' -> k ∉ dict_keys m'.
Proof.
  unfold resolve_cortex_overlap. intros H k Hd Hm. apply resolve_overlap_disjoint in H as (H1 & H2 & H3).
  apply (H3 k); [|done|done]. apply elem_of_overlap. eauto.
Qed.

Lemma promote_bags_rows d m :
  promote_bags (OneBatch d) m = Ok (Rows (promote_batch_dim_to_batch d m).1, (promote_batch_dim_to_batch d m).2).
Proof. unfold promote_bags. by destruct (promote_batch_dim_to_batch d m). Qed.

Lemma promote_bags_ok b d0 m0 d m :
  promote_bags b m0 = Ok (Rows d, m) -> b = OneBatch d0 -> (forall k, k ∈ dict_keys d0 -> k ∉ dict_keys m0) ->
  (forall k, k ∈ META_FWD_SCALAR_KEYS -> k ∉ dict_keys d0) -> bags_ok d m.
Proof.
  intros H -> Hdis Hsc. rewrite promote_bags_rows in H. injection H as <- <-.
  apply (promote_ok d0 m0); [by destruct (promote_batch_dim_to_batch d0 m0)|done|done].
Qed.

Lemma promote_bags_lists l m0 d m : promote_bags (Microbatches l) m0 <> Ok (Rows d, m).
Proof. unfold promote_bags. by destruct (promote_list_batch l m0) as [[? ?]|]. Qed.

Lemma finish_bags_ok (b0 : wire_batch) (m0 d m p0 p : meta) (u : res unit) :
  (u ≫= fun _ => '(b, m) ← promote_bags b0 m0; Ok (b, m, p0)) = Ok (Rows d, m, p) ->
  u = Ok () /\ promote_bags b0 m0 = Ok (Rows d, m).
Proof.
  intros H. apply bind_Ok_inv in H as ([] & Hc & H). apply bind_Ok_inv in H as ([b1 m1] & Hp & H).
  injection H as -> -> ->. done.
Qed.

Lemma unpack_ap_ok b md pr d m p : unpack_batch (ApRequest b md pr) = Ok (Rows d, m, p) -> bags_ok d m.
Proof.
  destruct b as [b0|]; [|discriminate]. destruct md as [m0|]; [|discriminate]. destruct pr as [p0|]; [|discriminate].
  intros H. apply finish_bags_ok in H as [Hc Hp].
  destruct b0 as [d0|l]; [|by apply promote_bags_lists in Hp]. apply bind_Ok_inv in Hc as ([] & Hr & Hd).
  eapply promote_bags_ok; [exact Hp|done|by apply disjoint_spec|by apply reject_scalars_spec].
Qed.

Lemma unpack_cortex_ok kw ctx pr d m p : unpack_batch (CortexRequest kw ctx pr) = Ok (Rows d, m, p) -> bags_ok d m.
Proof.
  intros H. apply bind_Ok_inv in H as ([d0 m0] & Hc & H). apply finish_bags_ok in H as [Hr Hp].
  eapply promote_bags_ok; [exact Hp|done|by eapply resolve_cortex_ok|by apply reject_scalars_spec].
Qed.

Lemma unpack_bags_ok r d m p : unpack_batch r = Ok (Rows d, m, p) -> bags_ok d m.
Proof. destruct r; [apply unpack_ap_ok|apply unpack_cortex_ok]. Qed.

Lemma finish_bags_intro (b0 : wire_batch) (b : bag) (m0 m p : meta) (u : res unit) :
  u = Ok () -> promote_bags b0 m0 = Ok (b, m) -> (u ≫= fun _ => '(b, m) ← promote_bags b0 m0; Ok (b, m, p)) = Ok (b, m, p).
Proof. intros -> E. cbn [mbind res_bind]. by rewrite E. Qed.

Lemma unpack_fixed d m p : bags_ok d m -> unpack_batch (ApRequest (Some (OneBatch d)) (Some m) (Some p)) = Ok (Rows d, m, p).
Proof.
  intros H. assert (Hp : promote_bags (OneBatch d) m = Ok (Rows d, m)) by (by rewrite promote_bags_rows, promote_fixed).
  assert (Hu : (_ ← reject_meta_fwd_scalars_on_batch d; assert_disjoint_bags d m) = Ok ()).
  { rewrite (proj2 (reject_scalars_spec d) (bo_scalars _ _ H)). apply disjoint_spec, H. }
  exact (finish_bags_intro (OneBatch d) (Rows d) m m p _ Hu Hp).
Qed.

(** The value of a name, in whichever bag it is. *)
Definition bag_lookup (bags : meta * meta) (k : string) : option mval :=
  match dict_get bags.1 k with Some v => Some v | None => dict_get bags.2 k end.

Lemma promote_one_lookup bags key k : bag_lookup (promote_one bags key) k = bag_lookup bags k.
Proof.
  destruct bags as [d m]. unfold promote_one. destruct (dict_get m key) as [[| |t| |]|] eqn:E; try done.
  unfold bag_lookup, has_key. cbn [fst snd]. destruct (decide (key = k)) as [->|Hne].
  - rewrite dict_get_del_eq. destruct (dict_get d k) eqn:Ed; [rewrite bool_decide_eq_true_2 by eauto; by rewrite Ed|].
    rewrite bool_decide_eq_false_2 by (by intros []). by rewrite dict_get_set_eq.
  - rewrite dict_get_del_ne by done. case_bool_decide; [done|]. by rewrite dict_get_set_ne.
Qed.

Lemma promote_lookup d m k : bag_lookup (promote_batch_dim_to_batch d m) k = bag_lookup (d, m) k.
Proof.
  unfold promote_batch_dim_to_batch. generalize BATCH_DIM_CONTEXT_KEYS as keys. intros keys.
  generalize (d, m) as bags. induction keys as [|key keys IH]; intros bags; [done|].
  cbn [fold_left]. by rewrite IH, promote_one_lookup.
Qed.

Lemma unpack_ap_lookup d0 m0 p0 d m p k :
  unpack_batch (ApRequest (Some (OneBatch d0)) (Some m0) p0) = Ok (Rows d, m, p) -> bag_lookup (d, m) k = bag_lookup (d0, m0) k.
Proof.
  destruct p0 as [p0|]; [|discriminate]. intros H. apply finish_bags_ok in H as [_ Hp].
  rewrite promote_bags_rows in Hp. injection Hp as <- <-. rewrite <- (promote_lookup d0 m0 k).
  by destruct (promote_batch_dim_to_batch d0 m0).
Qed.

(** A request that is accepted is sorted into two bags that share no key, with no forward
    scalar among the row values and no per-row tensor left among the metadata; no value of it
    is lost or changed; and a worker that unpacks what was sent reads the same bags. *)
Theorem unpack_batch_sorts r d m p d0 m0 p0 :
  unpack_batch r = Ok (Rows d, m, p) -> r = ApRequest (Some (OneBatch d0)) (Some m0) p0 ->
  bags_ok d m /\ unpack_batch (ApRequest (Some (OneBatch d)) (Some m) (Some p)) = Ok (Rows d, m, p) /\
  forall k, bag_lookup (d, m) k = bag_lookup (d0, m0) k.
Proof.
  intros H ->. pose proof (unpack_bags_ok _ _ _ _ H) as Hb. split; [done|]. split; [by apply unpack_fixed|].
  intros k. by apply (unpack_ap_lookup d0 m0 p0 d m p).
Qed.

(** ** A forward pass *)

Lemma split_views n k d shards :
  aligned n d -> (0 < k)%nat -> (k <= n)%nat -> split_dict d k = Ok shards ->
  length shards = k /\
  concat (imap (fun j s => views s (cut n k (S j) - cut n k j)) shards) = views d n /\
  forall j s, shards !! j = Some s -> aligned (cut n k (S j) - cut n k j) s /\ dict_keys s = dict_keys d /\
    (has_rows d -> has_rows s).
Proof.
  intros Ha Hk Hn Hs. destruct (split_dict_ok n k d Ha Hk Hn) as (shards' & E & Hl & Hj). rewrite Hs in E. simplify_eq.
  split; [done|]. split.
  - unfold views at 2. rewrite <- (concat_cuts (row_view d) n (length shards') Hk). f_equal. apply list_eq. intros j.
    rewrite list_lookup_imap, list_lookup_fmap. destruct (decide (j < length shards')%nat) as [Hlt|Hge].
    + destruct (Hj j Hlt) as (s & -> & _ & _ & _ & Hr). rewrite lookup_seq_lt by done. simpl. f_equal.
      unfold views. apply list_eq. intros i. rewrite !list_lookup_fmap.
      destruct (decide (i < cut n (length shards') (S j) - cut n (length shards') j)%nat) as [Hi|Hi].
      * rewrite !lookup_seq_lt by done. simpl. f_equal. by apply Hr.
      * rewrite !lookup_ge_None_2 by (rewrite length_seq; lia). done.
    + rewrite !lookup_ge_None_2 by (rewrite ?length_seq; lia). done.
  - intros j s Hjs. assert (j < length shards')%nat as Hlt by by eapply lookup_lt_Some.
    destruct (Hj j Hlt) as (s' & Hs' & Hal & Hk' & Hpr & _). by simplify_eq.
Qed.

Lemma bags_ok_keys d d' m : bags_ok d m -> dict_keys d' = dict_keys d -> bags_ok d' m.
Proof. intros [H1 H2 H3] E. split; [rewrite E; exact H1|rewrite E; exact H2|exact H3]. Qed.

(** Rebuilding the position ids adds at most that key. *)
Lemma restore_dropped_keys m d d1 k :
  restore_dropped m d = Ok d1 -> k ∈ dict_keys d1 -> k ∈ dict_keys d \/ k = "position_ids".
Proof.
  unfold restore_dropped, reconstruct_position_ids. intros H Hk.
  destruct (truthy _) as [b|]; [|done]. cbn [mbind res_bind] in H.
  destruct (b && _); [|simplify_eq; by left]. destruct (dict_get d "attention_mask") as [[| |t| |]|]; try done.
  destruct (t_shape t) as [|? [|? [|]]]; try done. injection H as <-. rewrite dict_keys_set in Hk. tauto.
Qed.

(** A stamp under a key of its own keeps the bags sorted. *)
Lemma bags_ok_stamp d m k v :
  bags_ok d m -> k ∉ dict_keys d -> (forall t, v <> MTensor t) -> bags_ok d (dict_set m k v).
Proof.
  intros [H1 H2 H3] Hk Hv. split; [exact H1|..].
  - intros key Hin Hm. rewrite dict_keys_set in Hm. destruct Hm as [->|Hm]; [done|by apply (H2 key)].
  - intros key t Hin. destruct (decide (k = key)) as [->|Hne]; [rewrite dict_get_set_eq; intros E; injection E; apply Hv|].
    rewrite dict_get_set_ne by done. by apply H3.
Qed.

Definition dp_meta (m : meta) (k : nat) : meta := dict_set m "dp_size" (MInt (Z.of_nat k)).

Lemma split_bags_ok d m d1 k :
  bags_ok d m -> restore_dropped (dp_meta m k) d = Ok d1 ->
  "dp_size" ∉ dict_keys d -> "worker_return_tensors" ∉ dict_keys d -> "position_ids" ∉ dict_keys m ->
  bags_ok d1 (return_tensors (dp_meta m k)).
Proof.
  intros [H1 H2 H3] Hr Hdp Hwr Hpos. assert (Hfresh : forall key, key ∉ dict_keys d -> key <> "position_ids" -> key ∉ dict_keys d1).
  { intros key Hk Hne [Hin|Hin]%(restore_dropped_keys _ _ _ _ Hr); done. }
  apply bags_ok_stamp; [apply bags_ok_stamp|..]; [split| | | |]; try done; try by apply Hfresh.
  - intros key Hk [Hin| ->]%(restore_dropped_keys _ _ _ _ Hr); [by apply (H1 key)|].
    revert Hk. apply (bool_decide_unpack _). vm_compute. exact I.
  - intros key [Hin|Hin]%(restore_dropped_keys _ _ _ _ Hr) Hm; subst; [by apply (H2 key)|done].
Qed.

Lemma tensor_rows n d key t : aligned n d -> as_tensor (dict_get d key) = Some t -> (0 < ndim t)%nat -> dim t 0 = n.
Proof.
  intros Ha Ht Hn. destruct (dict_get d key) as [[| |t'| |]|] eqn:E; try done. injection Ht as ->.
  apply (aligned_get n) in E as [_ E]; [|done]. unfold dim, ndim in *. destruct (t_shape t); simpl in *; [lia|done].
Qed.

(** A request that was balanced is about the rows of the batch. *)
Lemma balanced_request_rows k m n d pg a :
  aligned n d ->
  assign_balanced_batch k m (as_tensor (dict_get d "input_ids")) (as_tensor (dict_get d "attention_mask")) None pg = Ok (Some a) ->
  request_rows m (as_tensor (dict_get d "input_ids")) (as_tensor (dict_get d "attention_mask")) None = n.
Proof.
  intros Ha H. unfold assign_balanced_batch, request_rows in *. destruct (balance_disabled m); [done|]. destruct (meta_is m _ true).
  - unfold assign_prompt_groups in H. repeat case_match; simplify_eq;
      (eapply tensor_rows; [done|done|]; match goal with E : (ndim _ =? 2)%nat = true |- _ => apply Nat.eqb_eq in E as ->; lia end).
  - destruct (as_tensor (dict_get d "attention_mask")) as [t|] eqn:Et; [|done]. unfold mask_lengths in *.
    destruct (Nat.eqb_spec (ndim t) 2) as [En|]; [|done]. rewrite length_fmap. unfold rows2. rewrite length_chunks.
    eapply tensor_rows; [done|done|lia].
Qed.

(** The order in which the balanced rows are sent. *)
Lemma flatten_assignment_perm k m n d pg a idx :
  (0 < k)%nat -> aligned n d ->
  assign_balanced_batch (Z.of_nat k) m (as_tensor (dict_get d "input_ids")) (as_tensor (dict_get d "attention_mask")) None pg = Ok a ->
  flatten_assignment a = Some idx -> idx ≡ₚ seq 0 n.
Proof.
  intros Hk Ha H E. destruct a as [a|]; [|done]. injection E as <-.
  destruct (assign_balanced_batch_ok _ _ _ _ _ _ _ Hk H) as [Hp _]. by rewrite (balanced_request_rows _ _ _ _ _ _ Ha H) in Hp.
Qed.

(** The rows go to the workers in an order [idx], a permutation that [None] stands for when it
    is the identity; the shards cut that order into consecutive stretches. *)
Lemma split_rows_ok d m p k n d1 a :
  (0 < k)%nat -> (k <= n)%nat -> restore_dropped m d = Ok d1 -> aligned n d1 ->
  assign_balanced_batch (Z.of_nat k) m (as_tensor (dict_get d1 "input_ids")) (as_tensor (dict_get d1 "attention_mask")) None
    (meta_get d1 "prompt_group_ids") = Ok a ->
  exists shards idx,
    split_rows d m p k = Ok (List.map (fun s => Shard (ShardRows s) m p) shards, flatten_assignment a) /\
    default (seq 0 n) (flatten_assignment a) = idx /\ idx ≡ₚ seq 0 n /\ length shards = k /\
    concat (imap (fun j s => views s (cut n k (S j) - cut n k j)) shards) = row_view d1 <$> idx /\
    forall j s, shards !! j = Some s -> aligned (cut n k (S j) - cut n k j) s /\ dict_keys s = dict_keys d1 /\
      (has_rows d1 -> has_rows s).
Proof.
  intros Hk Hn Hr Ha Has.
  assert (Hre : exists d2, match flatten_assignment a with Some idx => reorder_rows d1 idx | None => Ok d1 end = Ok d2 /\
    aligned n d2 /\ dict_keys d2 = dict_keys d1 /\ (has_rows d1 -> has_rows d2) /\
    views d2 n = row_view d1 <$> default (seq 0 n) (flatten_assignment a) /\
    default (seq 0 n) (flatten_assignment a) ≡ₚ seq 0 n).
  { destruct (flatten_assignment a) as [idx|] eqn:E; [|by exists d1].
    pose proof (flatten_assignment_perm _ _ _ _ _ _ _ Hk Ha Has E) as HP.
    destruct (reorder_rows_ok n idx d1 Ha HP) as (d2 & H1 & H2 & H3 & H4 & H5). by exists d2. }
  destruct Hre as (d2 & Hd2 & Ha2 & Hk2 & Hp2 & Hv2 & HP).
  destruct (split_dict_ok n k d2 Ha2 Hk Hn) as (shards & Hs & _).
  destruct (split_views n k d2 shards Ha2 Hk Hn Hs) as (Hl & Hc & Hj).
  exists shards, (default (seq 0 n) (flatten_assignment a)). split.
  - unfold split_rows. rewrite Hr. cbn [mbind res_bind]. rewrite Has. cbn [mbind res_bind]. rewrite Hd2. cbn [mbind res_bind].
    by rewrite Hs.
  - split; [done|]. split; [done|]. split; [done|]. split; [congruence|]. intros j s Hjs.
    destruct (Hj j s Hjs) as (H1 & H2 & H3). split; [done|]. split; [congruence|auto].
Qed.

Section forward.
Context (run_pipeline : meta -> meta -> meta -> res meta) (outs : list out_spec).
Hypothesis outs_nodup : NoDup (o_name <$> outs).
Hypothesis outs_width : forall o r, o ∈ outs -> length (o_row o r) = prodn (o_tr o).
Context (m p : meta).
(** The pipeline computes each row of its outputs from the row of its inputs. *)
Hypothesis rowwise : forall d n, (0 < n)%nat -> aligned n d -> has_rows d ->
  exists out, run_pipeline d m p = Ok out /\ renders outs out (views d n).

Lemma mapM_pipeline (f : meta -> res meta) shards (vs : nat -> meta -> list meta) :
  (forall j s, shards !! j = Some s -> exists out, f s = Ok out /\ renders outs out (vs j s)) ->
  exists results, mapM f shards = Ok results /\ Forall2 (renders outs) results (imap vs shards).
Proof.
  revert vs; induction shards as [|s shards IH]; intros vs H; [by exists []|].
  destruct (H 0%nat s) as (out & Ho & Hr); [done|]. destruct (IH (vs ∘ S)) as (results & Hrs & HF); [intros j s'; apply (H (S j))|].
  exists (out :: results). cbn [mapM]. simpl. rewrite Ho. simpl. rewrite Hrs. split; [done|]. by constructor.
Qed.

Lemma worker_forward_ok g n s :
  (0 < g)%nat -> (g <= n)%nat -> aligned n s -> has_rows s -> bags_ok s m ->
  exists out, worker_forward run_pipeline g (Shard (ShardRows s) m p) = Ok out /\ renders outs out (views s n).
Proof.
  intros Hg Hn Ha Hr Hb. destruct (split_dict_ok n g s Ha Hg Hn) as (micro & Hs & _).
  destruct (split_views n g s micro Ha Hg Hn Hs) as (Hl & Hc & Hj).
  destruct (mapM_pipeline (fun mb => run_pipeline mb m p) micro (fun j mb => views mb (cut n g (S j) - cut n g j)))
    as (results & Hrs & HF).
  { intros j mb Hjm. destruct (Hj j mb Hjm) as (H1 & _ & H3). pose proof (cut_size n g j).
    assert (0 < n / g)%nat by (by apply Nat.div_str_pos). apply rowwise; [lia|done|auto]. }
  destruct (merge_renders outs outs_nodup outs_width _ _ HF) as (out & Hm & Hout); [destruct micro; [simpl in Hl; lia|done]|].
  exists out. split; [|congruence]. unfold worker_forward, shard_request. cbn [s_batch s_meta s_processing].
  rewrite unpack_fixed by done. cbn [mbind res_bind micro_batches]. rewrite Hs. cbn [mbind res_bind]. by rewrite Hrs.
Qed.
End forward.

Lemma split_batch_rows r k sp d m p :
  unpack_batch r = Ok (Rows d, m, p) -> (0 < k)%nat -> resolve_parallelism_degree sp "sp_size" = Ok 1 ->
  split_batch r k sp = split_rows d (dp_meta m k) p k.
Proof.
  intros Hu Hk Hsp. unfold split_batch. rewrite Hu. cbn [mbind res_bind]. rewrite Hsp. cbn [mbind res_bind].
  cbn [check negb Z.ltb Z.compare Pos.compare Pos.compare_cont]. unfold dp_sp_world_size. simpl resolve_parallelism_degree.
  cbn [mbind res_bind]. replace (1 <=? Z.of_nat k) with true by lia. cbn [check mbind res_bind]. by rewrite Z.mod_1_r.
Qed.

Lemma server_forward_ok run_pipeline outs r k sp g n d m p d1 a :
  let m1 := dp_meta m k in
  NoDup (o_name <$> outs) -> (forall o row, o ∈ outs -> length (o_row o row) = prodn (o_tr o)) ->
  (forall s c, (0 < c)%nat -> aligned c s -> has_rows s ->
     exists out, run_pipeline s (return_tensors m1) p = Ok out /\ renders outs out (views s c)) ->
  unpack_batch r = Ok (Rows d, m, p) -> "dp_size" ∉ dict_keys d ->
  "worker_return_tensors" ∉ dict_keys d -> "position_ids" ∉ dict_keys m -> restore_dropped m1 d = Ok d1 -> aligned n d1 -> has_rows d1 ->
  resolve_parallelism_degree sp "sp_size" = Ok 1 -> (0 < k)%nat -> (0 < g)%nat -> (g <= n / k)%nat ->
  assign_balanced_batch (Z.of_nat k) m1 (as_tensor (dict_get d1 "input_ids")) (as_tensor (dict_get d1 "attention_mask")) None
    (meta_get d1 "prompt_group_ids") = Ok a ->
  exists out, server_forward run_pipeline r k sp g = Ok out /\ renders outs out (views d1 n).
Proof.
  intros m1 Hnd Hw Hrow Hu Hdp Hwr Hpos Hd1 Ha Hhr Hsp Hk Hg Hgn Has.
  assert (Hb : bags_ok d1 (return_tensors m1)) by (eapply split_bags_ok; [by eapply unpack_bags_ok|done|done|done|done]).
  assert (Hkn : (k <= n)%nat) by (destruct (Nat.le_gt_cases k n); [done|rewrite Nat.div_small in Hgn; lia]).
  destruct (split_rows_ok d m1 p k n d1 a Hk Hkn Hd1 Ha Has) as (shards & idx & Hs & Hidx & HP & Hl & Hc & Hj).
  destruct (mapM_pipeline outs (fun s => worker_forward run_pipeline g (Shard (ShardRows s) (return_tensors m1) p)) shards
    (fun j s => views s (cut n k (S j) - cut n k j))) as (results & Hrs & HF).
  { intros j s Hjs. destruct (Hj j s Hjs) as (H1 & H2 & H3). pose proof (cut_size n k j).
    eapply worker_forward_ok; [done|done|exact Hrow|done|lia|done|auto|by eapply bags_ok_keys]. }
  destruct (merge_renders outs Hnd Hw _ _ HF) as (merged & Hm & Hmr); [destruct shards; [simpl in Hl; lia|done]|].
  unfold server_forward. rewrite (split_batch_rows _ _ _ _ _ _ Hu Hk Hsp). fold m1. rewrite Hs. cbn [mbind res_bind].
  rewrite !mapM_map. unfold stamp_return_tensors. cbn [s_batch s_meta s_processing]. rewrite Hrs. cbn [mbind res_bind]. rewrite Hm. cbn [mbind res_bind]. rewrite Hc in Hmr.
  destruct (flatten_assignment a) as [idx'|]; simpl in Hidx; subst idx.
  - by apply (restore_renders outs Hnd Hw _ (row_view d1)).
  - by exists merged.
Qed.

(** C12: a forward pass over [k] workers with [g] microbatches each returns every output of a
    pipeline that works row by row, for all rows of the request and in the request's own row
    order: balancing, reordering, both cuts, both merges and the final restoration compose to
    the identity on rows. *)
Theorem server_forward_rowwise run_pipeline outs r k sp g n d m p d1 a :
  let m1 := dp_meta m k in
  NoDup (o_name <$> outs) -> (forall o row, o ∈ outs -> length (o_row o row) = prodn (o_tr o)) ->
  (forall s c, (0 < c)%nat -> aligned c s -> has_rows s ->
     exists out, run_pipeline s (return_tensors m1) p = Ok out /\ renders outs out (views s c)) ->
  unpack_batch r = Ok (Rows d, m, p) -> "dp_size" ∉ dict_keys d ->
  "worker_return_tensors" ∉ dict_keys d -> "position_ids" ∉ dict_keys m -> restore_dropped m1 d = Ok d1 -> aligned n d1 -> has_rows d1 ->
  resolve_parallelism_degree sp "sp_size" = Ok 1 -> (0 < k)%nat -> (0 < g)%nat -> (g <= n / k)%nat ->
  assign_balanced_batch (Z.of_nat k) m1 (as_tensor (dict_get d1 "input_ids")) (as_tensor (dict_get d1 "attention_mask")) None
    (meta_get d1 "prompt_group_ids") = Ok a ->
  exists out, server_forward run_pipeline r k sp g = Ok out /\ renders outs out (views d1 n).
Proof. apply server_forward_ok. Qed.

(** A pipeline for examples: the sum of each row of [input_ids]. *)
Definition row_sum (row : meta) : list Z :=
  match dict_get row "input_ids" with Some (MTensor t) => [sumZ (t_data t)] | _ => [0] end.
Definition sum_outs : list out_spec := [OutSpec "total" [] row_sum].

Fixpoint count_rows (d : meta) : nat :=
  match d with
  | [] => 0
  | (_, MTensor t) :: d => match t_shape t with [] => count_rows d | n :: _ => n end
  | (_, MList l) :: _ => length l
  | _ :: d => count_rows d
  end.

Definition sum_pipeline (d m p : meta) : res meta := Ok [("total", MTensor (out_tensor (OutSpec "total" [] row_sum) (views d (count_rows d))))].

Lemma count_rows_aligned n d : aligned n d -> has_rows d -> count_rows d = n.
Proof.
  induction d as [|[k v] d IH]; intros Ha (kv & Hin & Hr); [set_solver|].
  assert (Hd : forall A : Prop, (per_row v -> A) -> (has_rows d -> A) -> A).
  { intros A H1 H2. apply elem_of_cons in Hin as [->|Hin]; [by apply H1|]. apply H2. by exists kv. }
  assert (Hv : value_aligned n v) by (apply (Ha (k, v)); set_solver).
  assert (Ha' : aligned n d) by (intros x Hx; apply Ha; set_solver).
  destruct v as [b|z|t| |l]; simpl in *; try (apply Hd; [done|auto]); try done.
  destruct (t_shape t) as [|c tr]; [apply Hd; [done|auto]|apply Hv].
Qed.

Lemma sum_pipeline_rowwise d m p n :
  aligned n d -> has_rows d -> exists out, sum_pipeline d m p = Ok out /\ renders sum_outs out (views d n).
Proof.
  intros Ha Hr. eexists. split; [done|]. rewrite (count_rows_aligned n d Ha Hr). split; [apply NoDup_singleton|].
  intros k v. simpl. unfold sum_outs. split.
  - destruct (decide (k = "total")) as [->|]; [|done]. intros [= <-]. eexists. split; [by left|done].
  - intros (o & ->%list_elem_of_singleton & -> & ->). done.
Qed.

Definition example_request : wire_request :=
  ApRequest
    (Some (OneBatch [("input_ids", MTensor (mk_tensor [4; 2]%nat [1; 0; 2; 0; 3; 3; 4; 4]));
                     ("attention_mask", MTensor (mk_tensor [4; 2]%nat [1; 0; 1; 0; 1; 1; 1; 1]))]))
    (Some [("advantages", MTensor (mk_tensor [4]%nat [1; 2; 3; 4])); ("temperature", MInt 1)]) (Some []).

Definition example_rows : meta :=
  [("input_ids", MTensor (mk_tensor [4; 2]%nat [1; 0; 2; 0; 3; 3; 4; 4]));
   ("attention_mask", MTensor (mk_tensor [4; 2]%nat [1; 0; 1; 0; 1; 1; 1; 1]));
   ("advantages", MTensor (mk_tensor [4]%nat [1; 2; 3; 4]))].

(** Four rows over three workers: two, one, one; over five workers: refused. *)
Lemma split_dict_even_witness :
  (exists shards, split_dict example_rows 3 = Ok shards /\ length shards = 3%nat) /\
  split_dict example_rows 5 = Raise too_few_rows.
Proof.
  split.
  - destruct (proj2 (split_dict_even example_rows 3 ltac:(lia))) as (shards & H & Hl & _); [|by exists shards].
    apply (bool_decide_unpack _). vm_compute. exact I.
  - apply (split_dict_even example_rows 5 ltac:(lia)). apply (bool_decide_unpack _). vm_compute. exact I.
Defined.

Lemma unpack_batch_sorts_witness :
  bags_ok example_rows [("temperature", MInt 1)] /\
  unpack_batch (ApRequest (Some (OneBatch example_rows)) (Some [("temperature", MInt 1)]) (Some [])) =
    Ok (Rows example_rows, [("temperature", MInt 1)], []).
Proof.
  destruct (unpack_batch_sorts example_request example_rows [("temperature", MInt 1)] [] (take 2 example_rows)
    [("advantages", MTensor (mk_tensor [4]%nat [1; 2; 3; 4])); ("temperature", MInt 1)] (Some [])) as (H1 & H2 & _).
  - vm_compute. reflexivity.
  - reflexivity.
  - split; [exact H1|exact H2].
Defined.

(** Two workers, rows 2 and 3 are the long ones: the rows travel in another order and come back
    in the request's. *)
Lemma server_forward_rowwise_witness :
  exists out, server_forward sum_pipeline example_request 2 MNone 1 = Ok out /\ renders sum_outs out (views example_rows 4).
Proof.
  apply (server_forward_rowwise sum_pipeline sum_outs example_request 2 MNone 1 4 example_rows
    [("temperature", MInt 1)] [] example_rows (Some [[0; 2]; [1; 3]]%nat)).
  - apply NoDup_singleton.
  - intros o row ->%list_elem_of_singleton. unfold row_sum. simpl. by destruct (dict_get row "input_ids") as [[]|].
  - intros s c _ Ha Hr. by apply sum_pipeline_rowwise.
  - vm_compute. reflexivity.
  - apply (bool_decide_unpack _). vm_compute. exact I.
  - apply (bool_decide_unpack _). vm_compute. exact I.
  - apply (bool_decide_unpack _). vm_compute. exact I.
  - vm_compute. reflexivity.
  - intros kv Hin. repeat (apply elem_of_cons in Hin as [->|Hin]; [done|]). by apply not_elem_of_nil in Hin.
  - exists ("input_ids", MTensor (mk_tensor [4; 2]%nat [1; 0; 2; 0; 3; 3; 4; 4])). split; [by left|done].
  - reflexivity.
  - lia.
  - lia.
  - vm_compute. lia.
  - vm_compute. reflexivity.
Defined.
