(* ===== verification/BatchMetrics.v ===== *)
(** * Combining metrics over microbatches and ranks

    Source: [metric_is_summed], [combine_metric_shards], [finalize_fwd_bwd_metrics] and
    [combine_metric_microbatches] of [src/arctic_platform/common/utils/batch.py].

    Each microbatch of each rank emits a dictionary of metrics.  A rank combines those of its
    microbatches, the server those of the ranks.  A pair [base.sum], [base.tokens] is added up
    at both levels and becomes one token-weighted mean [base]; additive metrics are added up;
    other numbers are averaged; other values are taken from the first dictionary.

    Numbers are exact rationals ([Qc]) where the source has floats; sets are kept in the order
    in which their elements are added, and the theorems read the results as mappings. *)

From stdpp Require Import prelude strings list.
From Stdlib Require Import ZArith QArith Qcanon Lia.
From S2P Require Import Prelude Dict.
Local Open Scope nat_scope.

(** ** Metrics *)

Inductive metric := Num (q : Qc) | Flag (b : bool) | Other (s : string).

Abbreviation metrics := (list (string * metric)).

Definition endswith (suffix s : string) : bool :=
  (String.length suffix <=? String.length s)%nat &&
  String.eqb (String.substring (String.length s - String.length suffix) (String.length suffix) s) suffix.

(** [s[:-len(suffix)]]. *)
Definition strip_suffix (suffix s : string) : string :=
  String.substring 0 (String.length s - String.length suffix) s.

Section metrics.
(** [is_declared_summed_metric]: the additive metrics declared by the registered losses. *)
Context (declared : string -> bool).

Definition metric_is_summed (key : string) : bool :=
  declared key || String.prefix "loss_term_" key || endswith "_sum" key || endswith "_count" key.

Record totals := Totals {
  numeric_totals : list (string * Qc);
  numeric_counts : list (string * nat);
  passthrough : metrics;
}.

Definition setdefault (d : metrics) (k : string) (v : metric) : metrics :=
  match dict_get d k with Some _ => d | None => dict_set d k v end.

Definition add_metric (acc : totals) (kv : string * metric) : totals :=
  let '(k, v) := kv in
  match v with
  | Num q =>
      Totals (dict_set (numeric_totals acc) k (default 0%Qc (dict_get (numeric_totals acc) k) + q)%Qc)
        (dict_set (numeric_counts acc) k (S (default 0%nat (dict_get (numeric_counts acc) k)))) (passthrough acc)
  | _ => Totals (numeric_totals acc) (numeric_counts acc) (setdefault (passthrough acc) k v)
  end.

Definition total_up (ds : list metrics) : totals := fold_left add_metric (concat ds) (Totals [] [] []).

Definition in_totals (t : totals) (k : string) : bool := bool_decide (is_Some (dict_get (numeric_totals t) k)).

(** [base] when [k] is [base.sum] and [base.tokens] is there too. *)
Definition paired_base (t : totals) (k : string) : option string :=
  if endswith ".sum" k then
    let base := strip_suffix ".sum" k in
    if in_totals t (base +:+ ".tokens") then Some base else None
  else None.

(** A set, in the order its elements are first added. *)
Definition paired_bases (t : totals) : list string :=
  remove_dups (omap (paired_base t) (dict_keys (numeric_totals t))).

Definition total_of (t : totals) (k : string) : Qc := default 0%Qc (dict_get (numeric_totals t) k).

Definition pair_mean (t : totals) (base : string) : Qc :=
  let tokens := total_of t (base +:+ ".tokens") in
  if decide (0 < tokens)%Qc then (total_of t (base +:+ ".sum") / tokens)%Qc else 0%Qc.

Definition mean_of (t : totals) (k : string) (total : Qc) : Qc :=
  match dict_get (numeric_counts t) k with
  | Some (S n) => (total / Q2Qc (inject_Z (Z.of_nat (S n))))%Qc
  | Some O => total
  | None => (total / 1)%Qc
  end.

Definition is_paired (bases : list string) (k : string) : bool :=
  (endswith ".sum" k && bool_decide (strip_suffix ".sum" k ∈ bases)) ||
  (endswith ".tokens" k && bool_decide (strip_suffix ".tokens" k ∈ bases)).

Definition carry_over (t : totals) (bases : list string) (out : metrics) (kt : string * Qc) : metrics :=
  let '(k, total) := kt in
  if is_paired bases k || bool_decide (is_Some (dict_get out k)) then out
  else dict_set out k (Num (if metric_is_summed k then total else mean_of t k total)).

Definition combine_metric_shards (shards : list metrics) : metrics :=
  let t := total_up shards in
  let bases := paired_bases t in
  let out := fold_left (fun out base => dict_set out base (Num (pair_mean t base))) bases [] in
  let out := fold_left (carry_over t bases) (numeric_totals t) out in
  fold_left (fun out kv => setdefault out kv.1 kv.2) (passthrough t) out.

(** The keys of complete [.sum]/[.tokens] pairs. *)
Definition paired_keys (t : totals) : list string :=
  base ← paired_bases t; [base +:+ ".sum"; base +:+ ".tokens"].

Definition combine_metric_microbatches (ds : list metrics) : metrics :=
  let t := total_up ds in
  let out := fold_left (fun out '(k, total) =>
    dict_set out k (Num (if bool_decide (k ∈ paired_keys t) || metric_is_summed k then total else mean_of t k total)))
    (numeric_totals t) [] in
  fold_left (fun out kv => setdefault out kv.1 kv.2) (passthrough t) out.

(** The [metrics] and [avg_loss] of one rank's result. *)
Record rank_result := RankResult { r_metrics : metrics; r_avg_loss : Qc }.

Definition finalize_fwd_bwd_metrics (rs : list rank_result) : res (metrics * Qc) :=
  let m := combine_metric_shards (r_metrics <$> rs) in
  match dict_get m "loss" with
  | Some (Num q) => Ok (m, q)
  | Some (Flag b) => Ok (m, if b then 1%Qc else 0%Qc)
  | Some (Other _) => Raise (ValueError "could not convert string to float")
  | None => Ok (m, fold_left (fun acc r => acc + r_avg_loss r)%Qc rs 0%Qc)
  end.
End metrics.

(** ** Suffixes *)

Lemma substring_app_r (a b : string) : String.substring (String.length a) (String.length b) (a +:+ b) = b.
Proof.
  induction a as [|c a IH]; [|done]. simpl. induction b as [|c b IH]; [done|]. simpl. f_equal. exact IH.
Qed.

Lemma substring_app_l (a b : string) : String.substring 0 (String.length a) (a +:+ b) = a.
Proof. induction a as [|c a IH]; simpl; [by destruct b|]. f_equal. exact IH. Qed.

Lemma length_app_string (a b : string) : String.length (a +:+ b) = String.length a + String.length b.
Proof. induction a as [|c a IH]; [done|]. simpl. f_equal. exact IH. Qed.

Lemma endswith_app suffix base : endswith suffix (base +:+ suffix) = true.
Proof.
  unfold endswith. rewrite length_app_string.
  replace (String.length base + String.length suffix - String.length suffix) with (String.length base) by lia.
  rewrite substring_app_r, String.eqb_refl, andb_true_r. apply Nat.leb_le. lia.
Qed.

Lemma strip_suffix_app suffix base : strip_suffix suffix (base +:+ suffix) = base.
Proof.
  unfold strip_suffix. rewrite length_app_string.
  replace (String.length base + String.length suffix - String.length suffix) with (String.length base) by lia.
  apply substring_app_l.
Qed.

Lemma substring_split n s :
  n <= String.length s -> String.substring 0 n s +:+ String.substring n (String.length s - n) s = s.
Proof.
  revert s; induction n as [|n IH]; intros s Hn.
  - rewrite Nat.sub_0_r. transitivity (String.substring 0 (String.length s) s); [by destruct s|]. exact (substring_app_r "" s).
  - destruct s as [|c s]; simpl in *; [lia|].
    change (String c (String.substring 0 n s +:+ String.substring n (String.length s - n) s) = String c s).
    f_equal. apply IH. lia.
Qed.

Lemma endswith_strip suffix s : endswith suffix s = true -> s = strip_suffix suffix s +:+ suffix.
Proof.
  unfold endswith, strip_suffix. intros [Hl%Nat.leb_le E%String.eqb_eq]%andb_true_iff.
  pose proof (substring_split (String.length s - String.length suffix) s ltac:(lia)) as H.
  replace (String.length s - (String.length s - String.length suffix)) with (String.length suffix) in H by lia.
  by rewrite E in H.
Qed.

(** ** Totals *)

(** The numbers emitted under a key. *)
Definition num_entry (k : string) (kv : string * metric) : option Qc :=
  match kv.2 with Num q => if decide (kv.1 = k) then Some q else None | _ => None end.
Definition num_entries (k : string) (items : metrics) : list Qc := omap (num_entry k) items.
Definition sumQ (l : list Qc) : Qc := foldr Qcplus 0%Qc l.

Lemma sumQ_app l l' : sumQ (l ++ l') = (sumQ l + sumQ l')%Qc.
Proof. induction l as [|x l IH]; simpl; [ring|]. rewrite IH. ring. Qed.

Lemma add_metric_totals acc kv k :
  dict_get (numeric_totals (add_metric acc kv)) k =
    match num_entry k kv with
    | Some q => Some (default 0%Qc (dict_get (numeric_totals acc) k) + q)%Qc
    | None => dict_get (numeric_totals acc) k
    end.
Proof.
  destruct kv as [k0 [q|b|s]]; try done. unfold num_entry. simpl.
  destruct (decide (k0 = k)) as [->|Hne]; [by rewrite dict_get_set_eq|by rewrite dict_get_set_ne].
Qed.

Lemma totals_loop items acc k :
  dict_get (numeric_totals (fold_left add_metric items acc)) k =
    match num_entries k items with
    | [] => dict_get (numeric_totals acc) k
    | es => Some (default 0%Qc (dict_get (numeric_totals acc) k) + sumQ es)%Qc
    end.
Proof.
  revert acc; induction items as [|kv items IH]; intros acc; [done|]. simpl. rewrite IH, add_metric_totals.
  unfold num_entries. simpl. destruct (num_entry k kv) as [q|]; [|done].
  change (omap (num_entry k) items) with (num_entries k items). destruct (num_entries k items); simpl; f_equal; ring.
Qed.

Lemma total_up_get ds k :
  dict_get (numeric_totals (total_up ds)) k =
    match num_entries k (concat ds) with [] => None | es => Some (sumQ es) end.
Proof.
  unfold total_up. rewrite totals_loop. simpl. destruct (num_entries k (concat ds)); [done|]. f_equal. simpl. ring.
Qed.

Lemma total_of_up ds k : total_of (total_up ds) k = sumQ (num_entries k (concat ds)).
Proof. unfold total_of. rewrite total_up_get. by destruct (num_entries k (concat ds)). Qed.

Lemma in_totals_up ds k : in_totals (total_up ds) k = true <-> num_entries k (concat ds) <> [].
Proof.
  unfold in_totals. rewrite bool_decide_eq_true, total_up_get. destruct (num_entries k (concat ds)); [|naive_solver].
  split; [by intros []|done].
Qed.

Lemma totals_nodup ds : NoDup (dict_keys (numeric_totals (total_up ds))).
Proof.
  unfold total_up. apply (fold_left_inv (fun _ acc => NoDup (dict_keys (numeric_totals acc)))); [apply NoDup_nil_2|].
  intros _ [k [q|b|s]] acc H _; simpl; [by apply dict_set_nodup|done|done].
Qed.

Lemma in_totals_key ds k : num_entries k (concat ds) <> [] -> k ∈ dict_keys (numeric_totals (total_up ds)).
Proof. intros H%in_totals_up. unfold in_totals in H. rewrite bool_decide_eq_true in H. by apply dict_get_keys. Qed.

Lemma paired_bases_spec ds base :
  base ∈ paired_bases (total_up ds) <->
  num_entries (base +:+ ".sum") (concat ds) <> [] /\ num_entries (base +:+ ".tokens") (concat ds) <> [].
Proof.
  unfold paired_bases. rewrite elem_of_remove_dups, list_elem_of_omap. split.
  - intros (k & Hk & Hb). unfold paired_base in Hb. destruct (endswith ".sum" k) eqn:E; [|done].
    destruct (in_totals _ _) eqn:Ht; [|done]. injection Hb as <-. apply in_totals_up in Ht. split; [|done].
    rewrite <- (endswith_strip _ _ E). apply dict_get_keys in Hk. rewrite total_up_get in Hk.
    destruct (num_entries k (concat ds)); [by destruct Hk|done].
  - intros [Hs Ht]. exists (base +:+ ".sum"). split; [by apply in_totals_key|]. unfold paired_base.
    rewrite endswith_app, strip_suffix_app. by rewrite (proj2 (in_totals_up ds (base +:+ ".tokens")) Ht).
Qed.

(** ** A rank's dictionary *)

Lemma num_entries_dict (d : metrics) k :
  NoDup (dict_keys d) -> num_entries k d = match dict_get d k with Some (Num q) => [q] | _ => [] end.
Proof.
  unfold dict_keys. induction d as [|[k0 v0] d IH]; [done|]. csimpl. intros [Hk Hd]%NoDup_cons. unfold num_entries in *. simpl.
  rewrite (IH Hd). unfold num_entry. simpl. destruct (decide (k = k0)) as [->|Hne].
  - replace (dict_get d k0) with (@None metric) by (symmetry; by apply dict_get_None).
    destruct v0; [by rewrite decide_True|done|done].
  - destruct v0; [by rewrite decide_False|done|done].
Qed.

(** Values that are not numbers are kept apart. *)
Definition no_numbers (d : metrics) : Prop := forall k q, dict_get d k <> Some (Num q).

Lemma passthrough_no_numbers ds : no_numbers (passthrough (total_up ds)).
Proof.
  unfold total_up. apply (fold_left_inv (fun _ acc => no_numbers (passthrough acc))); [done|].
  intros _ [k v] acc H _ k' q. destruct v as [q0|b|s]; simpl; [apply H|..]; unfold setdefault;
    (destruct (dict_get (passthrough acc) k) eqn:E; [apply H|]); (destruct (decide (k = k')) as [->|Hne];
    [by rewrite dict_get_set_eq|rewrite dict_get_set_ne by done; apply H]).
Qed.

Lemma setdefault_loop (items out : metrics) k :
  dict_get (fold_left (fun out kv => setdefault out kv.1 kv.2) items out) k =
    match dict_get out k with Some v => Some v | None => dict_get items k end.
Proof.
  revert out; induction items as [|[k0 v0] items IH]; intros out; simpl; [by destruct (dict_get out k)|].
  rewrite IH. unfold setdefault. destruct (decide (k = k0)) as [<-|Hne].
  - destruct (dict_get out k) eqn:E; [by rewrite E|by rewrite dict_get_set_eq].
  - destruct (dict_get out k0) eqn:E; [done|by rewrite dict_get_set_ne].
Qed.

Lemma setdefault_loop_nodup (items out : metrics) :
  NoDup (dict_keys out) -> NoDup (dict_keys (fold_left (fun out kv => setdefault out kv.1 kv.2) items out)).
Proof.
  intros H. apply (fold_left_inv (fun _ out => NoDup (dict_keys out))); [done|].
  intros _ kv c Hc _. unfold setdefault. destruct (dict_get c kv.1); [done|by apply dict_set_nodup].
Qed.

Lemma set_loop (f : string -> Qc -> metric) (items : list (string * Qc)) (out : metrics) k :
  NoDup (dict_keys items) ->
  dict_get (fold_left (fun out '(k, total) => dict_set out k (f k total)) items out) k =
    match dict_get items k with Some q => Some (f k q) | None => dict_get out k end.
Proof.
  unfold dict_keys. revert out; induction items as [|[k0 q0] items IH]; intros out; [done|]. csimpl. intros [Hk Hd]%NoDup_cons.
  rewrite (IH _ Hd). destruct (decide (k = k0)) as [<-|Hne]; [|by rewrite dict_get_set_ne].
  replace (dict_get items k) with (@None Qc) by (symmetry; by apply dict_get_None). by rewrite dict_get_set_eq.
Qed.

Section two_levels.
Context (declared : string -> bool).

Lemma micro_entries ds k :
  num_entries k (combine_metric_microbatches declared ds) =
    match num_entries k (concat ds) with
    | [] => []
    | es => [if bool_decide (k ∈ paired_keys (total_up ds)) || metric_is_summed declared k then sumQ es
             else mean_of (total_up ds) k (sumQ es)]
    end.
Proof.
  unfold combine_metric_microbatches. set (t := total_up ds). rewrite num_entries_dict.
  - rewrite setdefault_loop. rewrite (set_loop (fun k total => Num (if bool_decide (k ∈ paired_keys t) || metric_is_summed declared k
      then total else mean_of t k total))) by apply totals_nodup.
    unfold t at 1. rewrite total_up_get. destruct (num_entries k (concat ds)) as [|e es]; [|done]. simpl.
    destruct (dict_get (passthrough t) k) as [[q|b|s]|] eqn:E; [|done..]. by apply passthrough_no_numbers in E.
  - apply setdefault_loop_nodup, (fold_left_inv (fun _ out => NoDup (dict_keys out))); [apply NoDup_nil_2|].
    intros _ [k' q] c Hc _. by apply dict_set_nodup.
Qed.

(** The total of a key survives a rank's combination: it is in a pair, or additive. *)
Definition kept (ds : list metrics) (k : string) : Prop :=
  num_entries k (concat ds) <> [] -> k ∈ paired_keys (total_up ds) \/ metric_is_summed declared k = true.

Lemma rank_total ds k :
  kept ds k -> sumQ (num_entries k (combine_metric_microbatches declared ds)) = sumQ (num_entries k (concat ds)).
Proof.
  intros Hk. rewrite micro_entries. unfold kept in Hk. destruct (num_entries k (concat ds)) as [|e es]; [done|].
  replace (_ || _) with true; [simpl; ring|]. symmetry. apply orb_true_iff. rewrite bool_decide_eq_true. by apply Hk.
Qed.

Lemma num_entries_app k l l' : num_entries k (l ++ l') = num_entries k l ++ num_entries k l'.
Proof. apply omap_app. Qed.

Lemma ranks_total (ranks : list (list metrics)) k :
  Forall (fun ds => kept ds k) ranks ->
  sumQ (num_entries k (concat (combine_metric_microbatches declared <$> ranks))) = sumQ (num_entries k (concat (concat ranks))).
Proof.
  induction 1 as [|ds ranks Hk _ IH]; [done|]. csimpl. rewrite concat_app, !num_entries_app, !sumQ_app, IH. by rewrite rank_total.
Qed.

Lemma ranks_emit (ranks : list (list metrics)) k :
  num_entries k (concat (combine_metric_microbatches declared <$> ranks)) = [] <-> num_entries k (concat (concat ranks)) = [].
Proof.
  induction ranks as [|ds ranks IH]; [done|]. csimpl. rewrite concat_app, !num_entries_app, !app_nil, IH, micro_entries.
  destruct (num_entries k (concat ds)); naive_solver.
Qed.

Lemma paired_kept ds base suffix :
  (num_entries (base +:+ ".sum") (concat ds) = [] <-> num_entries (base +:+ ".tokens") (concat ds) = []) ->
  suffix ∈ [".sum"; ".tokens"] -> kept ds (base +:+ suffix).
Proof.
  intros Hiff Hs Hne. left. unfold paired_keys. apply list_elem_of_bind. exists base. split.
  - set_solver.
  - apply paired_bases_spec. apply list_elem_of_In in Hs as [<-|[<-|[]]]; tauto.
Qed.

(** ** The server's dictionary *)

Lemma base_loop t bases base (out : metrics) :
  base ∈ bases -> dict_get (fold_left (fun out base => dict_set out base (Num (pair_mean t base))) bases out) base = Some (Num (pair_mean t base)).
Proof.
  intros Hb. apply (proj1 (dict_get_fold_set (fun b => b) (fun b => Num (pair_mean t b)) bases out base ltac:(by intros x y _ _ E; simpl in E; rewrite E)) base Hb eq_refl).
Qed.

Lemma other_loop t bases k (out : metrics) :
  k ∉ bases -> dict_get (fold_left (fun out base => dict_set out base (Num (pair_mean t base))) bases out) k = dict_get out k.
Proof.
  intros Hb. apply (proj2 (dict_get_fold_set (fun b => b) (fun b => Num (pair_mean t b)) bases out k ltac:(by intros x y _ _ E; simpl in E; rewrite E))).
  by rewrite list_fmap_id.
Qed.

Lemma carry_over_loop t bases (items : list (string * Qc)) out k :
  NoDup (dict_keys items) -> 
  dict_get (fold_left (carry_over declared t bases) items out) k =
    match dict_get out k with
    | Some v => Some v
    | None => if is_paired bases k then None
              else (fun total => Num (if metric_is_summed declared k then total else mean_of t k total)) <$> dict_get items k
    end.
Proof.
  unfold dict_keys. revert out; induction items as [|[k0 q0] items IH]; intros out.
  { intros _. simpl. destruct (dict_get out k); [done|]. by destruct (is_paired bases k). }
  csimpl. intros [Hk Hd]%NoDup_cons. rewrite (IH _ Hd). destruct (decide (k = k0)) as [<-|Hne].
  - destruct (dict_get out k) eqn:E.
    + rewrite bool_decide_eq_true_2 by eauto. by rewrite orb_true_r, E.
    + rewrite bool_decide_eq_false_2 by (by intros []). rewrite orb_false_r.
      destruct (is_paired bases k); [by rewrite E|]. by rewrite dict_get_set_eq.
  - destruct (is_paired bases k0 || _); [done|]. by rewrite dict_get_set_ne.
Qed.

Lemma shards_get ds k :
  dict_get (combine_metric_shards declared ds) k =
    if decide (k ∈ paired_bases (total_up ds)) then Some (Num (pair_mean (total_up ds) k))
    else match (if is_paired (paired_bases (total_up ds)) k then None else dict_get (numeric_totals (total_up ds)) k) with
         | Some total => Some (Num (if metric_is_summed declared k then total else mean_of (total_up ds) k total))
         | None => dict_get (passthrough (total_up ds)) k
         end.
Proof.
  unfold combine_metric_shards. rewrite setdefault_loop, carry_over_loop by apply totals_nodup.
  case_decide as Hb; [by rewrite base_loop|]. rewrite other_loop by done. simpl. destruct (is_paired _ k); [done|].
  by destruct (dict_get (numeric_totals (total_up ds)) k).
Qed.

(** What the dictionaries of all microbatches of all ranks say about a key. *)
Definition emitted (ranks : list (list metrics)) (k : string) : list Qc := num_entries k (concat (concat ranks)).

Definition token_mean (sum tokens : Qc) : Qc := if decide (0 < tokens)%Qc then (sum / tokens)%Qc else 0%Qc.

(** Every rank emits the two halves of a pair together. *)
Definition emits_pairs (ranks : list (list metrics)) (base : string) : Prop :=
  Forall (fun ds => num_entries (base +:+ ".sum") (concat ds) = [] <-> num_entries (base +:+ ".tokens") (concat ds) = []) ranks.

Lemma pairs_emitted ranks base :
  emits_pairs ranks base -> emitted ranks (base +:+ ".sum") = [] <-> emitted ranks (base +:+ ".tokens") = [].
Proof.
  unfold emitted. induction 1 as [|ds ranks Hd _ IH]; [done|]. simpl. rewrite concat_app, !num_entries_app, !app_nil. tauto.
Qed.

Definition reported (ranks : list (list metrics)) : metrics :=
  combine_metric_shards declared (combine_metric_microbatches declared <$> ranks).

Lemma reported_pair ranks base :
  emits_pairs ranks base -> emitted ranks (base +:+ ".sum") <> [] ->
  dict_get (reported ranks) base =
    Some (Num (token_mean (sumQ (emitted ranks (base +:+ ".sum"))) (sumQ (emitted ranks (base +:+ ".tokens"))))).
Proof.
  intros Hp He. pose proof (pairs_emitted _ _ Hp) as Hiff. unfold reported. rewrite shards_get, decide_True.
  - unfold pair_mean. rewrite !total_of_up, !ranks_total; [done|..];
      (eapply Forall_impl; [exact Hp|]; intros ds Hds; apply paired_kept; [done|set_solver]).
  - apply paired_bases_spec. rewrite !ranks_emit. unfold emitted in *. tauto.
Qed.

Lemma reported_additive ranks k :
  metric_is_summed declared k = true -> emitted ranks k <> [] ->
  endswith ".sum" k = false -> endswith ".tokens" k = false -> emitted ranks (k +:+ ".sum") = [] ->
  dict_get (reported ranks) k = Some (Num (sumQ (emitted ranks k))).
Proof.
  intros Hs He H1 H2 Hn. unfold reported. rewrite shards_get, decide_False.
  - unfold is_paired. rewrite H1, H2. simpl. rewrite total_up_get. pose proof (ranks_emit ranks k) as Hem.
    unfold emitted in *. rewrite <- (ranks_total ranks k) by (apply Forall_true; intros ds _; by right).
    destruct (num_entries k (concat (_ <$> ranks))); [tauto|]. by rewrite Hs.
  - intros [Hb _]%paired_bases_spec. by apply Hb, ranks_emit.
Qed.
End two_levels.

(** C35: combining first over the microbatches of each rank and then over the ranks gives the
    metrics of the whole mini-batch, whatever the ranks' numbers of microbatches: a pair
    [base.sum], [base.tokens] becomes the token-weighted mean over all of them (0 without
    tokens), an additive metric their total, and the reported average loss is the token-weighted
    mean of the loss whenever that pair is emitted. *)
Theorem metrics_of_mini_batch declared (ranks : list (list metrics)) base k avg :
  emits_pairs ranks base -> emitted ranks (base +:+ ".sum") <> [] ->
  metric_is_summed declared k = true -> emitted ranks k <> [] ->
  endswith ".sum" k = false -> endswith ".tokens" k = false -> emitted ranks (k +:+ ".sum") = [] ->
  let mean := token_mean (sumQ (emitted ranks (base +:+ ".sum"))) (sumQ (emitted ranks (base +:+ ".tokens"))) in
  dict_get (reported declared ranks) base = Some (Num mean) /\
  dict_get (reported declared ranks) k = Some (Num (sumQ (emitted ranks k))) /\
  (base = "loss" ->
   finalize_fwd_bwd_metrics declared (List.map (fun ds => RankResult (combine_metric_microbatches declared ds) avg) ranks) =
     Ok (reported declared ranks, mean)).
Proof.
  intros Hp He Hs Hk H1 H2 Hn mean. pose proof (reported_pair declared _ _ Hp He) as Hb.
  split; [done|]. split; [by apply reported_additive|]. intros ->. unfold finalize_fwd_bwd_metrics.
  rewrite <- list_fmap_compose. change (r_metrics ∘ _) with (combine_metric_microbatches declared). fold (reported declared ranks).
  by rewrite Hb.
Qed.

Definition number (z : Z) : metric := Num (Q2Qc (inject_Z z)).

(** One rank with one microbatch, one with two. *)
Definition example_ranks : list (list metrics) :=
  [[ [("loss.sum", number 6); ("loss.tokens", number 2); ("seq_count", number 3)] ];
   [ [("loss.sum", number 1); ("loss.tokens", number 1); ("seq_count", number 1)];
     [("loss.sum", number 2); ("loss.tokens", number 6); ("lr", number 1)] ]].

Lemma metrics_of_mini_batch_witness :
  dict_get (reported (fun _ => false) example_ranks) "loss" = Some (number 1) /\
  dict_get (reported (fun _ => false) example_ranks) "seq_count" = Some (number 4).
Proof.
  destruct (metrics_of_mini_batch (fun _ => false) example_ranks "loss" "seq_count" 0%Qc) as (H1 & H2 & _).
  - unfold emits_pairs. repeat constructor; vm_compute; intros; discriminate.
  - vm_compute. discriminate.
  - vm_compute. reflexivity.
  - vm_compute. discriminate.
  - vm_compute. reflexivity.
  - vm_compute. reflexivity.
  - vm_compute. reflexivity.
  - split; (etransitivity; [eassumption|]); apply (f_equal (fun x => Some (Num x))), Qc_is_canon; vm_compute; reflexivity.
Defined.
