(* ===== verification/Zorro.v ===== *)
(** * Prompt deduplication ([rl/zorro_train/zorro_train.py], class [ZoRRoTrain])

    Rollouts of one prompt share their prompt columns.  The trainer lays a micro-batch out
    as one sequence [prompt_0, response_0_0, response_0_1, ..., prompt_1, ...], runs the
    token-wise layers on it, and rebuilds the full batch for attention.  This file models
    the metadata (segments, [reconstruction_info]) and every conversion: padded and packed,
    in both directions, for token ids, hidden states and position ids.

    A tensor [[batch, seq_len, *extra]] is a list of rows of cells and a tensor
    [[1, tokens, *extra]] a list of cells; the cell type is a parameter, so the theorems hold
    for ids and for hidden states of any trailing shape.  [response_length] is at most the
    row width, as everywhere the trainer calls these functions; prompt lengths are then
    natural numbers.

    The theorems: grouping is by equal prompts in first-seen order; reconstruction undoes
    deduplication (and the other way round) in both formats; packing the deduplicated ids
    and reconstructing them gives exactly the valid tokens of every sample; the sequence
    boundaries count every sample's valid tokens. *)

From S2P Require Import Prelude Dict Tensor Groups Balance SeqlenBalance.
From stdpp Require Import prelude gmap strings list sorting.
From Stdlib Require Import ZArith Lia ZifyNat ZifyBool.

(** ** Slices *)

(** [l[a:b]] with non-negative bounds. *)
Definition slice {A} (l : list A) (a b : nat) : list A := take (b - a) (drop a l).

(** [l[a:b] = src]: the shapes must agree, or [src] has one cell and is broadcast. *)
Definition set_slice {A} (l : list A) (a b : nat) (src : list A) : res (list A) :=
  let a' := min a (length l) in
  let b' := max a' (min b (length l)) in
  if length src =? b' - a' then Ok (take a' l ++ src ++ drop b' l)
  else match src with
       | [x] => Ok (take a' l ++ replicate (b' - a') x ++ drop b' l)
       | _ => Raise (RuntimeError "The expanded size of the tensor must match the existing size")
       end.

(** ** Prompt groups *)

(** The scan over existing groups: append to the first whose representative has this prompt.
    Groups are created with one row, so every group has a representative. *)
Fixpoint join_group {A} `{EqDecision A} (prompts : list (list A)) (p : list A) (i : nat)
    (groups : list (list nat)) : option (list (list nat)) :=
  match groups with
  | [] => None
  | group :: rest =>
      if decide (head group ≫= (prompts !!.) = Some p) then Some ((group ++ [i]) :: rest)
      else (group ::.) <$> join_group prompts p i rest
  end.

Definition find_prompt_groups {A} `{EqDecision A} (rows : list (list A)) (seq_len response_length : nat) :
    res (list (list nat) * list (list A)) :=
  let prompts := take (seq_len - response_length) <$> rows in
  let '(groups, unique) :=
    fold_left (fun '(groups, unique) '(i, p) =>
                 match join_group prompts p i groups with
                 | Some groups => (groups, unique)
                 | None => (groups ++ [[i]], unique ++ [p])
                 end)
      (imap pair prompts) ([], []) in
  match unique with
  | [] => Raise (RuntimeError "stack expects a non-empty TensorList")
  | _ => Ok (groups, unique)
  end.

(** ** Segments *)

Inductive seg_type := Prompt | Response.
#[export] Instance seg_type_eq_dec : EqDecision seg_type.
Proof. solve_decision. Defined.

(** [num_valid_tokens] is [0] until [unpad_deduplicated_batch] sets it. *)
Record segment := Seg {
  seg_start : nat; seg_end : nat; original_idx : nat; seg_kind : seg_type;
  group_idx : nat; num_valid_tokens : nat }.

Record recon := Recon {
  segment_info : list segment;
  rc_groups : list (list nat);
  prompt_len : nat;
  response_length : nat;
  original_batch_size : nat;
  original_seq_len : nat;
  is_unpadded : bool;
  original_attention_mask : option (list (list Z));
  cu_seqlens_packed : list nat;
  max_seqlen_packed : nat;
  cu_seqlens_dedup : list nat;
  max_seqlen_dedup : nat }.

(** The responses of a group, one after the other from [pos]. *)
Fixpoint response_segments (r g pos : nat) (group : list nat) : list segment * nat :=
  match group with
  | [] => ([], pos)
  | s :: group =>
      let '(rest, pos') := response_segments r g (pos + r) group in
      (Seg pos (pos + r) s Response g 0 :: rest, pos')
  end.

(** The loop over groups: one prompt segment per sample, all at the same place, then the
    responses. *)
Fixpoint build_segments (p r g pos : nat) (groups : list (list nat)) : list segment :=
  match groups with
  | [] => []
  | group :: groups =>
      let prompts := (fun s => Seg pos (pos + p) s Prompt g 0) <$> group in
      let '(responses, pos') := response_segments r g (pos + p) group in
      prompts ++ responses ++ build_segments p r (S g) pos' groups
  end.

(** One group's tokens: the first sample's prompt, then every response. *)
Definition dedup_group {A} (rows : list (list A)) (p : nat) (group : list nat) : res (list A) :=
  first ← at_index group 0;
  first_row ← at_index rows first;
  responses ← mapM (fun s => row ← at_index rows s; Ok (drop p row)) group;
  Ok (take p first_row ++ concat responses).

Definition dedup_cells {A} (rows : list (list A)) (p : nat) (groups : list (list nat)) : res (list A) :=
  parts ← mapM (dedup_group rows p) groups;
  match parts with
  | [] => Raise (RuntimeError "torch.cat(): expected a non-empty list of Tensors")
  | _ => Ok (concat parts)
  end.

Definition dedup_input_ids {A} (rows : list (list A)) (seq_len r : nat) (groups : list (list nat))
    (attention_mask : option (list (list Z))) : res (list A * option (list Z) * recon) :=
  let p := seq_len - r in
  ids ← dedup_cells rows p groups;
  mask ← (match attention_mask with
          | Some m => Some <$> dedup_cells m p groups
          | None => Ok None
          end);
  Ok (ids, mask,
      {| segment_info := build_segments p r 0 0 groups; rc_groups := groups; prompt_len := p;
         response_length := r; original_batch_size := length rows; original_seq_len := seq_len;
         is_unpadded := false; original_attention_mask := attention_mask;
         cu_seqlens_packed := []; max_seqlen_packed := 0; cu_seqlens_dedup := [];
         max_seqlen_dedup := 0 |}).

(** ** Unpadding *)

(** [l[mask.bool()]]. *)
Definition select_valid {A} (mask : list Z) (l : list A) : res (list A) :=
  _ ← check (length mask =? length l) (IndexError "The shape of the mask does not match");
  Ok (filter (fun mx : Z * A => mx.1 <> 0%Z) (zip mask l)).*2.

Definition count_valid (mask : list Z) : nat := length (filter (fun x => x <> 0%Z) mask).

Definition unpad_segment (mask : list Z) (seg : segment) : segment :=
  Seg (seg_start seg) (seg_end seg) (original_idx seg) (seg_kind seg) (group_idx seg)
    (count_valid (slice mask (seg_start seg) (seg_end seg))).

(** [cu.append(cu[-1] + n)] over a list of counts. *)
Fixpoint cumulative (acc : nat) (counts : list nat) : list nat :=
  acc :: match counts with [] => [] | n :: counts => cumulative (acc + n) counts end.

Definition sample_valid_tokens (segs : list segment) (sample : nat) : nat :=
  sum_list (num_valid_tokens <$> filter (fun s => original_idx s = sample) segs).

Definition max_list (l : list nat) : nat := foldr max 0 l.

(** The prompt-plus-response counts of the deduplicated boundaries, in layout order. *)
Definition group_counts (segs : list segment) (g : nat) (group : list nat) : res (list nat) :=
  prompt_seg ← at_index (filter (fun s => group_idx s = g /\ seg_kind s = Prompt) segs) 0;
  mapM (fun sample =>
          response_seg ← at_index
            (filter (fun s => group_idx s = g /\ seg_kind s = Response /\ original_idx s = sample) segs) 0;
          Ok (num_valid_tokens prompt_seg + num_valid_tokens response_seg)) group.

Definition unpad_deduplicated_batch {A} (dedup_ids dedup_pos : list A) (mask : list Z) (info : recon) :
    res (list A * list A * recon) :=
  ids ← select_valid mask dedup_ids;
  pos ← select_valid mask dedup_pos;
  let segs := unpad_segment mask <$> segment_info info in
  let counts := sample_valid_tokens segs <$> seq 0 (original_batch_size info) in
  _ ← check (0 <? length counts) (RuntimeError "max(): Expected reduction dim");
  dedup_counts ← mapM (fun '(g, group) => group_counts segs g group) (imap pair (rc_groups info));
  Ok (ids, pos,
      {| segment_info := segs; rc_groups := rc_groups info; prompt_len := prompt_len info;
         response_length := response_length info;
         original_batch_size := original_batch_size info;
         original_seq_len := original_seq_len info; is_unpadded := true;
         original_attention_mask := original_attention_mask info;
         cu_seqlens_packed := cumulative 0 counts; max_seqlen_packed := max_list counts;
         cu_seqlens_dedup := cumulative 0 (concat dedup_counts);
         max_seqlen_dedup := max_list (concat dedup_counts) |}).

(** The position ids passed along are a dummy of zeros. *)
Definition unpad_dedup_input_ids {A} (zero : A) (dedup_ids : list A) (mask : list Z) (info : recon) :
    res (list A * recon) :=
  '(ids, _, info) ← unpad_deduplicated_batch dedup_ids (replicate (length dedup_ids) zero) mask info;
  Ok (ids, info).

Definition unpad_replicated_ids {A} (rows : list (list A)) (mask : list (list Z)) : res (list A) :=
  parts ← mapM (fun '(i, row) => m ← at_index mask i; select_valid m row) (imap pair rows);
  match parts with
  | [] => Raise (RuntimeError "torch.cat(): expected a non-empty list of Tensors")
  | _ => Ok (concat parts)
  end.

(** The returned position ids are the original rows, or packed when unpadding. *)
Definition create_deduplicated_batch {A} (zero : A) (rows position_ids : list (list A)) (seq_len r : nat)
    (groups : list (list nat)) (attention_mask : option (list (list Z))) (use_unpad : bool) :
    res (list A * (list (list A) + list A) * recon) :=
  '(ids, mask, info) ← dedup_input_ids rows seq_len r groups attention_mask;
  match attention_mask, mask with
  | Some m, Some dm =>
      if use_unpad then
        '(ids, info) ← unpad_dedup_input_ids zero ids dm info;
        pos ← unpad_replicated_ids position_ids m;
        Ok (ids, inr pos, info)
      else Ok (ids, inl position_ids, info)
  | _, _ => Ok (ids, inl position_ids, info)
  end.

(** ** Reconstruction *)

(** [sample_segments[idx]]: the last prompt and the last response segment of a sample. *)
Definition add_sample_segment (m : gmap nat (option segment * option segment)) (seg : segment) :
    gmap nat (option segment * option segment) :=
  let '(p, r) := default (None, None) (m !! original_idx seg) in
  match seg_kind seg with
  | Prompt => <[original_idx seg := (Some seg, r)]> m
  | Response => <[original_idx seg := (p, Some seg)]> m
  end.

Definition sample_segments (segs : list segment) : gmap nat (option segment * option segment) :=
  fold_left add_sample_segment segs ∅.

(** One sample of the padded format: zeros, then the prompt, then the response. *)
Definition reconstruct_row {A} (zero : A) (hidden : list A) (info : recon)
    (m : gmap nat (option segment * option segment)) (sample : nat) : res (list A) :=
  match m !! sample with
  | None => Raise (KeyError "sample_segments")
  | Some (Some ps, Some rs) =>
      let row := replicate (original_seq_len info) zero in
      row ← set_slice row 0 (prompt_len info) (slice hidden (seg_start ps) (seg_end ps));
      set_slice row (prompt_len info) (original_seq_len info) (slice hidden (seg_start rs) (seg_end rs))
  | Some _ => Raise (TypeError "'NoneType' object is not subscriptable")
  end.

Definition reconstruct_sequences_padded {A} (zero : A) (hidden : list A) (info : recon) :
    res (list (list A)) :=
  rows ← mapM (reconstruct_row zero hidden info (sample_segments (segment_info info)))
           (seq 0 (original_batch_size info));
  match rows with
  | [] => Raise (RuntimeError "stack expects a non-empty TensorList")
  | _ => Ok rows
  end.

(** [segments_by_group]: the first prompt segment and the responses by sample. *)
Definition add_group_segment (m : gmap nat (option segment * gmap nat segment)) (seg : segment) :
    gmap nat (option segment * gmap nat segment) :=
  let '(p, rs) := default (None, ∅) (m !! group_idx seg) in
  match seg_kind seg with
  | Prompt => <[group_idx seg := (match p with None => Some seg | Some _ => p end, rs)]> m
  | Response => <[group_idx seg := (p, <[original_idx seg := seg]> rs)]> m
  end.

Definition segments_by_group (segs : list segment) : gmap nat (option segment * gmap nat segment) :=
  fold_left add_group_segment segs ∅.

(** [sorted(d.keys())]. *)
Definition sorted_keys {V} (m : gmap nat V) : list nat := py_sorted Nat.ltb (map_to_list m).*1.

(** The places of a group's responses in the packed deduplicated sequence. *)
Fixpoint response_positions (rs : gmap nat segment) (pos : nat) (samples : list nat) :
    gmap nat (nat * nat) * nat :=
  match samples with
  | [] => (∅, pos)
  | s :: samples =>
      let n := match rs !! s with Some seg => num_valid_tokens seg | None => 0 end in
      let '(m, pos') := response_positions rs (pos + n) samples in
      (<[s := (pos, pos + n)]> m, pos')
  end.

(** [group_dedup_positions]: the loop over groups in key order. *)
Fixpoint group_positions (m : gmap nat (option segment * gmap nat segment)) (pos : nat) (keys : list nat) :
    res (gmap nat ((nat * nat) * gmap nat (nat * nat))) :=
  match keys with
  | [] => Ok ∅
  | g :: keys =>
      match m !! g with
      | Some (Some prompt_seg, rs) =>
          let n := num_valid_tokens prompt_seg in
          let '(responses, pos') := response_positions rs (pos + n) (sorted_keys rs) in
          rest ← group_positions m pos' keys;
          Ok (<[g := ((pos, pos + n), responses)]> rest)
      | _ => Raise (TypeError "'NoneType' object is not subscriptable")
      end
  end.

Definition group_dedup_positions (segs : list segment) : res (gmap nat ((nat * nat) * gmap nat (nat * nat))) :=
  let m := segments_by_group segs in group_positions m 0 (sorted_keys m).

(** [sample_to_group]. *)
Definition sample_to_group (groups : list (list nat)) : gmap nat nat :=
  fold_left (fun m '(g, group) => fold_left (fun m s => <[s := g]> m) group m) (imap pair groups) ∅.

(** [d[k]]. *)
Definition dict_at {V} (m : gmap nat V) (k : nat) : res V :=
  match m !! k with Some v => Ok v | None => Raise (KeyError "dict") end.

Definition reconstruct_sequences_packed {A} (hidden : list A) (info : recon) : res (list A) :=
  positions ← group_dedup_positions (segment_info info);
  let groups := sample_to_group (rc_groups info) in
  parts ← mapM (fun sample =>
                  g ← dict_at groups sample;
                  gp ← dict_at positions g;
                  rp ← dict_at gp.2 sample;
                  Ok (slice hidden gp.1.1 gp.1.2 ++ slice hidden rp.1 rp.2))
            (seq 0 (original_batch_size info));
  match parts with
  | [] => Raise (RuntimeError "torch.cat(): expected a non-empty list of Tensors")
  | _ => Ok (concat parts)
  end.

Definition reconstruct_sequences {A} (zero : A) (hidden : list A) (info : recon) :
    res (list (list A) + list A) :=
  if is_unpadded info then inr <$> reconstruct_sequences_packed hidden info
  else inl <$> reconstruct_sequences_padded zero hidden info.

(** ** Deduplication *)

Definition dedup_padded_group {A} (full : list (list A)) (info : recon) (out : list A)
    (item : nat * list nat) : res (list A) :=
  let '(g, group) := item in
  let p := prompt_len info in
  first ← at_index group 0;
  first_row ← at_index full first;
  match head (filter (fun s => group_idx s = g /\ seg_kind s = Prompt) (segment_info info)) with
  | None => Raise (TypeError "'NoneType' object is not subscriptable")
  | Some ps =>
      out ← set_slice out (seg_start ps) (seg_end ps) (take p first_row);
      foldM (fun out sample =>
               match head (filter (fun s => original_idx s = sample /\ seg_kind s = Response)
                             (segment_info info)) with
               | None => Raise (TypeError "'NoneType' object is not subscriptable")
               | Some rs =>
                   row ← at_index full sample;
                   set_slice out (seg_start rs) (seg_end rs) (drop p row)
               end) out group
  end.

Definition deduplicate_sequences_padded {A} (zero : A) (full : list (list A)) (info : recon) :
    res (list A) :=
  let total := length (rc_groups info) * prompt_len info + length full * response_length info in
  foldM (dedup_padded_group full info) (replicate total zero) (imap pair (rc_groups info)).

(** The token count of the packed deduplicated sequence: prompts once per group. *)
Definition count_segment (acc : nat * list nat) (seg : segment) : nat * list nat :=
  let '(total, counted) := acc in
  match seg_kind seg with
  | Prompt =>
      if bool_decide (group_idx seg ∈ counted) then (total, counted)
      else (total + num_valid_tokens seg, group_idx seg :: counted)
  | Response => (total + num_valid_tokens seg, counted)
  end.

Definition total_dedup_tokens (segs : list segment) : nat := (fold_left count_segment segs (0, [])).1.

(** The tokens of one sample in the packed full batch, and how many are prompt tokens. *)
Definition packed_sample {A} (full : list A) (info : recon) (mask : list (list Z)) (sample : nat) :
    res (list A * nat) :=
  a ← at_index (cu_seqlens_packed info) sample;
  b ← at_index (cu_seqlens_packed info) (S sample);
  m ← at_index mask sample;
  Ok (slice full a b, Z.to_nat (sumZ (take (prompt_len info) m))).

Definition dedup_packed_group {A} (full : list A) (info : recon) (mask : list (list Z))
    (positions : gmap nat ((nat * nat) * gmap nat (nat * nat))) (out : list A)
    (item : nat * list nat) : res (list A) :=
  let '(g, group) := item in
  gp ← dict_at positions g;
  first ← at_index group 0;
  '(tokens, n) ← packed_sample full info mask first;
  out ← set_slice out gp.1.1 gp.1.2 (take n tokens);
  foldM (fun out sample =>
           '(tokens, n) ← packed_sample full info mask sample;
           rp ← dict_at gp.2 sample;
           set_slice out rp.1 rp.2 (drop n tokens)) out group.

Definition deduplicate_sequences_packed {A} (zero : A) (full : list A) (info : recon) : res (list A) :=
  match original_attention_mask info with
  | None => Raise (TypeError "'NoneType' object is not subscriptable")
  | Some mask =>
      positions ← group_dedup_positions (segment_info info);
      foldM (dedup_packed_group full info mask positions)
        (replicate (total_dedup_tokens (segment_info info)) zero) (imap pair (rc_groups info))
  end.

(** The format of the full batch is the one [reconstruction_info] announces. *)
Definition deduplicate_sequences {A} (zero : A) (info : recon) :
    (if is_unpadded info then list A else list (list A)) -> res (list A) :=
  match is_unpadded info as b return (if b then list A else list (list A)) -> res (list A) with
  | true => fun packed => deduplicate_sequences_packed zero packed info
  | false => fun rows => deduplicate_sequences_padded zero rows info
  end.

(** ** Position ids: the same placement, on integers *)

Definition reconstruct_position_ids (dedup_pos : option (list Z)) (info : recon) :
    res (option (list (list Z))) :=
  match dedup_pos with
  | None => Ok None
  | Some pos => Some <$> reconstruct_sequences_padded 0%Z pos info
  end.

Definition deduplicate_position_ids (position_ids : list (list Z)) (info : recon) : res (list Z) :=
  deduplicate_sequences_padded 0%Z position_ids info.

(** ** The layout of a deduplicated sequence *)

(** Where the responses of a group go from [pos], given their lengths. *)
Fixpoint place_responses (rlen : nat -> nat) (pos : nat) (group : list nat) : list (nat * (nat * nat)) :=
  match group with
  | [] => []
  | s :: group => (s, (pos, pos + rlen s)) :: place_responses rlen (pos + rlen s) group
  end.

Abbreviation place := (nat * ((nat * nat) * list (nat * (nat * nat))))%type.

(** Where every prompt and response goes. *)
Fixpoint places (plen rlen : nat -> nat) (g pos : nat) (groups : list (list nat)) : list place :=
  match groups with
  | [] => []
  | group :: groups =>
      (g, ((pos, pos + plen g), place_responses rlen (pos + plen g) group)) ::
      places plen rlen (S g) (pos + plen g + sum_list (rlen <$> group)) groups
  end.

(** The cells themselves: [P g] is group [g]'s prompt, [R s] sample [s]'s response. *)
Fixpoint layout {A} (P R : nat -> list A) (g : nat) (groups : list (list nat)) : list A :=
  match groups with
  | [] => []
  | group :: groups => P g ++ concat (R <$> group) ++ layout P R (S g) groups
  end.

Lemma slice_middle {A} (pre x post : list A) a b :
  a = length pre -> b = a + length x -> slice (pre ++ x ++ post) a b = x.
Proof.
  intros -> ->. unfold slice. rewrite drop_app_length.
  replace (length pre + length x - length pre) with (length x) by lia. apply take_app_length.
Qed.

Section layout.
Context {A : Type} (P R : nat -> list A) (plen rlen : nat -> nat).
Hypothesis P_len : forall g, length (P g) = plen g.
Hypothesis R_len : forall s, length (R s) = rlen s.

Lemma length_concat_R group : length (concat (R <$> group)) = sum_list (rlen <$> group).
Proof. induction group as [|s group IH]; csimpl; [done|]. by rewrite length_app, IH, R_len. Qed.

Lemma place_responses_slice full pre post group pos :
  full = pre ++ concat (R <$> group) ++ post -> pos = length pre ->
  Forall (fun '(s, (a, b)) => slice full a b = R s) (place_responses rlen pos group).
Proof.
  revert pre pos; induction group as [|s group IH]; intros pre pos Hf Hpos; csimpl; constructor.
  - subst full. csimpl. rewrite <- app_assoc. apply slice_middle; [done|]. by rewrite R_len.
  - apply (IH (pre ++ R s)).
    + rewrite Hf. csimpl. by rewrite <- !app_assoc.
    + rewrite length_app, R_len. lia.
Qed.

Lemma places_slice full pre post g pos groups :
  full = pre ++ layout P R g groups ++ post -> pos = length pre ->
  Forall (fun '(h, ((a, b), rs)) =>
            slice full a b = P h /\ Forall (fun '(s, (a, b)) => slice full a b = R s) rs)
    (places plen rlen g pos groups).
Proof.
  revert pre pos g; induction groups as [|group groups IH]; intros pre pos g Hf Hpos; simpl; constructor.
  - split.
    + subst full. simpl. rewrite <- app_assoc. apply slice_middle; [done|]. by rewrite P_len.
    + apply (place_responses_slice full (pre ++ P g) (layout P R (S g) groups ++ post)).
      * rewrite Hf. simpl. by rewrite <- !app_assoc.
      * rewrite length_app, P_len. lia.
  - apply (IH (pre ++ P g ++ concat (R <$> group))).
    + rewrite Hf. simpl. by rewrite <- !app_assoc.
    + rewrite !length_app, P_len, length_concat_R. lia.
Qed.

Lemma length_layout g groups :
  length (layout P R g groups) =
  sum_list (plen <$> seq g (length groups)) + sum_list (rlen <$> concat groups).
Proof.
  revert g; induction groups as [|group groups IH]; intros g; csimpl; [done|].
  rewrite !length_app, IH, P_len, length_concat_R, fmap_app, sum_list_with_app. lia.
Qed.
End layout.

Lemma place_responses_fst rlen pos group : (place_responses rlen pos group).*1 = group.
Proof. revert pos; induction group as [|s group IH]; intros pos; csimpl; [done|]. by rewrite IH. Qed.

Lemma places_lookup plen rlen g pos groups i x :
  places plen rlen g pos groups !! i = Some x ->
  x.1 = g + i /\ groups !! i = Some x.2.2.*1.
Proof.
  revert g pos i; induction groups as [|group groups IH]; intros g pos [|i] H; simplify_eq/=.
  - rewrite place_responses_fst. split; [lia|done].
  - apply IH in H as [-> ->]. split; [lia|done].
Qed.

Lemma length_places plen rlen g pos groups : length (places plen rlen g pos groups) = length groups.
Proof. revert g pos; induction groups as [|group groups IH]; intros g pos; simpl; [done|]. by rewrite IH. Qed.

(** ** The segments of a layout *)

Definition prompt_seg (nvp : nat -> nat) (x : place) (s : nat) : segment :=
  Seg x.2.1.1 x.2.1.2 s Prompt x.1 (nvp x.1).
Definition response_seg (nvr : nat -> nat) (g : nat) (r : nat * (nat * nat)) : segment :=
  Seg r.2.1 r.2.2 r.1 Response g (nvr r.1).
Definition place_segs (nvp nvr : nat -> nat) (x : place) : list segment :=
  (prompt_seg nvp x <$> x.2.2.*1) ++ (response_seg nvr x.1 <$> x.2.2).
Definition layout_segs (nvp nvr : nat -> nat) (xs : list place) : list segment :=
  concat (place_segs nvp nvr <$> xs).

Lemma response_segments_eq r g pos group :
  response_segments r g pos group =
  (response_seg (fun _ => 0) g <$> place_responses (fun _ => r) pos group,
   pos + sum_list ((fun _ => r) <$> group)).
Proof.
  revert pos; induction group as [|s group IH]; intros pos; csimpl; [by rewrite Nat.add_0_r|].
  rewrite IH. unfold response_seg at 2. simpl. f_equal. lia.
Qed.

Lemma build_segments_eq p r g pos groups :
  build_segments p r g pos groups =
  layout_segs (fun _ => 0) (fun _ => 0) (places (fun _ => p) (fun _ => r) g pos groups).
Proof.
  revert g pos; induction groups as [|group groups IH]; intros g pos; csimpl; [done|].
  rewrite response_segments_eq. unfold layout_segs. csimpl. rewrite IH. unfold place_segs at 1. simpl.
  rewrite place_responses_fst, <- app_assoc. done.
Qed.

(** Unpadding reads each segment's count off the mask's own layout. *)
Lemma unpad_layout_segs {mask : list Z} (Pm Rm : nat -> list Z) xs :
  Forall (fun '(g, ((a, b), rs)) => slice mask a b = Pm g /\
            Forall (fun '(s, (a, b)) => slice mask a b = Rm s) rs) xs ->
  unpad_segment mask <$> layout_segs (fun _ => 0) (fun _ => 0) xs =
  layout_segs (fun g => count_valid (Pm g)) (fun s => count_valid (Rm s)) xs.
Proof.
  unfold layout_segs. induction 1 as [|[g [[a b] rs]] xs [Hp Hr] Hxs IH]; csimpl; [done|].
  rewrite fmap_app, IH. f_equal. unfold place_segs. simpl. rewrite fmap_app. f_equal.
  - rewrite <- list_fmap_compose. apply list_fmap_ext. intros i s _. unfold compose, unpad_segment, prompt_seg.
    simpl. by rewrite Hp.
  - rewrite <- list_fmap_compose. apply list_fmap_ext. intros i [s [a' b']] Hs.
    unfold compose, unpad_segment, response_seg. simpl. rewrite Forall_lookup in Hr.
    specialize (Hr _ _ Hs). simpl in Hr. by rewrite Hr.
Qed.

(** ** Finding segments *)

Lemma head_filter_exists {A} (Q : A -> Prop) `{!forall x, Decision (Q x)} (l : list A) x :
  x ∈ l -> Q x -> exists y, head (filter Q l) = Some y /\ y ∈ l /\ Q y.
Proof.
  intros Hx HQ. destruct (filter Q l) as [|y rest] eqn:E.
  - assert (Hin : x ∈ filter Q l) by (apply list_elem_of_filter; done). rewrite E in Hin. set_solver.
  - exists y. split; [done|]. assert (Hy : y ∈ filter Q l) by (rewrite E; set_solver).
    apply list_elem_of_filter in Hy. tauto.
Qed.

Lemma last_filter_exists {A} (Q : A -> Prop) `{!forall x, Decision (Q x)} (l : list A) x :
  x ∈ l -> Q x -> exists y, last (filter Q l) = Some y /\ y ∈ l /\ Q y.
Proof.
  intros Hx HQ. assert (Hin : x ∈ filter Q l) by (apply list_elem_of_filter; done).
  destruct (last (filter Q l)) as [y|] eqn:E.
  - exists y. split; [done|]. apply last_Some_elem_of in E. apply list_elem_of_filter in E. tauto.
  - apply last_None in E. rewrite E in Hin. set_solver.
Qed.

Lemma layout_segs_elem nvp nvr xs seg :
  seg ∈ layout_segs nvp nvr xs <->
  exists x, x ∈ xs /\ ((exists r, r ∈ x.2.2 /\ seg = prompt_seg nvp x r.1) \/
                       (exists r, r ∈ x.2.2 /\ seg = response_seg nvr x.1 r)).
Proof.
  unfold layout_segs. rewrite list_elem_of_In, in_concat. setoid_rewrite <- list_elem_of_In. split.
  - intros (l & (x & -> & Hx)%list_elem_of_fmap & Hseg). exists x. split; [done|].
    unfold place_segs in Hseg. apply elem_of_app in Hseg as [H|H].
    + left. apply list_elem_of_fmap in H as (s & -> & Hs).
      apply list_elem_of_fmap in Hs as (r & -> & Hr). eauto.
    + right. apply list_elem_of_fmap in H as (r & -> & Hr). eauto.
  - intros (x & Hx & Hseg). exists (place_segs nvp nvr x). split; [by apply list_elem_of_fmap_2|].
    unfold place_segs. apply elem_of_app. destruct Hseg as [(r & Hr & ->)|(r & Hr & ->)].
    + left. rewrite <- list_fmap_compose. by apply (list_elem_of_fmap_2 (prompt_seg nvp x ∘ fst)).
    + right. by apply list_elem_of_fmap_2.
Qed.

(** A sample has one place: its group's entry, and one response there. *)
Lemma places_unique plen rlen g pos groups x y r t :
  NoDup (concat groups) -> x ∈ places plen rlen g pos groups -> y ∈ places plen rlen g pos groups ->
  r ∈ x.2.2 -> t ∈ y.2.2 -> r.1 = t.1 -> x = y /\ r = t.
Proof.
  intros Hnd [i Hi]%list_elem_of_lookup [j Hj]%list_elem_of_lookup Hr Ht Heq.
  assert (Hij : i = j).
  { apply places_lookup in Hi as [_ Hi], Hj as [_ Hj].
    assert (Hri : r.1 ∈ x.2.2.*1) by (by apply list_elem_of_fmap_2).
    assert (Htj : r.1 ∈ y.2.2.*1) by (rewrite Heq; by apply list_elem_of_fmap_2).
    clear -Hnd Hi Hj Hri Htj. revert i j Hi Hj.
    induction groups as [|h groups IH]; intros [|i] [|j] Hi Hj; simplify_eq/=; [done|..];
      apply NoDup_app in Hnd as (Hnd1 & Hdisj & Hnd2).
    - exfalso. apply (Hdisj _ Hri). apply list_elem_of_In, in_concat. eexists.
      split; apply list_elem_of_In; [by eapply list_elem_of_lookup_2|exact Htj].
    - exfalso. apply (Hdisj _ Htj). apply list_elem_of_In, in_concat. eexists.
      split; apply list_elem_of_In; [by eapply list_elem_of_lookup_2|exact Hri].
    - f_equal. by eapply IH. }
  subst j. rewrite Hi in Hj. injection Hj as <-. split; [done|].
  apply places_lookup in Hi as [_ Hg].
  assert (Hndg : NoDup x.2.2.*1).
  { clear -Hnd Hg. revert i Hg. induction groups as [|h groups IH]; intros [|i] Hg; simplify_eq/=;
      apply NoDup_app in Hnd as (? & _ & ?); [done|eauto]. }
  apply list_elem_of_lookup in Hr as [a Ha], Ht as [b Hb].
  assert (a = b); [|by simplify_eq].
  eapply NoDup_lookup; [exact Hndg|rewrite list_lookup_fmap, Ha; done|].
  rewrite list_lookup_fmap, Hb. simpl. by rewrite Heq.
Qed.

Lemma sample_segments_spec segs s :
  (exists seg, seg ∈ segs /\ original_idx seg = s) ->
  sample_segments segs !! s =
  Some (last (filter (fun g => original_idx g = s /\ seg_kind g = Prompt) segs),
        last (filter (fun g => original_idx g = s /\ seg_kind g = Response) segs)).
Proof.
  assert (Hgen : default (None, None) (sample_segments segs !! s) =
    (last (filter (fun g => original_idx g = s /\ seg_kind g = Prompt) segs),
     last (filter (fun g => original_idx g = s /\ seg_kind g = Response) segs)) /\
    ((exists seg, seg ∈ segs /\ original_idx seg = s) -> is_Some (sample_segments segs !! s))).
  { unfold sample_segments. induction segs as [|seg segs IH] using rev_ind.
    - simpl. rewrite lookup_empty. split; [done|]. intros (seg & Hseg & _). set_solver.
    - destruct IH as [IH1 IH2]. rewrite fold_left_app, !filter_app. simpl.
      set (m := fold_left add_sample_segment segs ∅) in *. unfold add_sample_segment.
      destruct (decide (original_idx seg = s)) as [<-|Hne].
      + destruct (default _ (m !! _)) as [p r]. injection IH1 as -> ->.
        destruct (seg_kind seg) eqn:Ek; rewrite lookup_insert_eq; (split; [|eauto]); simpl.
        * rewrite filter_cons_True by done. rewrite filter_cons_False by (intros [_ ?]; congruence).
          by rewrite !filter_nil, last_snoc, app_nil_r.
        * rewrite filter_cons_False by (intros [_ ?]; congruence). rewrite filter_cons_True by done.
          by rewrite !filter_nil, last_snoc, app_nil_r.
      + rewrite !(filter_cons_False _ seg) by (intros [? _]; congruence). rewrite !filter_nil, !app_nil_r.
        destruct (default _ (m !! original_idx seg)) as [p r].
        destruct (seg_kind seg); rewrite lookup_insert_ne by done; (split; [done|]);
          intros (seg' & [Hseg'| ->%list_elem_of_singleton]%elem_of_app & Hs); eauto; congruence. }
  intros Hex. destruct Hgen as [Hg Hs]. destruct (Hs Hex) as [v Hv]. rewrite Hv in Hg |- *.
  simpl in Hg. by rewrite Hg.
Qed.

(** The group a sample belongs to. *)
Definition group_of (groups : list (list nat)) (s : nat) : nat :=
  default 0 (fst <$> list_find (fun g => s ∈ g) groups).

Lemma group_of_spec groups g group s :
  NoDup (concat groups) -> groups !! g = Some group -> s ∈ group -> group_of groups s = g.
Proof.
  intros Hnd Hg Hs. unfold group_of.
  destruct (list_find_elem_of (fun g => s ∈ g) groups group) as [[h gr] Hf];
    [by eapply list_elem_of_lookup_2|done|].
  rewrite Hf. simpl. apply list_find_Some in Hf as (Hh & Hin & _).
  clear -Hnd Hg Hs Hh Hin. revert g h Hg Hh.
  induction groups as [|k groups IH]; intros [|i] [|j] Hi Hj; simplify_eq/=; [done|..];
    apply NoDup_app in Hnd as (Hnd1 & Hdisj & Hnd2).
  - exfalso. apply (Hdisj _ Hs). apply list_elem_of_In, in_concat. eexists.
    split; apply list_elem_of_In; [by eapply list_elem_of_lookup_2|exact Hin].
  - exfalso. apply (Hdisj _ Hin). apply list_elem_of_In, in_concat. eexists.
    split; apply list_elem_of_In; [by eapply list_elem_of_lookup_2|exact Hs].
  - f_equal. by eapply IH.
Qed.

(** Every sample of a partition has a place. *)
Lemma places_of_sample plen rlen groups n s :
  is_partition groups n -> s < n ->
  exists x r, x ∈ places plen rlen 0 0 groups /\ r ∈ x.2.2 /\ r.1 = s /\ x.1 = group_of groups s.
Proof.
  intros Hp Hs. assert (Hin : s ∈ concat groups) by (rewrite Hp; apply elem_of_seq; lia).
  assert (Hnd : NoDup (concat groups)) by (rewrite Hp; apply NoDup_seq).
  apply list_elem_of_In, in_concat in Hin as (group & Hg & Hsg).
  apply list_elem_of_In in Hg, Hsg. apply list_elem_of_lookup in Hg as [g Hg].
  destruct (lookup_lt_is_Some_2 (places plen rlen 0 0 groups) g) as [x Hx].
  { rewrite length_places. by eapply lookup_lt_Some. }
  apply places_lookup in Hx as Hx'. destruct Hx' as [Hx1 Hx2]. rewrite Hg in Hx2. injection Hx2 as Hx2.
  rewrite Hx2 in Hsg. apply list_elem_of_fmap in Hsg as (r & -> & Hr).
  exists x, r. split_and!; [by eapply list_elem_of_lookup_2|done|done|].
  rewrite (group_of_spec groups g group); [lia|done|done|]. rewrite Hx2. by apply list_elem_of_fmap_2.
Qed.

(** ** Writing a layout piece by piece *)

Lemma set_slice_next {A} (zero : A) pre x n a b :
  a = length pre -> b = a + length x -> length x <= n ->
  set_slice (pre ++ replicate n zero) a b x = Ok ((pre ++ x) ++ replicate (n - length x) zero).
Proof.
  intros -> -> Hn. unfold set_slice. rewrite length_app, length_replicate.
  replace (min (length pre) (length pre + n)) with (length pre) by lia.
  replace (max (length pre) (min (length pre + length x) (length pre + n)))
    with (length pre + length x) by lia.
  replace (length x =? length pre + length x - length pre) with true by lia.
  rewrite take_app_length, drop_app_add, drop_replicate, <- app_assoc. done.
Qed.

Lemma set_slice_prefix {A} (zero : A) x y p n :
  length x = p -> length y = n - p -> p <= n ->
  (row ← set_slice (replicate n zero) 0 p x; set_slice row p n y) = Ok (x ++ y).
Proof.
  intros Hx Hy Hp. pose proof (set_slice_next zero [] x n 0 p eq_refl) as H1. simpl in H1.
  rewrite H1 by lia. simpl.
  rewrite (set_slice_next zero x y (n - length x) p n) by lia.
  replace (n - length x - length y) with 0 by lia. simpl. by rewrite app_nil_r.
Qed.

Section write.
Context {A : Type} (zero : A) (P R : nat -> list A) (plen rlen : nat -> nat).
Hypothesis P_len : forall g, length (P g) = plen g.
Hypothesis R_len : forall s, length (R s) = rlen s.

(** A group writer that puts [R s] where [s]'s response goes. *)
Lemma write_responses (wr : list A -> nat -> res (list A)) pre n pos group :
  pos = length pre -> sum_list (rlen <$> group) <= n ->
  Forall (fun '(s, (a, b)) => forall out, wr out s = set_slice out a b (R s)) (place_responses rlen pos group) ->
  foldM wr (pre ++ replicate n zero) group =
  Ok ((pre ++ concat (R <$> group)) ++ replicate (n - sum_list (rlen <$> group)) zero).
Proof.
  revert pre n pos; induction group as [|s group IH]; intros pre n pos Hpos Hn Hwr; csimpl in *.
  - by rewrite app_nil_r, Nat.sub_0_r.
  - apply Forall_cons in Hwr as [Hs Hwr]. rewrite Hs, set_slice_next; [|done|by rewrite R_len|rewrite R_len; lia].
    simpl. rewrite (IH (pre ++ R s) (n - length (R s)) (pos + rlen s)).
    + rewrite R_len, <- !app_assoc. do 5 f_equal. lia.
    + rewrite length_app, R_len. lia.
    + rewrite R_len. lia.
    + done.
Qed.

Lemma write_layout (wg : list A -> nat * list nat -> res (list A)) pre n g pos groups :
  pos = length pre -> length (layout P R g groups) <= n ->
  Forall (fun '(h, ((a, b), rs)) => forall out, exists wr,
      wg out (h, rs.*1) = (out ← set_slice out a b (P h); foldM wr out rs.*1) /\
      Forall (fun '(s, (a, b)) => forall out, wr out s = set_slice out a b (R s)) rs)
    (places plen rlen g pos groups) ->
  foldM wg (pre ++ replicate n zero) (imap (fun i group => (g + i, group)) groups) =
  Ok ((pre ++ layout P R g groups) ++ replicate (n - length (layout P R g groups)) zero).
Proof.
  revert pre n g pos; induction groups as [|group groups IH]; intros pre n g pos Hpos Hn Hw; simpl in *.
  - by rewrite app_nil_r, Nat.sub_0_r.
  - apply Forall_cons in Hw as [Hg Hw]. rewrite !length_app in Hn.
    destruct (Hg (pre ++ replicate n zero)) as (wr & Hwg & Hwr).
    rewrite place_responses_fst in Hwg. rewrite Nat.add_0_r, Hwg.
    rewrite set_slice_next; [|done|by rewrite P_len|lia]. simpl.
    rewrite (write_responses wr (pre ++ P g) _ (pos + plen g));
      [|rewrite length_app, P_len; lia|rewrite <- (length_concat_R R rlen R_len); lia|done].
    simpl. rewrite <- (length_concat_R R rlen R_len).
    specialize (IH ((pre ++ P g) ++ concat (R <$> group))
                  (n - length (P g) - length (concat (R <$> group))) (S g)
                  (pos + plen g + sum_list (rlen <$> group))).
    rewrite (imap_ext _ (fun i group => (S g + i, group))) by (intros; simpl; f_equal; lia).
    rewrite IH; [|rewrite !length_app, P_len, (length_concat_R R rlen R_len); lia|lia|done].
    rewrite <- !app_assoc, !length_app. do 6 f_equal. lia.
Qed.
End write.

(** ** Padded format *)

(** The metadata [_dedup_input_ids] produces for a partition of the samples. *)
Definition padded_info (info : recon) (groups : list (list nat)) (n p r : nat) : Prop :=
  segment_info info = build_segments p r 0 0 groups /\ rc_groups info = groups /\
  prompt_len info = p /\ response_length info = r /\ original_batch_size info = n /\
  original_seq_len info = p + r.

Section padded.
Context {A : Type} (zero : A) (groups : list (list nat)) (n p r : nat) (info : recon).
Hypothesis Hinfo : padded_info info groups n p r.
Hypothesis Hpart : is_partition groups n.
Hypothesis Hne : Forall (fun g => g <> []) groups.
Hypothesis Hn : 0 < n.

Let xs := places (fun _ => p) (fun _ => r) 0 0 groups.

Lemma groups_nodup : NoDup (concat groups).
Proof. rewrite Hpart. apply NoDup_seq. Qed.

Lemma padded_segs : segment_info info = layout_segs (fun _ => 0) (fun _ => 0) xs.
Proof. destruct Hinfo as (-> & _). apply build_segments_eq. Qed.

(** A segment found for a sample is the one of its place. *)
Lemma found_prompt nvp nvr plen rlen seg x t :
  seg ∈ layout_segs nvp nvr (places plen rlen 0 0 groups) -> seg_kind seg = Prompt ->
  x ∈ places plen rlen 0 0 groups -> t ∈ x.2.2 -> original_idx seg = t.1 -> seg = prompt_seg nvp x t.1.
Proof.
  intros Hseg Hk Hx Ht Hi. apply layout_segs_elem in Hseg as (y & Hy & [(u & Hu & ->)|(u & Hu & ->)]); [|done].
  simpl in Hi. destruct (places_unique _ _ _ _ _ y x u t groups_nodup Hy Hx Hu Ht Hi) as [-> ->]. done.
Qed.

Lemma found_response nvp nvr plen rlen seg x t :
  seg ∈ layout_segs nvp nvr (places plen rlen 0 0 groups) -> seg_kind seg = Response ->
  x ∈ places plen rlen 0 0 groups -> t ∈ x.2.2 -> original_idx seg = t.1 -> seg = response_seg nvr x.1 t.
Proof.
  intros Hseg Hk Hx Ht Hi. apply layout_segs_elem in Hseg as (y & Hy & [(u & Hu & ->)|(u & Hu & ->)]); [done|].
  simpl in Hi. destruct (places_unique _ _ _ _ _ y x u t groups_nodup Hy Hx Hu Ht Hi) as [-> ->]. done.
Qed.

Lemma sample_segments_at x t :
  x ∈ xs -> t ∈ x.2.2 ->
  sample_segments (segment_info info) !! t.1 =
  Some (Some (prompt_seg (fun _ => 0) x t.1), Some (response_seg (fun _ => 0) x.1 t)).
Proof.
  intros Hx Ht. rewrite padded_segs.
  assert (Hp : prompt_seg (fun _ => 0) x t.1 ∈ layout_segs (fun _ => 0) (fun _ => 0) xs)
    by (apply layout_segs_elem; exists x; split; [done|left; eauto]).
  assert (Hr : response_seg (fun _ => 0) x.1 t ∈ layout_segs (fun _ => 0) (fun _ => 0) xs)
    by (apply layout_segs_elem; exists x; split; [done|right; eauto]).
  rewrite sample_segments_spec by (exists (prompt_seg (fun _ => 0) x t.1); done).
  destruct (last_filter_exists (fun g => original_idx g = t.1 /\ seg_kind g = Prompt) _ _ Hp)
    as (y & -> & Hy & Hy1 & Hy2); [done|].
  destruct (last_filter_exists (fun g => original_idx g = t.1 /\ seg_kind g = Response) _ _ Hr)
    as (z & -> & Hz & Hz1 & Hz2); [done|].
  by rewrite (found_prompt _ _ _ _ y x t Hy Hy2 Hx Ht Hy1), (found_response _ _ _ _ z x t Hz Hz2 Hx Ht Hz1).
Qed.

(** Reconstruction of any layout: every sample gets its group's prompt and its response. *)
Lemma reconstruct_padded_layout (P R : nat -> list A) :
  (forall g, length (P g) = p) -> (forall s, length (R s) = r) ->
  reconstruct_sequences_padded zero (layout P R 0 groups) info =
  Ok ((fun s => P (group_of groups s) ++ R s) <$> seq 0 n).
Proof.
  intros HP HR. unfold reconstruct_sequences_padded.
  destruct Hinfo as (_ & _ & Hp & _ & Hbs & Hsl). rewrite Hbs.
  rewrite (mapM_ok _ (fun s => P (group_of groups s) ++ R s)).
  - simpl. destruct n; [lia|done].
  - intros s Hs%elem_of_seq.
    destruct (places_of_sample (fun _ => p) (fun _ => r) groups n s Hpart) as (x & t & Hx & Ht & <- & Hg); [lia|].
    unfold reconstruct_row. rewrite (sample_segments_at x t Hx Ht). simpl. rewrite Hp, Hsl.
    pose proof (places_slice P R (fun _ => p) (fun _ => r) HP HR (layout P R 0 groups) [] [] 0 0 groups) as Hsl'.
    rewrite app_nil_r in Hsl'. specialize (Hsl' eq_refl eq_refl). rewrite Forall_forall in Hsl'.
    specialize (Hsl' x Hx). destruct x as [g [[a b] rs]], t as [s [c d]]. simpl in *.
    destruct Hsl' as [Hpr Hrs]. rewrite Forall_forall in Hrs. specialize (Hrs _ Ht). simpl in Hrs.
    rewrite Hpr, Hrs, <- Hg. rewrite set_slice_prefix; [done|apply HP|rewrite HR; lia|lia].
Qed.

(** The prompt of group [g] and the response of sample [s] in a padded batch. *)
Definition row_at (full : list (list A)) (s : nat) : list A := default (replicate (p + r) zero) (full !! s).
Definition full_prompt (full : list (list A)) (g : nat) : list A :=
  take p (row_at full (default 0 (head (default [] (groups !! g))))).
Definition full_response (full : list (list A)) (s : nat) : list A := drop p (row_at full s).

Lemma length_row_at full s : Forall (fun row => length row = p + r) full -> length (row_at full s) = p + r.
Proof.
  intros H. unfold row_at. destruct (full !! s) as [row|] eqn:E; simpl; [|by rewrite length_replicate].
  by apply (Forall_lookup_1 _ _ _ _ H E).
Qed.

Lemma at_row full s : s < length full -> at_index full s = Ok (row_at full s).
Proof. intros (x & Hx & ->)%at_index_lt. unfold row_at. by rewrite Hx. Qed.

(** Every step of the padded writer is a write of the group's own cells at its own place. *)
Lemma dedup_padded_writes full :
  length full = n ->
  Forall (fun '(h, ((a, b), rs)) => forall out, exists wr,
      dedup_padded_group full info out (h, rs.*1) =
        (out ← set_slice out a b (full_prompt full h); foldM wr out rs.*1) /\
      Forall (fun '(s, (a, b)) => forall out, wr out s = set_slice out a b (full_response full s)) rs) xs.
Proof.
  intros Hlen. destruct Hinfo as (_ & _ & Hp & _). unfold xs.
  apply Forall_forall. intros [g [[a b] rs]] Hx out. unfold dedup_padded_group.
  apply list_elem_of_lookup in Hx as Hx'. destruct Hx' as [i Hi]. apply places_lookup in Hi as [Hgi Hg].
  simpl in Hgi, Hg. subst i. rewrite Forall_lookup in Hne. pose proof (Hne _ _ Hg) as Hnil.
  destruct rs as [|t0 rs0] eqn:Ers; [done|]. rewrite <- Ers in *.
  assert (Hlt : forall t, t ∈ rs -> t.1 < length full).
  { intros t Ht. rewrite Hlen. eapply is_partition_lt; [exact Hpart|by eapply list_elem_of_lookup_2|].
    by apply list_elem_of_fmap_2. }
  assert (Ht0 : t0 ∈ rs) by (rewrite Ers; set_solver).
  assert (Hfirst : at_index rs.*1 0 = Ok t0.1) by (by rewrite Ers). rewrite Hfirst. cbn [mbind res_bind].
  rewrite at_row by auto. cbn [mbind res_bind]. rewrite padded_segs, Hp. unfold xs.
  destruct (head_filter_exists (fun s => group_idx s = g /\ seg_kind s = Prompt)
              (layout_segs (fun _ => 0) (fun _ => 0) (places (fun _ => p) (fun _ => r) 0 0 groups)) (prompt_seg (fun _ => 0) (g, ((a, b), rs)) t0.1))
    as (ps & -> & Hps & Hps1 & Hps2); [|done|].
  { apply layout_segs_elem. eexists. split; [exact Hx|]. left. by exists t0. }
  assert (Hse : seg_start ps = a /\ seg_end ps = b).
  { apply layout_segs_elem in Hps as (y & Hy & [(u & Hu & ->)|(u & Hu & ->)]); [|done].
    simpl in Hps1. apply list_elem_of_lookup in Hy as [j Hj], Hx as [j' Hj'].
    apply places_lookup in Hj as Hj1, Hj' as Hj1'. simpl in *.
    assert (j = j') as -> by lia. rewrite Hj in Hj'. by injection Hj' as ->. }
  destruct Hse as [-> ->].
  assert (Hprompt : take p (row_at full t0.1) = full_prompt full g).
  { unfold full_prompt. rewrite Hg, Ers. done. }
  rewrite Hprompt. eexists. split; [done|].
  apply Forall_forall. intros [s [c d]] Ht out'.
  destruct (head_filter_exists (fun s0 => original_idx s0 = s /\ seg_kind s0 = Response)
              (layout_segs (fun _ => 0) (fun _ => 0) (places (fun _ => p) (fun _ => r) 0 0 groups)) (response_seg (fun _ => 0) g (s, (c, d))))
    as (rsg & -> & Hrs & Hr1 & Hr2); [|done|].
  { apply layout_segs_elem. eexists. split; [exact Hx|]. right. by exists (s, (c, d)). }
  rewrite (found_response _ _ _ _ rsg (g, ((a, b), rs)) (s, (c, d)) Hrs Hr2 Hx Ht Hr1). simpl.
  rewrite at_row by (apply (Hlt (s, (c, d))); done). done.
Qed.

Lemma dedup_padded_layout full :
  length full = n -> Forall (fun row => length row = p + r) full ->
  deduplicate_sequences_padded zero full info = Ok (layout (full_prompt full) (full_response full) 0 groups).
Proof.
  intros Hlen Hrows. unfold deduplicate_sequences_padded.
  destruct Hinfo as (_ & Hgr & Hp & Hr & _ & _). rewrite Hgr, Hp, Hr.
  assert (HPl : forall g, length (full_prompt full g) = p).
  { intros g. unfold full_prompt. rewrite length_take, length_row_at by done. lia. }
  assert (HRl : forall s, length (full_response full s) = r).
  { intros s. unfold full_response. rewrite length_drop, length_row_at by done. lia. }
  assert (Htotal : length groups * p + length full * r =
                   length (layout (full_prompt full) (full_response full) 0 groups)).
  { rewrite (length_layout _ _ (fun _ => p) (fun _ => r) HPl HRl). rewrite Hlen.
    assert (Hc : forall (l : list nat) c, sum_list ((fun _ => c) <$> l) = length l * c).
    { clear. induction l as [|x l IH]; intros c; csimpl; [done|]. by rewrite IH. }
    rewrite !Hc, length_seq, Hpart, length_seq. done. }
  pose proof (write_layout zero _ _ (fun _ => p) (fun _ => r) HPl HRl (dedup_padded_group full info) []
                (length groups * p + length full * r) 0 0 groups eq_refl) as Hw.
  simpl in Hw. change (imap pair groups) with (imap (fun i (group : list nat) => (i, group)) groups).
  rewrite Hw; [|lia|].
  - rewrite Htotal, Nat.sub_diag. simpl. by rewrite app_nil_r.
  - by apply dedup_padded_writes.
Qed.
End padded.

Lemma layout_ext {A} (P P' R R' : nat -> list A) g groups :
  (forall i, g <= i < g + length groups -> P i = P' i) ->
  (forall s, s ∈ concat groups -> R s = R' s) -> layout P R g groups = layout P' R' g groups.
Proof.
  revert g; induction groups as [|group groups IH]; intros g HP HR; simpl in *; [done|].
  rewrite HP by lia. f_equal. f_equal.
  - f_equal. apply list_fmap_ext. intros i s Hs. apply HR, elem_of_app. left. by eapply list_elem_of_lookup_2.
  - apply IH; [intros; apply HP; lia|]. intros s Hs. apply HR. set_solver.
Qed.

(** Any sequence of the right length is the layout of some prompts and responses. *)
Lemma split_responses {A} (zero : A) (rlen : nat -> nat) group (h : list A) :
  NoDup group -> length h = sum_list (rlen <$> group) ->
  exists R, concat (R <$> group) = h /\ forall s, length (R s) = rlen s.
Proof.
  revert h; induction group as [|s group IH]; intros h Hnd Hh; csimpl in *.
  - exists (fun s => replicate (rlen s) zero). destruct h; [|done]. split; [done|].
    intros s. apply length_replicate.
  - apply NoDup_cons in Hnd as [Hs Hnd].
    destruct (IH (drop (rlen s) h) Hnd) as (R & HR & Hlen); [rewrite length_drop; lia|].
    exists (fun t => if decide (t = s) then take (rlen s) h else R t). split.
    + rewrite decide_True by done. rewrite (list_fmap_ext _ R).
      * rewrite HR. apply take_drop.
      * intros i t Ht. rewrite decide_False; [done|]. intros ->. apply Hs. by eapply list_elem_of_lookup_2.
    + intros t. case_decide as Hts; [|done]. rewrite Hts, length_take. lia.
Qed.

Lemma split_layout {A} (zero : A) (plen rlen : nat -> nat) g groups (h : list A) :
  NoDup (concat groups) ->
  length h = sum_list (plen <$> seq g (length groups)) + sum_list (rlen <$> concat groups) ->
  exists P R, layout P R g groups = h /\ (forall i, length (P i) = plen i) /\ (forall s, length (R s) = rlen s).
Proof.
  revert g h; induction groups as [|group groups IH]; intros g h Hnd Hh; csimpl in *.
  - exists (fun i => replicate (plen i) zero), (fun s => replicate (rlen s) zero). destruct h; [|done].
    split_and!; [done|intros; apply length_replicate..].
  - apply NoDup_app in Hnd as (Hnd1 & Hdisj & Hnd2). rewrite fmap_app, sum_list_with_app in Hh.
    set (a := plen g) in *. set (b := sum_list (rlen <$> group)) in *.
    destruct (split_responses zero rlen group (take b (drop a h)) Hnd1) as (R1 & HR1 & Hl1).
    { rewrite length_take, length_drop. lia. }
    destruct (IH (S g) (drop (a + b) h) Hnd2) as (P2 & R2 & H2 & Hp2 & Hr2).
    { rewrite length_drop. lia. }
    exists (fun i => if decide (i = g) then take a h else P2 i),
           (fun s => if decide (s ∈ group) then R1 s else R2 s). split_and!.
    + rewrite decide_True by done.
      rewrite (layout_ext _ P2 _ R2 (S g)).
      2:{ intros i Hi. by rewrite decide_False by lia. }
      2:{ intros s Hs. rewrite decide_False; [done|]. intros Hg. by apply (Hdisj s). }
      rewrite H2. rewrite (list_fmap_ext _ R1).
      2:{ intros i s Hs. rewrite decide_True; [done|]. by eapply list_elem_of_lookup_2. }
      rewrite HR1, <- drop_drop, (take_drop b (drop a h)). apply take_drop.
    + intros i. case_decide as Hi; [|done]. rewrite Hi, length_take. unfold a in *. lia.
    + intros s. by case_decide.
Qed.

Lemma layout_concat {A} (P R : nat -> list A) (f : list nat -> list A) g groups :
  (forall i group, groups !! i = Some group -> f group = P (g + i) ++ concat (R <$> group)) ->
  concat (f <$> groups) = layout P R g groups.
Proof.
  revert g; induction groups as [|group groups IH]; intros g Hf; csimpl; [done|].
  rewrite (Hf 0 group eq_refl), Nat.add_0_r, <- app_assoc. do 2 f_equal.
  apply IH. intros i h Hi. rewrite (Hf (S i) h Hi). do 2 f_equal. lia.
Qed.

Section create.
Context (groups : list (list nat)) (n p r : nat).
Hypothesis Hpart : is_partition groups n.
Hypothesis Hne : Forall (fun g => g <> []) groups.
Hypothesis Hn : 0 < n.

Lemma dedup_cells_layout {A} (zero : A) (rows : list (list A)) :
  length rows = n ->
  dedup_cells rows p groups =
  Ok (layout (full_prompt zero groups p r rows) (full_response zero p r rows) 0 groups).
Proof.
  intros Hlen. unfold dedup_cells.
  set (f := fun group : list nat => take p (row_at zero p r rows (default 0 (head group))) ++
              concat (full_response zero p r rows <$> group)).
  rewrite (mapM_ok _ f).
  - assert (Hg : groups <> []).
    { intros ->. unfold is_partition in Hpart. apply Permutation_nil in Hpart. destruct n; [lia|done]. }
    assert (Hc : concat (f <$> groups) = layout (full_prompt zero groups p r rows) (full_response zero p r rows) 0 groups).
    { apply layout_concat. intros i group Hi. unfold full_prompt, f. simpl. by rewrite Hi. }
    rewrite <- Hc. simpl. by destruct groups.
  - intros group Hg. assert (Hlt : forall s, s ∈ group -> s < length rows).
    { intros s Hs. rewrite Hlen. by eapply is_partition_lt. }
    rewrite Forall_forall in Hne. specialize (Hne _ Hg). destruct group as [|s0 group]; [done|].
    unfold dedup_group. change (at_index (s0 :: group) 0) with (Ok s0). cbn [mbind res_bind].
    rewrite (at_row zero p r rows s0) by (apply Hlt; set_solver). cbn [mbind res_bind].
    rewrite (mapM_ok _ (full_response zero p r rows)); [done|].
    intros s Hs. by rewrite (at_row zero p r rows s) by (by apply Hlt).
Qed.

Lemma dedup_input_ids_ok {A} (zero : A) (rows : list (list A)) (mask : option (list (list Z))) :
  length rows = n ->
  match mask with Some m => length m = n | None => True end ->
  exists info,
    dedup_input_ids rows (p + r) r groups mask =
    Ok (layout (full_prompt zero groups p r rows) (full_response zero p r rows) 0 groups,
        (fun m => layout (full_prompt 0%Z groups p r m) (full_response 0%Z p r m) 0 groups) <$> mask, info) /\
    padded_info info groups n p r /\ is_unpadded info = false /\ original_attention_mask info = mask.
Proof.
  intros Hlen Hm. unfold dedup_input_ids. replace (p + r - r) with p by lia.
  rewrite (dedup_cells_layout zero) by done. cbn [mbind res_bind].
  assert (Hmask : match mask with Some m => Some <$> dedup_cells m p groups | None => Ok None end =
    Ok ((fun m => layout (full_prompt 0%Z groups p r m) (full_response 0%Z p r m) 0 groups) <$> mask)).
  { destruct mask as [m|]; [|done]. by rewrite (dedup_cells_layout 0%Z). }
  rewrite Hmask. cbn [mbind res_bind]. eexists. split; [done|]. by split_and!.
Qed.
End create.

(** ** Grouping by prompt *)

Section find_groups.
Context {A : Type} `{EqDecision A}.

Lemma rows_with_head (keys : list (list A)) key :
  key ∈ keys -> exists r, head (rows_with keys key) = Some r /\ keys !! r = Some key.
Proof.
  intros [r Hr]%list_elem_of_lookup. destruct (rows_with keys key) as [|r0 rest] eqn:E.
  - apply rows_with_elem in Hr. rewrite E in Hr. set_solver.
  - exists r0. split; [done|]. apply rows_with_elem. rewrite E. set_solver.
Qed.

Lemma join_group_spec (prompts l : list (list A)) rest p ks i :
  prompts = l ++ rest -> NoDup ks -> (forall key, key ∈ ks -> key ∈ l) ->
  join_group prompts p i (rows_with l <$> ks) =
  if decide (p ∈ ks)
  then Some ((fun k => if decide (k = p) then rows_with l k ++ [i] else rows_with l k) <$> ks) else None.
Proof.
  intros Hpr Hnd Hks. induction Hnd as [|k ks Hk Hnd IH]; csimpl; [done|].
  destruct (rows_with_head l k) as (r & Hr & Hlr); [apply Hks; set_solver|]. rewrite Hr. csimpl.
  assert (Hpk : prompts !! r = Some k).
  { subst prompts. rewrite lookup_app_l; [done|]. by eapply lookup_lt_Some. }
  rewrite Hpk. destruct (decide (k = p)) as [->|Hne].
  - rewrite decide_True by done. rewrite decide_True by set_solver. do 2 f_equal.
    apply list_fmap_ext. intros j k' Hk'. rewrite decide_False; [done|]. intros ->.
    apply Hk. by eapply list_elem_of_lookup_2.
  - rewrite decide_False by congruence. rewrite IH by set_solver.
    destruct (decide (p ∈ ks)); [rewrite decide_True by set_solver|rewrite decide_False by set_solver]; done.
Qed.

(** The scan builds the same groups as a dict keyed by prompt. *)
Lemma find_groups_fold (prompts l : list (list A)) rest :
  prompts = l ++ rest ->
  exists ks, NoDup ks /\ (forall key, key ∈ ks <-> key ∈ l) /\
    fold_left (fun d '(row, key) => setdefault_append d key row) (imap pair l) [] =
      (fun key => (key, rows_with l key)) <$> ks /\
    fold_left (fun '(groups, unique) '(i, p) =>
                 match join_group prompts p i groups with
                 | Some groups => (groups, unique)
                 | None => (groups ++ [[i]], unique ++ [p])
                 end) (imap pair l) ([], []) = (rows_with l <$> ks, ks).
Proof.
  revert rest; induction l as [|p l IH] using rev_ind; intros rest Hpr.
  - exists []. split_and!; [constructor|done|done|done].
  - rewrite <- app_assoc in Hpr. destruct (IH _ Hpr) as (ks & Hnd & Hks & Hfs & Hfold).
    rewrite !imap_app, !fold_left_app, Hfold. simpl. rewrite Nat.add_0_r.
    rewrite (join_group_spec prompts l _ p ks (length l) Hpr Hnd) by (intros; by apply Hks).
    assert (Hext : (fun k => if decide (k = p) then rows_with l k ++ [length l] else rows_with l k) <$> ks =
                   rows_with (l ++ [p]) <$> ks).
    { apply list_fmap_ext. intros j k _. by rewrite rows_with_snoc. }
    assert (Hdict : setdefault_append ((fun key => (key, rows_with l key)) <$> ks) p (length l) =
      (fun key => (key, rows_with (l ++ [p]) key)) <$> (if decide (p ∈ ks) then ks else ks ++ [p])).
    { apply setdefault_append_fmap; [done| |].
      - intros k'. by rewrite rows_with_snoc.
      - intros Hp. rewrite Hks in Hp. apply elem_of_nil_inv. intros r Hr%rows_with_elem.
        apply Hp. by eapply list_elem_of_lookup_2. }
    exists (if decide (p ∈ ks) then ks else ks ++ [p]). rewrite Hfs, Hdict.
    destruct (decide (p ∈ ks)) as [Hin|Hin].
    + split_and!; [done| |done|by rewrite Hext]. intros k. rewrite elem_of_app, <- Hks. set_solver.
    + split_and!; [| |done|].
      * apply NoDup_app. split_and!; [done|set_solver|apply NoDup_singleton].
      * intros k. rewrite !elem_of_app, <- Hks. done.
      * rewrite fmap_app. f_equal. f_equal.
        -- rewrite <- Hext. apply list_fmap_ext. intros j k Hk. rewrite decide_False; [done|].
           intros ->. apply Hin. by eapply list_elem_of_lookup_2.
        -- csimpl. rewrite rows_with_snoc, decide_True by done.
           assert (rows_with l p = []) as ->; [|done]. apply elem_of_nil_inv. intros r Hr%rows_with_elem.
           rewrite Hks in Hin. apply Hin. by eapply list_elem_of_lookup_2.
Qed.
End find_groups.

Lemma find_prompt_groups_ok {A} `{EqDecision A} (rows : list (list A)) w r :
  rows <> [] ->
  let prompts := take (w - r) <$> rows in
  exists unique, find_prompt_groups rows w r = Ok (first_seen_groups prompts, unique) /\
    NoDup unique /\ first_seen_groups prompts = rows_with prompts <$> unique.
Proof.
  intros Hne prompts. unfold find_prompt_groups. fold prompts.
  destruct (find_groups_fold prompts prompts []) as (ks & Hnd & Hks & Hfs & Hfold); [by rewrite app_nil_r|].
  rewrite Hfold. exists ks.
  assert (Heq : first_seen_groups prompts = rows_with prompts <$> ks).
  { unfold first_seen_groups. rewrite Hfs. by rewrite <- list_fmap_compose. }
  rewrite Heq. split_and!; [|done|done].
  destruct ks as [|k ks]; [|done]. exfalso. destruct rows as [|row rows]; [done|].
  assert (Hin : take (w - r) row ∈ prompts) by (unfold prompts; csimpl; set_solver).
  apply Hks in Hin. set_solver.
Qed.

(** Groups found by prompt are what the conversions below rely on. *)
Lemma found_groups_props {A} `{EqDecision A} (prompts : list (list A)) :
  let groups := first_seen_groups prompts in
  is_partition groups (length prompts) /\ Forall (fun g => g <> []) groups /\
  Forall (StronglySorted Nat.le) groups /\
  (forall group s t, group ∈ groups -> s ∈ group -> t ∈ group -> prompts !! s = prompts !! t).
Proof.
  destruct (first_seen_groups_spec prompts) as [Hp Hf]. split_and!; [done| | |].
  - eapply Forall_impl; [exact Hf|]. by intros g [? _].
  - eapply Forall_impl; [exact Hf|]. intros g (_ & key & ->). apply filter_sorted, seq_sorted.
  - intros group s t Hg Hs Ht. rewrite Forall_forall in Hf. destruct (Hf _ Hg) as (_ & key & ->).
    apply rows_with_elem in Hs, Ht. congruence.
Qed.

(** [find_prompt_groups] puts two samples in the same group exactly when their prompt
    columns are equal: the groups are the rows of each distinct prompt, in order of first
    appearance, the same groups [create_prompt_groups] forms before splitting; they
    partition the batch, each is non-empty and ascending, and [unique_prompts] lists each
    group's prompt once. *)
Theorem find_prompt_groups_spec {A} `{EqDecision A} (rows : list (list A)) w r :
  rows <> [] ->
  let prompts := take (w - r) <$> rows in
  exists unique, find_prompt_groups rows w r = Ok (rows_with prompts <$> unique, unique) /\
    NoDup unique /\ rows_with prompts <$> unique = first_seen_groups prompts /\
    is_partition (rows_with prompts <$> unique) (length rows) /\
    Forall (fun g => g <> [] /\ StronglySorted Nat.le g) (rows_with prompts <$> unique).
Proof.
  intros Hne prompts. destruct (find_prompt_groups_ok rows w r Hne) as (unique & Hf & Hnd & Heq).
  fold prompts in Hf, Heq. destruct (found_groups_props prompts) as (Hp & Hg & Hs & _).
  exists unique. rewrite <- Heq. split_and!; [done|done|done| |].
  - unfold prompts in Hp at 2. by rewrite length_fmap in Hp.
  - apply Forall_forall. intros g Hin. rewrite Forall_forall in Hg, Hs. auto.
Qed.

Lemma find_prompt_groups_spec_witness :
  let prompts := take (3 - 1) <$> [[7; 8; 1]; [7; 9; 2]; [7; 8; 3]]%Z in
  exists unique, find_prompt_groups [[7; 8; 1]; [7; 9; 2]; [7; 8; 3]]%Z 3 1 =
      Ok (rows_with prompts <$> unique, unique) /\
    NoDup unique /\ rows_with prompts <$> unique = first_seen_groups prompts /\
    is_partition (rows_with prompts <$> unique) 3 /\
    Forall (fun g => g <> [] /\ StronglySorted Nat.le g) (rows_with prompts <$> unique).
Proof. exact (find_prompt_groups_spec [[7; 8; 1]; [7; 9; 2]; [7; 8; 3]]%Z 3 1 ltac:(done)). Defined.

(** ** Padded round trips *)

(** Samples of one group have the same prompt cells. *)
Definition share_prompts {A} (rows : list (list A)) (p : nat) (groups : list (list nat)) : Prop :=
  forall group s t, group ∈ groups -> s ∈ group -> t ∈ group ->
    take p <$> rows !! s = take p <$> rows !! t.

Lemma group_of_elem groups n s :
  is_partition groups n -> s < n ->
  exists group, groups !! group_of groups s = Some group /\ s ∈ group.
Proof.
  intros Hp Hs. destruct (places_of_sample (fun _ => 0) (fun _ => 0) groups n s Hp Hs)
    as (x & t & [i Hi]%list_elem_of_lookup & Ht & <- & Hg).
  apply places_lookup in Hi as [Hi1 Hi2]. simpl in Hi1. rewrite <- Hg, Hi1.
  exists x.2.2.*1. split; [done|]. by apply list_elem_of_fmap_2.
Qed.

Lemma full_prompt_shared {A} (zero : A) groups n p r full s :
  is_partition groups n -> length full = n -> Forall (fun g => g <> []) groups ->
  share_prompts full p groups -> s < n ->
  full_prompt zero groups p r full (group_of groups s) = take p (row_at zero p r full s).
Proof.
  intros Hp Hlen Hne Hsh Hs. destruct (group_of_elem groups n s Hp Hs) as (group & Hg & Hsg).
  unfold full_prompt. rewrite Hg. simpl. assert (Hin : group ∈ groups) by (by eapply list_elem_of_lookup_2).
  rewrite Forall_forall in Hne. specialize (Hne _ Hin). destruct group as [|s0 group]; [done|]. simpl.
  specialize (Hsh _ s0 s Hin ltac:(set_solver) Hsg). unfold row_at.
  assert (s0 < n) by (eapply is_partition_lt; [exact Hp|exact Hin|set_solver]).
  destruct (lookup_lt_is_Some_2 full s0) as [x Hx]; [lia|].
  destruct (lookup_lt_is_Some_2 full s) as [y Hy]; [lia|].
  rewrite Hx, Hy in Hsh |- *. simpl in *. by injection Hsh.
Qed.

Lemma rows_at_all {A} (zero : A) p r (full : list (list A)) :
  row_at zero p r full <$> seq 0 (length full) = full.
Proof.
  apply list_eq. intros i. rewrite list_lookup_fmap. destruct (decide (i < length full)) as [Hi|Hi].
  - rewrite lookup_seq_lt by done. simpl. unfold row_at.
    by destruct (lookup_lt_is_Some_2 _ _ Hi) as [x ->].
  - rewrite lookup_seq_ge, lookup_ge_None_2 by lia. done.
Qed.

(** The cells of a reconstructed batch are the ones laid out. *)
Lemma full_of_layout {A} (zero : A) groups n p r (P R : nat -> list A) :
  is_partition groups n -> Forall (fun g => g <> []) groups ->
  (forall g, length (P g) = p) -> (forall s, length (R s) = r) ->
  let full := (fun s => P (group_of groups s) ++ R s) <$> seq 0 n in
  layout (full_prompt zero groups p r full) (full_response zero p r full) 0 groups = layout P R 0 groups.
Proof.
  intros Hp Hne HP HR full.
  assert (Hnd : NoDup (concat groups)) by (rewrite Hp; apply NoDup_seq).
  assert (Hrow : forall s, s < n -> row_at zero p r full s = P (group_of groups s) ++ R s).
  { intros s Hs. unfold row_at, full. by rewrite list_lookup_fmap, lookup_seq_lt. }
  apply layout_ext.
  - intros g Hg. destruct (lookup_lt_is_Some_2 groups g) as [group Hgr]; [lia|].
    rewrite Forall_lookup in Hne. specialize (Hne _ _ Hgr). destruct group as [|s0 group]; [done|].
    unfold full_prompt. rewrite Hgr. simpl.
    rewrite Hrow by (eapply is_partition_lt; [exact Hp|by eapply list_elem_of_lookup_2|set_solver]).
    rewrite (group_of_spec groups g (s0 :: group)) by (done || set_solver).
    rewrite <- (HP g). apply take_app_length.
  - intros s Hs. unfold full_response. rewrite Hp in Hs. apply elem_of_seq in Hs. rewrite Hrow by lia.
    rewrite <- (HP (group_of groups s)). apply drop_app_length.
Qed.

(** In the padded format, reconstruction and deduplication of hidden states are inverse
    to each other for the metadata of a prompt grouping of [n] samples: every deduplicated
    sequence of [groups * prompt_len + n * response_length] cells survives reconstruction
    followed by deduplication, and every batch whose group members agree on the prompt
    cells survives deduplication followed by reconstruction.  No index or shape error can
    occur. *)
Theorem dedup_padded_roundtrip {A} (zero : A) groups n p r info :
  is_partition groups n -> Forall (fun g => g <> []) groups -> 0 < n ->
  padded_info info groups n p r ->
  (forall h, length h = length groups * p + n * r ->
     exists full, reconstruct_sequences_padded zero h info = Ok full /\
       deduplicate_sequences_padded zero full info = Ok h) /\
  (forall full, length full = n -> Forall (fun row => length row = p + r) full ->
     share_prompts full p groups ->
     exists h, deduplicate_sequences_padded zero full info = Ok h /\
       length h = length groups * p + n * r /\
       reconstruct_sequences_padded zero h info = Ok full).
Proof.
  intros Hp Hne Hn Hinfo. assert (Hnd : NoDup (concat groups)) by (rewrite Hp; apply NoDup_seq).
  assert (Hsum : forall (l : list nat) c, sum_list ((fun _ => c) <$> l) = length l * c).
  { clear. induction l as [|x l IH]; intros c; csimpl; [done|]. by rewrite IH. }
  split.
  - intros h Hh. destruct (split_layout zero (fun _ => p) (fun _ => r) 0 groups h Hnd) as (P & R & <- & HP & HR).
    { rewrite !Hsum, length_seq, Hp, length_seq. done. }
    rewrite (reconstruct_padded_layout zero groups n p r info) by done. eexists. split; [done|].
    rewrite (dedup_padded_layout zero groups n p r info); try done.
    + by rewrite full_of_layout.
    + by rewrite length_fmap, length_seq.
    + apply Forall_fmap, Forall_true. intros s. simpl. by rewrite length_app, HP, HR.
  - intros full Hlen Hrows Hsh. rewrite (dedup_padded_layout zero groups n p r info) by done.
    eexists. split; [done|].
    assert (HP : forall g, length (full_prompt zero groups p r full g) = p).
    { intros g. unfold full_prompt. rewrite length_take, length_row_at by done. lia. }
    assert (HR : forall s, length (full_response zero p r full s) = r).
    { intros s. unfold full_response. rewrite length_drop, length_row_at by done. lia. }
    split.
    + rewrite (length_layout _ _ (fun _ => p) (fun _ => r)) by done.
      rewrite !Hsum, length_seq, Hp, length_seq. done.
    + rewrite (reconstruct_padded_layout zero groups n p r info) by done. f_equal.
      transitivity (row_at zero p r full <$> seq 0 n); [|rewrite <- Hlen; apply rows_at_all].
      apply list_fmap_ext.
      intros i s [-> Hs]%lookup_seq. simpl. rewrite (full_prompt_shared _ _ n) by done.
      apply take_drop.
Qed.

Lemma dedup_padded_roundtrip_witness :
  let info := Recon (build_segments 2 1 0 0 [[0; 2]; [1]]) [[0; 2]; [1]] 2 1 3 3 false None [] 0 [] 0 in
  (forall h, length h = 2 * 2 + 3 * 1 ->
     exists full, reconstruct_sequences_padded 0%Z h info = Ok full /\
       deduplicate_sequences_padded 0%Z full info = Ok h) /\
  (forall full, length full = 3 -> Forall (fun row => length row = 2 + 1) full ->
     share_prompts full 2 [[0; 2]; [1]] ->
     exists h, deduplicate_sequences_padded 0%Z full info = Ok h /\
       length h = 2 * 2 + 3 * 1 /\
       reconstruct_sequences_padded 0%Z h info = Ok full).
Proof.
  apply (dedup_padded_roundtrip 0%Z [[0; 2]; [1]] 3 2 1).
  - exact (bool_decide_unpack ([0; 2; 1] ≡ₚ [0; 1; 2]) I).
  - repeat constructor; discriminate.
  - lia.
  - by repeat split.
Defined.

(** ** Packed format: positions *)

Lemma py_sorted_of_sorted l k : l ≡ₚ k -> StronglySorted Nat.le k -> py_sorted Nat.ltb l = k.
Proof.
  intros Hp Hs. apply (StronglySorted_unique_strong Nat.le); [intros x y _ _ ??; lia| |done|].
  - eapply StronglySorted_weaken; [|apply py_sorted_sorted, _]. simpl. intros; lia.
  - by rewrite py_sorted_perm.
Qed.

Lemma sorted_keys_list_to_map {V} (l : list (nat * V)) :
  NoDup l.*1 -> StronglySorted Nat.le l.*1 -> sorted_keys (list_to_map l) = l.*1.
Proof.
  intros Hnd Hs. apply py_sorted_of_sorted; [|done]. by rewrite map_to_list_to_map.
Qed.

Section positions.
Context (nvp nvr : nat -> nat).

(** What [segments_by_group] holds for one place. *)
Definition place_data (x : place) : option segment * gmap nat segment :=
  (prompt_seg nvp x <$> head x.2.2.*1,
   list_to_map ((fun t => (t.1, response_seg nvr x.1 t)) <$> x.2.2)).

Lemma add_prompts x l p0 (m : gmap nat (option segment * gmap nat segment)) :
  m !! x.1 = Some (Some p0, ∅) ->
  fold_left add_group_segment (prompt_seg nvp x <$> l) m = m.
Proof.
  intros Hm. induction l as [|s l IH]; csimpl; [done|].
  unfold add_group_segment at 2. simpl. rewrite Hm. simpl. by rewrite insert_id.
Qed.

Lemma add_responses g P l1 l2 (m : gmap nat (option segment * gmap nat segment)) :
  NoDup (l1 ++ l2).*1 ->
  m !! g = Some (P, list_to_map ((fun t => (t.1, response_seg nvr g t)) <$> l1)) ->
  fold_left add_group_segment (response_seg nvr g <$> l2) m =
  <[g := (P, list_to_map ((fun t => (t.1, response_seg nvr g t)) <$> l1 ++ l2))]> m.
Proof.
  revert l1 m; induction l2 as [|t l2 IH]; intros l1 m Hnd Hm; csimpl.
  - by rewrite app_nil_r, insert_id.
  - unfold add_group_segment at 2. simpl. rewrite Hm. simpl.
    assert (Ht : t.1 ∉ l1.*1).
    { rewrite fmap_app, NoDup_app in Hnd. destruct Hnd as (_ & Hd & _). intros H. apply (Hd _ H). csimpl. set_solver. }
    rewrite <- list_to_map_snoc by (by rewrite <- list_fmap_compose).
    rewrite (IH (l1 ++ [t])).
    + by rewrite <- app_assoc, insert_insert_eq.
    + by rewrite <- app_assoc.
    + rewrite lookup_insert_eq. by rewrite fmap_app.
Qed.

Lemma add_first_prompt x s (m : gmap nat (option segment * gmap nat segment)) :
  m !! x.1 = None ->
  add_group_segment m (prompt_seg nvp x s) = <[x.1 := (Some (prompt_seg nvp x s), ∅)]> m.
Proof. intros Hm. unfold add_group_segment. simpl. by rewrite Hm. Qed.

Lemma add_place x (m : gmap nat (option segment * gmap nat segment)) :
  m !! x.1 = None -> x.2.2 <> [] -> NoDup x.2.2.*1 ->
  fold_left add_group_segment (place_segs nvp nvr x) m = <[x.1 := place_data x]> m.
Proof.
  intros Hm Hne Hnd. unfold place_segs. rewrite fold_left_app.
  destruct x.2.2 as [|t0 rs] eqn:Ers; [done|]. rewrite (fmap_cons fst), (fmap_cons (prompt_seg nvp x)).
  cbn [fold_left]. rewrite add_first_prompt by done.
  rewrite (add_prompts x rs.*1 (prompt_seg nvp x t0.1)) by apply lookup_insert_eq.
  rewrite (add_responses x.1 (Some (prompt_seg nvp x t0.1)) [] (t0 :: rs)); [|done|by rewrite lookup_insert_eq].
  unfold place_data. by rewrite Ers, insert_insert_eq.
Qed.

Lemma segments_by_group_layout xs :
  NoDup xs.*1 -> Forall (fun x : place => x.2.2 <> [] /\ NoDup x.2.2.*1) xs ->
  segments_by_group (layout_segs nvp nvr xs) = list_to_map ((fun x => (x.1, place_data x)) <$> xs).
Proof.
  unfold segments_by_group, layout_segs. induction xs as [|x xs IH] using rev_ind; intros Hnd Hall; [done|].
  rewrite fmap_app in Hnd. apply NoDup_app in Hnd as (Hnd & Hd & _).
  apply Forall_app in Hall as [Hall [Hx _]%Forall_cons].
  assert (Hx1 : x.1 ∉ xs.*1) by (intros H; apply (Hd _ H); csimpl; set_solver).
  rewrite fmap_app, concat_app, fold_left_app, IH by done. csimpl. rewrite app_nil_r.
  rewrite add_place; [| |by destruct Hx..].
  - rewrite fmap_app. csimpl. rewrite list_to_map_snoc; [done|]. by rewrite <- list_fmap_compose.
  - apply not_elem_of_list_to_map_1. by rewrite <- list_fmap_compose.
Qed.

Lemma response_positions_ok rs pos group :
  NoDup group -> (forall s, s ∈ group -> exists seg, rs !! s = Some seg /\ num_valid_tokens seg = nvr s) ->
  exists rm, response_positions rs pos group = (rm, pos + sum_list (nvr <$> group)) /\
    Forall (fun t : nat * (nat * nat) => rm !! t.1 = Some t.2) (place_responses nvr pos group).
Proof.
  revert pos; induction group as [|s group IH]; intros pos Hnd Hrs; csimpl.
  - exists ∅. by rewrite Nat.add_0_r.
  - apply NoDup_cons in Hnd as [Hs Hnd]. destruct (Hrs s ltac:(set_solver)) as (seg & Hseg & Hnv).
    rewrite Hseg, Hnv. destruct (IH (pos + nvr s) Hnd) as (rm & -> & Hrm); [set_solver|].
    eexists. split; [f_equal; lia|]. constructor; simpl.
    + by rewrite lookup_insert_eq.
    + apply Forall_forall. intros t Ht. rewrite Forall_forall in Hrm. specialize (Hrm t Ht).
      rewrite lookup_insert_ne; [done|]. intros ->. apply Hs.
      rewrite <- (place_responses_fst nvr (pos + nvr t.1) group). by apply list_elem_of_fmap_2.
Qed.

Lemma group_positions_ok (m : gmap nat (option segment * gmap nat segment)) g pos groups :
  Forall NoDup groups ->
  (forall i group, groups !! i = Some group ->
     exists ps rs, m !! (g + i) = Some (Some ps, rs) /\ num_valid_tokens ps = nvp (g + i) /\
       sorted_keys rs = group /\
       forall s, s ∈ group -> exists seg, rs !! s = Some seg /\ num_valid_tokens seg = nvr s) ->
  exists M, group_positions m pos (seq g (length groups)) = Ok M /\
    Forall (fun x : place => exists rm, M !! x.1 = Some (x.2.1, rm) /\
              Forall (fun t : nat * (nat * nat) => rm !! t.1 = Some t.2) x.2.2)
      (places nvp nvr g pos groups).
Proof.
  revert g pos; induction groups as [|group groups IH]; intros g pos Hnd Hm; simpl.
  - eexists. by split.
  - apply Forall_cons in Hnd as [Hndg Hnd].
    destruct (Hm 0 group eq_refl) as (ps & rs & Hg & Hnv & Hk & Hrs). rewrite Nat.add_0_r in Hg, Hnv.
    rewrite Hg, Hk, Hnv.
    destruct (response_positions_ok rs (pos + nvp g) group Hndg Hrs) as (rm & -> & Hrm).
    destruct (IH (S g) (pos + nvp g + sum_list (nvr <$> group)) Hnd) as (M & -> & HM).
    { intros i gr Hi. destruct (Hm (S i) gr Hi) as (ps' & rs' & H). exists ps', rs'.
      by replace (S g + i) with (g + S i) by lia. }
    eexists. split; [done|]. constructor; simpl.
    + exists rm. by rewrite lookup_insert_eq.
    + apply Forall_forall. intros x Hx. rewrite Forall_forall in HM. specialize (HM x Hx).
      apply list_elem_of_lookup in Hx as [i Hi]. apply places_lookup in Hi as [Hi _].
      rewrite lookup_insert_ne by lia. done.
Qed.
End positions.

Lemma nodup_groups groups n : is_partition groups n -> Forall NoDup groups.
Proof.
  intros Hp. assert (Hnd : NoDup (concat groups)) by (rewrite Hp; apply NoDup_seq).
  clear Hp. induction groups as [|g groups IH]; constructor; apply NoDup_app in Hnd as (? & _ & ?); auto.
Qed.

Lemma places_fst plen rlen g pos groups : (places plen rlen g pos groups).*1 = seq g (length groups).
Proof. revert g pos; induction groups as [|gr groups IH]; intros g pos; csimpl; [done|]. by rewrite IH. Qed.

(** The positions the packed conversions compute are the places of the valid counts,
    whatever the padded starts and ends were. *)
Lemma group_dedup_positions_ok nvp nvr plen rlen groups n :
  is_partition groups n -> Forall (fun g => g <> []) groups -> Forall (StronglySorted Nat.le) groups ->
  exists M, group_dedup_positions (layout_segs nvp nvr (places plen rlen 0 0 groups)) = Ok M /\
    Forall (fun x : place => exists rm, M !! x.1 = Some (x.2.1, rm) /\
              Forall (fun t : nat * (nat * nat) => rm !! t.1 = Some t.2) x.2.2)
      (places nvp nvr 0 0 groups).
Proof.
  intros Hp Hne Hs. pose proof (nodup_groups _ _ Hp) as Hnd.
  set (xs := places plen rlen 0 0 groups).
  assert (Hxs : Forall (fun x : place => x.2.2 <> [] /\ NoDup x.2.2.*1) xs).
  { apply Forall_forall. intros x [i Hi]%list_elem_of_lookup. apply places_lookup in Hi as [_ Hi].
    rewrite Forall_lookup in Hne, Hnd. specialize (Hne _ _ Hi). specialize (Hnd _ _ Hi).
    split; [|done]. intros Hx. by rewrite Hx in Hne. }
  assert (Hkeys : NoDup xs.*1) by (unfold xs; rewrite places_fst; apply NoDup_seq).
  unfold group_dedup_positions. rewrite segments_by_group_layout by done.
  set (l := (fun x => (x.1, place_data nvp nvr x)) <$> xs).
  assert (Hl : l.*1 = seq 0 (length groups)).
  { unfold l. rewrite <- list_fmap_compose. unfold xs. rewrite <- (places_fst plen rlen 0 0 groups).
    apply list_fmap_ext. done. }
  rewrite sorted_keys_list_to_map; [|rewrite Hl; apply NoDup_seq|rewrite Hl; apply seq_sorted].
  rewrite Hl. apply group_positions_ok; [done|]. intros i group Hi. simpl.
  destruct (lookup_lt_is_Some_2 xs i) as [x Hx].
  { unfold xs. rewrite length_places. by eapply lookup_lt_Some. }
  apply places_lookup in Hx as Hx'. destruct Hx' as [Hx1 Hx2]. rewrite Hi in Hx2. injection Hx2 as Hx2.
  simpl in Hx1. rewrite Forall_lookup in Hne, Hnd, Hs.
  specialize (Hne _ _ Hi). specialize (Hnd _ _ Hi). specialize (Hs _ _ Hi).
  destruct group as [|s0 group]; [done|].
  exists (prompt_seg nvp x s0), (list_to_map ((fun t => (t.1, response_seg nvr x.1 t)) <$> x.2.2)).
  assert (Hfst : ((fun t : nat * (nat * nat) => (t.1, response_seg nvr x.1 t)) <$> x.2.2).*1 = s0 :: group).
  { rewrite <- list_fmap_compose, Hx2. by apply list_fmap_ext. }
  split_and!.
  - apply elem_of_list_to_map_1; [rewrite Hl; apply NoDup_seq|]. unfold l.
    replace (i, (Some (prompt_seg nvp x s0), list_to_map ((fun t => (t.1, response_seg nvr x.1 t)) <$> x.2.2)))
      with (x.1, place_data nvp nvr x).
    { apply (list_elem_of_fmap_2 (fun x => (x.1, place_data nvp nvr x))). by eapply list_elem_of_lookup_2. }
    unfold place_data. rewrite <- Hx2, Hx1. done.
  - simpl. by rewrite Hx1.
  - rewrite <- Hfst. apply sorted_keys_list_to_map; by rewrite Hfst.
  - intros s Hin. rewrite Hx2 in Hin. apply list_elem_of_fmap in Hin as (t & -> & Ht).
    exists (response_seg nvr x.1 t). split; [|done].
    apply elem_of_list_to_map_1; [by rewrite Hfst|].
    by apply (list_elem_of_fmap_2 (fun t => (t.1, response_seg nvr x.1 t))).
Qed.

(** ** Packed format: reconstruction *)

Lemma fold_insert_const (g : nat) group (m : gmap nat nat) t :
  fold_left (fun m s => <[s := g]> m) group m !! t = if decide (t ∈ group) then Some g else m !! t.
Proof.
  revert m; induction group as [|s group IH]; intros m; simpl; [done|]. rewrite IH.
  destruct (decide (t ∈ group)) as [Hin|Hin]; [by rewrite decide_True by set_solver|].
  destruct (decide (t = s)) as [->|Hne].
  - rewrite lookup_insert_eq, decide_True by set_solver. done.
  - rewrite lookup_insert_ne, decide_False by set_solver. done.
Qed.

Lemma sample_to_group_ok groups g group s :
  NoDup (concat groups) -> groups !! g = Some group -> s ∈ group -> sample_to_group groups !! s = Some g.
Proof.
  unfold sample_to_group. revert g group; induction groups as [|gr groups IH] using rev_ind;
    intros g group Hnd Hg Hs; [done|].
  rewrite concat_app in Hnd. apply NoDup_app in Hnd as (Hnd & Hd & _).
  rewrite imap_app, fold_left_app. simpl. rewrite fold_insert_const, Nat.add_0_r.
  apply lookup_app_Some in Hg as [Hg|[Hlen Hg]].
  - rewrite decide_False; [by eapply IH|]. intros Hin.
    apply (Hd s); [|simpl; rewrite app_nil_r; done]. apply list_elem_of_In, in_concat.
    exists group. split; apply list_elem_of_In; [by eapply list_elem_of_lookup_2|done].
  - apply list_lookup_singleton_Some in Hg as [Hg <-]. rewrite decide_True by done. f_equal. lia.
Qed.

(** The metadata [unpad_deduplicated_batch] leaves: [nvp g] valid tokens in the prompt of
    group [g], [nvr s] in the response of sample [s]. *)
Definition packed_info (info : recon) (groups : list (list nat)) (n p r : nat) (nvp nvr : nat -> nat) : Prop :=
  segment_info info = layout_segs nvp nvr (places (fun _ => p) (fun _ => r) 0 0 groups) /\
  rc_groups info = groups /\ prompt_len info = p /\ original_batch_size info = n /\
  cu_seqlens_packed info = cumulative 0 ((fun s => nvp (group_of groups s) + nvr s) <$> seq 0 n) /\
  is_unpadded info = true.

Lemma dict_at_ok {V} (m : gmap nat V) k v : m !! k = Some v -> dict_at m k = Ok v.
Proof. unfold dict_at. by intros ->. Qed.

Section packed.
Context {A : Type} (zero : A) (groups : list (list nat)) (n p r : nat) (nvp nvr : nat -> nat) (info : recon).
Hypothesis Hinfo : packed_info info groups n p r nvp nvr.
Hypothesis Hpart : is_partition groups n.
Hypothesis Hne : Forall (fun g => g <> []) groups.
Hypothesis Hsorted : Forall (StronglySorted Nat.le) groups.
Hypothesis Hn : 0 < n.

Lemma reconstruct_packed_layout (P R : nat -> list A) :
  (forall g, length (P g) = nvp g) -> (forall s, length (R s) = nvr s) ->
  reconstruct_sequences_packed (layout P R 0 groups) info =
  Ok (concat ((fun s => P (group_of groups s) ++ R s) <$> seq 0 n)).
Proof.
  intros HP HR. unfold reconstruct_sequences_packed. destruct Hinfo as (-> & -> & _ & -> & _).
  destruct (group_dedup_positions_ok nvp nvr (fun _ => p) (fun _ => r) groups n Hpart Hne Hsorted)
    as (M & -> & HM). cbn [mbind res_bind].
  assert (Hnd : NoDup (concat groups)) by (rewrite Hpart; apply NoDup_seq).
  rewrite (mapM_ok _ (fun s => P (group_of groups s) ++ R s)).
  - simpl. destruct n; [lia|done].
  - intros s Hs%elem_of_seq.
    destruct (places_of_sample nvp nvr groups n s Hpart) as (x & t & Hx & Ht & <- & Hg); [lia|].
    destruct (group_of_elem groups n t.1 Hpart) as (group & Hgr & Hin); [lia|].
    rewrite (dict_at_ok _ _ _ (sample_to_group_ok groups (group_of groups t.1) group t.1 Hnd Hgr Hin)).
    cbn [mbind res_bind]. rewrite <- Hg. rewrite Forall_forall in HM.
    destruct (HM x Hx) as (rm & HMx & Hrm). rewrite (dict_at_ok _ _ _ HMx). cbn [mbind res_bind fst snd].
    rewrite Forall_forall in Hrm. rewrite (dict_at_ok _ _ _ (Hrm t Ht)). cbn [mbind res_bind].
    pose proof (places_slice P R nvp nvr HP HR (layout P R 0 groups) [] [] 0 0 groups) as Hsl.
    rewrite app_nil_r in Hsl. specialize (Hsl eq_refl eq_refl). rewrite Forall_forall in Hsl.
    specialize (Hsl x Hx). destruct x as [g [[a b] rs]], t as [s [c d]]. simpl in *.
    destruct Hsl as [Hpr Hrs]. rewrite Forall_forall in Hrs. specialize (Hrs _ Ht). simpl in Hrs.
    by rewrite Hpr, Hrs.
Qed.

(** ** Packed format: deduplication *)

Lemma cumulative_lookup acc l i :
  i <= length l -> cumulative acc l !! i = Some (acc + sum_list (take i l)).
Proof.
  revert acc i; induction l as [|x l IH]; intros acc [|i] Hi; simpl in *.
  - f_equal. lia.
  - lia.
  - f_equal. lia.
  - rewrite IH by lia. f_equal. lia.
Qed.

Lemma slice_concat (ls : list (list A)) i x :
  ls !! i = Some x ->
  slice (concat ls) (sum_list (take i (length <$> ls))) (sum_list (take (S i) (length <$> ls))) = x.
Proof.
  intros Hi. rewrite (list_split_at _ _ _ Hi) at 1. rewrite concat_app. simpl. apply slice_middle.
  - by rewrite <- fmap_take, length_concat_sum.
  - rewrite (take_S_r _ _ (length x)) by (by rewrite list_lookup_fmap, Hi).
    rewrite sum_list_with_app. simpl. lia.
Qed.

Lemma count_place (x : place) total counted :
  x.1 ∉ counted -> x.2.2 <> [] ->
  fold_left count_segment (place_segs nvp nvr x) (total, counted) =
  (total + nvp x.1 + sum_list (nvr <$> x.2.2.*1), x.1 :: counted).
Proof.
  intros Hx Hnil. unfold place_segs. rewrite fold_left_app.
  assert (Hfirst : forall s, count_segment (total, counted) (prompt_seg nvp x s) = (total + nvp x.1, x.1 :: counted)).
  { intros s. unfold count_segment. simpl. by rewrite bool_decide_eq_false_2. }
  assert (Hdup : forall l tot, fold_left count_segment (prompt_seg nvp x <$> l) (tot, x.1 :: counted) =
                               (tot, x.1 :: counted)).
  { induction l as [|s l IH]; intros tot; csimpl; [done|]. rewrite bool_decide_eq_true_2 by set_solver. apply IH. }
  assert (Hresp : forall l tot, fold_left count_segment (response_seg nvr x.1 <$> l) (tot, x.1 :: counted) =
                               (tot + sum_list (nvr <$> l.*1), x.1 :: counted)).
  { induction l as [|t l IH]; intros tot; csimpl; [by rewrite Nat.add_0_r|]. rewrite IH. f_equal. lia. }
  destruct x.2.2 as [|t0 rs] eqn:E; [done|]. rewrite (fmap_cons fst), (fmap_cons (prompt_seg nvp x)).
  cbn [fold_left]. rewrite Hfirst, Hdup, Hresp. done.
Qed.

Lemma count_places xs total counted :
  NoDup xs.*1 -> Forall (fun x : place => x.1 ∉ counted /\ x.2.2 <> []) xs ->
  (fold_left count_segment (layout_segs nvp nvr xs) (total, counted)).1 =
  total + sum_list (nvp <$> xs.*1) + sum_list (nvr <$> concat ((fun x : place => x.2.2.*1) <$> xs)).
Proof.
  revert total counted; induction xs as [|x xs IH]; intros total counted Hnd Hall.
  - simpl. lia.
  - csimpl in Hnd. apply NoDup_cons in Hnd as [Hx Hnd]. apply Forall_cons in Hall as [[H1 H2] Hall].
    unfold layout_segs. csimpl. rewrite fold_left_app, count_place by done. unfold layout_segs in IH.
    rewrite IH; [|done|].
    + rewrite fmap_app, sum_list_with_app. lia.
    + apply Forall_forall. intros y Hy. rewrite Forall_forall in Hall. destruct (Hall y Hy) as [Hy1 Hy2].
      split; [|done]. intros [Heq|Hin]%elem_of_cons; [|done]. apply Hx. rewrite <- Heq.
      by apply list_elem_of_fmap_2.
Qed.

Context (mask : list (list Z)) (C : nat -> list A).
Hypothesis Hmask : original_attention_mask info = Some mask.
Hypothesis Hmask_rows : length mask = n.
Hypothesis Hcount : forall s row, mask !! s = Some row ->
  Z.to_nat (sumZ (take p row)) = nvp (group_of groups s).
Hypothesis HC : forall s, length (C s) = nvp (group_of groups s) + nvr s.

Definition packed_prompt (g : nat) : list A :=
  match groups !! g with
  | Some (s0 :: _) => take (nvp g) (C s0)
  | _ => replicate (nvp g) zero
  end.
Definition packed_response (s : nat) : list A := drop (nvp (group_of groups s)) (C s).

Lemma length_packed_prompt g : length (packed_prompt g) = nvp g.
Proof.
  unfold packed_prompt. destruct (groups !! g) as [[|s0 group]|] eqn:E; [by rewrite length_replicate| |by rewrite length_replicate].
  rewrite length_take, HC. assert (Hnd : NoDup (concat groups)) by (rewrite Hpart; apply NoDup_seq).
  rewrite (group_of_spec groups g (s0 :: group)) by (done || set_solver). lia.
Qed.

Lemma length_packed_response s : length (packed_response s) = nvr s.
Proof. unfold packed_response. rewrite length_drop, HC. lia. Qed.

Lemma packed_sample_ok s :
  s < n ->
  packed_sample (concat (C <$> seq 0 n)) info mask s = Ok (C s, nvp (group_of groups s)).
Proof.
  intros Hs. unfold packed_sample. destruct Hinfo as (_ & _ & Hp & _ & Hcu & _). rewrite Hcu, Hp.
  set (counts := (fun s => nvp (group_of groups s) + nvr s) <$> seq 0 n).
  assert (Hl : length counts = n) by (unfold counts; by rewrite length_fmap, length_seq).
  rewrite (at_index_ok _ _ _ (cumulative_lookup 0 counts s ltac:(lia))). cbn [mbind res_bind].
  rewrite (at_index_ok _ _ _ (cumulative_lookup 0 counts (S s) ltac:(lia))). cbn [mbind res_bind].
  destruct (at_index_lt mask s) as (row & Hrow & ->); [lia|]. cbn [mbind res_bind].
  rewrite (Hcount s row Hrow), !Nat.add_0_l. do 2 f_equal.
  replace counts with (length <$> (C <$> seq 0 n)).
  - apply slice_concat. by rewrite list_lookup_fmap, lookup_seq_lt.
  - unfold counts. rewrite <- list_fmap_compose. apply list_fmap_ext. intros i t _. apply HC.
Qed.

Lemma dedup_packed_writes M :
  Forall (fun x : place => exists rm, M !! x.1 = Some (x.2.1, rm) /\
            Forall (fun t : nat * (nat * nat) => rm !! t.1 = Some t.2) x.2.2) (places nvp nvr 0 0 groups) ->
  Forall (fun '(h, ((a, b), rs)) => forall out, exists wr,
      dedup_packed_group (concat (C <$> seq 0 n)) info mask M out (h, rs.*1) =
        (out ← set_slice out a b (packed_prompt h); foldM wr out rs.*1) /\
      Forall (fun '(s, (a, b)) => forall out, wr out s = set_slice out a b (packed_response s)) rs)
    (places nvp nvr 0 0 groups).
Proof.
  intros HM. apply Forall_forall. intros [g [[a b] rs]] Hx out. unfold dedup_packed_group.
  rewrite Forall_forall in HM. destruct (HM _ Hx) as (rm & HMx & Hrm). simpl in HMx, Hrm.
  apply list_elem_of_lookup in Hx as [i Hi]. apply places_lookup in Hi as [Hgi Hg]. simpl in Hgi, Hg. subst i.
  assert (Hnd : NoDup (concat groups)) by (rewrite Hpart; apply NoDup_seq).
  assert (Hlt : forall t, t ∈ rs -> t.1 < n /\ group_of groups t.1 = g).
  { intros t Ht. assert (Hin : t.1 ∈ rs.*1) by (by apply list_elem_of_fmap_2). split.
    - eapply is_partition_lt; [exact Hpart|by eapply list_elem_of_lookup_2|done].
    - by eapply group_of_spec. }
  rewrite Forall_lookup in Hne. pose proof (Hne _ _ Hg) as Hnil.
  destruct rs as [|t0 rs0] eqn:Ers; [done|]. rewrite <- Ers in *.
  assert (Ht0 : t0 ∈ rs) by (rewrite Ers; set_solver).
  rewrite (dict_at_ok _ _ _ HMx). cbn [mbind res_bind].
  assert (Hfirst : at_index rs.*1 0 = Ok t0.1) by (by rewrite Ers). rewrite Hfirst. cbn [mbind res_bind].
  destruct (Hlt t0 Ht0) as [H0 Hg0]. rewrite packed_sample_ok, Hg0 by done. cbn [mbind res_bind fst snd].
  assert (Hprompt : take (nvp g) (C t0.1) = packed_prompt g).
  { unfold packed_prompt. by rewrite Hg, Ers. }
  rewrite Hprompt. eexists. split; [done|].
  apply Forall_forall. intros [s [c d]] Ht out'. destruct (Hlt _ Ht) as [Hs Hgs]. simpl in Hs, Hgs.
  rewrite packed_sample_ok by done. cbn [mbind res_bind]. rewrite Forall_forall in Hrm.
  specialize (Hrm _ Ht). simpl in Hrm. rewrite (dict_at_ok _ _ _ Hrm). done.
Qed.

Lemma dedup_packed_layout :
  deduplicate_sequences_packed zero (concat (C <$> seq 0 n)) info =
  Ok (layout packed_prompt packed_response 0 groups).
Proof.
  unfold deduplicate_sequences_packed. rewrite Hmask. pose proof Hinfo as (Hsegs & Hgr & _).
  rewrite Hsegs, Hgr.
  destruct (group_dedup_positions_ok nvp nvr (fun _ => p) (fun _ => r) groups n Hpart Hne Hsorted)
    as (M & -> & HM). cbn [mbind res_bind].
  assert (Htotal : total_dedup_tokens (layout_segs nvp nvr (places (fun _ => p) (fun _ => r) 0 0 groups)) =
                   length (layout packed_prompt packed_response 0 groups)).
  { rewrite (length_layout _ _ nvp nvr length_packed_prompt length_packed_response).
    unfold total_dedup_tokens. rewrite count_places.
    - rewrite places_fst. simpl. do 2 f_equal. f_equal. f_equal.
      apply list_eq. intros i. rewrite list_lookup_fmap.
      destruct (places _ _ 0 0 groups !! i) as [x|] eqn:E; simpl.
      + by apply places_lookup in E as [_ ->].
      + apply lookup_ge_None in E. rewrite length_places in E. by rewrite lookup_ge_None_2.
    - rewrite places_fst. apply NoDup_seq.
    - apply Forall_forall. intros x [i Hi]%list_elem_of_lookup. apply places_lookup in Hi as [_ Hi].
      split; [set_solver|]. rewrite Forall_lookup in Hne. specialize (Hne _ _ Hi). by intros Heq; rewrite Heq in Hne. }
  rewrite Htotal.
  pose proof (write_layout zero _ _ nvp nvr length_packed_prompt length_packed_response
                (dedup_packed_group (concat (C <$> seq 0 n)) info mask M) []
                (length (layout packed_prompt packed_response 0 groups)) 0 0 groups eq_refl (Nat.le_refl _)) as Hw.
  simpl in Hw. change (imap pair groups) with (imap (fun i (group : list nat) => (i, group)) groups).
  rewrite Hw by (by apply dedup_packed_writes). rewrite Nat.sub_diag. simpl. by rewrite app_nil_r.
Qed.
End packed.

(** ** Unpadding *)

(** The cells of [l] whose mask entry is not zero. *)
Definition valid_of {A} (mask : list Z) (l : list A) : list A :=
  (filter (fun mx : Z * A => mx.1 <> 0%Z) (zip mask l)).*2.

Lemma select_valid_ok {A} mask (l : list A) :
  length mask = length l -> select_valid mask l = Ok (valid_of mask l).
Proof. intros H. unfold select_valid. by rewrite H, Nat.eqb_refl. Qed.

Lemma valid_of_app {A} m1 m2 (l1 l2 : list A) :
  length m1 = length l1 -> valid_of (m1 ++ m2) (l1 ++ l2) = valid_of m1 l1 ++ valid_of m2 l2.
Proof. intros H. unfold valid_of. by rewrite zip_with_app, filter_app, fmap_app. Qed.

Lemma length_valid_of {A} mask (l : list A) :
  length mask = length l -> length (valid_of mask l) = count_valid mask.
Proof.
  unfold valid_of, count_valid. rewrite length_fmap.
  revert l; induction mask as [|x mask IH]; intros [|y l] Hl; simplify_eq/=; [done|].
  rewrite !filter_cons. simpl. destruct (decide (x <> 0%Z)); simpl; by rewrite IH.
Qed.

Lemma valid_of_concat {A} (M : nat -> list Z) (L : nat -> list A) l :
  (forall s, length (M s) = length (L s)) ->
  valid_of (concat (M <$> l)) (concat (L <$> l)) = concat ((fun s => valid_of (M s) (L s)) <$> l).
Proof.
  intros H. induction l as [|s l IH]; csimpl; [done|]. by rewrite valid_of_app, IH.
Qed.

Lemma valid_of_layout {A} (Pm Rm : nat -> list Z) (P R : nat -> list A) g groups :
  (forall i, length (Pm i) = length (P i)) -> (forall s, length (Rm s) = length (R s)) ->
  valid_of (layout Pm Rm g groups) (layout P R g groups) =
  layout (fun i => valid_of (Pm i) (P i)) (fun s => valid_of (Rm s) (R s)) g groups.
Proof.
  intros HP HR. assert (Hc : forall l, length (concat (Rm <$> l)) = length (concat (R <$> l))).
  { induction l as [|s l IH]; csimpl; [done|]. by rewrite !length_app, HR, IH. }
  revert g; induction groups as [|group groups IH]; intros g; simpl; [done|].
  by rewrite !valid_of_app, IH, valid_of_concat.
Qed.

Lemma filter_fmap_single {A B} (f : A -> B) (Q : B -> Prop) `{!forall y, Decision (Q y)} l a :
  NoDup l -> a ∈ l -> (forall b, b ∈ l -> Q (f b) <-> b = a) -> filter Q (f <$> l) = [f a].
Proof.
  intros Hnd. induction Hnd as [|x l Hx Hnd IH]; intros Ha HQ; [set_solver|]. rewrite fmap_cons.
  apply elem_of_cons in Ha as [->|Ha].
  - rewrite filter_cons_True by (apply HQ; [set_solver|done]). f_equal.
    apply elem_of_nil_inv. intros y [Hy (b & -> & Hb)%list_elem_of_fmap]%list_elem_of_filter.
    apply HQ in Hy; [|set_solver]. by subst.
  - rewrite filter_cons_False; [apply IH; [done|]; intros b Hb; apply HQ; set_solver|].
    intros Hq. apply HQ in Hq; [|set_solver]. by subst.
Qed.

Lemma elem_of_take_of {A} (l : list A) i y : y ∈ take i l -> y ∈ l.
Proof.
  intros [j Hj]%list_elem_of_lookup. apply lookup_take_Some in Hj as [Hj _]. by eapply list_elem_of_lookup_2.
Qed.
Lemma elem_of_drop_of {A} (l : list A) i y : y ∈ drop i l -> y ∈ l.
Proof.
  intros [j Hj]%list_elem_of_lookup. rewrite lookup_drop in Hj. by eapply list_elem_of_lookup_2.
Qed.

(** A sample's segments are its group's prompt and its own response. *)
Lemma sample_valid_tokens_ok nvp nvr plen rlen groups n s :
  is_partition groups n -> s < n ->
  sample_valid_tokens (layout_segs nvp nvr (places plen rlen 0 0 groups)) s = nvp (group_of groups s) + nvr s.
Proof.
  intros Hp Hs. assert (Hnd : NoDup (concat groups)) by (rewrite Hp; apply NoDup_seq).
  destruct (places_of_sample plen rlen groups n s Hp Hs) as (x & t & Hx & Ht & <- & Hg).
  unfold sample_valid_tokens, layout_segs.
  assert (Hother : forall l : list place, (forall y, y ∈ l -> y ∈ places plen rlen 0 0 groups /\ y <> x) ->
    filter (fun sg => original_idx sg = t.1) (concat (place_segs nvp nvr <$> l)) = []).
  { intros l Hl. apply elem_of_nil_inv. intros sg [Hi Hsg]%list_elem_of_filter.
    apply (layout_segs_elem nvp nvr l) in Hsg as (y & Hy & Hsg). destruct (Hl y Hy) as [Hy1 Hy2]. apply Hy2.
    destruct Hsg as [(u & Hu & ->)|(u & Hu & ->)]; simpl in Hi;
      by destruct (places_unique plen rlen 0 0 groups y x u t Hnd Hy1 Hx Hu Ht Hi) as [-> _]. }
  assert (Hndx : NoDup (places plen rlen 0 0 groups)).
  { apply (NoDup_fmap_1 fst). rewrite places_fst. apply NoDup_seq. }
  apply list_elem_of_lookup in Hx as Hx'. destruct Hx' as [i Hi].
  rewrite (list_split_at _ _ _ Hi) in Hndx |- *. apply NoDup_app in Hndx as (_ & Hd & [Hx2 _]%NoDup_cons).
  rewrite fmap_app, fmap_cons, concat_app. simpl. rewrite !filter_app.
  rewrite (Hother (take i _)).
  2:{ intros y Hy. split; [by apply elem_of_take_of in Hy|]. intros ->. apply (Hd _ Hy). set_solver. }
  rewrite (Hother (drop (S i) _)).
  2:{ intros y Hy. split; [by apply elem_of_drop_of in Hy|]. by intros ->. }
  apply places_lookup in Hi as [_ Hgr]. pose proof (nodup_groups _ _ Hp) as Hndg.
  rewrite Forall_lookup in Hndg. specialize (Hndg _ _ Hgr).
  unfold place_segs. rewrite filter_app.
  rewrite (filter_fmap_single (prompt_seg nvp x) _ x.2.2.*1 t.1); [|done|by apply list_elem_of_fmap_2|done].
  rewrite (filter_fmap_single (response_seg nvr x.1) _ x.2.2 t); [| |done|].
  - simpl. rewrite Hg. lia.
  - by eapply NoDup_fmap_1.
  - intros b Hb. simpl. split; [|by intros ->]. intros Heq.
    by destruct (places_unique plen rlen 0 0 groups x x b t Hnd Hx Hx Hb Ht Heq) as [_ ->].
Qed.

Lemma head_at_index {A} (l : list A) x : head l = Some x -> at_index l 0 = Ok x.
Proof. destruct l; simpl; [done|]. by intros [= ->]. Qed.

Lemma group_counts_ok nvp nvr plen rlen groups n g group :
  is_partition groups n -> Forall (fun g => g <> []) groups -> groups !! g = Some group ->
  group_counts (layout_segs nvp nvr (places plen rlen 0 0 groups)) g group =
  Ok ((fun s => nvp g + nvr s) <$> group).
Proof.
  intros Hp Hne Hg. assert (Hnd : NoDup (concat groups)) by (rewrite Hp; apply NoDup_seq).
  set (segs := layout_segs _ _ _). destruct (lookup_lt_is_Some_2 (places plen rlen 0 0 groups) g) as [x Hx].
  { rewrite length_places. by eapply lookup_lt_Some. }
  apply places_lookup in Hx as Hx'. destruct Hx' as [Hx1 Hx2]. rewrite Hg in Hx2. injection Hx2 as Hx2.
  simpl in Hx1. apply list_elem_of_lookup_2 in Hx as Hxin.
  rewrite Forall_lookup in Hne. pose proof (Hne _ _ Hg) as Hnil.
  assert (Hfind : forall t, t ∈ x.2.2 ->
    exists ps, head (filter (fun s => group_idx s = g /\ seg_kind s = Prompt) segs) = Some ps /\
      num_valid_tokens ps = nvp g).
  { intros t Ht. destruct (head_filter_exists (fun s => group_idx s = g /\ seg_kind s = Prompt) segs
      (prompt_seg nvp x t.1)) as (ps & Hps & Hin & Hps1 & Hps2); [|done|].
    { apply layout_segs_elem. exists x. split; [done|]. left. by exists t. }
    exists ps. split; [done|]. apply layout_segs_elem in Hin as (y & _ & [(u & _ & ->)|(u & _ & ->)]); [|done].
    simpl in *. by rewrite Hps1. }
  assert (Hresp : forall s, s ∈ group ->
    exists rs, head (filter (fun sg => group_idx sg = g /\ seg_kind sg = Response /\ original_idx sg = s) segs) = Some rs /\
      num_valid_tokens rs = nvr s).
  { intros s Hs. rewrite Hx2 in Hs. apply list_elem_of_fmap in Hs as (t & -> & Ht).
    destruct (head_filter_exists (fun sg => group_idx sg = g /\ seg_kind sg = Response /\ original_idx sg = t.1) segs
      (response_seg nvr x.1 t)) as (rs & Hrs & Hin & _ & Hk & Hi); [|by rewrite Hx1|].
    { apply layout_segs_elem. exists x. split; [done|]. right. by exists t. }
    exists rs. split; [done|]. apply layout_segs_elem in Hin as (y & _ & [(u & _ & ->)|(u & _ & ->)]); [done|].
    simpl in *. by rewrite Hi. }
  destruct x.2.2 as [|t0 rs0] eqn:E; [by rewrite Hx2 in Hnil|].
  destruct (Hfind t0) as (ps & Hps & Hnv); [set_solver|]. unfold group_counts.
  rewrite (head_at_index _ _ Hps). cbn [mbind res_bind].
  apply mapM_ok. intros s Hs. destruct (Hresp s Hs) as (rs & Hrs & Hnr).
  rewrite (head_at_index _ _ Hrs). cbn [mbind res_bind]. by rewrite Hnv, Hnr.
Qed.

Lemma unpad_deduplicated_batch_ok {A} (P R : nat -> list A) (Pm Rm : nat -> list Z) (dpos : list A)
    groups n p r info :
  is_partition groups n -> Forall (fun g => g <> []) groups -> 0 < n -> padded_info info groups n p r ->
  (forall g, length (P g) = p) -> (forall s, length (R s) = r) ->
  (forall g, length (Pm g) = p) -> (forall s, length (Rm s) = r) ->
  length dpos = length (layout P R 0 groups) ->
  exists pos info',
    unpad_deduplicated_batch (layout P R 0 groups) dpos (layout Pm Rm 0 groups) info =
    Ok (layout (fun g => valid_of (Pm g) (P g)) (fun s => valid_of (Rm s) (R s)) 0 groups, pos, info') /\
    packed_info info' groups n p r (fun g => count_valid (Pm g)) (fun s => count_valid (Rm s)) /\
    original_attention_mask info' = original_attention_mask info.
Proof.
  intros Hp Hne Hn (Hsegs & Hgr & Hpl & Hrl & Hbs & Hsl) HP HR HPm HRm Hdpos.
  assert (Hlen : length (layout Pm Rm 0 groups) = length (layout P R 0 groups))
    by (by rewrite (length_layout Pm Rm (fun _ => p) (fun _ => r) HPm HRm),
          (length_layout P R (fun _ => p) (fun _ => r) HP HR)).
  unfold unpad_deduplicated_batch. rewrite (select_valid_ok _ _ Hlen). cbn [mbind res_bind].
  rewrite (select_valid_ok _ dpos) by congruence. cbn [mbind res_bind].
  rewrite Hsegs, build_segments_eq, Hbs, Hgr.
  rewrite (unpad_layout_segs Pm Rm).
  2:{ pose proof (places_slice Pm Rm (fun _ => p) (fun _ => r) HPm HRm (layout Pm Rm 0 groups) [] [] 0 0 groups) as H.
      rewrite app_nil_r in H. by apply H. }
  set (segs := layout_segs _ _ _).
  assert (Hcounts : sample_valid_tokens segs <$> seq 0 n =
    (fun s => count_valid (Pm (group_of groups s)) + count_valid (Rm s)) <$> seq 0 n).
  { apply list_fmap_ext. intros i s [-> Hs]%lookup_seq. by apply (sample_valid_tokens_ok (fun g => count_valid (Pm g)) (fun s => count_valid (Rm s)) _ _ _ n). }
  rewrite Hcounts, length_fmap, length_seq. replace (0 <? n) with true by lia. cbn [check mbind res_bind].
  rewrite (mapM_ok _ (fun '(g, group) => (fun s => count_valid (Pm g) + count_valid (Rm s)) <$> group)).
  2:{ intros [g group] Hin. apply imap_pair_elem in Hin. by apply (group_counts_ok (fun g => count_valid (Pm g)) (fun s => count_valid (Rm s)) _ _ _ n). }
  cbn [mbind res_bind]. rewrite valid_of_layout by (intros; congruence).
  do 2 eexists. split; [done|]. split; [|done]. by split_and!.
Qed.

(** ** The deduplicated batch *)

Lemma batch_groups {A} `{EqDecision A} (rows : list (list A)) p :
  rows <> [] ->
  let groups := first_seen_groups (take p <$> rows) in
  is_partition groups (length rows) /\ Forall (fun g => g <> []) groups /\
  Forall (StronglySorted Nat.le) groups /\ share_prompts rows p groups /\ 0 < length rows.
Proof.
  intros Hne. destruct (found_groups_props (take p <$> rows)) as (H1 & H2 & H3 & H4).
  split_and!; [|done|done| |].
  - by rewrite length_fmap in H1.
  - intros group s t Hg Hs Ht. specialize (H4 group s t Hg Hs Ht). by rewrite !list_lookup_fmap in H4.
  - destruct rows; simpl; [done|lia].
Qed.

(** Everything [create_deduplicated_batch] promises about a padded batch. *)
Section batch.
Context {A : Type} `{EqDecision A} (zero : A) (rows : list (list A)) (mask : list (list Z)) (p r : nat).
Hypothesis Hrows : Forall (fun row => length row = p + r) rows.
Hypothesis Hmask : Forall (fun row => length row = p + r) mask.
Hypothesis Hlen : length mask = length rows.
Hypothesis Hne : rows <> [].

Let n := length rows.
Let groups := first_seen_groups (take p <$> rows).

(** The valid prompt tokens of a group and the valid response tokens of a sample. *)
Definition vprompt (g : nat) : list A :=
  valid_of (full_prompt 0%Z groups p r mask g) (full_prompt zero groups p r rows g).
Definition vresponse (s : nat) : list A :=
  valid_of (full_response 0%Z p r mask s) (full_response zero p r rows s).
Definition nprompt (g : nat) : nat := count_valid (full_prompt 0%Z groups p r mask g).
Definition nresponse (s : nat) : nat := count_valid (full_response 0%Z p r mask s).

Lemma length_parts {B} (z : B) (full : list (list B)) :
  Forall (fun row => length row = p + r) full ->
  (forall g, length (full_prompt z groups p r full g) = p) /\ (forall s, length (full_response z p r full s) = r).
Proof.
  intros Hf. split; intros i; unfold full_prompt, full_response.
  - rewrite length_take, length_row_at by done. lia.
  - rewrite length_drop, length_row_at by done. lia.
Qed.

Lemma length_vprompt g : length (vprompt g) = nprompt g.
Proof.
  apply length_valid_of. destruct (length_parts zero rows Hrows) as [H1 _], (length_parts 0%Z mask Hmask) as [H2 _].
  congruence.
Qed.
Lemma length_vresponse s : length (vresponse s) = nresponse s.
Proof.
  apply length_valid_of. destruct (length_parts zero rows Hrows) as [_ H1], (length_parts 0%Z mask Hmask) as [_ H2].
  congruence.
Qed.

Lemma create_batch_ok position_ids ppos :
  unpad_replicated_ids position_ids mask = Ok ppos ->
  exists info,
    create_deduplicated_batch zero rows position_ids (p + r) r groups (Some mask) true =
      Ok (layout vprompt vresponse 0 groups, inr ppos, info) /\
    packed_info info groups n p r nprompt nresponse /\ original_attention_mask info = Some mask.
Proof.
  intros Hpos. destruct (batch_groups rows p Hne) as (Hp & Hg & Hs & Hsh & Hn). unfold create_deduplicated_batch.
  destruct (dedup_input_ids_ok groups n p r Hp Hg Hn zero rows (Some mask) eq_refl Hlen)
    as (info & Hd & Hi & Hu & Hm). rewrite Hd. cbn [mbind res_bind fmap option_fmap option_map].
  unfold unpad_dedup_input_ids. destruct (length_parts zero rows Hrows) as [H1 H2].
  destruct (length_parts 0%Z mask Hmask) as [H3 H4].
  destruct (unpad_deduplicated_batch_ok (full_prompt zero groups p r rows) (full_response zero p r rows)
              (full_prompt 0%Z groups p r mask) (full_response 0%Z p r mask)
              (replicate (length (layout (full_prompt zero groups p r rows) (full_response zero p r rows) 0 groups)) zero)
              groups n p r info) as (pos & info' & Hun & Hpi & Hma); try done.
  { by rewrite length_replicate. }
  rewrite Hun. cbn [mbind res_bind]. rewrite Hpos. cbn [mbind res_bind].
  exists info'. split_and!; [done|done|]. by rewrite Hma.
Qed.

Hypothesis Hshare : share_prompts mask p groups.

(** A sample's own valid tokens are its group's valid prompt and its valid response. *)
Lemma sample_valid s :
  s < n -> vprompt (group_of groups s) ++ vresponse s = valid_of (row_at 0%Z p r mask s) (row_at zero p r rows s).
Proof.
  intros Hs. destruct (batch_groups rows p Hne) as (Hp & Hg & _ & Hsh & _). unfold vprompt, vresponse.
  rewrite (full_prompt_shared zero groups n p r rows s), (full_prompt_shared 0%Z groups n p r mask s) by done.
  unfold full_response. rewrite <- valid_of_app.
  - by rewrite !take_drop.
  - by rewrite !length_take, !length_row_at.
Qed.

Lemma unpad_replicated_ok {B} (z : B) (full : list (list B)) :
  length full = n -> Forall (fun row => length row = p + r) full ->
  unpad_replicated_ids full mask =
  Ok (concat ((fun s => valid_of (row_at 0%Z p r mask s) (row_at z p r full s)) <$> seq 0 n)).
Proof.
  intros Hl Hf. unfold unpad_replicated_ids.
  rewrite (mapM_ok _ (fun '(i, row) => valid_of (row_at 0%Z p r mask i) row)).
  - cbn [mbind res_bind].
    assert (Heq : (fun '(i, row) => valid_of (row_at 0%Z p r mask i) row) <$> imap pair full =
      (fun s => valid_of (row_at 0%Z p r mask s) (row_at z p r full s)) <$> seq 0 n).
    { apply list_eq. intros i. rewrite !list_lookup_fmap, list_lookup_imap.
      destruct (full !! i) as [row|] eqn:E; simpl.
      - rewrite lookup_seq_lt by (rewrite <- Hl; by eapply lookup_lt_Some). simpl.
        replace (row_at z p r full i) with row; [done|]. unfold row_at. by rewrite E.
      - apply lookup_ge_None in E. rewrite lookup_seq_ge by lia. done. }
    rewrite Heq. destruct (batch_groups rows p Hne) as (_ & _ & _ & _ & Hn). unfold n. by destruct (length rows); [lia|].
  - intros [i row] Hin. apply imap_pair_elem in Hin. assert (Hi : i < length mask).
    { rewrite Hlen. fold n. rewrite <- Hl. by eapply lookup_lt_Some. }
    rewrite (at_row 0%Z p r mask i Hi). cbn [mbind res_bind]. apply select_valid_ok.
    rewrite length_row_at by done. symmetry. by apply (Forall_lookup_1 _ _ _ _ Hf Hin).
Qed.
End batch.

(** ** Packed round trips *)

Lemma count_valid_app m1 m2 : count_valid (m1 ++ m2) = count_valid m1 + count_valid m2.
Proof. unfold count_valid. by rewrite filter_app, length_app. Qed.

Lemma sum_01 l : Forall (fun x => x = 0 \/ x = 1)%Z l -> Z.to_nat (sumZ l) = count_valid l.
Proof.
  intros H. assert (Hs : sumZ l = Z.of_nat (count_valid l)); [|lia].
  induction H as [|x l Hx Hl IH]; [done|]. unfold count_valid in *. rewrite filter_cons. simpl.
  destruct Hx as [-> | ->]; simpl; lia.
Qed.

Lemma find_prompt_groups_groups {A} `{EqDecision A} (rows : list (list A)) p r groups unique :
  rows <> [] -> find_prompt_groups rows (p + r) r = Ok (groups, unique) ->
  groups = first_seen_groups (take p <$> rows).
Proof.
  intros Hne H. destruct (find_prompt_groups_ok rows (p + r) r Hne) as (u & Hu & _).
  replace (p + r - r) with p in Hu by lia. rewrite Hu in H. by injection H as ->.
Qed.

(** C2: the deduplicated, packed batch that the trainer feeds to the model represents the
    original one.  For any batch of [p + r] columns and a mask of the same shape whose prompt
    part agrees within each prompt group, grouping with [find_prompt_groups] and building the
    batch with [create_deduplicated_batch] succeed; reconstructing the deduplicated ids gives
    exactly the valid tokens of every sample in order, which is also how the position ids are
    packed; and [cu_seqlens_packed] marks the boundaries of the samples' valid tokens. *)
Theorem dedup_batch_reconstructs {A} `{EqDecision A} (zero : A) rows pos mask p r groups unique :
  rows <> [] -> Forall (fun row => length row = p + r) rows ->
  length mask = length rows -> Forall (fun row => length row = p + r) mask ->
  length pos = length rows -> Forall (fun row => length row = p + r) pos ->
  find_prompt_groups rows (p + r) r = Ok (groups, unique) -> share_prompts mask p groups ->
  exists ids ppos packed info,
    create_deduplicated_batch zero rows pos (p + r) r groups (Some mask) true = Ok (ids, inr ppos, info) /\
    unpad_replicated_ids pos mask = Ok ppos /\
    unpad_replicated_ids rows mask = Ok packed /\
    reconstruct_sequences zero ids info = Ok (inr packed) /\
    cu_seqlens_packed info = cumulative 0 (count_valid <$> mask).
Proof.
  intros Hne Hrows Hlen Hmask Hplen Hpos Hf Hsh. apply find_prompt_groups_groups in Hf as ->; [|done].
  destruct (batch_groups rows p Hne) as (Hp & Hg & Hs & Hshr & Hn).
  pose proof (unpad_replicated_ok rows mask p r Hmask Hlen Hne zero pos Hplen Hpos) as Hupos.
  destruct (create_batch_ok zero rows mask p r Hrows Hmask Hlen Hne pos _ Hupos) as (info & Hc & Hi & Hm).
  do 3 eexists. exists info. split; [exact Hc|]. split; [exact Hupos|].
  rewrite (unpad_replicated_ok rows mask p r Hmask Hlen Hne zero rows eq_refl Hrows). split; [done|].
  unfold reconstruct_sequences. destruct Hi as (Hi1 & Hi2 & Hi3 & Hi4 & Hcu & Hu). rewrite Hu. split.
  - rewrite (reconstruct_packed_layout _ (length rows) p r (nprompt rows mask p r) (nresponse mask p r) info);
      try done; [|by apply length_vprompt|by apply length_vresponse].
    simpl. do 3 f_equal. apply list_fmap_ext. intros i s [-> Hsn]%lookup_seq. by apply sample_valid.
  - rewrite Hcu. f_equal. apply list_eq. intros i. rewrite !list_lookup_fmap.
    destruct (decide (i < length rows)) as [Hi|Hi].
    + rewrite lookup_seq_lt by done. simpl. destruct (lookup_lt_is_Some_2 mask i) as [row Hrow]; [lia|].
      rewrite Hrow. simpl. f_equal. unfold nprompt, nresponse.
      rewrite (full_prompt_shared 0%Z _ (length rows)) by done. unfold full_response, row_at. rewrite Hrow. simpl.
      by rewrite <- count_valid_app, take_drop.
    + rewrite lookup_seq_ge, lookup_ge_None_2 by lia. done.
Qed.

Lemma dedup_batch_reconstructs_witness :
  exists ids ppos packed info,
    create_deduplicated_batch 0%Z [[0; 7; 1]; [5; 6; 2]; [0; 7; 3]]%Z [[0; 0; 1]; [0; 1; 2]; [0; 0; 1]]%Z 3 1
      [[0; 2]; [1]] (Some [[0; 1; 1]; [1; 1; 1]; [0; 1; 0]]%Z) true = Ok (ids, inr ppos, info) /\
    unpad_replicated_ids [[0; 0; 1]; [0; 1; 2]; [0; 0; 1]]%Z [[0; 1; 1]; [1; 1; 1]; [0; 1; 0]]%Z = Ok ppos /\
    unpad_replicated_ids [[0; 7; 1]; [5; 6; 2]; [0; 7; 3]]%Z [[0; 1; 1]; [1; 1; 1]; [0; 1; 0]]%Z = Ok packed /\
    reconstruct_sequences 0%Z ids info = Ok (inr packed) /\
    cu_seqlens_packed info = cumulative 0 (count_valid <$> [[0; 1; 1]; [1; 1; 1]; [0; 1; 0]]%Z).
Proof.
  apply (dedup_batch_reconstructs 0%Z [[0; 7; 1]; [5; 6; 2]; [0; 7; 3]]%Z [[0; 0; 1]; [0; 1; 2]; [0; 0; 1]]%Z
           [[0; 1; 1]; [1; 1; 1]; [0; 1; 0]]%Z 2 1 [[0; 2]; [1]] [[0; 7]; [5; 6]]%Z).
  - discriminate.
  - repeat constructor.
  - reflexivity.
  - repeat constructor.
  - reflexivity.
  - repeat constructor.
  - vm_compute. reflexivity.
  - intros group s t Hg Hs Ht. repeat (apply elem_of_cons in Hg as [->|Hg]); [| |set_solver];
      repeat (apply elem_of_cons in Hs as [->|Hs]); try set_solver;
      repeat (apply elem_of_cons in Ht as [->|Ht]); try set_solver; reflexivity.
Defined.

Lemma create_batch_pos {A} (zero : A) rows pos w r groups mask ids ppos info :
  create_deduplicated_batch zero rows pos w r groups (Some mask) true = Ok (ids, inr ppos, info) ->
  unpad_replicated_ids pos mask = Ok ppos.
Proof.
  intros H. unfold create_deduplicated_batch in H. apply bind_Ok_inv in H as ([[i [dm|]] inf] & _ & H); [|done].
  apply bind_Ok_inv in H as ([ids' info'] & _ & H). apply bind_Ok_inv in H as (pp & Hpp & H).
  rewrite Hpp. by injection H as _ <- _.
Qed.

(** In the packed format, hidden states of any cell type survive the round trip through
    the full batch: for the metadata of [create_deduplicated_batch] on a 0/1 mask, every
    deduplicated sequence as long as the packed ids can be reconstructed, and
    deduplicating the result gives the sequence back, without an index or shape error. *)
Theorem dedup_packed_roundtrip {A} `{EqDecision A} {B} (zero : A) (z : B) rows pos mask p r groups unique ids ppos info :
  rows <> [] -> Forall (fun row => length row = p + r) rows ->
  length mask = length rows -> Forall (fun row => length row = p + r) mask ->
  Forall (Forall (fun x => x = 0 \/ x = 1)%Z) mask ->
  find_prompt_groups rows (p + r) r = Ok (groups, unique) -> share_prompts mask p groups ->
  create_deduplicated_batch zero rows pos (p + r) r groups (Some mask) true = Ok (ids, inr ppos, info) ->
  forall h : list B, length h = length ids ->
  exists full, reconstruct_sequences_packed h info = Ok full /\ deduplicate_sequences_packed z full info = Ok h.
Proof.
  intros Hne Hrows Hlen Hmask H01 Hf Hsh Hc h Hh. apply find_prompt_groups_groups in Hf as ->; [|done].
  destruct (batch_groups rows p Hne) as (Hp & Hg & Hs & _ & Hn).
  pose proof (create_batch_pos _ _ _ _ _ _ _ _ _ _ Hc) as Epos.
  destruct (create_batch_ok zero rows mask p r Hrows Hmask Hlen Hne pos ppos Epos) as (info' & Hc' & Hi & Hm).
  rewrite Hc' in Hc. injection Hc as <- <-. set (groups := first_seen_groups _) in *.
  assert (Hnd : NoDup (concat groups)) by (rewrite Hp; apply NoDup_seq).
  rewrite (length_layout _ _ (nprompt rows mask p r) (nresponse mask p r)) in Hh;
    [|by apply length_vprompt|by apply length_vresponse].
  destruct (split_layout z (nprompt rows mask p r) (nresponse mask p r) 0 groups h Hnd Hh) as (P & R & <- & HP & HR).
  rewrite (reconstruct_packed_layout _ (length rows) p r _ _ info' Hi Hp Hg Hs Hn P R HP HR).
  eexists. split; [done|].
  rewrite (dedup_packed_layout z groups (length rows) p r _ _ info' Hi Hp Hg Hs Hn mask
             (fun s => P (group_of groups s) ++ R s) Hm Hlen).
  - f_equal. apply layout_ext.
    + intros g Hgl. unfold packed_prompt. destruct (lookup_lt_is_Some_2 groups g) as [group Hgr]; [lia|].
      rewrite Hgr. rewrite Forall_lookup in Hg. specialize (Hg _ _ Hgr). destruct group as [|s0 group]; [done|].
      rewrite (group_of_spec groups g (s0 :: group)) by (done || set_solver). rewrite <- (HP g). apply take_app_length.
    + intros s _. unfold packed_response. rewrite <- HP. apply drop_app_length.
  - intros s row Hrow. unfold nprompt.
    assert (Hsn : s < length rows) by (rewrite <- Hlen; by eapply lookup_lt_Some).
    rewrite (full_prompt_shared 0%Z groups (length rows)) by done. unfold row_at. rewrite Hrow. simpl.
    rewrite Forall_lookup in H01. apply (sum_01 (take p row)). by apply Forall_take, (H01 s).
  - intros s. by rewrite length_app, HP, HR.
Qed.

Lemma dedup_packed_roundtrip_witness :
  match create_deduplicated_batch 0%Z [[0; 7; 1]; [5; 6; 2]; [0; 7; 3]]%Z [[0; 0; 1]; [0; 1; 2]; [0; 0; 1]]%Z 3 1
      [[0; 2]; [1]] (Some [[0; 1; 1]; [1; 1; 1]; [0; 1; 0]]%Z) true with
  | Ok (ids, inr ppos, info) =>
      forall h : list string, length h = length ids ->
      exists full, reconstruct_sequences_packed h info = Ok full /\
        deduplicate_sequences_packed EmptyString full info = Ok h
  | _ => False
  end.
Proof.
  destruct (create_deduplicated_batch 0%Z [[0; 7; 1]; [5; 6; 2]; [0; 7; 3]]%Z
      [[0; 0; 1]; [0; 1; 2]; [0; 0; 1]]%Z 3 1
      [[0; 2]; [1]] (Some [[0; 1; 1]; [1; 1; 1]; [0; 1; 0]]%Z) true) as [[[ids [rows|ppos]] info]|e] eqn:E;
    [vm_compute in E; discriminate E| |vm_compute in E; discriminate E].
  apply (dedup_packed_roundtrip 0%Z EmptyString [[0; 7; 1]; [5; 6; 2]; [0; 7; 3]]%Z
           [[0; 0; 1]; [0; 1; 2]; [0; 0; 1]]%Z [[0; 1; 1]; [1; 1; 1]; [0; 1; 0]]%Z 2 1
           [[0; 2]; [1]] [[0; 7]; [5; 6]]%Z ids ppos info).
  - discriminate.
  - repeat constructor.
  - reflexivity.
  - repeat constructor.
  - repeat constructor; (left; reflexivity) || (right; reflexivity).
  - vm_compute. reflexivity.
  - intros group s t Hg Hs Ht. repeat (apply elem_of_cons in Hg as [->|Hg]); [| |set_solver];
      repeat (apply elem_of_cons in Hs as [->|Hs]); try set_solver;
      repeat (apply elem_of_cons in Ht as [->|Ht]); try set_solver; reflexivity.
  - exact E.
Defined.
