(* ===== verification/Slots.v ===== *)
(** * The buddy allocator of fractional GPU slots

    Source: [src/arctic_platform/inference/semi_persistence/slots.py].

    The class-level state of [Slots] is the record [slots_state]; every class method is one
    function on it.  [Slots.allocate] blocks on a condition variable: its body is the pair
    [allocate_enter] (queue a [_Waiter]) and [allocate_poll] (one turn of the [while True]
    loop), and [slots_step] interleaves the turns of all blocked threads with the other
    methods, each of which runs under the lock.  [time.perf_counter()] is the argument [now].

    The abstract view is a binary tree of regions per GPU: [within] is containment of the
    regions two slots denote.  The invariant says that the free and the live slots tile every
    GPU, and that two buddies are never both free. *)

From stdpp Require Import prelude gmap strings list sorting.
From Stdlib Require Import ZArith Lia ZifyNat ZifyBool.
From S2P Require Import Prelude.

(** ** Data *)

Record slot := Slot { gpu_id : Z; level : nat; index : nat }.

#[export] Instance slot_eq_dec : EqDecision slot.
Proof. solve_decision. Defined.
#[export] Instance slot_countable : Countable slot.
Proof.
  refine (inj_countable' (fun s => (gpu_id s, level s, index s))
            (fun t => Slot t.1.1 t.1.2 t.2) _); by intros [].
Defined.

(** [_Waiter]; [w_id] stands for the identity of the object, which is all that
    [self._waiters[0] is me] inspects. *)
Record waiter := Waiter { w_id : nat; w_level : nat; w_gpu : option Z }.

Definition buddy_index (i : nat) : nat := Nat.lxor i 1.

Definition split (s : slot) : slot * slot :=
  (Slot (gpu_id s) (level s + 1) (2 * index s), Slot (gpu_id s) (level s + 1) (2 * index s + 1)).

Definition parent (s : slot) : slot := Slot (gpu_id s) (level s - 1) (index s / 2).

Notation pools := (gmap (Z * nat) (list slot)).

Record slots_state := SlotsState {
  st_pools : pools;
  st_live : gset slot;
  st_last_used : gmap Z Z;
  st_waiters : list waiter;
  st_draining : gset Z;
  st_inited : bool;
}.

(** The class attributes as the module defines them. *)
Definition slots_initial : slots_state := SlotsState ∅ ∅ ∅ [] ∅ false.

(** [_pools.get(k)]: a missing pool and an empty one are both falsy. *)
Definition pool_at (p : pools) (k : Z * nat) : list slot := default [] (p !! k).

(** [_pools.setdefault(k, deque()).append(s)]. *)
Definition pool_append (k : Z * nat) (s : slot) (p : pools) : pools :=
  <[k := pool_at p k ++ [s]]> p.

(** [pool.remove(x)]: the first occurrence goes. *)
Fixpoint pool_remove (x : slot) (l : list slot) : list slot :=
  match l with
  | [] => []
  | y :: l => if decide (x = y) then l else y :: pool_remove x l
  end.

(** ** Lifecycle *)

Definition root (g : Z) : slot := Slot g 1 0.

Definition slots_init (gpu_ids : list Z) (st : slots_state) : res slots_state :=
  check (negb (st_inited st)) (AssertionError "Slots already initialised");;
  let '(p, lu) := fold_left (fun acc g => (<[(g, 1) := [root g]]> acc.1, <[g := 0%Z]> acc.2))
                    gpu_ids (∅, ∅) in
  Ok (SlotsState p ∅ lu [] ∅ true).

(** The message of [assert not l, f"{sorted(l)}"] is only computed when the assertion fails;
    [Slot] defines no order, so that sorting two or more slots raises [TypeError]. *)
Definition assert_no_slots (l : list slot) (msg : string) : res unit :=
  match l with
  | [] => Ok ()
  | [_] => Raise (AssertionError msg)
  | _ => Raise (TypeError "'<' not supported between instances of 'Slot'")
  end.

Definition root_whole (p : pools) (g : Z) : bool := length (pool_at p (g, 1)) =? 1.

Definition slots_remove (st : slots_state) : res slots_state :=
  check (st_inited st) (AssertionError "Slots not initialised");;
  assert_no_slots (elements (st_live st)) "leaked slots";;
  check (forallb (root_whole (st_pools st)) (map_to_list (st_last_used st)).*1)
        (AssertionError "root pool not whole");;
  check (forallb (fun kl : (Z * nat) * list slot => (kl.1.2 =? 1) || (length kl.2 =? 0))
                 (map_to_list (st_pools st)))
        (AssertionError "non-empty pool");;
  Ok (SlotsState ∅ ∅ ∅ [] ∅ false).

Definition slots_add (gpu : Z) (st : slots_state) : res (bool * slots_state) :=
  check (st_inited st) (AssertionError "Slots not initialised");;
  if bool_decide (is_Some (st_last_used st !! gpu)) then Ok (false, st)
  else Ok (true, SlotsState (<[(gpu, 1) := [root gpu]]> (st_pools st)) (st_live st)
                   (<[gpu := 0%Z]> (st_last_used st)) (st_waiters st)
                   (st_draining st ∖ {[gpu]}) true).

Definition slots_pop (gpu : Z) (st : slots_state) : res slots_state :=
  check (st_inited st) (AssertionError "Slots not initialised");;
  assert_no_slots (filter (fun s => gpu_id s = gpu) (elements (st_live st))) "GPU still has live slots";;
  check (root_whole (st_pools st) gpu) (AssertionError "root pool not whole");;
  check (forallb (fun kl : (Z * nat) * list slot =>
                    negb (Z.eqb kl.1.1 gpu) || (kl.1.2 =? 1) || (length kl.2 =? 0))
                 (map_to_list (st_pools st)))
        (AssertionError "non-empty pool");;
  Ok (SlotsState (filter (fun kl : (Z * nat) * list slot => kl.1.1 <> gpu) (st_pools st)) (st_live st)
        (delete gpu (st_last_used st)) (st_waiters st) (st_draining st ∖ {[gpu]}) true).

(** ** The allocation core *)

(** [while s.level < level: a, b = _split(s); pools[(gpu, b.level)].append(b); s = a]. *)
Fixpoint split_down (fuel : nat) (gpu : Z) (lvl : nat) (s : slot) (p : pools) : slot * pools :=
  match fuel with
  | O => (s, p)
  | S fuel =>
      if level s <? lvl then
        let '(a, b) := split s in split_down fuel gpu lvl a (pool_append (gpu, level b) b p)
      else (s, p)
  end.

(** The loop [for L in range(level, 0, -1)], with [L] counting down. *)
Fixpoint pop_free_from (L : nat) (gpu : Z) (lvl : nat) (p : pools) : option (slot * pools) :=
  match L with
  | O => None
  | S L' =>
      match pool_at p (gpu, L) with
      | s :: rest => Some (split_down lvl gpu lvl s (<[(gpu, L) := rest]> p))
      | [] => pop_free_from L' gpu lvl p
      end
  end.

Definition pop_free_in_subtree (gpu : Z) (lvl : nat) (p : pools) : option (slot * pools) :=
  pop_free_from lvl gpu lvl p.

(** [sorted(_last_used, key=lambda g: (_last_used[g], g))]: coldest GPU first. *)
Definition coldest_first (lu : gmap Z Z) : list Z :=
  (py_sorted (by_key (fun gt => (gt.2, gt.1)) (lex_pair Z.ltb Z.ltb)) (map_to_list lu)).*1.

Fixpoint try_gpus (gs : list Z) (draining : gset Z) (lvl : nat) (p : pools) : option (slot * pools) :=
  match gs with
  | [] => None
  | g :: gs =>
      if bool_decide (g ∈ draining) then try_gpus gs draining lvl p
      else match pop_free_in_subtree g lvl p with
           | Some r => Some r
           | None => try_gpus gs draining lvl p
           end
  end.

(** [Slots._try_allocate]. *)
Definition try_allocate_core (lvl : nat) (gpu : option Z) (st : slots_state) : option (slot * pools) :=
  match gpu with
  | Some g => if bool_decide (g ∈ st_draining st) then None else pop_free_in_subtree g lvl (st_pools st)
  | None => try_gpus (coldest_first (st_last_used st)) (st_draining st) lvl (st_pools st)
  end.

Definition set_allocated (s : slot) (p : pools) (st : slots_state) : slots_state :=
  SlotsState p ({[s]} ∪ st_live st) (st_last_used st) (st_waiters st) (st_draining st) (st_inited st).

Definition set_waiters (ws : list waiter) (st : slots_state) : slots_state :=
  SlotsState (st_pools st) (st_live st) (st_last_used st) ws (st_draining st) (st_inited st).

(** The entry of [Slots.allocate]: the guards and [_waiters.append(me)]. *)
Definition allocate_enter (me : waiter) (st : slots_state) : res slots_state :=
  check (1 <=? w_level me) (AssertionError "level");;
  check (st_inited st) (AssertionError "Slots not initialised");;
  Ok (set_waiters (st_waiters st ++ [me]) st).

(** One turn of the [while True] loop of [Slots.allocate]: [Some s] is [return s], [None] the
    call of [_cv.wait()]. *)
Definition allocate_poll (me : waiter) (st : slots_state) : res (option slot * slots_state) :=
  h ← at_index (st_waiters st) 0;
  if w_id h =? w_id me then
    match try_allocate_core (w_level me) (w_gpu me) st with
    | Some (s, p) => Ok (Some s, set_waiters (tail (st_waiters st)) (set_allocated s p st))
    | None => Ok (None, st)
    end
  else Ok (None, st).

Definition slots_try_allocate (lvl : nat) (gpu : option Z) (st : slots_state) : res (option slot * slots_state) :=
  check (1 <=? lvl) (AssertionError "level");;
  check (st_inited st) (AssertionError "Slots not initialised");;
  match try_allocate_core lvl gpu st with
  | Some (s, p) => Ok (Some s, set_allocated s p st)
  | None => Ok (None, st)
  end.

(** The coalescing loop of [Slots.deallocate]. *)
Fixpoint coalesce (fuel : nat) (s : slot) (p : pools) : slot * pools :=
  match fuel with
  | O => (s, p)
  | S fuel =>
      if 1 <? level s then
        let k := (gpu_id s, level s) in
        match pool_at p k with
        | [] => (s, p)
        | pool =>
            match list_find (fun x => index x = buddy_index (index s)) pool with
            | None => (s, p)
            | Some (_, buddy) => coalesce fuel (parent s) (<[k := pool_remove buddy pool]> p)
            end
        end
      else (s, p)
  end.

Definition slots_deallocate (s : slot) (now : Z) (st : slots_state) : res slots_state :=
  check (st_inited st) (AssertionError "Slots not initialised");;
  check (bool_decide (s ∈ st_live st)) (AssertionError "unknown slot");;
  let '(t, p) := coalesce (level s) s (st_pools st) in
  Ok (SlotsState (pool_append (gpu_id t, level t) t p) (st_live st ∖ {[s]})
        (if level t =? 1 then <[gpu_id t := now]> (st_last_used st) else st_last_used st)
        (st_waiters st) (st_draining st) (st_inited st)).

(** ** Interleavings

    [sys_entered] and [sys_granted] record the order in which calls of [allocate] since the
    last [init] or [remove] queued their waiter and returned. *)

Record slots_sys := SlotsSys {
  sys_st : slots_state;
  sys_blocked : list waiter;
  sys_entered : list nat;
  sys_granted : list nat;
}.

Inductive slots_step : slots_sys -> slots_sys -> Prop :=
  | step_init gs st bl en gr st' :
      slots_init gs st = Ok st' -> slots_step (SlotsSys st bl en gr) (SlotsSys st' bl [] [])
  | step_remove st bl en gr st' :
      slots_remove st = Ok st' -> slots_step (SlotsSys st bl en gr) (SlotsSys st' bl [] [])
  | step_add g st bl en gr b st' :
      slots_add g st = Ok (b, st') -> slots_step (SlotsSys st bl en gr) (SlotsSys st' bl en gr)
  | step_pop g st bl en gr st' :
      slots_pop g st = Ok st' -> slots_step (SlotsSys st bl en gr) (SlotsSys st' bl en gr)
  | step_drain D st bl en gr :
      slots_step (SlotsSys st bl en gr)
        (SlotsSys (SlotsState (st_pools st) (st_live st) (st_last_used st) (st_waiters st) D (st_inited st))
           bl en gr)
  | step_try_allocate lvl gpu st bl en gr o st' :
      slots_try_allocate lvl gpu st = Ok (o, st') ->
      slots_step (SlotsSys st bl en gr) (SlotsSys st' bl en gr)
  | step_deallocate s now st bl en gr st' :
      slots_deallocate s now st = Ok st' -> slots_step (SlotsSys st bl en gr) (SlotsSys st' bl en gr)
  | step_allocate_returns me s st bl en gr st1 st2 :
      w_id me ∉ w_id <$> (st_waiters st ++ bl) ->
      allocate_enter me st = Ok st1 -> allocate_poll me st1 = Ok (Some s, st2) ->
      slots_step (SlotsSys st bl en gr) (SlotsSys st2 bl (en ++ [w_id me]) (gr ++ [w_id me]))
  | step_allocate_blocks me st bl en gr st1 st2 :
      w_id me ∉ w_id <$> (st_waiters st ++ bl) ->
      allocate_enter me st = Ok st1 -> allocate_poll me st1 = Ok (None, st2) ->
      slots_step (SlotsSys st bl en gr) (SlotsSys st2 (bl ++ [me]) (en ++ [w_id me]) gr)
  | step_wake_returns me s st bl1 bl2 en gr st' :
      allocate_poll me st = Ok (Some s, st') ->
      slots_step (SlotsSys st (bl1 ++ me :: bl2) en gr) (SlotsSys st' (bl1 ++ bl2) en (gr ++ [w_id me]))
  | step_wake_blocks me st bl1 bl2 en gr st' :
      allocate_poll me st = Ok (None, st') ->
      slots_step (SlotsSys st (bl1 ++ me :: bl2) en gr) (SlotsSys st' (bl1 ++ me :: bl2) en gr)
  | step_wake_raises me e st bl1 bl2 en gr :
      allocate_poll me st = Raise e ->
      slots_step (SlotsSys st (bl1 ++ me :: bl2) en gr) (SlotsSys st (bl1 ++ bl2) en gr).

Definition slots_reachable (y : slots_sys) : Prop :=
  rtc slots_step (SlotsSys slots_initial [] [] []) y.

Example slots_smoke :
  match slots_init [0%Z; 1%Z] slots_initial with
  | Ok st => match slots_try_allocate 3 None st with
             | Ok (Some s, st1) => match slots_deallocate s 5 st1 with
                                   | Ok st2 => bool_decide (s = Slot 0 3 0) && is_ok (slots_remove st2)
                                               && negb (is_ok (slots_remove st1))
                                   | _ => false end
             | _ => false end
  | _ => false end = true.
Proof. vm_compute. reflexivity. Qed.

(** ** Regions *)

(** The region of [t] lies inside the region of [s]. *)
Definition within (t s : slot) : Prop :=
  gpu_id t = gpu_id s /\ level s <= level t /\ index t / 2 ^ (level t - level s) = index s.

Definition overlap (s t : slot) : Prop := within s t \/ within t s.

(** A slot of the tree: level [L] has [2^(L-1)] slots. *)
Definition wf_slot (s : slot) : Prop := 1 <= level s /\ index s < 2 ^ (level s - 1).

Definition buddy (s : slot) : slot := Slot (gpu_id s) (level s) (buddy_index (index s)).

#[export] Instance within_dec t s : Decision (within t s).
Proof. unfold within. apply _. Defined.
#[export] Instance overlap_dec t s : Decision (overlap t s).
Proof. unfold overlap. apply _. Defined.

Lemma within_refl s : within s s.
Proof. split; [done|]. split; [done|]. by rewrite Nat.sub_diag, Nat.div_1_r. Qed.

Lemma overlap_refl s : overlap s s.
Proof. left. apply within_refl. Qed.

Lemma overlap_sym s t : overlap s t -> overlap t s.
Proof. unfold overlap. tauto. Qed.

Lemma div_pow2_add i a b : i / 2 ^ a / 2 ^ b = i / 2 ^ (a + b).
Proof. by rewrite Nat.Div0.div_div, Nat.pow_add_r. Qed.

Lemma within_trans s t u : within s t -> within t u -> within s u.
Proof.
  intros (Hg & Hl & Hi) (Hg' & Hl' & Hi'). split; [congruence|]. split; [lia|].
  rewrite <- Hi', <- Hi, div_pow2_add. do 2 f_equal. lia.
Qed.

(** Two regions that contain a common region are nested. *)
Lemma within_comparable s t u : within s t -> within s u -> overlap t u.
Proof.
  intros (Hg & Hl & Hi) (Hg' & Hl' & Hi').
  destruct (decide (level t <= level u)) as [Hle|Hle].
  - right. split; [congruence|]. split; [done|].
    rewrite <- Hi, <- Hi', div_pow2_add. do 2 f_equal. lia.
  - left. split; [congruence|]. split; [lia|].
    rewrite <- Hi, <- Hi', div_pow2_add. do 2 f_equal. lia.
Qed.

Lemma within_same_level s t : within s t -> level s = level t -> s = t.
Proof.
  intros (Hg & Hl & Hi) Heq. rewrite Heq, Nat.sub_diag, Nat.div_1_r in Hi.
  destruct s, t; simpl in *; congruence.
Qed.

Lemma overlap_within c s t : within s t -> overlap c s -> overlap c t.
Proof.
  intros Hst [Hcs|Hsc].
  - left. by eapply within_trans.
  - by eapply within_comparable.
Qed.

Lemma split_within_l s : within (split s).1 s.
Proof.
  split; [done|]. split; simpl; [lia|].
  replace (level s + 1 - level s) with 1 by lia. change (2 ^ 1) with 2. lia.
Qed.

Lemma split_within_r s : within (split s).2 s.
Proof.
  split; [done|]. split; simpl; [lia|].
  replace (level s + 1 - level s) with 1 by lia. change (2 ^ 1) with 2. lia.
Qed.

Lemma split_disjoint s : ~ overlap (split s).1 (split s).2.
Proof.
  intros [H|H]; apply within_same_level in H; try done; injection H; lia.
Qed.

(** A region that is strictly inside [s] is inside one half of [s]. *)
Lemma within_split c s :
  within c s -> level s < level c -> within c (split s).1 \/ within c (split s).2.
Proof.
  intros (Hg & Hl & Hi) Hlt.
  assert (Hk : index c / 2 ^ (level c - (level s + 1)) / 2 = index s).
  { rewrite <- Hi. rewrite (div_pow2_add _ _ 1). do 2 f_equal. lia. }
  pose proof (Nat.div_mod_eq (index c / 2 ^ (level c - (level s + 1))) 2) as Hm.
  pose proof (Nat.mod_upper_bound (index c / 2 ^ (level c - (level s + 1))) 2 ltac:(lia)).
  destruct (decide ((index c / 2 ^ (level c - (level s + 1))) mod 2 = 0)).
  - left. split; [done|]. simpl. lia.
  - right. split; [done|]. simpl. lia.
Qed.

Lemma overlap_split c s : overlap c s -> overlap c (split s).1 \/ overlap c (split s).2.
Proof.
  intros [H|H].
  - destruct (decide (level s < level c)).
    + destruct (within_split _ _ H) as [?|?]; [done|left; by left|right; by left].
    + assert (c = s) as -> by (apply within_same_level; [done|]; destruct H as (_&?&_); lia).
      left. right. apply split_within_l.
  - left. right. eapply within_trans; [apply split_within_l|done].
Qed.

Lemma buddy_index_cases i : exists q, (i = 2 * q /\ buddy_index i = 2 * q + 1)
  \/ (i = 2 * q + 1 /\ buddy_index i = 2 * q).
Proof.
  exists (i / 2). unfold buddy_index.
  pose proof (Nat.div_mod_eq i 2). pose proof (Nat.mod_upper_bound i 2 ltac:(lia)).
  assert (Hb : forall q, Nat.lxor (2 * q) 1 = 2 * q + 1 /\ Nat.lxor (2 * q + 1) 1 = 2 * q).
  { intros q. assert (E : forall b, Nat.testbit (2 * q) b = Nat.testbit (2 * q) b) by done.
    split; apply Nat.bits_inj; intros [|n]; rewrite Nat.lxor_spec;
      rewrite ?Nat.testbit_even_0, ?Nat.testbit_odd_0, ?Nat.testbit_even_succ',
        ?Nat.testbit_odd_succ', ?Nat.testbit_even_succ, ?Nat.testbit_odd_succ by lia;
      simpl; rewrite ?Nat.bits_0, ?xorb_false_r; done. }
  destruct (Hb (i / 2)) as [H1 H2].
  destruct (decide (i mod 2 = 0)).
  - left. replace i with (2 * (i / 2)) at 3 by lia. lia.
  - right. replace i with (2 * (i / 2) + 1) at 3 by lia. lia.
Qed.

(** Above level 1, a slot and its buddy are the two halves of the parent. *)
Lemma parent_split s :
  1 < level s ->
  (split (parent s) = (s, buddy s) \/ split (parent s) = (buddy s, s)).
Proof.
  intros Hl. destruct s as [g l i]. unfold split, parent, buddy. cbn [gpu_id level index] in *.
  replace (l - 1 + 1) with l by lia.
  destruct (buddy_index_cases i) as [q [[-> ->]|[-> ->]]].
  - left. replace (2 * q / 2) with q by lia. done.
  - right. replace ((2 * q + 1) / 2) with q by lia. done.
Qed.

Lemma pow2_pred l : 1 < l -> 2 ^ (l - 1) = 2 * 2 ^ (l - 2).
Proof. intros H. replace (l - 1) with (S (l - 2)) by lia. apply Nat.pow_succ_r'. Qed.

Lemma split_wf s : wf_slot s -> wf_slot (split s).1 /\ wf_slot (split s).2.
Proof.
  intros [H1 H2]. unfold wf_slot. cbn [split fst snd level index].
  rewrite (pow2_pred (level s + 1)) by lia. replace (level s + 1 - 2) with (level s - 1) by lia. lia.
Qed.

Lemma parent_wf s : wf_slot s -> 1 < level s -> wf_slot (parent s).
Proof.
  intros [H1 H2] Hl. unfold wf_slot. cbn [parent level index].
  rewrite pow2_pred in H2 by lia. replace (level s - 1 - 1) with (level s - 2) by lia. lia.
Qed.

Lemma wf_within_root s : wf_slot s -> within s (root (gpu_id s)).
Proof. intros [H1 H2]. split; [done|]. split; [done|]. simpl. by apply Nat.div_small. Qed.

Lemma wf_level1 s : wf_slot s -> level s = 1 -> s = root (gpu_id s).
Proof. intros H Hl. apply within_same_level; [by apply wf_within_root|done]. Qed.

(** ** Tilings

    The slots [l] tile the GPUs [G]: they are slots of [G], no two of them overlap, and every
    region of [G] meets one of them. *)

Fixpoint no_overlap (l : list slot) : Prop :=
  match l with [] => True | s :: l => Forall (fun t => ~ overlap s t) l /\ no_overlap l end.

Record tiling (G : gset Z) (l : list slot) : Prop := {
  tiling_wf : Forall (fun s => wf_slot s /\ gpu_id s ∈ G) l;
  tiling_disjoint : no_overlap l;
  tiling_cover : forall c, wf_slot c -> gpu_id c ∈ G -> Exists (overlap c) l;
}.

#[export] Instance no_overlap_perm : Proper (Permutation ==> iff) no_overlap.
Proof.
  assert (Himp : forall l k, l ≡ₚ k -> no_overlap l -> no_overlap k).
  { induction 1 as [|s l k Hlk IH|s t l|]; simpl; [done|..].
    - intros [H1 H2]. split; [by rewrite <- Hlk|auto].
    - rewrite !Forall_cons. intros [[H1 H2] [H3 H4]]. repeat split; try done.
    - auto. }
  intros l k Hlk. split; by apply Himp.
Qed.

#[export] Instance tiling_perm G : Proper (Permutation ==> iff) (tiling G).
Proof.
  assert (Himp : forall l k, l ≡ₚ k -> tiling G l -> tiling G k).
  { intros l k Hlk [H1 H2 H3]. split.
    - by rewrite <- Hlk.
    - by rewrite <- Hlk.
    - intros c Hc Hg. specialize (H3 c Hc Hg). rewrite Exists_exists in *.
      destruct H3 as (x & Hx & ?). exists x. by rewrite <- Hlk. }
  intros l k Hlk. split; by apply Himp.
Qed.

Lemma no_overlap_elem l s t : no_overlap l -> s ∈ l -> t ∈ l -> overlap s t -> s = t.
Proof.
  induction l as [|u l IH]; simpl; [set_solver|]. rewrite Forall_forall.
  intros [H1 H2] [->|Hs]%elem_of_cons [->|Ht]%elem_of_cons Ho; [done|..].
  - by destruct (H1 t Ht).
  - by destruct (H1 s Hs (overlap_sym _ _ Ho)).
  - auto.
Qed.

Lemma no_overlap_NoDup l : no_overlap l -> NoDup l.
Proof.
  induction l as [|s l IH]; simpl; [constructor|]. rewrite Forall_forall.
  intros [H1 H2]. constructor; [|auto]. intros Hin. apply (H1 s Hin), overlap_refl.
Qed.

Lemma tiling_split G s l : tiling G (s :: l) -> tiling G ((split s).1 :: (split s).2 :: l).
Proof.
  intros [Hwf [Hd1 Hd2] Hc]. apply Forall_cons in Hwf as [[Hs Hg] Hwf].
  destruct (split_wf s Hs) as [Ha Hb]. split.
  - constructor; [done|]. by constructor.
  - simpl. split.
    + constructor; [apply split_disjoint|]. eapply Forall_impl; [exact Hd1|].
      intros t Ht Ho. apply Ht, overlap_sym. eapply overlap_within; [apply split_within_l|].
      by apply overlap_sym.
    + split; [|done]. eapply Forall_impl; [exact Hd1|].
      intros t Ht Ho. apply Ht, overlap_sym. eapply overlap_within; [apply split_within_r|].
      by apply overlap_sym.
  - intros c Hcw Hcg. destruct (proj1 (Exists_cons _ _ _) (Hc c Hcw Hcg)) as [Ho|Ho].
    + destruct (overlap_split _ _ Ho); auto.
    + auto.
Qed.

Lemma tiling_merge G s l :
  wf_slot s -> tiling G ((split s).1 :: (split s).2 :: l) -> tiling G (s :: l).
Proof.
  intros Hs [Hwf [Hd1 [Hd2 Hd3]] Hc].
  apply Forall_cons in Hwf as [[_ Hg] Hwf]. apply Forall_cons in Hwf as [_ Hwf].
  apply Forall_cons in Hd1 as [_ Hd1]. split.
  - by constructor.
  - split; [|done]. rewrite Forall_forall in *. intros t Ht Ho%overlap_sym.
    destruct (overlap_split _ _ Ho) as [Ho'|Ho']; apply overlap_sym in Ho'.
    + by apply (Hd1 t Ht).
    + by apply (Hd2 t Ht).
  - intros c Hcw Hcg. destruct (proj1 (Exists_cons _ _ _) (Hc c Hcw Hcg)) as [Ho|Ho].
    + left. eapply overlap_within; [apply split_within_l|done].
    + destruct (proj1 (Exists_cons _ _ _) Ho) as [Ho'|Ho'].
      * left. eapply overlap_within; [apply split_within_r|done].
      * by right.
Qed.

Lemma tiling_merge_buddies G s l :
  wf_slot s -> 1 < level s -> tiling G (s :: buddy s :: l) -> tiling G (parent s :: l).
Proof.
  intros Hs Hl Ht. apply tiling_merge; [by apply parent_wf|].
  destruct (parent_split s Hl) as [-> | ->]; [done|]. by rewrite Permutation_swap.
Qed.

(** ** The free lists as one list *)

Definition all_free (p : pools) : list slot := concat (map_to_list p).*2.

Definition pools_keyed (p : pools) : Prop :=
  map_Forall (fun k l => Forall (fun s => (gpu_id s, level s) = k) l) p.

Lemma all_free_insert p k l : all_free (<[k := l]> p) ≡ₚ l ++ all_free (delete k p).
Proof.
  unfold all_free. rewrite <- insert_delete_eq, map_to_list_insert by apply lookup_delete_eq. done.
Qed.

Lemma all_free_pool p k : all_free p ≡ₚ pool_at p k ++ all_free (delete k p).
Proof.
  unfold pool_at. destruct (p !! k) as [l|] eqn:E; simpl.
  - rewrite <- all_free_insert. by rewrite insert_id.
  - by rewrite delete_id.
Qed.

Lemma all_free_append p k s : all_free (pool_append k s p) ≡ₚ s :: all_free p.
Proof.
  unfold pool_append. rewrite all_free_insert, (all_free_pool p k), <- app_assoc. simpl.
  by rewrite Permutation_middle.
Qed.

Lemma all_free_popleft p k s l : pool_at p k = s :: l -> all_free p ≡ₚ s :: all_free (<[k := l]> p).
Proof. intros H. by rewrite all_free_insert, (all_free_pool p k), H. Qed.

Lemma pool_remove_perm x l : x ∈ l -> l ≡ₚ x :: pool_remove x l.
Proof.
  induction l as [|y l IH]; simpl; [set_solver|]. intros [->|Hx]%elem_of_cons.
  - by rewrite decide_True.
  - case_decide; [by subst|]. rewrite (IH Hx) at 1. by constructor.
Qed.

Lemma all_free_remove p k x :
  x ∈ pool_at p k -> all_free p ≡ₚ x :: all_free (<[k := pool_remove x (pool_at p k)]> p).
Proof.
  intros H. rewrite all_free_insert, (all_free_pool p k) at 1.
  by rewrite (pool_remove_perm x _ H) at 1.
Qed.

Lemma pools_keyed_at p k s : pools_keyed p -> s ∈ pool_at p k -> (gpu_id s, level s) = k.
Proof.
  intros Hp. unfold pool_at. destruct (p !! k) as [l|] eqn:E; simpl; [|set_solver].
  specialize (Hp k l E). rewrite Forall_forall in Hp. auto.
Qed.

Lemma pools_keyed_insert p k l :
  pools_keyed p -> Forall (fun s => (gpu_id s, level s) = k) l -> pools_keyed (<[k := l]> p).
Proof. intros Hp Hl. by apply map_Forall_insert_2. Qed.

Lemma pools_keyed_pool p k : pools_keyed p -> Forall (fun s => (gpu_id s, level s) = k) (pool_at p k).
Proof. intros Hp. rewrite Forall_forall. intros s. by apply pools_keyed_at. Qed.

Lemma pools_keyed_append p k s :
  pools_keyed p -> (gpu_id s, level s) = k -> pools_keyed (pool_append k s p).
Proof.
  intros Hp Hs. apply pools_keyed_insert; [done|]. apply Forall_app. split; [|by repeat constructor].
  by apply pools_keyed_pool.
Qed.

Lemma elem_of_all_free p s : pools_keyed p -> s ∈ all_free p <-> s ∈ pool_at p (gpu_id s, level s).
Proof.
  intros Hp. split.
  - unfold all_free. intros (l & Hs & Hl)%list_elem_of_In%in_concat.
    apply list_elem_of_In in Hl, Hs. apply list_elem_of_fmap in Hs as ([k l'] & -> & Hkl).
    apply elem_of_map_to_list in Hkl. pose proof (Hp k l' Hkl) as Hk. rewrite Forall_forall in Hk.
    simpl in *. rewrite (Hk s Hl). unfold pool_at. by rewrite Hkl.
  - intros H. rewrite (all_free_pool p (gpu_id s, level s)). set_solver.
Qed.

(** ** The invariant *)

Definition no_free_buddies (p : pools) : Prop :=
  forall s, s ∈ all_free p -> 1 < level s -> buddy s ∉ all_free p.

Definition owned (st : slots_state) : list slot := all_free (st_pools st) ++ elements (st_live st).

Record slots_inv (st : slots_state) : Prop := {
  inv_keyed : pools_keyed (st_pools st);
  inv_tiling : tiling (dom (st_last_used st)) (owned st);
  inv_buddies : no_free_buddies (st_pools st);
  inv_off : st_inited st = false -> st_last_used st = ∅;
}.

Lemma slots_inv_initial : slots_inv slots_initial.
Proof.
  split; simpl; [apply map_Forall_empty| |intros s; set_solver|done].
  split; simpl; [constructor|done|]. intros c _ Hc. set_solver.
Qed.

(** The loop that splits a slot down to the requested level: [X] are the slots it does not
    touch. *)
Lemma split_down_ok fuel gpu lvl s p G X :
  lvl - level s <= fuel -> level s <= lvl -> gpu_id s = gpu ->
  pools_keyed p -> no_free_buddies p -> tiling G (s :: all_free p ++ X) ->
  (forall L, level s < L <= lvl -> pool_at p (gpu, L) = []) ->
  let '(s', p') := split_down fuel gpu lvl s p in
  within s' s /\ level s' = lvl /\ pools_keyed p' /\ no_free_buddies p' /\
  tiling G (s' :: all_free p' ++ X).
Proof.
  revert s p; induction fuel as [|fuel IH]; intros s p Hf Hle Hg Hk Hb Ht Hempty; cbn [split_down].
  { split; [apply within_refl|]. split; [lia|done]. }
  destruct (level s <? lvl) eqn:E; [|split; [apply within_refl|]; split; [lia|done]].
  apply tiling_split in Ht. cbn [split fst snd] in *.
  set (a := Slot (gpu_id s) (level s + 1) (2 * index s)) in *.
  set (b := Slot (gpu_id s) (level s + 1) (2 * index s + 1)) in *.
  assert (Hb' : pools_keyed (pool_append (gpu, level b) b p)).
  { apply pools_keyed_append; [done|]. simpl. congruence. }
  specialize (IH a (pool_append (gpu, level b) b p)).
  change (level s + 1) with (level b). destruct (split_down _ _ _ a _) as [s' p'].
  destruct IH as (Hw & Hrest); try done; try (simpl; lia).
  - intros x. rewrite all_free_append. intros Hx Hlx Hbx.
    assert (Hno : forall y, gpu_id y = gpu -> level y = level s + 1 -> y ∉ all_free p).
    { intros y Hy1 Hy2. rewrite elem_of_all_free by done. rewrite Hy1, Hy2, Hempty by lia. set_solver. }
    apply elem_of_cons in Hx as [->|Hx]; apply elem_of_cons in Hbx as [Hbx|Hbx].
    + unfold buddy in Hbx. injection Hbx as Hbx.
      destruct (buddy_index_cases (index b)) as [q Hq]. simpl in *. lia.
    + by apply (Hno (buddy b)).
    + apply (Hno x); [|..|done]; apply (f_equal gpu_id) in Hbx as H1; apply (f_equal level) in Hbx as H2;
        simpl in *; congruence.
    + by apply (Hb x Hx Hlx).
  - rewrite all_free_append. done.
  - intros L HL. simpl in HL. unfold pool_append, pool_at. rewrite lookup_insert_ne by (intros [= ]; lia).
    apply Hempty. lia.
  - split; [|done]. eapply within_trans; [exact Hw|apply (split_within_l s)].
Qed.

Lemma no_free_buddies_sub p q :
  (forall s, s ∈ all_free q -> s ∈ all_free p) -> no_free_buddies p -> no_free_buddies q.
Proof. intros Hs Hp s H1 H2 H3. apply (Hp s); auto. Qed.

Lemma pop_free_from_ok L gpu lvl p G X s p' :
  L <= lvl -> pools_keyed p -> no_free_buddies p -> tiling G (all_free p ++ X) ->
  (forall M, L < M <= lvl -> pool_at p (gpu, M) = []) ->
  pop_free_from L gpu lvl p = Some (s, p') ->
  gpu_id s = gpu /\ level s = lvl /\ (exists f, f ∈ all_free p /\ within s f) /\
  pools_keyed p' /\ no_free_buddies p' /\ tiling G (s :: all_free p' ++ X).
Proof.
  revert p; induction L as [|L IH]; intros p HL Hk Hb Ht Hempty H; [done|].
  simpl in H. destruct (pool_at p (gpu, S L)) as [|f rest] eqn:E.
  - apply IH; try done; [lia|]. intros M HM. destruct (decide (M = S L)) as [->|]; [done|].
    apply Hempty. lia.
  - injection H as H. pose proof (all_free_popleft _ _ _ _ E) as HP.
    assert (Hf : (gpu_id f, level f) = (gpu, S L)).
    { apply (pools_keyed_at p); [done|]. rewrite E. set_solver. }
    injection Hf as Hfg Hfl.
    pose proof (split_down_ok lvl gpu lvl f (<[(gpu, S L) := rest]> p) G X) as Hs.
    rewrite H in Hs. destruct Hs as (Hw & Hl & Hrest); try done; try lia.
    + apply pools_keyed_insert; [done|]. pose proof (pools_keyed_pool p (gpu, S L) Hk) as HF.
      rewrite E in HF. by apply Forall_cons in HF as [_ HF].
    + eapply no_free_buddies_sub; [|done]. intros x Hx. rewrite HP. by right.
    + by rewrite HP in Ht.
    + intros M HM. unfold pool_at. rewrite lookup_insert_ne by (intros [= ]; lia). apply Hempty. lia.
    + destruct Hw as (Hwg & Hw'). split; [congruence|]. split; [done|]. split; [|done].
      exists f. split; [rewrite HP; set_solver|]. by split.
Qed.

(** [None] means that no free slot of the GPU is large enough. *)
Lemma pop_free_from_None L gpu lvl p :
  pop_free_from L gpu lvl p = None <-> (forall M, 1 <= M <= L -> pool_at p (gpu, M) = []).
Proof.
  induction L as [|L IH]; simpl.
  { split; [|done]. intros _ M HM. lia. }
  destruct (pool_at p (gpu, S L)) as [|f rest] eqn:E.
  - rewrite IH. split; intros H M HM; [|apply H; lia].
    destruct (decide (M = S L)) as [->|]; [done|]. apply H. lia.
  - split; [done|]. intros H. rewrite H in E by lia. done.
Qed.

Lemma max_level_elem (l : list slot) : l <> [] -> exists m, m ∈ l /\ Forall (fun s => level s <= level m) l.
Proof.
  intros Hl. destruct (py_min_is_Some (rev_order (by_key level Nat.ltb)) l Hl) as [m Hm].
  apply py_max_spec in Hm as [H1 H2]; [|apply _]. exists m. split; [done|].
  eapply Forall_impl; [exact H2|]. unfold by_key. intros s Hs. simpl in Hs. lia.
Qed.

Lemma buddy_within s t : within s t -> 1 <= level t < level s -> within (buddy s) t.
Proof.
  intros Hst [Hl1 Hl]. assert (Hp : within (parent s) t /\ within (buddy s) (parent s)).
  { destruct Hst as (Hg & Hle & Hi). split.
    - split; [done|]. cbn [parent level index]. split; [lia|].
      rewrite <- Hi. etrans; [apply (div_pow2_add _ 1)|]. do 2 f_equal. lia.
    - destruct (parent_split s) as [Hp|Hp]; [lia|..].
      + change (buddy s) with (s, buddy s).2. rewrite <- Hp. apply split_within_r.
      + change (buddy s) with (buddy s, s).1. rewrite <- Hp. apply split_within_l. }
  destruct Hp. by eapply within_trans.
Qed.

Lemma buddy_buddy s : buddy (buddy s) = s.
Proof.
  destruct s as [g l i]. unfold buddy. simpl. f_equal.
  destruct (buddy_index_cases i) as [q [[-> ->]|[-> ->]]];
  destruct (buddy_index_cases (buddy_index (2 * q))) as [q' Hq'];
  destruct (buddy_index_cases (2 * q)) as [? ?];
  destruct (buddy_index_cases (2 * q + 1)) as [? ?]; lia.
Qed.

Lemma buddy_ne s : buddy s <> s.
Proof.
  destruct s as [g l i]. unfold buddy. simpl. intros [= H].
  destruct (buddy_index_cases i) as [q Hq]. lia.
Qed.

Lemma within_buddy_sibling s x : within (buddy s) x -> 1 <= level x < level s -> within s x.
Proof. intros H Hl. rewrite <- (buddy_buddy s). by apply buddy_within. Qed.

Lemma buddy_wf s : wf_slot s -> 1 < level s -> wf_slot (buddy s).
Proof.
  intros Hs Hl. destruct (split_wf _ (parent_wf s Hs Hl)) as [HA HB].
  by destruct (parent_split s Hl) as [E|E]; rewrite E in HA, HB.
Qed.

Lemma tiling_elem G l s : tiling G l -> s ∈ l -> wf_slot s /\ gpu_id s ∈ G.
Proof. intros HT. pose proof (tiling_wf _ _ HT) as HW. rewrite Forall_forall in HW. auto. Qed.

(** Full coalescing: a region that meets no live slot lies inside a single free slot. *)
Lemma free_region G p X t :
  tiling G (all_free p ++ X) -> no_free_buddies p ->
  wf_slot t -> gpu_id t ∈ G -> Forall (fun x => ~ overlap t x) X ->
  exists f, f ∈ all_free p /\ within t f.
Proof.
  intros HT Hb Hwt Hgt HX. rewrite Forall_forall in HX.
  assert (Hfree : forall c, wf_slot c -> within c t -> exists x, x ∈ all_free p /\ overlap c x).
  { intros c Hc Hct. assert (Hcg : gpu_id c ∈ G) by (by destruct Hct as (-> & _)).
    pose proof (tiling_cover _ _ HT c Hc Hcg) as Hcov.
    apply Exists_exists in Hcov as (x & Hx & Ho).
    apply elem_of_app in Hx as [Hx|Hx]; [by exists x|]. destruct (HX x Hx).
    apply overlap_sym. apply overlap_sym in Ho. by eapply overlap_within. }
  destruct (Hfree t Hwt (within_refl t)) as (x & Hx & [Htx|Hxt]); [by exists x|].
  destruct (max_level_elem (filter (fun s => within s t) (all_free p))) as (m & Hm & Hmax).
  { intros Hn. assert (x ∈ filter (fun s => within s t) (all_free p)) as Hin
      by (by apply list_elem_of_filter). rewrite Hn in Hin. set_solver. }
  apply list_elem_of_filter in Hm as [Hmt Hm]. rewrite Forall_forall in Hmax.
  destruct (decide (level m = level t)) as [Heq|Hne].
  { exists m. split; [done|]. rewrite (within_same_level m t); [apply within_refl|done..]. }
  assert (Hlt : level t < level m) by (destruct Hmt as (_&?&_); lia).
  assert (Hwm : wf_slot m /\ 1 < level m).
  { destruct (tiling_elem _ _ m HT) as [? _]; [set_solver|]. destruct Hwt. split; [done|lia]. }
  destruct Hwm as [Hwm Hl1]. pose proof (buddy_within m t Hmt (conj (proj1 Hwt) Hlt)) as Hbt.
  destruct (Hfree _ (buddy_wf m Hwm Hl1) Hbt) as (y & Hy & [Hby|Hyb]); exfalso.
  - destruct (decide (level y < level m)) as [Hym|Hym].
    + assert (Hmy : within m y).
      { apply within_buddy_sibling; [done|]. destruct (tiling_elem _ _ y HT) as [[? _] _]; [set_solver|lia]. }
      assert (m = y) as <- by (eapply no_overlap_elem; [apply (tiling_disjoint _ _ HT)|set_solver..|by left]).
      lia.
    + apply (Hb m Hm Hl1). rewrite (within_same_level _ _ Hby); [done|].
      destruct Hby as (_&Hle&_). simpl in *. lia.
  - apply (Hb m Hm Hl1). rewrite <- (within_same_level _ _ Hyb); [done|].
    assert (level y <= level m).
    { apply Hmax, list_elem_of_filter. split; [|done]. by eapply within_trans. }
    destruct Hyb as (_&Hle&_). simpl in *. lia.
Qed.

Lemma coalesce_step s p k i x :
  pools_keyed p -> k = (gpu_id s, level s) ->
  list_find (fun x => index x = buddy_index (index s)) (pool_at p k) = Some (i, x) ->
  x = buddy s /\ x ∈ pool_at p k.
Proof.
  intros Hk -> (Hx & Hi & _)%list_find_Some. apply list_elem_of_lookup_2 in Hx.
  split; [|done]. pose proof (pools_keyed_at _ _ _ Hk Hx) as [= H1 H2].
  destruct x; unfold buddy; simpl in *; congruence.
Qed.

Lemma coalesce_stuck s p :
  pools_keyed p ->
  list_find (fun x => index x = buddy_index (index s)) (pool_at p (gpu_id s, level s)) = None ->
  buddy s ∉ all_free p.
Proof.
  intros Hk Hf Hb. apply list_find_None in Hf. rewrite Forall_forall in Hf.
  apply (elem_of_all_free p (buddy s) Hk) in Hb. by apply (Hf _ Hb).
Qed.

(** The coalescing loop climbs until the slot in hand has no free buddy. *)
Lemma coalesce_ok fuel s p G X :
  level s <= fuel -> wf_slot s -> pools_keyed p -> no_free_buddies p ->
  tiling G (s :: all_free p ++ X) ->
  let '(t, p') := coalesce fuel s p in
  within s t /\ (level t = 1 \/ buddy t ∉ all_free p') /\
  pools_keyed p' /\ no_free_buddies p' /\ tiling G (t :: all_free p' ++ X).
Proof.
  revert s p; induction fuel as [|fuel IH]; intros s p Hf Hs Hk Hb Ht; cbn [coalesce].
  { destruct Hs; lia. }
  destruct (1 <? level s) eqn:E; cycle 1.
  { split; [apply within_refl|]. split; [left; destruct Hs; lia|done]. }
  destruct (pool_at p (gpu_id s, level s)) as [|y l] eqn:Ep.
  { split; [apply within_refl|]. split; [right|done]. apply coalesce_stuck; [done|]. by rewrite Ep. }
  rewrite <- Ep. destruct (list_find _ _) as [[i x]|] eqn:Ef; cycle 1.
  { split; [apply within_refl|]. split; [right; by apply coalesce_stuck|done]. }
  destruct (coalesce_step s p _ i x Hk eq_refl Ef) as [-> Hx].
  pose proof (all_free_remove p (gpu_id s, level s) (buddy s) Hx) as HP.
  set (p1 := <[(gpu_id s, level s) := pool_remove (buddy s) (pool_at p (gpu_id s, level s))]> p) in *.
  assert (Hl : 1 < level s) by lia.
  specialize (IH (parent s) p1). destruct (coalesce fuel (parent s) p1) as [t p'].
  destruct IH as (Hw & Hrest).
  - simpl. lia.
  - by apply parent_wf.
  - apply pools_keyed_insert; [done|]. pose proof (pools_keyed_pool p (gpu_id s, level s) Hk) as HF.
    rewrite (pool_remove_perm _ _ Hx) in HF. by apply Forall_cons in HF as [_ HF].
  - eapply no_free_buddies_sub; [|done]. intros z Hz. rewrite HP. by right.
  - apply tiling_merge_buddies; [done..|]. by rewrite HP in Ht.
  - split; [|done]. eapply within_trans; [|exact Hw]. destruct (parent_split s Hl) as [Hp|Hp].
    + change (within (s, buddy s).1 (parent s)). rewrite <- Hp. apply split_within_l.
    + change (within (buddy s, s).2 (parent s)). rewrite <- Hp. apply split_within_r.
Qed.

Lemma coalesce_gpu fuel s p : gpu_id (coalesce fuel s p).1 = gpu_id s.
Proof.
  revert s p; induction fuel as [|fuel IH]; intros s p; cbn [coalesce]; [done|].
  destruct (1 <? level s); [|done]. destruct (pool_at _ _); [done|].
  destruct (list_find _ _) as [[? ?]|]; [|done]. by rewrite IH.
Qed.

Lemma no_free_buddies_append p k t :
  no_free_buddies p -> (level t = 1 \/ buddy t ∉ all_free p) -> no_free_buddies (pool_append k t p).
Proof.
  intros Hb Ht s. rewrite all_free_append. intros Hs Hl Hbs.
  apply elem_of_cons in Hs as [->|Hs]; apply elem_of_cons in Hbs as [Hbs|Hbs].
  - by apply (buddy_ne t).
  - destruct Ht; [lia|done].
  - destruct Ht as [Ht|Ht]; [rewrite <- Hbs in Ht; simpl in Ht; lia|].
    rewrite <- Hbs, buddy_buddy in Ht. done.
  - by apply (Hb s Hs Hl).
Qed.

(** ** Every operation preserves the invariant *)

Lemma elements_diff_singleton (X : gset slot) s : s ∈ X -> elements X ≡ₚ s :: elements (X ∖ {[s]}).
Proof.
  intros Hs. rewrite <- elements_union_singleton by set_solver.
  by rewrite <- union_difference_singleton_L.
Qed.

(** What an allocation that succeeds on GPU [g] did. *)
Record allocated (lvl : nat) (g : Z) (st : slots_state) (s : slot) (p : pools) : Prop := {
  al_gpu : gpu_id s = g;
  al_level : level s = lvl;
  al_wf : wf_slot s;
  al_dom : g ∈ dom (st_last_used st);
  al_draining : g ∉ st_draining st;
  al_fresh : forall t, t ∈ st_live st -> ~ overlap s t;
  al_inv : slots_inv (set_allocated s p st);
}.

Lemma pop_free_allocated g lvl st s p :
  slots_inv st -> g ∉ st_draining st ->
  pop_free_in_subtree g lvl (st_pools st) = Some (s, p) -> allocated lvl g st s p.
Proof.
  intros [Hk Ht Hb Ho] Hd H.
  destruct (pop_free_from_ok lvl g lvl (st_pools st) _ _ s p ltac:(lia) Hk Hb Ht) as
    (H1 & H2 & _ & H4 & H5 & H6); [intros; lia|done|].
  destruct (tiling_elem _ _ s H6) as [Hw Hg]; [set_solver|].
  assert (Hfresh : forall t, t ∈ st_live st -> ~ overlap s t).
  { destruct (tiling_disjoint _ _ H6) as [HF _]. rewrite Forall_forall in HF.
    intros t Ht'. apply HF. set_solver. }
  split; try done; [congruence|]. split; simpl; [done| |done|done].
  assert (s ∉ st_live st) as Hs by (intros Hs; by apply (Hfresh s Hs), overlap_refl).
  unfold owned. simpl. rewrite (elements_union_singleton (st_live st) s Hs).
  by rewrite <- Permutation_middle.
Qed.

Lemma deallocate_inv s now st st' : slots_inv st -> slots_deallocate s now st = Ok st' -> slots_inv st'.
Proof.
  intros [Hk Ht Hb Ho] H. unfold slots_deallocate in H.
  destruct (coalesce _ _ _) as [t p] eqn:Ec. res_inv.
  apply bool_decide_eq_true in Hm0. unfold owned in Ht.
  rewrite (elements_diff_singleton _ _ Hm0), <- Permutation_middle in Ht.
  destruct (tiling_elem _ _ s Ht) as [Hw Hg]; [set_solver|].
  pose proof (coalesce_ok (level s) s (st_pools st) _ _ (le_n _) Hw Hk Hb Ht) as Hc.
  rewrite Ec in Hc. destruct Hc as (Hst & Hbt & Hk' & Hb' & Ht'). destruct (tiling_elem _ _ t Ht') as [_ Hgt]; [set_solver|].
  assert (Hdom : dom (if level t =? 1 then <[gpu_id t := now]> (st_last_used st) else st_last_used st)
                 = dom (st_last_used st)) by (destruct (_ =? 1); set_solver).
  split; simpl.
  - by apply pools_keyed_append.
  - rewrite Hdom. unfold owned. simpl. by rewrite all_free_append.
  - by apply no_free_buddies_append.
  - congruence.
Qed.

Lemma tiling_add_root G l g : g ∉ G -> tiling G l -> tiling ({[g]} ∪ G) (root g :: l).
Proof.
  intros Hg HT. pose proof (tiling_wf _ _ HT) as HW. split.
  - constructor; [split; [split; simpl; lia|set_solver]|]. eapply Forall_impl; [exact HW|]. set_solver.
  - split; [|by apply tiling_disjoint in HT]. eapply Forall_impl; [exact HW|].
    intros t [_ Ht] [(E & _)|(E & _)]; simpl in E; congruence.
  - intros c Hc [E%elem_of_singleton|E]%elem_of_union.
    + left. left. rewrite <- E. by apply wf_within_root.
    + right. by apply (tiling_cover _ _ HT).
Qed.

Lemma tiling_drop_gpu G l g : tiling G l -> tiling (G ∖ {[g]}) (filter (fun s => gpu_id s <> g) l).
Proof.
  intros [HW HD HC]. split.
  - rewrite Forall_forall in *. intros s [? Hs]%list_elem_of_filter. destruct (HW s Hs). set_solver.
  - clear -HD. induction l as [|s l IH]; [done|]. destruct HD as [H1 H2]. rewrite filter_cons.
    case_decide; [|auto]. split; [|auto]. rewrite Forall_forall in *.
    intros t [_ Ht]%list_elem_of_filter. auto.
  - intros c Hc Hg. assert (Hcov : Exists (overlap c) l) by (apply HC; set_solver).
    apply Exists_exists in Hcov as [t Ht]. apply Exists_exists. exists t. split; [|tauto]. apply list_elem_of_filter. split; [|tauto].
    assert (gpu_id t = gpu_id c) by (destruct Ht as [_ [(?&_)|(?&_)]]; congruence). set_solver.
Qed.

Lemma all_free_drop_gpu p g :
  pools_keyed p ->
  all_free (filter (fun kl : (Z * nat) * list slot => kl.1.1 <> g) p)
  ≡ₚ filter (fun s => gpu_id s <> g) (all_free p).
Proof.
  induction p as [|k l p Hk IH] using map_ind; intros HK.
  { by rewrite map_filter_empty. }
  apply map_Forall_insert in HK as [Hl HK]; [|done]. rewrite Forall_forall in Hl.
  rewrite (all_free_insert p k l), delete_id by done. rewrite filter_app.
  destruct (decide (k.1 = g)) as [Hg|Hg].
  - rewrite map_filter_insert_False by tauto. rewrite delete_id by done. rewrite IH by done.
    rewrite (filter_none _ l); [done|]. intros s Hs. rewrite <- (Hl s Hs) in Hg. simpl in Hg. tauto.
  - rewrite map_filter_insert_True by done. rewrite all_free_insert, delete_id.
    + rewrite IH by done. rewrite (filter_all _ l); [done|]. intros s Hs.
      rewrite <- (Hl s Hs) in Hg. done.
    + apply map_lookup_filter_None_2. by left.
Qed.

Lemma pool_foreign p G X g L :
  pools_keyed p -> tiling G (all_free p ++ X) -> g ∉ G -> pool_at p (g, L) = [].
Proof.
  intros Hk HT Hg. destruct (pool_at p (g, L)) as [|s l] eqn:E; [done|].
  assert (Hs : s ∈ pool_at p (g, L)) by (rewrite E; set_solver).
  pose proof (pools_keyed_at _ _ _ Hk Hs) as [= <- <-]. destruct Hg.
  apply (tiling_elem _ _ s HT). rewrite elem_of_app, elem_of_all_free by done. by left.
Qed.

(** Registering a new GPU, shared by [Slots.init] and [Slots.add]. *)
Lemma add_root_ok p G X g :
  g ∉ G -> pools_keyed p -> no_free_buddies p -> tiling G (all_free p ++ X) ->
  let p' := <[(g, 1) := [root g]]> p in
  pools_keyed p' /\ no_free_buddies p' /\ tiling ({[g]} ∪ G) (all_free p' ++ X).
Proof.
  intros Hg Hk Hb HT p'. assert (HP : all_free p' ≡ₚ root g :: all_free p).
  { unfold p'. rewrite all_free_insert, (all_free_pool p (g, 1)).
    by rewrite (pool_foreign p G X g 1). }
  split; [by apply pools_keyed_insert; [|repeat constructor]|]. split.
  - intros s. rewrite HP. intros [->|Hs]%elem_of_cons Hl; [simpl in Hl; lia|].
    rewrite elem_of_cons. intros [E|E]; [|by apply (Hb s Hs Hl)].
    apply (f_equal level) in E. simpl in E. lia.
  - rewrite HP. by apply tiling_add_root.
Qed.

Lemma init_fold_ok (gs : list Z) (p0 : pools) (lu0 : gmap Z Z) p lu :
  fold_left (fun acc g => (<[(g, 1) := [root g]]> acc.1, <[g := 0%Z]> acc.2)) gs (p0, lu0) = (p, lu) ->
  (forall g, g ∈ dom lu0 -> p0 !! (g, 1) = Some [root g]) ->
  pools_keyed p0 -> no_free_buddies p0 -> tiling (dom lu0) (all_free p0 ++ []) ->
  pools_keyed p /\ no_free_buddies p /\ tiling (dom lu) (all_free p ++ []).
Proof.
  revert p0 lu0; induction gs as [|g gs IH]; intros p0 lu0; simpl.
  { intros [= <- <-]. done. }
  intros Hf Hr Hk Hb HT. apply (IH _ _ Hf); rewrite ?dom_insert_L.
  - intros g' Hg'. destruct (decide (g' = g)) as [->|]; [by rewrite lookup_insert_eq|].
    rewrite lookup_insert_ne by congruence. apply Hr. set_solver.
  - by apply pools_keyed_insert; [|repeat constructor].
  - destruct (decide (g ∈ dom lu0)); [by rewrite insert_id by auto|].
    by apply (add_root_ok p0 (dom lu0) [] g).
  - destruct (decide (g ∈ dom lu0)) as [Hg|Hg]; [|by apply add_root_ok].
    rewrite insert_id by auto. by replace ({[g]} ∪ dom lu0) with (dom lu0) by set_solver.
Qed.

Lemma init_inv gs st st' : slots_init gs st = Ok st' -> slots_inv st'.
Proof.
  intros H. unfold slots_init in H.
  destruct (fold_left _ gs (∅, ∅)) as [p lu] eqn:E. res_inv.
  destruct (init_fold_ok gs ∅ ∅ p lu E) as (H1 & H2 & H3).
  - set_solver.
  - apply map_Forall_empty.
  - intros s. set_solver.
  - split; simpl; [constructor|done|set_solver].
  - by split.
Qed.

Lemma add_inv g st b st' : slots_inv st -> slots_add g st = Ok (b, st') -> slots_inv st'.
Proof.
  intros HI H. unfold slots_add in H. res_inv. case_bool_decide as Hg; simplify_eq; [done|].
  destruct HI as [Hk Ht Hb Ho].
  destruct (add_root_ok (st_pools st) (dom (st_last_used st)) (elements (st_live st)) g) as (H1 & H2 & H3);
    [by rewrite elem_of_dom|done..|].
  split; simpl; [done| |done|done]. by rewrite dom_insert_L.
Qed.

Lemma assert_no_slots_nil l msg u : assert_no_slots l msg = Ok u -> l = [].
Proof. by destruct l as [|? []]. Qed.

Lemma pop_inv g st st' : slots_inv st -> slots_pop g st = Ok st' -> slots_inv st'.
Proof.
  intros [Hk Ht Hb Ho] H. unfold slots_pop in H. res_inv. apply assert_no_slots_nil in Hm0.
  split; simpl; [|..|done].
  - intros k l [Hl _]%map_lookup_filter_Some. by apply Hk.
  - rewrite dom_delete_L. unfold owned. simpl. rewrite all_free_drop_gpu by done.
    apply (tiling_drop_gpu _ _ g) in Ht. unfold owned in Ht. rewrite filter_app in Ht.
    rewrite (filter_all _ (elements _)) in Ht; [done|]. intros s Hs E.
    assert (s ∈ filter (fun s => gpu_id s = g) (elements (st_live st))) as Hin
      by (by apply list_elem_of_filter).
    rewrite Hm0 in Hin. set_solver.
  - eapply no_free_buddies_sub; [|done]. intros s. rewrite all_free_drop_gpu by done.
    by intros [_ ?]%list_elem_of_filter.
Qed.

Lemma remove_inv st st' : slots_remove st = Ok st' -> slots_inv st'.
Proof. intros H. unfold slots_remove in H. res_inv. apply slots_inv_initial. Qed.

(** ** What [_try_allocate] finds *)

(** Some aligned region of level [lvl] of GPU [g] meets no live slot. *)
Definition fits (st : slots_state) (lvl : nat) (g : Z) : Prop :=
  g ∈ dom (st_last_used st) /\
  exists c, wf_slot c /\ gpu_id c = g /\ level c = lvl /\ forall t, t ∈ st_live st -> ~ overlap c t.

(** GPU [g] became wholly idle before [h] did (ties go to the smaller id). *)
Definition colder (lu : gmap Z Z) (g h : Z) : Prop :=
  lex_pair Z.ltb Z.ltb (lu !!! g, g) (lu !!! h, h) = true.

Lemma first_inside (f : slot) lvl : wf_slot f -> level f <= lvl ->
  exists c, wf_slot c /\ gpu_id c = gpu_id f /\ level c = lvl /\ within c f.
Proof.
  intros [H1 H2] Hl. exists (Slot (gpu_id f) lvl (index f * 2 ^ (lvl - level f))).
  pose proof (Nat.pow_nonzero 2 (lvl - level f) ltac:(lia)).
  split; [|split; [done|split; [done|]]].
  - split; simpl; [lia|]. replace (lvl - 1) with ((level f - 1) + (lvl - level f)) by lia.
    rewrite Nat.pow_add_r. nia.
  - split; [done|]. split; [done|]. simpl. by apply Nat.div_mul.
Qed.

Lemma pop_free_None_iff st lvl g :
  slots_inv st -> pop_free_in_subtree g lvl (st_pools st) = None <-> ~ fits st lvl g.
Proof.
  intros [Hk HT Hb _]. unfold pop_free_in_subtree. rewrite pop_free_from_None. split.
  - intros HE (Hg & c & Hc & Hcg & Hcl & Hlive).
    destruct (free_region _ _ _ c HT Hb Hc) as (f & Hf & Hcf); [congruence| |].
    { apply Forall_forall. intros t Ht. apply Hlive. set_solver. }
    apply elem_of_all_free in Hf as Hfp; [|done]. destruct (tiling_elem _ _ f HT) as [[Hf1 _] _]; [set_solver|].
    destruct Hcf as (E1 & E2 & _). rewrite <- E1, Hcg, HE in Hfp by lia. set_solver.
  - intros Hn M HM. destruct (pool_at (st_pools st) (g, M)) as [|f l] eqn:E; [done|]. destruct Hn.
    assert (Hf : f ∈ pool_at (st_pools st) (g, M)) by (rewrite E; set_solver).
    pose proof (pools_keyed_at _ _ _ Hk Hf) as [= H1 H2].
    assert (Hfree : f ∈ all_free (st_pools st)) by (rewrite elem_of_all_free by done; congruence).
    destruct (tiling_elem _ _ f HT) as [Hw Hg]; [set_solver|]. split; [congruence|].
    destruct (first_inside f lvl Hw) as (c & Hc1 & Hc2 & Hc3 & Hc4); [lia|].
    exists c. split; [done|]. split; [congruence|]. split; [done|]. intros t Ht Ho.
    assert (f = t) as ->.
    { eapply no_overlap_elem; [apply (tiling_disjoint _ _ HT)|set_solver..|].
      apply overlap_sym. eapply overlap_within; [done|]. by apply overlap_sym. }
    pose proof (no_overlap_NoDup _ (tiling_disjoint _ _ HT)) as HN. unfold owned in HN.
    apply NoDup_app in HN as (_ & HN & _). apply (HN t Hfree). set_solver.
Qed.

Lemma try_gpus_Some gs D lvl p r :
  try_gpus gs D lvl p = Some r ->
  exists gs1 g gs2, gs = gs1 ++ g :: gs2 /\ g ∉ D /\ pop_free_in_subtree g lvl p = Some r /\
    forall h, h ∈ gs1 -> h ∉ D -> pop_free_in_subtree h lvl p = None.
Proof.
  induction gs as [|g gs IH]; simpl; [done|]. intros H.
  assert (Hskip : (g ∉ D -> pop_free_in_subtree g lvl p = None) -> try_gpus gs D lvl p = Some r ->
    exists gs1 g0 gs2, g :: gs = gs1 ++ g0 :: gs2 /\ g0 ∉ D /\ pop_free_in_subtree g0 lvl p = Some r /\
    forall h, h ∈ gs1 -> h ∉ D -> pop_free_in_subtree h lvl p = None).
  { intros Hg (gs1 & h & gs2 & -> & H1 & H2 & H3)%IH. exists (g :: gs1), h, gs2.
    split; [done|]. split; [done|]. split; [done|]. intros x [->|Hx]%elem_of_cons; auto. }
  case_bool_decide as HD; [by apply Hskip|].
  destruct (pop_free_in_subtree g lvl p) as [r'|] eqn:E; [|by apply Hskip].
  injection H as ->. exists [], g, gs. split; [done|]. split; [done|]. split; [done|]. set_solver.
Qed.

Lemma try_gpus_None gs D lvl p h :
  try_gpus gs D lvl p = None -> h ∈ gs -> h ∉ D -> pop_free_in_subtree h lvl p = None.
Proof.
  induction gs as [|g gs IH]; simpl; [set_solver|]. intros H [->|Hh]%elem_of_cons HD.
  - rewrite bool_decide_false in H by done. by destruct (pop_free_in_subtree _ _ _).
  - case_bool_decide; [auto|]. destruct (pop_free_in_subtree g lvl p); [done|auto].
Qed.

Lemma elem_of_coldest lu g : g ∈ coldest_first lu <-> g ∈ dom lu.
Proof.
  unfold coldest_first. rewrite py_sorted_perm, elem_of_dom, list_elem_of_fmap. split.
  - intros ([g' t] & -> & H%elem_of_map_to_list). eauto.
  - intros [t Ht]. exists (g, t). split; [done|]. by apply elem_of_map_to_list.
Qed.

Lemma coldest_first_sorted lu gs1 g gs2 h :
  coldest_first lu = gs1 ++ g :: gs2 -> h ∈ g :: gs2 -> ~ colder lu h g.
Proof.
  unfold coldest_first. set (lt := by_key _ _). intros E Hh.
  pose proof (py_sorted_sorted lt (map_to_list lu)) as HS.
  apply fmap_app_inv in E as (k1 & k2 & -> & E & HE). destruct k2 as [|[g0 t] k2]; [done|].
  injection E as -> ->. rewrite HE in HS.
  assert (Hlk : forall x, x ∈ (g0, t) :: k2 -> lu !! x.1 = Some x.2).
  { intros [x1 x2] Hx. apply elem_of_map_to_list. rewrite <- (py_sorted_perm lt), HE. set_solver. }
  apply StronglySorted_app_1_r in HS. apply list_elem_of_fmap with (f := fst) (l := (g0, t) :: k2) in Hh
    as ([h0 th] & -> & Hx).
  assert (Hle : lt (h0, th) (g0, t) = false).
  { inversion HS as [|? ? _ HF]; subst. rewrite Forall_forall in HF.
    apply elem_of_cons in Hx as [[= -> ->]|Hx]; [|by apply HF].
    destruct (lt (g0, t) (g0, t)) eqn:El; [|done]. by rewrite (sw_asym _ _ El) in El. }
  unfold colder. simpl. rewrite (lookup_total_correct lu h0 th (Hlk _ Hx)).
  rewrite (lookup_total_correct lu g0 t (Hlk (g0, t) ltac:(left))).
  unfold lt, by_key in Hle. simpl in Hle. congruence.
Qed.

(** ** Specifications of the operations on an allocator in a good state *)

Lemma try_allocate_core_Some lvl gpu st s p :
  slots_inv st -> try_allocate_core lvl gpu st = Some (s, p) ->
  allocated lvl (gpu_id s) st s p /\ (forall g, gpu = Some g -> gpu_id s = g) /\
  (gpu = None -> forall h, h ∉ st_draining st -> fits st lvl h -> ~ colder (st_last_used st) h (gpu_id s)).
Proof.
  intros HI. destruct gpu as [g|]; simpl.
  - case_bool_decide as Hd; [done|]. intros H. pose proof (pop_free_allocated _ _ _ _ _ HI Hd H) as Ha.
    rewrite (al_gpu _ _ _ _ _ Ha). split; [done|]. split; [|done]. by intros ? [= ->].
  - intros (gs1 & g & gs2 & E & Hd & H & Hskip)%try_gpus_Some.
    pose proof (pop_free_allocated _ _ _ _ _ HI Hd H) as Ha. rewrite (al_gpu _ _ _ _ _ Ha).
    split; [done|]. split; [done|]. intros _ h Hhd Hfit. apply (coldest_first_sorted _ gs1 g gs2 h E).
    assert (Hh : h ∈ coldest_first (st_last_used st)) by (apply elem_of_coldest, Hfit).
    rewrite E in Hh. apply elem_of_app in Hh as [Hh|Hh]; [|done].
    specialize (Hskip h Hh Hhd). by apply (pop_free_None_iff st lvl h HI) in Hskip.
Qed.

Lemma try_allocate_core_None lvl gpu st h :
  slots_inv st -> try_allocate_core lvl gpu st = None -> gpu = None \/ gpu = Some h ->
  h ∉ st_draining st -> ~ fits st lvl h.
Proof.
  intros HI HN Hgpu Hd. destruct Hgpu as [-> | ->]; simpl in HN.
  - intros Hfit. assert (Hh : h ∈ coldest_first (st_last_used st)) by (apply elem_of_coldest, Hfit).
    pose proof (try_gpus_None _ _ _ _ h HN Hh Hd) as Hp. by apply (pop_free_None_iff st lvl h HI) in Hp.
  - rewrite bool_decide_false in HN by done. by apply (pop_free_None_iff st lvl h HI).
Qed.

Lemma set_waiters_inv ws st : slots_inv st -> slots_inv (set_waiters ws st).
Proof. by intros []. Qed.

Lemma poll_inv me st o st' : slots_inv st -> allocate_poll me st = Ok (o, st') -> slots_inv st'.
Proof.
  intros HI H. unfold allocate_poll in H. res_inv. destruct (_ =? _); [|by simplify_eq].
  destruct (try_allocate_core _ _ _) as [[s p]|] eqn:E; simplify_eq; [|done].
  apply set_waiters_inv. by apply try_allocate_core_Some in E as [[] _].
Qed.

Lemma enter_inv me st st' : slots_inv st -> allocate_enter me st = Ok st' -> slots_inv st'.
Proof. intros HI H. unfold allocate_enter in H. res_inv. by apply set_waiters_inv. Qed.

Lemma try_allocate_inv lvl gpu st o st' :
  slots_inv st -> slots_try_allocate lvl gpu st = Ok (o, st') -> slots_inv st'.
Proof.
  intros HI H. unfold slots_try_allocate in H. res_inv.
  destruct (try_allocate_core _ _ _) as [[s p]|] eqn:E; simplify_eq; [|done].
  by apply try_allocate_core_Some in E as [[] _].
Qed.

#[export] Hint Resolve init_inv remove_inv add_inv pop_inv try_allocate_inv deallocate_inv enter_inv
  poll_inv : arctic.

Lemma step_inv y y' : slots_step y y' -> slots_inv (sys_st y) -> slots_inv (sys_st y').
Proof. destruct 1; simpl; intros HI; eauto with arctic. by destruct HI. Qed.

Lemma reachable_inv y : slots_reachable y -> slots_inv (sys_st y).
Proof.
  intros H. unfold slots_reachable in H.
  remember (SlotsSys slots_initial [] [] []) as y0 eqn:E.
  assert (H0 : slots_inv (sys_st y0)) by (rewrite E; apply slots_inv_initial). clear E.
  induction H; eauto using step_inv.
Qed.

Lemma inv_live_free st s t : slots_inv st -> s ∈ all_free (st_pools st) -> t ∈ st_live st -> ~ overlap s t.
Proof.
  intros HI Hs Ht Ho. pose proof (tiling_disjoint _ _ (inv_tiling _ HI)) as HD.
  assert (s = t) as -> by (eapply no_overlap_elem; [exact HD|set_solver..|done]).
  apply no_overlap_NoDup, NoDup_app in HD as (_ & HD & _). apply (HD t Hs). set_solver.
Qed.

(** The free slots are determined by the live slots: the history does not matter. *)
Lemma free_canonical_sub st1 st2 s :
  slots_inv st1 -> slots_inv st2 -> dom (st_last_used st1) = dom (st_last_used st2) ->
  st_live st1 = st_live st2 -> s ∈ all_free (st_pools st1) -> s ∈ all_free (st_pools st2).
Proof.
  intros H1 H2 Hdom Hlive Hs.
  assert (Hfree : forall st t, slots_inv st -> t ∈ all_free (st_pools st) ->
    wf_slot t /\ gpu_id t ∈ dom (st_last_used st) /\ Forall (fun x => ~ overlap t x) (elements (st_live st))).
  { intros st t HI Ht. destruct (tiling_elem _ _ t (inv_tiling _ HI)) as [Hw Hg]; [set_solver|].
    split; [done|]. split; [done|]. apply Forall_forall. intros x Hx. apply (inv_live_free st); set_solver. }
  destruct (Hfree st1 s H1 Hs) as (Hw & Hg & Hl). rewrite Hlive in Hl. rewrite Hdom in Hg.
  destruct (free_region _ _ _ s (inv_tiling _ H2) (inv_buddies _ H2) Hw Hg Hl) as (f2 & Hf2 & Hsf2).
  destruct (Hfree st2 f2 H2 Hf2) as (Hw2 & Hg2 & Hl2). rewrite <- Hlive in Hl2. rewrite <- Hdom in Hg2.
  destruct (free_region _ _ _ f2 (inv_tiling _ H1) (inv_buddies _ H1) Hw2 Hg2 Hl2) as (f1 & Hf1 & Hf21).
  assert (s = f1) as <-.
  { eapply no_overlap_elem; [apply (tiling_disjoint _ _ (inv_tiling _ H1))|set_solver..|].
    left. by eapply within_trans. }
  rewrite (within_same_level s f2); [done..|]. destruct Hsf2 as (_&?&_), Hf21 as (_&?&_). lia.
Qed.

Lemma free_canonical st1 st2 :
  slots_inv st1 -> slots_inv st2 -> dom (st_last_used st1) = dom (st_last_used st2) ->
  st_live st1 = st_live st2 -> all_free (st_pools st1) ≡ₚ all_free (st_pools st2).
Proof.
  intros H1 H2 Hd Hl.
  assert (HN : forall st, slots_inv st -> NoDup (all_free (st_pools st))).
  { intros st HI. pose proof (no_overlap_NoDup _ (tiling_disjoint _ _ (inv_tiling _ HI))) as HN.
    by apply NoDup_app in HN as (HN & _). }
  apply NoDup_Permutation; [auto..|]. intros s. split; apply free_canonical_sub; congruence.
Qed.

(** A GPU without live slots is whole again. *)
Lemma idle_gpu_whole st g :
  slots_inv st -> g ∈ dom (st_last_used st) -> (forall t, t ∈ st_live st -> gpu_id t <> g) ->
  pool_at (st_pools st) (g, 1) = [root g] /\ forall L, L <> 1 -> pool_at (st_pools st) (g, L) = [].
Proof.
  intros HI Hg Hidle. pose proof HI as [Hk HT Hb _].
  destruct (free_region _ _ _ (root g) HT Hb) as (f & Hf & Hrf); [split; simpl; lia|done| |].
  { apply Forall_forall. intros t Ht [(E&_)|(E&_)]; apply (Hidle t); [set_solver|done|set_solver|done]. }
  assert (Hfr : f = root g).
  { destruct (tiling_elem _ _ f HT) as [Hwf _]; [set_solver|]. destruct Hrf as (E & Hl & _).
    rewrite (wf_level1 f); [by rewrite <- E|done|]. destruct Hwf. simpl in *. lia. }
  subst f. assert (Hroot : forall s L, s ∈ pool_at (st_pools st) (g, L) -> s = root g /\ L = 1).
  { intros s L Hs. pose proof (pools_keyed_at _ _ _ Hk Hs) as [= E1 E2].
    assert (Hsf : s ∈ all_free (st_pools st)) by (rewrite elem_of_all_free by done; congruence).
    destruct (tiling_elem _ _ s HT) as [Hws _]; [set_solver|].
    assert (s = root g) as ->; [|by split].
    eapply no_overlap_elem; [apply (tiling_disjoint _ _ HT)|set_solver..|]. left.
    rewrite <- E1. by apply wf_within_root. }
  split.
  - assert (HN : NoDup (pool_at (st_pools st) (g, 1))).
    { pose proof (no_overlap_NoDup _ (tiling_disjoint _ _ HT)) as HN. unfold owned in HN.
      rewrite (all_free_pool _ (g, 1)), <- app_assoc in HN. by apply NoDup_app in HN as (HN & _). }
    apply elem_of_all_free in Hf; [|done]. simpl in Hf. destruct (pool_at _ _) as [|a [|b l]] eqn:E.
    + set_solver.
    + destruct (Hroot a 1) as [-> _]; [rewrite E; set_solver|done].
    + destruct (Hroot a 1) as [-> _]; [rewrite E; set_solver|].
      destruct (Hroot b 1) as [-> _]; [rewrite E; set_solver|]. inversion HN; set_solver.
  - intros L HL. destruct (pool_at _ _) as [|a l] eqn:E; [done|]. destruct HL.
    apply (Hroot a L). rewrite E. set_solver.
Qed.

(** [_pools.items()] with a non-empty pool belongs to a known GPU. *)
Lemma pool_entry st k l :
  slots_inv st -> st_pools st !! k = Some l -> pool_at (st_pools st) k = l /\ (l <> [] -> k.1 ∈ dom (st_last_used st)).
Proof.
  intros [Hk HT _ _] Hl. assert (E : pool_at (st_pools st) k = l) by (unfold pool_at; by rewrite Hl).
  split; [done|]. destruct l as [|s l]; [done|]. intros _.
  assert (Hs : s ∈ pool_at (st_pools st) k) by (rewrite E; set_solver).
  pose proof (pools_keyed_at _ _ _ Hk Hs) as <-. apply (tiling_elem _ _ s HT).
  unfold owned. rewrite elem_of_app, elem_of_all_free by done. by left.
Qed.

Lemma remove_ok st : slots_inv st -> st_inited st = true -> st_live st = ∅ -> slots_remove st = Ok slots_initial.
Proof.
  intros HI Hi Hl. assert (Hidle : forall g t, t ∈ st_live st -> gpu_id t <> g) by (rewrite Hl; set_solver).
  unfold slots_remove. rewrite Hi, Hl, elements_empty. cbn [check mbind res_bind assert_no_slots].
  replace (forallb (root_whole _) _) with true; cycle 1.
  { symmetry. apply forallb_forall. intros g Hg%list_elem_of_In.
    apply list_elem_of_fmap in Hg as ([g' t] & -> & Hgt%elem_of_map_to_list). unfold root_whole. simpl.
    destruct (idle_gpu_whole st g' HI) as [-> _]; [by eapply elem_of_dom_2|auto|done]. }
  replace (forallb _ (map_to_list (st_pools st))) with true; [done|].
  symmetry. apply forallb_forall. intros [[g L] l] Hkl%list_elem_of_In%elem_of_map_to_list. simpl.
  destruct (pool_entry st _ _ HI Hkl) as [E Hg]. destruct (decide (L = 1)) as [->|HL]; [done|].
  destruct l as [|s l]; [by rewrite orb_true_r|].
  destruct (idle_gpu_whole st g HI) as [_ Hn]; [by apply Hg|auto|]. by rewrite Hn in E.
Qed.

Lemma pop_ok st g :
  slots_inv st -> st_inited st = true -> g ∈ dom (st_last_used st) ->
  (forall t, t ∈ st_live st -> gpu_id t <> g) -> exists st', slots_pop g st = Ok st'.
Proof.
  intros HI Hi Hg Hidle. unfold slots_pop. rewrite Hi. destruct (idle_gpu_whole st g HI Hg Hidle) as [Hr Hn].
  rewrite (filter_none _ (elements _)) by (intros x Hx; apply Hidle; set_solver).
  unfold root_whole. rewrite Hr. cbn [check mbind res_bind assert_no_slots length Nat.eqb].
  replace (forallb _ (map_to_list (st_pools st))) with true; [by eexists|].
  symmetry. apply forallb_forall. intros [[h L] l] Hkl%list_elem_of_In%elem_of_map_to_list. simpl.
  destruct (pool_entry st _ _ HI Hkl) as [E _].
  destruct (decide (L = 1)) as [->|HL]; [by rewrite orb_true_r|].
  destruct (Z.eqb_spec h g) as [->|]; [|done]. rewrite <- E, Hn by done. apply orb_true_r.
Qed.

(** ** The waiter queue *)

Record queue_inv (y : slots_sys) : Prop := {
  q_order : sys_entered y = sys_granted y ++ (w_id <$> st_waiters (sys_st y));
  q_blocked : Forall (fun w => w ∈ sys_blocked y) (st_waiters (sys_st y));
  q_ids : NoDup (w_id <$> st_waiters (sys_st y));
  q_threads : NoDup (w_id <$> sys_blocked y);
}.

(** The methods other than [allocate] leave the queue alone, or clear it. *)
Lemma other_waiters st st' :
  (exists g b, slots_add g st = Ok (b, st')) \/ (exists g, slots_pop g st = Ok st') \/
  (exists lvl gpu o, slots_try_allocate lvl gpu st = Ok (o, st')) \/
  (exists s now, slots_deallocate s now st = Ok st') -> st_waiters st' = st_waiters st.
Proof.
  intros [(g & b & H)|[(g & H)|[(lvl & gpu & o & H)|(s & now & H)]]].
  - unfold slots_add in H. res_inv. by case_bool_decide; simplify_eq.
  - unfold slots_pop in H. by res_inv.
  - unfold slots_try_allocate in H. res_inv. destruct (try_allocate_core _ _ _) as [[]|]; by simplify_eq.
  - unfold slots_deallocate in H. destruct (coalesce _ _ _). by res_inv.
Qed.

Lemma cleared_waiters st st' :
  (exists gs, slots_init gs st = Ok st') \/ slots_remove st = Ok st' -> st_waiters st' = [].
Proof.
  intros [(gs & H)|H].
  - unfold slots_init in H. destruct (fold_left _ _ _). by res_inv.
  - unfold slots_remove in H. by res_inv.
Qed.

(** A turn of the loop of [allocate] returns a slot only at the head of the queue. *)
Lemma poll_waiters me st o st' :
  allocate_poll me st = Ok (o, st') ->
  match o with
  | Some s => exists h ws, st_waiters st = h :: ws /\ w_id h = w_id me /\ st_waiters st' = ws
  | None => st' = st
  end.
Proof.
  unfold allocate_poll, at_index. destruct (st_waiters st) as [|h ws] eqn:E; [done|]. simpl.
  destruct (w_id h =? w_id me) eqn:Eh; [|intros; by simplify_eq].
  destruct (try_allocate_core _ _ _) as [[s p]|]; intros; simplify_eq; [|done].
  exists h, ws. split; [done|]. split; [lia|done].
Qed.

Lemma queue_inv_same st st' bl en gr :
  st_waiters st' = st_waiters st -> queue_inv (SlotsSys st bl en gr) -> queue_inv (SlotsSys st' bl en gr).
Proof. intros E []. split; simpl in *; by rewrite ?E. Qed.

Lemma queue_inv_cleared st bl en gr st' :
  st_waiters st' = [] -> queue_inv (SlotsSys st bl en gr) -> queue_inv (SlotsSys st' bl [] []).
Proof. intros E [_ _ _ H]. split; simpl; rewrite ?E; [done|constructor..|done]. Qed.

Lemma enter_waiters me st st1 : allocate_enter me st = Ok st1 -> st_waiters st1 = st_waiters st ++ [me].
Proof. unfold allocate_enter. intros H. by res_inv. Qed.

(** A fresh call that returns at once found an empty queue. *)
Lemma enter_returns_queue me st st1 s st2 :
  w_id me ∉ w_id <$> st_waiters st ->
  allocate_enter me st = Ok st1 -> allocate_poll me st1 = Ok (Some s, st2) ->
  st_waiters st = [] /\ st_waiters st2 = [].
Proof.
  intros Hf He%enter_waiters (h & ws & E & Hid & ->)%poll_waiters. rewrite He in E.
  destruct (st_waiters st) as [|w l]; simpl in *; simplify_eq; [done|]. set_solver.
Qed.

Lemma queue_inv_wake me st bl1 bl2 en gr h ws st' :
  st_waiters st = h :: ws -> w_id h = w_id me -> st_waiters st' = ws ->
  queue_inv (SlotsSys st (bl1 ++ me :: bl2) en gr) ->
  queue_inv (SlotsSys st' (bl1 ++ bl2) en (gr ++ [w_id me])).
Proof.
  intros E Hid E' [Ho Hb Hi Ht]. simpl in *. rewrite E in *. csimpl in *.
  apply NoDup_cons in Hi as [Hh Hi]. apply Forall_cons in Hb as [_ Hb].
  split; simpl; rewrite ?E'; [|..|done|].
  - rewrite Ho, Hid. by rewrite <- app_assoc.
  - rewrite Forall_forall in *. intros w Hw. specialize (Hb w Hw).
    assert (w <> me) by (intros ->; apply Hh; rewrite Hid; by apply list_elem_of_fmap_2). set_solver.
  - rewrite fmap_app in *. csimpl in *. rewrite <- Permutation_middle in Ht.
    by apply NoDup_cons in Ht as [_ Ht].
Qed.

Lemma step_queue_inv y y' : slots_step y y' -> queue_inv y -> queue_inv y'.
Proof.
  destruct 1; intros HQ.
  - eapply queue_inv_cleared; [apply (cleared_waiters st); eauto|done].
  - eapply queue_inv_cleared; [apply (cleared_waiters st); eauto|done].
  - eapply queue_inv_same; [apply other_waiters; eauto|done].
  - eapply queue_inv_same; [apply other_waiters; eauto|done].
  - by eapply queue_inv_same; [|done].
  - eapply queue_inv_same; [apply other_waiters; eauto 10|done].
  - eapply queue_inv_same; [apply other_waiters; eauto 10|done].
  - rewrite fmap_app in H. destruct (enter_returns_queue me st st1 s st2) as [E E2]; [set_solver|done..|].
    destruct HQ as [Ho Hb Hi Ht]. simpl in *. rewrite E in Ho.
    split; simpl; rewrite ?E2; [by rewrite Ho, app_nil_r, app_nil_r|constructor..|done].
  - rewrite fmap_app in H. apply enter_waiters in H0 as E. apply poll_waiters in H1 as ->.
    destruct HQ as [Ho Hb Hi Ht]. simpl in *.
    split; simpl; rewrite ?E, ?fmap_app; csimpl.
    + by rewrite Ho, app_assoc.
    + apply Forall_app. split; [|repeat constructor; set_solver].
      eapply Forall_impl; [exact Hb|]. set_solver.
    + rewrite <- Permutation_cons_append. constructor; [set_solver|done].
    + rewrite <- Permutation_cons_append. constructor; [set_solver|done].
  - apply poll_waiters in H as (h & ws & E & Hid & E'). by eapply queue_inv_wake.
  - by apply poll_waiters in H as ->.
  - unfold allocate_poll, at_index in H. destruct (st_waiters st) as [|h ws] eqn:E.
    + destruct HQ as [Ho Hb Hi Ht]. simpl in *. rewrite E in *.
      split; simpl; rewrite ?E; [done|constructor..|].
      rewrite fmap_app in *. csimpl in *. rewrite <- Permutation_middle in Ht.
      by apply NoDup_cons in Ht as [_ Ht].
    + simpl in H. destruct (_ =? _); [|done]. by destruct (try_allocate_core _ _ _) as [[]|].
Qed.

Lemma reachable_queue_inv y : slots_reachable y -> queue_inv y.
Proof.
  unfold slots_reachable. remember (SlotsSys slots_initial [] [] []) as y0 eqn:E. intros H.
  assert (H0 : queue_inv y0) by (rewrite E; split; simpl; (done || constructor)). clear E.
  induction H; eauto using step_queue_inv.
Qed.

(** ** Properties *)

(** C3: in every state that any interleaving of the methods can reach, no two live slots
    overlap, the free and the live slots together tile every GPU of the pool (no part of a
    GPU is lost or handed out twice), and no two buddies are both free. *)
Theorem slots_never_overlap (y : slots_sys) :
  slots_reachable y ->
  let st := sys_st y in
  (forall s t, s ∈ st_live st -> t ∈ st_live st -> overlap s t -> s = t) /\
  tiling (dom (st_last_used st)) (all_free (st_pools st) ++ elements (st_live st)) /\
  no_free_buddies (st_pools st).
Proof.
  intros H%reachable_inv st. split; [|by destruct H]. intros s t Hs Ht.
  eapply no_overlap_elem; [apply (tiling_disjoint _ _ (inv_tiling _ H))|set_solver..].
Qed.

(** C37: [try_allocate] in a reachable state raises only on its two assertions.  It returns
    [None] exactly when no eligible GPU has an aligned region of the requested size that is
    free of live slots, so coalescing never leaves memory that is idle but unusable; the slot
    it returns has the requested level, lies on an eligible GPU (the coldest one that fits
    when none is named), overlaps no live slot, and becomes live. *)
Theorem try_allocate_complete (y : slots_sys) (lvl : nat) (gpu : option Z) :
  slots_reachable y -> st_inited (sys_st y) = true -> 1 <= lvl ->
  let st := sys_st y in
  match slots_try_allocate lvl gpu st with
  | Ok (Some s, st') =>
      level s = lvl /\ wf_slot s /\ gpu_id s ∈ dom (st_last_used st) /\ gpu_id s ∉ st_draining st /\
      (forall t, t ∈ st_live st -> ~ overlap s t) /\ st_live st' = {[s]} ∪ st_live st /\
      (forall g, gpu = Some g -> gpu_id s = g) /\
      (gpu = None -> forall h, h ∉ st_draining st -> fits st lvl h ->
                     ~ colder (st_last_used st) h (gpu_id s))
  | Ok (None, st') =>
      st' = st /\ forall h, gpu = None \/ gpu = Some h -> h ∉ st_draining st -> ~ fits st lvl h
  | Raise _ => False
  end.
Proof.
  intros HI%reachable_inv Hi Hl. unfold slots_try_allocate. cbn zeta.
  replace (1 <=? lvl) with true by lia. rewrite Hi. simpl.
  destruct (try_allocate_core _ _ _) as [[s p]|] eqn:E.
  - apply try_allocate_core_Some in E as ([] & H1 & H2); [|done]. done.
  - split; [done|]. intros h. by apply try_allocate_core_None.
Qed.

(** Giving a slot back right after it was allocated restores the allocator: the live
    slots and the free slots are those from before the allocation, however far the
    allocation had to split, because the coalescing climbs as far as the splitting went. *)
Theorem allocate_deallocate_roundtrip (y : slots_sys) lvl gpu s st1 now :
  slots_reachable y -> slots_try_allocate lvl gpu (sys_st y) = Ok (Some s, st1) ->
  exists st2, slots_deallocate s now st1 = Ok st2 /\ st_live st2 = st_live (sys_st y) /\
    all_free (st_pools st2) ≡ₚ all_free (st_pools (sys_st y)).
Proof.
  intros HI%reachable_inv H. pose proof (try_allocate_inv _ _ _ _ _ HI H) as HI1.
  unfold slots_try_allocate in H. res_inv. destruct (try_allocate_core _ _ _) as [[s' p]|] eqn:E; [|done].
  simplify_eq. apply try_allocate_core_Some in E as ([_ _ _ Hdom _ Hfresh _] & _); [|done].
  assert (Hs : s ∉ st_live (sys_st y)) by (intros Hs; by apply (Hfresh s Hs), overlap_refl).
  destruct (slots_deallocate s now _) as [st2|e] eqn:Ed.
  - exists st2. split; [done|]. pose proof (deallocate_inv _ _ _ _ HI1 Ed) as HI2.
    unfold slots_deallocate in Ed. destruct (coalesce _ _ _) as [t q] eqn:Ec. res_inv.
    assert (Hlive : ({[s]} ∪ st_live (sys_st y)) ∖ {[s]} = st_live (sys_st y)) by set_solver.
    simpl. split; [done|]. apply (free_canonical _ (sys_st y) HI2 HI); simpl; [|done].
    apply (f_equal (fun r => gpu_id r.1)) in Ec. rewrite coalesce_gpu in Ec. simpl in Ec.
    destruct (level t =? 1); [|done]. rewrite dom_insert_L, <- Ec. clear -Hdom. set_solver.
  - unfold slots_deallocate in Ed. simpl in Ed. rewrite Hm0, bool_decide_true in Ed by set_solver.
    simpl in Ed. by destruct (coalesce _ _ _).
Qed.

(** [remove] on a reachable, initialised allocator succeeds exactly when no slot is live:
    its checks on the free lists never fail.  With one leaked slot it raises the
    [AssertionError] it means to raise; with two or more the assertion message sorts slots
    that have no order, and [TypeError] is raised instead.  [pop] succeeds on every idle
    GPU of the pool. *)
Theorem remove_and_pop_decide (y : slots_sys) :
  slots_reachable y -> st_inited (sys_st y) = true ->
  let st := sys_st y in
  slots_remove st = match elements (st_live st) with
                    | [] => Ok slots_initial
                    | [_] => Raise (AssertionError "leaked slots")
                    | _ => Raise (TypeError "'<' not supported between instances of 'Slot'")
                    end /\
  (forall g, g ∈ dom (st_last_used st) -> (forall t, t ∈ st_live st -> gpu_id t <> g) ->
     exists st', slots_pop g st = Ok st' /\ dom (st_last_used st') = dom (st_last_used st) ∖ {[g]}).
Proof.
  intros HI%reachable_inv Hi st. split.
  - destruct (elements (st_live st)) as [|a l] eqn:E.
    + apply remove_ok; [done..|]. apply elements_empty_iff in E. by apply leibniz_equiv.
    + unfold slots_remove. unfold st in *. rewrite Hi, E. by destruct l.
  - intros g Hg Hidle. destruct (pop_ok st g HI Hi Hg Hidle) as [st' H]. exists st'. split; [done|].
    unfold slots_pop in H. res_inv. simpl. by rewrite dom_delete_L.
Qed.

(** [allocate] is strictly first-come first-served: since the last [init] or [remove],
    the calls that returned are, in order, the first ones that queued, whatever the order in
    which the blocked threads are woken.  Every queued waiter belongs to a thread that is
    still blocked in its call, so the head of the queue never starves the others by being
    abandoned, and each waiter is queued once. *)
Theorem allocate_fifo (y : slots_sys) :
  slots_reachable y ->
  sys_entered y = sys_granted y ++ (w_id <$> st_waiters (sys_st y)) /\
  Forall (fun w => w ∈ sys_blocked y) (st_waiters (sys_st y)) /\
  NoDup (w_id <$> st_waiters (sys_st y)).
Proof. by intros []%reachable_queue_inv. Qed.

(** ** Witnesses: a pool of two GPUs, a quarter and a half allocated, one caller blocked *)

Definition ok_or {A} (d : A) (r : res A) : A := match r with Ok a => a | Raise _ => d end.
Definition demo0 : slots_state := ok_or slots_initial (slots_init [0%Z; 1%Z] slots_initial).
Definition demo1 : slots_state := (ok_or (None, slots_initial) (slots_try_allocate 3 None demo0)).2.
Definition demo2 : slots_state := (ok_or (None, slots_initial) (slots_try_allocate 2 (Some 0%Z) demo1)).2.
Definition demo_caller : waiter := Waiter 7 1 (Some 0%Z).
Definition demo3 : slots_state := ok_or slots_initial (allocate_enter demo_caller demo2).
Definition demo_sys : slots_sys := SlotsSys demo3 [demo_caller] [7] [].

Lemma demo_reachable : slots_reachable demo_sys.
Proof.
  apply (rtc_l _ _ (SlotsSys demo0 [] [] [])).
  { by apply (step_init [0%Z; 1%Z]). }
  apply (rtc_l _ _ (SlotsSys demo1 [] [] [])).
  { by apply (step_try_allocate 3 None _ _ _ _ (Some (Slot 0 3 0))). }
  apply (rtc_l _ _ (SlotsSys demo2 [] [] [])).
  { by apply (step_try_allocate 2 (Some 0%Z) _ _ _ _ (Some (Slot 0 2 1))). }
  apply rtc_once. apply (step_allocate_blocks demo_caller demo2 [] [] [] demo3 demo3).
  - vm_compute. by inversion 1.
  - done.
  - done.
Qed.

Lemma slots_never_overlap_witness :
  tiling (dom (st_last_used demo3)) (all_free (st_pools demo3) ++ elements (st_live demo3)).
Proof. exact (proj1 (proj2 (slots_never_overlap demo_sys demo_reachable))). Defined.

Lemma try_allocate_complete_witness : ~ fits demo3 1 0.
Proof.
  pose proof (try_allocate_complete demo_sys 1 (Some 0%Z) demo_reachable eq_refl ltac:(lia)) as H.
  cbn zeta in H. change (slots_try_allocate 1 (Some 0%Z) (sys_st demo_sys)) with (Ok (A := option slot * slots_state) (None, demo3)) in H.
  apply (proj2 H); [by right|]. apply (bool_decide_unpack (0%Z ∉ st_draining demo3)). vm_compute. exact I.
Defined.

Lemma allocate_deallocate_roundtrip_witness :
  exists st2, slots_deallocate (Slot 1 3 0) 9 (ok_or (None, slots_initial) (slots_try_allocate 3 (Some 1%Z) demo3)).2 = Ok st2
    /\ st_live st2 = st_live demo3 /\ all_free (st_pools st2) ≡ₚ all_free (st_pools demo3).
Proof. by apply (allocate_deallocate_roundtrip demo_sys 3 (Some 1%Z)); [apply demo_reachable|]. Defined.

Lemma remove_and_pop_decide_witness :
  slots_remove demo3 = Raise (TypeError "'<' not supported between instances of 'Slot'").
Proof. exact (proj1 (remove_and_pop_decide demo_sys demo_reachable eq_refl)). Defined.

Lemma allocate_fifo_witness : sys_entered demo_sys = sys_granted demo_sys ++ (w_id <$> st_waiters demo3).
Proof. exact (proj1 (allocate_fifo demo_sys demo_reachable)). Defined.
