(* ===== verification/ReplayCache.v ===== *)
(** * The router-replay caches

    Source: [src/arctic_platform/inference/server/router_replay/cache.py].

    [_RouterReplayCacheBase] and its two subclasses share one record [cache]; the two methods
    that [RouterReplayCacheTX] overrides are the class [CacheHooks], with the instances
    [base_hooks] (base class and RX) and [tx_hooks].  [CacheHooksOk] states what [_put] needs
    of them, so that its theorems hold for both subclasses.

    A method returns the new cache beside its result, because several of them change the
    cache and then raise (a rejected [put] keeps its evictions).  Every method runs under
    [self._lock] and is one step; [time.monotonic()] is an argument.  Times are integers
    (ticks); [int(max_bytes * low_watermark_ratio)] is computed exactly.  Eviction summaries,
    which are only logged, and the stripes of locks are not modelled. *)

From stdpp Require Import prelude strings list sorting.
From Stdlib Require Import ZArith QArith Qminmax Qround Lia ZifyNat ZifyBool.
From S2P Require Import Prelude Dict.
Local Open Scope Z_scope.

(** ** Data *)

Definition EXACT_REPLAY_ID_PREFIX : string := "rr1:".

Definition is_exact_replay_id (sample_id : string) : bool := String.prefix EXACT_REPLAY_ID_PREFIX sample_id.

Inductive rr_dtype := UInt8 | UInt16 | Int32 | Int64.

Record rr_tensor := RRTensor { rr_dt : rr_dtype; rr_shape : list nat; rr_values : list Z }.

(** What a caller may hand to [put]. *)
Inductive put_value := PutTensor (t : rr_tensor) | PutArray (t : rr_tensor) | PutOther.

Definition element_size (t : rr_tensor) : Z :=
  match rr_dt t with UInt8 => 1 | UInt16 => 2 | Int32 => 4 | Int64 => 8 end.

Definition numel (t : rr_tensor) : Z := Z.of_nat (foldr Nat.mul 1%nat (rr_shape t)).

Definition nbytes (t : rr_tensor) : Z := element_size t * numel t.

(** [_coerce]: 8- and 16-bit tensors are kept, others wrap to 8 bits; the device copy and the
    clone do not change the value. *)
Definition coerce (v : put_value) : res rr_tensor :=
  match v with
  | PutOther => Raise (TypeError "router-replay cache.put expects torch.Tensor or np.ndarray")
  | PutTensor t | PutArray t =>
      Ok match rr_dt t with
         | UInt8 | UInt16 => t
         | _ => RRTensor UInt8 (rr_shape t) ((fun z => z mod 256) <$> rr_values t)
         end
  end.

Record config := Config {
  max_bytes : Z;
  ttl_s : Z;
  evict_min_age_s : Z;
  low_watermark_ratio : Q;
}.

Record counters := Counters {
  n_put : nat; n_overwrite : nat; n_duplicate_rejected : nat; n_pop : nat; n_discard : nat;
  n_evicted_lru : nat; n_evicted_ttl : nat;
}.

Record cache := Cache {
  cfg : config;
  data : list (string * rr_tensor);
  sizes : list (string * Z);
  created_at : list (string * Z);
  last_touched : list (string * Z);
  bytes_in_use : Z;
  peak_bytes_in_use : Z;
  tombstones : list (string * Z);
  stats : counters;
}.

(** [__init__]; the environment variables of the TX cache are clamped. *)
Definition cache_init (maxb ttl min_age : Z) (ratio : Q) : cache :=
  Cache (Config maxb (Z.max 0 ttl) (Z.max 0 min_age) (Qmin 1 (Qmax (1 # 10) ratio)))
    [] [] [] [] 0 0 [] (Counters 0 0 0 0 0 0 0).

Definition with_stats (f : counters -> counters) (c : cache) : cache :=
  Cache (cfg c) (data c) (sizes c) (created_at c) (last_touched c) (bytes_in_use c)
    (peak_bytes_in_use c) (tombstones c) (f (stats c)).

Definition with_tombstones (ts : list (string * Z)) (c : cache) : cache :=
  Cache (cfg c) (data c) (sizes c) (created_at c) (last_touched c) (bytes_in_use c)
    (peak_bytes_in_use c) ts (stats c).

Definition with_touched (ts : list (string * Z)) (c : cache) : cache :=
  Cache (cfg c) (data c) (sizes c) (created_at c) ts (bytes_in_use c)
    (peak_bytes_in_use c) (tombstones c) (stats c).

Definition held (c : cache) (sid : string) : bool := bool_decide (is_Some (dict_get (data c) sid)).

(** [_data.pop(sid)] followed by [_remove_metadata_locked(sid)], and the bytes released. *)
Definition remove_entry (sid : string) (c : cache) : Z * cache :=
  let removed := default 0 (dict_get (sizes c) sid) in
  (removed, Cache (cfg c) (dict_del (data c) sid) (dict_del (sizes c) sid) (dict_del (created_at c) sid)
              (dict_del (last_touched c) sid) (bytes_in_use c - removed) (peak_bytes_in_use c)
              (tombstones c) (stats c)).

(** ** The base class *)

Class CacheHooks := {
  suppress_put_new : string -> Z -> cache -> bool * cache;
  evict_for_put : string -> Z -> Z -> cache -> Z * cache;
}.

Definition bump_put (overwrite : bool) (k : counters) : counters :=
  Counters (S (n_put k)) (if overwrite then S (n_overwrite k) else n_overwrite k)
    (n_duplicate_rejected k) (n_pop k) (n_discard k) (n_evicted_lru k) (n_evicted_ttl k).
Definition bump_duplicate (k : counters) : counters :=
  Counters (n_put k) (n_overwrite k) (S (n_duplicate_rejected k)) (n_pop k) (n_discard k)
    (n_evicted_lru k) (n_evicted_ttl k).
Definition bump_pop (k : counters) : counters :=
  Counters (n_put k) (n_overwrite k) (n_duplicate_rejected k) (S (n_pop k)) (n_discard k)
    (n_evicted_lru k) (n_evicted_ttl k).
Definition bump_discard (n : nat) (k : counters) : counters :=
  Counters (n_put k) (n_overwrite k) (n_duplicate_rejected k) (n_pop k) (n + n_discard k)%nat
    (n_evicted_lru k) (n_evicted_ttl k).
Definition bump_lru (k : counters) : counters :=
  Counters (n_put k) (n_overwrite k) (n_duplicate_rejected k) (n_pop k) (n_discard k)
    (S (n_evicted_lru k)) (n_evicted_ttl k).
Definition bump_ttl (k : counters) : counters :=
  Counters (n_put k) (n_overwrite k) (n_duplicate_rejected k) (n_pop k) (n_discard k)
    (n_evicted_lru k) (S (n_evicted_ttl k)).

(** The insertion at the end of [_put]. *)
Definition store_entry (sid : string) (t : rr_tensor) (now projected : Z) (c : cache) : cache :=
  Cache (cfg c) (dict_set (data c) sid t) (dict_set (sizes c) sid (nbytes t))
    (if held c sid then created_at c else dict_set (created_at c) sid now)
    (dict_set (last_touched c) sid now) projected (Z.max (peak_bytes_in_use c) projected)
    (tombstones c) (bump_put (held c sid) (stats c)).

Definition cache_full : exn := RuntimeError "RouterReplayCacheFull".
Definition duplicate_error : exn := RuntimeError "RouterReplayDuplicateError".

Section base.
Context {hooks : CacheHooks}.

(** [_put]. *)
Definition put_core (sid : string) (v : put_value) (replace : bool) (now : Z) (c : cache) : cache * res unit :=
  match coerce v with
  | Raise e => (c, Raise e)
  | Ok t =>
      let '(suppressed, c) := if replace then (false, c) else suppress_put_new sid now c in
      if suppressed then (c, Ok ())
      else if negb replace && held c sid then (with_stats bump_duplicate c, Raise duplicate_error)
      else
        let old_bytes := default 0 (dict_get (sizes c) sid) in
        let '(projected, c) := evict_for_put sid (bytes_in_use c - old_bytes + nbytes t) now c in
        if max_bytes (cfg c) <? projected then (c, Raise cache_full)
        else (store_entry sid t now projected c, Ok ())
  end.

Definition cache_put (sid : string) (v : put_value) (now : Z) (c : cache) : cache * res unit :=
  put_core sid v true now c.

Definition base_put_new (sid : string) (v : put_value) (now : Z) (c : cache) : cache * res unit :=
  put_core sid v false now c.
End base.

Definition cache_pop (sid : string) (c : cache) : cache * res rr_tensor :=
  match dict_get (data c) sid with
  | None => (c, Raise (KeyError sid))
  | Some t => (with_stats bump_pop (remove_entry sid c).2, Ok t)
  end.

Definition cache_get (sid : string) (now : Z) (c : cache) : cache * res rr_tensor :=
  match dict_get (data c) sid with
  | None => (c, Raise (KeyError sid))
  | Some t => (with_touched (dict_set (last_touched c) sid now) c, Ok t)
  end.

(** The loop of [discard]: the number of entries removed, and the cache. *)
Definition discard_one (acc : nat * cache) (sid : string) : nat * cache :=
  let '(removed, c) := acc in
  if held c sid then (S removed, (remove_entry sid c).2) else (removed, c).

Definition base_discard (sample_ids : list string) (c : cache) : cache * res nat :=
  let '(removed, c) := fold_left discard_one sample_ids (0%nat, c) in
  (with_stats (bump_discard removed) c, Ok removed).

Definition base_clear (c : cache) : cache * res nat :=
  (Cache (cfg c) [] [] [] [] 0 (peak_bytes_in_use c) (tombstones c) (stats c), Ok (length (data c))).

Definition held_sample_ids (c : cache) : list string := dict_keys (data c).

Definition cache_peek (sid : string) (c : cache) : option (list nat * rr_dtype * res Z) :=
  match dict_get (data c) sid with
  | None => None
  | Some t => Some (rr_shape t, rr_dt t,
                    match dict_get (sizes c) sid with Some n => Ok n | None => Raise (KeyError sid) end)
  end.

#[export] Instance base_hooks : CacheHooks := {
  suppress_put_new _ _ c := (false, c);
  evict_for_put _ projected _ c := (projected, c);
}.

(** ** The TX cache *)

(** The [while] loop of [_expire_tombstones_locked]. *)
Fixpoint drop_expired (ttl now : Z) (ts : list (string * Z)) : list (string * Z) :=
  match ts with
  | [] => []
  | (sid, created) :: rest => if now - created <? ttl then ts else drop_expired ttl now rest
  end.

Definition expire_tombstones (now : Z) (c : cache) : cache :=
  if ttl_s (cfg c) <=? 0 then c
  else with_tombstones (drop_expired (ttl_s (cfg c)) now (tombstones c)) c.

Definition tx_suppress_put_new (sid : string) (now : Z) (c : cache) : bool * cache :=
  let c := expire_tombstones now c in
  (is_exact_replay_id sid && bool_decide (is_Some (dict_get (tombstones c) sid)), c).

(** The loop over the [expired] entries of [_evict_for_put_locked]. *)
Definition evict_ttl_one (acc : Z * cache) (sid : string) : Z * cache :=
  let '(projected, c) := acc in
  if held c sid then
    let '(removed, c) := remove_entry sid c in (projected - removed, with_stats bump_ttl c)
  else (projected, c).

Definition expired_ids (sid : string) (now : Z) (c : cache) : list string :=
  (filter (fun kv => kv.1 <> sid /\ ttl_s (cfg c) <= now - kv.2) (created_at c)).*1.

(** The loop of [_evict_lru_locked] over the candidates [(touched_at, sid)]. *)
Fixpoint evict_lru_loop (cands : list (Z * string)) (target now : Z) (respect_min_age : bool)
    (projected : Z) (c : cache) : Z * cache :=
  match cands with
  | [] => (projected, c)
  | (touched, s) :: rest =>
      if projected <=? target then (projected, c)
      else if respect_min_age && (now - default touched (dict_get (created_at c) s) <? evict_min_age_s (cfg c))
      then evict_lru_loop rest target now respect_min_age projected c
      else
        let '(removed, c) := remove_entry s c in
        evict_lru_loop rest target now respect_min_age (projected - removed) (with_stats bump_lru c)
  end.

Definition touched_of (now : Z) (c : cache) (s : string) : Z :=
  default (default now (dict_get (created_at c) s)) (dict_get (last_touched c) s).

Definition lru_candidates (sid : string) (now : Z) (c : cache) : list (Z * string) :=
  py_sorted (by_key fst Z.ltb)
    ((fun s => (touched_of now c s, s)) <$> filter (fun s => s <> sid) (dict_keys (data c))).

Definition evict_lru (sid : string) (projected target now : Z) (respect_min_age : bool) (c : cache) : Z * cache :=
  evict_lru_loop (lru_candidates sid now c) target now respect_min_age projected c.

Definition tx_evict_for_put (sid : string) (projected now : Z) (c : cache) : Z * cache :=
  let '(projected, c) :=
    if 0 <? ttl_s (cfg c) then fold_left evict_ttl_one (expired_ids sid now c) (projected, c)
    else (projected, c) in
  if projected <=? max_bytes (cfg c) then (projected, c)
  else
    let target := Z.min (Qfloor (inject_Z (max_bytes (cfg c)) * low_watermark_ratio (cfg c))) (max_bytes (cfg c)) in
    let '(projected, c) := evict_lru sid projected target now true c in
    if projected <=? max_bytes (cfg c) then (projected, c)
    else evict_lru sid projected (max_bytes (cfg c)) now false c.

Definition tx_hooks : CacheHooks := {|
  suppress_put_new := tx_suppress_put_new;
  evict_for_put := tx_evict_for_put;
|}.

Definition tx_put (sid : string) (v : put_value) (now : Z) (c : cache) : cache * res unit :=
  cache_put (hooks := tx_hooks) sid v now c.

(** [RouterReplayCacheTX.put_new] reads the clock twice: [now] for its own check and [now']
    inside [_put]. *)
Definition tx_put_new (sid : string) (v : put_value) (now now' : Z) (c : cache) : cache * res unit :=
  if negb (is_exact_replay_id sid) then base_put_new (hooks := tx_hooks) sid v now' c
  else
    let '(suppressed, c) := tx_suppress_put_new sid now c in
    if suppressed then (c, Ok ()) else base_put_new (hooks := tx_hooks) sid v now' c.

Definition tx_snapshot (now : Z) (c : cache) : cache * res (list (string * rr_tensor)) :=
  (with_touched (fold_left (fun ts sid => dict_set ts sid now) (dict_keys (data c)) (last_touched c)) c,
   Ok (data c)).

Definition tx_discard_one (now : Z) (acc : nat * cache) (sid : string) : nat * cache :=
  let '(removed, c) := acc in
  if held c sid then (S removed, (remove_entry sid c).2)
  else if is_exact_replay_id sid then
    (removed, with_tombstones (dict_set (dict_del (tombstones c) sid) sid now) c)
  else (removed, c).

Definition tx_discard (sample_ids : list string) (now : Z) (c : cache) : cache * res nat :=
  let '(removed, c) := fold_left (tx_discard_one now) sample_ids (0%nat, expire_tombstones now c) in
  (with_stats (bump_discard removed) c, Ok removed).

Definition tx_clear (c : cache) : cache * res nat :=
  (Cache (cfg c) [] [] [] [] 0 (peak_bytes_in_use c) [] (stats c), Ok (length (data c))).

(** ** Runs of the two caches

    A call takes place at a time [t]; [t'] is the second clock reading of [put_new]. *)

Inductive cache_op :=
  | OpPut (sid : string) (v : put_value)
  | OpPutNew (sid : string) (v : put_value)
  | OpPop (sid : string)
  | OpGet (sid : string)
  | OpDiscard (sids : list string)
  | OpSnapshot
  | OpClear.

Definition base_exec (op : cache_op) (t t' : Z) (c : cache) : cache :=
  match op with
  | OpPut sid v => (cache_put sid v t c).1
  | OpPutNew sid v => (base_put_new sid v t c).1
  | OpPop sid => (cache_pop sid c).1
  | OpGet sid => (cache_get sid t c).1
  | OpDiscard sids => (base_discard sids c).1
  | OpSnapshot => c
  | OpClear => (base_clear c).1
  end.

Definition tx_exec (op : cache_op) (t t' : Z) (c : cache) : cache :=
  match op with
  | OpPut sid v => (tx_put sid v t c).1
  | OpPutNew sid v => (tx_put_new sid v t t' c).1
  | OpPop sid => (cache_pop sid c).1
  | OpGet sid => (cache_get sid t c).1
  | OpDiscard sids => (tx_discard sids t c).1
  | OpSnapshot => (tx_snapshot t c).1
  | OpClear => (tx_clear c).1
  end.

(** [cache_run exec now c now' c']: calls in clock order lead from [c] at [now] to [c'] at [now']. *)
Inductive cache_run (ok : cache_op -> Prop) (exec : cache_op -> Z -> Z -> cache -> cache) :
    Z -> cache -> Z -> cache -> Prop :=
  | run_nil now c : cache_run ok exec now c now c
  | run_step now c op t t' now' c' :
      ok op -> now <= t -> t <= t' -> cache_run ok exec t' (exec op t t' c) now' c' ->
      cache_run ok exec now c now' c'.

(** ** The invariant *)

Record cache_inv (c : cache) : Prop := {
  ci_sizes : dict_keys (sizes c) = dict_keys (data c);
  ci_created : dict_keys (created_at c) = dict_keys (data c);
  ci_touched : dict_keys (last_touched c) = dict_keys (data c);
  ci_nodup : NoDup (dict_keys (data c));
  ci_bytes : forall sid t, dict_get (data c) sid = Some t -> dict_get (sizes c) sid = Some (nbytes t);
  ci_total : bytes_in_use c = sumZ (sizes c).*2;
  ci_peak : bytes_in_use c <= peak_bytes_in_use c <= max_bytes (cfg c);
}.

Lemma nbytes_nonneg t : 0 <= nbytes t.
Proof. unfold nbytes, numel, element_size. destruct (rr_dt t); lia. Qed.

Lemma sizes_nonneg c : cache_inv c -> Forall (fun n => 0 <= n) (sizes c).*2.
Proof.
  intros HI. apply Forall_forall. intros n Hn. apply list_elem_of_fmap in Hn as ([sid n'] & -> & Hs). simpl.
  apply (dict_elem_get) in Hs; [|rewrite (ci_sizes _ HI); apply HI].
  assert (Hd : sid ∈ dict_keys (data c)).
  { rewrite <- (ci_sizes _ HI). apply dict_get_keys. eauto. }
  apply dict_get_keys in Hd as [t Ht]. apply (ci_bytes _ HI) in Ht. simplify_eq. apply nbytes_nonneg.
Qed.

Lemma size_nonneg c sid : cache_inv c -> 0 <= default 0 (dict_get (sizes c) sid).
Proof.
  intros HI. destruct (dict_get (sizes c) sid) as [n|] eqn:E; simpl; [|lia].
  pose proof (sizes_nonneg c HI) as HF. rewrite Forall_forall in HF. apply HF.
  apply dict_get_elem in E. by apply (list_elem_of_fmap_2 snd _ (sid, n)).
Qed.

Lemma cache_inv_init maxb ttl age r : 0 <= maxb -> cache_inv (cache_init maxb ttl age r).
Proof. intros H. split; simpl; try done. apply NoDup_nil_2. Qed.

(** Only the entries matter: counters and tombstones may change. *)
Lemma cache_inv_ext c c' :
  cfg c' = cfg c -> data c' = data c -> sizes c' = sizes c -> created_at c' = created_at c ->
  dict_keys (last_touched c') = dict_keys (last_touched c) -> bytes_in_use c' = bytes_in_use c ->
  peak_bytes_in_use c' = peak_bytes_in_use c -> cache_inv c -> cache_inv c'.
Proof. intros E1 E2 E3 E4 E5 E6 E7 []. split; rewrite ?E1, ?E2, ?E3, ?E4, ?E5, ?E6, ?E7; done. Qed.

Lemma with_stats_inv f c : cache_inv c -> cache_inv (with_stats f c).
Proof. by apply cache_inv_ext. Qed.

Lemma with_tombstones_inv ts c : cache_inv c -> cache_inv (with_tombstones ts c).
Proof. by apply cache_inv_ext. Qed.

Lemma remove_entry_inv sid c : cache_inv c -> cache_inv (remove_entry sid c).2.
Proof.
  intros HI. pose proof (size_nonneg c sid HI). destruct HI as [H1 H2 H3 H4 H5 H6 H7].
  split; simpl; rewrite ?dict_keys_del, ?H1, ?H2, ?H3; try done.
  - by apply NoDup_filter.
  - intros s t. destruct (decide (s = sid)) as [->|]; [by rewrite dict_get_del_eq|].
    rewrite !dict_get_del_ne by done. apply H5.
  - rewrite dict_sum_del by (rewrite H1; done). lia.
  - lia.
Qed.

#[export] Hint Resolve with_stats_inv with_tombstones_inv remove_entry_inv cache_inv_init : arctic.

(** What [_put] needs of the two overridable methods: they keep the invariant and the
    configuration, an eviction accounts for the bytes it frees, never touches the entry that
    is being written and never invents an entry. *)
Record evicts (sid : string) (p : Z) (c : cache) (p' : Z) (c' : cache) : Prop := {
  ev_inv : cache_inv c';
  ev_cfg : cfg c' = cfg c;
  ev_peak : peak_bytes_in_use c' = peak_bytes_in_use c;
  ev_bytes : bytes_in_use c - bytes_in_use c' = p - p';
  ev_down : p' <= p;
  ev_tomb : tombstones c' = tombstones c;
  ev_self : dict_get (data c') sid = dict_get (data c) sid;
  ev_size : dict_get (sizes c') sid = dict_get (sizes c) sid;
  ev_sub : forall s t, dict_get (data c') s = Some t -> dict_get (data c) s = Some t;
}.

Class CacheHooksOk (hooks : CacheHooks) := {
  suppress_ok : forall sid now c, exists ts, (suppress_put_new sid now c).2 = with_tombstones ts c;
  evict_ok : forall sid p now c, cache_inv c ->
    evicts sid p c (evict_for_put sid p now c).1 (evict_for_put sid p now c).2;
}.

Lemma evicts_refl sid p c : cache_inv c -> evicts sid p c p c.
Proof. intros. split; auto; lia. Qed.

Lemma evicts_trans sid p c p1 c1 p2 c2 :
  evicts sid p c p1 c1 -> evicts sid p1 c1 p2 c2 -> evicts sid p c p2 c2.
Proof. intros [] []. split; try congruence; try lia; auto. Qed.

Lemma evicts_remove sid s p c f :
  cache_inv c -> s <> sid ->
  evicts sid p c (p - (remove_entry s c).1) (with_stats f (remove_entry s c).2).
Proof.
  intros HI Hne. pose proof (size_nonneg c s HI).
  split; [auto with arctic|..]; simpl; try done; try lia; try (by apply dict_get_del_ne).
  intros k t. destruct (decide (k = s)) as [->|]; [by rewrite dict_get_del_eq|]. by rewrite dict_get_del_ne.
Qed.

(** ** Evictions of the TX cache *)

Lemma evict_ttl_ok sid p c l :
  cache_inv c -> sid ∉ l ->
  evicts sid p c (fold_left evict_ttl_one l (p, c)).1 (fold_left evict_ttl_one l (p, c)).2.
Proof.
  revert p c; induction l as [|s l IH]; intros p c HI Hl; simpl; [by apply evicts_refl|].
  apply not_elem_of_cons in Hl as [Hne Hl]. destruct (held c s) eqn:E; [|by apply IH].
  pose proof (evicts_remove sid s p c bump_ttl HI ltac:(congruence)) as He. simpl in He.
  eapply evicts_trans; [exact He|]. apply IH; [by destruct He|done].
Qed.

Lemma evict_lru_loop_ok sid cands target now b p c :
  cache_inv c -> sid ∉ cands.*2 ->
  evicts sid p c (evict_lru_loop cands target now b p c).1 (evict_lru_loop cands target now b p c).2.
Proof.
  revert p c; induction cands as [|[tt s] l IH]; intros p c HI Hl; simpl; [by apply evicts_refl|].
  apply not_elem_of_cons in Hl as [Hne Hl].
  destruct (p <=? target); [by apply evicts_refl|]. destruct (b && _); [by apply IH|].
  pose proof (evicts_remove sid s p c bump_lru HI ltac:(simpl in Hne; congruence)) as He. simpl in He.
  eapply evicts_trans; [exact He|]. apply IH; [by destruct He|done].
Qed.

Lemma lru_candidates_perm sid now c :
  lru_candidates sid now c ≡ₚ (fun s => (touched_of now c s, s)) <$> filter (fun s => s <> sid) (dict_keys (data c)).
Proof. apply py_sorted_perm. Qed.

Lemma lru_candidates_ids sid now c :
  (lru_candidates sid now c).*2 ≡ₚ filter (fun s => s <> sid) (dict_keys (data c)).
Proof. rewrite lru_candidates_perm, <- list_fmap_compose. simpl. by rewrite list_fmap_id. Qed.

Lemma evict_lru_ok sid p target now b c :
  cache_inv c -> evicts sid p c (evict_lru sid p target now b c).1 (evict_lru sid p target now b c).2.
Proof.
  intros HI. apply evict_lru_loop_ok; [done|]. rewrite lru_candidates_ids. by intros [? _]%list_elem_of_filter.
Qed.

(** Without the age guard the loop reaches its target or removes every candidate. *)
Lemma evict_lru_loop_total cands target now p c :
  let '(p', c') := evict_lru_loop cands target now false p c in
  p' <= target \/ forall s, s ∈ dict_keys (data c') -> s ∈ dict_keys (data c) /\ s ∉ cands.*2.
Proof.
  revert p c; induction cands as [|[tt s] l IH]; intros p c; simpl; [set_solver|].
  destruct (Z.leb_spec p target); [by left|].
  specialize (IH (p - default 0 (dict_get (sizes c) s)) (with_stats bump_lru (remove_entry s c).2)).
  simpl in *. destruct (evict_lru_loop _ _ _ _ _ _) as [p' c'].
  destruct IH as [IH|IH]; [by left|right]. intros k [Hk Hl]%IH. rewrite dict_keys_del in Hk.
  apply list_elem_of_filter in Hk as [? ?]. split; [done|]. rewrite not_elem_of_cons. done.
Qed.

Lemma only_entry_bytes c sid :
  cache_inv c -> (forall s, s ∈ dict_keys (data c) -> s = sid) ->
  bytes_in_use c = default 0 (dict_get (sizes c) sid).
Proof.
  intros HI Honly. rewrite (ci_total _ HI). pose proof (dict_sum_del (sizes c) sid) as Hs.
  rewrite (ci_sizes _ HI) in Hs. specialize (Hs (ci_nodup _ HI)).
  assert (E : dict_del (sizes c) sid = []).
  { apply filter_none. intros [k v] Hkv Hne. apply Hne, Honly. rewrite <- (ci_sizes _ HI).
    by apply (list_elem_of_fmap_2 fst _ (k, v)). }
  rewrite E in Hs. simpl in Hs. lia.
Qed.

Lemma expired_ids_self sid now c : sid ∉ expired_ids sid now c.
Proof.
  unfold expired_ids. intros Hin. apply list_elem_of_fmap in Hin as ([k v] & -> & H).
  apply list_elem_of_filter in H as [[H _] _]. done.
Qed.

Lemma tx_evict_ok sid p now c :
  cache_inv c -> evicts sid p c (tx_evict_for_put sid p now c).1 (tx_evict_for_put sid p now c).2.
Proof.
  intros HI. unfold tx_evict_for_put.
  set (r0 := if 0 <? _ then _ else _). assert (H0 : evicts sid p c r0.1 r0.2).
  { unfold r0. destruct (0 <? _); [|by apply evicts_refl]. apply evict_ttl_ok; [done|apply expired_ids_self]. }
  destruct r0 as [p0 c0]. simpl in H0. destruct (p0 <=? _); [done|].
  set (target := Z.min _ _).
  pose proof (evict_lru_ok sid p0 target now true c0 (ev_inv _ _ _ _ _ H0)) as H1.
  destruct (evict_lru sid p0 target now true c0) as [p1 c1]. simpl in H1.
  pose proof (evicts_trans _ _ _ _ _ _ _ H0 H1) as H01. destruct (p1 <=? _); [done|].
  eapply evicts_trans; [exact H01|]. apply evict_lru_ok. by destruct H1.
Qed.

Lemma expire_tombstones_eq now c : exists ts, expire_tombstones now c = with_tombstones ts c.
Proof.
  unfold expire_tombstones. destruct (_ <=? 0); [|by eexists]. exists (tombstones c). by destruct c.
Qed.

#[export] Instance base_hooks_ok : CacheHooksOk base_hooks.
Proof.
  split; [|intros; by apply evicts_refl]. intros sid now c. exists (tombstones c). by destruct c.
Qed.

#[export] Instance tx_hooks_ok : CacheHooksOk tx_hooks.
Proof. split; [|apply tx_evict_ok]. intros sid now c. apply expire_tombstones_eq. Qed.

(** ** Every method keeps the invariant *)

Lemma held_spec c sid : held c sid = true <-> sid ∈ dict_keys (data c).
Proof. unfold held. rewrite bool_decide_eq_true. symmetry. apply dict_get_keys. Qed.

Lemma store_entry_inv sid t now p c :
  cache_inv c -> p = bytes_in_use c - default 0 (dict_get (sizes c) sid) + nbytes t ->
  p <= max_bytes (cfg c) -> cache_inv (store_entry sid t now p c).
Proof.
  intros [H1 H2 H3 H4 H5 H6 H7] Hp Hmax. unfold store_entry.
  assert (Hkeys : forall A (d : list (string * A)) v, dict_keys d = dict_keys (data c) ->
    dict_keys (dict_set d sid v) = dict_keys (dict_set (data c) sid t)).
  { intros A d v Hd. destruct (decide (sid ∈ dict_keys (data c))).
    - rewrite !dict_keys_set_old; [done|done|by rewrite Hd].
    - rewrite !dict_keys_set_new; [by rewrite Hd|done|by rewrite Hd]. }
  split; simpl; auto with arctic.
  - destruct (held c sid) eqn:E; [|auto]. apply held_spec in E. by rewrite dict_keys_set_old.
  - intros s t'. destruct (decide (s = sid)) as [->|].
    + rewrite !dict_get_set_eq. by intros [= ->].
    + rewrite !dict_get_set_ne by done. apply H5.
  - rewrite dict_sum_set. lia.
  - lia.
Qed.

Lemma put_core_inv (hooks : CacheHooks) `{!CacheHooksOk hooks} sid v b now c :
  cache_inv c -> cache_inv (put_core sid v b now c).1.
Proof.
  intros HI. unfold put_core. destruct (coerce v) as [t|e]; [|done].
  set (r := if b then _ else _). assert (Hr : cache_inv r.2).
  { unfold r. destruct b; [done|]. destruct (suppress_ok sid now c) as [ts ->]. auto with arctic. }
  destruct r as [sup c0]. simpl in Hr. destruct sup; [done|].
  destruct (negb b && held c0 sid); [apply with_stats_inv, Hr|].
  set (p := _ - _ + _). pose proof (evict_ok sid p now c0 Hr) as He.
  destruct (evict_for_put sid p now c0) as [p' c']. simpl in He.
  destruct (Z.ltb_spec (max_bytes (cfg c')) p'); simpl; [by destruct He|].
  apply store_entry_inv; [by destruct He| |done].
  destruct He as [_ _ _ Hb _ _ _ Hs _]. rewrite Hs. unfold p in Hb. lia.
Qed.

Lemma with_touched_inv ts c :
  dict_keys ts = dict_keys (last_touched c) -> cache_inv c -> cache_inv (with_touched ts c).
Proof. intros H. by apply cache_inv_ext. Qed.

Lemma discard_fold_inv (f : nat * cache -> string -> nat * cache) l n c :
  (forall n c s, cache_inv c -> cache_inv (f (n, c) s).2) ->
  cache_inv c -> cache_inv (fold_left f l (n, c)).2.
Proof.
  intros Hf. revert n c; induction l as [|s l IH]; intros n c HI; simpl; [done|].
  specialize (Hf n c s HI). destruct (f (n, c) s). by apply IH.
Qed.

Lemma discard_one_inv n c s : cache_inv c -> cache_inv (discard_one (n, c) s).2.
Proof. intros HI. simpl. destruct (held c s); [|done]. by apply (remove_entry_inv s). Qed.

Lemma tx_discard_one_inv now n c s : cache_inv c -> cache_inv (tx_discard_one now (n, c) s).2.
Proof.
  intros HI. simpl. destruct (held c s); [by apply (remove_entry_inv s)|].
  destruct (is_exact_replay_id s); [|done]. by apply with_tombstones_inv.
Qed.

Lemma expire_tombstones_inv now c : cache_inv c -> cache_inv (expire_tombstones now c).
Proof. destruct (expire_tombstones_eq now c) as [ts ->]. auto with arctic. Qed.

Lemma tx_put_new_inv sid v t t' c : cache_inv c -> cache_inv (tx_put_new sid v t t' c).1.
Proof.
  intros HI. unfold tx_put_new. destruct (negb _); [by apply put_core_inv; [apply _|]|].
  pose proof (expire_tombstones_inv t c HI) as HE. unfold tx_suppress_put_new.
  destruct (_ && _); [done|]. by apply put_core_inv; [apply _|].
Qed.

Lemma snapshot_keys now l (ts : list (string * Z)) :
  (forall s, s ∈ l -> s ∈ dict_keys ts) ->
  dict_keys (fold_left (fun ts sid => dict_set ts sid now) l ts) = dict_keys ts.
Proof.
  revert ts; induction l as [|s l IH]; intros ts Hl; simpl; [done|].
  assert (E : dict_keys (dict_set ts s now) = dict_keys ts) by (apply dict_keys_set_old; set_solver).
  rewrite IH; [done|]. rewrite E. set_solver.
Qed.

Lemma clear_inv c ts : cache_inv c ->
  cache_inv (Cache (cfg c) [] [] [] [] 0 (peak_bytes_in_use c) ts (stats c)).
Proof.
  intros HI. pose proof (sumZ_nonneg _ (sizes_nonneg c HI)). destruct HI.
  split; simpl; try done; [apply NoDup_nil_2|lia].
Qed.

Lemma shared_exec_inv c sid t : cache_inv c -> cache_inv (cache_pop sid c).1 /\ cache_inv (cache_get sid t c).1.
Proof.
  intros HI. unfold cache_pop, cache_get. destruct (dict_get (data c) sid) as [x|] eqn:E; [|done]. split.
  - apply with_stats_inv, remove_entry_inv, HI.
  - apply with_touched_inv; [|done]. apply dict_keys_set_old. rewrite (ci_touched _ HI). apply dict_get_keys. eauto.
Qed.

Lemma base_exec_inv op t t' c : cache_inv c -> cache_inv (base_exec op t t' c).
Proof.
  intros HI. destruct op as [sid v|sid v|sid|sid|sids| |]; simpl; try done.
  - by apply put_core_inv; [apply _|].
  - by apply put_core_inv; [apply _|].
  - by apply (shared_exec_inv c sid t).
  - by apply (shared_exec_inv c sid t).
  - unfold base_discard. pose proof (discard_fold_inv discard_one sids 0 c discard_one_inv HI) as H.
    destruct (fold_left _ _ _). by apply with_stats_inv.
  - by apply clear_inv.
Qed.

Lemma tx_exec_inv op t t' c : cache_inv c -> cache_inv (tx_exec op t t' c).
Proof.
  intros HI. destruct op as [sid v|sid v|sid|sid|sids| |]; simpl.
  - by apply put_core_inv; [apply _|].
  - by apply tx_put_new_inv.
  - by apply (shared_exec_inv c sid t).
  - by apply (shared_exec_inv c sid t).
  - unfold tx_discard. pose proof (discard_fold_inv (tx_discard_one t) sids 0 _ (tx_discard_one_inv t)
      (expire_tombstones_inv t c HI)) as H.
    destruct (fold_left _ _ _). by apply with_stats_inv.
  - apply with_touched_inv; [|done]. apply snapshot_keys. by rewrite (ci_touched _ HI).
  - by apply clear_inv.
Qed.

Lemma cache_run_inv ok exec now c now' c' :
  (forall op t t' c, cache_inv c -> cache_inv (exec op t t' c)) ->
  cache_run ok exec now c now' c' -> cache_inv c -> cache_inv c'.
Proof. intros Hexec. induction 1; auto. Qed.

(** ** When the TX cache is full *)

Lemma size_le_bytes c sid : cache_inv c -> default 0 (dict_get (sizes c) sid) <= bytes_in_use c.
Proof.
  intros HI. rewrite (ci_total _ HI). destruct (dict_get (sizes c) sid) as [n|] eqn:E; simpl.
  - apply sumZ_elem_le; [by apply sizes_nonneg|]. apply dict_get_elem in E.
    by apply (list_elem_of_fmap_2 snd _ (sid, n)).
  - apply sumZ_nonneg. by apply sizes_nonneg.
Qed.

(** An eviction makes room unless the entry alone is too large, in which case nothing else
    is left in the cache. *)
Lemma tx_evict_room sid n now c :
  cache_inv c -> let p := bytes_in_use c - default 0 (dict_get (sizes c) sid) + n in
  let '(p', c') := tx_evict_for_put sid p now c in
  n <= p' /\ (p' <= max_bytes (cfg c) \/
              p' = n /\ forall s, s ∈ dict_keys (data c') -> s = sid).
Proof.
  intros HI p. pose proof (tx_evict_ok sid p now c HI) as He.
  assert (Htotal : (tx_evict_for_put sid p now c).1 <= max_bytes (cfg c) \/
    forall s, s ∈ dict_keys (data (tx_evict_for_put sid p now c).2) -> s = sid).
  { unfold tx_evict_for_put. set (r0 := if 0 <? _ then _ else _).
    assert (H0 : evicts sid p c r0.1 r0.2).
    { unfold r0. destruct (0 <? _); [|by apply evicts_refl]. apply evict_ttl_ok; [done|apply expired_ids_self]. }
    destruct r0 as [p0 c0]. simpl in H0. pose proof (ev_cfg _ _ _ _ _ H0) as Ec0.
    destruct (Z.leb_spec p0 (max_bytes (cfg c0))); [left; simpl; congruence|].
    set (target := Z.min _ _).
    pose proof (evict_lru_ok sid p0 target now true c0 (ev_inv _ _ _ _ _ H0)) as H1.
    destruct (evict_lru sid p0 target now true c0) as [p1 c1]. simpl in H1.
    pose proof (ev_cfg _ _ _ _ _ H1) as Ec1.
    destruct (Z.leb_spec p1 (max_bytes (cfg c1))); [left; simpl; congruence|].
    pose proof (evict_lru_loop_total (lru_candidates sid now c1) (max_bytes (cfg c1)) now p1 c1) as Ht.
    unfold evict_lru. destruct (evict_lru_loop _ _ _ _ _ _) as [p2 c2]. simpl.
    destruct Ht as [Ht|Ht]; [left; congruence|right]. intros s [Hs Hn]%Ht.
    rewrite lru_candidates_ids in Hn. destruct (decide (s = sid)); [done|]. destruct Hn.
    by apply list_elem_of_filter. }
  destruct (tx_evict_for_put sid p now c) as [p' c']. simpl in *.
  pose proof (size_le_bytes c' sid (ev_inv _ _ _ _ _ He)) as Hle.
  destruct He as [Hi Hc _ Hb _ _ _ Hs _]. rewrite Hs in Hle. unfold p in Hb. split; [lia|].
  destruct Htotal as [Ht|Ht]; [by left|right]. split; [|done].
  pose proof (only_entry_bytes c' sid Hi Ht) as Ho. rewrite Hs in Ho. lia.
Qed.

(** [put] on the TX cache, on every branch. *)
Lemma tx_put_cases sid v now c :
  cache_inv c ->
  match coerce v with
  | Raise e => tx_put sid v now c = (c, Raise e)
  | Ok t =>
      let '(c', r) := tx_put sid v now c in
      (forall s x, s <> sid -> dict_get (data c') s = Some x -> dict_get (data c) s = Some x) /\
      if nbytes t <=? max_bytes (cfg c)
      then r = Ok () /\ dict_get (data c') sid = Some t
      else r = Raise cache_full /\ dict_get (data c') sid = dict_get (data c) sid /\
           forall s, s ∈ dict_keys (data c') -> s = sid
  end.
Proof.
  intros HI. unfold tx_put, cache_put, put_core. destruct (coerce v) as [t|e]; [|done].
  cbn [negb andb evict_for_put tx_hooks].
  pose proof (tx_evict_room sid (nbytes t) now c HI) as Hr.
  pose proof (tx_evict_ok sid (bytes_in_use c - default 0 (dict_get (sizes c) sid) + nbytes t) now c HI) as He.
  cbn zeta in Hr. destruct (tx_evict_for_put _ _ _ _) as [p' c']. destruct He as [_ Hc _ _ _ _ Hself _ Hsub].
  simpl in *. rewrite Hc. destruct Hr as [Hge Hor].
  destruct (Z.ltb_spec (max_bytes (cfg c)) p').
  - destruct Hor as [|[-> Hall]]; [lia|]. replace (_ <=? _) with false by lia. split; [|done]. auto.
  - replace (_ <=? _) with true by lia. simpl. rewrite dict_get_set_eq. split; [|done].
    intros s x Hne. rewrite dict_get_set_ne by done. apply Hsub.
Qed.

(** ** The order of LRU evictions *)

Definition age_of (now : Z) (c : cache) (s : string) : Z := now - default 0 (dict_get (created_at c) s).

(** What the loop promises for an entry [a] it removes: it was old enough, and every
    candidate that stays was touched later or was spared by the age guard. *)
Definition lru_victim (cands : list (Z * string)) (now : Z) (b : bool) (c c' : cache) (ta : Z) (a : string) : Prop :=
  (b = true -> evict_min_age_s (cfg c) <= age_of now c a) /\
  forall tb x, (tb, x) ∈ cands -> x ∈ dict_keys (data c') ->
    ta <= tb \/ (b = true /\ age_of now c x < evict_min_age_s (cfg c)).

Lemma evict_lru_loop_sub cands target now b p c s :
  cache_inv c -> s ∈ dict_keys (data (evict_lru_loop cands target now b p c).2) -> s ∈ dict_keys (data c).
Proof.
  revert p c; induction cands as [|[t0 k] l IH]; intros p c HI; simpl; [done|].
  destruct (p <=? target); [done|]. destruct (b && _); [by apply IH|].
  intros H%IH; [|by apply (with_stats_inv bump_lru), remove_entry_inv].
  simpl in H. rewrite dict_keys_del in H. by apply list_elem_of_filter in H as [_ H].
Qed.

Lemma age_of_remove now c s x f : x <> s -> age_of now (with_stats f (remove_entry s c).2) x = age_of now c x.
Proof. intros H. unfold age_of. simpl. by rewrite dict_get_del_ne. Qed.

Lemma evict_lru_loop_order cands target now b p c :
  StronglySorted (fun x y => x.1 <= y.1) cands -> NoDup cands.*2 -> cache_inv c ->
  (forall x, x ∈ cands.*2 -> x ∈ dict_keys (data c)) ->
  forall ta a, (ta, a) ∈ cands -> a ∉ dict_keys (data (evict_lru_loop cands target now b p c).2) ->
    lru_victim cands now b c (evict_lru_loop cands target now b p c).2 ta a.
Proof.
  revert p c; induction cands as [|[t0 s] l IH]; intros p c HS HN HI Hin ta a Ha; [set_solver|].
  apply StronglySorted_inv in HS as [HS Hs]. apply NoDup_cons in HN as [Hsl HN]. simpl in Hsl.
  rewrite Forall_forall in Hs. cbn [evict_lru_loop]. csimpl in Hin.
  destruct (p <=? target); [set_solver|].
  assert (Hdef : now - default t0 (dict_get (created_at c) s) = age_of now c s).
  { assert (Hcr : s ∈ dict_keys (created_at c)) by (rewrite (ci_created _ HI); apply Hin; left).
    apply dict_get_keys in Hcr as [y Hy]. unfold age_of. by rewrite Hy. }
  rewrite Hdef. destruct (b && (age_of now c s <? evict_min_age_s (cfg c))) eqn:Eb; intros Hgone.
  - apply andb_true_iff in Eb as [-> Eb]. apply elem_of_cons in Ha as [[= -> ->]|Ha].
    + destruct Hgone. pose proof (evict_lru_loop_ok s l target now true p c HI Hsl) as He.
      apply dict_get_keys. rewrite (ev_self _ _ _ _ _ He). apply dict_get_keys, Hin. left.
    + destruct (IH p c HS HN HI (fun x Hx => Hin x (proj2 (elem_of_cons _ _ _) (or_intror Hx))) ta a Ha Hgone) as [H1 H2].
      split; [done|]. intros tb x [[= -> ->]|Hx]%elem_of_cons Hd; [right; split; [done|lia]|eauto].
  - set (c1 := with_stats bump_lru (remove_entry s c).2) in *.
    simpl in Hgone |- *. fold c1 in Hgone |- *.
    assert (HI1 : cache_inv c1) by (by apply with_stats_inv, remove_entry_inv).
    assert (Hk1 : dict_keys (data c1) = filter (fun k => k <> s) (dict_keys (data c))) by apply dict_keys_del.
    assert (Hnl : forall tx x, (tx, x) ∈ l -> x <> s).
    { intros tx x Hx ->. apply Hsl. by apply (list_elem_of_fmap_2 snd _ (tx, s)). }
    assert (Hstay : forall tb x, (tb, x) ∈ (t0, s) :: l ->
      x ∈ dict_keys (data (evict_lru_loop l target now b (p - default 0 (dict_get (sizes c) s)) c1).2) -> (tb, x) ∈ l).
    { intros tb x [[= -> ->]|Hx]%elem_of_cons Hd; [|done]. apply evict_lru_loop_sub in Hd; [|done].
      rewrite Hk1 in Hd. by apply list_elem_of_filter in Hd as [Hd _]. }
    apply elem_of_cons in Ha as [[= -> ->]|Ha].
    + split; [intros ->; simpl in Eb; lia|]. intros tb x Hx Hd. left. apply (Hs (tb, x)). by eapply Hstay.
    + destruct (IH (p - default 0 (dict_get (sizes c) s)) c1 HS HN HI1) with (ta := ta) (a := a) as [H1 H2]; [|done..|].
      { intros x Hx. rewrite Hk1. apply list_elem_of_filter. split; [|apply Hin; by right].
        intros ->. done. }
      assert (Hage : forall tx x, (tx, x) ∈ l -> age_of now c1 x = age_of now c x)
        by (intros tx x Hx; apply age_of_remove; eauto).
      split; [rewrite <- (Hage ta a Ha); exact H1|]. intros tb x Hx Hd. apply Hstay in Hx as Hl; [|done].
      rewrite <- (Hage tb x Hl). by apply (H2 tb x).
Qed.

Lemma evict_lru_order sid p target now b c a x :
  cache_inv c -> let c' := (evict_lru sid p target now b c).2 in
  a ∈ dict_keys (data c) -> a <> sid -> a ∉ dict_keys (data c') ->
  (b = true -> evict_min_age_s (cfg c) <= age_of now c a) /\
  (x ∈ dict_keys (data c') -> x <> sid ->
   touched_of now c a <= touched_of now c x \/ (b = true /\ age_of now c x < evict_min_age_s (cfg c))).
Proof.
  intros HI c' Ha Hne Hgone. unfold c', evict_lru in *. clear c'.
  set (cands := lru_candidates sid now c) in *.
  assert (Hcand : forall s, s ∈ dict_keys (data c) -> s <> sid -> (touched_of now c s, s) ∈ cands).
  { intros s Hs Hsn. unfold cands. rewrite lru_candidates_perm.
    apply (list_elem_of_fmap_2 (fun s => (touched_of now c s, s))). by apply list_elem_of_filter. }
  destruct (evict_lru_loop_order cands target now b p c) with (ta := touched_of now c a) (a := a) as [H1 H2];
    [..|by apply Hcand|done|].
  - eapply StronglySorted_weaken; [|apply py_sorted_sorted, _]. unfold by_key. intros u v Huv. simpl in Huv. lia.
  - unfold cands. rewrite lru_candidates_ids. apply NoDup_filter, HI.
  - done.
  - intros s Hs. unfold cands in Hs. rewrite lru_candidates_ids in Hs. by apply list_elem_of_filter in Hs as [_ Hs].
  - split; [done|]. intros Hx Hxn. apply (H2 (touched_of now c x) x); [|done]. apply Hcand; [|done].
    by eapply evict_lru_loop_sub.
Qed.

(** ** Tombstones *)

(** [sid] is absent and a tombstone no older than [t] guards it. *)
Definition guarded (sid : string) (t : Z) (c : cache) : Prop :=
  dict_get (data c) sid = None /\ exists t0, t <= t0 /\ dict_get (tombstones c) sid = Some t0.

(** A tombstone set at [t] has not expired at [now]. *)
Definition fresh_at (c : cache) (t now : Z) : Prop := ttl_s (cfg c) <= 0 \/ now - t < ttl_s (cfg c).

Lemma drop_expired_keeps ttl now ts sid t0 :
  dict_get ts sid = Some t0 -> now - t0 < ttl -> dict_get (drop_expired ttl now ts) sid = Some t0.
Proof.
  induction ts as [|[k v] ts IH]; simpl; [done|]. intros Hg Hf.
  destruct (decide (sid = k)) as [->|Hne].
  - injection Hg as ->. destruct (Z.ltb_spec (now - t0) ttl); [|lia]. simpl. by rewrite decide_True.
  - destruct (now - v <? ttl); [|auto]. simpl. by rewrite decide_False.
Qed.

Lemma expire_guarded sid t now c : guarded sid t c -> fresh_at c t now -> guarded sid t (expire_tombstones now c).
Proof.
  intros (Hd & t0 & Ht & Hg) Hf. unfold expire_tombstones. destruct (Z.leb_spec (ttl_s (cfg c)) 0).
  { split; eauto. }
  split; [done|]. exists t0. split; [done|]. simpl. apply drop_expired_keeps; [done|].
  destruct Hf; lia.
Qed.

Lemma expire_cfg now c : cfg (expire_tombstones now c) = cfg c.
Proof. by destruct (expire_tombstones_eq now c) as [ts ->]. Qed.

Lemma guarded_suppressed sid t now c :
  is_exact_replay_id sid = true -> guarded sid t c -> fresh_at c t now ->
  tx_suppress_put_new sid now c = (true, expire_tombstones now c).
Proof.
  intros He Hg Hf. destruct (expire_guarded _ _ _ _ Hg Hf) as (_ & t0 & _ & Ht).
  unfold tx_suppress_put_new. rewrite He, Ht. done.
Qed.

Lemma tx_put_new_guarded sid v t now now' c :
  is_exact_replay_id sid = true -> guarded sid t c -> fresh_at c t now ->
  tx_put_new sid v now now' c = (expire_tombstones now c, Ok ()).
Proof. intros He Hg Hf. unfold tx_put_new. rewrite He. cbn [negb]. by erewrite guarded_suppressed. Qed.

Lemma put_core_tx_guarded sid t s v b now c :
  cache_inv c -> s <> sid -> guarded sid t c -> fresh_at c t now ->
  guarded sid t (put_core (hooks := tx_hooks) s v b now c).1 /\
  cfg (put_core (hooks := tx_hooks) s v b now c).1 = cfg c.
Proof.
  intros HI Hne Hg Hf. unfold put_core. destruct (coerce v) as [x|e]; [|done].
  set (r := if b then _ else _). assert (Hr : cache_inv r.2 /\ guarded sid t r.2 /\ cfg r.2 = cfg c).
  { unfold r. destruct b; [done|]. simpl. rewrite expire_cfg. split; [by apply expire_tombstones_inv|].
    split; [by apply expire_guarded|done]. }
  destruct r as [sup c0]. simpl in Hr. destruct Hr as (HI0 & Hg0 & Hc0). destruct sup; [done|].
  destruct (negb b && held c0 s); [done|]. cbn [evict_for_put tx_hooks].
  pose proof (tx_evict_ok s (bytes_in_use c0 - default 0 (dict_get (sizes c0) s) + nbytes x) now c0 HI0) as He.
  destruct (tx_evict_for_put _ _ _ _) as [p c1]. destruct He as [_ Hc1 _ _ _ Ht1 _ _ Hsub]. simpl in *.
  assert (Hd1 : dict_get (data c1) sid = None).
  { destruct (dict_get (data c1) sid) as [y|] eqn:E; [|done]. apply Hsub in E. destruct Hg0; congruence. }
  destruct (_ <? p); simpl; (split; [|congruence]); split; simpl; rewrite ?dict_get_set_ne, ?Ht1; try done; apply Hg0.
Qed.

Lemma remove_guarded sid t s c : guarded sid t c -> guarded sid t (remove_entry s c).2.
Proof.
  intros [Hd Hg]. split; [|done]. simpl. destruct (decide (s = sid)) as [->|].
  - apply dict_get_del_eq.
  - by rewrite dict_get_del_ne.
Qed.

Lemma tx_discard_one_guarded sid t now n c s :
  t <= now -> guarded sid t c -> guarded sid t (tx_discard_one now (n, c) s).2 /\
  cfg (tx_discard_one now (n, c) s).2 = cfg c.
Proof.
  intros Ht Hg. simpl. destruct (held c s); [split; [by apply remove_guarded|done]|].
  destruct (is_exact_replay_id s); [|done]. split; [|done]. destruct Hg as (Hd & t0 & Ht0 & Hg).
  split; [done|]. simpl. destruct (decide (s = sid)) as [->|].
  - exists now. by rewrite dict_get_set_eq.
  - exists t0. rewrite dict_get_set_ne, dict_get_del_ne by done. done.
Qed.

Lemma tx_discard_fold_guarded sid t now l n c :
  t <= now -> guarded sid t c ->
  guarded sid t (fold_left (tx_discard_one now) l (n, c)).2 /\
  cfg (fold_left (tx_discard_one now) l (n, c)).2 = cfg c.
Proof.
  intros Ht. revert n c; induction l as [|s l IH]; intros n c Hg; cbn [fold_left]; [done|].
  destruct (tx_discard_one_guarded sid t now n c s Ht Hg) as [H1 H2].
  destruct (tx_discard_one now (n, c) s) as [n' c']. simpl in *. destruct (IH n' c' H1). split; [done|congruence].
Qed.

(** A discard that names an absent exact id guards it. *)
Lemma tx_discard_fold_guards sid now l n c :
  is_exact_replay_id sid = true -> dict_get (data c) sid = None -> sid ∈ l ->
  guarded sid now (fold_left (tx_discard_one now) l (n, c)).2.
Proof.
  intros He. revert n c; induction l as [|s l IH]; intros n c Hd Hin; [set_solver|]. cbn [fold_left].
  destruct (decide (s = sid)) as [->|Hne].
  - assert (Hg : guarded sid now (tx_discard_one now (n, c) sid).2).
    { simpl. unfold held. rewrite Hd, He. simpl. split; [done|]. exists now. simpl. by rewrite dict_get_set_eq. }
    destruct (tx_discard_one now (n, c) sid) as [n' c']. by apply tx_discard_fold_guarded.
  - assert (Hd' : dict_get (data (tx_discard_one now (n, c) s).2) sid = None).
    { simpl. destruct (held c s); [simpl; by rewrite dict_get_del_ne|]. by destruct (is_exact_replay_id s). }
    destruct (tx_discard_one now (n, c) s) as [n' c']. apply IH; set_solver.
Qed.

Lemma tx_discard_guards sid sids now c :
  is_exact_replay_id sid = true -> held c sid = false -> sid ∈ sids -> guarded sid now (tx_discard sids now c).1.
Proof.
  intros He Hh Hin. unfold tx_discard.
  assert (Hd : dict_get (data (expire_tombstones now c)) sid = None).
  { destruct (expire_tombstones_eq now c) as [ts ->]. apply bool_decide_eq_false in Hh.
    by apply eq_None_not_Some. }
  pose proof (tx_discard_fold_guards sid now sids 0 _ He Hd Hin) as Hg.
  destruct (fold_left _ _ _) as [n c']. done.
Qed.

(** The calls that may follow a discard without lifting its guard: all but [clear] and an
    unconditional [put] of the same id. *)
Definition keeps_guard (sid : string) (op : cache_op) : Prop :=
  match op with OpClear => False | OpPut s _ => s <> sid | _ => True end.

Lemma tx_exec_guarded sid t op t1 t2 c :
  is_exact_replay_id sid = true -> cache_inv c -> keeps_guard sid op -> t <= t1 -> t1 <= t2 ->
  fresh_at c t t2 -> guarded sid t c ->
  guarded sid t (tx_exec op t1 t2 c) /\ cfg (tx_exec op t1 t2 c) = cfg c.
Proof.
  intros He HI Hok Ht1 Ht2 Hf2 Hg. assert (Hf1 : fresh_at c t t1) by (destruct Hf2; [by left|right; lia]).
  destruct op as [s v|s v|s|s|sids| |]; simpl in Hok |- *; try done.
  - by apply put_core_tx_guarded.
  - destruct (decide (s = sid)) as [->|Hne].
    { erewrite tx_put_new_guarded by done. simpl. rewrite expire_cfg. split; [by apply expire_guarded|done]. }
    unfold tx_put_new. destruct (negb _); [by apply put_core_tx_guarded|].
    unfold tx_suppress_put_new. pose proof (expire_guarded _ _ _ _ Hg Hf1) as Hg1.
    destruct (_ && _); simpl; [by rewrite expire_cfg|]. rewrite <- (expire_cfg t1 c).
    apply put_core_tx_guarded; [by apply expire_tombstones_inv|done..|]. unfold fresh_at. by rewrite expire_cfg.
  - unfold cache_pop. destruct (dict_get (data c) s); [|done]. split; [|done]. apply (remove_guarded sid t s c Hg).
  - unfold cache_get. by destruct (dict_get (data c) s).
  - unfold tx_discard.
    pose proof (tx_discard_fold_guarded sid t t1 sids 0 _ Ht1 (expire_guarded _ _ _ _ Hg Hf1)) as H.
    rewrite expire_cfg in H. destruct (fold_left _ _ _). done.
Qed.

Lemma cache_run_time ok exec now c now' c' : cache_run ok exec now c now' c' -> now <= now'.
Proof. induction 1; lia. Qed.

Lemma tx_run_guarded sid t now c now' c' :
  is_exact_replay_id sid = true -> cache_run (keeps_guard sid) tx_exec now c now' c' ->
  cache_inv c -> t <= now -> fresh_at c t now' -> guarded sid t c -> guarded sid t c' /\ cfg c' = cfg c.
Proof.
  intros He. induction 1 as [|now c op t1 t2 now' c' Hop Hn Ht Hrun IH]; intros HI Htn Hf Hg; [done|].
  pose proof (cache_run_time _ _ _ _ _ _ Hrun) as Hle.
  assert (Hf2 : fresh_at c t t2) by (destruct Hf; [by left|right; lia]).
  destruct (tx_exec_guarded sid t op t1 t2 c He HI Hop ltac:(lia) Ht Hf2 Hg) as [Hg1 Hc1].
  destruct IH as [Hg2 Hc2]; [by apply tx_exec_inv|lia|unfold fresh_at in *; by rewrite Hc1|done|].
  split; [done|congruence].
Qed.

Definition any_op (op : cache_op) : Prop := True.

(** ** Properties *)

(** C7: whatever calls reach a router-replay cache, of either kind and whether they succeed or
    raise, its dictionaries hold the same ids in the same order, [bytes_in_use] is the exact
    number of bytes of the tensors held, and neither it nor the recorded peak ever exceeds
    [max_bytes]. *)
Theorem replay_cache_accounting (tx : bool) (maxb ttl age : Z) (r : Q) (now : Z) (c : cache) :
  0 <= maxb ->
  cache_run any_op (if tx then tx_exec else base_exec) 0 (cache_init maxb ttl age r) now c ->
  dict_keys (sizes c) = dict_keys (data c) /\ dict_keys (created_at c) = dict_keys (data c) /\
  dict_keys (last_touched c) = dict_keys (data c) /\ NoDup (dict_keys (data c)) /\
  (forall sid t, dict_get (data c) sid = Some t -> dict_get (sizes c) sid = Some (nbytes t)) /\
  bytes_in_use c = sumZ (sizes c).*2 /\ bytes_in_use c <= peak_bytes_in_use c <= max_bytes (cfg c).
Proof.
  intros Hmax Hrun. apply cache_run_inv in Hrun as []; [done|..|by apply cache_inv_init].
  destruct tx; [apply tx_exec_inv|apply base_exec_inv].
Qed.

(** [put] on a TX cache that was reached by any calls always makes room: it stores the
    tensor and raises [RouterReplayCacheFull] only when the tensor alone is larger than
    [max_bytes].  No other entry is altered or invented.  When it does raise, the previous
    entry under the id is kept, but every other entry has been evicted. *)
Theorem tx_put_always_makes_room (maxb ttl age : Z) (r : Q) (now : Z) (c : cache) sid v t t1 :
  0 <= maxb -> cache_run any_op tx_exec 0 (cache_init maxb ttl age r) now c -> coerce v = Ok t ->
  let '(c', out) := tx_put sid v t1 c in
  (forall s x, s <> sid -> dict_get (data c') s = Some x -> dict_get (data c) s = Some x) /\
  if nbytes t <=? max_bytes (cfg c)
  then out = Ok () /\ dict_get (data c') sid = Some t
  else out = Raise cache_full /\ dict_get (data c') sid = dict_get (data c) sid /\
       forall s, s ∈ dict_keys (data c') -> s = sid.
Proof.
  intros Hmax Hrun Hv. apply cache_run_inv in Hrun; [|apply tx_exec_inv|by apply cache_inv_init].
  pose proof (tx_put_cases sid v t1 c Hrun) as H. by rewrite Hv in H.
Qed.

(** LRU eviction removes least-recently touched entries first: an entry that is evicted
    was touched no later than every entry that stays (other than the one being written),
    except those that the minimum-age guard protects, and the guarded pass only evicts
    entries that are old enough. *)
Theorem evict_lru_oldest_first (maxb ttl age : Z) (r : Q) (now : Z) (c : cache) sid p target t1 b a x :
  0 <= maxb -> cache_run any_op tx_exec 0 (cache_init maxb ttl age r) now c ->
  let c' := (evict_lru sid p target t1 b c).2 in
  a ∈ dict_keys (data c) -> a <> sid -> a ∉ dict_keys (data c') ->
  (b = true -> evict_min_age_s (cfg c) <= age_of t1 c a) /\
  (x ∈ dict_keys (data c') -> x <> sid ->
   touched_of t1 c a <= touched_of t1 c x \/ (b = true /\ age_of t1 c x < evict_min_age_s (cfg c))).
Proof.
  intros Hmax Hrun. apply cache_run_inv in Hrun; [|apply tx_exec_inv|by apply cache_inv_init].
  by apply evict_lru_order.
Qed.

(** Discarding an exact replay id that has not arrived yet makes the cache drop it when it
    arrives late: as long as the tombstone is younger than the TTL (for ever when the TTL is
    0), and through any sequence of other calls, the id stays absent and [put_new] returns
    without storing it. *)
Theorem tombstone_suppresses_late_put (maxb ttl age : Z) (r : Q) (now : Z) (c : cache)
    (sid : string) sids t now' c' v t1 t2 :
  0 <= maxb -> cache_run any_op tx_exec 0 (cache_init maxb ttl age r) now c ->
  is_exact_replay_id sid = true -> held c sid = false -> sid ∈ sids ->
  let c1 := (tx_discard sids t c).1 in
  cache_run (keeps_guard sid) tx_exec t c1 now' c' -> now' <= t1 -> fresh_at c1 t t1 ->
  held c' sid = false /\
  (tx_put_new sid v t1 t2 c').2 = Ok () /\ held (tx_put_new sid v t1 t2 c').1 sid = false.
Proof.
  intros Hmax Hrun He Hh Hin c1 Hrun1 Hn Hf.
  apply cache_run_inv in Hrun as HI; [|apply tx_exec_inv|by apply cache_inv_init].
  assert (HI1 : cache_inv c1) by apply (tx_exec_inv (OpDiscard sids) t t c HI).
  pose proof (tx_discard_guards sid sids t c He Hh Hin) as Hg.
  assert (Hf' : fresh_at c1 t now') by (destruct Hf; [by left|right; lia]).
  destruct (tx_run_guarded sid t t c1 now' c' He Hrun1 HI1 ltac:(lia) Hf' Hg) as [Hg' Hc'].
  assert (Hf'' : fresh_at c' t t1) by (unfold fresh_at; by rewrite Hc').
  rewrite (tx_put_new_guarded sid v t t1 t2 c' He Hg' Hf'').
  assert (Habs : forall d, guarded sid t d -> held d sid = false)
    by (intros d [Hd _]; unfold held; by rewrite Hd).
  split; [auto|]. split; [done|]. apply Habs. by apply expire_guarded.
Qed.

(** ** Witnesses *)

Definition demo_value (n : nat) : put_value := PutArray (RRTensor Int64 [n] (replicate n 300)).
Definition demo_empty : cache := cache_init 10 100 5 (1 # 2).
Definition demo_cache : cache :=
  tx_exec (OpPutNew "b" (demo_value 4)) 2 2 (tx_exec (OpPut "a" (demo_value 4)) 1 1 demo_empty).

Lemma demo_cache_run : cache_run any_op tx_exec 0 demo_empty 2 demo_cache.
Proof.
  apply (run_step _ _ _ _ (OpPut "a" (demo_value 4)) 1 1); [done|lia..|].
  apply (run_step _ _ _ _ (OpPutNew "b" (demo_value 4)) 2 2); [done|lia..|]. constructor.
Qed.

Lemma replay_cache_accounting_witness : bytes_in_use demo_cache = sumZ (sizes demo_cache).*2.
Proof. apply (replay_cache_accounting true 10 100 5 (1 # 2) 2 demo_cache); [lia|exact demo_cache_run]. Defined.

Lemma tx_put_always_makes_room_witness :
  (tx_put "c" (demo_value 7) 50 demo_cache).2 = Ok () /\
  held (tx_put "c" (demo_value 7) 50 demo_cache).1 "a" = false /\
  (tx_put "c" (demo_value 11) 50 demo_cache).2 = Raise cache_full.
Proof.
  pose proof (tx_put_always_makes_room 10 100 5 (1 # 2) 2 demo_cache "c" (demo_value 7) _ 50 ltac:(lia)
    demo_cache_run eq_refl) as H1.
  pose proof (tx_put_always_makes_room 10 100 5 (1 # 2) 2 demo_cache "c" (demo_value 11) _ 50 ltac:(lia)
    demo_cache_run eq_refl) as H2.
  destruct (tx_put "c" (demo_value 7) 50 demo_cache) as [c1 o1] eqn:E1.
  destruct (tx_put "c" (demo_value 11) 50 demo_cache) as [c2 o2].
  split; [exact (proj1 (proj2 H1))|]. split; [|exact (proj1 (proj2 H2))].
  vm_compute in E1. injection E1 as <- <-. reflexivity.
Defined.

Lemma evict_lru_oldest_first_witness :
  touched_of 50 demo_cache "a" <= touched_of 50 demo_cache "b" \/
  (true = true /\ age_of 50 demo_cache "b" < evict_min_age_s (cfg demo_cache)).
Proof.
  refine (proj2 (evict_lru_oldest_first 10 100 5 (1 # 2) 2 demo_cache "c" 11 7 50 true "a" "b"
    ltac:(lia) demo_cache_run _ _ _) _ _); try done;
    try (apply (bool_decide_unpack _); vm_compute; exact I).
Defined.

Lemma tombstone_suppresses_late_put_witness :
  held (tx_put_new "rr1:x" (demo_value 1) 60 61 (tx_discard ["rr1:x"] 3 demo_cache).1).1 "rr1:x" = false.
Proof.
  apply (tombstone_suppresses_late_put 10 100 5 (1 # 2) 2 demo_cache "rr1:x" ["rr1:x"] 3 3
           (tx_discard ["rr1:x"] 3 demo_cache).1 (demo_value 1) 60 61);
    [lia|exact demo_cache_run|reflexivity|reflexivity|left|constructor|lia|right; reflexivity].
Defined.
