(* ===== verification/Scheduler.v ===== *)
(** * The request scheduler of the inference server

    Source: [src/arctic_platform/inference/server/scheduler.py].

    Routing functions are pure functions of the request and the worker states.  The scheduler
    object is the record [sched]; a worker state is a mutable object shared between the
    worker list and the tasks that were routed to it, so every one carries its identity
    [ws_obj], and a task that outlives the removal of its worker still refers to the old
    object.  [_process_request] is a coroutine: one turn of its routing loop is
    [process_turn], its completion (result, error or cancellation, with the [finally] block)
    is [process_complete], and [sched_step] interleaves the turns of all tasks with the
    management calls, which run to completion on the event loop.

    Streams are the second user of the counters.  [stream_generate] enters a stream in
    [_streams]; its reader polls for a worker ([stream_turn], one turn of the loop of
    [ClientStream._fetch_batch] in [streaming.py]), which counts it in [active_requests] and in
    [streaming_requests]; [abort] marks it, and [finish], after the stream's last event
    ([stream_completed]) or at the end of the cleanup of an abort ([stream_cleanup]), gives both
    counts back.  The steps of streams are interleaved with all others in [sched_step].  What a
    stream carries is modelled in StreamBuffer.v to StreamDelivery.v.

    Load ratios are exact rationals, times are integers.  [hash] of a routing key and of a
    prompt are parameters (Python salts them), and so is the check of a stream's prompt and
    parameters.  Metrics, diagnostics and the two polling loops are not modelled. *)

From stdpp Require Import prelude strings gmap list sorting.
From Stdlib Require Import ZArith QArith Lia ZifyNat ZifyBool.
From S2P Require Import Prelude Dict.
Local Open Scope nat_scope.

(** ** Data *)

Record worker_state := WorkerState {
  ws_obj : nat;
  concurrency_limit : Z;
  active_requests : Z;
  streaming_requests : Z;
  available : bool;
  quarantined : bool;
}.

Definition schedulable (w : worker_state) : bool := available w && negb (quarantined w).

Definition new_worker (obj : nat) (limit : Z) : worker_state := WorkerState obj (Z.max 1 limit) 0 0 true false.

Definition set_active (n : Z) (w : worker_state) : worker_state :=
  WorkerState (ws_obj w) (concurrency_limit w) n (streaming_requests w) (available w) (quarantined w).

Definition quarantine (w : worker_state) : worker_state :=
  WorkerState (ws_obj w) (concurrency_limit w) (active_requests w) (streaming_requests w) false true.

Record request := Request { prefix_hash : option Z; routing_key : option string; strict : bool }.

Record assignment := Assignment { as_worker : nat; as_last_used : Z }.

(** ** Routing *)

(** [ws.active_requests / max(ws.concurrency_limit, 1)]. *)
Definition load (w : worker_state) : Q := Qmake (active_requests w) (Z.to_pos (Z.max (concurrency_limit w) 1)).

Definition Qltb (x y : Q) : bool := negb (Qle_bool y x).

(** [ws.schedulable and ws.concurrency_limit > 0]. *)
Definition can_receive (w : worker_state) : bool := schedulable w && (0 <? concurrency_limit w)%Z.

Definition routing_candidates (ws : list worker_state) : list nat :=
  (filter (fun iw => can_receive iw.2 = true) (imap pair ws)).*1.

(** [workers[i]] for an index that comes from the list itself. *)
Definition worker_at (ws : list worker_state) (i : nat) : worker_state :=
  default (WorkerState 0 0 0 0 false false) (ws !! i).

Definition load_at (ws : list worker_state) (i : nat) : Q := load (worker_at ws i).

Definition min_of (lt : nat -> nat -> bool) (l : list nat) : res nat :=
  match py_min lt l with Some i => Ok i | None => Raise (ValueError "min() arg is an empty sequence") end.

Definition least_loaded_routing (ws : list worker_state) : res nat :=
  let candidates := match routing_candidates ws with [] => seq 0 (length ws) | c => c end in
  min_of (by_key (load_at ws) Qltb) candidates.

(** [ws.active_requests < ws.concurrency_limit * _PREFIX_LOAD_THRESHOLD], the threshold being 0.85. *)
Definition under_threshold (w : worker_state) : bool :=
  (100 * active_requests w <? 85 * concurrency_limit w)%Z.

Definition ring_pick (candidates : list nat) (h : Z) : nat :=
  default 0 (candidates !! Z.to_nat (h mod Z.of_nat (length candidates))).

(** The loop over [offset in range(1, len(candidates))]. *)
Fixpoint ring_search (ws : list worker_state) (candidates : list nat) (h : Z) (offsets : list nat) : option nat :=
  match offsets with
  | [] => None
  | o :: rest =>
      let alt := ring_pick candidates (h + Z.of_nat o)%Z in
      if under_threshold (worker_at ws alt) then Some alt else ring_search ws candidates h rest
  end.

Definition prefix_affinity_routing (req : request) (ws : list worker_state) : res nat :=
  match routing_candidates ws, prefix_hash req with
  | [], _ => least_loaded_routing ws
  | _, None => least_loaded_routing ws
  | candidates, Some h =>
      let preferred := ring_pick candidates h in
      if under_threshold (worker_at ws preferred) then Ok preferred
      else match ring_search ws candidates h (seq 1 (length candidates - 1)) with
           | Some alt => Ok alt
           | None => least_loaded_routing ws
           end
  end.

Definition strict_affinity_routing (req : request) (ws : list worker_state) : res nat :=
  match routing_candidates ws, prefix_hash req with
  | [], _ => least_loaded_routing ws
  | _, None => least_loaded_routing ws
  | candidates, Some h => Ok (ring_pick candidates h)
  end.

(** The routing function of the pool: one of those of the module. *)
Inductive routing_fn := LeastLoaded | PrefixAffinity | StrictAffinity.

Definition apply_routing (f : routing_fn) (req : request) (ws : list worker_state) : res nat :=
  match f with
  | LeastLoaded => least_loaded_routing ws
  | PrefixAffinity => prefix_affinity_routing req ws
  | StrictAffinity => strict_affinity_routing req ws
  end.

(** ** The scheduler object *)

(** Where a task of [_process_request] stands: in its routing loop, with the worker object
    of the last turn, or awaiting the worker it was admitted to. *)
Inductive task_state :=
  | Routing (last : option nat)
  | Running (idx : nat) (obj : nat).

(** A [ClientStream] of [_streams]: its request, the error its abort was called with, and the
    worker object it was admitted to. *)
Record client_stream := ClientStream { st_request : request; st_error : option string; st_worker : option nat }.

(** [_streams], [_stream_retired] (oldest first) and [_stream_retired_unconfirmed]. *)
Record stream_table := StreamTable {
  tb_streams : gmap string client_stream;
  tb_retired : list (string * Z);
  tb_unconfirmed : gset string;
}.

Record sched := Sched {
  sc_workers : list worker_state;
  sc_objs : nat;                              (* objects created so far *)
  sc_next_id : nat;
  sc_paused : bool;
  sc_stopped : bool;
  sc_inflight : gmap nat (gset nat);
  sc_tasks : gmap nat (request * task_state);
  sc_table : stream_table;
  sc_assignments : list (string * assignment);
  sc_last_cleanup : Z;
  sc_next_affinity : nat;
}.

Record sched_config := SchedConfig {
  cf_routing : routing_fn;
  cf_prefix_hash : bool;
  cf_group_affinity : bool;
  cf_ttl : Z;
  cf_max_keys : nat;
}.

(** [self._streams]. *)
Notation sc_streams s := (tb_streams (sc_table s)).

Definition sched_init (n : nat) (initial_concurrency now : Z) : res sched :=
  check (negb (n =? 0)) (ValueError "Scheduler requires at least one worker");;
  Ok (Sched ((fun i => new_worker i initial_concurrency) <$> seq 0 n) n 0 false false
        (list_to_map ((fun i => (i, ∅)) <$> seq 0 n)) ∅ (StreamTable ∅ [] ∅) [] now 0).

Definition with_workers (ws : list worker_state) (s : sched) : sched :=
  Sched ws (sc_objs s) (sc_next_id s) (sc_paused s) (sc_stopped s) (sc_inflight s) (sc_tasks s) (sc_table s)
    (sc_assignments s) (sc_last_cleanup s) (sc_next_affinity s).
Definition with_inflight (fl : gmap nat (gset nat)) (s : sched) : sched :=
  Sched (sc_workers s) (sc_objs s) (sc_next_id s) (sc_paused s) (sc_stopped s) fl (sc_tasks s) (sc_table s)
    (sc_assignments s) (sc_last_cleanup s) (sc_next_affinity s).
Definition with_tasks (ts : gmap nat (request * task_state)) (s : sched) : sched :=
  Sched (sc_workers s) (sc_objs s) (sc_next_id s) (sc_paused s) (sc_stopped s) (sc_inflight s) ts (sc_table s)
    (sc_assignments s) (sc_last_cleanup s) (sc_next_affinity s).
Definition with_affinity (asg : list (string * assignment)) (cleanup : Z) (next : nat) (s : sched) : sched :=
  Sched (sc_workers s) (sc_objs s) (sc_next_id s) (sc_paused s) (sc_stopped s) (sc_inflight s)
    (sc_tasks s) (sc_table s) asg cleanup next.
Definition with_flags (paused stopped : bool) (s : sched) : sched :=
  Sched (sc_workers s) (sc_objs s) (sc_next_id s) paused stopped (sc_inflight s) (sc_tasks s) (sc_table s)
    (sc_assignments s) (sc_last_cleanup s) (sc_next_affinity s).

Definition with_table (tb : stream_table) (s : sched) : sched :=
  Sched (sc_workers s) (sc_objs s) (sc_next_id s) (sc_paused s) (sc_stopped s) (sc_inflight s) (sc_tasks s) tb
    (sc_assignments s) (sc_last_cleanup s) (sc_next_affinity s).

(** ** Worker management *)

Definition check_idx (idx : Z) (s : sched) : res unit :=
  check ((0 <=? idx) && (idx <? Z.of_nat (length (sc_workers s))))%Z (IndexError "Worker index out of range").

Definition update_worker (f : worker_state -> worker_state) (idx : Z) (s : sched) : res sched :=
  check_idx idx s;; Ok (with_workers (alter f (Z.to_nat idx) (sc_workers s)) s).

Definition mark_worker_unavailable : Z -> sched -> res sched :=
  update_worker (fun w => WorkerState (ws_obj w) (concurrency_limit w) (active_requests w) (streaming_requests w) false (quarantined w)).

Definition mark_worker_available : Z -> sched -> res sched :=
  update_worker (fun w => WorkerState (ws_obj w) (concurrency_limit w) (active_requests w) (streaming_requests w)
                            (negb (quarantined w)) (quarantined w)).

Definition update_worker_handle : Z -> sched -> res sched :=
  update_worker (fun w => WorkerState (ws_obj w) (concurrency_limit w) (active_requests w) (streaming_requests w) (available w) false).

(** The body of the concurrency adjustment for one worker: [ws.concurrency_limit = max(1, int(limit))]. *)
Definition adjust_limit (limit : Z) : Z -> sched -> res sched :=
  update_worker (fun w => WorkerState (ws_obj w) (Z.max 1 limit) (active_requests w) (streaming_requests w) (available w) (quarantined w)).

(** The tasks that [cancel_worker_inflight] cancels; each then completes with [CancelledError]. *)
Definition cancel_worker_inflight (idx : Z) (s : sched) : res (gset nat) :=
  check_idx idx s;; Ok (default ∅ (sc_inflight s !! Z.to_nat idx)).

Definition add_worker (limit : Z) (s : sched) : sched :=
  let idx := length (sc_workers s) in
  Sched (sc_workers s ++ [new_worker (sc_objs s) limit]) (S (sc_objs s)) (sc_next_id s) (sc_paused s)
    (sc_stopped s) (<[idx := ∅]> (sc_inflight s)) (sc_tasks s) (sc_table s) (sc_assignments s) (sc_last_cleanup s)
    (sc_next_affinity s).

Definition remove_last_worker (s : sched) : res sched :=
  check (negb (length (sc_workers s) =? 0)) (RuntimeError "No workers to remove");;
  let idx := length (sc_workers s) - 1 in
  Ok (Sched (take idx (sc_workers s)) (sc_objs s) (sc_next_id s) (sc_paused s) (sc_stopped s)
        (delete idx (sc_inflight s)) (sc_tasks s) (sc_table s)
        (filter (fun ka => as_worker ka.2 < idx) (sc_assignments s)) (sc_last_cleanup s) (sc_next_affinity s)).

Definition sched_pause (s : sched) : sched := with_flags true (sc_stopped s) s.
Definition sched_resume (s : sched) : sched := with_flags false (sc_stopped s) s.
Definition sched_shutdown (s : sched) : sched := with_flags (sc_paused s) true s.

Definition total_concurrency_limit (s : sched) : Z :=
  sumZ (concurrency_limit <$> filter (fun w => schedulable w = true) (sc_workers s)).

(** The loop condition of [drain], negated: it returns when no worker counts a request. *)
Definition drain_returns (s : sched) : bool := negb (existsb (fun w => 0 <? active_requests w)%Z (sc_workers s)).

(** ** Group affinity *)

Definition worker_can_receive_new_requests (idx : nat) (s : sched) : bool :=
  match sc_workers s !! idx with Some w => can_receive w | None => false end.

(** The [Counter] of assignments per worker. *)
Definition assignment_count (s : sched) (i : nat) : nat :=
  length (filter (fun ka => as_worker ka.2 = i) (sc_assignments s)).

Definition affinity_key (s : sched) (start : nat) (i : nat) : Q * (Z * (nat * Z)) :=
  let w := worker_at (sc_workers s) i in
  (load w, (active_requests w, (assignment_count s i,
     ((Z.of_nat i - Z.of_nat start) mod Z.max (Z.of_nat (length (sc_workers s))) 1)%Z))).

Definition affinity_lt : Q * (Z * (nat * Z)) -> Q * (Z * (nat * Z)) -> bool :=
  lex_pair Qltb (lex_pair Z.ltb (lex_pair Nat.ltb Z.ltb)).

Definition least_loaded_worker_idx (s : sched) : res (nat * sched) :=
  let ws := sc_workers s in
  let candidates := match routing_candidates ws with [] => seq 0 (length ws) | c => c end in
  let start := sc_next_affinity s mod Nat.max (length ws) 1 in
  idx ← min_of (by_key (affinity_key s start) affinity_lt) candidates;
  Ok (idx, with_affinity (sc_assignments s) (sc_last_cleanup s) ((idx + 1) mod Nat.max (length ws) 1) s).

(** [_cleanup_group_affinity_assignments]. *)
Definition keep_assignment (cf : sched_config) (now : Z) (s : sched) (a : assignment) : Prop :=
  ~ (as_last_used a < now - cf_ttl cf)%Z /\ worker_can_receive_new_requests (as_worker a) s = true.

#[export] Instance keep_assignment_dec cf now s a : Decision (keep_assignment cf now s a).
Proof. unfold keep_assignment. apply _. Defined.

Definition drop_oldest (n : nat) (asg : list (string * assignment)) : list (string * assignment) :=
  fold_left (fun d k => dict_del d k) (take n (py_sorted (by_key (fun ka => as_last_used ka.2) Z.ltb) asg)).*1 asg.

Definition cleanup_assignments (cf : sched_config) (now : Z) (s : sched) : sched :=
  if ((now - sc_last_cleanup s <? 30)%Z && (length (sc_assignments s) <=? cf_max_keys cf)) then s
  else
    let asg := filter (fun ka => keep_assignment cf now s ka.2) (sc_assignments s) in
    with_affinity (drop_oldest (length asg - cf_max_keys cf) asg) now (sc_next_affinity s) s.

Definition group_affinity_routing (cf : sched_config) (req : request) (now : Z) (s : sched) : res (nat * sched) :=
  match routing_key req with
  | None => idx ← least_loaded_routing (sc_workers s); Ok (idx, s)
  | Some key =>
      let s := cleanup_assignments cf now s in
      let found := dict_get (sc_assignments s) key in
      match found with
      | Some a =>
          if worker_can_receive_new_requests (as_worker a) s then
            Ok (as_worker a, with_affinity (dict_set (sc_assignments s) key (Assignment (as_worker a) now))
                               (sc_last_cleanup s) (sc_next_affinity s) s)
          else
            '(idx, s) ← least_loaded_worker_idx s;
            Ok (idx, with_affinity (dict_set (sc_assignments s) key (Assignment idx now))
                       (sc_last_cleanup s) (sc_next_affinity s) s)
      | None =>
          '(idx, s) ← least_loaded_worker_idx s;
          Ok (idx, with_affinity (dict_set (sc_assignments s) key (Assignment idx now))
                     (sc_last_cleanup s) (sc_next_affinity s) s)
      end
  end.

(** ** Requests *)

Section requests.
Context (cf : sched_config).

Section submit.
Context {Prompt : Type} (py_hash : string -> Z) (compute_prefix_hash : Prompt -> Z).

Definition submit (prompt : Prompt) (key : option string) (is_strict : bool) (s : sched) : res (nat * sched) :=
  check (negb (sc_stopped s)) (RuntimeError "Scheduler is stopped");;
  let prefix_hash := match key with
                     | Some k => Some (py_hash k)
                     | None => if cf_prefix_hash cf then Some (compute_prefix_hash prompt) else None
                     end in
  Ok (sc_next_id s,
      Sched (sc_workers s) (sc_objs s) (S (sc_next_id s)) (sc_paused s) (sc_stopped s) (sc_inflight s)
        (<[sc_next_id s := (Request prefix_hash key is_strict, Routing None)]> (sc_tasks s)) (sc_table s)
        (sc_assignments s) (sc_last_cleanup s) (sc_next_affinity s)).

(** The submissions of [submit_batch]: the keys are [inl] one key for all prompts or [inr] a
    list, and so are the sampling parameters, which are carried to the worker unchanged. *)
Definition per_prompt {A B} (one_or_list : A + list B) (of_item : B -> A) (n : nat) (msg : string) : res (list A) :=
  match one_or_list with
  | inl a => Ok (replicate n a)
  | inr l => check (length l =? n) (ValueError msg);; Ok (of_item <$> l)
  end.

Definition submit_batch {Params} (empty_params : Params) (prompts : list Prompt)
    (keys : option string + list (option string)) (params : Params + list (option Params))
    (is_strict : bool) (s : sched) : res (list (nat * Params) * sched) :=
  keys ← per_prompt keys id (length prompts) "routing_key list length";
  params ← per_prompt params (default empty_params) (length prompts) "sampling_params list length";
  foldM (fun acc ppk => let '(prompt, (param, key)) := ppk in
           '(id, s) ← submit prompt key is_strict acc.2; Ok (acc.1 ++ [(id, param)], s))
    ([], s) (zip prompts (zip params keys)).
End submit.

(** The choice of routing function of [_process_request]. *)
Definition uses_group_affinity (req : request) : bool :=
  cf_group_affinity cf && bool_decide (is_Some (routing_key req)).

Definition route (req : request) (now : Z) (s : sched) : res (nat * sched) :=
  if uses_group_affinity req then group_affinity_routing cf req now s
  else
    let f := if strict req && bool_decide (is_Some (prefix_hash req)) then StrictAffinity else cf_routing cf in
    idx ← apply_routing f req (sc_workers s); Ok (idx, s).

(** What a route that raises has already changed. *)
Definition route_raised (req : request) (now : Z) (s : sched) : sched :=
  if uses_group_affinity req then cleanup_assignments cf now s else s.

(** [ws.active_requests = max(0, ws.active_requests - 1)] on the object [obj]; an object
    that left the worker list is not visible any more. *)
Definition release (obj : nat) (s : sched) : sched :=
  with_workers ((fun w => if ws_obj w =? obj then set_active (Z.max 0 (active_requests w - 1)) w else w)
                <$> sc_workers s) s.

Definition release_last (last : option nat) (s : sched) : sched :=
  match last with Some obj => release obj s | None => s end.

Inductive turn := TurnWaits | TurnAdmitted (idx : nat) | TurnFails (e : exn).

Definition drop_task (id : nat) (s : sched) : sched := with_tasks (delete id (sc_tasks s)) s.

(** One turn of the routing loop of [_process_request], up to the next [await]. *)
Definition process_turn (id : nat) (now : Z) (s : sched) : turn * sched :=
  match sc_tasks s !! id with
  | Some (req, Routing last) =>
      if sc_stopped s then (TurnFails (RuntimeError "Scheduler stopped"), release_last last (drop_task id s))
      else if sc_paused s then (TurnWaits, s)
      else
        match route req now s with
        | Raise e => (TurnFails e, release_last last (drop_task id (route_raised req now s)))
        | Ok (idx, s) =>
            match sc_workers s !! idx with
            | None => (TurnFails (IndexError "list index out of range"), release_last last (drop_task id s))
            | Some w =>
                if schedulable w && (active_requests w <? concurrency_limit w)%Z then
                  let s := with_workers (alter (set_active (active_requests w + 1)) idx (sc_workers s)) s in
                  match sc_inflight s !! idx with
                  | None => (TurnFails (KeyError "_inflight_tasks"), drop_task id s)
                  | Some ts =>
                      (TurnAdmitted idx,
                       with_inflight (<[idx := {[id]} ∪ ts]> (sc_inflight s))
                         (with_tasks (<[id := (req, Running idx (ws_obj w))]> (sc_tasks s)) s))
                  end
                else (TurnWaits, with_tasks (<[id := (req, Routing (Some (ws_obj w)))]> (sc_tasks s)) s)
            end
        end
  | _ => (TurnWaits, s)
  end.

(** The end of an admitted request, whatever its outcome: the [finally] block. *)
Definition process_complete (id : nat) (s : sched) : sched :=
  match sc_tasks s !! id with
  | Some (req, Running idx obj) =>
      match sc_inflight s !! idx with
      | None => drop_task id s
      | Some ts => release obj (with_inflight (<[idx := ts ∖ {[id]}]> (sc_inflight s)) (drop_task id s))
      end
  | _ => s
  end.

(** ** Streams *)

Definition MAX_WORKER_STREAMS : Z := 128.

(** The loop of [_prune_retired_streams]: it pops the oldest entry until that one is less
    than an hour old and at most 100000 are left. *)
Fixpoint prune_loop (cutoff : Z) (retired : list (string * Z)) (unconfirmed : gset string) : list (string * Z) * gset string :=
  match retired with
  | [] => ([], unconfirmed)
  | (rid, t) :: rest =>
      if (cutoff <? t)%Z && (Z.of_nat (length retired) <=? 100000)%Z then (retired, unconfirmed)
      else prune_loop cutoff rest (unconfirmed ∖ {[rid]})
  end.

Definition prune_retired_streams (now : Z) (tb : stream_table) : stream_table :=
  let '(retired, unconfirmed) := prune_loop (now - 3600) (tb_retired tb) (tb_unconfirmed tb) in
  StreamTable (tb_streams tb) retired unconfirmed.

(** [_retire_stream]: an entry that is set again keeps its place, then moves to the end. *)
Definition retire_stream (rid : string) (cleanup_unconfirmed : bool) (now : Z) (tb : stream_table) : stream_table :=
  prune_retired_streams now
    (StreamTable (tb_streams tb) (dict_del (tb_retired tb) rid ++ [(rid, now)])
       (if cleanup_unconfirmed then {[rid]} ∪ tb_unconfirmed tb else tb_unconfirmed tb)).

Definition is_retired (rid : string) (tb : stream_table) : bool := bool_decide (rid ∈ dict_keys (tb_retired tb)).

Section stream_generate.
Context {Prompt : Type} (py_hash : string -> Z) (compute_prefix_hash : Prompt -> Z) (validate_request : Prompt -> res Prompt).

(** [stream_generate].  [limits_ok] is whether [limits] is absent or a [StreamLimits]. *)
Definition stream_generate (rid : string) (prompt : Prompt) (limits_ok : bool) (key : option string) (is_strict : bool)
    (now : Z) (s : sched) : res sched :=
  check (negb (sc_stopped s)) (RuntimeError "Scheduler is stopped");;
  check ((0 <? String.length rid) && (String.length rid <=? 128)) (ValueError "request_id must contain 1..128 characters");;
  let tb := prune_retired_streams now (sc_table s) in
  check (negb (bool_decide (is_Some (tb_streams tb !! rid)) || is_retired rid tb))
    (ValueError "Duplicate or recently retired request_id");;
  prompt ← validate_request prompt;
  check limits_ok (TypeError "limits must be StreamLimits");;
  let prefix_hash := match key with
                     | Some k => Some (py_hash k)
                     | None => if cf_prefix_hash cf then Some (compute_prefix_hash prompt) else None
                     end in
  Ok (Sched (sc_workers s) (sc_objs s) (S (sc_next_id s)) (sc_paused s) (sc_stopped s) (sc_inflight s) (sc_tasks s)
        (StreamTable (<[rid := ClientStream (Request prefix_hash key is_strict) None None]> (tb_streams tb))
           (tb_retired tb) (tb_unconfirmed tb))
        (sc_assignments s) (sc_last_cleanup s) (sc_next_affinity s)).
End stream_generate.

(** The workers with room for one more stream, in [_select_stream_worker]. *)
Definition stream_candidates (ws : list worker_state) : list nat :=
  (filter (fun iw => schedulable iw.2 && (streaming_requests iw.2 <? MAX_WORKER_STREAMS)
                     && (active_requests iw.2 <? concurrency_limit iw.2) = true)%Z (imap pair ws)).*1.

Definition select_stream_worker (req : request) (now : Z) (s : sched) : res (nat * sched) :=
  if uses_group_affinity req then group_affinity_routing cf req now s
  else
    let f := if strict req && bool_decide (is_Some (prefix_hash req)) then StrictAffinity else cf_routing cf in
    index ← apply_routing f req (sc_workers s);
    if negb (strict req) && (MAX_WORKER_STREAMS <=? streaming_requests (worker_at (sc_workers s) index))%Z then
      match stream_candidates (sc_workers s) with
      | [] => Ok (index, s)
      | candidates =>
          best ← min_of (by_key (fun i => active_requests (worker_at (sc_workers s) i)) Z.ltb) candidates;
          Ok (best, s)
      end
    else Ok (index, s).

Inductive stream_turn_result := StreamWaits | StreamAdmitted (idx : nat) | StreamFails (code : string) | StreamRaises (e : exn).

Definition set_streaming (active streaming : Z) (w : worker_state) : worker_state :=
  WorkerState (ws_obj w) (concurrency_limit w) active streaming (available w) (quarantined w).

Definition set_stream (rid : string) (st : client_stream) (s : sched) : sched :=
  with_table (StreamTable (<[rid := st]> (sc_streams s)) (tb_retired (sc_table s)) (tb_unconfirmed (sc_table s))) s.

(** One turn of the polling loop of [_fetch_batch] of the stream [rid], up to the next [await];
    what it raises makes the reader abort the stream, which is a step of its own. *)
Definition stream_turn (rid : string) (now : Z) (s : sched) : stream_turn_result * sched :=
  match sc_streams s !! rid with
  | Some (ClientStream req err None) =>
      match err with
      | Some code => (StreamFails code, s)
      | None =>
          if sc_stopped s then (StreamFails "scheduler_stopped", s)
          else if sc_paused s || bool_decide (sc_workers s = []) then (StreamWaits, s)
          else
            match select_stream_worker req now s with
            | Raise e => (StreamRaises e, route_raised req now s)
            | Ok (index, s) =>
                match sc_workers s !! index with
                | None => (StreamRaises (IndexError "list index out of range"), s)
                | Some w =>
                    if schedulable w && (active_requests w <? concurrency_limit w)%Z
                       && (streaming_requests w <? MAX_WORKER_STREAMS)%Z then
                      (StreamAdmitted index,
                       set_stream rid (ClientStream req None (Some (ws_obj w)))
                         (with_workers (alter (set_streaming (active_requests w + 1) (streaming_requests w + 1)) index
                                          (sc_workers s)) s))
                    else (StreamWaits, s)
                end
            end
      end
  | _ => (StreamWaits, s)
  end.

(** [ClientStream.abort]: the first call sets the error and starts the cleanup. *)
Definition stream_abort (rid code : string) (s : sched) : sched :=
  match sc_streams s !! rid with
  | Some (ClientStream req None w) => set_stream rid (ClientStream req (Some code) w) s
  | _ => s
  end.

(** The change of the worker object [obj] of a stream; one that left the list is not visible any more. *)
Definition on_obj (f : worker_state -> worker_state) (obj : option nat) (s : sched) : sched :=
  with_workers ((fun w => if bool_decide (obj = Some (ws_obj w)) then f w else w) <$> sc_workers s) s.

(** The counters that [finish] gives back. *)
Definition give_back (w : worker_state) : worker_state :=
  set_streaming (Z.max 0 (active_requests w - 1)) (Z.max 0 (streaming_requests w - 1)) w.

(** [finish] of a stream that is not closed. *)
Definition stream_finish (rid : string) (unconfirmed : bool) (now : Z) (s : sched) : sched :=
  match sc_streams s !! rid with
  | Some (ClientStream _ _ w) =>
      let s := on_obj give_back w s in
      let tb := sc_table s in
      with_table (retire_stream rid unconfirmed now (StreamTable (delete rid (tb_streams tb)) (tb_retired tb) (tb_unconfirmed tb))) s
  | None => s
  end.

(** The [completed] event of a stream that was admitted and not aborted. *)
Definition stream_completed (rid : string) (now : Z) (s : sched) : sched :=
  match sc_streams s !! rid with
  | Some (ClientStream _ None (Some _)) => stream_finish rid false now s
  | _ => s
  end.

(** The end of [_abort]: the worker of a stream whose cleanup was not confirmed is quarantined. *)
Definition stream_cleanup (rid : string) (unconfirmed : bool) (now : Z) (s : sched) : sched :=
  match sc_streams s !! rid with
  | Some (ClientStream _ (Some _) w) => stream_finish rid unconfirmed now (if unconfirmed then on_obj quarantine w s else s)
  | _ => s
  end.

(** The streams that [abort_streams] aborts; a negative index counts from the end of the list. *)
Definition abort_streams (worker_idx : option Z) (s : sched) : res (gset string) :=
  match worker_idx with
  | None => Ok (dom (sc_streams s))
  | Some i =>
      let n := Z.of_nat (length (sc_workers s)) in
      match (if (0 <=? i)%Z then sc_workers s !! Z.to_nat i
             else if (0 <=? n + i)%Z then sc_workers s !! Z.to_nat (n + i) else None) with
      | None => Raise (IndexError "list index out of range")
      | Some w => Ok (dom (filter (fun kt => st_worker kt.2 = Some (ws_obj w)) (sc_streams s)))
      end
  end.

(** The scheduler's [abort]: what it answers for a stream that is not open; an open one is aborted. *)
Definition abort_status (rid : string) (now : Z) (s : sched) : option string :=
  let tb := prune_retired_streams now (sc_table s) in
  if bool_decide (is_Some (tb_streams tb !! rid)) then None
  else if bool_decide (rid ∈ tb_unconfirmed tb) then Some "cleanup_unconfirmed"
  else Some (if is_retired rid tb then "already_terminal" else "not_found").

(** ** Interleavings *)

Inductive sched_step : sched -> sched -> Prop :=
  | step_submit {Prompt} h ph (p : Prompt) key b s id s' : submit h ph p key b s = Ok (id, s') -> sched_step s s'
  | step_turn id now s : sched_step s (process_turn id now s).2
  | step_complete id s : sched_step s (process_complete id s)
  | step_stream {Prompt} h ph v rid (p : Prompt) lim key b now s s' :
      stream_generate h ph v rid p lim key b now s = Ok s' -> sched_step s s'
  | step_stream_turn rid now s : sched_step s (stream_turn rid now s).2
  | step_stream_abort rid code s : sched_step s (stream_abort rid code s)
  | step_stream_completed rid now s : sched_step s (stream_completed rid now s)
  | step_stream_cleanup rid unconfirmed now s : sched_step s (stream_cleanup rid unconfirmed now s)
  | step_prune now s : sched_step s (with_table (prune_retired_streams now (sc_table s)) s)
  | step_pause s : sched_step s (sched_pause s)
  | step_resume s : sched_step s (sched_resume s)
  | step_shutdown s : sched_step s (sched_shutdown s)
  | step_update f idx s s' :
      f = mark_worker_unavailable \/ f = mark_worker_available \/ f = update_worker_handle \/
      (exists limit, f = adjust_limit limit) \/ f = update_worker quarantine ->
      f idx s = Ok s' -> sched_step s s'
  | step_add limit s : sched_step s (add_worker limit s)
  | step_remove s s' : remove_last_worker s = Ok s' -> sched_step s s'.

Definition sched_reachable (s : sched) : Prop :=
  exists n limit now s0, sched_init n limit now = Ok s0 /\ rtc sched_step s0 s.
End requests.

(** ** Routing: lemmas *)

#[export] Instance sw_Qltb : StrictWeak Qltb.
Proof.
  assert (E : forall x y, Qltb x y = true <-> (x < y)%Q).
  { intros x y. unfold Qltb. rewrite negb_true_iff, <- not_true_iff_false, Qle_bool_iff.
    split; [apply Qnot_le_lt|apply Qlt_not_le]. }
  assert (F : forall x y, Qltb x y = false <-> (y <= x)%Q).
  { intros x y. unfold Qltb. rewrite negb_false_iff. apply Qle_bool_iff. }
  split.
  - intros x y H%E. apply F. by apply Qlt_le_weak.
  - intros x y z H1%F H2%F. apply F. by eapply Qle_trans.
Qed.

Lemma elem_routing_candidates ws i :
  i ∈ routing_candidates ws <-> exists w, ws !! i = Some w /\ can_receive w = true.
Proof.
  unfold routing_candidates. rewrite list_elem_of_fmap. split.
  - intros ([j w] & -> & [Hr Hj]%list_elem_of_filter). exists w. split; [|done].
    apply list_elem_of_lookup in Hj as [k Hk]. rewrite list_lookup_imap in Hk.
    by destruct (ws !! k) as [w'|] eqn:E; simplify_eq/=.
  - intros (w & Hw & Hr). exists (i, w). split; [done|]. apply list_elem_of_filter. split; [done|].
    apply list_elem_of_lookup. exists i. rewrite list_lookup_imap. by rewrite Hw.
Qed.

Lemma candidate_lt ws i : i ∈ routing_candidates ws -> i < length ws.
Proof. intros (w & Hw & _)%elem_routing_candidates. by eapply lookup_lt_Some. Qed.

Lemma worker_at_Some ws i w : ws !! i = Some w -> worker_at ws i = w.
Proof. unfold worker_at. by intros ->. Qed.

(** What every routing choice promises: an index of the list, of a worker that takes
    requests when there is one. *)
Definition good_choice (ws : list worker_state) (i : nat) : Prop :=
  i < length ws /\ (routing_candidates ws <> [] -> i ∈ routing_candidates ws).

(** The choice shared by both least-loaded routings: the least element of the candidates. *)
Lemma min_candidates_ok (lt : nat -> nat -> bool) `{!StrictWeak lt} ws :
  ws <> [] ->
  exists i, min_of lt match routing_candidates ws with [] => seq 0 (length ws) | c => c end = Ok i /\
    good_choice ws i /\ forall j, j ∈ routing_candidates ws -> lt j i = false.
Proof.
  intros Hws. set (cs := match routing_candidates ws with [] => _ | c => c end).
  assert (Hcs : cs <> []) by (unfold cs; destruct (routing_candidates ws); [by destruct ws|done]).
  unfold min_of. destruct (py_min_is_Some lt cs Hcs) as [i Hi]. rewrite Hi. exists i. split; [done|].
  apply py_min_spec in Hi as [Hin Hall]; [|done]. rewrite Forall_forall in Hall. unfold good_choice.
  destruct (routing_candidates ws) as [|c l] eqn:E; unfold cs in *.
  - apply elem_of_seq in Hin. split; [split; [lia|done]|set_solver].
  - split; [|auto]. split; [|done]. apply candidate_lt. by rewrite E.
Qed.

Lemma least_loaded_ok ws :
  ws <> [] -> exists i, least_loaded_routing ws = Ok i /\ good_choice ws i /\
    forall j, j ∈ routing_candidates ws -> Qltb (load_at ws j) (load_at ws i) = false.
Proof.
  intros Hws. destruct (min_candidates_ok (by_key (load_at ws) Qltb) ws Hws) as (i & H1 & H2 & H3). eauto.
Qed.

Lemma ring_pick_elem cs h : cs <> [] -> ring_pick cs h ∈ cs.
Proof.
  intros Hcs. assert (Hn : (0 < Z.of_nat (length cs))%Z) by (destruct cs; simpl; [done|lia]).
  pose proof (Z.mod_pos_bound h _ Hn). unfold ring_pick.
  destruct (lookup_lt_is_Some_2 cs (Z.to_nat (h mod Z.of_nat (length cs)))) as [x Hx]; [lia|].
  rewrite Hx. by eapply list_elem_of_lookup_2.
Qed.

(** The ring visits every candidate. *)
Lemma ring_covers cs h c :
  c ∈ cs -> exists o, o < length cs /\ ring_pick cs (h + Z.of_nat o) = c.
Proof.
  intros [k Hk]%list_elem_of_lookup. pose proof (lookup_lt_Some _ _ _ Hk) as Hlt.
  assert (Hn : (0 < Z.of_nat (length cs))%Z) by lia.
  pose proof (Z.mod_pos_bound (Z.of_nat k - h) _ Hn). exists (Z.to_nat ((Z.of_nat k - h) mod Z.of_nat (length cs))).
  split; [lia|]. unfold ring_pick. rewrite Z2Nat.id by lia. rewrite Zplus_mod_idemp_r.
  replace (h + (Z.of_nat k - h))%Z with (Z.of_nat k) by lia. rewrite Z.mod_small by lia.
  rewrite Nat2Z.id, Hk. done.
Qed.

Lemma ring_search_spec ws cs h offs :
  match ring_search ws cs h offs with
  | Some alt => under_threshold (worker_at ws alt) = true /\ exists o, alt = ring_pick cs (h + Z.of_nat o)
  | None => forall o, o ∈ offs -> under_threshold (worker_at ws (ring_pick cs (h + Z.of_nat o))) = false
  end.
Proof.
  induction offs as [|o offs IH]; simpl; [set_solver|].
  destruct (under_threshold _) eqn:E; [split; [done|eauto]|].
  destruct (ring_search _ _ _ _) as [alt|]; [done|]. set_solver.
Qed.

Lemma prefix_affinity_ok req ws :
  ws <> [] -> exists i, prefix_affinity_routing req ws = Ok i /\ good_choice ws i /\
    (is_Some (prefix_hash req) ->
     (exists c, c ∈ routing_candidates ws /\ under_threshold (worker_at ws c) = true) ->
     under_threshold (worker_at ws i) = true).
Proof.
  intros Hws. destruct (least_loaded_ok ws Hws) as (i0 & H0 & Hg0 & _). unfold prefix_affinity_routing.
  destruct (routing_candidates ws) as [|c0 cs0] eqn:Ec.
  { exists i0. split; [done|]. split; [done|]. intros _ (c & Hc & _). set_solver. }
  destruct (prefix_hash req) as [h|]; cycle 1.
  { exists i0. split; [done|]. split; [done|]. by intros []. }
  rewrite <- Ec in *. set (cs := routing_candidates ws) in *. assert (Hcs : cs <> []) by (by rewrite Ec).
  assert (Hgood : forall x, ring_pick cs x ∈ cs) by (intros; by apply ring_pick_elem).
  assert (Hgc : forall x, good_choice ws (ring_pick cs x)).
  { intros x. split; [apply candidate_lt, Hgood|]. intros _. apply Hgood. }
  destruct (under_threshold (worker_at ws (ring_pick cs h))) eqn:Ep; [eauto|].
  pose proof (ring_search_spec ws cs h (seq 1 (length cs - 1))) as Hs.
  destruct (ring_search _ _ _ _) as [alt|].
  - destruct Hs as [Hu [o ->]]. eauto.
  - exists i0. split; [done|]. split; [done|]. intros _ (c & Hc & Hu).
    destruct (ring_covers cs h c Hc) as (o & Ho & <-). destruct o as [|o].
    + rewrite Z.add_0_r in Hu. congruence.
    + rewrite Hs in Hu; [done|]. apply elem_of_seq. lia.
Qed.

Lemma strict_affinity_ok req ws :
  ws <> [] -> exists i, strict_affinity_routing req ws = Ok i /\ good_choice ws i.
Proof.
  intros Hws. destruct (least_loaded_ok ws Hws) as (i0 & H0 & Hg0 & _). unfold strict_affinity_routing.
  destruct (routing_candidates ws) as [|c0 cs0] eqn:Ec; [eauto|].
  destruct (prefix_hash req) as [h|]; [|eauto]. exists (ring_pick (c0 :: cs0) h). split; [done|].
  assert (Hin : ring_pick (c0 :: cs0) h ∈ routing_candidates ws) by (rewrite Ec; by apply ring_pick_elem).
  split; [by apply candidate_lt|done].
Qed.

Lemma apply_routing_ok f req ws : ws <> [] -> exists i, apply_routing f req ws = Ok i /\ good_choice ws i.
Proof.
  intros Hws. destruct f; simpl.
  - destruct (least_loaded_ok ws Hws) as (i & ? & ? & _). eauto.
  - destruct (prefix_affinity_ok req ws Hws) as (i & ? & ? & _). eauto.
  - by apply strict_affinity_ok.
Qed.

(** ** Group affinity: lemmas *)

Lemma length_dict_del {V} (d : list (string * V)) k :
  NoDup (dict_keys d) -> k ∈ dict_keys d -> S (length (dict_del d k)) = length d.
Proof.
  unfold dict_keys, dict_del. induction d as [|[k0 v0] d IH]; csimpl; [set_solver|].
  intros [Hk Hd]%NoDup_cons. rewrite filter_cons. simpl. intros [->|Hin]%elem_of_cons.
  - rewrite decide_False by tauto. f_equal.
    change (length (dict_del d k0) = length d). by rewrite dict_del_not_in.
  - rewrite decide_True by (intros ->; done). simpl. f_equal. auto.
Qed.

Lemma fold_del_spec {V} ks (d : list (string * V)) :
  NoDup (dict_keys d) -> NoDup ks -> (forall k, k ∈ ks -> k ∈ dict_keys d) ->
  let d' := fold_left (fun d k => dict_del d k) ks d in
  NoDup (dict_keys d') /\ length d' + length ks = length d /\
  (forall k, k ∉ ks -> dict_get d' k = dict_get d k) /\ (forall kv, kv ∈ d' -> kv ∈ d).
Proof.
  revert d; induction ks as [|k ks IH]; intros d Hd Hks Hin; simpl; [auto with lia|].
  apply NoDup_cons in Hks as [Hk Hks]. pose proof (length_dict_del d k Hd ltac:(apply Hin; left)) as Hl.
  destruct (IH (dict_del d k)) as (H1 & H2 & H3 & H4).
  - by apply dict_del_nodup.
  - done.
  - intros x Hx. rewrite dict_keys_del. apply list_elem_of_filter. split; [by intros ->|apply Hin; by right].
  - split; [done|]. split; [lia|]. split.
    + intros x [Hne Hx]%not_elem_of_cons. rewrite H3 by done. apply dict_get_del_ne. congruence.
    + intros kv Hkv%H4. by apply list_elem_of_filter in Hkv as [_ ?].
Qed.

Lemma drop_oldest_spec n asg :
  NoDup (dict_keys asg) -> let asg' := drop_oldest n asg in
  NoDup (dict_keys asg') /\ length asg' = length asg - n /\ (forall ka, ka ∈ asg' -> ka ∈ asg) /\
  (n = 0 -> asg' = asg).
Proof.
  intros Hn. unfold drop_oldest. set (so := py_sorted _ asg).
  assert (HP : so ≡ₚ asg) by apply py_sorted_perm.
  assert (HN : NoDup so.*1) by (by rewrite HP).
  destruct (fold_del_spec (take n so).*1 asg Hn) as (H1 & H2 & _ & H4).
  - rewrite fmap_take. by eapply sublist_NoDup; [|apply sublist_take].
  - intros k Hk. unfold dict_keys. rewrite <- HP. rewrite fmap_take in Hk.
    apply elem_of_take in Hk as (i & Hi & _). by eapply list_elem_of_lookup_2.
  - cbn zeta. rewrite length_fmap, length_take in H2. assert (length so = length asg) by (by rewrite HP).
    split; [done|]. split; [lia|]. split; [done|]. intros ->. by rewrite take_0.
Qed.

Record affinity_inv (cf : sched_config) (s : sched) : Prop := {
  ai_nodup : NoDup (dict_keys (sc_assignments s));
  ai_valid : forall k a, (k, a) ∈ sc_assignments s -> as_worker a < length (sc_workers s);
  ai_size : length (sc_assignments s) <= cf_max_keys cf + 1;
}.

(** The cleanup keeps an assignment in use unless the table overflowed. *)
Lemma cleanup_ok cf now s :
  affinity_inv cf s -> let s' := cleanup_assignments cf now s in
  (exists asg c, s' = with_affinity asg c (sc_next_affinity s) s) /\ affinity_inv cf s' /\
  length (sc_assignments s') <= cf_max_keys cf /\
  forall k a, dict_get (sc_assignments s) k = Some a -> keep_assignment cf now s a ->
    length (sc_assignments s) <= cf_max_keys cf -> dict_get (sc_assignments s') k = Some a.
Proof.
  intros [H1 H2 H3]. unfold cleanup_assignments.
  destruct ((now - sc_last_cleanup s <? 30)%Z && _) eqn:E; cbn zeta.
  { apply andb_true_iff in E as [_ E]. split; [exists (sc_assignments s), (sc_last_cleanup s); by destruct s|].
    split; [done|]. split; [lia|done]. }
  set (asg := filter _ _).
  assert (Hn : NoDup (dict_keys asg)).
  { unfold dict_keys in *. eapply sublist_NoDup; [exact H1|]. apply fmap_sublist, sublist_filter. }
  destruct (drop_oldest_spec (length asg - cf_max_keys cf) asg Hn) as (D1 & D2 & D3 & D4).
  assert (Hlen : length asg <= length (sc_assignments s)) by apply length_filter.
  split; [by eexists _, _|]. simpl. split.
  - split; simpl; [done| |lia]. intros k a Hka%D3%list_elem_of_filter. by eapply H2; destruct Hka.
  - split; [lia|]. intros k a Hk Hkeep Hs. rewrite D4 by lia. apply dict_elem_get; [done|].
    apply list_elem_of_filter. split; [done|]. by apply dict_get_elem.
Qed.

(** [s'] is [s] up to the group-affinity bookkeeping. *)
Definition same_core (s s' : sched) : Prop := exists asg c n, s' = with_affinity asg c n s.

Lemma same_core_refl s : same_core s s.
Proof. exists (sc_assignments s), (sc_last_cleanup s), (sc_next_affinity s). by destruct s. Qed.

Lemma least_loaded_worker_idx_ok s :
  sc_workers s <> [] ->
  exists i n, least_loaded_worker_idx s = Ok (i, with_affinity (sc_assignments s) (sc_last_cleanup s) n s) /\
    good_choice (sc_workers s) i /\
    forall j, j ∈ routing_candidates (sc_workers s) ->
      Qltb (load_at (sc_workers s) j) (load_at (sc_workers s) i) = false.
Proof.
  intros Hws. unfold least_loaded_worker_idx. set (start := _ mod _).
  destruct (min_candidates_ok (by_key (affinity_key s start) affinity_lt) (sc_workers s) Hws) as (i & H1 & H2 & H3).
  rewrite H1. simpl. eexists i, _. split; [done|]. split; [done|]. intros j Hj%H3.
  unfold by_key, affinity_lt, lex_pair in Hj. by apply orb_false_iff in Hj as [Hj _].
Qed.

(** The outcome of a routing by group affinity of [key] in [s]. *)
Record affinity_routed (cf : sched_config) (key : string) (now : Z) (s : sched) (i : nat) (s' : sched) : Prop := {
  ar_core : same_core s s';
  ar_choice : good_choice (sc_workers s) i;
  ar_inv : affinity_inv cf s';
  ar_entry : dict_get (sc_assignments s') key = Some (Assignment i now);
  ar_sticky : forall j t, dict_get (sc_assignments s) key = Some (Assignment j t) ->
    worker_can_receive_new_requests j s = true -> (now - cf_ttl cf <= t)%Z ->
    length (sc_assignments s) <= cf_max_keys cf -> i = j;
  ar_least : (dict_get (sc_assignments s) key = None) ->
    forall j, j ∈ routing_candidates (sc_workers s) ->
      Qltb (load_at (sc_workers s) j) (load_at (sc_workers s) i) = false;
}.

Lemma affinity_inv_set cf asg c n key i now s :
  affinity_inv cf (with_affinity asg c n s) -> length asg <= cf_max_keys cf -> i < length (sc_workers s) ->
  affinity_inv cf (with_affinity (dict_set asg key (Assignment i now)) c n s).
Proof.
  intros [H1 H2 H3] Hl Hi. simpl in *. split; simpl.
  - by apply dict_set_nodup.
  - intros k a Hka. apply dict_elem_get in Hka; [|by apply dict_set_nodup].
    destruct (decide (k = key)) as [->|].
    + rewrite dict_get_set_eq in Hka. by simplify_eq/=.
    + rewrite dict_get_set_ne in Hka by done. apply dict_get_elem in Hka. eauto.
  - assert (length (dict_set asg key (Assignment i now)) <= length asg + 1); [|lia].
    clear. induction asg as [|[k v] asg IH]; simpl; [lia|]. destruct (decide _); simpl; lia.
Qed.

Lemma cleanup_no_new cf now s k :
  affinity_inv cf s -> dict_get (sc_assignments s) k = None ->
  dict_get (sc_assignments (cleanup_assignments cf now s)) k = None.
Proof.
  intros [H1 _ _] Hk. unfold cleanup_assignments. destruct (_ && _); [done|]. cbn [with_affinity sc_assignments].
  set (asg := filter _ _). assert (Hn : NoDup (dict_keys asg)).
  { unfold dict_keys in *. eapply sublist_NoDup; [exact H1|]. apply fmap_sublist, sublist_filter. }
  destruct (drop_oldest_spec (length asg - cf_max_keys cf) asg Hn) as (D1 & _ & D3 & _).
  destruct (dict_get (drop_oldest _ _) k) as [a|] eqn:E; [|done].
  apply dict_get_elem, D3, list_elem_of_filter in E as [_ E].
  apply dict_elem_get in E; [congruence|done].
Qed.

Lemma can_receive_good s j :
  worker_can_receive_new_requests j s = true -> good_choice (sc_workers s) j.
Proof.
  unfold worker_can_receive_new_requests. destruct (sc_workers s !! j) as [w|] eqn:Ew; [|done]. intros Hj.
  split; [by eapply lookup_lt_Some|]. intros _. apply elem_routing_candidates. eauto.
Qed.

Lemma group_affinity_routing_ok cf req key now s :
  affinity_inv cf s -> sc_workers s <> [] -> routing_key req = Some key ->
  exists i s', group_affinity_routing cf req now s = Ok (i, s') /\ affinity_routed cf key now s i s'.
Proof.
  intros HI Hws Hkey. unfold group_affinity_routing. rewrite Hkey.
  pose proof (cleanup_no_new cf now s key HI) as Hnone.
  destruct (cleanup_ok cf now s HI) as ((asg & c & E) & HI1 & Hl1 & Hkeep). cbn zeta in *.
  set (n := sc_next_affinity s) in *. rewrite E in *. clear E. cbn [with_affinity sc_assignments] in *.
  assert (Hfresh : (forall a, dict_get asg key = Some a ->
      worker_can_receive_new_requests (as_worker a) s = false) ->
    exists i s', ('(idx, s1) ← least_loaded_worker_idx (with_affinity asg c n s);
      Ok (idx, with_affinity (dict_set (sc_assignments s1) key (Assignment idx now))
                 (sc_last_cleanup s1) (sc_next_affinity s1) s1)) = Ok (i, s') /\ affinity_routed cf key now s i s').
  { intros Hbad. destruct (least_loaded_worker_idx_ok (with_affinity asg c n s) Hws) as (i & n' & -> & Hg & Hmin).
    cbn [mbind res_bind]. eexists i, _. split; [done|]. split.
    - by eexists _, _, _.
    - done.
    - apply (affinity_inv_set cf asg c n' key i now s); [by destruct HI1|done|apply Hg].
    - simpl. apply dict_get_set_eq.
    - intros j t Hj Hcan Ht Hlen. exfalso. assert (Hk : dict_get asg key = Some (Assignment j t)).
      { apply Hkeep; [done| |done]. split; simpl; [lia|done]. }
      specialize (Hbad _ Hk). simpl in Hbad. congruence.
    - intros _. apply Hmin. }
  destruct (dict_get asg key) as [a|] eqn:Ea; [|by apply Hfresh].
  change (worker_can_receive_new_requests (as_worker a) (with_affinity asg c n s))
    with (worker_can_receive_new_requests (as_worker a) s).
  destruct (worker_can_receive_new_requests (as_worker a) s) eqn:Er; [|apply Hfresh; by intros ? [= <-]].
  eexists _, _. split; [done|]. split.
  - by eexists _, _, _.
  - by apply can_receive_good.
  - apply (affinity_inv_set cf asg c n key); [done..|]. by apply (can_receive_good s).
  - simpl. apply dict_get_set_eq.
  - intros j t Hj Hcan Ht Hlen. assert (Hk : dict_get asg key = Some (Assignment j t)).
    { apply Hkeep; [done| |done]. split; simpl; [lia|done]. }
    rewrite Ea in Hk. by simplify_eq.
  - intros Hn%Hnone. congruence.
Qed.

Lemma route_ok cf req now s :
  affinity_inv cf s -> sc_workers s <> [] ->
  exists i s', route cf req now s = Ok (i, s') /\ same_core s s' /\ good_choice (sc_workers s) i /\ affinity_inv cf s'.
Proof.
  intros HI Hws. unfold route, uses_group_affinity.
  destruct (cf_group_affinity cf && bool_decide (is_Some (routing_key req))) eqn:E.
  - apply andb_true_iff in E as [_ [key Hkey]%bool_decide_eq_true].
    destruct (group_affinity_routing_ok cf req key now s HI Hws Hkey) as (i & s' & H & []). eauto 10.
  - match goal with |- context [apply_routing ?f _ _] => destruct (apply_routing_ok f req (sc_workers s) Hws) as (i & -> & Hg) end.
    simpl. eauto 10 using same_core_refl.
Qed.

(** ** Accounting *)

Definition running_obj (ts : task_state) : option nat :=
  match ts with Running _ obj => Some obj | Routing _ => None end.

(** The tasks that were admitted to the worker object [obj] and have not completed. *)
Definition running_on (obj : nat) (tasks : gmap nat (request * task_state)) : gset nat :=
  dom (filter (fun kt => running_obj kt.2.2 = Some obj) tasks).

Lemma elem_running_on obj tasks id :
  id ∈ running_on obj tasks <-> exists r, tasks !! id = Some r /\ running_obj r.2 = Some obj.
Proof.
  unfold running_on. rewrite elem_of_dom. split.
  - intros [r Hr]. apply map_lookup_filter_Some in Hr as [H1 H2]. eauto.
  - intros (r & H1 & H2). exists r. by apply map_lookup_filter_Some.
Qed.

Definition is_running (tasks : gmap nat (request * task_state)) (id : nat) : option nat :=
  match tasks !! id with Some r => running_obj r.2 | None => None end.

Lemma elem_running_on_is obj tasks id : id ∈ running_on obj tasks <-> is_running tasks id = Some obj.
Proof.
  rewrite elem_running_on. unfold is_running. destruct (tasks !! id) as [r|]; naive_solver.
Qed.

Lemma running_on_ext obj tasks tasks' :
  (forall id, is_running tasks' id = is_running tasks id) -> running_on obj tasks' = running_on obj tasks.
Proof. intros H. apply set_eq. intros id. by rewrite !elem_running_on_is, H. Qed.

Lemma is_running_insert tasks id r id' :
  is_running (<[id := r]> tasks) id' = if decide (id' = id) then running_obj r.2 else is_running tasks id'.
Proof.
  unfold is_running. destruct (decide (id' = id)) as [->|]; [by rewrite lookup_insert_eq|].
  by rewrite lookup_insert_ne.
Qed.

Lemma is_running_delete tasks id id' :
  is_running (delete id tasks) id' = if decide (id' = id) then None else is_running tasks id'.
Proof.
  unfold is_running. destruct (decide (id' = id)) as [->|]; [by rewrite lookup_delete_eq|].
  by rewrite lookup_delete_ne.
Qed.

(** The streams that were admitted to the worker object [obj] and have not finished. *)
Definition streams_on (obj : nat) (streams : gmap string client_stream) : gset string :=
  dom (filter (fun kt => st_worker kt.2 = Some obj) streams).

Definition stream_obj (streams : gmap string client_stream) (rid : string) : option nat := streams !! rid ≫= st_worker.

Lemma elem_streams_on obj streams rid : rid ∈ streams_on obj streams <-> stream_obj streams rid = Some obj.
Proof.
  unfold streams_on, stream_obj. rewrite elem_of_dom. split.
  - intros [st Hst]. apply map_lookup_filter_Some in Hst as [H1 H2]. by rewrite H1.
  - intros H. destruct (streams !! rid) as [st|] eqn:E; [|done]. exists st. by apply map_lookup_filter_Some.
Qed.

Lemma streams_on_ext obj streams streams' :
  (forall rid, stream_obj streams' rid = stream_obj streams rid) -> streams_on obj streams' = streams_on obj streams.
Proof. intros H. apply set_eq. intros rid. by rewrite !elem_streams_on, H. Qed.

Lemma stream_obj_insert streams rid st rid' :
  stream_obj (<[rid := st]> streams) rid' = if decide (rid' = rid) then st_worker st else stream_obj streams rid'.
Proof.
  unfold stream_obj. destruct (decide (rid' = rid)) as [->|]; [by rewrite lookup_insert_eq|by rewrite lookup_insert_ne].
Qed.

Lemma stream_obj_delete streams rid rid' :
  stream_obj (delete rid streams) rid' = if decide (rid' = rid) then None else stream_obj streams rid'.
Proof.
  unfold stream_obj. destruct (decide (rid' = rid)) as [->|]; [by rewrite lookup_delete_eq|by rewrite lookup_delete_ne].
Qed.

(** What a worker is busy with: its admitted requests and its open streams. *)
Definition busy (obj : nat) (s : sched) : Z :=
  (Z.of_nat (size (running_on obj (sc_tasks s))) + Z.of_nat (size (streams_on obj (sc_streams s))))%Z.

Record acct_inv (s : sched) : Prop := {
  ac_objs : NoDup (ws_obj <$> sc_workers s);
  ac_objs_lt : forall i w, sc_workers s !! i = Some w -> ws_obj w < sc_objs s;
  ac_dom : forall i, is_Some (sc_inflight s !! i) -> i < length (sc_workers s);
  ac_flight : forall i w, sc_workers s !! i = Some w ->
    sc_inflight s !! i = Some (running_on (ws_obj w) (sc_tasks s));
  ac_active : forall i w, sc_workers s !! i = Some w ->
    (0 <= active_requests w <= busy (ws_obj w) s)%Z /\ (sc_stopped s = false -> active_requests w = busy (ws_obj w) s);
  ac_streaming : forall i w, sc_workers s !! i = Some w ->
    streaming_requests w = Z.of_nat (size (streams_on (ws_obj w) (sc_streams s)));
  ac_streams : forall rid obj, stream_obj (sc_streams s) rid = Some obj -> obj < sc_objs s;
  ac_running : forall id req idx obj, sc_tasks s !! id = Some (req, Running idx obj) ->
    obj < sc_objs s /\ forall i w, sc_workers s !! i = Some w -> ws_obj w = obj -> i = idx;
  ac_ids : forall id, is_Some (sc_tasks s !! id) -> id < sc_next_id s;
}.

Lemma acct_same_core s s' : same_core s s' -> acct_inv s -> acct_inv s'.
Proof. intros (asg & c & n & ->) []. by split. Qed.

(** Changing the tasks without changing who runs where. *)
Lemma acct_tasks s ts nid :
  (forall id, is_running ts id = is_running (sc_tasks s) id) ->
  (forall id, is_Some (ts !! id) -> id < nid) ->
  (forall id req idx obj, ts !! id = Some (req, Running idx obj) -> sc_tasks s !! id = Some (req, Running idx obj)) ->
  acct_inv s ->
  acct_inv (Sched (sc_workers s) (sc_objs s) nid (sc_paused s) (sc_stopped s) (sc_inflight s) ts (sc_table s)
              (sc_assignments s) (sc_last_cleanup s) (sc_next_affinity s)).
Proof.
  intros Hr Hid Hsub [H1 H2 H3 H4 H5 HS HO H6 H7]. split; simpl; try done.
  - intros i w Hw. by rewrite (running_on_ext _ _ _ Hr), (H4 i w Hw).
  - intros i w Hw. unfold busy. simpl. rewrite (running_on_ext _ _ _ Hr). by apply (H5 i w Hw).
  - intros id req idx obj H%Hsub. by eapply H6.
Qed.

Lemma acct_routing_task s id req last :
  is_Some (sc_tasks s !! id) -> is_running (sc_tasks s) id = None -> acct_inv s ->
  acct_inv (with_tasks (<[id := (req, Routing last)]> (sc_tasks s)) s).
Proof.
  intros Hin Hnr HI. apply (acct_tasks s); [| |intros id' r idx obj|done].
  - intros id'. rewrite is_running_insert. by destruct (decide (id' = id)) as [->|].
  - intros id'. destruct (decide (id' = id)) as [->|]; [by intros _; apply HI|].
    rewrite lookup_insert_ne by done. apply HI.
  - destruct (decide (id' = id)) as [->|]; [by rewrite lookup_insert_eq|by rewrite lookup_insert_ne].
Qed.

Lemma acct_drop_task s id : is_running (sc_tasks s) id = None -> acct_inv s -> acct_inv (drop_task id s).
Proof.
  intros Hnr HI. apply (acct_tasks s); [| |intros id' r idx obj|done].
  - intros id'. rewrite is_running_delete. by destruct (decide (id' = id)) as [->|].
  - intros id' Hin. apply HI. destruct Hin as [r Hr]. apply lookup_delete_Some in Hr as [_ Hr]. eauto.
  - by intros [_ ?]%lookup_delete_Some.
Qed.

Lemma alter_objs f k (ws : list worker_state) :
  (forall w, ws_obj (f w) = ws_obj w) -> ws_obj <$> alter f k ws = ws_obj <$> ws.
Proof.
  intros Hf. apply list_eq. intros i. rewrite !list_lookup_fmap. destruct (decide (i = k)) as [->|].
  - rewrite list_lookup_alter_eq. destruct (ws !! k); simpl; [|done]. f_equal. apply Hf.
  - by rewrite list_lookup_alter_ne.
Qed.

(** Changing worker fields other than the identity and the counter. *)
Lemma acct_update f idx s s' :
  (forall w, ws_obj (f w) = ws_obj w /\ active_requests (f w) = active_requests w /\ streaming_requests (f w) = streaming_requests w) ->
  update_worker f idx s = Ok s' -> acct_inv s -> acct_inv s'.
Proof.
  intros Hf H [H1 H2 H3 H4 H5 HS HO H6 H7]. unfold update_worker in H. res_inv.
  set (k := Z.to_nat idx).
  assert (Hl : forall i w, alter f k (sc_workers s) !! i = Some w -> exists w0, sc_workers s !! i = Some w0 /\
    ws_obj w = ws_obj w0 /\ active_requests w = active_requests w0 /\ streaming_requests w = streaming_requests w0).
  { intros i w. destruct (decide (i = k)) as [->|].
    - rewrite list_lookup_alter_eq. intros (w0 & -> & ->)%fmap_Some. exists w0. split; [done|]. apply Hf.
    - rewrite list_lookup_alter_ne by done. eauto. }
  split; simpl; rewrite ?length_alter; try done.
  - rewrite alter_objs; [done|]. apply Hf.
  - intros i w (w0 & Hw & -> & _)%Hl. eauto.
  - intros i w (w0 & Hw & -> & _)%Hl. eauto.
  - intros i w (w0 & Hw & -> & -> & _)%Hl. by apply (H5 i w0).
  - intros i w (w0 & Hw & -> & _ & ->)%Hl. eauto.
  - intros id req i obj Ht. destruct (H6 _ _ _ _ Ht) as [? H8]. split; [done|].
    intros j w (w0 & Hw & -> & _)%Hl. eauto.
Qed.

Lemma lookup_release obj (ws : list worker_state) i w :
  ((fun w => if ws_obj w =? obj then set_active (Z.max 0 (active_requests w - 1)) w else w) <$> ws) !! i = Some w ->
  exists w0, ws !! i = Some w0 /\ ws_obj w = ws_obj w0 /\ streaming_requests w = streaming_requests w0 /\
    active_requests w = if ws_obj w0 =? obj then Z.max 0 (active_requests w0 - 1) else active_requests w0.
Proof.
  rewrite list_lookup_fmap. intros (w0 & Hw & ->)%fmap_Some. exists w0. split; [done|]. by destruct (_ =? obj).
Qed.

Lemma release_objs obj (ws : list worker_state) :
  ws_obj <$> ((fun w => if ws_obj w =? obj then set_active (Z.max 0 (active_requests w - 1)) w else w) <$> ws)
  = ws_obj <$> ws.
Proof. rewrite <- list_fmap_compose. apply list_fmap_ext. intros i w _. simpl. by destruct (_ =? obj). Qed.

(** Once the scheduler is stopped, a release can only under-count. *)
Lemma acct_release_stopped obj s : sc_stopped s = true -> acct_inv s -> acct_inv (release obj s).
Proof.
  intros Hst [H1 H2 H3 H4 H5 HS HO H6 H7]. split; simpl; rewrite ?length_fmap; try done.
  - by rewrite release_objs.
  - intros i w (w0 & Hw & -> & _)%lookup_release. eauto.
  - intros i w (w0 & Hw & -> & _)%lookup_release. eauto.
  - intros i w (w0 & Hw & -> & _ & ->)%lookup_release. destruct (H5 i w0 Hw) as [Ha _].
    unfold busy in *. simpl. split; [destruct (_ =? obj); lia|congruence].
  - intros i w (w0 & Hw & -> & -> & _)%lookup_release. eauto.
  - intros id req i obj' Ht. destruct (H6 _ _ _ _ Ht) as [? H8]. split; [done|].
    intros j w (w0 & Hw & -> & _)%lookup_release. eauto.
Qed.

Lemma obj_position s i j w w' :
  acct_inv s -> sc_workers s !! i = Some w -> sc_workers s !! j = Some w' -> ws_obj w = ws_obj w' -> i = j.
Proof.
  intros HI Hi Hj E. apply (NoDup_lookup (ws_obj <$> sc_workers s) i j (ws_obj w)); [apply HI|..];
    rewrite list_lookup_fmap; [by rewrite Hi|by rewrite Hj, E].
Qed.

Lemma running_admit tasks id req idx obj o :
  is_running tasks id = None ->
  running_on o (<[id := (req, Running idx obj)]> tasks)
  = if decide (o = obj) then {[id]} ∪ running_on o tasks else running_on o tasks.
Proof.
  intros Hn. apply set_eq. intros x. rewrite elem_running_on_is, is_running_insert.
  destruct (decide (o = obj)) as [->|Ho]; rewrite ?elem_of_union, elem_running_on_is;
    destruct (decide (x = id)) as [->|]; simpl; set_solver.
Qed.

Lemma running_finish tasks id obj o :
  is_running tasks id = Some obj ->
  running_on o (delete id tasks) = if decide (o = obj) then running_on o tasks ∖ {[id]} else running_on o tasks.
Proof.
  intros Hn. apply set_eq. intros x. rewrite elem_running_on_is, is_running_delete.
  destruct (decide (o = obj)) as [->|Ho]; rewrite ?elem_of_difference, elem_running_on_is;
    destruct (decide (x = id)) as [->|]; simpl; set_solver.
Qed.

(** Admission: the worker's counter, its set of in-flight tasks and the task change together. *)
Lemma acct_admit s id req idx w ts :
  acct_inv s -> is_Some (sc_tasks s !! id) -> is_running (sc_tasks s) id = None ->
  sc_workers s !! idx = Some w -> sc_inflight s !! idx = Some ts ->
  acct_inv (with_inflight (<[idx := {[id]} ∪ ts]> (sc_inflight s))
              (with_tasks (<[id := (req, Running idx (ws_obj w))]> (sc_tasks s))
                 (with_workers (alter (set_active (active_requests w + 1)) idx (sc_workers s)) s))).
Proof.
  intros HI Hid Hnr Hw Hts. pose proof HI as [H1 H2 H3 H4 H5 HS HO H6 H7].
  assert (Hl : forall i v, alter (set_active (active_requests w + 1)) idx (sc_workers s) !! i = Some v ->
    exists v0, sc_workers s !! i = Some v0 /\ ws_obj v = ws_obj v0 /\ (ws_obj v0 = ws_obj w <-> i = idx) /\
      streaming_requests v = streaming_requests v0 /\ active_requests v = (if decide (i = idx) then active_requests w + 1 else active_requests v0)%Z).
  { intros i v. destruct (decide (i = idx)) as [->|].
    - rewrite list_lookup_alter_eq, Hw. intros [= <-]. by exists w.
    - rewrite list_lookup_alter_ne by done. intros Hv. exists v. split; [done|]. split; [done|]. split; [|done].
      split; [|congruence]. intros E. by eapply obj_position. }
  assert (Hfresh : id ∉ running_on (ws_obj w) (sc_tasks s)) by (by rewrite elem_running_on_is, Hnr).
  split; simpl; rewrite ?length_alter.
  - by rewrite alter_objs.
  - intros i v (v0 & Hv & -> & _)%Hl. eauto.
  - intros i [x Hx]. apply lookup_insert_Some in Hx as [[<- _]|[_ Hx]]; [by eapply lookup_lt_Some|eauto].
  - intros i v (v0 & Hv & -> & Hiff & _)%Hl. rewrite running_admit by done.
    destruct (decide (i = idx)) as [->|Hi].
    + rewrite lookup_insert_eq, decide_True by (by apply Hiff). rewrite (H4 _ _ Hv) in Hts. congruence.
    + rewrite lookup_insert_ne by done. rewrite decide_False by (by intros E%Hiff). eauto.
  - intros i v (v0 & Hv & -> & Hiff & _ & ->)%Hl. destruct (H5 i v0 Hv) as [Ha Hb].
    unfold busy in *. simpl. rewrite running_admit by done.
    destruct (decide (i = idx)) as [->|Hi]; [|by rewrite decide_False by (by intros E%Hiff)].
    rewrite decide_True by (by apply Hiff). simplify_eq. rewrite size_union, size_singleton by set_solver.
    split; [lia|]. intros Hst. specialize (Hb Hst). lia.
  - intros i v (v0 & Hv & -> & _ & -> & _)%Hl. eauto.
  - done.
  - intros id' req' idx' obj' Ht. apply lookup_insert_Some in Ht as [[<- [= <- <- <-]]|[_ Ht]].
    + split; [eauto|]. intros i v (v0 & Hv & -> & Hiff & _)%Hl E. by apply Hiff.
    + destruct (H6 _ _ _ _ Ht) as [? H8]. split; [done|]. intros i v (v0 & Hv & -> & _)%Hl. eauto.
  - intros id' Hin. destruct (decide (id' = id)) as [->|]; [eauto|].
    rewrite lookup_insert_ne in Hin by done. eauto.
Qed.

(** Completion of a request that a listed worker served. *)
Lemma acct_complete_flight s id req idx obj ts :
  acct_inv s -> sc_tasks s !! id = Some (req, Running idx obj) -> sc_inflight s !! idx = Some ts ->
  acct_inv (release obj (with_inflight (<[idx := ts ∖ {[id]}]> (sc_inflight s)) (drop_task id s))).
Proof.
  intros [H1 H2 H3 H4 H5 HS HO H6 H7] Ht Hts. destruct (H6 _ _ _ _ Ht) as [Hobj Hpos].
  assert (Hr : is_running (sc_tasks s) id = Some obj) by (unfold is_running; by rewrite Ht).
  assert (Hin : id ∈ running_on obj (sc_tasks s)) by (by apply elem_running_on_is).
  split; simpl; rewrite ?length_fmap.
  - by rewrite release_objs.
  - intros i w (w0 & Hw & -> & _)%lookup_release. eauto.
  - intros i [x Hx]. apply lookup_insert_Some in Hx as [[<- _]|[_ Hx]]; eauto.
  - intros i w (w0 & Hw & -> & _)%lookup_release. rewrite (running_finish _ _ _ _ Hr).
    destruct (decide (ws_obj w0 = obj)) as [E|E].
    + assert (i = idx) as -> by eauto. rewrite lookup_insert_eq. rewrite (H4 _ _ Hw) in Hts. congruence.
    + destruct (decide (i = idx)) as [->|]; [|rewrite lookup_insert_ne by done; eauto].
      rewrite lookup_insert_eq. rewrite (H4 _ _ Hw) in Hts. simplify_eq. f_equal.
      assert (id ∉ running_on (ws_obj w0) (sc_tasks s)) by (rewrite elem_running_on_is, Hr; congruence). set_solver.
  - intros i w (w0 & Hw & -> & _ & ->)%lookup_release. destruct (H5 i w0 Hw) as [Ha Hb].
    unfold busy in *. simpl. rewrite (running_finish _ _ _ _ Hr). destruct (Nat.eqb_spec (ws_obj w0) obj) as [E|E].
    + rewrite decide_True by done. rewrite E in *.
      assert (Hs : size (running_on obj (sc_tasks s) ∖ {[id]}) = size (running_on obj (sc_tasks s)) - 1)
        by (rewrite size_difference, size_singleton by set_solver; done).
      assert (0 < size (running_on obj (sc_tasks s))) by (assert (size (running_on obj (sc_tasks s)) <> 0); [|lia];
        intros E0%size_empty_inv; set_solver).
      rewrite Hs. split; [lia|]. intros Hst. specialize (Hb Hst). lia.
    + by rewrite decide_False.
  - intros i w (w0 & Hw & -> & -> & _)%lookup_release. eauto.
  - done.
  - intros id' req' idx' obj' [_ Ht']%lookup_delete_Some. destruct (H6 _ _ _ _ Ht') as [? H8]. split; [done|].
    intros i w (w0 & Hw & -> & _)%lookup_release. eauto.
  - intros id' [x [_ Hx]%lookup_delete_Some]. eauto.
Qed.

(** Completion of a request whose worker has been removed: no listed worker is its object. *)
Lemma acct_complete_orphan s id req idx obj :
  acct_inv s -> sc_tasks s !! id = Some (req, Running idx obj) -> sc_inflight s !! idx = None ->
  acct_inv (drop_task id s).
Proof.
  intros [H1 H2 H3 H4 H5 HS HO H6 H7] Ht Hts. destruct (H6 _ _ _ _ Ht) as [Hobj Hpos].
  assert (Hr : is_running (sc_tasks s) id = Some obj) by (unfold is_running; by rewrite Ht).
  assert (Hne : forall i w, sc_workers s !! i = Some w -> ws_obj w <> obj).
  { intros i w Hw E. assert (i = idx) as -> by eauto. rewrite (H4 _ _ Hw) in Hts. done. }
  split; simpl; try done.
  - intros i w Hw. rewrite (running_finish _ _ _ _ Hr), decide_False by eauto. eauto.
  - intros i w Hw. unfold busy. simpl. rewrite (running_finish _ _ _ _ Hr), decide_False by eauto. by apply (H5 i w).
  - intros id' req' idx' obj' [_ Ht']%lookup_delete_Some. eauto.
  - intros id' [x [_ Hx]%lookup_delete_Some]. eauto.
Qed.

Lemma acct_add limit s : acct_inv s -> acct_inv (add_worker limit s).
Proof.
  intros [H1 H2 H3 H4 H5 HS HO H6 H7].
  assert (Hnew : running_on (sc_objs s) (sc_tasks s) = ∅).
  { apply set_eq. intros id. split; [|set_solver]. intros ([r ts] & Hr & E)%elem_running_on.
    destruct ts as [|i o]; simplify_eq/=. apply H6 in Hr as [Hlt _]. lia. }
  assert (Hnews : streams_on (sc_objs s) (sc_streams s) = ∅).
  { apply set_eq. intros rid. split; [|set_solver]. intros Hr%elem_streams_on%HO. lia. }
  assert (Hl : forall i w, (sc_workers s ++ [new_worker (sc_objs s) limit]) !! i = Some w ->
    sc_workers s !! i = Some w \/ i = length (sc_workers s) /\ w = new_worker (sc_objs s) limit).
  { intros i w [Hw|[Hi Hw]]%lookup_app_Some; [by left|right].
    destruct (i - length (sc_workers s)) as [|k] eqn:E; simplify_eq/=. split; [lia|done]. }
  split; simpl; rewrite ?length_app; simpl.
  - rewrite fmap_app. csimpl. rewrite <- Permutation_cons_append. constructor; [|done].
    intros (w & E & [i Hw]%list_elem_of_lookup)%list_elem_of_fmap. apply H2 in Hw. lia.
  - intros i w [Hw|[-> ->]]%Hl; [|simpl; lia]. apply H2 in Hw. lia.
  - intros i [x Hx]. apply lookup_insert_Some in Hx as [[<- _]|[_ Hx]]; [lia|].
    assert (i < length (sc_workers s)) by eauto. lia.
  - intros i w [Hw|[-> ->]]%Hl.
    + rewrite lookup_insert_ne by (apply lookup_lt_Some in Hw; lia). eauto.
    + simpl. by rewrite lookup_insert_eq, Hnew.
  - intros i w [Hw|[-> ->]]%Hl; [by apply (H5 i w)|]. unfold busy. simpl. rewrite Hnew, Hnews, !size_empty. lia.
  - intros i w [Hw|[-> ->]]%Hl; [by apply (HS i w)|]. simpl. by rewrite Hnews, size_empty.
  - intros rid obj Hr%HO. lia.
  - intros id req idx obj Ht. destruct (H6 _ _ _ _ Ht) as [? H8]. split; [lia|].
    intros i w [Hw|[-> ->]]%Hl; [eauto|]. simpl. lia.
  - done.
Qed.

Lemma acct_remove s s' : remove_last_worker s = Ok s' -> acct_inv s -> acct_inv s'.
Proof.
  intros H [H1 H2 H3 H4 H5 HS HO H6 H7]. unfold remove_last_worker in H. res_inv.
  set (idx := length (sc_workers s) - 1).
  assert (Hl : forall i w, take idx (sc_workers s) !! i = Some w -> sc_workers s !! i = Some w /\ i <> idx).
  { intros i w [Hw Hi]%lookup_take_Some. split; [done|lia]. }
  split; simpl.
  - rewrite fmap_take. eapply sublist_NoDup; [exact H1|apply sublist_take].
  - intros i w [Hw _]%Hl. eauto.
  - intros i [x [Hne Hx]%lookup_delete_Some]. rewrite length_take.
    assert (i < length (sc_workers s)) by eauto. lia.
  - intros i w [Hw Hne]%Hl. rewrite lookup_delete_ne by done. eauto.
  - intros i w [Hw _]%Hl. by apply (H5 i w).
  - intros i w [Hw _]%Hl. by apply (HS i w).
  - done.
  - intros id req i obj Ht. destruct (H6 _ _ _ _ Ht) as [? H8]. split; [done|]. intros j w [Hw _]%Hl. eauto.
  - done.
Qed.

Lemma acct_flags p b s :
  (sc_stopped s = true -> b = true) -> acct_inv s -> acct_inv (with_flags p b s).
Proof.
  intros Hb [H1 H2 H3 H4 H5 HS HO H6 H7]. split; simpl; try done. intros i w Hw.
  destruct (H5 i w Hw) as [Ha Heq]. split; [done|]. intros ->. apply Heq. destruct (sc_stopped s); [|done].
  by specialize (Hb eq_refl).
Qed.

Lemma acct_submit {P} cf h ph (p : P) key b s id s' :
  submit cf h ph p key b s = Ok (id, s') -> acct_inv s -> acct_inv s'.
Proof.
  intros H HI. unfold submit in H. res_inv. simplify_eq.
  assert (Hnew : sc_tasks s !! sc_next_id s = None).
  { destruct (sc_tasks s !! sc_next_id s) eqn:E; [|done].
    assert (sc_next_id s < sc_next_id s) by (apply HI; eauto). lia. }
  apply (acct_tasks s); [| |intros id' rq idx obj|done].
  - intros id'. rewrite is_running_insert. destruct (decide _) as [->|]; [|done]. unfold is_running. by rewrite Hnew.
  - intros id'. destruct (decide (id' = sc_next_id s)) as [->|]; [lia|].
    rewrite lookup_insert_ne by done. intros Hin. apply (ac_ids _ HI) in Hin. lia.
  - destruct (decide (id' = sc_next_id s)) as [->|]; [by rewrite lookup_insert_eq|by rewrite lookup_insert_ne].
Qed.

(** *** Streams *)

Lemma prune_streams now tb : tb_streams (prune_retired_streams now tb) = tb_streams tb.
Proof. unfold prune_retired_streams. by destruct (prune_loop _ _ _). Qed.

Lemma retire_streams rid b now tb : tb_streams (retire_stream rid b now tb) = tb_streams tb.
Proof. unfold retire_stream. by rewrite prune_streams. Qed.

(** Changing the streams without changing which worker serves which. *)
Lemma acct_streams s tb nid :
  (forall rid, stream_obj (tb_streams tb) rid = stream_obj (sc_streams s) rid) -> sc_next_id s <= nid ->
  acct_inv s ->
  acct_inv (Sched (sc_workers s) (sc_objs s) nid (sc_paused s) (sc_stopped s) (sc_inflight s) (sc_tasks s) tb
              (sc_assignments s) (sc_last_cleanup s) (sc_next_affinity s)).
Proof.
  intros Hr Hid [H1 H2 H3 H4 H5 HS HO H6 H7]. split; simpl; try done.
  - intros i w Hw. unfold busy. simpl. rewrite (streams_on_ext _ _ _ Hr). by apply (H5 i w Hw).
  - intros i w Hw. rewrite (streams_on_ext _ _ _ Hr). by apply (HS i w Hw).
  - intros rid obj. rewrite Hr. apply HO.
  - intros id Hin%H7. lia.
Qed.

Lemma acct_set_stream s rid st :
  stream_obj (sc_streams s) rid = st_worker st -> acct_inv s -> acct_inv (set_stream rid st s).
Proof.
  intros Hst. apply (acct_streams s); [|done]. intros rid'. simpl. rewrite stream_obj_insert.
  by destruct (decide (rid' = rid)) as [->|].
Qed.

Lemma streams_admit streams rid st obj o :
  stream_obj streams rid = None -> st_worker st = Some obj ->
  streams_on o (<[rid := st]> streams) = if decide (o = obj) then {[rid]} ∪ streams_on o streams else streams_on o streams.
Proof.
  intros Hn Hst. apply set_eq. intros x. rewrite elem_streams_on, stream_obj_insert, Hst.
  destruct (decide (o = obj)) as [->|Ho]; rewrite ?elem_of_union, elem_streams_on;
    destruct (decide (x = rid)) as [->|]; simpl; set_solver.
Qed.

Lemma streams_finish streams rid o :
  streams_on o (delete rid streams)
  = if decide (stream_obj streams rid = Some o) then streams_on o streams ∖ {[rid]} else streams_on o streams.
Proof.
  apply set_eq. intros x. rewrite elem_streams_on, stream_obj_delete.
  destruct (decide (stream_obj streams rid = Some o)) as [Ho|Ho]; rewrite ?elem_of_difference, elem_streams_on;
    destruct (decide (x = rid)) as [->|]; simpl; set_solver.
Qed.

(** Admission of a stream: both counters and the stream change together. *)
Lemma acct_stream_admit s rid st idx w :
  acct_inv s -> stream_obj (sc_streams s) rid = None -> st_worker st = Some (ws_obj w) -> sc_workers s !! idx = Some w ->
  acct_inv (set_stream rid st
    (with_workers (alter (set_streaming (active_requests w + 1) (streaming_requests w + 1)) idx (sc_workers s)) s)).
Proof.
  intros HI Hnone Hst Hw. pose proof HI as [H1 H2 H3 H4 H5 HS HO H6 H7].
  assert (Hl : forall i v, alter (set_streaming (active_requests w + 1) (streaming_requests w + 1)) idx (sc_workers s) !! i = Some v ->
    exists v0, sc_workers s !! i = Some v0 /\ ws_obj v = ws_obj v0 /\ (ws_obj v0 = ws_obj w <-> i = idx) /\
      streaming_requests v = (if decide (i = idx) then streaming_requests v0 + 1 else streaming_requests v0)%Z /\
      active_requests v = (if decide (i = idx) then active_requests v0 + 1 else active_requests v0)%Z).
  { intros i v. destruct (decide (i = idx)) as [->|].
    - rewrite list_lookup_alter_eq, Hw. intros [= <-]. by exists w.
    - rewrite list_lookup_alter_ne by done. intros Hv. exists v. split; [done|]. split; [done|]. split; [|done].
      split; [|congruence]. intros E. by eapply obj_position. }
  assert (Hfresh : rid ∉ streams_on (ws_obj w) (sc_streams s)) by (by rewrite elem_streams_on, Hnone).
  split; simpl; rewrite ?length_alter; try done.
  - by rewrite alter_objs.
  - intros i v (v0 & Hv & -> & _)%Hl. eauto.
  - intros i v (v0 & Hv & -> & _)%Hl. eauto.
  - intros i v (v0 & Hv & -> & Hiff & _ & ->)%Hl. destruct (H5 i v0 Hv) as [Ha Hb]. unfold busy in *. simpl.
    rewrite (streams_admit _ _ _ _ _ Hnone Hst). destruct (decide (i = idx)) as [->|Hi]; [|by rewrite decide_False by (by intros E%Hiff)].
    rewrite decide_True by (by apply Hiff). simplify_eq. rewrite size_union, size_singleton by set_solver.
    split; [lia|]. intros Hs. specialize (Hb Hs). lia.
  - intros i v (v0 & Hv & -> & Hiff & -> & _)%Hl. rewrite (HS i v0 Hv), (streams_admit _ _ _ _ _ Hnone Hst).
    destruct (decide (i = idx)) as [->|Hi]; [|by rewrite decide_False by (by intros E%Hiff)].
    rewrite decide_True by (by apply Hiff). simplify_eq. rewrite size_union, size_singleton by set_solver. lia.
  - intros rid' obj. rewrite stream_obj_insert, Hst. destruct (decide _) as [->|]; [intros [= <-]; eauto|eauto].
  - intros id req i obj Ht. destruct (H6 _ _ _ _ Ht) as [? H8]. split; [done|]. intros j v (v0 & Hv & -> & _)%Hl. eauto.
Qed.

Lemma lookup_on_obj f obj (ws : list worker_state) i w :
  (forall v, ws_obj (f v) = ws_obj v) ->
  ((fun v => if bool_decide (obj = Some (ws_obj v)) then f v else v) <$> ws) !! i = Some w ->
  exists w0, ws !! i = Some w0 /\ ws_obj w = ws_obj w0 /\ w = if decide (obj = Some (ws_obj w0)) then f w0 else w0.
Proof.
  intros Hf. rewrite list_lookup_fmap. intros (w0 & Hw & ->)%fmap_Some. exists w0. split; [done|].
  case_bool_decide; [rewrite decide_True by done|rewrite decide_False by done]; auto.
Qed.

Lemma on_obj_objs f obj (ws : list worker_state) :
  (forall v, ws_obj (f v) = ws_obj v) ->
  ws_obj <$> ((fun v => if bool_decide (obj = Some (ws_obj v)) then f v else v) <$> ws) = ws_obj <$> ws.
Proof. intros Hf. rewrite <- list_fmap_compose. apply list_fmap_ext. intros i w _. simpl. by case_bool_decide. Qed.

Lemma acct_quarantine_obj obj s : acct_inv s -> acct_inv (on_obj quarantine obj s).
Proof.
  intros [H1 H2 H3 H4 H5 HS HO H6 H7].
  assert (Hl : forall i w, sc_workers (on_obj quarantine obj s) !! i = Some w -> exists w0, sc_workers s !! i = Some w0 /\
    ws_obj w = ws_obj w0 /\ active_requests w = active_requests w0 /\ streaming_requests w = streaming_requests w0).
  { intros i w (w0 & Hw & Ho & ->)%lookup_on_obj; [|done]. exists w0. split; [done|]. by destruct (decide _). }
  split; try done; try (simpl; by rewrite ?on_obj_objs, ?length_fmap).
  - intros i w (w0 & Hw & -> & _)%Hl. eauto.
  - intros i w (w0 & Hw & -> & _)%Hl. eauto.
  - intros i w (w0 & Hw & -> & -> & _)%Hl. by apply (H5 i w0).
  - intros i w (w0 & Hw & -> & _ & ->)%Hl. by apply (HS i w0).
  - intros id req i o Ht. destruct (H6 _ _ _ _ Ht) as [? H8]. split; [done|]. intros j w (w0 & Hw & -> & _)%Hl. eauto.
Qed.

(** The end of a stream: its counts are given back to the object it was admitted to. *)
Lemma acct_stream_finish rid b now s : acct_inv s -> acct_inv (stream_finish rid b now s).
Proof.
  intros HI. unfold stream_finish. destruct (sc_streams s !! rid) as [[req err o]|] eqn:Est; [|done].
  pose proof HI as [H1 H2 H3 H4 H5 HS HO H6 H7].
  assert (Hobj : stream_obj (sc_streams s) rid = o) by (unfold stream_obj; by rewrite Est).
  assert (Hl : forall i w, sc_workers (on_obj give_back o s) !! i = Some w -> exists w0, sc_workers s !! i = Some w0 /\
    ws_obj w = ws_obj w0 /\ w = if decide (o = Some (ws_obj w0)) then give_back w0 else w0).
  { intros i w Hw. by apply lookup_on_obj in Hw. }
  assert (Hsz : forall x, o = Some x -> Z.of_nat (size (streams_on x (sc_streams s) ∖ {[rid]}))
    = (Z.of_nat (size (streams_on x (sc_streams s))) - 1)%Z /\ size (streams_on x (sc_streams s)) <> 0).
  { intros x ->. assert (Hin : rid ∈ streams_on x (sc_streams s)) by (by rewrite elem_streams_on).
    assert (Hne : size (streams_on x (sc_streams s)) <> 0) by (intros E%size_empty_inv; set_solver).
    rewrite size_difference, size_singleton by set_solver. lia. }
  split; simpl; rewrite ?retire_streams; simpl; rewrite ?length_fmap; try done.
  - by rewrite on_obj_objs.
  - intros i w (w0 & Hw & -> & _)%Hl. eauto.
  - intros i w (w0 & Hw & -> & _)%Hl. eauto.
  - intros i w (w0 & Hw & Ho & ->)%Hl. unfold busy. simpl. rewrite retire_streams, Ho. simpl. rewrite streams_finish, Hobj.
    destruct (H5 i w0 Hw) as [Ha Hb]. unfold busy in *. destruct (decide (o = Some (ws_obj w0))) as [E|E]; [|done].
    destruct (Hsz _ E) as [-> Hne]. simpl. split; [lia|]. intros Hst. specialize (Hb Hst). lia.
  - intros i w (w0 & Hw & Ho & ->)%Hl. rewrite Ho, streams_finish, Hobj. specialize (HS i w0 Hw).
    destruct (decide (o = Some (ws_obj w0))) as [E|E]; [|done]. destruct (Hsz _ E) as [-> Hne]. simpl. lia.
  - intros rid' obj. rewrite stream_obj_delete. destruct (decide _); [done|]. apply HO.
  - intros id rq i obj Ht. destruct (H6 _ _ _ _ Ht) as [? H8]. split; [done|]. intros j w (w0 & Hw & -> & _)%Hl. eauto.
Qed.

(** A turn that fails in an open scheduler found no worker at all. *)
Lemma release_last_nil last s : sc_workers s = [] -> release_last last s = s.
Proof. intros E. destruct last; [|done]. simpl. unfold release. rewrite E. destruct s; simpl in *. by subst. Qed.

Lemma route_raised_core cf req now s :
  affinity_inv cf s -> same_core s (route_raised cf req now s) /\ affinity_inv cf (route_raised cf req now s).
Proof.
  intros HI. unfold route_raised. destruct (uses_group_affinity cf req); [|split; [apply same_core_refl|done]].
  destruct (cleanup_ok cf now s HI) as ((asg & c & E) & H & _). cbn zeta in *. split; [|done].
  rewrite E. by eexists _, _, _.
Qed.

Lemma route_nil cf req now s :
  affinity_inv cf s -> sc_workers s = [] -> exists e, route cf req now s = Raise e.
Proof.
  intros HI Hnil. unfold route. destruct (uses_group_affinity cf req) eqn:E.
  - apply andb_true_iff in E as [_ [key Hkey]%bool_decide_eq_true].
    destruct (cleanup_ok cf now s HI) as ((asg & c & E) & _). cbn zeta in E.
    unfold group_affinity_routing. rewrite Hkey, E. unfold least_loaded_worker_idx, worker_can_receive_new_requests.
    cbn [with_affinity sc_workers sc_assignments]. rewrite Hnil. destruct (dict_get asg key); simpl; eauto.
  - rewrite Hnil. match goal with |- context [apply_routing ?f _ _] => destruct f end; simpl; eauto.
Qed.

Record sched_inv (cf : sched_config) (s : sched) : Prop := {
  si_acct : acct_inv s;
  si_affinity : affinity_inv cf s;
}.

Lemma affinity_inv_ext cf s s' :
  sc_assignments s' = sc_assignments s -> length (sc_workers s') = length (sc_workers s) ->
  affinity_inv cf s -> affinity_inv cf s'.
Proof. intros E1 E2 []. split; rewrite ?E1, ?E2; done. Qed.

Lemma release_last_affinity cf last s : affinity_inv cf s -> affinity_inv cf (release_last last s).
Proof. destruct last; [|done]. apply affinity_inv_ext; [done|]. simpl. by rewrite length_fmap. Qed.

Lemma turn_inv cf id now s : sched_inv cf s -> sched_inv cf (process_turn cf id now s).2.
Proof.
  intros [HA HF]. unfold process_turn. destruct (sc_tasks s !! id) as [[req [last|]]|] eqn:Et; try done.
  assert (Hnr : is_running (sc_tasks s) id = None) by (unfold is_running; by rewrite Et).
  destruct (sc_stopped s) eqn:Es.
  { split; [|apply release_last_affinity; by eapply affinity_inv_ext; [..|exact HF]]. pose proof (acct_drop_task s id Hnr HA).
    destruct last as [obj|]; [|done]. by apply (acct_release_stopped obj (drop_task id s)). }
  destruct (sc_paused s); [done|]. destruct (decide (sc_workers s = [])) as [Hnil|Hws].
  { destruct (route_raised_core cf req now s HF) as [Hcore HF'].
    destruct (route_nil cf req now s HF Hnil) as [e ->]. simpl. rewrite release_last_nil.
    - split; [|by eapply affinity_inv_ext; [..|exact HF']].
      destruct Hcore as (asg & c & n & E). apply acct_drop_task; [by rewrite E|].
      rewrite E. by apply (acct_same_core s); [eexists _, _, _|].
    - by destruct Hcore as (asg & c & n & ->). }
  destruct (route_ok cf req now s HF Hws) as (idx & s1 & -> & Hcore & [Hlt _] & HF1).
  assert (HA1 : acct_inv s1) by (by eapply acct_same_core).
  destruct Hcore as (asg & c & n & ->). cbn [with_affinity sc_workers sc_inflight sc_tasks] in *.
  destruct (lookup_lt_is_Some_2 _ _ Hlt) as [w Hw]. rewrite Hw.
  destruct (schedulable w && _); cycle 1.
  { split; [|by eapply affinity_inv_ext; [..|exact HF1]]. simpl.
    apply (acct_routing_task (with_affinity asg c n s)); [by eexists|done..]. }
  cbn [with_workers with_affinity sc_inflight]. rewrite (ac_flight _ HA _ _ Hw). simpl. split.
  - eapply (acct_admit (with_affinity asg c n s)); [done|by eexists|done..|]. apply (ac_flight _ HA _ _ Hw).
  - eapply affinity_inv_ext; [..|exact HF1]; [done|]. simpl. by rewrite length_alter.
Qed.

Lemma complete_inv cf id s : sched_inv cf s -> sched_inv cf (process_complete id s).
Proof.
  intros [HA HF]. unfold process_complete. destruct (sc_tasks s !! id) as [[req [|idx obj]]|] eqn:Et; try done.
  destruct (sc_inflight s !! idx) as [ts|] eqn:Ei.
  - split; [by eapply acct_complete_flight|]. eapply affinity_inv_ext; [..|exact HF]; [done|]. simpl. by rewrite length_fmap.
  - split; [by eapply acct_complete_orphan|]. by eapply affinity_inv_ext; [..|exact HF].
Qed.

(** The choice of a worker for a stream: an index of the list; when it is not by group affinity
    or strict, and the routing function's choice has its fill of streams, the least active
    worker with room, if there is one. *)
Lemma stream_candidates_lt ws i : i ∈ stream_candidates ws -> exists w, ws !! i = Some w /\
  schedulable w = true /\ (streaming_requests w < MAX_WORKER_STREAMS)%Z /\ (active_requests w < concurrency_limit w)%Z.
Proof.
  unfold stream_candidates. intros ([j w] & -> & [Hr [k Hk]%list_elem_of_lookup]%list_elem_of_filter)%list_elem_of_fmap.
  rewrite list_lookup_imap in Hk. destruct (ws !! k) as [v|] eqn:E; simplify_eq/=. exists w. split; [done|].
  apply andb_true_iff in Hr as [[? ?]%andb_true_iff ?]. split_and!; [done|lia..].
Qed.

Lemma select_stream_ok cf req now s :
  affinity_inv cf s -> sc_workers s <> [] ->
  exists i s', select_stream_worker cf req now s = Ok (i, s') /\ same_core s s' /\ i < length (sc_workers s) /\ affinity_inv cf s'.
Proof.
  intros HI Hws. unfold select_stream_worker, uses_group_affinity.
  destruct (cf_group_affinity cf && bool_decide (is_Some (routing_key req))) eqn:E.
  - apply andb_true_iff in E as [_ [key Hkey]%bool_decide_eq_true].
    destruct (group_affinity_routing_ok cf req key now s HI Hws Hkey) as (i & s' & H & [? [? _] ? _ _ _]). eauto 10.
  - match goal with |- context [apply_routing ?f _ _] => destruct (apply_routing_ok f req (sc_workers s) Hws) as (i & -> & [Hg _]) end.
    cbn [mbind res_bind]. destruct (negb _ && _); [|eauto 10 using same_core_refl].
    destruct (stream_candidates (sc_workers s)) as [|c cs] eqn:Ec; [eauto 10 using same_core_refl|]. rewrite <- Ec.
    unfold min_of. set (lt := by_key _ _). destruct (py_min_is_Some lt (stream_candidates (sc_workers s))) as [j Hj]; [by rewrite Ec|].
    rewrite Hj. cbn [mbind res_bind]. apply py_min_spec in Hj as [Hj _]; [|apply _].
    exists j, s. apply stream_candidates_lt in Hj as (w & Hw & _). apply lookup_lt_Some in Hw. eauto using same_core_refl.
Qed.

Lemma stream_turn_inv cf rid now s : sched_inv cf s -> sched_inv cf (stream_turn cf rid now s).2.
Proof.
  intros [HA HF]. unfold stream_turn. destruct (sc_streams s !! rid) as [[req [code|] [o|]]|] eqn:Est; try done.
  destruct (sc_stopped s); [done|]. destruct (sc_paused s || _) eqn:E; [done|].
  apply orb_false_iff in E as [_ Hws%bool_decide_eq_false].
  destruct (select_stream_ok cf req now s HF Hws) as (idx & s1 & -> & Hcore & Hlt & HF1).
  assert (HA1 : acct_inv s1) by (by eapply acct_same_core). destruct Hcore as (asg & c & n & ->).
  cbn [with_affinity sc_workers] in *. destruct (lookup_lt_is_Some_2 _ _ Hlt) as [w Hw]. rewrite Hw.
  destruct (_ && _ && _); [|done]. cbn [snd]. split.
  - apply (acct_stream_admit (with_affinity asg c n s)); [done| |done..]. unfold stream_obj. simpl. by rewrite Est.
  - eapply affinity_inv_ext; [..|exact HF1]; [done|]. simpl. by rewrite length_alter.
Qed.

Lemma stream_finish_affinity cf rid b now s : affinity_inv cf s -> affinity_inv cf (stream_finish rid b now s).
Proof.
  unfold stream_finish. destruct (sc_streams s !! rid) as [[]|]; [|done].
  apply affinity_inv_ext; [done|]. simpl. by rewrite length_fmap.
Qed.

Lemma stream_end_inv cf rid b now s :
  sched_inv cf s -> sched_inv cf (stream_completed rid now s) /\ sched_inv cf (stream_cleanup rid b now s).
Proof.
  intros [HA HF]. unfold stream_completed, stream_cleanup. split; destruct (sc_streams s !! rid) as [[req [code|] [o|]]|]; try done.
  1: split; [by apply acct_stream_finish|by apply stream_finish_affinity].
  all: destruct b; (split; [apply acct_stream_finish|apply stream_finish_affinity]); try done; try (by apply acct_quarantine_obj).
  all: eapply affinity_inv_ext; [..|exact HF]; [done|]; simpl; by rewrite length_fmap.
Qed.

Lemma stream_generate_inv {P} cf h ph v rid (p : P) lim key b now s s' :
  stream_generate cf h ph v rid p lim key b now s = Ok s' -> sched_inv cf s -> sched_inv cf s'.
Proof.
  unfold stream_generate. cbv zeta. intros H [HA HF]. res_inv.
  match goal with H : negb (_ || _) = true |- _ => apply negb_true_iff, orb_false_iff in H as [Hn%bool_decide_eq_false _] end.
  rewrite prune_streams in Hn. split; [|by eapply affinity_inv_ext; [..|exact HF]].
  apply (acct_streams s); [|lia|done]. intros rid'. simpl. rewrite prune_streams, stream_obj_insert. simpl.
  destruct (decide (rid' = rid)) as [->|]; [|done]. apply eq_None_not_Some in Hn.
  unfold stream_obj. by rewrite Hn.
Qed.

Lemma stream_abort_inv cf rid code s : sched_inv cf s -> sched_inv cf (stream_abort rid code s).
Proof.
  intros [HA HF]. unfold stream_abort. destruct (sc_streams s !! rid) as [[req [|] w]|] eqn:E; try done.
  split; [|by eapply affinity_inv_ext; [..|exact HF]]. apply acct_set_stream; [|done]. unfold stream_obj. by rewrite E.
Qed.

Lemma update_inv cf (f : worker_state -> worker_state) idx s s' :
  (forall w, ws_obj (f w) = ws_obj w /\ active_requests (f w) = active_requests w /\ streaming_requests (f w) = streaming_requests w) ->
  update_worker f idx s = Ok s' -> sched_inv cf s -> sched_inv cf s'.
Proof.
  intros Hf H [HA HF]. split; [by eapply acct_update|]. unfold update_worker in H. res_inv.
  eapply affinity_inv_ext; [..|exact HF]; [done|]. simpl. by rewrite length_alter.
Qed.

Lemma step_sched_inv cf s s' : sched_step cf s s' -> sched_inv cf s -> sched_inv cf s'.
Proof.
  intros H HI. pose proof HI as [HA HF]. destruct H as [P h ph p key b s id s' H|id now s|id s|P h ph v rid p lim key b now s s' H|rid now
  s|rid code s|rid now s
    |rid b now s|now s|s|s|s|f idx s s' Hf H|limit s|s s' H].
  - split; [by eapply acct_submit|]. unfold submit in H. res_inv. simplify_eq. by eapply affinity_inv_ext; [..|exact HF].
  - by apply turn_inv.
  - by apply complete_inv.
  - by eapply stream_generate_inv.
  - by apply stream_turn_inv.
  - by apply stream_abort_inv.
  - by apply (stream_end_inv cf rid false).
  - by apply (stream_end_inv cf rid b).
  - split; [|by eapply affinity_inv_ext; [..|exact HF]]. apply (acct_streams s); [|done..]. intros rid. by rewrite prune_streams.
  - split; [by apply acct_flags|by eapply affinity_inv_ext; [..|exact HF]].
  - split; [by apply acct_flags|by eapply affinity_inv_ext; [..|exact HF]].
  - split; [by apply acct_flags|by eapply affinity_inv_ext; [..|exact HF]].
  - destruct Hf as [->|[->|[->|[[limit ->]| ->]]]]; by eapply update_inv; [|exact H|].
  - split; [by apply acct_add|]. destruct HF as [F1 F2 F3]. split; simpl; try done.
    intros k a Hka%F2. rewrite length_app. simpl. lia.
  - split; [by eapply acct_remove|]. unfold remove_last_worker in H. res_inv. destruct HF as [F1 F2 F3].
    split; simpl.
    + unfold dict_keys in *. eapply sublist_NoDup; [exact F1|]. apply fmap_sublist, sublist_filter.
    + intros k a [Hlt Hka]%list_elem_of_filter. simpl in Hlt. rewrite length_take. lia.
    + pose proof (length_filter (fun ka => as_worker ka.2 < length (sc_workers s) - 1) (sc_assignments s)). lia.
Qed.

Lemma init_sched_inv cf n limit now s : sched_init n limit now = Ok s -> sched_inv cf s.
Proof.
  unfold sched_init. intros H. res_inv.
  assert (Hl : forall i w, ((fun i => new_worker i limit) <$> seq 0 n) !! i = Some w -> i < n /\ w = new_worker i limit).
  { intros i w. rewrite list_lookup_fmap. intros (k & Hk & ->)%fmap_Some. apply lookup_seq in Hk as [-> Hk]. done. }
  assert (Hf : forall i, (list_to_map ((fun i => (i, ∅)) <$> seq 0 n) : gmap nat (gset nat)) !! i
                 = if decide (i < n) then Some ∅ else None).
  { intros i. destruct (decide (i < n)).
    - apply elem_of_list_to_map_1.
      + rewrite <- list_fmap_compose. simpl. rewrite list_fmap_id. apply NoDup_seq.
      + apply (list_elem_of_fmap_2 (fun i => (i, ∅))). apply elem_of_seq. lia.
    - apply not_elem_of_list_to_map_1. rewrite <- list_fmap_compose. simpl. rewrite list_fmap_id.
      rewrite elem_of_seq. lia. }
  assert (He : forall o, running_on o ∅ = ∅).
  { intros o. apply set_eq. intros x. rewrite elem_running_on_is. unfold is_running. rewrite lookup_empty. set_solver. }
  split; split; simpl; rewrite ?length_fmap, ?length_seq; try done.
  - rewrite <- list_fmap_compose. simpl. rewrite list_fmap_id. apply NoDup_seq.
  - intros i w [? ->]%Hl. done.
  - intros i. rewrite Hf. destruct (decide (i < n)); [done|]. by intros [].
  - intros i w [? ->]%Hl. by rewrite Hf, decide_True, He.
  - intros i w [? ->]%Hl. unfold busy. simpl. by rewrite He.
  - by intros i w [? ->]%Hl.
  - intros id [t Ht]. by rewrite lookup_empty in Ht.
  - apply NoDup_nil_2.
  - intros k a. set_solver.
  - lia.
Qed.

Lemma reachable_sched_inv cf s : sched_reachable cf s -> sched_inv cf s.
Proof.
  intros (n & limit & now & s0 & H0 & H). apply init_sched_inv with (cf := cf) in H0.
  induction H; eauto using step_sched_inv.
Qed.

(** ** Properties *)

(** With at least one worker every routing function of the module returns an index of the
    worker list, and that of a schedulable worker whenever there is one.  Least-loaded
    routing returns a candidate of minimal load ratio; prefix-affinity routing never returns
    a worker above the load threshold while some candidate is below it. *)
Theorem routing_functions_sound (f : routing_fn) (req : request) (ws : list worker_state) :
  ws <> [] ->
  exists i, apply_routing f req ws = Ok i /\ i < length ws /\
    (routing_candidates ws <> [] -> can_receive (worker_at ws i) = true) /\
    (f = LeastLoaded -> forall j, j ∈ routing_candidates ws -> Qltb (load_at ws j) (load_at ws i) = false) /\
    (f = PrefixAffinity -> is_Some (prefix_hash req) ->
     (exists c, c ∈ routing_candidates ws /\ under_threshold (worker_at ws c) = true) ->
     under_threshold (worker_at ws i) = true).
Proof.
  intros Hws.
  assert (Hgood : forall i, good_choice ws i -> i < length ws /\
    (routing_candidates ws <> [] -> can_receive (worker_at ws i) = true)).
  { intros i [Hlt Hc]. split; [done|]. intros (w & Hw & Hr)%Hc%elem_routing_candidates.
    by rewrite (worker_at_Some _ _ _ Hw). }
  destruct f; simpl.
  - destruct (least_loaded_ok ws Hws) as (i & H1 & H2 & H3). exists i. destruct (Hgood i H2). done.
  - destruct (prefix_affinity_ok req ws Hws) as (i & H1 & H2 & H3). exists i. destruct (Hgood i H2). done.
  - destruct (strict_affinity_ok req ws Hws) as (i & H1 & H2). exists i. destruct (Hgood i H2). done.
Qed.

(** Group affinity in any reachable scheduler that has workers: a request with a routing
    key is always routed; to the worker its key is assigned to if that worker takes requests
    and the assignment is within its TTL and the table has not overflowed, and to a worker of
    minimal load if the key is new.  The assignment is recorded with the current time,
    assignments always name existing workers, and the table never holds more than
    [max_keys + 1] keys. *)
Theorem group_affinity_sticky (cf : sched_config) (s : sched) (req : request) (key : string) (now : Z) :
  sched_reachable cf s -> sc_workers s <> [] -> routing_key req = Some key ->
  exists i s', group_affinity_routing cf req now s = Ok (i, s') /\ i < length (sc_workers s) /\
    dict_get (sc_assignments s') key = Some (Assignment i now) /\
    (forall j t, dict_get (sc_assignments s) key = Some (Assignment j t) ->
       worker_can_receive_new_requests j s = true -> (now - cf_ttl cf <= t)%Z ->
       length (sc_assignments s) <= cf_max_keys cf -> i = j) /\
    (dict_get (sc_assignments s) key = None ->
     forall j, j ∈ routing_candidates (sc_workers s) ->
       Qltb (load_at (sc_workers s) j) (load_at (sc_workers s) i) = false) /\
    (forall k a, (k, a) ∈ sc_assignments s' -> as_worker a < length (sc_workers s)) /\
    length (sc_assignments s') <= cf_max_keys cf + 1.
Proof.
  intros [_ HF]%reachable_sched_inv Hws Hkey.
  destruct (group_affinity_routing_ok cf req key now s HF Hws Hkey) as (i & s' & H & [Hc [Hlt _] [_ Hv Hs] He Hst Hl]).
  exists i, s'. destruct Hc as (asg & c & n & ->). done.
Qed.

(** Until the shutdown a turn of a request admits it to a schedulable worker below its limit. *)
Lemma turn_admits cf s id now i :
  sched_inv cf s -> (process_turn cf id now s).1 = TurnAdmitted i ->
  exists w, sc_workers s !! i = Some w /\ schedulable w = true /\ (active_requests w < concurrency_limit w)%Z.
Proof.
  intros [HA HF] H. unfold process_turn in H. destruct (sc_tasks s !! id) as [[req [last|]]|]; try done.
  destruct (sc_stopped s); [done|]. destruct (sc_paused s); [done|]. destruct (decide (sc_workers s = [])) as [Hnil|Hws].
  { destruct (route_nil cf req now s HF Hnil) as [e E]. by rewrite E in H. }
  destruct (route_ok cf req now s HF Hws) as (idx & s1 & E & (asg & c & n & ->) & _ & _). rewrite E in H.
  cbn [with_affinity sc_workers] in H. destruct (sc_workers s !! idx) as [w|] eqn:Ew; [|done].
  destruct (schedulable w && _) eqn:Ea; [|done]. apply andb_true_iff in Ea as [Ha Hb].
  simpl in H. destruct (sc_inflight s !! idx); [|done]. simplify_eq/=. exists w. split_and!; [done|done|lia].
Qed.

(** So does a turn of a stream, which also finds the worker below its number of streams. *)
Lemma stream_turn_admits cf s rid now i :
  sched_inv cf s -> (stream_turn cf rid now s).1 = StreamAdmitted i ->
  exists w, sc_workers s !! i = Some w /\ schedulable w = true /\ (active_requests w < concurrency_limit w)%Z /\
    (streaming_requests w < MAX_WORKER_STREAMS)%Z.
Proof.
  intros [HA HF] H. unfold stream_turn in H. destruct (sc_streams s !! rid) as [[req [code|] [o|]]|]; try done.
  destruct (sc_stopped s); [done|]. destruct (sc_paused s || _) eqn:E; [done|].
  apply orb_false_iff in E as [_ Hws%bool_decide_eq_false].
  destruct (select_stream_ok cf req now s HF Hws) as (idx & s1 & E & (asg & c & n & ->) & _ & _). rewrite E in H.
  cbn [with_affinity sc_workers] in H. destruct (sc_workers s !! idx) as [w|] eqn:Ew; [|done].
  destruct (schedulable w && _ && _) eqn:Ea; [|done]. apply andb_true_iff in Ea as [[Ha Hb]%andb_true_iff Hc].
  simplify_eq/=. exists w. split_and!; [done|done|lia|lia].
Qed.

(** C6: until the scheduler is shut down, [active_requests] of every worker is exactly the
    number of requests that were admitted to it and have not completed plus the number of
    streams that were admitted to it and have not finished, and [streaming_requests] the number
    of these streams, through any interleaving of submissions, routing turns, completions, new
    streams, turns, aborts and ends of streams, pauses and changes of the worker list.
    [_inflight_tasks] holds exactly these requests, so that [cancel_worker_inflight] cancels
    those of the worker it names and no other, and [abort_streams] of a worker exactly its
    streams.  A turn that admits a request or a stream finds its worker schedulable and below
    its concurrency limit, and for a stream below 128 streams. *)
Theorem active_requests_exact (cf : sched_config) (s : sched) :
  sched_reachable cf s -> sc_stopped s = false ->
  (forall i w, sc_workers s !! i = Some w ->
     active_requests w = (Z.of_nat (size (running_on (ws_obj w) (sc_tasks s)))
                          + Z.of_nat (size (streams_on (ws_obj w) (sc_streams s))))%Z /\
     streaming_requests w = Z.of_nat (size (streams_on (ws_obj w) (sc_streams s))) /\
     cancel_worker_inflight (Z.of_nat i) s = Ok (running_on (ws_obj w) (sc_tasks s)) /\
     abort_streams (Some (Z.of_nat i)) s = Ok (streams_on (ws_obj w) (sc_streams s))) /\
  (forall id now i, (process_turn cf id now s).1 = TurnAdmitted i ->
     exists w, sc_workers s !! i = Some w /\ schedulable w = true /\
       (Z.of_nat (size (running_on (ws_obj w) (sc_tasks s))) + Z.of_nat (size (streams_on (ws_obj w) (sc_streams s)))
        < concurrency_limit w)%Z) /\
  (forall rid now i, (stream_turn cf rid now s).1 = StreamAdmitted i ->
     exists w, sc_workers s !! i = Some w /\ schedulable w = true /\
       (Z.of_nat (size (running_on (ws_obj w) (sc_tasks s))) + Z.of_nat (size (streams_on (ws_obj w) (sc_streams s)))
        < concurrency_limit w)%Z /\
       (Z.of_nat (size (streams_on (ws_obj w) (sc_streams s))) < 128)%Z).
Proof.
  intros HI%reachable_sched_inv Hs. pose proof HI as [HA HF].
  assert (Hact : forall i w, sc_workers s !! i = Some w -> active_requests w = busy (ws_obj w) s) by (intros; by eapply ac_active).
  split_and!.
  - intros i w Hw. split; [by apply (Hact i)|]. split; [by eapply ac_streaming|]. apply lookup_lt_Some in Hw as Hlt. split.
    + unfold cancel_worker_inflight, check_idx. replace (_ && _) with true by lia. simpl.
      by rewrite Nat2Z.id, (ac_flight _ HA _ _ Hw).
    + unfold abort_streams. replace (0 <=? Z.of_nat i)%Z with true by lia. by rewrite Nat2Z.id, Hw.
  - intros id now i (w & Hw & Hsch & Hlt)%turn_admits; [|done]. exists w. rewrite (Hact _ _ Hw) in Hlt. done.
  - intros rid now i (w & Hw & Hsch & Hlt & Hst)%stream_turn_admits; [|done]. exists w.
    rewrite (Hact _ _ Hw) in Hlt. rewrite (ac_streaming _ HA _ _ Hw) in Hst. done.
Qed.

(** ** Witnesses: one worker of capacity one and three requests, two of them with a key *)

Definition demo_cf : sched_config := SchedConfig LeastLoaded false true 3600 100.
Definition demo_request (key : option string) : request := Request ((fun _ => 1%Z) <$> key) key false.
Definition demo_submit (key : option string) (s : sched) : sched :=
  match submit demo_cf (fun _ => 1%Z) (fun _ : unit => 0%Z) tt key false s with Ok (_, s') => s' | Raise _ => s end.
Definition demo_turn (id : nat) (s : sched) : sched := (process_turn demo_cf id 10 s).2.
Definition demo_s0 : sched := match sched_init 1 1 0 with Ok s => s | Raise _ => Sched [] 0 0 false false ∅ ∅ (StreamTable ∅ [] ∅) [] 0 0 end.
Definition demo_s1 : sched := demo_submit (Some "a") (demo_submit (Some "a") demo_s0).
Definition demo_s2 : sched := demo_turn 1 (demo_turn 0 demo_s1).

Lemma demo_submit_step key s : sc_stopped s = false -> sched_step demo_cf s (demo_submit key s).
Proof.
  intros Hs. unfold demo_submit. destruct (submit _ _ _ _ _ _ _) as [[id s']|e] eqn:E; [by econstructor|].
  unfold submit in E. by rewrite Hs in E.
Qed.

Lemma demo_s2_steps : rtc (sched_step demo_cf) demo_s0 demo_s2.
Proof.
  eapply rtc_l; [by apply (demo_submit_step (Some "a"))|].
  eapply rtc_l; [by apply (demo_submit_step (Some "a"))|].
  eapply rtc_l; [apply (step_turn _ 0 10)|]. eapply rtc_l; [apply (step_turn _ 1 10)|]. apply rtc_refl.
Qed.

Lemma demo_s2_reachable : sched_reachable demo_cf demo_s2.
Proof. exists 1, 1%Z, 0%Z, demo_s0. split; [done|apply demo_s2_steps]. Qed.

Lemma routing_functions_sound_witness :
  apply_routing PrefixAffinity (Request (Some (-7)%Z) None false)
    [WorkerState 0 4 4 0 true false; WorkerState 1 4 0 0 true true; WorkerState 2 4 1 0 true false] = Ok 2.
Proof.
  destruct (routing_functions_sound PrefixAffinity (Request (Some (-7)%Z) None false)
    [WorkerState 0 4 4 0 true false; WorkerState 1 4 0 0 true true; WorkerState 2 4 1 0 true false] ltac:(done))
    as (i & H & _). rewrite H. vm_compute in H. exact (eq_sym H).
Defined.

Lemma group_affinity_sticky_witness :
  exists i s', group_affinity_routing demo_cf (demo_request (Some "a")) 20 demo_s2 = Ok (i, s') /\ i < 1.
Proof.
  destruct (group_affinity_sticky demo_cf demo_s2 (demo_request (Some "a")) "a" 20 demo_s2_reachable
    ltac:(vm_compute; done) eq_refl) as (i & s' & H & Hlt & _). exists i, s'. split; [exact H|exact Hlt].
Defined.

(** A worker of capacity two that serves one request and one stream. *)
Definition demo_stream (rid : string) (s : sched) : sched :=
  match stream_generate demo_cf (fun _ => 1%Z) (fun _ : unit => 0%Z) Ok rid tt true None false 0 s with Ok s' => s' | Raise _ => s end.
Definition demo_s3 : sched :=
  match sched_init 1 2 0 with Ok s => s | Raise _ => Sched [] 0 0 false false ∅ ∅ (StreamTable ∅ [] ∅) [] 0 0 end.
Definition demo_s4 : sched := demo_turn 0 (demo_stream "r" (demo_submit None demo_s3)).
Definition demo_s5 : sched := (stream_turn demo_cf "r" 10 demo_s4).2.

Lemma demo_s5_reachable : sched_reachable demo_cf demo_s5.
Proof.
  exists 1, 2%Z, 0%Z, demo_s3. split; [done|]. eapply rtc_l; [by apply (demo_submit_step None)|].
  eapply rtc_l; [by apply (step_stream demo_cf (fun _ => 1%Z) (fun _ : unit => 0%Z) Ok "r" tt true None false 0)|].
  eapply rtc_l; [apply (step_turn demo_cf 0 10)|]. apply rtc_once, (step_stream_turn demo_cf "r" 10).
Qed.

Lemma active_requests_exact_witness :
  exists w, sc_workers demo_s5 !! 0 = Some w /\ active_requests w = 2%Z /\ streaming_requests w = 1%Z /\
    cancel_worker_inflight 0 demo_s5 = Ok {[0]} /\ abort_streams (Some 0%Z) demo_s5 = Ok {["r"]}.
Proof.
  destruct (active_requests_exact demo_cf demo_s5 demo_s5_reachable eq_refl) as [H _].
  destruct (sc_workers demo_s5 !! 0) as [w|] eqn:E; [|vm_compute in E; discriminate].
  destruct (H 0 w E) as (Ha & Hs & Hc & Hb). assert (ws_obj w = 0) as Hw by (vm_compute in E; by injection E as <-).
  rewrite Hw in Ha, Hs, Hc, Hb. exists w. split; [done|].
  change (cancel_worker_inflight 0) with (cancel_worker_inflight (Z.of_nat 0)).
  change (abort_streams (Some 0%Z)) with (abort_streams (Some (Z.of_nat 0))).
  rewrite Ha, Hs, Hb, Hc. vm_compute. by split_and!.
Defined.

(** Shutting down breaks the accounting.  A request that had been routed to a full worker
    and is still waiting when the scheduler stops decrements that worker's
    [active_requests] although it was never admitted, so that [drain] returns while the
    admitted request is still running on the worker. *)
Theorem shutdown_undercounts :
  exists s, sched_reachable demo_cf s /\ drain_returns s = true /\
    exists w req idx, sc_workers s !! 0 = Some w /\ active_requests w = 0%Z /\
      sc_tasks s !! 0 = Some (req, Running idx (ws_obj w)).
Proof.
  exists (demo_turn 1 (sched_shutdown demo_s2)). split.
  - exists 1, 1%Z, 0%Z, demo_s0. split; [done|]. etrans; [apply demo_s2_steps|].
    eapply rtc_l; [apply step_shutdown|]. apply rtc_once, (step_turn demo_cf 1 10).
  - split; [vm_compute; reflexivity|].
    exists (WorkerState 0 1 0 0 true false), (demo_request (Some "a")), 0.
    split; [vm_compute; reflexivity|]. split; vm_compute; reflexivity.
Qed.
