(* ===== verification/Topology.v ===== *)
(** * Rank layouts and the weight-transfer schedule

    Sources: [src/arctic_platform/model/parallel/topology.py],
    [src/arctic_platform/model/parallel/validation.py] and
    [src/arctic_platform/inference/server/weight_sync/schedule.py].

    Ranks, degrees and world sizes are natural numbers.  The predicates that choose a layout
    divide by degrees that the callers have checked to be positive; where the code can divide
    by zero after its own checks (a schedule without senders), the model raises
    [ZeroDivisionError] as Python does. *)

From stdpp Require Import prelude strings list.
From Stdlib Require Import ZArith Lia ZifyNat ZifyBool.
From S2P Require Import Prelude Tensor.
Local Open Scope nat_scope.

(** ** Choice of a layout *)

Inductive ep_topology := Standard | Orthogonal | NodeLocal | Decoupled | HostComplete.

#[export] Instance ep_topology_eq_dec : EqDecision ep_topology.
Proof. solve_decision. Defined.

(** [normalize_ep_group_layout]; [None] is Python's [None]. *)
Definition normalize_ep_group_layout (value : option string) : res string :=
  let layout := default "auto" value in
  if bool_decide (layout ∈ ["auto"; "packed"; "mesh"]) then Ok layout
  else Raise (ValueError "ep_group_layout must be one of auto, mesh, packed").

Definition use_node_local_ep (world sp ep gpn : nat) : bool :=
  if (ep =? 1) || (sp =? 1) then false
  else if (gpn <=? 0) || (world <=? gpn) then false
  else if negb (world mod gpn =? 0) || negb (gpn mod ep =? 0) then false
  else if negb (world mod sp =? 0) then false
  else if negb ((world / sp) mod ep =? 0) then false
  else negb (gpn mod (sp * ep) =? 0).

Definition use_intra_node_ep_decoupled (world sp ep gpn : nat) : bool :=
  if (sp =? 1) || (ep =? 1) then false
  else if (gpn <=? 0) || negb (gpn mod ep =? 0) then false
  else if negb (world mod gpn =? 0) then false
  else if negb (world mod sp =? 0) || negb (world mod ep =? 0) then false
  else (sp =? world) || negb ((world / sp) mod ep =? 0).

Definition use_host_complete_ep (world sp ep gpn : nat) : bool :=
  if (ep =? 1) || (sp =? 1) then false
  else if (gpn <=? 0) || (world <=? gpn) then false
  else if negb (world mod gpn =? 0) then false
  else if negb (world mod sp =? 0) || negb (world mod ep =? 0) then false
  else if negb (ep mod gpn =? 0) then false
  else if gpn mod ep =? 0 then false
  else if negb (Nat.land ep (ep - 1) =? 0) then false
  else true.

Definition mesh_valid (world sp ep : nat) : bool :=
  (world mod sp =? 0) && negb (sp =? world) && ((world / sp) mod ep =? 0).

Definition resolve_ep_group_topology (world sp ep gpn : nat) (value : option string) : res ep_topology :=
  layout ← normalize_ep_group_layout value;
  if (sp <=? 1) || (ep <=? 1) then Ok Standard
  else if bool_decide (layout = "mesh") then
    if mesh_valid world sp ep then Ok Orthogonal
    else Raise (ValueError "ep_group_layout='mesh' requires (world_size // sp_size) % ep_size == 0")
  else if bool_decide (layout = "packed") then
    if gpn <=? 0 then Raise (ValueError "ep_group_layout='packed' requires gpus_per_node > 0")
    else if negb (world mod gpn =? 0) then
      Raise (ValueError "ep_group_layout='packed' requires a whole number of GPU nodes")
    else if gpn mod ep =? 0 then Ok (if mesh_valid world sp ep then NodeLocal else Decoupled)
    else if use_host_complete_ep world sp ep gpn then Ok HostComplete
    else Raise (ValueError "ep_group_layout='packed' requires ep_size to divide gpus_per_node")
  else if use_node_local_ep world sp ep gpn then Ok NodeLocal
  else if use_intra_node_ep_decoupled world sp ep gpn then Ok Decoupled
  else if use_host_complete_ep world sp ep gpn then Ok HostComplete
  else if mesh_valid world sp ep then Ok Orthogonal
  else Raise (ValueError "unsupported SP/EP topology").

(** ** Groups *)

(** [range(0, n, step)]. *)
Definition range_step (n step : nat) : list nat := (fun k => k * step) <$> seq 0 ((n + step - 1) / step).

Definition host_complete_ep_groups (world ep : nat) : list (list nat) :=
  (fun start => seq start ep) <$> range_step world ep.

Definition rank_to_node_sp_ep (rank ep gpn : nat) : nat * nat * nat :=
  let local_rank := rank mod gpn in (rank / gpn, local_rank / ep, local_rank mod ep).

Definition same_expert_slot (rank ep gpn : nat) : nat :=
  let '(node, intra_sp_index, _) := rank_to_node_sp_ep rank ep gpn in
  node * (gpn / ep) + intra_sp_index.

(** [for node in range(num_nodes) for intra_sp in range(sp_per_node)]. *)
Definition node_local_loop {A} (num_nodes sp_per_node : nat) (f : nat -> nat -> A) : list A :=
  concat ((fun node => (fun intra_sp => f node intra_sp) <$> seq 0 sp_per_node) <$> seq 0 num_nodes).

Definition sp_groups (world ep gpn sp : nat) : list (list nat) :=
  let sp_per_node := gpn / ep in
  let num_nodes := world / gpn in
  let by_expert := (fun ep_position =>
    node_local_loop num_nodes sp_per_node (fun node intra_sp => node * gpn + intra_sp * ep + ep_position))
    <$> seq 0 ep in
  concat ((fun ranks => (fun start => take sp (drop start ranks)) <$> range_step (length ranks) sp) <$> by_expert).

Definition ep_groups (world ep gpn : nat) : list (list nat) :=
  node_local_loop (world / gpn) (gpn / ep)
    (fun node intra_sp => (fun ep_position => node * gpn + intra_sp * ep + ep_position) <$> seq 0 ep).

Definition rank_to_dp_sp (world ep gpn sp : nat) : list (nat * nat) :=
  (fun rank =>
     let '(_, _, ep_position) := rank_to_node_sp_ep rank ep gpn in
     let slot := same_expert_slot rank ep gpn in
     ((slot / sp) * ep + ep_position, slot mod sp)) <$> seq 0 world.

Definition intra_node_ep_groups (world ep gpn : nat) : list (list nat) := ep_groups world ep gpn.

Definition orthogonal_edp_groups (world sp ep : nat) : list (list nat) :=
  (fun position => filter (fun rank => (rank / sp) mod ep = position) (seq 0 world)) <$> seq 0 ep.

Definition intra_node_ep_replica_groups (world ep : nat) : list (list nat) :=
  (fun ep_position => filter (fun rank => rank mod ep = ep_position) (seq 0 world)) <$> seq 0 ep.

(** ** Degree checks *)

Record parallelism_metadata := ParallelismMetadata {
  num_attention_heads : nat;
  num_key_value_heads : option nat;
  has_linear_attention : bool;
  linear_num_key_heads : option nat;
  linear_num_value_heads : option nat;
}.

Definition validate_expert_parallel (ep world : nat) (zero_stage : option nat) : res unit :=
  if ep =? 1 then Ok ()
  else
    check (negb (bool_decide (zero_stage = Some 3))) (ValueError "ep_size requires ZeRO stage 1 or 2");;
    check (negb (ep =? 0)) ZeroDivisionError;;
    check (world mod ep =? 0) (ValueError "ep_size must divide world_size").

Definition validate_sequence_parallel (sp world : nat) (md : parallelism_metadata) (skip_head_exchange : bool) : res unit :=
  if sp =? 1 then Ok ()
  else
    check (negb (sp =? 0)) ZeroDivisionError;;
    check (world mod sp =? 0) (ValueError "world_size must be divisible by sp_size");;
    if skip_head_exchange then Ok ()
    else
      check (num_attention_heads md mod sp =? 0) (ValueError "sp_size must divide num_attention_heads");;
      match num_key_value_heads md with
      | None => Ok ()
      | Some kv =>
          if kv mod sp =? 0 then Ok ()
          else check (sp mod kv =? 0) (ValueError "sp_size and num_key_value_heads must divide one another")
      end;;
      if negb (has_linear_attention md) then Ok ()
      else
        match linear_num_key_heads md, linear_num_value_heads md with
        | Some k, Some v =>
            check (k mod sp =? 0) (ValueError "sp_size must divide linear_num_key_heads");;
            check (v mod sp =? 0) (ValueError "sp_size must divide linear_num_value_heads");;
            check (negb (k =? 0)) ZeroDivisionError;;
            check (v mod k =? 0) (ValueError "linear_num_value_heads must be divisible by linear_num_key_heads")
        | _, _ => Raise (ValueError "linear-attention model config must define linear heads")
        end.

(** ** The weight-transfer schedule *)

Record transfer_group := TransferGroup {
  group_id : nat;
  sender_train_rank : nat;
  targets : list (nat * nat);
}.

Record transfer_schedule := TransferSchedule {
  training_sharding : string;
  training_gpus : nat;
  inference_replicas : nat;
  inference_tp : nat;
  groups : list transfer_group;
}.

Definition all_targets (replicas tp : nat) : list (nat * nat) :=
  concat ((fun r => (fun t => (r, t)) <$> seq 0 tp) <$> seq 0 replicas).

(** One turn of [assignments[i % n_senders].append(target)]. *)
Definition assign_target (n_senders : nat) (acc : list (list (nat * nat))) (it : nat * (nat * nat)) :
    res (list (list (nat * nat))) :=
  check (negb (n_senders =? 0)) ZeroDivisionError;;
  Ok (append_at (it.1 mod n_senders) it.2 acc).

Definition build_schedule (sharding : string) (gpus replicas tp : nat) : res transfer_schedule :=
  check (bool_decide (sharding ∈ ["dp"; "fsdp"; "zero3"])) (ValueError "Unknown training_sharding");;
  let ts := all_targets replicas tp in
  let n_targets := length ts in
  n_senders ← (if bool_decide (sharding = "zero3") then
                 check (n_targets <=? gpus) (ValueError "zero3 requires training_gpus >= targets");; Ok gpus
               else Ok (min gpus n_targets));
  assignments ← foldM (assign_target n_senders) (replicate n_senders []) (imap pair ts);
  Ok (TransferSchedule sharding gpus replicas tp (imap (fun i tgts => TransferGroup i i tgts) assignments)).

Definition port_for_target (s : transfer_schedule) (replica_id tp_rank base_port : nat) : nat :=
  base_port + replica_id * inference_tp s + tp_rank.

Definition replica_ids (g : transfer_group) : list nat :=
  py_sorted Nat.ltb (remove_dups (targets g).*1).

Definition num_groups (s : transfer_schedule) : nat := length (groups s).
Definition active_sender_ranks (s : transfer_schedule) : list nat := sender_train_rank <$> groups s.

Example topology_examples :
  resolve_ep_group_topology 32 8 2 8 None = Ok NodeLocal /\
  sp_groups 32 2 8 8 !! 1 = Some [16; 18; 20; 22; 24; 26; 28; 30] /\
  rank_to_dp_sp 32 2 8 8 !! 19 = Some (3, 1) /\
  ((fun s => targets <$> groups s) <$> build_schedule "dp" 4 4 2) =
    Ok [[(0,0);(2,0)]; [(0,1);(2,1)]; [(1,0);(3,0)]; [(1,1);(3,1)]].
Proof. vm_compute. done. Qed.

(** ** Flattening of nested ranges *)

Lemma seq_nested {A} (f : nat -> A) n m :
  concat ((fun a => (fun b => f (a * m + b)) <$> seq 0 m) <$> seq 0 n) = f <$> seq 0 (n * m).
Proof.
  induction n as [|n IH]; [done|]. replace (S n * m) with (n * m + m) by lia.
  rewrite seq_S, fmap_app, concat_app, IH, seq_app, fmap_app. f_equal. csimpl. rewrite app_nil_r.
  apply list_eq. intros i. rewrite !list_lookup_fmap. destruct (decide (i < m)).
  - by rewrite !lookup_seq_lt by lia.
  - by rewrite !lookup_seq_ge by lia.
Qed.

Lemma concat_transpose {A B C} (f : A -> B -> C) (la : list A) (lb : list B) :
  concat ((fun a => f a <$> lb) <$> la) ≡ₚ concat ((fun b => (fun a => f a b) <$> la) <$> lb).
Proof.
  induction la as [|a la IH]; csimpl.
  - induction lb; csimpl; [done|]. done.
  - rewrite IH. clear IH. induction lb as [|b lb IH]; csimpl; [done|].
    rewrite <- IH. rewrite !app_assoc. f_equiv. f_equiv. apply Permutation_app_comm.
Qed.

(** Cutting a list whose length is a multiple of [k] into slices of [k]. *)
Lemma range_step_mult q k : 0 < k -> range_step (q * k) k = (fun i => i * k) <$> seq 0 q.
Proof.
  intros Hk. unfold range_step. replace ((q * k + k - 1) / k) with q; [done|].
  apply (Nat.div_unique _ _ _ (k - 1)); lia.
Qed.

Lemma slices_chunks {A} (l : list A) q k :
  0 < k -> length l = q * k ->
  (fun start => take k (drop start l)) <$> range_step (length l) k = chunks k q l.
Proof. intros Hk Hl. rewrite Hl, range_step_mult, <- list_fmap_compose by done. done. Qed.

(** ** Node-local layout

    With [gpn = m * ep] and [world = n * gpn], rank [slot * ep + e] is the rank with expert
    position [e] and slot [slot] among [n * m] slots. *)

Section node_local.
Context (n m ep : nat) (Hm : 0 < m) (Hep : 0 < ep).
Let gpn := m * ep.
Let world := n * gpn.

Lemma nl_sizes : gpn / ep = m /\ (0 < n -> world / gpn = n).
Proof.
  unfold world, gpn. split; [apply Nat.div_mul; lia|]. intros _. apply Nat.div_mul. nia.
Qed.

Lemma nl_loop {A} (f : nat -> A) (h : nat -> nat -> A) :
  (forall a b, b < m -> h a b = f (a * m + b)) ->
  node_local_loop n m h = f <$> seq 0 (n * m).
Proof.
  intros Hh. rewrite <- seq_nested. unfold node_local_loop. f_equal. apply list_fmap_ext. intros i a _.
  apply list_fmap_ext. intros j b Hb. apply lookup_seq in Hb as [-> Hb]. by apply Hh.
Qed.

Lemma nl_world : world / gpn = n.
Proof. unfold world, gpn. apply Nat.div_mul. nia. Qed.

Lemma ep_groups_eq : ep_groups world ep gpn = (fun slot => (fun e => slot * ep + e) <$> seq 0 ep) <$> seq 0 (n * m).
Proof.
  unfold ep_groups. rewrite nl_world, (proj1 nl_sizes). apply nl_loop. intros a b Hb.
  apply list_fmap_ext. intros i e _. unfold gpn. nia.
Qed.

Lemma ep_groups_concat : concat (ep_groups world ep gpn) = seq 0 world.
Proof.
  rewrite ep_groups_eq. etrans; [apply (seq_nested (fun r => r))|]. rewrite list_fmap_id.
  f_equal. unfold world, gpn. lia.
Qed.

Lemma rank_decompose slot e :
  e < ep -> rank_to_node_sp_ep (slot * ep + e) ep gpn = (slot / m, slot mod m, e).
Proof.
  intros He. unfold rank_to_node_sp_ep, gpn.
  assert (Hdm : slot = m * (slot / m) + slot mod m) by (apply Nat.div_mod_eq).
  pose proof (Nat.mod_upper_bound slot m ltac:(lia)) as Hlt.
  assert (Hq : (slot * ep + e) / (m * ep) = slot / m).
  { symmetry. apply (Nat.div_unique _ _ _ (slot mod m * ep + e)); nia. }
  assert (Hr : (slot * ep + e) mod (m * ep) = slot mod m * ep + e).
  { symmetry. apply (Nat.mod_unique _ _ (slot / m)); nia. }
  rewrite Hq, Hr. f_equal; [f_equal|].
  - symmetry. apply (Nat.div_unique _ _ _ e); lia.
  - symmetry. apply (Nat.mod_unique _ _ (slot mod m)); lia.
Qed.

Lemma slot_of slot e : e < ep -> same_expert_slot (slot * ep + e) ep gpn = slot.
Proof.
  intros He. unfold same_expert_slot. rewrite rank_decompose by done. rewrite (proj1 nl_sizes).
  pose proof (Nat.div_mod_eq slot m). lia.
Qed.

Lemma by_expert_eq e :
  node_local_loop (world / gpn) (gpn / ep) (fun node intra_sp => node * gpn + intra_sp * ep + e)
  = (fun slot => slot * ep + e) <$> seq 0 (n * m).
Proof. rewrite nl_world, (proj1 nl_sizes). apply nl_loop. intros a b Hb. unfold gpn. nia. Qed.

Context (q sp : nat) (Hsp : 0 < sp) (Hq : n * m = q * sp).

Lemma sp_groups_eq :
  sp_groups world ep gpn sp =
  concat ((fun e => chunks sp q ((fun slot => slot * ep + e) <$> seq 0 (n * m))) <$> seq 0 ep).
Proof.
  unfold sp_groups. rewrite <- list_fmap_compose. f_equal. apply list_fmap_ext. intros i e _. simpl.
  rewrite by_expert_eq. apply slices_chunks; [done|]. by rewrite length_fmap, length_seq.
Qed.

Lemma concat_concat_fmap {A B} (f : A -> list (list B)) (l : list A) :
  concat (concat (f <$> l)) = concat ((fun a => concat (f a)) <$> l).
Proof. induction l as [|a l IH]; csimpl; [done|]. by rewrite concat_app, IH. Qed.

Lemma sp_groups_partition : is_partition (sp_groups world ep gpn sp) world.
Proof.
  unfold is_partition. rewrite sp_groups_eq, concat_concat_fmap.
  assert (E : (fun e => concat (chunks sp q ((fun slot => slot * ep + e) <$> seq 0 (n * m)))) <$> seq 0 ep
            = (fun e => (fun slot => slot * ep + e) <$> seq 0 (n * m)) <$> seq 0 ep).
  { apply list_fmap_ext. intros i e _. apply concat_chunks. by rewrite length_fmap, length_seq. }
  rewrite E, (concat_transpose (fun e slot => slot * ep + e)). rewrite <- ep_groups_concat, ep_groups_eq. done.
Qed.

Lemma sp_group_elem grp k r :
  grp ∈ sp_groups world ep gpn sp -> grp !! k = Some r ->
  exists e i, e < ep /\ i < q /\ k < sp /\ r = (i * sp + k) * ep + e /\
    grp = chunk sp ((fun slot => slot * ep + e) <$> seq 0 (n * m)) i.
Proof.
  rewrite sp_groups_eq. intros Hg Hk.
  apply list_elem_of_In, in_concat in Hg as (gs & Hgs%list_elem_of_In & Hg%list_elem_of_In).
  apply list_elem_of_fmap in Hgs as (e & -> & He). apply elem_of_seq in He.
  apply list_elem_of_fmap in Hg as (i & -> & Hi). apply elem_of_seq in Hi.
  exists e, i. unfold chunk in Hk. rewrite lookup_take_Some, lookup_drop, list_lookup_fmap in Hk.
  destruct Hk as [Hk Hlt]. apply fmap_Some in Hk as (slot & Hs & ->). apply lookup_seq in Hs as [-> Hs].
  split; [lia|]. split; [lia|]. split; [done|]. split; [done|done].
Qed.
End node_local.

(** ** What the layouts promise *)

(** The classes of a labelling with labels below [k] are a partition. *)
Lemma classes_partition (f : nat -> nat) k w :
  (forall r, r < w -> f r < k) ->
  is_partition ((fun p => filter (fun r => f r = p) (seq 0 w)) <$> seq 0 k) w.
Proof.
  unfold is_partition. intros Hf.
  assert (Hgen : forall l, (forall r, r ∈ l -> f r < k) ->
    concat ((fun p => filter (fun r => f r = p) l) <$> seq 0 k) ≡ₚ l).
  { clear Hf. intros l. induction l as [|r l IH]; intros Hl.
    - generalize (seq 0 k). intros ps. by induction ps.
    - etrans; [|apply perm_skip, IH; set_solver]. clear IH.
      assert (Hr : f r ∈ seq 0 k) by (apply elem_of_seq; specialize (Hl r ltac:(left)); lia).
      pose proof (NoDup_seq 0 k) as HN. revert Hr HN. generalize (seq 0 k). intros ps.
      induction ps as [|p ps IH]; [set_solver|]. csimpl. rewrite filter_cons. intros Hin [Hp HN]%NoDup_cons.
      destruct (decide (f r = p)) as [<-|Hne].
      + simpl. do 2 f_equiv. apply reflexive_eq. f_equal. apply list_fmap_ext.
        intros i p Hi%list_elem_of_lookup_2. rewrite filter_cons, decide_False; [done|]. by intros <-.
      + rewrite IH by set_solver. by rewrite Permutation_middle. }
  apply Hgen. intros r [_ Hr]%elem_of_seq. auto.
Qed.

(** The expert-parallel groups of an intra-node layout. *)
Definition ep_groups_ok (world ep gpn : nat) : Prop :=
  is_partition (ep_groups world ep gpn) world /\
  forall grp, grp ∈ ep_groups world ep gpn -> length grp = ep /\
    (forall r r', r ∈ grp -> r' ∈ grp -> r / gpn = r' / gpn) /\
    forall e r, grp !! e = Some r -> r mod ep = e.

(** The sequence-parallel groups agree with the data plane: the position in a group is the
    token window, and a group is exactly the ranks of one sample. *)
Definition sp_groups_ok (world ep gpn sp : nat) : Prop :=
  is_partition (sp_groups world ep gpn sp) world /\
  (forall grp, grp ∈ sp_groups world ep gpn sp -> length grp = sp /\
     exists dp, forall k r, grp !! k = Some r -> rank_to_dp_sp world ep gpn sp !! r = Some (dp, k)) /\
  (forall grp grp' r r' dp k k', grp ∈ sp_groups world ep gpn sp -> grp' ∈ sp_groups world ep gpn sp ->
     r ∈ grp -> r' ∈ grp' -> rank_to_dp_sp world ep gpn sp !! r = Some (dp, k) ->
     rank_to_dp_sp world ep gpn sp !! r' = Some (dp, k') -> grp = grp').

Lemma exact_mul a b : 0 < b -> a mod b = 0 -> a = a / b * b.
Proof. intros Hb H. pose proof (Nat.div_mod_eq a b). lia. Qed.

Lemma ep_groups_correct world ep gpn :
  0 < ep -> 0 < gpn -> gpn mod ep = 0 -> world mod gpn = 0 -> ep_groups_ok world ep gpn.
Proof.
  intros Hep Hg H1%exact_mul H2%exact_mul; [|done..]. set (m := gpn / ep) in *. set (n := world / gpn) in *.
  assert (Hm : 0 < m) by nia. rewrite H1 in H2. rewrite H2, H1. unfold ep_groups_ok. split.
  - unfold is_partition. by rewrite ep_groups_concat.
  - intros grp. rewrite ep_groups_eq by done. intros (slot & -> & _)%list_elem_of_fmap.
    split; [by rewrite length_fmap, length_seq|]. split.
    + assert (Hdiv : forall r, r ∈ (fun e => slot * ep + e) <$> seq 0 ep -> r / (m * ep) = slot / m).
      { intros r (e & -> & He%elem_of_seq)%list_elem_of_fmap.
        pose proof (rank_decompose n m ep Hm Hep slot e ltac:(lia)) as E. unfold rank_to_node_sp_ep in E. congruence. }
      intros r r' Hr Hr'. by rewrite (Hdiv r Hr), (Hdiv r' Hr').
    + intros e r He. rewrite list_lookup_fmap in He. apply fmap_Some in He as (x & Hx & ->).
      apply lookup_seq in Hx as [-> Hx]. symmetry. apply (Nat.mod_unique _ _ slot); lia.
Qed.

Lemma data_plane_at m n ep sp i k e :
  0 < m -> 0 < ep -> k < sp -> e < ep -> (i * sp + k) * ep + e < n * (m * ep) ->
  rank_to_dp_sp (n * (m * ep)) ep (m * ep) sp !! ((i * sp + k) * ep + e) = Some (i * ep + e, k).
Proof.
  intros Hm Hep Hk He Hlt. unfold rank_to_dp_sp. rewrite list_lookup_fmap, lookup_seq_lt by done. cbn [fmap option_fmap option_map].
  rewrite Nat.add_0_l, (rank_decompose n m ep), (slot_of n m ep) by done. f_equal.
  assert ((i * sp + k) / sp = i) as -> by (symmetry; apply (Nat.div_unique _ _ _ k); lia).
  assert ((i * sp + k) mod sp = k) as -> by (symmetry; apply (Nat.mod_unique _ _ i); lia). done.
Qed.

Lemma sp_groups_correct world ep gpn sp :
  0 < ep -> 0 < gpn -> 0 < sp -> gpn mod ep = 0 -> world mod gpn = 0 -> world mod sp = 0 ->
  (world / sp) mod ep = 0 -> sp_groups_ok world ep gpn sp.
Proof.
  intros Hep Hg Hsp H1%exact_mul H2%exact_mul H3%exact_mul H4%exact_mul; [|done..].
  set (m := gpn / ep) in *. set (n := world / gpn) in *. set (q := world / sp / ep) in *.
  assert (Hm : 0 < m) by nia. rewrite H1 in H2. rewrite H4 in H3.
  assert (Hq : n * m = q * sp) by nia. clearbody m n q. subst gpn. rewrite H2. clear H2 H3 H4.
  assert (Hpart := sp_groups_partition n m ep Hm Hep q sp Hsp Hq).
  assert (Hat : forall grp k r, grp ∈ sp_groups (n * (m * ep)) ep (m * ep) sp -> grp !! k = Some r ->
    exists e i, e < ep /\ i < q /\
      grp = chunk sp ((fun slot => slot * ep + e) <$> seq 0 (n * m)) i /\
      rank_to_dp_sp (n * (m * ep)) ep (m * ep) sp !! r = Some (i * ep + e, k)).
  { intros grp k r Hgrp Hr. destruct (sp_group_elem n m ep Hm Hep q sp Hsp Hq grp k r Hgrp Hr)
      as (e & i & He & Hi & Hk & -> & ->). exists e, i. split; [done|]. split; [done|]. split; [done|].
    apply data_plane_at; [done..|]. eapply is_partition_lt; [exact Hpart|exact Hgrp|]. by eapply list_elem_of_lookup_2. }
  split; [done|]. split.
  - intros grp Hgrp. pose proof Hgrp as Hgrp'. rewrite (sp_groups_eq n m ep Hm Hep q sp) in Hgrp' by done.
    apply list_elem_of_In, in_concat in Hgrp' as (gs & Hgs%list_elem_of_In & Hin%list_elem_of_In).
    apply list_elem_of_fmap in Hgs as (e & -> & He%elem_of_seq).
    apply list_elem_of_fmap in Hin as (i & -> & Hi%elem_of_seq).
    split; [apply length_chunk; rewrite length_fmap, length_seq; nia|].
    exists (i * ep + e). intros k r Hr. unfold chunk in Hr.
    rewrite lookup_take_Some, lookup_drop, list_lookup_fmap in Hr. destruct Hr as [Hr Hk].
    apply fmap_Some in Hr as (slot & Hs & ->). apply lookup_seq in Hs as [-> Hs]. simpl.
    apply data_plane_at; [done..|lia|nia].
  - intros grp grp' r r' dp k k' Hgrp Hgrp' [j Hr]%list_elem_of_lookup [j' Hr']%list_elem_of_lookup E E'.
    destruct (Hat _ _ _ Hgrp Hr) as (e & i & He & Hi & -> & F).
    destruct (Hat _ _ _ Hgrp' Hr') as (e' & i' & He' & Hi' & -> & F'). simplify_eq.
    assert (i = i' /\ e = e') as [-> ->]; [|done]. apply (Nat.mul_split_l ep); [done..|congruence].
Qed.

(** Consecutive blocks that fill every host they touch. *)
Definition host_groups_ok (world ep gpn : nat) : Prop :=
  is_partition (host_complete_ep_groups world ep) world /\
  forall grp, grp ∈ host_complete_ep_groups world ep -> length grp = ep /\
    forall r r', r ∈ grp -> r' / gpn = r / gpn -> r' ∈ grp.

Lemma host_groups_correct world ep gpn :
  0 < ep -> 0 < gpn -> world mod ep = 0 -> ep mod gpn = 0 -> host_groups_ok world ep gpn.
Proof.
  intros Hep Hg H1%exact_mul H2%exact_mul; [|done..]. set (q := world / ep) in *. set (h := ep / gpn) in *.
  clearbody q h. subst world. unfold host_groups_ok, host_complete_ep_groups.
  rewrite range_step_mult by done. rewrite <- list_fmap_compose. split.
  - unfold is_partition. apply reflexive_eq. etrans; [|apply (list_fmap_id (seq 0 (q * ep)))].
    rewrite <- (seq_nested (fun r => r)). f_equal. apply list_fmap_ext. intros i a _. simpl.
    by rewrite fmap_add_seq, Nat.add_0_r.
  - intros grp (i & -> & _)%list_elem_of_fmap. simpl. split; [by rewrite length_seq|].
    intros r r' Hr E. apply elem_of_seq in Hr. apply elem_of_seq.
    pose proof (Nat.div_mod_eq r gpn). pose proof (Nat.div_mod_eq r' gpn).
    pose proof (Nat.mod_upper_bound r gpn ltac:(lia)). pose proof (Nat.mod_upper_bound r' gpn ltac:(lia)).
    rewrite E in *. set (D := r / gpn) in *. rewrite H2 in Hr |- *.
    assert (i * h <= D) by nia. assert (D < i * h + h) by nia. nia.
Qed.

Lemma node_local_inv world sp ep gpn :
  use_node_local_ep world sp ep gpn = true ->
  0 < gpn /\ world mod gpn = 0 /\ gpn mod ep = 0 /\ world mod sp = 0 /\ (world / sp) mod ep = 0.
Proof. unfold use_node_local_ep. repeat case_match; try done; intros _; lia. Qed.

Lemma decoupled_inv world sp ep gpn :
  use_intra_node_ep_decoupled world sp ep gpn = true ->
  0 < gpn /\ world mod gpn = 0 /\ gpn mod ep = 0.
Proof. unfold use_intra_node_ep_decoupled. repeat case_match; try done; intros _; lia. Qed.

Lemma host_complete_inv world sp ep gpn :
  use_host_complete_ep world sp ep gpn = true -> 0 < gpn /\ world mod ep = 0 /\ ep mod gpn = 0.
Proof. unfold use_host_complete_ep. repeat case_match; try done; intros _; lia. Qed.

Lemma mesh_inv world sp ep : mesh_valid world sp ep = true -> world mod sp = 0 /\ (world / sp) mod ep = 0.
Proof. unfold mesh_valid. lia. Qed.

(** The divisibility facts behind each verdict. *)
Lemma resolve_inv world sp ep gpn layout topo :
  resolve_ep_group_topology world sp ep gpn layout = Ok topo -> topo <> Standard ->
  1 < sp /\ 1 < ep /\
  match topo with
  | Standard => False
  | NodeLocal => 0 < gpn /\ world mod gpn = 0 /\ gpn mod ep = 0 /\ world mod sp = 0 /\ (world / sp) mod ep = 0
  | Decoupled => 0 < gpn /\ world mod gpn = 0 /\ gpn mod ep = 0
  | HostComplete => 0 < gpn /\ world mod ep = 0 /\ ep mod gpn = 0
  | Orthogonal => world mod sp = 0 /\ (world / sp) mod ep = 0
  end.
Proof.
  intros H Hs. unfold resolve_ep_group_topology in H. res_inv.
  destruct ((sp <=? 1) || (ep <=? 1)) eqn:E1; [by simplify_eq|]. split; [lia|]. split; [lia|].
  repeat case_bool_decide;
    repeat match goal with
    | H : context [if ?b then _ else _] |- _ => destruct b eqn:?
    | H : Ok _ = Ok _ |- _ => injection H as <-
    | H : Raise _ = Ok _ |- _ => discriminate H
    end;
    eauto using node_local_inv, decoupled_inv, host_complete_inv, mesh_inv;
    repeat match goal with
    | H : mesh_valid _ _ _ = true |- _ => apply mesh_inv in H
    end; lia.
Qed.

(** ** The schedule *)

(** After [s] targets, sender [k] has [ceil((s - k) / n)] of them. *)
Definition round_robin (n s : nat) (acc : list (list (nat * nat))) : Prop :=
  length acc = n /\ forall k g, acc !! k = Some g -> length g = (s + n - 1 - k) / n.

Lemma round_robin_step n s acc t :
  0 < n -> round_robin n s acc -> round_robin n (S s) (append_at (s mod n) t acc).
Proof.
  intros Hn [Hl Hk]. split; [by rewrite length_append_at|]. intros k g Hg. unfold append_at in Hg.
  pose proof (Nat.div_mod_eq s n) as Hdm. pose proof (Nat.mod_upper_bound s n ltac:(lia)) as Hlt.
  assert (Hkn : k < n) by (apply lookup_lt_Some in Hg; by rewrite length_alter, Hl in Hg).
  destruct (decide (k = s mod n)) as [->|Hne].
  - rewrite list_lookup_alter_eq in Hg. apply fmap_Some in Hg as (g0 & Hg0 & ->). rewrite length_app, (Hk _ _ Hg0). simpl.
    assert ((s + n - 1 - s mod n) / n = s / n) as ->.
    { symmetry. apply (Nat.div_unique _ _ _ (n - 1)); lia. }
    apply (Nat.div_unique _ _ _ 0); lia.
  - rewrite list_lookup_alter_ne in Hg by done. rewrite (Hk _ _ Hg).
    destruct (decide (k < s mod n)).
    + assert (E : forall x, x < 2 -> (s + x + n - 1 - k) / n = S (s / n)).
      { intros x Hx. symmetry. apply (Nat.div_unique _ _ _ (s mod n + x - 1 - k)); nia. }
      pose proof (E 0 ltac:(lia)) as E0. pose proof (E 1 ltac:(lia)) as E1.
      replace (s + 0 + n - 1 - k) with (s + n - 1 - k) in E0 by lia.
      replace (s + 1 + n - 1 - k) with (S s + n - 1 - k) in E1 by lia. congruence.
    + assert (E : forall x, x < 2 -> (s + x + n - 1 - k) / n = s / n).
      { intros x Hx. symmetry. apply (Nat.div_unique _ _ _ (s mod n + x + n - 1 - k)); nia. }
      pose proof (E 0 ltac:(lia)) as E0. pose proof (E 1 ltac:(lia)) as E1.
      replace (s + 0 + n - 1 - k) with (s + n - 1 - k) in E0 by lia.
      replace (s + 1 + n - 1 - k) with (S s + n - 1 - k) in E1 by lia. congruence.
Qed.

Lemma assign_target_ok n acc it : 0 < n -> assign_target n acc it = Ok (append_at (it.1 mod n) it.2 acc).
Proof. intros Hn. unfold assign_target. by replace (n =? 0) with false by lia. Qed.

Lemma assign_targets_ok n ts s acc :
  0 < n -> round_robin n s acc ->
  exists acc', foldM (assign_target n) acc (imap (fun i t => (s + i, t)) ts) = Ok acc' /\
    round_robin n (s + length ts) acc' /\ concat acc' ≡ₚ concat acc ++ ts.
Proof.
  intros Hn. revert s acc; induction ts as [|t ts IH]; intros s acc Hr.
  { exists acc. simpl. rewrite Nat.add_0_r, app_nil_r. done. }
  cbn [imap foldM]. rewrite (assign_target_ok n acc) by done. cbn [mbind res_bind fst snd]. rewrite Nat.add_0_r.
  destruct (IH (S s) (append_at (s mod n) t acc)) as (acc' & H1 & H2 & H3).
  { by apply round_robin_step. }
  exists acc'. split.
  - rewrite <- H1. f_equal. apply imap_ext. intros i x _. simpl. f_equal. lia.
  - split; [by replace (s + length (t :: ts)) with (S s + length ts) by (simpl; lia)|].
    rewrite H3, concat_append_at; [by rewrite <- Permutation_middle|]. destruct Hr as [-> _].
    apply Nat.mod_upper_bound. lia.
Qed.

Lemma all_targets_spec R T : all_targets R T ≡ₚ list_prod (seq 0 R) (seq 0 T) /\ length (all_targets R T) = R * T.
Proof.
  assert (E : all_targets R T = list_prod (seq 0 R) (seq 0 T)).
  { unfold all_targets. generalize (seq 0 R). intros l. induction l as [|r l IH]; csimpl; [done|]. by rewrite IH. }
  rewrite E. split; [done|]. by rewrite length_prod, !length_seq.
Qed.

(** What a schedule promises for [n] senders. *)
Record schedule_ok (gpus R T n : nat) (s : transfer_schedule) : Prop := {
  so_groups : num_groups s = n;
  so_senders : active_sender_ranks s = seq 0 n;
  so_targets : concat (targets <$> groups s) ≡ₚ list_prod (seq 0 R) (seq 0 T);
  so_even : forall g, g ∈ groups s -> R * T / n <= length (targets g) <= (R * T + n - 1) / n;
}.

Lemma build_schedule_ok sharding gpus R T :
  sharding ∈ ["dp"; "fsdp"; "zero3"] -> 0 < gpus -> 0 < R * T ->
  (sharding = "zero3" -> R * T <= gpus) ->
  exists s, build_schedule sharding gpus R T = Ok s /\
    schedule_ok gpus R T (if bool_decide (sharding = "zero3") then gpus else min gpus (R * T)) s.
Proof.
  intros Hsh Hg HRT Hz. unfold build_schedule. rewrite (bool_decide_true (sharding ∈ _)) by done.
  destruct (all_targets_spec R T) as [HP HL]. rewrite HL. cbn [check mbind res_bind].
  set (n := if bool_decide _ then gpus else _).
  assert (Hn : 0 < n) by (unfold n; destruct (bool_decide _); lia).
  assert (E : (if bool_decide (sharding = "zero3")
     then check (R * T <=? gpus) (ValueError "zero3 requires training_gpus >= targets");; Ok gpus
     else Ok (gpus `min` (R * T))) = Ok n).
  { unfold n. case_bool_decide as Ez; [|done]. apply Hz in Ez. by replace (R * T <=? gpus) with true by lia. }
  rewrite E. cbn [mbind res_bind].
  destruct (assign_targets_ok n (all_targets R T) 0 (replicate n [])) as (acc & H1 & [H2 H3] & H4); [done| |].
  { split; [apply length_replicate|]. intros k g [-> Hk]%lookup_replicate. simpl.
    symmetry. apply Nat.div_small. lia. }
  change (imap (fun i t => (0 + i, t)) (all_targets R T)) with (imap pair (all_targets R T)) in H1.
  rewrite H1. cbn [mbind res_bind]. eexists. split; [done|]. rewrite HL in H3.
  assert (Htg : targets <$> imap (fun i tgts => TransferGroup i i tgts) acc = acc).
  { rewrite fmap_imap. etrans; [|apply list_fmap_id]. apply list_eq. intros i.
    rewrite list_lookup_imap, list_lookup_fmap. by destruct (acc !! i). }
  split; unfold num_groups, active_sender_ranks; simpl.
  - by rewrite length_imap.
  - rewrite fmap_imap, <- H2. apply list_eq. intros i. rewrite list_lookup_imap.
    destruct (acc !! i) eqn:Ei; simpl.
    + apply lookup_lt_Some in Ei. by rewrite lookup_seq_lt.
    + apply lookup_ge_None in Ei. by rewrite lookup_seq_ge.
  - rewrite Htg, H4, HP. by replace (concat (replicate n [])) with (@nil (nat * nat)) by (clear; by induction n).
  - intros g [i Hi]%list_elem_of_lookup. rewrite list_lookup_imap in Hi.
    destruct (acc !! i) as [l|] eqn:Ei; simplify_eq/=. rewrite (H3 _ _ Ei).
    apply lookup_lt_Some in Ei. split; apply Nat.Div0.div_le_mono; lia.
Qed.

(** ** Properties *)

(** C39: whatever layout [resolve_ep_group_topology] chooses for a mesh of sequence- and
    expert-parallel degrees, the groups built for it are sound.  Node-local and decoupled
    expert-parallel groups partition the ranks into blocks of [ep] ranks of a single node that
    hold every expert position once; node-local sequence-parallel groups partition the ranks,
    and the data plane ([rank_to_dp_sp]) gives exactly the ranks of a group the same sample,
    with their position in the group as token window; host-complete groups partition the ranks
    and fill every host they touch; and the expert-data-parallel groups of every layout
    partition the ranks. *)
Theorem resolved_topology_sound (world sp ep gpn : nat) (layout : option string) (topo : ep_topology) :
  resolve_ep_group_topology world sp ep gpn layout = Ok topo ->
  match topo with
  | Standard => sp <= 1 \/ ep <= 1
  | NodeLocal => ep_groups_ok world ep gpn /\ sp_groups_ok world ep gpn sp /\
                 is_partition (intra_node_ep_replica_groups world ep) world
  | Decoupled => ep_groups_ok world ep gpn /\ is_partition (intra_node_ep_replica_groups world ep) world
  | HostComplete => host_groups_ok world ep gpn /\ is_partition (intra_node_ep_replica_groups world ep) world
  | Orthogonal => is_partition (orthogonal_edp_groups world sp ep) world
  end.
Proof.
  intros H. destruct (decide (topo = Standard)) as [->|Hne].
  { unfold resolve_ep_group_topology in H. res_inv. destruct ((sp <=? 1) || (ep <=? 1)) eqn:E; [lia|].
    repeat match goal with
    | H : context [if ?b then _ else _] |- _ => destruct b
    | H : Ok _ = Ok _ |- _ => discriminate H
    | H : Raise _ = Ok _ |- _ => discriminate H
    end. }
  destruct (resolve_inv _ _ _ _ _ _ H Hne) as (Hsp & Hep & Hinv).
  assert (Hrep : is_partition (intra_node_ep_replica_groups world ep) world)
    by (apply classes_partition; intros r _; apply Nat.mod_upper_bound; lia).
  destruct topo; [done|..].
  - apply classes_partition. intros r _. apply Nat.mod_upper_bound. lia.
  - destruct Hinv as (H1 & H2 & H3 & H4 & H5).
    split; [apply ep_groups_correct; lia|]. split; [apply sp_groups_correct; lia|done].
  - destruct Hinv as (H1 & H2 & H3). split; [apply ep_groups_correct; lia|done].
  - destruct Hinv as (H1 & H2 & H3). split; [apply host_groups_correct; lia|done].
Qed.

(** C40: [TransferSchedule.build] gives every inference worker exactly one sender: the targets
    of the groups are exactly the pairs of replica and tensor-parallel rank, each once, the
    load of any two senders differs by at most one, and distinct workers get distinct ports.
    ZeRO-3 schedules use every training rank, and none of them sends twice. *)
Theorem transfer_schedule_covers (sharding : string) (gpus R T base : nat) :
  sharding ∈ ["dp"; "fsdp"; "zero3"] -> 0 < gpus -> 0 < R * T ->
  (sharding = "zero3" -> R * T <= gpus) ->
  exists s, build_schedule sharding gpus R T = Ok s /\
    concat (targets <$> groups s) ≡ₚ list_prod (seq 0 R) (seq 0 T) /\
    active_sender_ranks s = seq 0 (if bool_decide (sharding = "zero3") then gpus else min gpus (R * T)) /\
    (forall g g', g ∈ groups s -> g' ∈ groups s -> length (targets g) <= length (targets g') + 1) /\
    (sharding = "zero3" -> forall g, g ∈ groups s -> length (targets g) <= 1) /\
    (forall r t r' t', t < T -> t' < T ->
       port_for_target s r t base = port_for_target s r' t' base -> r = r' /\ t = t').
Proof.
  intros Hsh Hg HRT Hz. destruct (build_schedule_ok sharding gpus R T Hsh Hg HRT Hz) as (s & Hs & [H1 H2 H3 H4]).
  exists s. set (n := if bool_decide _ then gpus else _) in *.
  assert (Hn : 0 < n) by (unfold n; destruct (bool_decide _); lia).
  split; [done|]. split; [done|]. split; [done|]. split; [|split].
  - intros g g' Hg1 Hg2. pose proof (H4 g Hg1) as [_ Hu]. pose proof (H4 g' Hg2) as [Hl _].
    assert ((R * T + n - 1) / n <= R * T / n + 1); [|lia].
    apply Nat.lt_succ_r, Nat.Div0.div_lt_upper_bound. pose proof (Nat.div_mod_eq (R * T) n).
    pose proof (Nat.mod_upper_bound (R * T) n ltac:(lia)). nia.
  - intros E g Hg1. pose proof (H4 g Hg1) as [_ Hu]. specialize (Hz E). unfold n in *.
    rewrite bool_decide_true in * by done. assert ((R * T + gpus - 1) / gpus <= 1); [|lia].
    apply Nat.lt_succ_r, Nat.Div0.div_lt_upper_bound. lia.
  - assert (Htp : inference_tp s = T).
    { unfold build_schedule in Hs. res_inv. done. }
    intros r t r' t' Ht Ht'. unfold port_for_target. rewrite Htp. intros E.
    apply (Nat.mul_split_l T); [done..|lia].
Qed.

(** ** Witnesses *)

Lemma resolved_topology_sound_witness :
  sp_groups_ok 32 2 8 8 /\ ep_groups_ok 32 2 8 /\ host_groups_ok 32 16 8.
Proof.
  pose proof (resolved_topology_sound 32 8 2 8 None NodeLocal ltac:(vm_compute; reflexivity)) as (H1 & H2 & _).
  pose proof (resolved_topology_sound 32 2 16 8 None HostComplete ltac:(vm_compute; reflexivity)) as (H3 & _).
  split; [exact H2|]. split; [exact H1|exact H3].
Defined.

Lemma transfer_schedule_covers_witness :
  exists s, build_schedule "zero3" 9 4 2 = Ok s /\ active_sender_ranks s = seq 0 9.
Proof.
  destruct (transfer_schedule_covers "zero3" 9 4 2 5000 ltac:(right; right; left) ltac:(lia) ltac:(lia) ltac:(lia))
    as (s & H & _ & Hr & _). exists s. split; [exact H|exact Hr].
Defined.
