(* ===== verification/PrefixPool.v ===== *)
(** * The prefix-caching block pool on top of kvcached

    Source: [src/arctic_platform/inference/vllm/kvcached/prefix_block_pool.py].

    The pool hands out KV-cache blocks with reference counts.  A block whose count drops to
    zero keeps its contents and waits in an eviction queue, so that a later request with the
    same prefix can use it again; under memory pressure the queue is given back to kvcached.

    What the pool is built on is not part of the repository and is a parameter, each with the
    documented behaviour the pool relies on: kvcached's [KVCacheManager] ([KvManager]), vLLM's
    [FreeKVCacheBlockQueue] ([BlockQueue]) and [BlockHashToBlockMap] ([HashMap]).  A
    [KVCacheBlock] object is identified by its id: the pool creates one object per id.  The
    callbacks given to [unpin_blocks] are recorded in a log when they are called.

    Methods are state transformers that keep the state reached when an exception is raised. *)

From stdpp Require Import prelude strings list gmap sets.
From Stdlib Require Import ZArith Lia.
From S2P Require Import Prelude Dict.
Local Open Scope Z_scope.

(** ** The libraries *)

(** kvcached: ids are allocated and freed; how much is available depends on other processes. *)
Class KvManager (M : Type) := {
  kv_alloc : M -> nat -> M * option (list Z);
  kv_free : M -> list Z -> M;
  available_size : M -> Z;
}.

Class KvManagerLaws (M : Type) `{KvManager M} := {
  kv_owned : M -> gset Z;
  kv_alloc_owned m n m' r : kv_alloc m n = (m', r) ->
    match r with
    | Some ids => NoDup ids /\ (length ids <= n)%nat /\ list_to_set ids ## kv_owned m /\ kv_owned m' = kv_owned m ∪ list_to_set ids
    | None => kv_owned m' = kv_owned m
    end;
  kv_free_owned m ids : NoDup ids -> list_to_set ids ⊆ kv_owned m -> kv_owned (kv_free m ids) = kv_owned m ∖ list_to_set ids;
}.

(** The doubly linked list of free blocks, oldest first. *)
Class BlockQueue (Q : Type) := {
  q_empty : Q;
  q_popleft : Q -> res (Z * Q);
  q_append_n : Q -> list Z -> Q;
  q_remove : Q -> Z -> res Q;
  num_free_blocks : Q -> nat;
}.

Class BlockQueueLaws (Q : Type) `{BlockQueue Q} := {
  q_items : Q -> list Z;
  q_items_empty : q_items q_empty = [];
  q_num q : num_free_blocks q = length (q_items q);
  q_popleft_items q x l : q_items q = x :: l -> exists q', q_popleft q = Ok (x, q') /\ q_items q' = l;
  q_append_items q l : NoDup (q_items q ++ l) -> q_items (q_append_n q l) = q_items q ++ l;
  q_remove_items q x : NoDup (q_items q) -> x ∈ q_items q ->
    exists q', q_remove q x = Ok q' /\ q_items q' = filter (fun y => y <> x) (q_items q);
}.

(** A hash can name several blocks with the same contents. *)
Class HashMap (K H : Type) := {
  hm_empty : H;
  get_one_block : H -> K -> option Z;
  hm_insert : H -> K -> Z -> H;
  hm_pop : H -> K -> Z -> H * bool;
  hm_contain : H -> K -> Z -> bool;
}.

Class HashMapLaws (K H : Type) `{!EqDecision K, !Countable K, HashMap K H} := {
  hm_entries : H -> gset (K * Z);
  hm_entries_empty : hm_entries hm_empty = ∅;
  get_one_block_Some m k id : get_one_block m k = Some id -> (k, id) ∈ hm_entries m;
  get_one_block_None m k id : get_one_block m k = None -> (k, id) ∉ hm_entries m;
  hm_insert_entries m k id : hm_entries (hm_insert m k id) = hm_entries m ∪ {[ (k, id) ]};
  hm_pop_entries m k id : hm_entries (hm_pop m k id).1 = hm_entries m ∖ {[ (k, id) ]};
  hm_pop_hit m k id : (hm_pop m k id).2 = true <-> (k, id) ∈ hm_entries m;
  hm_contain_spec m k id : hm_contain m k id = true <-> (k, id) ∈ hm_entries m;
}.

Lemma set_cons_move (id : Z) l (L : gset Z) : list_to_set (id :: l) ∪ L = list_to_set l ∪ ({[ id ]} ∪ L).
Proof. set_solver. Qed.

Lemma set_filter_cons (P : Z -> Prop) `{!forall x, Decision (P x)} (id : Z) l (L : gset Z) :
  list_to_set (filter P (id :: l)) ∪ L = list_to_set (filter P l) ∪ (list_to_set (filter P [id]) ∪ L).
Proof. rewrite !filter_cons, filter_nil. destruct (decide (P id)); set_solver. Qed.

Lemma NoDup_filter_impl {A} (P P' : A -> Prop) `{!forall x, Decision (P x), !forall x, Decision (P' x)} (l : list A) :
  NoDup (filter P l) -> (forall x, P' x -> P x) -> NoDup (filter P' l).
Proof.
  intros Hnd HP. induction l as [|x l IH]; [done|]. rewrite filter_cons in *. destruct (decide (P' x)) as [Hx|Hx].
  - rewrite decide_True in Hnd by auto. apply NoDup_cons in Hnd as [Hni Hnd]. apply NoDup_cons. split; [|by apply IH].
    rewrite list_elem_of_filter in *. intros [_ Hin]. apply Hni. auto.
  - destruct (decide (P x)); [apply NoDup_cons in Hnd as [_ Hnd]|]; by apply IH.
Qed.

(** ** The state *)

Section pool.
Context {K BH M Q H W : Type} `{!EqDecision K, !Countable K}.
Context `{KvManager M, BlockQueue Q, HashMap K H}.
(** [make_block_hash_with_group_id]; the hashes of larger blocks ([BlockHashListWithBlockSize]);
    whether this version of vLLM has [set_block_hash] and [contain]. *)
Context (mk_key : BH -> Z -> K) (merge_hashes : list BH -> Z -> Z -> list BH) (has_set_block_hash has_contain : bool).

Record block := Block { ref_cnt : Z; block_hash : option K; block_hash_num_tokens : option Z; is_null : bool }.

Record pool := Pool {
  enable_caching : bool;
  hash_block_size : Z;
  num_gpu_blocks : Z;
  pressure_threshold : Z;
  kv_cache_manager : M;
  block_cache : gmap Z block;
  eviction_queue : Q;
  cached_block_hash_to_block : H;
  cached_block_hashes_by_block : gmap Z (gset K);
  null_block : Z;
  reuse_watchers : list (Z * W);
  notified : list (W * Z);
}.

Definition with_cache (s : pool) c := Pool (enable_caching s) (hash_block_size s) (num_gpu_blocks s) (pressure_threshold s)
  (kv_cache_manager s) c (eviction_queue s) (cached_block_hash_to_block s) (cached_block_hashes_by_block s) (null_block s)
  (reuse_watchers s) (notified s).
Definition with_queue (s : pool) q := Pool (enable_caching s) (hash_block_size s) (num_gpu_blocks s) (pressure_threshold s)
  (kv_cache_manager s) (block_cache s) q (cached_block_hash_to_block s) (cached_block_hashes_by_block s) (null_block s)
  (reuse_watchers s) (notified s).
Definition with_kv (s : pool) m := Pool (enable_caching s) (hash_block_size s) (num_gpu_blocks s) (pressure_threshold s)
  m (block_cache s) (eviction_queue s) (cached_block_hash_to_block s) (cached_block_hashes_by_block s) (null_block s)
  (reuse_watchers s) (notified s).
Definition with_hashes (s : pool) h by_block := Pool (enable_caching s) (hash_block_size s) (num_gpu_blocks s) (pressure_threshold s)
  (kv_cache_manager s) (block_cache s) (eviction_queue s) h by_block (null_block s) (reuse_watchers s) (notified s).
Definition with_watchers (s : pool) ws log := Pool (enable_caching s) (hash_block_size s) (num_gpu_blocks s) (pressure_threshold s)
  (kv_cache_manager s) (block_cache s) (eviction_queue s) (cached_block_hash_to_block s) (cached_block_hashes_by_block s)
  (null_block s) ws log.
Definition with_caching (s : pool) b := Pool b (hash_block_size s) (num_gpu_blocks s) (pressure_threshold s)
  (kv_cache_manager s) (block_cache s) (eviction_queue s) (cached_block_hash_to_block s) (cached_block_hashes_by_block s)
  (null_block s) (reuse_watchers s) (notified s).

(** ** State and exceptions *)

Definition method (A : Type) : Type := pool -> pool * res A.
Definition pure {A} (a : A) : method A := fun s => (s, Ok a).
Definition throw {A} (e : exn) : method A := fun s => (s, Raise e).
Definition bind {A B} (m : method A) (f : A -> method B) : method B :=
  fun s => match m s with (s', Ok a) => f a s' | (s', Raise e) => (s', Raise e) end.
Definition get : method pool := fun s => (s, Ok s).
Definition modify (f : pool -> pool) : method unit := fun s => (f s, Ok tt).
Definition require (b : bool) (e : exn) : method unit := if b then pure tt else throw e.
Definition lift {A} (r : res A) : method A := fun s => (s, r).

#[local] Instance method_ret : MRet method := fun _ => pure.
#[local] Instance method_bind : MBind method := fun _ _ f m => bind m f.

(** [for x in l: body(x)]. *)
Fixpoint for_each {A} (l : list A) (body : A -> method unit) : method unit :=
  match l with [] => pure tt | x :: l => body x;; for_each l body end.

Definition the_block (id : Z) : method block :=
  s ← get; match block_cache s !! id with Some b => pure b | None => throw (KeyError "block of another pool") end.
Definition set_block (id : Z) (b : block) : method unit := modify (fun s => with_cache s (<[id := b]> (block_cache s))).

(** [KVCacheBlock]. *)
Definition with_ref (b : block) (n : Z) : block := Block n (block_hash b) (block_hash_num_tokens b) (is_null b).
Definition reset_hash (b : block) : block := Block (ref_cnt b) None None (is_null b).
Definition set_block_hash (b : block) (k : K) (num_tokens : option Z) : block :=
  Block (ref_cnt b) (Some k) (if has_set_block_hash then num_tokens else block_hash_num_tokens b) (is_null b).

(** ** Hashes *)

Definition map_contains (h : H) (k : K) (id : Z) : bool :=
  if has_contain then hm_contain h k id else bool_decide (get_one_block h k = Some id).

Definition insert_block_hash (k : K) (id : Z) (num_tokens : option Z) : method unit :=
  s ← get;
  b ← the_block id;
  if bool_decide (block_hash b = Some k) || map_contains (cached_block_hash_to_block s) k id then pure tt
  else
    (match block_hash b with
     | None => set_block id (set_block_hash b k num_tokens)
     | Some _ =>
         modify (fun s => with_hashes s (cached_block_hash_to_block s)
           (<[id := default ∅ (cached_block_hashes_by_block s !! id) ∪ {[ k ]}]> (cached_block_hashes_by_block s)))
     end);;
    modify (fun s => with_hashes s (hm_insert (cached_block_hash_to_block s) k id) (cached_block_hashes_by_block s)).

(** Pops every hash of a block and returns those that were in the table. *)
Fixpoint pop_hashes (h : H) (ks : list K) (id : Z) : H * list K :=
  match ks with
  | [] => (h, [])
  | k :: ks =>
      let '(h, hit) := hm_pop h k id in
      let '(h, removed) := pop_hashes h ks id in
      (h, if hit then k :: removed else removed)
  end.

Definition hashes_of (s : pool) (id : Z) (b : block) : list K :=
  option_list (block_hash b) ++ elements (default ∅ (cached_block_hashes_by_block s !! id)).

Definition remove_cached_block_hashes (id : Z) : method (list K) :=
  s ← get;
  b ← the_block id;
  let '(h, removed) := pop_hashes (cached_block_hash_to_block s) (hashes_of s id b) id in
  modify (fun s => with_hashes s h (delete id (cached_block_hashes_by_block s)));;
  set_block id (reset_hash b);;
  pure removed.

Definition evict_hash (id : Z) : method unit := _ ← remove_cached_block_hashes id; pure tt.
Definition maybe_evict_cached_block (id : Z) : method bool :=
  removed ← remove_cached_block_hashes id; pure (negb (bool_decide (length removed = 0%nat))).

Definition notify_reuse (id : Z) : method unit :=
  modify (fun s =>
    match dict_get (reuse_watchers s) id with
    | Some w => with_watchers s (dict_del (reuse_watchers s) id) (notified s ++ [(w, id)])
    | None => s
    end).

(** ** The eviction queue *)

Definition popleft : method Z :=
  s ← get;
  p ← lift (q_popleft (eviction_queue s));
  modify (fun s => with_queue s p.2);;
  pure p.1.

(** [while self._eviction_queue.num_free_blocks > 0]; [n] is that number. *)
Fixpoint flush_loop (n : nat) : method (list Z) :=
  match n with
  | O => pure []
  | S n =>
      id ← popleft;
      evict_hash id;;
      notify_reuse id;;
      ids ← flush_loop n;
      pure (id :: ids)
  end.

Definition kv_free_ids (ids : list Z) : method unit := modify (fun s => with_kv s (kv_free (kv_cache_manager s) ids)).

Definition flush_eviction_queue : method unit :=
  s ← get;
  ids ← flush_loop (num_free_blocks (eviction_queue s));
  match ids with [] => pure tt | _ => kv_free_ids ids end.

Definition maybe_relieve_pressure : method unit :=
  s ← get;
  if (num_free_blocks (eviction_queue s) =? 0)%nat then pure tt
  else if available_size (kv_cache_manager s) <? pressure_threshold s then flush_eviction_queue
  else pure tt.

(** ** The interface of the pool *)

Definition get_cached_block (bh : BH) (group_ids : list Z) : method (option (list Z)) :=
  s ← get;
  pure (if enable_caching s then mapM (fun g => get_one_block (cached_block_hash_to_block s) (mk_key bh g)) group_ids else None).

(** One block of [cache_full_blocks]. *)
Definition cache_full_block (num_cached_blocks block_size group_id : Z) (new_hashes : list BH) (mask : option (list bool))
    (i : nat) (id : Z) : method unit :=
  b ← the_block id;
  m ← (match mask with
        | Some mask => lift (at_index mask i)
        | None => pure true
        end);
  if is_null b || negb m then pure tt
  else
    bh ← lift (at_index new_hashes i);
    let num_hash_tokens := (num_cached_blocks + Z.of_nat i + 1) * block_size in
    match block_hash b with
    | None => insert_block_hash (mk_key bh group_id) id (Some num_hash_tokens)
    | Some _ =>
        match block_hash_num_tokens b with
        | None => pure tt
        | Some existing =>
            require (existing <? num_hash_tokens) (AssertionError "existing_num_tokens < num_hash_tokens");;
            _ ← remove_cached_block_hashes id;
            insert_block_hash (mk_key bh group_id) id (Some num_hash_tokens)
        end
    end.

Definition cache_full_blocks (block_hashes : list BH) (blocks : list Z) (num_cached_blocks num_full_blocks : nat)
    (block_size group_id : Z) (mask : option (list bool)) : method unit :=
  s ← get;
  if negb (enable_caching s) then pure tt
  else if (num_full_blocks <=? num_cached_blocks)%nat then pure tt
  else
    let new_full_blocks := take (num_full_blocks - num_cached_blocks) (drop num_cached_blocks blocks) in
    require (num_full_blocks <=? length block_hashes)%nat (AssertionError "len(request.block_hashes) >= num_full_blocks");;
    require (match mask with Some m => (length m =? length new_full_blocks)%nat | None => true end) (AssertionError "block_mask");;
    hashes ← (if block_size =? hash_block_size s then pure block_hashes
               else require (block_size mod hash_block_size s =? 0) (AssertionError "block_size % hash_block_size == 0");;
                    pure (merge_hashes block_hashes (hash_block_size s) block_size));
    for_each (imap pair new_full_blocks)
      (fun ib => cache_full_block (Z.of_nat num_cached_blocks) block_size group_id (drop num_cached_blocks hashes) mask ib.1 ib.2).

Definition cache_partial_block (block_hashes : list BH) (id : Z) (num_tokens group_id block_size : Z) : method (option K) :=
  s ← get;
  b ← the_block id;
  if negb (enable_caching s) || is_null b then pure None
  else
    require (hash_block_size s <? block_size) (AssertionError "block_size > hash_block_size");;
    require (block_size mod hash_block_size s =? 0) (AssertionError "block_size % hash_block_size == 0");;
    require (negb (num_tokens mod block_size =? 0)) (AssertionError "num_tokens % block_size != 0");;
    require (num_tokens mod hash_block_size s =? 0) (AssertionError "num_tokens % hash_block_size == 0");;
    let n := num_tokens / hash_block_size s in
    require ((0 <? n) && (n <=? Z.of_nat (length block_hashes))) (AssertionError "0 < num_hash_blocks <= len(request.block_hashes)");;
    bh ← lift (at_index block_hashes (Z.to_nat (n - 1)));
    let key := mk_key bh group_id in
    let outdated :=
      negb (map_contains (cached_block_hash_to_block s) key id) && bool_decide (is_Some (block_hash b)) &&
      match block_hash_num_tokens b with Some e => e <? num_tokens | None => false end in
    (if outdated then _ ← remove_cached_block_hashes id; pure tt else pure tt);;
    insert_block_hash key id (Some num_tokens);;
    pure (Some key).

Definition move_block_hashes (src dst : Z) : method unit :=
  s ← get;
  d ← the_block dst;
  require (bool_decide (block_hash d = None)) (AssertionError "dst_block.block_hash is None");;
  require (bool_decide (cached_block_hashes_by_block s !! dst = None)) (AssertionError "dst_block has no cached hashes");;
  b ← the_block src;
  ks ← remove_cached_block_hashes src;
  for_each ks (fun k => insert_block_hash k dst (block_hash_num_tokens b)).

Definition get_num_free_blocks (s : pool) : Z :=
  (if enable_caching s then Z.of_nat (num_free_blocks (eviction_queue s)) else 0) + available_size (kv_cache_manager s).

Definition set_ref (id : Z) (n : Z) : method unit := b ← the_block id; set_block id (with_ref b n).

(** The loop over the eviction queue: the blocks taken and how many are still missing. *)
Fixpoint take_evicted (remaining : nat) : method (list Z * nat) :=
  match remaining with
  | O => pure ([], O)
  | S n =>
      s ← get;
      if (num_free_blocks (eviction_queue s) =? 0)%nat then pure ([], remaining)
      else
        id ← popleft;
        _ ← maybe_evict_cached_block id;
        set_ref id 1;;
        notify_reuse id;;
        r ← take_evicted n;
        pure (id :: r.1, r.2)
  end.

Definition fresh_block (id : Z) : method unit :=
  s ← get;
  set_block id (match block_cache s !! id with Some b => with_ref (reset_hash b) 1 | None => Block 1 None None false end);;
  notify_reuse id.

Definition get_new_blocks (num_blocks : nat) : method (list Z) :=
  s ← get;
  require (Z.of_nat num_blocks <=? get_num_free_blocks s) (ValueError "Cannot get free blocks from the pool");;
  r ← (if enable_caching s then take_evicted num_blocks else pure ([], num_blocks));
  if (r.2 =? 0)%nat then pure r.1
  else
    s ← get;
    let '(m, new_ids) := kv_alloc (kv_cache_manager s) r.2 in
    modify (fun s => with_kv s m);;
    match new_ids with
    | Some ids =>
        if (length ids <? r.2)%nat then throw (ValueError "kvcached: failed to allocate blocks")
        else for_each ids fresh_block;; pure (r.1 ++ ids)
    | None => throw (ValueError "kvcached: failed to allocate blocks")
    end.

Definition decr (id : Z) : method unit := b ← the_block id; set_block id (with_ref b (ref_cnt b - 1)).

Definition freed_now (s : pool) (id : Z) : bool :=
  match block_cache s !! id with Some b => (ref_cnt b =? 0) && negb (is_null b) | None => false end.

Definition append_evictable (ids : list Z) : method unit :=
  modify (fun s => with_queue s (q_append_n (eviction_queue s) ids));; maybe_relieve_pressure.

Definition free_blocks (blocks : list Z) : method unit :=
  for_each blocks decr;;
  s ← get;
  let freed := filter (fun id => freed_now s id = true) blocks in
  if bool_decide (length freed = 0%nat) then pure tt
  else if enable_caching s then append_evictable freed
  else for_each freed evict_hash;; kv_free_ids freed.

(** One block of [unpin_blocks]; returns whether it is released. *)
Definition unpin_one (w : W) (id : Z) : method bool :=
  b ← the_block id;
  require ((0 <? ref_cnt b) && negb (is_null b)) (AssertionError "block.ref_cnt > 0 and not block.is_null");;
  set_block id (with_ref b (ref_cnt b - 1));;
  modify (fun s => with_watchers s (dict_set (reuse_watchers s) id w) (notified s));;
  pure (ref_cnt b - 1 =? 0).

Fixpoint unpin_loop (w : W) (blocks : list Z) : method (list Z) :=
  match blocks with
  | [] => pure []
  | id :: blocks => r ← unpin_one w id; rest ← unpin_loop w blocks; pure (if (r : bool) then id :: rest else rest)
  end.

Definition unpin_blocks (blocks : list Z) (on_reuse : W) : method unit :=
  released ← unpin_loop on_reuse blocks;
  s ← get;
  if bool_decide (length released = 0%nat) then pure tt
  else if enable_caching s then append_evictable released
  else for_each released (fun id => evict_hash id;; notify_reuse id);; kv_free_ids released.

Definition is_block_writable (id : Z) : method bool :=
  b ← the_block id; pure (negb (is_null b) && (ref_cnt b =? 1) && bool_decide (block_hash b = None)).

Definition touch_one (id : Z) : method unit :=
  b ← the_block id;
  (if (ref_cnt b =? 0) && negb (is_null b) then
     s ← get; q ← lift (q_remove (eviction_queue s) id); modify (fun s => with_queue s q)
   else pure tt);;
  set_block id (with_ref b (ref_cnt b + 1)).

Definition touch (blocks : list Z) : method unit :=
  s ← get; if negb (enable_caching s) then pure tt else for_each blocks touch_one.

(** Call every watcher whose block is known, then forget them all. *)
Definition call_watchers (s : pool) : pool :=
  with_watchers s [] (notified s ++ (omap (fun iw => match block_cache s !! iw.1 with Some _ => Some (iw.2, iw.1) |
  None => None end) (reuse_watchers s))).

Definition reset_prefix_cache : method bool :=
  modify call_watchers;;
  flush_eviction_queue;;
  modify (fun s => with_hashes s hm_empty ∅);;
  modify (fun s => with_cache s (reset_hash <$> block_cache s));;
  pure true.

Definition evict_blocks (block_ids : list Z) : method unit :=
  for_each block_ids (fun id =>
    s ← get;
    match block_cache s !! id with Some _ => _ ← maybe_evict_cached_block id; pure tt | None => pure tt end).

Definition set_caching_enabled (enabled : bool) : method unit :=
  s ← get;
  (if enable_caching s && negb enabled then
     flush_eviction_queue;;
     modify (fun s => with_hashes s hm_empty ∅);;
     modify (fun s => with_cache s ((fun b => if is_null b then b else reset_hash b) <$> block_cache s))
   else pure tt);;
  modify (fun s => with_caching s enabled).

(** [__init__]; [scaled] is [int(num_gpu_blocks * pressure_threshold_pct)]. *)
Definition pool_init (m : M) (caching : bool) (hash_size block_size num_blocks scaled : Z) : res pool :=
  let '(m, null_ids) := kv_alloc m 1 in
  match null_ids with
  | Some [id] => Ok (Pool caching (if hash_size =? 0 then block_size else hash_size) num_blocks (Z.max scaled 32) m {[ id := Block 0 None
    None true ]} q_empty hm_empty ∅ id [] [])
  | _ => Raise (AssertionError "null_ids is not None and len(null_ids) == 1")
  end.

(** ** Reasoning about methods *)

(** [m] run from [s] ends in [Phi] when it returns and in [E] when it raises. *)
Definition wp {A} (m : method A) (s : pool) (Phi : A -> pool -> Prop) (E : exn -> pool -> Prop) : Prop :=
  match m s with (s', Ok a) => Phi a s' | (s', Raise e) => E e s' end.
Definition never (e : exn) (s : pool) : Prop := False.

Lemma wp_bind {A B} (m : method A) (f : A -> method B) s Phi E :
  wp m s (fun a s' => wp (f a) s' Phi E) E -> wp (m ≫= f) s Phi E.
Proof. unfold wp, mbind, method_bind, bind. by destruct (m s) as [s' [a|e]]. Qed.

Lemma wp_mono {A} (m : method A) s Phi Psi E F :
  wp m s Phi E -> (forall a s', Phi a s' -> Psi a s') -> (forall e s', E e s' -> F e s') -> wp m s Psi F.
Proof. unfold wp. destruct (m s) as [s' [a|e]]; eauto. Qed.

(** Run [m] by a specification without exceptions, then the rest. *)
Lemma wp_then {A B} (m : method A) (f : A -> method B) s Psi Phi E :
  wp m s Psi never -> (forall a s', Psi a s' -> wp (f a) s' Phi E) -> wp (m ≫= f) s Phi E.
Proof. intros Hm Hf. apply wp_bind. eapply wp_mono; [exact Hm|exact Hf|done]. Qed.

Lemma wp_total {A} (m : method A) s Psi Phi E : wp m s Psi never -> (forall a s', Psi a s' -> Phi a s') -> wp m s Phi E.
Proof. intros Hm Hf. eapply wp_mono; [exact Hm|exact Hf|done]. Qed.

Lemma wp_get {A} (f : pool -> method A) s Phi E : wp (f s) s Phi E -> wp (get ≫= f) s Phi E.
Proof. done. Qed.
Lemma wp_modify {A} g (f : unit -> method A) s Phi E : wp (f tt) (g s) Phi E -> wp (modify g ≫= f) s Phi E.
Proof. done. Qed.
Lemma wp_pure {A B} (a : A) (f : A -> method B) s Phi E : wp (f a) s Phi E -> wp (pure a ≫= f) s Phi E.
Proof. done. Qed.
Lemma wp_the_block {A} id b (f : block -> method A) s Phi E :
  block_cache s !! id = Some b -> wp (f b) s Phi E -> wp (the_block id ≫= f) s Phi E.
Proof. intros Hb Hf. unfold wp, the_block, mbind, method_bind, bind, get in *. by rewrite Hb. Qed.
Lemma wp_require {A} c e (f : unit -> method A) s Phi (E : exn -> pool -> Prop) :
  (c = false -> E e s) -> (c = true -> wp (f tt) s Phi E) -> wp (require c e ≫= f) s Phi E.
Proof. unfold require. destruct c; intros He Hf; [by apply Hf|by apply He]. Qed.
Lemma wp_lift {A B} (r : res A) (f : A -> method B) s Phi (E : exn -> pool -> Prop) :
  (forall e, E e s) -> (forall a, r = Ok a -> wp (f a) s Phi E) -> wp (lift r ≫= f) s Phi E.
Proof. intros He Hf. destruct r as [a|e]; [by apply Hf|by apply He]. Qed.

(** [J rest] holds before the iterations over [rest]. *)
Lemma wp_for_each {A} (J : list A -> pool -> Prop) (body : A -> method unit) E l : forall s,
  J l s -> (forall x l s, J (x :: l) s -> wp (body x) s (fun _ => J l) E) -> wp (for_each l body) s (fun _ => J []) E.
Proof.
  induction l as [|x l IH]; intros s HJ Hb; [exact HJ|]. simpl. apply wp_bind.
  eapply wp_mono; [by apply Hb|intros a s' HJ'; by apply IH|done].
Qed.

(** ** The invariant *)

Context `{!KvManagerLaws M, !BlockQueueLaws Q, !HashMapLaws K H}.

Definition owned (s : pool) : gset Z := kv_owned (kv_cache_manager s).
Definition queued (s : pool) : list Z := q_items (eviction_queue s).
Definition entries (s : pool) : gset (K * Z) := hm_entries (cached_block_hash_to_block s).
Definition extra (s : pool) (id : Z) : gset K := default ∅ (cached_block_hashes_by_block s !! id).
Definition refs_of (s : pool) (id : Z) : option (Z * bool) := (fun b => (ref_cnt b, is_null b)) <$> block_cache s !! id.
Definition hash_of (s : pool) (id : Z) : option K := block_cache s !! id ≫= block_hash.

(** Mapped, not null, and nobody uses it. *)
Definition idle (s : pool) (id : Z) : Prop := refs_of s id = Some (0, false) /\ id ∈ owned s.
(** In use. *)
Definition held (s : pool) (id : Z) : Prop := exists n, refs_of s id = Some (n, false) /\ 0 < n /\ id ∈ owned s.
Definition hash_free (s : pool) (id : Z) : Prop := forall k, (k, id) ∉ entries s.

(** Reference counts, queue and kvcached.  The blocks of [L] are mapped but neither in use nor
    in the queue: on their way between the two, or lost. *)
Record refs_inv (L : gset Z) (s : pool) : Prop := {
  ri_null : exists n, refs_of s (null_block s) = Some (n, true);
  ri_null_only : forall id n, refs_of s id = Some (n, true) -> id = null_block s;
  ri_null_owned : null_block s ∈ owned s;
  ri_known : forall id, id ∈ owned s -> id ∉ L -> is_Some (refs_of s id);
  ri_refs : forall id n, refs_of s id = Some (n, false) -> 0 <= n /\ (id ∈ owned s \/ n = 0);
  ri_nodup : NoDup (queued s);
  ri_queue : forall id, id ∈ queued s <-> idle s id /\ id ∉ L;
  ri_moving : forall id, id ∈ L -> id ∈ owned s /\ (refs_of s id = None \/ refs_of s id = Some (0, false));
  ri_off : enable_caching s = false -> queued s = [];
}.

(** The hash table and the hashes of the blocks name the same pairs, of mapped blocks only. *)
Record hash_inv (s : pool) : Prop := {
  hi_hash : forall k id, (k, id) ∈ entries s <-> hash_of s id = Some k \/ k ∈ extra s id;
  hi_extra : forall id k, k ∈ extra s id -> is_Some (hash_of s id);
  hi_mapped : forall id k, hash_of s id = Some k -> id ∈ owned s /\ id <> null_block s;
  hi_off : enable_caching s = false -> entries s = ∅;
}.

Definition pool_inv (L : gset Z) (s : pool) : Prop := refs_inv L s /\ hash_inv s.

(** Only hashes, the queue, watchers and the log may differ. *)
Record same_refs (s s' : pool) : Prop := {
  sr_refs : forall id, refs_of s' id = refs_of s id;
  sr_kv : kv_cache_manager s' = kv_cache_manager s;
  sr_caching : enable_caching s' = enable_caching s;
  sr_null : null_block s' = null_block s;
}.

#[local] Instance same_refs_refl : Reflexive same_refs.
Proof. intros s. by split. Qed.
#[local] Instance same_refs_trans : Transitive same_refs.
Proof. intros s1 s2 s3 [] []. split; congruence. Qed.

Lemma same_refs_owned s s' : same_refs s s' -> owned s' = owned s.
Proof. intros Hs. unfold owned. by rewrite (sr_kv _ _ Hs). Qed.
Lemma same_refs_idle s s' id : same_refs s s' -> idle s' id <-> idle s id.
Proof. intros Hs. unfold idle. by rewrite (sr_refs _ _ Hs), (same_refs_owned _ _ Hs). Qed.
Lemma same_refs_held s s' id : same_refs s s' -> held s id -> held s' id.
Proof. intros Hs. unfold held. by rewrite (sr_refs _ _ Hs), (same_refs_owned _ _ Hs). Qed.

Lemma refs_inv_same L s s' : same_refs s s' -> queued s' = queued s -> refs_inv L s -> refs_inv L s'.
Proof.
  intros Hs Hq [Hn Hno Hnw Hk Hr Hd Hqu Hm Ho]. pose proof (same_refs_owned _ _ Hs) as How.
  split; rewrite ?(sr_null _ _ Hs), ?Hq, ?(sr_caching _ _ Hs), ?How; auto.
  - destruct Hn as [n Hn]. exists n. by rewrite (sr_refs _ _ Hs).
  - intros id n. rewrite (sr_refs _ _ Hs). apply Hno.
  - intros id. rewrite (sr_refs _ _ Hs). apply Hk.
  - intros id n. rewrite (sr_refs _ _ Hs). apply Hr.
  - intros id. rewrite (same_refs_idle _ _ _ Hs). apply Hqu.
  - intros id. rewrite (sr_refs _ _ Hs). apply Hm.
Qed.

(** Two states with the same hashes. *)
Lemma hash_inv_same s s' :
  (forall id, hash_of s' id = hash_of s id) -> entries s' = entries s -> (forall id, extra s' id = extra s id) ->
  null_block s' = null_block s -> enable_caching s' = enable_caching s ->
  (forall id, is_Some (hash_of s id) -> id ∈ owned s -> id ∈ owned s') -> hash_inv s -> hash_inv s'.
Proof.
  intros Hh He Hx Hn Hc Ho HI. split.
  - intros k id. rewrite He, Hh, Hx. apply (hi_hash _ HI).
  - intros id k. rewrite Hx, Hh. apply (hi_extra _ HI).
  - intros id k Hk. rewrite Hh in Hk. rewrite Hn. destruct (hi_mapped _ HI _ _ Hk). split; [apply Ho; eauto|done].
  - rewrite Hc, He. apply (hi_off _ HI).
Qed.

Lemma hash_free_of s id : hash_inv s -> hash_free s id <-> hash_of s id = None /\ extra s id = ∅.
Proof.
  intros HI. split.
  - intros Hf. split; [|apply elem_of_equiv_empty_L]; [destruct (hash_of s id) as [k|] eqn:E; [|done]|intros k Hk]; exfalso; apply (Hf k),
    (hi_hash _ HI); auto.
  - intros [Hh Hx] k Hk. apply (hi_hash _ HI) in Hk as [Hk|Hk]; [congruence|set_solver].
Qed.

Lemma known_block s id : is_Some (refs_of s id) -> exists b, block_cache s !! id = Some b.
Proof. unfold refs_of. intros [x Hx]. destruct (block_cache s !! id); [eauto|done]. Qed.

Lemma refs_of_block s id b : block_cache s !! id = Some b -> refs_of s id = Some (ref_cnt b, is_null b).
Proof. intros Hb. unfold refs_of. by rewrite Hb. Qed.

(** *** Hashes *)

Lemma pop_hashes_entries ks : forall h id, hm_entries (pop_hashes h ks id).1 = hm_entries h ∖ list_to_set ((fun k => (k, id)) <$> ks).
Proof.
  induction ks as [|k ks IH]; intros h id; simpl; [set_solver|].
  destruct (hm_pop h k id) as [h1 hit] eqn:E. specialize (IH h1 id). destruct (pop_hashes h1 ks id) as [h2 removed]. simpl in *.
  rewrite IH. pose proof (hm_pop_entries h k id) as E1. rewrite E in E1. simpl in E1. rewrite E1. set_solver.
Qed.

(** What [remove_cached_block_hashes] leaves. *)
Definition removed_state (s : pool) (id : Z) (b : block) : pool :=
  with_cache (with_hashes s (pop_hashes (cached_block_hash_to_block s) (hashes_of s id b) id).1 (delete id (cached_block_hashes_by_block s)))
    (<[id := reset_hash b]> (block_cache s)).

Lemma remove_run s id b :
  block_cache s !! id = Some b ->
  remove_cached_block_hashes id s = (removed_state s id b, Ok (pop_hashes (cached_block_hash_to_block s) (hashes_of s id b) id).2).
Proof.
  intros Hb. unfold remove_cached_block_hashes, the_block, mbind, method_bind, bind, get. rewrite Hb. simpl.
  unfold removed_state. destruct (pop_hashes _ _ _) as [h removed]. done.
Qed.

Lemma removed_entries s id b k id' :
  hash_inv s -> block_cache s !! id = Some b -> (k, id') ∈ entries (removed_state s id b) <-> (k, id') ∈ entries s /\ id' <> id.
Proof.
  intros HI Hb. unfold entries, removed_state. simpl. rewrite pop_hashes_entries, elem_of_difference, elem_of_list_to_set.
  split.
  - intros [Hk Hn]. split; [done|]. intros ->. apply Hn. apply (hi_hash _ HI) in Hk. unfold hash_of in Hk. rewrite Hb in Hk. simpl in Hk.
    apply list_elem_of_fmap. exists k. split; [done|]. unfold hashes_of. apply elem_of_app.
    destruct Hk as [->|Hk]; [left; simpl; set_solver|right; by apply elem_of_elements].
  - intros [Hk Hne]. split; [done|]. intros (k' & [= -> ->] & _)%list_elem_of_fmap. done.
Qed.

Lemma refs_of_insert s id b id' :
  refs_of (with_cache s (<[id := b]> (block_cache s))) id' = if decide (id' = id) then Some (ref_cnt b, is_null b) else refs_of s id'.
Proof. unfold refs_of. simpl. destruct (decide (id' = id)) as [->|Hne]; [by rewrite lookup_insert_eq|by rewrite lookup_insert_ne]. Qed.

Lemma hash_of_insert s id b id' :
  hash_of (with_cache s (<[id := b]> (block_cache s))) id' = if decide (id' = id) then block_hash b else hash_of s id'.
Proof. unfold hash_of. simpl. destruct (decide (id' = id)) as [->|Hne]; [by rewrite lookup_insert_eq|by rewrite lookup_insert_ne]. Qed.

(** A block object replaced by one with the same count. *)
Lemma same_refs_set s id b b' :
  block_cache s !! id = Some b -> ref_cnt b' = ref_cnt b -> is_null b' = is_null b -> same_refs s (with_cache s (<[id := b']> (block_cache s))).
Proof.
  intros Hb Hr Hn. split; try done. intros id'. rewrite refs_of_insert. destruct (decide _) as [->|]; [|done].
  by rewrite (refs_of_block _ _ _ Hb), Hr, Hn.
Qed.

Lemma removed_refs s id b : block_cache s !! id = Some b -> same_refs s (removed_state s id b).
Proof.
  intros Hb. unfold removed_state. set (s1 := with_hashes s _ _). transitivity s1; [by split|by apply (same_refs_set s1 id b)].
Qed.

Lemma removed_hash_of s id b id' : hash_of (removed_state s id b) id' = if decide (id' = id) then None else hash_of s id'.
Proof. unfold removed_state. set (s1 := with_hashes s _ _). etransitivity; [exact (hash_of_insert s1 id _ id')|by destruct (decide _)]. Qed.

Lemma removed_extra s id b id' : extra (removed_state s id b) id' = if decide (id' = id) then ∅ else extra s id'.
Proof.
  unfold removed_state, extra. simpl. destruct (decide (id' = id)) as [->|Hne]; [by rewrite lookup_delete_eq|by rewrite lookup_delete_ne].
Qed.

Lemma removed_hash_inv s id b : hash_inv s -> block_cache s !! id = Some b -> hash_inv (removed_state s id b).
Proof.
  intros HI Hb. pose proof (removed_refs _ _ _ Hb) as Hs. split.
  - intros k id'. rewrite removed_entries, removed_hash_of, removed_extra by done. rewrite (hi_hash _ HI). destruct (decide _); set_solver.
  - intros id' k. rewrite removed_hash_of, removed_extra. destruct (decide _); [set_solver|apply (hi_extra _ HI)].
  - intros id' k. rewrite removed_hash_of, (same_refs_owned _ _ Hs). destruct (decide _); [done|apply (hi_mapped _ HI)].
  - intros Hc. apply (hi_off _ HI) in Hc. apply elem_of_equiv_empty_L. intros [k id']. rewrite removed_entries by done. rewrite Hc. set_solver.
Qed.

(** A step that only removes hashes. *)
Record sheds (s s' : pool) : Prop := {
  sh_refs : same_refs s s';
  sh_queue : eviction_queue s' = eviction_queue s;
  sh_entries : entries s' ⊆ entries s;
}.

#[local] Instance sheds_refl : Reflexive sheds.
Proof. intros s. by split. Qed.
#[local] Instance sheds_trans : Transitive sheds.
Proof. intros s1 s2 s3 [] []. split; [etransitivity; eassumption|congruence|set_solver]. Qed.

Lemma sheds_queued s s' : sheds s s' -> queued s' = queued s.
Proof. intros Hs. unfold queued. by rewrite (sh_queue _ _ Hs). Qed.
Lemma sheds_hash_free s s' id : sheds s s' -> hash_free s id -> hash_free s' id.
Proof. intros Hs Hf k Hk. apply (Hf k). by apply (sh_entries _ _ Hs). Qed.
Lemma sheds_inv L s s' : sheds s s' -> hash_inv s' -> pool_inv L s -> pool_inv L s'.
Proof. intros Hs Hh [HR _]. split; [|done]. eapply refs_inv_same; [apply (sh_refs _ _ Hs)|by apply sheds_queued|done]. Qed.

Lemma wp_remove s id b :
  hash_inv s -> block_cache s !! id = Some b ->
  wp (remove_cached_block_hashes id) s
    (fun ks s' => hash_inv s' /\ sheds s s' /\ hash_free s' id /\ (forall k id', id' <> id -> (k, id') ∈ entries s' <-> (k, id') ∈ entries s)
       /\ (enable_caching s = false -> ks = [])) never.
Proof.
  intros HI Hb. unfold wp. rewrite (remove_run _ _ _ Hb). split_and!.
  - by apply removed_hash_inv.
  - split; [by apply removed_refs|done|]. intros [k id']. rewrite removed_entries by done. tauto.
  - intros k. rewrite removed_entries by done. tauto.
  - intros k id' Hne. rewrite removed_entries by done. tauto.
  - intros Hc. pose proof (hi_off _ HI Hc) as He. unfold entries in He. revert He. generalize (cached_block_hash_to_block s) as h.
    induction (hashes_of s id b) as [|k ks IH]; intros h He; simpl; [done|].
    pose proof (hm_pop_hit h k id) as Hhit. pose proof (hm_pop_entries h k id) as Hent. destruct (hm_pop h k id) as [h1 hit]. simpl in *.
    specialize (IH h1). destruct (pop_hashes h1 ks id) as [h2 removed]. simpl in *. rewrite He in *.
    destruct hit; [exfalso; set_solver|]. apply IH. set_solver.
Qed.

Lemma wp_evict_hash s id b :
  hash_inv s -> block_cache s !! id = Some b ->
  wp (evict_hash id) s (fun _ s' => hash_inv s' /\ sheds s s' /\ hash_free s' id) never.
Proof. intros HI Hb. eapply wp_then; [by apply (wp_remove s id b)|]. intros ks s' (? & ? & ? & _). done. Qed.

Lemma wp_notify_reuse s id : hash_inv s -> wp (notify_reuse id) s (fun _ s' => hash_inv s' /\ sheds s s') never.
Proof.
  intros HI. unfold wp, notify_reuse, modify. destruct (dict_get _ _); [|done].
  split; [|by split]. by apply (hash_inv_same s).
Qed.

Lemma map_contains_sound h k id : map_contains h k id = true -> (k, id) ∈ hm_entries h.
Proof.
  unfold map_contains. destruct has_contain; [apply hm_contain_spec|]. intros Hb%bool_decide_eq_true. by apply get_one_block_Some.
Qed.

(** The state [insert_block_hash] leaves when it has something to do. *)
Definition inserted_state (s : pool) (id : Z) (b : block) (k : K) (num_tokens : option Z) : pool :=
  let s1 := match block_hash b with
            | None => with_cache s (<[id := set_block_hash b k num_tokens]> (block_cache s))
            | Some _ => with_hashes s (cached_block_hash_to_block s) (<[id := extra s id ∪ {[ k ]}]> (cached_block_hashes_by_block s))
            end in
  with_hashes s1 (hm_insert (cached_block_hash_to_block s1) k id) (cached_block_hashes_by_block s1).

Lemma insert_run s id b k nt :
  block_cache s !! id = Some b ->
  insert_block_hash k id nt s =
    (if bool_decide (block_hash b = Some k) || map_contains (cached_block_hash_to_block s) k id then s else inserted_state s id b k nt, Ok tt).
Proof.
  intros Hb. unfold insert_block_hash, the_block, mbind, method_bind, bind, get. rewrite Hb. simpl.
  destruct (_ || _); [done|]. unfold inserted_state. by destruct (block_hash b).
Qed.

Lemma inserted_refs s id b k nt : block_cache s !! id = Some b -> same_refs s (inserted_state s id b k nt).
Proof.
  intros Hb. unfold inserted_state. destruct (block_hash b); [by split|].
  etransitivity; [by apply (same_refs_set s id b (set_block_hash b k nt))|by split].
Qed.

Lemma inserted_entries s id b k nt : entries (inserted_state s id b k nt) = entries s ∪ {[ (k, id) ]}.
Proof. unfold inserted_state, entries. destruct (block_hash b); simpl; by rewrite hm_insert_entries. Qed.

Lemma inserted_hash_of s id b k nt id' :
  block_cache s !! id = Some b ->
  hash_of (inserted_state s id b k nt) id' = if decide (id' = id) then Some (default k (block_hash b)) else hash_of s id'.
Proof.
  intros Hb. unfold inserted_state. destruct (block_hash b) as [k0|] eqn:E.
  - unfold hash_of. simpl. destruct (decide _) as [->|]; [by rewrite Hb|done].
  - transitivity (hash_of (with_cache s (<[id:=set_block_hash b k nt]> (block_cache s))) id'); [done|]. by rewrite hash_of_insert.
Qed.

Lemma inserted_extra s id b k nt id' :
  extra (inserted_state s id b k nt) id' = if decide (id' = id /\ is_Some (block_hash b)) then extra s id ∪ {[ k ]} else extra s id'.
Proof.
  unfold inserted_state, extra. destruct (block_hash b); simpl.
  - destruct (decide _) as [[-> _]|Hn]; [by rewrite lookup_insert_eq|].
    rewrite lookup_insert_ne; [done|]. intros ->. apply Hn. eauto.
  - destruct (decide _) as [[_ Hn]|]; [by apply is_Some_None in Hn|done].
Qed.

Lemma inserted_hash_inv s id b k nt :
  hash_inv s -> block_cache s !! id = Some b -> id ∈ owned s -> id <> null_block s -> enable_caching s = true ->
  hash_inv (inserted_state s id b k nt).
Proof.
  intros HI Hb Ho Hn Hc. pose proof (inserted_refs s id b k nt Hb) as Hs.
  assert (Hh : hash_of s id = block_hash b) by (unfold hash_of; by rewrite Hb).
  assert (Hx : block_hash b = None -> extra s id = ∅).
  { intros Hb0. apply set_eq. intros k'. split; [|set_solver]. intros Hk. apply (hi_extra _ HI) in Hk. rewrite Hh, Hb0 in Hk. by destruct Hk. }
  split.
  - intros k' id'. rewrite inserted_entries, inserted_hash_of, inserted_extra by done. rewrite elem_of_union, (hi_hash _ HI).
    destruct (decide (id' = id)) as [->|Hne]; [|rewrite decide_False by tauto; set_solver]. rewrite Hh.
    destruct (block_hash b) as [k0|] eqn:E; simpl; [rewrite decide_True by eauto|rewrite decide_False by (intros [_ []%is_Some_None]);
    rewrite Hx by done]; set_solver.
  - intros id' k'. rewrite inserted_hash_of, inserted_extra by done. destruct (decide (id' = id)) as [->|Hne]; [eauto|].
    rewrite decide_False by tauto. apply (hi_extra _ HI).
  - intros id' k'. rewrite inserted_hash_of, (same_refs_owned _ _ Hs), (sr_null _ _ Hs) by done.
    destruct (decide (id' = id)) as [->|Hne]; [done|apply (hi_mapped _ HI)].
  - rewrite (sr_caching _ _ Hs). congruence.
Qed.

(** A step that only changes hashes. *)
Definition rehash (s s' : pool) : Prop := same_refs s s' /\ eviction_queue s' = eviction_queue s.

Lemma sheds_rehash s s' : sheds s s' -> rehash s s'.
Proof. intros []. by split. Qed.
Lemma rehash_inv L s s' : rehash s s' -> hash_inv s' -> pool_inv L s -> pool_inv L s'.
Proof. intros [Hs Hq] Hh [HR _]. split; [|done]. eapply refs_inv_same; [done|unfold queued; by rewrite Hq|done]. Qed.
#[local] Instance rehash_trans : Transitive rehash.
Proof. intros s1 s2 s3 [] []. split; [etransitivity; eassumption|congruence]. Qed.
#[local] Instance rehash_refl : Reflexive rehash.
Proof. intros s. by split. Qed.

Lemma wp_insert s id b k nt :
  hash_inv s -> block_cache s !! id = Some b -> id ∈ owned s -> id <> null_block s -> enable_caching s = true ->
  wp (insert_block_hash k id nt) s (fun _ s' => hash_inv s' /\ rehash s s' /\ entries s' = entries s ∪ {[ (k, id) ]}) never.
Proof.
  intros HI Hb Ho Hn Hc. unfold wp. rewrite (insert_run _ _ _ _ _ Hb). destruct (_ || _) eqn:E.
  - split; [done|split; [done|]]. assert ((k, id) ∈ entries s); [|set_solver].
    apply orb_true_iff in E as [E%bool_decide_eq_true|E]; [|by apply map_contains_sound].
    apply (hi_hash _ HI). left. unfold hash_of. by rewrite Hb.
  - split_and!; [by apply inserted_hash_inv| |apply inserted_entries]. split; [by apply inserted_refs|].
    unfold inserted_state. by destruct (block_hash b).
Qed.

(** *** Counts and the queue *)

(** A step that changes the count of one block and perhaps hashes. *)
Record recount (id : Z) (r : Z * bool) (s s' : pool) : Prop := {
  rc_refs : forall id', refs_of s' id' = if decide (id' = id) then Some r else refs_of s id';
  rc_kv : kv_cache_manager s' = kv_cache_manager s;
  rc_caching : enable_caching s' = enable_caching s;
  rc_null : null_block s' = null_block s;
  rc_queue : eviction_queue s' = eviction_queue s;
}.

Lemma recount_set s id b : recount id (ref_cnt b, is_null b) s (with_cache s (<[id := b]> (block_cache s))).
Proof. split; try done. intros id'. apply refs_of_insert. Qed.

Lemma recount_sheds id r s1 s2 s3 : recount id r s1 s2 -> sheds s2 s3 -> recount id r s1 s3.
Proof. intros [] [[] ? _]. split; try congruence. intros id'. rewrite sr_refs0. auto. Qed.

Lemma sheds_recount id r s1 s2 s3 : sheds s1 s2 -> recount id r s2 s3 -> recount id r s1 s3.
Proof. intros [[] ? _] []. split; try congruence. intros id'. rewrite rc_refs0, sr_refs0. done. Qed.

Lemma recount_owned id r s s' : recount id r s s' -> owned s' = owned s.
Proof. intros Hr. unfold owned. by rewrite (rc_kv _ _ _ _ Hr). Qed.
Lemma recount_queued id r s s' : recount id r s s' -> queued s' = queued s.
Proof. intros Hr. unfold queued. by rewrite (rc_queue _ _ _ _ Hr). Qed.

(** The new place of a mapped block that is not queued and whose count becomes [n]. *)
Definition placed (L : gset Z) (id n : Z) : gset Z := if decide (n = 0) then {[ id ]} ∪ L else L ∖ {[ id ]}.

Lemma refs_inv_recount L id n s s' :
  refs_inv L s -> recount id (n, false) s s' -> id ∈ owned s -> id <> null_block s -> id ∉ queued s -> 0 <= n -> refs_inv (placed L id n) s'.
Proof.
  intros HR Hc Ho Hn Hq Hpos. pose proof (rc_refs _ _ _ _ Hc) as Hrc.
  assert (Hpl : forall id', id' <> id -> id' ∈ placed L id n <-> id' ∈ L) by (intros id' ?; unfold placed; destruct (decide _); set_solver).
  assert (Hpid : id ∈ placed L id n <-> n = 0) by (unfold placed; destruct (decide _); set_solver).
  split; rewrite ?(rc_null _ _ _ _ Hc), ?(recount_owned _ _ _ _ Hc), ?(recount_queued _ _ _ _ Hc), ?(rc_caching _ _ _ _ Hc).
  - destruct (ri_null _ _ HR) as [m Hm]. exists m. by rewrite Hrc, decide_False.
  - intros id' m. rewrite Hrc. destruct (decide _); [done|apply (ri_null_only _ _ HR)].
  - apply (ri_null_owned _ _ HR).
  - intros id' Ho' Hp. rewrite Hrc. destruct (decide _); [eauto|]. apply (ri_known _ _ HR); [done|]. by rewrite <- Hpl.
  - intros id' m. rewrite Hrc. destruct (decide _) as [->|]; [|apply (ri_refs _ _ HR)]. intros [= ->]. auto.
  - apply (ri_nodup _ _ HR).
  - intros id'. unfold idle. rewrite Hrc, (recount_owned _ _ _ _ Hc). destruct (decide _) as [->|Hne].
    + split; [done|]. intros [[[= ->] _] Hp]. exfalso. by apply Hp, Hpid.
    + rewrite Hpl by done. apply (ri_queue _ _ HR).
  - intros id' Hp. rewrite Hrc. destruct (decide _) as [->|Hne]; [|by apply (ri_moving _ _ HR), Hpl].
    apply Hpid in Hp as ->. auto.
  - apply (ri_off _ _ HR).
Qed.

(** The count of the null block means nothing. *)
Lemma refs_inv_recount_null L n s s' : refs_inv L s -> recount (null_block s) (n, true) s s' -> refs_inv L s'.
Proof.
  intros HR Hc. pose proof (rc_refs _ _ _ _ Hc) as Hrc. destruct (ri_null _ _ HR) as [m Hm].
  split; rewrite ?(rc_null _ _ _ _ Hc), ?(recount_owned _ _ _ _ Hc), ?(recount_queued _ _ _ _ Hc), ?(rc_caching _ _ _ _ Hc).
  - exists n. by rewrite Hrc, decide_True.
  - intros id' m'. rewrite Hrc. destruct (decide _); [done|apply (ri_null_only _ _ HR)].
  - apply (ri_null_owned _ _ HR).
  - intros id' Ho' Hp. rewrite Hrc. destruct (decide _); [eauto|]. by apply (ri_known _ _ HR).
  - intros id' m'. rewrite Hrc. destruct (decide _) as [->|]; [done|apply (ri_refs _ _ HR)].
  - apply (ri_nodup _ _ HR).
  - intros id'. rewrite (ri_queue _ _ HR id'). unfold idle. rewrite Hrc, (recount_owned _ _ _ _ Hc).
    destruct (decide _) as [->|Hne]; [|done]. rewrite Hm. split; intros [[? _] _]; done.
  - intros id' Hp. rewrite Hrc. destruct (decide _) as [->|Hne]; [|by apply (ri_moving _ _ HR)].
    destruct (ri_moving _ _ HR _ Hp) as [_ [?|?]]; congruence.
  - apply (ri_off _ _ HR).
Qed.

(** Replacing a block object by one with the same hash. *)
Lemma hash_inv_set s id b b' :
  hash_inv s -> block_cache s !! id = Some b -> block_hash b' = block_hash b -> hash_inv (with_cache s (<[id := b']> (block_cache s))).
Proof.
  intros HI Hb Hh. apply (hash_inv_same s); try done. intros id'. rewrite hash_of_insert.
  destruct (decide _) as [->|]; [|done]. unfold hash_of. by rewrite Hb.
Qed.

Lemma dequeued_inv L s id q' :
  pool_inv L s -> id ∈ queued s -> NoDup (q_items q') -> (forall id', id' ∈ q_items q' <-> id' ∈ queued s /\ id' <> id) ->
  pool_inv ({[ id ]} ∪ L) (with_queue s q').
Proof.
  intros [HR HH] Hid Hnd Hq. pose proof (ri_queue _ _ HR) as Hqu. assert (Hi : idle s id /\ id ∉ L) by (by apply Hqu).
  split; [|by apply (hash_inv_same s)].
  split; unfold queued; simpl; try apply HR; try done.
  - intros id' Ho Hp. apply (ri_known _ _ HR); [done|]. intros Hp'. by apply Hp, elem_of_union_r.
  - intros id'. rewrite Hq, Hqu. change (idle (with_queue s q') id') with (idle s id').
    rewrite not_elem_of_union, not_elem_of_singleton. tauto.
  - intros id' [->%elem_of_singleton|Hp]%elem_of_union; [destruct Hi as [[]]; auto|by apply (ri_moving _ _ HR)].
  - intros Hc. apply (ri_off _ _ HR) in Hc. rewrite Hc in Hid. by apply not_elem_of_nil in Hid.
Qed.

Lemma popped_inv L s id l q' :
  pool_inv L s -> queued s = id :: l -> q_items q' = l -> pool_inv ({[ id ]} ∪ L) (with_queue s q').
Proof.
  intros HI Hq Hq'. pose proof (ri_nodup _ _ (proj1 HI)) as Hnd. rewrite Hq in Hnd. apply NoDup_cons in Hnd as [Hid Hnd].
  apply dequeued_inv; rewrite ?Hq'; [done|rewrite Hq; by left|done|]. intros id'. rewrite Hq, elem_of_cons. split; [|by intros [[|] ?]].
  intros Hin. split; [by right|]. by intros ->.
Qed.

Lemma wp_popleft {A} L s id l (f : Z -> method A) Phi E :
  pool_inv L s -> queued s = id :: l ->
  (forall s', pool_inv ({[ id ]} ∪ L) s' -> queued s' = l -> same_refs s s' -> entries s' = entries s -> wp (f id) s' Phi E) ->
  wp (popleft ≫= f) s Phi E.
Proof.
  intros HI Hq Hf. destruct (q_popleft_items _ _ _ Hq) as (q' & Hp & Hq').
  specialize (Hf (with_queue s q') (popped_inv _ _ _ _ _ HI Hq Hq') Hq'). revert Hf.
  unfold wp, popleft, mbind, method_bind, bind, get, lift, modify. rewrite Hp. simpl. intros Hf. apply Hf; [by split|done].
Qed.

Lemma num_queued s : num_free_blocks (eviction_queue s) = length (queued s).
Proof. apply q_num. Qed.

Lemma idle_block L s id : pool_inv L s -> id ∈ queued s -> exists b, block_cache s !! id = Some b.
Proof. intros [HR _] Hq. apply known_block. apply (ri_queue _ _ HR) in Hq as [[-> _] _]. eauto. Qed.

Lemma flush_loop_ok n : forall L s,
  pool_inv L s -> n = length (queued s) ->
  wp (flush_loop n) s (fun ids s' => ids = queued s /\ pool_inv (list_to_set ids ∪ L) s' /\ queued s' = [] /\ same_refs s s'
    /\ entries s' ⊆ entries s /\ (forall id, id ∈ ids -> hash_free s' id)) never.
Proof.
  induction n as [|n IH]; intros L s HI Hn; destruct (queued s) as [|id l] eqn:Hq; try done; simpl.
  - unfold wp, pure. split_and!; try done; [|set_solver]. by rewrite list_to_set_nil, (union_empty_l_L L).
  - injection Hn as Hn. destruct (idle_block L s id HI ltac:(rewrite Hq; set_solver)) as [b Hb].
    apply (wp_popleft L s id l); [exact HI|exact Hq|]. intros s1 HI1 Hq1 Hs1 He1.
    assert (Hb1 : exists b1, block_cache s1 !! id = Some b1) by (apply known_block; rewrite (sr_refs _ _ Hs1), (refs_of_block _ _ _ Hb); eauto).
    destruct Hb1 as [b1 Hb1]. eapply wp_then; [apply (wp_evict_hash s1 id b1); [apply HI1|done]|]. intros _ s2 (Hh2 & Hs2 & Hf2).
    eapply wp_then; [by apply wp_notify_reuse|]. intros _ s3 (Hh3 & Hs3). assert (Hs13 : sheds s1 s3) by (etransitivity; eassumption).
    assert (HI3 : pool_inv ({[id]} ∪ L) s3) by (by eapply sheds_inv).
    eapply wp_then; [apply (IH _ s3 HI3); by rewrite (sheds_queued _ _ Hs13), Hq1|].
    intros ids s4 (-> & HI4 & Hq4 & Hs4 & He4 & Hf4). unfold wp, pure. rewrite (sheds_queued _ _ Hs13), Hq1 in *. split_and!; try done.
    + by rewrite set_cons_move.
    + etransitivity; [exact Hs1|]. etransitivity; [apply (sh_refs _ _ Hs13)|done].
    + etransitivity; [exact He4|]. rewrite <- He1. apply (sh_entries _ _ Hs13).
    + intros id' [->|Hin]%elem_of_cons; [|by apply Hf4]. intros k Hk. apply (sheds_hash_free s2 s3 id Hs3 Hf2 k). by apply He4.
Qed.

(** *** Giving blocks back *)

Lemma kv_freed_owned L s ids :
  refs_inv (list_to_set ids ∪ L) s -> NoDup ids -> owned (with_kv s (kv_free (kv_cache_manager s) ids)) = owned s ∖ list_to_set ids.
Proof.
  intros HR Hnd. unfold owned. simpl. apply kv_free_owned; [done|]. intros id Hid. apply (ri_moving _ _ HR). by apply elem_of_union_l.
Qed.

Lemma kv_freed_inv L s ids :
  pool_inv (list_to_set ids ∪ L) s -> NoDup ids -> (forall id, id ∈ ids -> id ∉ L) -> (forall id, id ∈ ids -> hash_free s id) ->
  pool_inv L (with_kv s (kv_free (kv_cache_manager s) ids)).
Proof.
  intros [HR HH] Hnd HL Hf. pose proof (kv_freed_owned L s ids HR Hnd) as Ho. set (s' := with_kv s _) in *.
  assert (Hmv : forall id, id ∈ ids -> refs_of s id = None \/ refs_of s id = Some (0, false)).
  { intros id Hid. apply (ri_moving _ _ HR). apply elem_of_union_l. by apply elem_of_list_to_set. }
  assert (Hmem : forall id, id ∈ owned s' <-> id ∈ owned s /\ id ∉ ids) by (intros id; rewrite Ho, elem_of_difference, elem_of_list_to_set; done).
  split; [split|].
  - apply (ri_null _ _ HR).
  - apply (ri_null_only _ _ HR).
  - apply Hmem. split; [apply (ri_null_owned _ _ HR)|]. intros Hin. destruct (ri_null _ _ HR) as [n Hn]. destruct (Hmv _ Hin); simpl in *; congruence.
  - intros id [Hi Hni]%Hmem HnL. apply (ri_known _ _ HR); [done|]. rewrite not_elem_of_union, elem_of_list_to_set. done.
  - intros id n Hr. destruct (ri_refs _ _ HR id n Hr) as [Hp Hor]. split; [done|]. rewrite Hmem.
    destruct (decide (id ∈ ids)) as [Hin|]; [|tauto]. right.
    destruct (Hmv _ Hin) as [E|E]; change (refs_of s' id) with (refs_of s id) in Hr; congruence.
  - apply (ri_nodup _ _ HR).
  - intros id. change (queued s') with (queued s). rewrite (ri_queue _ _ HR id). unfold idle. rewrite Hmem, not_elem_of_union, elem_of_list_to_set.
    change (refs_of s' id) with (refs_of s id). tauto.
  - intros id HidL. destruct (ri_moving _ _ HR id) as [Hio Hr]; [by apply elem_of_union_r|]. split; [|done].
    apply Hmem. split; [done|]. intros Hin. by apply (HL id).
  - apply (ri_off _ _ HR).
  - apply (hash_inv_same s); try done. intros id [k Hk] Hio. apply Hmem. split; [done|]. intros Hin.
    apply (Hf id Hin k), (hi_hash _ HH). by left.
Qed.

(** The eviction queue has been emptied into kvcached. *)
Record flushed (s s' : pool) : Prop := {
  fl_refs : forall id, refs_of s' id = refs_of s id;
  fl_queue : queued s' = [];
  fl_owned : owned s' = owned s ∖ list_to_set (queued s);
  fl_caching : enable_caching s' = enable_caching s;
  fl_null : null_block s' = null_block s;
  fl_entries : entries s' ⊆ entries s;
}.

Lemma flush_eviction_queue_ok L s : pool_inv L s -> wp flush_eviction_queue s (fun _ s' => pool_inv L s' /\ flushed s s') never.
Proof.
  intros HI. unfold flush_eviction_queue. apply wp_get. eapply wp_then; [by apply (flush_loop_ok _ L); [|apply num_queued]|].
  intros ids s1 (Hids & HI1 & Hq1 & [] & He1 & Hf1). pose proof (ri_nodup _ _ (proj1 HI)) as Hnd. rewrite <- Hids in Hnd.
  assert (HL : forall id, id ∈ ids -> id ∉ L) by (intros id; rewrite Hids; intros Hid; by apply (ri_queue _ _ (proj1 HI)) in Hid as [_ ?]).
  assert (How : owned s1 = owned s) by (unfold owned; by rewrite sr_kv0).
  destruct ids as [|i ids].
  - unfold wp, pure. rewrite list_to_set_nil, (union_empty_l_L L) in HI1. split; [done|]. split; try done.
    by rewrite How, <- Hids, list_to_set_nil, (difference_empty_L (owned s)).
  - unfold wp, kv_free_ids, modify. split; [by apply kv_freed_inv|]. split; try done.
    rewrite (kv_freed_owned L s1 (i :: ids)), How, Hids; [done|apply HI1|done].
Qed.

Lemma maybe_relieve_pressure_ok L s :
  pool_inv L s ->
  wp maybe_relieve_pressure s (fun _ s' => pool_inv L s' /\
    if bool_decide (available_size (kv_cache_manager s) < pressure_threshold s) then flushed s s' else s' = s) never.
Proof.
  intros HI. unfold maybe_relieve_pressure. apply wp_get. rewrite num_queued. destruct (Nat.eqb_spec (length (queued s)) 0) as [Hz|Hz].
  - unfold wp, pure. split; [done|]. destruct (bool_decide _); [|done]. apply nil_length_inv in Hz. split; try done.
    by rewrite Hz, list_to_set_nil, (difference_empty_L (owned s)).
  - destruct (Z.ltb_spec (available_size (kv_cache_manager s)) (pressure_threshold s)) as [Hlt|Hge].
    + rewrite bool_decide_true by done. by apply flush_eviction_queue_ok.
    + rewrite bool_decide_false by lia. done.
Qed.

Lemma appended_inv L s ids :
  pool_inv (list_to_set ids ∪ L) s -> NoDup ids -> (forall id, id ∈ ids -> id ∉ L) -> (forall id, id ∈ ids -> refs_of s id = Some (0, false)) ->
  enable_caching s = true ->
  let s' := with_queue s (q_append_n (eviction_queue s) ids) in pool_inv L s' /\ queued s' = queued s ++ ids.
Proof.
  intros [HR HH] Hnd HL Hz Hc s'.
  assert (Hdis : forall id, id ∈ queued s -> id ∉ ids).
  { intros id Hq Hin. apply (ri_queue _ _ HR) in Hq as [_ Hn]. apply Hn, elem_of_union_l. by apply elem_of_list_to_set. }
  assert (Hnd' : NoDup (queued s ++ ids)) by (apply NoDup_app; split_and!; [apply (ri_nodup _ _ HR)|done|done]).
  assert (Hq : queued s' = queued s ++ ids) by (by apply q_append_items). split; [|done]. split; [split|by apply (hash_inv_same s)]; try apply HR.
  - intros id Ho HnL. destruct (decide (id ∈ ids)) as [Hin|Hni].
    + change (refs_of s' id) with (refs_of s id). rewrite (Hz id Hin). eauto.
    + apply (ri_known _ _ HR); [done|]. rewrite not_elem_of_union, elem_of_list_to_set. done.
  - by rewrite Hq.
  - intros id. rewrite Hq, elem_of_app, (ri_queue _ _ HR id), not_elem_of_union, elem_of_list_to_set. change (idle s' id) with (idle s id).
    destruct (decide (id ∈ ids)) as [Hin|Hni]; [|tauto]. split; [|tauto]. intros _. split; [|by apply HL].
    split; [by apply Hz|]. apply (ri_moving _ _ HR), elem_of_union_l. by apply elem_of_list_to_set.
  - intros id HidL. apply (ri_moving _ _ HR). by apply elem_of_union_r.
  - simpl. congruence.
Qed.

Lemma append_evictable_ok L s ids :
  pool_inv (list_to_set ids ∪ L) s -> NoDup ids -> (forall id, id ∈ ids -> id ∉ L) -> (forall id, id ∈ ids -> refs_of s id = Some (0, false)) ->
  enable_caching s = true ->
  wp (append_evictable ids) s (fun _ s' => pool_inv L s' /\ (forall id, refs_of s' id = refs_of s id) /\ entries s' ⊆ entries s) never.
Proof.
  intros HI Hnd HL Hz Hc. destruct (appended_inv L s ids) as [HI1 Hq1]; [done..|]. unfold append_evictable. apply wp_modify.
  eapply wp_total; [by apply (maybe_relieve_pressure_ok L)|]. intros _ s2 [HI2 Hd]. split; [done|].
  destruct (bool_decide _); [|subst s2; done]. split; [apply (fl_refs _ _ Hd)|apply (fl_entries _ _ Hd)].
Qed.

(** Evicting the hashes of some blocks, with a further step [k] per block that only removes hashes. *)
Lemma wp_evict_all (body : Z -> method unit) s ids :
  hash_inv s ->
  (forall id s b, hash_inv s -> block_cache s !! id = Some b ->
     wp (body id) s (fun _ s' => hash_inv s' /\ sheds s s' /\ hash_free s' id) never) ->
  (forall id, id ∈ ids -> is_Some (refs_of s id)) ->
  wp (for_each ids body) s (fun _ s' => hash_inv s' /\ sheds s s' /\ (forall id, id ∈ ids -> hash_free s' id)) never.
Proof.
  intros HI Hbody Hk. set (J := fun (rest : list Z) s' => hash_inv s' /\ sheds s s' /\ exists pre, ids = pre ++ rest /\
  forall id, id ∈ pre -> hash_free s' id).
  eapply wp_total; [apply (wp_for_each J)|].
  - split; [done|split; [done|]]. exists []. split; [done|]. intros id Hin. by apply not_elem_of_nil in Hin.
  - intros id rest s1 (HI1 & Hs1 & pre & Hpre & Hf).
    assert (Hb : exists b, block_cache s1 !! id = Some b).
    { apply known_block. rewrite (sr_refs _ _ (sh_refs _ _ Hs1)). apply Hk. rewrite Hpre. apply elem_of_app. right. apply elem_of_cons. by left. }
    destruct Hb as [b Hb]. eapply wp_total; [by apply (Hbody id s1 b)|]. intros _ s2 (HI2 & Hs2 & Hf2).
    split; [done|split; [by etransitivity|]]. exists (pre ++ [id]). split; [by rewrite <- app_assoc|].
    intros id' [Hin| ->%list_elem_of_singleton]%elem_of_app; [|done]. by apply (sheds_hash_free s1 s2), Hf.
  - intros _ s1 (HI1 & Hs1 & pre & Hpre & Hf). rewrite app_nil_r in Hpre. subst pre. done.
Qed.

(** Without caching, released blocks go straight back to kvcached. *)
Lemma release_now_ok L (body : Z -> method unit) s ids :
  (forall id s b, hash_inv s -> block_cache s !! id = Some b ->
     wp (body id) s (fun _ s' => hash_inv s' /\ sheds s s' /\ hash_free s' id) never) ->
  pool_inv (list_to_set ids ∪ L) s -> NoDup ids -> (forall id, id ∈ ids -> id ∉ L) -> (forall id, id ∈ ids -> refs_of s id = Some (0, false)) ->
  wp (for_each ids body;; kv_free_ids ids) s (fun _ s' => pool_inv L s' /\ (forall id, refs_of s' id = refs_of s id) /\ entries s' ⊆ entries s) never.
Proof.
  intros Hbody HI Hnd HL Hz. eapply wp_then; [apply (wp_evict_all body s ids); [apply HI|done|]|].
  - intros id Hin. rewrite (Hz id Hin). eauto.
  - intros _ s1 (HI1 & Hs1 & Hf1). unfold wp, kv_free_ids, modify.
    split; [|split; [apply (sr_refs _ _ (sh_refs _ _ Hs1))|apply (sh_entries _ _ Hs1)]].
    apply kv_freed_inv; [by eapply sheds_inv|done..].
Qed.

(** *** Releasing blocks *)

(** What a caller may free: blocks it holds, each once, and the null block. *)
Definition freeable (s : pool) (blocks : list Z) : Prop :=
  NoDup (filter (fun id => id <> null_block s) blocks) /\ (forall id, id ∈ blocks -> id <> null_block s -> held s id).

Definition last_ref (s : pool) (id : Z) : Prop := refs_of s id = Some (1, false).
#[local] Instance last_ref_dec s id : Decision (last_ref s id).
Proof. unfold last_ref. apply _. Defined.

Lemma set_ref_ok L s id b n :
  pool_inv L s -> block_cache s !! id = Some b -> is_null b = false -> id ∈ owned s -> id ∉ queued s -> 0 <= n ->
  let s' := with_cache s (<[id := with_ref b n]> (block_cache s)) in
  pool_inv (placed L id n) s' /\ recount id (n, false) s s'.
Proof.
  intros [HR HH] Hb Hn Ho Hq Hpos s'. assert (Hrc : recount id (n, false) s s') by (rewrite <- Hn; apply (recount_set s id (with_ref b n))).
  split; [|done]. split; [|by apply (hash_inv_set s id b)]. apply (refs_inv_recount L id n s); try done.
  intros ->. destruct (ri_null _ _ HR) as [m Hm]. rewrite (refs_of_block _ _ _ Hb) in Hm. congruence.
Qed.

Lemma held_block s id : held s id -> exists b, block_cache s !! id = Some b /\ 0 < ref_cnt b /\ is_null b = false /\ id ∈ owned s.
Proof.
  intros (n & Hr & Hn & Ho). unfold refs_of in Hr. destruct (block_cache s !! id) as [b|]; [|done]. injection Hr as <- <-. eauto.
Qed.

Lemma held_not_queued L s id : refs_inv L s -> held s id -> id ∉ queued s /\ id ∉ L.
Proof.
  intros HR (n & Hr & Hn & Ho). split.
  - intros Hq. apply (ri_queue _ _ HR) in Hq as [[Hz _] _]. rewrite Hr in Hz. injection Hz as ->. lia.
  - intros HL. destruct (ri_moving _ _ HR _ HL) as [_ [Hz|Hz]]; rewrite Hr in Hz; [done|]. injection Hz as ->. lia.
Qed.

Lemma held_not_null L s id : refs_inv L s -> held s id -> id <> null_block s.
Proof. intros HR (n & Hr & _) ->. destruct (ri_null _ _ HR) as [m Hm]. congruence. Qed.

Lemma decr_run s id b : block_cache s !! id = Some b -> decr id s = (with_cache s (<[id := with_ref b (ref_cnt b - 1)]> (block_cache s)), Ok tt).
Proof. intros Hb. unfold decr, the_block, mbind, method_bind, bind, get. by rewrite Hb. Qed.

(** Dropping the last reference moves the block to [L]. *)
Lemma decr_held L s id b :
  pool_inv L s -> held s id -> block_cache s !! id = Some b ->
  let s' := with_cache s (<[id := with_ref b (ref_cnt b - 1)]> (block_cache s)) in
  pool_inv (list_to_set (filter (last_ref s) [id]) ∪ L) s' /\ recount id (ref_cnt b - 1, false) s s'.
Proof.
  intros HI Hh Hb s'. destruct (held_block _ _ Hh) as (b' & Hb' & Hp & Hn & Ho). rewrite Hb in Hb'. injection Hb' as <-.
  destruct (held_not_queued _ _ _ (proj1 HI) Hh) as [Hq HL]. destruct (set_ref_ok L s id b (ref_cnt b - 1) HI Hb Hn Ho Hq) as [HI' Hrc]; [lia|].
  split; [|done]. fold s' in HI'. revert HI'. unfold placed. rewrite filter_cons, filter_nil.
  assert (Hl : last_ref s id <-> ref_cnt b - 1 = 0) by (unfold last_ref; rewrite (refs_of_block _ _ _ Hb), Hn; split; [intros [= ?];
  lia|intros ?; do 2 f_equal; lia]).
  destruct (decide (ref_cnt b - 1 = 0)) as [Hz|Hz].
  - rewrite decide_True by tauto. by rewrite list_to_set_cons, list_to_set_nil, (union_empty_r_L {[id]}).
  - rewrite decide_False by tauto. rewrite list_to_set_nil, (union_empty_l_L L). by rewrite (difference_disjoint_L L) by set_solver.
Qed.

(** One iteration of [for block in blocks_list: block.ref_cnt -= 1]. *)
Record decremented (L : gset Z) (id : Z) (blocks : list Z) (s s' : pool) : Prop := {
  de_inv : pool_inv (list_to_set (filter (last_ref s) [id]) ∪ L) s';
  de_null : null_block s' = null_block s;
  de_caching : enable_caching s' = enable_caching s;
  de_entries : entries s' = entries s;
  de_refs : forall x n, refs_of s x = Some (n, false) -> refs_of s' x = Some (if decide (x = id) then n - 1 else n, false);
  de_freeable : freeable s' blocks;
  de_last : forall x, x ∈ blocks -> last_ref s' x <-> last_ref s x;
}.

Lemma decr_null L s id blocks :
  pool_inv L s -> freeable s (id :: blocks) -> id = null_block s -> exists s', decr id s = (s', Ok tt) /\ decremented L id blocks s s'.
Proof.
  intros HI [Hnd Hfree] Hid. destruct (ri_null _ _ (proj1 HI)) as [n Hn]. rewrite <- Hid in Hn. destruct (known_block s id) as [b Hb]; [eauto|].
  pose proof Hn as Hnb. rewrite (refs_of_block _ _ _ Hb) in Hnb. injection Hnb as _ Hnb. rewrite (decr_run _ _ _ Hb).
  set (s1 := with_cache s _). assert (Hrc : recount id (ref_cnt b - 1, true) s s1) by (rewrite <- Hnb; apply (recount_set s id (with_ref b _))).
  assert (Hne : forall x m, refs_of s x = Some (m, false) -> refs_of s1 x = Some (m, false) /\ x <> id).
  { intros x m Hx. assert (x <> id) by (intros ->; congruence). by rewrite (rc_refs _ _ _ _ Hrc), decide_False. }
  exists s1. split; [done|]. split; try done.
  - rewrite filter_none by (intros x ->%list_elem_of_singleton; unfold last_ref; congruence). rewrite list_to_set_nil, (union_empty_l_L L).
    split; [|apply (hash_inv_set s id b); [apply HI|done..]]. rewrite Hid in Hrc. by apply (refs_inv_recount_null L _ s) in Hrc; [|apply HI].
  - intros x m Hx. destruct (Hne x m Hx) as [-> ?]. by rewrite decide_False.
  - rewrite filter_cons, decide_False in Hnd by tauto. split; [done|]. intros x Hx Hxn. destruct (Hfree x) as (m & Hm & ?); [by right|done|].
    exists m. split; [by apply Hne|done].
  - intros x _. unfold last_ref. rewrite (rc_refs _ _ _ _ Hrc). destruct (decide (x = id)) as [->|]; [|done]. split; congruence.
Qed.

Lemma decr_used L s id blocks :
  pool_inv L s -> freeable s (id :: blocks) -> id <> null_block s -> exists s', decr id s = (s', Ok tt) /\ decremented L id blocks s s'.
Proof.
  intros HI [Hnd Hfree] Hid. assert (Hh : held s id) by (apply Hfree; [by left|done]). destruct (held_block _ _ Hh) as (b & Hb & Hp & Hnl & Ho).
  rewrite filter_cons, decide_True in Hnd by done. apply NoDup_cons in Hnd as [Hni Hnd]. rewrite (decr_run _ _ _ Hb).
  destruct (decr_held L s id b HI Hh Hb) as [HI1 Hrc]. set (s1 := with_cache s _) in *.
  assert (Hni' : id ∉ blocks) by (intros Hin; apply Hni, list_elem_of_filter; done).
  assert (Hne : forall x, x <> id -> refs_of s1 x = refs_of s x) by (intros x Hx; by rewrite (rc_refs _ _ _ _ Hrc), decide_False).
  exists s1. split; [done|]. split; try done.
  - intros x m Hx. rewrite (rc_refs _ _ _ _ Hrc). destruct (decide (x = id)) as [->|]; [|done].
    rewrite (refs_of_block _ _ _ Hb) in Hx. by injection Hx as ->.
  - split; [done|]. intros x Hx Hxn. destruct (Hfree x) as (m & Hm & ?); [by right|done|]. exists m. by rewrite Hne by (by intros ->).
  - intros x Hx. unfold last_ref. by rewrite Hne by (by intros ->).
Qed.

Lemma decr_step L s id blocks :
  pool_inv L s -> freeable s (id :: blocks) -> exists s', decr id s = (s', Ok tt) /\ decremented L id blocks s s'.
Proof. intros HI Hf. destruct (decide (id = null_block s)); [by apply decr_null|by apply decr_used]. Qed.

Lemma decr_all_ok blocks : forall L s,
  pool_inv L s -> freeable s blocks ->
  wp (for_each blocks decr) s (fun _ s' =>
    pool_inv (list_to_set (filter (last_ref s) blocks) ∪ L) s' /\ null_block s' = null_block s /\ enable_caching s' = enable_caching s /\
    entries s' = entries s /\ (forall id n, refs_of s id = Some (n, false) -> id ∉ blocks -> refs_of s' id = Some (n, false)) /\
    (forall id n, refs_of s id = Some (n, false) -> id ∈ blocks -> id <> null_block s -> refs_of s' id = Some (n - 1, false))) never.
Proof.
  induction blocks as [|id blocks IH]; intros L s HI Hfree.
  { unfold wp. simpl. split_and!; try done; [by rewrite (union_empty_l_L L)|]. intros id n _ Hin. by apply not_elem_of_nil in Hin. }
  destruct (decr_step _ _ _ _ HI Hfree) as (s1 & Hrun & Hd). simpl. apply wp_bind. unfold wp at 1. rewrite Hrun.
  eapply wp_total; [apply (IH _ s1 (de_inv _ _ _ _ _ Hd) (de_freeable _ _ _ _ _ Hd))|].
  intros _ s2 (HI2 & Hn2 & Hc2 & He2 & Hr2 & Hr2'). rewrite (de_null _ _ _ _ _ Hd) in *. split_and!.
  - rewrite set_filter_cons. by rewrite (filter_ext_elem (last_ref s1) (last_ref s)) in HI2 by apply (de_last _ _ _ _ _ Hd).
  - done.
  - by rewrite Hc2, (de_caching _ _ _ _ _ Hd).
  - by rewrite He2, (de_entries _ _ _ _ _ Hd).
  - intros x n Hx Hni. apply not_elem_of_cons in Hni as [Hxi Hni]. apply Hr2; [|done].
    rewrite (de_refs _ _ _ _ _ Hd x n Hx). by rewrite decide_False.
  - intros x n Hx Hin Hxn. pose proof (de_refs _ _ _ _ _ Hd x n Hx) as Hx1. apply elem_of_cons in Hin. destruct (decide (x = id)) as [->|Hxi].
    + apply Hr2; [done|]. destruct Hfree as [Hnd _]. rewrite filter_cons, decide_True in Hnd by done. apply NoDup_cons in Hnd as [Hni _].
      intros Hin'. apply Hni, list_elem_of_filter. done.
    + apply Hr2'; [done| |done]. by destruct Hin.
Qed.

(** The blocks [free_blocks] finds with a count of zero are those whose last reference went. *)
Lemma freed_last L L' s s1 blocks :
  pool_inv L s -> pool_inv L' s1 -> freeable s blocks -> null_block s1 = null_block s ->
  (forall id n, refs_of s id = Some (n, false) -> id ∈ blocks -> id <> null_block s -> refs_of s1 id = Some (n - 1, false)) ->
  filter (fun id => freed_now s1 id = true) blocks = filter (last_ref s) blocks.
Proof.
  intros HI HI1 Hfree Hn1 Hr1. apply filter_ext_elem. intros id Hin. unfold freed_now, last_ref. destruct (decide (id = null_block s)) as [Hid|Hid].
  - destruct (ri_null _ _ (proj1 HI)) as [m Hm]. destruct (ri_null _ _ (proj1 HI1)) as [m1 Hm1]. rewrite Hn1 in Hm1. rewrite <- Hid in *.
    unfold refs_of in Hm1. destruct (block_cache s1 !! id); [|done]. injection Hm1 as _ ->. rewrite andb_false_r. split; congruence.
  - destruct (proj2 Hfree id Hin Hid) as (n & Hr & Hp & _). pose proof (Hr1 id n Hr Hin Hid) as Hr'. unfold refs_of in Hr'. rewrite Hr.
    destruct (block_cache s1 !! id); [|done]. injection Hr' as -> ->. rewrite andb_true_r, Z.eqb_eq.
    split; [intros; do 2 f_equal; lia|intros [= ->]; done].
Qed.

Lemma last_ref_held L s blocks id :
  pool_inv L s -> freeable s blocks -> id ∈ filter (last_ref s) blocks -> id ∈ blocks /\ id <> null_block s /\ held s id.
Proof.
  intros HI Hf [Hl Hin]%list_elem_of_filter. assert (Hne : id <> null_block s).
  { intros ->. destruct (ri_null _ _ (proj1 HI)) as [m Hm]. unfold last_ref in Hl. congruence. }
  split_and!; [done..|]. by apply Hf.
Qed.

(** Freeing lowers each count by one and keeps the pool well formed; no block gains a hash. *)
Lemma free_blocks_ok L s blocks :
  pool_inv L s -> freeable s blocks ->
  wp (free_blocks blocks) s (fun _ s' => pool_inv L s' /\ entries s' ⊆ entries s /\
    (forall id n, refs_of s id = Some (n, false) -> refs_of s' id = Some (if decide (id ∈ blocks) then n - 1 else n, false))) never.
Proof.
  intros HI Hfree. unfold free_blocks. eapply wp_then; [by apply decr_all_ok|]. intros _ s1 (HI1 & Hn1 & Hc1 & He1 & Hr1 & Hr1'). apply wp_get.
  assert (Hpost : forall id n, refs_of s id = Some (n, false) -> refs_of s1 id = Some (if decide (id ∈ blocks) then n - 1 else n, false)).
  { intros id n Hr. destruct (decide (id ∈ blocks)) as [Hin|Hni]; [|by apply Hr1]. apply Hr1'; [done..|].
    intros ->. destruct (ri_null _ _ (proj1 HI)) as [m Hm]. congruence. }
  rewrite (freed_last L _ s s1 blocks HI HI1 Hfree Hn1 Hr1'). pose proof (last_ref_held L s blocks) as Hlast.
  specialize (fun id => Hlast id HI Hfree).
  assert (Hnd : NoDup (filter (last_ref s) blocks)).
  { eapply NoDup_filter_impl; [apply Hfree|]. intros id Hl ->. destruct (ri_null _ _ (proj1 HI)) as [m Hm]. unfold last_ref in Hl. congruence. }
  assert (Hz : forall id, id ∈ filter (last_ref s) blocks -> refs_of s1 id = Some (0, false)).
  { intros id Hid. destruct (Hlast id Hid) as (Hin & Hne & _). apply list_elem_of_filter in Hid as [Hl _]. by apply (Hr1' id 1). }
  assert (HL : forall id, id ∈ filter (last_ref s) blocks -> id ∉ L).
  { intros id Hid. destruct (Hlast id Hid) as (_ & _ & Hh). by apply (held_not_queued L s id (proj1 HI) Hh). }
  destruct (bool_decide_reflect (length (filter (last_ref s) blocks) = 0%nat)) as [E|E].
  { apply nil_length_inv in E. rewrite E, list_to_set_nil, (union_empty_l_L L) in HI1. unfold wp, pure. by rewrite He1. }
  rewrite <- He1. destruct (enable_caching s1) eqn:Hc.
  - eapply wp_total; [by apply (append_evictable_ok L)|]. intros _ s2 (HI2 & Hr2 & He2). split; [exact HI2|split; [exact He2|]].
    intros id n Hr. rewrite Hr2. by apply Hpost.
  - eapply wp_total; [apply (release_now_ok L evict_hash); [intros; by eapply wp_evict_hash|done..]|].
    intros _ s2 (HI2 & Hr2 & He2). split; [exact HI2|split; [exact He2|]]. intros id n Hr. rewrite Hr2. by apply Hpost.
Qed.

(** *** Unpinning *)

(** What a call of [unpin_blocks] that raises leaves: the pool is well formed, and exactly the
    blocks it had released by then are lost. *)
Definition lost_unpin (blocks : list Z) (s s' : pool) (x : Z) : Prop := x ∈ blocks /\ held s x /\ refs_of s' x = Some (0, false).

Definition interrupted_unpin (blocks : list Z) (L : gset Z) (s : pool) (e : exn) (s' : pool) : Prop :=
  (exists L', pool_inv L' s' /\ (forall x, x ∈ L' <-> x ∈ L \/ lost_unpin blocks s s' x)) /\
  (forall x, x ∉ blocks -> refs_of s' x = refs_of s x) /\ (forall x, is_Some (refs_of s x) -> is_Some (refs_of s' x)).

Lemma held_refs L s x n : pool_inv L s -> refs_of s x = Some (n, false) -> 0 < n -> held s x.
Proof. intros [HR _] Hr Hn. exists n. split_and!; [done..|]. destruct (ri_refs _ _ HR x n Hr) as [_ [?|?]]; [done|lia]. Qed.

(** One block of [unpin_blocks] whose assertion holds. *)
Lemma unpin_one_ok L s id w :
  pool_inv L s -> is_Some (refs_of s id) ->
  wp (unpin_one w id) s (fun r s' => held s id /\ r = bool_decide (last_ref s id) /\ pool_inv (list_to_set (filter (last_ref s) [id]) ∪ L) s' /\
    enable_caching s' = enable_caching s /\ entries s' = entries s /\
    (forall x, refs_of s' x = if decide (x = id) then (fun r => (r.1 - 1, r.2)) <$> refs_of s id else refs_of s x)) (fun _ s' => s' = s).
Proof.
  intros HI Hk. destruct (known_block _ _ Hk) as [b Hb]. unfold unpin_one. apply (wp_the_block _ b); [done|].
  apply wp_require; [done|]. intros [Hp%Z.ltb_lt Hn%negb_true_iff]%andb_true_iff. pose proof (refs_of_block _ _ _ Hb) as Hr. rewrite Hn in Hr.
  assert (Hh : held s id).
  { exists (ref_cnt b). split_and!; [done..|]. destruct (ri_refs _ _ (proj1 HI) id _ Hr) as [_ [?|?]]; [done|lia]. }
  destruct (decr_held L s id b HI Hh Hb) as [[HR1 HH1] Hrc]. apply wp_modify, wp_modify. unfold wp, pure. set (s1 := with_cache s _) in *.
  split_and!; try done.
  - destruct (Z.eqb_spec (ref_cnt b - 1) 0) as [Hz|Hz]; symmetry; [apply bool_decide_eq_true|apply bool_decide_eq_false]; unfold last_ref; rewrite Hr;
      [do 2 f_equal; lia|intros [= ?]; lia].
  - split; [by apply (refs_inv_same _ s1)|by apply (hash_inv_same s1)].
  - intros x. rewrite Hr. exact (rc_refs _ _ _ _ Hrc x).
Qed.

Lemma moving_known L s id : refs_inv L s -> id ∈ L -> is_Some (refs_of s id) -> refs_of s id = Some (0, false).
Proof. intros HR HL [x Hx]. destruct (ri_moving _ _ HR id HL) as [_ [?|?]]; [congruence|done]. Qed.

(** The call that fails changes nothing; the blocks released before it are lost. *)
Lemma interrupted_at L s blocks e : pool_inv L s -> interrupted_unpin blocks L s e s.
Proof.
  intros HI. split; [|done]. exists L. split; [done|]. intros x. split; [by left|]. intros [?|(_ & (n & Hn & Hp & _) & Hz)]; [done|].
  rewrite Hn in Hz. injection Hz as ->. lia.
Qed.

Lemma interrupted_after L s s1 id blocks e s2 :
  pool_inv L s -> held s id -> pool_inv (list_to_set (filter (last_ref s) [id]) ∪ L) s1 ->
  (forall x, refs_of s1 x = if decide (x = id) then (fun r => (r.1 - 1, r.2)) <$> refs_of s id else refs_of s x) ->
  interrupted_unpin blocks (list_to_set (filter (last_ref s) [id]) ∪ L) s1 e s2 -> interrupted_unpin (id :: blocks) L s e s2.
Proof.
  intros HI Hh HI1 Hr1 [(L' & HI2 & HL') [Hout Hk]].
  assert (Hk1 : forall x, is_Some (refs_of s x) -> is_Some (refs_of s1 x)).
  { intros x [y Hy]. rewrite Hr1. destruct (decide (x = id)) as [->|]; [rewrite Hy|]; eauto. }
  assert (Hfil : forall x, x ∈ list_to_set (filter (last_ref s) [id]) ∪ L <-> x = id /\ last_ref s id \/ x ∈ L).
  { intros x. rewrite filter_cons, filter_nil. destruct (decide (last_ref s id)); set_solver. }
  destruct Hh as (m & Hm & Hpos & Ho). assert (Hh : held s id) by (by exists m).
  split; [|split; [|by auto]].
  2: { intros x [Hne Hx]%not_elem_of_cons. rewrite (Hout x Hx), Hr1. by rewrite decide_False. }
  exists L'. split; [done|]. intros x. rewrite HL', Hfil. split.
  - intros [[[-> Hl]|?]|(Hx & (n & Hn & Hp & _) & Hz)]; [right|by left|right].
    + split_and!; [by left|done|]. apply (moving_known L' s2 id (proj1 HI2)); [apply HL'; left; apply Hfil; by left|]. apply Hk, Hk1. eauto.
    + split_and!; [by right| |done]. rewrite Hr1 in Hn. destruct (decide (x = id)) as [->|]; [done|]. by apply (held_refs L s x n).
  - intros [?|([->|Hx]%elem_of_cons & (n & Hn & Hp & _) & Hz)]; [by left; right|..].
    + destruct (decide (last_ref s id)) as [Hl|Hl]; [by left; left|]. assert (Hr : refs_of s1 id = Some (m - 1, false)).
      { rewrite Hr1, decide_True by done. by rewrite Hm. }
      assert (0 < m - 1) by (unfold last_ref in Hl; rewrite Hm in Hl; assert (m <> 1) by congruence; lia).
      destruct (decide (id ∈ blocks)) as [Hb|Hb]; [|rewrite (Hout id Hb), Hr in Hz; injection Hz; lia].
      right. split_and!; [done| |done]. by apply (held_refs _ s1 id (m - 1) HI1).
    + destruct (decide (x = id)) as [->|Hne].
      * destruct (decide (last_ref s id)) as [Hl|Hl]; [by left; left|]. right. split_and!; [done| |done].
        apply (held_refs _ s1 id (m - 1) HI1); [rewrite Hr1, decide_True by done; by rewrite Hm|].
        unfold last_ref in Hl. rewrite Hm in Hl. assert (m <> 1) by congruence. lia.
      * right. split_and!; [done| |done]. apply (held_refs _ s1 x n HI1); [|done]. by rewrite Hr1, decide_False.
Qed.

Lemma unpin_loop_ok w blocks : forall L s,
  pool_inv L s -> (forall id, id ∈ blocks -> is_Some (refs_of s id)) ->
  wp (unpin_loop w blocks) s (fun ids s' => NoDup ids /\ (forall id, id ∈ ids -> id ∉ L) /\ pool_inv (list_to_set ids ∪ L) s' /\
    enable_caching s' = enable_caching s /\ entries s' = entries s /\ (forall id, id ∈ ids -> refs_of s' id = Some (0, false)) /\
    (forall x, is_Some (refs_of s x) -> is_Some (refs_of s' x))) (interrupted_unpin blocks L s).
Proof.
  induction blocks as [|id blocks IH]; intros L s HI Hk; simpl.
  { unfold wp, pure. rewrite list_to_set_nil, (union_empty_l_L L).
    split_and!; try done; [constructor|..]; intros id Hin; by apply not_elem_of_nil in Hin. }
  apply wp_bind. eapply wp_mono; [apply (unpin_one_ok L s id w HI); apply Hk; by left| |].
  2: { intros e s' ->. by apply (interrupted_at L). }
  intros r s1 (Hh & -> & HI1 & Hc1 & He1 & Hr1). apply wp_bind.
  assert (Hk1 : forall x, is_Some (refs_of s x) -> is_Some (refs_of s1 x)).
  { intros x [y Hy]. rewrite Hr1. destruct (decide (x = id)) as [->|]; [rewrite Hy|]; eauto. }
  eapply wp_mono; [apply (IH _ s1 HI1)| |].
  - intros x Hx. apply Hk1, Hk. by right.
  - intros ids s2 (Hnd & HL & HI2 & Hc2 & He2 & Hz2 & Hk2). unfold wp, pure. rewrite filter_cons, filter_nil in *.
    destruct (decide (last_ref s id)) as [Hl|Hl].
    + rewrite bool_decide_true by done. cbv iota. rewrite list_to_set_cons, list_to_set_nil, (union_empty_r_L {[id]}) in HI2.
      rewrite list_to_set_cons, list_to_set_nil, (union_empty_r_L {[id]}) in HL. split_and!; try congruence.
      * apply NoDup_cons. split; [|done]. intros Hin. apply (HL id Hin), elem_of_union_l, elem_of_singleton. done.
      * intros x [->|Hin]%elem_of_cons; [by apply (held_not_queued L s id (proj1 HI))|]. intros Hx. by apply (HL x Hin), elem_of_union_r.
      * by rewrite set_cons_move.
      * intros x [->|Hin]%elem_of_cons; [|by apply Hz2]. apply (moving_known _ s2 id (proj1 HI2)); [set_solver|]. apply Hk2, Hk1, Hk. by left.
      * auto.
    + rewrite bool_decide_false by done. cbv iota. rewrite list_to_set_nil, (union_empty_l_L L) in HL, HI2.
      split_and!; try done; try congruence; auto.
  - intros e s2. apply (interrupted_after L s s1 id blocks); try done.
Qed.

Lemma unpin_blocks_ok L s blocks w :
  pool_inv L s -> (forall id, id ∈ blocks -> is_Some (refs_of s id)) ->
  wp (unpin_blocks blocks w) s (fun _ s' => pool_inv L s') (interrupted_unpin blocks L s).
Proof.
  intros HI Hk. unfold unpin_blocks. apply wp_bind. eapply wp_mono; [by apply unpin_loop_ok| |done].
  intros ids s1 (Hnd & HL & HI1 & Hc1 & He1 & Hz1 & _). apply wp_get. destruct (bool_decide_reflect (length ids = 0%nat)) as [E|E].
  { apply nil_length_inv in E. subst ids. by rewrite list_to_set_nil, (union_empty_l_L L) in HI1. }
  destruct (enable_caching s1) eqn:Hc.
  - eapply wp_total; [by apply (append_evictable_ok L)|]. by intros _ s2 (? & _).
  - eapply wp_total; [apply (release_now_ok L); [|done..]|by intros _ s2 (? & _)].
    intros id s2 b HH Hb. eapply wp_then; [by apply (wp_evict_hash s2 id b)|]. intros _ s3 (HH3 & Hs3 & Hf3).
    eapply wp_total; [by apply wp_notify_reuse|]. intros _ s4 [HH4 Hs4]. split_and!; [done|by etransitivity|by apply (sheds_hash_free s3)].
Qed.

(** *** Using cached blocks again *)

(** What a caller may touch: a block it found in the cache, or one in use. *)
Definition touchable (s : pool) (id : Z) : Prop := id ∈ queued s \/ held s id \/ id = null_block s.

Lemma removed_placed L (id : Z) : id ∉ L -> placed ({[ id ]} ∪ L) id 1 = L.
Proof. intros Hid. unfold placed. rewrite decide_False by done. set_solver. Qed.

Lemma touch_one_ok L s id :
  pool_inv L s -> touchable s id ->
  wp (touch_one id) s (fun _ s' => pool_inv L s' /\ enable_caching s' = enable_caching s /\ entries s' = entries s /\ null_block s' = null_block s /\
    owned s' = owned s /\ (forall x, x ∈ queued s -> x <> id -> x ∈ queued s') /\
    (forall x, refs_of s' x = if decide (x = id) then (fun r => (r.1 + 1, r.2)) <$> refs_of s id else refs_of s x)) never.
Proof.
  intros HI [Hq|[Hh|Hid]].
  - pose proof (proj1 (ri_queue _ _ (proj1 HI) id) Hq) as [[Hr Ho] HL]. destruct (idle_block L s id HI Hq) as [b Hb].
    pose proof Hr as Hrb. rewrite (refs_of_block _ _ _ Hb) in Hrb. injection Hrb as Hz Hn.
    destruct (q_remove_items (eviction_queue s) id (ri_nodup _ _ (proj1 HI)) Hq) as (q' & Hrm & Hq').
    assert (Hmem : forall x, x ∈ q_items q' <-> x ∈ queued s /\ x <> id) by (intros x; rewrite Hq', list_elem_of_filter; tauto).
    assert (HI1 : pool_inv ({[ id ]} ∪ L) (with_queue s q')).
    { apply dequeued_inv; [done..| |done]. rewrite Hq'. apply NoDup_filter, (ri_nodup _ _ (proj1 HI)). }
    unfold wp, touch_one, the_block, mbind, method_bind, bind, get, lift, modify. rewrite Hb. simpl. rewrite Hz, Hn. simpl. rewrite Hrm. simpl.
    destruct (set_ref_ok ({[ id ]} ∪ L) (with_queue s q') id b 1 HI1 Hb Hn Ho) as [HI2 Hrc]; [unfold queued; simpl; rewrite Hmem; tauto|lia|].
    rewrite removed_placed in HI2 by done. split_and!; try done; [intros x Hx Hne; by apply Hmem|].
    intros x. rewrite Hr. apply (rc_refs _ _ _ _ Hrc).
  - destruct (held_block _ _ Hh) as (b & Hb & Hp & Hn & Ho). destruct (held_not_queued L s id (proj1 HI) Hh) as [Hq HL].
    destruct (set_ref_ok L s id b (ref_cnt b + 1) HI Hb Hn Ho Hq) as [HI1 Hrc]; [lia|].
    assert (Hpl : placed L id (ref_cnt b + 1) = L) by (unfold placed; rewrite decide_False by lia; set_solver). rewrite Hpl in HI1.
    unfold wp, touch_one, the_block, mbind, method_bind, bind, get. rewrite Hb. simpl. rewrite (proj2 (Z.eqb_neq _ _)) by lia. simpl.
    split_and!; try done. intros x. rewrite (refs_of_block _ _ _ Hb), Hn. apply (rc_refs _ _ _ _ Hrc).
  - destruct (ri_null _ _ (proj1 HI)) as [n Hr]. rewrite <- Hid in Hr. destruct (known_block s id) as [b Hb]; [eauto|].
    pose proof Hr as Hrb. rewrite (refs_of_block _ _ _ Hb) in Hrb. injection Hrb as Hz Hn.
    unfold wp, touch_one, the_block, mbind, method_bind, bind, get. rewrite Hb. simpl. rewrite Hn, andb_false_r. simpl.
    set (s1 := with_cache s _). assert (Hrc : recount id (ref_cnt b + 1, true) s s1) by (rewrite <- Hn; apply (recount_set s id (with_ref b _))).
    split_and!; try done.
    + split; [|apply (hash_inv_set s id b); [apply HI|done..]]. rewrite Hid in Hrc. by apply (refs_inv_recount_null L _ s) in Hrc; [|apply HI].
    + intros x. rewrite (refs_of_block _ _ _ Hb), Hn. apply (rc_refs _ _ _ _ Hrc).
Qed.

Lemma touch_ok L s blocks :
  pool_inv L s -> (forall id, id ∈ blocks -> touchable s id) -> wp (touch blocks) s (fun _ s' => pool_inv L s' /\ entries s' = entries s) never.
Proof.
  intros HI Ht. unfold touch. apply wp_get. destruct (enable_caching s); simpl; [|done].
  set (J := fun (rest : list Z) s' => (pool_inv L s' /\ entries s' = entries s) /\ forall id, id ∈ rest -> touchable s' id).
  eapply wp_total; [apply (wp_for_each J); [done|]|by intros _ s' [? _]].
  intros id rest s1 [[HI1 He1] Ht1]. eapply wp_total; [apply (touch_one_ok L s1 id HI1); apply Ht1; by left|].
  intros _ s2 (HI2 & _ & He2 & Hn2 & Ho2 & Hq2 & Hr2). split; [by rewrite He2|]. intros x Hx.
  assert (Htx : touchable s1 x) by (apply Ht1; by right). unfold touchable. rewrite Hn2.
  destruct Htx as [Hq|[(n & Hr & Hp & Ho)|Hn]]; [|right; left|auto].
  - destruct (decide (x = id)) as [->|Hne]; [|left; by apply Hq2]. right; left. apply (ri_queue _ _ (proj1 HI1)) in Hq as [[Hr Ho] _].
    exists 1. rewrite Hr2, Hr, Ho2. by rewrite decide_True.
  - destruct (decide (x = id)) as [->|Hne]; [exists (n + 1)|exists n]; rewrite Hr2, Ho2; [rewrite decide_True,
    Hr by done|rewrite decide_False by done];
      (split_and!; [done|lia|done]).
Qed.

(** *** New blocks *)

(** [ids] are handed out: in use once, without a hash; nothing else changes. *)
Record handed_out (ids : list Z) (s s' : pool) : Prop := {
  ho_refs : forall x, refs_of s' x = if decide (x ∈ ids) then Some (1, false) else refs_of s x;
  ho_kv : kv_cache_manager s' = kv_cache_manager s;
  ho_caching : enable_caching s' = enable_caching s;
  ho_null : null_block s' = null_block s;
  ho_entries : entries s' ⊆ entries s;
  ho_free : forall id, id ∈ ids -> hash_free s' id;
}.

Lemma handed_out_nil s : handed_out [] s s.
Proof. split; try done. intros id Hin. by apply not_elem_of_nil in Hin. Qed.

Lemma handed_out_cons id ids s s1 s2 :
  (forall x, refs_of s1 x = if decide (x = id) then Some (1, false) else refs_of s x) -> kv_cache_manager s1 = kv_cache_manager s ->
  enable_caching s1 = enable_caching s -> null_block s1 = null_block s -> entries s1 ⊆ entries s -> hash_free s1 id ->
  handed_out ids s1 s2 -> handed_out (id :: ids) s s2.
Proof.
  intros Hr Hk Hc Hn He Hf [Hr2 Hk2 Hc2 Hn2 He2 Hf2]. split; try congruence.
  - intros x. rewrite Hr2, Hr. destruct (decide (x ∈ ids)), (decide (x = id)), (decide (x ∈ id :: ids)) as [Hi|Hi]; try done;
      first [by apply elem_of_cons in Hi as [|]|exfalso; apply Hi, elem_of_cons; auto].
  - etransitivity; eassumption.
  - intros x [->|Hx]%elem_of_cons; [|by apply Hf2]. intros k Hx. by apply (Hf k), He2.
Qed.

Lemma take_evicted_ok n : forall L s,
  pool_inv L s ->
  wp (take_evicted n) s (fun r s' => r.1 = take n (queued s) /\ r.2 = (n - length (queued s))%nat /\ queued s' = drop n (queued s) /\
    pool_inv L s' /\ handed_out r.1 s s') never.
Proof.
  induction n as [|n IH]; intros L s HI; simpl; [unfold wp, pure; split_and!; try done; apply handed_out_nil|].
  apply wp_get. rewrite num_queued. destruct (queued s) as [|id l] eqn:Hq; simpl.
  { unfold wp, pure. split_and!; try done. apply handed_out_nil. }
  apply (wp_popleft L s id l); [done..|]. intros s1 HI1 Hq1 Hs1 He1.
  assert (Hi : idle s id /\ id ∉ L) by (apply (ri_queue _ _ (proj1 HI)); rewrite Hq; by left). destruct Hi as [[Hr Ho] HL].
  assert (Hr1 : refs_of s1 id = Some (0, false)) by (by rewrite (sr_refs _ _ Hs1)). destruct (known_block s1 id) as [b1 Hb1]; [eauto|].
  apply wp_bind. eapply wp_then; [apply (wp_remove s1 id b1); [apply HI1|done]|]. intros ks s2 (HH2 & Hs2 & Hf2 & _). unfold wp at 1, pure.
  assert (HI2 : pool_inv ({[ id ]} ∪ L) s2) by (by eapply sheds_inv). pose proof Hr1 as Hr2. rewrite <- (sr_refs _ _ (sh_refs _ _ Hs2)) in Hr2.
  destruct (known_block s2 id) as [b2 Hb2]; [eauto|]. pose proof Hr2 as Hrb. rewrite (refs_of_block _ _ _ Hb2) in Hrb. injection Hrb as Hz Hn.
  destruct (set_ref_ok ({[ id ]} ∪ L) s2 id b2 1 HI2 Hb2 Hn) as [HI3 Hrc]; [| |lia|].
  { by rewrite (same_refs_owned _ _ (sh_refs _ _ Hs2)), (same_refs_owned _ _ Hs1). }
  { rewrite (sheds_queued _ _ Hs2). intros Hin. apply (ri_queue _ _ (proj1 HI1)) in Hin as [_ Hin].
    apply Hin, elem_of_union_l, elem_of_singleton. done. }
  rewrite removed_placed in HI3 by done. unfold set_ref at 1. apply wp_bind, (wp_the_block _ b2); [done|]. unfold wp at 1, set_block, modify.
  set (s3 := with_cache s2 _) in *. eapply wp_then; [apply wp_notify_reuse, HI3|]. intros _ s4 [HH4 Hs4].
  assert (HI4 : pool_inv L s4) by (by eapply sheds_inv). eapply wp_then; [by apply (IH L s4)|].
  assert (Hq4 : queued s4 = l) by (rewrite (sheds_queued _ _ Hs4), (recount_queued _ _ _ _ Hrc), (sheds_queued _ _ Hs2); done).
  intros [ids rem] s5 (Hids & Hrem & Hq5 & HI5 & Hho). rewrite Hq4 in *. simpl in *. unfold wp, pure. subst ids rem. split_and!; try done.
  assert (Hall : recount id (1, false) s1 s4) by (eapply recount_sheds; [by eapply sheds_recount|done]).
  eapply handed_out_cons; [..|exact Hho].
  - intros x. rewrite (rc_refs _ _ _ _ Hall). destruct (decide _); [done|apply (sr_refs _ _ Hs1)].
  - by rewrite (rc_kv _ _ _ _ Hall), (sr_kv _ _ Hs1).
  - by rewrite (rc_caching _ _ _ _ Hall), (sr_caching _ _ Hs1).
  - by rewrite (rc_null _ _ _ _ Hall), (sr_null _ _ Hs1).
  - rewrite <- He1. etransitivity; [apply (sh_entries _ _ Hs4)|]. apply (sh_entries _ _ Hs2).
  - intros k Hk. by apply (Hf2 k), (sh_entries _ _ Hs4).
Qed.

Lemma alloc_inv L s n m ids :
  pool_inv L s -> kv_alloc (kv_cache_manager s) n = (m, Some ids) ->
  let s' := with_kv s m in
  pool_inv (list_to_set ids ∪ L) s' /\ NoDup ids /\ (length ids <= n)%nat /\ (forall id, id ∈ ids -> id ∉ owned s) /\
  owned s' = owned s ∪ list_to_set ids /\ (forall id, id ∈ ids -> hash_free s' id).
Proof.
  intros [HR HH] Ha s'. destruct (kv_alloc_owned _ _ _ _ Ha) as (Hnd & Hlen & Hdis & Hown). fold (owned s) in Hdis, Hown.
  change (kv_owned m) with (owned s') in Hown.
  assert (Hnew : forall id, id ∈ ids -> id ∉ owned s) by (intros id Hin Ho; apply (Hdis id); [by apply elem_of_list_to_set|done]).
  assert (Hmem : forall id, id ∈ owned s' <-> id ∈ owned s \/ id ∈ ids) by (intros id; by rewrite Hown, elem_of_union, elem_of_list_to_set).
  assert (Hz : forall id, id ∈ ids -> refs_of s id = None \/ refs_of s id = Some (0, false)).
  { intros id Hin. destruct (refs_of s id) as [[c []]|] eqn:E; [|right|by left].
    - exfalso. apply (Hnew id Hin). rewrite (ri_null_only _ _ HR id c E). apply (ri_null_owned _ _ HR).
    - destruct (ri_refs _ _ HR id c E) as [_ [Ho| ->]]; [exfalso; by apply (Hnew id)|done]. }
  assert (Hf : forall id, id ∈ ids -> hash_free s id).
  { intros id Hin k Hk. apply (Hnew id Hin). apply (hi_hash _ HH) in Hk as [Hk|Hk]; [by apply (hi_mapped _ HH) in Hk as [? _]|].
    apply (hi_extra _ HH) in Hk as [k' Hk]. by apply (hi_mapped _ HH) in Hk as [? _]. }
  split_and!; try done. split; [split|]; try apply HR.
  - apply Hmem. left. apply (ri_null_owned _ _ HR).
  - intros id [Ho|Hin]%Hmem Hnot; rewrite not_elem_of_union, elem_of_list_to_set in Hnot; [|tauto]. apply (ri_known _ _ HR); tauto.
  - intros id c Hr. destruct (ri_refs _ _ HR id c Hr) as [Hp Hor]. split; [done|]. rewrite Hmem. tauto.
  - intros id. change (queued s') with (queued s). rewrite (ri_queue _ _ HR id), not_elem_of_union, elem_of_list_to_set. unfold idle. rewrite Hmem.
    change (refs_of s' id) with (refs_of s id). pose proof (Hnew id). tauto.
  - intros id [Hin%elem_of_list_to_set|HidL]%elem_of_union; rewrite Hmem; [split; [by right|by apply Hz]|].
    destruct (ri_moving _ _ HR id HidL). split; [by left|done].
  - apply (hash_inv_same s); try done. intros id _ Ho. apply Hmem. by left.
Qed.

Definition fresh_state (s : pool) (id : Z) : pool :=
  with_cache s (<[id := match block_cache s !! id with Some b => with_ref (reset_hash b) 1 | None => Block 1 None None false end]> (block_cache s)).

(** A block object made ready for its first use since the allocation. *)
Lemma fresh_state_ok L s id :
  pool_inv ({[ id ]} ∪ L) s -> id ∉ L -> hash_free s id ->
  pool_inv L (fresh_state s id) /\ recount id (1, false) s (fresh_state s id).
Proof.
  intros [HR HH] HL Hf. destruct (ri_moving _ _ HR id) as [Ho Hz]; [set_solver|]. unfold fresh_state.
  set (b := match block_cache s !! id with Some b => _ | None => _ end).
  assert (Hb : ref_cnt b = 1 /\ is_null b = false /\ block_hash b = None).
  { unfold b. revert Hz. unfold refs_of. destruct (block_cache s !! id); simpl; [|done]. intros [?|[= _ ->]]; done. }
  destruct Hb as (Hb1 & Hb2 & Hb3). apply (hash_free_of s id HH) in Hf as [Hh Hx].
  assert (Hrc : recount id (1, false) s (with_cache s (<[id := b]> (block_cache s)))) by (rewrite <- Hb1, <- Hb2; apply recount_set).
  split; [|done]. split.
  - rewrite <- (removed_placed L id HL). apply (refs_inv_recount _ _ _ s); try done.
    + intros ->. destruct (ri_null _ _ HR) as [m Hm]. destruct Hz; congruence.
    + intros Hq. apply (ri_queue _ _ HR) in Hq as [_ Hn]. apply Hn, elem_of_union_l, elem_of_singleton. done.
  - apply (hash_inv_same s); try done. intros x. rewrite hash_of_insert. destruct (decide _) as [->|]; congruence.
Qed.

Lemma fresh_blocks_ok ids : forall L s,
  pool_inv (list_to_set ids ∪ L) s -> NoDup ids -> (forall id, id ∈ ids -> id ∉ L) -> (forall id, id ∈ ids -> hash_free s id) ->
  wp (for_each ids fresh_block) s (fun _ s' => pool_inv L s' /\ handed_out ids s s' /\ queued s' = queued s) never.
Proof.
  induction ids as [|id ids IH]; intros L s HI Hnd HL Hf.
  { rewrite list_to_set_nil, (union_empty_l_L L) in HI. unfold wp. simpl. split_and!; try done. }
  apply NoDup_cons in Hnd as [Hni Hnd]. simpl. apply wp_bind. unfold fresh_block at 1. apply wp_get, wp_modify.
  change (with_cache s _) with (fresh_state s id).
  destruct (fresh_state_ok (list_to_set ids ∪ L) s id) as [HI1 Hrc].
  { by rewrite set_cons_move, (union_assoc_L (list_to_set ids)), (union_comm_L (list_to_set ids)), <- (union_assoc_L {[id]}) in HI. }
  { rewrite not_elem_of_union, elem_of_list_to_set. split; [done|]. apply HL. by left. }
  { apply Hf. by left. }
  eapply wp_total; [apply wp_notify_reuse, HI1|]. intros _ s2 [HH2 Hs2]. assert (HI2 : pool_inv (list_to_set ids ∪ L) s2) by (by eapply sheds_inv).
  assert (He : entries s2 ⊆ entries s) by apply (sh_entries _ _ Hs2).
  assert (Hf2 : forall x, hash_free s x -> hash_free s2 x) by (intros x Hx k Hk; by apply (Hx k), He).
  eapply wp_total; [apply (IH L s2 HI2 Hnd)|].
  - intros x Hx. apply HL. by right.
  - intros x Hx. apply Hf2, Hf. by right.
  - pose proof (recount_sheds _ _ _ _ _ Hrc Hs2) as [Hr Hk Hc Hn Hq]. intros _ s3 (HI3 & Hho & Hq3).
    split_and!; [done| |rewrite Hq3; unfold queued; by rewrite Hq].
    eapply handed_out_cons; [..|exact Hho]; try done. apply Hf2, Hf. by left.
Qed.

(** Handed out blocks are really new to the caller. *)
Lemma handed_out_new L s s' ids id : pool_inv L s' -> handed_out ids s s' -> id ∈ ids -> refs_of s' id = Some (1, false) /\ held s' id.
Proof.
  intros [HR _] Hho Hin. assert (Hr : refs_of s' id = Some (1, false)) by (by rewrite (ho_refs _ _ _ Hho), decide_True).
  split; [done|]. exists 1. split_and!; [done..|]. destruct (ri_refs _ _ HR id 1 Hr) as [_ [?|?]]; done.
Qed.

(** What [get_new_blocks] returns. *)
Record new_blocks (n : nat) (ids : list Z) (s s' : pool) : Prop := {
  nb_length : length ids = n;
  nb_nodup : NoDup ids;
  nb_new : forall id, id ∈ ids -> ~ held s id /\ id <> null_block s;
  nb_held : forall id, id ∈ ids -> refs_of s' id = Some (1, false) /\ held s' id /\ hash_free s' id;
  nb_others : forall id, id ∉ ids -> refs_of s' id = refs_of s id;
}.

(** The blocks taken from the queue before kvcached refused are in use, but nobody has them;
    what kvcached gave is unknown to the pool. *)
Record leaked (taken given : list Z) (s s' : pool) : Prop := {
  lk_taken : forall id, id ∈ taken -> refs_of s' id = Some (1, false) /\ held s' id /\ ~ held s id;
  lk_given : forall id, id ∈ given -> id ∈ owned s' /\ id ∉ owned s;
  lk_owned : owned s' = owned s ∪ list_to_set given;
  lk_queue : queued s' = [];
}.

Definition not_available (n : nat) (s : pool) : Prop := get_num_free_blocks s < Z.of_nat n.

(** The two sources of blocks, joined. *)
Lemma take_or_none_ok L s n :
  pool_inv L s ->
  wp (if enable_caching s then take_evicted n else pure ([], n)) s (fun r s' => r.1 = take n (queued s) /\ r.2 = (n - length (queued s))%nat /\
    queued s' = drop n (queued s) /\ pool_inv L s' /\ handed_out r.1 s s') never.
Proof.
  intros HI. destruct (enable_caching s) eqn:Hc; [by apply take_evicted_ok|]. rewrite (ri_off _ _ (proj1 HI) Hc).
  unfold wp, pure. rewrite take_nil, drop_nil, Nat.sub_0_r. split_and!; try done; [apply (ri_off _ _ (proj1 HI) Hc)|apply handed_out_nil].
Qed.

Lemma queued_not_held L s id : pool_inv L s -> id ∈ queued s -> ~ held s id /\ id <> null_block s.
Proof.
  intros [HR _] Hq. split; [intros Hh; by apply (held_not_queued L s id HR) in Hh as []|]. intros ->.
  apply (ri_queue _ _ HR) in Hq as [[Hr _] _]. destruct (ri_null _ _ HR) as [m Hm]. congruence.
Qed.

Lemma handed_out_owned ids s s' : handed_out ids s s' -> owned s' = owned s.
Proof. intros Hho. unfold owned. by rewrite (ho_kv _ _ _ Hho). Qed.

(** Enough idle blocks: kvcached is not asked. *)
Lemma new_from_queue L s s' n :
  pool_inv L s -> pool_inv L s' -> handed_out (take n (queued s)) s s' -> (n <= length (queued s))%nat -> new_blocks n (take n (queued s)) s s'.
Proof.
  intros HI HI' Hho Hn. split.
  - rewrite length_take. lia.
  - pose proof (ri_nodup _ _ (proj1 HI)) as Hnd. rewrite <- (take_drop n (queued s)) in Hnd. by apply NoDup_app in Hnd as [? _].
  - intros id Hin. apply (queued_not_held L s id HI). rewrite <- (take_drop n (queued s)). apply elem_of_app. by left.
  - intros id Hin. destruct (handed_out_new L s s' _ id HI' Hho Hin). split_and!; [done..|by apply (ho_free _ _ _ Hho)].
  - intros id Hin. by rewrite (ho_refs _ _ _ Hho), decide_False.
Qed.

(** All idle blocks and [given] ones from kvcached. *)
Lemma new_from_both L s s1 s2 s3 n given :
  pool_inv L s -> pool_inv L s3 -> handed_out (queued s) s s1 -> (forall id, refs_of s2 id = refs_of s1 id) -> entries s2 = entries s1 ->
  handed_out given s2 s3 -> NoDup given -> (forall id, id ∈ given -> id ∉ owned s) -> (length (queued s) + length given)%nat = n ->
  new_blocks n (queued s ++ given) s s3.
Proof.
  intros HI HI3 Hho1 Hr2 He2 Hho3 Hnd Hnew Hlen.
  assert (Hdis : forall id, id ∈ queued s -> id ∉ given).
  { intros id Hq Hg. apply (Hnew id Hg). by apply (ri_queue _ _ (proj1 HI)) in Hq as [[_ ?] _]. }
  assert (Hrefs : forall id, refs_of s3 id = if decide (id ∈ queued s ++ given) then Some (1, false) else refs_of s id).
  { intros id. rewrite (ho_refs _ _ _ Hho3), Hr2, (ho_refs _ _ _ Hho1).
    destruct (decide (id ∈ given)), (decide (id ∈ queued s)), (decide (id ∈ queued s ++ given)) as [Hi|Hi]; try done;
      first [by apply elem_of_app in Hi as [|]|exfalso; apply Hi, elem_of_app; auto]. }
  split.
  - by rewrite length_app.
  - apply NoDup_app. split_and!; [apply (ri_nodup _ _ (proj1 HI))|done|done].
  - intros id [Hq|Hg]%elem_of_app; [by apply (queued_not_held L s id HI)|]. split.
    + intros (m & _ & _ & Ho). by apply (Hnew id).
    + intros ->. apply (Hnew _ Hg), (ri_null_owned _ _ (proj1 HI)).
  - intros id Hin. assert (Hr : refs_of s3 id = Some (1, false)) by (by rewrite Hrefs, decide_True). split_and!; [done| |].
    + exists 1. split_and!; [done..|]. destruct (ri_refs _ _ (proj1 HI3) id 1 Hr) as [_ [?|?]]; done.
    + apply elem_of_app in Hin as [Hq|Hg]; [|by apply (ho_free _ _ _ Hho3)]. intros k Hk. apply (ho_free _ _ _ Hho1 id Hq k).
      rewrite <- He2. by apply (ho_entries _ _ _ Hho3).
  - intros id Hni. by rewrite Hrefs, decide_False.
Qed.

Lemma leaked_queue L s s1 s2 given :
  pool_inv L s -> pool_inv (list_to_set given ∪ L) s2 -> handed_out (queued s) s s1 -> (forall id, refs_of s2 id = refs_of s1 id) ->
  queued s2 = [] -> (forall id, id ∈ given -> id ∉ owned s) -> owned s2 = owned s1 ∪ list_to_set given -> leaked (queued s) given s s2.
Proof.
  intros HI HI2 Hho Hr2 Hq2 Hnew Ho2. split; [| |by rewrite Ho2, (handed_out_owned _ _ _ Hho)|done].
  - intros id Hin. assert (Hr : refs_of s2 id = Some (1, false)) by (by rewrite Hr2, (ho_refs _ _ _ Hho), decide_True).
    split_and!; [done| |by apply (queued_not_held L s id HI)]. exists 1. split_and!; [done..|].
    destruct (ri_refs _ _ (proj1 HI2) id 1 Hr) as [_ [?|?]]; done.
  - intros id Hin. split; [|by apply Hnew]. apply (ri_moving _ _ (proj1 HI2)), elem_of_union_l. by apply elem_of_list_to_set.
Qed.

Lemma kv_changed_inv L s m : pool_inv L s -> kv_owned m = owned s -> pool_inv L (with_kv s m).
Proof.
  intros [HR HH] Ho. change (kv_owned m) with (owned (with_kv s m)) in Ho.
  split; [split|apply (hash_inv_same s); try done; by rewrite Ho]; rewrite ?Ho; try apply HR.
  intros id. change (queued (with_kv s m)) with (queued s). rewrite (ri_queue _ _ HR id). unfold idle. by rewrite Ho.
Qed.

Lemma alloc_none_inv L s n m : pool_inv L s -> kv_alloc (kv_cache_manager s) n = (m, None) -> pool_inv L (with_kv s m).
Proof. intros HI Ha. apply kv_changed_inv; [done|]. apply (kv_alloc_owned _ _ _ _ Ha). Qed.

Lemma get_new_blocks_ok L s n :
  pool_inv L s ->
  wp (get_new_blocks n) s (fun ids s' => pool_inv L s' /\ new_blocks n ids s s')
    (fun _ s' => (s' = s /\ not_available n s) \/
       exists given, pool_inv (list_to_set given ∪ L) s' /\ leaked (queued s) given s s' /\ (length (queued s) + length given < n)%nat).
Proof.
  intros HI. unfold get_new_blocks. apply wp_get, wp_require; [intros Hlt%Z.leb_gt; by left|]. intros _.
  eapply wp_then; [by apply (take_or_none_ok L)|]. intros [taken rem] s1. simpl. intros (-> & -> & Hq1 & HI1 & Hho1).
  destruct (Nat.eqb_spec (n - length (queued s)) 0) as [Hz|Hz].
  { unfold wp, pure. split; [done|]. apply (new_from_queue L); [done..|lia]. }
  rewrite take_ge in * by lia. rewrite drop_ge in Hq1 by lia. apply wp_get.
  destruct (kv_alloc (kv_cache_manager s1) (n - length (queued s))) as [m [given|]] eqn:Ha; apply wp_modify.
  - destruct (alloc_inv L s1 _ m given HI1 Ha) as (HI2 & Hnd & Hlen & Hnew & Ho2 & Hf2). rewrite (handed_out_owned _ _ _ Hho1) in Hnew.
    set (s2 := with_kv s1 m) in *. destruct (Nat.ltb_spec (length given) (n - length (queued s))) as [Hshort|Hfull].
    + right. exists given. split_and!; [done| |lia]. by apply (leaked_queue L s s1).
    + eapply wp_then; [apply (fresh_blocks_ok given L s2); [done..| |done]|].
      { intros id Hin HL. apply (Hnew id Hin). rewrite <- (handed_out_owned _ _ _ Hho1). by apply (ri_moving _ _ (proj1 HI1)). }
      intros _ s3 (HI3 & Hho3 & _). unfold wp, pure. split; [done|]. apply (new_from_both L s s1 s2); try done. lia.
  - right. exists []. rewrite list_to_set_nil, (union_empty_l_L L). pose proof (alloc_none_inv L s1 _ m HI1 Ha) as HI2.
    split_and!; [done| |simpl; lia]. apply (leaked_queue L s s1); [done| |done|done|done| |].
    + by rewrite list_to_set_nil, (union_empty_l_L L).
    + intros id Hin. by apply not_elem_of_nil in Hin.
    + rewrite list_to_set_nil, (union_empty_r_L (owned s1)). apply (kv_alloc_owned _ _ _ _ Ha).
Qed.

(** *** Naming blocks *)

(** Blocks whose contents may be named: those in use, and the null block, which is skipped. *)
Definition nameable (s : pool) (id : Z) : Prop := held s id \/ id = null_block s.

Definition quiet (L : gset Z) (s s' : pool) : Prop := pool_inv L s' /\ rehash s s'.

Lemma rehash_held s s' id : rehash s s' -> held s id -> held s' id.
Proof. intros [Hs _]. by apply same_refs_held. Qed.
Lemma rehash_nameable s s' id : rehash s s' -> nameable s id -> nameable s' id.
Proof. intros Hs [Hh|Hn]; [left; by eapply rehash_held|right]. by rewrite (sr_null _ _ (proj1 Hs)). Qed.
Lemma rehash_caching s s' : rehash s s' -> enable_caching s' = enable_caching s.
Proof. intros [Hs _]. apply (sr_caching _ _ Hs). Qed.

Lemma quiet_trans L s1 s2 s3 : rehash s1 s2 -> quiet L s2 s3 -> quiet L s1 s3.
Proof. intros H12 [HI H23]. split; [done|by etransitivity]. Qed.

Lemma nameable_block L s id :
  pool_inv L s -> nameable s id -> exists b, block_cache s !! id = Some b /\ (is_null b = false -> held s id).
Proof.
  intros [HR _] [Hh|Hn].
  - destruct (held_block _ _ Hh) as (b & Hb & _). eauto.
  - destruct (ri_null _ _ HR) as [n Hr]. rewrite <- Hn in Hr. destruct (known_block s id) as [b Hb]; [eauto|]. exists b. split; [done|].
    rewrite (refs_of_block _ _ _ Hb) in Hr. injection Hr as _ ->. done.
Qed.

Lemma insert_held_ok L s id k nt E :
  pool_inv L s -> held s id -> enable_caching s = true -> wp (insert_block_hash k id nt) s (fun _ => quiet L s) E.
Proof.
  intros HI Hh Hc. destruct (held_block _ _ Hh) as (b & Hb & _ & Hn & Ho).
  eapply wp_total; [apply (wp_insert s id b k nt (proj2 HI) Hb Ho); [by eapply held_not_null; [apply HI|]|done]|].
  intros _ s' (HH & Hs & _). split; [by eapply rehash_inv|done].
Qed.

(** The hashes of a block replaced by one new hash. *)
Lemma replace_hash_ok L s id k nt E :
  pool_inv L s -> held s id -> enable_caching s = true ->
  wp (_ ← remove_cached_block_hashes id; insert_block_hash k id nt) s (fun _ => quiet L s) E.
Proof.
  intros HI Hh Hc. destruct (held_block _ _ Hh) as (b & Hb & _). eapply wp_then; [apply (wp_remove s id b (proj2 HI) Hb)|].
  intros ks s1 (HH1 & Hs1 & _). pose proof (sheds_rehash _ _ Hs1) as Hr1. eapply wp_mono; [apply (insert_held_ok L)|..].
  - by eapply sheds_inv.
  - by eapply rehash_held.
  - by rewrite (rehash_caching _ _ Hr1).
  - intros ? s2. by apply quiet_trans.
  - intros e s2 HE. exact HE.
Qed.

Lemma cache_full_block_ok L s ncb bs g hs mask i id :
  pool_inv L s -> nameable s id -> enable_caching s = true ->
  wp (cache_full_block ncb bs g hs mask i id) s (fun _ => quiet L s) (fun _ => quiet L s).
Proof.
  intros HI Hn Hc. destruct (nameable_block L s id HI Hn) as (b & Hb & Hh). unfold cache_full_block.
  assert (Hq : quiet L s s) by (split; [done|reflexivity]). apply (wp_the_block _ b); [done|].
  destruct mask as [mask|]; [apply wp_lift; [intros e; exact Hq|]; intros m _|apply wp_pure; generalize true as m; intros m].
  all: destruct (is_null b); [done|]; destruct m; [simpl|done]; specialize (Hh eq_refl); apply wp_lift; [intros e; exact Hq|]; intros bh _; cbv zeta.
  all: destruct (block_hash b); [|by apply insert_held_ok]; destruct (block_hash_num_tokens b); [|done].
  all: apply wp_require; [intros _; exact Hq|]; intros _; by apply replace_hash_ok.
Qed.

(** A loop whose iterations only change hashes. *)
Lemma quiet_loop {A} L (body : A -> method unit) s (l : list A) :
  pool_inv L s ->
  (forall x s1, x ∈ l -> quiet L s s1 -> wp (body x) s1 (fun _ => quiet L s1) (fun _ => quiet L s1)) ->
  wp (for_each l body) s (fun _ => quiet L s) (fun _ => quiet L s).
Proof.
  intros HI. assert (Hq : quiet L s s) by (split; [done|reflexivity]). revert Hq. generalize s at 2 4 as s1. clear HI.
  induction l as [|x l IH]; intros s1 Hq1 Hbody; [done|]. simpl. apply wp_bind.
  assert (Hgo : forall s2, quiet L s1 s2 -> quiet L s s2) by (intros s2; apply quiet_trans, Hq1).
  eapply wp_mono; [apply Hbody; [by left|done]| |intros e s2; apply Hgo].
  intros u s2 Hq2. apply IH; [by apply Hgo|]. intros y s3 Hy Hq3. apply Hbody; [by right|done].
Qed.

Lemma cache_full_blocks_ok L s hs blocks ncb nfb bs g mask :
  pool_inv L s -> (forall id, id ∈ blocks -> nameable s id) ->
  wp (cache_full_blocks hs blocks ncb nfb bs g mask) s (fun _ => quiet L s) (fun _ => quiet L s).
Proof.
  intros HI Hn. assert (Hq : quiet L s s) by (split; [done|reflexivity]). unfold cache_full_blocks. apply wp_get.
  destruct (enable_caching s) eqn:Hc; simpl; [|done]. destruct (nfb <=? ncb)%nat; [done|].
  apply wp_require; [intros _; exact Hq|]. intros _. apply wp_require; [intros _; exact Hq|]. intros _.
  set (new := take (nfb - ncb) (drop ncb blocks)).
  assert (Hloop : forall hashes, wp (for_each (imap pair new) (fun ib => cache_full_block (Z.of_nat ncb) bs g (drop ncb hashes) mask ib.1 ib.2)) s
    (fun _ => quiet L s) (fun _ => quiet L s)).
  { intros hashes. apply quiet_loop; [done|]. intros [i id] s1 Hin [HI1 Hs1]. apply cache_full_block_ok; [done| |by rewrite (rehash_caching _ _ Hs1)].
    eapply rehash_nameable; [done|]. apply Hn. apply elem_of_lookup_imap in Hin as (j & y & [= -> ->] & Hy).
    rewrite <- (take_drop ncb blocks), <- (take_drop (nfb - ncb) (drop ncb blocks)). apply elem_of_app. right. apply elem_of_app. left.
    by eapply list_elem_of_lookup_2. }
  destruct (bs =? hash_block_size s); [by apply wp_pure|]. apply wp_bind, wp_require; [done|]. intros _. apply Hloop.
Qed.

Lemma cache_partial_block_ok L s hs id nt g bs :
  pool_inv L s -> nameable s id ->
  wp (cache_partial_block hs id nt g bs) s (fun _ => quiet L s) (fun _ => quiet L s).
Proof.
  intros HI Hn. assert (Hq : quiet L s s) by (split; [done|reflexivity]). destruct (nameable_block L s id HI Hn) as (b & Hb & Hh).
  unfold cache_partial_block. apply wp_get, (wp_the_block _ b); [done|]. destruct (enable_caching s) eqn:Hc; simpl; [|done].
  destruct (is_null b); [done|]. specialize (Hh eq_refl). do 5 (apply wp_require; [intros _; exact Hq|]; intros _).
  apply wp_lift; [intros e; exact Hq|]. intros bh _.
  set (out := negb _ && _ && _). clearbody out.
  assert (Hins : forall s1, quiet L s s1 -> wp (insert_block_hash (mk_key bh g) id (Some nt);;
  pure (Some (mk_key bh g))) s1 (fun _ => quiet L s) (fun _ => quiet L s)).
  { intros s1 [HI1 Hs1]. eapply wp_then; [apply (insert_held_ok L s1); [done|by eapply rehash_held|by rewrite (rehash_caching _ _ Hs1)]|].
    intros u s2. by apply quiet_trans. }
  destruct out; [|by apply Hins]. apply wp_bind. eapply wp_then; [apply (wp_remove s id b (proj2 HI) Hb)|].
  intros ks s1 (HH1 & Hs1 & _). apply Hins. split; [by eapply sheds_inv|by apply sheds_rehash].
Qed.

Lemma move_block_hashes_ok L s src dst :
  pool_inv L s -> held s dst -> is_Some (refs_of s src) ->
  wp (move_block_hashes src dst) s (fun _ => quiet L s) (fun _ => quiet L s).
Proof.
  intros HI Hd Hs. assert (Hq : quiet L s s) by (split; [done|reflexivity]). destruct (held_block _ _ Hd) as (d & Hbd & _).
  destruct (known_block _ _ Hs) as [b Hb]. unfold move_block_hashes. apply wp_get, (wp_the_block _ d); [done|].
  do 2 (apply wp_require; [intros _; exact Hq|]; intros _). apply (wp_the_block _ b); [done|].
  eapply wp_then; [apply (wp_remove s src b (proj2 HI) Hb)|].
  intros ks s1 (HH1 & Hs1 & _ & _ & Hoff). pose proof (sheds_rehash _ _ Hs1) as Hr1. assert (HI1 : pool_inv L s1) by (by eapply sheds_inv).
  eapply wp_mono; [apply (quiet_loop L _ s1); [done|]|intros u s2; by apply quiet_trans..].
  intros k s2 Hk [HI2 Hs2]. apply insert_held_ok; [done|eapply rehash_held; [done|]; by eapply rehash_held|].
  rewrite (rehash_caching _ _ Hs2), (rehash_caching _ _ Hr1). destruct (enable_caching s); [done|]. rewrite Hoff in Hk by done.
  by apply not_elem_of_nil in Hk.
Qed.

Lemma evict_blocks_ok L s ids : pool_inv L s -> wp (evict_blocks ids) s (fun _ => quiet L s) (fun _ => quiet L s).
Proof.
  intros HI. apply quiet_loop; [done|]. intros id s1 _ [HI1 _]. apply wp_get. destruct (block_cache s1 !! id) as [b|] eqn:Hb; [|by split].
  apply wp_bind. eapply wp_then; [apply (wp_remove s1 id b (proj2 HI1) Hb)|]. intros ks s2 (HH2 & Hs2 & _).
  split; [by eapply sheds_inv|by apply sheds_rehash].
Qed.

(** *** Emptying the cache *)

Definition cleared (f : block -> block) (s : pool) : pool := with_cache (with_hashes s hm_empty ∅) (f <$> block_cache s).

Lemma cleared_ok L s (f : block -> block) :
  (forall b, ref_cnt (f b) = ref_cnt b /\ is_null (f b) = is_null b) -> (forall id b, block_cache s !! id = Some b -> block_hash (f b) = None) ->
  pool_inv L s -> pool_inv L (cleared f s) /\ rehash s (cleared f s) /\ entries (cleared f s) = ∅.
Proof.
  intros Hf Hh HI. assert (He : entries (cleared f s) = ∅) by apply hm_entries_empty.
  assert (Hr : rehash s (cleared f s)).
  { split; [|done]. split; try done. intros id. unfold refs_of, cleared. simpl. rewrite lookup_fmap.
    destruct (block_cache s !! id) as [b|]; [|done]. simpl. by destruct (Hf b) as [-> ->]. }
  assert (Hno : forall id, hash_of (cleared f s) id = None).
  { intros id. unfold hash_of, cleared. simpl. rewrite lookup_fmap. destruct (block_cache s !! id) as [b|] eqn:E; [simpl; by eapply Hh|done]. }
  split_and!; [|done..]. eapply rehash_inv; [done| |done]. split.
  - intros k id. rewrite He, Hno. split; [set_solver|]. intros [?|Hk]; [done|]. exfalso. revert Hk. unfold extra. simpl.
    rewrite lookup_empty. set_solver.
  - intros id k. unfold extra. simpl. rewrite lookup_empty. set_solver.
  - intros id k. by rewrite Hno.
  - done.
Qed.

Lemma null_unhashed L s id b : pool_inv L s -> block_cache s !! id = Some b -> is_null b = true -> block_hash b = None.
Proof.
  intros [HR HH] Hb Hn. pose proof (refs_of_block _ _ _ Hb) as Hr. rewrite Hn in Hr. apply (ri_null_only _ _ HR) in Hr.
  destruct (block_hash b) as [k|] eqn:E; [|done]. destruct (hi_mapped _ HH id k); [unfold hash_of; by rewrite Hb|done].
Qed.

(** Nothing idle is mapped and nothing is named any more. *)
Record emptied (s s' : pool) : Prop := {
  em_refs : forall id, refs_of s' id = refs_of s id;
  em_queue : queued s' = [];
  em_owned : owned s' = owned s ∖ list_to_set (queued s);
  em_entries : entries s' = ∅;
  em_null : null_block s' = null_block s;
}.

Lemma flushed_emptied s s1 s2 : flushed s s1 -> rehash s1 s2 -> entries s2 = ∅ -> emptied s s2.
Proof.
  intros [] [[] Hq] He. split; [intros id; by rewrite sr_refs0|unfold queued; by rewrite Hq| |done|congruence].
  transitivity (owned s1); [unfold owned; by rewrite sr_kv0|done].
Qed.

Lemma reset_prefix_cache_ok L s :
  pool_inv L s -> wp reset_prefix_cache s (fun _ s' => pool_inv L s' /\ emptied s s' /\ enable_caching s' = enable_caching s) never.
Proof.
  intros HI. unfold reset_prefix_cache. apply wp_modify. set (s0 := call_watchers s).
  assert (HI0 : pool_inv L s0) by (split; [by apply (refs_inv_same L s); [split| |apply HI]|apply (hash_inv_same s); try done; apply HI]).
  eapply wp_then; [by apply (flush_eviction_queue_ok L s0)|]. intros _ s1 [HI1 Hfl]. apply wp_modify, wp_modify. unfold wp, pure.
  destruct (cleared_ok L s1 reset_hash) as (HI2 & Hr2 & He2); [done..|]. fold (cleared reset_hash s1). split_and!; [done| |].
  - apply (flushed_emptied s s1 _); [|done..]. by destruct Hfl.
  - exact (fl_caching _ _ Hfl).
Qed.

Lemma with_caching_inv L s b : pool_inv L s -> (b = false -> queued s = [] /\ entries s = ∅) -> pool_inv L (with_caching s b).
Proof.
  intros [HR HH] Hoff. split; [split|split]; try apply HR; try apply HH; intros Hb; by destruct (Hoff Hb).
Qed.

Lemma set_caching_enabled_ok L s b :
  pool_inv L s -> wp (set_caching_enabled b) s (fun _ s' => pool_inv L s' /\ enable_caching s' = b /\ null_block s' = null_block s /\
    if enable_caching s && negb b then emptied s s' else s' = with_caching s b) never.
Proof.
  intros HI. unfold set_caching_enabled. apply wp_get. destruct (enable_caching s && negb b) eqn:E.
  - apply andb_true_iff in E as [Hc Hb%negb_true_iff]. subst b. apply wp_bind.
    eapply wp_then; [by apply (flush_eviction_queue_ok L s)|]. intros _ s1 [HI1 Hfl]. apply wp_modify. unfold wp at 1, modify.
    set (f := fun b : block => if is_null b then b else reset_hash b). destruct (cleared_ok L s1 f) as (HI2 & Hr2 & He2); [| |done|].
    { intros b. unfold f. by destruct (is_null b) eqn:En. }
    { intros id b Hb. unfold f. destruct (is_null b) eqn:En; [by eapply null_unhashed|done]. }
    fold (cleared f s1). pose proof (flushed_emptied s s1 _ Hfl Hr2 He2) as Hem. unfold wp, modify.
    split_and!; [|done|apply (em_null _ _ Hem)|by destruct Hem]. apply with_caching_inv; [done|]. intros _. split; [apply (em_queue _ _ Hem)|done].
  - apply wp_pure. unfold wp, modify. split_and!; try done. apply with_caching_inv; [done|]. intros ->. rewrite andb_true_r in E.
    split; [by apply (ri_off _ _ (proj1 HI))|by apply (hi_off _ (proj2 HI))].
Qed.

Lemma pool_init_ok m c h b n t s : kv_owned m = ∅ -> pool_init m c h b n t = Ok s -> pool_inv ∅ s.
Proof.
  unfold pool_init. intros Ho. destruct (kv_alloc m 1) as [m' [[|id [|]]|]] eqn:Ha; try done. intros [= <-].
  destruct (kv_alloc_owned _ _ _ _ Ha) as (_ & _ & _ & How). rewrite Ho in How. set (s := Pool _ _ _ _ _ _ _ _ _ _ _ _).
  assert (Hrf : forall x, refs_of s x = if decide (x = id) then Some (0, true) else None).
  { intros x. unfold refs_of. simpl. destruct (decide (x = id)) as [->|]; [by rewrite lookup_singleton_eq|by rewrite lookup_singleton_ne]. }
  assert (How' : forall x, x ∈ owned s <-> x = id) by (intros x; unfold owned; simpl; rewrite How; set_solver).
  assert (Hq : queued s = []) by apply q_items_empty. assert (He : entries s = ∅) by apply hm_entries_empty.
  assert (Hh : forall x, hash_of s x = None).
  { intros x. unfold hash_of. simpl. destruct (decide (x = id)) as [->|]; [by rewrite lookup_singleton_eq|by rewrite lookup_singleton_ne]. }
  assert (Hx : forall x, extra s x = ∅) by (intros x; unfold extra; simpl; by rewrite lookup_empty).
  split; split; try done.
  - exists 0. rewrite Hrf. by rewrite decide_True.
  - intros x y. rewrite Hrf. by destruct (decide (x = id)).
  - by apply How'.
  - intros x ->%How' _. rewrite Hrf, decide_True by done. eauto.
  - intros x y. rewrite Hrf. by destruct (decide (x = id)).
  - rewrite Hq. constructor.
  - intros x. rewrite Hq. split; [by intros ?%not_elem_of_nil|]. intros [[Hr _] _]. rewrite Hrf in Hr. by destruct (decide (x = id)).
  - intros k x. rewrite He, Hh, Hx. set_solver.
  - intros x k. by rewrite Hh.
Qed.

(** ** Runs of the pool *)

(** What the engine does with the pool; [OpKv] is another process changing what kvcached has left. *)
Inductive pool_op :=
  | OpNew (n : nat)
  | OpFree (blocks : list Z)
  | OpUnpin (blocks : list Z) (on_reuse : W)
  | OpTouch (blocks : list Z)
  | OpCacheFull (block_hashes : list BH) (blocks : list Z) (cached full : nat) (block_size group_id : Z) (mask : option (list bool))
  | OpCachePartial (block_hashes : list BH) (id num_tokens group_id block_size : Z)
  | OpMove (src dst : Z)
  | OpEvict (ids : list Z)
  | OpReset
  | OpToggle (enabled : bool)
  | OpKv (m : M).

Definition run_op (o : pool_op) : method unit :=
  match o with
  | OpNew n => get_new_blocks n;; pure tt
  | OpFree blocks => free_blocks blocks
  | OpUnpin blocks w => unpin_blocks blocks w
  | OpTouch blocks => touch blocks
  | OpCacheFull hs blocks cached full bs g mask => cache_full_blocks hs blocks cached full bs g mask
  | OpCachePartial hs id nt g bs => cache_partial_block hs id nt g bs;; pure tt
  | OpMove src dst => move_block_hashes src dst
  | OpEvict ids => evict_blocks ids
  | OpReset => reset_prefix_cache;; pure tt
  | OpToggle b => set_caching_enabled b
  | OpKv m => modify (fun s => with_kv s m)
  end.

(** The contract of the callers: they free, name and touch blocks they hold or have found in
    the cache, and no block of another pool. *)
Definition allowed (s : pool) (o : pool_op) : Prop :=
  match o with
  | OpFree blocks => freeable s blocks
  | OpUnpin blocks _ => forall id, id ∈ blocks -> is_Some (refs_of s id)
  | OpTouch blocks => forall id, id ∈ blocks -> touchable s id
  | OpCacheFull _ blocks _ _ _ _ _ => forall id, id ∈ blocks -> nameable s id
  | OpCachePartial _ id _ _ _ => nameable s id
  | OpMove src dst => is_Some (refs_of s src) /\ held s dst
  | OpKv m => kv_owned m = owned s
  | _ => True
  end.

Inductive reachable : pool -> Prop :=
  | reach_init m c h b n t s : kv_owned m = ∅ -> pool_init m c h b n t = Ok s -> reachable s
  | reach_step s o : reachable s -> allowed s o -> reachable (run_op o s).1.

Fixpoint run_ops (s : pool) (os : list pool_op) : pool :=
  match os with [] => s | o :: os => run_ops (run_op o s).1 os end.
Fixpoint all_allowed (s : pool) (os : list pool_op) : Prop :=
  match os with [] => True | o :: os => allowed s o /\ all_allowed (run_op o s).1 os end.

Lemma reachable_run os : forall s, reachable s -> all_allowed s os -> reachable (run_ops s os).
Proof. induction os as [|o os IH]; intros s Hs; [done|]. intros [Ho Hos]. apply IH; [by apply reach_step|done]. Qed.

(** The contract can be checked in a given state. *)
#[local] Instance forall_in_dec {A} (P : A -> Prop) `{!forall x, Decision (P x)} (l : list A) : Decision (forall x, x ∈ l -> P x).
Proof. refine (cast_if (decide (Forall P l))); by rewrite <- Forall_forall. Defined.
Lemma held_alt s id : held s id <-> exists b, block_cache s !! id = Some b /\ is_null b = false /\ 0 < ref_cnt b /\ id ∈ owned s.
Proof.
  split; [intros Hh; destruct (held_block _ _ Hh) as (b & ? & ? & ? & ?); eauto 10|].
  intros (b & Hb & Hn & Hp & Ho). exists (ref_cnt b). by rewrite (refs_of_block _ _ _ Hb), Hn.
Qed.
#[local] Instance held_dec s id : Decision (held s id).
Proof.
  destruct (block_cache s !! id) as [b|] eqn:Hb.
  - refine (cast_if (decide (is_null b = false /\ 0 < ref_cnt b /\ id ∈ owned s))).
    + apply held_alt. exists b. tauto.
    + rewrite held_alt. intros (b' & Hb' & ?). rewrite Hb in Hb'. injection Hb' as <-. tauto.
  - right. rewrite held_alt. intros (b & ? & _). congruence.
Defined.
#[local] Instance freeable_dec s l : Decision (freeable s l).
Proof. unfold freeable. apply _. Defined.
#[local] Instance touchable_dec s id : Decision (touchable s id).
Proof. unfold touchable. apply _. Defined.
#[local] Instance nameable_dec s id : Decision (nameable s id).
Proof. unfold nameable. apply _. Defined.
Definition allowed_dec s o : Decision (allowed s o).
Proof. destruct o; simpl; apply _. Defined.
#[local] Existing Instance allowed_dec.
Definition all_allowed_dec os : forall s, Decision (all_allowed s os).
Proof. induction os as [|o os IH]; intros s; simpl; [apply _|apply and_dec; [apply _|apply IH]]. Defined.

Lemma wp_state {A} (m : method A) s (P : pool -> Prop) : wp m s (fun _ => P) (fun _ => P) -> P (m s).1.
Proof. unfold wp. by destruct (m s) as [s' [a|e]]. Qed.

Lemma wp_discard {A} (m : method A) s (P : pool -> Prop) : wp m s (fun _ => P) (fun _ => P) -> P ((m;; pure tt) s).1.
Proof. intros Hm. apply (wp_state (m;; pure tt)), wp_bind. eapply wp_mono; [exact Hm|done..]. Qed.

#[local] Instance lost_unpin_dec blocks s s' x : Decision (lost_unpin blocks s s' x).
Proof. unfold lost_unpin. apply _. Defined.

(** The blocks that a call loses.  Only two can: [get_new_blocks] that raises after kvcached has
    given it some blocks, but too few, and [unpin_blocks] that raises after it has released some. *)
Definition lost_by (s : pool) (o : pool_op) : gset Z :=
  match o, run_op o s with
  | OpNew _, (s', Raise _) => owned s' ∖ owned s
  | OpUnpin blocks _, (s', Raise _) => list_to_set (filter (lost_unpin blocks s s') blocks)
  | _, _ => ∅
  end.

(** The blocks lost in a run. *)
Fixpoint run_lost (s : pool) (os : list pool_op) : gset Z :=
  match os with [] => ∅ | o :: os => lost_by s o ∪ run_lost (run_op o s).1 os end.

(** [unpin_blocks] raised, or [get_new_blocks] did although enough blocks seemed to be available. *)
Definition interrupted (s : pool) (o : pool_op) : Prop :=
  match o with OpNew n => ~ not_available n s | OpUnpin _ _ => True | _ => False end /\ exists e, (run_op o s).2 = Raise e.

Fixpoint uninterrupted (s : pool) (os : list pool_op) : Prop :=
  match os with [] => True | o :: os => ~ interrupted s o /\ uninterrupted (run_op o s).1 os end.

(** [L] are the blocks lost so far: the invariant goes on with those that the call loses. *)
Lemma new_op_inv L s n : pool_inv L s -> pool_inv (lost_by s (OpNew n) ∪ L) (run_op (OpNew n) s).1.
Proof.
  intros HI. pose proof (get_new_blocks_ok L s n HI) as Hwp. unfold lost_by. simpl.
  unfold wp, mbind, method_bind, bind in *. destruct (get_new_blocks n s) as [s' [ids|e]]; simpl.
  { rewrite (union_empty_l_L L). apply Hwp. }
  destruct Hwp as [[-> _]|(given & HI' & Hlk & _)]; [by rewrite (difference_diag_L (owned s)), (union_empty_l_L L)|].
  assert (owned s' ∖ owned s = list_to_set given) as ->; [|done].
  apply set_eq. intros x. rewrite elem_of_difference, (lk_owned _ _ _ _ Hlk), elem_of_union, !elem_of_list_to_set. split; [tauto|].
  intros Hx. split; [by right|]. by apply (lk_given _ _ _ _ Hlk).
Qed.

Lemma unpin_op_inv L s blocks w :
  pool_inv L s -> allowed s (OpUnpin blocks w) -> pool_inv (lost_by s (OpUnpin blocks w) ∪ L) (run_op (OpUnpin blocks w) s).1.
Proof.
  intros HI Hal. pose proof (unpin_blocks_ok L s blocks w HI Hal) as Hwp. unfold lost_by. simpl. unfold wp in Hwp.
  destruct (unpin_blocks blocks w s) as [s' [u|e]]; simpl; [by rewrite (union_empty_l_L L)|].
  destruct Hwp as [(L' & HI' & HL') _]. assert (list_to_set (filter (lost_unpin blocks s s') blocks) ∪ L = L') as ->; [|done].
  apply set_eq. intros x. rewrite HL', elem_of_union, elem_of_list_to_set, list_elem_of_filter. unfold lost_unpin. tauto.
Qed.

Lemma run_op_inv L s o : pool_inv L s -> allowed s o -> pool_inv (lost_by s o ∪ L) (run_op o s).1.
Proof.
  intros HI Hal. destruct o; [by apply new_op_inv| |by apply unpin_op_inv|..]; unfold lost_by; rewrite (union_empty_l_L L); simpl in *.
  - apply wp_state. eapply wp_total; [by apply (free_blocks_ok L)|]. by intros _ s' [? _].
  - apply wp_state. eapply wp_total; [by apply (touch_ok L)|]. by intros _ s' [? _].
  - apply wp_state. eapply wp_mono; [by apply (cache_full_blocks_ok L)|by intros ? s' [? _]..].
  - apply wp_discard. eapply wp_mono; [by apply (cache_partial_block_ok L)|by intros ? s' [? _]..].
  - apply wp_state. destruct Hal. eapply wp_mono; [by apply (move_block_hashes_ok L)|by intros ? s' [? _]..].
  - apply wp_state. eapply wp_mono; [by apply (evict_blocks_ok L)|by intros ? s' [? _]..].
  - apply wp_discard. eapply wp_total; [by apply (reset_prefix_cache_ok L)|]. by intros _ s' [? _].
  - apply wp_state. eapply wp_total; [by apply (set_caching_enabled_ok L)|]. by intros _ s' [? _].
  - by apply kv_changed_inv.
Qed.

Lemma run_ops_inv os : forall L s, pool_inv L s -> all_allowed s os -> pool_inv (run_lost s os ∪ L) (run_ops s os).
Proof.
  induction os as [|o os IH]; intros L s HI; simpl; [by rewrite (union_empty_l_L L)|]. intros [Ho Hos].
  pose proof (IH _ _ (run_op_inv L s o HI Ho) Hos) as H'.
  assert (lost_by s o ∪ run_lost (run_op o s).1 os ∪ L = run_lost (run_op o s).1 os ∪ (lost_by s o ∪ L)) as -> by set_solver. exact H'.
Qed.

(** Only an interrupted call loses blocks. *)
Lemma uninterrupted_loses_nothing os : forall s, uninterrupted s os -> run_lost s os = ∅.
Proof.
  induction os as [|o os IH]; intros s; [done|]. simpl. intros [Hi Hos]. rewrite (IH _ Hos), (union_empty_r_L (lost_by s o)).
  unfold lost_by. destruct o as [n| |blocks w| | | | | | | |]; try done.
  - destruct (run_op (OpNew n) s) as [s' [u|e]] eqn:E; [done|]. destruct (decide (get_num_free_blocks s < Z.of_nat n)) as [Hn|Hn].
    + simpl in E. unfold get_new_blocks, mbind, method_bind, bind, get, require in E.
      destruct (Z.leb_spec (Z.of_nat n) (get_num_free_blocks s)) as [?|?]; [lia|]. injection E as <- _. apply (difference_diag_L (owned s)).
    + destruct Hi. split; [exact Hn|]. rewrite E. by exists e.
  - destruct (run_op (OpUnpin blocks w) s) as [s' [u|e]] eqn:E; [done|]. destruct Hi. split; [done|]. rewrite E. by exists e.
Qed.

Definition some_inv (s : pool) : Prop := exists L, pool_inv L s.

Lemma reachable_some_inv s : reachable s -> some_inv s.
Proof.
  induction 1 as [|s o Hs [L HI] Ho]; [exists ∅; by eapply pool_init_ok|]. eexists. by apply (run_op_inv L).
Qed.

Lemma nothing_lost s :
  pool_inv ∅ s -> (forall id, id ∈ queued s <-> idle s id) /\ (forall id, id ∈ owned s -> id = null_block s \/ held s id \/ id ∈ queued s).
Proof.
  intros [HR HH]. assert (Hq : forall id, id ∈ queued s <-> idle s id) by (intros id; rewrite (ri_queue _ _ HR id); set_solver).
  split; [done|]. intros id Ho. destruct (ri_known _ _ HR id Ho) as [[n [|]] Hr]; [set_solver|left; by apply (ri_null_only _ _ HR id n)|].
  right. destruct (ri_refs _ _ HR id n Hr) as [Hn _]. destruct (decide (n = 0)) as [->|Hnz]; [right; by apply Hq|left].
  exists n. split_and!; [done|lia|done].
Qed.

(** A hit in the cache names a block that is mapped and not the null block, idle or in use, and that bears the hash. *)
Definition hit (s : pool) (k : K) (id : Z) : Prop :=
  (k, id) ∈ entries s /\ id ∈ owned s /\ id <> null_block s /\ (hash_of s id = Some k \/ k ∈ extra s id) /\
  exists n, refs_of s id = Some (n, false) /\ 0 <= n.

Lemma entry_hit L s k id : pool_inv L s -> (k, id) ∈ entries s -> hit s k id.
Proof.
  intros [HR HH] Hk. assert (Hex : exists k', hash_of s id = Some k').
  { apply (hi_hash _ HH) in Hk as [Hk|Hk]; [eauto|]. by apply (hi_extra _ HH) in Hk. }
  destruct Hex as [k' Hk']. destruct (hi_mapped _ HH id k' Hk') as [Ho Hn]. split_and!; [done..|by apply (hi_hash _ HH)|].
  unfold hash_of in Hk'. destruct (block_cache s !! id) as [b|] eqn:Hb; [|done]. pose proof (refs_of_block _ _ _ Hb) as Hr.
  destruct (is_null b) eqn:En; [exfalso; by apply Hn, (ri_null_only _ _ HR id (ref_cnt b))|].
  exists (ref_cnt b). split; [done|]. by apply (ri_refs _ _ HR id).
Qed.

(** ** Main theorems *)

(** C13: after any calls on a new pool that keep the callers' contract, whatever kvcached does
    meanwhile and also after exceptions, with [L] the blocks lost by the calls that were
    interrupted ([run_lost]: those kvcached gave to a [get_new_blocks] that then raised, and those
    an [unpin_blocks] had released before it raised): the eviction queue holds each idle mapped
    block that is not in [L] exactly once and nothing else, counts are not negative, only mapped
    blocks are in use, every mapped block outside [L] is known, and the hash table and the hashes
    kept with the blocks name the same pairs, all of mapped blocks.  When no such call was
    interrupted, [L] is empty: the queue holds exactly the idle mapped blocks, and every mapped
    block is the null block, in use or in the queue. *)
Theorem pool_invariant m caching hash_size block_size num_blocks scaled s0 os :
  kv_owned m = ∅ -> pool_init m caching hash_size block_size num_blocks scaled = Ok s0 -> all_allowed s0 os ->
  let s := run_ops s0 os in
  refs_inv (run_lost s0 os) s /\ hash_inv s /\
  (uninterrupted s0 os ->
     run_lost s0 os = ∅ /\ (forall id, id ∈ queued s <-> idle s id) /\
     (forall id, id ∈ owned s -> id = null_block s \/ held s id \/ id ∈ queued s)).
Proof.
  intros Hm Hi Hal s. pose proof (run_ops_inv os ∅ s0 (pool_init_ok _ _ _ _ _ _ _ Hm Hi) Hal) as HI.
  rewrite (union_empty_r_L (run_lost s0 os)) in HI. fold s in HI. split; [apply HI|]. split; [apply HI|].
  intros HL%uninterrupted_loses_nothing. rewrite HL in HI. split; [done|]. by apply (nothing_lost s).
Qed.

(** A hit of [get_cached_block] gives, group by group, a block that is mapped, is not the
    null block and bears the hash asked for; asking changes nothing. *)
Theorem cached_hits_mapped s bh group_ids s' ids :
  reachable s -> get_cached_block bh group_ids s = (s', Ok (Some ids)) ->
  s' = s /\ Forall2 (fun g id => hit s (mk_key bh g) id) group_ids ids.
Proof.
  intros [L HI]%reachable_some_inv. unfold get_cached_block, mbind, method_bind, bind, get, pure.
  destruct (enable_caching s); [|done]. intros [= <- Hids]. split; [done|]. apply mapM_Some in Hids.
  eapply Forall2_impl; [exact Hids|]. intros g id Hg. apply (entry_hit L); [done|]. by apply get_one_block_Some.
Qed.

(** C14: [get_new_blocks n] returns exactly [n] different blocks that nobody held, each with
    count 1 and no hash, and changes no other count; or it refuses before changing anything,
    because less than [n] are available; or kvcached refuses: then every block that waited in
    the queue has count 1 although no caller has it, so none of them can ever be freed, and
    the blocks kvcached may have given are not known to the pool. *)
Theorem get_new_blocks_spec s n :
  reachable s ->
  wp (get_new_blocks n) s (fun ids s' => new_blocks n ids s s')
    (fun _ s' => (s' = s /\ not_available n s) \/
       exists given, leaked (queued s) given s s' /\ (length (queued s) + length given < n)%nat).
Proof.
  intros [L HI]%reachable_some_inv. eapply wp_mono; [by apply (get_new_blocks_ok L)|by intros ids s' [_ ?]|].
  intros e s' [?|(given & _ & ? & ?)]; eauto.
Qed.

(** Switching caching off gives every idle block back to kvcached, forgets all hashes and
    leaves the counts of the blocks in use alone; resetting the cache does the same and leaves
    caching as it was.  Neither raises. *)
Theorem caching_emptied s :
  reachable s ->
  (enable_caching s = true -> wp (set_caching_enabled false) s (fun _ s' => emptied s s' /\ enable_caching s' = false) never) /\
  wp reset_prefix_cache s (fun r s' => emptied s s' /\ enable_caching s' = enable_caching s) never.
Proof.
  intros [L HI]%reachable_some_inv. split.
  - intros Hc. eapply wp_total; [by apply (set_caching_enabled_ok L)|]. intros _ s' (_ & Hoff & _ & Hem). by rewrite Hc in Hem.
  - eapply wp_total; [by apply (reset_prefix_cache_ok L)|]. intros r s' (_ & ? & ?). done.
Qed.
End pool.

(** ** A small instance *)

Module MiniPool.

(** An allocator that promises [mk_avail] blocks and has [mk_room]. *)
Record mini_kv := MiniKv { mk_live : gset Z; mk_avail : Z; mk_room : nat }.

#[global] Instance mini_kv_ops : KvManager mini_kv := {
  kv_alloc m n :=
    if (n <=? mk_room m)%nat then
      let ids := seqZ (1 + set_fold Z.max 0 (mk_live m)) (Z.of_nat n) in
      (MiniKv (mk_live m ∪ list_to_set ids) (mk_avail m - Z.of_nat n) (mk_room m - n), Some ids)
    else (m, None);
  kv_free m ids := MiniKv (mk_live m ∖ list_to_set ids) (mk_avail m + Z.of_nat (length ids)) (mk_room m + length ids);
  available_size := mk_avail;
}.

Lemma live_le_max (l : list Z) x : x ∈ l -> x <= foldr Z.max 0 l.
Proof. induction l as [|y l IH]; intros Hin; [by apply not_elem_of_nil in Hin|]. simpl. apply elem_of_cons in Hin as [->|Hin]; [lia|].
  specialize (IH Hin). lia. Qed.

#[global] Instance mini_kv_laws : KvManagerLaws mini_kv.
Proof.
  unshelve econstructor; [exact mk_live| |].
  - intros m n m' r. simpl. destruct (n <=? mk_room m)%nat; intros [= <- <-]; [|done]. simpl.
    split_and!; [apply NoDup_seqZ|by rewrite length_seqZ, Nat2Z.id| |done].
    intros x Hx%elem_of_list_to_set%elem_of_seqZ Hl%elem_of_elements. apply live_le_max in Hl. unfold set_fold in Hx. simpl in Hx. lia.
  - done.
Defined.

#[global] Instance list_queue : BlockQueue (list Z) := {
  q_empty := [];
  q_popleft q := match q with x :: q => Ok (x, q) | [] => Raise (ValueError "No free blocks available") end;
  q_append_n q l := q ++ l;
  q_remove q x := if decide (x ∈ q) then Ok (filter (fun y => y <> x) q) else Raise (RuntimeError "remove() called on an invalid block");
  num_free_blocks q := length q;
}.

#[global] Instance list_queue_laws : BlockQueueLaws (list Z).
Proof.
  unshelve econstructor; [exact id|..]; try done.
  - intros q x l Hq. unfold id in *. subst q. eauto.
  - intros q x _ Hx. unfold id in *. exists (filter (fun y => y <> x) q). simpl. by rewrite decide_True.
Defined.

Abbreviation key := (Z * Z)%type.

#[global] Instance set_map : HashMap key (gset (key * Z)) := {
  hm_empty := ∅;
  get_one_block m k := head (omap (fun e : key * Z => if decide (e.1 = k) then Some e.2 else None) (elements m));
  hm_insert m k id := m ∪ {[ (k, id) ]};
  hm_pop m k id := (m ∖ {[ (k, id) ]}, bool_decide ((k, id) ∈ m));
  hm_contain m k id := bool_decide ((k, id) ∈ m);
}.

#[global] Instance set_map_laws : HashMapLaws key (gset (key * Z)).
Proof.
  unshelve econstructor; [exact id|..]; try done.
  - intros m k id Hh. apply head_Some_elem_of, list_elem_of_omap in Hh as ([k' x] & Hin & He). simpl in He.
    destruct (decide (k' = k)) as [->|]; [|done]. injection He as ->. by apply elem_of_elements.
  - intros m k id Hh Hin. unfold Datatypes.id in *. apply elem_of_elements in Hin. simpl in Hh. apply head_None in Hh.
    assert (Hx : id ∈ omap (fun e : key * Z => if decide (e.1 = k) then Some e.2 else None) (elements m)).
    { apply list_elem_of_omap. exists (k, id). simpl. by rewrite decide_True. }
    rewrite Hh in Hx. by apply not_elem_of_nil in Hx.
  - intros m k id. apply bool_decide_eq_true.
  - intros m k id. apply bool_decide_eq_true.
Defined.

Abbreviation mini_pool := (@pool key mini_kv (list Z) (gset (key * Z)) string).
Definition no_merge (hs : list Z) (small big : Z) : list Z := hs.
Abbreviation mini_op := (@pool_op Z mini_kv string).
Abbreviation mini_run := (run_ops (W:=string) (@pair Z Z) no_merge true true).
Abbreviation mini_reachable := (reachable (W:=string) (@pair Z Z) no_merge true true).

Definition mini_init : res mini_pool := pool_init (MiniKv ∅ 100 5) true 0 16 100 10.
Definition mini_new : mini_pool := match mini_init with Ok s => s | Raise _ => Pool true 0 0 0 (MiniKv ∅ 0 0) ∅ [] ∅ ∅ 0 [] [] end.

(** Two blocks are filled, named and freed; then another process takes what kvcached had left. *)
Definition mini_ops : list mini_op :=
  [OpNew 2; OpCacheFull [11; 12] [2; 3] 0 2 16 0 None; OpFree [3; 2]; OpKv (MiniKv {[1; 2; 3]} 40 0)].
Definition mini_state : mini_pool := mini_run mini_new mini_ops.

Lemma mini_reached : mini_reachable mini_state.
Proof.
  apply reachable_run; [by eapply (reach_init _ _ _ _ (MiniKv ∅ 100 5) true 0 16 100 10)|].
  apply (@bool_decide_unpack _ (all_allowed_dec (@pair Z Z) no_merge true true mini_ops mini_new)). vm_compute. exact I.
Qed.

Example mini_queue : queued mini_state = [3; 2].
Proof. reflexivity. Qed.

Lemma pool_invariant_witness :
  refs_inv ∅ mini_state /\ hash_inv mini_state /\ (forall id, id ∈ queued mini_state <-> idle mini_state id).
Proof.
  assert (Hal : all_allowed (@pair Z Z) no_merge true true mini_new mini_ops).
  { apply (@bool_decide_unpack _ (all_allowed_dec (@pair Z Z) no_merge true true mini_ops mini_new)). vm_compute. exact I. }
  destruct (pool_invariant (@pair Z Z) no_merge true true (MiniKv ∅ 100 5) true 0 16 100 10 mini_new mini_ops ltac:(done) ltac:(done) Hal)
    as (HR & HH & HU).
  destruct HU as (HL & Hq & _).
  { split; [|split; [|split; [|split; [|done]]]]; intros [Hc [e He]]; try done; vm_compute in He; discriminate. }
  rewrite HL in HR. exact (conj HR (conj HH Hq)).
Defined.

Lemma cached_hits_mapped_witness :
  get_cached_block (@pair Z Z) 12 [0] mini_state = (mini_state, Ok (Some [3])) /\ Forall2 (fun g id => hit mini_state (12, g) id) [0] [3].
Proof.
  assert (Hrun : get_cached_block (@pair Z Z) 12 [0] mini_state = (mini_state, Ok (Some [3]))) by (vm_compute; reflexivity).
  split; [exact Hrun|]. exact (proj2 (cached_hits_mapped _ _ _ _ mini_state 12 [0] mini_state [3] mini_reached Hrun)).
Defined.

(** The kvcached failure: the two cached blocks are in use and the queue is empty. *)
Example mini_leak :
  let r := get_new_blocks 3 mini_state in
  r.2 = Raise (ValueError "kvcached: failed to allocate blocks") /\ queued r.1 = [] /\
  refs_of r.1 2 = Some (1, false) /\ refs_of r.1 3 = Some (1, false) /\ refs_of mini_state 2 = Some (0, false).
Proof. vm_compute. split_and!; reflexivity. Qed.

Lemma get_new_blocks_spec_witness :
  wp (get_new_blocks 3) mini_state (fun ids s' => new_blocks 3 ids mini_state s')
    (fun _ s' => (s' = mini_state /\ not_available 3 mini_state) \/
       exists given, leaked (queued mini_state) given mini_state s' /\ (length (queued mini_state) + length given < 3)%nat).
Proof. apply (get_new_blocks_spec _ _ _ _ mini_state 3 mini_reached). Defined.

Lemma caching_emptied_witness :
  wp (set_caching_enabled false) mini_state (fun _ s' => emptied mini_state s' /\ enable_caching s' = false) never.
Proof.
  assert (Hc : enable_caching mini_state = true) by (vm_compute; reflexivity).
  exact (proj1 (caching_emptied _ _ _ _ mini_state mini_reached) Hc).
Defined.
End MiniPool.
