(* ===== verification/ActionMasks.v ===== *)
(** * Action masks

    Source: [src/arctic_platform/inference/server/action_masks.py].

    When generation is constrained by a grammar, the sampler saw a bit mask of allowed tokens
    at each position.  The masks are shipped to the trainer as a table of distinct token sets
    (each the allowed or the denied tokens, whichever are fewer) and, per position, the index
    of its set.

    [entry_allows], [set_at] and [mask_at] are the reader's view: which tokens a stored mask
    allows.  The theorems say that building an entry from a bit mask, and the table from the
    entries, loses nothing. *)

From stdpp Require Import prelude strings list sorting.
From Stdlib Require Import ZArith Lia.
From S2P Require Import Prelude Dict.
Local Open Scope Z_scope.

(** ** Values from outside *)

(** A Python value as far as the module looks at it; of a float only whether it is integral. *)
Inductive raw_value :=
  | RNone
  | RBool (b : bool)
  | RInt (z : Z)
  | RFloat (integral : option Z)
  | RStr (s : string)
  | RList (l : list raw_value)
  | RMap (m : list (string * raw_value))
  | RObject (cls : string).

Definition truthy (v : raw_value) : bool :=
  match v with
  | RNone => false
  | RBool b => b
  | RInt z => negb (z =? 0)
  | RFloat i => negb (bool_decide (i = Some 0))
  | RStr s => negb (String.eqb s "")
  | RList l => negb (bool_decide (length l = 0%nat))
  | RMap m => negb (bool_decide (length m = 0%nat))
  | RObject _ => true
  end.

Definition require_int (v : raw_value) : res Z :=
  match v with
  | RBool _ => Raise (TypeError "must be int, got bool")
  | RInt z => Ok z
  | RFloat (Some z) => Ok z
  | _ => Raise (TypeError "must be int")
  end.

Definition field (m : list (string * raw_value)) (k : string) : raw_value := default RNone (dict_get m k).

(** [for value in v or []]. *)
Definition iterate (v : raw_value) : res (list raw_value) :=
  if negb (truthy v) then Ok []
  else match v with
       | RList l => Ok l
       | RMap m => Ok (List.map (fun kv => RStr kv.1) m)
       | RStr s => Ok (List.map (fun c => RStr (String.String c "")) (String.list_ascii_of_string s))
       | _ => Raise (TypeError "object is not iterable")
       end.

Definition int_list (v : raw_value) : res (list Z) := l ← iterate v; mapM require_int l.

(** ** The table *)

Record action_masks := ActionMasks {
  seq_len : Z;
  vocab_size : Z;
  positions : list Z;
  set_indices : list Z;
  set_modes_allow : list bool;
  set_offsets : list Z;
  token_ids : list Z;
}.

(** The checks of [normalize_action_masks] once the types are right. *)
Definition validate (m : action_masks) : res action_masks :=
  check (length (positions m) =? length (set_indices m))%nat (ValueError "positions and set_indices length mismatch");;
  check (length (set_offsets m) =? length (set_modes_allow m) + 1)%nat (ValueError "set_offsets must have len(set_modes_allow) + 1");;
  check (match head (set_offsets m) with Some o => o =? 0 | None => true end) (ValueError "set_offsets must start at 0");;
  check (match last (set_offsets m) with Some o => o =? Z.of_nat (length (token_ids m)) | None => true end)
    (ValueError "set_offsets last value must equal len(token_ids)");;
  check (bool_decide (positions m = py_sorted Z.ltb (remove_dups (positions m)))) (ValueError "positions must be sorted and unique");;
  check (match last (positions m) with Some p => p <? seq_len m | None => true end) (ValueError "positions exceed seq_len");;
  check (forallb (fun t => (0 <=? t) && (t <? vocab_size m)) (token_ids m)) (ValueError "token_ids exceed vocab_size");;
  Ok m.

Definition normalize_action_masks (raw : raw_value) : res (option action_masks) :=
  match raw with
  | RNone => Ok None
  | RMap m =>
      seq_len ← require_int (field m "seq_len");
      vocab_size ← require_int (field m "vocab_size");
      positions ← int_list (field m "positions");
      set_indices ← int_list (field m "set_indices");
      modes ← iterate (field m "set_modes_allow");
      set_offsets ← int_list (field m "set_offsets");
      token_ids ← int_list (field m "token_ids");
      m ← validate (ActionMasks seq_len vocab_size positions set_indices (List.map truthy modes) set_offsets token_ids);
      Ok (Some m)
  | _ => Raise (TypeError "action_masks must be a mapping")
  end.

(** What [action_masks_from_entries] passes to [normalize_action_masks]. *)
Definition to_raw (m : action_masks) : raw_value :=
  RMap [("seq_len", RInt (seq_len m)); ("vocab_size", RInt (vocab_size m)); ("positions", RList (RInt <$> positions m));
        ("set_indices", RList (RInt <$> set_indices m)); ("set_modes_allow", RList (RBool <$> set_modes_allow m));
        ("set_offsets", RList (RInt <$> set_offsets m)); ("token_ids", RList (RInt <$> token_ids m))].

(** ** From entries *)

Abbreviation mask_set := (bool * list Z)%type.
Record entry := Entry { e_position : Z; e_allow : bool; e_ids : list Z }.

(** The local variables of the loop. *)
Record builder := Builder {
  b_positions : list Z;
  b_indices : list Z;
  b_keys : list (mask_set * Z);
  b_modes : list bool;
  b_offsets : list Z;
  b_tokens : list Z;
}.
Definition builder0 : builder := Builder [] [] [] [] [0] [].

Definition add_entry (seq_len : Z) (b : builder) (e : entry) : builder :=
  if seq_len <=? e_position e then b
  else
    let ids := py_sorted Z.ltb (e_ids e) in
    if bool_decide (length ids = 0%nat) then b
    else
      let key := (e_allow e, ids) in
      match dict_get (b_keys b) key with
      | Some i => Builder (b_positions b ++ [e_position e]) (b_indices b ++ [i]) (b_keys b) (b_modes b) (b_offsets b) (b_tokens b)
      | None =>
          let i := Z.of_nat (length (b_modes b)) in
          let tokens := b_tokens b ++ ids in
          Builder (b_positions b ++ [e_position e]) (b_indices b ++ [i]) (dict_set (b_keys b) key i) (b_modes b ++ [e_allow e])
            (b_offsets b ++ [Z.of_nat (length tokens)]) tokens
      end.

Definition action_masks_from_entries (seq_len vocab_size : Z) (entries : list entry) : res (option action_masks) :=
  let b := fold_left (add_entry seq_len) (py_sorted (by_key e_position Z.ltb) entries) builder0 in
  if bool_decide (length (b_positions b) = 0%nat) then Ok None
  else normalize_action_masks (to_raw (ActionMasks seq_len vocab_size (b_positions b) (b_indices b) (b_modes b) (b_offsets b) (b_tokens b))).

(** ** From bit masks *)

(** [words.view(np.uint8)] on a little-endian machine. *)
Definition word_bytes (w : Z) : list Z := List.map (fun i => Z.land (Z.shiftr w (8 * i)) 255) [0; 1; 2; 3].
(** [np.unpackbits(..., bitorder="little")]. *)
Definition byte_bits (b : Z) : list bool := List.map (Z.testbit b) [0; 1; 2; 3; 4; 5; 6; 7].
Definition unpackbits (words : list Z) : list bool := concat (List.map byte_bits (concat (List.map word_bytes words))).

Definition flatnonzero (bits : list bool) : list Z :=
  omap (fun ib : nat * bool => if ib.2 then Some (Z.of_nat ib.1) else None) (imap pair bits).

Definition token_ids_from_words (words : list Z) (vocab : nat) (want_allowed : bool) : list Z :=
  let bits := take vocab (unpackbits words) in flatnonzero (if want_allowed then bits else negb <$> bits).

Definition count_true (bits : list bool) : nat := length (filter (fun b => b = true) bits).

Definition mask_set_from_words (words : list Z) (vocab : nat) : res mask_set :=
  let allowed_count := count_true (take vocab (unpackbits words)) in
  if (allowed_count <=? 0)%nat then Raise (ValueError "xgrammar returned no allowed token ids")
  else
    let denied_count := Z.of_nat vocab - Z.of_nat allowed_count in
    if denied_count =? 0 then Ok (false, [])
    else
      let use_allow := Z.of_nat allowed_count <=? denied_count in
      Ok (use_allow, token_ids_from_words words vocab use_allow).

Definition uint32 (z : Z) : Z := z mod 2 ^ 32.

(** [normalized_words[-1] &= (1 << valid_bits) - 1]. *)
Definition mask_last (words : list Z) (valid_bits : Z) : res (list Z) :=
  match last words with
  | Some w => Ok (take (length words - 1) words ++ [Z.land w (2 ^ valid_bits - 1)])
  | None => Raise (IndexError "index -1 is out of bounds")
  end.

Definition action_mask_entry_from_bitmask_words (words : list Z) (position : Z) (vocab : nat) : res (option entry) :=
  let valid_bits := Z.of_nat vocab mod 32 in
  words ← (if valid_bits =? 0 then Ok (uint32 <$> words) else mask_last (uint32 <$> words) valid_bits);
  s ← mask_set_from_words words vocab;
  if bool_decide (length s.2 = 0%nat) then Ok None else Ok (Some (Entry position s.1 s.2)).

(** ** The reader's view *)

Definition set_allows (s : mask_set) (t : Z) : bool := if s.1 then bool_decide (t ∈ s.2) else negb (bool_decide (t ∈ s.2)).
Definition entry_allows (e : option entry) (t : Z) : bool :=
  match e with Some e => set_allows (e_allow e, e_ids e) t | None => true end.

(** The slice [token_ids[set_offsets[i] : set_offsets[i + 1]]] with its mode. *)
Definition set_at (m : action_masks) (i : Z) : option mask_set :=
  mode ← set_modes_allow m !! Z.to_nat i;
  a ← set_offsets m !! Z.to_nat i;
  b ← set_offsets m !! S (Z.to_nat i);
  Some (mode, take (Z.to_nat (b - a)) (drop (Z.to_nat a) (token_ids m))).

Definition mask_at (m : action_masks) (p : Z) : option mask_set :=
  i ← fst <$> list_find (fun q => q = p) (positions m);
  s ← set_indices m !! i;
  set_at m s.

(** What the table allows at a position. *)
Definition masks_allow (m : action_masks) (p t : Z) : bool :=
  match mask_at m p with Some s => set_allows s t | None => true end.

(** ** Bits *)

Lemma byte_bits_of w i : 0 <= i -> byte_bits (Z.land (Z.shiftr w (8 * i)) 255) = List.map (Z.testbit w) (List.map (Z.add (8 * i)) [0; 1; 2; 3; 4; 5; 6; 7]).
Proof.
  intros Hi. unfold byte_bits. rewrite List.map_map. apply List.map_ext_in. intros j Hj.
  assert (Hj8 : 0 <= j < 8) by (repeat (destruct Hj as [<-|Hj]; [lia|]); destruct Hj).
  rewrite Z.land_spec, Z.shiftr_spec by lia. change 255 with (Z.ones 8). rewrite Z.ones_spec_low by lia. rewrite andb_true_r. f_equal. lia.
Qed.

Lemma word_bits w : concat (List.map byte_bits (word_bytes w)) = List.map (Z.testbit w) (seqZ 0 32).
Proof.
  replace (seqZ 0 32) with (concat (List.map (fun i => List.map (Z.add (8 * i)) [0; 1; 2; 3; 4; 5; 6; 7]) [0; 1; 2; 3])) by (vm_compute; reflexivity).
  rewrite List.concat_map. unfold word_bytes. rewrite !List.map_map. f_equal. apply List.map_ext_in. intros i Hi. apply byte_bits_of.
  repeat (destruct Hi as [<-|Hi]; [lia|]); destruct Hi.
Qed.

Lemma unpackbits_cons w words : unpackbits (w :: words) = List.map (Z.testbit w) (seqZ 0 32) ++ unpackbits words.
Proof. unfold unpackbits. rewrite List.map_cons, List.concat_cons, List.map_app, List.concat_app, word_bits. done. Qed.

Definition word_allows (words : list Z) (t : nat) : bool :=
  match words !! (t / 32)%nat with Some w => Z.testbit w (Z.of_nat t mod 32) | None => false end.

Lemma unpackbits_lookup words : forall t, (t < 32 * length words)%nat -> unpackbits words !! t = Some (word_allows words t).
Proof.
  induction words as [|w words IH]; intros t Ht; [simpl in Ht; lia|]. rewrite unpackbits_cons. unfold word_allows in *.
  assert (Hlen : length (List.map (Z.testbit w) (seqZ 0 32)) = 32%nat) by (by rewrite List.length_map, length_seqZ).
  destruct (decide (t < 32)%nat) as [Hlt|Hge].
  - rewrite lookup_app_l by lia. rewrite (Nat.div_small t 32) by lia. change ((w :: words) !! 0%nat) with (Some w).
    change (List.map (Z.testbit w) (seqZ 0 32)) with (Z.testbit w <$> seqZ 0 32). rewrite list_lookup_fmap, lookup_seqZ_lt by lia.
    cbn [fmap option_fmap option_map]. rewrite Z.mod_small by lia. done.
  - rewrite lookup_app_r by lia. rewrite Hlen, IH by (simpl in Ht; lia).
    assert (Hd : (t / 32 = S ((t - 32) / 32))%nat) by (replace t with (t - 32 + 1 * 32)%nat at 1 by lia; rewrite Nat.div_add by lia; lia).
    replace (Z.of_nat t) with (Z.of_nat (t - 32) + 1 * 32) by lia. rewrite Hd, Z.mod_add by lia. done.
Qed.

Lemma flatnonzero_elem bits t : t ∈ flatnonzero bits <-> exists n, t = Z.of_nat n /\ bits !! n = Some true.
Proof.
  unfold flatnonzero. rewrite list_elem_of_omap. split.
  - intros ([n b] & (i & b' & [= -> ->] & Hi)%elem_of_lookup_imap & Hb). simpl in Hb. destruct b'; [|done]. injection Hb as <-. eauto.
  - intros (n & -> & Hn). exists (n, true). split; [|done]. apply elem_of_lookup_imap. eauto.
Qed.

Lemma flatnonzero_nil bits : flatnonzero bits = [] <-> forall n, bits !! n <> Some true.
Proof.
  split.
  - intros Hnil n Hn. assert (Hin : Z.of_nat n ∈ flatnonzero bits) by (apply flatnonzero_elem; eauto). rewrite Hnil in Hin. by apply not_elem_of_nil in Hin.
  - intros Hno. destruct (flatnonzero bits) as [|t l] eqn:E; [done|]. assert (Hin : t ∈ flatnonzero bits) by (rewrite E; by left).
    apply flatnonzero_elem in Hin as (n & _ & Hn). by apply Hno in Hn.
Qed.

Lemma count_true_zero bits : count_true bits = 0%nat <-> forall n, bits !! n <> Some true.
Proof.
  unfold count_true. rewrite length_zero_iff_nil. split.
  - intros Hnil n Hn. apply list_elem_of_lookup_2 in Hn. assert (Hin : true ∈ filter (fun b => b = true) bits) by (by apply list_elem_of_filter).
    rewrite Hnil in Hin. by apply not_elem_of_nil in Hin.
  - intros Hno. apply filter_none. intros b Hb ->. apply list_elem_of_lookup_1 in Hb as [n Hn]. by apply (Hno n).
Qed.

Lemma count_true_full bits : (count_true bits <= length bits)%nat /\ (count_true bits = length bits <-> forall n, bits !! n <> Some false).
Proof.
  unfold count_true. induction bits as [|b bits [IH1 IH2]]; [split; [done|]; by split|]. rewrite filter_cons.
  destruct b; simpl; split; try lia.
  - split.
    + intros Hl [|n]; [done|]. simpl. apply IH2. lia.
    + intros Hno. f_equal. apply IH2. intros n. apply (Hno (S n)).
  - split; [lia|]. intros Hno. by destruct (Hno 0%nat).
Qed.

(** [np.uint32] and the mask of the last word keep the bits below [vocab]. *)
Definition normalized (words words' : list Z) (vocab : nat) : Prop :=
  length words' = length words /\ forall t, (t < vocab)%nat -> word_allows words' t = word_allows words t.

Lemma uint32_bits words vocab : normalized words (uint32 <$> words) vocab.
Proof.
  split; [by rewrite length_fmap|]. intros t _. unfold word_allows. rewrite list_lookup_fmap. destruct (words !! _) as [w|]; [|done]. simpl.
  unfold uint32. rewrite Z.mod_pow2_bits_low; [done|]. pose proof (Z.mod_pos_bound (Z.of_nat t) 32). lia.
Qed.

Lemma mask_last_bits words vocab :
  length words = ((vocab + 31) / 32)%nat -> Z.of_nat vocab mod 32 <> 0 ->
  exists words', mask_last words (Z.of_nat vocab mod 32) = Ok words' /\ normalized words words' vocab.
Proof.
  intros Hlen Hv. assert (Hv' : (vocab mod 32 <> 0)%nat) by lia. pose proof (Nat.div_mod_eq vocab 32) as Hdm.
  assert (Hlen' : length words = S (vocab / 32)).
  { rewrite Hlen. replace (vocab + 31)%nat with (vocab mod 32 + 31 + (vocab / 32) * 32)%nat by lia. rewrite Nat.div_add by lia.
    replace (vocab mod 32 + 31)%nat with (vocab mod 32 - 1 + 1 * 32)%nat by lia. rewrite Nat.div_add by lia.
    pose proof (Nat.mod_upper_bound vocab 32). rewrite Nat.div_small by lia. lia. }
  destruct words as [|w ws _] using rev_ind; [done|]. rewrite length_app in Hlen'. cbn [length] in Hlen'.
  unfold mask_last. rewrite last_snoc. eexists. split; [done|].
  rewrite take_app_le, take_ge by (rewrite length_app; simpl; lia). split; [by rewrite !length_app|]. intros t Ht. unfold word_allows.
  destruct (decide (t / 32 < length ws)%nat) as [Hlt|Hge]; [by rewrite !lookup_app_l by lia|].
  assert (Htd : (t / 32 <= vocab / 32)%nat) by (apply Nat.Div0.div_le_mono; lia).
  rewrite !lookup_app_r by lia. replace (t / 32 - length ws)%nat with 0%nat by lia. simpl.
  replace (2 ^ (Z.of_nat vocab mod 32) - 1) with (Z.ones (Z.of_nat vocab mod 32)) by (rewrite Z.ones_equiv; lia).
  rewrite Z.land_spec, Z.ones_spec_low, andb_true_r; [done|].
  pose proof (Nat.div_mod_eq t 32). lia.
Qed.

Lemma normalized_trans w1 w2 w3 n : normalized w1 w2 n -> normalized w2 w3 n -> normalized w1 w3 n.
Proof. intros [H1 H2] [H3 H4]. split; [congruence|]. intros t Ht. by rewrite H4, H2. Qed.

Lemma normalize_words words vocab :
  length words = ((vocab + 31) / 32)%nat ->
  exists words', (if Z.of_nat vocab mod 32 =? 0 then Ok (uint32 <$> words) else mask_last (uint32 <$> words) (Z.of_nat vocab mod 32)) = Ok words' /\
    normalized words words' vocab.
Proof.
  intros Hlen. destruct (Z.eqb_spec (Z.of_nat vocab mod 32) 0) as [Hz|Hz]; [eexists; split; [done|apply uint32_bits]|].
  destruct (mask_last_bits (uint32 <$> words) vocab) as (w' & Hw & Hn); [by rewrite length_fmap|done|].
  exists w'. split; [done|]. eapply normalized_trans; [apply uint32_bits|done].
Qed.

Lemma vocab_bits (words : list Z) vocab : length words = ((vocab + 31) / 32)%nat -> (vocab <= 32 * length words)%nat.
Proof. intros ->. pose proof (Nat.div_mod_eq (vocab + 31) 32). pose proof (Nat.mod_upper_bound (vocab + 31) 32). lia. Qed.

Lemma bits_below words vocab n b :
  (vocab <= 32 * length words)%nat -> take vocab (unpackbits words) !! n = Some b <-> (n < vocab)%nat /\ word_allows words n = b.
Proof.
  intros Hv. rewrite lookup_take_Some. split.
  - intros [Hl Hn]. split; [done|]. rewrite unpackbits_lookup in Hl by lia. by injection Hl.
  - intros [Hn <-]. split; [|done]. by rewrite unpackbits_lookup by lia.
Qed.

Lemma token_ids_elem words vocab want t :
  (vocab <= 32 * length words)%nat ->
  t ∈ token_ids_from_words words vocab want <-> exists n, t = Z.of_nat n /\ (n < vocab)%nat /\ word_allows words n = want.
Proof.
  intros Hv. unfold token_ids_from_words. rewrite flatnonzero_elem. pose proof (fun n b => bits_below words vocab n b Hv) as Hb. destruct want.
  - split; intros (n & -> & Hn); exists n; (split; [done|]); by apply Hb.
  - setoid_rewrite list_lookup_fmap. split.
    + intros (n & -> & Hn). exists n. split; [done|]. apply Hb. destruct (take vocab (unpackbits words) !! n) as [[]|]; done.
    + intros (n & -> & Hn). exists n. split; [done|]. apply Hb in Hn. by rewrite Hn.
Qed.

Lemma length_unpackbits words : length (unpackbits words) = (32 * length words)%nat.
Proof. induction words as [|w words IH]; [done|]. rewrite unpackbits_cons, length_app, List.length_map, length_seqZ, IH. simpl. lia. Qed.

Lemma allowed_count_zero words vocab :
  (vocab <= 32 * length words)%nat ->
  count_true (take vocab (unpackbits words)) = 0%nat <-> forall n, (n < vocab)%nat -> word_allows words n = false.
Proof.
  intros Hv. rewrite count_true_zero. pose proof (fun n b => bits_below words vocab n b Hv) as Hb. split.
  - intros Hno n Hn. apply not_true_iff_false. intros Ht. apply (Hno n), Hb. done.
  - intros Hno n Hn. apply Hb in Hn as [Hn Ht]. rewrite (Hno n Hn) in Ht. done.
Qed.

Lemma allowed_count_full words vocab :
  (vocab <= 32 * length words)%nat ->
  (count_true (take vocab (unpackbits words)) <= vocab)%nat /\
  (count_true (take vocab (unpackbits words)) = vocab <-> forall n, (n < vocab)%nat -> word_allows words n = true).
Proof.
  intros Hv. pose proof (fun n b => bits_below words vocab n b Hv) as Hb. destruct (count_true_full (take vocab (unpackbits words))) as [Hle Hfull].
  rewrite length_take, length_unpackbits, Nat.min_l in * by lia. split; [done|]. rewrite Hfull. split.
  - intros Hno n Hn. apply not_false_iff_true. intros Hf. apply (Hno n), Hb. done.
  - intros Hall n Hn. apply Hb in Hn as [Hn Hf]. rewrite (Hall n Hn) in Hf. done.
Qed.

(** A set of tokens below [vocab] whose empty case denies nothing. *)
Definition good_set (s : mask_set) (vocab : nat) : Prop := (forall t, t ∈ s.2 -> 0 <= t < Z.of_nat vocab) /\ (s.2 = [] -> s.1 = false).

(** The set chosen from a mask allows exactly the tokens of the mask. *)
Lemma mask_set_ok words vocab :
  (vocab <= 32 * length words)%nat -> (exists n, (n < vocab)%nat /\ word_allows words n = true) ->
  exists s, mask_set_from_words words vocab = Ok s /\ good_set s vocab /\ forall n, (n < vocab)%nat -> set_allows s (Z.of_nat n) = word_allows words n.
Proof.
  intros Hv (n0 & Hn0 & Ha0). unfold mask_set_from_words.
  destruct (Nat.leb_spec (count_true (take vocab (unpackbits words))) 0) as [Hz|Hpos].
  { assert (Hz' : count_true (take vocab (unpackbits words)) = 0%nat) by lia. rewrite (proj1 (allowed_count_zero words vocab Hv) Hz' n0 Hn0) in Ha0. done. }
  destruct (allowed_count_full words vocab Hv) as [Hle Hfull].
  destruct (Z.eqb_spec (Z.of_nat vocab - Z.of_nat (count_true (take vocab (unpackbits words)))) 0) as [Hd|Hd].
  - exists (false, []). split_and!; [done|split; [|done]; by intros t Ht%not_elem_of_nil|]. intros n Hn. rewrite (proj1 Hfull) by lia || lia.
    unfold set_allows. cbn [fst snd]. by rewrite bool_decide_false by apply not_elem_of_nil.
  - set (use := _ <=? _). exists (use, token_ids_from_words words vocab use). split; [done|].
    pose proof (fun t => token_ids_elem words vocab use t Hv) as Hel. split; [split|].
    + intros t (n & -> & Hn & _)%Hel. simpl. lia.
    + simpl. intros Hnil. destruct use eqn:Hu; [exfalso|done]. assert (Hin : Z.of_nat n0 ∈ token_ids_from_words words vocab true) by (apply Hel; eauto).
      rewrite Hnil in Hin. by apply not_elem_of_nil in Hin.
    + intros n Hn. unfold set_allows. simpl. assert (Hiff : Z.of_nat n ∈ token_ids_from_words words vocab use <-> word_allows words n = use).
      { rewrite Hel. split; [intros (m & Hm & _ & <-); by replace m with n by lia|eauto]. }
      rewrite (bool_decide_ext _ _ Hiff). by destruct use, (word_allows words n).
Qed.

(** An entry made from the words of a bit mask allows exactly the tokens the mask allows; a mask that allows nothing is refused. *)
Lemma entry_from_words_ok words position vocab :
  length words = ((vocab + 31) / 32)%nat -> (exists n, (n < vocab)%nat /\ word_allows words n = true) ->
  exists e, action_mask_entry_from_bitmask_words words position vocab = Ok e /\
    (forall n, (n < vocab)%nat -> entry_allows e (Z.of_nat n) = word_allows words n) /\
    forall e', e = Some e' -> e_position e' = position /\ e_ids e' <> [] /\ forall t, t ∈ e_ids e' -> 0 <= t < Z.of_nat vocab.
Proof.
  intros Hlen (n0 & Hn0 & Ha0). destruct (normalize_words words vocab Hlen) as (w' & Hw' & Hl' & Hbits).
  assert (Hv : (vocab <= 32 * length w')%nat) by (rewrite Hl'; by apply vocab_bits).
  destruct (mask_set_ok w' vocab Hv) as (s & Hs & [Hrange Hempty] & Hallow); [exists n0; by rewrite Hbits|].
  unfold action_mask_entry_from_bitmask_words. rewrite Hw'. cbn [mbind res_bind]. rewrite Hs. cbn [mbind res_bind].
  destruct (bool_decide_reflect (length s.2 = 0%nat)) as [E|E].
  - exists None. split_and!; [done| |done]. intros n Hn. rewrite <- Hbits, <- Hallow by done. apply nil_length_inv in E.
    unfold set_allows. rewrite (Hempty E), E. by rewrite bool_decide_false by apply not_elem_of_nil.
  - eexists. split_and!; [done| |].
    + intros n Hn. simpl. rewrite <- surjective_pairing, Hallow, Hbits; done.
    + intros e' [= <-]. split_and!; [done| |done]. simpl. intros Hnil. apply E. by rewrite Hnil.
Qed.

Lemma entry_from_words_none words position vocab :
  length words = ((vocab + 31) / 32)%nat -> (forall n, (n < vocab)%nat -> word_allows words n = false) ->
  action_mask_entry_from_bitmask_words words position vocab = Raise (ValueError "xgrammar returned no allowed token ids").
Proof.
  intros Hlen Hno. destruct (normalize_words words vocab Hlen) as (w' & Hw' & Hl' & Hbits).
  assert (Hv : (vocab <= 32 * length w')%nat) by (rewrite Hl'; by apply vocab_bits).
  unfold action_mask_entry_from_bitmask_words. rewrite Hw'. cbn [mbind res_bind]. unfold mask_set_from_words.
  rewrite (proj2 (allowed_count_zero w' vocab Hv)); [done|]. intros n Hn. by rewrite Hbits, Hno.
Qed.

(** ** The table of sets *)

Definition key_of (e : entry) : mask_set := (e_allow e, py_sorted Z.ltb (e_ids e)).
Definition kept (seq_len : Z) (e : entry) : Prop := e_position e < seq_len /\ e_ids e <> [].
#[export] Instance kept_dec n e : Decision (kept n e).
Proof. unfold kept. apply _. Defined.

Fixpoint offsets_of (acc : Z) (ks : list mask_set) : list Z :=
  acc :: match ks with [] => [] | k :: ks => offsets_of (acc + Z.of_nat (length k.2)) ks end.

Lemma offsets_snoc ks k : forall acc, offsets_of acc (ks ++ [k]) = offsets_of acc ks ++ [acc + Z.of_nat (length (concat (ks.*2 ++ [k.2])))].
Proof.
  induction ks as [|k' ks IH]; intros acc; simpl; [by rewrite app_nil_r|]. rewrite IH. csimpl. rewrite length_app. rewrite Nat2Z.inj_add, Z.add_assoc. done.
Qed.

Lemma offsets_lookup ks i : forall acc, (i <= length ks)%nat -> offsets_of acc ks !! i = Some (acc + Z.of_nat (length (concat ((take i ks).*2)))).
Proof.
  revert i. induction ks as [|k ks IH]; intros [|i] acc Hi; [simpl; f_equal; lia|simpl in Hi; lia|simpl; f_equal; lia|].
  simpl in *. rewrite IH by lia. csimpl. rewrite length_app. by rewrite Nat2Z.inj_add, Z.add_assoc.
Qed.

Lemma length_offsets ks : forall acc, length (offsets_of acc ks) = S (length ks).
Proof. induction ks as [|k ks IH]; intros acc; simpl; [done|]. by rewrite IH. Qed.

Lemma last_offsets ks : forall acc, last (offsets_of acc ks) = Some (acc + Z.of_nat (length (concat (ks.*2)))).
Proof.
  intros acc. rewrite last_lookup, length_offsets. simpl. rewrite offsets_lookup by lia. by rewrite take_ge by lia.
Qed.

Lemma table_slice (ls : list (list Z)) i l : ls !! i = Some l -> take (length l) (drop (length (concat (take i ls))) (concat ls)) = l.
Proof.
  intros Hl. rewrite <- (take_drop i ls) at 2. rewrite concat_app, drop_app_length. rewrite (drop_S _ _ _ Hl). simpl. apply take_app_length.
Qed.

(** The sets [ks] with their numbers, as the loop stores them. *)
Record table_of (ks : list mask_set) (b : builder) : Prop := {
  tb_nodup : NoDup ks;
  tb_keys : b_keys b = imap (fun i k => (k, Z.of_nat i)) ks;
  tb_modes : b_modes b = ks.*1;
  tb_offsets : b_offsets b = offsets_of 0 ks;
  tb_tokens : b_tokens b = concat (ks.*2);
}.

Definition points_to (ks : list mask_set) (e : entry) (i : Z) : Prop := exists n, i = Z.of_nat n /\ ks !! n = Some (key_of e).

(** After the kept entries [es]. *)
Definition built (es : list entry) (b : builder) : Prop :=
  exists ks, table_of ks b /\ b_positions b = e_position <$> es /\ Forall2 (points_to ks) es (b_indices b) /\
    forall k, k ∈ ks -> exists e, e ∈ es /\ k = key_of e.

Lemma numbered_keys (ks : list mask_set) : dict_keys (imap (fun i k => (k, Z.of_nat i)) ks) = ks.
Proof.
  unfold dict_keys. rewrite fmap_imap. apply list_eq. intros i. rewrite list_lookup_imap. by destruct (ks !! i).
Qed.

Lemma numbered_get (ks : list mask_set) k i : NoDup ks -> dict_get (imap (fun i k => (k, Z.of_nat i)) ks) k = Some i <-> exists n, i = Z.of_nat n /\ ks !! n = Some k.
Proof.
  intros Hnd. split.
  - intros Hg%dict_get_elem. apply elem_of_lookup_imap in Hg as (n & k' & [= -> ->] & Hn). eauto.
  - intros (n & -> & Hn). apply dict_elem_get; [by rewrite numbered_keys|]. apply elem_of_lookup_imap. eauto.
Qed.

Lemma numbered_None (ks : list mask_set) k : dict_get (imap (fun i k => (k, Z.of_nat i)) ks) k = None <-> k ∉ ks.
Proof. rewrite dict_get_None. by rewrite numbered_keys. Qed.

Lemma add_entry_skip n b e : ~ kept n e -> add_entry n b e = b.
Proof.
  intros Hk. unfold add_entry. destruct (Z.leb_spec n (e_position e)) as [?|Hlt]; [done|].
  rewrite bool_decide_true; [done|]. rewrite py_sorted_length. destruct (e_ids e) eqn:E; [done|]. exfalso. apply Hk. split; [lia|congruence].
Qed.

Lemma points_to_app ks k e i : points_to ks e i -> points_to (ks ++ [k]) e i.
Proof. intros (n & -> & Hn). exists n. split; [done|]. rewrite lookup_app_l; [done|]. by eapply lookup_lt_Some. Qed.

Lemma table_snoc ks b k pos idx :
  table_of ks b -> k ∉ ks ->
  table_of (ks ++ [k]) (Builder pos idx (dict_set (b_keys b) k (Z.of_nat (length (b_modes b)))) (b_modes b ++ [k.1])
    (b_offsets b ++ [Z.of_nat (length (b_tokens b ++ k.2))]) (b_tokens b ++ k.2)).
Proof.
  intros [Hnd Hk Hm Ho Ht] Hni. split; simpl.
  - apply NoDup_app. split_and!; [done| |apply NoDup_singleton]. intros x Hx ->%list_elem_of_singleton. done.
  - rewrite Hk, dict_set_new by (by rewrite numbered_keys). rewrite imap_app, Hm, length_fmap. simpl. by rewrite Nat.add_0_r.
  - by rewrite Hm, fmap_app.
  - rewrite Ho, offsets_snoc, Ht. do 2 f_equal. rewrite concat_app. simpl. by rewrite app_nil_r.
  - rewrite Ht, fmap_app, concat_app. simpl. by rewrite app_nil_r.
Qed.

Lemma built_add n es b e : built es b -> kept n e -> built (es ++ [e]) (add_entry n b e).
Proof.
  intros (ks & Ht & Hp & Hi & Hsrc) [Hpos Hids]. unfold add_entry. destruct (Z.leb_spec n (e_position e)) as [?|_]; [lia|].
  rewrite bool_decide_false by (rewrite py_sorted_length; by intros ?%nil_length_inv). change (e_allow e, py_sorted Z.ltb (e_ids e)) with (key_of e).
  rewrite (tb_keys _ _ Ht). destruct (dict_get (imap _ ks) (key_of e)) as [i|] eqn:E.
  - apply (numbered_get ks _ _ (tb_nodup _ _ Ht)) in E as (m & -> & Hm). exists ks. split_and!; simpl.
    + destruct Ht. split; done.
    + by rewrite Hp, fmap_app.
    + apply Forall2_app; [done|]. repeat constructor. by exists m.
    + intros k Hk. destruct (Hsrc k Hk) as (e' & He' & ->). exists e'. split; [|done]. apply elem_of_app. by left.
  - apply numbered_None in E. exists (ks ++ [key_of e]). split_and!; simpl.
    + rewrite <- (tb_keys _ _ Ht). by apply (table_snoc ks b (key_of e)).
    + by rewrite Hp, fmap_app.
    + apply Forall2_app; [eapply Forall2_impl; [exact Hi|intros; by apply points_to_app]|]. repeat constructor. exists (length ks).
      rewrite (tb_modes _ _ Ht), length_fmap. split; [done|]. by rewrite lookup_app_r, Nat.sub_diag by lia.
    + intros k [Hk| ->%list_elem_of_singleton]%elem_of_app; [destruct (Hsrc k Hk) as (e' & He' & ->); exists e'|exists e]; (split; [|done]);
        apply elem_of_app; [by left|right; by apply list_elem_of_singleton].
Qed.

Lemma built_all n l : forall es b, built es b -> built (es ++ filter (kept n) l) (fold_left (add_entry n) l b).
Proof.
  induction l as [|e l IH]; intros es b Hb; simpl; [by rewrite filter_nil, app_nil_r|]. rewrite filter_cons. destruct (decide (kept n e)) as [Hk|Hk].
  - change (e :: filter (kept n) l) with ([e] ++ filter (kept n) l). rewrite app_assoc. apply IH. by apply built_add.
  - rewrite add_entry_skip by done. by apply IH.
Qed.

Lemma built_nil : built [] builder0.
Proof. exists []. split_and!; [by split; [constructor|..]|done|constructor|]. intros k Hk. by apply not_elem_of_nil in Hk. Qed.

(** *** The checks *)

Lemma remove_dups_id (l : list Z) : NoDup l -> remove_dups l = l.
Proof. induction 1 as [|x l Hx Hl IH]; simpl; [done|]. case_decide; [done|]. by rewrite IH. Qed.

Lemma sorted_unique (l : list Z) :
  StronglySorted (fun x y => (y <? x) = false) l -> bool_decide (l = py_sorted Z.ltb (remove_dups l)) = bool_decide (NoDup l).
Proof.
  intros Hs. apply bool_decide_ext. split.
  - intros ->. rewrite py_sorted_perm. apply NoDup_remove_dups.
  - intros Hnd. by rewrite remove_dups_id, py_sorted_id.
Qed.

Lemma iterate_list l : iterate (RList l) = Ok l.
Proof. unfold iterate. simpl. by destruct l. Qed.

Lemma int_list_ints l : int_list (RList (RInt <$> l)) = Ok l.
Proof.
  unfold int_list. rewrite iterate_list. cbn [mbind res_bind]. change (RInt <$> l) with (List.map RInt l). rewrite mapM_map.
  rewrite (mapM_ok _ id) by done. by rewrite list_fmap_id.
Qed.

Lemma normalize_raw m : normalize_action_masks (to_raw m) = Some <$> validate m.
Proof.
  destruct m as [n v ps ixs ms os ts]. unfold normalize_action_masks, to_raw. simpl positions. set (raw := [_; _; _; _; _; _; _]).
  assert (field raw "seq_len" = RInt n) as -> by reflexivity. assert (field raw "vocab_size" = RInt v) as -> by reflexivity.
  assert (field raw "positions" = RList (RInt <$> ps)) as -> by reflexivity. assert (field raw "set_indices" = RList (RInt <$> ixs)) as -> by reflexivity.
  assert (field raw "set_modes_allow" = RList (RBool <$> ms)) as -> by reflexivity.
  assert (field raw "set_offsets" = RList (RInt <$> os)) as -> by reflexivity. assert (field raw "token_ids" = RList (RInt <$> ts)) as -> by reflexivity.
  clear raw. cbn [require_int mbind res_bind]. rewrite !int_list_ints, iterate_list. cbn [mbind res_bind].
  replace (List.map truthy (RBool <$> ms)) with ms; [by destruct (validate _)|].
  change (RBool <$> ms) with (List.map RBool ms). rewrite List.map_map. symmetry. apply List.map_id.
Qed.

(** The tables the builder makes pass all checks but two. *)
Definition in_vocab (vocab : Z) (e : entry) : Prop := Forall (fun t => 0 <= t < vocab) (e_ids e).
#[export] Instance in_vocab_dec v e : Decision (in_vocab v e).
Proof. unfold in_vocab. apply _. Defined.

Definition table (seq_len vocab : Z) (b : builder) : action_masks :=
  ActionMasks seq_len vocab (b_positions b) (b_indices b) (b_modes b) (b_offsets b) (b_tokens b).

Lemma built_tokens es b vocab : built es b -> Forall (fun t => 0 <= t < vocab) (b_tokens b) <-> Forall (in_vocab vocab) es.
Proof.
  intros (ks & Ht & _ & Hi & Hsrc). rewrite (tb_tokens _ _ Ht), !Forall_forall. split.
  - intros Hall e He. apply Forall_forall. intros t Hin. apply Hall. apply list_elem_of_lookup_1 in He as [j Hj].
    destruct (Forall2_lookup_l _ _ _ _ _ Hi Hj) as (i & _ & n & _ & Hn). apply elem_of_concat. exists (key_of e).2. split; [by simpl; rewrite py_sorted_perm|].
    apply list_elem_of_fmap. eexists. split; [done|]. by eapply list_elem_of_lookup_2.
  - intros Hall t Hin. apply elem_of_concat in Hin as (l & Hl & (k & -> & Hk)%list_elem_of_fmap). destruct (Hsrc k Hk) as (e & He & ->).
    simpl in Hl. rewrite py_sorted_perm in Hl. specialize (Hall e He). unfold in_vocab in Hall. rewrite Forall_forall in Hall. auto.
Qed.

Lemma validate_table n vocab es b :
  built es b -> Forall (kept n) es -> StronglySorted (fun x y => (y <? x) = false) (e_position <$> es) ->
  validate (table n vocab b) =
    if bool_decide (NoDup (e_position <$> es)) then
      if bool_decide (Forall (in_vocab vocab) es) then Ok (table n vocab b) else Raise (ValueError "token_ids exceed vocab_size")
    else Raise (ValueError "positions must be sorted and unique").
Proof.
  intros Hb Hkept Hsort. pose proof (built_tokens es b vocab Hb) as Htok. destruct Hb as (ks & Ht & Hp & Hi & _). unfold validate, table. simpl.
  rewrite Hp, length_fmap, (Forall2_length _ _ _ Hi), Nat.eqb_refl. rewrite (tb_offsets _ _ Ht), (tb_modes _ _ Ht), length_offsets, length_fmap.
  rewrite (proj2 (Nat.eqb_eq _ _)) by lia. rewrite last_offsets, (tb_tokens _ _ Ht), Z.add_0_l, Z.eqb_refl.
  assert (head (offsets_of 0 ks) = Some 0) as -> by (by destruct ks). rewrite sorted_unique by done. simpl.
  destruct (bool_decide (NoDup _)); [simpl|done].
  assert ((match last (e_position <$> es) with Some p => p <? n | None => true end) = true) as ->.
  { destruct (last (e_position <$> es)) as [p|] eqn:E; [|done]. apply last_Some_elem_of, list_elem_of_fmap in E as (e & -> & He).
    rewrite Forall_forall in Hkept. destruct (Hkept e He). lia. }
  simpl. rewrite (bool_decide_ext _ _ (iff_sym Htok)), (tb_tokens _ _ Ht).
  destruct (forallb _ _) eqn:E; simpl; [rewrite bool_decide_true|rewrite bool_decide_false]; try done.
  - apply Forall_forall. intros t Hin. rewrite forallb_forall in E. specialize (E t (proj1 (list_elem_of_In _ _) Hin)). lia.
  - intros Hall. apply not_true_iff_false in E. apply E. apply forallb_forall. intros t Hin%list_elem_of_In. rewrite Forall_forall in Hall. specialize (Hall t Hin). simpl in Hall. lia.
Qed.

(** *** Reading the table *)

Lemma set_at_table n vocab ks b i k : table_of ks b -> ks !! i = Some k -> set_at (table n vocab b) (Z.of_nat i) = Some k.
Proof.
  intros Ht Hk. assert (Hlt : (i < length ks)%nat) by (by eapply lookup_lt_Some). unfold set_at, table. simpl. rewrite Nat2Z.id.
  rewrite (tb_modes _ _ Ht), (tb_offsets _ _ Ht), (tb_tokens _ _ Ht), list_lookup_fmap, Hk. simpl. rewrite offsets_lookup by lia. simpl.
  rewrite offsets_lookup by lia. simpl. destruct k as [mode ids].
  enough (Hids : forall z, z = 0 + Z.of_nat (length (concat (take i ks).*2)) ->
    take (Z.to_nat (0 + Z.of_nat (length (concat (take (S i) ks).*2)) - z)) (drop (Z.to_nat z) (concat ks.*2)) = ids) by (by rewrite Hids).
  intros z ->. rewrite !Z.add_0_l, Nat2Z.id. rewrite (take_S_r _ _ _ Hk), fmap_app, concat_app, length_app. simpl. rewrite app_nil_r.
  replace (Z.to_nat _) with (length ids) by lia. rewrite fmap_take. apply table_slice. rewrite list_lookup_fmap. by rewrite Hk.
Qed.

Lemma mask_at_table n vocab es b p k :
  built es b -> NoDup (e_position <$> es) ->
  mask_at (table n vocab b) p = Some k <-> exists e, e ∈ es /\ e_position e = p /\ k = key_of e.
Proof.
  intros (ks & Ht & Hp & Hi & _) Hnd. unfold mask_at. simpl. rewrite Hp.
  assert (Hread : forall j e, es !! j = Some e -> (s ← b_indices b !! j; set_at (table n vocab b) s) = Some (key_of e)).
  { intros j e Hj. destruct (Forall2_lookup_l _ _ _ _ _ Hi Hj) as (i & -> & m & -> & Hm). by apply (set_at_table n vocab ks). }
  destruct (list_find (fun q => q = p) (e_position <$> es)) as [[j q]|] eqn:E; simpl.
  - apply list_find_Some in E as (Hj & -> & _). rewrite list_lookup_fmap in Hj. destruct (es !! j) as [e|] eqn:Ej; [|done]. injection Hj as Hj.
    rewrite (Hread j e Ej). split.
    + intros [= <-]. exists e. split_and!; [by eapply list_elem_of_lookup_2|done..].
    + intros (e' & (j' & Ej')%list_elem_of_lookup & Hp' & ->). do 2 f_equal.
      assert (j = j') by (eapply (NoDup_lookup _ _ _ p Hnd); rewrite list_lookup_fmap; [rewrite Ej|rewrite Ej']; simpl; by f_equal). congruence.
  - split; [done|]. intros (e & He & Hpe & _). apply list_find_None in E. rewrite Forall_forall in E. exfalso. apply (E p); [|done].
    apply list_elem_of_fmap. eauto.
Qed.

Lemma sorted_positions n entries :
  StronglySorted (fun x y => (y <? x) = false) (e_position <$> filter (kept n) (py_sorted (by_key e_position Z.ltb) entries)).
Proof.
  pose proof (py_sorted_sorted (by_key e_position Z.ltb) entries) as Hs. induction Hs as [|e l Hl IH He]; [constructor|].
  rewrite filter_cons. destruct (decide (kept n e)); [|done]. csimpl. constructor; [done|]. apply Forall_fmap. apply Forall_filter. exact He.
Qed.

(** The outcome for all entries. *)
Lemma from_entries_ok n vocab entries :
  let es := filter (kept n) (py_sorted (by_key e_position Z.ltb) entries) in
  exists b, built es b /\
  action_masks_from_entries n vocab entries =
    if bool_decide (es = []) then Ok None
    else if bool_decide (NoDup (e_position <$> es)) then
      if bool_decide (Forall (in_vocab vocab) es) then Ok (Some (table n vocab b)) else Raise (ValueError "token_ids exceed vocab_size")
    else Raise (ValueError "positions must be sorted and unique").
Proof.
  intros es. pose proof (built_all n (py_sorted (by_key e_position Z.ltb) entries) [] builder0 built_nil) as Hb. simpl in Hb. fold es in Hb.
  eexists. split; [exact Hb|]. unfold action_masks_from_entries. set (b := fold_left _ _ _) in *. fold (table n vocab b).
  assert (Hlen : length (b_positions b) = length es) by (destruct Hb as (ks & _ & -> & _); apply length_fmap). rewrite Hlen.
  destruct (bool_decide_reflect (es = [])) as [->|Hne]; [done|]. rewrite bool_decide_false by (by intros ?%nil_length_inv).
  rewrite normalize_raw, (validate_table n vocab es b); [|done|apply Forall_forall; intros e [? _]%list_elem_of_filter; done|apply sorted_positions].
  destruct (bool_decide (NoDup _)); [|done]. by destruct (bool_decide (Forall _ _)).
Qed.
