(* ===== verification/ActionReplay.v ===== *)
(** * Replaying the action masks of a generated sequence

    Source: [src/arctic_platform/inference/server/action_mask_replay.py].

    After a constrained generation the server replays the tokens through the grammar to find
    the mask the sampler saw at each position.  Compiled grammars are kept in a cache bounded
    by bytes and by entries; the part of the completion that the grammar constrained is found
    with the help of the reasoning parser; the masks go into the table of [ActionMasks].

    Parameters: xgrammar (compilation, [GrammarMatcher]), the tokenizer, the reasoning parser
    and the helpers of vLLM for choices and Lark grammars, each a record or an argument below.
    Environment variables are a dictionary.  The text of error messages is not modelled. *)

From stdpp Require Import prelude strings list.
From Stdlib Require Import ZArith Lia Ascii.
From S2P Require Import Prelude Dict Json ActionMasks.
Local Open Scope Z_scope.

Definition ActionMaskReplayError (msg : string) : exn := ErrorWithIds "ActionMaskReplayError" [msg].

(** ** The cache of compiled grammars *)

Abbreviation so_key := (string * string * bool)%type.
Abbreviation cache_key := (Z * so_key)%type.

Record replay_grammar (G : Type) := ReplayGrammar { rg_compiled : G; rg_vocab_size : nat; rg_kind : string; rg_cache_size_bytes : Z }.
Arguments ReplayGrammar {G}.
Arguments rg_compiled {G}.
Arguments rg_vocab_size {G}.
Arguments rg_kind {G}.
Arguments rg_cache_size_bytes {G}.

(** [int(s)] of a decimal literal: surrounding white space, a sign, single underscores between digits. *)
Fixpoint digits (acc : Z) (cs : list ascii) : option Z :=
  match cs with
  | [] => Some acc
  | c :: rest =>
      if is_digit c then digits (acc * 10 + (Z.of_nat (nat_of_ascii c) - 48)) rest
      else if decide (c = "_"%char) then
        match rest with
        | d :: rest' => if is_digit d then digits (acc * 10 + (Z.of_nat (nat_of_ascii d) - 48)) rest' else None
        | [] => None
        end
      else None
  end.
Definition unsigned (cs : list ascii) : option Z := match cs with c :: _ => if is_digit c then digits 0 cs else None | [] => None end.
Definition py_int (s : string) : option Z :=
  match strip (chars_of s) with
  | c :: rest =>
      if decide (c = "-"%char) then Z.opp <$> unsigned rest
      else if decide (c = "+"%char) then unsigned rest else unsigned (c :: rest)
  | [] => None
  end.

Definition nonnegative_env_int (environ : list (string * string)) (name : string) (default : Z) : Z :=
  match dict_get environ name with
  | None => Z.max 0 default
  | Some s => match py_int s with Some z => Z.max 0 z | None => default end
  end.

Definition compiled_grammar_cache_budget_bytes (environ : list (string * string)) : Z :=
  nonnegative_env_int environ "ARCTIC_INFERENCE_ACTION_MASK_GRAMMAR_CACHE_MB" 4096 * 1024 * 1024.
Definition compiled_grammar_cache_max_entries (environ : list (string * string)) : Z :=
  nonnegative_env_int environ "ARCTIC_INFERENCE_ACTION_MASK_GRAMMAR_CACHE_SIZE" 1024.

(** Optional entries for consecutive positions. *)
Definition consecutive (base : Z) (opts : list (option entry)) : Prop := forall j e, opts !! j = Some (Some e) -> e_position e = base + Z.of_nat j.

Lemma omap_id_elem {A} (opts : list (option A)) x : x ∈ omap id opts <-> exists j, opts !! j = Some (Some x).
Proof.
  rewrite list_elem_of_omap. split.
  - intros (o & Ho & Hx). unfold id in Hx. subst o. by apply list_elem_of_lookup in Ho.
  - intros (j & Hj). exists (Some x). split; [by eapply list_elem_of_lookup_2|done].
Qed.

Lemma consecutive_nodup opts : forall base, consecutive base opts -> NoDup (e_position <$> omap id opts).
Proof.
  induction opts as [|o opts IH]; intros base Hc; [constructor|].
  assert (Hc' : consecutive (base + 1) opts) by (intros j e Hj; rewrite (Hc (S j) e Hj); lia).
  destruct o as [e|]; csimpl; [|by apply (IH (base + 1))]. apply NoDup_cons. split; [|by apply (IH (base + 1))].
  intros (e' & Hp & (j & Hj)%omap_id_elem)%list_elem_of_fmap. rewrite (Hc 0%nat e eq_refl), (Hc' j e' Hj) in Hp. lia.
Qed.

Section replay.
Context {G MS C : Type}.

(** The module's globals. *)
Record globals := Globals {
  tokenizer_contexts : list (Z * (C * nat));
  compiled_grammars : list (cache_key * replay_grammar G);
  cache_bytes : Z;
  cache_peak_bytes : Z;
  evictions : Z;
  oversized_skips : Z;
  unmeasurable_skips : Z;
}.
Definition globals0 : globals := Globals [] [] 0 0 0 0 0.

Definition with_grammars (g : globals) d : globals :=
  Globals (tokenizer_contexts g) d (cache_bytes g) (cache_peak_bytes g) (evictions g) (oversized_skips g) (unmeasurable_skips g).
Definition with_contexts (g : globals) d : globals :=
  Globals d (compiled_grammars g) (cache_bytes g) (cache_peak_bytes g) (evictions g) (oversized_skips g) (unmeasurable_skips g).

(** [while _COMPILED_GRAMMARS and (...): popitem(last=False)]. *)
Fixpoint evict_until (budget max_entries size : Z) (d : list (cache_key * replay_grammar G)) (bytes evicted : Z) :
    list (cache_key * replay_grammar G) * Z * Z :=
  match d with
  | [] => ([], bytes, evicted)
  | (k, g) :: rest =>
      if (max_entries <=? Z.of_nat (length d)) || (budget <? bytes + size)
      then evict_until budget max_entries size rest (bytes - rg_cache_size_bytes g) (evicted + 1)
      else (d, bytes, evicted)
  end.

Definition cache_compiled_grammar (budget max_entries : Z) (st : globals) (key : cache_key) (g : replay_grammar G) : globals :=
  if (budget =? 0) || (max_entries =? 0) then st
  else if budget <? rg_cache_size_bytes g then
    Globals (tokenizer_contexts st) (compiled_grammars st) (cache_bytes st) (cache_peak_bytes st) (evictions st) (oversized_skips st + 1) (unmeasurable_skips st)
  else
    let bytes := match dict_get (compiled_grammars st) key with Some old => cache_bytes st - rg_cache_size_bytes old | None => cache_bytes st end in
    let '(d, bytes, evicted) := evict_until budget max_entries (rg_cache_size_bytes g) (dict_del (compiled_grammars st) key) bytes (evictions st) in
    let bytes := bytes + rg_cache_size_bytes g in
    Globals (tokenizer_contexts st) (dict_set d key g) bytes (Z.max (cache_peak_bytes st) bytes) evicted (oversized_skips st) (unmeasurable_skips st).

Definition action_mask_replay_cache_stats (environ : list (string * string)) (st : globals) : list (string * Z) :=
  [("tokenizer_contexts", Z.of_nat (length (tokenizer_contexts st))); ("compiled_grammars", Z.of_nat (length (compiled_grammars st)));
   ("compiled_grammar_cache_bytes", cache_bytes st); ("compiled_grammar_cache_peak_bytes", cache_peak_bytes st);
   ("compiled_grammar_cache_budget_bytes", compiled_grammar_cache_budget_bytes environ);
   ("compiled_grammar_cache_max_entries", compiled_grammar_cache_max_entries environ); ("compiled_grammar_evictions", evictions st);
   ("compiled_grammar_oversized_skips", oversized_skips st); ("compiled_grammar_unmeasurable_skips", unmeasurable_skips st)].

(** ** Libraries *)

(** xgrammar: compilation may raise; [memory_size_bytes] is absent, may raise, or gives a number. *)
Record xgrammar := XGrammar {
  compiler_for : Z -> res (C * nat);
  compile_json_schema : C -> string -> bool -> res G;
  compile_regex : C -> string -> res G;
  compile_grammar : C -> string -> res G;
  compile_tags : C -> list (pyval * string * pyval) -> pyval -> res G;
  compile_structural_tag : C -> string -> res G;
  memory_size_bytes : G -> option (res Z);
  matcher : G -> option (list Z) -> MS;
  fill_next_token_bitmask : MS -> list Z;
  accept_token : MS -> Z -> MS * bool;
}.

Record tokenizer := Tokenizer {
  tok_id : Z;
  encode : option (string -> list Z);
  decode : option (list Z -> string);
  all_special_ids : list Z;
}.

Record reasoning_parser := ReasoningParser {
  extract_reasoning : string -> option string * option string;
  extract_content_ids : option (list Z -> list Z);
  end_token_id : option Z;
  is_reasoning_end : option (list Z -> bool);
  is_reasoning_end_streaming : option (list Z -> list Z -> bool);
}.

(** vLLM's structured-output parameters; [json] is a text or a value. *)
Record structured_outputs := StructuredOutputs {
  all_constraints_none : option bool;
  disable_any_whitespace : bool;
  so_json : option (string + pyval);
  so_json_object : bool;
  so_regex : option string;
  so_choice : option (list string);
  so_grammar : option string;
  so_structural_tag : option string;
}.

(** [choice_as_grammar], and [grammar_is_likely_lark] with [convert_lark_to_ebnf]; absent when the import fails. *)
Record vllm_helpers := VllmHelpers {
  choice_as_grammar : option (list string -> string);
  lark : option ((string -> bool) * (string -> string));
}.

Context (xgr : xgrammar) (vllm : vllm_helpers) (environ : list (string * string)).
(** [json.loads(left) == json.loads(right)], false when either is not JSON. *)
Context (json_values_equal : string -> string -> bool).

(** [len(spec.encode("utf-8"))]: characters from U+0080 take two bytes. *)
Definition utf8_length (s : string) : Z := sumZ (List.map (fun c => if (nat_of_ascii c <? 128)%nat then 1 else 2) (chars_of s)).

Definition compiled_grammar_size_bytes (compiled : G) (spec : string) : option Z :=
  match memory_size_bytes xgr compiled with
  | Some (Ok n) => if n <? 0 then None else Some (n + utf8_length spec)
  | _ => None
  end.

Definition compiler_for_tokenizer (st : globals) (tok : Z) : globals * res (C * nat) :=
  match dict_get (tokenizer_contexts st) tok with
  | Some cv => (st, Ok cv)
  | None =>
      match compiler_for xgr tok with
      | Ok cv => (with_contexts st (dict_set (tokenizer_contexts st) tok cv), Ok cv)
      | Raise e => (st, Raise e)
      end
  end.

Definition json_spec (v : string + pyval) : res string := match v with inl s => Ok s | inr v => json_dumps v end.

Definition structured_output_key (params : option structured_outputs) : res (option so_key) :=
  match params with
  | None => Ok None
  | Some p =>
      if bool_decide (all_constraints_none p = Some true) then Ok None
      else
        let ws := disable_any_whitespace p in
        match so_json p with
        | Some v => spec ← json_spec v; Ok (Some ("json", spec, ws))
        | None =>
        if so_json_object p then Ok (Some ("json_object", "", ws))
        else match so_regex p with
        | Some r => Ok (Some ("regex", r, ws))
        | None =>
        match so_choice p with
        | Some choices =>
            match choice_as_grammar vllm with
            | Some f => Ok (Some ("grammar", f choices, ws))
            | None => Raise (ActionMaskReplayError "vLLM choice helper is unavailable")
            end
        | None =>
        match so_grammar p with
        | Some text =>
            let text := match lark vllm with Some (likely, convert) => if likely text then convert text else text | None => text end in
            Ok (Some ("grammar", text, ws))
        | None =>
        match so_structural_tag p with
        | Some tag => Ok (Some ("structural_tag", tag, ws))
        | None => Ok None
        end end end end end
  end.

(** [item[key]] of a dictionary read from JSON. *)
Definition item (v : pyval) (key : string) : res pyval :=
  match v with
  | PDict d => match dict_get d (KStr key) with Some x => Ok x | None => Raise (KeyError key) end
  | _ => Raise (TypeError "indices must be integers or slices, not str")
  end.
Definition items (v : pyval) : res (list pyval) :=
  match v with
  | PList l => Ok l
  | PDict d => Ok (List.map (fun kv => match kv.1 with KStr s => PStr s | KInt z => PInt z end) d)
  | PStr s => Ok (List.map (fun c => PStr (String.String c "")) (chars_of s))
  | _ => Raise (TypeError "object is not iterable")
  end.
Definition has_structures (v : pyval) : bool :=
  match v with PDict d => bool_decide (is_Some (dict_get d (KStr "structures"))) | _ => false end.

Definition tag_item (i : pyval) : res (pyval * string * pyval) :=
  b ← item i "begin"; schema ← item i "schema"; text ← json_dumps schema; e ← item i "end"; Ok (b, text, e).

Definition quoted (s : string) : chars := [quote] ++ chars_of s ++ [quote].
Definition object_schema : string := string_of (chars_of "{" ++ quoted "type" ++ chars_of ": " ++ quoted "object" ++ chars_of "}").

(** The body of the [try]. *)
Definition compile (c : C) (key : so_key) : res G :=
  let '(kind, spec, disable_ws) := key in
  if String.eqb kind "json" then compile_json_schema xgr c spec (negb disable_ws)
  else if String.eqb kind "json_object" then compile_json_schema xgr c object_schema (negb disable_ws)
  else if String.eqb kind "regex" then compile_regex xgr c spec
  else if String.eqb kind "grammar" then compile_grammar xgr c spec
  else if String.eqb kind "structural_tag" then
    tag ← json_loads spec;
    if has_structures tag then
      structures ← item tag "structures"; l ← items structures; tags ← mapM tag_item l; triggers ← item tag "triggers"; compile_tags xgr c tags triggers
    else compile_structural_tag xgr c spec
  else Raise (ActionMaskReplayError "Unsupported structured-output constraint").

Definition compiled_grammar (st : globals) (tok : Z) (params : option structured_outputs) : globals * res (option (replay_grammar G)) :=
  match structured_output_key params with
  | Raise e => (st, Raise e)
  | Ok None => (st, Ok None)
  | Ok (Some key) =>
      match dict_get (compiled_grammars st) (tok, key) with
      | Some cached => (with_grammars st (dict_set (dict_del (compiled_grammars st) (tok, key)) (tok, key) cached), Ok (Some cached))
      | None =>
          match compiler_for_tokenizer st tok with
          | (st, Raise e) => (st, Raise e)
          | (st, Ok (c, vocab)) =>
              match compile c key with
              | Raise _ => (st, Raise (ActionMaskReplayError "Failed to compile structured-output constraint for action-mask replay"))
              | Ok compiled =>
                  let size := compiled_grammar_size_bytes compiled key.1.2 in
                  let g := ReplayGrammar compiled vocab key.1.1 (default 0 size) in
                  match size with
                  | None => (Globals (tokenizer_contexts st) (compiled_grammars st) (cache_bytes st) (cache_peak_bytes st) (evictions st)
                               (oversized_skips st) (unmeasurable_skips st + 1), Ok (Some g))
                  | Some _ => (cache_compiled_grammar (compiled_grammar_cache_budget_bytes environ) (compiled_grammar_cache_max_entries environ) st (tok, key) g,
                               Ok (Some g))
                  end
              end
          end
      end
  end.

(** ** The constrained part of a completion *)

(** [for start in range(len(haystack) - len(needle), -1, -1)]; the candidates below [S n]. *)
Fixpoint find_from (haystack needle : list Z) (n : nat) : option nat :=
  if bool_decide (take (length needle) (drop n haystack) = needle) then Some n
  else match n with O => None | S n => find_from haystack needle n end.

Definition find_last_subsequence (haystack needle : list Z) : option nat :=
  if bool_decide (length needle = 0%nat) || (length haystack <? length needle)%nat then None
  else find_from haystack needle (length haystack - length needle).

Definition encode_text (tok : tokenizer) (text : string) : res (list Z) :=
  match encode tok with Some f => Ok (f text) | None => Raise (ActionMaskReplayError "Tokenizer does not support encode") end.
Definition decode_tokens (tok : tokenizer) (ids : list Z) : res string :=
  match decode tok with Some f => Ok (f ids) | None => Raise (ActionMaskReplayError "Tokenizer does not support decode") end.

Definition json_equivalent_text (left right : string) : bool :=
  bool_decide (strip (chars_of left) = strip (chars_of right)) || json_values_equal left right.

Definition trimmable (tok : tokenizer) (t : Z) : res bool :=
  if bool_decide (t ∈ all_special_ids tok) then Ok true
  else s ← decode_tokens tok [t]; Ok (bool_decide (length (strip (chars_of s)) = 0%nat)).

(** [while end > start and trimmable(ids[end - 1]): end -= 1], with [start = 0]. *)
Fixpoint trim_end (tok : tokenizer) (ids : list Z) (stop : nat) : res nat :=
  match stop with
  | O => Ok O
  | S n => t ← at_index ids n; b ← trimmable tok t; if (b : bool) then trim_end tok ids n else Ok stop
  end.
(** [while start < end and trimmable(ids[start]): start += 1]; [n] is [end - start]. *)
Fixpoint trim_start (tok : tokenizer) (ids : list Z) (start n : nat) : res nat :=
  match n with
  | O => Ok start
  | S n => t ← at_index ids start; b ← trimmable tok t; if (b : bool) then trim_start tok ids (S start) n else Ok start
  end.

Definition decoded_completion_content_span (ids : list Z) (tok : tokenizer) (content : string) : res (option (nat * nat)) :=
  stop ← trim_end tok ids (length ids);
  start ← trim_start tok ids 0 stop;
  if (stop <=? start)%nat then Ok None
  else decoded ← decode_tokens tok (take (stop - start) (drop start ids));
       Ok (if json_equivalent_text decoded content then Some (start, stop) else None).

Definition empty_str (s : option string) : bool := match s with Some s => String.eqb s "" | None => true end.

Definition extract_reasoning_content (parser : option reasoning_parser) (text : string) (reasoning_ended : option bool) : option string * string :=
  match parser with
  | None => (None, text)
  | Some p =>
      if String.eqb text "" then (None, text)
      else
        let '(reasoning, content) := extract_reasoning p text in
        if empty_str content && bool_decide (reasoning_ended = Some true) then (None, text)
        else if bool_decide (content = None /\ reasoning = None) then (None, text)
        else (reasoning, default "" content)
  end.

(** The index of the last [t] in [ids]. *)
Fixpoint last_index (ids : list Z) (t : Z) : option nat :=
  match ids with
  | [] => None
  | x :: ids => match last_index ids t with Some i => Some (S i) | None => if decide (x = t) then Some O else None end
  end.

Definition content_token_span (ids : list Z) (text : string) (tok : tokenizer) (parser : option reasoning_parser) (reasoning_ended : option bool) : res (nat * nat) :=
  if bool_decide (length ids = 0%nat) then Ok (0, 0)%nat
  else match parser with
  | None => Ok (0%nat, length ids)
  | Some p =>
      if bool_decide (reasoning_ended = Some true) then Ok (0%nat, length ids)
      else
        let by_ids := match extract_content_ids p with
                      | Some f => let content := f ids in start ← find_last_subsequence ids content; Some (start, start + length content)%nat
                      | None => None
                      end in
        match by_ids with
        | Some span => Ok span
        | None =>
        let content := (extract_reasoning_content parser text reasoning_ended).2 in
        if String.eqb content "" then Ok (length ids, length ids)
        else
          close ← encode_text tok "</think>";
          let after_close := start ← find_last_subsequence ids close; let start := (start + length close)%nat in
                             if (start <? length ids)%nat then Some start else None in
          match after_close with
          | Some start => Ok (start, length ids)
          | None =>
          let after_end := e ← end_token_id p; i ← last_index ids e; if (S i <? length ids)%nat then Some (S i) else None in
          match after_end with
          | Some start => Ok (start, length ids)
          | None =>
          span ← decoded_completion_content_span ids tok content;
          match span with
          | Some s => Ok s
          | None => Raise (ActionMaskReplayError "Could not align structured-output content with generated token ids")
          end end end end
  end.

Record token_span := TokenSpan { sp_start : nat; sp_end : nat; sp_source : string; boundary_index : option nat; boundary_token_id : option Z }.

(** The streaming loop: the first completion token at which the parser says the reasoning ended. *)
Fixpoint streaming_boundary (ended : list Z -> list Z -> bool) (all : list Z) (i : nat) (rest : list Z) : option (nat * Z) :=
  match rest with
  | [] => None
  | t :: rest => let all := all ++ [t] in if ended all [t] then Some (i, t) else streaming_boundary ended all (S i) rest
  end.

Definition grammar_token_span (ids prompt : list Z) (text : string) (tok : tokenizer) (parser : option reasoning_parser) (reasoning_ended : option bool)
    (kind : string) : res token_span :=
  let n := length ids in
  let plain start stop source := TokenSpan start stop source None None in
  if (n =? 0)%nat then Ok (plain 0%nat 0%nat "empty_completion")
  else match parser with
  | None => Ok (plain 0%nat n "no_reasoning_parser")
  | Some p =>
      if bool_decide (reasoning_ended = Some true) then Ok (plain 0%nat n "reasoning_ended_in_prompt")
      else if String.eqb kind "structural_tag" then
        span ← content_token_span ids text tok parser reasoning_ended; Ok (plain span.1 span.2 "structural_tag_content")
      else
        let initially := match reasoning_ended with Some b => b | None => match is_reasoning_end p with Some f => f prompt | None => false end end in
        if initially then Ok (plain 0%nat n "reasoning_ended_in_prompt")
        else match is_reasoning_end_streaming p with
        | None => span ← content_token_span ids text tok parser reasoning_ended; Ok (plain span.1 span.2 "parser_content")
        | Some ended =>
            match streaming_boundary ended prompt 0 ids with
            | Some (i, t) => Ok (TokenSpan (S i) n "streaming_reasoning_boundary" (Some i) (Some t))
            | None => Ok (plain n n "reasoning_never_ended")
            end
        end
  end.

(** ** The masks of an output *)

Definition empty_action_masks (seq_len : Z) (vocab : nat) : action_masks := ActionMasks seq_len (Z.of_nat vocab) [] [] [] [0] [].

(** [np.asarray(row, dtype=np.uint32)]. *)
Definition bitmask_row_words (row : list Z) : list Z := uint32 <$> row.

(** [for completion_index in range(content_start, content_end)]; [todo] are the tokens from [i] on. *)
Fixpoint replay_tokens (vocab : nat) (prompt_len : nat) (ms : MS) (i : nat) (todo : list Z) : res (list entry) :=
  match todo with
  | [] => Ok []
  | t :: todo =>
      let position := Z.of_nat prompt_len + Z.of_nat i in
      check (t <? Z.of_nat vocab) (ActionMaskReplayError "Generated token id exceeds structured-output vocab_size");;
      e ← action_mask_entry_from_bitmask_words (bitmask_row_words (fill_next_token_bitmask xgr ms)) position vocab;
      let '(ms, accepted) := accept_token xgr ms t in
      check accepted (ActionMaskReplayError "Structured-output grammar rejected token id");;
      rest ← replay_tokens vocab prompt_len ms (S i) todo;
      Ok (option_list e ++ rest)
  end.

Definition output_span (prompt ids : list Z) (text : string) (tok : tokenizer) (parser : option reasoning_parser) (reasoning_ended : option bool)
    (enabled_in_reasoning : bool) (kind : string) : res token_span :=
  if enabled_in_reasoning then Ok (TokenSpan 0 (length ids) "structured_outputs_enabled_in_reasoning" None None)
  else grammar_token_span ids prompt text tok parser reasoning_ended kind.

Definition build_action_masks_for_output (st : globals) (prompt ids : list Z) (text : string) (params : option structured_outputs) (tok : tokenizer)
    (parser : option reasoning_parser) (reasoning_ended : option bool) (enabled_in_reasoning : bool) (stop_ids : list Z) : globals * res (option action_masks) :=
  match compiled_grammar st (tok_id tok) params with
  | (st, Raise e) => (st, Raise e)
  | (st, Ok None) => (st, Ok None)
  | (st, Ok (Some g)) =>
      let vocab := rg_vocab_size g in
      let seq_len := Z.of_nat (length prompt + length ids) in
      (st,
       if (length ids =? 0)%nat then Ok (Some (empty_action_masks seq_len vocab))
       else
         span ← output_span prompt ids text tok parser reasoning_ended enabled_in_reasoning (rg_kind g);
         if (sp_end span <=? sp_start span)%nat then Ok (Some (empty_action_masks seq_len vocab))
         else
           let stops := py_sorted Z.ltb stop_ids in
           let ms := matcher xgr (rg_compiled g) (if bool_decide (length stops = 0%nat) then None else Some stops) in
           entries ← replay_tokens vocab (length prompt) ms (sp_start span) (take (sp_end span - sp_start span) (drop (sp_start span) ids));
           m ← action_masks_from_entries seq_len (Z.of_nat vocab) entries;
           Ok (Some (default (empty_action_masks seq_len vocab) m)))
  end.

(** ** Spans lie in the completion *)

Lemma find_from_spec h needle n : 
  match find_from h needle n with
  | Some i => (i <= n)%nat /\ take (length needle) (drop i h) = needle /\ forall j, (i < j <= n)%nat -> take (length needle) (drop j h) <> needle
  | None => forall j, (j <= n)%nat -> take (length needle) (drop j h) <> needle
  end.
Proof.
  induction n as [|n IH]; simpl.
  - destruct (bool_decide_reflect (take (length needle) (drop 0 h) = needle)) as [E|E]; [split_and!; [lia|done|intros; lia]|]. intros j Hj. by replace j with 0%nat by lia.
  - destruct (bool_decide_reflect (take (length needle) (drop (S n) h) = needle)) as [E|E]; [split_and!; [lia|done|intros; lia]|].
    destruct (find_from h needle n) as [i|].
    + destruct IH as (Hi & Ht & Hno). split_and!; [lia|done|]. intros j Hj. destruct (decide (j = S n)) as [->|]; [done|]. apply Hno. lia.
    + intros j Hj. destruct (decide (j = S n)) as [->|]; [done|]. apply IH. lia.
Qed.

(** The last place where a token sequence occurs. *)
Lemma find_last_spec h needle i :
  find_last_subsequence h needle = Some i <->
  needle <> [] /\ (i + length needle <= length h)%nat /\ take (length needle) (drop i h) = needle /\
  forall j, (i < j)%nat -> (j + length needle <= length h)%nat -> take (length needle) (drop j h) <> needle.
Proof.
  unfold find_last_subsequence. destruct (bool_decide_reflect (length needle = 0%nat)) as [E|E]; simpl.
  { apply nil_length_inv in E as ->. split; [done|]. by intros [? _]. }
  destruct (Nat.ltb_spec (length h) (length needle)) as [Hlt|Hle]; [split; [done|]; intros (_ & ? & _); lia|].
  pose proof (find_from_spec h needle (length h - length needle)) as Hs. destruct (find_from h needle (length h - length needle)) as [k|].
  - destruct Hs as (Hk & Ht & Hno). split.
    + intros [= <-]. split_and!; [by intros ->|lia|done|]. intros j H1 H2. apply Hno. lia.
    + intros (_ & Hi & Hti & Hnoi). f_equal. destruct (Nat.lt_trichotomy k i) as [H|[H|H]]; [|done|].
      * exfalso. apply (Hno i); [lia|done].
      * exfalso. apply (Hnoi k); [done|lia|done].
  - split; [done|]. intros (_ & Hi & Hti & _). exfalso. apply (Hs i); [lia|done].
Qed.

Lemma trim_end_le tok ids n k : trim_end tok ids n = Ok k -> (k <= n)%nat.
Proof.
  revert k. induction n as [|n IH]; intros k; simpl; [by intros [= <-]|].
  intros (t & _ & (b & _ & Hk)%bind_Ok_inv)%bind_Ok_inv. destruct b; [specialize (IH _ Hk); lia|]. by injection Hk as <-.
Qed.

Lemma decoded_span_bound ids tok content a b : decoded_completion_content_span ids tok content = Ok (Some (a, b)) -> (b <= length ids)%nat.
Proof.
  unfold decoded_completion_content_span. intros (stop & Hstop & (start & _ & Hk)%bind_Ok_inv)%bind_Ok_inv. destruct (_ <=? _)%nat; [done|].
  apply bind_Ok_inv in Hk as (d & _ & Hk). destruct (json_equivalent_text _ _); [|done]. injection Hk as <- <-. by eapply trim_end_le.
Qed.

Lemma content_span_bound ids text tok parser ended s : content_token_span ids text tok parser ended = Ok s -> (s.2 <= length ids)%nat.
Proof.
  unfold content_token_span. destruct (bool_decide _); [intros [= <-]; simpl; lia|]. destruct parser as [p|]; [|by intros [= <-]].
  destruct (bool_decide _); [by intros [= <-]|]. destruct (match extract_content_ids p with Some f => _ | None => None end) as [span|] eqn:E.
  { intros [= <-]. destruct (extract_content_ids p) as [f|]; [|done]. destruct (find_last_subsequence ids (f ids)) as [i|] eqn:Ef; [|done].
    injection E as <-. apply find_last_spec in Ef as (_ & ? & _). done. }
  destruct (String.eqb _ _); [by intros [= <-]|]. intros (close & _ & Hk)%bind_Ok_inv.
  destruct (start ← find_last_subsequence ids close; _); [by injection Hk as <-|].
  destruct (e ← end_token_id p; _); [by injection Hk as <-|]. apply bind_Ok_inv in Hk as (span & Hspan & Hk).
  destruct span as [[a b]|]; [|done]. injection Hk as <-. by eapply decoded_span_bound.
Qed.

Lemma output_span_bound prompt ids text tok parser ended en kind s :
  output_span prompt ids text tok parser ended en kind = Ok s -> (sp_end s <= length ids)%nat.
Proof.
  unfold output_span, grammar_token_span. destruct en; [by intros [= <-]|]. destruct (_ =? _)%nat; [intros [= <-]; simpl; lia|].
  destruct parser as [p|]; [|by intros [= <-]]. destruct (bool_decide _); [by intros [= <-]|].
  destruct (String.eqb _ _); [intros (span & Hs%content_span_bound & Hk)%bind_Ok_inv; by injection Hk as <-|].
  destruct (match ended with Some b => b | None => _ end); [by intros [= <-]|]. destruct (is_reasoning_end_streaming p).
  - destruct (streaming_boundary _ _ _ _) as [[i t]|]; by intros [= <-].
  - intros (span & Hs%content_span_bound & Hk)%bind_Ok_inv. by injection Hk as <-.
Qed.

(** ** What the replay records *)

Definition state_after (ms : MS) (l : list Z) : MS := fold_left (fun ms t => (accept_token xgr ms t).1) l ms.

(** What the grammar allows at the [j]-th replayed token. *)
Definition allowed_at (ms : MS) (todo : list Z) (j n : nat) : bool := word_allows (fill_next_token_bitmask xgr (state_after ms (take j todo))) n.

(** The replay accepts token [t] as the [j]-th. *)
Definition token_ok (vocab : nat) (ms : MS) (todo : list Z) (j : nat) (t : Z) : Prop :=
  t < Z.of_nat vocab /\ (exists n, (n < vocab)%nat /\ allowed_at ms todo j n = true) /\ (accept_token xgr (state_after ms (take j todo)) t).2 = true.

Definition clean (vocab : nat) (ms : MS) (todo : list Z) : Prop := forall j t, todo !! j = Some t -> token_ok vocab ms todo j t.

(** Entry or no entry, the same tokens are allowed. *)
Definition records (vocab : nat) (allowed : nat -> bool) (position : Z) (o : option entry) : Prop :=
  (forall n, (n < vocab)%nat -> entry_allows o (Z.of_nat n) = allowed n) /\
  forall e, o = Some e -> e_position e = position /\ e_ids e <> [] /\ in_vocab (Z.of_nat vocab) e.

(** ** The cache *)

Definition total (d : list (cache_key * replay_grammar G)) : Z := sumZ ((fun kg => rg_cache_size_bytes kg.2) <$> d).

Lemma total_app d d' : total (d ++ d') = total d + total d'.
Proof. unfold total. by rewrite fmap_app, sumZ_app. Qed.

Lemma total_del d k : NoDup (dict_keys d) -> total (dict_del d k) = total d - default 0 (rg_cache_size_bytes <$> dict_get d k).
Proof.
  unfold total, dict_del, dict_keys. induction d as [|[k0 g0] d IH]; csimpl; [done|]. intros [Hk Hd]%NoDup_cons. rewrite filter_cons. simpl.
  destruct (decide (k0 = k)) as [->|Hne].
  - rewrite decide_False by tauto. rewrite decide_True by done. simpl. pose proof (dict_del_not_in d k Hk) as E. unfold dict_del in E. rewrite E. lia.
  - rewrite decide_True by done. rewrite decide_False by congruence. csimpl. rewrite IH by done. lia.
Qed.

(** Bytes are accounted for and both limits hold. *)
Record cache_ok (budget max_entries : Z) (st : globals) : Prop := {
  co_nodup : NoDup (dict_keys (compiled_grammars st));
  co_bytes : cache_bytes st = total (compiled_grammars st);
  co_sizes : Forall (fun kg => 0 <= rg_cache_size_bytes kg.2) (compiled_grammars st);
  co_budget : cache_bytes st <= cache_peak_bytes st <= budget;
  co_entries : Z.of_nat (length (compiled_grammars st)) <= max_entries;
}.

(** The eviction drops the oldest entries, only while a limit is exceeded. *)
Lemma evict_until_spec budget max_entries size d : forall bytes evicted d' bytes' evicted',
  bytes = total d -> evict_until budget max_entries size d bytes evicted = (d', bytes', evicted') ->
  exists old, d = old ++ d' /\ bytes' = total d' /\ evicted' = evicted + Z.of_nat (length old) /\
    (d' = [] \/ Z.of_nat (length d') < max_entries /\ bytes' + size <= budget) /\
    (forall old1 kg old2, old = old1 ++ kg :: old2 -> max_entries <= Z.of_nat (length (kg :: old2 ++ d')) \/ budget < total (kg :: old2 ++ d') + size).
Proof.
  induction d as [|[k g] d IH]; intros bytes evicted d' bytes' evicted' Hb; cbn [evict_until].
  { intros [= <- <- <-]. exists []. split_and!; [done..|simpl; lia|by left|]. intros [|] ? ? ?; done. }
  destruct (_ || _) eqn:E.
  - assert (Hb' : bytes - rg_cache_size_bytes g = total d) by (subst bytes; unfold total; csimpl; lia).
    intros Hrun. destruct (IH _ _ _ _ _ Hb' Hrun) as (old & -> & -> & -> & Hstop & Hwhy). exists ((k, g) :: old).
    split_and!; [done..|simpl length; lia|done|]. intros [|x old1] kg old2 Heq.
    + injection Heq as <- <-. subst bytes. apply orb_true_iff in E as [E%Z.leb_le|E%Z.ltb_lt]; [left|right]; [|lia].
      simpl length in *. lia.
    + injection Heq as <- ->. by apply (Hwhy old1).
  - intros [= <- <- <-]. apply orb_false_iff in E as [E1%Z.leb_gt E2%Z.ltb_ge]. exists []. split_and!; [done..|simpl; lia|right; lia|]. intros [|] ? ? ?; done.
Qed.

Lemma cache_grammar_ok budget max_entries st key g :
  0 <= budget -> 0 <= max_entries -> 0 <= rg_cache_size_bytes g -> cache_ok budget max_entries st ->
  cache_ok budget max_entries (cache_compiled_grammar budget max_entries st key g).
Proof.
  intros Hb0 Hm0 Hg [Hnd Hbytes Hsz Hbud Hent]. unfold cache_compiled_grammar. destruct ((budget =? 0) || (max_entries =? 0)) eqn:Ez; [by split|].
  destruct (Z.ltb_spec budget (rg_cache_size_bytes g)) as [Hbig|Hfit]; [by split|].
  set (bytes := match dict_get _ _ with Some _ => _ | None => _ end).
  assert (Hbytes0 : bytes = total (dict_del (compiled_grammars st) key)) by (rewrite total_del by done; unfold bytes; destruct (dict_get _ _); simpl; lia).
  destruct (evict_until budget max_entries _ (dict_del (compiled_grammars st) key) bytes (evictions st)) as [[d' bytes'] ev] eqn:E.
  destruct (evict_until_spec _ _ _ _ _ _ _ _ _ Hbytes0 E) as (old & Hold & -> & _ & Hstop & _).
  assert (Hkey : key ∉ dict_keys d').
  { intros Hin. assert (Hin' : key ∈ dict_keys (dict_del (compiled_grammars st) key)) by (rewrite Hold; unfold dict_keys in *; rewrite fmap_app; apply elem_of_app; by right).
    rewrite dict_keys_del in Hin'. by apply list_elem_of_filter in Hin' as [? _]. }
  assert (Hnd' : NoDup (dict_keys d')).
  { apply (dict_del_nodup _ key) in Hnd. rewrite Hold in Hnd. unfold dict_keys in *. rewrite fmap_app in Hnd. by apply NoDup_app in Hnd as (_ & _ & ?). }
  assert (Hsz' : Forall (fun kg => 0 <= rg_cache_size_bytes kg.2) d').
  { assert (Hd : Forall (fun kg => 0 <= rg_cache_size_bytes kg.2) (dict_del (compiled_grammars st) key)) by (by apply Forall_filter).
    rewrite Hold in Hd. by apply Forall_app in Hd as [_ ?]. }
  assert (Ht0 : total [] = 0) by done. assert (Hne : budget <> 0 /\ max_entries <> 0) by lia.
  rewrite (dict_set_new _ _ _ Hkey). split; simpl.
  - rewrite <- (dict_set_new _ _ _ Hkey). by apply dict_set_nodup.
  - rewrite total_app. unfold total at 3. csimpl. lia.
  - apply Forall_app. split; [done|]. by repeat constructor.
  - destruct Hstop as [->|Hstop]; lia.
  - rewrite length_app. simpl. destruct Hstop as [->|Hstop]; simpl; lia.
Qed.

(** What a fresh compilation would store for a key. *)
Definition compiles_to (tok : Z) (key : so_key) (g : replay_grammar G) : Prop :=
  exists c v compiled, compiler_for xgr tok = Ok (c, v) /\ compile c key = Ok compiled /\
    g = ReplayGrammar compiled v key.1.1 (default 0 (compiled_grammar_size_bytes compiled key.1.2)).

Record cache_sound (st : globals) : Prop := {
  cs_contexts : forall tok cv, dict_get (tokenizer_contexts st) tok = Some cv -> compiler_for xgr tok = Ok cv;
  cs_grammars : forall tok key g, ((tok, key), g) ∈ compiled_grammars st -> compiles_to tok key g;
}.

Lemma compiler_sound st tok :
  cache_sound st ->
  (compiler_for_tokenizer st tok).2 = compiler_for xgr tok /\ cache_sound (compiler_for_tokenizer st tok).1 /\
  compiled_grammars (compiler_for_tokenizer st tok).1 = compiled_grammars st /\ cache_bytes (compiler_for_tokenizer st tok).1 = cache_bytes st /\
  cache_peak_bytes (compiler_for_tokenizer st tok).1 = cache_peak_bytes st.
Proof.
  intros [Hc Hg]. unfold compiler_for_tokenizer. destruct (dict_get (tokenizer_contexts st) tok) as [cv|] eqn:E.
  { split_and!; [symmetry; by apply Hc|by split|done..]. }
  destruct (compiler_for xgr tok) as [cv|e] eqn:Ef; split_and!; try done. split; [|done].
  intros tok' cv'. simpl. destruct (decide (tok = tok')) as [<-|Hne]; [rewrite dict_get_set_eq; congruence|rewrite dict_get_set_ne by done; apply Hc].
Qed.

Lemma cache_elem budget max_entries st key g kg :
  kg ∈ compiled_grammars (cache_compiled_grammar budget max_entries st key g) -> kg ∈ compiled_grammars st \/ kg = (key, g).
Proof.
  unfold cache_compiled_grammar. destruct (_ || _); [by left|]. destruct (_ <? _); [by left|].
  destruct (evict_until _ _ _ _ _ _) as [[d' bytes'] ev] eqn:E. simpl. intros Hin.
  assert (Hset : kg ∈ d' \/ kg = (key, g)).
  { clear E. induction d' as [|[k0 g0] d' IH]; simpl in Hin; [right; by apply list_elem_of_singleton in Hin|]. destruct (decide (key = k0)) as [->|].
    - apply elem_of_cons in Hin as [->|Hin]; [by right|left; by right].
    - apply elem_of_cons in Hin as [->|Hin]; [left; by left|]. destruct (IH Hin); [left; by right|by right]. }
  destruct Hset as [Hd|]; [left|by right]. clear Hin. revert Hd E. generalize (evictions st) as ev0.
  set (b0 := match dict_get _ _ with Some _ => _ | None => _ end). clearbody b0. revert b0.
  assert (Hsub : forall x, x ∈ dict_del (compiled_grammars st) key -> x ∈ compiled_grammars st) by (intros x [_ ?]%list_elem_of_filter; done).
  revert Hsub. generalize (dict_del (compiled_grammars st) key) as d. induction d as [|[k0 g0] d IH]; intros Hsub b0 ev0 Hd; simpl.
  - intros [= <- _ _]. by apply not_elem_of_nil in Hd.
  - destruct (_ || _); [intros HE; eapply IH; [|done|exact HE]; intros x Hx; apply Hsub; by right|]. intros [= <- _ _]. by apply Hsub.
Qed.

Lemma grammar_size_nonneg compiled spec n : compiled_grammar_size_bytes compiled spec = Some n -> 0 <= n.
Proof.
  unfold compiled_grammar_size_bytes. destruct (memory_size_bytes xgr compiled) as [[k|]|]; [|done..]. destruct (Z.ltb_spec k 0); [done|]. intros [= <-].
  enough (0 <= utf8_length spec) by lia. apply sumZ_nonneg, Forall_forall. intros x Hx.
  change (List.map ?f ?l) with (f <$> l) in Hx. apply list_elem_of_fmap in Hx as (c & -> & _). destruct (_ <? _)%nat; lia.
Qed.

Definition limits : Z * Z := (compiled_grammar_cache_budget_bytes environ, compiled_grammar_cache_max_entries environ).

Lemma env_int_nonneg name d : 0 <= d -> 0 <= nonnegative_env_int environ name d.
Proof. intros Hd. unfold nonnegative_env_int. destruct (dict_get _ _) as [s|]; [destruct (py_int s)|]; lia. Qed.

Lemma limits_nonneg : 0 <= limits.1 /\ 0 <= limits.2.
Proof.
  unfold limits, compiled_grammar_cache_budget_bytes, compiled_grammar_cache_max_entries. simpl.
  split; [pose proof (env_int_nonneg "ARCTIC_INFERENCE_ACTION_MASK_GRAMMAR_CACHE_MB" 4096); lia|apply env_int_nonneg; lia].
Qed.

(** The reference: compile every time. *)
Definition uncached_grammar (tok : Z) (params : option structured_outputs) : res (option (replay_grammar G)) :=
  key ← structured_output_key params;
  match key with
  | None => Ok None
  | Some key =>
      cv ← compiler_for xgr tok;
      match compile cv.1 key with
      | Ok compiled => Ok (Some (ReplayGrammar compiled cv.2 key.1.1 (default 0 (compiled_grammar_size_bytes compiled key.1.2))))
      | Raise _ => Raise (ActionMaskReplayError "Failed to compile structured-output constraint for action-mask replay")
      end
  end.

Definition cache_inv (st : globals) : Prop := cache_sound st /\ cache_ok limits.1 limits.2 st.

(** A hit moves the entry to the end of the order. *)
Lemma touch_inv st k g : cache_inv st -> dict_get (compiled_grammars st) k = Some g ->
  cache_inv (with_grammars st (dict_set (dict_del (compiled_grammars st) k) k g)).
Proof.
  unfold cache_inv. generalize limits as lim. intros lim [[Hc Hg] [Hnd Hb Hs Hp He]] Hget. assert (Hk : k ∉ dict_keys (dict_del (compiled_grammars st) k)) by (rewrite dict_keys_del; by intros [? _]%list_elem_of_filter).
  pose proof (dict_get_elem _ _ _ Hget) as Hin. rewrite (dict_set_new _ _ _ Hk). split; split; simpl; try done.
  - intros tok key g' [Hd|Heq%list_elem_of_singleton]%elem_of_app; [apply Hg; by apply list_elem_of_filter in Hd as [_ ?]|]. injection Heq as <- ->. by apply Hg.
  - rewrite <- (dict_set_new _ _ _ Hk). by apply dict_set_nodup, dict_del_nodup.
  - rewrite total_app, total_del by done. rewrite Hget. unfold total at 2. csimpl. lia.
  - apply Forall_app. split; [by apply Forall_filter|]. repeat constructor. rewrite Forall_forall in Hs. by apply (Hs _ Hin).
  - rewrite length_app. simpl. assert (Hlen : (length (dict_del (compiled_grammars st) k) < length (compiled_grammars st))%nat); [|lia].
    apply (length_filter_lt _ _ (k, g)); [done|]. simpl. tauto.
Qed.

Lemma compiled_grammar_ok st tok params :
  cache_inv st -> (compiled_grammar st tok params).2 = uncached_grammar tok params /\ cache_inv (compiled_grammar st tok params).1.
Proof.
  intros HI. unfold compiled_grammar, uncached_grammar. destruct (structured_output_key params) as [[key|]|e]; [|done..]. cbn [mbind res_bind].
  destruct (dict_get (compiled_grammars st) (tok, key)) as [g|] eqn:Hget.
  - split; [|by apply touch_inv]. simpl. destruct (cs_grammars _ (proj1 HI) tok key g) as (c & v & compiled & Hc & Hcomp & ->); [by apply dict_get_elem|].
    rewrite Hc. simpl. by rewrite Hcomp.
  - destruct (compiler_sound st tok (proj1 HI)) as (Hc & Hs1 & Hg1 & Hb1 & Hp1). destruct HI as [_ Hok].
    assert (Hok1 : cache_ok limits.1 limits.2 (compiler_for_tokenizer st tok).1) by (destruct Hok; split; rewrite ?Hg1, ?Hb1, ?Hp1; done).
    destruct (compiler_for_tokenizer st tok) as [st1 r1]. simpl in *. rewrite <- Hc. destruct r1 as [[c v]|e]; [|by repeat split; try apply Hs1; try apply Hok1].
    simpl. destruct (compile c key) as [compiled|e] eqn:Hcomp; [|by repeat split; try apply Hs1; try apply Hok1].
    destruct (compiled_grammar_size_bytes compiled key.1.2) as [n|] eqn:Hsize; (split; [done|]); simpl.
    + destruct limits_nonneg. split; [split|].
      * intros t cv. unfold cache_compiled_grammar. intros Ht. apply (cs_contexts _ Hs1). revert Ht. destruct (_ || _); [done|]. destruct (_ <? _); [done|].
        by destruct (evict_until _ _ _ _ _ _) as [[? ?] ?].
      * intros t k g Hin. apply cache_elem in Hin as [Hin|[= -> -> ->]]; [by apply (cs_grammars _ Hs1)|]. exists c, v, compiled. rewrite Hsize. done.
      * apply cache_grammar_ok; [done..| |done]. simpl. by apply (grammar_size_nonneg compiled key.1.2).
    + split; [split; apply Hs1|]. destruct Hok1. split; done.
Qed.

Lemma globals0_inv : cache_inv globals0.
Proof.
  destruct limits_nonneg. split; split; [done| |by constructor|done|by constructor|done|done].
  intros tok key g Hin. by apply not_elem_of_nil in Hin.
Qed.

(** The cache after a sequence of requests. *)
Definition after_requests (rs : list (Z * option structured_outputs)) : globals :=
  fold_left (fun st r => (compiled_grammar st r.1 r.2).1) rs globals0.

Lemma after_requests_inv rs : cache_inv (after_requests rs).
Proof.
  unfold after_requests. apply (fold_left_inv (fun _ => cache_inv)); [apply globals0_inv|].
  intros l r st HI _. by apply compiled_grammar_ok.
Qed.

(** ** Main theorems *)

(** Whatever requests came before, looking a grammar up gives exactly what compiling it
    afresh gives, exceptions included; and the cache counts its bytes correctly, holds no key
    twice and respects both its limits. *)
Theorem grammar_cache_transparent rs tok params :
  (compiled_grammar (after_requests rs) tok params).2 = uncached_grammar tok params /\
  cache_ok (compiled_grammar_cache_budget_bytes environ) (compiled_grammar_cache_max_entries environ) (after_requests rs).
Proof. pose proof (after_requests_inv rs) as HI. split; [by apply compiled_grammar_ok|apply HI]. Qed.

Context (vocab : nat).
Hypothesis fill_length : forall ms, length (fill_next_token_bitmask xgr ms) = ((vocab + 31) / 32)%nat.

Lemma row_allows ms n : (n < vocab)%nat -> word_allows (bitmask_row_words (fill_next_token_bitmask xgr ms)) n = word_allows (fill_next_token_bitmask xgr ms) n.
Proof. intros Hn. by apply (uint32_bits _ vocab). Qed.

(** The mask of one state. *)
Lemma row_entry ms position :
  if decide (Exists (fun n => word_allows (fill_next_token_bitmask xgr ms) n = true) (seq 0 vocab))
  then exists o, action_mask_entry_from_bitmask_words (bitmask_row_words (fill_next_token_bitmask xgr ms)) position vocab = Ok o /\
         records vocab (word_allows (fill_next_token_bitmask xgr ms)) position o
  else exists e, action_mask_entry_from_bitmask_words (bitmask_row_words (fill_next_token_bitmask xgr ms)) position vocab = Raise e.
Proof.
  assert (Hlen : length (bitmask_row_words (fill_next_token_bitmask xgr ms)) = ((vocab + 31) / 32)%nat) by (unfold bitmask_row_words; by rewrite length_fmap).
  destruct (decide _) as [Hex|Hno].
  - apply Exists_exists in Hex as (n & Hn%elem_of_seq & Ha).
    destruct (entry_from_words_ok _ position vocab Hlen) as (o & Ho & Hall & He); [exists n; rewrite row_allows by lia; split; [lia|done]|].
    exists o. split; [done|]. split; [intros m Hm; by rewrite Hall, row_allows|]. intros e Heq. destruct (He e Heq) as (? & ? & ?). split_and!; [done..|].
    by apply Forall_forall.
  - eexists. apply entry_from_words_none; [done|]. intros n Hn. rewrite row_allows by done. apply not_true_iff_false. intros Ha. apply Hno, Exists_exists.
    exists n. split; [apply elem_of_seq; lia|done].
Qed.

Lemma clean_cons ms t todo : clean vocab ms (t :: todo) <-> token_ok vocab ms (t :: todo) 0 t /\ clean vocab (accept_token xgr ms t).1 todo.
Proof.
  split.
  - intros Hc. split; [by apply Hc|]. intros j x Hj. apply (Hc (S j) x Hj).
  - intros [H0 Hc] [|j] x Hj; [by injection Hj as <-|]. apply (Hc j x Hj).
Qed.

(** The replay of [todo]: the masks of all positions, or an exception at the first token that does not replay. *)
Definition replayed (plen : nat) (ms : MS) (i : nat) (todo : list Z) (r : res (list entry)) : Prop :=
  (clean vocab ms todo /\ exists opts, r = Ok (omap id opts) /\ length opts = length todo /\
     forall j o, opts !! j = Some o -> records vocab (allowed_at ms todo j) (Z.of_nat plen + Z.of_nat (i + j)) o) \/
  (~ clean vocab ms todo /\ exists e, r = Raise e).

Lemma replay_decides plen todo : forall ms i, replayed plen ms i todo (replay_tokens vocab plen ms i todo).
Proof.
  induction todo as [|t todo IH]; intros ms i; simpl.
  { left. split; [by intros j x ?|]. exists []. done. }
  assert (Hbad : forall e, ~ token_ok vocab ms (t :: todo) 0 t -> replayed plen ms i (t :: todo) (Raise e)).
  { intros e Hn. right. split; [|eauto]. by intros [? _]%clean_cons. }
  destruct (Z.ltb_spec t (Z.of_nat vocab)) as [Ht|Ht]; simpl; [|apply Hbad; intros [? _]; lia].
  pose proof (row_entry ms (Z.of_nat plen + Z.of_nat i)) as Hrow. destruct (decide (Exists _ _)) as [Hex|Hno].
  2: { destruct Hrow as [e ->]. apply Hbad. intros (_ & (n & Hn & Ha) & _). apply Hno, Exists_exists. exists n. split; [apply elem_of_seq; lia|done]. }
  destruct Hrow as (o & -> & Ho). simpl. destruct (accept_token xgr ms t) as [ms' acc] eqn:Eacc. simpl.
  destruct acc; simpl; [|apply Hbad; intros (_ & _ & Ha); simpl in Ha; rewrite Eacc in Ha; done].
  assert (Hok : token_ok vocab ms (t :: todo) 0 t).
  { split_and!; [done| |simpl; by rewrite Eacc]. apply Exists_exists in Hex as (n & Hn%elem_of_seq & Ha). exists n. split; [lia|done]. }
  assert (Hms' : ms' = (accept_token xgr ms t).1) by (by rewrite Eacc).
  destruct (IH ms' (S i)) as [(Hc & opts & Hopts & Hlen & Hrec)|(Hc & e & He)].
  - left. split; [apply clean_cons; by rewrite <- Hms'|]. exists (o :: opts). rewrite Hopts. simpl. split; [by destruct o|]. split; [by rewrite Hlen|].
    intros [|j] o' Hj; [injection Hj as <-; rewrite Nat.add_0_r; exact Ho|]. specialize (Hrec j o' Hj).
    replace (i + S j)%nat with (S i + j)%nat by lia. rewrite Hms' in Hrec. exact Hrec.
  - right. split; [rewrite clean_cons, <- Hms'; tauto|]. rewrite He. simpl. eauto.
Qed.

(** The masks of the positions [base], [base + 1], ... of [allowed], and no others. *)
Definition masks_exactly (m : action_masks) (base : Z) (len : nat) (allowed : nat -> nat -> bool) : Prop :=
  (forall j n, (j < len)%nat -> (n < vocab)%nat -> masks_allow m (base + Z.of_nat j) (Z.of_nat n) = allowed j n) /\
  (forall p, ~ (base <= p < base + Z.of_nat len) -> mask_at m p = None).

Lemma set_allows_key e t : set_allows (key_of e) t = entry_allows (Some e) t.
Proof. unfold set_allows. simpl. assert (Hp : t ∈ py_sorted Z.ltb (e_ids e) <-> t ∈ e_ids e) by (by rewrite py_sorted_perm). by rewrite (bool_decide_ext _ _ Hp). Qed.

(** A table whose masks are those of the entries. *)
Lemma exactly_of_entries m base opts allowed :
  (forall j o, opts !! j = Some o -> records vocab (allowed j) (base + Z.of_nat j) o) ->
  (forall p k, mask_at m p = Some k <-> exists e, e ∈ omap id opts /\ e_position e = p /\ k = key_of e) ->
  masks_exactly m base (length opts) allowed.
Proof.
  intros Hrec Hread. assert (Hc : consecutive base opts) by (intros j e Hj; by apply (Hrec j (Some e) Hj)). split.
  - intros j n Hj Hn. apply lookup_lt_is_Some in Hj as [o Hj]. destruct (Hrec j o Hj) as [Hall _]. rewrite <- Hall by done. unfold masks_allow.
    destruct (mask_at m (base + Z.of_nat j)) as [k|] eqn:E.
    + apply Hread in E as (e & (j' & Hj')%omap_id_elem & Hp & ->). rewrite (Hc j' e Hj') in Hp. replace j' with j in Hj' by lia.
      rewrite Hj in Hj'. injection Hj' as ->. apply set_allows_key.
    + destruct o as [e|]; [|done]. exfalso. assert (He : mask_at m (base + Z.of_nat j) = Some (key_of e)); [|congruence].
      apply Hread. exists e. split_and!; [apply omap_id_elem; eauto|by apply Hc|done].
  - intros p Hp. destruct (mask_at m p) as [k|] eqn:E; [exfalso|done]. apply Hread in E as (e & (j & Hj)%omap_id_elem & Hpe & _).
    rewrite (Hc j e Hj) in Hpe. apply lookup_lt_Some in Hj. lia.
Qed.

Lemma masks_of_entries n base opts allowed :
  (forall j o, opts !! j = Some o -> records vocab (allowed j) (base + Z.of_nat j) o) -> base + Z.of_nat (length opts) <= n ->
  exists m, action_masks_from_entries n (Z.of_nat vocab) (omap id opts) = Ok m /\
    seq_len (default (empty_action_masks n vocab) m) = n /\ masks_exactly (default (empty_action_masks n vocab) m) base (length opts) allowed.
Proof.
  intros Hrec Hn. assert (Hc : consecutive base opts) by (intros j e Hj; by apply (Hrec j (Some e) Hj)).
  destruct (from_entries_ok n (Z.of_nat vocab) (omap id opts)) as (b & Hb & Hres). set (es := filter _ _) in *.
  assert (Hes : es ≡ₚ omap id opts).
  { unfold es. rewrite filter_all; [apply py_sorted_perm|]. intros e. rewrite py_sorted_perm. intros (j & Hj)%omap_id_elem.
    destruct (Hrec j (Some e) Hj) as [_ He]. destruct (He e eq_refl) as (Hp & Hids & _). split; [|done]. apply lookup_lt_Some in Hj. lia. }
  assert (Hnd : NoDup (e_position <$> es)) by (rewrite Hes; by eapply consecutive_nodup).
  assert (Hv : Forall (in_vocab (Z.of_nat vocab)) es).
  { rewrite Hes. apply Forall_forall. intros e (j & Hj)%omap_id_elem. destruct (Hrec j (Some e) Hj) as [_ He]. by apply (He e). }
  rewrite Hres. destruct (bool_decide_reflect (es = [])) as [Hnil|_].
  - exists None. split_and!; [done..|]. apply exactly_of_entries; [done|]. intros p k. split; [done|]. intros (e & He & _).
    rewrite <- Hes, Hnil in He. by apply not_elem_of_nil in He.
  - rewrite bool_decide_true, bool_decide_true by done. eexists. split_and!; [done..|]. apply exactly_of_entries; [done|].
    intros p k. simpl. rewrite (mask_at_table n (Z.of_nat vocab) es b p k Hb Hnd). by setoid_rewrite Hes.
Qed.

Definition start_state (g : replay_grammar G) (stop_ids : list Z) : MS :=
  let stops := py_sorted Z.ltb stop_ids in matcher xgr (rg_compiled g) (if bool_decide (length stops = 0%nat) then None else Some stops).

Definition constrained (span : token_span) (ids : list Z) : list Z := take (sp_end span - sp_start span) (drop (sp_start span) ids).

Lemma no_masks n base len allowed : len = 0%nat -> masks_exactly (empty_action_masks n vocab) base len allowed.
Proof. intros ->. split; [intros; lia|done]. Qed.

Lemma build_decides st prompt ids text params tok parser ended en stop_ids st' g span :
  compiled_grammar st (tok_id tok) params = (st', Ok (Some g)) -> rg_vocab_size g = vocab ->
  output_span prompt ids text tok parser ended en (rg_kind g) = Ok span ->
  let r := build_action_masks_for_output st prompt ids text params tok parser ended en stop_ids in
  let todo := constrained span ids in let ms := start_state g stop_ids in
  (clean vocab ms todo /\ exists m, r = (st', Ok (Some m)) /\ seq_len m = Z.of_nat (length prompt + length ids) /\
     masks_exactly m (Z.of_nat (length prompt) + Z.of_nat (sp_start span)) (length todo) (allowed_at ms todo)) \/
  (~ clean vocab ms todo /\ exists e, r = (st', Raise e)).
Proof.
  intros Hg Hv Hspan r todo ms. pose proof (output_span_bound _ _ _ _ _ _ _ _ _ Hspan) as Hend. subst r. unfold build_action_masks_for_output. rewrite Hg, Hv.
  assert (Hempty : todo = [] -> clean vocab ms todo /\ exists m, (st', Ok (Some (empty_action_masks (Z.of_nat (length prompt + length ids)) vocab))) = (st', Ok (Some m)) /\
     seq_len m = Z.of_nat (length prompt + length ids) /\ masks_exactly m (Z.of_nat (length prompt) + Z.of_nat (sp_start span)) (length todo) (allowed_at ms todo)).
  { intros Hnil. split; [by rewrite Hnil|]. eexists. split_and!; [done..|]. apply no_masks. by rewrite Hnil. }
  destruct (Nat.eqb_spec (length ids) 0) as [Hz|Hz].
  { left. apply Hempty. unfold todo, constrained. apply nil_length_inv in Hz as ->. by rewrite drop_nil, take_nil. }
  rewrite Hspan. cbn [mbind res_bind]. destruct (Nat.leb_spec (sp_end span) (sp_start span)) as [Hle|Hlt].
  { left. apply Hempty. unfold todo, constrained. by replace (sp_end span - sp_start span)%nat with 0%nat by lia. }
  fold (constrained span ids) todo. fold (start_state g stop_ids) ms.
  assert (Hlen : length todo = (sp_end span - sp_start span)%nat) by (unfold todo, constrained; rewrite length_take, length_drop; lia).
  destruct (replay_decides (length prompt) todo ms (sp_start span)) as [(Hc & opts & -> & Hlo & Hrec)|(Hc & e & ->)]; [left|right; split; [done|]; by exists e].
  split; [done|]. destruct (masks_of_entries (Z.of_nat (length prompt + length ids)) (Z.of_nat (length prompt) + Z.of_nat (sp_start span)) opts (allowed_at ms todo)) as (m & Hm & Hs & Hex).
  - intros j o Hj. replace (_ + _ + _) with (Z.of_nat (length prompt) + Z.of_nat (sp_start span + j)) by lia. by apply Hrec.
  - lia.
  - cbn [mbind res_bind]. rewrite Hm. cbn [mbind res_bind]. eexists. split_and!; [done..|]. by rewrite <- Hlo.
Qed.

(** C15: when the grammar and the constrained span of an output are found, the server either
    returns masks that, at each replayed position, allow exactly the tokens the grammar
    matcher allowed there, and constrain no other position; or it raises, exactly when some
    replayed token is outside the vocabulary, is rejected, or the matcher allows nothing. *)
Theorem action_masks_exact st prompt ids text params tok parser ended en stop_ids st' g span :
  compiled_grammar st (tok_id tok) params = (st', Ok (Some g)) -> rg_vocab_size g = vocab ->
  output_span prompt ids text tok parser ended en (rg_kind g) = Ok span ->
  let r := build_action_masks_for_output st prompt ids text params tok parser ended en stop_ids in
  let todo := constrained span ids in let ms := start_state g stop_ids in
  (clean vocab ms todo /\ exists m, r = (st', Ok (Some m)) /\ seq_len m = Z.of_nat (length prompt + length ids) /\
     masks_exactly m (Z.of_nat (length prompt) + Z.of_nat (sp_start span)) (length todo) (allowed_at ms todo)) \/
  (~ clean vocab ms todo /\ exists e, r = (st', Raise e)).
Proof. apply build_decides. Qed.
End replay.

(** ** A small instance *)

Module MiniReplay.

(** A grammar over the tokens 0, 1, 2: the matcher counts, and allows 0 and 2 at even steps and only 1 at odd ones. *)
Definition row (ms : nat) : list Z := if Nat.even ms then [5] else [-6].
Definition xgr : xgrammar (G:=unit) (MS:=nat) (C:=unit) :=
  XGrammar (fun _ => Ok (tt, 3%nat)) (fun _ _ _ => Ok tt) (fun _ _ => Ok tt) (fun _ _ => Ok tt) (fun _ _ _ => Ok tt) (fun _ _ => Ok tt)
    (fun _ => Some (Ok 100)) (fun _ _ => 0%nat) row (fun ms t => (S ms, word_allows (row ms) (Z.to_nat t))).
Definition helpers : vllm_helpers := VllmHelpers None None.
Definition params : structured_outputs := StructuredOutputs (Some false) false None false (Some "ab") None None None.
Definition tok : tokenizer := Tokenizer 7 None None [].
Definition parser : reasoning_parser := ReasoningParser (fun _ => (None, None)) None None None (Some (fun _ new => bool_decide (new = [9]))).

Example mini_masks :
  (build_action_masks_for_output xgr helpers [] (fun _ _ => false) globals0 [4; 4] [8; 9; 2; 1; 0] "" (Some params) tok (Some parser) None false []).2 =
  Ok (Some (ActionMasks 7 3 [4; 5; 6] [0; 1; 0] [false; true] [0; 1; 2] [1; 1])).
Proof. vm_compute. reflexivity. Qed.

Lemma action_masks_exact_witness :
  let st' := (compiled_grammar xgr helpers [] globals0 7 (Some params)).1 in
  let g := ReplayGrammar tt 3%nat "regex" 102 in
  let span := TokenSpan 2 5 "streaming_reasoning_boundary" (Some 1%nat) (Some 9) in
  let r := build_action_masks_for_output xgr helpers [] (fun _ _ => false) globals0 [4; 4] [8; 9; 2; 1; 0] "" (Some params) tok (Some parser) None false [] in
  let ms := start_state xgr g [] in
  (clean xgr 3 ms [2; 1; 0] /\ exists m, r = (st', Ok (Some m)) /\ seq_len m = 7 /\ masks_exactly 3 m 4 3 (allowed_at xgr ms [2; 1; 0])) \/
  (~ clean xgr 3 ms [2; 1; 0] /\ exists e, r = (st', Raise e)).
Proof.
  intros st' g span.
  assert (Hfill : forall ms, length (fill_next_token_bitmask xgr ms) = ((3 + 31) / 32)%nat) by (intros ms; simpl; unfold row; by destruct (Nat.even ms)).
  refine (action_masks_exact xgr helpers [] (fun _ _ => false) 3 Hfill globals0 [4; 4] [8; 9; 2; 1; 0] "" (Some params) tok (Some parser) None false [] st' g span _ _ _).
  - vm_compute. reflexivity.
  - reflexivity.
  - vm_compute. reflexivity.
Defined.
End MiniReplay.
