(* ===== verification/Microbatch.v ===== *)
(** * Micro-batches of the RL processors

    Source: [src/arctic_platform/rl/processors/microbatch.py].

    The sequences of a padded batch are distributed over micro-batches of at most
    [max_tokens_per_mb] tokens by a first-fit-decreasing allocation; the number of
    micro-batches is at least [n_mbs] and a multiple of [n_mbs_divisor].  The tensors of the
    batch are cut accordingly, and the indices that restore their order are returned.

    [np.argsort] is not stable, so the order it gives to equal lengths is a parameter with the
    law that it sorts.  Group sums are floats in the source; the model has their exact
    values (they are sums of token counts, far below 2^53).  When ranks are to run the same number of
    micro-batches, [all_gather_object] gives each of them the counts of all. *)

From stdpp Require Import prelude strings list sorting.
From Stdlib Require Import ZArith Lia ZifyNat ZifyBool.
From S2P Require Import Prelude Dict Tensor Batch.
Local Open Scope Z_scope.

(** ** [bisect] *)

Section bisect.
Context {A : Type} (lt : A -> A -> bool).

(** [while lo < hi: mid = (lo + hi) // 2; if x < a[mid]: hi = mid else: lo = mid + 1]. *)
Fixpoint bisect_loop (fuel : nat) (a : list A) (x : A) (lo hi : nat) : nat :=
  match fuel with
  | O => lo
  | S fuel =>
      if (lo <? hi)%nat then
        let mid := ((lo + hi) / 2)%nat in
        match a !! mid with
        | Some y => if lt x y then bisect_loop fuel a x lo mid else bisect_loop fuel a x (S mid) hi
        | None => lo
        end
      else lo
  end.

Definition bisect_right (a : list A) (x : A) : nat := bisect_loop (length a) a x 0 (length a).
Definition insort (a : list A) (x : A) : list A := let i := bisect_right a x in take i a ++ x :: drop i a.

Context `{!StrictWeak lt}.
Abbreviation sorted := (StronglySorted (fun x y => lt y x = false)).

Lemma sorted_lookup l i j x y : sorted l -> (i < j)%nat -> l !! i = Some x -> l !! j = Some y -> lt y x = false.
Proof.
  intros Hs. revert i j. induction Hs as [|z l _ IH Hz]; intros [|i] [|j] Hij Hi Hj; try done; try lia; simplify_eq/=.
  - eapply (Forall_lookup_1 _ _ _ _ Hz Hj).
  - apply (IH i j); [lia|done..].
Qed.

Lemma bisect_loop_spec fuel a x : forall lo hi,
  sorted a -> (lo <= hi <= length a)%nat -> (hi - lo <= fuel)%nat ->
  (forall j y, (j < lo)%nat -> a !! j = Some y -> lt x y = false) ->
  (forall j y, (hi <= j)%nat -> a !! j = Some y -> lt x y = true) ->
  let i := bisect_loop fuel a x lo hi in
  (i <= length a)%nat /\ (forall j y, (j < i)%nat -> a !! j = Some y -> lt x y = false) /\ (forall j y, (i <= j)%nat -> a !! j = Some y -> lt x y = true).
Proof.
  induction fuel as [|fuel IH]; intros lo hi Hs Hb Hf Hlo Hhi; cbn [bisect_loop].
  { split_and!; [lia|done|]. intros j y Hj. apply Hhi. lia. }
  destruct (Nat.ltb_spec lo hi) as [Hlt|Hge]; [|split_and!; [lia|done|]; intros j y Hj; apply Hhi; lia].
  assert (Hmid : (lo <= (lo + hi) / 2 < hi)%nat) by (split; [apply Nat.div_le_lower_bound|apply Nat.div_lt_upper_bound]; lia).
  destruct (lookup_lt_is_Some_2 a ((lo + hi) / 2)%nat) as [z Hz]; [lia|]. rewrite Hz. destruct (lt x z) eqn:E.
  - apply IH; [done|lia|lia|done|]. intros j y Hj Hy. destruct (decide (j = ((lo + hi) / 2)%nat)) as [->|Hne]; [congruence|].
    assert (Hzy : lt y z = false) by (apply (sorted_lookup a ((lo + hi) / 2)%nat j); [done|lia|done..]).
    destruct (lt x y) eqn:Exy; [done|]. by rewrite (sw_ntrans _ _ _ Exy Hzy) in E.
  - apply IH; [done|lia|lia| |done]. intros j y Hj Hy. destruct (decide (j = ((lo + hi) / 2)%nat)) as [->|Hne]; [congruence|].
    assert (Hzy : lt z y = false) by (apply (sorted_lookup a j ((lo + hi) / 2)%nat); [done|lia|done..]). by eapply sw_ntrans.
Qed.

Lemma bisect_right_spec a x :
  sorted a -> let i := bisect_right a x in
  (i <= length a)%nat /\ (forall j y, (j < i)%nat -> a !! j = Some y -> lt x y = false) /\ (forall j y, (i <= j)%nat -> a !! j = Some y -> lt x y = true).
Proof.
  intros Hs. apply bisect_loop_spec; [done|lia|lia|intros; lia|]. intros j y Hj Hy. apply lookup_lt_Some in Hy. lia.
Qed.

Lemma insort_perm a x : insort a x ≡ₚ x :: a.
Proof. unfold insort. rewrite <- Permutation_middle, take_drop. done. Qed.

Lemma sorted_app_inv l k : sorted (l ++ k) -> sorted l /\ sorted k.
Proof. induction l as [|y l IH]; simpl; [by split; [constructor|]|]. intros [H1 H2]%StronglySorted_inv. apply IH in H1 as [? ?]. apply Forall_app in H2 as [? ?]. split; [by constructor|done]. Qed.

Lemma sorted_app l k : sorted l -> sorted k -> (forall x y, x ∈ l -> y ∈ k -> lt y x = false) -> sorted (l ++ k).
Proof.
  intros Hl Hk Hlk. induction Hl as [|z l Hl IH Hz]; simpl; [done|]. constructor; [apply IH; intros; apply Hlk; set_solver|].
  apply Forall_app. split; [done|]. apply Forall_forall. intros y Hy. apply Hlk; set_solver.
Qed.

Lemma insort_sorted a x : sorted a -> sorted (insort a x).
Proof.
  intros Hs. destruct (bisect_right_spec a x Hs) as (Hi & Hlo & Hhi). unfold insort. set (i := bisect_right a x) in *.
  pose proof Hs as Hs'. rewrite <- (take_drop i a) in Hs'. apply sorted_app_inv in Hs' as [Ht Hd].
  assert (Hle : forall y, y ∈ take i a -> lt x y = false).
  { intros y [j Hj]%list_elem_of_lookup_1. rewrite lookup_take_Some in Hj. destruct Hj. by apply (Hlo j). }
  assert (Hgt : forall y, y ∈ drop i a -> lt y x = false).
  { intros y [j Hj]%list_elem_of_lookup_1. rewrite lookup_drop in Hj. apply sw_asym, (Hhi (i + j)%nat); [lia|done]. }
  apply sorted_app; [done|constructor; [done|by apply Forall_forall]|]. intros u y Hu [->|Hy]%elem_of_cons; [by apply Hle|]. eapply sw_ntrans; [by apply Hgt|by apply Hle].
Qed.

Lemma sorted_sublist l k : sublist l k -> sorted k -> sorted l.
Proof.
  induction 1 as [|x l k Hl IH|x l k Hl IH]; intros Hk; [done|apply StronglySorted_inv in Hk as [Hk Hx]..].
  - constructor; [by apply IH|]. apply Forall_forall. intros y Hy. rewrite Forall_forall in Hx. apply Hx. by eapply elem_of_sublist.
  - by apply IH.
Qed.

Lemma sorted_remove a j : sorted a -> sorted (take j a ++ drop (S j) a).
Proof.
  apply sorted_sublist. rewrite <- (take_drop j a) at 3. apply sublist_app; [done|]. replace (S j) with (j + 1)%nat by lia. rewrite <- drop_drop. apply sublist_drop.
Qed.
End bisect.

(** ** The allocation *)

(** Tuples [(sum, group)] are compared lexicographically. *)
Definition pair_lt : Z * nat -> Z * nat -> bool := lex_pair Z.ltb Nat.ltb.

(** [np.argmin]: the first position of the least element. *)
Definition argmin (l : list nat) : option nat :=
  match l with
  | [] => None
  | x :: l => fst <$> (list_find (fun y => y = foldl min x l) (x :: l))
  end.

Record ffd := Ffd { group_indices : list (list nat); group_values : list (Z * nat) }.

Section allocate.
(** [np.argsort(-values)]. *)
Variable argsort_desc : list Z -> list nat.

Definition open_group (st : ffd) (v : Z) (idx : nat) : ffd :=
  Ffd (group_indices st ++ [[idx]]) (insort pair_lt (group_values st) (v, length (group_indices st))).

(** Put [idx] into the group with the fewest members among those with room; [group_values.pop(j)]. *)
Definition join_least (values : list Z) (capacity : Z) (st : ffd) (v : Z) (idx : nat) : res ffd :=
  let gv := group_values st in
  let i := bisect_right pair_lt gv (capacity - v, length values) in
  let candidates := snd <$> take i gv in
  lens ← mapM (fun g => length <$> at_index (group_indices st) g) candidates;
  match argmin lens with
  | None => Raise (ValueError "attempt to get argmin of an empty sequence")
  | Some j =>
      vg ← at_index gv j;
      let gv' := take j gv ++ drop (S j) gv in
      Ok (Ffd (append_at vg.2 idx (group_indices st)) (insort pair_lt gv' (v + vg.1, vg.2)))
  end.

Definition ffd_place (values : list Z) (capacity min_groups : Z) (st : ffd) (idx : nat) : res ffd :=
  v ← at_index values idx;
  if Z.of_nat (length (group_values st)) <? min_groups then Ok (open_group st v idx)
  else
    g0 ← at_index (group_values st) 0;
    if capacity <? g0.1 + v then Ok (open_group st v idx) else join_least values capacity st v idx.

Definition ffd_allocate_inner (values : list Z) (capacity min_groups : Z) : res (list (list nat)) :=
  st ← foldM (ffd_place values capacity min_groups) (Ffd [] []) (argsort_desc values);
  Ok (group_indices st).

(** [while True]; each turn raises [min_groups] to the next multiple of the divisor. *)
Fixpoint ffd_loop (fuel : nat) (values : list Z) (capacity min_groups divisor : Z) : res (list (list nat)) :=
  match fuel with
  | O => Raise (RuntimeError "no progress")
  | S fuel =>
      gs ← ffd_allocate_inner values capacity min_groups;
      check (negb (divisor =? 0)) ZeroDivisionError;;
      let min_groups := min_groups + (divisor - min_groups mod divisor) in
      if Z.of_nat (length gs) mod divisor =? 0 then Ok gs
      else
        check (min_groups <=? Z.of_nat (length values)) (RuntimeError "Cannot satisfy n_groups_divisor constraint");;
        ffd_loop fuel values capacity min_groups divisor
  end.

Definition ffd_allocate (values : list Z) (capacity : Z) (min_groups : option Z) (divisor : Z) : res (list (list nat)) :=
  let min_groups := match min_groups with Some m => if m <? divisor then divisor else m | None => divisor end in
  check (forallb (fun v => v <=? capacity) values) (RuntimeError "Values exceed capacity");;
  check (min_groups <=? Z.of_nat (length values)) (RuntimeError "Too few values for min_groups");;
  ffd_loop (S (length values)) values capacity min_groups divisor.

(** ** The specification of a split *)

Record MicroBatchSpec := MBSpec {
  n_mbs : option Z;
  granularity : nat;
  max_tokens_per_mb : option Z;
  n_mbs_divisor : Z;
}.

Definition DEFAULT_MAX_TOKENS_PER_MB : Z := 10240.

(** [MicroBatchSpec.new(mb_spec, max_tokens_per_mb=...)] and [MicroBatchSpec.new(mb_spec, n_mbs=...)]. *)
Definition new_max_tokens (s : MicroBatchSpec) (m : Z) : MicroBatchSpec := MBSpec (n_mbs s) (granularity s) (Some m) (n_mbs_divisor s).
Definition new_n_mbs (s : MicroBatchSpec) (n : Z) : MicroBatchSpec := MBSpec (Some n) (granularity s) (max_tokens_per_mb s) (n_mbs_divisor s).

(** [sorted([sorted(g) for g in group_indices])]. *)
Definition sorted_groups (gs : list (list nat)) : list (list nat) := py_sorted (lex_list Nat.ltb) (py_sorted Nat.ltb <$> gs).

(** [mb_spec.n_mbs or 1]. *)
Definition n_mbs_or_1 (n : option Z) : Z := match n with Some n => if n =? 0 then 1 else n | None => 1 end.

Definition allocate_balanced_mbs (s : MicroBatchSpec) (lens : list Z) : res (list (list nat)) :=
  match max_tokens_per_mb s with
  | None => Raise (TypeError "'>' not supported between int and NoneType")
  | Some cap => gs ← ffd_allocate lens cap (Some (n_mbs_or_1 (n_mbs s))) (n_mbs_divisor s); Ok (sorted_groups gs)
  end.

(** The counts of all ranks, when there are several: [all_gather_object]. *)
Definition sync_mbs (all_gather : option (nat -> list nat)) (s : MicroBatchSpec) (lens : list Z) (gs : list (list nat)) : res (list (list nat)) :=
  match all_gather with
  | None => Ok gs
  | Some gather =>
      match py_max Nat.ltb (gather (length gs)) with
      | None => Raise (ValueError "max() arg is an empty sequence")
      | Some max_n_mbs =>
          if (max_n_mbs =? length gs)%nat then Ok gs else allocate_balanced_mbs (new_n_mbs s (Z.of_nat max_n_mbs)) lens
      end
  end.

(** ** Cutting a batch *)

(** Values of the batch: tensors, lists of objects, a list of the rows of a tensor, other objects. *)
Section split.
Context {X : Type}.

Inductive mb_item := ITensor (t : tensor) | IList (l : list X) | IRows (l : list tensor) | IOther (x : X).

Record MicroBatchList := MBList {
  mb_spec : MicroBatchSpec;
  mbs : list (list (string * mb_item));
  group_lens : list Z;
  forward_indices : list nat;
  backward_indices : list nat;
}.

Definition is_multi_modal_key (k : string) : bool := String.prefix "multi_modal_input" k.

Definition is_split_key (bs max_seqlen : nat) (k : string) (v : mb_item) : bool :=
  match v with
  | ITensor t =>
      String.eqb k "position_ids" || (prodn (t_shape t) =? bs * max_seqlen)%nat ||
      (bool_decide (k ∈ BATCH_DIM_CONTEXT_KEYS) && (1 <=? ndim t)%nat && (dim t 0 =? bs)%nat)
  | _ => String.eqb k "position_ids"
  end.

(** [t[i]]. *)
Definition row_tensor (t : tensor) (i : nat) : res tensor :=
  match t_shape t with
  | [] => Raise (IndexError "invalid index of a 0-dim tensor")
  | d :: tr => check (i <? d)%nat (IndexError "index out of bounds");; Ok (mk_tensor tr (chunk (prodn tr) (t_data t) i))
  end.

(** [torch.stack] of rows of one tensor. *)
Definition stack (rows : list tensor) : res tensor :=
  match rows with
  | [] => Raise (RuntimeError "stack expects a non-empty TensorList")
  | r :: _ => Ok (mk_tensor (length rows :: t_shape r) (concat (t_data <$> rows)))
  end.

(** [t[a:b]] on dimension 0. *)
Definition row_slice (t : tensor) (a b : nat) : tensor :=
  match t_shape t with
  | [] => t
  | d :: tr => let a := Nat.min a d in let b := Nat.max a (Nat.min b d) in
      mk_tensor ((b - a)%nat :: tr) (take ((b - a) * prodn tr) (drop (a * prodn tr) (t_data t)))
  end.

Fixpoint slices (t : tensor) (offset : nat) (ns : list nat) : list tensor :=
  match ns with
  | [] => []
  | n :: ns => row_slice t offset (offset + n) :: slices t (offset + n) ns
  end.

(** [_split(tensor)]. *)
Definition split_item (bs : nat) (fwd group_n_seqs : list nat) (v : mb_item) : res (list mb_item) :=
  match v with
  | ITensor t =>
      unpacked ← mapM (row_tensor t) (seq 0 bs);
      rows ← mapM (at_index unpacked) fwd;
      reordered ← stack rows;
      Ok (ITensor <$> slices reordered 0 group_n_seqs)
  | _ => Raise (TypeError "expected Tensor")
  end.

(** [[[data[key][i] for i in gi] for gi in group_indices]]. *)
Definition split_multi_modal (gs : list (list nat)) (v : mb_item) : res (list mb_item) :=
  match v with
  | ITensor t => mapM (fun gi => IRows <$> mapM (row_tensor t) gi) gs
  | IList l => mapM (fun gi => IList <$> mapM (at_index l) gi) gs
  | IRows l => mapM (fun gi => IRows <$> mapM (at_index l) gi) gs
  | IOther _ => Raise (TypeError "object is not subscriptable")
  end.

(** [_dict_of_list2list_of_dict]. *)
Definition dict_of_list2list_of_dict (d : list (string * list mb_item)) : res (list (list (string * mb_item))) :=
  match d with
  | [] => Ok []
  | (_, l0) :: _ => mapM (fun i => mapM (fun kl : string * list mb_item => v ← at_index kl.2 i; Ok (kl.1, v)) d) (seq 0 (length l0))
  end.

(** [{**a, **b}]. *)
Definition dict_merge (a b : list (string * mb_item)) : list (string * mb_item) := fold_left (fun d kv => dict_set d kv.1 kv.2) b a.

(** [data["attention_mask"].view(bs // granularity, granularity, -1).sum(dim=(1, 2))]. *)
Definition granule_sums (mask : tensor) (g : nat) : res (list Z) :=
  check (negb (g =? 0)%nat) ZeroDivisionError;;
  let n := (dim mask 0 / g)%nat in
  let numel := prodn (t_shape mask) in
  check (negb (n * g =? 0)%nat && (numel mod (n * g) =? 0)%nat) (RuntimeError "shape is invalid for input");;
  Ok (sumZ <$> chunks (numel / n) n (t_data mask)).

(** [_flat2d_mb([list(range(i * granularity, (i + 1) * granularity)) for i in gi])]. *)
Definition expand (g : nat) (gi : list nat) : list nat := concat ((fun i => seq (i * g) g) <$> gi).

(** [backward_indices[forward_indices] = np.arange(bs)] on zeros. *)
Definition invert (bs : nat) (fwd : list nat) : res (list nat) :=
  check (length fwd =? bs)%nat (ValueError "shape mismatch");;
  check (forallb (fun i => (i <? bs)%nat) fwd) (IndexError "index out of bounds");;
  Ok (fold_left (fun b '(i, p) => <[i := p]> b) (zip fwd (seq 0 bs)) (replicate bs 0%nat)).

(** The batch with its groups of sequences known. *)
Definition cut_batch (data : list (string * mb_item)) (bs max_seqlen : nat) (seq_lens : list Z) (s : MicroBatchSpec) (gs : list (list nat)) : res MicroBatchList :=
  splitted_lens ← mapM (mapM (at_index seq_lens)) gs;
  let fwd := concat gs in
  bwd ← invert bs fwd;
  let group_n_seqs := length <$> splitted_lens in
  let plain := filter (fun kv => is_multi_modal_key kv.1 = false) data in
  let to_split := filter (fun kv => is_split_key bs max_seqlen kv.1 kv.2 = true) plain in
  let not_to_split := filter (fun kv => is_split_key bs max_seqlen kv.1 kv.2 = false) plain in
  parts ← mapM (fun kv => ps ← split_item bs fwd group_n_seqs kv.2; Ok (kv.1, ps)) to_split;
  mm ← mapM (fun kv => ps ← split_multi_modal gs kv.2; Ok (kv.1, ps)) (filter (fun kv => is_multi_modal_key kv.1 = true) data);
  ms ← dict_of_list2list_of_dict (parts ++ mm);
  Ok (MBList s ((fun mb => dict_merge mb not_to_split) <$> ms) (sumZ <$> splitted_lens) fwd bwd).

(** Masks that are not 2-D do not get through ([shape[1]], or the sum of lists of lists). *)
Definition split_padded_tensor_dict_into_mb_list (all_gather : option (nat -> list nat)) (data : list (string * mb_item)) (s : MicroBatchSpec) : res MicroBatchList :=
  match dict_get data "attention_mask" with
  | Some (ITensor mask) =>
      let s := match max_tokens_per_mb s with None => new_max_tokens s DEFAULT_MAX_TOKENS_PER_MB | Some _ => s end in
      check (ndim mask =? 2)%nat (IndexError "tuple index out of range");;
      let bs := dim mask 0 in
      let seq_lens := sumZ <$> rows2 mask in
      input_lens ← granule_sums mask (granularity s);
      gs ← allocate_balanced_mbs s input_lens;
      gs ← sync_mbs all_gather s input_lens gs;
      cut_batch data bs (dim mask 1) seq_lens s (expand (granularity s) <$> gs)
  | Some _ => Raise (TypeError "object has no attribute shape")
  | None => Raise (ValueError "Input data must contain attention_mask")
  end.

End split.
End allocate.

(** ** The allocation is a partition within capacity *)

Definition group_load (values : list Z) (ms : list nat) : Z := sumZ ((fun i => default 0 (values !! i)) <$> ms).

Lemma load_app values ms js : group_load values (ms ++ js) = group_load values ms + group_load values js.
Proof. unfold group_load. by rewrite fmap_app, sumZ_app. Qed.

Lemma imap_alter {A B} (f : nat -> A -> B) (h : A -> A) (l : list A) i x :
  l !! i = Some x -> imap f (alter h i l) = <[i := f i (h x)]> (imap f l).
Proof.
  intros Hx. apply list_eq. intros j. destruct (decide (i = j)) as [<-|Hne].
  - rewrite list_lookup_imap, list_lookup_alter_eq, Hx, list_lookup_insert_eq; [done|]. rewrite length_imap. by eapply lookup_lt_Some.
  - by rewrite list_lookup_insert_ne, !list_lookup_imap, list_lookup_alter_ne by done.
Qed.

Lemma length_le_concat {A} (gs : list (list A)) : Forall (fun g => g <> []) gs -> (length gs <= length (concat gs))%nat.
Proof. induction 1 as [|g gs Hg _ IH]; simpl; [lia|]. rewrite length_app. destruct g; [done|]. simpl. lia. Qed.

Lemma pair_lt_false (a b : Z * nat) : pair_lt a b = false -> b.1 <= a.1.
Proof. unfold pair_lt, lex_pair. intros [H _]%orb_false_iff. lia. Qed.

Lemma argmin_some l : l <> [] -> exists j, argmin l = Some j /\ (j < length l)%nat.
Proof.
  destruct l as [|x l]; [done|]. intros _. unfold argmin. set (P := fun y => y = foldl min x l).
  assert (Hin : foldl min x l ∈ x :: l).
  { clear. revert x. induction l as [|y l IH]; intros x; simpl; [by apply list_elem_of_singleton|].
    specialize (IH (min x y)). apply elem_of_cons in IH as [E|E]; [|set_solver]. rewrite E. destruct (Nat.min_spec x y) as [[_ ->]|[_ ->]]; set_solver. }
  destruct (list_find_elem_of P (x :: l) _ Hin eq_refl) as [[j y] Hj]. rewrite Hj. exists j. split; [done|].
  apply list_find_Some in Hj as (Hj & _ & _). by eapply lookup_lt_Some.
Qed.

Section ffd.
Context (argsort_desc : list Z -> list nat) (values : list Z) (capacity min_groups : Z).
Hypothesis fits : Forall (fun v => v <= capacity) values.
Hypothesis min_pos : 1 <= min_groups.

Record ffd_inv (pre : list nat) (st : ffd) : Prop := {
  fi_perm : concat (group_indices st) ≡ₚ pre;
  fi_values : group_values st ≡ₚ imap (fun g ms => (group_load values ms, g)) (group_indices st);
  fi_sorted : StronglySorted (fun x y => pair_lt y x = false) (group_values st);
  fi_cap : Forall (fun ms => group_load values ms <= capacity) (group_indices st);
  fi_ne : Forall (fun ms => ms <> []) (group_indices st);
  fi_min : Z.min min_groups (Z.of_nat (length pre)) <= Z.of_nat (length (group_indices st));
}.

Lemma fi_length pre st : ffd_inv pre st -> (length (group_indices st) <= length pre)%nat /\ length (group_values st) = length (group_indices st).
Proof.
  intros HI. split; [rewrite <- (fi_perm _ _ HI); apply length_le_concat, HI|]. by rewrite (fi_values _ _ HI), length_imap.
Qed.

Lemma fi_member pre st s g : ffd_inv pre st -> (s, g) ∈ group_values st -> exists ms, group_indices st !! g = Some ms /\ s = group_load values ms.
Proof.
  intros HI Hin. rewrite (fi_values _ _ HI) in Hin. apply elem_of_lookup_imap in Hin as (i & ms & [= -> ->] & Hi). eauto.
Qed.

Lemma open_group_inv pre st idx v : ffd_inv pre st -> values !! idx = Some v -> ffd_inv (pre ++ [idx]) (open_group st v idx).
Proof.
  intros HI Hv. assert (Hload : group_load values [idx] = v) by (unfold group_load; simpl; rewrite Hv; simpl; lia). split; simpl.
  - rewrite concat_app. simpl. by rewrite (fi_perm _ _ HI).
  - rewrite insort_perm, imap_app. simpl. unfold compose. rewrite Nat.add_0_r, Hload, Permutation_app_comm. by rewrite (fi_values _ _ HI).
  - apply insort_sorted; [apply _|apply HI].
  - apply Forall_app. split; [apply HI|]. constructor; [|done]. rewrite Hload. by eapply (Forall_lookup_1 _ _ _ _ fits).
  - apply Forall_app. split; [apply HI|]. by constructor.
  - pose proof (fi_min _ _ HI). rewrite !length_app. simpl. lia.
Qed.

(** The group that is first in the order of sums has room, so there are candidates. *)
Lemma candidates_exist pre st v g0 :
  ffd_inv pre st -> (length pre < length values)%nat -> group_values st !! 0%nat = Some g0 -> g0.1 + v <= capacity ->
  (0 < bisect_right pair_lt (group_values st) ((capacity - v)%Z, length values))%nat.
Proof.
  intros HI Hlen Hg0 Hroom. destruct (bisect_right_spec pair_lt (group_values st) (capacity - v, length values) (fi_sorted _ _ HI)) as (_ & _ & Hhi).
  destruct (bisect_right _ _ _) as [|i]; [exfalso|lia]. specialize (Hhi 0%nat g0 ltac:(lia) Hg0). destruct g0 as [s g]. unfold pair_lt, lex_pair in Hhi. simpl in *.
  destruct (fi_member pre st s g HI) as (ms & Hms%lookup_lt_Some & _); [by eapply list_elem_of_lookup_2|]. pose proof (fi_length _ _ HI) as [? _]. lia.
Qed.

(** Moving [idx] into the group [g] of load [s]. *)
Lemma joined_inv pre st idx v j s g :
  ffd_inv pre st -> values !! idx = Some v -> group_values st !! j = Some (s, g) -> v + s <= capacity -> min_groups <= Z.of_nat (length (group_indices st)) ->
  ffd_inv (pre ++ [idx]) (Ffd (append_at g idx (group_indices st)) (insort pair_lt (take j (group_values st) ++ drop (S j) (group_values st)) (v + s, g))).
Proof.
  intros HI Hv Hj Hcap Hmin. destruct (fi_member pre st s g HI) as (ms & Hms & Hs); [by eapply list_elem_of_lookup_2|].
  assert (Hload : group_load values (ms ++ [idx]) = v + s) by (rewrite load_app, <- Hs; unfold group_load; simpl; rewrite Hv; simpl; lia).
  pose proof (lookup_lt_Some _ _ _ Hms) as Hlt. split; cbn [group_indices group_values].
  - rewrite concat_append_at by done. rewrite (fi_perm _ _ HI). apply Permutation_cons_append.
  - unfold append_at. rewrite insort_perm, (imap_alter _ _ _ _ _ Hms), Hload. set (im := imap _ _).
    assert (Him : im !! g = Some (s, g)) by (unfold im; rewrite list_lookup_imap, Hms, Hs; done).
    rewrite insert_take_drop by (by eapply lookup_lt_Some). rewrite <- Permutation_middle. apply perm_skip.
    apply (Permutation_cons_inv (a := (s, g))). rewrite !Permutation_middle, <- (list_split_at _ _ _ Hj), <- (list_split_at _ _ _ Him). apply HI.
  - apply insort_sorted; [apply _|]. apply sorted_remove, HI.
  - unfold append_at. rewrite (list_alter_split _ _ _ _ Hms). pose proof (fi_cap _ _ HI) as Hall. rewrite (list_split_at _ _ _ Hms) in Hall.
    apply Forall_app in Hall as [H1 [_ H2]%Forall_cons]. apply Forall_app. split; [done|]. constructor; [lia|done].
  - unfold append_at. rewrite (list_alter_split _ _ _ _ Hms). pose proof (fi_ne _ _ HI) as Hall. rewrite (list_split_at _ _ _ Hms) in Hall.
    apply Forall_app in Hall as [H1 [_ H2]%Forall_cons]. apply Forall_app. split; [done|]. constructor; [by destruct ms|done].
  - rewrite length_append_at. lia.
Qed.

Lemma join_group_inv pre st idx v g0 :
  ffd_inv pre st -> values !! idx = Some v -> (length pre < length values)%nat -> group_values st !! 0%nat = Some g0 -> g0.1 + v <= capacity ->
  min_groups <= Z.of_nat (length (group_indices st)) ->
  exists st', join_least values capacity st v idx = Ok st' /\ ffd_inv (pre ++ [idx]) st'.
Proof.
  intros HI Hv Hlen Hg0 Hroom Hmin. pose proof (candidates_exist _ _ _ _ HI Hlen Hg0 Hroom) as Hpos. unfold join_least.
  destruct (bisect_right_spec pair_lt (group_values st) (capacity - v, length values) (fi_sorted _ _ HI)) as (Hi & Hlo & _).
  set (i := bisect_right _ _ _) in *. set (size := fun g => length (default [] (group_indices st !! g))).
  assert (Hlens : mapM (fun g => length <$> at_index (group_indices st) g) (snd <$> take i (group_values st)) = Ok (size <$> (snd <$> take i (group_values st)))).
  { apply mapM_ok. intros g ([s g'] & -> & Hin)%list_elem_of_fmap. assert (Hin' : (s, g') ∈ group_values st) by (eapply elem_of_sublist; [exact Hin|apply sublist_take]).
    destruct (fi_member _ _ _ _ HI Hin') as (ms & Hms & _). unfold size. simpl. by rewrite (at_index_ok _ _ _ Hms), Hms. }
  rewrite Hlens. cbn [mbind res_bind]. set (lens := size <$> _). assert (Hll : length lens = i) by (unfold lens; rewrite !length_fmap, length_take; lia).
  destruct (argmin_some lens) as (j & -> & Hj); [intros E; rewrite E in Hll; simpl in Hll; lia|].
  destruct (lookup_lt_is_Some_2 (group_values st) j) as [[s g] Hsg]; [lia|]. rewrite (at_index_ok _ _ _ Hsg). cbn [mbind res_bind fst snd].
  eexists. split; [done|]. apply joined_inv; try done. assert (Hle : pair_lt (capacity - v, length values) (s, g) = false) by (apply (Hlo j); [lia|done]).
  apply pair_lt_false in Hle. simpl in Hle. lia.
Qed.

Lemma ffd_place_inv pre st idx :
  ffd_inv pre st -> (idx < length values)%nat -> (length pre < length values)%nat ->
  exists st', ffd_place values capacity min_groups st idx = Ok st' /\ ffd_inv (pre ++ [idx]) st'.
Proof.
  intros HI Hidx Hlen. destruct (at_index_lt values idx Hidx) as (v & Hv & Hat). unfold ffd_place. rewrite Hat. cbn [mbind res_bind].
  destruct (fi_length _ _ HI) as [_ Hlv]. destruct (Z.ltb_spec (Z.of_nat (length (group_values st))) min_groups) as [Hlt|Hge].
  { eexists. split; [done|]. by apply open_group_inv. }
  destruct (at_index_lt (group_values st) 0) as (g0 & Hg0 & ->); [lia|]. cbn [mbind res_bind].
  destruct (Z.ltb_spec capacity (g0.1 + v)); [eexists; split; [done|]; by apply open_group_inv|]. apply (join_group_inv _ _ _ _ g0); try done. lia.
Qed.

(** The outcome of the inner allocation. *)
Record allocation (gs : list (list nat)) : Prop := {
  al_partition : is_partition gs (length values);
  al_cap : Forall (fun ms => group_load values ms <= capacity) gs;
  al_ne : Forall (fun ms => ms <> []) gs;
  al_min : Z.min min_groups (Z.of_nat (length values)) <= Z.of_nat (length gs) <= Z.of_nat (length values);
}.

Hypothesis argsort_perm : argsort_desc values ≡ₚ seq 0 (length values).

Lemma ffd_inner_ok : exists gs, ffd_allocate_inner argsort_desc values capacity min_groups = Ok gs /\ allocation gs.
Proof.
  destruct (foldM_ok_split ffd_inv (ffd_place values capacity min_groups) (Ffd [] []) (argsort_desc values)) as (st & Hst & HI).
  - split; simpl; try done; [constructor|lia].
  - intros pre x suf st E HI. apply ffd_place_inv; [done| |].
    + assert (Hx : x ∈ seq 0 (length values)) by (rewrite <- argsort_perm, E; set_solver). apply elem_of_seq in Hx. lia.
    + apply Permutation_length in argsort_perm. rewrite E, length_app, length_seq in argsort_perm. simpl in argsort_perm. lia.
  - exists (group_indices st). unfold ffd_allocate_inner. rewrite Hst. split; [done|].
    assert (Hlen : length (argsort_desc values) = length values) by (by rewrite argsort_perm, length_seq).
    split; [unfold is_partition; by rewrite (fi_perm _ _ HI)|apply HI|apply HI|].
    pose proof (fi_min _ _ HI). pose proof (fi_length _ _ HI) as [? _]. lia.
Qed.
End ffd.

(** ** The number of groups *)

Section decides.
Context (argsort_desc : list Z -> list nat) (values : list Z) (capacity divisor : Z).
Hypothesis argsort_perm : argsort_desc values ≡ₚ seq 0 (length values).
Hypothesis divisor_pos : 1 <= divisor.

Definition too_long : Prop := exists v, v ∈ values /\ capacity < v.

Lemma next_multiple m : m < m + (divisor - m mod divisor) /\ (divisor | m + (divisor - m mod divisor)) /\
  forall k, (divisor | k) -> m < k -> m + (divisor - m mod divisor) <= k.
Proof.
  pose proof (Z.mod_pos_bound m divisor ltac:(lia)) as Hb. pose proof (Z.div_mod m divisor ltac:(lia)) as Hm. split_and!; [lia| |].
  - exists (m / divisor + 1). lia.
  - intros k [q ->] Hlt. assert (m / divisor < q) by nia. nia.
Qed.

Lemma ffd_loop_decides fuel : forall m,
  Forall (fun v => v <= capacity) values -> 1 <= m <= Z.of_nat (length values) -> Z.of_nat (length values) - m < Z.of_nat fuel ->
  match ffd_loop argsort_desc fuel values capacity m divisor with
  | Ok gs => allocation values capacity m gs /\ (divisor | Z.of_nat (length gs))
  | Raise e => e = RuntimeError "Cannot satisfy n_groups_divisor constraint" /\ ~ (divisor | Z.of_nat (length values))
  end.
Proof.
  induction fuel as [|fuel IH]; intros m Hfits Hm Hfuel; [lia|]. cbn [ffd_loop].
  destruct (ffd_inner_ok argsort_desc values capacity m Hfits ltac:(lia) argsort_perm) as (gs & -> & Hal). cbn [mbind res_bind].
  rewrite (proj2 (Z.eqb_neq divisor 0)) by lia. cbn [negb check mbind res_bind].
  destruct (Z.eqb_spec (Z.of_nat (length gs) mod divisor) 0) as [Hdiv|Hndiv].
  { split; [done|]. by apply Z.mod_divide; [lia|]. }
  destruct (next_multiple m) as (Hlt & _ & Hleast). set (m' := m + (divisor - m mod divisor)) in *.
  destruct (Z.leb_spec m' (Z.of_nat (length values))) as [Hle|Hgt]; cbn [check mbind res_bind].
  - specialize (IH m' Hfits ltac:(lia) ltac:(lia)). destruct (ffd_loop _ _ _ _ _ _) as [gs'|e]; [|done].
    destruct IH as [[Hp Hc Hn Hmin] Hd]. split; [|done]. split; try done. lia.
  - split; [done|]. intros Hd. assert (m = Z.of_nat (length values)) by (destruct (decide (m < Z.of_nat (length values))); [specialize (Hleast _ Hd); lia|lia]).
    destruct Hal as [_ _ _ Hmin]. apply Hndiv, Z.mod_divide; [lia|]. replace (Z.of_nat (length gs)) with (Z.of_nat (length values)) by lia. done.
Qed.

Definition least_groups (min_groups : option Z) : Z := match min_groups with Some m => Z.max m divisor | None => divisor end.

Lemma ffd_allocate_outcome min_groups :
  match ffd_allocate argsort_desc values capacity min_groups divisor with
  | Ok gs => allocation values capacity (least_groups min_groups) gs /\ (divisor | Z.of_nat (length gs))
  | Raise e =>
      e = RuntimeError "Values exceed capacity" /\ too_long \/
      e = RuntimeError "Too few values for min_groups" /\ Z.of_nat (length values) < least_groups min_groups \/
      e = RuntimeError "Cannot satisfy n_groups_divisor constraint" /\ ~ (divisor | Z.of_nat (length values))
  end.
Proof.
  unfold ffd_allocate. set (m := match min_groups with Some m => _ | None => _ end).
  assert (Hm : m = least_groups min_groups) by (unfold m, least_groups; destruct min_groups as [x|]; [destruct (Z.ltb_spec x divisor); lia|done]).
  rewrite Hm. clear m Hm. assert (Hpos : 1 <= least_groups min_groups) by (unfold least_groups; destruct min_groups; lia).
  destruct (forallb _ values) eqn:Ef; cbn [check mbind res_bind].
  - destruct (Z.leb_spec (least_groups min_groups) (Z.of_nat (length values))) as [Hle|Hgt]; cbn [check mbind res_bind]; [|right; left; done].
    assert (Hfits : Forall (fun v => v <= capacity) values).
    { apply Forall_forall. intros v Hv. rewrite forallb_forall in Ef. specialize (Ef v ltac:(by apply list_elem_of_In)). lia. }
    pose proof (ffd_loop_decides (S (length values)) (least_groups min_groups) Hfits ltac:(lia) ltac:(lia)) as Hl.
    destruct (ffd_loop _ _ _ _ _ _); [done|]. by right; right.
  - left. split; [done|]. apply not_true_iff_false in Ef. rewrite forallb_forall in Ef. unfold too_long.
    destruct (decide (Exists (fun v => capacity < v) values)) as [Hx|Hx]; [by apply Exists_exists in Hx|]. exfalso. apply Ef.
    intros v Hv%list_elem_of_In. apply not_Exists_Forall in Hx; [|apply _]. rewrite Forall_forall in Hx. specialize (Hx v Hv). simpl in Hx. lia.
Qed.
End decides.

(** The first-fit-decreasing allocation ends (its retry loop makes progress), whatever order [np.argsort] gives to equal lengths, and decides:
    it returns a partition of the items into non-empty groups within capacity, at least [min_groups] of them and a multiple of the
    divisor, or raises, and then an mb_item exceeds the capacity, or there are fewer items than the least number of groups, or the number of items is not a multiple of the divisor. *)
Theorem ffd_allocate_decides (argsort_desc : list Z -> list nat) (values : list Z) (capacity : Z) (min_groups : option Z) (divisor : Z) :
  argsort_desc values ≡ₚ seq 0 (length values) -> 1 <= divisor ->
  match ffd_allocate argsort_desc values capacity min_groups divisor with
  | Ok gs => allocation values capacity (least_groups divisor min_groups) gs /\ (divisor | Z.of_nat (length gs))
  | Raise e =>
      e = RuntimeError "Values exceed capacity" /\ too_long values capacity \/
      e = RuntimeError "Too few values for min_groups" /\ Z.of_nat (length values) < least_groups divisor min_groups \/
      e = RuntimeError "Cannot satisfy n_groups_divisor constraint" /\ ~ (divisor | Z.of_nat (length values))
  end.
Proof. intros Hperm Hd. exact (ffd_allocate_outcome argsort_desc values capacity divisor Hperm Hd min_groups). Qed.

(** ** The sorted groups and the counts of several ranks *)

Section ranks.
Context (argsort_desc : list Z -> list nat).
Hypothesis argsort_perm : forall l, argsort_desc l ≡ₚ seq 0 (length l).

Lemma load_perm values ms ms' : ms ≡ₚ ms' -> group_load values ms = group_load values ms'.
Proof. intros Hp. unfold group_load. by rewrite Hp. Qed.

Lemma sort_groups_allocation values cap m gs : allocation values cap m gs -> allocation values cap m (sorted_groups gs).
Proof.
  intros [Hp Hc Hn Hm]. unfold sorted_groups. split.
  - unfold is_partition in *. rewrite py_sorted_perm, concat_map_perm; [done|apply py_sorted_perm].
  - rewrite py_sorted_perm. apply Forall_fmap. eapply Forall_impl; [exact Hc|]. intros ms Hms. unfold compose. by rewrite (load_perm _ _ ms (py_sorted_perm _ _)).
  - rewrite py_sorted_perm. apply Forall_fmap. eapply Forall_impl; [exact Hn|]. intros ms Hms E. unfold compose in E. apply Hms.
    pose proof (py_sorted_perm Nat.ltb ms) as Hps. rewrite E in Hps. by apply Permutation_nil_l in Hps.
  - by rewrite py_sorted_length, length_fmap.
Qed.

Lemma length_sorted_groups gs : length (sorted_groups gs) = length gs.
Proof. unfold sorted_groups. by rewrite py_sorted_length, length_fmap. Qed.

(** What a rank may ask for without an error. *)
Record allocatable (s : MicroBatchSpec) (cap : Z) (lens : list Z) (n : Z) : Prop := {
  ab_cap : max_tokens_per_mb s = Some cap;
  ab_fits : Forall (fun v => v <= cap) lens;
  ab_divisor : 1 <= n_mbs_divisor s;
  ab_divides : (n_mbs_divisor s | Z.of_nat (length lens));
  ab_enough : Z.max n (n_mbs_divisor s) <= Z.of_nat (length lens);
}.

Lemma allocate_balanced_ok s cap lens :
  allocatable s cap lens (n_mbs_or_1 (n_mbs s)) ->
  exists gs, allocate_balanced_mbs argsort_desc s lens = Ok gs /\ allocation lens cap (Z.max (n_mbs_or_1 (n_mbs s)) (n_mbs_divisor s)) gs /\ (n_mbs_divisor s | Z.of_nat (length gs)).
Proof.
  intros [Hcap Hfits Hdiv Hd Hen]. unfold allocate_balanced_mbs. rewrite Hcap.
  pose proof (ffd_allocate_outcome argsort_desc lens cap (n_mbs_divisor s) (argsort_perm lens) Hdiv (Some (n_mbs_or_1 (n_mbs s)))) as Ho.
  destruct (ffd_allocate _ _ _ _ _) as [gs|e]; cbn [mbind res_bind].
  - destruct Ho as [Ha Hdv]. exists (sorted_groups gs). rewrite length_sorted_groups. split_and!; [done|by apply sort_groups_allocation|done].
  - exfalso. destruct Ho as [[_ (v & Hv & Hlt)]|[[_ Hlt]|[_ Hnd]]]; [|simpl in Hlt; lia|done]. rewrite Forall_forall in Hfits. specialize (Hfits v Hv). simpl in Hfits. lia.
Qed.

(** After the counts were exchanged a rank has at least as many groups as any of them. *)
Lemma sync_ok s cap lens gs gather :
  allocatable s cap lens (n_mbs_or_1 (n_mbs s)) -> allocation lens cap 1 gs -> (n_mbs_divisor s | Z.of_nat (length gs)) ->
  (forall f, gather = Some f -> length gs ∈ f (length gs) /\ Forall (fun c => (c <= length lens)%nat) (f (length gs))) ->
  exists gs', sync_mbs argsort_desc gather s lens gs = Ok gs' /\ allocation lens cap 1 gs' /\ (n_mbs_divisor s | Z.of_nat (length gs')) /\
    (length gs <= length gs')%nat /\ forall f, gather = Some f -> Forall (fun c => (c <= length gs')%nat) (f (length gs)).
Proof.
  intros Ha Hal Hdv Hg. unfold sync_mbs. destruct gather as [f|]; [|exists gs; split_and!; try done; lia]. destruct (Hg f eq_refl) as [Hin Hle].
  destruct (py_max Nat.ltb (f (length gs))) as [mx|] eqn:Emx; [|unfold py_max in Emx; destruct (f (length gs)); set_solver].
  apply py_max_spec in Emx as [Hmx Hall]; [|apply _]. rewrite Forall_forall in Hall, Hle.
  assert (Hge : (length gs <= mx)%nat) by (specialize (Hall _ Hin); simpl in Hall; lia).
  destruct (Nat.eqb_spec mx (length gs)) as [E|Hne].
  { exists gs. split_and!; try done. intros f' [= <-]. apply Forall_forall. intros c Hc. specialize (Hall c Hc). simpl in Hall. lia. }
  destruct (allocate_balanced_ok (new_n_mbs s (Z.of_nat mx)) cap lens) as (gs' & -> & Hal' & Hdv').
  { destruct Ha as [? ? ? ? Hen]. split; try done. simpl. specialize (Hle mx Hmx). simpl in Hle. unfold n_mbs_or_1. simpl in *. destruct (Z.of_nat mx =? 0) eqn:E0; lia. }
  assert (Hmin : (mx <= length gs')%nat).
  { specialize (Hle mx Hmx). simpl in Hle. destruct Hal' as [_ _ _ Hm]. simpl in Hm. unfold n_mbs_or_1 in Hm. destruct (Z.of_nat mx =? 0) eqn:E0; lia. }
  exists gs'. split_and!; try done; [|lia|].
  - destruct Hal' as [H1 H2 H3 H4]. split; try done. destruct Hal as [_ _ _ H5]. lia.
  - intros f' [= <-]. apply Forall_forall. intros c Hc. specialize (Hall c Hc). simpl in Hall. lia.
Qed.
End ranks.

(** ** All ranks together *)

(** Every rank allocates, the counts are gathered, every rank settles. *)
Definition sync_ranks (argsort_desc : list Z -> list nat) (s : MicroBatchSpec) (ranks : list (list Z)) : res (list (list (list nat))) :=
  allocated ← mapM (allocate_balanced_mbs argsort_desc s) ranks;
  let counts := (fun gs => length gs) <$> allocated in
  mapM (fun lg : list Z * list (list nat) => sync_mbs argsort_desc (Some (fun _ => counts)) s lg.1 lg.2) (zip ranks allocated).

(** A stable [argsort]. *)
Definition argsort_stable (l : list Z) : list nat := snd <$> py_sorted (by_key fst (rev_order Z.ltb)) (zip l (seq 0 (length l))).

Lemma argsort_stable_perm l : argsort_stable l ≡ₚ seq 0 (length l).
Proof. unfold argsort_stable. rewrite py_sorted_perm, snd_zip; [done|]. by rewrite length_seq. Qed.

(** Sequences that fit in nine micro-batches, but not in ten when ten are opened at once. *)
Definition rank_a : list Z := [535; 531; 515; 509; 497; 477; 435; 430; 419; 395; 383; 363; 334; 329; 324; 313; 297; 296; 289; 278; 266].
Definition rank_b : list Z := replicate 10 600.

Definition counts (r : res (list (list (list nat)))) : res (list nat) :=
  match r with Ok gss => Ok (List.map (fun gs => length gs) gss) | Raise e => Raise e end.

(** The exchange of micro-batch counts, which is there so that every rank runs the same number of micro-batches, can leave the ranks with different
    numbers: with a budget of 1000 tokens one rank has nine micro-batches and another ten; asked for at least ten, the first one gets eleven. *)
Theorem sync_counts_differ :
  counts (mapM (allocate_balanced_mbs argsort_stable (MBSpec (Some 1) 1 (Some 1000) 1)) [rank_a; rank_b]) = Ok [9%nat; 10%nat] /\
  counts (sync_ranks argsort_stable (MBSpec (Some 1) 1 (Some 1000) 1) [rank_a; rank_b]) = Ok [11%nat; 10%nat].
Proof. split; vm_compute; reflexivity. Qed.

(** ** Cutting and restoring *)

Lemma concat_groups_fmap {A B} (f : A -> list B) (gs : list (list A)) : concat ((fun g => concat (f <$> g)) <$> gs) = concat (f <$> concat gs).
Proof. induction gs as [|g gs IH]; csimpl; [done|]. by rewrite IH, fmap_app, concat_app. Qed.

(** Rows [g] of a tensor whose trailing dimensions are [tr]. *)
Definition rows_at (tr : list nat) (t : tensor) (g : list nat) : tensor := mk_tensor (length g :: tr) (concat (chunk (prodn tr) (t_data t) <$> g)).

(** The rows of a tensor. *)
Definition rows_of (t : tensor) : list (list Z) :=
  match t_shape t with [] => [] | d :: tr => chunks (prodn tr) d (t_data t) end.

Lemma chunk_widths w (l : list Z) n (g : list nat) : (n * w <= length l)%nat -> Forall (fun i => (i < n)%nat) g -> Forall (fun p => length p = w) (chunk w l <$> g).
Proof. intros Hl Hg. apply Forall_fmap. eapply Forall_impl; [exact Hg|]. intros i Hi. unfold compose. apply length_chunk. pose proof (Nat.mul_le_mono_r (S i) n w Hi). lia. Qed.

Lemma rows_of_rows_at tr t n g :
  (n * prodn tr <= length (t_data t))%nat -> Forall (fun i => (i < n)%nat) g -> rows_of (rows_at tr t g) = chunk (prodn tr) (t_data t) <$> g.
Proof.
  intros Hl Hg. unfold rows_of, rows_at. simpl. rewrite <- (length_fmap (chunk (prodn tr) (t_data t)) g). apply chunks_concat. by eapply chunk_widths.
Qed.

Lemma mapM_row_tensor t d tr (g : list nat) :
  t_shape t = d :: tr -> Forall (fun i => (i < d)%nat) g -> mapM (row_tensor t) g = Ok ((fun i => mk_tensor tr (chunk (prodn tr) (t_data t) i)) <$> g).
Proof.
  intros Hs Hg. apply mapM_ok. intros i Hi. rewrite Forall_forall in Hg. unfold row_tensor. rewrite Hs.
  by rewrite (proj2 (Nat.ltb_lt i d) (Hg i Hi)).
Qed.

Lemma slices_rows tr t n gs : forall pre,
  (n * prodn tr <= length (t_data t))%nat -> Forall (fun i => (i < n)%nat) (concat (pre ++ gs)) ->
  slices (rows_at tr t (concat (pre ++ gs))) (length (concat pre)) ((fun g => length g) <$> gs) = rows_at tr t <$> gs.
Proof.
  induction gs as [|g gs IH]; intros pre Hl Hall; csimpl; [done|]. specialize (IH (pre ++ [g])). rewrite <- app_assoc in IH. simpl in IH. rewrite <- (IH Hl Hall).
  assert (Hpre : length (concat (pre ++ [g])) = (length (concat pre) + length g)%nat) by (rewrite concat_app, length_app; simpl; by rewrite app_nil_r).
  rewrite Hpre. f_equal. clear IH Hpre. unfold row_slice, rows_at. cbn [t_shape t_data].
  rewrite !concat_app, !length_app. simpl. rewrite length_app. set (a := length (concat pre)).
  rewrite (Nat.min_l a), (Nat.min_l (a + length g)) by lia. rewrite Nat.max_r by lia. replace (a + length g - a)%nat with (length g) by lia. f_equal.
  rewrite concat_app in Hall. simpl in Hall. apply Forall_app in Hall as [Hp [Hg Hr]%Forall_app].
  rewrite !fmap_app, !concat_app. set (f := chunk (prodn tr) (t_data t)).
  assert (Hlp : length (concat (f <$> concat pre)) = (a * prodn tr)%nat) by (unfold f; rewrite (length_concat_const (prodn tr)); [by rewrite length_fmap|by eapply chunk_widths]).
  assert (Hlg : length (concat (f <$> g)) = (length g * prodn tr)%nat) by (unfold f; rewrite (length_concat_const (prodn tr)); [by rewrite length_fmap|by eapply chunk_widths]).
  rewrite <- Hlp, drop_app_length, <- Hlg. by rewrite take_app_length.
Qed.

Section cutting.
Context {X : Type} (bs : nat) (gs : list (list nat)).
Hypothesis part : is_partition gs bs.
Hypothesis bs_pos : (0 < bs)%nat.

Lemma fwd_lt : Forall (fun i => (i < bs)%nat) (concat gs).
Proof. apply Forall_forall. intros i Hi. rewrite part in Hi. apply elem_of_seq in Hi. lia. Qed.

Lemma fwd_length : length (concat gs) = bs.
Proof. by rewrite part, length_seq. Qed.

Lemma group_lt g : g ∈ gs -> Forall (fun i => (i < bs)%nat) g.
Proof. intros Hg. apply Forall_forall. intros i Hi. by eapply is_partition_lt. Qed.

Lemma invert_ok : exists bwd, invert bs (concat gs) = Ok bwd /\ length bwd = bs /\ forall p i, concat gs !! p = Some i -> bwd !! i = Some p.
Proof.
  unfold invert. rewrite fwd_length, Nat.eqb_refl. cbn [check mbind res_bind].
  rewrite (proj2 (forallb_forall _ _)) by (intros i Hi%list_elem_of_In; pose proof fwd_lt as Hf; rewrite Forall_forall in Hf; specialize (Hf i Hi); lia).
  cbn [check mbind res_bind]. destruct (fold_insert_zip (concat gs) (seq 0 bs) (replicate bs 0%nat)) as (Hl & Hin & _).
  - rewrite part. apply NoDup_seq.
  - by rewrite fwd_length, length_seq.
  - rewrite length_replicate. apply fwd_lt.
  - eexists. split; [done|]. split; [by rewrite Hl, length_replicate|]. intros p i Hp. apply (Hin p); [done|].
    apply lookup_seq_lt. rewrite <- fwd_length. by eapply lookup_lt_Some.
Qed.

Lemma split_tensor_ok t d tr :
  t_shape t = d :: tr -> (bs <= d)%nat -> t_wf t ->
  split_item (X := X) bs (concat gs) ((fun g => length g) <$> gs) (ITensor t) = Ok ((fun g => ITensor (rows_at tr t g)) <$> gs).
Proof.
  intros Hs Hd Hwf. unfold t_wf in Hwf. rewrite Hs in Hwf. simpl in Hwf. unfold split_item.
  rewrite (mapM_row_tensor t d tr (seq 0 bs) Hs) by (apply Forall_forall; intros i Hi%elem_of_seq; lia). cbn [mbind res_bind].
  rewrite (mapM_ok _ (fun i => mk_tensor tr (chunk (prodn tr) (t_data t) i))).
  2:{ intros i Hi. pose proof fwd_lt as Hf. rewrite Forall_forall in Hf. specialize (Hf i Hi). apply at_index_ok. by rewrite list_lookup_fmap, lookup_seq_lt. }
  cbn [mbind res_bind]. pose proof fwd_length as Hfl.
  assert (Hst : stack ((fun i => mk_tensor tr (chunk (prodn tr) (t_data t) i)) <$> concat gs) = Ok (rows_at tr t (concat ([] ++ gs)))).
  { simpl. unfold stack, rows_at. destruct (concat gs) as [|i is'] eqn:E; [simpl in Hfl; lia|]. csimpl. rewrite length_fmap. f_equal. f_equal. f_equal.
    rewrite <- list_fmap_compose. done. }
  rewrite Hst. cbn [mbind res_bind]. pose proof (slices_rows tr t bs gs [] ltac:(nia) fwd_lt) as Hsl. cbn [app concat length] in Hsl |- *. rewrite Hsl. by rewrite <- list_fmap_compose.
Qed.

(** The indices that restore the order of the rows. *)
Lemma restore_rows t d tr bwd :
  t_shape t = d :: tr -> (bs <= d)%nat -> t_wf t -> length bwd = bs -> (forall p i, concat gs !! p = Some i -> bwd !! i = Some p) ->
  (fun p => concat (rows_of <$> (rows_at tr t <$> gs)) !! p) <$> bwd = Some <$> take bs (rows_of t).
Proof.
  intros Hs Hd Hwf Hlen Hbwd. unfold t_wf in Hwf. rewrite Hs in Hwf. simpl in Hwf.
  assert (Hall : concat (rows_of <$> (rows_at tr t <$> gs)) = chunk (prodn tr) (t_data t) <$> concat gs).
  { pose proof (fun g => group_lt g) as Hlt. clear part bs_pos Hbwd. induction gs as [|g gs' IH]; csimpl; [done|]. rewrite fmap_app. f_equal.
    - apply (rows_of_rows_at tr t bs); [nia|]. apply Hlt. set_solver.
    - apply IH. intros g' Hg'. apply Hlt. set_solver. }
  rewrite Hall. clear Hall. unfold rows_of. rewrite Hs. apply list_eq. intros i. rewrite !list_lookup_fmap. destruct (decide (i < bs)%nat) as [Hi|Hi].
  - assert (Hin : i ∈ concat gs) by (rewrite part; apply elem_of_seq; lia). apply list_elem_of_lookup_1 in Hin as [p Hp]. rewrite (Hbwd p i Hp). cbn [fmap option_fmap option_map].
    rewrite list_lookup_fmap, Hp. cbn [fmap option_fmap option_map]. rewrite lookup_take_lt by done. by rewrite chunks_lookup by lia.
  - rewrite !lookup_ge_None_2; [done| |lia]. rewrite length_take, length_chunks. lia.
Qed.
End cutting.

Section dicts.
Context {X : Type}.
Implicit Types (d : list (string * list (mb_item (X := X)))).

Lemma row_dict_ok d i :
  Forall (fun kl => (i < length kl.2)%nat) d ->
  exists mb, mapM (fun kl : string * list mb_item => v ← at_index kl.2 i; Ok (kl.1, v)) d = Ok mb /\ dict_keys mb = dict_keys d /\
    forall k, dict_get mb k = dict_get d k ≫= (fun l => l !! i).
Proof.
  induction 1 as [|[k l] d Hl _ (mb & Hmb & Hk & Hget)]; [by exists []|]. simpl in Hl. destruct (at_index_lt l i Hl) as (v & Hv & Hat).
  exists ((k, v) :: mb). simpl. rewrite Hat. simpl. rewrite Hmb. simpl. split; [done|]. split; [unfold dict_keys in *; csimpl; by rewrite Hk|].
  intros k'. destruct (decide (k' = k)); simpl; [by rewrite Hv|apply Hget].
Qed.

Lemma list_of_dicts_ok d n :
  d <> [] -> Forall (fun kl => length kl.2 = n) d ->
  exists ms, dict_of_list2list_of_dict d = Ok ms /\ length ms = n /\
    forall i mb, ms !! i = Some mb -> dict_keys mb = dict_keys d /\ forall k, dict_get mb k = dict_get d k ≫= (fun l => l !! i).
Proof.
  intros Hne Hd. destruct d as [|[k0 l0] d]; [done|]. unfold dict_of_list2list_of_dict. set (d' := (k0, l0) :: d) in *.
  assert (Hn : length l0 = n) by (by apply Forall_cons in Hd as [? _]). rewrite Hn.
  destruct (mapM_total (fun i => mapM (fun kl : string * list mb_item => v ← at_index kl.2 i; Ok (kl.1, v)) d') (seq 0 n)) as (ms & Hms & Hall).
  { intros i Hi%elem_of_seq. destruct (row_dict_ok d' i) as (mb & Hmb & _); [|by eauto]. eapply Forall_impl; [exact Hd|]. simpl. intros kl ->. lia. }
  exists ms. split; [done|]. split; [by rewrite <- (Forall2_length _ _ _ Hall), length_seq|]. intros i mb Hi.
  destruct (Forall2_lookup_r _ _ _ _ _ Hall Hi) as (i' & Hi' & Hrow). apply lookup_seq in Hi' as [-> Hlt].
  destruct (row_dict_ok d' i) as (mb' & Hmb' & Hprops); [eapply Forall_impl; [exact Hd|]; simpl; intros kl ->; lia|].
  change (0 + i)%nat with i in Hrow. rewrite Hrow in Hmb'. injection Hmb' as <-. done.
Qed.

Lemma dict_merge_get (a b : list (string * mb_item (X := X))) k :
  NoDup (dict_keys b) -> dict_get (dict_merge a b) k = match dict_get b k with Some v => Some v | None => dict_get a k end.
Proof.
  intros Hnd. unfold dict_merge. destruct (dict_get_fold_set fst snd b a k) as [H1 H2].
  { intros [k1 v1] [k2 v2] Hx Hy E. simpl in *. subst k2. pose proof (dict_elem_get b k1 v1 Hnd Hx). pose proof (dict_elem_get b k1 v2 Hnd Hy). congruence. }
  destruct (dict_get b k) as [v|] eqn:E.
  - by apply (H1 (k, v)); [by apply dict_get_elem|].
  - apply H2. by apply dict_get_None.
Qed.

Lemma dict_get_app {V} (a b : list (string * V)) k : dict_get (a ++ b) k = match dict_get a k with Some v => Some v | None => dict_get b k end.
Proof. induction a as [|[k' v] a IH]; simpl; [done|]. by destruct (decide (k = k')). Qed.

Lemma dict_get_filter {V} (P : string * V -> Prop) `{!forall x, Decision (P x)} (d : list (string * V)) k v :
  NoDup (dict_keys d) -> dict_get d k = Some v -> dict_get (filter P d) k = if decide (P (k, v)) then Some v else None.
Proof.
  unfold dict_keys. induction d as [|[k' v'] d IH]; csimpl; [done|]. intros [Hk Hnd]%NoDup_cons. rewrite filter_cons.
  destruct (decide (k = k')) as [<-|Hne].
  - intros [= ->]. case_decide; simpl; [by rewrite decide_True|]. apply dict_get_None. intros ([k2 v2] & E & [_ Hin]%list_elem_of_filter)%list_elem_of_fmap.
    apply Hk. simpl in E. subst k2. apply (list_elem_of_fmap_2 fst _ _ Hin).
  - intros Hget. specialize (IH Hnd Hget). destruct (decide (P (k', v'))); simpl; [by rewrite decide_False|done].
Qed.

(** A fallible function on every value of a dictionary. *)
Lemma mapM_values (f : mb_item (X := X) -> res (list (mb_item (X := X)))) (l : list (string * mb_item)) n :
  (forall k v, (k, v) ∈ l -> exists ps, f v = Ok ps /\ length ps = n) ->
  exists d, mapM (fun kv : string * mb_item => ps ← f kv.2; Ok (kv.1, ps)) l = Ok d /\ dict_keys d = dict_keys l /\ Forall (fun kl => length kl.2 = n) d /\
    (forall k v ps, dict_get l k = Some v -> f v = Ok ps -> dict_get d k = Some ps) /\ (forall k, dict_get l k = None -> dict_get d k = None).
Proof.
  induction l as [|[k v] l IH]; intros Hf; [by exists []|]. destruct (Hf k v) as (ps & Hps & Hlen); [set_solver|].
  destruct IH as (d & Hd & Hk & Hn & Hget & Hnone); [intros; apply (Hf k0); set_solver|]. exists ((k, ps) :: d). cbn [mapM].
  simpl. rewrite Hps. simpl. rewrite Hd. simpl. split_and!; [done|unfold dict_keys in *; csimpl; by rewrite Hk|by constructor| |].
  - intros k' v' ps' E E'. simpl in E |- *. destruct (decide (k' = k)); [congruence|by eapply Hget].
  - intros k' E. simpl in E |- *. destruct (decide (k' = k)); [done|by apply Hnone].
Qed.

Definition enough_rows (bs : nat) (t : tensor) : Prop := exists (n : nat) tr, t_shape t = n :: tr /\ (bs <= n)%nat.

(** The values that can be cut: enough rows or elements. *)
Definition indexable (bs : nat) (v : mb_item (X := X)) : Prop :=
  match v with ITensor t => enough_rows bs t | IList l => (bs <= length l)%nat | IRows l => (bs <= length l)%nat | IOther _ => False end.
Definition splittable (bs : nat) (v : mb_item (X := X)) : Prop :=
  match v with ITensor t => t_wf t /\ enough_rows bs t | _ => False end.

Record data_ok (bs max_seqlen : nat) (data : list (string * mb_item (X := X))) : Prop := {
  do_keys : NoDup (dict_keys data);
  do_multi : forall k v, (k, v) ∈ data -> is_multi_modal_key k = true -> indexable bs v;
  do_split : forall k v, (k, v) ∈ data -> is_multi_modal_key k = false -> is_split_key bs max_seqlen k v = true -> splittable bs v;
}.

Lemma mapM_at_ok {A} (l : list A) bs (g : list nat) : (bs <= length l)%nat -> Forall (fun i => (i < bs)%nat) g -> exists l', mapM (at_index l) g = Ok l'.
Proof.
  intros Hl Hg. destruct (mapM_total (at_index l) g) as (k & Hk & _); [|by eauto]. intros i Hi. rewrite Forall_forall in Hg. specialize (Hg i Hi).
  destruct (at_index_lt l i) as (x & _ & Hx); [lia|]. by eauto.
Qed.

Lemma split_multi_modal_ok bs (gs : list (list nat)) v :
  is_partition gs bs -> indexable bs v -> exists ps, split_multi_modal gs v = Ok ps /\ length ps = length gs.
Proof.
  intros Hp Hv. assert (Hg : forall g, g ∈ gs -> Forall (fun i => (i < bs)%nat) g) by (intros g Hin; by eapply group_lt).
  assert (Htot : forall f : list nat -> res (mb_item (X := X)), (forall g, g ∈ gs -> exists y, f g = Ok y) -> exists ps, mapM f gs = Ok ps /\ length ps = length gs).
  { intros f Hf. destruct (mapM_total f gs Hf) as (ps & Hps & Hall). exists ps. split; [done|]. symmetry. by eapply Forall2_length. }
  destruct v as [t|l|l|x]; simpl in *; [| | |done].
  - apply Htot. intros g Hin. destruct Hv as (d & tr & Hs & Hd). rewrite (mapM_row_tensor t d tr g Hs); [simpl; by eauto|].
    eapply Forall_impl; [by apply Hg|]. simpl. lia.
  - apply Htot. intros g Hin. destruct (mapM_at_ok l bs g Hv (Hg g Hin)) as [l' ->]. simpl. by eauto.
  - apply Htot. intros g Hin. destruct (mapM_at_ok l bs g Hv (Hg g Hin)) as [l' ->]. simpl. by eauto.
Qed.
End dicts.

Section cut_ok.
Context {X : Type} (data : list (string * mb_item (X := X))) (bs max_seqlen : nat) (seq_lens : list Z) (s : MicroBatchSpec) (gs : list (list nat)).

(** Micro-batch [i] has the rows of group [i] of every tensor that is cut, the elements of group [i] of every multi-modal list, and all other values. *)
Record cut_spec (ml : MicroBatchList (X := X)) : Prop := {
  cs_spec : mb_spec ml = s;
  cs_fwd : forward_indices ml = concat gs;
  cs_bwd : length (backward_indices ml) = bs /\ forall p i, concat gs !! p = Some i -> backward_indices ml !! i = Some p;
  cs_lens : group_lens ml = group_load seq_lens <$> gs;
  cs_count : length (mbs ml) = length gs;
  cs_tensor : forall k t n tr, dict_get data k = Some (ITensor t) -> is_multi_modal_key k = false -> is_split_key (X := X) bs max_seqlen k (ITensor t) = true ->
    t_shape t = n :: tr -> (fun mb => dict_get mb k) <$> mbs ml = (fun g => Some (ITensor (rows_at tr t g))) <$> gs;
  cs_list : forall k l, dict_get data k = Some (IList l) -> is_multi_modal_key k = true ->
    Forall2 (fun mb g => exists l', dict_get mb k = Some (IList l') /\ Some <$> l' = (fun i => l !! i) <$> g) (mbs ml) gs;
  cs_same : forall k v, dict_get data k = Some v -> is_multi_modal_key k = false -> is_split_key bs max_seqlen k v = false ->
    Forall (fun mb => dict_get mb k = Some v) (mbs ml);
}.

Hypothesis part : is_partition gs bs.
Hypothesis bs_pos : (0 < bs)%nat.
Hypothesis Hdata : data_ok bs max_seqlen data.
Hypothesis Hlens : length seq_lens = bs.
Hypothesis some_split : exists k v, dict_get data k = Some v /\ is_multi_modal_key k = false /\ is_split_key bs max_seqlen k v = true.

Definition lens_at (g : list nat) : list Z := (fun i => default 0 (seq_lens !! i)) <$> g.

Lemma split_lens_ok : mapM (M := res) (mapM (M := res) (at_index seq_lens)) gs = Ok (lens_at <$> gs).
Proof.
  apply mapM_ok. intros g Hg. apply mapM_ok. intros i Hi. pose proof (group_lt bs gs part g Hg) as Hlt. rewrite Forall_forall in Hlt. specialize (Hlt i Hi).
  destruct (at_index_lt seq_lens i) as (v & Hv & ->); [rewrite Hlens; exact Hlt|]. by rewrite Hv.
Qed.

(** The two dictionaries of parts. *)
Lemma parts_ok :
  let plain := filter (fun kv => is_multi_modal_key kv.1 = false) data in
  let to_split := filter (fun kv => is_split_key bs max_seqlen kv.1 kv.2 = true) plain in
  let multi := filter (fun kv => is_multi_modal_key kv.1 = true) data in
  exists parts mm,
    mapM (fun kv : string * mb_item => ps ← split_item bs (concat gs) ((fun g => length g) <$> gs) kv.2; Ok (kv.1, ps)) to_split = Ok parts /\
    mapM (fun kv : string * mb_item => ps ← split_multi_modal gs kv.2; Ok (kv.1, ps)) multi = Ok mm /\
    parts ++ mm <> [] /\ Forall (fun kl => length kl.2 = length gs) (parts ++ mm) /\
    (forall k v ps, dict_get data k = Some v -> is_multi_modal_key k = false -> is_split_key bs max_seqlen k v = true ->
       split_item bs (concat gs) ((fun g => length g) <$> gs) v = Ok ps -> dict_get (parts ++ mm) k = Some ps) /\
    (forall k v ps, dict_get data k = Some v -> is_multi_modal_key k = true -> split_multi_modal gs v = Ok ps -> dict_get (parts ++ mm) k = Some ps).
Proof.
  intros plain to_split multi. pose proof (do_keys _ _ _ Hdata) as Hnd.
  assert (Hplain : forall k v, dict_get data k = Some v -> dict_get to_split k = if decide (is_multi_modal_key k = false) then if decide (is_split_key bs max_seqlen k v = true) then Some v else None else None).
  { intros k v Hk. unfold to_split, plain. rewrite list_filter_filter. rewrite (dict_get_filter _ data k v Hnd Hk). simpl. by repeat case_decide; try tauto. }
  destruct (mapM_values (split_item bs (concat gs) ((fun g => length g) <$> gs)) to_split (length gs)) as (parts & Hparts & _ & Hpl & Hpget & Hpnone).
  { intros k v [Hs [Hm Hin]%list_elem_of_filter]%list_elem_of_filter. simpl in *. pose proof (do_split _ _ _ Hdata k v Hin Hm Hs) as Hsp.
    destruct v as [t|?|?|?]; try done. destruct Hsp as [Hwf (n & tr & Hsh & Hn)]. eexists. split; [by eapply split_tensor_ok|]. by rewrite length_fmap. }
  destruct (mapM_values (split_multi_modal gs) multi (length gs)) as (mm & Hmm & _ & Hml & Hmget & _).
  { intros k v [Hm Hin]%list_elem_of_filter. apply (split_multi_modal_ok bs); [done|]. by eapply (do_multi _ _ _ Hdata). }
  exists parts, mm. split; [done|]. split; [done|]. split; [|split; [by apply Forall_app|split]].
  - destruct some_split as (k & v & Hk & Hm & Hs). intros [-> ->]%app_eq_nil. specialize (Hplain k v Hk). rewrite !decide_True in Hplain by done.
    assert (Hl : length to_split = 0%nat) by (by rewrite <- (mapM_ok_length _ _ _ Hparts)). apply nil_length_inv in Hl. rewrite Hl in Hplain. done.
  - intros k v ps Hk Hm Hs Hps. specialize (Hplain k v Hk). rewrite !decide_True in Hplain by done. rewrite dict_get_app. by rewrite (Hpget k v ps).
  - intros k v ps Hk Hm Hps. specialize (Hplain k v Hk). rewrite decide_False in Hplain by congruence. rewrite dict_get_app, (Hpnone k Hplain).
    apply (Hmget k v ps); [|done]. unfold multi. rewrite (dict_get_filter _ data k v Hnd Hk). by rewrite decide_True.
Qed.

Lemma not_split_get k v :
  dict_get data k = Some v ->
  dict_get (filter (fun kv => is_split_key bs max_seqlen kv.1 kv.2 = false) (filter (fun kv => is_multi_modal_key kv.1 = false) data)) k =
  if decide (is_multi_modal_key k = false /\ is_split_key bs max_seqlen k v = false) then Some v else None.
Proof.
  intros Hk. rewrite list_filter_filter, (dict_get_filter _ data k v (do_keys _ _ _ Hdata) Hk). simpl. by repeat case_decide; try tauto.
Qed.

Lemma not_split_nodup :
  NoDup (dict_keys (filter (fun kv => is_split_key bs max_seqlen kv.1 kv.2 = false) (filter (fun kv => is_multi_modal_key kv.1 = false) data))).
Proof.
  eapply sublist_NoDup; [exact (do_keys _ _ _ Hdata)|]. unfold dict_keys. apply fmap_sublist. rewrite list_filter_filter. apply sublist_filter.
Qed.

Lemma multi_list_rows (l : list X) ps :
  split_multi_modal gs (IList l) = Ok ps -> Forall2 (fun p g => exists l', p = IList l' /\ Some <$> l' = (fun i => l !! i) <$> g) ps gs.
Proof.
  intros Hps%mapM_ok_inv. clear -Hps. induction Hps as [|g p gs' ps' Hg _ IH]; constructor; [|exact IH].
  destruct (mapM (at_index l) g) as [l'|] eqn:E; [|done]. injection Hg as <-. exists l'. split; [done|]. apply mapM_ok_inv in E. clear -E.
  induction E as [|i x g l' Hi _ IH]; [done|]. csimpl. rewrite IH. f_equal. unfold at_index in Hi. destruct (l !! i); [|done]. by injection Hi as ->.
Qed.

Lemma cut_ok : exists ml, cut_batch data bs max_seqlen seq_lens s gs = Ok ml /\ cut_spec ml.
Proof.
  unfold cut_batch. rewrite split_lens_ok. cbn [mbind res_bind]. destruct (invert_ok bs gs part bs_pos) as (bwd & -> & Hbl & Hbwd). cbn [mbind res_bind].
  assert (Hns : (length <$> (lens_at <$> gs)) = (fun g => length g) <$> gs).
  { rewrite <- list_fmap_compose. apply list_fmap_ext. intros _ g _. unfold compose, lens_at. by rewrite length_fmap. }
  cbv zeta. rewrite Hns. destruct parts_ok as (parts & mm & -> & -> & Hne & Hlen & Hsplit & Hmulti). cbn [mbind res_bind].
  destruct (list_of_dicts_ok (parts ++ mm) (length gs) Hne Hlen) as (ms & -> & Hml & Hget). cbn [mbind res_bind].
  eexists. split; [done|]. set (rest := filter _ (filter _ data)).
  assert (Hmerge : forall i mb k, ms !! i = Some mb -> dict_get rest k = None -> dict_get (dict_merge mb rest) k = dict_get (parts ++ mm) k ≫= (fun l => l !! i)).
  { intros i mb k Hi Hr. rewrite dict_merge_get by apply not_split_nodup. rewrite Hr. by apply Hget. }
  split; cbn [mb_spec mbs group_lens forward_indices backward_indices].
  - done.
  - done.
  - done.
  - rewrite <- list_fmap_compose. done.
  - by rewrite length_fmap.
  - intros k t n tr Hk Hm Hs Hsh. assert (Hin : (k, ITensor t) ∈ data) by (by apply dict_get_elem). destruct (do_split _ _ _ Hdata k _ Hin Hm Hs) as [Hwf (n' & tr' & Hsh' & Hn)].
    assert (n' = n /\ tr' = tr) as [-> ->] by (rewrite Hsh in Hsh'; by injection Hsh'). specialize (Hsplit k _ _ Hk Hm Hs (split_tensor_ok bs gs part bs_pos t n tr Hsh Hn Hwf)).
    apply list_eq. intros i. rewrite !list_lookup_fmap. destruct (ms !! i) as [mb|] eqn:Ei.
    + cbn [fmap option_fmap option_map]. rewrite (Hmerge i mb k Ei), Hsplit; [|unfold rest; rewrite (not_split_get k _ Hk), decide_False; [done|intros [_ E]; by rewrite Hs in E]].
      simpl. rewrite list_lookup_fmap. destruct (gs !! i) as [g|] eqn:Eg; [done|]. apply lookup_lt_Some in Ei. apply lookup_ge_None_1 in Eg. lia.
    + apply lookup_ge_None_1 in Ei. rewrite lookup_ge_None_2 by lia. done.
  - intros k l Hk Hm. assert (Hin : (k, IList l) ∈ data) by (by apply dict_get_elem).
    destruct (split_multi_modal_ok bs gs (IList l) part (do_multi _ _ _ Hdata k _ Hin Hm)) as (ps & Hps & Hpl). specialize (Hmulti k _ ps Hk Hm Hps).
    apply Forall2_fmap_l, Forall2_same_length_lookup. split; [done|]. intros i mb g Ei Eg.
    destruct (Forall2_lookup_r _ _ _ _ _ (multi_list_rows l ps Hps) Eg) as (p & Hp & l' & -> & Hl').
    exists l'. split; [|done]. rewrite (Hmerge i mb k Ei), Hmulti; [done|]. unfold rest. rewrite (not_split_get k _ Hk), decide_False; [done|]. intros [? _]. congruence.
  - intros k v Hk Hm Hs. apply Forall_fmap, Forall_forall. intros mb _. unfold compose. rewrite dict_merge_get by apply not_split_nodup.
    unfold rest. rewrite (not_split_get k v Hk), decide_True; done.
Qed.
End cut_ok.

(** ** Granules of sequences *)

Definition seq_lens_of (mask : tensor) : list Z := sumZ <$> rows2 mask.
(** Token counts of the [n] granules of [g] sequences. *)
Definition granule_lens (mask : tensor) (g n : nat) : list Z := (fun i => group_load (seq_lens_of mask) (seq (i * g) g)) <$> seq 0 n.

Lemma load_concat values gs : group_load values (concat gs) = sumZ (group_load values <$> gs).
Proof. induction gs as [|g gs IH]; [done|]. csimpl. by rewrite load_app, IH. Qed.

Lemma concat_granules g n : concat ((fun i => seq (i * g) g) <$> seq 0 n) = seq 0 (n * g).
Proof.
  induction n as [|n IH]; [done|]. rewrite seq_S, fmap_app, concat_app, IH. csimpl. rewrite app_nil_r, Nat.add_comm. by rewrite seq_app.
Qed.

Lemma expand_partition g n gs : is_partition gs n -> is_partition (expand g <$> gs) (n * g).
Proof. unfold is_partition, expand. intros Hp. rewrite concat_groups_fmap, <- concat_granules. by rewrite Hp. Qed.

Lemma chunk_drop {A} w (l : list A) m j : chunk w (drop (m * w) l) j = chunk w l (m + j).
Proof. unfold chunk. rewrite drop_drop. do 2 f_equal. lia. Qed.

Lemma chunk_granule {A} w g (l : list A) i : chunk (g * w) l i = concat (chunk w l <$> seq (i * g) g).
Proof.
  unfold chunk at 1. replace (i * (g * w))%nat with (i * g * w)%nat by lia. rewrite <- concat_chunks_take. f_equal. unfold chunks.
  rewrite <- (Nat.add_0_r (i * g)), <- (fmap_add_seq (i * g) 0 g), Nat.add_0_r, <- list_fmap_compose. apply list_fmap_ext. intros _ j _. unfold compose. apply chunk_drop.
Qed.

Lemma seq_lens_lookup mask bs w j : t_shape mask = [bs; w] -> (j < bs)%nat -> seq_lens_of mask !! j = Some (sumZ (chunk w (t_data mask) j)).
Proof. intros Hs Hj. unfold seq_lens_of, rows2, dim. rewrite Hs. simpl. by rewrite list_lookup_fmap, chunks_lookup. Qed.

Lemma granule_load mask n g w i :
  t_shape mask = [(n * g)%nat; w] -> (i < n)%nat -> sumZ (chunk (g * w) (t_data mask) i) = group_load (seq_lens_of mask) (seq (i * g) g).
Proof.
  intros Hs Hi. rewrite chunk_granule, sumZ_concat. unfold group_load. f_equal. rewrite <- list_fmap_compose. apply list_fmap_ext. intros _ j Hj%list_elem_of_lookup_2%elem_of_seq.
  unfold compose. rewrite (seq_lens_lookup mask (n * g) w j Hs); [done|]. nia.
Qed.

Lemma granule_sums_ok mask n g w :
  t_shape mask = [(n * g)%nat; w] -> t_wf mask -> (0 < n * g)%nat -> granule_sums mask g = Ok (granule_lens mask g n).
Proof.
  intros Hs Hwf Hpos. unfold granule_sums, dim. rewrite Hs. cbn [lookup list_lookup default prodn]. unfold id.
  rewrite (proj2 (Nat.eqb_neq g 0)) by nia. cbn [negb check mbind res_bind]. rewrite Nat.div_mul by nia. rewrite (proj2 (Nat.eqb_neq (n * g) 0)) by lia.
  rewrite Nat.mul_1_r. replace (n * g * w)%nat with (w * (n * g))%nat by lia. rewrite Nat.Div0.mod_mul. cbn [negb andb Nat.eqb check mbind res_bind].
  replace (w * (n * g) / n)%nat with (g * w)%nat by (replace (w * (n * g))%nat with (g * w * n)%nat by lia; rewrite Nat.div_mul; [done|nia]).
  f_equal. unfold granule_lens, chunks. rewrite <- list_fmap_compose. apply list_fmap_ext. intros _ i Hi%list_elem_of_lookup_2%elem_of_seq. apply (granule_load mask n g w); [done|lia].
Qed.

Lemma granule_loads mask g n gi : Forall (fun i => (i < n)%nat) gi -> group_load (granule_lens mask g n) gi = group_load (seq_lens_of mask) (expand g gi).
Proof.
  intros Hgi. unfold expand. rewrite load_concat. unfold group_load at 1. f_equal. rewrite <- list_fmap_compose. apply list_fmap_ext.
  intros _ i Hi%list_elem_of_lookup_2. rewrite Forall_forall in Hgi. specialize (Hgi i Hi). unfold granule_lens, compose. rewrite list_lookup_fmap, lookup_seq_lt by done. done.
Qed.

(** ** The whole split *)

Definition with_default_tokens (s : MicroBatchSpec) : MicroBatchSpec :=
  match max_tokens_per_mb s with None => new_max_tokens s DEFAULT_MAX_TOKENS_PER_MB | Some _ => s end.

Section whole.
Context {X : Type} (argsort_desc : list Z -> list nat) (gather : option (nat -> list nat)) (data : list (string * mb_item (X := X))) (s : MicroBatchSpec).
Context (mask : tensor) (n w : nat) (cap : Z).

(** A batch of [n] granules that the limits admit. *)
Record admissible : Prop := {
  ad_argsort : forall l, argsort_desc l ≡ₚ seq 0 (length l);
  ad_mask : dict_get data "attention_mask" = Some (ITensor mask);
  ad_shape : t_shape mask = [(n * granularity s)%nat; w];
  ad_wf : t_wf mask;
  ad_pos : (0 < n * granularity s)%nat;
  ad_data : data_ok (n * granularity s) w data;
  ad_alloc : allocatable (with_default_tokens s) cap (granule_lens mask (granularity s) n) (n_mbs_or_1 (n_mbs s));
  ad_gather : forall f c, gather = Some f -> (c <= n)%nat -> c ∈ f c /\ Forall (fun c' => (c' <= n)%nat) (f c);
}.

Record split_spec (ml : MicroBatchList (X := X)) : Prop := {
  ss_fwd : forward_indices ml ≡ₚ seq 0 (n * granularity s);
  ss_tokens : Forall (fun l => l <= cap) (group_lens ml) /\ length (group_lens ml) = length (mbs ml);
  ss_count : (n_mbs_divisor s | Z.of_nat (length (mbs ml))) /\ n_mbs_or_1 (n_mbs s) <= Z.of_nat (length (mbs ml));
  ss_restore : forall k t, dict_get data k = Some (ITensor t) -> is_multi_modal_key k = false -> is_split_key (X := X) (n * granularity s) w k (ITensor t) = true ->
    exists parts, (fun mb => dict_get mb k) <$> mbs ml = (fun p => Some (ITensor p)) <$> parts /\
      (fun p => concat (rows_of <$> parts) !! p) <$> backward_indices ml = Some <$> take (n * granularity s) (rows_of t);
  ss_same : forall k v, dict_get data k = Some v -> is_multi_modal_key k = false -> is_split_key (n * granularity s) w k v = false ->
    Forall (fun mb => dict_get mb k = Some v) (mbs ml);
}.

Lemma default_tokens_same : granularity (with_default_tokens s) = granularity s /\ n_mbs_divisor (with_default_tokens s) = n_mbs_divisor s /\ n_mbs (with_default_tokens s) = n_mbs s.
Proof. unfold with_default_tokens. by destruct (max_tokens_per_mb s). Qed.

(** The groups of granules that are cut_batch. *)
Lemma groups_ok :
  admissible ->
  exists gs gs', allocate_balanced_mbs argsort_desc (with_default_tokens s) (granule_lens mask (granularity s) n) = Ok gs /\
    sync_mbs argsort_desc gather (with_default_tokens s) (granule_lens mask (granularity s) n) gs = Ok gs' /\
    allocation (granule_lens mask (granularity s) n) cap 1 gs' /\ (n_mbs_divisor s | Z.of_nat (length gs')) /\ n_mbs_or_1 (n_mbs s) <= Z.of_nat (length gs').
Proof.
  intros [Has _ _ _ _ _ Hal Hga]. destruct default_tokens_same as (_ & Hd & Hn). set (lens := granule_lens mask (granularity s) n) in *.
  assert (Hll : length lens = n) by (unfold lens, granule_lens; by rewrite length_fmap, length_seq).
  rewrite <- Hn in Hal. destruct (allocate_balanced_ok argsort_desc Has (with_default_tokens s) cap lens Hal) as (gs & Hgs & Ha & Hdv).
  destruct (sync_ok argsort_desc Has (with_default_tokens s) cap lens gs gather Hal) as (gs' & Hs & Ha' & Hdv' & Hle & _); [|done| |].
  - destruct Ha as [H1 H2 H3 H4]. destruct Hal. split; try done. lia.
  - intros f Hf. rewrite Hll. apply Hga; [done|]. destruct Ha as [_ _ _ Hm]. lia.
  - exists gs, gs'. split; [done|]. split; [done|]. split; [done|]. split; [by rewrite <- Hd|]. destruct Ha as [_ _ _ Hm]. destruct Hal as [_ _ _ _ Hen]. rewrite <- Hn. lia.
Qed.

Lemma mask_is_split : admissible -> is_split_key (X := X) (n * granularity s) w "attention_mask" (ITensor mask) = true.
Proof.
  intros Ha. unfold is_split_key. rewrite (ad_shape Ha). cbn [prodn]. rewrite Nat.mul_1_r, Nat.eqb_refl. by rewrite orb_true_r.
Qed.

Lemma split_ok : admissible -> exists ml, split_padded_tensor_dict_into_mb_list argsort_desc gather data s = Ok ml /\ split_spec ml.
Proof.
  intros Ha. destruct (groups_ok Ha) as (gs & gs' & Hgs & Hsync & [Hpart Hcap Hne Hmin] & Hdv & Hn). destruct default_tokens_same as (Hg & _).
  assert (Hll : length (granule_lens mask (granularity s) n) = n) by (unfold granule_lens; by rewrite length_fmap, length_seq). rewrite Hll in Hpart.
  pose proof (expand_partition (granularity s) n gs' Hpart) as Hpart'.
  destruct (cut_ok data (n * granularity s) w (seq_lens_of mask) (with_default_tokens s) (expand (granularity s) <$> gs') Hpart' (ad_pos Ha) (ad_data Ha)) as (ml & Hcut & Hspec).
  { unfold seq_lens_of, rows2, dim. rewrite (ad_shape Ha), length_fmap, length_chunks. done. }
  { exists "attention_mask"%string, (ITensor mask). split; [apply (ad_mask Ha)|]. split; [done|]. by apply mask_is_split. }
  exists ml. split.
  - unfold split_padded_tensor_dict_into_mb_list. rewrite (ad_mask Ha). fold (with_default_tokens s). cbv zeta. unfold ndim. rewrite (ad_shape Ha). cbn [length Nat.eqb check mbind res_bind].
    rewrite Hg, (granule_sums_ok mask n (granularity s) w (ad_shape Ha) (ad_wf Ha) (ad_pos Ha)). cbn [mbind res_bind]. rewrite Hgs. cbn [mbind res_bind]. rewrite Hsync. cbn [mbind res_bind].
    unfold dim. rewrite (ad_shape Ha). exact Hcut.
  - destruct Hspec as [_ Hf [Hbl Hb] Hlens Hcount Ht _ Hsame]. rewrite length_fmap in Hcount. split.
    + rewrite Hf. exact Hpart'.
    + rewrite Hlens, Hcount, !length_fmap. split; [|done]. apply Forall_fmap, Forall_fmap. apply Forall_forall. intros gi Hgi. unfold compose.
      rewrite <- (granule_loads mask (granularity s) n gi); [rewrite Forall_forall in Hcap; by apply Hcap|]. apply (group_lt n gs' Hpart gi Hgi).
    + by rewrite Hcount.
    + intros k t Hk Hm Hs. assert (Hin : (k, ITensor t) ∈ data) by (by apply dict_get_elem). destruct (do_split _ _ _ (ad_data Ha) k _ Hin Hm Hs) as [Hwf (d & tr & Hsh & Hd)].
      exists (rows_at tr t <$> (expand (granularity s) <$> gs')). split; [rewrite (Ht k t d tr Hk Hm Hs Hsh), <- (list_fmap_compose (rows_at tr t)); done|].
      apply (restore_rows (n * granularity s) _ Hpart' (ad_pos Ha) t d tr); done.
    + exact Hsame.
Qed.
End whole.

(** C17: splitting a padded batch into micro-batches succeeds on every batch the limits admit (any order [np.argsort] gives to equal lengths, also with
    counts exchanged between ranks), and each sequence is in exactly one micro-batch; no micro-batch has more tokens
    than [max_tokens_per_mb]; their number is at least [n_mbs] and a multiple of [n_mbs_divisor]; every tensor that is cut is
    restored, row by row, from the rows of the micro-batches by [backward_indices], and every other value is in each micro-batch unchanged. *)
Theorem split_padded_restores {X : Type} argsort_desc gather (data : list (string * mb_item (X := X))) s mask n w cap :
  admissible argsort_desc gather data s mask n w cap ->
  exists ml, split_padded_tensor_dict_into_mb_list argsort_desc gather data s = Ok ml /\ split_spec data s n w cap ml.
Proof. apply split_ok. Qed.

(** ** A small batch *)

Module MiniSplit.
Definition mask : tensor := mk_tensor [4%nat; 3%nat] [1; 1; 1; 1; 0; 0; 1; 1; 0; 1; 1; 1].
Definition ids : tensor := mk_tensor [4%nat; 3%nat] [11; 12; 13; 21; 0; 0; 31; 32; 0; 41; 42; 43].
Definition data : list (string * mb_item (X := Z)) :=
  [("input_ids"%string, ITensor ids); ("attention_mask"%string, ITensor mask); ("multi_modal_input_x"%string, IList [5; 6; 7; 8]); ("temperature"%string, IOther 1)].
Definition spec : MicroBatchSpec := MBSpec (Some 1) 1 (Some 6) 2.

Lemma data_wf : data_ok 4 3 data.
Proof.
  split.
  - apply (bool_decide_unpack _). vm_compute. exact I.
  - intros k v. unfold data. rewrite !elem_of_cons. intros [[= -> ->]|[[= -> ->]|[[= -> ->]|[[= -> ->]|Hin]]]]; try done; [simpl; lia|by apply elem_of_nil in Hin].
  - intros k v. unfold data. rewrite !elem_of_cons. intros [[= -> ->]|[[= -> ->]|[[= -> ->]|[[= -> ->]|Hin]]]]; try done; [..|by apply elem_of_nil in Hin];
      intros _ _; split; [done|eexists _, _; split; [done|lia]|done|eexists _, _; split; [done|lia]].
Qed.

Lemma mini_admissible : admissible argsort_stable (Some (fun c => [c; 2%nat])) data spec mask 4 3 6.
Proof.
  split; [apply argsort_stable_perm|done|done|done|simpl; lia|exact data_wf| |].
  - split; [done| |simpl; lia|exists 2; done|simpl; lia]. apply (bool_decide_unpack _). vm_compute. exact I.
  - intros f c [= <-] Hc. split; [set_solver|]. by repeat (constructor; [lia|]).
Qed.

Lemma split_padded_restores_witness :
  exists ml, split_padded_tensor_dict_into_mb_list argsort_stable (Some (fun c => [c; 2%nat])) data spec = Ok ml /\ split_spec data spec 4 3 6 ml /\
    forward_indices ml = [0%nat; 2%nat; 1%nat; 3%nat] /\ group_lens ml = [5; 4].
Proof.
  destruct (split_padded_restores argsort_stable (Some (fun c => [c; 2%nat])) data spec mask 4 3 6 mini_admissible) as (ml & Hml & Hs). exists ml. split; [exact Hml|]. split; [exact Hs|].
  assert (Hrun : exists m, split_padded_tensor_dict_into_mb_list argsort_stable (Some (fun c => [c; 2%nat])) data spec = Ok m /\ forward_indices m = [0%nat; 2%nat; 1%nat; 3%nat] /\ group_lens m = [5; 4])
    by (eexists; split; [vm_compute; reflexivity|split; reflexivity]).
  destruct Hrun as (m & Hm & Hr). rewrite Hml in Hm. injection Hm as ->. exact Hr.
Defined.

Lemma ffd_allocate_decides_witness :
  ffd_allocate argsort_stable [3; 1; 2; 3] 6 (Some 1) 2 = Ok [[0%nat; 2%nat]; [3%nat; 1%nat]] /\ allocation [3; 1; 2; 3] 6 2 [[0%nat; 2%nat]; [3%nat; 1%nat]].
Proof.
  assert (Hrun : ffd_allocate argsort_stable [3; 1; 2; 3] 6 (Some 1) 2 = Ok [[0%nat; 2%nat]; [3%nat; 1%nat]]) by (vm_compute; reflexivity). split; [exact Hrun|].
  pose proof (ffd_allocate_decides argsort_stable [3; 1; 2; 3] 6 (Some 1) 2 (argsort_stable_perm _) ltac:(lia)) as Hd. rewrite Hrun in Hd. apply Hd.
Defined.
End MiniSplit.
