(* ===== verification/StreamBuffer.v ===== *)
(** * The event buffer of a stream

    Source: [src/arctic_platform/inference/server/streaming.py] ([EventBuffer] and its helpers).

    The engine puts events (dictionaries) into a bounded buffer from which a reader takes them.
    While the reader is behind, a delta joins the newest undelivered delta of its choice.  The
    sizes of events are those of their compact JSON texts; for a merge only the growth is
    computed ([_appended_size]).

    An entry of the buffer is an object [[event, size]] that the queue and the table of open
    deltas share: entries live in a heap and are named by their addresses. *)

From stdpp Require Import prelude strings list gmap.
From Stdlib Require Import ZArith Lia Ascii.
From S2P Require Import Prelude Dict Json.
Local Open Scope Z_scope.

(** ** Events *)

Abbreviation event := (list (string * pyval)).

Definition DELTA_TYPES : list string := ["delta"; "content_delta"; "reasoning_delta"; "tool_call_delta"]%string.
Definition MERGED_KEYS : list string := ["text"; "arguments"; "token_ids"; "logprobs"]%string.
Definition PARAM_ERROR_CODES : list string := ["invalid_message_content"; "invalid_chat_request"]%string.
Definition CONTEXT_LIMIT_SOURCES : list string := ["prompt"; "completion_budget"]%string.

Record stream_error := StreamErr { code : string; context_limit_source : option string; param : option string }.

(** The constructor of [StreamError]. *)
Definition StreamError (code : string) (source param : option string) : res stream_error :=
  check (match param with
         | Some p => bool_decide (code ∈ PARAM_ERROR_CODES) && (0 <? Z.of_nat (String.length p)) && (Z.of_nat (String.length p) <=? 64)
         | None => true
         end) (ValueError "param is valid only for chat input errors");;
  (if String.eqb code "context_length_exceeded" then
     check (match source with Some s => bool_decide (s ∈ CONTEXT_LIMIT_SOURCES) | None => false end)
       (ValueError "context_length_exceeded requires a valid context_limit_source")
   else check (match source with Some _ => false | None => true end) (ValueError "context_limit_source is valid only for context_length_exceeded"));;
  Ok (StreamErr code source param).

Definition stream_exn (code : string) : exn := ErrorWithIds "StreamError" [code].

(** [json.dumps(value, ensure_ascii=True, separators=(",", ":"))]. *)
Definition compact_bracket (open close : ascii) (texts : list chars) : chars := open :: join [","%char] texts ++ [close].
Definition compact_member (k : pkey) (text : chars) : chars := string_text (key_text k) ++ ":"%char :: text.

Fixpoint compact (v : pyval) : res chars :=
  match v with
  | PNone => Ok (chars_of "null")
  | PBool b => Ok (chars_of (if b then "true" else "false"))
  | PInt z => Ok (chars_of (int_text z))
  | PFloat lit => Ok (chars_of lit)
  | PStr s => Ok (string_text s)
  | PList l | PTuple l => texts ← mapM compact l; Ok (compact_bracket "[" "]" texts)
  | PDict d => texts ← mapM (fun kv => compact_member kv.1 <$> compact kv.2) d; Ok (compact_bracket "{" "}" texts)
  | PTensor _ | POpaque _ => Raise not_serializable
  end.

Definition value_size (v : pyval) : res Z := t ← compact v; Ok (Z.of_nat (length t)).
Definition event_size (e : event) : res Z := value_size (PDict ((fun kv => (KStr kv.1, kv.2)) <$> e)).

Definition has (e : event) (k : string) : bool := bool_decide (is_Some (dict_get e k)).
Definition type_of (e : event) : option string := match dict_get e "type" with Some (PStr s) => Some s | _ => None end.
Definition mergeable (e : event) : bool := match type_of e with Some t => bool_decide (t ∈ DELTA_TYPES) | None => false end.

(** [event[key]] where an integer is expected. *)
Definition int_field (e : event) (k : string) : res Z :=
  match dict_get e k with
  | Some (PInt z) => Ok z
  | Some _ => Raise (TypeError k)
  | None => Raise (KeyError k)
  end.

(** Truth of the values that occur in the per-token lists. *)
Definition py_true (v : pyval) : bool :=
  match v with
  | PNone => false
  | PBool b => b
  | PInt z => negb (z =? 0)
  | PStr s => negb (String.eqb s "")
  | PList l | PTuple l => negb (bool_decide (length l = 0%nat))
  | PDict d => negb (bool_decide (length d = 0%nat))
  | _ => true
  end.

Definition py_add (a b : pyval) : res pyval :=
  match a, b with
  | PStr s, PStr t => Ok (PStr (s ++ t))
  | PList l, PList k => Ok (PList (l ++ k))
  | PInt x, PInt y => Ok (PInt (x + y))
  | _, _ => Raise (TypeError "unsupported operand types for +")
  end.

(** [_appended_size]. *)
Definition appended_size (old added : event) (key : string) : res Z :=
  match dict_get added key with
  | None => Ok 0
  | Some v =>
      part ← value_size v;
      match dict_get old key with
      | None => Ok (Z.of_nat (String.length key) + 4 + part)
      | Some o =>
          match v with
          | PStr _ => Ok (part - 2)
          | _ => if py_true v then Ok (part - 2 + (if py_true o then 1 else 0)) else Ok 0
          end
      end
  end.

(** ** Merging two deltas of the same type *)

Definition empty_for (key : string) : pyval := if bool_decide (key ∈ ["token_ids"; "logprobs"]%string) then PList [] else PStr "".

Definition merge_key (old ev merged : event) (key : string) : res event :=
  if has old key || has ev key then
    v ← py_add (default (empty_for key) (dict_get old key)) (default (empty_for key) (dict_get ev key));
    Ok (dict_set merged key v)
  else Ok merged.

(** What depends on the kind: a count that is added up; a tool call that is not the same one ([None]). *)
Definition merge_kind (old ev : event) : res (option (event * Z)) :=
  if bool_decide (type_of ev = Some "reasoning_delta"%string) then
    n ← int_field old "token_count";
    m ← int_field ev "token_count";
    Ok (Some (dict_set old "token_count" (PInt (n + m)), Z.of_nat (String.length (int_text (n + m))) - Z.of_nat (String.length (int_text n))))
  else if bool_decide (type_of ev = Some "tool_call_delta"%string) then
    i ← int_field old "index";
    j ← int_field ev "index";
    Ok (if negb (i =? j) || has ev "id" || has ev "name" then None else Some (old, 0))
  else Ok (Some (old, 0)).

(** The merged event and the growth of its size. *)
Definition merge_events (old ev : event) : res (option (event * Z)) :=
  mk ← merge_kind old ev;
  match mk with
  | None => Ok None
  | Some (merged, grow) =>
      merged ← foldM (merge_key old ev) merged MERGED_KEYS;
      sizes ← mapM (appended_size old ev) MERGED_KEYS;
      Ok (Some (merged, grow + sumZ sizes))
  end.

(** ** The buffer *)

Record limits := Limits { max_buffer_events : Z; max_buffer_bytes : Z; max_event_bytes : Z }.

Record buffer := Buffer {
  heap : gmap nat (event * Z);
  fresh : nat; (* the next address *)
  events : list nat;
  bytes : Z;
  peak_bytes : Z;
  peak_events : Z;
  open_deltas : list (Z * nat);
  error : option stream_error;
  finished : bool;
}.

Definition buffer_init : buffer := Buffer ∅ 0 [] 0 0 0 [] None false.

Definition entry_at (b : buffer) (id : nat) : event * Z := default ([], 0) (heap b !! id).

Section buffer.
Context (lim : limits).

(** [_merge]: [None] when the event needs an entry of its own. *)
Definition merge (b : buffer) (ev : event) : res (option buffer) :=
  c ← int_field ev "choice_index";
  match dict_get (open_deltas b) c with
  | None => Ok None
  | Some id =>
      let entry := entry_at b id in
      if negb (bool_decide (type_of entry.1 = type_of ev)) then Ok None
      else
        mg ← merge_events entry.1 ev;
        match mg with
        | None => Ok None
        | Some (merged, grow) =>
            let size := entry.2 + grow in
            if max_event_bytes lim <? size then Ok None
            else
              check (bytes b - entry.2 + size <=? max_buffer_bytes lim) (stream_exn "buffer_overflow");;
              let bytes' := bytes b + (size - entry.2) in
              Ok (Some (Buffer (<[id := (merged, size)]> (heap b)) (fresh b) (events b) bytes' (Z.max (peak_bytes b) bytes') (peak_events b)
                (open_deltas b) (error b) (finished b)))
        end
  end.

(** The open deltas after an event got an entry of its own. *)
Definition reopen (b : buffer) (ev : event) (id : nat) : res (list (Z * nat)) :=
  if mergeable ev then c ← int_field ev "choice_index"; Ok (dict_set (open_deltas b) c id)
  else if has ev "choice_index" then c ← int_field ev "choice_index"; Ok (dict_del (open_deltas b) c)
  else Ok [].

Definition append (b : buffer) (ev : event) : res buffer :=
  size ← event_size ev;
  check (size <=? max_event_bytes lim) (stream_exn "event_too_large");;
  check ((Z.of_nat (length (events b)) <? max_buffer_events lim) && (bytes b + size <=? max_buffer_bytes lim)) (stream_exn "buffer_overflow");;
  open ← reopen b ev (fresh b);
  Ok (Buffer (<[fresh b := (ev, size)]> (heap b)) (S (fresh b)) (events b ++ [fresh b]) (bytes b + size) (Z.max (peak_bytes b) (bytes b + size))
    (Z.max (peak_events b) (Z.of_nat (length (events b)) + 1)) open (error b) (finished b)).

Definition put (b : buffer) (ev : event) : res buffer :=
  m ← (if mergeable ev then merge b ev else Ok None);
  match m with Some b' => Ok b' | None => append b ev end.

(** [_pop], from a buffer that is not empty; the entry is no longer open. *)
Definition pop (b : buffer) : option (event * buffer) :=
  match events b with
  | [] => None
  | id :: q =>
      let entry := entry_at b id in
      let open := match int_field entry.1 "choice_index" with
                  | Ok c => if bool_decide (dict_get (open_deltas b) c = Some id) then dict_del (open_deltas b) c else open_deltas b
                  | Raise _ => open_deltas b
                  end in
      Some (entry.1, Buffer (heap b) (fresh b) q (bytes b - entry.2) (peak_bytes b) (peak_events b) open (error b) (finished b))
  end.

(** [fail]: the first error stays. *)
Definition fail (b : buffer) (c : string) (source prm : option string) : res buffer :=
  err ← (match error b with Some e => Ok e | None => StreamError c source prm end);
  Ok (Buffer (heap b) (fresh b) [] 0 (peak_bytes b) (peak_events b) [] (Some err) (finished b)).

(** [drain]. *)
Fixpoint drain_loop (fuel : nat) (b : buffer) : list event * buffer :=
  match fuel with
  | O => ([], b)
  | S fuel =>
      match error b, pop b with
      | None, Some (e, b') => let '(es, b'') := drain_loop fuel b' in (e :: es, b'')
      | _, _ => ([], b)
      end
  end.
Definition drain (b : buffer) : list event * buffer := drain_loop (length (events b)) b.

(** [get]: an error, an event, the end, or nothing yet. *)
Inductive got := GotError (e : stream_error) | GotEvent (e : event) (b : buffer) | GotEnd | GotNothing.
Definition get (b : buffer) : got :=
  match error b with
  | Some e => GotError e
  | None => match pop b with Some (e, b') => GotEvent e b' | None => if finished b then GotEnd else GotNothing end
  end.
End buffer.

(** ** Sizes of texts *)

Definition printable (v : pyval) : bool := is_ok (compact v).
Definition vsize (v : pyval) : Z := match value_size v with Ok n => n | Raise _ => 0 end.

Lemma printable_size v : printable v = true -> value_size v = Ok (vsize v).
Proof. unfold printable, vsize, value_size. by destruct (compact v). Qed.

Lemma append_empty (s : string) : (s ++ "")%string = s.
Proof. induction s as [|c s IH]; [done|]. change (String c (s ++ "") = String c s)%string. by rewrite IH. Qed.

Lemma vsize_str_app s t : vsize (PStr (s ++ t)) = vsize (PStr s) + vsize (PStr t) - 2.
Proof.
  unfold vsize, value_size. simpl. unfold string_text. rewrite chars_of_app, map_app, concat_app. simpl. rewrite !length_app. simpl. lia.
Qed.

(** Lengths of joined texts. *)
Definition joined_size (ns : list Z) : Z := sumZ ((fun n => n + 1) <$> ns).

Lemma length_concat_sep (ts : list chars) : Z.of_nat (length (concat (List.map (fun t => [","%char]
    ++ t) ts))) = joined_size ((fun t => Z.of_nat (length t)) <$> ts).
Proof. unfold joined_size. induction ts as [|t ts IH]; csimpl; [done|]. rewrite length_app. simpl in *. lia. Qed.

Lemma bracket_size open close (ts : list chars) :
  Z.of_nat (length (compact_bracket open close ts)) = match ts with [] => 2 | _ => 1 + joined_size ((fun t => Z.of_nat (length t)) <$> ts) end.
Proof.
  unfold compact_bracket, join. destruct ts as [|t ts]; [done|]. simpl. rewrite !length_app. pose proof (length_concat_sep ts) as Hl. simpl in Hl.
  unfold joined_size in *. csimpl. simpl. lia.
Qed.

Lemma mapM_compact (l : list pyval) :
  forallb printable l = true -> exists ts, mapM compact l = Ok ts /\ (fun t => Z.of_nat (length t)) <$> ts = vsize <$> l.
Proof.
  induction l as [|v l IH]; cbn [forallb]; [by exists []|]. intros [Hv Hl]%andb_true_iff. destruct (IH Hl) as (ts & Hts & Hs).
  unfold printable, is_ok in Hv.
  destruct (compact v) as [t|] eqn:Ev; [|done]. exists (t :: ts). split; [simpl; by rewrite Ev, Hts|]. rewrite !fmap_cons, Hs. f_equal.
  unfold vsize, value_size. by rewrite Ev.
Qed.

Lemma printable_list l : printable (PList l) = forallb printable l.
Proof.
  unfold printable at 1. simpl. destruct (forallb printable l) eqn:E.
  - by destruct (mapM_compact l E) as (ts & -> & _).
  - destruct (mapM compact l) as [ts|] eqn:Em; [|done]. apply mapM_ok_inv in Em. apply not_true_iff_false in E. exfalso. apply E.
    clear E. induction Em as [|v t l ts Hv _ IH]; [done|]. simpl. rewrite IH. unfold printable. by rewrite Hv.
Qed.

Lemma vsize_list l : forallb printable l = true -> vsize (PList l) = match l with [] => 2 | _ => 1 + joined_size (vsize <$> l) end.
Proof.
  intros Hl. destruct (mapM_compact l Hl) as (ts & Hts & Hs). unfold vsize at 1, value_size. simpl. rewrite Hts. cbn [mbind res_bind].
  rewrite bracket_size.
  destruct l as [|v l], ts as [|t ts]; [done|by apply (f_equal length) in Hs..|]. by rewrite Hs.
Qed.

Lemma joined_size_app a b : joined_size (a ++ b) = joined_size a + joined_size b.
Proof. unfold joined_size. by rewrite fmap_app, sumZ_app. Qed.

Lemma vsize_list_app l k :
  forallb printable l = true -> forallb printable k = true -> k <> [] ->
  vsize (PList (l ++ k)) = vsize (PList l) + (vsize (PList k) - 2 + if py_true (PList l) then 1 else 0).
Proof.
  intros Hl Hk Hne. rewrite !vsize_list by (rewrite ?forallb_app, ?Hl, ?Hk; done). destruct l as [|x l], k as [|y k]; try done.
  - simpl. lia.
  - simpl. rewrite !fmap_app. csimpl. rewrite app_comm_cons, joined_size_app. lia.
Qed.

(** ** Sizes of events *)

Definition klen (k : string) : Z := Z.of_nat (length (string_text k)).
Definition msize (kv : string * pyval) : Z := klen kv.1 + 2 + vsize kv.2.
Definition esize (e : event) : Z := match e with [] => 2 | _ => 1 + sumZ (msize <$> e) end.
Definition all_printable (e : event) : Prop := Forall (fun kv => printable kv.2 = true) e.

Lemma event_size_ok e : all_printable e -> event_size e = Ok (esize e).
Proof.
  intros He. unfold event_size, value_size. cbn [compact].
  assert (Hm : exists ts, mapM (fun kv : pkey * pyval => compact_member kv.1 <$> compact kv.2) ((fun kv => (KStr kv.1, kv.2)) <$> e) = Ok ts /\
    (fun n => n + 1) <$> ((fun t : chars => Z.of_nat (length t)) <$> ts) = msize <$> e).
  { induction He as [|[k v] e Hv _ (ts & Hts & Hs)]; [by exists []|]. simpl in Hv. unfold printable, is_ok in Hv.
    destruct (compact v) as [t|] eqn:Ev; [|done].
    exists (compact_member (KStr k) t :: ts). split; [rewrite fmap_cons; cbn [mapM fst snd]; rewrite Ev; cbn [fmap res_fmap mbind res_bind];
      by rewrite Hts|]. rewrite !fmap_cons, Hs. f_equal. unfold msize, klen, vsize, value_size, compact_member. simpl. rewrite Ev.
    simpl. rewrite !length_app. simpl. lia. }
  destruct Hm as (ts & -> & Hs). cbn [mbind res_bind]. rewrite bracket_size. unfold joined_size, esize.
  destruct e as [|kv e], ts as [|t ts]; [done|by apply (f_equal length) in Hs..|]. by rewrite Hs.
Qed.

Lemma esize_set_old e k v v' : NoDup (dict_keys e) -> dict_get e k = Some v -> esize (dict_set e k v') = esize e - vsize v + vsize v'.
Proof.
  intros Hnd Hk. assert (Hs : sumZ (msize <$> dict_set e k v') = sumZ (msize <$> e) - vsize v + vsize v').
  { clear Hnd. induction e as [|[k0 v0] e IH]; [done|]. simpl in Hk. simpl. destruct (decide (k = k0)) as [<-|]; csimpl; simpl.
    - injection Hk as ->. unfold msize. simpl. lia.
    - rewrite (IH Hk). lia. }
  unfold esize. destruct e as [|[k0 v0] e]; [done|]. rewrite Hs. simpl dict_set. destruct (decide (k = k0)); lia.
Qed.

Lemma esize_set_new e k v : e <> [] -> dict_get e k = None -> esize (dict_set e k v) = esize e + klen k + 2 + vsize v.
Proof.
  intros Hne Hk. rewrite dict_set_new by (by apply dict_get_None). unfold esize. destruct e as [|kv e]; [done|]. simpl app.
  rewrite app_comm_cons, fmap_app, sumZ_app.
  csimpl. unfold msize at 3. simpl. lia.
Qed.

Lemma all_printable_set e k v : all_printable e -> printable v = true -> all_printable (dict_set e k v).
Proof.
  intros He Hv. induction He as [|[k0 v0] e Hv0 He IH]; simpl; [by repeat constructor|]. destruct (decide (k = k0)); by constructor.
Qed.

(** ** Merging *)

(** Strings where the source joins strings, lists where it joins lists. *)
Definition typed (key : string) (v : pyval) : bool :=
  match empty_for key, v with PStr _, PStr _ | PList _, PList _ => true | _, _ => false end.

(** The fields a delta has. *)
Definition int_of (e : event) (k : string) : bool := is_ok (int_field e k).
Definition fields_ok (e : event) : bool :=
  implb (mergeable e || has e "choice_index") (int_of e "choice_index") &&
  implb (bool_decide (type_of e = Some "reasoning_delta"%string)) (int_of e "token_count") &&
  implb (bool_decide (type_of e = Some "tool_call_delta"%string)) (int_of e "index").

Record wf_event (e : event) : Prop := {
  we_keys : NoDup (dict_keys e);
  we_printable : all_printable e;
  we_typed : forall key v, key ∈ MERGED_KEYS -> dict_get e key = Some v -> typed key v = true;
  we_fields : fields_ok e = true;
  we_ne : e <> [];
}.

(** The value of a joined field. *)
Definition joined (old ev : event) (key : string) : option pyval :=
  match dict_get old key, dict_get ev key with
  | Some a, Some b => match py_add a b with Ok v => Some v | Raise _ => None end
  | Some a, None => Some a
  | None, o => o
  end.

Lemma printable_get e k v : all_printable e -> dict_get e k = Some v -> printable v = true.
Proof. intros He Hk. apply dict_get_elem in Hk. unfold all_printable in He. rewrite Forall_forall in He. by apply (He (k, v)). Qed.

Lemma klen_merged key : key ∈ MERGED_KEYS -> klen key = Z.of_nat (String.length key) + 2.
Proof. unfold MERGED_KEYS. rewrite !elem_of_cons. intros [->|[->|[->|[->|Hn]]]]; try done. by apply elem_of_nil in Hn. Qed.

(** Joining two values, or a value and the empty one. *)
Lemma py_add_empty_l key v : typed key v = true -> py_add (empty_for key) v = Ok v.
Proof. unfold typed, empty_for. case_bool_decide; destruct v; done. Qed.

Lemma py_add_empty_r key v : typed key v = true -> py_add v (empty_for key) = Ok v.
Proof. unfold typed, empty_for. case_bool_decide; destruct v; try done; simpl; [by rewrite app_nil_r|by rewrite append_empty]. Qed.

Definition grown (o v : pyval) : Z :=
  match v with PStr _ => vsize v - 2 | _ => if py_true v then vsize v - 2 + (if py_true o then 1 else 0) else 0 end.

Lemma py_add_size key o v :
  typed key o = true -> typed key v = true -> printable o = true -> printable v = true ->
  exists s, py_add o v = Ok s /\ typed key s = true /\ printable s = true /\ vsize s = vsize o + grown o v.
Proof.
  intros Ho Hv Hpo Hpv. unfold typed in *. destruct (empty_for key), o, v; try done; simpl py_add; eexists; (split; [reflexivity|]); (split; [done|]).
  - split; [done|]. rewrite vsize_str_app. unfold grown. lia.
  - rewrite printable_list in *. rewrite forallb_app, Hpo, Hpv. split; [done|]. destruct l1 as [|x l1].
    + rewrite app_nil_r. unfold grown. simpl. lia.
    + rewrite vsize_list_app by done. unfold grown. simpl. lia.
Qed.

(** The growth of one field. *)
Definition field_growth (old ev : event) (key : string) : Z :=
  match dict_get ev key, dict_get old key with
  | None, _ => 0
  | Some v, None => Z.of_nat (String.length key) + 4 + vsize v
  | Some v, Some o => grown o v
  end.

Lemma appended_size_ok old ev key : wf_event ev -> appended_size old ev key = Ok (field_growth old ev key).
Proof.
  intros [_ Hp _ _ _]. unfold appended_size, field_growth. destruct (dict_get ev key) as [v|] eqn:Ev; [|done].
  rewrite (printable_size v (printable_get _ _ _ Hp Ev)). cbn [mbind res_bind]. destruct (dict_get old key) as [o|]; [|done].
  unfold grown. destruct v; try done; by destruct (py_true _).
Qed.

Lemma joined_ok old ev key :
  wf_event old -> wf_event ev -> key ∈ MERGED_KEYS ->
  match joined old ev key with
  | Some v => typed key v = true /\ printable v = true /\
      match dict_get old key with Some o => vsize v = vsize o + field_growth old ev key | None => klen key + 2 + vsize v = field_growth old ev key end
  | None => field_growth old ev key = 0 /\ dict_get old key = None
  end.
Proof.
  intros [_ Hpo Hto _ _] [_ Hpe Hte _ _] Hkey. unfold joined, field_growth.
  destruct (dict_get old key) as [o|] eqn:Eo, (dict_get ev key) as [v|] eqn:Ev.
  - destruct (py_add_size key o v (Hto _ _ Hkey Eo) (Hte _ _ Hkey Ev) (printable_get _ _ _ Hpo Eo) (printable_get _ _ _ Hpe Ev)) as (s & ->
    & Hts & Hps & Hsz). split; [exact Hts|]. split; [exact Hps|exact Hsz].
  - split; [by apply Hto|]. split; [exact (printable_get _ _ _ Hpo Eo)|lia].
  - split; [by apply Hte|]. split; [exact (printable_get _ _ _ Hpe Ev)|]. rewrite (klen_merged key Hkey). lia.
  - done.
Qed.

Lemma merge_key_eq old ev m key :
  wf_event old -> wf_event ev -> key ∈ MERGED_KEYS ->
  merge_key old ev m key = Ok (match joined old ev key with Some v => dict_set m key v | None => m end).
Proof.
  intros [_ Hpo Hto _ _] [_ Hpe Hte _ _] Hkey. unfold merge_key, has, joined.
  destruct (dict_get old key) as [o|] eqn:Eo, (dict_get ev key) as [v|] eqn:Ev; cbn [default].
  - rewrite (bool_decide_eq_true_2 (is_Some (Some o))) by eauto. cbn [orb].
    destruct (py_add_size key o v (Hto _ _ Hkey Eo) (Hte _ _ Hkey Ev) (printable_get _ _ _ Hpo Eo) (printable_get _ _ _ Hpe Ev)) as (s & Hs
    & _). unfold id. by rewrite Hs.
  - rewrite (bool_decide_eq_true_2 (is_Some (Some o))) by eauto. cbn [orb]. unfold id. by rewrite (py_add_empty_r key o (Hto _ _ Hkey Eo)).
  - rewrite (bool_decide_eq_true_2 (is_Some (Some v))) by eauto. rewrite orb_true_r. unfold id. by rewrite (py_add_empty_l key v (Hte _ _ Hkey Ev)).
  - by rewrite !bool_decide_eq_false_2 by (intros [? ?]; done).
Qed.

(** A merged event on its way: the fields of [keys] are still those of the old event. *)
Record merge_state (old m : event) (keys : list string) : Prop := {
  ms_keys : NoDup (dict_keys m);
  ms_printable : all_printable m;
  ms_ne : m <> [];
  ms_todo : forall key, key ∈ keys -> dict_get m key = dict_get old key;
}.

Lemma dict_set_ne {V} (d : list (string * V)) k v : dict_set d k v <> [].
Proof. destruct d as [|[k0 v0] d]; simpl; [done|]. by destruct (decide (k = k0)). Qed.

Lemma merge_key_ok old ev m key keys :
  wf_event old -> wf_event ev -> key ∈ MERGED_KEYS -> key ∉ keys -> merge_state old m (key :: keys) ->
  exists m', merge_key old ev m key = Ok m' /\ esize m' = esize m + field_growth old ev key /\ merge_state old m' keys /\
    dict_get m' key = joined old ev key /\ forall k, k <> key -> dict_get m' k = dict_get m k.
Proof.
  intros Ho He Hkey Hnk [Hnd Hpm Hne Htodo]. pose proof (Htodo key ltac:(set_solver)) as Hmk. rewrite (merge_key_eq old ev m key Ho He Hkey).
  pose proof (joined_ok old ev key Ho He Hkey) as Hj. destruct (joined old ev key) as [v|].
  - destruct Hj as (Hty & Hpv & Hsz). exists (dict_set m key v). split; [done|]. split.
    { destruct (dict_get old key) as [o|]; [rewrite (esize_set_old m key o v Hnd Hmk); lia|rewrite (esize_set_new m key v Hne Hmk); lia]. }
    split; [|split; [by rewrite dict_get_set_eq|intros k Hk; by rewrite dict_get_set_ne]].
    split; [by apply dict_set_nodup|by apply all_printable_set|apply dict_set_ne|]. intros k Hk.
    rewrite dict_get_set_ne by (intros ->; done). apply Htodo. set_solver.
  - destruct Hj as [Hz Hn]. exists m. rewrite Hz. split; [done|]. split; [lia|]. split; [|split; [by rewrite Hmk|done]]. split; try done.
    intros k Hk. apply Htodo. set_solver.
Qed.

Lemma merge_keys_ok old ev keys : forall m,
  wf_event old -> wf_event ev -> keys ⊆ MERGED_KEYS -> NoDup keys -> merge_state old m keys ->
  exists m', foldM (merge_key old ev) m keys = Ok m' /\ mapM (appended_size old ev) keys = Ok (field_growth old ev <$> keys) /\
    esize m' = esize m + sumZ (field_growth old ev <$> keys) /\ merge_state old m' [] /\
    (forall k, k ∈ keys -> dict_get m' k = joined old ev k) /\ (forall k, k ∉ keys -> dict_get m' k = dict_get m k).
Proof.
  induction keys as [|key keys IH]; intros m Ho He Hsub Hnd Hm.
  { exists m. split; [done|]. split; [done|]. split; [csimpl; lia|]. split; [exact Hm|]. split; [intros k Hk; by apply elem_of_nil in Hk|done]. }
  apply NoDup_cons in Hnd as [Hk Hnd]. destruct (merge_key_ok old ev m key keys Ho He (Hsub key ltac:(set_solver)) Hk Hm) as (m1 & Hm1 & Hs1
  & Hst1 & Hj1 & Hf1).
  destruct (IH m1 Ho He ltac:(set_solver) Hnd Hst1) as (m' & Hm' & Happ & Hs' & Hst' & Hj' & Hf'). exists m'. cbn [foldM mapM].
  rewrite Hm1, (appended_size_ok old ev key He). cbn [mbind res_bind].
  rewrite Happ. split; [done|]. split; [done|]. split; [csimpl; lia|]. split; [done|]. split.
  - intros k [->|Hin]%elem_of_cons; [by rewrite Hf', Hj1|by apply Hj'].
  - intros k [Hne Hnin]%not_elem_of_cons. by rewrite Hf', Hf1.
Qed.

(** [m] is the delta [old] with [ev] joined to it. *)
Record joins (old ev m : event) : Prop := {
  j_merged : forall key, key ∈ MERGED_KEYS -> dict_get m key = joined old ev key;
  j_other : forall k, k ∉ MERGED_KEYS -> k <> "token_count"%string -> dict_get m k = dict_get old k;
  j_count : dict_get m "token_count" =
    if bool_decide (type_of ev = Some "reasoning_delta"%string) then
      match int_field old "token_count", int_field ev "token_count" with Ok n, Ok k => Some (PInt (n + k)) | _, _ => None end
    else dict_get old "token_count";
}.

Lemma not_merged k : bool_decide (k ∉ MERGED_KEYS) = true -> k ∉ MERGED_KEYS.
Proof. apply bool_decide_eq_true. Qed.

Lemma joins_type old ev m : joins old ev m -> type_of m = type_of old /\ dict_get m "choice_index" = dict_get old "choice_index" /\
    dict_get m "index" = dict_get old "index".
Proof.
  intros [_ Ho _]. unfold type_of. rewrite !Ho by (done || (apply not_merged; reflexivity)). done.
Qed.

Lemma int_field_get e k z : int_field e k = Ok z <-> dict_get e k = Some (PInt z).
Proof. unfold int_field. destruct (dict_get e k) as [[]|]; split; intros Hx; by simplify_eq. Qed.

Lemma joins_wf old ev m : wf_event old -> wf_event ev -> type_of old = type_of ev -> merge_state old m [] -> joins old ev m -> wf_event m.
Proof.
  intros Ho He Hty [Hnd Hp Hne _] Hj. split; try done.
  - intros key v Hkey Hv. rewrite (j_merged _ _ _ Hj key Hkey) in Hv. pose proof (joined_ok old ev key Ho He Hkey) as Hk. rewrite Hv in Hk. apply Hk.
  - destruct (joins_type _ _ _ Hj) as (Ht & Hc & Hi). pose proof (we_fields _ Ho) as Hf. unfold fields_ok in *.
    apply andb_true_iff in Hf as [[H1 H2]%andb_true_iff H3].
    unfold mergeable, has, int_of, int_field in *. rewrite Ht, Hc, Hi. rewrite H1, H3. cbn [andb]. rewrite andb_true_r.
    rewrite (j_count _ _ _ Hj), <- Hty.
    destruct (decide (type_of old = Some "reasoning_delta"%string)) as [Hr|Hr];
    [rewrite !bool_decide_eq_true_2 by done|by rewrite !bool_decide_eq_false_2 by done].
    pose proof (we_fields _ He) as Hfe. unfold fields_ok in Hfe. apply andb_true_iff in Hfe as [[_ H2e]%andb_true_iff _]. rewrite <- Hty in H2e.
    rewrite bool_decide_eq_true_2 in H2, H2e by done. simpl in *. unfold int_of, int_field in *.
    destruct (dict_get old "token_count") as [[]|], (dict_get ev "token_count") as [[]|]; done.
Qed.

Lemma vsize_int z : vsize (PInt z) = Z.of_nat (String.length (int_text z)).
Proof. unfold vsize, value_size. simpl. unfold chars_of. f_equal. induction (int_text z) as [|c s IH]; simpl; [done|by rewrite IH]. Qed.

Lemma old_state old keys : wf_event old -> merge_state old old keys.
Proof. intros []. by split. Qed.

(** The part that depends on the kind. *)
Lemma merge_kind_ok old ev :
  wf_event old -> wf_event ev -> type_of old = type_of ev ->
  merge_kind old ev = Ok None \/
  exists m g, merge_kind old ev = Ok (Some (m, g)) /\ esize m = esize old + g /\ merge_state old m MERGED_KEYS /\
    (forall k, k <> "token_count"%string -> dict_get m k = dict_get old k) /\
    dict_get m "token_count" =
      if bool_decide (type_of ev = Some "reasoning_delta"%string) then
        match int_field old "token_count", int_field ev "token_count" with Ok n, Ok k => Some (PInt (n + k)) | _, _ => None end
      else dict_get old "token_count".
Proof.
  intros Ho He Hty. unfold merge_kind. pose proof (we_fields _ Ho) as Hfo. pose proof (we_fields _ He) as Hfe. unfold fields_ok in Hfo, Hfe.
  rewrite Hty in Hfo.
  apply andb_true_iff in Hfo as [[_ Ho2]%andb_true_iff Ho3], Hfe as [[_ He2]%andb_true_iff He3].
  assert (Hsame : type_of ev <> Some "reasoning_delta"%string -> exists m g, Ok (Some (old, 0)) = Ok (A := option (event * Z)) (Some (m,
  g)) /\ esize m = esize old + g /\ merge_state old m MERGED_KEYS /\
    (forall k, k <> "token_count"%string -> dict_get m k = dict_get old k) /\
    dict_get m "token_count" = if bool_decide (type_of ev = Some "reasoning_delta"%string) then
        match int_field old "token_count", int_field ev "token_count" with Ok n, Ok k => Some (PInt (n + k)) | _,
          _ => None end else dict_get old "token_count").
  { intros Hn. exists old, 0. split; [done|]. split; [lia|]. split; [by apply old_state|]. split; [done|]. by rewrite bool_decide_eq_false_2. }
  destruct (decide (type_of ev = Some "reasoning_delta"%string)) as [Hr|Hr].
  - right. rewrite bool_decide_eq_true_2 in Ho2, He2 by done. rewrite (bool_decide_eq_true_2 (type_of ev = _)) by done. simpl in Ho2, He2.
    unfold int_of, is_ok in Ho2, He2.
    destruct (int_field old "token_count") as [n|] eqn:En; [|done]. destruct (int_field ev "token_count") as [k|]; [|done]. cbn [mbind res_bind].
    eexists _, _. split; [reflexivity|]. apply int_field_get in En.
    split; [rewrite (esize_set_old old _ (PInt n) _ (we_keys _ Ho) En), !vsize_int; lia|]. split.
    + destruct Ho as [Hnd Hp _ _ _]. split; [by apply dict_set_nodup|by apply all_printable_set|apply dict_set_ne|]. intros key Hkey.
      apply dict_get_set_ne. intros <-. revert Hkey. apply not_merged. reflexivity.
    + split; [intros k' Hk'; by rewrite dict_get_set_ne|by rewrite dict_get_set_eq].
  - specialize (Hsame Hr). rewrite !(bool_decide_eq_false_2 _ Hr) in Hsame.
    destruct (decide (type_of ev = Some "tool_call_delta"%string)) as [Ht|Ht]; [|right; rewrite !(bool_decide_eq_false_2 _ Hr),
    !(bool_decide_eq_false_2 _ Ht); exact Hsame].
    rewrite !(bool_decide_eq_false_2 _ Hr), !(bool_decide_eq_true_2 _ Ht). rewrite bool_decide_eq_true_2 in Ho3, He3 by done.
    simpl in Ho3, He3. unfold int_of, is_ok in Ho3, He3.
    destruct (int_field old "index") as [i|]; [|done]. destruct (int_field ev "index") as [j|]; [|done]. cbn [mbind res_bind].
    destruct (_ || _ || _); [by left|by right].
Qed.

Lemma MERGED_KEYS_nodup : NoDup MERGED_KEYS.
Proof. apply (bool_decide_unpack _). vm_compute. exact I. Qed.

Lemma merge_events_ok old ev :
  wf_event old -> wf_event ev -> type_of old = type_of ev ->
  merge_events old ev = Ok None \/ exists m g, merge_events old ev = Ok (Some (m, g)) /\ esize m = esize old + g /\ wf_event m /\ joins old ev m.
Proof.
  intros Ho He Hty. unfold merge_events. destruct (merge_kind_ok old ev Ho He Hty) as [->|(m & g & ->
  & Hs & Hst & Hsame & Hcount)]; [by left|right]. cbn [mbind res_bind].
  destruct (merge_keys_ok old ev MERGED_KEYS m Ho He ltac:(done) MERGED_KEYS_nodup Hst) as (m' & -> & -> & Hs' & Hst' & Hj' & Hf').
  cbn [mbind res_bind]. eexists _, _. split; [reflexivity|]. split; [lia|].
  assert (Hj : joins old ev m').
  { split; [exact Hj'| |].
    - intros k Hk Hne. by rewrite Hf', Hsame.
    - rewrite Hf' by (apply not_merged; reflexivity). exact Hcount. }
  split; [by apply (joins_wf old ev m')|exact Hj].
Qed.

(** ** Content *)

(** The events a reader of choice [c] is concerned with: those of the choice and those of the whole stream. *)
Definition in_view (c : Z) (e : event) : Prop := match int_field e "choice_index" with Ok c' => c' = c | Raise _ => True end.
#[export] Instance in_view_dec c e : Decision (in_view c e).
Proof. unfold in_view. destruct (int_field e "choice_index"); apply _. Defined.
Definition view (c : Z) (es : list event) : list event := filter (in_view c) es.

(** The second list has the events of the first one, with some deltas joined to the delta before them. *)
Inductive coalesced : list event -> list event -> Prop :=
  | co_nil : coalesced [] []
  | co_own l k e : coalesced l k -> coalesced (l ++ [e]) (k ++ [e])
  | co_join l k m e m' : coalesced l (k ++ [m]) -> wf_event m -> wf_event e -> mergeable e = true -> type_of m = type_of e ->
    joins m e m' -> coalesced (l ++ [e]) (k ++ [m']).

(** What a reader of a stream of events gets out of it: the text of a key, the elements of a key. *)
Definition text_of (key : string) (e : event) : string := match dict_get e key with Some (PStr s) => s | _ => "" end.
Definition items_of (key : string) (e : event) : list pyval := match dict_get e key with Some (PList l) => l | _ => [] end.
Definition all_text (key : string) (es : list event) : string := foldl (fun s e => s ++ text_of key e)%string ""%string es.
Definition all_items (key : string) (es : list event) : list pyval := concat (items_of key <$> es).
(** ... the sum of the reasoning tokens. *)
Definition count_of (e : event) : Z :=
  match type_of e, dict_get e "token_count" with Some t, Some (PInt z) => if String.eqb t "reasoning_delta" then z else 0 | _, _ => 0 end.
Definition all_count (es : list event) : Z := sumZ (count_of <$> es).

Lemma append_assoc (a b c : string) : (a ++ (b ++ c) = (a ++ b) ++ c)%string.
Proof. induction a as [|x a IH]; [done|]. change (String x (a ++ (b ++ c)) = String x ((a ++ b) ++ c))%string. by rewrite IH. Qed.

Lemma all_text_snoc key es e : all_text key (es ++ [e]) = (all_text key es ++ text_of key e)%string.
Proof. unfold all_text. by rewrite foldl_app. Qed.

Lemma all_items_snoc key es e : all_items key (es ++ [e]) = all_items key es ++ items_of key e.
Proof. unfold all_items. rewrite fmap_app, concat_app. simpl. by rewrite app_nil_r. Qed.

Lemma all_count_snoc es e : all_count (es ++ [e]) = all_count es + count_of e.
Proof. unfold all_count. rewrite fmap_app, sumZ_app. csimpl. lia. Qed.

Lemma joins_text old ev m key : wf_event old -> wf_event ev -> joins old ev m -> key ∈ MERGED_KEYS ->
    text_of key m = (text_of key old ++ text_of key ev)%string.
Proof.
  intros Ho He Hj Hkey. unfold text_of. rewrite (j_merged _ _ _ Hj key Hkey). unfold joined. pose proof (we_typed _ Ho key) as Hto.
  pose proof (we_typed _ He key) as Hte.
  destruct (dict_get old key) as [o|], (dict_get ev key) as [v|]; [|by rewrite append_empty; destruct o|done|done].
  specialize (Hto o Hkey eq_refl). specialize (Hte v Hkey eq_refl). unfold typed in *. by destruct (empty_for key), o, v.
Qed.

Lemma joins_items old ev m key : wf_event old -> wf_event ev -> joins old ev m -> key ∈ MERGED_KEYS ->
    items_of key m = items_of key old ++ items_of key ev.
Proof.
  intros Ho He Hj Hkey. unfold items_of. rewrite (j_merged _ _ _ Hj key Hkey). unfold joined. pose proof (we_typed _ Ho key) as Hto.
  pose proof (we_typed _ He key) as Hte.
  destruct (dict_get old key) as [o|], (dict_get ev key) as [v|]; [|by rewrite app_nil_r|done|done].
  specialize (Hto o Hkey eq_refl). specialize (Hte v Hkey eq_refl). unfold typed in *. by destruct (empty_for key), o, v.
Qed.

Lemma joins_counts old ev m : wf_event old -> wf_event ev -> type_of old = type_of ev -> joins old ev m -> count_of m = count_of old + count_of ev.
Proof.
  intros Ho He Hty Hj. destruct (joins_type _ _ _ Hj) as (Ht & _ & _). unfold count_of. rewrite Ht, <- Hty, (j_count _ _ _ Hj), <- Hty.
  pose proof (we_fields _ Ho) as Hfo. pose proof (we_fields _ He) as Hfe. unfold fields_ok in Hfo, Hfe. rewrite <- Hty in Hfe.
  apply andb_true_iff in Hfo as [[_ Ho2]%andb_true_iff _], Hfe as [[_ He2]%andb_true_iff _]. destruct (type_of old) as [t|]; [|done].
  destruct (String.eqb_spec t "reasoning_delta") as [->|Hne].
  - rewrite bool_decide_eq_true_2 in Ho2, He2 |- * by done. simpl in Ho2, He2. unfold int_of, is_ok, int_field in *.
    by destruct (dict_get old "token_count") as [[]|], (dict_get ev "token_count") as [[]|].
  - destruct (if bool_decide _ then _ else _) as [[]|], (dict_get old "token_count") as [[]|], (dict_get ev "token_count") as [[]|]; done.
Qed.

Lemma coalesced_content l k :
  coalesced l k -> (forall key, key ∈ MERGED_KEYS -> all_text key k = all_text key l /\ all_items key k = all_items key l) /\
  all_count k = all_count l.
Proof.
  induction 1 as [|l k e _ [IH IHc]|l k m e m' _ [IH IHc] Hm He _ Hty Hj]; [done|..].
  - split; [|by rewrite !all_count_snoc, IHc]. intros key Hkey. destruct (IH key Hkey) as [IH1 IH2].
    by rewrite !all_text_snoc, !all_items_snoc, IH1, IH2.
  - rewrite all_count_snoc in IHc. split; [|rewrite !all_count_snoc, (joins_counts m e m' Hm He Hty Hj); lia].
    intros key Hkey. destruct (IH key Hkey) as [IH1 IH2]. rewrite all_text_snoc in IH1. rewrite all_items_snoc in IH2.
    rewrite !all_text_snoc, !all_items_snoc, <- IH1, <- IH2.
    rewrite (joins_text m e m' key Hm He Hj Hkey), (joins_items m e m' key Hm He Hj Hkey). split; [apply append_assoc|apply app_assoc].
Qed.

(** ** The invariant of the buffer *)

Section invariant.
Context (lim : limits).
Hypothesis lim_pos : 0 <= max_buffer_events lim /\ 0 <= max_buffer_bytes lim.

Definition evs (b : buffer) : list event := (fun id => (entry_at b id).1) <$> events b.
Definition sizes (b : buffer) : list Z := (fun id => (entry_at b id).2) <$> events b.

(** Histories: the events put, the events taken. *)
Inductive reach : buffer -> list event -> list event -> Prop :=
  | re_init : reach buffer_init [] []
  | re_put b puts pops ev b' : reach b puts pops -> wf_event ev -> put lim b ev = Ok b' -> reach b' (puts ++ [ev]) pops
  | re_pop b puts pops ev b' : reach b puts pops -> pop b = Some (ev, b') -> reach b' puts (pops ++ [ev])
  | re_fail b puts pops c s p b' : reach b puts pops -> fail b c s p = Ok b' -> reach b' puts pops
  | re_finish b puts pops : reach b puts pops ->
      reach (Buffer (heap b) (fresh b) (events b) (bytes b) (peak_bytes b) (peak_events b) (open_deltas b) (error b) true) puts pops.

(** [id] is the last entry that a reader of choice [c] is concerned with. *)
Definition newest (b : buffer) (c : Z) (id : nat) : Prop :=
  exists q1 q2, events b = q1 ++ id :: q2 /\ int_field (entry_at b id).1 "choice_index" = Ok c /\ Forall (fun x => ~ in_view c (entry_at b x).1) q2.

Record inv (puts pops : list event) (b : buffer) : Prop := {
  i_entry : forall id, id ∈ events b -> wf_event (entry_at b id).1 /\ (entry_at b id).2 = esize (entry_at b id).1 /\
  (entry_at b id).2 <= max_event_bytes lim;
  i_fresh : forall id, id ∈ events b -> (id < fresh b)%nat;
  i_nodup : NoDup (events b);
  i_bytes : bytes b = sumZ (sizes b);
  i_limit : bytes b <= max_buffer_bytes lim /\ Z.of_nat (length (events b)) <= max_buffer_events lim;
  i_open : forall c id, dict_get (open_deltas b) c = Some id -> newest b c id;
  i_peaks : bytes b <= peak_bytes b <= max_buffer_bytes lim /\ Z.of_nat (length (events b)) <= peak_events b <= max_buffer_events lim;
  i_content : error b = None -> forall c, coalesced (view c puts) (view c (pops ++ evs b));
}.

Lemma inv_init : inv [] [] buffer_init.
Proof. split; simpl; try done; try lia; try (intros id Hid; by apply elem_of_nil in Hid); [constructor|]. intros _ c. constructor. Qed.

Lemma view_app c l k : view c (l ++ k) = view c l ++ view c k.
Proof. apply filter_app. Qed.

Lemma view_in c e : in_view c e -> view c [e] = [e].
Proof. intros H. unfold view. by rewrite filter_cons_True. Qed.

Lemma view_out c e : ~ in_view c e -> view c [e] = [].
Proof. intros H. unfold view. by rewrite filter_cons_False. Qed.

Lemma view_none c (f : nat -> event) (q : list nat) : Forall (fun x => ~ in_view c (f x)) q -> view c (f <$> q) = [].
Proof. induction 1 as [|x q Hx _ IH]; csimpl; [done|]. unfold view. by rewrite filter_cons_False. Qed.

(** *** Taking *)

Lemma esize_nonneg e : 0 <= esize e.
Proof.
  unfold esize. destruct e as [|kv e]; [lia|]. assert (H0 : 0 <= sumZ (msize <$> (kv :: e))); [|lia]. apply sumZ_nonneg, Forall_fmap, Forall_forall.
  intros [k v] _. unfold compose, msize, klen, vsize, value_size. simpl. destruct (compact v); simpl; lia.
Qed.

Lemma inv_pop puts pops b ev b' : inv puts pops b -> pop b = Some (ev, b') -> inv puts (pops ++ [ev]) b'.
Proof.
  intros [Hen Hfr Hnd Hby Hlim Hop Hpk Hco]. unfold pop. destruct (events b) as [|id q] eqn:Eq; [done|]. intros [= <- <-].
  apply NoDup_cons in Hnd as [Hid Hnd].
  assert (Hsz : 0 <= (entry_at b id).2) by (destruct (Hen id ltac:(set_solver)) as (_ & -> & _); apply esize_nonneg).
  unfold sizes in Hby. rewrite Eq in Hby. csimpl in Hby. split; simpl; try done.
  - intros x Hx. apply Hen. set_solver.
  - intros x Hx. apply Hfr. set_solver.
  - change (bytes b - (entry_at b id).2 = sumZ ((fun id => (entry_at b id).2) <$> q)). cbn [sumZ] in Hby. lia.
  - simpl in Hlim. lia.
  - intros c x Hx. assert (Hold : dict_get (open_deltas b) c = Some x /\ x <> id).
    { destruct (int_field (entry_at b id).1 "choice_index") as [c'|] eqn:Ec.
      - case_bool_decide as Hop'; [destruct (decide (c = c')) as [->|Hne]; [by rewrite dict_get_del_eq in Hx|rewrite dict_get_del_ne in Hx by done]|].
        + split; [done|]. intros ->. destruct (Hop c id Hx) as (q1 & q2 & _ & Hc & _). rewrite Ec in Hc. congruence.
        + split; [done|]. intros ->. destruct (Hop c id Hx) as (q1 & q2 & _ & Hc & _). rewrite Ec in Hc. injection Hc as ->. done.
      - split; [done|]. intros ->. destruct (Hop c id Hx) as (q1 & q2 & _ & Hc & _). by rewrite Ec in Hc. }
    destruct Hold as [Hold Hne]. destruct (Hop c x Hold) as (q1 & q2 & Heq & Hc & Hq2). rewrite Eq in Heq.
    destruct q1 as [|y q1]; simplify_eq/=. by exists q1, q2.
  - destruct Hpk. simpl in *. lia.
  - intros He c. specialize (Hco He c). unfold evs in *. rewrite Eq in Hco. csimpl in Hco. rewrite <- app_assoc. exact Hco.
Qed.
(** *** Putting *)

(** A new entry is last, and open for its choice only. *)
Lemma reopen_ok b ev id :
  wf_event ev -> exists open, reopen b ev id = Ok open /\
    forall c x, dict_get open c = Some x -> (x = id /\ int_field ev "choice_index" = Ok c /\
      mergeable ev = true) \/ (dict_get (open_deltas b) c = Some x /\ ~ in_view c ev).
Proof.
  intros [_ _ _ Hf _]. unfold fields_ok in Hf. apply andb_true_iff in Hf as [[Hc _]%andb_true_iff _]. unfold reopen, in_view, int_of, is_ok in *.
  destruct (mergeable ev).
  - simpl in Hc. destruct (int_field ev "choice_index") as [c0|]; [|done]. eexists. split; [done|]. intros c x.
    destruct (decide (c0 = c)) as [->|Hne].
    + rewrite dict_get_set_eq. intros [= <-]. by left.
    + rewrite dict_get_set_ne by done. by right.
  - simpl in Hc. destruct (has ev "choice_index").
    + simpl in Hc. destruct (int_field ev "choice_index") as [c0|]; [|done]. eexists. split; [done|]. intros c x.
      destruct (decide (c0 = c)) as [->|Hne]; [by rewrite dict_get_del_eq|].
      rewrite dict_get_del_ne by done. by right.
    + exists []. split; [done|]. by intros c x.
Qed.

Lemma inv_append puts pops b ev b' : inv puts pops b -> wf_event ev -> append lim b ev = Ok b' -> inv (puts ++ [ev]) pops b'.
Proof.
  intros [Hen Hfr Hnd Hby Hlim Hop Hpk Hco] Hev. unfold append. rewrite (event_size_ok ev (we_printable _ Hev)). cbn [mbind res_bind].
  destruct (Z.leb_spec (esize ev) (max_event_bytes lim)) as [Hsz|]; [|done]. cbn [check mbind res_bind].
  destruct (Z.ltb_spec (Z.of_nat (length (events b))) (max_buffer_events lim)) as [Hcnt|]; [|done]. cbn [andb].
  destruct (Z.leb_spec (bytes b + esize ev) (max_buffer_bytes lim)) as [Hbs|]; [|done]. cbn [check mbind res_bind].
  destruct (reopen_ok b ev (fresh b) Hev) as (open & -> & Hopen). cbn [mbind res_bind]. intros [= <-]. set (b' := Buffer _ _ _ _ _ _ _ _ _).
  assert (Hnew : entry_at b' (fresh b) = (ev, esize ev)) by (unfold entry_at, b'; simpl; by rewrite lookup_insert_eq).
  assert (Hold : forall id, id ∈ events b -> entry_at b' id = entry_at b id).
  { intros id Hid. unfold entry_at, b'. simpl. rewrite lookup_insert_ne; [done|]. specialize (Hfr id Hid). lia. }
  assert (Hevs : evs b' = evs b ++ [ev]).
  { unfold evs. change (events b') with (events b ++ [fresh b]). rewrite fmap_app. csimpl. rewrite Hnew. f_equal. apply list_fmap_ext.
    intros _ id Hid%list_elem_of_lookup_2. by rewrite Hold. }
  assert (Hszs : sizes b' = sizes b ++ [esize ev]).
  { unfold sizes. change (events b') with (events b ++ [fresh b]). rewrite fmap_app. csimpl. rewrite Hnew. f_equal. apply list_fmap_ext.
    intros _ id Hid%list_elem_of_lookup_2. by rewrite Hold. }
  pose proof (esize_nonneg ev) as Hpos. split.
  - intros id [Hid|Hid%list_elem_of_singleton]%elem_of_app; [rewrite Hold by done; by apply Hen|subst id; rewrite Hnew; simpl; done].
  - intros id [Hid|Hid%list_elem_of_singleton]%elem_of_app; simpl; [specialize (Hfr id Hid); lia|lia].
  - simpl. apply NoDup_app. split; [done|]. split; [|apply NoDup_singleton]. intros x Hx Hx'%list_elem_of_singleton. specialize (Hfr _ Hx). lia.
  - rewrite Hszs, sumZ_app. simpl. lia.
  - simpl. rewrite length_app. simpl. lia.
  - intros c x Hx. change (open_deltas b') with open in Hx. destruct (Hopen c x Hx) as [(-> & Hc & _)|[Hx' Hout]].
    + exists (events b), []. rewrite Hnew. done.
    + destruct (Hop c x Hx') as (q1 & q2 & Heq & Hc & Hq2). exists q1, (q2 ++ [fresh b]).
      assert (Hxin : x ∈ events b) by (rewrite Heq; set_solver). rewrite (Hold x Hxin).
      split; [simpl; rewrite Heq, <- app_assoc; done|]. split; [done|]. apply Forall_app. split; [|constructor; [by rewrite Hnew|done]].
      apply Forall_forall. intros y Hy. rewrite Forall_forall in Hq2. rewrite Hold by (rewrite Heq; set_solver). by apply Hq2.
  - simpl. rewrite length_app. simpl. destruct Hpk. lia.
  - intros He c. specialize (Hco He c). rewrite Hevs, app_assoc, !(view_app c _ [ev]). destruct (decide (in_view c ev)) as [Hin|Hout].
    + rewrite (view_in c ev Hin). by constructor.
    + rewrite (view_out c ev Hout), !app_nil_r. done.
Qed.
(** An entry that is replaced where it stands. *)
Lemma replaced_lists b b' id q1 q2 m n :
  events b = q1 ++ id :: q2 -> NoDup (events b) -> heap b' = <[id := (m, n)]> (heap b) -> events b' = events b ->
  entry_at b' id = (m, n) /\ (forall x, x <> id -> entry_at b' x = entry_at b x) /\
  evs b' = ((fun x => (entry_at b x).1) <$> q1) ++ m :: ((fun x => (entry_at b x).1) <$> q2) /\
  evs b = ((fun x => (entry_at b x).1) <$> q1) ++ (entry_at b id).1 :: ((fun x => (entry_at b x).1) <$> q2) /\
  sumZ (sizes b') = sumZ (sizes b) - (entry_at b id).2 + n.
Proof.
  intros Heq Hnd Hheap Hev. assert (Hid : entry_at b' id = (m, n)) by (unfold entry_at; rewrite Hheap, lookup_insert_eq; done).
  assert (Hother : forall x, x <> id -> entry_at b' x = entry_at b x) by (intros x Hx; unfold entry_at; rewrite Hheap, lookup_insert_ne; done).
  rewrite Heq in Hnd. apply NoDup_app in Hnd as (_ & Hd & [Hq2 _]%NoDup_cons). assert (Hq1 : id ∉ q1) by (intros Hx; by apply (Hd id Hx); set_solver).
  assert (Hmap : forall {B} (f : event * Z -> B) (q : list nat), id ∉ q -> (fun x => f (entry_at b' x)) <$> q = (fun x => f (entry_at b x)) <$> q).
  { intros B f q Hq. apply list_fmap_ext. intros _ x Hx%list_elem_of_lookup_2. rewrite Hother; [done|]. intros ->. done. }
  split; [done|]. split; [done|]. unfold evs, sizes. rewrite Hev, Heq, !fmap_app, !fmap_cons, Hid. rewrite !(Hmap _ fst), !(Hmap _ snd) by done.
  split; [done|]. split; [done|]. rewrite !sumZ_app. simpl. lia.
Qed.

Lemma view_joined c c' ev old m (e1 e2 pops puts : list event) :
  int_field ev "choice_index" = Ok c -> int_field old "choice_index" = Ok c -> int_field m "choice_index" = Ok c ->
  wf_event old -> wf_event ev -> mergeable ev = true -> type_of old = type_of ev -> joins old ev m -> view c e2 = [] ->
  coalesced (view c' puts) (view c' (pops ++ e1 ++ old :: e2)) -> coalesced (view c' (puts ++ [ev])) (view c' (pops ++ e1 ++ m :: e2)).
Proof.
  intros Hcev Hco Hcm Hwo Hwe Hmg Hty Hj He2 Hold. rewrite (cons_middle old), !view_app in Hold. rewrite (cons_middle m), !view_app.
  destruct (decide (c' = c)) as [->|Hne].
  - assert (Hin : forall e, int_field e "choice_index" = Ok c -> view c [e] = [e]) by (intros e He; apply view_in; unfold in_view; by rewrite He).
    rewrite (Hin ev Hcev), (Hin m Hcm), He2, app_nil_r, app_assoc. rewrite (Hin old Hco), He2, app_nil_r, app_assoc in Hold. by eapply co_join.
  - assert (Hout : forall e, int_field e "choice_index" = Ok c -> view c' [e] = []) by (intros e He; apply view_out; unfold in_view;
    rewrite He; congruence).
    rewrite (Hout ev Hcev), (Hout m Hcm). rewrite (Hout old Hco) in Hold. by rewrite app_nil_r.
Qed.

Lemma inv_merge puts pops b ev b' : inv puts pops b -> wf_event ev -> mergeable ev = true -> merge lim b ev = Ok (Some b') ->
    inv (puts ++ [ev]) pops b'.
Proof.
  intros [Hen Hfr Hnd Hby Hlim Hop Hpk Hco] Hev Hmg. unfold merge. destruct (int_field ev "choice_index") as [c|] eqn:Ec; [|done].
  cbn [mbind res_bind].
  destruct (dict_get (open_deltas b) c) as [id|] eqn:Eo; [|done]. destruct (Hop c id Eo) as (q1 & q2 & Heq & Hcid & Hq2).
  assert (Hid : id ∈ events b) by (rewrite Heq; set_solver).
  destruct (Hen id Hid) as (Hwo & Hso & Hle). case_bool_decide as Hty; [|done]. cbn [negb].
  destruct (merge_events_ok _ ev Hwo Hev Hty) as [->|(m & g & -> & Hsm & Hwm & Hj)]; [done|]. cbn [mbind res_bind].
  destruct (Z.ltb_spec (max_event_bytes lim) ((entry_at b id).2 + g)) as [|Hsz]; [done|].
  destruct (Z.leb_spec (bytes b - (entry_at b id).2 + ((entry_at b id).2 + g)) (max_buffer_bytes lim)) as [Hbs|]; [|done].
  cbn [check mbind res_bind]. intros [= <-].
  set (b' := Buffer _ _ _ _ _ _ _ _ _). destruct (joins_type _ _ _ Hj) as (Htm & Hcm & _).
  assert (Hcm' : int_field m "choice_index" = Ok c) by (unfold int_field in *; by rewrite Hcm).
  destruct (replaced_lists b b' id q1 q2 m ((entry_at b id).2 + g) Heq Hnd eq_refl eq_refl) as (Hnew & Hother & Hevs' & Hevs & Hsum).
  assert (Hchoice : forall x, int_field (entry_at b' x).1 "choice_index" = int_field (entry_at b x).1 "choice_index").
  { intros x. destruct (decide (x = id)) as [->|Hne]; [rewrite Hnew; simpl; congruence|by rewrite Hother]. }
  assert (Hview : forall c x, in_view c (entry_at b' x).1 <-> in_view c (entry_at b x).1) by (intros c0 x; unfold in_view; by rewrite Hchoice). split.
  - intros x Hx. destruct (decide (x = id)) as [->|Hne]; [rewrite Hnew; simpl; split; [done|]; lia|rewrite Hother by done; by apply Hen].
  - exact Hfr.
  - exact Hnd.
  - rewrite Hsum. simpl. lia.
  - simpl. lia.
  - intros c0 x Hx. destruct (Hop c0 x Hx) as (p1 & p2 & Hp & Hcx & Hp2). exists p1, p2. rewrite Hchoice. split; [exact Hp|]. split; [done|].
    eapply Forall_impl; [exact Hp2|]. simpl. intros y Hy Hin. by apply Hy, Hview.
  - simpl. destruct Hpk. lia.
  - intros He c'. specialize (Hco He c'). rewrite Hevs in Hco. rewrite Hevs'. apply (view_joined c c' ev (entry_at b id).1 m); try done.
    by apply view_none.
Qed.

Lemma inv_put puts pops b ev b' : inv puts pops b -> wf_event ev -> put lim b ev = Ok b' -> inv (puts ++ [ev]) pops b'.
Proof.
  intros HI Hev. unfold put. destruct (mergeable ev) eqn:Em; [|apply (inv_append puts pops b ev b' HI Hev)].
  destruct (merge lim b ev) as [[b1|]|e] eqn:Emg; cbn [mbind res_bind]; [intros [= <-]; by eapply inv_merge|by apply inv_append|done].
Qed.

Lemma inv_fail puts pops b c s p b' : inv puts pops b -> fail b c s p = Ok b' -> inv puts pops b'.
Proof.
  intros [Hen Hfr Hnd Hby Hlim Hop Hpk Hco]. unfold fail. destruct (match error b with Some e => Ok e |
  None => StreamError c s p end) as [e|]; [|done]. cbn [mbind res_bind]. intros [= <-].
  destruct Hpk as [Hp1 Hp2]. assert (Hb0 : 0 <= bytes b).
  { rewrite Hby. apply sumZ_nonneg, Forall_fmap, Forall_forall. intros id Hid. destruct (Hen id Hid) as (_ & Hs & _). unfold compose.
    rewrite Hs. apply esize_nonneg. }
  split; simpl; try done; try lia; try (intros id Hid; by apply elem_of_nil in Hid). constructor.
Qed.

Lemma reach_inv b puts pops : reach b puts pops -> inv puts pops b.
Proof.
  induction 1 as [|b puts pops ev b' _ IH Hev Hp|b puts pops ev b' _ IH Hp|b puts pops c s p b' _ IH Hf|b puts pops _ IH];
    [apply inv_init|by eapply inv_put|by eapply inv_pop|by eapply inv_fail|]. destruct IH. by split.
Qed.

(** Putting a well-formed event succeeds or is refused because of a limit; then nothing has changed. *)
Lemma put_outcome puts pops b ev :
  inv puts pops b -> wf_event ev ->
  match put lim b ev with Ok b' => True | Raise e => e = stream_exn "event_too_large" \/ e = stream_exn "buffer_overflow" end.
Proof.
  intros HI Hev. assert (Happ : match append lim b ev with Ok b' => True |
  Raise e => e = stream_exn "event_too_large" \/ e = stream_exn "buffer_overflow" end).
  { unfold append. rewrite (event_size_ok ev (we_printable _ Hev)). cbn [mbind res_bind].
    destruct (esize ev <=? _); cbn [check mbind res_bind]; [|by left]. destruct (_ && _); cbn [check mbind res_bind]; [|by right].
    by destruct (reopen_ok b ev (fresh b) Hev) as (open & -> & _). }
  unfold put. destruct (mergeable ev) eqn:Em; [|exact Happ].
  assert (Hmg : match merge lim b ev with Ok _ => True | Raise e => e = stream_exn "buffer_overflow" end).
  { unfold merge. pose proof (we_fields _ Hev) as Hf. unfold fields_ok in Hf. rewrite Em in Hf.
    apply andb_true_iff in Hf as [[Hc _]%andb_true_iff _]. simpl in Hc. unfold int_of, is_ok in Hc.
    destruct (int_field ev "choice_index") as [c|]; [|done]. cbn [mbind res_bind].
    destruct (dict_get (open_deltas b) c) as [id|] eqn:Eo; [|done]. case_bool_decide as Hty; [|done]. cbn [negb].
    destruct (i_open _ _ _ HI c id Eo) as (q1 & q2 & Heq & _). destruct (i_entry _ _ _ HI id ltac:(rewrite Heq; set_solver)) as (Hwo & _).
    destruct (merge_events_ok _ ev Hwo Hev Hty) as [->|(m & g & -> & _)]; cbn [mbind res_bind]; [done|]. destruct (_ <? _); [done|].
    by destruct (_ <=? _). }
  destruct (merge lim b ev) as [[b1|]|e]; cbn [mbind res_bind]; [done|exact Happ|by right].
Qed.
End invariant.

(** C27: in every state of the event buffer (any sequence of puts, takes and failures), the size recorded for each entry,
    which a merge only adjusts by the growth
    it computes from the appended parts, is the length of the JSON text of its event; [bytes] is the sum of these sizes; the limits on the number of
    events, on the bytes and on the size of one event hold, also for the recorded peaks; and a put is refused only because of these limits. *)
Theorem stream_buffer_exact lim b puts pops :
  0 <= max_buffer_events lim /\ 0 <= max_buffer_bytes lim -> reach lim b puts pops ->
  (forall id, id ∈ events b -> event_size (entry_at b id).1 = Ok (entry_at b id).2 /\ (entry_at b id).2 <= max_event_bytes lim) /\
  bytes b = sumZ (sizes b) /\ bytes b <= peak_bytes b <= max_buffer_bytes lim /\
  Z.of_nat (length (events b)) <= peak_events b <= max_buffer_events lim /\
  forall ev, wf_event ev -> match put lim b ev with Ok _ => True |
    Raise e => e = stream_exn "event_too_large" \/ e = stream_exn "buffer_overflow" end.
Proof.
  intros Hpos Hr. pose proof (reach_inv lim Hpos b puts pops Hr) as HI. split_and!; [|apply HI..|].
  - intros id Hid. destruct (i_entry _ _ _ _ HI id Hid) as (Hw & Hs & Hle). split; [|done]. rewrite Hs. by apply event_size_ok, we_printable.
  - intros ev Hev. by apply (put_outcome lim Hpos puts pops).
Qed.

(** C25: as long as the stream has not failed, what the reader of a choice has taken and still finds in the buffer is what was put for that
    choice and for the whole stream, in order, with
    some deltas joined to the delta before them: no text, no tool-call argument, no token,
    no log-probability and no reasoning count is lost, repeated or moved across another event. *)
Theorem stream_buffer_content lim b puts pops c :
  0 <= max_buffer_events lim /\ 0 <= max_buffer_bytes lim -> reach lim b puts pops -> error b = None ->
  let taken := view c (pops ++ evs b) in
  coalesced (view c puts) taken /\
  (forall key, key ∈ MERGED_KEYS -> all_text key taken = all_text key (view c puts) /\ all_items key taken = all_items key (view c puts)) /\
  all_count taken = all_count (view c puts).
Proof.
  intros Hpos Hr He taken. pose proof (i_content _ _ _ _ (reach_inv lim Hpos b puts pops Hr) He c) as Hc. split; [exact Hc|].
  by apply coalesced_content.
Qed.

(** ** A small stream *)

Module MiniStream.
Definition lim : limits := Limits 3 400 200.
Definition delta (c : Z) (s : string) (tok : Z) : event := [("type"%string, PStr "delta"); ("choice_index"%string, PInt c); ("text"%string,
    PStr s); ("token_ids"%string, PList [PInt tok])].
Definition over (c : Z) : event := [("type"%string, PStr "choice_finished"); ("choice_index"%string, PInt c); ("finish_reason"%string, PStr "stop")].

Lemma delta_wf c s tok : wf_event (delta c s tok).
Proof.
  split; [apply (bool_decide_unpack _); vm_compute; exact I|by repeat constructor| |vm_compute; reflexivity|done].
  intros key v Hkey. unfold MERGED_KEYS in Hkey. rewrite !elem_of_cons in Hkey.
  destruct Hkey as [->|[->|[->|[->|Hn]]]]; [..|by apply elem_of_nil in Hn]; simpl; by intros [= <-].
Qed.

(** Two deltas of choice 0 with one of choice 1 between them, then a read. *)
Definition b1 : res buffer := foldM (put lim) buffer_init [delta 0 "He" 1; delta 1 "a" 2; delta 0 "llo" 3].
Definition b2 : buffer := match b1 with Ok b => match pop b with Some (_, b) => b | None => buffer_init end | Raise _ => buffer_init end.
Definition first : event := [("type"%string, PStr "delta"); ("choice_index"%string, PInt 0); ("text"%string, PStr "Hello");
    ("token_ids"%string, PList [PInt 1; PInt 3])].

Lemma b2_reach : reach lim b2 [delta 0 "He" 1; delta 1 "a" 2; delta 0 "llo" 3] [first].
Proof.
  assert (Hb : exists b, b1 = Ok b /\ pop b = Some (first, b2)) by (eexists; split; vm_compute; reflexivity). destruct Hb as (b & Hb & Hpop).
  change [first] with ([] ++ [first]). eapply re_pop; [|exact Hpop]. unfold b1 in Hb. cbn [foldM mbind res_bind] in Hb.
  destruct (put lim buffer_init (delta 0 "He" 1)) as [x1|] eqn:E1; [|done]. cbn [foldM mbind res_bind] in Hb.
  destruct (put lim x1 (delta 1 "a" 2)) as [x2|] eqn:E2; [|done]. cbn [foldM mbind res_bind] in Hb.
  destruct (put lim x2 (delta 0 "llo" 3)) as [x3|] eqn:E3; [|done]. cbn [foldM mbind res_bind] in Hb. injection Hb as <-.
  change [delta 0 "He" 1; delta 1 "a" 2; delta 0 "llo" 3] with ((([] ++ [delta 0 "He" 1]) ++ [delta 1 "a" 2]) ++ [delta 0 "llo" 3]).
  eapply re_put; [eapply re_put; [eapply re_put; [apply re_init|apply delta_wf|exact E1]|apply delta_wf|exact E2]|apply delta_wf|exact E3].
Qed.

Lemma stream_buffer_exact_witness : bytes b2 = 60 /\ bytes b2 = sumZ (sizes b2) /\ (forall id, id ∈ events b2 ->
    event_size (entry_at b2 id).1 = Ok (entry_at b2 id).2 /\ (entry_at b2 id).2 <= 200).
Proof.
  split; [vm_compute; reflexivity|]. destruct (stream_buffer_exact lim b2 _ _ ltac:(simpl; lia) b2_reach) as (Hs & Hb & _).
  split; [exact Hb|exact Hs].
Defined.

Lemma stream_buffer_content_witness : all_text "text" (view 0 ([first] ++ evs b2)) = "Hello"%string /\
    all_items "token_ids" (view 0 ([first] ++ evs b2)) = [PInt 1; PInt 3].
Proof.
  destruct (stream_buffer_content lim b2 _ _ 0 ltac:(simpl; lia) b2_reach ltac:(vm_compute; reflexivity)) as (_ & Hk & _).
  split; [rewrite (proj1 (Hk "text"%string ltac:(unfold MERGED_KEYS;
  set_solver)))|rewrite (proj2 (Hk "token_ids"%string ltac:(unfold MERGED_KEYS; set_solver)))]; vm_compute; reflexivity.
Defined.
End MiniStream.
