(* ===== verification/StreamClient.v ===== *)
(** * The client's end of a stream

    Source: [src/arctic_platform/inference/server/streaming.py] ([ClientStream] and the checks of
    events).

    The client checks every event it reads.  A choice has deltas and then its finish; when all
    choices are finished there is one usage event, and then [completed]; a terminal error may end
    the stream at any time.

    What an abort does on the worker is a parameter: the status it returns. *)

From stdpp Require Import prelude strings list gmap.
From Stdlib Require Import ZArith Lia Ascii.
From S2P Require Import Prelude Dict Json StreamBuffer.
Local Open Scope Z_scope.

(** ** Checks of fields *)

Definition get_int (e : event) (k : string) : option Z := match dict_get e k with Some (PInt z) => Some z | _ => None end.
Definition is_str (o : option pyval) : bool := match o with Some (PStr _) => true | _ => false end.

(** [v == z] for an integer [z]. *)
Definition py_num_eq (v : pyval) (z : Z) : bool :=
  match v with PInt x => x =? z | PBool b => Z.b2z b =? z | PFloat lit => String.eqb lit (int_text z ++ ".0") | _ => false end.

(** A dictionary with string keys, as JSON has them. *)
Definition as_event (v : pyval) : option event :=
  match v with PDict d => mapM (fun kv : pkey * pyval => match kv.1 with KStr k => Some (k, kv.2) | KInt _ => None end) d | _ => None end.

Definition finite_number (o : option pyval) : bool := match o with Some (PInt _) => true | Some (PFloat lit) => finite_literal lit | _ => false end.

Definition valid_logprob_entry (v : pyval) : bool :=
  match as_event v with
  | Some e => bool_decide (is_Some (get_int e "token_id")) && is_str (dict_get e "token") && finite_number (dict_get e "logprob")
  | None => false
  end.

Definition valid_logprob_position (top_k : Z) (vt : pyval * pyval) : bool :=
  valid_logprob_entry vt.1 &&
  match as_event vt.1 with
  | Some e =>
      match get_int e "token_id" with Some z => py_num_eq vt.2 z | None => false end &&
      match dict_get e "top" with
      | Some (PList top) => (Z.of_nat (length top) <=? top_k) && forallb valid_logprob_entry top
      | _ => false
      end
  | None => false
  end.

Definition valid_delta_logprobs (e : event) (top_k : Z) : bool :=
  match dict_get e "logprobs", dict_get e "token_ids" with
  | Some (PList lps), Some (PList toks) => (length lps =? length toks)%nat && forallb (valid_logprob_position top_k) (zip lps toks)
  | _, _ => false
  end.

Definition valid_delta_fields (e : event) (chat : bool) : bool :=
  match type_of e with
  | None => false
  | Some kind =>
      if String.eqb kind "choice_finished" then chat || negb (match dict_get e "finish_reason" with Some (PStr s) => String.eqb s
        "tool_calls" | _ => false end)
      else if Bool.eqb (String.eqb kind "delta") chat then false
      else if String.eqb kind "content_delta" then is_str (dict_get e "text")
      else if String.eqb kind "reasoning_delta" then match get_int e "token_count" with Some z => 0 <=? z | None => false end
      else if String.eqb kind "tool_call_delta" then
        match get_int e "index" with Some z => 0 <=? z | None => false end && is_str (dict_get e "arguments") &&
        forallb (fun k => negb (has e k) || is_str (dict_get e k)) ["id"; "name"]%string
      else true
  end.

Definition FINISH_REASONS : list string := ["stop"; "length"; "tool_calls"]%string.

(** ** The client *)

Record client := Client {
  next_sequence : Z;
  previous_sequence : option Z;
  usage : option event;
  finished_choices : list Z;
  c_error : option string;
  error_delivered : bool;
  closed : bool;
  cleanup_unconfirmed : bool;
  released : nat; (* how often the worker's counters were given back *)
}.

Definition client_init : client := Client 0 None None [] None false false false 0.

Section client.
(** [n] choices; chat or text prompt; the number of alternatives asked for; the id of the request. *)
Context (n : Z) (chat : bool) (logprobs : option Z) (request_id : string).

(** [finish]. *)
Definition finish (c : client) : client :=
  if closed c then c
  else Client (next_sequence c) (previous_sequence c) (usage c) (finished_choices c) (c_error c) (error_delivered c) true
  (cleanup_unconfirmed c) (S (released c)).

(** [abort], with the status that the worker reports for the cleanup. *)
Definition abort (c : client) (code status : string) : client * string :=
  if closed c then (c, if cleanup_unconfirmed c then "cleanup_unconfirmed"%string else "already_terminal"%string)
  else (finish (Client (next_sequence c) (previous_sequence c) (usage c) (finished_choices c) (Some code) (error_delivered c) false
          (String.eqb status "cleanup_unconfirmed") (released c)), status).

Definition advance (c : client) : client :=
  Client (next_sequence c + 1) (Some (next_sequence c)) (usage c) (finished_choices c) (c_error c) (error_delivered c) (closed c)
    (cleanup_unconfirmed c) (released c).
Definition with_finished (c : client) (i : Z) : client :=
  Client (next_sequence c) (previous_sequence c) (usage c) (if bool_decide (i ∈ finished_choices c) then finished_choices c else
    finished_choices c ++ [i])
    (c_error c) (error_delivered c) (closed c) (cleanup_unconfirmed c) (released c).
Definition with_usage (c : client) (u : event) : client :=
  Client (next_sequence c) (previous_sequence c) (Some u) (finished_choices c) (c_error c) (error_delivered c) (closed c)
    (cleanup_unconfirmed c) (released c).
Definition with_delivered (c : client) : client :=
  Client (next_sequence c) (previous_sequence c) (usage c) (finished_choices c) (c_error c) true (closed c) (cleanup_unconfirmed c) (released c).

(** What arrives: a dictionary, or something else. *)
Inductive remote := RDict (e : event) | ROther.

Definition numbered (c : client) (e : event) : bool :=
  match dict_get e "version" with Some v => py_num_eq v 1 | None => false end &&
  match dict_get e "sequence" with Some v => py_num_eq v (next_sequence c) | None => false end.

(** The checks of a delta or finish event. *)
Definition valid_choice (c : client) (e : event) : bool :=
  match get_int e "choice_index" with
  | Some i => (0 <=? i) && (i <? n) && negb (bool_decide (i ∈ finished_choices c)) && negb (bool_decide (is_Some (usage c))) &&
    valid_delta_fields e chat
  | None => false
  end.

Definition wants_logprobs (e : event) : bool :=
  match type_of e with Some t => (String.eqb t "delta" || String.eqb t "content_delta") && bool_decide (is_Some logprobs) | None => false end.
Definition valid_logprobs (e : event) : bool :=
  Bool.eqb (has e "logprobs") (wants_logprobs e) && (negb (wants_logprobs e) || valid_delta_logprobs e (default 0 logprobs)).

Definition valid_usage (e : event) : bool :=
  match get_int e "prompt_tokens", get_int e "completion_tokens", get_int e "total_tokens" with
  | Some p, Some k, Some t =>
      (0 <=? p) && (0 <=? k) && (0 <=? t) && (t =? p + k) &&
      (negb (has e "reasoning_tokens") || match get_int e "reasoning_tokens" with Some r => (0 <=? r) && (r <=? k) | None => false end)
  | _, _, _ => false
  end.

Definition finish_reason_ok (e : event) : bool := match dict_get e "finish_reason" with Some (PStr s) => bool_decide (s ∈ FINISH_REASONS) |
    _ => false end.

(** The fields of a terminal error. *)
Definition valid_terminal (e : event) (code : option pyval) : bool :=
  (if match code with Some (PStr s) => String.eqb s "context_length_exceeded" | _ => false end then
     match dict_get e "context_limit_source" with Some (PStr s) => bool_decide (s ∈ CONTEXT_LIMIT_SOURCES) | _ => false end
   else negb (has e "context_limit_source")) &&
  (negb (has e "param") || match code, dict_get e "param" with Some (PStr s), Some (PStr _) => bool_decide (s ∈ PARAM_ERROR_CODES) | _,
    _ => false end).

(** A terminal error ends the stream; if the cleanup is not confirmed the caller is told so instead. *)
Definition accept_terminal (c : client) (e : event) (status : string) : client * res event :=
  let code := dict_get e "code" in
  if negb (valid_terminal e code) then (c, Raise (stream_exn "invalid_terminal_error"))
  else
    match code with
    | None => (c, Raise (KeyError "code"))
    | Some (PStr s) =>
        let '(c, st) := abort c s status in
        let c := with_delivered c in
        (c, Ok (if String.eqb st "cleanup_unconfirmed" then
                  dict_set (dict_del (dict_del e "context_limit_source") "param") "code" (PStr "cleanup_unconfirmed")
                else e))
    | Some _ => (c, Raise (TypeError "code"))
    end.

Definition accept_choice (c : client) (e : event) : client * res event :=
  if negb (valid_choice c e) then (c, Raise (stream_exn "invalid_choice_event"))
  else if negb (valid_logprobs e) then (c, Raise (stream_exn "invalid_choice_event"))
  else if bool_decide (type_of e = Some "choice_finished"%string) then
    if finish_reason_ok e then (with_finished c (default 0 (get_int e "choice_index")), Ok e) else (c, Raise (stream_exn "invalid_finish_reason"))
  else (c, Ok e).

Definition accept_usage (c : client) (e : event) : client * res event :=
  if bool_decide (is_Some (usage c)) || negb (Z.of_nat (length (finished_choices c)) =? n) then (c, Raise (stream_exn "invalid_usage_event"))
  else if valid_usage e then (with_usage c e, Ok e) else (c, Raise (stream_exn "invalid_usage_event")).

Definition accept_completed (c : client) (e : event) : client * res event :=
  match usage c with None => (c, Raise (stream_exn "incomplete_stream")) | Some _ => (finish c, Ok e) end.

(** [_accept_event]. *)
Definition accept_event (c : client) (r : remote) (status : string) : client * res event :=
  match c_error c with
  | Some code => (c, Raise (stream_exn code))
  | None =>
      match r with
      | RDict e =>
          if negb (numbered c e) then (c, Raise (stream_exn "invalid_event_sequence"))
          else
            let c := advance c in
            let '(c, out) :=
              match type_of e with
              | Some kind =>
                  if String.eqb kind "terminal_error" then accept_terminal c e status
                  else if bool_decide (kind ∈ DELTA_TYPES) || String.eqb kind "choice_finished" then accept_choice c e
                  else if String.eqb kind "usage" then accept_usage c e
                  else if String.eqb kind "completed" then accept_completed c e
                  else (c, Raise (stream_exn "unknown_event"))
              | None => (c, Raise (stream_exn "unknown_event"))
              end in
            (c, (fun e => dict_set e "request_id" (PStr request_id)) <$> out)
      | ROther => (c, Raise (stream_exn "invalid_event_sequence"))
      end
  end.

(** The code a failed read aborts with. *)
Definition code_of_exn (e : exn) : string := match e with ErrorWithIds "StreamError"%string [code] => code | _ => "stream_interrupted"%string end.

(** [__anext__] when an event is at hand: an exception aborts the stream and is raised. *)
Definition read (c : client) (r : remote) (status : string) : client * option (res event) :=
  if error_delivered c then (c, None)
  else
    match c_error c with
    | Some code => (c, Some (Raise (stream_exn code)))
    | None =>
        if closed c then (c, None)
        else
          let '(c, out) := accept_event c r status in
          match out with
          | Ok e => (c, Some (Ok e))
          | Raise ex => ((abort c (code_of_exn ex) status).1, Some (Raise ex))
          end
    end.
(** [read_buffered]: more events of the batch at hand, up to a limit; a bad one is raised only if it is the first. *)
Fixpoint read_buffered (c : client) (pending : list remote) (limit : nat) (status : string) : client * list remote * res (list event) :=
  match pending, limit with
  | r :: pending', S limit' =>
      if closed c || bool_decide (is_Some (c_error c)) || error_delivered c then (c, pending, Ok [])
      else
        let '(c, out) := accept_event c r status in
        match out with
        | Raise ex => ((abort c (code_of_exn ex) status).1, pending', Raise ex)
        | Ok e =>
            let '(c, rest, outs) := read_buffered c pending' limit' status in
            (c, rest, match outs with Ok es => Ok (e :: es) | Raise ex => match ex with ErrorWithIds "StreamError"%string _ => Ok [e] |
              _ => Raise ex end end)
        end
  | _, _ => (c, pending, Ok [])
  end.

(** ** Streams that are accepted *)

Definition is_choice (e : event) : bool :=
  match type_of e with Some t => bool_decide (t ∈ DELTA_TYPES) || String.eqb t "choice_finished" | None => false end.
Definition is_type (t : string) (e : event) : bool := bool_decide (type_of e = Some t).

(** The checks of an event that do not depend on what came before. *)
Definition choice_ok (e : event) : bool :=
  is_choice e && match get_int e "choice_index" with Some i => (0 <=? i) && (i <? n) | None => false end &&
  valid_delta_fields e chat && valid_logprobs e && (negb (is_type "choice_finished" e) || finish_reason_ok e).

(** Events of choices: after its finish, nothing more of a choice. *)
Definition orderly (body : list event) : Prop :=
  forall pre f post, body = pre ++ f :: post -> is_type "choice_finished" f = true ->
    Forall (fun e => get_int e "choice_index" <> get_int f "choice_index") post.

Definition finishes (body : list event) : list Z := omap (fun e => if is_type "choice_finished" e then get_int e "choice_index" else None) body.

(** A stream so far: events of choices, then, when all choices are finished, usage and [completed]. *)
Inductive well_formed : list event -> Prop :=
  | wf_body body : Forall (fun e => choice_ok e = true) body -> orderly body -> well_formed body
  | wf_usage body u : Forall (fun e => choice_ok e = true) body -> orderly body -> Z.of_nat (length (finishes body)) = n ->
      is_type "usage" u = true -> valid_usage u = true -> well_formed (body ++ [u])
  | wf_completed body u z : Forall (fun e => choice_ok e = true) body -> orderly body -> Z.of_nat (length (finishes body)) = n ->
      is_type "usage" u = true -> valid_usage u = true -> is_type "completed" z = true -> well_formed (body ++ [u; z]).

(** Numbered from zero. *)
Definition sequenced (es : list event) : Prop :=
  forall k e, es !! k = Some e -> match dict_get e "version" with Some v => py_num_eq v 1 = true | None => False end /\
    match dict_get e "sequence" with Some v => py_num_eq v (Z.of_nat k) = true | None => False end.

(** Reading one event after the other, all of them accepted. *)
Fixpoint read_all (c : client) (es : list event) (status : string) : option client :=
  match es with
  | [] => Some c
  | e :: es => match read c (RDict e) status with (c, Some (Ok _)) => read_all c es status | _ => None end
  end.

Lemma read_all_app c es e status : read_all c (es ++ [e]) status = (c' ← read_all c es status; match read c' (RDict e) status with (c,
    Some (Ok _)) => Some c | _ => None end).
Proof.
  revert c. induction es as [|x es IH]; intros c; simpl; [by destruct (read c (RDict e) status) as [c' [[]|]]|].
  destruct (read c (RDict x) status) as [c' [[]|]]; done.
Qed.

(** The client after a well-formed stream. *)
Record follows (es : list event) (c : client) : Prop := {
  f_seq : next_sequence c = Z.of_nat (length es);
  f_error : c_error c = None /\ error_delivered c = false /\ cleanup_unconfirmed c = false;
  f_case : (Forall (fun e => choice_ok e = true) es /\ orderly es /\ usage c = None /\ closed c = false /\
  finished_choices c = finishes es /\ released c = 0%nat) \/
    exists body u, Forall (fun e => choice_ok e = true) body /\ orderly body /\ Z.of_nat (length (finishes body)) = n /\
      is_type "usage" u = true /\ valid_usage u = true /\ usage c = Some u /\
      ((es = body ++ [u] /\ closed c = false /\ released c = 0%nat) \/
       exists z, es = body ++ [u; z] /\ is_type "completed" z = true /\ closed c = true /\ released c = 1%nat);
  f_seqd : sequenced es;
}.
(** *** Lists of events that grow *)

Lemma orderly_snoc es e :
  orderly (es ++ [e]) <-> orderly es /\ forall f, f ∈ es -> is_type "choice_finished" f = true ->
  get_int e "choice_index" <> get_int f "choice_index".
Proof.
  split.
  - intros Ho. split.
    + intros pre f post -> Hf. specialize (Ho pre f (post ++ [e])). rewrite <- app_assoc in Ho. specialize (Ho eq_refl Hf).
      by apply Forall_app in Ho as [? _].
    + intros f (pre & post & ->)%list_elem_of_split Hf. specialize (Ho pre f (post ++ [e])). rewrite <- app_assoc in Ho. specialize (Ho eq_refl Hf).
      apply Forall_app in Ho as [_ Ho]. by apply Forall_cons in Ho as [? _].
  - intros [Ho He] pre f post Heq Hf. destruct post as [|x post' _] using rev_ind.
    + constructor.
    + rewrite app_comm_cons, app_assoc in Heq. apply app_inj_tail in Heq as [-> ->]. apply Forall_app. split; [by apply (Ho pre f post')|].
      constructor; [|done]. apply He; [set_solver|done].
Qed.

Lemma finishes_snoc es e : finishes (es ++ [e]) = finishes es ++ (if is_type "choice_finished" e then match get_int e "choice_index" with
    Some i => [i] | None => [] end else []).
Proof. unfold finishes. rewrite omap_app. f_equal. simpl. destruct (is_type "choice_finished" e); [|done].
  by destruct (get_int e "choice_index"). Qed.

Lemma elem_finishes es i : i ∈ finishes es <-> exists f, f ∈ es /\ is_type "choice_finished" f = true /\ get_int f "choice_index" = Some i.
Proof.
  unfold finishes. rewrite list_elem_of_omap. split; intros (f & Hf & Hi); exists f; (split; [done|]);
  destruct (is_type "choice_finished" f); by (done || destruct Hi).
Qed.

Lemma sequenced_snoc es e :
  sequenced (es ++ [e]) <-> sequenced es /\ match dict_get e "version" with Some v => py_num_eq v 1 = true | None => False end /\
    match dict_get e "sequence" with Some v => py_num_eq v (Z.of_nat (length es)) = true | None => False end.
Proof.
  split.
  - intros Hs. split; [intros k x Hk; apply Hs; by apply lookup_app_l_Some|]. apply (Hs (length es) e). by rewrite lookup_app_r, Nat.sub_diag by lia.
  - intros [Hs He] k x. rewrite lookup_app_Some. intros [Hk|[Hle Hk]]; [by apply Hs|]. destruct (k - length es)%nat as [|j] eqn:Ek; [|done].
    injection Hk as <-. by replace k with (length es) by lia.
Qed.

Lemma numbered_spec es c e :
  next_sequence c = Z.of_nat (length es) -> sequenced es -> numbered c e = true <-> sequenced (es ++ [e]).
Proof.
  intros Hn Hs. rewrite sequenced_snoc. unfold numbered. rewrite Hn, andb_true_iff.
  destruct (dict_get e "version"), (dict_get e "sequence"); naive_solver.
Qed.

(** *** One event *)

Lemma fresh_choice es c e :
  Forall (fun e => choice_ok e = true) es -> usage c = None -> finished_choices c = finishes es ->
  (valid_choice c e && valid_logprobs e && (negb (is_type "choice_finished" e) || finish_reason_ok e) && is_choice e = true <->
   choice_ok e = true /\ forall f, f ∈ es -> is_type "choice_finished" f = true -> get_int e "choice_index" <> get_int f "choice_index").
Proof.
  intros Hes Hu Hf. unfold valid_choice, choice_ok. rewrite Hu, Hf.
  destruct (get_int e "choice_index") as [i|]; [|rewrite !andb_false_r; simpl; by split; [|intros [? _]]].
  rewrite (bool_decide_eq_false_2 (is_Some None)) by (intros [? ?]; done). rewrite !andb_true_iff, negb_true_iff, bool_decide_eq_false.
  rewrite elem_finishes. cbn [negb]. split.
  - intros Hx. split; [naive_solver|]. intros f Hin Hff Heq. destruct Hx as (((Hx & _) & _) & _). destruct Hx as ((Hx & _) & _).
    destruct Hx as [_ Hx]. apply Hx. by exists f.
  - intros [Hx Hnf]. assert (Hno : ~ exists f, f ∈ es /\ is_type "choice_finished" f = true /\
    get_int f "choice_index" = Some i) by (intros (f & Hin & Hff & Hi); by apply (Hnf f Hin Hff)). naive_solver.
Qed.

Lemma type_excl t t' e : is_type t e = true -> is_type t' e = true -> t = t'.
Proof. unfold is_type. intros H1%bool_decide_eq_true H2%bool_decide_eq_true. congruence. Qed.

Lemma choice_type e : choice_ok e = true -> is_choice e = true.
Proof. unfold choice_ok. intros H. by repeat (apply andb_true_iff in H as [H _]). Qed.

Lemma not_choice t e : is_type t e = true -> t ∈ ["usage"; "completed"; "terminal_error"]%string -> is_choice e = false.
Proof.
  unfold is_type, is_choice. intros ->%bool_decide_eq_true. rewrite !elem_of_cons.
  intros [->|[->|[->|Hx]]]; [vm_compute; reflexivity..|by apply elem_of_nil in Hx].
Qed.

(** A client that is still reading. *)
Definition live (c : client) : Prop := c_error c = None /\ error_delivered c = false /\ closed c = false.

Lemma read_live c e status c' o :
  live c -> read c (RDict e) status = (c', Some (Ok o)) <-> exists o', numbered c e = true /\ o = dict_set o' "request_id" (PStr request_id) /\
    match type_of e with
    | Some kind =>
        if String.eqb kind "terminal_error" then accept_terminal (advance c) e status
        else if bool_decide (kind ∈ DELTA_TYPES) || String.eqb kind "choice_finished" then accept_choice (advance c) e
        else if String.eqb kind "usage" then accept_usage (advance c) e
        else if String.eqb kind "completed" then accept_completed (advance c) e
        else (advance c, Raise (stream_exn "unknown_event"))
    | None => (advance c, Raise (stream_exn "unknown_event"))
    end = (c', Ok o').
Proof.
  intros (He & Hd & Hc). unfold read, accept_event. rewrite He, Hd, Hc. destruct (numbered c e); cbn [negb]; [|split; [done|by intros (? & ? & _)]].
  set (p := match type_of e with Some _ => _ | None => _ end). destruct p as [c1 [o1|ex]]; cbn [fmap res_fmap].
  - split; [intros [= <- <-]; by exists o1|by intros (o' & _ & -> & [= <- <-])].
  - split; [done|by intros (o' & _ & _ & ?)].
Qed.

Lemma dispatch_choice e {A} (a b c d z : A) :
  is_choice e = true ->
  match type_of e with
  | Some kind => if String.eqb kind "terminal_error" then a else if bool_decide (kind ∈ DELTA_TYPES) || String.eqb kind "choice_finished" then b
      else if String.eqb kind "usage" then c else if String.eqb kind "completed" then d else z
  | None => z
  end = b.
Proof.
  unfold is_choice. destruct (type_of e) as [t|]; [|done]. intros Ht. rewrite Ht.
  destruct (String.eqb_spec t "terminal_error") as [->|]; [|done]. by vm_compute in Ht.
Qed.

Lemma dispatch_type t e {A} (a b c d z : A) :
  is_type t e = true ->
  match type_of e with
  | Some kind => if String.eqb kind "terminal_error" then a else if bool_decide (kind ∈ DELTA_TYPES) || String.eqb kind "choice_finished" then b
      else if String.eqb kind "usage" then c else if String.eqb kind "completed" then d else z
  | None => z
  end = if String.eqb t "terminal_error" then a else if bool_decide (t ∈ DELTA_TYPES) || String.eqb t "choice_finished" then b
      else if String.eqb t "usage" then c else if String.eqb t "completed" then d else z.
Proof. unfold is_type. by intros ->%bool_decide_eq_true. Qed.

Lemma accept_choice_ok c e c' o :
  accept_choice c e = (c', Ok o) <->
  valid_choice c e && valid_logprobs e && (negb (is_type "choice_finished" e) || finish_reason_ok e) = true /\ o = e /\
  c' = if is_type "choice_finished" e then with_finished c (default 0 (get_int e "choice_index")) else c.
Proof.
  unfold accept_choice, is_type. destruct (valid_choice c e); cbn [negb andb]; [|naive_solver].
  destruct (valid_logprobs e); cbn [negb andb]; [|naive_solver].
  case_bool_decide; cbn [negb orb]; [|naive_solver]. destruct (finish_reason_ok e); naive_solver.
Qed.

Lemma follows_init : follows [] client_init.
Proof.
  split; [done|done| |by intros k e]. left. split; [done|]. split; [intros pre f post Heq; by destruct pre|]. done.
Qed.

Lemma follows_choice es c e :
  next_sequence c = Z.of_nat (length es) -> c_error c = None /\ error_delivered c = false /\ cleanup_unconfirmed c = false -> sequenced (es ++ [e]) ->
  Forall (fun e => choice_ok e = true) es -> orderly es -> usage c = None -> closed c = false -> finished_choices c = finishes es ->
    released c = 0%nat ->
  choice_ok e = true -> (forall f, f ∈ es -> is_type "choice_finished" f = true -> get_int e "choice_index" <> get_int f "choice_index") ->
  follows (es ++ [e]) (if is_type "choice_finished" e then with_finished (advance c) (default 0 (get_int e "choice_index")) else advance c).
Proof.
  intros Hn Herr Hseq Hes Hord Hu Hcl Hfin Hrel Hok Hnew.
  assert (Hi : exists i, get_int e "choice_index" = Some i).
  { unfold choice_ok in Hok. repeat (apply andb_true_iff in Hok as [Hok ?]). destruct (get_int e "choice_index"); [by eauto|done]. }
  destruct Hi as [i Hi]. assert (Hni : i ∉ finishes es) by (intros (f & Hf & Hff & Hfi)%elem_finishes; apply (Hnew f Hf Hff); congruence).
  assert (Hfs : finishes (es ++ [e]) = finishes es ++ (if is_type "choice_finished" e then [i] else [])) by (rewrite finishes_snoc, Hi; done).
  destruct (is_type "choice_finished" e) eqn:Ef; (split; [simpl; rewrite length_app; simpl; lia|done| |done]); left;
    (split; [apply Forall_app; split; [done|by constructor]|]); (split; [by apply orderly_snoc|]); (split; [done|]); (split; [done|]);
      (split; [|done]); simpl.
  - rewrite Hi, Hfin, Hfs. simpl. by rewrite bool_decide_eq_false_2.
  - by rewrite Hfin, Hfs, app_nil_r.
Qed.

Lemma follows_read es c e status c' o :
  follows es c -> type_of e <> Some "terminal_error"%string -> read c (RDict e) status = (c', Some (Ok o)) -> follows (es ++ [e]) c'.
Proof.
  intros [Hn Herr Hcase Hseq] Hnt Hread. destruct Herr as (He & Hd & Hcu).
  assert (Hclosed : closed c = false) by (unfold read in Hread; rewrite Hd, He in Hread; by destruct (closed c)).
  apply read_live in Hread as (o' & Hnum & _ & Hacc); [|done]. apply (numbered_spec es c e Hn Hseq) in Hnum.
  destruct (type_of e) as [t|] eqn:Et; [|done]. destruct (String.eqb_spec t "terminal_error"); [congruence|].
  destruct (bool_decide (t ∈ DELTA_TYPES) || String.eqb t "choice_finished") eqn:Ech.
  - apply accept_choice_ok in Hacc as (Hv & _ & ->). assert (Hch : is_choice e = true) by (unfold is_choice; by rewrite Et).
    destruct Hcase as [(Hes & Ho & Hu & _ & Hf & Hr)|(body & u & _ & _ & _ & _ & _ & Hu & _)].
    + destruct (proj1 (fresh_choice es (advance c) e Hes Hu Hf)) as [Hok Hnew]; [by rewrite Hv, Hch|]. by apply follows_choice.
    + exfalso. unfold valid_choice in Hv. simpl in Hv. rewrite Hu in Hv. rewrite (bool_decide_eq_true_2 (is_Some (Some u))) in Hv by eauto.
      destruct (get_int e "choice_index"); [|done]. cbn [negb] in Hv. by rewrite andb_false_r in Hv.
  - destruct (String.eqb_spec t "usage") as [->|].
    + unfold accept_usage in Hacc. simpl in Hacc. destruct Hcase as [(Hes & Ho & Hu & _ & Hf & Hr)|(body & u & _ & _ & _ & _ & _ & Hu & _)];
      rewrite Hu in Hacc; [|done].
      cbn [bool_decide] in Hacc. destruct (Z.eqb_spec (Z.of_nat (length (finished_choices c))) n) as [Hlen|]; [|done]. simpl in Hacc.
      destruct (valid_usage e) eqn:Ev; [|done]. injection Hacc as <- <-.
      split; [simpl; rewrite length_app; simpl; lia|done| |done]. right. exists es, e. rewrite Hf in Hlen.
      split_and!; try done; [by apply bool_decide_eq_true|]. by left.
    + destruct (String.eqb_spec t "completed") as [->|]; [|done]. unfold accept_completed in Hacc. simpl in Hacc.
      destruct Hcase as [(_ & _ & Hu & _)|(body & u & Hb & Ho & Hlen & Hut & Huv & Hu & Hrest)]; rewrite Hu in Hacc; [done|]. injection Hacc as <- <-.
      destruct Hrest as [(-> & _ & Hr)|(z & _ & _ & Hz & _)]; [|congruence]. unfold finish. simpl. rewrite Hclosed.
      split; [simpl; rewrite Hn, !length_app; simpl; lia|done| |done]. right. exists body, u. split_and!; try done. right. exists e.
      rewrite <- app_assoc, Hr. split_and!; try done. by apply bool_decide_eq_true.
Qed.

Lemma snoc_two {A} (l : list A) x y : l ++ [x; y] = (l ++ [x]) ++ [y].
Proof. by rewrite <- app_assoc. Qed.

Lemma has_usage_not_body body u : is_type "usage" u = true -> u ∈ body -> Forall (fun e => choice_ok e = true) body -> False.
Proof. intros Hu Hin Hb. rewrite Forall_forall in Hb. specialize (Hb u Hin). apply choice_type in Hb.
  rewrite (not_choice "usage" u Hu) in Hb by set_solver. done. Qed.

Lemma read_follows es c e status :
  follows es c -> well_formed (es ++ [e]) -> sequenced (es ++ [e]) -> exists c' o, read c (RDict e) status = (c', Some (Ok o)).
Proof.
  intros [Hn (He & Hd & Hcu) Hcase Hseq] Hwf Hseq'. apply (numbered_spec es c e Hn Hseq) in Hseq'.
  inversion Hwf as [body Hb Ho Heq|body u Hb Ho Hlen Hut Huv Heq|body u z Hb Ho Hlen Hut Huv Hz Heq]; subst.
  - apply Forall_app in Hb as [Hes [Hok _]%Forall_cons]. apply orderly_snoc in Ho as [Ho Hnew].
    destruct Hcase as [(_ & _ & Hu & Hcl & Hf & Hr)|(body & u & _ & _ & _ & Hut & _ & _ & Hrest)].
    2:{ exfalso. apply (has_usage_not_body es u Hut); [|done]. destruct Hrest as [(-> & _)|(z & -> & _)]; set_solver. }
    pose proof (proj2 (fresh_choice es (advance c) e Hes Hu Hf) (conj Hok Hnew)) as Hv. apply andb_true_iff in Hv as [Hv Hch].
    eexists _, _. apply read_live; [done|]. eexists. split; [done|]. split; [reflexivity|]. rewrite (dispatch_choice e) by done.
    by apply accept_choice_ok.
  - apply app_inj_tail in Heq as [-> ->]. destruct Hcase as [(_ & _ & Hu & Hcl & Hf & Hr)|(body & u & _ & _ & _ & Hut' & _ & _ & Hrest)].
    2:{ exfalso. apply (has_usage_not_body es u Hut'); [|done]. destruct Hrest as [(-> & _)|(z & -> & _)]; set_solver. }
    eexists _, _. apply read_live; [done|]. eexists. split; [done|]. split; [reflexivity|]. rewrite (dispatch_type "usage" e) by done.
    simpl. unfold accept_usage. simpl. rewrite Hu, Hf, Hlen, Z.eqb_refl. simpl. by rewrite Huv.
  - rewrite (snoc_two body u z) in Heq. apply app_inj_tail in Heq as [<- ->].
    destruct Hcase as [(Hes & _)|(body' & u' & Hb' & _ & _ & Hut' & _ & Hu & Hrest)].
    { exfalso. apply (has_usage_not_body (body ++ [u]) u Hut); [set_solver|done]. }
    destruct Hrest as [(_ & Hcl & _)|(z' & Heq' & Hz' & _)].
    + eexists _, _. apply read_live; [done|]. eexists. split; [done|]. split; [reflexivity|]. rewrite (dispatch_type "completed" e) by done.
      simpl. unfold accept_completed. simpl. rewrite Hu. done.
    + exfalso. rewrite (snoc_two body' u' z') in Heq'. apply app_inj_tail in Heq' as [_ ->]. by pose proof (type_excl _ _ _ Hut Hz').
Qed.

Lemma well_formed_prefix es e : well_formed (es ++ [e]) -> well_formed es.
Proof.
  inversion 1 as [body Hb Ho Heq|body u Hb Ho Hlen Hut Huv Heq|body u z Hb Ho Hlen Hut Huv Hz Heq]; subst.
  - apply Forall_app in Hb as [Hb _]. apply orderly_snoc in Ho as [Ho _]. by constructor.
  - apply app_inj_tail in Heq as [-> _]. by constructor.
  - rewrite (snoc_two body u z) in Heq. apply app_inj_tail in Heq as [<- _]. by constructor.
Qed.

Lemma read_all_follows es status c :
  Forall (fun e => type_of e <> Some "terminal_error"%string) es -> read_all client_init es status = Some c -> follows es c.
Proof.
  revert c. induction es as [|e es IH] using rev_ind; intros c Hnt; [intros [= <-]; apply follows_init|].
  apply Forall_app in Hnt as [Hnt [Hne _]%Forall_cons].
  rewrite read_all_app. destruct (read_all client_init es status) as [c1|] eqn:E; [|done]. simpl.
  destruct (read c1 (RDict e) status) as [c2 [[o|]|]] eqn:Er; try done.
  intros [= <-]. by eapply follows_read; [apply IH| |exact Er].
Qed.

Lemma well_formed_read es status : well_formed es -> sequenced es -> exists c, read_all client_init es status = Some c /\ follows es c.
Proof.
  induction es as [|e es IH] using rev_ind; intros Hwf Hseq; [exists client_init; split; [done|apply follows_init]|].
  destruct IH as (c & Hc & Hfol); [by eapply well_formed_prefix|by apply sequenced_snoc in Hseq as [? _]|].
  destruct (read_follows es c e status Hfol Hwf Hseq) as (c' & o & Hr).
  exists c'. rewrite read_all_app, Hc. simpl. rewrite Hr. split; [done|]. eapply follows_read; [exact Hfol| |exact Hr].
  intros Ht. assert (Hx : is_type "terminal_error" e = true) by (by apply bool_decide_eq_true). clear -Hwf Hx.
  inversion Hwf as [body Hb Ho Heq|body u Hb Ho Hlen Hut Huv Heq|body u z Hb Ho Hlen Hut Huv Hz Heq]; subst.
  - apply Forall_app in Hb as [_ [Hok _]%Forall_cons]. apply choice_type in Hok. rewrite (not_choice _ _ Hx) in Hok by set_solver. done.
  - apply app_inj_tail in Heq as [_ ->]. by pose proof (type_excl _ _ _ Hut Hx).
  - rewrite (snoc_two body u z) in Heq. apply app_inj_tail in Heq as [_ ->]. by pose proof (type_excl _ _ _ Hz Hx).
Qed.

Lemma follows_well_formed es c : follows es c -> sequenced es /\ well_formed es.
Proof.
  intros [_ _ Hcase Hs]. split; [done|]. destruct Hcase as [(Hb & Ho & _)|(body & u & Hb & Ho & Hlen & Hut & Huv & _ & [(-> & _)|(z & ->
  & Hz & _)])]; by constructor.
Qed.

Lemma follows_end es c :
  follows es c ->
  c_error c = None /\ released c = (if closed c then 1 else 0)%nat /\
  (closed c = true <-> exists e, last es = Some e /\ is_type "completed" e = true).
Proof.
  intros [_ (He & _ & _) Hcase _]. split; [done|].
  destruct Hcase as [(Hb & _ & _ & Hcl & _ & Hr)|(body & u & Hb & _ & _ & Hut & _ & _ & [(-> & Hcl & Hr)|(z & ->
  & Hz & Hcl & Hr)])]; rewrite Hcl, Hr; (split; [done|]).
  - split; [done|]. intros (e & Hl & Hc). exfalso. rewrite Forall_forall in Hb. specialize (Hb e (last_Some_elem_of _ _ Hl)).
    apply choice_type in Hb. rewrite (not_choice _ _ Hc) in Hb by set_solver. done.
  - split; [done|]. intros (e & Hl & Hc). rewrite last_snoc in Hl. injection Hl as <-. by pose proof (type_excl _ _ _ Hut Hc).
  - split; [|done]. intros _. exists z. by rewrite snoc_two, last_snoc.
Qed.

Lemma client_accepts es status :
  Forall (fun e => type_of e <> Some "terminal_error"%string) es -> (exists c, read_all client_init es status = Some c) <-> sequenced es /\
    well_formed es.
Proof.
  intros Hnt. split; [|intros [Hs Hw]; by destruct (well_formed_read es status Hw Hs) as (c & Hc & _); exists c].
  intros [c Hc]. by apply (follows_well_formed es c), (read_all_follows es status).
Qed.

End client.


(** ** A small client *)

Module MiniClient.
Definition numbered_event (k : Z) (e : event) : event := e ++ [("sequence"%string, PInt k); ("version"%string, PInt 1)].
Definition stream : list event :=
  [numbered_event 0 (MiniStream.delta 1 "a" 2); numbered_event 1 (MiniStream.over 1); numbered_event 2 (MiniStream.delta 0 "b" 3);
    numbered_event 3 (MiniStream.over 0);
   numbered_event 4 [("type"%string, PStr "usage"); ("prompt_tokens"%string, PInt 4); ("completion_tokens"%string, PInt 2);
   ("total_tokens"%string, PInt 6)];
   numbered_event 5 [("type"%string, PStr "completed")]].

End MiniClient.
