(* ===== verification/StreamWorker.v ===== *)
(** * The worker's end of a stream

    Source: [src/arctic_platform/inference/server/streaming.py] ([EngineStream.produce] for text
    and token prompts, [stop], [watch]; [stream_events] and [acknowledge_stream] of
    [StreamingWorkerMixin]; [classify_engine_error], [delta_logprobs]).

    A session runs three tasks that meet at the buffer ([StreamBuffer]): the pump turns the
    engine's outputs into events and puts them, the reader takes them, numbers them and hands
    them over in batches, each of which waits for an acknowledgement, and a watchdog or a request
    may stop the session.  [wstep] is one uninterrupted piece of one task; a schedule is a list
    of them.

    The engine (vLLM) is a parameter: what it yields or raises, and whether closing it succeeds,
    are arguments of the steps.  Time is not modelled: the watchdog may fire at any moment. *)

From stdpp Require Import prelude strings list gmap.
From Stdlib Require Import ZArith Lia.
From S2P Require Import Prelude Dict Json StreamBuffer StreamClient.
Local Open Scope Z_scope.

(** ** Errors of the engine *)

Definition STRUCTURED_OUTPUT_ERRORS : list string :=
  ["Failed to transform json schema into a grammar: "; "The provided JSON schema contains features not supported by xgrammar.";
   "Invalid JSON grammar specification."; "Invalid grammar specification"; "Failed to transform regex into a grammar: ";
   "Failed to transform choices into a grammar: "; "Grammar error: "; "Error serializing structured outputs jsonschema: ";
   "Failed to transform json schema into a regex: "; "Error parsing regex: "; "Regex uses unsupported feature for structured outputs: ";
   "Regex does not have a anchored universal start state"]%string.
Definition SAMPLING_PARAM_ERRORS : list string :=
  ["The min_p and logit_bias sampling parameters are not yet supported with speculative decoding.";
   "thinking_token_budget is set but reasoning_config is not configured."]%string.

(** An exception of the engine: whether it is a [VLLMValidationError], its [parameter] and its message. *)
Record engine_exn := EngineExn { validation : bool; parameter : option string; message : string }.

Definition starts_with (ps : list string) (s : string) : bool := existsb (fun p => String.prefix p s) ps.
Definition contains (p s : string) : bool := match String.index 0 p s with Some _ => true | None => false end.

Definition classify_engine_error (x : engine_exn) : string * option string :=
  if negb (validation x) then ("engine_error", None)%string
  else if bool_decide (parameter x = Some "input_tokens"%string) then ("context_length_exceeded", Some "prompt")%string
  else if bool_decide (parameter x ∈ [Some "logit_bias"; Some "logprobs"]%string) then ("invalid_sampling_params", None)%string
  else if starts_with SAMPLING_PARAM_ERRORS (message x) then ("invalid_sampling_params", None)%string
  else if starts_with STRUCTURED_OUTPUT_ERRORS (message x) then ("invalid_structured_output", None)%string
  else if starts_with ["This model's maximum context length is "%string] (message x) && contains "your prompt contains" (message x) && contains " input tokens" (message x) &&
          contains "Please reduce the length of the input prompt or the number of requested output tokens." (message x) then ("context_length_exceeded", Some "prompt")%string
  else if starts_with ["The decoder prompt (length "%string] (message x) && contains "longer than the maximum model length of " (message x) then ("context_length_exceeded", Some "prompt")%string
  else ("engine_error", None)%string.

(** ** What the engine yields *)

(** vLLM's [Logprob]; the number as [repr] prints it. *)
Record logprob := Logprob { lp : string; rank : option Z; decoded_token : option string }.
Abbreviation position := (list (Z * logprob)).

Record choice := Choice { index : Z; c_text : string; token_ids : list Z; finish_reason : option string; c_logprobs : option (list position) }.
Record output := Output { prompt_token_ids : option (list Z); outputs : list choice }.

Definition logprob_entry (token_id : Z) (l : logprob) : event :=
  [("token_id"%string, PInt token_id); ("token"%string, PStr (default "" (decoded_token l)));
   ("logprob"%string, PFloat (if String.eqb (lp l) "-Infinity" then "-9999.0" else lp l))].
Definition as_dict (e : event) : pyval := PDict ((fun kv => (KStr kv.1, kv.2)) <$> e).

(** [item[1].rank is not None and item[1].rank <= top_k]. *)
Definition ranked (top_k : Z) (item : Z * logprob) : bool := match rank item.2 with Some r => r <=? top_k | None => false end.
Definition rank_lt (a b : Z * logprob) : bool := default 0 (rank a.2) <? default 0 (rank b.2).

Definition position_entry (top_k token_id : Z) (pos : position) : res pyval :=
  match dict_get pos token_id with
  | None => Raise (stream_exn "invalid_engine_output")
  | Some l =>
      let top := py_sorted rank_lt (filter (fun item => ranked top_k item = true) pos) in
      Ok (as_dict (dict_set (logprob_entry token_id l) "top" (PList ((fun item => as_dict (logprob_entry item.1 item.2)) <$> top))))
  end.

Definition delta_logprobs (token_ids : list Z) (positions : option (list position)) (top_k : Z) : res (list pyval) :=
  match positions with
  | Some ps => if (length ps =? length token_ids)%nat then mapM (M := res) (fun tp => position_entry top_k tp.1 tp.2) (zip token_ids ps) else Raise (stream_exn "invalid_engine_output")
  | None => Raise (stream_exn "invalid_engine_output")
  end.

(** ** The pump *)

Record pump := Pump { counts : list Z; p_finished : list Z; prompt_tokens : option Z }.

Record params := Params { n_choices : Z; max_tokens : Z; max_tokens_omitted : bool; top_k : option Z; max_model_len : Z }.

Section worker.
Context (lim : limits) (pr : params).

Definition pump_init : pump := Pump (replicate (Z.to_nat (n_choices pr)) 0) [] None.

Definition delta_event (ch : choice) (lps : option (list pyval)) : event :=
  [("type"%string, PStr "delta"); ("choice_index"%string, PInt (index ch)); ("text"%string, PStr (c_text ch)); ("token_ids"%string, PList (PInt <$> token_ids ch))] ++
  match lps with Some l => [("logprobs"%string, PList l)] | None => [] end.
Definition finish_event (i : Z) (reason : string) : event := [("type"%string, PStr "choice_finished"); ("choice_index"%string, PInt i); ("finish_reason"%string, PStr reason)].

(** The body of the loop over the choices of an output, up to the puts: the new state and the events. *)
Definition choice_events (p : pump) (ch : choice) : res (pump * list event) :=
  let i := index ch in
  check ((0 <=? i) && (i <? Z.of_nat (length (counts p))) && negb (bool_decide (i ∈ p_finished p))) (stream_exn "invalid_engine_output");;
  let count := nth (Z.to_nat i) (counts p) 0 + Z.of_nat (length (token_ids ch)) in
  check (count <=? max_tokens pr) (stream_exn "invalid_engine_output");;
  check (match finish_reason ch with Some r => bool_decide (r ∈ ["stop"; "length"]%string) | None => true end) (stream_exn "engine_aborted");;
  lps ← (match top_k pr with Some k => Some <$> delta_logprobs (token_ids ch) (c_logprobs ch) k | None => Ok None end);
  let counts' := <[Z.to_nat i := count]> (counts p) in
  let deltas := if negb (String.eqb (c_text ch) "") || negb (length (token_ids ch) =? 0)%nat then [delta_event ch lps] else [] in
  match finish_reason ch with
  | Some r => Ok (Pump counts' (p_finished p ++ [i]) (prompt_tokens p), deltas ++ [finish_event i r])
  | None => Ok (Pump counts' (p_finished p) (prompt_tokens p), deltas)
  end.

(** The puts; the first exception ends them. *)
Fixpoint puts (b : buffer) (es : list event) : buffer * option exn :=
  match es with
  | [] => (b, None)
  | e :: es => match put lim b e with Ok b' => puts b' es | Raise x => (b, Some x) end
  end.

Fixpoint on_choices (p : pump) (b : buffer) (chs : list choice) : pump * buffer * option exn :=
  match chs with
  | [] => (p, b, None)
  | ch :: chs =>
      match choice_events p ch with
      | Raise x => (p, b, Some x)
      | Ok (p', es) => match puts b es with (b', None) => on_choices p' b' chs | (b', Some x) => (p', b', Some x) end
      end
  end.

(** One output: the length of the prompt is checked against the budget. *)
Definition on_prompt (p : pump) (o : output) : res pump :=
  match prompt_token_ids o with
  | None => Ok p
  | Some ids =>
      let k := Z.of_nat (length ids) in
      check (negb (negb (max_tokens_omitted pr) && (max_model_len pr <? k + max_tokens pr))) (ErrorWithIds "StreamError" ["context_length_exceeded"; "completion_budget"]%string);;
      Ok (Pump (counts p) (p_finished p) (Some k))
  end.

Definition on_output (p : pump) (b : buffer) (o : output) : pump * buffer * option exn :=
  match on_prompt p o with Raise x => (p, b, Some x) | Ok p' => on_choices p' b (outputs o) end.

Definition usage_event (prompt completion : Z) : event :=
  [("type"%string, PStr "usage"); ("prompt_tokens"%string, PInt prompt); ("completion_tokens"%string, PInt completion); ("total_tokens"%string, PInt (prompt + completion))].
Definition completed_event : event := [("type"%string, PStr "completed")].

(** After the last output; [closed] says whether closing the engine's generator succeeded. *)
Definition on_end (p : pump) (b : buffer) (closed : bool) : buffer * option exn :=
  match prompt_tokens p with
  | Some k =>
      if negb (length (p_finished p) =? length (counts p))%nat then (b, Some (stream_exn "incomplete_engine_output"))
      else if negb closed then (b, Some (stream_exn "cleanup_unconfirmed"))
      else match error b with
           | Some e => (b, Some (ErrorWithIds "StreamError" (code e :: match context_limit_source e with Some s => [s] | None => [] end)))
           | None => puts b [usage_event k (sumZ (counts p)); completed_event]
           end
  | None => (b, Some (stream_exn "incomplete_engine_output"))
  end.

(** The code and the source that a [StreamError] of the pump carries. *)
Definition failure_of (x : exn) : string * option string :=
  match x with
  | ErrorWithIds "StreamError"%string [c] => (c, None)
  | ErrorWithIds "StreamError"%string [c; s] => (c, Some s)
  | _ => ("engine_error"%string, None)
  end.

(** ** The session *)

Record session := Session {
  s_pump : pump;
  s_buf : buffer;
  running : bool; (* the pump *)
  sequence : Z; (* of the next event *)
  pending_sequence : option Z;
  acked : bool; (* the event [ack] *)
  returned : bool; (* the reader *)
  stopped : bool; (* [stop_task] is set *)
  registered : bool; (* in [_engine_streams] *)
  taken : list output; (* what the engine has yielded *)
  popped : list event; (* what the reader has taken from the buffer *)
  sent : list event; (* what the reader has yielded *)
}.

Definition session_init : session := Session pump_init buffer_init true 0 None true false false true [] [] [].

(** [buffer.fail], which keeps the first error. *)
Definition failed (b : buffer) (f : string * option string) : buffer := match fail b f.1 f.2 None with Ok b' => b' | Raise _ => b end.

(** The pump catches its exception, fails the buffer and wakes the reader. *)
Definition pump_fails (s : session) (p : pump) (b : buffer) (f : string * option string) : session :=
  Session p (failed b f) false (sequence s) (pending_sequence s) true (returned s) (stopped s) (registered s) (taken s) (popped s) (sent s).

Definition pump_output (s : session) (o : output) : session :=
  let s := Session (s_pump s) (s_buf s) (running s) (sequence s) (pending_sequence s) (acked s) (returned s) (stopped s) (registered s) (taken s ++ [o]) (popped s) (sent s) in
  match on_output (s_pump s) (s_buf s) o with
  | (p, b, None) => Session p b true (sequence s) (pending_sequence s) (acked s) (returned s) (stopped s) (registered s) (taken s) (popped s) (sent s)
  | (p, b, Some x) => pump_fails s p b (failure_of x)
  end.

(** The last two puts, and [done]. *)
Definition pump_end (s : session) (closed : bool) : session :=
  match on_end (s_pump s) (s_buf s) closed with
  | (b, None) =>
      Session (s_pump s) (Buffer (heap b) (fresh b) (events b) (bytes b) (peak_bytes b) (peak_events b) (open_deltas b) (error b) true) false
        (sequence s) (pending_sequence s) (acked s) (returned s) (stopped s) (registered s) (taken s) (popped s) (sent s)
  | (b, Some x) => pump_fails s (s_pump s) b (failure_of x)
  end.

(** [stop]: from the watchdog, an abort or a change of the worker. *)
Definition STOP_CODES : list string := ["deadline_exceeded"; "consumer_stalled"; "cancelled"; "worker_lifecycle_change"]%string.
Definition stop (s : session) (c : string) : session :=
  if stopped s then s
  else Session (s_pump s) (failed (s_buf s) (c, None)) (running s) (sequence s) (pending_sequence s) true (returned s) true (registered s) (taken s) (popped s) (sent s).
(** ... which has taken effect: the pump is gone and the session is removed. *)
Definition release (s : session) : session :=
  if stopped s then Session (s_pump s) (s_buf s) false (sequence s) (pending_sequence s) (acked s) (returned s) (stopped s) false (taken s) (popped s) (sent s) else s.

(** ** The reader *)

(** [{**event, "sequence": sequence, "version": 1}]. *)
Definition stamp (k : Z) (e : event) : event := dict_set (dict_set e "sequence" (PInt k)) "version" (PInt 1).

(** The batch: numbered, up to [completed]. *)
Fixpoint batch_of (k : Z) (es : list event) : list event * bool :=
  match es with
  | [] => ([], false)
  | e :: es => if is_type "completed" e then ([stamp k e], true) else let '(rest, completed) := batch_of (k + 1) es in (stamp k e :: rest, completed)
  end.

Definition terminal_event (k : Z) (e : stream_error) : event :=
  [("type"%string, PStr "terminal_error"); ("code"%string, PStr (code e)); ("sequence"%string, PInt k); ("version"%string, PInt 1)] ++
  match context_limit_source e with Some s => [("context_limit_source"%string, PStr s)] | None => [] end ++
  match param e with Some s => [("param"%string, PStr s)] | None => [] end.

(** One turn of [stream_events]: wait for the acknowledgement, take everything that is there, yield a batch. *)
Definition reader_turn (s : session) : session :=
  if returned s || negb (acked s) then s
  else
    match get (s_buf s) with
    | GotError e => Session (s_pump s) (s_buf s) (running s) (sequence s) (pending_sequence s) (acked s) true (stopped s) false (taken s) (popped s) (sent s ++ [terminal_event (sequence s) e])
    | GotEnd => Session (s_pump s) (s_buf s) (running s) (sequence s) (pending_sequence s) (acked s) true (stopped s) false (taken s) (popped s) (sent s)
    | GotNothing => s
    | GotEvent e b =>
        let '(more, b) := drain b in
        let '(batch, completed) := batch_of (sequence s) (e :: more) in
        let k := sequence s + Z.of_nat (length batch) in
        Session (s_pump s) b (running s) k (Some (k - 1)) false completed (stopped s) (registered s && negb completed) (taken s) (popped s ++ e :: more) (sent s ++ batch)
    end.

(** [acknowledge_stream]. *)
Definition acknowledge (s : session) (k : Z) : session * res bool :=
  if negb (registered s) then (s, Ok false)
  else if bool_decide (pending_sequence s = Some k) then
    (Session (s_pump s) (s_buf s) (running s) (sequence s) None true (returned s) (stopped s) (registered s) (taken s) (popped s) (sent s), Ok true)
  else (s, Raise (ValueError "Unexpected stream acknowledgement")).

(** ** Schedules *)

Inductive wevent :=
  | WOutput (o : output) (* the engine yields *)
  | WRaise (x : engine_exn) (* ... raises *)
  | WEnd (closed : bool) (* ... ends *)
  | WStop (c : string)
  | WRelease
  | WRead
  | WAck (k : Z).

Definition wstep (s : session) (ev : wevent) : session :=
  match ev with
  | WOutput o => if running s then pump_output s o else s
  | WRaise x => if running s then pump_fails s (s_pump s) (s_buf s) (classify_engine_error x) else s
  | WEnd closed => if running s then pump_end s closed else s
  | WStop c => if bool_decide (c ∈ STOP_CODES) then stop s c else s
  | WRelease => release s
  | WRead => reader_turn s
  | WAck k => (acknowledge s k).1
  end.

Definition run (evs : list wevent) : session := foldl wstep session_init evs.
End worker.
