(* ===== verification/StreamDelivery.v ===== *)
(** * From the engine to the client

    Source: [src/arctic_platform/inference/server/streaming.py].

    The theorems that compose the three parts of a stream: the worker's session
    ([StreamWorker]), its buffer ([StreamBuffer]) and the client ([StreamClient]).  Joining deltas
    in the buffer keeps a stream valid ([coalesced_well_formed]); the pump puts valid streams
    ([choice_events_pumping]); the reader sends them numbered, without loss ([reader_batch]).
    Hence the client accepts whatever the worker sends, under every schedule, and a stream that
    is completed has the engine's text and tokens.

    What is relied on of the engine (vLLM), in [position_ok]: log-probabilities are finite or
    minus infinity, and the ranks of a position are distinct and start at 1. *)

From stdpp Require Import prelude strings list gmap.
From Stdlib Require Import ZArith Lia.
From S2P Require Import Prelude Dict Json StreamBuffer StreamClient StreamWorker.
Local Open Scope Z_scope.

(** ** Joined deltas are still valid *)

Section joined.
Context (n : Z) (chat : bool) (logprobs : option Z).

Lemma joins_field old ev m k : joins old ev m -> bool_decide (k ∉ MERGED_KEYS) = true -> k <> "token_count"%string -> dict_get m k = dict_get old k.
Proof. intros Hj Hk Hne. apply (j_other _ _ _ Hj); [by apply not_merged|done]. Qed.

Lemma joined_str old ev m key :
  wf_event old -> wf_event ev -> joins old ev m -> key ∈ MERGED_KEYS -> is_str (dict_get old key) = true -> is_str (dict_get m key) = true.
Proof.
  intros Ho He Hj Hkey Hs. rewrite (j_merged _ _ _ Hj key Hkey). unfold joined. pose proof (we_typed _ Ho key) as Hto.
  pose proof (we_typed _ He key) as Hte.
  destruct (dict_get old key) as [o|]; [|done]. specialize (Hto o Hkey eq_refl). destruct o; try done. destruct (dict_get ev key) as [v|]; [|done].
  specialize (Hte v Hkey eq_refl). unfold typed in *. destruct (empty_for key), v; done.
Qed.

Lemma delta_not_finish e : mergeable e = true -> is_type "choice_finished" e = false.
Proof.
  unfold mergeable, is_type. intros Hm. apply bool_decide_eq_false. intros Ht. rewrite Ht in Hm. by vm_compute in Hm.
Qed.

Lemma joined_fields old ev m :
  wf_event old -> wf_event ev -> type_of old = type_of ev -> joins old ev m -> mergeable ev = true ->
  valid_delta_fields old chat = true -> valid_delta_fields ev chat = true -> valid_delta_fields m chat = true.
Proof.
  intros Ho He Hty Hj Hmg Hvo Hve. destruct (joins_type _ _ _ Hj) as (Ht & _ & Hi). unfold valid_delta_fields in *. rewrite Ht.
  rewrite Hty in Hvo |- *.
  destruct (type_of ev) as [t|] eqn:Et; [|done]. destruct (String.eqb_spec t "choice_finished") as [->|].
  { unfold mergeable in Hmg. rewrite Et in Hmg. by vm_compute in Hmg. }
  destruct (Bool.eqb (String.eqb t "delta") chat); [done|]. destruct (String.eqb_spec t "content_delta") as [->|].
  { apply (joined_str old ev m); try done. unfold MERGED_KEYS. set_solver. }
  destruct (String.eqb_spec t "reasoning_delta") as [->|].
  { unfold get_int in *. rewrite (j_count _ _ _ Hj), Et, bool_decide_eq_true_2 by done. unfold int_field.
    destruct (dict_get old "token_count") as [[]|], (dict_get ev "token_count") as [[]|]; try done. lia. }
  destruct (String.eqb_spec t "tool_call_delta") as [->|]; [|done].
  apply andb_true_iff in Hvo as [[Hvi Hva]%andb_true_iff Hvn]. apply andb_true_iff; split; [apply andb_true_iff; split|].
  - unfold get_int in *. by rewrite Hi.
  - apply (joined_str old ev m); try done. unfold MERGED_KEYS. set_solver.
  - simpl in *. unfold has in *. rewrite !(joins_field old ev m) by (done || reflexivity). done.
Qed.

Lemma zip_app_eq {A B} (l l' : list A) (k k' : list B) : length l = length k -> zip (l ++ l') (k ++ k') = zip l k ++ zip l' k'.
Proof. intros Hl. apply zip_with_app. done. Qed.

Lemma joined_lp_valid old ev m k :
  wf_event old -> wf_event ev -> joins old ev m -> valid_delta_logprobs old k = true -> valid_delta_logprobs ev k = true ->
  valid_delta_logprobs m k = true.
Proof.
  intros Ho He Hj. unfold valid_delta_logprobs. rewrite !(j_merged _ _ _ Hj) by (unfold MERGED_KEYS; set_solver). unfold joined.
  destruct (dict_get old "logprobs") as [[]|]; try done. destruct (dict_get old "token_ids") as [[]|]; try done.
  destruct (dict_get ev "logprobs") as [[]|]; try done. destruct (dict_get ev "token_ids") as [[]|]; try done.
  intros [Hl1 Hf1]%andb_true_iff [Hl2 Hf2]%andb_true_iff. cbn [py_add]. apply Nat.eqb_eq in Hl1, Hl2. apply andb_true_iff.
  split; [apply Nat.eqb_eq; rewrite !length_app; lia|].
  rewrite zip_app_eq by done. by rewrite forallb_app, Hf1, Hf2.
Qed.

Lemma joined_has old ev m key : joins old ev m -> wf_event old -> wf_event ev -> key ∈ MERGED_KEYS -> has m key = has old key || has ev key.
Proof.
  intros Hj Ho He Hkey. unfold has. rewrite (j_merged _ _ _ Hj key Hkey). pose proof (joined_ok old ev key Ho He Hkey) as Hk. unfold joined in *.
  destruct (dict_get old key) as [o|], (dict_get ev key) as [v|]; try done. destruct (py_add o v); [done|]. by destruct Hk.
Qed.

Lemma joined_logprobs old ev m :
  wf_event old -> wf_event ev -> type_of old = type_of ev -> joins old ev m -> valid_logprobs logprobs old = true ->
  valid_logprobs logprobs ev = true -> valid_logprobs logprobs m = true.
Proof.
  intros Ho He Hty Hj. destruct (joins_type _ _ _ Hj) as (Ht & _ & _). unfold valid_logprobs, wants_logprobs. rewrite Ht, Hty.
  set (w := match type_of ev with Some _ => _ | None => _ end).
  rewrite (joined_has old ev m "logprobs") by (done || (unfold MERGED_KEYS; set_solver)).
  intros [H1 H2]%andb_true_iff [H3 H4]%andb_true_iff. apply eqb_prop in H1, H3. rewrite H1, H3, orb_diag, eqb_reflx. cbn [andb].
  destruct w; [|done]. cbn [negb orb] in *. by apply (joined_lp_valid old ev m).
Qed.

Lemma joined_choice_ok old ev m :
  wf_event old -> wf_event ev -> type_of old = type_of ev -> joins old ev m -> mergeable ev = true ->
  choice_ok n chat logprobs old = true -> choice_ok n chat logprobs ev = true -> choice_ok n chat logprobs m = true.
Proof.
  intros Ho He Hty Hj Hmg Hco Hce. destruct (joins_type _ _ _ Hj) as (Ht & Hc & _). unfold choice_ok in *.
  apply andb_true_iff in Hco as [[[[H1 H2]%andb_true_iff H3]%andb_true_iff H4]%andb_true_iff _].
  apply andb_true_iff in Hce as [[[_ H5]%andb_true_iff H6]%andb_true_iff _].
  rewrite (joined_fields old ev m), (joined_logprobs old ev m) by done. unfold is_choice, get_int, is_type in *. rewrite Ht, Hc, H1, H2. cbn [andb].
  pose proof (delta_not_finish ev Hmg) as Hf. unfold is_type in Hf. rewrite Hty, Hf. done.
Qed.
End joined.

(** ** Coalesced streams are still well-formed *)

Section coalesced.
Context (n : Z) (chat : bool) (logprobs : option Z).
Abbreviation ok := (choice_ok n chat logprobs).

Lemma coalesced_snoc_keep l k x : coalesced (l ++ [x]) k -> mergeable x = false -> exists k', k = k' ++ [x] /\ coalesced l k'.
Proof.
  intros Hc Hm. inversion Hc as [Heq|l' k' e Hco Heq|l' k' m e m' Hco _ _ He _ _ Heq]; subst.
  - by destruct l.
  - apply app_inj_tail in Heq as [-> ->]. by exists k'.
  - apply app_inj_tail in Heq as [_ ->]. congruence.
Qed.

Lemma coalesced_ok l k : coalesced l k -> Forall (fun e => ok e = true) l -> Forall (fun e => ok e = true) k.
Proof.
  induction 1 as [|l k e _ IH|l k m e m' _ IH Hm He Hmg Hty Hj]; [done|..]; rewrite !Forall_app, !Forall_singleton; intros [Hl Hok].
  - split; [by apply IH|done].
  - specialize (IH Hl). rewrite Forall_app, Forall_singleton in IH. destruct IH as [Hk Hom]. split; [done|].
    by apply (joined_choice_ok n chat logprobs m e m').
Qed.

Definition no_finish (l : list event) : Prop := Forall (fun e => is_type "choice_finished" e = false) l.

Lemma is_type_joined t m e m' : joins m e m' -> is_type t m' = is_type t m.
Proof. intros Hj. unfold is_type. by rewrite (proj1 (joins_type _ _ _ Hj)). Qed.

Lemma coalesced_no_finish l k : coalesced l k -> no_finish l <-> no_finish k.
Proof.
  unfold no_finish. induction 1 as [|l k e _ IH|l k m e m' _ IH _ _ Hmg _ Hj]; [done|..]; rewrite !Forall_app, !Forall_singleton; [by rewrite IH|].
  rewrite IH, Forall_app, Forall_singleton, (is_type_joined _ m e m' Hj). pose proof (delta_not_finish e Hmg). naive_solver.
Qed.

(** In the view of one choice, only the last event may be its finish. *)
Definition finish_last (l : list event) : Prop := forall pre f post, l = pre ++ f :: post -> is_type "choice_finished" f = true -> post = [].

Lemma finish_last_snoc l e : finish_last (l ++ [e]) <-> no_finish l.
Proof.
  split.
  - intros H. apply Forall_forall. intros f (pre & post & ->)%list_elem_of_split. destruct (is_type "choice_finished" f) eqn:Ef; [|done].
    rewrite <- app_assoc in H. specialize (H pre f (post ++ [e]) eq_refl Ef). by destruct post.
  - intros Hn pre f post Heq Hf. destruct post as [|x post _] using rev_ind; [done|]. rewrite app_comm_cons, app_assoc in Heq.
    apply app_inj_tail in Heq as [-> _].
    unfold no_finish in Hn. rewrite Forall_app, Forall_cons in Hn. destruct Hn as [_ [Hn _]]. congruence.
Qed.

Lemma coalesced_finish_last l k : coalesced l k -> finish_last l -> finish_last k.
Proof.
  intros Hc. destruct Hc as [|l k e Hc|l k m e m' Hc _ _ Hmg _ Hj]; [done|..]; rewrite !finish_last_snoc; intros Hn;
  apply (coalesced_no_finish _ _ Hc) in Hn; [done|].
  by apply Forall_app in Hn as [? _].
Qed.

Lemma coalesced_finishes l k : coalesced l k -> finish_last l -> forall i, i ∈ finishes l <-> i ∈ finishes k.
Proof.
  intros Hc. destruct Hc as [|l k e Hc|l k m e m' Hc _ _ Hmg _ Hj]; [done|..]; rewrite finish_last_snoc; intros Hn i;
  pose proof (proj1 (coalesced_no_finish _ _ Hc) Hn) as Hk.
  - rewrite !elem_finishes. unfold no_finish in *. rewrite Forall_forall in Hn, Hk. split; intros (f & [Hin|Hin]%elem_of_app & Hf & Hi);
      [by specialize (Hn f Hin); congruence|exists f; set_solver|by specialize (Hk f Hin); congruence|exists f; set_solver].
  - unfold no_finish in *. rewrite Forall_app, Forall_singleton in Hk. destruct Hk as [Hk Hm]. rewrite Forall_forall in Hn, Hk.
    rewrite !elem_finishes.
    split; intros (f & [Hin|Hin%list_elem_of_singleton]%elem_of_app & Hf & Hi); exfalso;
      [specialize (Hn f Hin)|subst f; pose proof (delta_not_finish e Hmg)|specialize (Hk f Hin)|subst f;
        rewrite (is_type_joined _ m e m' Hj) in Hf]; congruence.
Qed.

(** *** Streams through their views *)

Lemma choice_of e : ok e = true -> exists i, get_int e "choice_index" = Some i /\ 0 <= i < n.
Proof.
  unfold choice_ok. intros H. repeat (apply andb_true_iff in H as [H ?]). destruct (get_int e "choice_index") as [i|]; [|done]. exists i.
  split; [done|]. lia.
Qed.

Lemma get_int_field e k i : get_int e k = Some i <-> int_field e k = Ok i.
Proof. unfold get_int, int_field. destruct (dict_get e k) as [[]|]; naive_solver. Qed.

Lemma view_elem c l e : e ∈ view c l <-> in_view c e /\ e ∈ l.
Proof. apply list_elem_of_filter. Qed.

Lemma in_view_choice c e i : get_int e "choice_index" = Some i -> in_view c e <-> i = c.
Proof. intros Hi%get_int_field. unfold in_view. by rewrite Hi. Qed.

Lemma ok_in_view e : ok e = true -> exists i, forall c, in_view c e <-> i = c.
Proof. intros (i & Hi & _)%choice_of. exists i. intros c. by apply in_view_choice. Qed.

Lemma no_finish_last l : no_finish l -> finish_last l.
Proof. intros Hn pre f post -> Hf. apply Forall_app in Hn as [_ [Hn _]%Forall_cons]. congruence. Qed.

Lemma orderly_views l : Forall (fun e => ok e = true) l -> orderly l <-> forall c, finish_last (view c l).
Proof.
  induction l as [|e l IH] using rev_ind; [intros _; split; [intros _ c pre f post Heq; by destruct pre|intros _ pre f post Heq; by destruct pre]|].
  rewrite Forall_app, Forall_singleton. intros [Hl He]. rewrite orderly_snoc, (IH Hl). destruct (choice_of e He) as (i & Hi & _).
  rewrite Forall_forall in Hl. split.
  - intros [Ho Hnew] c. rewrite view_app. destruct (decide (in_view c e)) as [Hin|Hout]; [|by rewrite (view_out c e Hout), app_nil_r].
    rewrite (view_in c e Hin), finish_last_snoc. apply Forall_forall. intros f [Hv Hf]%view_elem. apply not_true_is_false. intros Hff.
    apply (Hnew f Hf Hff).
    destruct (choice_of f (Hl f Hf)) as (j & Hj & _). apply (in_view_choice c f j Hj) in Hv. apply (in_view_choice c e i Hi) in Hin. congruence.
  - intros Hv. assert (Hin : in_view i e) by (by apply (in_view_choice i e i Hi)). split.
    + intros c. specialize (Hv c). rewrite view_app in Hv. destruct (decide (in_view c e)) as [Hc|Hc]; [|by rewrite (view_out c e Hc),
      app_nil_r in Hv].
      rewrite (view_in c e Hc), finish_last_snoc in Hv. by apply no_finish_last.
    + intros f Hf Hff Heq. specialize (Hv i). rewrite view_app, (view_in i e Hin), finish_last_snoc in Hv. unfold no_finish in Hv.
      rewrite Forall_forall in Hv.
      rewrite (Hv f) in Hff; [done|]. apply view_elem. split; [|done]. apply (in_view_choice i f i); congruence.
Qed.

Lemma finishes_view l i : i ∈ finishes l <-> i ∈ finishes (view i l).
Proof.
  rewrite !elem_finishes. split; intros (f & Hf & Hff & Hi); exists f; (split; [|done]); [|by apply view_elem in Hf as [_ ?]].
  apply view_elem. split; [|done]. by apply (in_view_choice i f i Hi).
Qed.

Lemma finishes_nodup l : Forall (fun e => ok e = true) l -> orderly l -> NoDup (finishes l).
Proof.
  induction l as [|e l IH] using rev_ind; [constructor|]. rewrite Forall_app, Forall_singleton, orderly_snoc, finishes_snoc. intros [Hl He] [Ho Hnew].
  destruct (choice_of e He) as (i & Hi & _). rewrite Hi. destruct (is_type "choice_finished" e); [|rewrite app_nil_r; by apply IH].
  apply NoDup_app. split; [by apply IH|]. split; [|apply NoDup_singleton].
  intros x (f & Hf & Hff & Hx)%elem_finishes ->%list_elem_of_singleton. apply (Hnew f Hf Hff). congruence.
Qed.

(** The events of choices. *)
Lemma coalesced_body l k :
  (forall c, coalesced (view c l) (view c k)) -> Forall (fun e => ok e = true) l -> orderly l ->
  Forall (fun e => ok e = true) k /\ orderly k /\ length (finishes k) = length (finishes l).
Proof.
  intros Hc Hl Ho. assert (Hvl : forall c, Forall (fun e => ok e = true) (view c l)) by (intros c; by apply Forall_filter).
  pose proof (proj1 (orderly_views l Hl) Ho) as Hfl.
  assert (Hk : Forall (fun e => ok e = true) k).
  { apply Forall_forall. intros e He. assert (Hv : exists c, in_view c e) by (unfold in_view; destruct (int_field e "choice_index") as [c|];
    [by exists c|by exists 0]).
    destruct Hv as [c Hv]. pose proof (coalesced_ok _ _ (Hc c) (Hvl c)) as Hok. rewrite Forall_forall in Hok. apply Hok, view_elem. done. }
  assert (Hok : orderly k) by (apply (orderly_views k Hk); intros c; by apply (coalesced_finish_last (view c l))).
  split; [done|]. split; [done|]. apply Permutation_length, NoDup_Permutation; [by apply finishes_nodup..|].
  intros i. rewrite (finishes_view k), (finishes_view l). symmetry. by apply coalesced_finishes.
Qed.

(** An event of the whole stream stays where it is. *)
Definition whole (e : event) : Prop := get_int e "choice_index" = None.

Lemma whole_in_view c e : whole e -> in_view c e.
Proof. unfold whole, get_int, in_view, int_field. by destruct (dict_get e "choice_index") as [[]|]. Qed.

Lemma coalesced_whole l k x :
  (forall c, coalesced (view c (l ++ [x])) (view c k)) -> whole x -> mergeable x = false -> exists k', k = k' ++ [x] /\
    forall c, coalesced (view c l) (view c k').
Proof.
  intros Hc Hx Hm. assert (Hv : forall c l, view c (l ++ [x]) = view c l ++ [x]) by (intros c l'; rewrite view_app, view_in;
  [done|by apply whole_in_view]).
  assert (Hkeep : forall c, exists k', view c k = k' ++ [x] /\ coalesced (view c l) k') by (intros c; apply coalesced_snoc_keep;
  [by rewrite <- Hv|done]).
  destruct k as [|y k _] using rev_ind; [destruct (Hkeep 0) as (k' & Heq & _); by destruct k'|].
  assert (Hy : exists c, in_view c y) by (unfold in_view; destruct (int_field y "choice_index") as [c|]; [by exists c|by exists 0]).
  destruct Hy as [c Hy].
  destruct (Hkeep c) as (k' & Heq & _). rewrite view_app, (view_in c y Hy) in Heq. apply app_inj_tail in Heq as [_ ->].
  exists k. split; [done|]. intros c'. destruct (Hkeep c') as (k2 & Heq & Hco). rewrite Hv in Heq. apply app_inj_tail in Heq as [-> _]. done.
Qed.

Lemma not_mergeable t e : is_type t e = true -> t ∈ ["usage"; "completed"; "terminal_error"]%string -> mergeable e = false.
Proof.
  intros Ht Hin. pose proof (not_choice t e Ht Hin) as Hc. unfold is_choice in Hc. unfold mergeable. destruct (type_of e); [|done].
  by apply orb_false_iff in Hc as [? _].
Qed.

(** Events that concern the whole stream name no choice. *)
Definition scoped (e : event) : Prop := is_choice e = true \/ whole e.

Lemma coalesced_well_formed l k :
  (forall c, coalesced (view c l) (view c k)) -> Forall scoped l -> well_formed n chat logprobs l -> well_formed n chat logprobs k.
Proof.
  intros Hc Hs Hw. assert (Hwhole : forall t e, e ∈ l -> is_type t e = true -> t ∈ ["usage"; "completed"; "terminal_error"]%string -> whole e).
  { intros t e He Ht Hin. rewrite Forall_forall in Hs. destruct (Hs e He) as [Hch|]; [|done]. rewrite (not_choice t e Ht Hin) in Hch. done. }
  destruct Hw as [body Hb Ho|body u Hb Ho Hlen Hut Huv|body u z Hb Ho Hlen Hut Huv Hz].
  - destruct (coalesced_body body k Hc Hb Ho) as (Hk & Hok & _). by constructor.
  - destruct (coalesced_whole body k u Hc) as (k1 & -> & Hc1); [by apply (Hwhole "usage"%string); set_solver|apply (not_mergeable "usage");
    set_solver|].
    destruct (coalesced_body body k1 Hc1 Hb Ho) as (Hk & Hok & Hln). apply wf_usage; try done. by rewrite Hln.
  - rewrite snoc_two in Hc. destruct (coalesced_whole (body ++ [u]) k z Hc) as (k1 & ->
    & Hc1); [by apply (Hwhole "completed"%string); set_solver|apply (not_mergeable "completed"); set_solver|].
    destruct (coalesced_whole body k1 u Hc1) as (k2 & -> & Hc2); [by apply (Hwhole "usage"%string);
    set_solver|apply (not_mergeable "usage"); set_solver|].
    destruct (coalesced_body body k2 Hc2 Hb Ho) as (Hk & Hok & Hln). rewrite <- snoc_two. apply wf_completed; try done. by rewrite Hln.
Qed.
End coalesced.

(** ** Numbered events *)

Definition same (e e' : event) : Prop := forall k, k <> "sequence"%string -> k <> "version"%string -> dict_get e' k = dict_get e k.

Lemma stamp_same k e : same e (stamp k e).
Proof. intros x H1 H2. unfold stamp. by rewrite !dict_get_set_ne by congruence. Qed.

Section numbered.
Context (n : Z) (chat : bool) (logprobs : option Z).

Lemma same_type e e' : same e e' -> type_of e' = type_of e.
Proof. intros H. unfold type_of. by rewrite H. Qed.
Lemma same_int e e' k : same e e' -> k <> "sequence"%string -> k <> "version"%string -> get_int e' k = get_int e k.
Proof. intros H H1 H2. unfold get_int. by rewrite H. Qed.
Lemma same_has e e' k : same e e' -> k <> "sequence"%string -> k <> "version"%string -> has e' k = has e k.
Proof. intros H H1 H2. unfold has. by rewrite H. Qed.
Lemma same_is_type t e e' : same e e' -> is_type t e' = is_type t e.
Proof. intros H. unfold is_type. by rewrite (same_type e e'). Qed.

Lemma same_fields e e' : same e e' -> valid_delta_fields e' chat = valid_delta_fields e chat.
Proof.
  intros H. unfold valid_delta_fields. rewrite (same_type e e' H). destruct (type_of e) as [t|]; [|done]. cbn [forallb].
  rewrite !(H "finish_reason"%string), !(H "text"%string), !(H "arguments"%string), !(H "id"%string), !(H "name"%string) by done.
  by rewrite !(same_int e e' _ H), !(same_has e e' _ H) by done.
Qed.

Lemma same_ok e e' : same e e' -> choice_ok n chat logprobs e' = choice_ok n chat logprobs e.
Proof.
  intros H. unfold choice_ok. rewrite (same_fields e e' H), (same_int e e' _ H), (same_is_type _ e e' H) by done.
  unfold is_choice, valid_logprobs, wants_logprobs, valid_delta_logprobs, finish_reason_ok. rewrite (same_type e e' H), (same_has e e' _ H) by done.
  by rewrite !(H "logprobs"%string), !(H "token_ids"%string), !(H "finish_reason"%string) by done.
Qed.

Lemma same_usage e e' : same e e' -> valid_usage e' = valid_usage e.
Proof. intros H. unfold valid_usage. by rewrite !(same_int e e' _ H), (same_has e e' _ H) by done. Qed.

Lemma same_ok_all es es' : Forall2 same es es' -> Forall (fun e => choice_ok n chat logprobs e = true) es ->
    Forall (fun e => choice_ok n chat logprobs e = true) es'.
Proof. induction 1 as [|e e' es es' He _ IH]; [done|]. rewrite !Forall_cons. intros [Ho Hes]. split; [by rewrite (same_ok e e')|by apply IH]. Qed.

Lemma same_orderly es es' : Forall2 same es es' -> orderly es -> orderly es'.
Proof.
  intros H Ho pre f post -> Hf. apply Forall2_app_inv_r in H as (pre0 & tl & _ & H & ->).
  apply Forall2_cons_inv_r in H as (f0 & post0 & Hff & Hp & ->).
  rewrite (same_is_type _ f0 f Hff) in Hf. specialize (Ho pre0 f0 post0 eq_refl Hf). clear Hf. rewrite (same_int f0 f _ Hff) by done.
  induction Hp as [|e e' l l' He _ IH]; [done|]. apply Forall_cons in Ho as [H1 H2]. constructor; [by rewrite (same_int e e' _ He)|by apply IH].
Qed.

Lemma same_finishes es es' : Forall2 same es es' -> finishes es' = finishes es.
Proof.
  unfold finishes. induction 1 as [|e e' es es' He _ IH]; [done|]. cbn [omap list_omap].
  by rewrite (same_is_type _ e e' He), (same_int e e' _ He), IH by done.
Qed.

Lemma same_well_formed es es' : Forall2 same es es' -> well_formed n chat logprobs es -> well_formed n chat logprobs es'.
Proof.
  intros H Hw. destruct Hw as [body Hb Ho|body u Hb Ho Hlen Hut Huv|body u z Hb Ho Hlen Hut Huv Hz].
  - apply wf_body; [by apply (same_ok_all body)|by apply (same_orderly body)].
  - apply Forall2_app_inv_l in H as (b' & tl & Hb' & H & ->). apply Forall2_cons_inv_l in H as (u' & tl' & Hu & H & ->).
    apply Forall2_nil_inv_l in H as ->.
    apply wf_usage; [by apply (same_ok_all body)|by apply (same_orderly body)|by rewrite (same_finishes body)|by rewrite (same_is_type _
    u)|by rewrite (same_usage u)].
  - apply Forall2_app_inv_l in H as (b' & tl & Hb' & H & ->). apply Forall2_cons_inv_l in H as (u' & tl' & Hu & H & ->).
    apply Forall2_cons_inv_l in H as (z' & tl2 & Hz' & H & ->). apply Forall2_nil_inv_l in H as ->.
    apply wf_completed; [by apply (same_ok_all body)|by apply (same_orderly body)|by rewrite (same_finishes body)|by rewrite (same_is_type _
    u)|by rewrite (same_usage u)|by rewrite (same_is_type _ z)].
Qed.

(** The numbered stream. *)
Fixpoint number (k : Z) (es : list event) : list event :=
  match es with [] => [] | e :: es => stamp k e :: number (k + 1) es end.

Lemma number_same k es : Forall2 same es (number k es).
Proof. revert k. induction es as [|e es IH]; intros k; constructor; [apply stamp_same|apply IH]. Qed.

Lemma number_length k es : length (number k es) = length es.
Proof. symmetry. eapply Forall2_length, number_same. Qed.

Lemma number_app k es es' : number k (es ++ es') = number k es ++ number (k + Z.of_nat (length es)) es'.
Proof.
  revert k. induction es as [|e es IH]; intros k; simpl; [by rewrite Z.add_0_r|]. rewrite IH. do 3 f_equal. lia.
Qed.

Lemma number_lookup k es i e' : number k es !! i = Some e' -> exists e, e' = stamp (k + Z.of_nat i) e.
Proof.
  revert k i. induction es as [|e es IH]; intros k i; [done|]. destruct i as [|i]; simpl; [intros [= <-]; exists e; by rewrite Z.add_0_r|].
  intros (x & ->)%IH. exists x. f_equal. lia.
Qed.

Lemma number_sequenced es : sequenced (number 0 es).
Proof.
  intros i e' (e & ->)%number_lookup. unfold stamp. rewrite dict_get_set_eq, (dict_get_set_ne _ "version" "sequence"),
  dict_get_set_eq by done. simpl. by rewrite Z.eqb_refl.
Qed.

Lemma batch_number k es : (forall pre z post, es = pre ++ z :: post -> is_type "completed" z = true -> post = []) ->
    batch_of k es = (number k es, existsb (is_type "completed") es).
Proof.
  revert k. induction es as [|e es IH]; intros k Hl; [done|]. simpl. destruct (is_type "completed" e) eqn:Ee.
  - by rewrite (Hl [] e es eq_refl Ee).
  - rewrite IH; [done|]. intros pre z post -> Hz. by apply (Hl (e :: pre) z post).
Qed.
End numbered.

(** ** What is relied on of the engine *)

(** The log-probabilities of a position: numbers or minus infinity, distinct ranks from 1. *)
Definition position_ok (pos : position) : Prop :=
  Forall (fun item => finite_literal (lp item.2) || String.eqb (lp item.2) "-Infinity" = true) pos /\
  NoDup (omap (fun item => rank item.2) pos) /\ Forall (fun item => match rank item.2 with Some r => 1 <= r | None => True end) pos.
Definition choice_good (ch : choice) : Prop := match c_logprobs ch with Some ps => Forall position_ok ps | None => True end.
Definition output_ok (o : output) : Prop := Forall choice_good (outputs o).

(** ** Log-probabilities *)

Lemma as_event_as_dict e : as_event (as_dict e) = Some e.
Proof. unfold as_event, as_dict. induction e as [|[k v] e IH]; [done|]. rewrite fmap_cons. cbn [mapM]. rewrite IH. done. Qed.

Lemma entry_finite l : finite_literal (lp l) || String.eqb (lp l) "-Infinity" = true ->
    finite_literal (if String.eqb (lp l) "-Infinity" then "-9999.0" else lp l) = true.
Proof. destruct (String.eqb_spec (lp l) "-Infinity") as [E|]; [intros _; reflexivity|]. by rewrite orb_false_r. Qed.

Lemma logprob_entry_valid tid l extra :
  finite_literal (lp l) || String.eqb (lp l) "-Infinity" = true -> valid_logprob_entry (as_dict (logprob_entry tid l ++ extra)) = true.
Proof.
  intros Hf%entry_finite. unfold valid_logprob_entry. rewrite as_event_as_dict. unfold get_int.
  change (dict_get (logprob_entry tid l ++ extra) "token_id") with (Some (PInt tid)).
  change (dict_get (logprob_entry tid l ++ extra) "token") with (Some (PStr (default "" (decoded_token l)))).
  change (dict_get (logprob_entry tid l ++ extra) "logprob") with (Some (PFloat (if String.eqb (lp l) "-Infinity" then "-9999.0" else lp l))).
  cbn [is_str finite_number]. rewrite Hf. by rewrite bool_decide_eq_true_2 by eauto.
Qed.

Lemma sublist_omap {A B} (f : A -> option B) l k : l `sublist_of` k -> omap f l `sublist_of` omap f k.
Proof. induction 1 as [|x l k _ IH|x l k _ IH]; [done|..]; cbn [omap list_omap]; destruct (f x); try done; by constructor. Qed.

Lemma ranked_bound k pos : 0 <= k -> position_ok pos -> Z.of_nat (length (filter (fun item => ranked k item = true) pos)) <= k.
Proof.
  intros Hk (_ & Hnd & Hpos). rewrite Forall_forall in Hpos. set (l := filter _ pos).
  assert (Hl : forall x, x ∈ l -> ranked k x = true /\ x ∈ pos) by (intros x Hx; by apply list_elem_of_filter in Hx).
  assert (Hlen : length l = length (omap (fun item => rank item.2) l)).
  { clear -Hl. induction l as [|x l IH]; [done|]. cbn [omap list_omap length]. destruct (Hl x) as [Hx _]; [set_solver|].
    unfold ranked in Hx. destruct (rank x.2); [|done]. simpl. rewrite <- IH; [done|]. intros y Hy. apply Hl. set_solver. }
  assert (Hsub : omap (fun item => rank item.2) l ⊆+ seqZ 1 k).
  { apply NoDup_submseteq; [eapply sublist_NoDup; [exact Hnd|]; apply sublist_omap, sublist_filter|].
    intros r (x & Hx & Hr)%list_elem_of_omap. destruct (Hl x Hx) as [Hrk Hin].
    specialize (Hpos x Hin). unfold ranked in Hrk. rewrite Hr in Hrk, Hpos. apply elem_of_seqZ. lia. }
  apply submseteq_length in Hsub. rewrite length_seqZ in Hsub. lia.
Qed.

Lemma printable_entry tid l : printable (as_dict (logprob_entry tid l)) = true.
Proof. reflexivity. Qed.

Lemma position_entry_ok k tid pos v :
  0 <= k -> position_ok pos -> position_entry k tid pos = Ok v -> valid_logprob_position k (v, PInt tid) = true /\ printable v = true.
Proof.
  intros Hk Hpos. unfold position_entry. destruct (dict_get pos tid) as [l|] eqn:El; [|done]. set (top := py_sorted rank_lt _).
  set (tops := (fun item => as_dict (logprob_entry item.1 item.2)) <$> top).
  change (dict_set (logprob_entry tid l) "top" (PList tops)) with (logprob_entry tid l ++ [("top"%string, PList tops)]).
  set (entry := as_dict (logprob_entry tid l ++ _)). intros Hv. assert (v = entry) as -> by congruence. clear Hv.
  assert (Hfin : forall item, item ∈ pos -> finite_literal (lp item.2) || String.eqb (lp item.2) "-Infinity" = true) by (apply Forall_forall, Hpos).
  apply dict_get_elem in El. pose proof (ranked_bound k pos Hk Hpos) as Hb. assert (Htop : forall item, item ∈ top -> item ∈ pos).
  { intros item. unfold top. rewrite py_sorted_perm. by intros [_ ?]%list_elem_of_filter. }
  split.
  - unfold valid_logprob_position, entry. cbn [fst snd]. rewrite logprob_entry_valid by (by apply (Hfin (tid, l))).
    rewrite as_event_as_dict. unfold get_int.
    change (dict_get (logprob_entry tid l ++ [("top"%string, PList tops)]) "token_id") with (Some (PInt tid)).
    change (dict_get (logprob_entry tid l ++ [("top"%string, PList tops)]) "top") with (Some (PList tops)). cbn [py_num_eq andb].
    rewrite Z.eqb_refl. cbn [andb].
    apply andb_true_iff. split; [unfold tops; rewrite length_fmap; unfold top; rewrite py_sorted_length; lia|]. apply forallb_forall.
    intros x (item & -> & Hin)%list_elem_of_In%list_elem_of_fmap.
    rewrite <- (app_nil_r (logprob_entry item.1 item.2)). by apply logprob_entry_valid, Hfin, Htop.
  - assert (Hp : printable (PList tops) = true) by (rewrite printable_list; apply forallb_forall; intros x (item & ->
    & _)%list_elem_of_In%list_elem_of_fmap; apply printable_entry).
    unfold printable, is_ok in Hp |- *. unfold as_dict. simpl compact in *. destruct (mapM compact tops); done.
Qed.

Lemma delta_logprobs_ok k toks ps lps :
  0 <= k -> match ps with Some ps => Forall position_ok ps | None => True end -> delta_logprobs toks ps k = Ok lps ->
  length lps = length toks /\ forallb (valid_logprob_position k) (zip lps (PInt <$> toks)) = true /\ forallb printable lps = true.
Proof.
  intros Hk Hps. unfold delta_logprobs. destruct ps as [ps|]; [|done]. destruct (Nat.eqb_spec (length ps) (length toks)) as [Hlen|]; [|done].
  revert ps lps Hlen Hps. induction toks as [|t toks IH]; intros [|pos ps] lps Hlen Hps; try done; [by intros [= <-]|].
  apply Forall_cons in Hps as [Hpos Hps]. cbn [zip zip_with mapM fst snd].
  intros (v & Hv & (vs & Hvs & [= <-])%bind_Ok_inv)%bind_Ok_inv. destruct (position_entry_ok k t pos v Hk Hpos Hv) as [H1 H2].
  destruct (IH ps vs) as (H3 & H4 & H5); [simpl in Hlen; lia|done|done|].
  rewrite fmap_cons. cbn [zip zip_with forallb length]. rewrite H1, H2, H5, H3. split; [done|]. split; [exact H4|done].
Qed.

(** ** The pump *)

(** What the engine says in a choice. *)
Definition said (c : Z) (chs : list choice) : string := foldl (fun s ch => s ++ c_text ch)%string ""%string (filter (fun ch => index ch = c) chs).
Definition tokens (c : Z) (chs : list choice) : list Z := concat (token_ids <$> filter (fun ch => index ch = c) chs).
Definition content (es : list event) (chs : list choice) : Prop :=
  forall c, all_text "text" (view c es) = said c chs /\ all_items "token_ids" (view c es) = PInt <$> tokens c chs.

Lemma said_snoc c chs ch : said c (chs ++ [ch]) = if decide (index ch = c) then (said c chs ++ c_text ch)%string else said c chs.
Proof. unfold said. rewrite filter_app, filter_cons, filter_nil. case_decide; [by rewrite foldl_app|by rewrite app_nil_r]. Qed.
Lemma tokens_snoc c chs ch : tokens c (chs ++ [ch]) = if decide (index ch = c) then tokens c chs ++ token_ids ch else tokens c chs.
Proof. unfold tokens. rewrite filter_app, filter_cons, filter_nil.
  case_decide; [rewrite fmap_app, concat_app; simpl; by rewrite app_nil_r|by rewrite app_nil_r]. Qed.

Section pump.
Context (lim : limits) (pr : params).
Hypothesis top_k_nonneg : match top_k pr with Some k => 0 <= k | None => True end.
Abbreviation n := (n_choices pr).
Abbreviation ok := (choice_ok n false (top_k pr)).

Record pumping (p : pump) (es : list event) (chs : list choice) : Prop := {
  pu_counts : length (counts p) = Z.to_nat n;
  pu_nonneg : Forall (fun k => 0 <= k) (counts p);
  pu_ok : Forall (fun e => ok e = true) es;
  pu_orderly : orderly es;
  pu_finishes : finishes es = p_finished p;
  pu_prompt : match prompt_tokens p with Some k => 0 <= k | None => True end;
  pu_content : content es chs;
}.

Lemma delta_event_get ch lps k : dict_get (delta_event ch lps) k =
  if decide (k = "type"%string) then Some (PStr "delta") else if decide (k = "choice_index"%string) then Some (PInt (index ch)) else
  if decide (k = "text"%string) then Some (PStr (c_text ch)) else if decide (k = "token_ids"%string) then Some (PList (PInt <$> token_ids ch)) else
  if decide (k = "logprobs"%string) then PList <$> lps else None.
Proof. unfold delta_event. simpl. repeat case_decide; try done; destruct lps; simpl; first [done | by rewrite decide_True |
  by rewrite decide_False]. Qed.

Lemma lps_good ch lps :
  choice_good ch -> (match top_k pr with Some k => Some <$> delta_logprobs (token_ids ch) (c_logprobs ch) k | None => Ok None end) = Ok lps ->
  valid_logprobs (top_k pr) (delta_event ch lps) = true /\ match lps with Some l => forallb printable l = true | None => True end.
Proof.
  intros Hg. unfold valid_logprobs, wants_logprobs, has, type_of. rewrite !delta_event_get. simpl. destruct (top_k pr) as [k|].
  - destruct (delta_logprobs _ _ k) as [l|] eqn:El; [|done]. simpl. intros [= <-].
    destruct (delta_logprobs_ok k _ _ _ top_k_nonneg Hg El) as (H1 & H2 & H3). split; [|done].
    unfold valid_delta_logprobs. rewrite !delta_event_get. simpl. rewrite length_fmap, H1, Nat.eqb_refl. exact H2.
  - by intros [= <-].
Qed.

Lemma delta_event_wf ch lps : match lps with Some l => forallb printable l = true | None => True end -> wf_event (delta_event ch lps).
Proof.
  intros Hp. assert (Htoks : printable (PList (PInt <$> token_ids ch)) = true) by (rewrite printable_list; induction (token_ids ch); done).
  split.
  - unfold delta_event. destruct lps; apply (bool_decide_unpack _); vm_compute; exact I.
  - unfold delta_event, all_printable. apply Forall_app. split; [by repeat constructor|].
    destruct lps; constructor; [simpl; by rewrite printable_list|done].
  - intros key v Hkey. rewrite delta_event_get. unfold MERGED_KEYS in Hkey. rewrite !elem_of_cons in Hkey.
    destruct Hkey as [->|[->|[->|[->|Hn]]]]; [..|by apply elem_of_nil in Hn]; simpl; try by intros [= <-].
    destruct lps; simpl; by intros [= <-].
  - unfold fields_ok, mergeable, has, int_of, int_field, type_of. rewrite !delta_event_get. reflexivity.
  - done.
Qed.

Lemma finish_event_wf i r : wf_event (finish_event i r).
Proof.
  split; [apply (bool_decide_unpack _); vm_compute; exact I|by repeat constructor| |vm_compute; reflexivity|done].
  intros key v Hkey. unfold MERGED_KEYS in Hkey. rewrite !elem_of_cons in Hkey.
  destruct Hkey as [->|[->|[->|[->|Hn]]]]; [..|by apply elem_of_nil in Hn]; done.
Qed.

Lemma delta_event_ok ch lps : 0 <= index ch < n -> valid_logprobs (top_k pr) (delta_event ch lps) = true -> ok (delta_event ch lps) = true.
Proof.
  intros Hi Hl. unfold choice_ok. rewrite Hl. unfold is_choice, get_int, valid_delta_fields, is_type, type_of. rewrite !delta_event_get. simpl.
  by destruct (Z.leb_spec 0 (index ch)), (Z.ltb_spec (index ch) n); try lia.
Qed.

Lemma finish_event_ok i r : 0 <= i < n -> r ∈ ["stop"; "length"]%string -> ok (finish_event i r) = true.
Proof.
  intros Hi Hr. unfold choice_ok, get_int. change (dict_get (finish_event i r) "choice_index") with (Some (PInt i)). cbn iota.
  rewrite (proj2 (Z.leb_le 0 i)), (proj2 (Z.ltb_lt i n)) by lia.
  rewrite !elem_of_cons in Hr. destruct Hr as [->|[->|Hn]]; [reflexivity..|by apply elem_of_nil in Hn].
Qed.

(** *** One event more *)

Lemma pump_event p es chs e i :
  pumping p es chs -> ok e = true -> get_int e "choice_index" = Some i -> i ∉ p_finished p -> orderly (es ++ [e]) /\
  Forall (fun e => ok e = true) (es ++ [e]).
Proof.
  intros HP He Hi Hni. split; [|apply Forall_app; split; [apply HP|by constructor]]. apply orderly_snoc. split; [apply HP|].
  intros f Hf Hff Heq. apply Hni. rewrite <- (pu_finishes _ _ _ HP).
  apply elem_finishes. exists f. split; [done|]. split; [done|]. congruence.
Qed.

Lemma content_step es chs e ch :
  get_int e "choice_index" = Some (index ch) -> text_of "text" e = c_text ch -> items_of "token_ids" e = PInt <$> token_ids ch ->
  content es chs -> content (es ++ [e]) (chs ++ [ch]).
Proof.
  intros Hi Ht Hk Hc c. destruct (Hc c) as [H1 H2]. rewrite view_app, said_snoc, tokens_snoc. destruct (decide (index ch = c)) as [E|E].
  - rewrite view_in by (by apply (in_view_choice c e (index ch))). by rewrite all_text_snoc, all_items_snoc, H1, H2, Ht, Hk, fmap_app.
  - rewrite view_out, app_nil_r; [done|]. by rewrite (in_view_choice c e (index ch)).
Qed.

Lemma content_silent es chs e : text_of "text" e = ""%string -> items_of "token_ids" e = [] -> content es chs -> content (es ++ [e]) chs.
Proof.
  intros Ht Hk Hc c. destruct (Hc c) as [H1 H2]. rewrite view_app. destruct (decide (in_view c e)) as [Hin|Hout]; [|by rewrite view_out, app_nil_r].
  by rewrite view_in, all_text_snoc, all_items_snoc, H1, H2, Ht, Hk, append_empty, app_nil_r.
Qed.

Lemma content_empty es chs ch : c_text ch = ""%string -> token_ids ch = [] -> content es chs -> content es (chs ++ [ch]).
Proof.
  intros Ht Hk Hc c. destruct (Hc c) as [H1 H2]. rewrite said_snoc, tokens_snoc, Ht, Hk. case_decide; [|done]. by rewrite append_empty, app_nil_r.
Qed.

Lemma pump_delta p es chs ch lps :
  pumping p es chs -> 0 <= index ch < n -> index ch ∉ p_finished p -> valid_logprobs (top_k pr) (delta_event ch lps) = true ->
  pumping p (es ++ [delta_event ch lps]) (chs ++ [ch]).
Proof.
  intros HP Hi Hni Hl. assert (Hget : get_int (delta_event ch lps) "choice_index" = Some (index ch)) by (unfold get_int; by rewrite delta_event_get).
  destruct (pump_event p es chs (delta_event ch lps) (index ch) HP (delta_event_ok ch lps Hi Hl) Hget Hni) as [Ho Hok]. split; try apply HP; try done.
  - rewrite finishes_snoc. unfold is_type, type_of. rewrite delta_event_get. simpl. rewrite app_nil_r. apply HP.
  - apply content_step; [done|unfold text_of; by rewrite delta_event_get|unfold items_of; by rewrite delta_event_get|apply HP].
Qed.

Lemma pump_finish p es chs i r :
  pumping p es chs -> 0 <= i < n -> i ∉ p_finished p -> r ∈ ["stop"; "length"]%string ->
  pumping (Pump (counts p) (p_finished p ++ [i]) (prompt_tokens p)) (es ++ [finish_event i r]) chs.
Proof.
  intros HP Hi Hni Hr. destruct (pump_event p es chs (finish_event i r) i HP (finish_event_ok i r Hi Hr) eq_refl Hni) as [Ho Hok].
  split; try apply HP; try done.
  - rewrite finishes_snoc. simpl. by rewrite (pu_finishes _ _ _ HP).
  - by apply content_silent, HP.
Qed.

Lemma pump_silent p es chs ch : c_text ch = ""%string -> token_ids ch = [] -> pumping p es chs -> pumping p es (chs ++ [ch]).
Proof. intros Ht Hk HP. split; try apply HP. by apply content_empty, HP. Qed.

Lemma pump_count p es chs i k : pumping p es chs -> 0 <= k -> pumping (Pump (<[i := k]> (counts p)) (p_finished p) (prompt_tokens p)) es chs.
Proof.
  intros HP Hk. split; try apply HP; simpl; [rewrite length_insert; apply HP|]. apply Forall_insert; [apply HP|done].
Qed.

Lemma choice_events_pumping p es chs ch p' new :
  pumping p es chs -> choice_good ch -> choice_events pr p ch = Ok (p', new) -> pumping p' (es ++ new) (chs ++ [ch]) /\ Forall wf_event new.
Proof.
  intros HP Hg. unfold choice_events. intros (_ & [[H1 H2]%andb_true_iff H3]%check_Ok_inv%andb_true_iff & (_ & _ & (_ & Hr%check_Ok_inv &
  (lps & Hlps & Hrest)%bind_Ok_inv)%bind_Ok_inv)%bind_Ok_inv)%bind_Ok_inv.
  apply negb_true_iff, bool_decide_eq_false in H3. apply Z.leb_le in H1. apply Z.ltb_lt in H2. rewrite (pu_counts _ _ _ HP) in H2.
  assert (Hi : 0 <= index ch < n) by lia.
  destruct (lps_good ch lps Hg Hlps) as [Hl Hp]. set (cnt := nth _ _ _ + _) in Hrest. assert (Hcnt : 0 <= cnt).
  { unfold cnt. pose proof (pu_nonneg _ _ _ HP) as Hn. assert (0 <= nth (Z.to_nat (index ch)) (counts p) 0); [|lia].
    destruct (nth_in_or_default (Z.to_nat (index ch)) (counts p) 0) as [Hin|Hd]; [|lia]. rewrite Forall_forall in Hn. by apply Hn, list_elem_of_In. }
  apply (pump_count p es chs (Z.to_nat (index ch)) cnt) in HP; [|done]. set (p1 := Pump _ _ _) in HP.
  set (deltas := if _ || _ then _ else _) in Hrest.
  assert (Hd : pumping p1 (es ++ deltas) (chs ++ [ch]) /\ Forall wf_event deltas).
  { unfold deltas. destruct (String.eqb_spec (c_text ch) "") as [Ht|]; [destruct (Nat.eqb_spec (length (token_ids ch)) 0) as [Hk|]|]; cbn [negb orb].
    - rewrite app_nil_r. split; [|done]. apply pump_silent; [done|by apply nil_length_inv|done].
    - split; [by apply pump_delta|constructor; [by apply delta_event_wf|done]].
    - split; [by apply pump_delta|constructor; [by apply delta_event_wf|done]]. }
  destruct Hd as [Hd Hw]. destruct (finish_reason ch) as [r|]; injection Hrest as <- <-; [|done]. apply bool_decide_eq_true in Hr.
  rewrite app_assoc. split; [by apply (pump_finish p1)|].
  apply Forall_app. split; [done|]. constructor; [apply finish_event_wf|done].
Qed.
End pump.

(** ** The tasks at the buffer *)

Section tasks.
Context (lim : limits) (pr : params).
Hypothesis lim_pos : 0 <= max_buffer_events lim /\ 0 <= max_buffer_bytes lim.

Lemma append_keeps b e b' : append lim b e = Ok b' -> error b' = error b /\ finished b' = finished b.
Proof. unfold append. intros (sz & _ & (_ & _ & (_ & _ & (o & _ & [= <-])%bind_Ok_inv)%bind_Ok_inv)%bind_Ok_inv)%bind_Ok_inv. done. Qed.

Lemma merge_keeps b e b' : merge lim b e = Ok (Some b') -> error b' = error b /\ finished b' = finished b.
Proof.
  unfold merge. intros (c & _ & H)%bind_Ok_inv. destruct (dict_get (open_deltas b) c); [|done]. destruct (negb _); [done|].
  apply bind_Ok_inv in H as ([[m g]|] & _ & H); [|done].
  destruct (_ <? _); [done|]. by apply bind_Ok_inv in H as (_ & _ & [= <-]).
Qed.

Lemma put_keeps b e b' : put lim b e = Ok b' -> error b' = error b /\ finished b' = finished b.
Proof.
  unfold put. intros ([b1|] & Hm & H)%bind_Ok_inv; [|by apply (append_keeps b e)]. injection H as <-.
  destruct (mergeable e); [by apply (merge_keeps b e)|done].
Qed.

(** Codes that go with their source. *)
Definition f_ok (f : string * option string) : Prop :=
  if String.eqb f.1 "context_length_exceeded" then match f.2 with Some s => s ∈ CONTEXT_LIMIT_SOURCES | None => False end else f.2 = None.
Definition exn_ok (x : exn) : Prop := f_ok (failure_of x).
Definition err_ok (e : stream_error) : Prop := f_ok (code e, context_limit_source e) /\ param e = None.

Lemma put_raise ps pops b e x : reach lim b ps pops -> wf_event e -> put lim b e = Raise x -> exn_ok x.
Proof.
  intros Hr He Hp. pose proof (put_outcome lim lim_pos ps pops b e (reach_inv lim lim_pos b ps pops Hr) He) as H. rewrite Hp in H.
  by destruct H as [->| ->].
Qed.

Lemma puts_reach es : forall b ps pops b' o,
  Forall wf_event es -> reach lim b ps pops -> puts lim b es = (b', o) ->
  exists new, reach lim b' (ps ++ new) pops /\ error b' = error b /\ finished b' = finished b /\
    match o with None => new = es | Some x => exn_ok x end.
Proof.
  induction es as [|e es IH]; intros b ps pops b' o Hw Hr; simpl; [intros [= <- <-]; exists []; by rewrite app_nil_r|].
  apply Forall_cons in Hw as [He Hw].
  destruct (put lim b e) as [b1|x] eqn:Ep; [|intros [= <- <-]; exists []; rewrite app_nil_r; by pose proof (put_raise ps pops b e x Hr He Ep)].
  intros Hp. destruct (IH b1 (ps ++ [e]) pops b' o Hw) as (new & Hn & He' & Hf & Ho); [by eapply re_put|done|].
  destruct (put_keeps b e b1 Ep) as [H1 H2].
  exists (e :: new). rewrite <- app_assoc in Hn. split; [done|]. split; [congruence|]. split; [congruence|]. destruct o; [done|by rewrite Ho].
Qed.

Lemma mapM_raise {A B} (f : A -> res B) l x : mapM (M := res) f l = Raise x -> exists y, y ∈ l /\ f y = Raise x.
Proof.
  induction l as [|y l IH]; [done|]. cbn [mapM]. destruct (f y) as [v|z] eqn:Ef; [|intros [= <-]; exists y; set_solver]. cbn [mbind res_bind].
  destruct (mapM f l) as [vs|z] eqn:El; [done|]. cbn [mbind res_bind]. intros [= ->]. destruct IH as (y' & Hin & Hy); [done|]. exists y'. set_solver.
Qed.

Lemma delta_logprobs_raise toks ps k x : delta_logprobs toks ps k = Raise x -> x = stream_exn "invalid_engine_output".
Proof.
  unfold delta_logprobs. destruct ps as [ps|]; [|by intros [= <-]]. destruct (_ =? _)%nat; [|by intros [= <-]].
  intros (y & _ & Hy)%mapM_raise. unfold position_entry in Hy.
  destruct (dict_get y.2 y.1); [done|by injection Hy as <-].
Qed.

Lemma choice_events_raise p ch x : choice_events pr p ch = Raise x -> exn_ok x.
Proof.
  unfold choice_events. destruct (_ && _); cbn [check mbind res_bind]; [|by intros [= <-]].
  destruct (_ <=? max_tokens pr); cbn [check mbind res_bind]; [|by intros [= <-]].
  destruct (match finish_reason ch with Some _ => _ | None => _ end); cbn [check mbind res_bind]; [|by intros [= <-]].
  destruct (top_k pr) as [k|]; [destruct (delta_logprobs _ _ k) eqn:E; cbn [fmap res_fmap mbind res_bind]|cbn [mbind res_bind]];
  [by destruct (finish_reason ch)| |by destruct (finish_reason ch)].
  intros [= <-]. by rewrite (delta_logprobs_raise _ _ _ _ E).
Qed.

Hypothesis top_k_nonneg : match top_k pr with Some k => 0 <= k | None => True end.

Lemma on_choices_reach chs : forall p b ps pops done p' b' o,
  Forall choice_good chs -> pumping pr p ps done -> reach lim b ps pops -> on_choices lim pr p b chs = (p', b', o) ->
  exists ps', reach lim b' ps' pops /\ error b' = error b /\ finished b' = finished b /\
    match o with None => pumping pr p' ps' (done ++ chs) | Some x => exn_ok x end.
Proof.
  induction chs as [|ch chs IH]; intros p b ps pops chs0 p' b' o Hg HP Hr; simpl; [intros [= <- <- <-]; exists ps; by rewrite app_nil_r|].
  apply Forall_cons in Hg as [Hch Hg].
  destruct (choice_events pr p ch) as [[p1 es]|x] eqn:Ec; [|intros [= <- <- <-]; exists ps; by pose proof (choice_events_raise p ch x Ec)].
  destruct (choice_events_pumping pr top_k_nonneg p ps chs0 ch p1 es HP Hch Ec) as [HP1 Hw]. destruct (puts lim b es) as [b1 o1] eqn:Ep.
  destruct (puts_reach es b ps pops b1 o1 Hw Hr Ep) as (new & Hn & He & Hf & Ho).
  destruct o1 as [x|]; [intros [= <- <- <-]; by exists (ps ++ new)|]. subst new.
  intros Hrest. destruct (IH p1 b1 (ps ++ es) pops (chs0 ++ [ch]) p' b' o Hg HP1 Hn Hrest) as (ps' & H1 & H2 & H3 & H4). exists ps'.
  rewrite <- app_assoc in H4. split_and!; [done|congruence|congruence|done].
Qed.

Lemma on_output_reach p b ps pops chs o p' b' r :
  output_ok o -> pumping pr p ps chs -> reach lim b ps pops -> on_output lim pr p b o = (p', b', r) ->
  exists ps', reach lim b' ps' pops /\ error b' = error b /\ finished b' = finished b /\
    match r with None => pumping pr p' ps' (chs ++ outputs o) | Some x => exn_ok x end.
Proof.
  intros Hok HP Hr. unfold on_output. destruct (on_prompt pr p o) as [p1|x] eqn:Eo.
  - apply on_choices_reach with (ps := ps); [done| |done]. unfold on_prompt in Eo. destruct (prompt_token_ids o) as [ids|]; [|by injection Eo as <-].
    apply bind_Ok_inv in Eo as (_ & _ & [= <-]). split; try apply HP. apply Nat2Z.is_nonneg.
  - intros [= <- <- <-]. exists ps. split_and!; try done. unfold on_prompt in Eo. destruct (prompt_token_ids o); [|done].
    destruct (negb _); [done|]. injection Eo as <-. unfold exn_ok, f_ok. simpl. apply list_elem_of_further, list_elem_of_here.
Qed.

Lemma fail_reach b ps pops f :
  reach lim b ps pops -> f_ok f -> (forall e, error b = Some e -> err_ok e) ->
  reach lim (failed b f) ps pops /\ finished (failed b f) = finished b /\ exists e, error (failed b f) = Some e /\ err_ok e.
Proof.
  intros Hr Hf He. unfold failed. assert (Hfail : exists b', fail b f.1 f.2 None = Ok b' /\ finished b' = finished b /\
  exists e, error b' = Some e /\ err_ok e).
  { unfold fail. destruct (error b) as [e|] eqn:Ee; cbn [mbind res_bind]; [eexists; split; [done|]; split; [done|]; exists e; split;
    [done|by apply He]|].
    unfold f_ok in Hf. unfold StreamError. cbn [check mbind res_bind]. destruct (String.eqb f.1 "context_length_exceeded") eqn:Ec.
    - destruct f.2 as [src|] eqn:Es; [|done]. rewrite bool_decide_eq_true_2 by done. cbn [check mbind res_bind]. eexists. split; [done|].
      split; [done|]. eexists. split; [done|]. split; [|done]. unfold f_ok. simpl. by rewrite Ec.
    - rewrite Hf. cbn [check mbind res_bind]. eexists. split; [done|]. split; [done|]. eexists. split; [done|]. split; [|done]. unfold f_ok.
      simpl. by rewrite Ec. }
  destruct Hfail as (b' & Hb & Hfin & He'). rewrite Hb. split; [by eapply re_fail|]. done.
Qed.

Lemma drain_reach fuel : forall b ps pops es b',
  (length (events b) <= fuel)%nat -> error b = None -> reach lim b ps pops -> drain_loop fuel b = (es, b') ->
  reach lim b' ps (pops ++ es) /\ events b' = [] /\ error b' = None /\ finished b' = finished b.
Proof.
  induction fuel as [|fuel IH]; intros b ps pops es b' Hlen He Hr; simpl.
  - intros [= <- <-]. rewrite app_nil_r. split_and!; try done. destruct (events b); [done|simpl in Hlen; lia].
  - rewrite He. destruct (pop b) as [[e b1]|] eqn:Ep.
    + destruct (drain_loop fuel b1) as [es1 b2] eqn:Ed. intros [= <- <-]. pose proof (re_pop lim b ps pops e b1 Hr Ep) as Hr1.
      assert (Hk : (length (events b1) <= fuel)%nat /\ error b1 = None /\
      finished b1 = finished b) by (unfold pop in Ep; destruct (events b); [done|]; injection Ep as _ <-; simpl in *; split; [lia|done]).
      destruct Hk as (Hk1 & Hk2 & Hk3). destruct (IH b1 ps (pops ++ [e]) es1 b2 Hk1 Hk2 Hr1 Ed) as (H1 & H2 & H3 & H4).
      rewrite <- app_assoc in H1. split_and!; try done. congruence.
    + intros [= <- <-]. rewrite app_nil_r. split_and!; try done. unfold pop in Ep. by destruct (events b).
Qed.

(** Taking everything that is there. *)
Lemma take_all b ps pops e b1 more b2 :
  reach lim b ps pops -> get b = GotEvent e b1 -> drain b1 = (more, b2) ->
  reach lim b2 ps (pops ++ e :: more) /\ evs b2 = [] /\ error b = None /\ error b2 = None /\ finished b2 = finished b.
Proof.
  intros Hr Hg Hd. unfold get in Hg. destruct (error b) eqn:Ee; [done|]. destruct (pop b) as [[e' b']|] eqn:Ep; [|by destruct (finished b)].
  injection Hg as -> ->.
  assert (Hk : error b1 = None /\ finished b1 = finished b) by (unfold pop in Ep; destruct (events b); [done|]; by injection Ep as _ <-).
  destruct (drain_reach _ b1 ps (pops ++ [e]) more b2 (le_n _) (proj1 Hk) (re_pop lim b ps pops e b1 Hr Ep) Hd) as (H1 & H2 & H3 & H4).
  rewrite <- app_assoc in H1.
  split; [done|]. split; [unfold evs; by rewrite H2|]. split_and!; try done. destruct Hk. congruence.
Qed.
End tasks.

(** ** The session *)

Section session.
Context (lim : limits) (pr : params).
Hypothesis lim_pos : 0 <= max_buffer_events lim /\ 0 <= max_buffer_bytes lim.
Hypothesis top_k_nonneg : match top_k pr with Some k => 0 <= k | None => True end.
Abbreviation n := (n_choices pr).
Abbreviation wf := (well_formed n false (top_k pr)).

Definition choices (outs : list output) : list choice := concat (outputs <$> outs).
Definition completes (e : event) : Prop := is_type "completed" e = true.
Definition no_completed (l : list event) : Prop := Forall (fun e => is_type "completed" e = false) l.

(** What the pump has put when it has ended. *)
Definition ended (ps : list event) (chs : list choice) : Prop :=
  wf ps /\ Forall scoped ps /\ content ps chs /\ exists l z, ps = l ++ [z] /\ completes z /\ whole z.

Record session_inv (s : session) (ps : list event) : Prop := {
  si_reach : reach lim (s_buf s) ps (popped s);
  si_wf : wf (popped s);
  si_run : running s = true -> pumping pr (s_pump s) ps (choices (taken s));
  si_end : running s = false -> error (s_buf s) = None -> ended ps (choices (taken s));
  si_stop : stopped s = true -> error (s_buf s) <> None;
  si_fin : finished (s_buf s) = true -> running s = false;
  si_err : forall e, error (s_buf s) = Some e -> err_ok e;
  si_seq : sequence s = Z.of_nat (length (popped s));
  si_sent :
    if returned s then
      (running s = false /\ sent s = number 0 (popped s) /\ (exists z, last (popped s) = Some z /\ completes z) /\
        content (popped s) (choices (taken s))) \/
      (exists e, err_ok e /\ sent s = number 0 (popped s) ++ [terminal_event (sequence s) e] /\ no_completed (popped s))
    else sent s = number 0 (popped s) /\ no_completed (popped s);
}.

(** *** What has been put arrives *)

Lemma pumping_emitted p ps chs : pumping pr p ps chs -> wf ps /\ Forall scoped ps /\ content ps chs.
Proof.
  intros HP. split; [apply wf_body; apply HP|]. split; [|apply HP]. eapply Forall_impl; [apply (pu_ok _ _ _ _ HP)|]. simpl. intros e He.
  left. by eapply choice_type.
Qed.

Lemma emitted_taken b ps pops :
  reach lim b ps pops -> error b = None -> wf ps -> Forall scoped ps -> (forall c, coalesced (view c ps) (view c (pops ++ evs b))) /\
  wf (pops ++ evs b).
Proof.
  intros Hr He Hw Hs. pose proof (i_content _ _ _ _ (reach_inv lim lim_pos b ps pops Hr) He) as Hc. split; [done|]. by eapply coalesced_well_formed.
Qed.

Lemma content_coalesced l k chs : (forall c, coalesced (view c l) (view c k)) -> content l chs -> content k chs.
Proof.
  intros Hc Hl c. destruct (Hl c) as [H1 H2]. destruct (coalesced_content _ _ (Hc c)) as [Hk _].
  destruct (Hk "text"%string) as [Ht _]; [unfold MERGED_KEYS; set_solver|].
  destruct (Hk "token_ids"%string) as [_ Hi]; [unfold MERGED_KEYS; set_solver|]. by rewrite Ht, Hi, H1, H2.
Qed.

Lemma completed_last l pre z post : wf l -> l = pre ++ z :: post -> completes z -> post = [].
Proof.
  intros Hw Heq Hz. assert (Hnb : forall body, Forall (fun e => choice_ok n false (top_k pr) e = true) body -> z ∈ body -> False).
  { intros body Hb Hin. rewrite Forall_forall in Hb. specialize (Hb z Hin). apply choice_type in Hb.
    rewrite (not_choice "completed" z Hz) in Hb by set_solver. done. }
  destruct Hw as [body Hb Ho|body u Hb Ho Hlen Hut Huv|body u y Hb Ho Hlen Hut Huv Hy].
  - exfalso. apply (Hnb body Hb). rewrite Heq. set_solver.
  - destruct post as [|x post _] using rev_ind; [done|]. rewrite app_comm_cons, app_assoc in Heq. apply app_inj_tail in Heq as [-> _].
    exfalso. apply (Hnb _ Hb). set_solver.
  - destruct post as [|x post _] using rev_ind; [done|]. rewrite app_comm_cons, app_assoc, snoc_two in Heq. apply app_inj_tail in Heq as [Heq _].
    destruct post as [|x' post _] using rev_ind; [|rewrite app_comm_cons, app_assoc in Heq; apply app_inj_tail in Heq as [-> _]; exfalso;
    apply (Hnb _ Hb); set_solver].
    apply app_inj_tail in Heq as [_ <-]. by pose proof (type_excl _ _ _ Hut Hz).
Qed.

Lemma existsb_completed l : existsb (is_type "completed") l = false <-> no_completed l.
Proof. unfold no_completed. induction l as [|e l IH]; [by split|]. simpl. rewrite orb_false_iff, Forall_cons, IH. done. Qed.

Lemma body_no_completed l : Forall (fun e => choice_ok n false (top_k pr) e = true) l -> no_completed l.
Proof.
  intros Hl. eapply Forall_impl; [exact Hl|]. simpl. intros e He%choice_type. apply not_true_is_false. intros Hz.
  rewrite (not_choice "completed" e Hz) in He by set_solver. done.
Qed.

(** *** The steps of the pump *)

Lemma orderly_nil : orderly [].
Proof. intros pre f post Heq. by destruct pre. Qed.

Lemma session_init_inv : session_inv (session_init pr) [].
Proof.
  split; simpl; try done; [apply re_init|apply wf_body; [done|apply orderly_nil]| |split; [done|constructor]].
  intros _. split; simpl; try done; [by rewrite length_replicate|apply Forall_replicate; lia|apply orderly_nil].
Qed.

Lemma pump_fails_inv s ps ps' p b f :
  session_inv s ps -> running s = true -> reach lim b ps' (popped s) -> error b = error (s_buf s) -> f_ok f -> forall outs,
  session_inv (Session p (failed b f) false (sequence s) (pending_sequence s) true (returned s) (stopped s) (registered s) outs (popped s)
  (sent s)) ps'.
Proof.
  intros [Hr Hw Hrun Hend Hst Hfin Herr Hseq Hsent] Hrunning Hb He Hf outs.
  assert (Heb : forall e, error b = Some e -> err_ok e) by (rewrite He; exact Herr).
  destruct (fail_reach lim b ps' (popped s) f Hb Hf Heb) as (H1 & H2 & e & H3 & H4). split; simpl; try done.
  - intros _ Hn. congruence.
  - intros _. congruence.
  - intros e' He'. congruence.
  - destruct (returned s); [|done]. destruct Hsent as [(Hx & _)|Hx]; [congruence|by right].
Qed.

Lemma pump_output_inv s ps o : session_inv s ps -> running s = true -> output_ok o -> exists ps2, session_inv (pump_output lim pr s o) ps2.
Proof.
  intros HS Hrunning Hok. unfold pump_output. simpl. destruct (on_output lim pr (s_pump s) (s_buf s) o) as [[p b] r] eqn:Eo.
  destruct (on_output_reach lim pr lim_pos top_k_nonneg _ _ ps (popped s) (choices (taken s)) o p b r Hok (si_run _ _ HS Hrunning) (si_reach
  _ _ HS) Eo) as (ps' & H1 & H2 & H3 & H4).
  assert (Hch : choices (taken s ++ [o]) = choices (taken s) ++ outputs o) by (unfold choices; rewrite fmap_app, concat_app; simpl;
  by rewrite app_nil_r).
  destruct r as [x|].
  - exists ps'. by apply (pump_fails_inv s ps).
  - exists ps'. destruct HS as [Hr Hw Hrun Hend Hst Hfin Herr Hseq Hsent]. split; simpl; try done.
    + intros _. by rewrite Hch.
    + rewrite H2. exact Hst.
    + rewrite H3. intros Hf. specialize (Hfin Hf). congruence.
    + rewrite H2. exact Herr.
    + destruct (returned s); [|done]. destruct Hsent as [(Hx & _)|Hx]; [congruence|by right].
Qed.

(** The last two events. *)
Lemma whole_wf t rest : dict_get rest "choice_index" = None -> Forall (fun kv => exists z, kv.2 = PInt z) rest ->
    NoDup ("type"%string :: dict_keys rest) ->
  (forall key, key ∈ MERGED_KEYS -> dict_get rest key = None) -> t ∈ ["usage"; "completed"]%string -> wf_event (("type"%string, PStr t) :: rest).
Proof.
  intros Hc Hv Hnd Hm Ht. assert (Hget : forall k, k <> "type"%string ->
  dict_get (("type"%string, PStr t) :: rest) k = dict_get rest k) by (intros k Hk; simpl; by rewrite decide_False by congruence). split.
  - exact Hnd.
  - constructor; [done|]. eapply Forall_impl; [exact Hv|]. simpl. by intros kv [z ->].
  - intros key v Hkey. rewrite Hget, Hm; [done|done|]. intros ->. revert Hkey. apply not_merged. reflexivity.
  - assert (Hty : type_of (("type"%string, PStr t) :: rest) = Some t) by reflexivity. unfold fields_ok, mergeable, has. rewrite Hty, Hget, Hc by done.
    rewrite !elem_of_cons in Ht. destruct Ht as [->|[->|Hn]]; [reflexivity..|by apply elem_of_nil in Hn].
  - done.
Qed.

Lemma usage_event_wf k m : wf_event (usage_event k m).
Proof.
  apply whole_wf; [done|by repeat (constructor; [by eexists|])|apply (bool_decide_unpack _); vm_compute; exact I| |set_solver].
  intros key Hkey. unfold MERGED_KEYS in Hkey. rewrite !elem_of_cons in Hkey.
  by destruct Hkey as [->|[->|[->|[->|Hn]]]]; [..|by apply elem_of_nil in Hn].
Qed.
Lemma completed_event_wf : wf_event completed_event.
Proof. apply whole_wf; [done|constructor|apply (bool_decide_unpack _); vm_compute; exact I|done|set_solver]. Qed.

Lemma sum_nonneg l : Forall (fun k => 0 <= k) l -> 0 <= sumZ l.
Proof. intros H. by apply sumZ_nonneg. Qed.

Lemma pumping_ended p ps chs k :
  1 <= n -> pumping pr p ps chs -> prompt_tokens p = Some k -> length (p_finished p) = length (counts p) ->
    ended (ps ++ [usage_event k (sumZ (counts p)); completed_event]) chs.
Proof.
  intros Hn HP Hk Hlen. pose proof (pu_prompt _ _ _ _ HP) as Hp. rewrite Hk in Hp. pose proof (sum_nonneg _ (pu_nonneg _ _ _ _ HP)) as Hs.
  split; [|split; [|split]].
  - apply wf_completed; try apply HP; try done.
    + rewrite (pu_finishes _ _ _ _ HP), Hlen, (pu_counts _ _ _ _ HP). lia.
    + unfold valid_usage, get_int. simpl. rewrite !(proj2 (Z.leb_le 0 _)) by lia. by rewrite Z.eqb_refl.
  - apply Forall_app. split; [apply (pumping_emitted p ps chs HP)|]. constructor; [by right|]. constructor; [by right|done].
  - rewrite snoc_two. apply content_silent; [done|done|]. apply content_silent; [done|done|apply HP].
  - exists (ps ++ [usage_event k (sumZ (counts p))]), completed_event. by rewrite snoc_two.
Qed.

Lemma on_end_reach s ps closed b r :
  1 <= n -> session_inv s ps -> running s = true -> on_end lim (s_pump s) (s_buf s) closed = (b, r) ->
  exists ps', reach lim b ps' (popped s) /\ error b = error (s_buf s) /\ match r with None => ended ps' (choices (taken s)) | Some x => exn_ok x end.
Proof.
  intros Hn HS Hrun. pose proof (si_run _ _ HS Hrun) as HP. pose proof (si_reach _ _ HS) as Hr. unfold on_end.
  destruct (prompt_tokens (s_pump s)) as [k|] eqn:Ek; [|intros [= <- <-]; by exists ps].
  destruct (Nat.eqb_spec (length (p_finished (s_pump s))) (length (counts (s_pump s)))) as [Hlen|]; cbn [negb]; [|intros [= <- <-]; by exists ps].
  destruct closed; cbn [negb]; [|intros [= <- <-]; by exists ps]. destruct (error (s_buf s)) as [e|] eqn:Ee.
  - intros [= <- <-]. exists ps. split_and!; try done. destruct (si_err _ _ HS e Ee) as [He _]. unfold exn_ok.
    destruct (context_limit_source e); exact He.
  - intros Hp. assert (Hw : Forall wf_event [usage_event k (sumZ (counts (s_pump s))); completed_event]) by (constructor;
    [apply usage_event_wf|constructor; [apply completed_event_wf|done]]).
    destruct (puts_reach lim lim_pos _ (s_buf s) ps (popped s) b r Hw Hr Hp) as (new & H1 & H2 & _ & H4).
    exists (ps ++ new). split; [done|]. split; [congruence|]. destruct r; [done|]. subst new. by apply pumping_ended.
Qed.

Lemma pump_end_inv s ps closed : 1 <= n -> session_inv s ps -> running s = true -> exists ps2, session_inv (pump_end lim s closed) ps2.
Proof.
  intros Hn HS Hrun. unfold pump_end. destruct (on_end lim (s_pump s) (s_buf s) closed) as [b r] eqn:Ee.
  destruct (on_end_reach s ps closed b r Hn HS Hrun Ee) as (ps' & H1 & H2 & H3).
  exists ps'. destruct r as [x|]; [by apply (pump_fails_inv s ps)|]. destruct HS as [Hr Hw Hru Hend Hst Hfin Herr Hseq Hsent]. split; simpl; try done.
  - by apply re_finish.
  - rewrite H2. exact Hst.
  - rewrite H2. exact Herr.
  - destruct (returned s); [|done]. destruct Hsent as [(Hx & _)|Hx]; [congruence|by right].
Qed.

Lemma classify_ok x : f_ok (classify_engine_error x).
Proof.
  unfold classify_engine_error. repeat match goal with |- context [if ?b then _ else _] => destruct b end; first [reflexivity |
  apply list_elem_of_here].
Qed.

Lemma stop_inv s ps c : session_inv s ps -> c ∈ STOP_CODES -> session_inv (stop s c) ps.
Proof.
  intros HS Hc. unfold stop. destruct (stopped s) eqn:Est; [done|]. destruct HS as [Hr Hw Hru Hend Hst Hfin Herr Hseq Hsent].
  assert (Hf : f_ok (c, None)) by (unfold STOP_CODES in Hc; rewrite !elem_of_cons in Hc; destruct Hc as [->|[->|[->|[->|Hn]]]];
  [reflexivity..|by apply elem_of_nil in Hn]).
  destruct (fail_reach lim (s_buf s) ps (popped s) (c, None) Hr Hf Herr) as (H1 & H2 & e & H3 & H4). split; simpl; try done.
  - intros _ Hn. congruence.
  - intros _. congruence.
  - by rewrite H2.
  - intros e' He'. congruence.
Qed.

Lemma release_inv s ps : session_inv s ps -> session_inv (release s) ps.
Proof.
  intros HS. unfold release. destruct (stopped s) eqn:Est; [|done]. destruct HS as [Hr Hw Hru Hend Hst Hfin Herr Hseq Hsent]. split; simpl; try done.
  - intros _ He. by destruct (Hst Est).
  - intros _. by apply Hst.
  - destruct (returned s); [|done]. destruct Hsent as [(_ & Hx)|Hx]; [by left|by right].
Qed.

Lemma acknowledge_inv s ps k : session_inv s ps -> session_inv (acknowledge s k).1 ps.
Proof.
  intros HS. unfold acknowledge. destruct (negb (registered s)); [done|]. case_bool_decide; [|done]. destruct HS. by split.
Qed.

(** *** The steps of the reader *)

Lemma emitted s ps : session_inv s ps -> error (s_buf s) = None -> wf ps /\ Forall scoped ps /\ content ps (choices (taken s)).
Proof.
  intros HS He. destruct (running s) eqn:Er; [eapply pumping_emitted, (si_run _ _ HS Er)|].
  destruct (si_end _ _ HS Er He) as (H1 & H2 & H3 & _). done.
Qed.

Lemma reader_batch s ps e b more b2 :
  session_inv s ps -> returned s = false -> get (s_buf s) = GotEvent e b -> drain b = (more, b2) ->
  let P := popped s ++ e :: more in
  let batch := number (sequence s) (e :: more) in
  let completed := existsb (is_type "completed") (e :: more) in
  batch_of (sequence s) (e :: more) = (batch, completed) /\
  session_inv (Session (s_pump s) b2 (running s) (sequence s + Z.of_nat (length batch)) (Some (sequence s + Z.of_nat (length batch) - 1))
  false completed (stopped s)
    (registered s && negb completed) (taken s) P (sent s ++ batch)) ps.
Proof.
  intros HS Hret Hg Hd P batch completed. destruct (take_all lim (s_buf s) ps (popped s) e b more b2 (si_reach _ _ HS) Hg Hd) as (H1 & H2 &
  He & He2 & Hf).
  destruct (emitted s ps HS He) as (Hw & Hsc & Hct). destruct (emitted_taken b2 ps P H1 He2 Hw Hsc) as [Hco HwP]. rewrite H2, app_nil_r in Hco, HwP.
  assert (Hlast : forall pre z post, e :: more = pre ++ z :: post -> is_type "completed" z = true -> post = []).
  { intros pre z post Heq Hz. apply (completed_last P (popped s ++ pre) z post HwP); [unfold P; by rewrite Heq, app_assoc|done]. }
  split; [by apply batch_number|]. assert (Hlen : length batch = length (e :: more)) by apply number_length.
  pose proof HS as [Hr Hwf Hru Hend Hst Hfin Herr Hseq Hsent]. rewrite Hret in Hsent. destruct Hsent as [Hsent Hnc].
  assert (Hnum : sent s ++ batch = number 0 P) by (unfold P, batch; rewrite number_app, Hsent, Hseq; done).
  split; cbn [s_pump s_buf running sequence pending_sequence acked returned stopped registered taken popped sent]; try done.
  - intros Hr0 _. by apply Hend.
  - rewrite He2. intros Hs _. by destruct (Hst Hs).
  - by rewrite Hf.
  - rewrite He2. done.
  - unfold P. rewrite Hseq, Hlen, length_app. lia.
  - destruct completed eqn:Ec; [left|].
    + assert (Hnr : running s = false).
      { apply not_true_is_false. intros Hrun. destruct (coalesced_body n false (top_k pr) ps P Hco (pu_ok _ _ _ _ (Hru Hrun)) (pu_orderly _
        _ _ _ (Hru Hrun))) as [Hok _].
        apply body_no_completed in Hok. apply Forall_app in Hok as [_ Hok]. apply existsb_completed in Hok. unfold completed in Ec. congruence. }
      split; [done|]. split; [done|]. split; [|by apply (content_coalesced ps)]. apply existsb_exists in Ec as (z & Hin & Hz).
      apply list_elem_of_In, list_elem_of_split in Hin as (pre & post & Heq).
      exists z. split; [|done]. unfold P. rewrite Heq, (Hlast pre z post Heq Hz), app_assoc. apply last_snoc.
    + split; [done|]. apply Forall_app. split; [done|]. by apply existsb_completed.
Qed.

Lemma reader_turn_inv s ps : session_inv s ps -> session_inv (reader_turn s) ps.
Proof.
  intros HS. unfold reader_turn. destruct (returned s) eqn:Er; [done|]. destruct (acked s); [|done]. cbn [negb orb].
  destruct (get (s_buf s)) as [e|e b| |] eqn:Eg; [| | |done].
  - destruct HS as [Hr Hw Hru Hend Hst Hfin Herr Hseq Hsent]. rewrite Er in Hsent. destruct Hsent as [Hs Hnc]. split; simpl; try done.
    right. exists e. split; [|by rewrite Hs].
    apply Herr. unfold get in Eg. destruct (error (s_buf s)); [by injection Eg as <-|]. destruct (pop (s_buf s)) as [[]|]; [done|].
    by destruct (finished (s_buf s)).
  - destruct (drain b) as [more b2] eqn:Ed. destruct (reader_batch s ps e b more b2 HS Er Eg Ed) as [Hb Hi]. rewrite Hb. exact Hi.
  - exfalso. unfold get in Eg. destruct (error (s_buf s)) eqn:Ee; [done|]. destruct (pop (s_buf s)) as [[]|] eqn:Ep; [done|].
    destruct (finished (s_buf s)) eqn:Ef; [|done].
    destruct (si_end _ _ HS (si_fin _ _ HS Ef) Ee) as (Hw & Hsc & _ & l & z & -> & Hz & Hwh).
    destruct (emitted_taken (s_buf s) _ (popped s) (si_reach _ _ HS) Ee Hw Hsc) as [Hco _].
    assert (Hev : evs (s_buf s) = []) by (unfold evs, pop in *; by destruct (events (s_buf s))). rewrite Hev, app_nil_r in Hco.
    destruct (coalesced_whole l (popped s) z Hco Hwh) as (k & Hk & _); [apply (not_mergeable "completed"); [done|set_solver]|].
    pose proof (si_sent _ _ HS) as Hs. rewrite Er in Hs. destruct Hs as [_ Hnc].
    unfold no_completed in Hnc. rewrite Hk, Forall_app, Forall_singleton in Hnc. destruct Hnc as [_ Hnc]. unfold completes in Hz. congruence.
Qed.

Definition wevent_ok (ev : wevent) : Prop := match ev with WOutput o => output_ok o | _ => True end.

Lemma run_inv evs : 1 <= n -> Forall wevent_ok evs -> exists ps, session_inv (run lim pr evs) ps.
Proof.
  intros Hn Hok. unfold run. induction evs as [|ev evs IH] using rev_ind; [exists []; apply session_init_inv|].
  apply Forall_app in Hok as [Hok [Hev _]%Forall_cons]. destruct (IH Hok) as [ps HS].
  rewrite foldl_app. set (s := foldl _ _ _) in *. simpl. destruct ev as [o|x|closed|c| | |k]; simpl in *.
  - destruct (running s) eqn:Er; [by eapply pump_output_inv|by exists ps].
  - destruct (running s) eqn:Er; [|by exists ps]. exists ps. apply (pump_fails_inv s ps); try done; [apply HS|apply classify_ok].
  - destruct (running s) eqn:Er; [by eapply pump_end_inv|by exists ps].
  - case_bool_decide; [|by exists ps]. exists ps. by apply stop_inv.
  - exists ps. by apply release_inv.
  - exists ps. by apply reader_turn_inv.
  - exists ps. by apply acknowledge_inv.
Qed.
End session.

(** ** The client at the other end *)

Section delivery.
Context (lim : limits) (pr : params) (rid status : string).
Hypothesis lim_pos : 0 <= max_buffer_events lim /\ 0 <= max_buffer_bytes lim.
Hypothesis n_pos : 1 <= n_choices pr.
Hypothesis top_k_nonneg : match top_k pr with Some k => 0 <= k | None => True end.
Abbreviation n := (n_choices pr).
Abbreviation reads := (read_all n false (top_k pr) rid client_init).

Lemma terminal_read es c e :
  follows n false (top_k pr) es c -> closed c = false -> err_ok e ->
  exists c' o, read n false (top_k pr) rid c (RDict (terminal_event (Z.of_nat (length es)) e)) status = (c', Some (Ok o)) /\
    closed c' = true /\ released c' = 1%nat /\ c_error c' = Some (code e).
Proof.
  intros Hf Hcl [Hok Hp]. destruct (follows_end _ _ _ es c Hf) as (He & Hr & _). destruct Hf as [Hn (_ & Hd & _) _ _]. rewrite Hcl in Hr.
  unfold read, accept_event. rewrite He, Hd, Hcl.
  assert (Hnum : numbered c (terminal_event (Z.of_nat (length es)) e) = true) by (unfold numbered; simpl; rewrite Hn;
  by rewrite Z.eqb_refl). rewrite Hnum. cbn [negb].
  change (type_of (terminal_event (Z.of_nat (length es)) e)) with (Some "terminal_error"%string). cbn [String.eqb Ascii.eqb Bool.eqb].
  unfold accept_terminal.
  change (dict_get (terminal_event (Z.of_nat (length es)) e) "code") with (Some (PStr (code e))). cbn iota beta zeta.
  assert (Hv : valid_terminal (terminal_event (Z.of_nat (length es)) e) (Some (PStr (code e))) = true).
  { unfold valid_terminal, has. unfold f_ok in Hok. simpl in Hok. unfold terminal_event. rewrite Hp.
    destruct (String.eqb (code e) "context_length_exceeded").
    - destruct (context_limit_source e) as [src|]; [|done]. simpl. by rewrite bool_decide_eq_true_2.
    - by rewrite Hok. }
  rewrite Hv. cbn [negb]. unfold abort. change (closed (advance c)) with (closed c). rewrite Hcl. unfold finish. simpl. rewrite Hr.
  eexists _, _. split; [reflexivity|]. done.
Qed.

Lemma content_same es es' chs : Forall2 same es es' -> content es chs -> content es' chs.
Proof.
  intros Hs Hc c. destruct (Hc c) as [H1 H2]. assert (Hv : Forall2 same (view c es) (view c es')).
  { clear -Hs. induction Hs as [|e e' es es' He _ IH]; [constructor|]. unfold view in *. rewrite !filter_cons.
    assert (Hiff : in_view c e' <-> in_view c e) by (unfold in_view, int_field; by rewrite (He "choice_index"%string)).
    destruct (decide (in_view c e)) as [Hi|Hi]; [rewrite decide_True by (by apply Hiff);
    by constructor|rewrite decide_False by (by rewrite Hiff); done]. }
  rewrite <- H1, <- H2. clear -Hv. split.
  - unfold all_text. enough (Hx : forall s0, foldl (fun s e => s ++ text_of "text" e)%string s0 (view c es') = foldl (fun s e => s ++
    text_of "text" e)%string s0 (view c es)) by apply Hx.
    induction Hv as [|e e' l l' He _ IH]; intros s; [done|]. cbn [foldl]. rewrite IH.
    by replace (text_of "text" e') with (text_of "text" e) by (unfold text_of; by rewrite (He "text"%string)).
  - unfold all_items. induction Hv as [|e e' l l' He _ IH]; [done|]. csimpl. rewrite IH.
    by replace (items_of "token_ids" e') with (items_of "token_ids" e) by (unfold items_of; by rewrite (He "token_ids"%string)).
Qed.

Lemma numbered_read l : well_formed n false (top_k pr) l -> exists c, reads (number 0 l) status = Some c /\ follows n false (top_k pr) (number 0 l) c.
Proof. intros Hw. apply well_formed_read; [by apply (same_well_formed n false (top_k pr) l), Hw; apply number_same|apply number_sequenced]. Qed.

Lemma last_same l k e : last (number k l) = Some e -> exists e0, last l = Some e0 /\ same e0 e.
Proof.
  destruct l as [|x l _] using rev_ind; [done|]. rewrite number_app. simpl. rewrite !last_snoc. intros [= <-]. exists x.
  split; [done|apply stamp_same].
Qed.

Lemma session_read s ps :
  session_inv lim pr s ps ->
  exists c, reads (sent s) status = Some c /\ closed c = returned s /\ released c = (if returned s then 1 else 0)%nat /\
    (returned s = true -> c_error c = None -> content (sent s) (choices (taken s))).
Proof.
  intros HS. destruct (numbered_read (popped s) (si_wf _ _ _ _ HS)) as (c & Hc & Hf).
  destruct (follows_end _ _ _ _ _ Hf) as (He & Hr & Hcl). pose proof (si_sent _ _ _ _ HS) as Hs.
  assert (Hopen : no_completed (popped s) -> closed c = false).
  { intros Hnc. apply not_true_is_false. intros (e & Hl & Hz)%Hcl. apply last_same in Hl as (e0 & Hl & Hsame).
    apply last_Some_elem_of in Hl. unfold no_completed in Hnc. rewrite Forall_forall in Hnc.
    specialize (Hnc e0 Hl). rewrite (same_is_type "completed" e0 e Hsame) in Hz. congruence. }
  destruct (returned s).
  - destruct Hs as [(Hrun & -> & (z & Hz & Hzc) & Hct)|(e & Hok & -> & Hnc)].
    + exists c. assert (Hclosed : closed c = true).
      { apply Hcl. apply last_Some in Hz as (l & Hl). rewrite Hl, number_app. simpl. rewrite last_snoc. eexists. split; [reflexivity|].
        by rewrite (same_is_type "completed" z _ (stamp_same _ z)). }
      rewrite Hclosed in Hr. split_and!; try done. intros _ _. by apply (content_same (popped s)), Hct; apply number_same.
    + rewrite (si_seq _ _ _ _ HS), <- (number_length 0 (popped s)).
      destruct (terminal_read _ c e Hf (Hopen Hnc) Hok) as (c' & o & Hread & H1 & H2 & H3).
      exists c'. rewrite read_all_app, Hc. cbn [mbind option_bind]. rewrite Hread. split_and!; try done. intros _. congruence.
  - destruct Hs as [-> Hnc]. exists c. rewrite (Hopen Hnc) in Hr. by rewrite (Hopen Hnc).
Qed.

(** *** The end *)

(** Who waits for an acknowledgement can get it. *)
Definition awaiting (s : session) : Prop := (acked s = false -> is_Some (pending_sequence s)) /\ (registered s = false ->
    returned s = true \/ stopped s = true).

Lemma run_awaiting evs : awaiting (run lim pr evs).
Proof.
  unfold run. induction evs as [|ev evs IH] using rev_ind; [by split|]. rewrite foldl_app. set (s := foldl _ _ _) in *. clearbody s. simpl.
  pose proof IH as [H1 H2]. destruct ev as [o|x|closed|c| | |k]; simpl.
  - destruct (running s); [|done]. unfold pump_output. simpl. destruct (on_output _ _ _ _ _) as [[p b] [x|]]; by split.
  - destruct (running s); [by split|done].
  - destruct (running s); [|done]. unfold pump_end. destruct (on_end _ _ _ _) as [b [x|]]; by split.
  - case_bool_decide; [|done]. unfold stop. destruct (stopped s); [done|]. split; [done|]. by right.
  - unfold release. destruct (stopped s) eqn:E; [|done]. split; [done|]. by right.
  - unfold reader_turn. destruct (returned s || negb (acked s)) eqn:Er; [done|]. apply orb_false_iff in Er as [Er _].
    destruct (get (s_buf s)) as [e|e b| |]; [split; [done|by left]| |split; [done|by left]|done].
    destruct (drain b) as [more b2]. destruct (batch_of (sequence s) (e :: more)) as [batch completed]. split; simpl; [by eexists|].
    intros [Hx|Hx]%andb_false_iff; [|left; by destruct completed].
    destruct (H2 Hx) as [|Hst]; [congruence|by right].
  - unfold acknowledge. destruct (negb (registered s)) eqn:Eg; [done|]. apply negb_false_iff in Eg.
    case_bool_decide; [split; [done|simpl; congruence]|done].
Qed.

Lemma reader_finishes s ps :
  session_inv lim pr s ps -> running s = false -> error (s_buf s) = None -> returned s = false -> acked s = true ->
  returned (reader_turn s) = true /\ error (s_buf (reader_turn s)) = None.
Proof.
  intros HS Hrun He Hret Hack. destruct (si_end _ _ _ _ HS Hrun He) as (Hw & Hsc & _ & l & z & -> & Hz & Hwh).
  destruct (emitted_taken lim pr lim_pos (s_buf s) _ (popped s) (si_reach _ _ _ _ HS) He Hw Hsc) as [Hco _].
  destruct (coalesced_whole l _ z Hco Hwh) as (k & Hk & _); [apply (not_mergeable "completed"); [done|set_solver]|].
  pose proof (si_sent _ _ _ _ HS) as Hs. rewrite Hret in Hs. destruct Hs as [_ Hnc].
  pose proof (reader_turn_inv lim pr lim_pos top_k_nonneg s _ HS) as HS'. pose proof (si_sent _ _ _ _ HS') as Hs'. revert HS' Hs'.
  unfold reader_turn. rewrite Hret, Hack. cbn [negb orb].
  destruct (get (s_buf s)) as [e|e b| |] eqn:Eg.
  1: { unfold get in Eg. rewrite He in Eg. destruct (pop (s_buf s)) as [[]|]; [done|]. by destruct (finished (s_buf s)). }
  1: { destruct (drain b) as [more b2] eqn:Ed. destruct (take_all lim (s_buf s) _ (popped s) e b more b2 (si_reach _ _ _ _ HS) Eg Ed) as (H1
    & H2 & _ & He2 & _).
    destruct (emitted_taken lim pr lim_pos b2 _ _ H1 He2 Hw Hsc) as [Hco2 _]. rewrite H2, app_nil_r in Hco2.
    destruct (coalesced_whole l _ z Hco2 Hwh) as (k2 & Hk2 & _); [apply (not_mergeable "completed"); [done|set_solver]|].
    destruct (batch_of (sequence s) (e :: more)) as [batch completed]. cbn [returned s_buf popped]. intros _. destruct completed; [done|].
    intros [_ Hn]. exfalso.
    unfold no_completed in Hn. rewrite Hk2, Forall_app, Forall_singleton in Hn. destruct Hn as [_ Hn]. unfold completes in Hz. congruence. }
  all: exfalso; assert (Hev : evs (s_buf s) = []) by (unfold evs, get, pop in *; rewrite He in Eg; by destruct (events (s_buf s)));
    rewrite Hev, app_nil_r in Hk;
    unfold no_completed in Hnc; rewrite Hk, Forall_app, Forall_singleton in Hnc; destruct Hnc as [_ Hnc]; unfold completes in Hz; congruence.
Qed.

Lemma ack_ready s : awaiting s -> returned s = false -> stopped s = false -> exists k, acked (wstep lim pr s (WAck k)) = true /\
  s_buf (wstep lim pr s (WAck k)) = s_buf s /\ running (wstep lim pr s (WAck k)) = running s /\ returned (wstep lim pr s (WAck k)) = false.
Proof.
  intros [H1 H2] Hret Hst. destruct (registered s) eqn:Eg; [|destruct (H2 eq_refl); congruence]. simpl. unfold acknowledge. rewrite Eg. cbn [negb].
  destruct (acked s) eqn:Ea; [|destruct (H1 eq_refl) as [k Hk]; exists k; by rewrite bool_decide_eq_true_2].
  exists 0. case_bool_decide; done.
Qed.

Lemma run_app evs ev : run lim pr (evs ++ [ev]) = wstep lim pr (run lim pr evs) ev.
Proof. unfold run. by rewrite foldl_app. Qed.

Lemma run_finishes evs :
  Forall wevent_ok evs -> running (run lim pr evs) = false -> error (s_buf (run lim pr evs)) = None -> returned (run lim pr evs) = false ->
  exists k, returned (run lim pr (evs ++ [WAck k; WRead])) = true /\ error (s_buf (run lim pr (evs ++ [WAck k; WRead]))) = None.
Proof.
  intros Hok Hrun He Hret. destruct (run_inv lim pr lim_pos top_k_nonneg evs n_pos Hok) as [ps HS].
  assert (Hst : stopped (run lim pr evs) = false) by (apply not_true_is_false; intros Hx; by destruct (si_stop _ _ _ _ HS Hx)).
  destruct (ack_ready _ (run_awaiting evs) Hret Hst) as (k & H1 & H2 & H3 & H4). exists k. rewrite snoc_two, run_app, run_app.
  apply (reader_finishes _ ps); [by apply acknowledge_inv|by rewrite H3|by rewrite H2|done|done].
Qed.
End delivery.

(** C9: whatever the schedule (what the engine yields or raises, when the reader reads and acknowledges,
    when the watchdog or an abort stops the session), the client
    accepts every event that the worker has sent; it has closed, giving its counters back exactly once,
    exactly when the worker's reader has returned; and when it has
    closed without an error, the text and the tokens it has received for each choice are those the engine has yielded, in order. *)
Theorem stream_delivers lim pr rid status evs :
  0 <= max_buffer_events lim /\ 0 <= max_buffer_bytes lim -> 1 <= n_choices pr -> match top_k pr with Some k => 0 <= k | None => True end ->
    Forall wevent_ok evs ->
  let s := run lim pr evs in
  exists c, read_all (n_choices pr) false (top_k pr) rid client_init (sent s) status = Some c /\ closed c = returned s /\
    released c = (if returned s then 1 else 0)%nat /\
    (returned s = true -> c_error c = None -> forall i,
       all_text "text" (view i (sent s)) = said i (choices (taken s)) /\
       all_items "token_ids" (view i (sent s)) = PInt <$> tokens i (choices (taken s))).
Proof.
  intros Hlim Hn Hk Hok s. destruct (run_inv lim pr Hlim Hk evs Hn Hok) as [ps HS]. by apply (session_read lim pr rid status s ps).
Qed.

(** C28: a session whose pump has ended without an error is finished by one acknowledgement and one read,
    however much is still in the buffer: then the reader has
    returned and there is no error, so that everything has been sent. *)
Theorem stream_finishes lim pr evs :
  0 <= max_buffer_events lim /\ 0 <= max_buffer_bytes lim -> 1 <= n_choices pr -> match top_k pr with Some k => 0 <= k | None => True end ->
    Forall wevent_ok evs ->
  running (run lim pr evs) = false -> error (s_buf (run lim pr evs)) = None ->
  returned (run lim pr evs) = true \/
  exists k, let s := run lim pr (evs ++ [WAck k; WRead]) in returned s = true /\ error (s_buf s) = None.
Proof.
  intros Hlim Hn Hk Hok Hrun He. destruct (returned (run lim pr evs)) eqn:Er; [by left|right]. by apply run_finishes.
Qed.

(** ** A small session *)

Module MiniSession.
Definition pr : params := Params 2 8 false (Some 1) 32.
Definition lim : limits := Limits 4 1000 400.
Definition say (i : Z) (s : string) (t : Z) (fin : option string) : choice := Choice i s [t] fin (Some [[(t,
    Logprob "-0.5" (Some 1) (Some s)); (9, Logprob "-Infinity" (Some 2) None)]]).
Definition out1 : output := Output (Some [1; 2; 3]) [say 0 "He" 4 None; say 1 "a" 5 (Some "stop"%string)].
Definition out2 : output := Output None [say 0 "llo" 6 None].
Definition out3 : output := Output None [say 0 "!" 7 (Some "length"%string)].
Definition evs0 : list wevent := [WOutput out1; WRead; WOutput out2; WAck 2; WOutput out3; WEnd true].

Lemma outs_ok : Forall wevent_ok evs0.
Proof.
  assert (Hsay : forall i s t fin, choice_good (say i s t fin)).
  { intros i s t fin. unfold choice_good, say. simpl. constructor; [|done]. split; [repeat constructor|].
    split; [apply (bool_decide_unpack _); vm_compute; exact I|]. repeat constructor; simpl; lia. }
  repeat first [apply Hsay | constructor].
Defined.

(** The reader takes the three events of the first output; then the delta of the third output joins that of the second one in the buffer. *)
Lemma stream_delivers_witness :
  exists c, read_all 2 false (Some 1) "r" client_init (sent (run lim pr (evs0 ++ [WRead]))) "stopped" = Some c /\ closed c = true /\
    length (sent (run lim pr (evs0 ++ [WRead]))) = 7%nat /\
    all_text "text" (view 0 (sent (run lim pr (evs0 ++ [WRead])))) = "Hello!"%string.
Proof.
  destruct (stream_delivers lim pr "r" "stopped" (evs0 ++ [WRead])) as (c & Hc & Hcl & _ & Hct); [simpl; lia|simpl; lia|simpl;
  lia|apply Forall_app; split; [apply outs_ok|by repeat constructor]|].
  assert (Hret : returned (run lim pr (evs0 ++ [WRead])) = true) by (vm_compute; reflexivity). exists c. split; [exact Hc|].
  split; [by rewrite Hcl|]. split; [vm_compute; reflexivity|].
  assert (He : c_error c = None) by (vm_compute in Hc; by injection Hc as <-). rewrite (proj1 (Hct Hret He 0)). vm_compute. reflexivity.
Defined.

Lemma stream_finishes_witness : exists k, returned (run lim pr (evs0 ++ [WAck k; WRead])) = true.
Proof.
  destruct (stream_finishes lim pr evs0) as [Hr|(k & Hk & _)]; [simpl; lia|simpl; lia|simpl; lia|apply outs_ok|vm_compute;
  reflexivity|vm_compute; reflexivity|by vm_compute in Hr|by exists k].
Defined.
End MiniSession.
