(* ===== verification/SuffixCache.v ===== *)
(** * The cache of suffix decoding

    Source: [src/arctic_platform/inference/suffix_decoding/cache.py].

    The cache keeps one suffix tree per active request and a global tree of responses.  In the
    global tree a response is known by an int32 sequence id; two dictionaries translate between
    request ids and sequence ids.

    The tree itself is C++; here it is an interface ([SuffixTree]) of which the cache needs to
    know only the token sequences a tree holds.  Its methods take int32 tokens: a Python sequence
    with another value raises TypeError when it is converted ([csrc/suffix_decoding/bindings.cc]),
    which in [start_request] happens after the request was entered.  Scores of drafts are compared
    by a given function.

    [acache] is the specification: a list of (request, response) in the order of admission from
    which the oldest are dropped. *)

From stdpp Require Import prelude strings list gmap.
From Stdlib Require Import ZArith Lia.
From S2P Require Import Prelude Dict.
Local Open Scope Z_scope.

(** ** The tree *)

(** [P] are the further parameters of a speculation, [D] the drafts. *)
Class SuffixTree (T P D : Type) := {
  new_tree : Z -> T;
  extend : T -> Z -> list Z -> T;
  tree_remove : T -> Z -> T;
  tree_speculate : T -> list Z -> Z -> P -> D;
}.

Class SuffixTreeLaws (T P D : Type) `{SuffixTree T P D} := {
  tree_seqs : T -> gmap Z (list Z);
  new_tree_seqs d : tree_seqs (new_tree d) = ∅;
  extend_seqs t s l : tree_seqs (extend t s l) = if decide (l = []) then tree_seqs t else <[s := default [] (tree_seqs t !! s) ++ l]> (tree_seqs t);
  remove_seqs t s : tree_seqs (tree_remove t s) = delete s (tree_seqs t);
}.

(** Token ids as the methods get them: a numpy array or another sequence. *)
Inductive tokens_arg :=
  | NdArray (ndim : nat) (dtype : string) (contiguous : bool) (data : list Z)
  | PySeq (data : list Z).

Definition arg_data (a : tokens_arg) : list Z := match a with NdArray _ _ _ d => d | PySeq d => d end.

Definition validate_ndarray (a : tokens_arg) : res unit :=
  match a with
  | NdArray ndim dtype contiguous _ =>
      check (ndim =? 1)%nat (ValueError "ndarray input must have ndim=1");;
      check (String.eqb dtype "int32") (ValueError "ndarray input must have dtype=int32");;
      check contiguous (ValueError "ndarray input must be contiguous")
  | PySeq _ => Ok ()
  end.

Definition int32_mask : Z := 0x7FFFFFFF.

Definition is_int32 (x : Z) : bool := (- 2 ^ 31 <=? x) && (x <? 2 ^ 31).

(** Whether the tokens can be given to the tree: an int32 array is passed as it is, the elements
    of another sequence are converted to int32. *)
Definition fits_int32 (a : tokens_arg) : bool := match a with NdArray _ _ _ _ => true | PySeq l => forallb is_int32 l end.

(** ** The cache *)

Section cache.
Context {R T P D S : Type} `{!EqDecision R} {tree_ops : SuffixTree T P D}.
Context (score : D -> S) (score_ge : S -> S -> bool).

Record cache := Cache {
  max_tree_depth : Z;
  max_cached_requests : Z;
  global_tree : T;
  local_trees : list (R * T);
  req_to_seq_id : list (R * Z);
  seq_to_req_id : list (Z * R);
  next_seq_id : Z;
}.

Definition cache_init (depth max_cached : Z) : res cache :=
  check (max_cached <=? int32_mask) (ValueError "max_cached_requests must be at most 2^31");;
  Ok (Cache depth max_cached (new_tree depth) [] [] [] 0).

Definition active_requests (c : cache) : list R := dict_keys (local_trees c).
Definition cached_requests (c : cache) : list R := dict_keys (req_to_seq_id c).

Definition with_local (c : cache) l : cache :=
  Cache (max_tree_depth c) (max_cached_requests c) (global_tree c) l (req_to_seq_id c) (seq_to_req_id c) (next_seq_id c).
Definition with_global (c : cache) t r2s s2r : cache :=
  Cache (max_tree_depth c) (max_cached_requests c) t (local_trees c) r2s s2r (next_seq_id c).
Definition with_next (c : cache) n : cache :=
  Cache (max_tree_depth c) (max_cached_requests c) (global_tree c) (local_trees c) (req_to_seq_id c) (seq_to_req_id c) n.

Definition is_active (c : cache) (r : R) : bool := bool_decide (is_Some (dict_get (local_trees c) r)).
Definition is_cached (c : cache) (r : R) : bool := bool_decide (is_Some (dict_get (req_to_seq_id c) r)).

(** [pop] of a key that must be there. *)
Definition must {A} (o : option A) : res A := match o with Some a => Ok a | None => Raise (KeyError "pop") end.

Definition evict_cached_response (c : cache) (r : R) : res cache :=
  match dict_get (req_to_seq_id c) r with
  | None => Raise (ValueError "Request is not cached")
  | Some s =>
      must (dict_get (seq_to_req_id c) s);;
      Ok (with_global c (tree_remove (global_tree c) s) (dict_del (req_to_seq_id c) r) (dict_del (seq_to_req_id c) s))
  end.

(** A sequence id is free for a new request unless an active request has it. *)
Definition seq_free (c : cache) (s : Z) : bool :=
  match dict_get (seq_to_req_id c) s with Some r => negb (is_active c r) | None => true end.

(** [while True]: the id found and the next one; [None] when [fuel] ids in a row are taken. *)
Fixpoint find_seq_id (fuel : nat) (c : cache) (next : Z) : option (Z * Z) :=
  match fuel with
  | O => None
  | Datatypes.S fuel =>
      let next' := Z.land (next + 1) int32_mask in
      if seq_free c next then Some (next, next') else find_seq_id fuel c next'
  end.

(** [for req_id, seq_id in self._req_to_seq_id.items(): if seq_id != new_seq_id: ...; break]. *)
Definition first_other (c : cache) (new : Z) : option R := fst <$> (snd <$> list_find (fun rs : R * Z => rs.2 <> new) (req_to_seq_id c)).

(** [while len(self._req_to_seq_id) > self._max_cached_requests]; every round evicts one. *)
Fixpoint evict_loop (fuel : nat) (c : cache) (new : Z) : res cache :=
  if Z.of_nat (length (req_to_seq_id c)) <=? max_cached_requests c then Ok c
  else match fuel with
       | O => Raise (RuntimeError "no progress")
       | Datatypes.S fuel =>
           match first_other c new with
           | Some r => c ← evict_cached_response c r; evict_loop fuel c new
           | None => evict_loop fuel c new
           end
       end.

Definition maybe_evict_requests (c : cache) (new : Z) : res cache :=
  if max_cached_requests c <? 0 then Ok c
  else check (negb (max_cached_requests c =? 0)) (AssertionError "self._max_cached_requests != 0");;
       evict_loop (length (req_to_seq_id c)) c new.

Definition generate_seq_id (c : cache) (r : R) : res (cache * Z) :=
  match find_seq_id (Datatypes.S (length (seq_to_req_id c))) c (next_seq_id c) with
  | None => Raise (RuntimeError "no progress")
  | Some (s, next) =>
      let c := with_next c next in
      c ← (match dict_get (seq_to_req_id c) s with
           | Some old => must (dict_get (req_to_seq_id c) old);;
               Ok (with_global c (tree_remove (global_tree c) s) (dict_del (req_to_seq_id c) old) (dict_del (seq_to_req_id c) s))
           | None => Ok c
           end);
      let c := with_global c (global_tree c) (dict_set (req_to_seq_id c) r s) (dict_set (seq_to_req_id c) s r) in
      c ← maybe_evict_requests c s;
      Ok (c, s)
  end.

(** [SuffixTree.extend] or [extend_ndarray] on the tokens of a caller. *)
Definition tree_extend (t : T) (s : Z) (a : tokens_arg) : res T :=
  check (fits_int32 a) (TypeError "incompatible function arguments");; Ok (extend t s (arg_data a)).

(** The request is entered with an empty tree before the tokens are converted, so it stays
    active when that raises.  A cached request is not refused: its old response is evicted. *)
Definition start_request (c : cache) (r : R) (prompt : tokens_arg) : cache * res unit :=
  if is_active c r then (c, Raise (ValueError "Request is already active"))
  else
    match validate_ndarray prompt with
    | Raise e => (c, Raise e)
    | Ok _ =>
        let with_tree t := with_local c (dict_set (local_trees c) r t) in
        match tree_extend (new_tree (max_tree_depth c)) 0 prompt with
        | Raise e => (with_tree (new_tree (max_tree_depth c)), Raise e)
        | Ok t =>
            let c := with_tree t in
            if max_cached_requests c =? 0 then (c, Ok tt)
            else
              match (c ← (if is_cached c r then evict_cached_response c r else Ok c); cs ← generate_seq_id c r; Ok cs.1) with
              | Ok c => (c, Ok tt)
              | Raise e => (c, Raise e)
              end
        end
    end.

Definition stop_request (c : cache) (r : R) : res cache :=
  check (is_active c r) (ValueError "Request is not active");;
  Ok (with_local c (dict_del (local_trees c) r)).

Definition add_active_response (c : cache) (r : R) (toks : tokens_arg) : res cache :=
  match dict_get (local_trees c) r with
  | None => Raise (ValueError "Request is not active")
  | Some t =>
      validate_ndarray toks;;
      t ← tree_extend t 0 toks;
      let c := with_local c (dict_set (local_trees c) r t) in
      match dict_get (req_to_seq_id c) r with
      | Some s => g ← tree_extend (global_tree c) s toks; Ok (with_global c g (req_to_seq_id c) (seq_to_req_id c))
      | None => Ok c
      end
  end.

(** [context[-d:]]. *)
Definition last_tokens (l : list Z) (d : Z) : list Z :=
  if d <=? 0 then drop (Z.to_nat (- d)) l else drop (length l - Z.to_nat d) l.

(** [max_spec_tokens is None] reads the attribute [max_depth], which the class does not have. *)
Definition speculate (c : cache) (r : R) (context : tokens_arg) (max_spec_tokens : option Z) (ps : P) : res D :=
  match dict_get (local_trees c) r with
  | None => Raise (ValueError "Request is not active")
  | Some t =>
      validate_ndarray context;;
      n ← (match max_spec_tokens with Some n => Ok n | None => Raise (ErrorWithIds "AttributeError" ["max_depth"%string]) end);
      let l := arg_data context in
      let l := if max_tree_depth c <? Z.of_nat (length l) then last_tokens l (max_tree_depth c) else l in
      check (fits_int32 (match context with NdArray n d b _ => NdArray n d b l |
      PySeq _ => PySeq l end)) (TypeError "incompatible function arguments");;
      let draft1 := tree_speculate t l n ps in
      let draft2 := tree_speculate (global_tree c) l n ps in
      Ok (if score_ge (score draft1) (score draft2) then draft1 else draft2)
  end.

(** ** The invariant *)

Context {tree_laws : SuffixTreeLaws T P D}.

(** Request ids and sequence ids are inverse; the global tree holds no other sequences. *)
Record inv0 (c : cache) : Prop := {
  i_local : NoDup (dict_keys (local_trees c));
  i_req : NoDup (dict_keys (req_to_seq_id c));
  i_seq : NoDup (dict_keys (seq_to_req_id c));
  i_inverse : forall r s, dict_get (req_to_seq_id c) r = Some s <-> dict_get (seq_to_req_id c) s = Some r;
  i_range : forall s r, dict_get (seq_to_req_id c) s = Some r -> 0 <= s <= int32_mask;
  i_next : 0 <= next_seq_id c <= int32_mask;
  i_tree : forall s l, tree_seqs (global_tree c) !! s = Some l -> is_Some (dict_get (seq_to_req_id c) s);
}.

(** No more responses than allowed. *)
Definition bounded (c : cache) : Prop := 0 <= max_cached_requests c -> Z.of_nat (length (req_to_seq_id c)) <= max_cached_requests c.
Definition inv (c : cache) : Prop := inv0 c /\ bounded c.

(** ** The specification *)

Record acache := ACache { a_active : list (R * list Z); a_cached : list (R * list Z) }.

Definition text_of (t : T) (s : Z) : list Z := default [] (tree_seqs t !! s).
Definition abs (c : cache) : acache :=
  ACache ((fun rt => (rt.1, text_of rt.2 0)) <$> local_trees c) ((fun rs => (rs.1, text_of (global_tree c) rs.2)) <$> req_to_seq_id c).

(** Keep the [max] newest; a negative [max] keeps all. *)
Definition trim (max : Z) (l : list (R * list Z)) : list (R * list Z) := if max <? 0 then l else drop (length l - Z.to_nat max) l.

Definition a_evict (a : acache) (r : R) : acache := ACache (a_active a) (dict_del (a_cached a) r).
Definition a_evict_opt (a : acache) (o : option R) : acache := match o with Some r => a_evict a r | None => a end.
(** [lost]: the request whose sequence id is reused when the ids have wrapped around. *)
Definition a_start (max : Z) (lost : option R) (a : acache) (r : R) (prompt : list Z) : acache :=
  ACache (dict_set (a_active a) r prompt)
    (if max =? 0 then a_cached a else trim max (a_cached (a_evict_opt (a_evict a r) lost) ++ [(r, [])])).
Definition a_stop (a : acache) (r : R) : acache := ACache (dict_del (a_active a) r) (a_cached a).
Definition a_add (a : acache) (r : R) (toks : list Z) : acache :=
  ACache (dict_set (a_active a) r (default [] (dict_get (a_active a) r) ++ toks))
    (match dict_get (a_cached a) r with Some l => dict_set (a_cached a) r (l ++ toks) | None => a_cached a end).

(** *** Dictionaries under a map of their values *)

Lemma dict_keys_vmap {V V'} (f : V -> V') (d : list (R * V)) : dict_keys ((fun rv => (rv.1, f rv.2)) <$> d) = dict_keys d.
Proof. unfold dict_keys. rewrite <- list_fmap_compose. by apply list_fmap_ext. Qed.

Lemma dict_get_vmap {V V'} (f : V -> V') (d : list (R * V)) r : dict_get ((fun rv => (rv.1, f rv.2)) <$> d) r = f <$> dict_get d r.
Proof. induction d as [|[k v] d IH]; csimpl; [done|]. by destruct (decide (r = k)). Qed.

Lemma dict_del_vmap {V V'} (f : V -> V') (d : list (R * V)) r : dict_del ((fun rv => (rv.1, f rv.2)) <$> d) r = (fun rv => (rv.1,
    f rv.2)) <$> dict_del d r.
Proof. unfold dict_del. induction d as [|[k v] d IH]; csimpl; [done|]. rewrite !filter_cons. simpl.
  destruct (decide (k <> r)); csimpl; by rewrite IH. Qed.

Lemma dict_set_vmap {V V'} (f : V -> V') (d : list (R * V)) r v :
  dict_set ((fun rv => (rv.1, f rv.2)) <$> d) r (f v) = (fun rv => (rv.1, f rv.2)) <$> dict_set d r v.
Proof. induction d as [|[k v0] d IH]; csimpl; [done|]. destruct (decide (r = k)); csimpl; [done|]. by rewrite IH. Qed.

Lemma vmap_ext {V V'} (f g : V -> V') (d : list (R * V)) :
  (forall r v, (r, v) ∈ d -> f v = g v) -> (fun rv => (rv.1, f rv.2)) <$> d = (fun rv => (rv.1, g rv.2)) <$> d.
Proof. intros Hfg. apply list_fmap_ext. intros i [r v] Hi. simpl. f_equal. apply (Hfg r). by eapply list_elem_of_lookup_2. Qed.

(** *** Eviction *)

Lemma text_remove t s s' : text_of (tree_remove t s) s' = if decide (s' = s) then [] else text_of t s'.
Proof.
  unfold text_of. rewrite remove_seqs. destruct (decide (s' = s)) as [->|]; [by rewrite lookup_delete_eq|by rewrite lookup_delete_ne].
Qed.

(** Forgetting the request of one sequence id. *)
Definition forget (c : cache) (r : R) (s : Z) : cache :=
  with_global c (tree_remove (global_tree c) s) (dict_del (req_to_seq_id c) r) (dict_del (seq_to_req_id c) s).

Lemma forget_inv c r s : inv0 c -> dict_get (req_to_seq_id c) r = Some s -> inv0 (forget c r s).
Proof.
  intros [Hl Hr Hs Hi Hg Hn Ht] Hget. split; simpl; try done; [by apply dict_del_nodup..| | |].
  - intros r' s'. destruct (decide (r' = r)) as [->|Hne].
    + rewrite dict_get_del_eq. split; [done|]. destruct (decide (s' = s)) as [->|Hse]; [by rewrite dict_get_del_eq|rewrite dict_get_del_ne by done].
      intros Hx%Hi. congruence.
    + rewrite dict_get_del_ne by done. destruct (decide (s' = s)) as [->|Hse]; [|rewrite dict_get_del_ne by done; apply Hi].
      rewrite dict_get_del_eq. split; [|done]. intros Hx%Hi. apply Hi in Hget. congruence.
  - intros s' r'. destruct (decide (s' = s)) as [->|]; [by rewrite dict_get_del_eq|rewrite dict_get_del_ne by done; apply Hg].
  - intros s' l. rewrite remove_seqs. destruct (decide (s' = s)) as [->|]; [by rewrite lookup_delete_eq|].
    rewrite lookup_delete_ne, dict_get_del_ne by done. apply Ht.
Qed.

Lemma forget_abs c r s : inv0 c -> dict_get (req_to_seq_id c) r = Some s -> abs (forget c r s) = a_evict (abs c) r.
Proof.
  intros HI Hget. unfold abs, a_evict, forget. simpl. f_equal. rewrite (dict_del_vmap (text_of (global_tree c))). apply vmap_ext.
  intros r' s' [Hne Hin]%list_elem_of_filter. simpl in Hne. rewrite text_remove, decide_False; [done|]. intros ->.
  apply (dict_elem_get _ _ _ (i_req _ HI)) in Hin. apply (i_inverse _ HI) in Hin, Hget. congruence.
Qed.

Lemma evict_ok c r s : inv0 c -> dict_get (req_to_seq_id c) r = Some s -> evict_cached_response c r = Ok (forget c r s).
Proof. intros HI Hget. unfold evict_cached_response. rewrite Hget. apply (i_inverse _ HI) in Hget. by rewrite Hget. Qed.

(** *** Finding a sequence id *)

Lemma next_id n : 0 <= n <= int32_mask -> Z.land (n + 1) int32_mask = (n + 1) mod 2 ^ 31.
Proof. intros Hn. change int32_mask with (Z.ones 31). by rewrite Z.land_ones by lia. Qed.

Lemma next_id_range n : 0 <= n <= int32_mask -> 0 <= Z.land (n + 1) int32_mask <= int32_mask.
Proof. intros Hn. rewrite next_id by done. pose proof (Z.mod_pos_bound (n + 1) (2 ^ 31)). unfold int32_mask in *. lia. Qed.

Lemma find_Some fuel c : forall next s next',
  0 <= next <= int32_mask -> find_seq_id fuel c next = Some (s, next') ->
  seq_free c s = true /\ 0 <= s <= int32_mask /\ 0 <= next' <= int32_mask.
Proof.
  induction fuel as [|fuel IH]; intros next s next' Hn; simpl; [done|]. destruct (seq_free c next) eqn:E; [|apply IH; by apply next_id_range].
  intros [= <- <-]. split_and!; try done; try lia; by apply next_id_range.
Qed.

Lemma find_None fuel c : forall next,
  0 <= next <= int32_mask -> find_seq_id fuel c next = None ->
  forall i, (i < fuel)%nat -> seq_free c ((next + Z.of_nat i) mod 2 ^ 31) = false.
Proof.
  induction fuel as [|fuel IH]; intros next Hn Hf i Hi; [lia|]. simpl in Hf. destruct (seq_free c next) eqn:E; [done|].
  destruct i as [|i]; [rewrite Z.add_0_r, Z.mod_small; [done|unfold int32_mask in Hn; lia]|].
  specialize (IH _ (next_id_range _ Hn) Hf i ltac:(lia)). rewrite next_id in IH by done. rewrite Zplus_mod_idemp_l in IH.
  by replace (next + Z.of_nat (Datatypes.S i)) with (next + 1 + Z.of_nat i) by lia.
Qed.

Lemma taken_key c s : seq_free c s = false -> s ∈ dict_keys (seq_to_req_id c).
Proof. unfold seq_free. intros Hf. apply dict_get_keys. destruct (dict_get _ _); [eauto|done]. Qed.

(** The search with one more step than there are sequence ids in use misses a free id only when there is none. *)
Lemma find_seq_id_complete c :
  inv0 c -> find_seq_id (Datatypes.S (length (seq_to_req_id c))) c (next_seq_id c) = None <-> forall s, 0 <= s <= int32_mask -> seq_free c s = false.
Proof.
  intros HI. pose proof (i_next _ HI) as Hn. split.
  - intros Hf s Hs. pose proof (find_None _ _ _ Hn Hf) as Hall. set (len := length (seq_to_req_id c)) in *.
    destruct (decide (Z.of_nat (Datatypes.S len) <= 2 ^ 31)) as [Hle|Hgt].
    + exfalso. set (ids := (fun i => (next_seq_id c + Z.of_nat i) mod 2 ^ 31) <$> seq 0 (Datatypes.S len)).
      assert (Hnd : NoDup ids).
      { apply NoDup_fmap_2_strong; [|apply NoDup_seq]. intros i j Hi%elem_of_seq Hj%elem_of_seq Heq.
        apply (Zmod_eq_small_diff) in Heq || (assert (Hd : (Z.of_nat i - Z.of_nat j) mod 2 ^ 31 = 0) by
          (replace (Z.of_nat i - Z.of_nat j) with (next_seq_id c + Z.of_nat i - (next_seq_id c + Z.of_nat j)) by lia; rewrite Zminus_mod,
            Heq, Z.sub_diag; done));
          apply Z.mod_divide in Hd as [q Hq]; [|lia]; nia. }
      assert (Hsub : ids ⊆ dict_keys (seq_to_req_id c)) by (intros x (i & -> & Hi%elem_of_seq)%list_elem_of_fmap; apply taken_key, Hall; lia).
      apply (NoDup_submseteq _ _ Hnd), submseteq_length in Hsub. unfold ids, dict_keys in Hsub. rewrite !length_fmap, length_seq in Hsub.
      unfold len in Hsub. lia.
    + specialize (Hall (Z.to_nat ((s - next_seq_id c) mod 2 ^ 31))). pose proof (Z.mod_pos_bound (s - next_seq_id c) (2 ^ 31)).
      rewrite Z2Nat.id, Zplus_mod_idemp_r in Hall by lia. replace (next_seq_id c + (s - next_seq_id c)) with s in Hall by lia.
      rewrite (Z.mod_small s) in Hall by (unfold int32_mask in Hs; lia). apply Hall. lia.
  - intros Hall. destruct (find_seq_id _ c _) as [[s next']|] eqn:E; [|done]. apply find_Some in E as (Hf & Hs & _); [|done].
    rewrite Hall in Hf by done. done.
Qed.

(** *** The eviction loop *)

Lemma dict_del_head {V} (d : list (R * V)) r v : NoDup (dict_keys ((r, v) :: d)) -> dict_del ((r, v) :: d) r = d.
Proof.
  unfold dict_keys, dict_del. csimpl. intros [Hr Hd]%NoDup_cons. rewrite filter_cons, decide_False by (simpl; tauto). by apply dict_del_not_in.
Qed.

Record same_config (c c' : cache) : Prop := {
  sc_local : local_trees c' = local_trees c;
  sc_max : max_cached_requests c' = max_cached_requests c;
  sc_depth : max_tree_depth c' = max_tree_depth c;
}.
#[local] Instance same_config_refl : Reflexive same_config.
Proof. by split. Qed.
#[local] Instance same_config_trans : Transitive same_config.
Proof. intros c1 c2 c3 [] []. split; congruence. Qed.

Lemma same_config_active c c' : same_config c c' -> a_active (abs c') = a_active (abs c).
Proof. intros []. unfold abs. simpl. by rewrite sc_local0. Qed.

Lemma evict_loop_ok r new k : forall c pre fuel,
  inv0 c -> req_to_seq_id c = pre ++ [(r, new)] -> 0 < max_cached_requests c ->
  k = (length (req_to_seq_id c) - Z.to_nat (max_cached_requests c))%nat -> (k <= fuel)%nat ->
  exists c', evict_loop fuel c new = Ok c' /\ inv c' /\ same_config c c' /\ a_cached (abs c') = drop k (a_cached (abs c)).
Proof.
  induction k as [|k IH]; intros c pre fuel HI Hr Hmax Hk Hfuel; destruct fuel as [|fuel]; try lia; simpl;
    destruct (Z.leb_spec (Z.of_nat (length (req_to_seq_id c))) (max_cached_requests c)) as [Hle|Hgt]; try lia.
  1,2: exists c; split_and!; [done|split; [done|by intros _]|done|by rewrite drop_0].
  destruct pre as [|[r0 s0] pre]; [rewrite Hr in Hk; simpl in Hk; lia|].
  assert (Hget : dict_get (req_to_seq_id c) r0 = Some s0) by (rewrite Hr; simpl; by rewrite decide_True).
  assert (Hs0 : s0 <> new).
  { intros ->. assert (Hget' : dict_get (req_to_seq_id c) r = Some new).
    { apply dict_elem_get; [apply HI|]. rewrite Hr. apply elem_of_app. right. by apply list_elem_of_singleton. }
    apply (i_inverse _ HI) in Hget, Hget'. assert (r0 = r) by congruence. subst r0. pose proof (i_req _ HI) as Hnd. rewrite Hr in Hnd.
    unfold dict_keys in Hnd.
    csimpl in Hnd. apply NoDup_cons in Hnd as [Hn _]. apply Hn. rewrite fmap_app. apply elem_of_app. right. by apply list_elem_of_singleton. }
  assert (Hfirst : first_other c new = Some r0) by (unfold first_other; rewrite Hr; simpl; by rewrite decide_True).
  rewrite Hfirst, (evict_ok c r0 s0 HI Hget). cbn [mbind res_bind].
  assert (Hdel : dict_del (req_to_seq_id c) r0 = pre ++ [(r, new)]) by (rewrite Hr; apply dict_del_head; rewrite app_comm_cons, <- Hr; apply HI).
  destruct (IH (forget c r0 s0) pre fuel) as (c' & Hrun & HI' & Hsc & Habs).
  - by apply forget_inv.
  - done.
  - done.
  - simpl. rewrite Hdel. rewrite Hr in Hk. simpl in Hk. lia.
  - lia.
  - exists c'. split; [exact Hrun|]. split; [exact HI'|]. split.
    + etransitivity; [|exact Hsc]. by split.
    + etransitivity; [exact Habs|]. rewrite (forget_abs c r0 s0 HI Hget). unfold a_evict. simpl.
      rewrite (dict_del_vmap (text_of (global_tree c))), Hdel, Hr. done.
Qed.
(** *** A new sequence id *)

(** The request that loses its response because the id [s] is taken over. *)
Definition holder (c : cache) (s : Z) : option R := dict_get (seq_to_req_id c) s.

(** Giving the unused id [s] to the request [r]. *)
Definition assign (c : cache) (r : R) (s : Z) : cache :=
  with_global c (global_tree c) (dict_set (req_to_seq_id c) r s) (dict_set (seq_to_req_id c) s r).

Lemma assign_inv c r s :
  inv0 c -> dict_get (req_to_seq_id c) r = None -> dict_get (seq_to_req_id c) s = None -> 0 <= s <= int32_mask -> inv0 (assign c r s).
Proof.
  intros [Hl Hr Hs Hi Hg Hn Ht] Hgr Hgs Hrange. split; simpl; try done; [by apply dict_set_nodup..| | |].
  - intros r' s'. destruct (decide (r = r')) as [<-|Hne], (decide (s = s')) as [<-|Hse];
      rewrite ?dict_get_set_eq, ?(dict_get_set_ne (req_to_seq_id c) r r'), ?(dict_get_set_ne (seq_to_req_id c) s s') by done.
    + done.
    + split; [congruence|]. intros Hx%Hi. congruence.
    + split; [|congruence]. intros Hx%Hi. congruence.
    + apply Hi.
  - intros s' r'. destruct (decide (s = s')) as [<-|]; [done|rewrite dict_get_set_ne by done; apply Hg].
  - intros s' l. destruct (decide (s = s')) as [<-|]; [rewrite dict_get_set_eq; by eauto|rewrite dict_get_set_ne by done; apply Ht].
Qed.

Lemma assign_cached c r s :
  inv0 c -> dict_get (req_to_seq_id c) r = None -> dict_get (seq_to_req_id c) s = None ->
  req_to_seq_id (assign c r s) = req_to_seq_id c ++ [(r, s)] /\ a_cached (abs (assign c r s)) = a_cached (abs c) ++ [(r, [])].
Proof.
  intros HI Hr Hs. unfold assign, abs. simpl. rewrite dict_set_new by (by apply dict_get_None). split; [done|].
  rewrite fmap_app. csimpl. unfold text_of at 2. destruct (tree_seqs (global_tree c) !! s) as [l|] eqn:El; [|done].
  apply (i_tree _ HI) in El as [x Hx]. congruence.
Qed.

Lemma with_next_inv c n : inv0 c -> 0 <= n <= int32_mask -> inv0 (with_next c n).
Proof. intros [] ?. by split. Qed.

(** Taking the id away from its holder. *)
Definition take_over (c : cache) (s : Z) : cache := match holder c s with Some old => forget c old s | None => c end.

Lemma take_over_ok c s :
  inv0 c -> inv0 (take_over c s) /\ dict_get (seq_to_req_id (take_over c s)) s = None /\ same_config c (take_over c s) /\
  abs (take_over c s) = a_evict_opt (abs c) (holder c s).
Proof.
  intros HI. unfold take_over. destruct (holder c s) as [old|] eqn:Eh; unfold holder in Eh; [|by split_and!].
  apply (i_inverse _ HI) in Eh as Hget. split_and!; [by apply forget_inv|simpl; by rewrite dict_get_del_eq|by split|by apply forget_abs].
Qed.

Lemma take_over_req c s r : dict_get (req_to_seq_id c) r = None -> dict_get (req_to_seq_id (take_over c s)) r = None.
Proof.
  intros Hr. unfold take_over. destruct (holder c s) as [old|]; [|done]. simpl.
  destruct (decide (old = r)) as [->|]; [by rewrite dict_get_del_eq|by rewrite dict_get_del_ne].
Qed.

Lemma maybe_evict_ok c pre r new :
  inv0 c -> req_to_seq_id c = pre ++ [(r, new)] -> max_cached_requests c <> 0 ->
  exists c', maybe_evict_requests c new = Ok c' /\ inv c' /\ same_config c c' /\ a_cached (abs c') = trim (max_cached_requests c) (a_cached (abs c)).
Proof.
  intros HI Hr Hmax. unfold maybe_evict_requests, trim. destruct (Z.ltb_spec (max_cached_requests c) 0) as [Hneg|Hpos].
  { exists c. split; [done|]. split; [split; [done|intros ?; lia]|done]. }
  rewrite (proj2 (Z.eqb_neq _ _) Hmax). cbn [negb check mbind res_bind].
  destruct (evict_loop_ok r new (length (req_to_seq_id c) - Z.to_nat (max_cached_requests c)) c pre (length (req_to_seq_id c)) HI Hr
  ltac:(lia) eq_refl ltac:(lia))
    as (c' & Hrun & HI' & Hsc & Habs).
  exists c'. split; [exact Hrun|]. split; [exact HI'|]. split; [exact Hsc|]. etransitivity; [exact Habs|]. f_equal. unfold abs. simpl.
    by rewrite length_fmap.
Qed.

(** The id a new request gets: the first one from [next_seq_id] that no active request holds. *)
Lemma generate_seq_id_ok c r s next :
  inv0 c -> dict_get (req_to_seq_id c) r = None -> max_cached_requests c <> 0 ->
  find_seq_id (Datatypes.S (length (seq_to_req_id c))) c (next_seq_id c) = Some (s, next) ->
  exists c', generate_seq_id c r = Ok (c', s) /\ inv c' /\ same_config c c' /\
    a_cached (abs c') = trim (max_cached_requests c) (a_cached (a_evict_opt (abs c) (holder c s)) ++ [(r, [])]).
Proof.
  intros HI Hr Hmax Hfind. destruct (find_Some _ _ _ _ _ (i_next _ HI) Hfind) as (_ & Hs & Hnext).
  pose proof (with_next_inv c next HI Hnext) as HIn. destruct (take_over_ok (with_next c next) s HIn) as (HIt & Hst & Hsct & Habst).
  pose proof (take_over_req (with_next c next) s r Hr) as Hrt.
  pose proof (assign_inv _ r s HIt Hrt Hst Hs) as HIa. destruct (assign_cached _ r s HIt Hrt Hst) as [Hreq Hcached].
  assert (Hmaxt : max_cached_requests (take_over (with_next c next) s) = max_cached_requests c) by apply Hsct.
  destruct (maybe_evict_ok _ _ _ _ HIa Hreq) as (c' & Hrun & HI' & Hsc & Habs); [simpl; by rewrite Hmaxt|].
  exists c'. unfold generate_seq_id. rewrite Hfind. split; [|split; [exact HI'|split]].
  - replace (match dict_get (seq_to_req_id (with_next c next)) s with Some old => _ | None => _ end) with (Ok (take_over (with_next c next) s)).
    + cbn [mbind res_bind]. fold (assign (take_over (with_next c next) s) r s). by rewrite Hrun.
    + unfold take_over, holder. destruct (dict_get (seq_to_req_id (with_next c next)) s) as [old|] eqn:Eo; [|done].
      apply (i_inverse _ HIn) in Eo. by rewrite Eo.
  - etransitivity; [|exact Hsc]. destruct Hsct. by split.
  - etransitivity; [exact Habs|]. simpl. rewrite Hmaxt. f_equal. etransitivity; [exact Hcached|]. by rewrite Habst.
Qed.
(** An id is free as long as fewer than 2^31 requests can hold one. *)
Lemma free_id c (l : list R) :
  inv0 c -> (forall s r, dict_get (seq_to_req_id c) s = Some r -> is_active c r = true -> r ∈ l) -> Z.of_nat (length l) < 2 ^ 31 ->
  is_Some (find_seq_id (Datatypes.S (length (seq_to_req_id c))) c (next_seq_id c)).
Proof.
  intros HI Hl Hlen. destruct (find_seq_id _ c _) as [p|] eqn:E; [by eauto|exfalso].
  pose proof (proj1 (find_seq_id_complete c HI) E) as Hall. clear E. rename Hall into E.
  assert (Hheld : forall s, 0 <= s <= int32_mask -> exists r, dict_get (seq_to_req_id c) s = Some r /\ r ∈ l).
  { intros s Hs. specialize (E s Hs). unfold seq_free in E. destruct (dict_get (seq_to_req_id c) s) as [r|] eqn:Er; [|done].
    exists r. split; [done|]. apply (Hl s r Er). by apply negb_false_iff. }
  destruct (Hheld 0) as (r0 & _ & _); [unfold int32_mask; lia|].
  set (f := fun s => default r0 (dict_get (seq_to_req_id c) s)).
  assert (Hnd : NoDup (f <$> seqZ 0 (2 ^ 31))).
  { apply NoDup_fmap_2_strong; [|apply NoDup_seqZ]. intros x y Hx%elem_of_seqZ Hy%elem_of_seqZ.
    destruct (Hheld x) as (rx & Hrx & _); [unfold int32_mask; lia|]. destruct (Hheld y) as (ry & Hry & _); [unfold int32_mask; lia|].
    unfold f. rewrite Hrx, Hry. cbn [default]. unfold id. intros <-. apply (i_inverse _ HI) in Hrx, Hry. congruence. }
  apply (NoDup_submseteq _ l) in Hnd.
  - apply submseteq_length in Hnd. rewrite length_fmap, length_seqZ in Hnd. lia.
  - intros r (s & -> & Hs%elem_of_seqZ)%list_elem_of_fmap. destruct (Hheld s) as (r & Hr & Hrl); [unfold int32_mask; lia|]. unfold f. by rewrite Hr.
Qed.

(** *** The operations *)

Lemma text_extend t s l : text_of (extend t s l) s = text_of t s ++ l.
Proof.
  unfold text_of. rewrite extend_seqs. destruct (decide (l = [])) as [->|]; [by rewrite app_nil_r|]. by rewrite lookup_insert_eq.
Qed.

Lemma text_extend_ne t s s' l : s <> s' -> text_of (extend t s l) s' = text_of t s'.
Proof. intros Hne. unfold text_of. rewrite extend_seqs. destruct (decide (l = [])); [done|]. by rewrite lookup_insert_ne. Qed.

Lemma text_new d s : text_of (new_tree d) s = [].
Proof. unfold text_of. by rewrite new_tree_seqs. Qed.

Lemma is_active_spec c r : is_active c r = true <-> r ∈ active_requests c.
Proof. unfold is_active, active_requests. rewrite bool_decide_eq_true. symmetry. apply dict_get_keys. Qed.

Lemma is_cached_spec c r : is_cached c r = true <-> r ∈ cached_requests c.
Proof. unfold is_cached, cached_requests. rewrite bool_decide_eq_true. symmetry. apply dict_get_keys. Qed.

Lemma with_local_inv c l : inv0 c -> NoDup (dict_keys l) -> inv0 (with_local c l).
Proof. intros [] ?. by split. Qed.

(** Evicting the old response of a request that starts again. *)
Definition clear (c : cache) (r : R) : cache := match dict_get (req_to_seq_id c) r with Some s => forget c r s | None => c end.

Lemma clear_ok c r :
  inv0 c -> (if is_cached c r then evict_cached_response c r else Ok c) = Ok (clear c r) /\
  inv0 (clear c r) /\ same_config c (clear c r) /\ abs (clear c r) = a_evict (abs c) r /\ dict_get (req_to_seq_id (clear c r)) r = None /\
  next_seq_id (clear c r) = next_seq_id c /\
  forall s x, dict_get (seq_to_req_id (clear c r)) s = Some x -> x <> r /\ dict_get (seq_to_req_id c) s = Some x.
Proof.
  intros HI. unfold is_cached, clear. destruct (dict_get (req_to_seq_id c) r) as [s|] eqn:E.
  - rewrite bool_decide_eq_true_2 by eauto. rewrite (evict_ok c r s HI E).
    split_and!; [done|by apply forget_inv|done|by apply forget_abs|simpl; by rewrite dict_get_del_eq|done|].
    intros s' x. simpl. destruct (decide (s' = s)) as [->|Hne]; [by rewrite dict_get_del_eq|]. rewrite dict_get_del_ne by done.
    intros Hx. split; [|done]. intros ->. apply (i_inverse _ HI) in Hx. congruence.
  - rewrite bool_decide_eq_false_2 by (intros [? ?]; done). split_and!; try done.
    + unfold a_evict, abs. simpl. rewrite dict_del_not_in; [done|]. rewrite dict_keys_vmap. by apply dict_get_None.
    + intros s x Hx. split; [|done]. intros ->. apply (i_inverse _ HI) in Hx. congruence.
Qed.
Inductive op := Start (r : R) (prompt : tokens_arg) | Stop (r : R) | AddResponse (r : R) (toks : tokens_arg) | Evict (r : R).

(** A call that raises without having changed anything. *)
Definition unchanged_on_raise (c : cache) (out : res cache) : cache * res unit :=
  match out with Ok c' => (c', Ok tt) | Raise e => (c, Raise e) end.

Definition run_op (c : cache) (o : op) : cache * res unit :=
  match o with
  | Start r p => start_request c r p
  | Stop r => unchanged_on_raise c (stop_request c r)
  | AddResponse r t => unchanged_on_raise c (add_active_response c r t)
  | Evict r => unchanged_on_raise c (evict_cached_response c r)
  end.

(** What the specification accepts, and what it then does. *)
Definition well_formed_tokens (a : tokens_arg) : bool :=
  match a with NdArray ndim dtype contiguous _ => ((ndim =? 1)%nat && String.eqb dtype "int32") && contiguous | PySeq _ => true end.

(** The tokens of an operation are int32 values. *)
Definition op_fits (o : op) : bool := match o with Start _ t | AddResponse _ t => fits_int32 t | _ => true end.

(** A request that is active, or one that is not, and an array of the right kind.  Whether a
    request that is to start is cached does not matter, against the docstring of [start_request]. *)
Definition accepts (a : acache) (o : op) : bool :=
  match o with
  | Start r p => bool_decide (r ∉ dict_keys (a_active a)) && well_formed_tokens p
  | Stop r => bool_decide (r ∈ dict_keys (a_active a))
  | AddResponse r t => bool_decide (r ∈ dict_keys (a_active a)) && well_formed_tokens t
  | Evict r => bool_decide (r ∈ dict_keys (a_cached a))
  end.

Definition a_apply (max : Z) (lost : option R) (a : acache) (o : op) : acache :=
  match o with
  | Start r p => a_start max lost a r (arg_data p)
  | Stop r => a_stop a r
  | AddResponse r t => a_add a r (arg_data t)
  | Evict r => a_evict a r
  end.

(** What an operation leaves whose tokens could not be converted. *)
Definition a_unconverted (a : acache) (o : op) : acache :=
  match o with Start r _ => ACache (dict_set (a_active a) r []) (a_cached a) | _ => a end.

Definition starts (o : op) : option R := match o with Start r _ => Some r | _ => None end.

(** A response is lost to a reused id only when the next id is taken; then it is that of another, inactive request. *)
Definition loss_ok (c : cache) (o : op) (lost : option R) : Prop :=
  forall v, lost = Some v ->
    starts o <> None /\ starts o <> Some v /\ v ∈ dict_keys (a_cached (abs c)) /\ v ∉ dict_keys (a_active (abs c)) /\
    is_Some (dict_get (seq_to_req_id c) (next_seq_id c)).

Definition simulates (c : cache) (o : op) (out : cache * res unit) : Prop :=
  let '(c', r) := out in
  inv c' /\ max_cached_requests c' = max_cached_requests c /\ max_tree_depth c' = max_tree_depth c /\
  match r with
  | Ok _ => accepts (abs c) o = true /\ op_fits o = true /\
      exists lost, loss_ok c o lost /\ abs c' = a_apply (max_cached_requests c) lost (abs c) o
  | Raise (ValueError _) => accepts (abs c) o = false /\ c' = c
  | Raise (TypeError _) => accepts (abs c) o = true /\ op_fits o = false /\ abs c' = a_unconverted (abs c) o
  | Raise _ => False
  end.

Lemma no_loss c o : loss_ok c o None.
Proof. by intros v. Qed.

Lemma validate_cases t :
  (validate_ndarray t = Ok () /\ well_formed_tokens t = true) \/ (exists m, validate_ndarray t = Raise (ValueError m)) /\
    well_formed_tokens t = false.
Proof.
  destruct t as [n d b l|l]; simpl; [|by left]. unfold check. destruct (n =? 1)%nat; simpl; [|right; by eauto].
  destruct (String.eqb d "int32"); simpl; [|right; by eauto]. destruct b; [by left|right; by eauto].
Qed.

Lemma active_keys c : dict_keys (a_active (abs c)) = active_requests c.
Proof. apply (dict_keys_vmap (fun t => text_of t 0)). Qed.

Lemma cached_keys c : dict_keys (a_cached (abs c)) = cached_requests c.
Proof. apply (dict_keys_vmap (text_of (global_tree c))). Qed.

Lemma set_local_abs c r t : a_active (abs (with_local c (dict_set (local_trees c) r t))) = dict_set (a_active (abs c)) r (text_of t 0).
Proof. symmetry. apply (dict_set_vmap (fun t => text_of t 0)). Qed.

Lemma abs_eta c : abs c = ACache (a_active (abs c)) (a_cached (abs c)).
Proof. done. Qed.

(** The request with its local tree in place, before the global cache is touched. *)
Lemma generate_after_start c r c1 :
  inv0 c1 -> r ∉ active_requests c -> Z.of_nat (length (local_trees c)) < 2 ^ 31 -> max_cached_requests c1 <> 0 ->
  (forall x, is_active c1 x = true <-> x = r \/ x ∈ active_requests c) ->
  exists c' s, (c2 ← (if is_cached c1 r then evict_cached_response c1 r else Ok c1); cs ← generate_seq_id c2 r; Ok cs.1) = Ok c' /\
    inv c' /\ same_config c1 c' /\
    a_cached (abs c') = trim (max_cached_requests c1) (a_cached (a_evict_opt (a_evict (abs c1) r) (holder (clear c1 r) s)) ++ [(r, [])]) /\
    forall v, holder (clear c1 r) s = Some v ->
      v <> r /\ v ∈ cached_requests c1 /\ v ∉ active_requests c /\ is_Some (dict_get (seq_to_req_id c1) (next_seq_id c1)).
Proof.
  intros HI Hr Hlen Hmax Hact. destruct (clear_ok c1 r HI) as (Hrun & HIc & Hsc & Habs & Hnone & Hnext & Hheld).
  assert (Hact' : forall x, is_active (clear c1 r) x = is_active c1 x) by (intros x; unfold is_active; by rewrite (sc_local _ _ Hsc)).
  destruct (free_id (clear c1 r) (active_requests c) HIc) as [[s next] Hfind].
  { intros s x [Hne _]%Hheld. rewrite Hact', Hact. naive_solver. }
  { unfold active_requests, dict_keys. by rewrite length_fmap. }
  destruct (generate_seq_id_ok _ r s next HIc Hnone) as (c' & Hgen & HI' & Hsc' & Habs'); [by rewrite (sc_max _ _ Hsc)|done|].
  exists c', s. rewrite Hrun. cbn [mbind res_bind]. rewrite Hgen. cbn [mbind res_bind fst].
  split; [done|]. split; [exact HI'|]. split; [by etransitivity|]. split; [by rewrite <- Habs, Habs', (sc_max _ _ Hsc)|].
  intros v Hv. destruct (Hheld s v Hv) as [Hne Hv1]. destruct (find_Some _ _ _ _ _ (i_next _ HIc) Hfind) as (Hfree & _ & _).
  split; [done|]. split; [apply dict_get_keys; apply (i_inverse _ HI) in Hv1; by eauto|]. split.
  - intros Hin. unfold seq_free in Hfree. unfold holder in Hv. rewrite Hv, Hact' in Hfree. by rewrite (proj2 (Hact v) (or_intror Hin)) in Hfree.
  - destruct (dict_get (seq_to_req_id c1) (next_seq_id c1)) as [x|] eqn:Ex; [by eauto|exfalso].
    assert (Hfn : dict_get (seq_to_req_id (clear c1 r)) (next_seq_id (clear c1 r)) = None).
    { rewrite Hnext. destruct (dict_get (seq_to_req_id (clear c1 r)) (next_seq_id c1)) as [y|] eqn:Ey; [|done]. apply Hheld in Ey as [_ Ey].
      congruence. }
    simpl in Hfind. unfold seq_free in Hfind. rewrite Hfn in Hfind. injection Hfind as <- _. unfold holder in Hv. congruence.
Qed.
Lemma refused_simulates c o m : inv c -> accepts (abs c) o = false -> simulates c o (c, Raise (ValueError m)).
Proof. intros HI Ha. by split_and!. Qed.

Lemma start_simulates c r p : inv c -> Z.of_nat (length (local_trees c)) < 2 ^ 31 -> simulates c (Start r p) (start_request c r p).
Proof.
  intros HIc Hlen. pose proof HIc as [HI HB]. unfold start_request. destruct (is_active c r) eqn:Ea.
  { apply refused_simulates; [done|]. cbn [accepts]. rewrite active_keys. apply is_active_spec in Ea. by rewrite bool_decide_eq_false_2 by tauto. }
  assert (Hna : r ∉ active_requests c) by (rewrite <- is_active_spec, Ea; done).
  destruct (validate_cases p) as [[Hv Hw]|[[m Hv] Hw]]; rewrite Hv.
  2:{ apply refused_simulates; [done|]. simpl. by rewrite Hw, andb_false_r. }
  assert (Hacc : accepts (abs c) (Start r p) = true) by (cbn [accepts]; rewrite active_keys, bool_decide_eq_true_2, Hw; done).
  assert (HIt : forall t, inv0 (with_local c (dict_set (local_trees c) r t))) by (intros t; apply with_local_inv; [done|]; apply dict_set_nodup, HI).
  unfold tree_extend. destruct (fits_int32 p) eqn:Hf; cbn [check mbind res_bind].
  2:{ split; [by split; [apply HIt|]|]. split_and!; [done..|]. rewrite abs_eta, set_local_abs, text_new. done. }
  set (c1 := with_local c _). assert (HI1 : inv0 c1) by apply HIt.
  assert (Hact1 : a_active (abs c1) = dict_set (a_active (abs c)) r (arg_data p)) by (unfold c1; by rewrite set_local_abs, text_extend, text_new).
  change (max_cached_requests c1) with (max_cached_requests c). destruct (Z.eqb_spec (max_cached_requests c) 0) as [H0|H0].
  - split; [by split|]. split; [done|]. split; [done|]. split; [done|]. split; [done|]. exists None. split; [apply no_loss|].
    rewrite abs_eta, Hact1. simpl. unfold a_start. by rewrite H0.
  - destruct (generate_after_start c r c1 HI1 Hna Hlen H0) as (c' & s & Hrun & HI' & Hsc & Habs & Hlost).
    { intros x. rewrite is_active_spec. unfold active_requests, c1. simpl. by rewrite dict_keys_set. }
    rewrite Hrun. split; [exact HI'|]. split; [apply (sc_max _ _ Hsc)|]. split; [apply (sc_depth _ _ Hsc)|]. split; [done|]. split; [done|].
    exists (holder (clear c1 r) s). split.
    + intros v Hv'. destruct (Hlost v Hv') as (Hne & Hin & Hnin & Hnext). rewrite active_keys, cached_keys. by split_and!; [|intros [= ->]| | |].
    + rewrite abs_eta, (same_config_active _ _ Hsc), Hact1. simpl. unfold a_start. rewrite (proj2 (Z.eqb_neq _ _) H0). f_equal.
      etransitivity; [exact Habs|]. by destruct (holder _ s).
Qed.

Lemma stop_simulates c r : inv c -> simulates c (Stop r) (unchanged_on_raise c (stop_request c r)).
Proof.
  intros HIc. pose proof HIc as [HI HB]. unfold stop_request. pose proof (is_active_spec c r) as Ha.
  destruct (is_active c r); cbn [check mbind res_bind unchanged_on_raise].
  - split; [split; [|done]; apply with_local_inv; [done|]; apply dict_del_nodup, HI|]. split; [done|]. split; [done|].
    split; [cbn [accepts]; rewrite active_keys; by apply bool_decide_eq_true_2, Ha|]. split; [done|]. exists None. split; [apply no_loss|].
    simpl. unfold a_stop, abs. simpl. f_equal. symmetry. apply (dict_del_vmap (fun t => text_of t 0)).
  - apply refused_simulates; [done|]. cbn [accepts]. rewrite active_keys. apply bool_decide_eq_false_2. intros Hx%Ha. done.
Qed.

Lemma evict_simulates c r : inv c -> simulates c (Evict r) (unchanged_on_raise c (evict_cached_response c r)).
Proof.
  intros HIc. pose proof HIc as [HI HB]. destruct (dict_get (req_to_seq_id c) r) as [s|] eqn:E.
  - rewrite (evict_ok c r s HI E). cbn [unchanged_on_raise]. split; [split; [by apply forget_inv|]|].
    + intros Hm. specialize (HB Hm). simpl. unfold dict_del. pose proof (length_filter (fun kv => kv.1 <> r) (req_to_seq_id c)). lia.
    + split; [done|]. split; [done|]. split; [cbn [accepts]; rewrite cached_keys; apply bool_decide_eq_true_2, dict_get_keys; by eauto|].
      split; [done|]. exists None. split; [apply no_loss|]. by apply forget_abs.
  - unfold evict_cached_response. rewrite E. apply refused_simulates; [done|]. cbn [accepts]. rewrite cached_keys.
    apply bool_decide_eq_false_2. by apply dict_get_None.
Qed.

(** More tokens at one sequence id change the text of its request only. *)
Lemma extend_global_abs c r s l :
  inv0 c -> dict_get (req_to_seq_id c) r = Some s ->
  ((fun rs => (rs.1, text_of (extend (global_tree c) s l) rs.2)) <$> req_to_seq_id c) =
  dict_set ((fun rs => (rs.1, text_of (global_tree c) rs.2)) <$> req_to_seq_id c) r (text_of (global_tree c) s ++ l).
Proof.
  intros HI Hget. assert (Hinj : forall r', dict_get (req_to_seq_id c) r' = Some s -> r' = r).
  { intros r' Hr'. apply (i_inverse _ HI) in Hr', Hget. congruence. }
  pose proof (i_req _ HI) as Hnd. revert Hnd Hget Hinj. generalize (req_to_seq_id c). intros d.
  induction d as [|[k v] d IH]; csimpl; [done|]. intros [Hk Hnd]%NoDup_cons. destruct (decide (r = k)) as [->|Hne].
  - intros [= ->] Hinj. rewrite text_extend. f_equal. apply (vmap_ext (text_of (extend (global_tree c) s l)) (text_of (global_tree c))).
    intros r' v Hin. apply text_extend_ne. intros <-. assert (r' = k).
    { apply Hinj. rewrite decide_False; [by apply dict_elem_get|]. intros ->. apply Hk. apply (list_elem_of_fmap_2 fst d (k, s)); done. }
    subst r'. apply Hk. apply (list_elem_of_fmap_2 fst d (k, s)); done.
  - intros Hget Hinj. assert (Hvs : s <> v) by (intros ->; apply Hne; symmetry; apply Hinj; by rewrite decide_True).
    rewrite text_extend_ne by done. f_equal. apply IH; try done. intros r' Hr'.
    destruct (decide (r' = k)) as [->|Hk']; [|by apply Hinj; rewrite decide_False].
    exfalso. apply Hk. apply dict_get_keys. by eauto.
Qed.
Lemma add_simulates c r t : inv c -> simulates c (AddResponse r t) (unchanged_on_raise c (add_active_response c r t)).
Proof.
  intros HIc. pose proof HIc as [HI HB]. unfold add_active_response. destruct (dict_get (local_trees c) r) as [lt|] eqn:El.
  2:{ apply refused_simulates; [done|]. cbn [accepts]. rewrite active_keys, bool_decide_eq_false_2; [done|]. by apply dict_get_None. }
  assert (Hact : r ∈ active_requests c) by (apply dict_get_keys; by eauto).
  destruct (validate_cases t) as [[Hv Hw]|[[m Hv] Hw]]; rewrite Hv; cbn [mbind res_bind].
  2:{ apply refused_simulates; [done|]. cbn [accepts]. by rewrite Hw, andb_false_r. }
  assert (Hacc : accepts (abs c) (AddResponse r t) = true) by (cbn [accepts]; rewrite active_keys, bool_decide_eq_true_2, Hw; done).
  unfold tree_extend. destruct (fits_int32 t) eqn:Hf; cbn [check mbind res_bind]; [|by split_and!].
  set (c1 := with_local c _). assert (HI1 : inv0 c1) by (apply with_local_inv; [done|]; apply dict_set_nodup, HI).
  assert (Hact1 : a_active (abs c1) = dict_set (a_active (abs c)) r (default [] (dict_get (a_active (abs c)) r) ++ arg_data t)).
  { unfold c1. rewrite set_local_abs, text_extend. simpl. rewrite (dict_get_vmap (fun t => text_of t 0)), El. done. }
  assert (Hcached : dict_get (a_cached (abs c)) r = text_of (global_tree c) <$> dict_get (req_to_seq_id c) r) by apply (dict_get_vmap
  (text_of (global_tree c))).
  change (req_to_seq_id c1) with (req_to_seq_id c). destruct (dict_get (req_to_seq_id c) r) as [s|] eqn:Er.
  - cbn [unchanged_on_raise mbind res_bind]. split; [split; [|done]|do 4 (split; [done|]); exists None; split; [apply no_loss|]].
    + destruct HI1 as [Hl Hr Hs Hi Hg Hn Ht]. split; simpl in *; try done. intros s' l. rewrite extend_seqs.
      destruct (decide (arg_data t = [])); [apply Ht|].
      destruct (decide (s = s')) as [<-|]; [|rewrite lookup_insert_ne by done; apply Ht]. intros _. apply Hi in Er. by eauto.
    + rewrite abs_eta. cbn [a_apply]. unfold a_add. rewrite Hcached. f_equal; [exact Hact1|]. cbn [fmap option_fmap option_map].
      exact (extend_global_abs c r s (arg_data t) HI Er).
  - split; [by split|]. do 4 (split; [done|]). exists None. split; [apply no_loss|]. rewrite abs_eta, Hact1. cbn [a_apply]. unfold a_add.
    by rewrite Hcached.
Qed.

Lemma run_op_simulates c o : inv c -> Z.of_nat (length (local_trees c)) < 2 ^ 31 -> simulates c o (run_op c o).
Proof. intros HI Hlen. destruct o; [by apply start_simulates|by apply stop_simulates|by apply add_simulates|by apply evict_simulates]. Qed.


(** *** Reachable caches *)

Inductive reachable (depth max : Z) : cache -> Prop :=
  | reach_init c : cache_init depth max = Ok c -> reachable depth max c
  | reach_step c o : reachable depth max c -> Z.of_nat (length (local_trees c)) < 2 ^ 31 -> reachable depth max (run_op c o).1.

Lemma suffix_init_inv depth max c : cache_init depth max = Ok c -> inv c /\ max_cached_requests c = max /\ max_tree_depth c = depth /\
    abs c = ACache [] [].
Proof.
  unfold cache_init. destruct (max <=? int32_mask); simpl; [|done]. intros [= <-]. split; [split|done]; [|intros ?; simpl in *; lia].
  split; simpl; try apply NoDup_nil_2; try done. intros s l. by rewrite new_tree_seqs, lookup_empty.
Qed.

Lemma suffix_reachable_inv depth max c : reachable depth max c -> inv c /\ max_cached_requests c = max /\ max_tree_depth c = depth.
Proof.
  induction 1 as [c Hinit|c o _ (IH & Hm & Hd) Hlen]; [by destruct (suffix_init_inv _ _ _ Hinit) as (?&?&?&_)|].
  pose proof (run_op_simulates c o IH Hlen) as Hs. destruct (run_op c o) as [c' out].
  destruct Hs as (HI & Hm' & Hd' & _). simpl. split_and!; [done|congruence..].
Qed.

(** The sequences of the global tree are those of requests that are cached. *)
Lemma inv_tree_cached c s l : inv c -> tree_seqs (global_tree c) !! s = Some l -> exists r, r ∈ cached_requests c /\
    dict_get (req_to_seq_id c) r = Some s.
Proof.
  intros [HI _] Hl. apply (i_tree _ HI) in Hl as [r Hr]. apply (i_inverse _ HI) in Hr. exists r. split; [|done]. apply dict_get_keys. by eauto.
Qed.

(** In every cache reached from a new one, request ids and sequence ids are inverse to each other and fit in an int32, the global
    tree holds the tokens of cached requests only (nothing of an evicted response is left behind), there are never more
    cached responses than [max_cached_requests] (unless it is negative: no limit), and with a limit of zero nothing is cached. *)
Theorem suffix_cache_invariant depth max c :
  reachable depth max c ->
  (forall r s, dict_get (req_to_seq_id c) r = Some s <-> dict_get (seq_to_req_id c) s = Some r) /\
  (forall r s, dict_get (req_to_seq_id c) r = Some s -> 0 <= s < 2 ^ 31) /\
  (forall s l, tree_seqs (global_tree c) !! s = Some l -> exists r, r ∈ cached_requests c /\ dict_get (req_to_seq_id c) r = Some s) /\
  (0 <= max -> Z.of_nat (length (cached_requests c)) <= max).
Proof.
  intros (HI & Hm & _)%suffix_reachable_inv. split_and!.
  - apply HI.
  - intros r s Hr. destruct HI as [HI _]. apply (i_inverse _ HI) in Hr. apply (i_range _ HI) in Hr. unfold int32_mask in Hr. lia.
  - intros s l. by apply inv_tree_cached.
  - intros H0. destruct HI as [_ HB]. unfold bounded in HB. rewrite Hm in HB. unfold cached_requests, dict_keys. rewrite length_fmap. by apply HB.
Qed.

(** *** Speculation *)

(** The tokens a tree of the given depth can match. *)
Lemma last_tokens_spec l d : 0 < d -> (if d <? Z.of_nat (length l) then last_tokens l d else l) = drop (length l - Z.to_nat d) l.
Proof.
  intros Hd. unfold last_tokens. destruct (Z.ltb_spec d (Z.of_nat (length l))).
  - by rewrite (proj2 (Z.leb_gt d 0) Hd).
  - by rewrite (proj2 (Nat.sub_0_le _ _)) by lia.
Qed.

Lemma speculate_ok c r ctx n ps t :
  dict_get (local_trees c) r = Some t -> well_formed_tokens ctx = true -> fits_int32 ctx = true -> 0 < max_tree_depth c ->
  let l := drop (length (arg_data ctx) - Z.to_nat (max_tree_depth c)) (arg_data ctx) in
  let d1 := tree_speculate t l n ps in
  let d2 := tree_speculate (global_tree c) l n ps in
  speculate c r ctx (Some n) ps = Ok (if score_ge (score d1) (score d2) then d1 else d2).
Proof.
  intros Ht Hw Hf Hd l d1 d2. unfold speculate. rewrite Ht. destruct (validate_cases ctx) as [[Hv _]|[_ Hw']]; [|congruence].
  rewrite Hv. cbn [mbind res_bind]. rewrite last_tokens_spec by done.
  replace (fits_int32 _) with true; [done|]. destruct ctx as [|data]; [done|]. simpl in *. symmetry.
  apply forallb_forall. intros x Hx. apply (proj1 (forallb_forall _ _) Hf). 
  rewrite <- (take_drop (length data - Z.to_nat (max_tree_depth c)) data). apply in_or_app. by right.
Qed.

(** Without [max_spec_tokens] every call fails. *)
Lemma speculate_default_fails c r ctx ps : exists e, speculate c r ctx None ps = Raise e.
Proof. unfold speculate. destruct (dict_get _ r); [|by eauto]. destruct (validate_ndarray ctx); cbn [mbind res_bind]; by eauto. Qed.

End cache.

(** The search of [_generate_seq_id] for a sequence id, which loops until it finds one that no active request holds, ends after at most one
    step more than there are ids in use, with a free id in the int32 range, if fewer than 2^31 requests are active; it runs forever (the bounded
    search fails at every length) only when all 2^31 ids are held by active requests. *)
Theorem find_seq_id_terminates {R T P D : Type} `{!EqDecision R} {ops : SuffixTree T P D} {laws : SuffixTreeLaws T P D} (c : cache (R := R)
    (T := T)) :
  inv0 c ->
  (Z.of_nat (length (local_trees c)) < 2 ^ 31 ->
    exists s next, find_seq_id (S (length (seq_to_req_id c))) c (next_seq_id c) = Some (s, next) /\ seq_free c s = true /\ 0 <= s <= int32_mask) /\
  ((forall s, 0 <= s <= int32_mask -> seq_free c s = false) -> forall fuel, find_seq_id fuel c (next_seq_id c) = None).
Proof.
  intros HI. pose proof (i_next _ HI) as Hn. split.
  - intros Hlen. destruct (free_id c (active_requests c) HI) as [[s next] Hf].
    + intros s r _ Hr. by apply is_active_spec.
    + unfold active_requests, dict_keys. by rewrite length_fmap.
    + exists s, next. split; [done|]. by destruct (find_Some _ _ _ _ _ Hn Hf) as (? & ? & _).
  - intros Hall fuel. destruct (find_seq_id fuel c (next_seq_id c)) as [[s next]|] eqn:E; [|done].
    destruct (find_Some _ _ _ _ _ Hn E) as (Hf & Hs & _). rewrite Hall in Hf by done. done.
Qed.

(** ** A concrete tree: the sequences themselves *)

Module MiniTree.
#[local] Instance mini_tree : SuffixTree (gmap Z (list Z)) unit (list Z) := {
  new_tree _ := ∅;
  extend t s l := if decide (l = []) then t else <[s := default [] (t !! s) ++ l]> t;
  tree_remove t s := delete s t;
  tree_speculate t l n _ := take (Z.to_nat n) (default [] (t !! 0));
}.
#[local] Instance mini_laws : SuffixTreeLaws (gmap Z (list Z)) unit (list Z).
Proof. by refine {| tree_seqs := (fun t : gmap Z (list Z) => t) |}. Defined.

Abbreviation mcache := (cache (R := string) (T := gmap Z (list Z))).

(** Room for two responses; that of the stopped request a is still cached. *)
Definition c5 : mcache := Cache 64 2 (list_to_map [(0, [7; 8]); (1, [9])]) [("b"%string, list_to_map [(0, [3; 9])])] [("a"%string, 0);
    ("b"%string, 1)] [(0, "a"%string); (1, "b"%string)] 2.

(** The history of [c5], run from the empty cache. *)
Fixpoint run_from (c : mcache) (l : list (op (R := string))) : option mcache :=
  match l with
  | [] => Some c
  | o :: l => if (length (local_trees c) <? 5)%nat then run_from (run_op c o).1 l else None
  end.

Lemma run_from_reachable l : forall c c', reachable 64 2 c -> run_from c l = Some c' -> reachable 64 2 c'.
Proof.
  induction l as [|o l IH]; intros c c' Hc; simpl; [by intros [= ->]|]. destruct (Nat.ltb_spec (length (local_trees c)) 5); [|done].
  apply IH, reach_step; [exact Hc|]. lia.
Qed.

Definition empty_cache : mcache := Cache 64 2 ∅ [] [] [] 0.

Lemma c5_reachable : reachable 64 2 c5.
Proof.
  apply (run_from_reachable [Start "a" (PySeq [1; 2]); AddResponse "a" (PySeq [7; 8]); Stop "a"; Start "b" (NdArray 1 "int32" true [3]);
  AddResponse "b" (PySeq [9])] empty_cache).
  - apply reach_init. reflexivity.
  - vm_compute. reflexivity.
Qed.

Lemma suffix_cache_invariant_witness :
  (forall s l, tree_seqs (global_tree c5) !! s = Some l -> exists r, r ∈ cached_requests c5 /\ dict_get (req_to_seq_id c5) r = Some s) /\
  Z.of_nat (length (cached_requests c5)) <= 2.
Proof. destruct (suffix_cache_invariant 64 2 c5 c5_reachable) as (_ & _ & Ht & Hl). split; [exact Ht|]. apply Hl. lia. Defined.


(** A prompt with a value beyond int32: the call raises and the request is active without a prompt. *)
Example unconverted_prompt_starts :
  let '(c, out) := run_op c5 (Start "c" (PySeq [5; 2 ^ 31])) in
  out = Raise (TypeError "incompatible function arguments") /\ active_requests c = ["b"%string; "c"%string] /\
  cached_requests c = ["a"%string; "b"%string].
Proof. vm_compute. by split_and!. Qed.

Lemma find_seq_id_terminates_witness : exists s next, find_seq_id 3 c5 2 = Some (s, next) /\ seq_free c5 s = true /\ 0 <= s <= int32_mask.
Proof. apply (find_seq_id_terminates c5); [apply (suffix_reachable_inv _ _ _ c5_reachable)|simpl; lia]. Defined.
End MiniTree.
