(* ===== verification/Demuxer.v ===== *)
(** * The demultiplexer of worker results

    Source: [src/arctic_platform/inference/semi_persistence/demuxer.py], and [_send] of
    [src/arctic_platform/inference/semi_persistence/instance.py].

    Callers put commands on a queue and then count them; a worker process answers in any
    order; a thread takes the answers, applies them to the instance, settles the count under a
    lock and calls listeners; callers wait for the count to reach zero.

    The operations are functions on the state of the demultiplexer.  [step] interleaves callers, worker and thread at the granularity of the
    locks and queues, and the theorems are about all interleavings.  The instance is a parameter: what a callback does to it, and that
    exceptions of callbacks and listeners are caught, which the code sees to. *)

From stdpp Require Import prelude strings list.
From Stdlib Require Import ZArith Lia.
From S2P Require Import Prelude Dict.
Local Open Scope Z_scope.

Section demuxer.
(** Errors, information of results, listeners, states of the instance. *)
Context {E I L A : Type} `{!EqDecision L}.
Context (apply_result : A -> string -> I -> A).

Record result := Result { r_cmd : string; r_elapsed : Z; r_error : option E; r_info : I }.

Record demuxer := Demuxer {
  pending_count : Z;
  pending_cmds : list string;
  latched_error : option (string * E);
  cmd_listeners : list (string * list L);
  all_listeners : list L;
}.

Definition demuxer_init : demuxer := Demuxer 0 [] None [] [].

(** ** Operations *)

Definition notify_send (d : demuxer) (cmd : string) : demuxer :=
  Demuxer (pending_count d + 1) (pending_cmds d ++ [cmd]) (latched_error d) (cmd_listeners d) (all_listeners d).

(** [while self._pending_count > 0: wait]. *)
Definition idle (d : demuxer) : bool := pending_count d <=? 0.

(** The rest of [wait_idle] once the count is down: the latched error is cleared and raised. *)
Definition take_error (d : demuxer) : demuxer * option (string * E) :=
  (Demuxer (pending_count d) (pending_cmds d) None (cmd_listeners d) (all_listeners d), latched_error d).

Definition with_listeners (d : demuxer) c a : demuxer := Demuxer (pending_count d) (pending_cmds d) (latched_error d) c a.

Definition add_listener (d : demuxer) (cmd : option string) (cb : L) : demuxer :=
  match cmd with
  | None => with_listeners d (cmd_listeners d) (all_listeners d ++ [cb])
  | Some c => with_listeners d (dict_set (cmd_listeners d) c (default [] (dict_get (cmd_listeners d) c) ++ [cb])) (all_listeners d)
  end.

(** [list.remove]: the first equal element. *)
Fixpoint remove_first (cb : L) (l : list L) : list L :=
  match l with [] => [] | x :: l => if decide (x = cb) then l else x :: remove_first cb l end.

Definition remove_listener (d : demuxer) (cmd : option string) (cb : L) : demuxer :=
  match cmd with
  | None => with_listeners d (cmd_listeners d) (remove_first cb (all_listeners d))
  | Some c =>
      match dict_get (cmd_listeners d) c with
      | Some l => with_listeners d (dict_set (cmd_listeners d) c (remove_first cb l)) (all_listeners d)
      | None => d
      end
  end.

(** The locked region of [_handle]. *)
Definition settle (d : demuxer) (r : result) : demuxer :=
  Demuxer (pending_count d - 1) (drop 1 (pending_cmds d))
    (match r_error r, latched_error d with Some e, None => Some (r_cmd r, e) | _, l => l end)
    (cmd_listeners d) (all_listeners d).

(** The listeners called for a result: those of its command, then those of every command. *)
Definition listeners_of (d : demuxer) (r : result) : list L := default [] (dict_get (cmd_listeners d) (r_cmd r)) ++ all_listeners d.

(** [_apply_result], for results without an error only. *)
Definition apply_ok (a : A) (r : result) : A := match r_error r with None => apply_result a (r_cmd r) (r_info r) | Some _ => a end.

(** [_handle], uninterrupted: the new demultiplexer, the new instance and the calls of listeners. *)
Definition handle (d : demuxer) (a : A) (r : result) : demuxer * A * list (L * result) :=
  let a := apply_ok a r in
  let d := settle d r in
  (d, a, (fun cb => (cb, r)) <$> listeners_of d r).

(** ** Callers, worker and thread *)

(** Where the thread is: at the head of its loop, waiting for a result, or in [_handle] before each of its three parts; ended. *)
Inductive tpc := TLoop | TGet | TApply (r : result) | TSettle (r : result) | TDispatch (r : result) | TEnded.

Record sys := Sys {
  dmx : demuxer;
  inst : A;
  callers : list (option string); (* in [_send], after the put and before [notify_send] *)
  cmd_queue : list string;
  result_queue : list result;
  thread : tpc;
  stopping : bool;
  (* history *)
  sent : list string;
  settled : list result;
  calls : list (L * result);
  dispatched : list result;
  failures : list (string * E); (* settled since the last [wait_idle] returned *)
}.

Definition sys_init (n : nat) (a : A) : sys := Sys demuxer_init a (replicate n None) [] [] TLoop false [] [] [] [] [].

Inductive event :=
  | Put (i : nat) (cmd : string)
  | Notify (i : nat)
  | Work (j : nat) (r : result)
  | Check
  | Get
  | Empty
  | Closed
  | Proceed
  | WaitReturns (i : nat)
  | Add (cmd : option string) (cb : L)
  | Remove (cmd : option string) (cb : L)
  | Stop
  | Start.

Definition with_dmx (s : sys) d : sys :=
  Sys d (inst s) (callers s) (cmd_queue s) (result_queue s) (thread s) (stopping s) (sent s) (settled s) (calls s) (dispatched s) (failures s).
Definition with_thread (s : sys) t : sys :=
  Sys (dmx s) (inst s) (callers s) (cmd_queue s) (result_queue s) t (stopping s) (sent s) (settled s) (calls s) (dispatched s) (failures s).

(** [cmd_queue.put] and then [notify_send]. *)
Definition put (s : sys) (i : nat) (cmd : string) : option sys :=
  match callers s !! i with
  | Some None =>
      Some (Sys (dmx s) (inst s) (<[i := Some cmd]> (callers s)) (cmd_queue s ++ [cmd]) (result_queue s) (thread s) (stopping s)
        (sent s ++ [cmd]) (settled s) (calls s) (dispatched s) (failures s))
  | _ => None
  end.

Definition notify (s : sys) (i : nat) : option sys :=
  match callers s !! i with
  | Some (Some cmd) =>
      Some (Sys (notify_send (dmx s) cmd) (inst s) (<[i := None]> (callers s)) (cmd_queue s) (result_queue s) (thread s) (stopping s)
        (sent s) (settled s) (calls s) (dispatched s) (failures s))
  | _ => None
  end.

(** The worker answers a command, not always the oldest one. *)
Definition work (s : sys) (j : nat) (r : result) : option sys :=
  match cmd_queue s !! j with
  | Some cmd =>
      if decide (r_cmd r = cmd) then
        Some (Sys (dmx s) (inst s) (callers s) (take j (cmd_queue s) ++ drop (S j) (cmd_queue s)) (result_queue s ++ [r]) (thread s) (stopping s)
          (sent s) (settled s) (calls s) (dispatched s) (failures s))
      else None
  | None => None
  end.

(** [_loop]: the flag is read, then a result taken; the queue may stay empty for a while, or be closed. *)
Definition check_stop (s : sys) : option sys :=
  match thread s with TLoop => Some (with_thread s (if stopping s then TEnded else TGet)) | _ => None end.

Definition get (s : sys) : option sys :=
  match thread s, result_queue s with
  | TGet, r :: q =>
      Some (Sys (dmx s) (inst s) (callers s) (cmd_queue s) q (TApply r) (stopping s) (sent s) (settled s) (calls s) (dispatched s) (failures s))
  | _, _ => None
  end.

Definition get_fails (s : sys) (closed : bool) : option sys :=
  match thread s with TGet => Some (with_thread s (if closed then TEnded else TLoop)) | _ => None end.

(** The next part of [_handle]. *)
Definition proceed (s : sys) : option sys :=
  match thread s with
  | TApply r =>
      Some (Sys (dmx s) (apply_ok (inst s) r) (callers s) (cmd_queue s) (result_queue s) (TSettle r) (stopping s)
        (sent s) (settled s) (calls s) (dispatched s) (failures s))
  | TSettle r =>
      Some (Sys (settle (dmx s) r) (inst s) (callers s) (cmd_queue s) (result_queue s) (TDispatch r) (stopping s)
        (sent s) (settled s ++ [r]) (calls s) (dispatched s) (failures s ++ match r_error r with Some e => [(r_cmd r, e)] | None => [] end))
  | TDispatch r =>
      Some (Sys (dmx s) (inst s) (callers s) (cmd_queue s) (result_queue s) TLoop (stopping s)
        (sent s) (settled s) (calls s ++ ((fun cb => (cb, r)) <$> listeners_of (dmx s) r)) (dispatched s ++ [r]) (failures s))
  | TLoop | TGet | TEnded => None
  end.

Definition wait_returns (s : sys) (i : nat) : option (sys * option (string * E)) :=
  match callers s !! i with
  | Some None =>
      if idle (dmx s) then
        let '(d, err) := take_error (dmx s) in
        Some (Sys d (inst s) (callers s) (cmd_queue s) (result_queue s) (thread s) (stopping s) (sent s) (settled s) (calls s) (dispatched s) [], err)
      else None
  | _ => None
  end.

Definition set_stopping (s : sys) b : sys :=
  Sys (dmx s) (inst s) (callers s) (cmd_queue s) (result_queue s) (thread s) b (sent s) (settled s) (calls s) (dispatched s) (failures s).

(** [start]: nothing if the thread is alive. *)
Definition start (s : sys) : sys := match thread s with TEnded => with_thread (set_stopping s false) TLoop | _ => s end.

Definition step (s : sys) (e : event) : option sys :=
  match e with
  | Put i cmd => put s i cmd
  | Notify i => notify s i
  | Work j r => work s j r
  | Check => check_stop s
  | Get => get s
  | Empty => get_fails s false
  | Closed => get_fails s true
  | Proceed => proceed s
  | WaitReturns i => fst <$> wait_returns s i
  | Add c cb => Some (with_dmx s (add_listener (dmx s) c cb))
  | Remove c cb => Some (with_dmx s (remove_listener (dmx s) c cb))
  | Stop => Some (set_stopping s true)
  | Start => Some (start s)
  end.

Inductive reachable (n : nat) (a : A) : sys -> Prop :=
  | r_init : reachable n a (sys_init n a)
  | r_step s e s' : reachable n a s -> step s e = Some s' -> reachable n a s'.

(** Events one after the other. *)
Fixpoint run (s : sys) (es : list event) : option sys :=
  match es with [] => Some s | e :: es => s' ← step s e; run s' es end.

Lemma run_reachable n a s es s' : reachable n a s -> run s es = Some s' -> reachable n a s'.
Proof.
  revert s. induction es as [|e es IH]; intros s Hs; simpl; [by intros [= <-]|]. destruct (step s e) as [s1|] eqn:Hst; [|done]. simpl.
  apply IH. by eapply r_step.
Qed.

(** ** The invariant *)

(** A result that the thread has taken and not yet settled. *)
Definition taken (t : tpc) : list result := match t with TApply r | TSettle r => [r] | _ => [] end.
(** ... applied and not yet settled; settled and not yet dispatched. *)
Definition applied (t : tpc) : list result := match t with TSettle r => [r] | _ => [] end.
Definition undispatched (t : tpc) : list result := match t with TDispatch r => [r] | _ => [] end.

Definition uncounted (l : list (option string)) : list string := omap id l.

Record inv (a0 : A) (s : sys) : Prop := {
  i_commands : sent s ≡ₚ cmd_queue s ++ (r_cmd <$> result_queue s ++ taken (thread s) ++ settled s);
  i_count : pending_count (dmx s) + Z.of_nat (length (uncounted (callers s))) = Z.of_nat (length (sent s)) - Z.of_nat (length (settled s));
  i_error : latched_error (dmx s) = head (failures s);
  i_inst : inst s = foldl apply_ok a0 (settled s ++ applied (thread s));
  i_dispatch : dispatched s ++ undispatched (thread s) = settled s;
  i_calls : (calls s).*2 ⊆ dispatched s;
}.

Lemma demux_inv_init n a : inv a (sys_init n a).
Proof.
  split; simpl; try done. unfold uncounted. assert (E0 : omap id (replicate n None : list (option string)) = []) by (induction n; simpl; done). by rewrite E0.
Qed.

Lemma uncounted_set (l : list (option string)) i c : l !! i = Some None -> uncounted (<[i := Some c]> l) ≡ₚ c :: uncounted l.
Proof.
  revert i. induction l as [|x l IH]; intros [|i] Hi; simplify_eq/=; [done|]. unfold uncounted in *. destruct x; simpl; rewrite (IH i Hi); [|done]. apply Permutation_swap.
Qed.

Lemma uncounted_clear (l : list (option string)) i c : l !! i = Some (Some c) -> c :: uncounted (<[i := None]> l) ≡ₚ uncounted l.
Proof.
  revert i. induction l as [|x l IH]; intros [|i] Hi; simplify_eq/=; [done|]. unfold uncounted in *. destruct x; simpl; rewrite <- (IH i Hi); [|done]. apply Permutation_swap.
Qed.

(** Steps that touch neither commands nor results. *)
Lemma inv_listeners a0 s c al : inv a0 s -> inv a0 (with_dmx s (with_listeners (dmx s) c al)).
Proof. intros []. by split. Qed.

Lemma demux_inv_put a0 s i c s' : inv a0 s -> put s i c = Some s' -> inv a0 s'.
Proof.
  intros [Hc Hn He Hi Hd Hl]. unfold put. destruct (callers s !! i) as [[|]|] eqn:Eq; try done. intros [= <-]. split; simpl; try done.
  - rewrite Hc, <- !app_assoc. apply Permutation_app_head, Permutation_app_comm.
  - rewrite (uncounted_set _ _ c Eq), length_app. simpl. lia.
Qed.

Lemma inv_notify a0 s i s' : inv a0 s -> notify s i = Some s' -> inv a0 s'.
Proof.
  intros [Hc Hn He Hi Hd Hl]. unfold notify. destruct (callers s !! i) as [[c|]|] eqn:Eq; try done. intros [= <-]. split; simpl; try done.
  rewrite <- (uncounted_clear _ _ c Eq) in Hn. simpl in Hn. lia.
Qed.

Lemma inv_work a0 s j r s' : inv a0 s -> work s j r = Some s' -> inv a0 s'.
Proof.
  intros [Hc Hn He Hi Hd Hl]. unfold work. destruct (cmd_queue s !! j) as [c|] eqn:Eq; [|done]. case_decide as Hr; [|done]. intros [= <-]. split; simpl; try done.
  rewrite Hc. rewrite (list_split_at _ _ _ Eq) at 1. rewrite !fmap_app, <- !app_assoc. apply Permutation_app_head. simpl. rewrite Hr.
  rewrite Permutation_middle. apply Permutation_app_head. rewrite Permutation_middle. done.
Qed.

Lemma inv_thread a0 s t : inv a0 s -> taken (thread s) = taken t -> applied (thread s) = applied t -> undispatched (thread s) = undispatched t -> inv a0 (with_thread s t).
Proof. intros [Hc Hn He Hi Hd Hl] E1 E2 E3. split; simpl; try done; by rewrite <- ?E1, <- ?E2, <- ?E3. Qed.

Lemma inv_get a0 s s' : inv a0 s -> get s = Some s' -> inv a0 s'.
Proof.
  intros [Hc Hn He Hi Hd Hl]. unfold get. destruct (thread s) eqn:Et; try done. destruct (result_queue s) as [|r q] eqn:Eq; [done|]. intros [= <-].
  split; simpl in *; try done. rewrite Hc. apply Permutation_app_head. csimpl. rewrite !fmap_app. simpl. apply Permutation_middle.
Qed.

Lemma inv_proceed a0 s s' : inv a0 s -> proceed s = Some s' -> inv a0 s'.
Proof.
  intros [Hc Hn He Hi Hd Hl]. unfold proceed. destruct (thread s) as [| |r|r|r|] eqn:Et; try done; intros [= <-]; split; simpl in *; try done.
  - rewrite foldl_app. simpl. rewrite app_nil_r in Hi. by rewrite Hi.
  - rewrite Hc. apply Permutation_app_head. rewrite !fmap_app. apply Permutation_app_head. simpl. apply Permutation_cons_append.
  - rewrite length_app. simpl. lia.
  - rewrite He. destruct (r_error r) as [e|]; [|by rewrite app_nil_r]. by destruct (failures s).
  - by rewrite app_nil_r, Hi.
  - by rewrite app_nil_r in Hd; rewrite Hd.
  - by rewrite app_nil_r.
  - rewrite fmap_app. intros x [Hx|Hx]%elem_of_app; apply elem_of_app; [left; by apply Hl|right].
    apply list_elem_of_fmap in Hx as ([cb r'] & -> & (cb' & [= -> ->] & _)%list_elem_of_fmap). by apply list_elem_of_singleton.
Qed.

Lemma inv_step a0 s e s' : inv a0 s -> step s e = Some s' -> inv a0 s'.
Proof.
  intros HI. destruct e as [i c|i|j r| | | | | |i|c cb|c cb| |]; cbn [step].
  - by apply demux_inv_put.
  - by apply inv_notify.
  - by apply inv_work.
  - unfold check_stop. destruct (thread s) eqn:Et; try done. intros [= <-]. apply inv_thread; [done|rewrite Et; by destruct (stopping s)..].
  - by apply inv_get.
  - unfold get_fails. destruct (thread s) eqn:Et; try done. intros [= <-]. by apply inv_thread; [|rewrite Et..].
  - unfold get_fails. destruct (thread s) eqn:Et; try done. intros [= <-]. by apply inv_thread; [|rewrite Et..].
  - by apply inv_proceed.
  - unfold wait_returns. destruct (callers s !! i) as [[|]|]; try done. destruct (idle _); [|done]. intros [= <-]. destruct HI. by split.
  - intros [= <-]. unfold add_listener. destruct c; by apply inv_listeners.
  - intros [= <-]. unfold remove_listener. destruct c; [destruct (dict_get _ _)|]; by apply inv_listeners || (destruct HI; by split).
  - intros [= <-]. destruct HI. by split.
  - intros [= <-]. unfold start. destruct (thread s) eqn:Et; try done. destruct HI as [Hc Hn He Hi Hd Hl]. rewrite Et in *. by split.
Qed.

Lemma demux_reachable_inv n a s : reachable n a s -> inv a s.
Proof. induction 1 as [|s e s' _ IH Hst]; [apply demux_inv_init|by eapply inv_step]. Qed.

(** ** Waiting *)

Lemma wait_settled n a s i s' err :
  reachable n a s -> wait_returns s i = Some (s', err) -> uncounted (callers s) = [] ->
  cmd_queue s = [] /\ result_queue s = [] /\ (r_cmd <$> settled s) ≡ₚ sent s /\ inst s = foldl apply_ok a (settled s) /\ err = head (failures s) /\ failures s' = [].
Proof.
  intros Hr Hw Hu. destruct (demux_reachable_inv n a s Hr) as [Hc Hn He Hi Hd Hl]. unfold wait_returns in Hw. destruct (callers s !! i) as [[|]|]; try done.
  unfold idle in Hw. destruct (Z.leb_spec (pending_count (dmx s)) 0) as [Hle|]; [|done]. simpl in Hw. injection Hw as <- <-. rewrite Hu in Hn. simpl in Hn.
  pose proof (Permutation_length Hc) as Hlen. rewrite length_app, length_fmap, !length_app in Hlen.
  assert (Hq : cmd_queue s = []) by (apply nil_length_inv; lia). assert (Hrq : result_queue s = []) by (apply nil_length_inv; lia).
  assert (Ht : taken (thread s) = []) by (apply nil_length_inv; lia). rewrite Hq, Hrq, Ht in Hc. simpl in Hc.
  assert (Ha : applied (thread s) = []) by (by destruct (thread s)). rewrite Ha, app_nil_r in Hi. split_and!; done.
Qed.

(** One caller: in [wait_idle] it is not in [_send]. *)
Lemma callers_length n a s : reachable n a s -> length (callers s) = n.
Proof.
  induction 1 as [|s e s' _ IH Hst]; [apply length_replicate|]. destruct e as [i c|i|j r| | | | | |i|c cb|c cb| |]; cbn [step] in Hst.
  - unfold put in Hst. destruct (callers s !! i) as [[|]|]; try done. injection Hst as <-. simpl. by rewrite length_insert.
  - unfold notify in Hst. destruct (callers s !! i) as [[|]|]; try done. injection Hst as <-. simpl. by rewrite length_insert.
  - unfold work in Hst. destruct (cmd_queue s !! j); [|done]. case_decide; [|done]. by injection Hst as <-.
  - unfold check_stop in Hst. destruct (thread s); try done. by injection Hst as <-.
  - unfold get in Hst. destruct (thread s); try done. destruct (result_queue s); [done|]. by injection Hst as <-.
  - unfold get_fails in Hst. destruct (thread s); try done. by injection Hst as <-.
  - unfold get_fails in Hst. destruct (thread s); try done. by injection Hst as <-.
  - unfold proceed in Hst. destruct (thread s); try done; by injection Hst as <-.
  - unfold wait_returns in Hst. destruct (callers s !! i) as [[|]|]; try done. destruct (idle _); [|done]. by injection Hst as <-.
  - by injection Hst as <-.
  - by injection Hst as <-.
  - by injection Hst as <-.
  - injection Hst as <-. unfold start. by destruct (thread s).
Qed.

Lemma wait_caller n a s i s' err : reachable n a s -> wait_returns s i = Some (s', err) -> n = 1%nat -> uncounted (callers s) = [].
Proof.
  intros Hr Hw ->. pose proof (callers_length _ _ _ Hr) as Hl. unfold wait_returns in Hw. destruct (callers s) as [|x [|]]; try done.
  destruct i; simpl in Hw; [|done]. by destruct x.
Qed.

(** C32: whatever the interleaving of callers, worker and demultiplexer thread, when [wait_idle] returns and no other caller is in the middle of sending a command (in particular
    when there is only one caller), every command sent has been answered and settled, the instance has had every successful result applied to it, and the call raises
    exactly when a command has failed since the last [wait_idle] returned, with the first of these errors, which is then cleared. *)
Theorem wait_idle_sound n a s i s' err :
  reachable n a s -> wait_returns s i = Some (s', err) -> n = 1%nat \/ uncounted (callers s) = [] ->
  cmd_queue s = [] /\ result_queue s = [] /\ (r_cmd <$> settled s) ≡ₚ sent s /\ inst s = foldl apply_ok a (settled s) /\ err = head (failures s) /\ failures s' = [].
Proof.
  intros Hr Hw Hn. apply (wait_settled n a s i s' err Hr Hw). destruct Hn as [Hn|Hn]; [|done]. by eapply wait_caller.
Qed.

(** In every reachable state of callers, worker and demultiplexer thread: the pending count is the number of commands sent and not settled, less those whose senders have
    not yet counted them; each listener call is for a result that was settled before, and all results settled so far were applied to the instance
    before they were settled; the results are handed to the listeners in the order in which they were settled; the latched error is the first one since the last wait. *)
Theorem demuxer_invariant n a s :
  reachable n a s ->
  pending_count (dmx s) = Z.of_nat (length (sent s)) - Z.of_nat (length (settled s)) - Z.of_nat (length (uncounted (callers s))) /\
  sent s ≡ₚ cmd_queue s ++ (r_cmd <$> result_queue s ++ taken (thread s) ++ settled s) /\
  inst s = foldl apply_ok a (settled s ++ applied (thread s)) /\
  (calls s).*2 ⊆ settled s /\ dispatched s `prefix_of` settled s /\
  latched_error (dmx s) = head (failures s).
Proof.
  intros Hr. destruct (demux_reachable_inv n a s Hr) as [Hc Hn He Hi Hd Hl]. split_and!; try done; [lia| |].
  - rewrite <- Hd. intros x Hx%Hl. apply elem_of_app. by left.
  - rewrite <- Hd. by apply prefix_app_r.
Qed.

(** The thread alone, from a taken result: the three parts of [_handle] are [handle]. *)
Lemma proceed_handle s r :
  thread s = TApply r ->
  exists s', run s [Proceed; Proceed; Proceed] = Some s' /\ (dmx s', inst s', calls s') = (let '(d, a, l) := handle (dmx s) (inst s) r in (d, a, calls s ++ l)) /\ thread s' = TLoop.
Proof. intros Ht. simpl. unfold proceed at 3. rewrite Ht. simpl. eexists. split; [done|]. done. Qed.

(** A result wakes the waiters up as soon as it is the last one: with no sender in between, the count is then zero. *)
Lemma settled_all_idle n a s :
  reachable n a s -> uncounted (callers s) = [] -> cmd_queue s = [] -> result_queue s = [] -> taken (thread s) = [] -> idle (dmx s) = true.
Proof.
  intros Hr Hu Hc Hq Ht. destruct (demux_reachable_inv n a s Hr) as [Hp Hn _ _ _ _]. rewrite Hu in Hn. rewrite Hc, Hq, Ht in Hp. apply Permutation_length in Hp.
  simpl in Hp. rewrite length_fmap in Hp. unfold idle. apply Z.leb_le. simpl in Hn. lia.
Qed.
End demuxer.

(** ** Small runs *)

Module MiniDemuxer.
Abbreviation msys := (sys (E := string) (I := unit) (L := nat) (A := list string)).
Abbreviation mevent := (event (E := string) (I := unit) (L := nat)).
Definition app (a : list string) (cmd : string) (_ : unit) : list string := a ++ [cmd].
Definition ok (cmd : string) : result (E := string) (I := unit) := Result cmd 0 None ().
Definition bad (cmd e : string) : result (E := string) (I := unit) := Result cmd 0 (Some e) ().

(** One caller sends two commands; the second fails; the waiter gets its error. *)
Definition two : list mevent :=
  [Add None 7%nat; Put 0 "sleep"; Notify 0; Put 0 "pause"; Notify 0; Work 1 (bad "pause" "oops"); Work 0 (ok "sleep");
   Check; Get; Proceed; Proceed; Proceed; Check; Get; Proceed; Proceed].

Definition after (n : nat) (es : list mevent) : msys := default (sys_init n []) (run app (sys_init n []) es).

Lemma after_reachable n es : is_Some (run app (sys_init n []) es) -> reachable app n [] (after n es).
Proof. intros [s Hs]. unfold after. rewrite Hs. simpl. eapply run_reachable; [apply r_init|exact Hs]. Qed.

Lemma wait_idle_sound_witness :
  exists s', wait_returns (after 1 two) 0 = Some (s', Some ("pause"%string, "oops"%string)) /\ cmd_queue (after 1 two) = [] /\ (r_cmd <$> settled (after 1 two)) ≡ₚ sent (after 1 two).
Proof.
  assert (Hrun : exists s', wait_returns (after 1 two) 0 = Some (s', Some ("pause"%string, "oops"%string))) by (eexists; vm_compute; reflexivity).
  destruct Hrun as [s' Hw]. exists s'. split; [exact Hw|].
  destruct (wait_idle_sound app 1 [] (after 1 two) 0 s' _ (after_reachable 1 two ltac:(vm_compute; eauto)) Hw (or_introl eq_refl)) as (Hq & _ & Hs & _). split; [exact Hq|exact Hs].
Defined.

Lemma demuxer_invariant_witness : pending_count (dmx (after 1 two)) = 0 /\ (calls (after 1 two)).*2 ⊆ settled (after 1 two) /\ inst (after 1 two) = ["sleep"%string].
Proof.
  destruct (demuxer_invariant app 1 [] (after 1 two) (after_reachable 1 two ltac:(vm_compute; eauto))) as (Hc & _ & Hi & Hl & _).
  split; [rewrite Hc; vm_compute; reflexivity|]. split; [exact Hl|]. rewrite Hi. vm_compute. reflexivity.
Defined.

(** [_send] counts a command only after it was put on the queue, and the answer can overtake the count.  Then (1) [wait_idle] of a second caller returns although
    the command this caller has sent and counted has not even reached the worker; and (2) with a single caller, when everything is settled and the count is zero, the
    list of pending commands still names a command, and keeps one too many from then on. *)
Theorem count_overtaken :
  (exists s : msys, reachable app 2 [] s /\ callers s !! 1%nat = Some None /\ is_Some (wait_returns s 1) /\ cmd_queue s = ["pause"%string]) /\
  (exists s : msys, reachable app 1 [] s /\ uncounted (callers s) = [] /\ cmd_queue s = [] /\ result_queue s = [] /\ taken (thread s) = [] /\
     pending_count (dmx s) = 0 /\ pending_cmds (dmx s) = ["sleep"%string]).
Proof.
  split.
  - exists (after 2 [Put 0 "sleep"; Work 0 (ok "sleep"); Check; Get; Proceed; Proceed; Put 1 "pause"; Notify 1]).
    split; [apply after_reachable; vm_compute; eauto|]. vm_compute. eauto.
  - exists (after 1 [Put 0 "sleep"; Work 0 (ok "sleep"); Check; Get; Proceed; Proceed; Proceed; Notify 0]).
    split; [apply after_reachable; vm_compute; eauto|]. vm_compute. split_and!; reflexivity.
Qed.
End MiniDemuxer.
