(* ===== verification/Pipelines.v ===== *)
(** * The per-model operation pipelines

    Source: [src/arctic_platform/inference/semi_persistence/pipeline.py] ([InterruptFlag],
    [ModelPipeline]).

    Every model has a queue of operations and one worker thread.  Operations are appended to the
    queue; a pause goes to a front buffer that the worker looks at first, and an empty operation
    is queued to wake the worker.  While it executes an operation, a worker may submit an
    operation to another pipeline and wait for it; before that it sets [_waiting_on] and walks
    along the chain of waiting workers, and the submission is refused if the chain comes back.

    All threads are interleaved: an action is one access to shared state (a turn of the walk
    reads one [_waiting_on]).  What the operations themselves do is left open: between its start
    and its end an operation may submit to any pipeline and wait, any number of times, and end
    with any outcome.  Pipelines are numbered; their set is fixed. *)

From stdpp Require Import prelude strings list relations gmap.
From Stdlib Require Import ZArith Lia.
From S2P Require Import Prelude.
Local Open Scope nat_scope.

(** ** Pipelines *)

(** Queue items: an operation, the empty operation that wakes the worker, the stop mark. *)
Inductive item := Tail (o : nat) | NoOp | Shutdown.

Inductive outcome := Result | Exception | WasInterrupted.

Inductive start := StartTail (o : nat) | StartFront (o : nat).

(** The worker. *)
Inductive wpc :=
  | AtFront (* about to look at the front buffer *)
  | AtGet (* it was empty: in [q.get()] *)
  | Exec (o : nat) (fr : bool)
  | Walk (o : nat) (fr : bool) (peer sub : nat) (node : option nat) (seen : list nat) (* in [peer.submit], looking for a cycle *)
  | Waiting (o : nat) (fr : bool) (peer sub : nat) (* in [fut.result()] *)
  | Stopped.

Record pipeline := Pipeline {
  queue : list item;
  front : list nat;
  unfinished_tasks : nat;
  wakeups : nat; (* callers of [submit_front] that have still to queue the empty operation *)
  stopping : bool;
  interrupt : option string;
  waiting_on : option nat;
  worker : wpc;
  settled : list (nat * outcome); (* the futures that are resolved *)
  (* history *)
  log : list start;
  tail_subs : list nat;
  front_subs : list nat;
  stamp : nat; (* when [waiting_on] was set *)
}.

Definition pipeline_init : pipeline := Pipeline [] [] 0 0 false None None AtFront [] [] [] [] 0.

(** [InterruptFlag.set], [reset], [raise_if_set]. *)
Definition set_interrupt (p : pipeline) (i : option string) : pipeline :=
  Pipeline (queue p) (front p) (unfinished_tasks p) (wakeups p) (stopping p) i (waiting_on p) (worker p) (settled p) (log p) (tail_subs p)
    (front_subs p) (stamp p).
Definition raise_if_set (p : pipeline) : bool := bool_decide (is_Some (interrupt p)).

(** [q.put]. *)
Definition q_put (p : pipeline) (it : item) : pipeline :=
  Pipeline (queue p ++ [it]) (front p) (S (unfinished_tasks p)) (wakeups p) (stopping p) (interrupt p) (waiting_on p) (worker p) (settled p)
    (log p) (tail_subs p) (front_subs p) (stamp p).

(** [submit], once the check has passed. *)
Definition submit (p : pipeline) (o : nat) : pipeline :=
  let p := q_put p (Tail o) in
  Pipeline (queue p) (front p) (unfinished_tasks p) (wakeups p) (stopping p) (interrupt p) (waiting_on p) (worker p) (settled p) (log p)
    (tail_subs p ++ [o]) (front_subs p) (stamp p).

(** [submit_front]: the front buffer, then the empty operation. *)
Definition front_append (p : pipeline) (o : nat) : pipeline :=
  Pipeline (queue p) (front p ++ [o]) (unfinished_tasks p) (S (wakeups p)) (stopping p) (interrupt p) (waiting_on p) (worker p) (settled p)
    (log p) (tail_subs p) (front_subs p ++ [o]) (stamp p).
Definition wake (p : pipeline) : option pipeline :=
  match wakeups p with
  | O => None
  | S k => Some (q_put (Pipeline (queue p) (front p) (unfinished_tasks p) k (stopping p) (interrupt p) (waiting_on p) (worker p) (settled p)
    (log p) (tail_subs p) (front_subs p) (stamp p)) NoOp)
  end.

(** [shutdown], after the drain. *)
Definition put_shutdown (p : pipeline) : pipeline :=
  let p := q_put p Shutdown in
  Pipeline (queue p) (front p) (unfinished_tasks p) (wakeups p) true (interrupt p) (waiting_on p) (worker p) (settled p) (log p) (tail_subs
    p) (front_subs p) (stamp p).

(** What [drain] waits for. *)
Definition drained (p : pipeline) : bool := bool_decide (front p = []) && (unfinished_tasks p =? 0).

Definition set_worker (p : pipeline) (w : wpc) : pipeline :=
  Pipeline (queue p) (front p) (unfinished_tasks p) (wakeups p) (stopping p) (interrupt p) (waiting_on p) w (settled p) (log p) (tail_subs
    p) (front_subs p) (stamp p).

(** [_next_item]: the front buffer ... *)
Definition check_front (p : pipeline) : option pipeline :=
  match worker p, front p with
  | AtFront, o :: f =>
      Some (Pipeline (queue p) f (unfinished_tasks p) (wakeups p) (stopping p) (interrupt p) (waiting_on p) (Exec o true) (settled p) (log p
        ++ [StartFront o]) (tail_subs p) (front_subs p) (stamp p))
  | AtFront, [] => Some (set_worker p AtGet)
  | _, _ => None
  end.

(** ... and the queue, with what [_run] does with the item. *)
Definition get_item (p : pipeline) : option pipeline :=
  match worker p, queue p with
  | AtGet, Tail o :: q =>
      Some (Pipeline q (front p) (unfinished_tasks p) (wakeups p) (stopping p) (interrupt p) (waiting_on p) (Exec o false) (settled p) (log
        p ++ [StartTail o]) (tail_subs p) (front_subs p) (stamp p))
  | AtGet, NoOp :: q =>
      Some (Pipeline q (front p) (unfinished_tasks p - 1) (wakeups p) (stopping p) (interrupt p) (waiting_on p) AtFront (settled p) (log p)
        (tail_subs p) (front_subs p) (stamp p))
  | AtGet, Shutdown :: q =>
      Some (Pipeline q (front p) (unfinished_tasks p) (wakeups p) (stopping p) (interrupt p) (waiting_on p) Stopped (settled p) (log p)
        (tail_subs p) (front_subs p) (stamp p))
  | _, _ => None
  end.

(** The end of an operation: its future, and [task_done] for an item of the queue.  [Interrupted] is raised only while the flag is set. *)
Definition finish_op (p : pipeline) (r : outcome) : option pipeline :=
  match worker p with
  | Exec o fr =>
      if match r with WasInterrupted => negb (raise_if_set p) | _ => false end then None
      else Some (Pipeline (queue p) (front p) (if fr then unfinished_tasks p else unfinished_tasks p - 1) (wakeups p) (stopping p)
      (interrupt p) (waiting_on p) AtFront
             (settled p ++ [(o, r)]) (log p) (tail_subs p) (front_subs p) (stamp p))
  | _ => None
  end.

Definition set_wait (p : pipeline) (w : option nat) (c : wpc) (t : nat) : pipeline :=
  Pipeline (queue p) (front p) (unfinished_tasks p) (wakeups p) (stopping p) (interrupt p) w c (settled p) (log p) (tail_subs p) (front_subs p) t.

(** ** The system *)

Record sys := Sys { pipes : list pipeline; clock : nat }.

Definition sys_init (n : nat) : sys := Sys (replicate n pipeline_init) 0.

Definition at_pipe (s : sys) (i : nat) (f : pipeline -> option pipeline) : option sys :=
  p ← pipes s !! i; p' ← f p; Some (Sys (<[i := p']> (pipes s)) (clock s)).

(** [submit_to_peer_and_wait], the start: [_waiting_on] is set; a submission to itself is not checked. *)
Definition call_peer (s : sys) (i peer sub : nat) : option sys :=
  p ← pipes s !! i;
  _ ← pipes s !! peer;
  match worker p with
  | Exec o fr =>
      let node := if bool_decide (peer = i) then None else Some peer in
      Some (Sys (<[i := set_wait p (Some peer) (Walk o fr peer sub node []) (clock s)]> (pipes s)) (S (clock s)))
  | _ => None
  end.

(** One turn of the loop of [_assert_no_cross_pipeline_cycle]; when it raises, [_waiting_on] is cleared. *)
Definition walk_turn (s : sys) (i : nat) : option sys :=
  p ← pipes s !! i;
  match worker p with
  | Walk o fr peer sub (Some k) seen =>
      if bool_decide (k = i) then Some (Sys (<[i := set_wait p None (Exec o fr) (stamp p)]> (pipes s)) (clock s))
      else if bool_decide (k ∈ seen) then Some (Sys (<[i := set_worker p (Walk o fr peer sub None seen)]> (pipes s)) (clock s))
      else pk ← pipes s !! k; Some (Sys (<[i := set_worker p (Walk o fr peer sub (waiting_on pk) (seen ++ [k]))]> (pipes s)) (clock s))
  | _ => None
  end.

(** The check has passed: the operation is queued and the worker waits. *)
Definition put_peer (s : sys) (i : nat) : option sys :=
  p ← pipes s !! i;
  match worker p with
  | Walk o fr peer sub None _ =>
      let ps := <[i := set_worker p (Waiting o fr peer sub)]> (pipes s) in
      q ← ps !! peer; Some (Sys (<[peer := submit q sub]> ps) (clock s))
  | _ => None
  end.

(** The future of the submitted operation is resolved. *)
Definition result_of (s : sys) (i : nat) : option sys :=
  p ← pipes s !! i;
  match worker p with
  | Waiting o fr peer sub =>
      q ← pipes s !! peer;
      if bool_decide (sub ∈ (settled q).*1) then Some (Sys (<[i := set_wait p None (Exec o fr) (stamp p)]> (pipes s)) (clock s)) else None
  | _ => None
  end.

(** ** Actions *)

Inductive action :=
  (* other threads *)
  | ASubmit (i o : nat) | AFront (i o : nat) | AWake (i : nat) | AInterrupt (i : nat) (reason : string) | AShutdown (i : nat)
  (* the worker of [i] *)
  | ACheckFront (i : nat) | AGet (i : nat) | AFinish (i : nat) (r : outcome) | AReset (i : nat) | ACall (i peer sub : nat) |
    AWalk (i : nat) | APut (i : nat) | AResult (i : nat).

Definition act (s : sys) (a : action) : option sys :=
  match a with
  | ASubmit i o => at_pipe s i (fun p => Some (submit p o))
  | AFront i o => at_pipe s i (fun p => Some (front_append p o))
  | AWake i => at_pipe s i wake
  | AInterrupt i r => at_pipe s i (fun p => Some (set_interrupt p (Some r)))
  | AShutdown i => at_pipe s i (fun p => Some (put_shutdown p))
  | ACheckFront i => at_pipe s i check_front
  | AGet i => at_pipe s i get_item
  | AFinish i r => at_pipe s i (fun p => finish_op p r)
  | AReset i => at_pipe s i (fun p => match worker p with Exec _ _ => Some (set_interrupt p None) | _ => None end)
  | ACall i peer sub => call_peer s i peer sub
  | AWalk i => walk_turn s i
  | APut i => put_peer s i
  | AResult i => result_of s i
  end.

Fixpoint acts (s : sys) (l : list action) : option sys :=
  match l with [] => Some s | a :: l => s' ← act s a; acts s' l end.

(** *** Order *)

Definition tails (q : list item) : list nat := omap (fun it => match it with Tail o => Some o | _ => None end) q.
Definition tail_starts (l : list start) : list nat := omap (fun e => match e with StartTail o => Some o | _ => None end) l.
Definition front_starts (l : list start) : list nat := omap (fun e => match e with StartFront o => Some o | _ => None end) l.
Definition op_of (e : start) : nat := match e with StartTail o | StartFront o => o end.

(** The operation that the worker has started and not ended, and whether it came from the queue. *)
Definition current (w : wpc) : list nat := match w with Exec o _ | Walk o _ _ _ _ _ | Waiting o _ _ _ => [o] | _ => [] end.
Definition counted (w : wpc) : nat := match w with Exec _ false | Walk _ false _ _ _ _ | Waiting _ false _ _ => 1 | Stopped => 1 | _ => 0 end.

Record ordered (p : pipeline) : Prop := {
  o_tail : tail_subs p = tail_starts (log p) ++ tails (queue p);
  o_front : front_subs p = front_starts (log p) ++ front p;
  o_count : unfinished_tasks p = length (queue p) + counted (worker p);
  o_settled : op_of <$> log p = (settled p).*1 ++ current (worker p);
}.

Lemma ordered_put p it : ordered p -> match it with Tail _ => True | _ => ordered (q_put p it) end.
Proof.
  intros [H1 H2 H3 H4]. destruct it; [done|..]; (split; simpl; [|done| |done]); [|rewrite length_app; simpl; lia| |rewrite length_app; simpl; lia];
    unfold tails; rewrite omap_app; simpl; by rewrite app_nil_r.
Qed.

Lemma ordered_submit p o : ordered p -> ordered (submit p o).
Proof.
  intros [H1 H2 H3 H4]. split; simpl; [|done| |done]; [|rewrite length_app; simpl; lia]. unfold tails. rewrite omap_app, H1. simpl.
  by rewrite <- app_assoc.
Qed.

Lemma ordered_front p o : ordered p -> ordered (front_append p o).
Proof. intros [H1 H2 H3 H4]. split; simpl; try done. by rewrite H2, <- app_assoc. Qed.

Lemma ordered_wake p p' : ordered p -> wake p = Some p' -> ordered p'.
Proof. intros Ho. unfold wake. destruct (wakeups p) as [|k]; [done|]. intros [= <-].
  apply (ordered_put (Pipeline _ _ _ _ _ _ _ _ _ _ _ _ _) NoOp). destruct Ho. by split. Qed.

Lemma ordered_shutdown p : ordered p -> ordered (put_shutdown p).
Proof. intros Ho. destruct (ordered_put p Shutdown Ho). by split. Qed.

Lemma ordered_interrupt p r : ordered p -> ordered (set_interrupt p r).
Proof. intros []. by split. Qed.

Lemma ordered_worker p w : ordered p -> current w = current (worker p) -> counted w = counted (worker p) -> ordered (set_worker p w).
Proof. intros [H1 H2 H3 H4] Hc Hn. split; simpl; try done; [by rewrite Hn|by rewrite Hc]. Qed.

Lemma ordered_set_wait p w c t : ordered p -> current c = current (worker p) -> counted c = counted (worker p) -> ordered (set_wait p w c t).
Proof. intros Ho Hc Hn. destruct (ordered_worker p c Ho Hc Hn). by split. Qed.

Lemma ordered_check_front p p' : ordered p -> check_front p = Some p' -> ordered p'.
Proof.
  intros Ho. unfold check_front. destruct (worker p) eqn:Ew; try done. destruct (front p) as [|o f] eqn:Ef; intros [= <-].
  - apply ordered_worker; [done|by rewrite Ew..].
  - destruct Ho as [H1 H2 H3 H4]. rewrite Ew in H3, H4. simpl in *. split; simpl; [|rewrite H2, Ef|done|].
    + unfold tail_starts. rewrite omap_app. simpl. rewrite app_nil_r. done.
    + unfold front_starts. rewrite omap_app. simpl. by rewrite <- app_assoc.
    + rewrite fmap_app, H4, app_nil_r. done.
Qed.

Lemma ordered_get p p' : ordered p -> get_item p = Some p' -> ordered p'.
Proof.
  intros [H1 H2 H3 H4]. unfold get_item. destruct (worker p) eqn:Ew; try done. destruct (queue p) as [|it q] eqn:Eq; [done|].
  simpl in H3, H4. destruct it as [o| |]; intros [= <-]; split; simpl; try done; try lia.
  - unfold tail_starts, tails in *. rewrite omap_app, H1. simpl. by rewrite <- app_assoc.
  - unfold front_starts in *. rewrite omap_app, H2. simpl. by rewrite app_nil_r.
  - rewrite fmap_app, H4, app_nil_r. done.
Qed.

Lemma ordered_finish p r p' : ordered p -> finish_op p r = Some p' -> ordered p'.
Proof.
  intros [H1 H2 H3 H4]. unfold finish_op. destruct (worker p) as [| |o fr| | |] eqn:Ew; try done. simpl in H3, H4.
  destruct (match r with WasInterrupted => _ | _ => _ end); [done|]. intros [= <-]. split; simpl; try done.
  - destruct fr; lia.
  - rewrite fmap_app, app_nil_r. simpl. exact H4.
Qed.

Definition all_ordered (s : sys) : Prop := forall i p, pipes s !! i = Some p -> ordered p.

Lemma insert_ordered ps i q c c' : all_ordered (Sys ps c) -> ordered q -> all_ordered (Sys (<[i := q]> ps) c').
Proof. intros Hs Hq j p. simpl. rewrite list_lookup_insert_Some. intros [(_ & <- & _)|[_ Hp]]; [done|by apply (Hs j)]. Qed.

Lemma at_pipe_ordered s i f s' : all_ordered s -> (forall p p', ordered p -> f p = Some p' -> ordered p') -> at_pipe s i f = Some s' ->
    all_ordered s'.
Proof.
  intros Hs Hf. unfold at_pipe. destruct (pipes s !! i) as [p|] eqn:Ep; [|done]. simpl. destruct (f p) as [p'|] eqn:Efp; [|done].
  intros [= <-]. apply (insert_ordered _ i _ (clock s)); [exact Hs|].
  apply (Hf p); [by apply (Hs i)|done].
Qed.

Lemma act_ordered s a s' : all_ordered s -> act s a = Some s' -> all_ordered s'.
Proof.
  intros Hs. destruct a as [i o|i o|i|i r|i|i|i|i r|i|i peer sub|i|i|i]; simpl;
    try (apply at_pipe_ordered; [done|]; intros p p' Hp; first [by intros [= <-];
    first [apply ordered_submit|apply ordered_front|apply ordered_interrupt|apply ordered_shutdown] | by apply ordered_wake |
    by apply ordered_check_front | by apply ordered_get | by apply ordered_finish]).
  - apply at_pipe_ordered; [done|]. intros p p' Hp. destruct (worker p); try done. intros [= <-]. by apply ordered_interrupt.
  - unfold call_peer. destruct (pipes s !! i) as [p|] eqn:Ep; [|done]. simpl. destruct (pipes s !! peer); [|done]. simpl.
    destruct (worker p) eqn:Ew; try done. intros [= <-].
    apply (insert_ordered _ i _ (clock s)); [exact Hs|]. apply ordered_set_wait; [by apply (Hs i)|by rewrite Ew..].
  - unfold walk_turn. destruct (pipes s !! i) as [p|] eqn:Ep; [|done]. simpl.
    destruct (worker p) as [| | |o fr peer sub [k|] seen| |] eqn:Ew; try done.
    case_bool_decide; [intros [= <-]; apply (insert_ordered _ i _ (clock s)); [exact Hs|]; apply ordered_set_wait;
    [by apply (Hs i)|by rewrite Ew..]|].
    case_bool_decide; [intros [= <-]; apply (insert_ordered _ i _ (clock s)); [exact Hs|]; apply ordered_worker; [by apply (Hs i)|by rewrite Ew..]|].
    destruct (pipes s !! k); [|done]. simpl. intros [= <-]. apply (insert_ordered _ i _ (clock s)); [exact Hs|]; apply ordered_worker;
    [by apply (Hs i)|by rewrite Ew..].
  - unfold put_peer. destruct (pipes s !! i) as [p|] eqn:Ep; [|done]. simpl.
    destruct (worker p) as [| | |o fr peer sub [k|] seen| |] eqn:Ew; try done.
    assert (Hps : all_ordered (Sys (<[i := set_worker p (Waiting o fr peer sub)]> (pipes s)) (clock s))) by (apply (insert_ordered _ i _
    (clock s)); [exact Hs|]; apply ordered_worker; [by apply (Hs i)|by rewrite Ew..]).
    destruct (_ !! peer) as [q|] eqn:Eq; [|done]. simpl. intros [= <-]. apply (insert_ordered _ peer _ (clock s)); [exact Hps|].
    by apply ordered_submit, (Hps peer).
  - unfold result_of. destruct (pipes s !! i) as [p|] eqn:Ep; [|done]. simpl.
    destruct (worker p) as [| | | |o fr peer sub|] eqn:Ew; try done. destruct (pipes s !! peer); [|done]. simpl. case_bool_decide; [|done].
    intros [= <-]. apply (insert_ordered _ i _ (clock s)); [exact Hs|]. apply ordered_set_wait; [by apply (Hs i)|by rewrite Ew..].
Qed.

Lemma acts_ordered l : forall s s', all_ordered s -> acts s l = Some s' -> all_ordered s'.
Proof.
  induction l as [|a l IH]; intros s s' Hs; simpl; [by intros [= <-]|]. destruct (act s a) as [s1|] eqn:Ea; [|done]. simpl. apply IH.
  by apply (act_ordered s a).
Qed.

Lemma init_ordered n : all_ordered (sys_init n).
Proof. intros i p. simpl. intros [-> _]%lookup_replicate. by split. Qed.

(** *** Overtaking *)

Definition getting (p : pipeline) : nat := match worker p with AtGet => 1 | _ => 0 end.

(** What an action can do to a pipeline: nothing is started; the first of the front buffer is; or an operation of the queue is,
    by a worker that was already in [q.get()]. *)
Inductive moves (p p' : pipeline) : Prop :=
  | mv_idle extra : log p' = log p -> front p' = front p ++ extra -> (front p <> [] -> getting p' <= getting p) -> (worker p = Stopped ->
    worker p' = Stopped) -> moves p p'
  | mv_front o : worker p = AtFront -> log p' = log p ++ [StartFront o] -> front p = o :: front p' -> getting p' = 0 -> moves p p'
  | mv_tail o : log p' = log p ++ [StartTail o] -> front p' = front p -> getting p = 1 -> getting p' = 0 -> moves p p'.

Lemma moves_same p p' : log p' = log p -> front p' = front p -> getting p' <= getting p -> (worker p = Stopped -> worker p' = Stopped) -> moves p p'.
Proof. intros H1 H2 H3 H4. apply (mv_idle p p' []); [done|by rewrite app_nil_r|done|done]. Qed.

Lemma moves_refl p : moves p p.
Proof. by apply moves_same. Qed.

Lemma moves_wake p p' : wake p = Some p' -> moves p p'.
Proof. unfold wake. destruct (wakeups p); [done|]. intros [= <-]. by apply moves_same. Qed.

Lemma moves_check p p' : check_front p = Some p' -> moves p p'.
Proof.
  unfold check_front. destruct (worker p) eqn:Ew; try done. destruct (front p) as [|o f] eqn:Ef; intros [= <-].
  - apply (mv_idle p _ []); [done|by rewrite app_nil_r|by rewrite Ef|by rewrite Ew].
  - by apply (mv_front p _ o).
Qed.

Lemma moves_get p p' : get_item p = Some p' -> moves p p'.
Proof.
  unfold get_item. destruct (worker p) eqn:Ew; try done. destruct (queue p) as [|[o| |] q]; [done|..]; intros [= <-].
  - apply (mv_tail p _ o); try done. unfold getting. by rewrite Ew.
  - apply moves_same; try done; first [by rewrite Ew | unfold getting; simpl; lia].
  - apply moves_same; try done; first [by rewrite Ew | unfold getting; simpl; lia].
Qed.

Lemma moves_finish p r p' : finish_op p r = Some p' -> moves p p'.
Proof.
  unfold finish_op. destruct (worker p) eqn:Ew; try done. destruct (match r with WasInterrupted => _ | _ => _ end); [done|]. intros [= <-].
  apply moves_same; try done; first [by rewrite Ew | unfold getting; simpl; lia].
Qed.

Lemma insert_moves (ps : list pipeline) i p p' j q : ps !! i = Some p -> moves p p' -> ps !! j = Some q ->
    exists q', <[i := p']> ps !! j = Some q' /\ moves q q'.
Proof.
  intros Hi Hm Hj. destruct (decide (i = j)) as [->|Hne].
  - rewrite list_lookup_insert_eq by (by eapply lookup_lt_Some). exists p'. split; [done|]. by replace q with p by congruence.
  - rewrite list_lookup_insert_ne by done. exists q. split; [done|apply moves_refl].
Qed.

Lemma at_pipe_moves s i f s' j q : (forall p p', f p = Some p' -> moves p p') -> at_pipe s i f = Some s' -> pipes s !! j = Some q ->
    exists q', pipes s' !! j = Some q' /\ moves q q'.
Proof.
  intros Hf. unfold at_pipe. destruct (pipes s !! i) as [p|] eqn:Ep; [|done]. simpl. destruct (f p) as [p'|] eqn:Efp; [|done].
  intros [= <-]. simpl. apply (insert_moves _ _ p); [done|by apply Hf].
Qed.

Lemma moves_worker p c : worker p <> Stopped -> c <> AtGet -> moves p (set_worker p c).
Proof. intros Hs Hc. apply moves_same; try done. unfold getting. simpl. destruct c; (done || lia). Qed.
Lemma moves_wait p w c t : worker p <> Stopped -> c <> AtGet -> moves p (set_wait p w c t).
Proof. intros Hs Hc. apply moves_same; try done. unfold getting. simpl. destruct c; (done || lia). Qed.

Lemma act_moves s a s' j q : act s a = Some s' -> pipes s !! j = Some q -> exists q', pipes s' !! j = Some q' /\ moves q q'.
Proof.
  destruct a as [i o|i o|i|i r|i|i|i|i r|i|i peer sub|i|i|i]; simpl;
    try (apply at_pipe_moves; intros p p'; first [intros [= <-]; first [by apply moves_same | by apply (mv_idle p _ [o])] |
    apply moves_wake | apply moves_check | apply moves_get | apply moves_finish]).
  - apply at_pipe_moves. intros p p'. destruct (worker p); try done. intros [= <-]. by apply moves_same.
  - unfold call_peer. destruct (pipes s !! i) as [p|] eqn:Ep; [|done]. simpl. destruct (pipes s !! peer); [|done]. simpl.
    destruct (worker p) eqn:Ew; try done. intros [= <-]. apply (insert_moves _ _ p); [done|apply moves_wait; congruence].
  - unfold walk_turn. destruct (pipes s !! i) as [p|] eqn:Ep; [|done]. simpl.
    destruct (worker p) as [| | |o fr peer sub [k|] seen| |] eqn:Ew; try done.
    case_bool_decide; [intros [= <-]; apply (insert_moves _ _ p); [done|apply moves_wait; congruence]|].
    case_bool_decide; [intros [= <-]; apply (insert_moves _ _ p); [done|apply moves_worker; congruence]|].
    destruct (pipes s !! k); [|done]. simpl. intros [= <-]. apply (insert_moves _ _ p); [done|apply moves_worker; congruence].
  - unfold put_peer. destruct (pipes s !! i) as [p|] eqn:Ep; [|done]. simpl.
    destruct (worker p) as [| | |o fr peer sub [k|] seen| |] eqn:Ew; try done. set (p1 := set_worker p (Waiting o fr peer sub)).
    destruct (<[i := p1]> (pipes s) !! peer) as [r|] eqn:Er; [|done]. simpl. intros [= <-] Hj. simpl.
    assert (Hm1 : moves p p1) by (apply moves_worker; congruence).
    destruct (decide (peer = j)) as [->|Hne]; [|rewrite list_lookup_insert_ne by done; by apply (insert_moves _ _ p)].
    rewrite list_lookup_insert_eq by (by eapply lookup_lt_Some). exists (submit r sub). split; [done|].
    destruct (insert_moves _ _ p p1 j q Ep Hm1 Hj) as (q' & Hq' & Hm). replace r with q' by congruence.
    destruct Hm as [extra H1 H2 H3 H4|o' H1 H2 H3 H4|o' H1 H2 H3 H4];
    [by apply (mv_idle q _ extra)|by apply (mv_front q _ o')|by apply (mv_tail q _ o')].
  - unfold result_of. destruct (pipes s !! i) as [p|] eqn:Ep; [|done]. simpl.
    destruct (worker p) as [| | | |o fr peer sub|] eqn:Ew; try done. destruct (pipes s !! peer); [|done]. simpl. case_bool_decide; [|done].
    intros [= <-]. apply (insert_moves _ _ p); [done|apply moves_wait; congruence].
Qed.

Lemma overtaken_at_most l : forall s s' i p, acts s l = Some s' -> pipes s !! i = Some p ->
  exists p' new, pipes s' !! i = Some p' /\ log p' = log p ++ new /\ (length (front_starts new) < length (front p) ->
    length (tail_starts new) <= getting p).
Proof.
  induction l as [|a l IH]; intros s s' i p; simpl; [intros [= <-] Hp; exists p, []; rewrite app_nil_r; split; [done|]; split; [done|]; simpl; lia|].
  destruct (act s a) as [s1|] eqn:Ea; [|done]. simpl. intros Hl Hp. destruct (act_moves s a s1 i p Ea Hp) as (p1 & Hp1 & Hm).
  destruct (IH s1 s' i p1 Hl Hp1) as (p' & new & Hp' & Hlog & Hb).
  destruct Hm as [extra H1 H2 H3 _|o _ H1 H2 H3|o H1 H2 H3 H4].
  - exists p', new. split; [done|]. split; [by rewrite Hlog, H1|]. intros Hlt. rewrite H2, length_app in Hb. specialize (Hb ltac:(lia)).
    assert (Hne : front p <> []) by (by destruct (front p); [simpl in Hlt; lia|]). specialize (H3 Hne). lia.
  - exists p', (StartFront o :: new). split; [done|]. split; [by rewrite Hlog, H1, <- app_assoc|]. rewrite H2. simpl. intros Hlt.
    specialize (Hb ltac:(lia)). lia.
  - exists p', (StartTail o :: new). split; [done|]. split; [by rewrite Hlog, H1, <- app_assoc|]. rewrite H2 in Hb. simpl. intros Hlt.
    specialize (Hb Hlt). lia.
Qed.

(** *** Waiting workers *)

(** The chain of [_waiting_on] as far as it was set before time [t]. *)
Definition next (s : sys) (t a : nat) : option nat := p ← pipes s !! a; if decide (stamp p < t) then waiting_on p else None.
Fixpoint chain (s : sys) (t n a : nat) : option nat := match n with O => Some a | S n => b ← next s t a; chain s t n b end.

Lemma chain_add s t m n a : chain s t (m + n) a = (b ← chain s t m a; chain s t n b).
Proof. revert a. induction m as [|m IH]; intros a; [done|]. simpl. destruct (next s t a) as [b|]; [|done]. simpl. apply IH. Qed.

Lemma chain_prefix s t n m a b : chain s t n a = Some b -> m <= n -> exists x, chain s t m a = Some x /\ chain s t (n - m) x = Some b.
Proof. intros Hn Hm. replace n with (m + (n - m)) in Hn by lia. rewrite chain_add in Hn. destruct (chain s t m a) as [x|]; [|done]. by exists x. Qed.

Definition shrinks (s s' : sys) (t : nat) : Prop := forall a b, next s' t a = Some b -> next s t a = Some b.

Lemma chain_shrinks s s' t n a b : shrinks s s' t -> chain s' t n a = Some b -> chain s t n a = Some b.
Proof.
  intros Hs. revert a. induction n as [|n IH]; intros a; simpl; [done|]. destruct (next s' t a) as [x|] eqn:En; [|done]. simpl.
  rewrite (Hs a x En). simpl. apply IH.
Qed.

(** What a worker knows of the chain. *)
Definition walking (s : sys) (i : nat) (w : wpc) (wo : option nat) (t : nat) : Prop :=
  match w with
  | Walk _ _ peer _ (Some k) seen =>
      wo = Some peer /\ i ∉ seen /\
      forall n, chain s t n peer = Some i -> length seen <= n /\ chain s t (length seen) peer = Some k /\ forall j x, seen !! j = Some x ->
        chain s t j peer = Some x
  | Walk _ _ peer _ None _ | Waiting _ _ peer _ => wo = Some peer /\ forall n, chain s t n peer <> Some i
  | _ => wo = None
  end.

Lemma walking_shrinks s s' i w wo t : shrinks s s' t -> walking s i w wo t -> walking s' i w wo t.
Proof.
  intros Hs. destruct w as [| |o fr|o fr peer sub [k|] seen|o fr peer sub|]; simpl; try done.
  - intros (H1 & H2 & H3). split; [done|]. split; [done|]. intros n Hn. destruct (H3 n (chain_shrinks _ _ _ _ _ _ Hs Hn)) as (Hle & Hk & Hj).
    assert (Hsame : forall m x, m <= n -> chain s t m peer = Some x -> chain s' t m peer = Some x).
    { intros m x Hm Hx. destruct (chain_prefix s' t n m peer i Hn Hm) as (y & Hy & _). pose proof (chain_shrinks _ _ _ _ _ _ Hs Hy). congruence. }
    split; [done|]. split; [by apply Hsame|]. intros j x Hx. apply Hsame; [|by apply Hj]. apply lookup_lt_Some in Hx. lia.
  - intros [H1 H2]. split; [done|]. intros n Hn. by apply (H2 n), (chain_shrinks _ _ _ _ _ _ Hs).
  - intros [H1 H2]. split; [done|]. intros n Hn. by apply (H2 n), (chain_shrinks _ _ _ _ _ _ Hs).
Qed.

Record wait_inv (s : sys) : Prop := {
  w_clock : forall i p j, pipes s !! i = Some p -> waiting_on p = Some j -> stamp p < clock s /\ j < length (pipes s);
  w_distinct : forall i j p q, pipes s !! i = Some p -> pipes s !! j = Some q -> is_Some (waiting_on p) -> is_Some (waiting_on q) ->
  stamp p = stamp q -> i = j;
  w_walk : forall i p, pipes s !! i = Some p -> walking s i (worker p) (waiting_on p) (stamp p);
}.

(** One pipeline changes: its edge stays, goes, or is set now. *)
Definition edge_step (s : sys) (p p' : pipeline) (c : nat) : Prop :=
  (waiting_on p' = waiting_on p /\ stamp p' = stamp p) \/ waiting_on p' = None \/
  (waiting_on p = None /\ stamp p' = clock s /\ clock s < c /\ forall j, waiting_on p' = Some j -> j < length (pipes s)).

Lemma edge_shrinks s i p p' c t : pipes s !! i = Some p -> edge_step s p p' c -> t <= clock s -> shrinks s (Sys (<[i := p']> (pipes s)) c) t.
Proof.
  intros Hi He Ht a b. unfold next. simpl. destruct (decide (i = a)) as [->|Hne]; [|by rewrite list_lookup_insert_ne].
  rewrite list_lookup_insert_eq by (by eapply lookup_lt_Some). rewrite Hi. simpl. destruct He as [[H1 H2]|[H1|(H1 & H2 & H3 & _)]].
  - by rewrite H1, H2.
  - rewrite H1. by destruct (decide (stamp p' < t)).
  - rewrite H2, decide_False by lia. done.
Qed.

Lemma pipe_update_inv s i p p' c :
  wait_inv s -> pipes s !! i = Some p -> clock s <= c -> edge_step s p p' c ->
  walking (Sys (<[i := p']> (pipes s)) c) i (worker p') (waiting_on p') (stamp p') ->
  wait_inv (Sys (<[i := p']> (pipes s)) c).
Proof.
  intros [Hc Hd Hw] Hi Hle He Hwalk. assert (Hlt : i < length (pipes s)) by (by eapply lookup_lt_Some).
  assert (Hlook : forall j q, <[i := p']> (pipes s) !! j = Some q -> (j = i /\ q = p') \/ (j <> i /\
  pipes s !! j = Some q)) by (intros j q; rewrite list_lookup_insert_Some; naive_solver). split; simpl.
  - intros j q k Hq Hk. rewrite length_insert. destruct (Hlook j q Hq) as [[-> ->]|[Hne Hq']]; [|destruct (Hc j q k Hq' Hk); lia].
    destruct He as [[H1 H2]|[H1|(H1 & H2 & H3 & H4)]].
    + rewrite H1 in Hk. destruct (Hc i p k Hi Hk). lia.
    + congruence.
    + specialize (H4 k Hk). lia.
  - assert (Hnew : forall q j, pipes s !! j = Some q -> is_Some (waiting_on q) -> is_Some (waiting_on p') -> stamp p' = stamp q -> j = i).
    { intros q j Hq [x Hx] Hp' Hst. destruct He as [[H1 H2]|[H1|(H1 & H2 & H3 & H4)]]; [rewrite H1 in Hp'; by apply (Hd j i q p);
      [..|congruence]|rewrite H1 in Hp'; by destruct Hp'|destruct (Hc j q x Hq Hx); lia]. }
    intros j k q r Hq Hr Hwq Hwr Hst. destruct (Hlook j q Hq) as [[-> ->]|[Hne Hq']], (Hlook k r Hr) as [[-> ->]|[Hne' Hr']];
    [done|symmetry; by apply (Hnew r)|by apply (Hnew q)|by apply (Hd j k q r)].
  - intros j q Hq. destruct (Hlook j q Hq) as [[-> ->]|[Hne Hq']]; [done|]. destruct (waiting_on q) as [x|] eqn:Ex.
    + rewrite <- Ex. apply (walking_shrinks s); [|by apply Hw]. apply (edge_shrinks s i p); [done|done|]. destruct (Hc j q x Hq' Ex). lia.
    + pose proof (Hw j q Hq') as Hwq. rewrite Ex in Hwq. destruct (worker q) as [| |o fr|o fr peer sub [k|] seen|o fr peer sub|];
      simpl in *; by destruct Hwq.
Qed.

(** Changes that do not touch the waiting. *)
Definition idle_worker (w : wpc) : Prop := match w with Walk _ _ _ _ _ _ | Waiting _ _ _ _ => False | _ => True end.

Lemma quiet_inv s i p p' :
  wait_inv s -> pipes s !! i = Some p -> waiting_on p' = waiting_on p -> stamp p' = stamp p ->
  worker p' = worker p \/ (idle_worker (worker p) /\ idle_worker (worker p')) ->
  wait_inv (Sys (<[i := p']> (pipes s)) (clock s)).
Proof.
  intros HI Hi H1 H2 Hw. assert (He : edge_step s p p' (clock s)) by (by left). apply (pipe_update_inv s i p); try done.
  pose proof (w_walk _ HI i p Hi) as Hp. rewrite H1, H2. destruct Hw as [->|[Hidle Hidle']].
  - destruct (waiting_on p) as [x|] eqn:Ex.
    + apply (walking_shrinks s); [|done]. apply (edge_shrinks s i p); [done|done|]. destruct (w_clock _ HI i p x Hi Ex). lia.
    + destruct (worker p) as [| |o fr|o fr peer sub [k|] seen|o fr peer sub|]; simpl in *; by destruct Hp.
  - assert (Hno : waiting_on p = None) by (destruct (worker p); by simpl in *). destruct (worker p'); by simpl in *.
Qed.

Lemma at_pipe_quiet s i f s' :
  wait_inv s -> (forall p p', f p = Some p' -> waiting_on p' = waiting_on p /\ stamp p' = stamp p /\
  (worker p' = worker p \/ (idle_worker (worker p) /\ idle_worker (worker p')))) ->
  at_pipe s i f = Some s' -> wait_inv s'.
Proof.
  intros HI Hf. unfold at_pipe. destruct (pipes s !! i) as [p|] eqn:Ep; [|done]. simpl. destruct (f p) as [p'|] eqn:E; [|done].
  intros [= <-]. destruct (Hf p p' E) as (H1 & H2 & H3). by apply (quiet_inv s i p).
Qed.

Lemma call_inv s i peer sub s' : wait_inv s -> peer <> i -> call_peer s i peer sub = Some s' -> wait_inv s'.
Proof.
  intros HI Hne. unfold call_peer. destruct (pipes s !! i) as [p|] eqn:Ep; [|done]. simpl.
  destruct (pipes s !! peer) as [q|] eqn:Eq; [|done]. simpl. destruct (worker p) eqn:Ew; try done.
  rewrite bool_decide_eq_false_2 by done. intros [= <-]. pose proof (w_walk _ HI i p Ep) as Hp. rewrite Ew in Hp. simpl in Hp.
  apply (pipe_update_inv s i p); try done; [lia| |].
  - right. right. simpl. split_and!; try done; [lia|]. intros j [= <-]. by eapply lookup_lt_Some.
  - simpl. split; [done|]. split; [set_solver|]. intros n _. split; [lia|]. split; [done|]. by intros j x.
Qed.

(** A chain that repeats itself before it reaches [i] never reaches it. *)
Lemma chain_loop s t peer i seen k j :
  seen !! j = Some k -> i ∉ seen -> (forall m x, seen !! m = Some x -> chain s t m peer = Some x) -> chain s t (length seen) peer = Some k ->
  forall n, length seen <= n -> chain s t n peer = Some i -> False.
Proof.
  intros Hj Hi Hseen Hk n. assert (Hlt : j < length seen) by (by eapply lookup_lt_Some). induction (lt_wf n) as [n _ IH]. intros Hle Hn.
  destruct (chain_prefix s t n (length seen) peer i Hn Hle) as (x & Hx & Hrest). assert (x = k) as -> by congruence.
  assert (Hn' : chain s t (j + (n - length seen)) peer = Some i) by (rewrite chain_add, (Hseen j k Hj); done).
  destruct (decide (length seen <= j + (n - length seen))) as [Hl|Hl]; [by apply (IH (j + (n - length seen))); [lia|..]|].
  destruct (lookup_lt_is_Some_2 seen (j + (n - length seen))) as [y Hy]; [lia|]. pose proof (Hseen _ y Hy).
  assert (y = i) as -> by congruence. by apply Hi, (list_elem_of_lookup_2 seen (j + (n - length seen))).
Qed.

Lemma walk_inv s i s' : wait_inv s -> walk_turn s i = Some s' -> wait_inv s'.
Proof.
  intros HI. unfold walk_turn. destruct (pipes s !! i) as [p|] eqn:Ep; [|done]. simpl.
  destruct (worker p) as [| | |o fr peer sub [k|] seen| |] eqn:Ew; try done. pose proof (w_walk _ HI i p Ep) as Hp. rewrite Ew in Hp.
  destruct Hp as (Hwo & Hns & Hch).
  assert (Hsame : forall w, edge_step s p (set_worker p w) (clock s)) by (intros w; by left).
  assert (Ht : stamp p <= clock s) by (destruct (w_clock _ HI i p peer Ep Hwo); lia).
  case_bool_decide as Hki; [|case_bool_decide as Hseen].
  - intros [= <-]. apply (pipe_update_inv s i p); try done. right. by left.
  - intros [= <-]. apply (pipe_update_inv s i p); try done. simpl. split; [done|]. intros n Hn.
    apply (chain_shrinks s _ _ _ _ _ (edge_shrinks s i p _ _ _ Ep (Hsame _) Ht)) in Hn. destruct (Hch n Hn) as (Hle & Hk & Hj).
    apply list_elem_of_lookup in Hseen as [j Hjk]. by apply (chain_loop s (stamp p) peer i seen k j Hjk Hns Hj Hk n).
  - destruct (pipes s !! k) as [pk|] eqn:Ek; [|done]. simpl. intros [= <-]. apply (pipe_update_inv s i p); try done.
    apply (walking_shrinks s); [by apply (edge_shrinks s i p)|]. simpl.
    assert (Hnext : forall n, chain s (stamp p) n peer = Some i -> length (seen ++ [k]) <= n /\
    chain s (stamp p) (length (seen ++ [k])) peer = waiting_on pk /\ is_Some (waiting_on pk) /\
      forall j x, (seen ++ [k]) !! j = Some x -> chain s (stamp p) j peer = Some x).
    { intros n Hn. destruct (Hch n Hn) as (Hle & Hk & Hj). destruct (chain_prefix s (stamp p) n (length seen) peer i Hn Hle) as (x & Hx &
      Hrest). assert (x = k) as -> by congruence.
      destruct (n - length seen) as [|m] eqn:Em; [simpl in Hrest; congruence|]. rewrite length_app. simpl. split; [lia|]. simpl in Hrest.
      rewrite chain_add, Hk. simpl.
      unfold next in *. rewrite Ek in *. simpl in *. destruct (decide (stamp pk < stamp p)); [|done].
      destruct (waiting_on pk) as [b|]; [|done]. simpl. split; [done|]. split; [done|].
      intros j x. rewrite lookup_app_Some. intros [Hl|[Hl Hx']]; [by apply Hj|]. destruct (j - length seen) as [|d] eqn:Ed; [|done].
      injection Hx' as <-. by replace j with (length seen) by lia. }
    destruct (waiting_on pk) as [b|]; simpl; (split; [done|]).
    + split; [set_solver|]. intros n Hn. destruct (Hnext n Hn) as (H1 & H2 & _ & H4). done.
    + intros n Hn. destruct (Hnext n Hn) as (_ & _ & [x Hx] & _). done.
Qed.

Lemma put_inv s i s' : wait_inv s -> put_peer s i = Some s' -> wait_inv s'.
Proof.
  intros HI. unfold put_peer. destruct (pipes s !! i) as [p|] eqn:Ep; [|done]. simpl.
  destruct (worker p) as [| | |o fr peer sub [k|] seen| |] eqn:Ew; try done. pose proof (w_walk _ HI i p Ep) as Hp. rewrite Ew in Hp.
  destruct Hp as [Hwo Hch].
  set (p1 := set_worker p (Waiting o fr peer sub)). assert (He : edge_step s p p1 (clock s)) by (by left).
  assert (Ht : stamp p <= clock s) by (destruct (w_clock _ HI i p peer Ep Hwo); lia).
  assert (HI1 : wait_inv (Sys (<[i := p1]> (pipes s)) (clock s))).
  { apply (pipe_update_inv s i p); try done. apply (walking_shrinks s); [by apply (edge_shrinks s i p)|]. done. }
  destruct (<[i := p1]> (pipes s) !! peer) as [q|] eqn:Eq; [|done]. simpl. intros [= <-].
  apply (quiet_inv (Sys (<[i := p1]> (pipes s)) (clock s)) peer q); try done. by left.
Qed.

Lemma result_inv s i s' : wait_inv s -> result_of s i = Some s' -> wait_inv s'.
Proof.
  intros HI. unfold result_of. destruct (pipes s !! i) as [p|] eqn:Ep; [|done]. simpl.
  destruct (worker p) as [| | | |o fr peer sub|] eqn:Ew; try done. destruct (pipes s !! peer); [|done]. simpl. case_bool_decide; [|done].
  intros [= <-]. apply (pipe_update_inv s i p); try done. right. by left.
Qed.

(** No worker waits for an operation of its own pipeline. *)
Definition no_self (a : action) : Prop := match a with ACall i peer _ => peer <> i | _ => True end.

Lemma act_wait_inv s a s' : wait_inv s -> no_self a -> act s a = Some s' -> wait_inv s'.
Proof.
  intros HI Hns. destruct a as [i o|i o|i|i r|i|i|i|i r|i|i peer sub|i|i|i]; simpl; [| | | | | | | |
  |by apply call_inv|by apply walk_inv|by apply put_inv|by apply result_inv]; apply at_pipe_quiet; try done; intros p p'.
  - intros [= <-]. split_and!; [done|done|by left].
  - intros [= <-]. split_and!; [done|done|by left].
  - unfold wake. destruct (wakeups p); [done|]. intros [= <-]. split_and!; [done|done|by left].
  - intros [= <-]. split_and!; [done|done|by left].
  - intros [= <-]. split_and!; [done|done|by left].
  - unfold check_front. destruct (worker p); try done. destruct (front p); intros [= <-]; (split_and!; [done|done|by right]).
  - unfold get_item. destruct (worker p); try done. destruct (queue p) as [|[] q]; try done; intros [= <-]; (split_and!; [done|done|by right]).
  - unfold finish_op. destruct (worker p); try done. destruct (match r with WasInterrupted => _ | _ => _ end); [done|]. intros [= <-].
    split_and!; [done|done|by right].
  - destruct (worker p) eqn:E; try done. intros [= <-]. split_and!; [done|done|by left].
Qed.

Lemma init_wait_inv n : wait_inv (sys_init n).
Proof. split; simpl; [intros i p j|intros i j p q|intros i p]; intros [-> _]%lookup_replicate; [done| |done]. intros _ [x Hx]. done. Qed.

Lemma acts_wait_inv l : forall s s', wait_inv s -> Forall no_self l -> acts s l = Some s' -> wait_inv s'.
Proof.
  induction l as [|a l IH]; intros s s' HI; simpl; [by intros _ [= <-]|]. intros [Ha Hl]%Forall_cons.
  destruct (act s a) as [s1|] eqn:Ea; [|done]. simpl. apply IH; [|done]. by apply (act_wait_inv s a).
Qed.

Definition waits (s : sys) (i j : nat) : Prop := exists p o fr sub, pipes s !! i = Some p /\ worker p = Waiting o fr j sub.

Lemma waits_edge s i j : wait_inv s -> waits s i j -> exists p, pipes s !! i = Some p /\ waiting_on p = Some j /\ stamp p < clock s /\
    j < length (pipes s) /\ forall n, chain s (stamp p) n j <> Some i.
Proof.
  intros HI (p & o & fr & sub & Hp & Hw). pose proof (w_walk _ HI i p Hp) as Hwalk. rewrite Hw in Hwalk. destruct Hwalk as [H1 H2].
  exists p. destruct (w_clock _ HI i p j Hp H1). done.
Qed.

(** From a worker of a cycle: the chain leads back to it along older edges, or another worker of the cycle began to wait later. *)
Lemma cycle_walk s m pm b :
  wait_inv s -> pipes s !! m = Some pm -> is_Some (waiting_on pm) -> rtc (waits s) b m -> rtc (waits s) m b ->
  (exists n, chain s (stamp pm) n b = Some m) \/ exists x px, tc (waits s) x x /\ pipes s !! x = Some px /\ stamp pm < stamp px < clock s.
Proof.
  intros HI Hm Hwm Hr. induction Hr as [m|b b' m Hstep Hrtc IH]; [left; by exists 0|].
  intros Hmb. destruct (waits_edge s b b' HI Hstep) as (pb & Hpb & Hwo & Hst & _). destruct (lt_eq_lt_dec (stamp pb) (stamp pm)) as [[Hlt|Heq]|Hgt].
  - destruct (IH Hm) as [[n Hn]|Hx]; [by eapply rtc_r| |by right]. left. exists (S n). simpl. unfold next. rewrite Hpb. simpl.
    rewrite decide_True by done. by rewrite Hwo.
  - left. exists 0. simpl. f_equal. by apply (w_distinct _ HI b m pb pm).
  - right. exists b, pb. split; [|done]. eapply tc_rtc_r; [by apply tc_once|]. by trans m.
Qed.

Lemma no_cycle s : wait_inv s -> forall i, ~ tc (waits s) i i.
Proof.
  intros HI. enough (Hd : forall d i p, pipes s !! i = Some p -> clock s - stamp p <= d -> stamp p < clock s -> tc (waits s) i i -> False).
  { intros i Htc. assert (Hi : exists j, waits s i j) by (inversion Htc; eauto). destruct Hi as [j Hj].
    destruct (waits_edge s i j HI Hj) as (p & Hp & _ & Hst & _). by apply (Hd _ i p Hp (le_n _)). }
  induction d as [|d IH]; intros i p Hp Hd Hst Htc; [lia|]. assert (Hi : exists j, waits s i j /\
  rtc (waits s) j i) by (inversion Htc; subst; eauto using tc_rtc, rtc_refl).
  destruct Hi as (j & Hj & Hr). destruct (waits_edge s i j HI Hj) as (p' & Hp' & Hwo & _ & _ & Hno). assert (p' = p) as -> by congruence.
  destruct (cycle_walk s i p j HI Hp ltac:(by eexists) Hr ltac:(by apply rtc_once)) as [[n Hn]|(x & px & Hx & Hpx & Hs)];
  [by apply (Hno n)|]. apply (IH x px Hpx); [lia|lia|done].
Qed.

#[export] Instance waits_red_dec s i : Decision (red (waits s) i).
Proof.
  destruct (pipes s !! i) as [p|] eqn:Ep; [|right; intros (j & p & o & fr & sub & Hp & _); congruence].
  destruct (worker p) as [| | | |o fr peer sub|] eqn:Ew; [right; intros (j & q & o' & fr' & sub' & Hq & Hw); congruence..| |right;
  intros (j & q & o' & fr' & sub' & Hq & Hw); congruence].
  left. by exists peer, p, o, fr, sub.
Defined.

(** Every chain of waiting workers ends at a worker that does not wait. *)
Lemma chain_ends s i : wait_inv s -> exists j, rtc (waits s) i j /\ forall k, ~ waits s j k.
Proof.
  intros HI. assert (Hsn : sn (waits s) i).
  { apply tc_finite_sn; [intros x; by apply no_cycle|]. exists (seq 0 (length (pipes s))). intros y Hy. apply elem_of_seq. split; [lia|].
    assert (Hx : exists x, waits s x y) by (clear -Hy; induction Hy; eauto). destruct Hx as [x Hx].
    destruct (waits_edge s x y HI Hx) as (p & _ & _ & _ & Hlt & _). lia. }
  destruct (sn_wn i Hsn) as (j & Hr & Hnf). exists j. split; [done|]. intros k Hk. apply Hnf. by exists k.
Qed.

(** *** After a shutdown *)

Lemma stopped_log l : forall s s' i p, acts s l = Some s' -> pipes s !! i = Some p -> worker p = Stopped ->
  exists p', pipes s' !! i = Some p' /\ worker p' = Stopped /\ log p' = log p.
Proof.
  induction l as [|a l IH]; intros s s' i p; simpl; [intros [= <-]; by exists p|]. destruct (act s a) as [s1|] eqn:Ea; [|done]. simpl.
  intros Hl Hp Hw.
  destruct (act_moves s a s1 i p Ea Hp) as (p1 & Hp1 & Hm). destruct Hm as [extra H1 H2 H3 H4|o H1 H2 H3 H4|o H1 H2 H3 H4];
  [|congruence|unfold getting in H3; by rewrite Hw in H3].
  destruct (IH s1 s' i p1 Hl Hp1 (H4 Hw)) as (p' & Hp' & Hw' & Hlog). exists p'. by rewrite Hlog, H1.
Qed.

(** ** The theorems *)

Lemma drained_spec p : ordered p -> drained p = true ->
  tail_subs p = tail_starts (log p) /\ front_subs p = front_starts (log p) /\ counted (worker p) = 0.
Proof.
  intros [H1 H2 H3 H4]. unfold drained. intros [Hf Hu]%andb_true_iff. apply bool_decide_eq_true in Hf. apply Nat.eqb_eq in Hu.
  rewrite Hu in H3. assert (Hq : queue p = []) by (apply nil_length_inv; lia).
  rewrite Hq in H1, H3. rewrite Hf in H2. simpl in *. rewrite app_nil_r in H1, H2. by split_and!.
Qed.

(** C31: in every state of the pipelines, under every interleaving of callers and workers,
    the operations of the queue are started in the order in which they were submitted, and so are those
    of the front buffer; what was submitted is started or still there; every started operation is resolved exactly once,
    in the order of the starts, except the one that is being executed; and
    the count of unfinished tasks is exact.  Hence when [drain] returns nothing is left and no operation of the queue is being executed. *)
Theorem pipelines_ordered n l s i p :
  acts (sys_init n) l = Some s -> pipes s !! i = Some p ->
  tail_subs p = tail_starts (log p) ++ tails (queue p) /\ front_subs p = front_starts (log p) ++ front p /\
  op_of <$> log p = (settled p).*1 ++ current (worker p) /\
  unfinished_tasks p = length (queue p) + counted (worker p) /\
  (drained p = true -> tail_subs p = tail_starts (log p) /\ front_subs p = front_starts (log p) /\ counted (worker p) = 0).
Proof.
  intros Ha Hp. pose proof (acts_ordered l _ _ (init_ordered n) Ha i p Hp) as Ho. split_and!; [apply Ho..|]. by apply drained_spec.
Qed.

(** An operation that is put into the front buffer (a pause) is overtaken by at most one operation of the queue: as long as fewer operations
    of the front buffer have been started than were
    in it, at most one of the queue has, and none unless the worker was already waiting at the queue. *)
Theorem front_overtaken_once s l s' i p :
  acts s l = Some s' -> pipes s !! i = Some p ->
  exists p' new, pipes s' !! i = Some p' /\ log p' = log p ++ new /\
    (length (front_starts new) < length (front p) -> length (tail_starts new) <= match worker p with AtGet => 1 | _ => 0 end).
Proof. intros Ha Hp. by apply (overtaken_at_most l s s'). Qed.

(** C30: workers that wait for operations of other pipelines never wait in a circle,
    however their checks for cycles are interleaved with each other (a turn of a check reads one [_waiting_on]),
    as long as none of them waits for its own pipeline; and every chain of waiting workers ends at one that does not wait. *)
Theorem workers_never_deadlock n l s :
  Forall no_self l -> acts (sys_init n) l = Some s -> (forall i, ~ tc (waits s) i i) /\ forall i, exists j, rtc (waits s) i j /\
    forall k, ~ waits s j k.
Proof.
  intros Hns Ha. pose proof (acts_wait_inv l _ _ (init_wait_inv n) Hns Ha) as HI. split; [by apply no_cycle|]. intros i. by apply chain_ends.
Qed.

(** ** Small systems *)

Module MiniPipelines.
(** Two workers that submit to each other at the same time: the check of the first one passes before the second one has set its edge. *)
Definition mutual : list action :=
  [ASubmit 0 1; ASubmit 1 2; ACheckFront 0; AGet 0; ACheckFront 1; AGet 1; ACall 0 1 3; AWalk 0; ACall 1 0 4; APut 0; AWalk 1; AWalk 1;
    AFinish 1 Exception; ACheckFront 1].
Definition after (n : nat) (l : list action) : sys := default (sys_init n) (acts (sys_init n) l).
Definition pipe (n : nat) (l : list action) (i : nat) : pipeline := default pipeline_init (pipes (after n l) !! i).

Lemma workers_never_deadlock_witness : worker (pipe 2 mutual 0) = Waiting 1 false 1 3 /\ exists j, rtc (waits (after 2 mutual)) 0 j /\
    forall k, ~ waits (after 2 mutual) j k.
Proof.
  split; [vm_compute; reflexivity|]. destruct (workers_never_deadlock 2 mutual (after 2 mutual)) as [_ H];
  [by repeat constructor|vm_compute; reflexivity|exact (H 0)].
Defined.

Lemma pipelines_ordered_witness : drained (pipe 2 (mutual ++ [AGet 1; AFinish 1 Result; AResult 0; AFinish 0 Result]) 1) = true /\
  op_of <$> log (pipe 2 (mutual ++ [AGet 1; AFinish 1 Result; AResult 0; AFinish 0 Result]) 1) = [2; 3] /\
  tail_subs (pipe 2 (mutual ++ [AGet 1; AFinish 1 Result; AResult 0; AFinish 0 Result]) 1) = tail_starts (log (pipe 2 (mutual ++ [AGet 1;
  AFinish 1 Result; AResult 0; AFinish 0 Result]) 1)).
Proof.
  split; [vm_compute; reflexivity|]. split; [vm_compute; reflexivity|].
  destruct (pipelines_ordered 2 (mutual ++ [AGet 1; AFinish 1 Result; AResult 0; AFinish 0 Result]) (after 2 (mutual ++ [AGet 1;
  AFinish 1 Result; AResult 0; AFinish 0 Result])) 1
    (pipe 2 (mutual ++ [AGet 1; AFinish 1 Result; AResult 0; AFinish 0 Result]) 1)) as (_ & _ & _ & _ & Hd); [vm_compute;
      reflexivity|vm_compute; reflexivity|].
  apply Hd. vm_compute. reflexivity.
Defined.

(** A worker that waits at its queue; an operation and then a pause arrive. *)
Definition late_pause : list action := [ACheckFront 0; ASubmit 0 5; AFront 0 7].

Lemma front_overtaken_once_witness : exists p' new, pipes (after 1 (late_pause ++ [AGet 0; AFinish 0 Result])) !! 0 = Some p' /\
    log p' = [] ++ new /\ length (tail_starts new) <= 1.
Proof.
  destruct (front_overtaken_once (after 1 late_pause) [AGet 0; AFinish 0 Result] (after 1 (late_pause ++ [AGet 0;
  AFinish 0 Result])) 0 (pipe 1 late_pause 0)) as (p' & new & Hp & Hl & Hb); [vm_compute; reflexivity..|].
  exists p', new. split; [exact Hp|]. split; [exact Hl|]. apply Hb. vm_compute in Hp. injection Hp as <-. vm_compute in Hl. rewrite <- Hl. simpl. lia.
Defined.

(** Two races of a pause.  The operation that was already queued is executed before the pause,
    although the pause was put at the head of the queue first.  And [drain] returns while the pause
    is being executed: the empty operation that wakes the worker is counted off before the worker takes the pause out of the front buffer. *)
Theorem pause_races :
  (let p := pipe 1 (late_pause ++ [AGet 0]) 0 in worker p = Exec 5 false /\ front p = [7]) /\
  (let p := pipe 1 [ACheckFront 0; AFront 0 7; AWake 0; AGet 0; ACheckFront 0] 0 in worker p = Exec 7 true /\ settled p = [] /\ drained p = true).
Proof. vm_compute. done. Qed.

Definition closing : list action := [ACheckFront 0; AShutdown 0; ASubmit 0 5; AGet 0].

(** An operation that is submitted after the stop mark is accepted and never executed: whatever happens later, its future is not resolved. *)
Theorem lost_after_shutdown l s :
  acts (after 1 closing) l = Some s -> exists p, pipes s !! 0 = Some p /\ 5 ∈ tail_subs (pipe 1 closing 0) /\ log p = [] /\ settled p = [].
Proof.
  intros Ha. destruct (stopped_log l (after 1 closing) s 0 (pipe 1 closing 0) Ha) as (p & Hp & _ & Hl); [vm_compute; reflexivity..|].
  exists p. split; [done|]. split; [vm_compute; left|].
  split; [exact Hl|]. assert (Hinit : acts (sys_init 1) closing = Some (after 1 closing)) by (vm_compute; reflexivity).
  pose proof (acts_ordered l _ _ (acts_ordered closing _ _ (init_ordered 1) Hinit) Ha 0 p Hp) as [_ _ _ Ho]. rewrite Hl in Ho.
  change (log (pipe 1 closing 0)) with (@nil start) in Ho. simpl in Ho. by destruct (settled p).
Qed.

Lemma lost_after_shutdown_witness : exists p, pipes (after 1 (closing ++ [ASubmit 0 6; AFront 0 7; AWake 0])) !! 0 = Some p /\ settled p = [].
Proof.
  destruct (lost_after_shutdown [ASubmit 0 6; AFront 0 7; AWake 0] (after 1 (closing ++ [ASubmit 0 6; AFront 0 7;
  AWake 0]))) as (p & Hp & _ & _ & Hs); [vm_compute; reflexivity|]. by exists p.
Defined.

(** A worker that waits for its own pipeline is not noticed and waits for ever. *)
Lemma self_wait_unseen : tc (waits (after 1 [ASubmit 0 1; ACheckFront 0; AGet 0; ACall 0 0 2; APut 0])) 0 0.
Proof. apply tc_once. eexists _, 1, false, 2. split; [vm_compute; reflexivity|reflexivity]. Qed.
End MiniPipelines.
