(* ===== verification/Episodes.v ===== *)
(** * Episodes of a rollout and their training sequences

    Source: [src/arctic_platform/integrations/harness/episodes.py], and the sessions of
    [ChatCompletionsProxy] in [proxy.py] that uses it: [_chat_completions], [issue], [drop].

    An agent talks to the model through a proxy.  Every call is an episode: the prompt tokens and
    the sampled tokens.  A request that continues the messages of the call before it keeps that
    call's tokens and adds the template's tokens for the new messages; any other request starts
    anew.  From the episodes come the training sequences with a mask of the sampled tokens.

    Parameters: the tokenizer with its chat template ([render]) and the model (the tokens it
    samples and the message parsed from them).  Messages are JSON objects; an [AttributeError] of
    a value that should be an object or a list is a [TypeError] here.  A turn is two steps, since
    a session may be dropped while the model samples. *)

From stdpp Require Import prelude strings list.
From Stdlib Require Import ZArith Lia.
From S2P Require Import Prelude Dict Json.
Local Open Scope Z_scope.

(** ** Values *)

Abbreviation message := (list (string * pyval)).

Definition bool_of (v : pyval) : bool :=
  match v with
  | PNone => false
  | PBool b => b
  | PInt z => negb (z =? 0)
  | PFloat lit => negb (bool_decide (lit ∈ ["0.0"; "-0.0"]%string))
  | PStr s => negb (String.eqb s "")
  | PList l | PTuple l => negb (length l =? 0)%nat
  | PDict d => negb (length d =? 0)%nat
  | PTensor _ | POpaque _ => true
  end.

(** [==] of JSON values: dictionaries without regard to the order of their items. *)
Fixpoint py_eq (a b : pyval) : bool :=
  match a, b with
  | PNone, PNone => true
  | PStr s, PStr t => String.eqb s t
  | PFloat s, PFloat t => String.eqb s t
  | PFloat s, PInt z | PInt z, PFloat s => String.eqb s (int_text z ++ ".0")
  | PInt x, PInt y => x =? y
  | PBool x, PBool y => Bool.eqb x y
  | PBool x, PInt y | PInt y, PBool x => Z.b2z x =? y
  | PList l, PList k | PTuple l, PTuple k =>
      (fix go (l k : list pyval) : bool := match l, k with [], [] => true | x :: l, y :: k => py_eq x y && go l k | _, _ => false end) l k
  | PDict d, PDict e =>
      (length d =? length e)%nat &&
      (fix go (d : list (pkey * pyval)) : bool := match d with [] => true | (k, v) :: d => match dict_get e k with Some w => py_eq v w |
        None => false end && go d end) d
  | _, _ => false
  end.

Definition as_obj (m : message) : pyval := PDict ((fun kv => (KStr kv.1, kv.2)) <$> m).

(** [call.get(k)] on a value that has to be a dictionary. *)
Definition get_from (v : pyval) (k : string) : res (option pyval) :=
  match v with PDict d => Ok (dict_get d (KStr k)) | _ => Raise (TypeError "no attribute get") end.

Definition as_items (v : pyval) : res (list pyval) :=
  match v with PList l | PTuple l => Ok l | _ => Raise (TypeError "not a list") end.

(** ** Messages *)

(** [_text_content]. *)
Definition part_text (part : pyval) : res string :=
  match part with
  | PDict d => match default (PStr "") (dict_get d (KStr "text"%string)) with PStr s => Ok s | _ => Raise (TypeError "expected str instance") end
  | _ => Ok ""%string
  end.
Definition text_content (v : pyval) : res pyval :=
  match v with PList l => texts ← mapM (M := res) part_text l; Ok (PStr (foldr String.append ""%string texts)) | _ => Ok v end.

(** The arguments of a tool call, decoded when they are the text of a JSON value. *)
Definition decoded (v : pyval) : pyval := match v with PStr s => match json_loads s with Ok w => w | Raise _ => v end | _ => v end.

Definition normalize_call (call : pyval) : res pyval :=
  text ← json_dumps call;
  call ← json_loads text;
  function ← get_from call "function";
  arguments ← get_from (default (PDict []) function) "arguments";
  match arguments, call, function with
  | Some (PStr s), PDict d, Some (PDict f) => Ok (PDict (dict_set d (KStr "function"%string) (PDict (dict_set f (KStr "arguments"%string)
    (decoded (PStr s))))))
  | _, _, _ => Ok call
  end.

Definition normalize_message (m : message) : res message :=
  m ← match dict_get m "content" with Some v => w ← text_content v; Ok (dict_set m "content" w) | None => Ok m end;
  match dict_get m "tool_calls" with
  | Some v =>
      if bool_of v then
        calls ← as_items v;
        calls ← mapM (M := res) normalize_call calls;
        Ok (dict_set m "tool_calls" (PList calls))
      else Ok m
  | None => Ok m
  end.
Definition normalize_messages (ms : list message) : res (list message) := mapM (M := res) normalize_message ms.

(** [_arguments]. *)
Definition key_ltb (a b : pkey * pyval) : bool :=
  match a.1, b.1 with KStr s, KStr t => String.ltb s t | KInt x, KInt y => x <? y | KStr _, KInt _ => false | KInt _, KStr _ => true end.
Definition arguments_of (v : pyval) : pyval := match decoded v with PDict d => PDict (py_sorted key_ltb d) | w => w end.

Definition canonical_call (call : pyval) : res pyval :=
  f ← get_from call "function";
  let function := match f with Some v => if bool_of v then v else PDict [] | None => PDict [] end in
  name ← get_from function "name";
  arguments ← get_from function "arguments";
  Ok (as_obj [("name"%string, default PNone name); ("arguments"%string, arguments_of (default PNone arguments))]).

Definition canonical_message (m : message) : res message :=
  let content := match dict_get m "content" with None | Some PNone => PStr "" | Some v => v end in
  let base := [("role"%string, default PNone (dict_get m "role")); ("content"%string, content)] in
  let base := match dict_get m "tool_call_id" with Some v => if bool_of v then base ++ [("tool_call_id"%string, v)] else base | None => base end in
  calls ← match dict_get m "tool_calls" with Some v => if bool_of v then as_items v else Ok [] | None => Ok [] end;
  calls ← mapM (M := res) canonical_call calls;
  Ok (match calls with [] => base | _ => base ++ [("tool_calls"%string, PList calls)] end).
Definition canonical_messages (ms : list message) : res (list message) := ms ← normalize_messages ms; mapM (M := res) canonical_message ms.

(** ** Episodes *)

Record Episode := MkEpisode { prompt_token_ids : list Z; response_token_ids : list Z; extended : bool }.

Record Session := MkSession {
  episodes : list Episode;
  messages : list message;
  raw_messages : list message;
  assistant : option message;
  api_key : option string;
}.

Definition session_new : Session := MkSession [] [] [] None None.

(** [==] of two messages, and of two lists of them. *)
Definition message_eq (a b : message) : bool := py_eq (as_obj a) (as_obj b).
Definition messages_eq (l k : list message) : bool := (length l =? length k)%nat && forallb (fun ab => message_eq ab.1 ab.2) (zip l k).

Definition extends (s : Session) (ms : list message) : res bool :=
  match assistant s with
  | None => Ok false
  | Some _ =>
      incoming ← canonical_messages ms;
      let n := length (messages s) in
      if (length incoming <? n + 1)%nat then Ok false
      else if negb (messages_eq (take n incoming) (messages s)) then Ok false
      else Ok (match incoming !! n with Some m => match dict_get m "role" with Some (PStr r) => String.eqb r "assistant" | _ => false end |
      None => false end)
  end.

(** [unmatched_close]: the longest beginning of [close] that the response ends with is left out. *)
Definition ends_with (response prefix : list Z) : bool := bool_decide (drop (length response - length prefix) response = prefix).
Fixpoint close_from (response close : list Z) (size : nat) : list Z :=
  if (size =? 0)%nat || ends_with response (take size close) then drop size close else match size with O => close |
    S size => close_from response close size end.
Definition unmatched_close (response close : list Z) : list Z := close_from response close (length response `min` length close).

Section proxy.
(** The tokens of the chat template: messages, tools, options, whether the generation prompt is added. *)
Context (render : list message -> pyval -> pyval -> bool -> list Z).

(** The body of a request: the value of [messages], and its other fields. *)
Record body := Body { b_messages : option (list message); b_fields : message }.

(** [list(body.get("messages") or [])], and [body.get(k) or v]. *)
Definition messages_of (b : body) : list message := default [] (b_messages b).
Definition field_or (b : body) (k : string) (v : pyval) : pyval := match dict_get (b_fields b) k with Some w => if bool_of w then w else v |
    None => v end.

Definition render_ids (ms : list message) (b : body) (gen : bool) : res (list Z) := ms ← normalize_messages ms;
    Ok (render ms (field_or b "tools" PNone) (field_or b "chat_template_kwargs" (PDict [])) gen).

Definition close_ids (before : list message) (b : body) : res (list Z) :=
  prompted ← render_ids before b true;
  closed ← render_ids (before ++ [[("role"%string, PStr "assistant"); ("content"%string, PStr "")]]) b false;
  Ok (if bool_decide (take (length prompted) closed = prompted) then drop (length prompted) closed else []).

Definition plan_prompt (s : Session) (b : body) : res (list Z * bool) :=
  fresh ← render_ids (messages_of b) b true;
  match last (episodes s) with
  | None => Ok (fresh, false)
  | Some previous =>
      ext ← extends s (messages_of b);
      if negb ext then Ok (fresh, false)
      else
        closed ← render_ids (take (length (raw_messages s) + 1) (messages_of b)) b false;
        if negb (bool_decide (take (length closed) fresh = closed)) then Ok (fresh, false)
        else
          fin ← close_ids (raw_messages s) b;
          let gap := unmatched_close (response_token_ids previous) fin in
          Ok (prompt_token_ids previous ++ response_token_ids previous ++ gap ++ drop (length closed) fresh, true)
  end.

(** [remember]: the episode is appended first; an exception of a later line leaves the lines before it done. *)
Definition remember (s : Session) (b : body) (assistant_message : message) (prompt_ids response_ids : list Z) (ext : bool) : Session * option exn :=
  let es := episodes s ++ [MkEpisode prompt_ids response_ids ext] in
  match normalize_messages (messages_of b) with
  | Raise x => (MkSession es (messages s) (raw_messages s) (assistant s) (api_key s), Some x)
  | Ok raw =>
      match mapM (M := res) canonical_message raw with
      | Raise x => (MkSession es (messages s) raw (assistant s) (api_key s), Some x)
      | Ok canonical =>
          match canonical_message assistant_message with
          | Raise x => (MkSession es canonical raw (assistant s) (api_key s), Some x)
          | Ok a => (MkSession es canonical raw (Some a) (api_key s), None)
          end
      end
  end.

(** ** The proxy, for one routing key *)

(** The session in [_sessions], and the request that holds the key's lock with what it planned. *)
Record slot := Slot { session : option Session; pending : option (body * list Z * bool) }.

Definition slot_new : slot := Slot None None.

(** [_bearer_ok]. *)
Definition bearer_ok (authorization : option string) (key : option string) : bool :=
  match key with None => true | Some k => String.eqb (default "" authorization) ("Bearer " ++ k) end.

(** The checks of the body before a session is looked up. *)
Definition refused (b : body) : option string :=
  if bool_of (default PNone (dict_get (b_fields b) "stream")) then Some "streaming is not supported"%string
  else if negb (py_eq (default (PInt 1) (dict_get (b_fields b) "n")) (PInt 1)) then Some "only n=1 is supported"%string
  else if bool_decide (b_messages b = None) then Some "messages is required"%string
  else None.

Inductive outcome :=
  | Sent (prompt_ids : list Z)
  | Rejected (status : Z) (why : string)
  | Failed (x : exn).

(** [_session]. *)
Definition session_of (t : slot) : Session := default session_new (session t).

(** [_chat_completions] up to the call of the model: the lock is free. *)
Definition begin_turn (max_model_len : Z) (t : slot) (b : body) (authorization : option string) : slot * outcome :=
  match refused b with
  | Some why => (t, Rejected 400 why)
  | None =>
      let s := session_of t in
      let t := Slot (Some s) (pending t) in
      if negb (bearer_ok authorization (api_key s)) then (t, Rejected 401 "invalid api key")
      else match plan_prompt s b with
           | Raise x => (t, Failed x)
           | Ok (prompt_ids, ext) =>
               if max_model_len <=? Z.of_nat (length prompt_ids) then (t, Rejected 400 "This model's maximum context length")
               else (Slot (Some s) (Some (b, prompt_ids, ext)), Sent prompt_ids)
           end
  end.

(** The rest of the handler: the model failed, or returned tokens from which a message was parsed; the lock is released. *)
Definition end_turn (t : slot) (generated : option (list Z * message)) : slot * option exn :=
  match pending t, generated with
  | Some (b, prompt_ids, ext), Some (response_ids, m) => let '(s,
    x) := remember (session_of t) b m prompt_ids response_ids ext in (Slot (Some s) None, x)
  | _, _ => (Slot (session t) None, None)
  end.

(** [issue], [drop] and [episodes]: they take no key lock. *)
Definition issue (t : slot) (token : string) : slot :=
  let s := session_of t in Slot (Some (MkSession (episodes s) (messages s) (raw_messages s) (assistant s) (Some token))) (pending t).
Definition drop_key (t : slot) : slot := Slot None (pending t).
Definition episodes_of (t : slot) : list Episode := match session t with None => [] | Some s => episodes s end.

(** The life of a routing key: a request begins when no other holds the lock; [issue] and [drop] come at any time. *)
Inductive slot_reach (max_model_len : Z) : slot -> Prop :=
  | sr_new : slot_reach max_model_len slot_new
  | sr_begin t b authorization : slot_reach max_model_len t -> pending t = None ->
    slot_reach max_model_len (begin_turn max_model_len t b authorization).1
  | sr_end t generated : slot_reach max_model_len t -> pending t <> None -> slot_reach max_model_len (end_turn t generated).1
  | sr_issue t token : slot_reach max_model_len t -> slot_reach max_model_len (issue t token)
  | sr_drop t : slot_reach max_model_len t -> slot_reach max_model_len (drop_key t).
End proxy.

(** ** Training sequences *)

(** [split_chains]: the finished chains and the current one. *)
Definition chain_step (acc : list (list Episode) * list Episode) (e : Episode) : list (list Episode) * list Episode :=
  match acc.2 with
  | [] => (acc.1, [e])
  | _ => if extended e then (acc.1, acc.2 ++ [e]) else (acc.1 ++ [acc.2], [e])
  end.
Definition split_chains (es : list Episode) : list (list Episode) :=
  let '(chains, current) := fold_left chain_step es ([], []) in match current with [] => chains | _ => chains ++ [current] end.

Definition sampled_ids (e : Episode) : list Z := prompt_token_ids e ++ response_token_ids e.

(** [mask[len(prompt) : len(sampled)] = [1] * len(response)]. *)
Definition mark (mask : list Z) (e : Episode) : list Z :=
  take (length (prompt_token_ids e)) mask ++ replicate (length (response_token_ids e)) 1 ++ drop (length (sampled_ids e)) mask.
Definition mask_step (full : list Z) (mask : list Z) (e : Episode) : list Z :=
  if bool_decide (take (length (sampled_ids e)) full = sampled_ids e) then mark mask e else mask.
Definition sampled_mask (es : list Episode) (prompt_ids response_ids : list Z) : list Z :=
  let full := prompt_ids ++ response_ids in drop (length prompt_ids) (fold_left (mask_step full) es (replicate (length full) 0)).

Definition sequence : Type := list Z * list Z * list Z.

(** [sequence_from_chain], of a chain that is not empty. *)
Definition sequence_from_chain (chain : list Episode) : res sequence :=
  match chain, last chain with
  | e :: _, Some z =>
      let first := prompt_token_ids e in
      let full := sampled_ids z in
      let '(prompt, response) := if bool_decide (take (length first) full = first) then (first,
        drop (length first) full) else (prompt_token_ids z, response_token_ids z) in
      Ok (prompt, response, sampled_mask chain prompt response)
  | _, _ => Raise (IndexError "list index out of range")
  end.

Definition training_sequences (es : list Episode) (step_wise : bool) : res (list sequence) :=
  let chains := split_chains es in
  if (length chains <=? 1)%nat || step_wise then mapM (M := res) sequence_from_chain chains
  else
    match es, last es with
    | e :: _, Some z =>
        let first := prompt_token_ids e in
        let full := sampled_ids z in
        if bool_decide (take (length first) full = first) then Ok [(first, drop (length first) full,
          sampled_mask es first (drop (length first) full))]
        else mapM (M := res) sequence_from_chain chains
    | _, _ => Raise (IndexError "list index out of range")
    end.

(** ** Masks *)

(** The tokens that a mask selects. *)
Definition select (ts mask : list Z) : list Z := omap (fun tm : Z * Z => if tm.2 =? 1 then Some tm.1 else None) (zip ts mask).

Lemma select_app a b m k : length a = length m -> select (a ++ b) (m ++ k) = select a m ++ select b k.
Proof. intros Hl. unfold select. rewrite zip_with_app by done. by rewrite omap_app. Qed.

Lemma select_zeros ts n : select ts (replicate n 0) = [].
Proof. revert n. induction ts as [|t ts IH]; intros [|n]; try done. apply IH. Qed.

Lemma select_ones ts : select ts (replicate (length ts) 1) = ts.
Proof. induction ts as [|t ts IH]; [done|]. unfold select in *. cbn [length replicate zip zip_with omap list_omap]. simpl. by rewrite IH. Qed.

Lemma prefix_length_le {A} (l k : list A) : l `prefix_of` k -> (length l <= length k)%nat.
Proof. apply prefix_length. Qed.

Lemma take_prefix {A} `{!EqDecision A} (l k : list A) : bool_decide (take (length l) k = l) = true <-> l `prefix_of` k.
Proof.
  rewrite bool_decide_eq_true. split; [intros Ht; exists (drop (length l) k); rewrite <- Ht at 1; by rewrite take_drop|intros [r ->];
  apply take_app_length].
Qed.

Definition sampled_in (full : list Z) (e : Episode) : Prop := sampled_ids e `prefix_of` full.

Lemma mark_length mask e full : length mask = length full -> sampled_in full e -> length (mark mask e) = length full.
Proof.
  intros Hl Hp%prefix_length_le. unfold mark. rewrite !length_app, length_take, length_replicate, length_drop. unfold sampled_ids in *.
  rewrite length_app in *. lia.
Qed.

Lemma mask_step_length full mask e : length mask = length full -> length (mask_step full mask e) = length full.
Proof. intros Hl. unfold mask_step. destruct (bool_decide _) eqn:Eb; [|done]. apply mark_length; [done|]. by apply take_prefix. Qed.

Lemma fold_mask_length full es mask : length mask = length full -> length (fold_left (mask_step full) es mask) = length full.
Proof. revert mask. induction es as [|e es IH]; intros mask Hl; [done|]. simpl. by apply IH, mask_step_length. Qed.

(** *** Only sampled tokens *)

Lemma mark_lookup mask e i : mark mask e !! i = Some 1 -> mask !! i = Some 1 \/ (length (prompt_token_ids e) <= i < length (sampled_ids
    e))%nat \/ (length mask < length (prompt_token_ids e))%nat.
Proof.
  unfold mark. destruct (decide (length mask < length (prompt_token_ids e))%nat) as [|Hge]; [by right; right|].
  assert (Htl : length (take (length (prompt_token_ids e)) mask) = length (prompt_token_ids e)) by (rewrite length_take; lia).
  rewrite lookup_app_Some, Htl. intros [Hi|[Hle Hi]]; [left; by apply lookup_take_Some in Hi as [? _]|].
  rewrite lookup_app_Some, length_replicate in Hi. destruct Hi as [Hi|[Hle2 Hi]].
  - right. left. apply lookup_replicate in Hi as [_ Hi]. unfold sampled_ids. rewrite length_app. lia.
  - left. rewrite lookup_drop in Hi. rewrite <- Hi. f_equal. unfold sampled_ids. rewrite length_app. lia.
Qed.

Lemma fold_mask_sound full es : forall mask i, length mask = length full -> fold_left (mask_step full) es mask !! i = Some 1 ->
  mask !! i = Some 1 \/ exists e, e ∈ es /\ sampled_in full e /\ (length (prompt_token_ids e) <= i < length (sampled_ids e))%nat.
Proof.
  induction es as [|e es IH]; intros mask i Hl; simpl; [by left|]. intros Hi.
  destruct (IH _ i (mask_step_length full mask e Hl) Hi) as [Hm|(x & Hx & Hr)]; [|right; exists x; split; [set_solver|done]].
  unfold mask_step in Hm. destruct (bool_decide _) eqn:Eb; [|by left]. apply take_prefix in Eb.
  destruct (mark_lookup mask e i Hm) as [Hm'|[Hr|Hlt]]; [by left|right; exists e; split; [set_solver|done]|].
  apply prefix_length_le in Eb. unfold sampled_ids in Eb. rewrite length_app in Eb. lia.
Qed.

(** *** Chains *)

Fixpoint spliced (l : list Episode) : Prop :=
  match l with e :: ((e' :: _) as l') => sampled_ids e `prefix_of` prompt_token_ids e' /\ spliced l' | _ => True end.

Lemma spliced_snoc l e : spliced (l ++ [e]) <-> spliced l /\ match last l with Some z => sampled_ids z `prefix_of` prompt_token_ids e |
    None => True end.
Proof.
  induction l as [|x l IH]; [done|]. destruct l as [|y l]; [simpl; naive_solver|].
  change (spliced ((x :: y :: l) ++ [e])) with (sampled_ids x `prefix_of` prompt_token_ids y /\ spliced ((y :: l) ++ [e])).
  rewrite IH. change (last (x :: y :: l)) with (last (y :: l)).
  change (spliced (x :: y :: l)) with (sampled_ids x `prefix_of` prompt_token_ids y /\ spliced (y :: l)). naive_solver.
Qed.

Lemma prompt_sampled e : prompt_token_ids e `prefix_of` sampled_ids e.
Proof. by exists (response_token_ids e). Qed.

Lemma spliced_prompt l e : spliced (l ++ [e]) -> prompt_token_ids (default e (head l)) `prefix_of` sampled_ids e.
Proof.
  destruct l as [|x l]; [intros _; apply prompt_sampled|]. simpl. revert x.
  induction l as [|y l IH]; intros x Hs; destruct Hs as [Hxy Hs]; (etrans; [apply prompt_sampled|]); (etrans; [exact Hxy|]);
  [apply prompt_sampled|by apply IH].
Qed.

Lemma drop_zeros (mask : list Z) k j n : drop k mask = replicate n 0 -> (k <= j)%nat -> drop j mask = replicate (length mask - j) 0.
Proof.
  intros Hd Hj. assert (Hn : n = (length mask - k)%nat) by (rewrite <- length_drop, Hd; by rewrite length_replicate).
  replace j with (k + (j - k))%nat by lia. rewrite <- drop_drop, Hd, drop_replicate. f_equal. lia.
Qed.

(** Marking an episode beyond what is marked already. *)
Lemma mark_select full mask e k n :
  length mask = length full -> drop k mask = replicate n 0 -> (k <= length (prompt_token_ids e))%nat -> sampled_in full e ->
  select full (mark mask e) = select full mask ++ response_token_ids e /\
  drop (length (sampled_ids e)) (mark mask e) = replicate (length full - length (sampled_ids e)) 0 /\
  forall j, (j <= length (prompt_token_ids e))%nat -> take j (mark mask e) = take j mask.
Proof.
  intros Hl Hd Hk [r Hr]. unfold mark, sampled_ids in *. set (P := prompt_token_ids e) in *. set (R := response_token_ids e) in *.
  assert (Hfl : length full = (length P + length R + length r)%nat) by (rewrite Hr, !length_app; lia).
  assert (HdP : drop (length P) mask = replicate (length mask - length P) 0) by (by apply (drop_zeros mask k _ n)).
  assert (HdS : drop (length (P ++ R)) mask = replicate (length full - length (P ++ R)) 0) by (rewrite <- Hl; apply (drop_zeros mask k _ n);
  [done|rewrite length_app; lia]).
  assert (HtP : length (take (length P) mask) = length P) by (rewrite length_take; lia). rewrite HdS. split; [|split].
  - transitivity (select P (take (length P) mask) ++ R).
    + rewrite Hr at 1. rewrite <- app_assoc, select_app by done. f_equal. rewrite select_app by (by rewrite length_replicate).
      by rewrite select_ones, select_zeros, app_nil_r.
    + f_equal. rewrite <- (take_drop (length P) mask) at 2. rewrite HdP, Hr, <- app_assoc, select_app by done. by rewrite select_zeros, app_nil_r.
  - rewrite length_app, <- drop_drop, drop_app_length' by done. rewrite drop_app_length' by (by rewrite length_replicate). done.
  - intros j Hj. rewrite take_app_le by lia. rewrite take_take. by replace (j `min` length P)%nat with j by lia.
Qed.

Lemma spliced_mask l : forall full e, spliced (l ++ [e]) -> sampled_in full e ->
  let mask := fold_left (mask_step full) (l ++ [e]) (replicate (length full) 0) in
  select full mask = concat (response_token_ids <$> (l ++ [e])) /\ length mask = length full /\
  drop (length (sampled_ids e)) mask = replicate (length full - length (sampled_ids e)) 0 /\
  take (length (prompt_token_ids (default e (head l)))) mask = replicate (length (prompt_token_ids (default e (head l)))) 0.
Proof.
  induction l as [|z l IH] using rev_ind; intros full e Hs Hin; cbn zeta.
  - simpl. unfold mask_step. rewrite (proj2 (take_prefix _ _) Hin).
    destruct (mark_select full (replicate (length full) 0) e 0 (length full)) as (H1 & H2 & H3);
    [by rewrite length_replicate|done|lia|done|].
    rewrite H1, H2, select_zeros, app_nil_r. split; [done|]. split; [by apply mark_length; [rewrite length_replicate|]|]. split; [done|].
    rewrite H3 by done. rewrite take_replicate. f_equal.
    apply prefix_length_le in Hin. unfold sampled_ids in Hin. rewrite length_app in Hin. lia.
  - apply spliced_snoc in Hs as [Hs Hz]. rewrite last_snoc in Hz.
    assert (Hpz : sampled_in full z) by (unfold sampled_in; etrans; [exact Hz|]; etrans; [apply prompt_sampled|done]).
    destruct (IH full z Hs Hpz) as (H1 & H2 & H3 & H4). rewrite fold_left_app. set (mask := fold_left _ (l ++ [z]) _) in *. cbn [fold_left].
    assert (Hstep : mask_step full mask e = mark mask e) by (unfold mask_step; by rewrite (proj2 (take_prefix _ _) Hin)). rewrite Hstep.
    destruct (mark_select full mask e _ _ H2 H3 (prefix_length_le _ _ Hz) Hin) as (H5 & H6 & H7). rewrite H5, H6, H1.
    split; [rewrite (fmap_app _ (l ++ [z])), concat_app; cbn [fmap list_fmap concat]; by rewrite app_nil_r|].
    split; [by apply (mark_length mask e full)|]. split; [done|].
    assert (Hh : default e (head (l ++ [z])) = default z (head l)) by (by destruct l). rewrite Hh, H7; [done|]. clear -Hs Hz.
    etrans; [|apply prefix_length_le, Hz].
    by apply prefix_length_le, spliced_prompt.
Qed.

(** *** Sequences *)

(** A chain that is spliced: one sequence that ends with the last call and whose mask selects exactly what was sampled. *)
Lemma sequence_spliced l e :
  spliced (l ++ [e]) ->
  exists response mask, sequence_from_chain (l ++ [e]) = Ok (prompt_token_ids (default e (head l)), response, mask) /\
    prompt_token_ids (default e (head l)) ++ response = sampled_ids e /\ length mask = length response /\
    select response mask = concat (response_token_ids <$> (l ++ [e])).
Proof.
  intros Hs. set (P := prompt_token_ids (default e (head l))).
  destruct (spliced_mask l (sampled_ids e) e Hs (reflexivity (sampled_ids e))) as (H1 & H2 & _ & H4). fold P in H4.
  set (mask := fold_left _ _ _) in *.
  assert (Hpre : P `prefix_of` sampled_ids e) by (by apply spliced_prompt).
  pose proof Hpre as [r Hr]. assert (Hdrop : drop (length P) (sampled_ids e) = r) by (rewrite Hr; apply drop_app_length).
  exists r, (drop (length P) mask).
  assert (Hseq : sequence_from_chain (l ++ [e]) = Ok (P, r, sampled_mask (l ++ [e]) P r)).
  { unfold sequence_from_chain. pose proof (last_snoc e l) as Hlast. destruct (l ++ [e]) as [|x k] eqn:E; [by destruct l|]. rewrite Hlast.
    assert (Hx : prompt_token_ids x = P) by (unfold P; by destruct l; injection E as <- _). rewrite Hx.
    rewrite (proj2 (take_prefix P (sampled_ids e)) Hpre), Hdrop. done. }
  split; [rewrite Hseq; unfold sampled_mask, mask; by rewrite Hr|]. split; [done|]. split; [rewrite length_drop, H2, Hr, length_app; lia|].
  rewrite <- H1. transitivity (select (P ++ r) (take (length P) mask ++ drop (length P) mask)); [|by rewrite take_drop, <- Hr].
  rewrite H4, select_app by (by rewrite length_replicate). by rewrite select_zeros.
Qed.

(** *** Splitting into chains *)

Definition linked (es : list Episode) : Prop := forall pre e e' post, es = pre ++ e :: e' :: post -> extended e' = true ->
    sampled_ids e `prefix_of` prompt_token_ids e'.

Lemma linked_snoc es e : linked es -> (extended e = true -> match last es with Some z => sampled_ids z `prefix_of` prompt_token_ids e |
    None => True end) -> linked (es ++ [e]).
Proof.
  intros Hl He pre x x' post Heq Hx. destruct post as [|y post _] using rev_ind.
  - change (x :: [x']) with ([x] ++ [x']) in Heq. rewrite app_assoc in Heq. apply app_inj_tail in Heq as [-> ->]. specialize (He Hx).
    by rewrite last_snoc in He.
  - rewrite !app_comm_cons, app_assoc in Heq. apply app_inj_tail in Heq as [-> _]. by apply (Hl pre x x' post).
Qed.

Lemma linked_prefix es k : linked (es ++ k) -> linked es.
Proof. intros Hl pre x x' post -> Hx. apply (Hl pre x x' (post ++ k)); [|done]. by rewrite <- app_assoc. Qed.

Lemma split_chains_inv es : linked es ->
  let '(chains, current) := fold_left chain_step es ([], []) in
  concat chains ++ current = es /\ Forall (fun c => c <> [] /\ spliced c) chains /\ spliced current /\ (es <> [] -> current <> []).
Proof.
  induction es as [|e es IH] using rev_ind; intros Hl; [done|]. rewrite fold_left_app. specialize (IH (linked_prefix es [e] Hl)).
  destruct (fold_left chain_step es ([], [])) as [chains current]. destruct IH as (H1 & H2 & H3 & H4). cbn [fold_left].
  unfold chain_step. cbn [fst snd]. destruct current as [|c0 cur] eqn:Ec; [|destruct (extended e) eqn:Ee].
  - rewrite app_nil_r in H1. split_and!; [by rewrite H1|done|done|done].
  - split_and!; [by rewrite app_assoc, H1|done| |done]. apply spliced_snoc. split; [done|].
    destruct (last (c0 :: cur)) as [z|] eqn:Ez; [|done]. apply last_Some in Ez as (k & Hk). rewrite Hk in H1.
    apply (Hl (concat chains ++ k) z e []); [|done]. rewrite <- H1, <- !app_assoc. done.
  - split_and!; [rewrite concat_app; simpl; by rewrite app_nil_r, <- H1, <- app_assoc|apply Forall_app; split; [done|by constructor]|done|done].
Qed.

Lemma split_chains_spec es : linked es -> concat (split_chains es) = es /\ Forall (fun c => c <> [] /\ spliced c) (split_chains es).
Proof.
  intros Hl. pose proof (split_chains_inv es Hl) as H. unfold split_chains. destruct (fold_left chain_step es ([], [])) as [chains current].
  destruct H as (H1 & H2 & H3 & _). destruct current as [|c cur]; [by rewrite app_nil_r in H1|].
  split; [rewrite concat_app; simpl; by rewrite app_nil_r|]. apply Forall_app. split; [done|]. by constructor.
Qed.

(** A sequence of a chain: it has the tokens of the last call, and its mask selects what was sampled. *)
Definition sequence_of (chain : list Episode) (q : sequence) : Prop :=
  let '(prompt, response, mask) := q in
  (exists e z, head chain = Some e /\ last chain = Some z /\ prompt = prompt_token_ids e /\ prompt ++ response = sampled_ids z) /\
  length mask = length response /\ select response mask = concat (response_token_ids <$> chain).

Lemma sequences_spliced chains : Forall (fun c => c <> [] /\ spliced c) chains ->
    exists qs, mapM (M := res) sequence_from_chain chains = Ok qs /\ Forall2 sequence_of chains qs.
Proof.
  induction 1 as [|c chains [Hne Hs] _ (qs & Hqs & Hf)]; [by exists []|]. destruct c as [|e l _] using rev_ind; [done|].
  destruct (sequence_spliced l e Hs) as (response & mask & Hq & H1 & H2 & H3).
  exists ((prompt_token_ids (default e (head l)), response, mask) :: qs). cbn [mapM]. rewrite Hq. cbn [mbind res_bind]. rewrite Hqs.
    split; [done|]. constructor; [|done]. split; [|done].
  exists (default e (head l)), e. split; [by destruct l|]. split; [apply last_snoc|done].
Qed.

(** *** Sessions *)

Lemma plan_prompt_linked render s b prompt ext :
  plan_prompt render s b = Ok (prompt, ext) -> ext = true -> match last (episodes s) with Some z => sampled_ids z `prefix_of` prompt |
  None => True end.
Proof.
  unfold plan_prompt. intros (fresh & _ & H)%bind_Ok_inv Hext. subst ext. destruct (last (episodes s)) as [z|]; [|done].
  apply bind_Ok_inv in H as ([] & _ & H); cbn [negb] in H; [|done].
  apply bind_Ok_inv in H as (closed & _ & H). destruct (bool_decide _); cbn [negb] in H; [|done]. apply bind_Ok_inv in H as (fin & _ & H).
  injection H as <-. unfold sampled_ids. rewrite app_assoc. by eexists.
Qed.

Lemma remember_episodes s b m p r ext : episodes (remember s b m p r ext).1 = episodes s ++ [MkEpisode p r ext].
Proof.
  unfold remember. destruct (normalize_messages _) as [raw|]; [|done]. destruct (mapM canonical_message raw); [|done].
  by destruct (canonical_message m).
Qed.

(** The episodes are linked, and the prompt in flight extends the last one unless the session was dropped. *)
Definition slot_ok (t : slot) : Prop :=
  linked (episodes_of t) /\ match pending t with Some (_, p,
  true) => match last (episodes_of t) with Some z => sampled_ids z `prefix_of` p | None => True end | _ => True end.

Lemma linked_nil : linked [].
Proof. intros pre e e' post Heq. by destruct pre. Qed.

Lemma slot_linked render n t : slot_reach render n t -> slot_ok t.
Proof.
  induction 1 as [|t b auth _ [IH _] Hp|t g _ [IH Hw] _|t token _ [IH Hw]|t _ _].
  - split; [apply linked_nil|done].
  - unfold begin_turn. destruct (refused b); [split; [done|by cbn [fst]; rewrite Hp]|].
    assert (Hes : episodes (session_of t) = episodes_of t) by (unfold session_of, episodes_of; by destruct (session t)).
    destruct (negb _); [split; [unfold episodes_of; simpl; by rewrite Hes|simpl; by rewrite Hp]|].
    destruct (plan_prompt render (session_of t) b) as [[p ext]|] eqn:Ep; [destruct (n <=? _)|]; simpl; (split; [unfold episodes_of; simpl;
    by rewrite Hes|simpl; try by rewrite Hp]).
    destruct ext; [|done]. unfold episodes_of. simpl. by apply (plan_prompt_linked render (session_of t) b p true).
  - unfold end_turn. destruct (pending t) as [[[b p] ext]|]; [destruct g as [[r m]|]|]; [|by split..].
    destruct (remember (session_of t) b m p r ext) as [s x] eqn:Er. split; [|done]. unfold episodes_of. simpl.
    assert (Hes : episodes s = episodes_of t ++ [MkEpisode p r ext]) by (pose proof (remember_episodes (session_of t) b m p r ext) as H;
    rewrite Er in H; simpl in H; rewrite H; unfold session_of, episodes_of; by destruct (session t)).
    rewrite Hes. apply linked_snoc; [done|]. simpl. by intros ->.
  - unfold slot_ok, episodes_of, issue in *. simpl. unfold session_of. by destruct (session t).
  - split; [apply linked_nil|]. simpl. by destruct (pending t) as [[[b p] []]|].
Qed.

(** The end marker is there exactly once. *)
Lemma ends_with_spec response prefix : ends_with response prefix = true <-> prefix `suffix_of` response.
Proof.
  unfold ends_with. rewrite bool_decide_eq_true. split.
  - intros <-. exists (take (length response - length prefix) response). by rewrite take_drop.
  - intros [k ->]. rewrite length_app. replace (length k + length prefix - length prefix)%nat with (length k) by lia. apply drop_app_length.
Qed.

Lemma close_from_spec response close size :
  (size <= length close)%nat ->
  exists n, (n <= size)%nat /\ close_from response close size = drop n close /\ take n close `suffix_of` response /\
    forall m, (n < m <= size)%nat -> ~ take m close `suffix_of` response.
Proof.
  induction size as [|size IH]; intros Hs; simpl; [exists 0%nat; split_and!; [lia|done|apply suffix_nil|lia]|].
  destruct (ends_with response (take (S size) close)) eqn:Ee; cbn [orb].
  - exists (S size). apply ends_with_spec in Ee. split_and!; [lia|done|done|lia].
  - destruct IH as (n & H1 & H2 & H3 & H4); [lia|]. exists n. split_and!; [lia|done|done|]. intros m Hm.
    destruct (decide (m = S size)) as [->|]; [|apply H4; lia]. intros Hx%ends_with_spec. congruence.
Qed.

Lemma unmatched_close_completes response close : close `suffix_of` response ++ unmatched_close response close.
Proof.
  unfold unmatched_close. destruct (close_from_spec response close (length response `min` length close)) as (n & _ & ->
  & [k Hk] & _); [lia|]. exists k. rewrite Hk, <- app_assoc. by rewrite take_drop.
Qed.

(** ** Properties *)

Lemma sequences_trained chains qs : Forall2 sequence_of chains qs -> concat ((fun q : sequence => select q.1.2 q.2) <$> qs) = concat
    (response_token_ids <$> concat chains).
Proof.
  induction 1 as [|c [[p r] m] chains qs (_ & _ & Hq) _ IH]; [done|]. rewrite fmap_cons. cbn [concat fst snd].
  by rewrite Hq, IH, fmap_app, concat_app.
Qed.

(** A sequence whose mask trains only tokens that one of the episodes sampled: the prompt and response of that episode are the beginning of
    the sequence, and the token lies in its response. *)
Definition only_sampled (es : list Episode) (q : sequence) : Prop :=
  let '(prompt, response, mask) := q in
  length mask = length response /\
  forall i, mask !! i = Some 1 -> exists e, e ∈ es /\ sampled_ids e `prefix_of` prompt ++ response /\
    (length (prompt_token_ids e) <= length prompt + i < length (sampled_ids e))%nat.

Lemma mask_only_sampled es c prompt response : (forall e, e ∈ c -> e ∈ es) -> only_sampled es (prompt, response, sampled_mask c prompt response).
Proof.
  unfold only_sampled, sampled_mask. intros Hsub. split; [rewrite length_drop, fold_mask_length,
  length_app by (by rewrite length_replicate); lia|]. intros i Hi. rewrite lookup_drop in Hi.
  destruct (fold_mask_sound _ c _ _ (length_replicate _ _) Hi) as [Hz|(e & He & Hs & Hr)];
  [by apply lookup_replicate in Hz as [? _]|exists e; split; [auto|]; split; [done|lia]].
Qed.

Lemma chain_only_sampled es c q : (forall e, e ∈ c -> e ∈ es) -> sequence_from_chain c = Ok q -> only_sampled es q.
Proof.
  intros Hsub. unfold sequence_from_chain. destruct c as [|e c']; [done|]. destruct (last (e :: c')) as [z|]; [|done].
  destruct (bool_decide _); intros [= <-]; by apply mask_only_sampled.
Qed.

Lemma chains_only_sampled es chains qs : (forall c, c ∈ chains -> forall e, e ∈ c -> e ∈ es) ->
    mapM (M := res) sequence_from_chain chains = Ok qs -> Forall (only_sampled es) qs.
Proof.
  revert qs. induction chains as [|c chains IH]; intros qs Hsub; cbn [mapM]; [by intros [= <-]|].
  intros (q & Hq & (qs' & Hqs & [= <-])%bind_Ok_inv)%bind_Ok_inv. constructor.
  - apply (chain_only_sampled es c); [apply Hsub; set_solver|done].
  - apply IH; [|done]. intros c' Hc'. apply Hsub. set_solver.
Qed.

Lemma training_sequences_ok es step_wise : linked es ->
  exists qs, training_sequences es step_wise = Ok qs /\ Forall (only_sampled es) qs /\ (step_wise = true -> Forall2 sequence_of (split_chains es) qs).
Proof.
  intros Hl. destruct (split_chains_spec es Hl) as [Hc Hf]. destruct (sequences_spliced _ Hf) as (qs & Hqs & Hall).
  assert (Honly : Forall (only_sampled es) qs) by (apply (chains_only_sampled es (split_chains es)); [|done]; intros c Hin e He;
  rewrite <- Hc; apply list_elem_of_In, in_concat; exists c; by rewrite <- !list_elem_of_In).
  unfold training_sequences. destruct (_ || step_wise) eqn:Ew; [by exists qs|]. apply orb_false_iff in Ew as [Hn ->].
  destruct es as [|e es]; [done|]. assert (Hz : exists z, last (e :: es) = Some z) by (rewrite last_cons; destruct (last es); eauto).
  destruct Hz as [z ->]. destruct (bool_decide _); [|by exists qs].
  eexists. split; [done|]. split; [|done]. apply Forall_singleton. by apply mask_only_sampled.
Qed.

(** C29: Whatever requests, failures of the model, new keys and drops a routing key has seen,
    its training sequences are built without an error and a token is trained only if an episode sampled it: the prompt and response of that
    episode are the beginning of the sequence.  Step-wise there is one sequence per chain of continued calls,
    from the prompt of the chain's first call to the last sampled token of its last call,
    and together the masks select exactly the sampled tokens of all the calls, in their order, each once. *)
Theorem training_exact render max_model_len t step_wise :
  slot_reach render max_model_len t ->
  exists qs, training_sequences (episodes_of t) step_wise = Ok qs /\ Forall (only_sampled (episodes_of t)) qs /\
    (step_wise = true -> Forall2 sequence_of (split_chains (episodes_of t)) qs /\ concat (split_chains (episodes_of t)) = episodes_of t /\
      concat ((fun q : sequence => select q.1.2 q.2) <$> qs) = concat (response_token_ids <$> episodes_of t)).
Proof.
  intros [Hl _]%slot_linked. destruct (training_sequences_ok _ step_wise Hl) as (qs & Hqs & Ho & Hall). exists qs. split_and!; [done..|].
  intros Hw. specialize (Hall Hw). destruct (split_chains_spec _ Hl) as [Hc _].
  split_and!; [done..|]. by rewrite (sequences_trained _ _ Hall), Hc.
Qed.

(** ** A small template *)

Module MiniProxy.
(** One token per message, the length of its content, [99] before it is the assistant's turn and [98] after an assistant message. *)
Definition message_token (m : message) : list Z :=
  match dict_get m "role", dict_get m "content" with
  | Some (PStr role), Some (PStr content) => (if String.eqb role "assistant" then [99] else []) ++ (if String.eqb content "" then []
    else [Z.of_nat (String.length content)]) ++ (if String.eqb role "assistant" then [98] else [])
  | _, _ => []
  end.
Definition render (ms : list message) (tools kwargs : pyval) (gen : bool) : list Z := concat (message_token <$> ms) ++ (if gen then [99] else []).

Definition say (role text : string) : message := [("role"%string, PStr role); ("content"%string, PStr text)].
Definition first_request : body := Body (Some [say "user" "abc"]) [].
Definition second_request (reply : string) : body := Body (Some [say "user" "abc"; say "assistant" reply; say "user" "defg"]) [].

Definition after_first : slot := (end_turn (begin_turn render 100 slot_new first_request None).1 (Some ([41; 42; 98], say "assistant" "a reply"))).1.
Definition after_second (reply : string) : slot := (end_turn (begin_turn render 100 after_first (second_request reply) None).1 (Some ([51],
    say "assistant" "more"))).1.
Definition after_reset : slot := (end_turn (begin_turn render 100 (after_second "a reply") first_request None).1 (Some ([61],
    say "assistant" "again"))).1.

Lemma after_first_reach : slot_reach render 100 after_first.
Proof. apply sr_end; [apply sr_begin; [apply sr_new|done]|vm_compute; discriminate]. Qed.

Lemma after_reset_reach : slot_reach render 100 after_reset.
Proof.
  apply sr_end; [apply sr_begin; [|done]|vm_compute; discriminate].
  apply sr_end; [apply sr_begin; [apply after_first_reach|done]|vm_compute; discriminate].
Qed.

Lemma training_exact_witness :
  training_sequences (episodes_of after_reset) true = Ok [([3; 99], [41; 42; 98; 4; 99; 51], [1; 1; 1; 0; 0; 1]); ([3; 99], [61], [1])] /\
  exists qs, training_sequences (episodes_of after_reset) true = Ok qs /\ Forall (only_sampled (episodes_of after_reset)) qs /\
    (true = true -> Forall2 sequence_of (split_chains (episodes_of after_reset)) qs /\
      concat (split_chains (episodes_of after_reset)) = episodes_of after_reset /\
      concat ((fun q : sequence => select q.1.2 q.2) <$> qs) = concat (response_token_ids <$> episodes_of after_reset)).
Proof. split; [vm_compute; reflexivity|]. apply (training_exact render 100 after_reset true after_reset_reach). Defined.

(** A request that does not replay the returned assistant message, but another one in its place,
    still counts as a continuation: the prompt keeps the tokens sampled before and the text the harness sent is not in it. *)
Example edited_reply_ignored :
  episodes_of (after_second "edited by the harness") = episodes_of (after_second "a reply") /\
  (extended <$> episodes_of (after_second "edited by the harness")) = [false; true] /\
  (prompt_token_ids <$> episodes_of (after_second "edited by the harness")) = [[3; 99]; [3; 99; 41; 42; 98; 4; 99]].
Proof. vm_compute. done. Qed.

(** A rollout that is dropped while its request waits for the model is not forgotten: the request puts its episode,
    with the tokens of the dropped episodes in its prompt, into a new session, and the next request with this key continues it. *)
Example drop_undone_in_flight :
  let t := (end_turn (drop_key (begin_turn render 100 after_first (second_request "a reply") None).1) (Some ([51], say "assistant" "more"))).1 in
  episodes_of (drop_key after_first) = [] /\ episodes_of t = [MkEpisode [3; 99; 41; 42; 98; 4; 99] [51] true].
Proof. vm_compute. done. Qed.
End MiniProxy.
