(* ===== verification/OptionRegistry.v ===== *)
(** * The registry of model options and profiles

    Source: [src/arctic_platform/common/option_registry.py].

    An option entry says what an option is; a profile says of every option whether a model
    supports it, does not support it or cannot have it, itself or through the profile it
    extends.  [check_coverage] lists what keeps the table from being complete, [settle] gives the
    cells of a profile, [render_matrix] prints the table.

    Arguments of the registering functions are Python values, whose types the code checks.
    Patterns are those of the module [fnmatch].  The files of the system are a parameter
    ([files]: the text of a regular file), as is the form in which a path is shown ([display]).
    The tables that the program registers are in [ModelOptions]. *)

From stdpp Require Import prelude strings list sorting.
From Stdlib Require Import ZArith Lia Ascii.
From S2P Require Import Prelude Dict Json.
Local Open Scope string_scope.
Local Open Scope nat_scope.
Local Open Scope list_scope.

(** ** Strings *)

(** [s in t] for a character, [sep.join(l)] and [repr(s)]. *)
Definition has_char (c : ascii) (s : string) : bool := bool_decide (c ∈ chars_of s).

Fixpoint join_str (sep : string) (l : list string) : string :=
  match l with [] => "" | [s] => s | s :: l => s +:+ sep +:+ join_str sep l end.

Definition newline : ascii := ascii_of_nat 10.
Definition apostrophe : ascii := ascii_of_nat 39.

Definition printable (c : ascii) : bool :=
  let n := nat_of_ascii c in negb ((n <? 32) || (127 <=? n) && (n <=? 160) || (n =? 173)).
Definition repr_char (q c : ascii) : list ascii :=
  let n := nat_of_ascii c in
  if bool_decide (c = q) || bool_decide (c = backslash) then [backslash; c]
  else if n =? 9 then [backslash; "t"%char]
  else if n =? 10 then [backslash; "n"%char]
  else if n =? 13 then [backslash; "r"%char]
  else if printable c then [c]
  else [backslash; "x"%char; hex_digit (n / 16); hex_digit (n mod 16)].
Definition py_repr (s : string) : string :=
  let q := if has_char apostrophe s && negb (has_char quote s) then quote else apostrophe in
  string_of (q :: concat (repr_char q <$> chars_of s) ++ [q]).

(** [re.fullmatch(r"^[a-z][a-z0-9_]*(\.[a-z][a-z0-9_]*)*$", key)]. *)
Definition is_lower (c : ascii) : bool := let n := nat_of_ascii c in (97 <=? n) && (n <=? 122).
Fixpoint split_on (sep : ascii) (cs : list ascii) : list (list ascii) :=
  match cs with
  | [] => [[]]
  | c :: cs => if decide (c = sep) then [] :: split_on sep cs else match split_on sep cs with seg :: segs => (c :: seg) :: segs | [] => [[c]] end
  end.
Definition key_segment (seg : list ascii) : bool :=
  match seg with c :: cs => is_lower c && forallb (fun c => is_lower c || is_digit c || bool_decide (c = "_"%char)) cs | [] => false end.
Definition KEY_RE (key : string) : bool := forallb key_segment (split_on "."%char (chars_of key)).

(** [re.match(r"TODO\b", s)]: the word is not continued. *)
Definition word_char (c : ascii) : bool :=
  let n := nat_of_ascii c in
  is_lower c || is_digit c || (65 <=? n) && (n <=? 90) || (n =? 95) ||
  bool_decide (n ∈ [170; 178; 179; 181; 185; 186; 188; 189; 190]) || (192 <=? n) && negb (n =? 215) && negb (n =? 247).
Definition TODO_MARKER (cs : list ascii) : bool :=
  bool_decide (take 4 cs = chars_of "TODO") && match cs !! 4 with Some c => negb (word_char c) | None => true end.

(** ** Patterns: [fnmatch.fnmatchcase] *)

Inductive fn_token :=
  | FStar
  | FAny
  | FLit (c : ascii)
  | FClass (negated : bool) (ranges : list (ascii * ascii)).

(** The inside of square brackets: single characters and ranges. *)
Fixpoint class_ranges (cs : list ascii) : list (ascii * ascii) :=
  match cs with
  | a :: ((h :: b :: rest) as tail) => if decide (h = "-"%char) then (a, b) :: class_ranges rest else (a, a) :: class_ranges tail
  | a :: tail => (a, a) :: class_ranges tail
  | [] => []
  end.

(** What is between the bracket and the one that closes it; a [!] and then a bracket at the start do not close it. *)
Fixpoint until_bracket (cs : list ascii) : option (list ascii * list ascii) :=
  match cs with
  | [] => None
  | c :: cs => if decide (c = "]"%char) then Some ([], cs) else match until_bracket cs with Some (inside, rest) => Some (c :: inside,
    rest) | None => None end
  end.
Definition class_body (cs : list ascii) : option (list ascii * list ascii) :=
  match cs with
  | c :: cs' => if decide (c = "]"%char) then (fun ir => (c :: ir.1, ir.2)) <$> until_bracket cs' else until_bracket cs
  | [] => None
  end.
Definition parse_class (cs : list ascii) : option (fn_token * list ascii) :=
  match cs with
  | c :: cs' =>
      if decide (c = "!"%char) then (fun ir => (FClass true (class_ranges ir.1), ir.2)) <$> class_body cs'
      else (fun ir => (FClass false (class_ranges ir.1), ir.2)) <$> class_body cs
  | [] => None
  end.

(** Every turn consumes a character, so the length of the pattern is enough fuel. *)
Fixpoint fn_tokens (fuel : nat) (cs : list ascii) : list fn_token :=
  match fuel, cs with
  | S fuel, c :: cs =>
      if decide (c = "*"%char) then FStar :: fn_tokens fuel cs
      else if decide (c = "?"%char) then FAny :: fn_tokens fuel cs
      else if decide (c = "["%char) then
        match parse_class cs with Some (t, rest) => t :: fn_tokens fuel rest | None => FLit c :: fn_tokens fuel cs end
      else FLit c :: fn_tokens fuel cs
  | _, _ => []
  end.

Definition in_range (c : ascii) (r : ascii * ascii) : bool := (nat_of_ascii r.1 <=? nat_of_ascii c) && (nat_of_ascii c <=? nat_of_ascii r.2).
Definition token_accepts (t : fn_token) (c : ascii) : bool :=
  match t with FStar | FAny => true | FLit d => bool_decide (c = d) | FClass neg rs => xorb neg (existsb (in_range c) rs) end.

Fixpoint fn_run (ts : list fn_token) (cs : list ascii) : bool :=
  match ts with
  | [] => bool_decide (cs = [])
  | FStar :: ts => (fix star (cs : list ascii) : bool := fn_run ts cs || match cs with [] => false | _ :: cs => star cs end) cs
  | t :: ts => match cs with c :: cs => token_accepts t c && fn_run ts cs | [] => false end
  end.
Definition fnmatchcase (name pattern : string) : bool := fn_run (fn_tokens (String.length pattern) (chars_of pattern)) (chars_of name).

(** ** Entries *)

Definition RUNS_IN : list string := ["trainer"; "sampler"; "both"].
Definition GOALS : list string := ["parity"; "memory"; "speed"; "robustness"; "mode"; "debug"].

Inductive Status := SUPPORTS | UNSUPPORTED | NOT_APPLICABLE.
#[export] Instance Status_eq_dec : EqDecision Status.
Proof. solve_decision. Defined.

Record OptionEntry := MkOption { o_key : string; o_runs_in : string; o_goal : string; o_why : string; o_remove_when : option string;
    o_source : string }.

Record Profile := MkProfile {
  p_name : string;
  p_extends : option string;
  p_supports : list string;
  p_unsupported : list (string * string);
  p_not_applicable : list (string * string);
}.

Record Cell := MkCell { c_status : Status; c_reason : option string }.

Record Registry := MkRegistry {
  matrix_path : option string;
  option_entries : list (string * OptionEntry);
  profile_entries : list (string * Profile);
  builtins_registered : bool;
}.
Definition registry_new (path : option string) : Registry := MkRegistry path [] [] false.

(** ** Registration *)

Definition type_name (v : pyval) : string :=
  match v with PNone => "NoneType" | PBool _ => "bool" | PInt _ => "int" | PFloat _ => "float" | PStr _ => "str" | PList _ => "list" |
    PTuple _ => "tuple" | PDict _ => "dict" | PTensor _ => "Tensor" | POpaque cls => cls end.

Definition require_str (v : pyval) (what : string) : res string :=
  match v with PStr s => Ok s | _ => Raise (TypeError (what +:+ " must be a str, got " +:+ type_name v)) end.

Definition option_str (v : pyval) (what : string) : res (option string) := match v with PNone => Ok None | _ => s ← require_str v what;
    Ok (Some s) end.

Definition register_option (r : Registry) (key runs_in goal why source remove_when : pyval) : res (Registry * OptionEntry) :=
  key ← require_str key "option key";
  runs_in ← require_str runs_in ("option " +:+ py_repr key +:+ " runs_in");
  goal ← require_str goal ("option " +:+ py_repr key +:+ " goal");
  why ← require_str why ("option " +:+ py_repr key +:+ " why");
  source ← require_str source ("option " +:+ py_repr key +:+ " source");
  remove_when ← option_str remove_when ("option " +:+ py_repr key +:+ " remove_when");
  if has_char "*" key then Raise (ValueError "must not contain a wildcard")
  else if negb (KEY_RE key) then Raise (ValueError "must be a lowercase dotted path")
  else if negb (bool_decide (runs_in ∈ RUNS_IN)) then Raise (ValueError "runs_in must be one of")
  else if negb (bool_decide (goal ∈ GOALS)) then Raise (ValueError "goal must be one of")
  else if (length (strip (chars_of why)) =? 0) then Raise (ValueError "needs a non-empty why")
  else match dict_get (option_entries r) key with
       | Some _ => Raise (ValueError "already registered")
       | None =>
           let entry := MkOption key runs_in goal why remove_when source in
           Ok (MkRegistry (matrix_path r) (dict_set (option_entries r) key entry) (profile_entries r) (builtins_registered r), entry)
       end.

Definition reason_item (what : string) (kv : pkey * pyval) : res (string * string) :=
  key ← match kv.1 with KStr s => Ok s | KInt z => require_str (PInt z) (what +:+ " key") end;
  reason ← require_str kv.2 (what +:+ " reason for " +:+ py_repr key);
  Ok (key, reason).
Definition reason_map (v : pyval) (what : string) : res (list (string * string)) :=
  match v with
  | PNone => Ok []
  | PDict d => mapM (M := res) (reason_item what) d
  | _ => Raise (TypeError (what +:+ " must be a mapping of key to reason, got " +:+ type_name v))
  end.

Definition register_profile (r : Registry) (name supports unsupported not_applicable extends : pyval) : res (Registry * Profile) :=
  name ← require_str name "profile name";
  if (String.length name =? 0) then Raise (ValueError "profile name must be non-empty") else
  extends ← option_str extends ("profile " +:+ py_repr name +:+ " extends");
  supports ← match supports with PList l | PTuple l => Ok l |
  _ => Raise (TypeError ("profile " +:+ py_repr name +:+ " supports must be a list of keys, got " +:+ type_name supports)) end;
  supports ← mapM (M := res) (fun k => require_str k ("profile " +:+ py_repr name +:+ " supports key")) supports;
  unsupported ← reason_map unsupported ("profile " +:+ py_repr name +:+ " unsupported");
  not_applicable ← reason_map not_applicable ("profile " +:+ py_repr name +:+ " not_applicable");
  let profile := MkProfile name extends supports unsupported not_applicable in
  match dict_get (profile_entries r) name with
  | Some _ => Raise (ValueError "already registered")
  | None => Ok (MkRegistry (matrix_path r) (option_entries r) (dict_set (profile_entries r) name profile) (builtins_registered r), profile)
  end.

(** [d.update(e)]. *)
Definition dict_update {V} (d e : list (string * V)) : list (string * V) := fold_left (fun d kv => dict_set d kv.1 kv.2) e d.

(** Registrations one after the other. *)
Fixpoint run_all (calls : list (Registry -> res Registry)) (r : Registry) : res Registry :=
  match calls with [] => Ok r | f :: calls => r ← f r; run_all calls r end.
Definition call {A} (f : Registry -> res (Registry * A)) (r : Registry) : res Registry := '(r, _) ← f r; Ok r.

(** [_loaded] of the real registry; [builtins] are the [register] functions of the built-in modules. *)
Definition loaded (builtins : list (Registry -> res Registry)) (real : Registry) : res Registry :=
  if builtins_registered real then Ok real else
  staging ← run_all builtins (registry_new None);
  if existsb (fun k => bool_decide (is_Some (dict_get (option_entries real) k))) (dict_keys (option_entries staging)) then Raise (ValueError
    "option already registered")
  else if existsb (fun k => bool_decide (is_Some (dict_get (profile_entries real) k))) (dict_keys (profile_entries staging)) then Raise
  (ValueError "profile already registered")
  else Ok (MkRegistry (matrix_path real) (dict_update (option_entries real) (option_entries staging)) (dict_update (profile_entries real)
  (profile_entries staging)) true).

(** [options] and [profiles]: sorted by key. *)
Definition item_ltb {V} (a b : string * V) : bool := String.ltb a.1 b.1.
Definition options (r : Registry) : list OptionEntry := (py_sorted item_ltb (option_entries r)).*2.
Definition profiles (r : Registry) : list Profile := (py_sorted item_ltb (profile_entries r)).*2.

(** ** Chains and cells *)

(** The loop of [_chain].  Every turn adds a registered name that was not seen before, so one turn more than there are profiles is enough. *)
Fixpoint chain_loop (fuel : nat) (r : Registry) (chain : list Profile) (seen : list string) (current : Profile) : list Profile * option string :=
  match p_extends current with
  | None => (reverse chain, None)
  | Some base_name =>
      match fuel with
      | O => (reverse chain, None)
      | S fuel =>
          if bool_decide (base_name ∈ seen) then (reverse chain, Some ("extends cycle " +:+ join_str " -> " (seen ++ [base_name])))
          else match dict_get (profile_entries r) base_name with
               | None => (reverse chain, Some ("extends unknown profile " +:+ py_repr base_name))
               | Some base => chain_loop fuel r (chain ++ [base]) (seen ++ [base_name]) base
               end
      end
  end.
Definition chain_of (r : Registry) (p : Profile) : list Profile * option string := chain_loop (S (length (profile_entries r))) r [p] [p_name p] p.

Definition registered (r : Registry) (key : string) : bool := bool_decide (is_Some (dict_get (option_entries r) key)).

(** The registered keys that a wildcard matches. *)
Definition matched (r : Registry) (pattern : string) : list string := filter (fun k => fnmatchcase k pattern = true) (dict_keys (option_entries r)).

Definition set_cells (keys : list string) (c : Cell) (cells : list (string * Cell)) : list (string * Cell) := fold_left (fun d k => dict_set
    d k c) keys cells.

Definition own_cells (r : Registry) (p : Profile) : list (string * Cell) :=
  let cells := fold_left (fun d pr => if has_char "*" pr.1 then set_cells (matched r pr.1) (MkCell NOT_APPLICABLE (Some pr.2)) d else d)
    (p_not_applicable p) [] in
  let cells := fold_left (fun d kr => if negb (has_char "*" kr.1) && registered r kr.1 then dict_set d kr.1 (MkCell NOT_APPLICABLE (Some
    kr.2)) else d) (p_not_applicable p) cells in
  let cells := fold_left (fun d kr => if registered r kr.1 then dict_set d kr.1 (MkCell UNSUPPORTED (Some kr.2)) else d) (p_unsupported p) cells in
  fold_left (fun d k => if registered r k then dict_set d k (MkCell SUPPORTS None) else d) (p_supports p) cells.

Definition settle_chain (r : Registry) (chain : list Profile) : list (string * Cell) := fold_left (fun cells p => dict_update cells
    (own_cells r p)) chain [].

(** [settle], of a profile and of a name. *)
Definition settle (r : Registry) (p : Profile) : res (list (string * Cell)) :=
  match chain_of r p with (chain, None) => Ok (settle_chain r chain) | (_, Some problem) => Raise (ValueError problem) end.
Definition settle_name (r : Registry) (name : string) : res (list (string * Cell)) :=
  match dict_get (profile_entries r) name with Some p => settle r p | None => Raise (ValueError "unknown profile") end.

(** ** Coverage *)

Definition reason_problem (reason : string) : option string :=
  let stripped := strip (chars_of reason) in
  if (length stripped =? 0) then Some "reason is empty"
  else if TODO_MARKER stripped then Some "reason is TODO"
  else if bool_decide (newline ∈ stripped) then Some "reason must be one line"
  else None.

Abbreviation problem := (string * string)%type.
Abbreviation sources := (list (string * list string)).

(** [settled_by.setdefault(key, []).append(source)]. *)
Definition settled (by_ : sources) (key source : string) : sources := dict_set by_ key (default [] (dict_get by_ key) ++ [source]).

Definition supports_step (r : Registry) (acc : list problem * sources) (key : string) : list problem * sources :=
  if has_char "*" key then (acc.1 ++ [(key, "wildcard not allowed in supports; list keys by name")], acc.2)
  else if negb (registered r key) then (acc.1 ++ [(key, "unknown key in supports")], acc.2)
  else (acc.1, settled acc.2 key "supports").

(** One entry of [unsupported] ([wild] is false) or of [not_applicable]. *)
Definition entry_step (r : Registry) (list_name : string) (wild : bool) (acc : list problem * sources) (kr : string * string) : list problem
    * sources :=
  let '(key, reason) := kr in
  let problems := acc.1 ++ match reason_problem reason with Some w => [(key, list_name +:+ " " +:+ w)] | None => [] end in
  if has_char "*" key then
    if negb wild then (problems ++ [(key, "wildcard not allowed in " +:+ list_name +:+ "; list keys by name")], acc.2)
    else
      let ks := matched r key in
      (problems ++ (if (length ks =? 0) then [(key, "stale wildcard in not_applicable: it matches no registered key")] else []),
       fold_left (fun d k => settled d k ("not_applicable " +:+ py_repr key)) ks acc.2)
  else if negb (registered r key) then (problems ++ [(key, "unknown key in " +:+ list_name)], acc.2)
  else (problems, settled acc.2 key list_name).

Definition own_entries (r : Registry) (p : Profile) : list problem * sources :=
  let acc := fold_left (supports_step r) (p_supports p) ([], []) in
  let acc := fold_left (entry_step r "unsupported" false) (p_unsupported p) acc in
  fold_left (entry_step r "not_applicable" true) (p_not_applicable p) acc.

Definition settled_twice (ks : string * list string) : list problem :=
  if (1 <? length ks.2) then [(ks.1, "settled more than once in one profile: " +:+ join_str ", " ks.2)] else [].

Definition profile_problems (r : Registry) (p : Profile) : list problem :=
  let '(problems, by_) := own_entries r p in
  let '(chain, chain_problem) := chain_of r p in
  let cells := settle_chain r chain in
  problems ++ concat (settled_twice <$> by_) ++ match chain_problem with Some w => [("", w)] | None => [] end ++
  concat ((fun k => if bool_decide (is_Some (dict_get cells k)) then [] else [(k,
  "not settled: add it to supports, unsupported or not_applicable")]) <$> dict_keys (option_entries r)).

Abbreviation location := (string * string * string)%type.
Definition location_ltb (a b : location) : bool := lex_list String.ltb [a.1.1; a.1.2; a.2] [b.1.1; b.1.2; b.2].

Definition located (r : Registry) : list location :=
  concat ((fun np : string * Profile => (fun kp : problem => (np.1, kp.1,
  kp.2)) <$> profile_problems r np.2) <$> py_sorted item_ltb (profile_entries r)).
Definition problem_text (l : location) : string :=
  if (String.length l.1.2 =? 0) then "profile " +:+ py_repr l.1.1 +:+ ": " +:+ l.2
  else "profile " +:+ py_repr l.1.1 +:+ ", key " +:+ py_repr l.1.2 +:+ ": " +:+ l.2.

(** ** The matrix *)

Definition REGENERATE_HINT : string := "python -m arctic_platform.common.option_registry matrix --write".
Definition status_label (s : Status) : string := match s with SUPPORTS => "yes" | UNSUPPORTED => "no" | NOT_APPLICABLE => "n/a" end.
Definition code (s : string) : string := "`" +:+ s +:+ "`".

Definition matrix_header (names : list string) : list string :=
  ["# Model options matrix"; ""; "<!-- Generated by `" +:+ REGENERATE_HINT +:+ "`. Do not edit by hand. -->"; "";
   "One row per option, one column per model profile (one profile per loader). `yes` means the model";
   "supports the option in some context, through a loader option, a `Patches` field or a `ModelSpec` field";
   "that the loader accepts. `no` means the loader offers no way to set it, and `n/a` that the architecture";
   "rules the option out. Restrictions that depend on the platform, the parallelism or the value stay in";
   "each loader's own validation. The reasons follow the table."; "";
   "| Option | Runs in | Goal | " +:+ join_str " | " (code <$> names) +:+ " |";
   "|---|---|---|" +:+ foldr (fun _ t => "---|" +:+ t) "" names].

Definition cell_label (cells : list (string * Cell)) (key : string) : string := match dict_get cells key with Some c => status_label
    (c_status c) | None => "?" end.

Definition matrix_row (columns : list (list (string * Cell))) (e : OptionEntry) : string :=
  "| " +:+ join_str " | " ([code (o_key e); o_runs_in e; o_goal e] ++ ((fun cells => cell_label cells (o_key e)) <$> columns)) +:+ " |".

Definition option_line (e : OptionEntry) : string :=
  "- " +:+ code (o_key e) +:+ ": " +:+ o_why e +:+ " Today: " +:+ o_source e +:+ "." +:+ match o_remove_when e with Some w =>
    " Remove when: " +:+ w +:+ "." | None => "" end.

Definition unsupported_count (cells : list (string * Cell)) : nat := length (filter (fun kc : string * Cell => c_status kc.2 = UNSUPPORTED) cells).

Definition reason_lines (entries : list OptionEntry) (cells : list (string * Cell)) : list string :=
  concat ((fun e => match dict_get cells (o_key e) with
                    | Some (MkCell st (Some reason)) => ["- " +:+ code (o_key e) +:+ " (" +:+ status_label st +:+ "): " +:+ reason]
                    | _ => [] end) <$> entries).

Definition profile_section (entries : list OptionEntry) (p : Profile) (cells : list (string * Cell)) : list string :=
  let reasons := reason_lines entries cells in
  [""; "## " +:+ code (p_name p); ""] ++ match p_extends p with Some b => ["Extends " +:+ code b +:+ "."; ""] | None => [] end ++
  [int_text (Z.of_nat (unsupported_count cells)) +:+ " of " +:+ int_text (Z.of_nat (length entries)) +:+ " options unsupported."] ++
  (if (0 <? length reasons) then [""] else []) ++ reasons.

(** Names are the keys of the profile entries: [reg.profile_entries[profile.name]]. *)
Definition render_lines (r : Registry) : list string :=
  let entries := options r in
  let ps := profiles r in
  let columns := (fun p => settle_chain r (chain_of r p).1) <$> ps in
  matrix_header (p_name <$> ps) ++ (matrix_row columns <$> entries) ++ [""; "## Options"; ""] ++ (option_line <$> entries) ++
  concat (zip_with (profile_section entries) ps columns).
Definition nl : string := String newline "".
Definition render_matrix (r : Registry) : string := join_str nl (render_lines r) +:+ nl.

Section files.
Context (files : string -> option string) (display : string -> string).

Definition matrix_problem (r : Registry) (path : string) : option string :=
  match files path with
  | None => Some (display path +:+ ": missing; generate it with `" +:+ REGENERATE_HINT +:+ "`")
  | Some text => if String.eqb text (render_matrix r) then None else Some (display path +:+ ": stale; regenerate it with `" +:+
    REGENERATE_HINT +:+ "`")
  end.

Definition check_coverage (r : Registry) : list string :=
  (problem_text <$> py_sorted location_ltb (located r)) ++ match matrix_path r with Some path => option_list (matrix_problem r path) | None => [] end.

(** ** The command line: the printed lines (or the written file) and the exit status *)

Definition pad (width : nat) (s : string) : string := s +:+ string_of (replicate (width - String.length s) " "%char).

Definition cmd_list (r : Registry) : list string * Z :=
  let entries := options r in
  let width := foldr Nat.max 0 ((fun e => String.length (o_key e)) <$> entries) in
  ((fun e => pad width (o_key e) +:+ "  " +:+ pad 7 (o_runs_in e) +:+ "  " +:+ pad 10 (o_goal e) +:+ "  " +:+ o_why e) <$> entries, 0%Z).

Definition count_text (n : nat) : string := int_text (Z.of_nat n).

Definition cmd_check (r : Registry) : res (list string * Z) :=
  let problems := check_coverage r in
  let entries := options r in
  let names := p_name <$> profiles r in
  match problems with
  | _ :: _ => Ok (problems ++ ["check failed: " +:+ count_text (length problems) +:+ " problem(s) across " +:+ count_text (length entries)
    +:+ " options and " +:+ count_text (length names) +:+ " profiles"], 1%Z)
  | [] =>
      cells ← mapM (M := res) (settle_name r) names;
      Ok (["check passed: " +:+ count_text (length entries) +:+ " options x " +:+ count_text (length names) +:+ " profiles = " +:+
        count_text (length entries * length names) +:+ " cells, " +:+
           count_text (sum_list (unsupported_count <$> cells)) +:+ " unsupported"], 0%Z)
  end.

Definition cmd_matrix (r : Registry) (write : bool) : (string + string * string) * Z :=
  let text := render_matrix r in
  if negb write then (inl text, 0%Z)
  else match matrix_path r with None => (inl "matrix --write needs a matrix path", 1%Z) | Some path => (inr (path, text), 0%Z) end.
End files.

(** ** Patterns match as languages *)

Inductive fn_matches : list fn_token -> list ascii -> Prop :=
  | fm_nil : fn_matches [] []
  | fm_star ts pre cs : fn_matches ts cs -> fn_matches (FStar :: ts) (pre ++ cs)
  | fm_char t ts c cs : t <> FStar -> token_accepts t c = true -> fn_matches ts cs -> fn_matches (t :: ts) (c :: cs).

Lemma star_spec (f : list ascii -> bool) cs :
  (fix star (cs : list ascii) : bool := f cs || match cs with [] => false | _ :: cs => star cs end) cs = true <-> exists pre post,
    cs = pre ++ post /\ f post = true.
Proof.
  induction cs as [|c cs IH]; rewrite orb_true_iff; (split; [intros [H|H]|intros (pre & post & Heq & H)]).
  - by exists [], [].
  - done.
  - left. destruct pre, post; done.
  - by exists [], (c :: cs).
  - apply IH in H as (pre & post & -> & H). by exists (c :: pre), post.
  - destruct pre as [|x pre]; [left; by rewrite Heq|]. injection Heq as -> ->. right. apply IH. by exists pre, post.
Qed.

Lemma fn_run_spec ts cs : fn_run ts cs = true <-> fn_matches ts cs.
Proof.
  revert cs. induction ts as [|t ts IH]; intros cs; [simpl; rewrite bool_decide_eq_true; split; [intros ->; constructor|by inversion 1]|].
  assert (Hchar : t <> FStar -> (match cs with c :: cs => token_accepts t c && fn_run ts cs | [] => false end = true <-> fn_matches (t :: ts) cs)).
  { intros Ht. destruct cs as [|c cs]; [split; [done|inversion 1; subst; done]|]. rewrite andb_true_iff, IH.
    split; [intros [? ?]; by constructor|inversion 1; subst; done]. }
  destruct t as [| | |]; [|by apply Hchar..]. cbn [fn_run]. rewrite star_spec. split.
  - intros (pre & post & -> & H). constructor. by apply IH.
  - inversion 1 as [|? pre post H'|]; subst; [|done]. exists pre, post. by rewrite IH.
Qed.

(** ** Specification *)

(** The cells that the entries of a profile give to a key: wildcards first, then what is named. *)
Definition wild_claim (k : string) (pr : string * string) : option Cell := if has_char "*" pr.1 && fnmatchcase k pr.1 then Some (MkCell
    NOT_APPLICABLE (Some pr.2)) else None.
Definition named_claim (st : Status) (k : string) (kr : string * string) : option Cell := if decide (kr.1 = k) then Some (MkCell st (Some
    kr.2)) else None.
Definition supports_claim (k s : string) : option Cell := if decide (s = k) then Some (MkCell SUPPORTS None) else None.
Definition claims (p : Profile) (k : string) : list Cell :=
  omap (wild_claim k) (p_not_applicable p) ++ omap (named_claim NOT_APPLICABLE k) (p_not_applicable p) ++ omap (named_claim UNSUPPORTED k)
  (p_unsupported p) ++ omap (supports_claim k) (p_supports p).

(** A profile and those it extends, up to one that extends nothing. *)
Definition base_of (r : Registry) (p : Profile) : option Profile := b ← p_extends p; dict_get (profile_entries r) b.
Inductive lineage (r : Registry) : Profile -> list Profile -> Prop :=
  | lin_root p : p_extends p = None -> lineage r p [p]
  | lin_up p q l : base_of r p = Some q -> lineage r q l -> lineage r p (p :: l).

(** The nearest profile of the lineage with an entry for the key decides. *)
Inductive settles (r : Registry) : Profile -> string -> Cell -> Prop :=
  | set_own p k c : last (claims p k) = Some c -> settles r p k c
  | set_base p q k c : claims p k = [] -> base_of r p = Some q -> settles r q k c -> settles r p k c.

Definition is_key (r : Registry) (k : string) : Prop := k ∈ dict_keys (option_entries r).
#[export] Instance is_key_dec r k : Decision (is_key r k).
Proof. unfold is_key. apply _. Defined.

(** Entries name registered keys, wildcards stand only in [not_applicable] and match, reasons are given. *)
Definition entries_ok (r : Registry) (p : Profile) : Prop :=
  Forall (is_key r) (p_supports p) /\
  Forall (fun kr => is_key r kr.1 /\ reason_problem kr.2 = None) (p_unsupported p) /\
  Forall (fun kr => (if has_char "*" kr.1 then exists k, is_key r k /\ fnmatchcase k kr.1 = true else is_key r kr.1) /\
    reason_problem kr.2 = None) (p_not_applicable p).

Definition profile_ok (r : Registry) (p : Profile) : Prop :=
  entries_ok r p /\ (forall k, is_key r k -> length (claims p k) <= 1) /\ (exists l, lineage r p l) /\ forall k, is_key r k ->
  exists c, settles r p k c.

(** What the registering functions keep. *)
Record reg_ok (r : Registry) : Prop := {
  ro_options : NoDup (dict_keys (option_entries r));
  ro_profiles : NoDup (dict_keys (profile_entries r));
  ro_keys k e : dict_get (option_entries r) k = Some e -> KEY_RE k = true /\ o_key e = k;
  ro_names n p : dict_get (profile_entries r) n = Some p -> p_name p = n;
}.

(** ** Registration keeps the registry in order *)

Lemma split_on_in sep cs c : c ∈ cs -> c <> sep -> exists seg, seg ∈ split_on sep cs /\ c ∈ seg.
Proof.
  induction cs as [|x cs IH]; [by intros ?%not_elem_of_nil|]. intros Hin Hne. simpl. apply elem_of_cons in Hin as [->|Hin].
  - rewrite decide_False by done. destruct (split_on sep cs) as [|seg segs]; eexists; (split; [apply elem_of_cons;
    by left|apply elem_of_cons; by left]).
  - destruct (IH Hin Hne) as (seg & Hseg & Hc). destruct (decide (x = sep)); [exists seg; split; [by apply elem_of_cons; right|done]|].
    destruct (split_on sep cs) as [|seg0 segs]; [by apply not_elem_of_nil in Hseg|].
    apply elem_of_cons in Hseg as [->|Hseg]; [exists (x :: seg0); split; [apply elem_of_cons; by left|by apply elem_of_cons;
    right]|exists seg; split; [by apply elem_of_cons; right|done]].
Qed.

Lemma key_has_no_wildcard k : KEY_RE k = true -> has_char "*" k = false.
Proof.
  unfold KEY_RE, has_char. intros Hk. apply bool_decide_eq_false. intros Hin. destruct (split_on_in "." _ _ Hin ltac:(done)) as (seg & Hseg & Hc).
  rewrite forallb_forall in Hk. specialize (Hk seg (proj1 (list_elem_of_In _ _) Hseg)). destruct seg as [|c seg]; [done|]. simpl in Hk.
  apply andb_true_iff in Hk as [Hl Hall]. apply elem_of_cons in Hc as [<-|Hc]; [done|].
  rewrite forallb_forall in Hall. by specialize (Hall _ (proj1 (list_elem_of_In _ _) Hc)).
Qed.

Lemma registry_new_ok path : reg_ok (registry_new path).
Proof. split; try done; constructor. Qed.

Lemma dict_get_set {V} (d : list (string * V)) k v k' : dict_get (dict_set d k v) k' = if decide (k = k') then Some v else dict_get d k'.
Proof. destruct (decide (k = k')) as [->|Hne]; [apply dict_get_set_eq|by apply dict_get_set_ne]. Qed.

Lemma register_option_ok r key runs_in goal why source remove_when r' e : reg_ok r ->
    register_option r key runs_in goal why source remove_when = Ok (r', e) -> reg_ok r'.
Proof.
  intros Hr. unfold register_option. intros (k & _ & (ri & _ & (g & _ & (w & _ & (s & _ & (rw & _ &
  H)%bind_Ok_inv)%bind_Ok_inv)%bind_Ok_inv)%bind_Ok_inv)%bind_Ok_inv)%bind_Ok_inv.
  destruct (has_char "*" k); [done|]. destruct (KEY_RE k) eqn:Ek; [|done]. cbn [negb] in H.
  destruct (negb (bool_decide (ri ∈ RUNS_IN))); [done|]. destruct (negb (bool_decide (g ∈ GOALS))); [done|]. destruct (_ =? 0); [done|].
  destruct (dict_get (option_entries r) k) eqn:Eg; [done|]. injection H as <- _.
  split; simpl; [by apply dict_set_nodup, ro_options|by apply ro_profiles| |by apply ro_names].
  intros k' e'. rewrite dict_get_set. destruct (decide (k = k')) as [->|]; [by intros [= <-]|by apply ro_keys].
Qed.

Lemma register_profile_ok r name supports unsupported not_applicable extends r' p : reg_ok r ->
    register_profile r name supports unsupported not_applicable extends = Ok (r', p) -> reg_ok r'.
Proof.
  intros Hr. unfold register_profile. intros (n & _ & H)%bind_Ok_inv. destruct (_ =? 0); [done|].
  apply bind_Ok_inv in H as (x & _ & (s & _ & (s' & _ & (u & _ & (na & _ & H)%bind_Ok_inv)%bind_Ok_inv)%bind_Ok_inv)%bind_Ok_inv).
  destruct (dict_get (profile_entries r) n) eqn:Eg; [done|]. injection H as <- _.
  split; simpl; [by apply ro_options|by apply dict_set_nodup, ro_profiles|by apply ro_keys|].
  intros n' p'. rewrite dict_get_set. destruct (decide (n = n')) as [->|]; [by intros [= <-]|by apply ro_names].
Qed.

(** ** Cells *)

Lemma is_key_registered r k : registered r k = true <-> is_key r k.
Proof. unfold registered, is_key. by rewrite bool_decide_eq_true, dict_get_keys. Qed.

Lemma fold_assign_get {X V} (f : X -> option V) (g : list (string * V) -> X -> list (string * V)) k l : forall d,
  (forall d x, x ∈ l -> dict_get (g d x) k = match f x with Some c => Some c | None => dict_get d k end) ->
  dict_get (fold_left g l d) k = match last (omap f l) with Some c => Some c | None => dict_get d k end.
Proof.
  induction l as [|x l IH] using rev_ind; intros d Hg; [done|]. rewrite fold_left_app, omap_app. simpl. rewrite Hg by set_solver.
  destruct (f x) as [c|]; [by rewrite last_snoc|]. rewrite app_nil_r. apply IH. intros; apply Hg; set_solver.
Qed.

Lemma fold_keep_get {X V} (g : list (string * V) -> X -> list (string * V)) k l : forall d, (forall d x,
    dict_get (g d x) k = dict_get d k) -> dict_get (fold_left g l d) k = dict_get d k.
Proof. induction l as [|x l IH]; intros d Hg; [done|]. simpl. by rewrite IH. Qed.

Lemma set_cells_get ks c d k : dict_get (set_cells ks c d) k = if decide (k ∈ ks) then Some c else dict_get d k.
Proof.
  unfold set_cells. induction ks as [|x ks IH] using rev_ind; [done|]. rewrite fold_left_app. simpl. rewrite dict_get_set, IH.
  destruct (decide (x = k)) as [->|Hne]; [rewrite decide_True by set_solver; done|].
  destruct (decide (k ∈ ks)); [by rewrite decide_True by set_solver|by rewrite decide_False by set_solver].
Qed.

Lemma matched_in r pattern k : k ∈ matched r pattern <-> is_key r k /\ fnmatchcase k pattern = true.
Proof. unfold matched, is_key. rewrite list_elem_of_filter. tauto. Qed.

Lemma own_cells_get r p k : reg_ok r -> dict_get (own_cells r p) k = if decide (is_key r k) then last (claims p k) else None.
Proof.
  intros Hr. assert (Hstar : is_key r k -> has_char "*" k = false).
  { intros [e He]%dict_get_keys. by apply key_has_no_wildcard, (ro_keys _ Hr k e). }
  unfold own_cells. destruct (decide (is_key r k)) as [Hk|Hk].
  - rewrite (fold_assign_get (supports_claim k)); [rewrite (fold_assign_get (named_claim UNSUPPORTED k));
    [rewrite (fold_assign_get (named_claim NOT_APPLICABLE k)); [rewrite (fold_assign_get (wild_claim k))|]|]|].
    + unfold claims. rewrite !app_assoc. rewrite !last_app. repeat (destruct (last (omap _ _)); [done|]). done.
    + intros d [pat reason] _. unfold wild_claim. simpl. destruct (has_char "*" pat); [|done]. simpl. rewrite set_cells_get.
      destruct (fnmatchcase k pat) eqn:Ef; [rewrite decide_True by (by apply matched_in); done|].
      rewrite decide_False; [done|]. rewrite matched_in, Ef. by intros [].
    + intros d [k' reason] _. unfold named_claim. simpl. destruct (decide (k' = k)) as [->|Hne]; [rewrite Hstar by done;
      rewrite (proj2 (is_key_registered r k) Hk); simpl; apply dict_get_set_eq|]. destruct (_ && _); [by apply dict_get_set_ne|done].
    + intros d [k' reason] _. unfold named_claim. simpl. destruct (decide (k' = k)) as [->|Hne];
      [rewrite (proj2 (is_key_registered r k) Hk); apply dict_get_set_eq|]. destruct (registered r k'); [by apply dict_get_set_ne|done].
    + intros d k' _. unfold supports_claim. destruct (decide (k' = k)) as [->|Hne]; [rewrite (proj2 (is_key_registered r k) Hk);
      apply dict_get_set_eq|]. destruct (registered r k'); [by apply dict_get_set_ne|done].
  - assert (Hreg : registered r k = false) by (apply not_true_iff_false; by rewrite is_key_registered).
    rewrite !fold_keep_get; [done|..].
    + intros d [pat reason]. simpl. destruct (has_char "*" pat); [|done]. rewrite set_cells_get, decide_False; [done|]. rewrite matched_in. tauto.
    + intros d [k' reason]. simpl. destruct (registered r k') eqn:Er; [|by rewrite andb_false_r]. destruct (_ && _); [|done].
      apply dict_get_set_ne. congruence.
    + intros d [k' reason]. simpl. destruct (registered r k') eqn:Er; [|done]. apply dict_get_set_ne. congruence.
    + intros d k'. destruct (registered r k') eqn:Er; [|done]. apply dict_get_set_ne. congruence.
Qed.

(** ** Chains *)

Definition up (r : Registry) (p q : Profile) : Prop := base_of r p = Some q.

Lemma lineage_acyclic r p l : lineage r p l -> ~ tc (up r) p p.
Proof.
  induction 1 as [p He|p q l Hb _ IH]; intros Htc.
  - assert (Hn : forall q, ~ up r p q) by (intros q; unfold up, base_of; rewrite He; done).
    inversion Htc as [? ? H|? y ? H]; subst; by apply (Hn _ H).
  - apply IH. assert (Hq : forall x, up r p x -> x = q) by (intros x Hx; unfold up in Hx; congruence). inversion Htc as [? ? H|? y ? H Hy]; subst.
    + apply Hq in H as ->. by apply tc_once.
    + apply Hq in H as ->. eapply tc_rtc_l; [by apply tc_rtc|by apply tc_once].
Qed.

Definition known (r : Registry) (p : Profile) : Prop := dict_get (profile_entries r) (p_name p) = Some p.

Lemma base_known r p q : reg_ok r -> base_of r p = Some q -> known r q /\ p_extends p = Some (p_name q).
Proof.
  intros Hr. unfold base_of, known. destruct (p_extends p) as [b|]; [|done]. simpl. intros Hb. by rewrite (ro_names _ Hr _ _ Hb).
Qed.

Lemma known_bound r l : reg_ok r -> Forall (known r) l -> NoDup (p_name <$> l) -> length l <= length (profile_entries r).
Proof.
  intros Hr Hl Hnd. rewrite <- (length_fmap p_name l), <- (length_fmap fst (profile_entries r)). apply submseteq_length, NoDup_submseteq; [done|].
  intros n (p & -> & Hp)%list_elem_of_fmap. rewrite Forall_forall in Hl. specialize (Hl p Hp). apply dict_get_keys. by eexists.
Qed.

(** The loop follows the lineage to its root, or there is none. *)
Lemma chain_loop_spec r fuel : reg_ok r -> forall pre cur,
  Forall (known r) (pre ++ [cur]) -> NoDup (p_name <$> (pre ++ [cur])) -> Forall (fun x => rtc (up r) x cur) (pre ++ [cur]) ->
    length (profile_entries r) < fuel + length (pre ++ [cur]) ->
  match chain_loop fuel r (pre ++ [cur]) (p_name <$> (pre ++ [cur])) cur with
  | (chain, None) => exists l, lineage r cur l /\ chain = reverse (pre ++ l)
  | (_, Some _) => ~ exists l, lineage r cur l
  end.
Proof.
  intros Hr. induction fuel as [|fuel IH]; intros pre cur Hk Hnd Hreach Hfuel.
  - pose proof (known_bound r _ Hr Hk Hnd). lia.
  - cbn [chain_loop]. destruct (p_extends cur) as [b|] eqn:Ee; [|exists [cur]; split; [by apply lin_root|done]]. case_bool_decide as Hseen.
    + intros [l Hl]. apply (lineage_acyclic r cur l Hl). apply list_elem_of_fmap in Hseen as (x & -> & Hx).
      rewrite Forall_forall in Hk, Hreach. specialize (Hk x Hx). specialize (Hreach x Hx).
      eapply tc_rtc_r; [apply tc_once|exact Hreach]. unfold up, base_of. rewrite Ee. exact Hk.
    + destruct (dict_get (profile_entries r) b) as [base|] eqn:Eb.
      * assert (Hup : base_of r cur = Some base) by (unfold base_of; by rewrite Ee). destruct (base_known r cur base Hr Hup) as [Hkb He].
        assert (b = p_name base) as -> by congruence.
        assert (Hsnoc : (p_name <$> (pre ++ [cur])) ++ [p_name base]
        = p_name <$> ((pre ++ [cur]) ++ [base])) by (by rewrite (fmap_app _ (pre ++ [cur]))). rewrite Hsnoc.
        assert (Hres : match chain_loop fuel r ((pre ++ [cur]) ++ [base]) (p_name <$> ((pre ++ [cur]) ++ [base])) base with (chain,
        None) => exists l, lineage r base l /\ chain = reverse ((pre ++ [cur]) ++ l) | (_, Some _) => ~ exists l, lineage r base l end).
        { apply IH; [by apply Forall_app; split; [|repeat constructor]|rewrite <- Hsnoc; apply NoDup_app; split_and!;
          [done|set_solver|apply NoDup_singleton]| |rewrite length_app; simpl; lia].
          apply Forall_app; split; [eapply Forall_impl; [exact Hreach|]; intros x Hx; eapply rtc_r; [exact Hx|exact Hup]|repeat constructor]. }
        destruct (chain_loop fuel r _ _ base) as [chain [w|]].
        -- intros [l Hl]. apply Hres. inversion Hl as [? Hn|? q l' Hb Hq]; subst; [congruence|]. assert (q = base) as -> by congruence. by exists l'.
        -- destruct Hres as (l & Hl & ->). exists (cur :: l). split; [by apply (lin_up _ _ base)|by rewrite <- app_assoc].
      * intros [l Hl]. inversion Hl as [? Hn|? q l' Hb Hq]; subst; [congruence|]. unfold base_of in Hb. rewrite Ee in Hb. simpl in Hb. congruence.
Qed.

Lemma chain_of_spec r p : reg_ok r -> known r p ->
  match chain_of r p with (chain, None) => exists l, lineage r p l /\ chain = reverse l | (_, Some _) => ~ exists l, lineage r p l end.
Proof.
  intros Hr Hp. unfold chain_of. apply (chain_loop_spec r _ Hr [] p); simpl; [by constructor|apply NoDup_singleton|by repeat constructor|lia].
Qed.

(** ** Settling *)

Lemma dict_update_get {V} (d e : list (string * V)) k : NoDup (dict_keys e) ->
    dict_get (dict_update d e) k = match dict_get e k with Some v => Some v | None => dict_get d k end.
Proof.
  unfold dict_update. revert d. induction e as [|[k' v] e IH]; intros d Hnd; [done|]. unfold dict_keys in *. csimpl. simpl in *.
  apply NoDup_cons in Hnd as [Hk Hnd]. rewrite IH by done. destruct (decide (k = k')) as [->|Hne].
  - rewrite (proj2 (dict_get_None e k')) by done. by rewrite dict_get_set_eq.
  - destruct (dict_get e k); [done|]. by apply dict_get_set_ne.
Qed.

Lemma fold_nodup {X V} (g : list (string * V) -> X -> list (string * V)) l : forall d, (forall d x, NoDup (dict_keys d) ->
    NoDup (dict_keys (g d x))) -> NoDup (dict_keys d) -> NoDup (dict_keys (fold_left g l d)).
Proof. induction l as [|x l IH]; intros d Hg Hd; [done|]. simpl. apply IH; auto. Qed.

Lemma own_cells_nodup r p : NoDup (dict_keys (own_cells r p)).
Proof.
  unfold own_cells. repeat apply fold_nodup; [| | | |constructor]; intros d x Hd.
  - destruct (registered r x); [by apply dict_set_nodup|done].
  - destruct (registered r x.1); [by apply dict_set_nodup|done].
  - destruct (_ && _); [by apply dict_set_nodup|done].
  - destruct (has_char _ _); [|done]. unfold set_cells. apply fold_nodup; [|done]. intros ? ? ?. by apply dict_set_nodup.
Qed.

Lemma settle_chain_nodup r l : NoDup (dict_keys (settle_chain r l)).
Proof. unfold settle_chain. apply fold_nodup; [|constructor]. intros d p Hd. unfold dict_update. apply fold_nodup; [|done]. intros ? ? ?.
  by apply dict_set_nodup. Qed.

Lemma settle_chain_get r l k : reg_ok r -> dict_get (settle_chain r (reverse l)) k = if decide (is_key r k) then foldr (fun p o => match
    last (claims p k) with Some c => Some c | None => o end) None l else None.
Proof.
  intros Hr. unfold settle_chain. induction l as [|p l IH]; [by destruct (decide _)|]. rewrite reverse_cons, fold_left_app. simpl.
  rewrite dict_update_get, own_cells_get, IH by (done || apply own_cells_nodup). by destruct (decide (is_key r k)).
Qed.

Lemma settles_lineage r p l k c : lineage r p l -> foldr (fun p o => match last (claims p k) with Some c => Some c |
    None => o end) None l = Some c <-> settles r p k c.
Proof.
  induction 1 as [p He|p q l Hb _ IH]; simpl.
  - split; [destruct (last (claims p k)) as [c'|] eqn:El; [intros [= ->]; by apply set_own|done]|].
    inversion 1 as [? ? ? Hl|? q ? ? _ Hb]; subst; [by rewrite Hl|]. unfold base_of in Hb. by rewrite He in Hb.
  - destruct (last (claims p k)) as [c'|] eqn:El.
    + split; [intros [= ->]; by apply set_own|]. inversion 1 as [? ? ? Hl|? ? ? ? Hn]; subst; [congruence|]. by rewrite Hn in El.
    + apply last_None in El. rewrite IH. split; [by apply set_base|].
      inversion 1 as [? ? ? Hl|? q' ? ? _ Hb' Hs]; subst; [by rewrite El in Hl|]. by assert (q' = q) as -> by congruence.
Qed.

Lemma settle_lineage r p l : reg_ok r -> lineage r p l -> forall k c, dict_get (settle_chain r (reverse l)) k = Some c <-> is_key r k /\
    settles r p k c.
Proof. intros Hr Hl k c. rewrite settle_chain_get by done. destruct (decide (is_key r k)); [rewrite (settles_lineage r p l k c Hl);
  tauto|naive_solver]. Qed.

(** ** Problems of the entries *)

Definition supports_problem (r : Registry) (key : string) : list problem :=
  if has_char "*" key then [(key, "wildcard not allowed in supports; list keys by name")] else if negb (registered r key) then [(key,
    "unknown key in supports")] else [].
Definition entry_problem (r : Registry) (list_name : string) (wild : bool) (kr : string * string) : list problem :=
  match reason_problem kr.2 with Some w => [(kr.1, list_name +:+ " " +:+ w)] | None => [] end ++
  if has_char "*" kr.1 then
    if negb wild then [(kr.1, "wildcard not allowed in " +:+ list_name +:+ "; list keys by name")]
    else if (length (matched r kr.1) =? 0) then [(kr.1, "stale wildcard in not_applicable: it matches no registered key")] else []
  else if negb (registered r kr.1) then [(kr.1, "unknown key in " +:+ list_name)] else [].

Lemma fold_problems {X} (f : list problem * sources -> X -> list problem * sources) (ps : X -> list problem) l : forall acc,
  (forall acc x, (f acc x).1 = acc.1 ++ ps x) -> (fold_left f l acc).1 = acc.1 ++ concat (ps <$> l).
Proof. induction l as [|x l IH]; intros acc Hf; [by rewrite app_nil_r|]. simpl. by rewrite IH, Hf, <- app_assoc. Qed.

Lemma own_entries_problems r p :
  (own_entries r p).1 = concat (supports_problem r <$> p_supports p) ++ concat (entry_problem r "unsupported" false <$> p_unsupported p) ++
    concat (entry_problem r "not_applicable" true <$> p_not_applicable p).
Proof.
  assert (Hentry : forall name wild acc kr, (entry_step r name wild acc kr).1 = acc.1 ++ entry_problem r name wild kr).
  { intros name wild acc [key reason]. unfold entry_step, entry_problem. simpl.
    destruct (has_char "*" key); [destruct wild|destruct (registered r key)]; simpl; rewrite <- ?app_assoc, ?app_nil_r; done. }
  unfold own_entries. rewrite (fold_problems _ (entry_problem r "not_applicable" true)) by (intros; apply Hentry).
  rewrite (fold_problems _ (entry_problem r "unsupported" false)) by (intros; apply Hentry).
  rewrite (fold_problems _ (supports_problem r)); [simpl; by rewrite <- app_assoc|]. intros acc key. unfold supports_step, supports_problem.
  destruct (has_char "*" key); [done|]. destruct (registered r key); [by rewrite app_nil_r|done].
Qed.

(** *** How often a key is settled *)

Definition count (d : sources) (k : string) : nat := length (default [] (dict_get d k)).

Lemma settled_count d key s k : count (settled d key s) k = count d k + (if decide (key = k) then 1 else 0).
Proof.
  unfold count, settled. rewrite dict_get_set. destruct (decide (key = k)) as [->|]; simpl; [rewrite length_app; simpl|]; lia.
Qed.

Lemma fold_count {X A} (pr : A -> sources) (w : X -> nat) (g : A -> X -> A) k l : forall a,
  (forall a x, count (pr (g a x)) k = count (pr a) k + w x) -> count (pr (fold_left g l a)) k = count (pr a) k + sum_list_with w l.
Proof. induction l as [|x l IH]; intros a Hg; simpl; [lia|]. rewrite IH, Hg by done. lia. Qed.

Definition tally {X V} (f : X -> option V) (x : X) : nat := match f x with Some _ => 1 | None => 0 end.
Lemma length_omap {X V} (f : X -> option V) l : length (omap f l) = sum_list_with (tally f) l.
Proof. induction l as [|x l IH]; [done|]. cbn [omap list_omap sum_list_with]. unfold tally at 1. destruct (f x); simpl; by rewrite <- IH. Qed.

Lemma count_matched (ks : list string) s d k : NoDup ks -> count (fold_left (fun d k => settled d k s) ks d) k = count d k + (if decide (k ∈
    ks) then 1 else 0).
Proof.
  intros Hnd. etransitivity; [apply (fold_count (fun d => d) (fun x => if decide (x = k) then 1 else 0)); intros; apply settled_count|].
  f_equal. induction Hnd as [|x ks Hx _ IH]; [done|]. simpl. rewrite IH.
  destruct (decide (x = k)) as [->|Hne]; [rewrite decide_False by done; by rewrite decide_True by set_solver|].
  destruct (decide (k ∈ ks)); [by rewrite decide_True by set_solver|by rewrite decide_False by set_solver].
Qed.

Lemma entry_step_count r name wild k kr : reg_ok r -> forall acc,
  count (entry_step r name wild acc kr).2 k =
  count acc.2 k + (if decide (is_key r k) then (if wild then tally (wild_claim k) kr else 0) + tally (named_claim NOT_APPLICABLE k) kr else 0).
Proof.
  intros Hr acc. destruct kr as [key reason]. unfold entry_step, tally, wild_claim, named_claim. simpl.
  assert (Hstar : is_key r k -> has_char "*" k = false) by (intros [e He]%dict_get_keys; by apply key_has_no_wildcard, (ro_keys _ Hr k e)).
  destruct (has_char "*" key) eqn:Es; simpl.
  - assert (Hne : is_key r k -> key <> k) by (intros Hk ->; rewrite Hstar in Es; done). destruct wild; simpl.
    + rewrite count_matched by (apply NoDup_filter, ro_options, Hr). f_equal.
      destruct (decide (is_key r k)) as [Hk|Hk]; [rewrite (decide_False (P := key = k)) by auto; destruct (fnmatchcase k key) eqn:Ef|].
      * by rewrite decide_True by (by apply matched_in).
      * rewrite decide_False; [done|]. rewrite matched_in, Ef. by intros [].
      * rewrite decide_False; [done|]. rewrite matched_in. tauto.
    + destruct (decide (is_key r k)); [rewrite decide_False by auto|]; lia.
  - destruct (registered r key) eqn:Er; simpl.
    + rewrite settled_count. apply is_key_registered in Er. destruct (decide (key = k)) as [->|];
      [rewrite decide_True by done|destruct (decide (is_key r k))]; destruct wild; lia.
    + assert (Hne : is_key r k -> key <> k) by (intros Hk%is_key_registered ->; congruence).
      destruct (decide (is_key r k)); [rewrite decide_False by auto|]; destruct wild; lia.
Qed.

Lemma named_tally st st' k kr : tally (named_claim st k) kr = tally (named_claim st' k) kr.
Proof. unfold tally, named_claim. by destruct (decide _). Qed.

Lemma sum_list_add {X} (f g : X -> nat) l : sum_list_with (fun x => f x + g x) l = sum_list_with f l + sum_list_with g l.
Proof. induction l as [|x l IH]; simpl; [done|]. rewrite IH. lia. Qed.

Lemma sum_list_ext {X} (f g : X -> nat) l : (forall x, f x = g x) -> sum_list_with f l = sum_list_with g l.
Proof. intros H. induction l as [|x l IH]; simpl; [done|]. by rewrite IH, H. Qed.

Lemma sum_list_zero {X} (l : list X) : sum_list_with (fun _ => 0) l = 0.
Proof. by induction l. Qed.

Lemma own_entries_count r p k : reg_ok r -> count (own_entries r p).2 k = if decide (is_key r k) then length (claims p k) else 0.
Proof.
  intros Hr. unfold own_entries. rewrite (fold_count snd _ (entry_step r "not_applicable" true)) by (intros; by apply entry_step_count).
  rewrite (fold_count snd _ (entry_step r "unsupported" false)) by (intros; by apply entry_step_count).
  rewrite (fold_count snd (fun s => if decide (is_key r k) then tally (supports_claim k) s else 0)).
  - simpl. destruct (decide (is_key r k)).
    + unfold claims. rewrite !length_app, !length_omap, !sum_list_add.
      rewrite (sum_list_ext (fun kr => tally (named_claim NOT_APPLICABLE k) kr) (tally (named_claim UNSUPPORTED k)) (p_unsupported p)) by
      (intros; apply named_tally). unfold count. simpl. change (fun s : string => tally (supports_claim k) s) with (tally (supports_claim
      k)). lia.
    + by rewrite !sum_list_zero.
  - intros acc s. unfold supports_step, tally, supports_claim. destruct (has_char "*" s) eqn:Es; [|destruct (registered r s) eqn:Er]; simpl.
    + destruct (decide (is_key r k)) as [Hk|]; [|lia]. rewrite decide_False; [lia|]. intros ->. apply dict_get_keys in Hk as [e He].
      apply (ro_keys _ Hr), proj1, key_has_no_wildcard in He. congruence.
    + rewrite settled_count. apply is_key_registered in Er. destruct (decide (s = k)) as [->|];
      [by rewrite decide_True|by destruct (decide (is_key r k))].
    + destruct (decide (is_key r k)) as [Hk|]; [|lia]. rewrite decide_False; [lia|]. intros ->. apply is_key_registered in Hk. congruence.
Qed.

Lemma settled_nodup d key s : NoDup (dict_keys d) -> NoDup (dict_keys (settled d key s)).
Proof. apply dict_set_nodup. Qed.

Lemma fold_sources_nodup {X} (g : list problem * sources -> X -> list problem * sources) l : forall acc,
  (forall acc x, NoDup (dict_keys acc.2) -> NoDup (dict_keys (g acc x).2)) -> NoDup (dict_keys acc.2) -> NoDup (dict_keys (fold_left g l acc).2).
Proof. induction l as [|x l IH]; intros acc Hg Ha; [done|]. simpl. apply IH; auto. Qed.

Lemma own_entries_nodup r p : NoDup (dict_keys (own_entries r p).2).
Proof.
  assert (Hentry : forall name wild acc kr, NoDup (dict_keys acc.2) -> NoDup (dict_keys (entry_step r name wild acc kr).2)).
  { intros name wild acc [key reason] Ha. unfold entry_step.
    destruct (has_char "*" key); [destruct wild|destruct (registered r key)]; simpl; try done; [|by apply settled_nodup].
    apply fold_nodup; [|done]. intros; by apply settled_nodup. }
  unfold own_entries. repeat apply fold_sources_nodup; try apply Hentry; [|constructor]. intros acc s Ha. unfold supports_step.
  destruct (has_char "*" s); [done|]. destruct (registered r s); [by apply settled_nodup|done].
Qed.

(** ** Coverage *)

Lemma concat_nil {X Y} (f : X -> list Y) l : concat (f <$> l) = [] <-> Forall (fun x => f x = []) l.
Proof.
  induction l as [|x l IH]; [by split|]. rewrite fmap_cons. simpl. rewrite Forall_cons, <- IH. split; [intros [? ?]%app_eq_nil|intros [-> ->]]; done.
Qed.

Lemma supports_problem_nil r key : reg_ok r -> supports_problem r key = [] <-> is_key r key.
Proof.
  intros Hr. unfold supports_problem. rewrite <- is_key_registered. destruct (has_char "*" key) eqn:Es; [|by destruct (registered r key)].
  split; [done|]. intros [e He]%is_key_registered%dict_get_keys. apply (ro_keys _ Hr), proj1, key_has_no_wildcard in He. congruence.
Qed.

Lemma entry_problem_nil r name wild kr : reg_ok r ->
  entry_problem r name wild kr = [] <-> reason_problem kr.2 = None /\ (if wild && has_char "*" kr.1 then exists k, is_key r k /\
  fnmatchcase k kr.1 = true else is_key r kr.1).
Proof.
  intros Hr. unfold entry_problem. assert (Hsplit : forall (a b : list problem) P Q, (a = [] <-> P) -> (b = [] <-> Q) ->
  (a ++ b = [] <-> P /\ Q)) by (intros a b P Q <- <-; split; [by intros [? ?]%app_eq_nil|by intros [-> ->]]).
  apply Hsplit; [by destruct (reason_problem kr.2)|]. destruct (has_char "*" kr.1) eqn:Es; [destruct wild|].
  - simpl. destruct (matched r kr.1) as [|k ks] eqn:Em; simpl; (split; [|try done]).
    + done.
    + intros (k & Hk). apply matched_in in Hk. rewrite Em in Hk. by apply not_elem_of_nil in Hk.
    + intros _. exists k. apply matched_in. rewrite Em. set_solver.
  - split; [done|]. simpl. intros [e He]%dict_get_keys. apply (ro_keys _ Hr), proj1, key_has_no_wildcard in He. congruence.
  - rewrite andb_false_r. rewrite <- is_key_registered. by destruct (registered r kr.1).
Qed.

Lemma own_problems_nil r p : reg_ok r -> (own_entries r p).1 = [] <-> entries_ok r p.
Proof.
  intros Hr. rewrite own_entries_problems. unfold entries_ok. split.
  - intros [H1%concat_nil [H2%concat_nil H3%concat_nil]%app_eq_nil]%app_eq_nil. split_and!; (eapply Forall_impl; [eassumption|]); simpl.
    + intros s Hs. by apply supports_problem_nil.
    + intros kr [? ?]%entry_problem_nil; done.
    + intros kr [? ?]%entry_problem_nil; done.
  - intros (H1 & H2 & H3). rewrite (proj2 (concat_nil (supports_problem r) _)),
    (proj2 (concat_nil (entry_problem r "unsupported" false) _)), (proj2 (concat_nil (entry_problem r "not_applicable" true) _)); [done|..];
    (eapply Forall_impl; [eassumption|]); simpl.
    + intros kr [? ?]. by apply entry_problem_nil.
    + intros kr [? ?]. by apply entry_problem_nil.
    + intros s Hs. by apply supports_problem_nil.
Qed.

Lemma settled_once r p : reg_ok r -> concat (settled_twice <$> (own_entries r p).2) = [] <-> forall k, is_key r k -> length (claims p k) <= 1.
Proof.
  intros Hr. rewrite concat_nil, Forall_forall. pose proof (own_entries_nodup r p) as Hnd. split.
  - intros H k Hk. pose proof (own_entries_count r p k Hr) as Hc. rewrite decide_True in Hc by done. rewrite <- Hc. unfold count.
    destruct (dict_get _ k) as [srcs|] eqn:Eg; simpl; [|lia].
    specialize (H _ (dict_get_elem _ _ _ Eg)). unfold settled_twice in H. simpl in H. destruct (1 <? length srcs) eqn:El; [done|].
    apply Nat.ltb_ge in El. done.
  - intros H [k srcs] Hin. unfold settled_twice. simpl. apply (dict_elem_get _ _ _ Hnd) in Hin.
    pose proof (own_entries_count r p k Hr) as Hc. unfold count in Hc. rewrite Hin in Hc. simpl in Hc.
    destruct (decide (is_key r k)) as [Hk|]; [specialize (H k Hk)|]; destruct (1 <? length srcs) eqn:El; try done; apply Nat.ltb_lt in El; lia.
Qed.

Lemma profile_problems_nil r p : reg_ok r -> known r p -> profile_problems r p = [] <-> profile_ok r p.
Proof.
  intros Hr Hp. unfold profile_problems, profile_ok. rewrite <- (own_problems_nil r p Hr), <- (settled_once r p Hr).
  destruct (own_entries r p) as [problems by_]. cbn [fst snd].
  pose proof (chain_of_spec r p Hr Hp) as Hc. destruct (chain_of r p) as [chain [w|]].
  - split; [by intros [_ [_ [? _]%app_eq_nil]%app_eq_nil]%app_eq_nil|]. intros (_ & _ & Hl & _). by destruct Hc.
  - destruct Hc as (l & Hl & ->). split.
    + intros [H1 [H2 [_ H3%concat_nil]%app_eq_nil]%app_eq_nil]%app_eq_nil. split_and!; [done|done|by exists l|]. intros k Hk.
      rewrite Forall_forall in H3. specialize (H3 k Hk). simpl in H3. case_bool_decide as Hs; [|done].
      destruct Hs as [c Hs]. exists c. by apply (settle_lineage r p l Hr Hl).
    + intros (-> & -> & _ & Hs). simpl. apply concat_nil, Forall_forall. intros k Hk. rewrite bool_decide_eq_true_2; [done|].
      destruct (Hs k Hk) as [c Hc]. exists c. by apply (settle_lineage r p l Hr Hl).
Qed.

Lemma located_nil r : reg_ok r -> located r = [] <-> forall n p, dict_get (profile_entries r) n = Some p -> profile_ok r p.
Proof.
  intros Hr. unfold located. rewrite concat_nil, Forall_forall. split.
  - intros H n p Hp. assert (Hk : known r p) by (unfold known; by rewrite (ro_names _ Hr _ _ Hp)). apply (profile_problems_nil r p Hr Hk).
    eapply (fmap_nil_inv _). apply (H (n, p)). rewrite py_sorted_perm. by apply dict_get_elem.
  - intros H [n p] Hin. rewrite py_sorted_perm in Hin. apply (dict_elem_get _ _ _ (ro_profiles _ Hr)) in Hin.
    assert (Hk : known r p) by (unfold known; by rewrite (ro_names _ Hr _ _ Hin)).
    simpl. by rewrite (proj2 (profile_problems_nil r p Hr Hk) (H n p Hin)).
Qed.

(** The matrix file has to be the rendered matrix. *)
Definition matrix_fresh (files : string -> option string) (r : Registry) : Prop := forall path, matrix_path r = Some path ->
    files path = Some (render_matrix r).

Lemma coverage_nil files display r : reg_ok r -> check_coverage files display r = [] <-> (forall n p,
    dict_get (profile_entries r) n = Some p -> profile_ok r p) /\ matrix_fresh files r.
Proof.
  intros Hr. rewrite <- (located_nil r Hr). unfold check_coverage, matrix_fresh. split.
  - intros [H1%fmap_nil_inv H2]%app_eq_nil. assert (Hl : located r = []) by (apply Permutation_nil_r;
    by rewrite <- (py_sorted_perm location_ltb), H1). split; [done|]. intros path Hp. rewrite Hp in H2. unfold matrix_problem in H2.
    destruct (files path) as [text|]; [|done]. destruct (String.eqb_spec text (render_matrix r)); [by subst|done].
  - intros [-> Hf]. simpl. destruct (matrix_path r) as [path|]; [|done]. specialize (Hf path eq_refl). unfold matrix_problem. rewrite Hf.
    by rewrite String.eqb_refl.
Qed.

(** ** The order of registration does not matter *)

Lemma dict_get_perm {V} (d e : list (string * V)) k : NoDup (dict_keys d) -> d ≡ₚ e -> dict_get d k = dict_get e k.
Proof.
  intros Hnd Hp. assert (Hnd' : NoDup (dict_keys e)) by (unfold dict_keys in *; by rewrite <- Hp). destruct (dict_get d k) as [v|] eqn:Ed.
  - symmetry. apply dict_elem_get; [done|]. rewrite <- Hp. by apply dict_get_elem.
  - apply dict_get_None in Ed. symmetry. apply dict_get_None. unfold dict_keys in *. by rewrite <- Hp.
Qed.

Lemma dict_perm {V} (d e : list (string * V)) : NoDup (dict_keys d) -> NoDup (dict_keys e) -> (forall k, dict_get d k = dict_get e k) -> d ≡ₚ e.
Proof.
  intros Hd He Hg. apply NoDup_Permutation; [by eapply NoDup_fmap_1|by eapply NoDup_fmap_1|]. intros [k v].
  split; intros H%dict_elem_get; try done; apply dict_get_elem; [rewrite <- Hg|rewrite Hg]; done.
Qed.

Lemma string_ltb_false a b : String.ltb a b = false <-> String.compare a b <> Lt.
Proof. unfold String.ltb. by destruct (String.compare a b). Qed.

Lemma string_ge_trans a : forall b c, String.compare a b <> Lt -> String.compare b c <> Lt -> String.compare a c <> Lt.
Proof.
  induction a as [|x a IH]; intros [|y b] [|z c]; simpl; try done. unfold Ascii.compare. specialize (IH b c).
  destruct (N.compare_spec (N_of_ascii x) (N_of_ascii y)); destruct (N.compare_spec (N_of_ascii y) (N_of_ascii z));
  destruct (N.compare_spec (N_of_ascii x) (N_of_ascii z)); try done; try lia; auto.
Qed.

#[export] Instance sw_string : StrictWeak String.ltb.
Proof.
  split.
  - intros a b H. apply string_ltb_false. rewrite String.compare_antisym. unfold String.ltb in H. by destruct (String.compare a b).
  - intros a b c. rewrite !string_ltb_false. apply string_ge_trans.
Qed.

Lemma string_ltb_total a b : String.ltb a b = false -> String.ltb b a = false -> a = b.
Proof. rewrite !string_ltb_false, (String.compare_antisym b a).
  destruct (String.compare a b) eqn:E; [by apply String.compare_eq_iff in E|done|done]. Qed.

#[export] Instance sw_item {V} : StrictWeak (item_ltb (V := V)).
Proof. apply (sw_by_key fst String.ltb sw_string). Qed.
#[export] Instance sw_location : StrictWeak location_ltb.
Proof. apply (sw_by_key (fun l : location => [l.1.1; l.1.2; l.2]) (lex_list String.ltb)). apply _. Qed.

Lemma py_sorted_unique {A} (lt : A -> A -> bool) `{!StrictWeak lt} l k :
  l ≡ₚ k -> (forall x y, x ∈ l -> y ∈ l -> lt x y = false -> lt y x = false -> x = y) -> py_sorted lt l = py_sorted lt k.
Proof.
  intros Hp Hu. apply (StronglySorted_unique_strong (fun x y => lt y x = false)); [|exact (py_sorted_sorted lt _)..|by rewrite !py_sorted_perm].
  intros x y Hx Hy H1 H2. rewrite py_sorted_perm in Hx, Hy. rewrite <- Hp in Hy. by apply Hu.
Qed.

Lemma sorted_items {V} (d e : list (string * V)) : NoDup (dict_keys d) -> d ≡ₚ e -> py_sorted item_ltb d = py_sorted item_ltb e.
Proof.
  intros Hnd Hp. apply py_sorted_unique; [apply _|done|]. intros [k v] [k' v'] Hx Hy H1 H2.
  assert (k = k') as -> by (by apply string_ltb_total). apply (dict_elem_get _ _ _ Hnd) in Hx, Hy. congruence.
Qed.

Lemma location_total (x y : location) : location_ltb x y = false -> location_ltb y x = false -> x = y.
Proof.
  destruct x as [[a b] c], y as [[a' b'] c']. unfold location_ltb. simpl.
  rewrite !orb_false_iff, !andb_false_iff, !negb_false_iff, ?orb_false_r. intros [H1 H2] [H3 H4].
  assert (a = a') as -> by (by apply string_ltb_total).
  destruct H2 as [H2|H2]; [congruence|]. destruct H4 as [H4|H4]; [congruence|]. apply orb_false_iff in H2 as [H2 H5], H4 as [H4 H6].
  assert (b = b') as -> by (by apply string_ltb_total).
  apply andb_false_iff in H5 as [H5%negb_false_iff|H5], H6 as [H6%negb_false_iff|H6]; try congruence.
  apply orb_false_iff in H5 as [H5 _], H6 as [H6 _]. by rewrite (string_ltb_total c c' H5 H6).
Qed.

Record same_registry (r r' : Registry) : Prop := {
  sr_options : option_entries r ≡ₚ option_entries r';
  sr_profiles : profile_entries r ≡ₚ profile_entries r';
  sr_path : matrix_path r = matrix_path r';
}.

Section same.
Context (r r' : Registry) (Hr : reg_ok r) (Hr' : reg_ok r') (Hs : same_registry r r').

Lemma same_key k : is_key r k <-> is_key r' k.
Proof. unfold is_key. by rewrite !dict_get_keys, (dict_get_perm _ _ k (ro_options _ Hr) (sr_options _ _ Hs)). Qed.

Lemma same_registered k : registered r k = registered r' k.
Proof. unfold registered. by rewrite (dict_get_perm _ _ k (ro_options _ Hr) (sr_options _ _ Hs)). Qed.

Lemma same_matched pattern : matched r pattern ≡ₚ matched r' pattern.
Proof. unfold matched, dict_keys. by rewrite (sr_options _ _ Hs). Qed.

Lemma same_chain_loop fuel : forall chain seen cur, chain_loop fuel r chain seen cur = chain_loop fuel r' chain seen cur.
Proof.
  induction fuel as [|fuel IH]; intros chain seen cur; simpl; destruct (p_extends cur) as [b|]; try done. destruct (bool_decide _); [done|].
  rewrite (dict_get_perm _ _ b (ro_profiles _ Hr) (sr_profiles _ _ Hs)). destruct (dict_get _ b); [apply IH|done].
Qed.

Lemma same_chain p : chain_of r p = chain_of r' p.
Proof. unfold chain_of. rewrite (Permutation_length (sr_profiles _ _ Hs)). apply same_chain_loop. Qed.

Lemma same_cells chain k : dict_get (settle_chain r chain) k = dict_get (settle_chain r' chain) k.
Proof. rewrite <- (reverse_involutive chain), !settle_chain_get by done. apply decide_ext, same_key. Qed.

Lemma same_cells_perm chain : settle_chain r chain ≡ₚ settle_chain r' chain.
Proof. apply dict_perm; [apply settle_chain_nodup..|]. apply same_cells. Qed.

Lemma settled_fold_get ks s d k : NoDup ks -> dict_get (fold_left (fun d k => settled d k s) ks d) k = if decide (k ∈ ks) then Some (default
    [] (dict_get d k) ++ [s]) else dict_get d k.
Proof.
  intros Hnd. revert d. induction Hnd as [|x ks Hx Hnd IH]; intros d; [done|]. simpl. rewrite IH. unfold settled at 1 2.
  rewrite dict_get_set. destruct (decide (x = k)) as [->|Hne].
  - rewrite decide_False by done. by rewrite decide_True by set_solver.
  - destruct (decide (k ∈ ks)); [by rewrite decide_True by set_solver|by rewrite decide_False by set_solver].
Qed.

Lemma entry_step_same name wild kr acc acc' : (forall k, dict_get acc.2 k = dict_get acc'.2 k) ->
    forall k, dict_get (entry_step r name wild acc kr).2 k = dict_get (entry_step r' name wild acc' kr).2 k.
Proof.
  intros Ha k. destruct kr as [key reason]. unfold entry_step. rewrite <- same_registered.
  destruct (has_char "*" key); [destruct wild; simpl; [|done]|destruct (registered r key); simpl; [|done]].
  - rewrite !settled_fold_get by (apply NoDup_filter, ro_options; done). rewrite Ha. apply decide_ext. by rewrite same_matched.
  - unfold settled. rewrite !dict_get_set. by rewrite !Ha.
Qed.

Lemma fold_same {X} (f f' : list problem * sources -> X -> list problem * sources) l : forall acc acc',
  (forall x acc acc', (forall k, dict_get acc.2 k = dict_get acc'.2 k) -> forall k, dict_get (f acc x).2 k = dict_get (f' acc' x).2 k) ->
  (forall k, dict_get acc.2 k = dict_get acc'.2 k) -> forall k, dict_get (fold_left f l acc).2 k = dict_get (fold_left f' l acc').2 k.
Proof. induction l as [|x l IH]; intros acc acc' Hf Ha; [done|]. simpl. apply IH; [done|]. by apply Hf. Qed.

Lemma same_sources p : (own_entries r p).2 ≡ₚ (own_entries r' p).2.
Proof.
  apply dict_perm; [apply own_entries_nodup..|]. unfold own_entries. apply fold_same; [intros; by apply entry_step_same|].
  apply fold_same; [intros; by apply entry_step_same|]. apply fold_same; [|done].
  intros key acc acc' Ha k. unfold supports_step. rewrite <- same_registered. destruct (has_char "*" key); [apply Ha|].
  destruct (registered r key); simpl; [|apply Ha]. unfold settled. rewrite !dict_get_set. by rewrite !Ha.
Qed.

Lemma same_entry_problems p : (own_entries r p).1 = (own_entries r' p).1.
Proof.
  rewrite !own_entries_problems. f_equal; [|f_equal]; f_equal; apply list_fmap_ext; intros i x _; unfold supports_problem, entry_problem;
  rewrite <- same_registered; try done. by rewrite (Permutation_length (same_matched _)).
Qed.

Lemma same_problems p : profile_problems r p ≡ₚ profile_problems r' p.
Proof.
  unfold profile_problems. pose proof (same_sources p) as Hsrc. pose proof (same_entry_problems p) as Hp.
  destruct (own_entries r p) as [ps by_], (own_entries r' p) as [ps' by']. simpl in Hsrc, Hp. subst ps'. rewrite <- same_chain.
  destruct (chain_of r p) as [chain w].
  f_equiv. f_equiv; [by rewrite Hsrc|]. f_equiv. unfold dict_keys. rewrite (sr_options _ _ Hs). erewrite list_fmap_ext; [done|].
  intros i k _. simpl. by rewrite same_cells.
Qed.

Lemma same_located : located r ≡ₚ located r'.
Proof.
  unfold located. rewrite (sorted_items _ _ (ro_profiles _ Hr) (sr_profiles _ _ Hs)).
  induction (py_sorted item_ltb (profile_entries r')) as [|np l IH]; [done|]. rewrite !fmap_cons. simpl. by rewrite IH, same_problems.
Qed.

Lemma profile_section_same entries p c c' : (forall k, dict_get c k = dict_get c' k) -> c ≡ₚ c' ->
    profile_section entries p c = profile_section entries p c'.
Proof.
  intros Hg Hp. assert (Hc : unsupported_count c = unsupported_count c') by (unfold unsupported_count; by rewrite Hp).
  assert (Hl : reason_lines entries c = reason_lines entries c') by (unfold reason_lines; f_equal; apply list_fmap_ext; intros i e _;
  by rewrite Hg).
  unfold profile_section. by rewrite Hc, Hl.
Qed.

Lemma same_render : render_matrix r = render_matrix r'.
Proof.
  unfold render_matrix, render_lines, options, profiles. rewrite (sorted_items _ _ (ro_profiles _ Hr) (sr_profiles _ _ Hs)),
  (sorted_items _ _ (ro_options _ Hr) (sr_options _ _ Hs)).
  set (ps := (py_sorted item_ltb (profile_entries r')).*2). set (entries := (py_sorted item_ltb (option_entries r')).*2). do 2 f_equal.
  f_equal; f_equal.
  - apply list_fmap_ext. intros i e _. unfold matrix_row. do 2 f_equal. f_equal. f_equal. rewrite <- !list_fmap_compose.
    apply list_fmap_ext. intros j p _. simpl. unfold cell_label. by rewrite same_chain, same_cells.
  - do 3 f_equal. induction ps as [|p ps IH]; [done|]. rewrite !fmap_cons. simpl. f_equal; [|done]. rewrite <- same_chain.
    apply profile_section_same; [apply same_cells|apply same_cells_perm].
Qed.
End same.

(** ** Loading *)

Definition preserves (f : Registry -> res Registry) : Prop := forall r r', reg_ok r -> f r = Ok r' -> reg_ok r'.

Lemma run_all_ok calls : Forall preserves calls -> preserves (run_all calls).
Proof.
  induction 1 as [|f calls Hf _ IH]; intros r r' Hr; simpl; [by intros [= <-]|]. intros (r1 & H1 & H2)%bind_Ok_inv.
  apply (IH r1); [by apply (Hf r)|done].
Qed.

Lemma call_option_ok f : (forall r, exists key runs_in goal why source remove_when,
    f r = register_option r key runs_in goal why source remove_when) -> preserves (call f).
Proof. intros Hf r r' Hr. unfold call. intros ([r1 e] & H1 & [= <-])%bind_Ok_inv. destruct (Hf r) as (k & ri & g & w & s & rw & E).
  rewrite E in H1. by apply (register_option_ok _ _ _ _ _ _ _ _ _ Hr H1). Qed.

Lemma call_profile_ok f : (forall r, exists name supports unsupported not_applicable extends,
    f r = register_profile r name supports unsupported not_applicable extends) -> preserves (call f).
Proof. intros Hf r r' Hr. unfold call. intros ([r1 e] & H1 & [= <-])%bind_Ok_inv. destruct (Hf r) as (n & s & u & na & x & E).
  rewrite E in H1. by apply (register_profile_ok _ _ _ _ _ _ _ _ Hr H1). Qed.

Lemma dict_update_nodup {V} (d e : list (string * V)) : NoDup (dict_keys d) -> NoDup (dict_keys (dict_update d e)).
Proof. intros Hd. unfold dict_update. apply fold_nodup; [|done]. intros; by apply dict_set_nodup. Qed.

Lemma loaded_ok builtins real r : Forall preserves builtins -> reg_ok real -> loaded builtins real = Ok r -> reg_ok r.
Proof.
  intros Hb Hr. unfold loaded. destruct (builtins_registered real); [by intros [= <-]|]. intros (staging & Hst & H)%bind_Ok_inv.
  destruct (existsb _ _); [done|]. destruct (existsb _ _); [done|]. injection H as <-.
  pose proof (run_all_ok builtins Hb _ _ (registry_new_ok None) Hst) as Hs.
  split; simpl; [apply dict_update_nodup, Hr|apply dict_update_nodup, Hr| |].
  - intros k e. rewrite dict_update_get by apply Hs. destruct (dict_get (option_entries staging) k) eqn:E; [intros [= <-];
    by apply (ro_keys _ Hs)|by apply (ro_keys _ Hr)].
  - intros n p. rewrite dict_update_get by apply Hs. destruct (dict_get (profile_entries staging) n) eqn:E; [intros [= <-];
    by apply (ro_names _ Hs)|by apply (ro_names _ Hr)].
Qed.

(** ** Properties *)

Lemma settle_spec r p : reg_ok r -> known r p ->
  (forall l, lineage r p l -> exists cells, settle r p = Ok cells /\ NoDup (dict_keys cells) /\
    forall k c, dict_get cells k = Some c <-> is_key r k /\ settles r p k c) /\
  ((~ exists l, lineage r p l) -> exists problem, settle r p = Raise (ValueError problem)).
Proof.
  intros Hr Hp. unfold settle. pose proof (chain_of_spec r p Hr Hp) as Hc. destruct (chain_of r p) as [chain [w|]].
  - split; [intros l Hl; destruct Hc; by exists l|]. intros _. by exists w.
  - destruct Hc as (l & Hl & ->). split; [|intros []; by exists l]. intros _ _. eexists. split; [done|]. split; [apply settle_chain_nodup|].
    by apply settle_lineage.
Qed.

(** C23: [check_coverage] passes exactly when the table is complete: the entries of every profile name registered keys or wildcards that
    match, with reasons; no profile settles a key twice; every chain of extended profiles ends at a profile that extends nothing;
    every registered key is settled by a profile of that chain; and the matrix file is the rendered matrix.
    When it passes, [settle] returns for every profile exactly the registered keys,
    each with the verdict of the nearest profile that has an entry for it. *)
Theorem coverage_exact files display r :
  reg_ok r ->
  (check_coverage files display r = [] <-> (forall n p, dict_get (profile_entries r) n = Some p -> profile_ok r p) /\ matrix_fresh files r) /\
  (check_coverage files display r = [] -> forall n p, dict_get (profile_entries r) n = Some p ->
    exists cells, settle_name r n = Ok cells /\ dict_keys cells ≡ₚ dict_keys (option_entries r) /\
      forall k c, dict_get cells k = Some c <-> is_key r k /\ settles r p k c).
Proof.
  intros Hr. split; [by apply coverage_nil|]. intros [Hall _]%coverage_nil n p Hp; [|done]. destruct (Hall n p Hp) as (_ & _ & [l Hl] & Hk).
  assert (Hkn : known r p) by (unfold known; by rewrite (ro_names _ Hr _ _ Hp)).
  destruct (proj1 (settle_spec r p Hr Hkn) l Hl) as (cells & Hs & Hnd & Hg). exists cells. unfold settle_name. rewrite Hp.
  split_and!; [done| |done]. apply NoDup_Permutation; [done|apply Hr|]. intros k. rewrite dict_get_keys. split.
  - intros [c Hc]. by apply Hg in Hc as [? _].
  - intros Hin. destruct (Hk k Hin) as [c Hc]. exists c. by apply Hg.
Qed.

(** C24: The order in which options and profiles were registered does not show: two registries with the same entries have the same problems,
    in the same order, and the same matrix text. *)
Theorem registration_order_irrelevant files display r r' :
  reg_ok r -> reg_ok r' -> same_registry r r' -> check_coverage files display r = check_coverage files display r' /\
  render_matrix r = render_matrix r'.
Proof.
  intros Hr Hr' Hs. pose proof (same_render r r' Hr Hr' Hs) as Hm. split; [|done]. unfold check_coverage, matrix_problem.
  rewrite (sr_path _ _ Hs), Hm. do 2 f_equal. apply py_sorted_unique; [apply _|by apply same_located|]. intros x y _ _.
  apply location_total.
Qed.
