(* ===== verification/ModelOptions.v ===== *)
(** * The built-in options and profiles

    Source: [src/arctic_platform/common/model_options.py], [src/arctic_platform/common/profiles/].

    The tables that [_loaded] registers ([OptionRegistry]): the option entries, one definition
    per call, and one profile per loader.  [matrix_file] is the generated matrix as it is kept
    in [src/docs/models/matrix.md]. *)

From stdpp Require Import prelude strings list.
From Stdlib Require Import ZArith Lia Ascii.
From S2P Require Import Prelude Dict Json OptionRegistry.
Local Open Scope string_scope.
Local Open Scope nat_scope.
Local Open Scope list_scope.

(** ** Options *)

Definition opt_checkpointing_mode (r : Registry) : res (Registry * OptionEntry) :=
  register_option r (PStr "checkpointing.mode") (PStr "trainer") (PStr "memory")
    (PStr "Recompute whole blocks or only selected submodules in the backward pass.")
    (PStr "`loader_options.ac_config.mode`")
    PNone.

Definition opt_checkpointing_freq (r : Registry) : res (Registry * OptionEntry) :=
  register_option r (PStr "checkpointing.freq") (PStr "trainer") (PStr "memory")
    (PStr "Checkpoint every Nth block.")
    (PStr "`patches.gradient_checkpointing`; `loader_options.ac_config.freq`")
    PNone.

Definition opt_checkpointing_targets (r : Registry) : res (Registry * OptionEntry) :=
  register_option r (PStr "checkpointing.targets") (PStr "trainer") (PStr "memory")
    (PStr "The submodules that selective checkpointing recomputes.")
    (PStr "`loader_options.ac_config.targets`")
    PNone.

Definition opt_checkpointing_offload (r : Registry) : res (Registry * OptionEntry) :=
  register_option r (PStr "checkpointing.offload") (PStr "trainer") (PStr "memory")
    (PStr "Stream checkpointed block boundaries to CPU memory.")
    (PStr "`patches.activation_offload`; `loader_options.ac_config.offload_config`")
    PNone.

Definition opt_tiled_mlp_token_chunk_size (r : Registry) : res (Registry * OptionEntry) :=
  register_option r (PStr "tiled_mlp.token_chunk_size") (PStr "trainer") (PStr "memory")
    (PStr "Recompute the MLP in token tiles of this size.")
    (PStr "`patches.tiled_mlp.token_chunk_size`; `loader_options.tiled_mlp_token_chunk_size`")
    PNone.

Definition opt_lm_head_fp32 (r : Registry) : res (Registry * OptionEntry) :=
  register_option r (PStr "lm_head.fp32") (PStr "both") (PStr "parity")
    (PStr "Compute the LM-head projection in fp32, so trainer and sampler log-probs agree.")
    (PStr "`patches.lm_head.fp32`; `loader_options.fp32_lm_head`; sampler `ARCTIC_FP32_LM_HEAD`")
    PNone.

Definition opt_lm_head_token_chunk_size (r : Registry) : res (Registry * OptionEntry) :=
  register_option r (PStr "lm_head.token_chunk_size") (PStr "trainer") (PStr "memory")
    (PStr "Token tile size of the chunked LM-head projection.")
    (PStr "`patches.lm_head.token_chunk_size`; `loader_options.fused_lm_head_token_chunk_size`")
    PNone.

Definition opt_lm_head_vocab_chunk_size (r : Registry) : res (Registry * OptionEntry) :=
  register_option r (PStr "lm_head.vocab_chunk_size") (PStr "trainer") (PStr "memory")
    (PStr "Vocabulary tile size of the chunked LM-head projection.")
    (PStr "`patches.lm_head.vocab_chunk_size`")
    PNone.

Definition opt_lm_head_cross_entropy (r : Registry) : res (Registry * OptionEntry) :=
  register_option r (PStr "lm_head.cross_entropy") (PStr "trainer") (PStr "memory")
    (PStr "Fuse the LM head with the cross-entropy so the full logits are never materialized.")
    (PStr "`loader_options.fused_cross_entropy`")
    PNone.

Definition opt_liger (r : Registry) : res (Registry * OptionEntry) :=
  register_option r (PStr "liger") (PStr "trainer") (PStr "speed")
    (PStr "Apply the Liger kernels (RMSNorm, SwiGLU and fused linear cross-entropy) to a HuggingFace model.")
    (PStr "`patches.liger`")
    PNone.

Definition opt_moe_grouped_mm (r : Registry) : res (Registry * OptionEntry) :=
  register_option r (PStr "moe.grouped_mm") (PStr "trainer") (PStr "speed")
    (PStr "Run the experts as one grouped matmul.")
    (PStr "`loader_options.moe_use_grouped_mm`")
    PNone.

Definition opt_moe_sonicmoe (r : Registry) : res (Registry * OptionEntry) :=
  register_option r (PStr "moe.sonicmoe") (PStr "trainer") (PStr "speed")
    (PStr "Run BF16 routed experts through SonicMoE on the expert-parallel receive buffer when that kernel applies. Off keeps the grouped GEMM path.")
    (PStr "`loader_options.moe_use_sonicmoe`")
    PNone.

Definition opt_moe_comm_backend (r : Registry) : res (Registry * OptionEntry) :=
  register_option r (PStr "moe.comm_backend") (PStr "trainer") (PStr "speed")
    (PStr "The expert-parallel all-to-all backend.")
    (PStr "`loader_options.ep_comm_backend`")
    PNone.

Definition opt_moe_comm_sms (r : Registry) : res (Registry * OptionEntry) :=
  register_option r (PStr "moe.comm_sms") (PStr "trainer") (PStr "speed")
    (PStr "Streaming multiprocessors reserved for expert-parallel communication.")
    (PStr "`loader_options.deepep_num_sms`")
    PNone.

Definition opt_moe_comm_token_chunk (r : Registry) : res (Registry * OptionEntry) :=
  register_option r (PStr "moe.comm_token_chunk") (PStr "trainer") (PStr "speed")
    (PStr "Token chunk size of the expert-parallel dispatch.")
    (PStr "`loader_options.deepep_token_chunk_size`")
    PNone.

Definition opt_attention_backend (r : Registry) : res (Registry * OptionEntry) :=
  register_option r (PStr "attention.backend") (PStr "trainer") (PStr "speed")
    (PStr "The attention implementation to run.")
    (PStr "`ModelSpec.attn_implementation`")
    PNone.

Definition opt_attention_sparse_mla (r : Registry) : res (Registry * OptionEntry) :=
  register_option r (PStr "attention.sparse_mla") (PStr "trainer") (PStr "speed")
    (PStr "The sparse MLA attention kernel.")
    (PStr "`loader_options.sparse_mla_backend`; `ModelSpec.attn_implementation` on glm5_next")
    PNone.

Definition opt_numerics_reduce_dtype (r : Registry) : res (Registry * OptionEntry) :=
  register_option r (PStr "numerics.reduce_dtype") (PStr "trainer") (PStr "parity")
    (PStr "The dtype gradients are reduced in.")
    (PStr "`loader_options.reduce_dtype`")
    PNone.

Definition opt_numerics_fp32_parity (r : Registry) : res (Registry * OptionEntry) :=
  register_option r (PStr "numerics.fp32_parity") (PStr "trainer") (PStr "parity")
    (PStr ("Evaluate the residual adds, the partial rotary embedding and the GatedDeltaNet beta gate in fp32, as vLLM does. Each norm returns the residual in the dtype of the branch output, so with fp32 weights under bf16 autocast the residual stream and the final hidden state are bf16 rather than fp32, and under full activation checkpointing every decoder layer after the first holds the residual as a second tensor at its boundary. Off evaluates all three in the input dtype, the residual adds at the end of each layer. On GLM-5.3-Flash it rounds each RMSNorm once, after the weight multiply; on Qwen3.8-Flash-Next it evaluates the QSA rotary embedding, softmax probabilities, P" +:+ String (ascii_of_nat 183) "" +:+ "V product, output gate and hyper-connection mix and injection in fp32."))
    (PStr "`loader_options.fp32_parity`")
    (PStr "no job needs the residual adds, rotary embedding and beta gate in the input dtype").

Definition opt_numerics_fp32_residual (r : Registry) : res (Registry * OptionEntry) :=
  register_option r (PStr "numerics.fp32_residual") (PStr "trainer") (PStr "parity")
    (PStr "Experimental. With fp32_parity on, carry the residual stream of the stock dense Qwen3.5 family in fp32 between decoder layers, from the embeddings on, instead of rounding it to the branch dtype after each fused add. Checked on CPU against a reference and under checkpointing, offload and compile; its effect on GPU training is not yet measured. Under full activation checkpointing each decoder layer after the first holds an fp32 residual at its boundary, twice the bytes of a bf16 one.")
    (PStr "`loader_options.fp32_residual`")
    (PStr "GPU runs show it does not bring training closer to vLLM, or it becomes part of fp32_parity").

Definition opt_numerics_fp32_routed_weighting (r : Registry) : res (Registry * OptionEntry) :=
  register_option r (PStr "numerics.fp32_routed_weighting") (PStr "trainer") (PStr "parity")
    (PStr "GLM-5.3-Flash and Qwen3.8-Flash-Next BF16 experts multiply the down projection's fp32 accumulator by the routing weight and round once, as vLLM's Triton fused MoE kernel does, instead of rounding the expert output and then weighting it. Bit-identical to that kernel where a sampler rank computes whole experts; under sampler tensor parallelism each rank rounds its own partial sum. Off by default: it runs one fp32-output GEMM per local expert in place of the grouped GEMM, and on H200 the routed experts' forward plus backward takes 16-19% longer.")
    (PStr "`loader_options.fp32_routed_weighting`")
    (PStr "a grouped GEMM with a weighted fp32 epilogue makes it cheap enough to fold into fp32_parity").

Definition opt_numerics_optimization_dtype (r : Registry) : res (Registry * OptionEntry) :=
  register_option r (PStr "numerics.optimization_dtype") (PStr "trainer") (PStr "parity")
    (PStr "The dtype the trainer keeps and optimizes the weights in: bfloat16 or float32.")
    (PStr "`ModelSpec.dtype` on the custom MoE loaders")
    PNone.

Definition opt_compile_fullgraph (r : Registry) : res (Registry * OptionEntry) :=
  register_option r (PStr "compile.fullgraph") (PStr "trainer") (PStr "speed")
    (PStr "Compile each transformer layer with torch.compile, as one full graph when set.")
    (PStr "`patches.compile.fullgraph`")
    PNone.

Definition opt_peft (r : Registry) : res (Registry * OptionEntry) :=
  register_option r (PStr "peft") (PStr "trainer") (PStr "mode")
    (PStr "Train adapters (LoRA) instead of the full weights.")
    (PStr "`patches.peft`")
    PNone.

Definition opt_zorro_train (r : Registry) : res (Registry * OptionEntry) :=
  register_option r (PStr "zorro_train") (PStr "trainer") (PStr "mode")
    (PStr "Replace the forward with the ZoRRo Train log-prob and entropy path.")
    (PStr "`patches.zorro_train`")
    PNone.

(** [register] of [model_options.py]. *)
Definition option_calls : list (Registry -> res (Registry * OptionEntry)) :=
  [opt_checkpointing_mode; opt_checkpointing_freq; opt_checkpointing_targets; opt_checkpointing_offload; opt_tiled_mlp_token_chunk_size;
   opt_lm_head_fp32; opt_lm_head_token_chunk_size; opt_lm_head_vocab_chunk_size; opt_lm_head_cross_entropy; opt_liger;
   opt_moe_grouped_mm; opt_moe_sonicmoe; opt_moe_comm_backend; opt_moe_comm_sms; opt_moe_comm_token_chunk;
   opt_attention_backend; opt_attention_sparse_mla; opt_numerics_reduce_dtype; opt_numerics_fp32_parity; opt_numerics_fp32_residual;
   opt_numerics_fp32_routed_weighting; opt_numerics_optimization_dtype; opt_compile_fullgraph; opt_peft; opt_zorro_train].
Definition register_options (r : Registry) : res Registry := run_all (call <$> option_calls) r.

(** ** Profiles *)

Definition register_huggingface (r : Registry) : res (Registry * Profile) :=
  register_profile r (PStr "huggingface")
    (PList [PStr "checkpointing.freq"; PStr "checkpointing.offload"; PStr "tiled_mlp.token_chunk_size"; PStr "lm_head.fp32"; PStr "lm_head.token_chunk_size"; PStr "lm_head.vocab_chunk_size"; PStr "numerics.fp32_parity"; PStr "numerics.fp32_residual"; PStr "liger"; PStr "attention.backend"; PStr "compile.fullgraph"; PStr "peft"; PStr "zorro_train"])
    (PDict [(KStr "checkpointing.mode", PStr "no equivalent option; `patches.gradient_checkpointing` always recomputes whole layers");
     (KStr "checkpointing.targets", PStr "no equivalent option; selective checkpointing exists only in the custom loaders");
     (KStr "lm_head.cross_entropy", PStr "no equivalent option; the fused cross-entropy comes only with `patches.liger`");
     (KStr "attention.sparse_mla", PStr "no equivalent option; sparse MLA is used only by the GLM loaders glm_moe_dsa and glm5_next");
     (KStr "numerics.reduce_dtype", PStr "no equivalent option");
     (KStr "numerics.fp32_routed_weighting", PStr "no equivalent option; only glm5_next and qwen4_exp have one");
     (KStr "numerics.optimization_dtype", PStr "the key has no effect on this route: the job sets the model dtype, not this key")])
    (PDict [(KStr "moe.*", PStr "the huggingface loader rejects expert parallelism and has no expert options")])
    PNone.

Definition register_generic_moe (r : Registry) : res (Registry * Profile) :=
  register_profile r (PStr "generic_moe")
    (PList [PStr "checkpointing.mode"; PStr "checkpointing.freq"; PStr "checkpointing.targets"; PStr "checkpointing.offload"; PStr "tiled_mlp.token_chunk_size"; PStr "lm_head.fp32"; PStr "lm_head.token_chunk_size"; PStr "lm_head.cross_entropy"; PStr "moe.grouped_mm"; PStr "moe.sonicmoe"; PStr "moe.comm_backend"; PStr "moe.comm_sms"; PStr "moe.comm_token_chunk"; PStr "attention.backend"; PStr "numerics.reduce_dtype"; PStr "numerics.optimization_dtype"])
    (PDict [(KStr "numerics.fp32_parity", PStr "no fp32_parity option; see qwen3_5_moe, huggingface, glm5_next, qwen4_exp");
     (KStr "numerics.fp32_residual", PStr "this loader has no fp32_residual option; only huggingface has one");
     (KStr "numerics.fp32_routed_weighting", PStr "no fp32_routed_weighting option; see glm5_next, qwen4_exp");
     (KStr "lm_head.vocab_chunk_size", PStr "no equivalent option");
     (KStr "liger", PStr "the loader rejects `patches.liger`; set `lm_head.cross_entropy` to liger instead");
     (KStr "compile.fullgraph", PStr "the loader rejects `patches.compile`");
     (KStr "peft", PStr "the loader rejects `patches.peft`: expert adapter integration is not yet supported");
     (KStr "zorro_train", PStr "the loader rejects `patches.zorro_train`")])
    (PDict [(KStr "attention.sparse_mla", PStr "no model family behind this loader uses sparse MLA attention")])
    PNone.

Definition register_qwen3_5_moe (r : Registry) : res (Registry * Profile) :=
  register_profile r (PStr "qwen3_5_moe")
    (PList [PStr "checkpointing.mode"; PStr "checkpointing.freq"; PStr "checkpointing.targets"; PStr "checkpointing.offload"; PStr "tiled_mlp.token_chunk_size"; PStr "lm_head.fp32"; PStr "lm_head.token_chunk_size"; PStr "lm_head.cross_entropy"; PStr "moe.grouped_mm"; PStr "moe.sonicmoe"; PStr "moe.comm_backend"; PStr "moe.comm_sms"; PStr "moe.comm_token_chunk"; PStr "attention.backend"; PStr "numerics.reduce_dtype"; PStr "numerics.optimization_dtype"; PStr "numerics.fp32_parity"])
    (PDict [(KStr "numerics.fp32_residual", PStr "this loader has no fp32_residual option; only huggingface has one");
     (KStr "numerics.fp32_routed_weighting", PStr "no fp32_routed_weighting option; see glm5_next, qwen4_exp");
     (KStr "lm_head.vocab_chunk_size", PStr "no equivalent option");
     (KStr "liger", PStr "the loader rejects `patches.liger`; set `lm_head.cross_entropy` to liger instead");
     (KStr "compile.fullgraph", PStr "the loader rejects `patches.compile`");
     (KStr "peft", PStr "the loader rejects `patches.peft`: expert adapter integration is not yet supported");
     (KStr "zorro_train", PStr "the loader rejects `patches.zorro_train`")])
    (PDict [(KStr "attention.sparse_mla", PStr "Qwen3.5-MoE has no sparse MLA attention")])
    PNone.

Definition register_glm_moe_dsa (r : Registry) : res (Registry * Profile) :=
  register_profile r (PStr "glm_moe_dsa")
    (PList [PStr "checkpointing.mode"; PStr "checkpointing.freq"; PStr "checkpointing.targets"; PStr "checkpointing.offload"; PStr "tiled_mlp.token_chunk_size"; PStr "lm_head.fp32"; PStr "lm_head.token_chunk_size"; PStr "lm_head.cross_entropy"; PStr "moe.grouped_mm"; PStr "moe.sonicmoe"; PStr "moe.comm_backend"; PStr "moe.comm_sms"; PStr "moe.comm_token_chunk"; PStr "attention.sparse_mla"; PStr "attention.backend"; PStr "numerics.reduce_dtype"; PStr "numerics.optimization_dtype"])
    (PDict [(KStr "numerics.fp32_parity", PStr "no fp32_parity option; see qwen3_5_moe, huggingface, glm5_next, qwen4_exp");
     (KStr "numerics.fp32_residual", PStr "this loader has no fp32_residual option; only huggingface has one");
     (KStr "numerics.fp32_routed_weighting", PStr "no fp32_routed_weighting option; see glm5_next, qwen4_exp");
     (KStr "lm_head.vocab_chunk_size", PStr "no equivalent option");
     (KStr "liger", PStr "the loader rejects `patches.liger`; set `lm_head.cross_entropy` to liger instead");
     (KStr "compile.fullgraph", PStr "the loader rejects `patches.compile`");
     (KStr "peft", PStr "the loader rejects `patches.peft`: expert adapter integration is not yet supported");
     (KStr "zorro_train", PStr "the loader rejects `patches.zorro_train`")])
    PNone
    PNone.

Definition register_glm5_next (r : Registry) : res (Registry * Profile) :=
  register_profile r (PStr "glm5_next")
    (PList [PStr "attention.sparse_mla"; PStr "numerics.fp32_parity"; PStr "numerics.fp32_routed_weighting"])
    PNone
    PNone
    (PStr "generic_moe").

Definition register_qwen4_exp (r : Registry) : res (Registry * Profile) :=
  register_profile r (PStr "qwen4_exp")
    (PList [PStr "numerics.fp32_parity"; PStr "numerics.fp32_routed_weighting"])
    PNone
    (PDict [(KStr "attention.sparse_mla", PStr "Qwen3.8-Flash-Next uses QSA attention, not sparse MLA")])
    (PStr "generic_moe").

Definition register_deepseek_v4 (r : Registry) : res (Registry * Profile) :=
  register_profile r (PStr "deepseek_v4")
    (PTuple [])
    PNone
    (PDict [(KStr "attention.sparse_mla", PStr "DeepSeek V4 runs its own fused sparse attention kernel, not sparse MLA")])
    (PStr "generic_moe").

Definition register_deepseek_v41 (r : Registry) : res (Registry * Profile) :=
  register_profile r (PStr "deepseek_v41")
    (PTuple [])
    PNone
    (PDict [(KStr "attention.sparse_mla", PStr "DeepSeek V4.1 runs its own fused sparse attention kernel, not sparse MLA")])
    (PStr "generic_moe").

Definition register_dflash2 (r : Registry) : res (Registry * Profile) :=
  register_profile r (PStr "dflash2")
    (PList [PStr "attention.backend"; PStr "numerics.optimization_dtype"])
    (PDict [(KStr "checkpointing.mode", PStr "the loader has no activation checkpointing; it rejects `patches.gradient_checkpointing`");
     (KStr "checkpointing.freq", PStr "the loader rejects `patches.gradient_checkpointing`");
     (KStr "checkpointing.targets", PStr "the loader has no activation checkpointing");
     (KStr "checkpointing.offload", PStr "the loader rejects `patches.activation_offload`");
     (KStr "tiled_mlp.token_chunk_size", PStr "the loader rejects `patches.tiled_mlp`");
     (KStr "lm_head.fp32", PStr "the draft objective reads the target's own LM head; the loader rejects `patches.lm_head`");
     (KStr "lm_head.token_chunk_size", PStr "the loader rejects `patches.lm_head`; `loader_options.objective_chunk_blocks` bounds memory");
     (KStr "lm_head.cross_entropy", PStr "the draft objective computes its own cross-entropy");
     (KStr "lm_head.vocab_chunk_size", PStr "the loader rejects `patches.lm_head`; `loader_options.objective_chunk_blocks` bounds memory");
     (KStr "numerics.reduce_dtype", PStr "no equivalent option");
     (KStr "numerics.fp32_parity", PStr "this loader has no fp32_parity option");
     (KStr "numerics.fp32_residual", PStr "this loader has no fp32_residual option; only huggingface has one");
     (KStr "numerics.fp32_routed_weighting", PStr "the draft has no routed experts");
     (KStr "liger", PStr "the loader rejects `patches.liger`");
     (KStr "compile.fullgraph", PStr "the loader rejects `patches.compile`");
     (KStr "peft", PStr "the loader rejects `patches.peft`: the draft is trained in full");
     (KStr "zorro_train", PStr "the loader rejects `patches.zorro_train`")])
    (PDict [(KStr "attention.sparse_mla", PStr "neither the DFlash2 draft nor the target it reads uses sparse MLA attention");
     (KStr "moe.*", PStr "the loader rejects expert parallelism and has no expert options")])
    PNone.

(** [register] of [profiles/__init__.py]. *)
Definition profile_calls : list (Registry -> res (Registry * Profile)) :=
  [register_huggingface; register_generic_moe; register_qwen3_5_moe; register_glm_moe_dsa;
   register_glm5_next; register_qwen4_exp; register_deepseek_v4; register_deepseek_v41;
   register_dflash2].
Definition register_profiles (r : Registry) : res Registry := run_all (call <$> profile_calls) r.

(** The file [docs/models/matrix.md], line by line. *)
Definition matrix_file : list string :=
  ["# Model options matrix";
   "";
   "<!-- Generated by `python -m arctic_platform.common.option_registry matrix --write`. Do not edit by hand. -->";
   "";
   "One row per option, one column per model profile (one profile per loader). `yes` means the model";
   "supports the option in some context, through a loader option, a `Patches` field or a `ModelSpec` field";
   "that the loader accepts. `no` means the loader offers no way to set it, and `n/a` that the architecture";
   "rules the option out. Restrictions that depend on the platform, the parallelism or the value stay in";
   "each loader's own validation. The reasons follow the table.";
   "";
   "| Option | Runs in | Goal | `deepseek_v4` | `deepseek_v41` | `dflash2` | `generic_moe` | `glm5_next` | `glm_moe_dsa` | `huggingface` | `qwen3_5_moe` | `qwen4_exp` |";
   "|---|---|---|---|---|---|---|---|---|---|---|---|";
   "| `attention.backend` | trainer | speed | yes | yes | yes | yes | yes | yes | yes | yes | yes |";
   "| `attention.sparse_mla` | trainer | speed | n/a | n/a | n/a | n/a | yes | yes | no | n/a | n/a |";
   "| `checkpointing.freq` | trainer | memory | yes | yes | no | yes | yes | yes | yes | yes | yes |";
   "| `checkpointing.mode` | trainer | memory | yes | yes | no | yes | yes | yes | no | yes | yes |";
   "| `checkpointing.offload` | trainer | memory | yes | yes | no | yes | yes | yes | yes | yes | yes |";
   "| `checkpointing.targets` | trainer | memory | yes | yes | no | yes | yes | yes | no | yes | yes |";
   "| `compile.fullgraph` | trainer | speed | no | no | no | no | no | no | yes | no | no |";
   "| `liger` | trainer | speed | no | no | no | no | no | no | yes | no | no |";
   "| `lm_head.cross_entropy` | trainer | memory | yes | yes | no | yes | yes | yes | no | yes | yes |";
   "| `lm_head.fp32` | both | parity | yes | yes | no | yes | yes | yes | yes | yes | yes |";
   "| `lm_head.token_chunk_size` | trainer | memory | yes | yes | no | yes | yes | yes | yes | yes | yes |";
   "| `lm_head.vocab_chunk_size` | trainer | memory | no | no | no | no | no | no | yes | no | no |";
   "| `moe.comm_backend` | trainer | speed | yes | yes | n/a | yes | yes | yes | n/a | yes | yes |";
   "| `moe.comm_sms` | trainer | speed | yes | yes | n/a | yes | yes | yes | n/a | yes | yes |";
   "| `moe.comm_token_chunk` | trainer | speed | yes | yes | n/a | yes | yes | yes | n/a | yes | yes |";
   "| `moe.grouped_mm` | trainer | speed | yes | yes | n/a | yes | yes | yes | n/a | yes | yes |";
   "| `moe.sonicmoe` | trainer | speed | yes | yes | n/a | yes | yes | yes | n/a | yes | yes |";
   "| `numerics.fp32_parity` | trainer | parity | no | no | no | no | yes | no | yes | yes | yes |";
   "| `numerics.fp32_residual` | trainer | parity | no | no | no | no | no | no | yes | no | no |";
   "| `numerics.fp32_routed_weighting` | trainer | parity | no | no | no | no | yes | no | no | no | yes |";
   "| `numerics.optimization_dtype` | trainer | parity | yes | yes | yes | yes | yes | yes | no | yes | yes |";
   "| `numerics.reduce_dtype` | trainer | parity | yes | yes | no | yes | yes | yes | no | yes | yes |";
   "| `peft` | trainer | mode | no | no | no | no | no | no | yes | no | no |";
   "| `tiled_mlp.token_chunk_size` | trainer | memory | yes | yes | no | yes | yes | yes | yes | yes | yes |";
   "| `zorro_train` | trainer | mode | no | no | no | no | no | no | yes | no | no |";
   "";
   "## Options";
   "";
   "- `attention.backend`: The attention implementation to run. Today: `ModelSpec.attn_implementation`.";
   "- `attention.sparse_mla`: The sparse MLA attention kernel. Today: `loader_options.sparse_mla_backend`; `ModelSpec.attn_implementation` on glm5_next.";
   "- `checkpointing.freq`: Checkpoint every Nth block. Today: `patches.gradient_checkpointing`; `loader_options.ac_config.freq`.";
   "- `checkpointing.mode`: Recompute whole blocks or only selected submodules in the backward pass. Today: `loader_options.ac_config.mode`.";
   "- `checkpointing.offload`: Stream checkpointed block boundaries to CPU memory. Today: `patches.activation_offload`; `loader_options.ac_config.offload_config`.";
   "- `checkpointing.targets`: The submodules that selective checkpointing recomputes. Today: `loader_options.ac_config.targets`.";
   "- `compile.fullgraph`: Compile each transformer layer with torch.compile, as one full graph when set. Today: `patches.compile.fullgraph`.";
   "- `liger`: Apply the Liger kernels (RMSNorm, SwiGLU and fused linear cross-entropy) to a HuggingFace model. Today: `patches.liger`.";
   "- `lm_head.cross_entropy`: Fuse the LM head with the cross-entropy so the full logits are never materialized. Today: `loader_options.fused_cross_entropy`.";
   "- `lm_head.fp32`: Compute the LM-head projection in fp32, so trainer and sampler log-probs agree. Today: `patches.lm_head.fp32`; `loader_options.fp32_lm_head`; sampler `ARCTIC_FP32_LM_HEAD`.";
   "- `lm_head.token_chunk_size`: Token tile size of the chunked LM-head projection. Today: `patches.lm_head.token_chunk_size`; `loader_options.fused_lm_head_token_chunk_size`.";
   "- `lm_head.vocab_chunk_size`: Vocabulary tile size of the chunked LM-head projection. Today: `patches.lm_head.vocab_chunk_size`.";
   "- `moe.comm_backend`: The expert-parallel all-to-all backend. Today: `loader_options.ep_comm_backend`.";
   "- `moe.comm_sms`: Streaming multiprocessors reserved for expert-parallel communication. Today: `loader_options.deepep_num_sms`.";
   "- `moe.comm_token_chunk`: Token chunk size of the expert-parallel dispatch. Today: `loader_options.deepep_token_chunk_size`.";
   "- `moe.grouped_mm`: Run the experts as one grouped matmul. Today: `loader_options.moe_use_grouped_mm`.";
   "- `moe.sonicmoe`: Run BF16 routed experts through SonicMoE on the expert-parallel receive buffer when that kernel applies. Off keeps the grouped GEMM path. Today: `loader_options.moe_use_sonicmoe`.";
   ("- `numerics.fp32_parity`: Evaluate the residual adds, the partial rotary embedding and the GatedDeltaNet beta gate in fp32, as vLLM does. Each norm returns the residual in the dtype of the branch output, so with fp32 weights under bf16 autocast the residual stream and the final hidden state are bf16 rather than fp32, and under full activation checkpointing every decoder layer after the first holds the residual as a second tensor at its boundary. Off evaluates all three in the input dtype, the residual adds at the end of each layer. On GLM-5.3-Flash it rounds each RMSNorm once, after the weight multiply; on Qwen3.8-Flash-Next it evaluates the QSA rotary embedding, softmax probabilities, P" +:+ String (ascii_of_nat 183) "" +:+ "V product, output gate and hyper-connection mix and injection in fp32. Today: `loader_options.fp32_parity`. Remove when: no job needs the residual adds, rotary embedding and beta gate in the input dtype.");
   "- `numerics.fp32_residual`: Experimental. With fp32_parity on, carry the residual stream of the stock dense Qwen3.5 family in fp32 between decoder layers, from the embeddings on, instead of rounding it to the branch dtype after each fused add. Checked on CPU against a reference and under checkpointing, offload and compile; its effect on GPU training is not yet measured. Under full activation checkpointing each decoder layer after the first holds an fp32 residual at its boundary, twice the bytes of a bf16 one. Today: `loader_options.fp32_residual`. Remove when: GPU runs show it does not bring training closer to vLLM, or it becomes part of fp32_parity.";
   "- `numerics.fp32_routed_weighting`: GLM-5.3-Flash and Qwen3.8-Flash-Next BF16 experts multiply the down projection's fp32 accumulator by the routing weight and round once, as vLLM's Triton fused MoE kernel does, instead of rounding the expert output and then weighting it. Bit-identical to that kernel where a sampler rank computes whole experts; under sampler tensor parallelism each rank rounds its own partial sum. Off by default: it runs one fp32-output GEMM per local expert in place of the grouped GEMM, and on H200 the routed experts' forward plus backward takes 16-19% longer. Today: `loader_options.fp32_routed_weighting`. Remove when: a grouped GEMM with a weighted fp32 epilogue makes it cheap enough to fold into fp32_parity.";
   "- `numerics.optimization_dtype`: The dtype the trainer keeps and optimizes the weights in: bfloat16 or float32. Today: `ModelSpec.dtype` on the custom MoE loaders.";
   "- `numerics.reduce_dtype`: The dtype gradients are reduced in. Today: `loader_options.reduce_dtype`.";
   "- `peft`: Train adapters (LoRA) instead of the full weights. Today: `patches.peft`.";
   "- `tiled_mlp.token_chunk_size`: Recompute the MLP in token tiles of this size. Today: `patches.tiled_mlp.token_chunk_size`; `loader_options.tiled_mlp_token_chunk_size`.";
   "- `zorro_train`: Replace the forward with the ZoRRo Train log-prob and entropy path. Today: `patches.zorro_train`.";
   "";
   "## `deepseek_v4`";
   "";
   "Extends `generic_moe`.";
   "";
   "8 of 25 options unsupported.";
   "";
   "- `attention.sparse_mla` (n/a): DeepSeek V4 runs its own fused sparse attention kernel, not sparse MLA";
   "- `compile.fullgraph` (no): the loader rejects `patches.compile`";
   "- `liger` (no): the loader rejects `patches.liger`; set `lm_head.cross_entropy` to liger instead";
   "- `lm_head.vocab_chunk_size` (no): no equivalent option";
   "- `numerics.fp32_parity` (no): no fp32_parity option; see qwen3_5_moe, huggingface, glm5_next, qwen4_exp";
   "- `numerics.fp32_residual` (no): this loader has no fp32_residual option; only huggingface has one";
   "- `numerics.fp32_routed_weighting` (no): no fp32_routed_weighting option; see glm5_next, qwen4_exp";
   "- `peft` (no): the loader rejects `patches.peft`: expert adapter integration is not yet supported";
   "- `zorro_train` (no): the loader rejects `patches.zorro_train`";
   "";
   "## `deepseek_v41`";
   "";
   "Extends `generic_moe`.";
   "";
   "8 of 25 options unsupported.";
   "";
   "- `attention.sparse_mla` (n/a): DeepSeek V4.1 runs its own fused sparse attention kernel, not sparse MLA";
   "- `compile.fullgraph` (no): the loader rejects `patches.compile`";
   "- `liger` (no): the loader rejects `patches.liger`; set `lm_head.cross_entropy` to liger instead";
   "- `lm_head.vocab_chunk_size` (no): no equivalent option";
   "- `numerics.fp32_parity` (no): no fp32_parity option; see qwen3_5_moe, huggingface, glm5_next, qwen4_exp";
   "- `numerics.fp32_residual` (no): this loader has no fp32_residual option; only huggingface has one";
   "- `numerics.fp32_routed_weighting` (no): no fp32_routed_weighting option; see glm5_next, qwen4_exp";
   "- `peft` (no): the loader rejects `patches.peft`: expert adapter integration is not yet supported";
   "- `zorro_train` (no): the loader rejects `patches.zorro_train`";
   "";
   "## `dflash2`";
   "";
   "17 of 25 options unsupported.";
   "";
   "- `attention.sparse_mla` (n/a): neither the DFlash2 draft nor the target it reads uses sparse MLA attention";
   "- `checkpointing.freq` (no): the loader rejects `patches.gradient_checkpointing`";
   "- `checkpointing.mode` (no): the loader has no activation checkpointing; it rejects `patches.gradient_checkpointing`";
   "- `checkpointing.offload` (no): the loader rejects `patches.activation_offload`";
   "- `checkpointing.targets` (no): the loader has no activation checkpointing";
   "- `compile.fullgraph` (no): the loader rejects `patches.compile`";
   "- `liger` (no): the loader rejects `patches.liger`";
   "- `lm_head.cross_entropy` (no): the draft objective computes its own cross-entropy";
   "- `lm_head.fp32` (no): the draft objective reads the target's own LM head; the loader rejects `patches.lm_head`";
   "- `lm_head.token_chunk_size` (no): the loader rejects `patches.lm_head`; `loader_options.objective_chunk_blocks` bounds memory";
   "- `lm_head.vocab_chunk_size` (no): the loader rejects `patches.lm_head`; `loader_options.objective_chunk_blocks` bounds memory";
   "- `moe.comm_backend` (n/a): the loader rejects expert parallelism and has no expert options";
   "- `moe.comm_sms` (n/a): the loader rejects expert parallelism and has no expert options";
   "- `moe.comm_token_chunk` (n/a): the loader rejects expert parallelism and has no expert options";
   "- `moe.grouped_mm` (n/a): the loader rejects expert parallelism and has no expert options";
   "- `moe.sonicmoe` (n/a): the loader rejects expert parallelism and has no expert options";
   "- `numerics.fp32_parity` (no): this loader has no fp32_parity option";
   "- `numerics.fp32_residual` (no): this loader has no fp32_residual option; only huggingface has one";
   "- `numerics.fp32_routed_weighting` (no): the draft has no routed experts";
   "- `numerics.reduce_dtype` (no): no equivalent option";
   "- `peft` (no): the loader rejects `patches.peft`: the draft is trained in full";
   "- `tiled_mlp.token_chunk_size` (no): the loader rejects `patches.tiled_mlp`";
   "- `zorro_train` (no): the loader rejects `patches.zorro_train`";
   "";
   "## `generic_moe`";
   "";
   "8 of 25 options unsupported.";
   "";
   "- `attention.sparse_mla` (n/a): no model family behind this loader uses sparse MLA attention";
   "- `compile.fullgraph` (no): the loader rejects `patches.compile`";
   "- `liger` (no): the loader rejects `patches.liger`; set `lm_head.cross_entropy` to liger instead";
   "- `lm_head.vocab_chunk_size` (no): no equivalent option";
   "- `numerics.fp32_parity` (no): no fp32_parity option; see qwen3_5_moe, huggingface, glm5_next, qwen4_exp";
   "- `numerics.fp32_residual` (no): this loader has no fp32_residual option; only huggingface has one";
   "- `numerics.fp32_routed_weighting` (no): no fp32_routed_weighting option; see glm5_next, qwen4_exp";
   "- `peft` (no): the loader rejects `patches.peft`: expert adapter integration is not yet supported";
   "- `zorro_train` (no): the loader rejects `patches.zorro_train`";
   "";
   "## `glm5_next`";
   "";
   "Extends `generic_moe`.";
   "";
   "6 of 25 options unsupported.";
   "";
   "- `compile.fullgraph` (no): the loader rejects `patches.compile`";
   "- `liger` (no): the loader rejects `patches.liger`; set `lm_head.cross_entropy` to liger instead";
   "- `lm_head.vocab_chunk_size` (no): no equivalent option";
   "- `numerics.fp32_residual` (no): this loader has no fp32_residual option; only huggingface has one";
   "- `peft` (no): the loader rejects `patches.peft`: expert adapter integration is not yet supported";
   "- `zorro_train` (no): the loader rejects `patches.zorro_train`";
   "";
   "## `glm_moe_dsa`";
   "";
   "8 of 25 options unsupported.";
   "";
   "- `compile.fullgraph` (no): the loader rejects `patches.compile`";
   "- `liger` (no): the loader rejects `patches.liger`; set `lm_head.cross_entropy` to liger instead";
   "- `lm_head.vocab_chunk_size` (no): no equivalent option";
   "- `numerics.fp32_parity` (no): no fp32_parity option; see qwen3_5_moe, huggingface, glm5_next, qwen4_exp";
   "- `numerics.fp32_residual` (no): this loader has no fp32_residual option; only huggingface has one";
   "- `numerics.fp32_routed_weighting` (no): no fp32_routed_weighting option; see glm5_next, qwen4_exp";
   "- `peft` (no): the loader rejects `patches.peft`: expert adapter integration is not yet supported";
   "- `zorro_train` (no): the loader rejects `patches.zorro_train`";
   "";
   "## `huggingface`";
   "";
   "7 of 25 options unsupported.";
   "";
   "- `attention.sparse_mla` (no): no equivalent option; sparse MLA is used only by the GLM loaders glm_moe_dsa and glm5_next";
   "- `checkpointing.mode` (no): no equivalent option; `patches.gradient_checkpointing` always recomputes whole layers";
   "- `checkpointing.targets` (no): no equivalent option; selective checkpointing exists only in the custom loaders";
   "- `lm_head.cross_entropy` (no): no equivalent option; the fused cross-entropy comes only with `patches.liger`";
   "- `moe.comm_backend` (n/a): the huggingface loader rejects expert parallelism and has no expert options";
   "- `moe.comm_sms` (n/a): the huggingface loader rejects expert parallelism and has no expert options";
   "- `moe.comm_token_chunk` (n/a): the huggingface loader rejects expert parallelism and has no expert options";
   "- `moe.grouped_mm` (n/a): the huggingface loader rejects expert parallelism and has no expert options";
   "- `moe.sonicmoe` (n/a): the huggingface loader rejects expert parallelism and has no expert options";
   "- `numerics.fp32_routed_weighting` (no): no equivalent option; only glm5_next and qwen4_exp have one";
   "- `numerics.optimization_dtype` (no): the key has no effect on this route: the job sets the model dtype, not this key";
   "- `numerics.reduce_dtype` (no): no equivalent option";
   "";
   "## `qwen3_5_moe`";
   "";
   "7 of 25 options unsupported.";
   "";
   "- `attention.sparse_mla` (n/a): Qwen3.5-MoE has no sparse MLA attention";
   "- `compile.fullgraph` (no): the loader rejects `patches.compile`";
   "- `liger` (no): the loader rejects `patches.liger`; set `lm_head.cross_entropy` to liger instead";
   "- `lm_head.vocab_chunk_size` (no): no equivalent option";
   "- `numerics.fp32_residual` (no): this loader has no fp32_residual option; only huggingface has one";
   "- `numerics.fp32_routed_weighting` (no): no fp32_routed_weighting option; see glm5_next, qwen4_exp";
   "- `peft` (no): the loader rejects `patches.peft`: expert adapter integration is not yet supported";
   "- `zorro_train` (no): the loader rejects `patches.zorro_train`";
   "";
   "## `qwen4_exp`";
   "";
   "Extends `generic_moe`.";
   "";
   "6 of 25 options unsupported.";
   "";
   "- `attention.sparse_mla` (n/a): Qwen3.8-Flash-Next uses QSA attention, not sparse MLA";
   "- `compile.fullgraph` (no): the loader rejects `patches.compile`";
   "- `liger` (no): the loader rejects `patches.liger`; set `lm_head.cross_entropy` to liger instead";
   "- `lm_head.vocab_chunk_size` (no): no equivalent option";
   "- `numerics.fp32_residual` (no): this loader has no fp32_residual option; only huggingface has one";
   "- `peft` (no): the loader rejects `patches.peft`: expert adapter integration is not yet supported";
   "- `zorro_train` (no): the loader rejects `patches.zorro_train`"].

(** ** The real registry *)

Definition DEFAULT_MATRIX_PATH : string := "docs/models/matrix.md".
Definition REGISTRY : Registry := registry_new (Some DEFAULT_MATRIX_PATH).
Definition builtin_modules : list (Registry -> res Registry) := [register_options; register_profiles].

(** What the real registry holds after the first read, and the file system with the kept matrix. *)
Definition load_builtins (modules : list (Registry -> res Registry)) : Registry := match loaded modules REGISTRY with Ok r => r | Raise _ => REGISTRY end.
Definition builtin_registry : Registry := load_builtins builtin_modules.
Definition kept_files (path : string) : option string := if String.eqb path DEFAULT_MATRIX_PATH then Some (join_str nl matrix_file +:+ nl) else None.

Lemma option_calls_ok calls : (forall f, f ∈ calls -> f ∈ option_calls) -> preserves (run_all (call <$> calls)).
Proof.
  intros Hsub. apply run_all_ok, Forall_fmap, Forall_forall. intros f Hf%Hsub. simpl. apply call_option_ok. intros r. unfold option_calls in Hf. rewrite !elem_of_cons, elem_of_nil in Hf. repeat (destruct Hf as [->|Hf]; [by repeat eexists|]). done.
Qed.

Lemma profile_calls_ok calls : (forall f, f ∈ calls -> f ∈ profile_calls) -> preserves (run_all (call <$> calls)).
Proof.
  intros Hsub. apply run_all_ok, Forall_fmap, Forall_forall. intros f Hf%Hsub. simpl. apply call_profile_ok. intros r. unfold profile_calls in Hf. rewrite !elem_of_cons, elem_of_nil in Hf. repeat (destruct Hf as [->|Hf]; [by repeat eexists|]). done.
Qed.

Lemma load_builtins_ok modules r : Forall preserves modules -> loaded modules REGISTRY = Ok r -> reg_ok r.
Proof. intros Hm. apply loaded_ok; [done|apply registry_new_ok]. Qed.

Lemma builtin_ok : reg_ok builtin_registry.
Proof.
  apply (load_builtins_ok builtin_modules); [|vm_compute; reflexivity]. constructor; [by apply option_calls_ok|]. constructor; [by apply profile_calls_ok|done].
Qed.

(** The table that the program ships is complete, and the matrix that is kept with it is up to date. *)
Lemma coverage_exact_witness :
  check_coverage kept_files id builtin_registry = [] /\ length (option_entries builtin_registry) = 25 /\
  exists cells, settle_name builtin_registry "qwen4_exp" = Ok cells /\ dict_keys cells ≡ₚ dict_keys (option_entries builtin_registry) /\
    forall k c, dict_get cells k = Some c <-> is_key builtin_registry k /\ settles builtin_registry (MkProfile "qwen4_exp" (Some "generic_moe") ["numerics.fp32_parity"; "numerics.fp32_routed_weighting"] [] [("attention.sparse_mla", "Qwen3.8-Flash-Next uses QSA attention, not sparse MLA")]) k c.
Proof.
  split; [vm_compute; reflexivity|]. split; [vm_compute; reflexivity|]. apply (proj2 (coverage_exact kept_files id builtin_registry builtin_ok)); vm_compute; reflexivity.
Defined.

Definition reversed_registry : Registry := load_builtins [run_all (call <$> reverse option_calls); run_all (call <$> reverse profile_calls)].

Lemma reversed_ok : reg_ok reversed_registry.
Proof.
  apply (load_builtins_ok [run_all (call <$> reverse option_calls); run_all (call <$> reverse profile_calls)]); [|vm_compute; reflexivity]. constructor; [apply option_calls_ok; intros f; by rewrite elem_of_reverse|]. constructor; [apply profile_calls_ok; intros f; by rewrite elem_of_reverse|done].
Qed.

Lemma reversed_same : same_registry builtin_registry reversed_registry.
Proof.
  split; [| |vm_compute; reflexivity].
  - assert (option_entries reversed_registry = reverse (option_entries builtin_registry)) as -> by (vm_compute; reflexivity). by rewrite reverse_Permutation.
  - assert (profile_entries reversed_registry = reverse (profile_entries builtin_registry)) as -> by (vm_compute; reflexivity). by rewrite reverse_Permutation.
Qed.

Lemma registration_order_irrelevant_witness :
  dict_keys (profile_entries reversed_registry) <> dict_keys (profile_entries builtin_registry) /\
  check_coverage kept_files id builtin_registry = check_coverage kept_files id reversed_registry /\ render_matrix builtin_registry = render_matrix reversed_registry.
Proof.
  split; [vm_compute; discriminate|]. apply (registration_order_irrelevant kept_files id builtin_registry reversed_registry builtin_ok reversed_ok reversed_same).
Defined.
