(* ===== verification/Coroutine.v ===== *)
(** * Coroutines with state and exceptions

    The monad of the replica pool and of the multi-model driver: a coroutine changes a state and
    returns or raises, keeping the changes it made before the exception.  [swp] is its weakest
    precondition: a postcondition sees the state and whether the coroutine returned. *)

From stdpp Require Import prelude list.
From S2P Require Import Prelude.

(** ** State and exceptions *)

Section stx.
Context {S : Type}.

(** A coroutine changes the state and returns or raises. *)
Definition stx (A : Type) : Type := S -> S * res A.
Definition sret {A} (a : A) : stx A := fun s => (s, Ok a).
Definition sthrow {A} (e : exn) : stx A := fun s => (s, Raise e).
Definition sbind {A B} (m : stx A) (f : A -> stx B) : stx B := fun s => match m s with (s, Ok a) => f a s | (s, Raise e) => (s, Raise e) end.
Definition sget : stx S := fun s => (s, Ok s).
Definition smod (f : S -> S) : stx unit := fun s => (f s, Ok tt).
Definition swhen (b : bool) (m : stx unit) : stx unit := if b then m else sret tt.
Definition sraise_if (b : bool) (e : exn) : stx unit := if b then sthrow e else sret tt.

(** [try: m finally: fin], and [try: m except BaseException: handler; raise]. *)
Definition sfinally {A} (m : stx A) (fin : stx unit) : stx A :=
  fun s => match m s with (s, r) => match fin s with (s, Ok _) => (s, r) | (s, Raise e) => (s, Raise e) end end.
Definition son_error {A} (m : stx A) (handler : stx unit) : stx A :=
  fun s => match m s with (s, Ok a) => (s, Ok a) | (s, Raise e) => match handler s with (s, Ok _) => (s, Raise e) | (s, Raise e') => (s,
    Raise e') end end.
End stx.
Arguments stx : clear implicits.

#[export] Instance stx_bind {S} : MBind (stx S) := fun A B f m => sbind m f.
#[export] Instance stx_ret {S} : MRet (stx S) := fun A a => sret a.

(** ** Reasoning about coroutines *)

Definition swp {S A} (m : stx S A) (Q : S -> res A -> Prop) (s : S) : Prop := Q (m s).1 (m s).2.

Section swp.
Context {S : Type}.
Implicit Types s : S.

Lemma swp_mono {A} (m : stx S A) (Q Q' : S -> res A -> Prop) s : swp m Q s -> (forall s' r, Q s' r -> Q' s' r) -> swp m Q' s.
Proof. unfold swp. auto. Qed.
Lemma swp_ret {A} (a : A) Q s : Q s (Ok a) -> swp (sret a) Q s.
Proof. done. Qed.
Lemma swp_throw {A} e (Q : S -> res A -> Prop) s : Q s (Raise e) -> swp (sthrow e) Q s.
Proof. done. Qed.
Lemma swp_get Q s : Q s (Ok s) -> swp sget Q s.
Proof. done. Qed.
Lemma swp_mod f Q s : Q (f s) (Ok tt) -> swp (smod f) Q s.
Proof. done. Qed.
Lemma swp_bind {A B} (m : stx S A) (f : A -> stx S B) Q s :
  swp m (fun s r => match r with Ok a => swp (f a) Q s | Raise e => Q s (Raise e) end) s -> swp (m ≫= f) Q s.
Proof. unfold swp, mbind, stx_bind, sbind. by destruct (m s) as [s' [a|e]]. Qed.
Lemma swp_raise_if b e Q s : (b = true -> Q s (Raise e)) -> (b = false -> Q s (Ok tt)) -> swp (sraise_if b e) Q s.
Proof. destruct b; unfold swp; simpl; auto. Qed.
Lemma swp_when b (m : stx S unit) Q s : (b = true -> swp m Q s) -> (b = false -> Q s (Ok tt)) -> swp (swhen b m) Q s.
Proof. destruct b; unfold swp; simpl; auto. Qed.
Lemma swp_finally {A} (m : stx S A) fin Q s :
  swp m (fun s r => swp fin (fun s' r' => match r' with Ok _ => Q s' r | Raise e => Q s' (Raise e) end) s) s -> swp (sfinally m fin) Q s.
Proof. unfold swp, sfinally. destruct (m s) as [s1 r]. simpl. by destruct (fin s1) as [s2 [u|e]]. Qed.
Lemma swp_on_error {A} (m : stx S A) h Q s :
  swp m (fun s r => match r with Ok a => Q s (Ok a) | Raise e => swp h (fun s' r' => match r' with Ok _ => Q s' (Raise e) |
  Raise e' => Q s' (Raise e') end) s end) s -> swp (son_error m h) Q s.
Proof. unfold swp, son_error. destruct (m s) as [s1 [a|e]]; [done|]. simpl. by destruct (h s1) as [s2 [u|e']]. Qed.
End swp.

Lemma swp_bind_inv {S A B} (m : stx S A) (f : A -> stx S B) Q s : swp (m ≫= f) Q s ->
    swp m (fun s r => match r with Ok a => swp (f a) Q s | Raise e => Q s (Raise e) end) s.
Proof. unfold swp, mbind, stx_bind, sbind. by destruct (m s) as [s' [a|e]]. Qed.

Create HintDb stx.
#[export] Hint Resolve swp_ret swp_throw swp_get swp_mod : stx.
