(* ===== verification/ReplicaPool.v ===== *)
(** * The replica pool

    Source: [src/arctic_platform/inference/server/replica_pool.py], the life cycle of a worker in
    [src/arctic_platform/inference/server/worker.py].

    A pool owns the workers of a model and the scheduler that sends requests to them.  It puts
    the workers to sleep and wakes them, gives them new weights while the scheduler is paused or
    the workers are marked unavailable, adds and removes workers, and numbers the workers of a
    node (their ports and image directories).

    The scheduler is seen through [view]: whether it is paused, and for every worker whether it
    is available and whether it is quarantined; [view_of] relates it to [Scheduler].  The
    operations below hold the pool's lock, so one runs at a time, except [initialize], [shutdown]
    and [_restart_worker], which take no lock; what happens while one of them waits is an argument of it: whether each remote call arrives
    and whether the engine does its
    part ([fate]), whether the wait is cancelled, which workers are quarantined meanwhile.  Weights
    of a worker are a version, unknown ([None]) after a load that failed.

    [sleep] and [wake_up] look at the pool before they wait for the lock; [sleep_locked] and
    [wake_up_locked] are what they do once they have it, so that these checks may be out of date.
    [pool_step] has whole calls one at a time; [pool_op] lists what can happen between an
    [initialize] that returned and the call of [shutdown] (a life of the pool).  Ray, vLLM, timeouts,
    log messages and the contents of responses are not modelled. *)

From stdpp Require Import prelude strings list gmap.
From Stdlib Require Import ZArith Lia.
From S2P Require Import Prelude Coroutine Scheduler.
Local Open Scope nat_scope.

Definition CancelledError : exn := ErrorWithIds "CancelledError" [].

(** ** Workers *)

Inductive WorkerLifecycleState := UNINITIALIZED | READY | SLEEPING | WEIGHTS_READY.
#[export] Instance lifecycle_eq_dec : EqDecision WorkerLifecycleState.
Proof. solve_decision. Defined.

Record worker := Worker {
  w_id : nat;                        (* the actor *)
  w_node : option string;            (* what [get_node_id] answers *)
  w_state : WorkerLifecycleState;
  w_generation_paused : bool;
  w_version : option nat;            (* the weights it has loaded *)
}.

Definition with_state (st : WorkerLifecycleState) (w : worker) : worker := Worker (w_id w) (w_node w) st (w_generation_paused w) (w_version w).
Definition with_generation (paused : bool) (w : worker) : worker := Worker (w_id w) (w_node w) (w_state w) paused (w_version w).
Definition with_version (v : option nat) (w : worker) : worker := Worker (w_id w) (w_node w) (w_state w) (w_generation_paused w) v.

(** The answer of a remote call: a value (and whether its status is an error), or an exception. *)
Inductive answer := Answer (failed : bool) (reset_ok : bool) | Threw.

(** A remote call is lost, or runs and the engine does or does not do its part. *)
Inductive fate := Lost | Runs (engine_ok : bool).

Definition normalize_wake_tags (tags : option (list string)) : option (gset string) := list_to_set <$> tags.
Definition is_full_wake (tags : option (list string)) : bool := match normalize_wake_tags tags with None => true |
    Some s => bool_decide ("weights" ∈ s /\ "kv_cache" ∈ s) end.
Definition is_weights_only_wake (tags : option (list string)) : bool := bool_decide (normalize_wake_tags tags = Some {["weights"]}).
Definition is_kv_only_wake (tags : option (list string)) : bool := bool_decide (normalize_wake_tags tags = Some {["kv_cache"]}).

Abbreviation remote_call := (worker -> bool -> worker * answer).

(** [InferenceWorker.sleep], [wake_up], [pause_generation], [resume_generation], [reset_prefix_cache], [sync_weights]. *)
Definition w_sleep : remote_call := fun w ok =>
  match w_state w with READY | WEIGHTS_READY => if ok then (with_state SLEEPING w, Answer false false) else (w, Threw) | _ => (w, Threw) end.
Definition wake_collective (target : WorkerLifecycleState) : remote_call := fun w ok => if ok then (with_state target w,
    Answer false false) else (w, Threw).
Definition w_wake_up (tags : option (list string)) : remote_call := fun w ok =>
  match w_state w with
  | READY => (w, Answer false false)
  | WEIGHTS_READY =>
      if is_weights_only_wake tags then (w, Answer false false)
      else if negb (is_kv_only_wake tags || is_full_wake tags) then (w, Threw)
      else wake_collective READY w ok
  | SLEEPING =>
      if is_kv_only_wake tags then (w, Threw)
      else wake_collective (if is_full_wake tags then READY else WEIGHTS_READY) w ok
  | UNINITIALIZED => (w, Threw)
  end.
Definition w_pause_generation : remote_call := fun w ok => match w_state w with READY => if ok then (with_generation true w,
    Answer false false) else (w, Threw) | _ => (w, Answer false false) end.
Definition w_resume_generation : remote_call := fun w ok => match w_state w with READY => if ok then (with_generation false w,
    Answer false false) else (w, Threw) | _ => (w, Answer false false) end.
Definition w_reset_prefix_cache : remote_call := fun w ok => match w_state w with READY => (w, Answer false ok) | _ => (w, Answer false false) end.
Definition w_sync_weights (v : nat) : remote_call := fun w ok => if ok then (with_version (Some v) w,
    Answer false false) else (with_version None w, Threw).

Definition call_remote (op : remote_call) (w : worker) (f : fate) : worker * answer := match f with Lost => (w, Threw) | Runs ok => op w ok end.

(** What happens while the pool waits: the fates of the calls, a cancellation, quarantined workers. *)
Record waiting := Waiting { fates : list fate; cancelled : bool; quarantines : list nat }.
Definition fate_of (g : waiting) (i : nat) : fate := default Lost (fates g !! i).
Definition called (op : remote_call) (g : waiting) (ws : list worker) : list (worker * answer) := imap (fun i w => call_remote op w (fate_of g i)) ws.

(** [_worker_result_failed], [_failed_worker_indices]. *)
Definition worker_result_failed (a : answer) : bool := match a with Threw => true | Answer failed _ => failed end.
Definition failed_worker_indices (rs : list answer) : list nat := concat (imap (fun i a => if worker_result_failed a then [i] else []) rs).
Definition is_exception (a : answer) : bool := match a with Threw => true | _ => false end.
Definition answered_reset_ok (a : answer) : bool := match a with Answer _ ok => ok | Threw => false end.

(** ** The scheduler as the pool sees it *)

Record flags := Flags { f_available : bool; f_quarantined : bool }.
Record view := View { v_paused : bool; v_workers : list flags }.

Definition v_schedulable (f : flags) : bool := f_available f && negb (f_quarantined f).
Definition v_pause (v : view) : view := View true (v_workers v).
Definition v_resume (v : view) : view := View false (v_workers v).
Definition v_unavailable (i : nat) (v : view) : view := View (v_paused v) (alter (fun f => Flags false (f_quarantined f)) i (v_workers v)).
Definition v_mark_available (i : nat) (v : view) : view := View (v_paused v) (alter (fun f => Flags (negb (f_quarantined f)) (f_quarantined
    f)) i (v_workers v)).
Definition v_quarantine (i : nat) (v : view) : view := View (v_paused v) (alter (fun f => Flags false true) i (v_workers v)).
Definition v_add (v : view) : view := View (v_paused v) (v_workers v ++ [Flags true false]).
Definition v_remove_last (v : view) : view := View (v_paused v) (take (length (v_workers v) - 1) (v_workers v)).
Definition v_replace (i : nat) (v : view) : view := View (v_paused v) (alter (fun f => Flags (f_available f) false) i (v_workers v)).
Definition is_worker_available (i : nat) (v : view) : bool := match v_workers v !! i with Some f => v_schedulable f | None => false end.

Definition view_of (s : sched) : view := View (sc_paused s) ((fun w => Flags (available w) (quarantined w)) <$> sc_workers s).

(** ** The pool *)

Record pool := Pool {
  p_configured : bool;
  p_clear_cache_on_sync : bool;      (* of the configuration *)
  p_multi_node : bool;               (* a placement group was given *)
  p_model_id : option string;
  p_workers : list worker;
  p_slots : list (option string * nat);
  p_scheduler : option view;
  p_stream_admission_blocked : bool;
  p_stop_monitoring : bool;
  p_updating_workers : list nat;
  p_sleeping : bool;
  p_weights_staged : bool;
  p_actors : nat;                    (* actors made so far *)
}.

Definition set_workers (ws : list worker) (p : pool) : pool := Pool (p_configured p) (p_clear_cache_on_sync p) (p_multi_node p) (p_model_id
    p) ws (p_slots p) (p_scheduler p) (p_stream_admission_blocked p) (p_stop_monitoring p) (p_updating_workers p) (p_sleeping p)
    (p_weights_staged p) (p_actors p).
Definition set_pool_slots (ss : list (option string * nat)) (p : pool) : pool := Pool (p_configured p) (p_clear_cache_on_sync p)
    (p_multi_node p) (p_model_id p) (p_workers p) ss (p_scheduler p) (p_stream_admission_blocked p) (p_stop_monitoring p)
    (p_updating_workers p) (p_sleeping p) (p_weights_staged p) (p_actors p).
Definition set_scheduler (v : option view) (p : pool) : pool := Pool (p_configured p) (p_clear_cache_on_sync p) (p_multi_node p) (p_model_id
    p) (p_workers p) (p_slots p) v (p_stream_admission_blocked p) (p_stop_monitoring p) (p_updating_workers p) (p_sleeping p)
    (p_weights_staged p) (p_actors p).
Definition set_blocked (b : bool) (p : pool) : pool := Pool (p_configured p) (p_clear_cache_on_sync p) (p_multi_node p) (p_model_id p)
    (p_workers p) (p_slots p) (p_scheduler p) b (p_stop_monitoring p) (p_updating_workers p) (p_sleeping p) (p_weights_staged p) (p_actors
    p).
Definition set_stop (b : bool) (p : pool) : pool := Pool (p_configured p) (p_clear_cache_on_sync p) (p_multi_node p) (p_model_id p)
    (p_workers p) (p_slots p) (p_scheduler p) (p_stream_admission_blocked p) b (p_updating_workers p) (p_sleeping p) (p_weights_staged p)
    (p_actors p).
Definition set_updating (l : list nat) (p : pool) : pool := Pool (p_configured p) (p_clear_cache_on_sync p) (p_multi_node p) (p_model_id p)
    (p_workers p) (p_slots p) (p_scheduler p) (p_stream_admission_blocked p) (p_stop_monitoring p) l (p_sleeping p) (p_weights_staged p)
    (p_actors p).
Definition set_sleep (sleeping staged : bool) (p : pool) : pool := Pool (p_configured p) (p_clear_cache_on_sync p) (p_multi_node p)
    (p_model_id p) (p_workers p) (p_slots p) (p_scheduler p) (p_stream_admission_blocked p) (p_stop_monitoring p) (p_updating_workers p)
    sleeping staged (p_actors p).
Definition set_actors (n : nat) (p : pool) : pool := Pool (p_configured p) (p_clear_cache_on_sync p) (p_multi_node p) (p_model_id p)
    (p_workers p) (p_slots p) (p_scheduler p) (p_stream_admission_blocked p) (p_stop_monitoring p) (p_updating_workers p) (p_sleeping p)
    (p_weights_staged p) n.

Definition pool_new : pool := Pool false true false None [] [] None false false [] false false 0.

Abbreviation pm := (stx pool).

Definition on_scheduler (f : view -> view) : pm unit := smod (fun p => set_scheduler (f <$> p_scheduler p) p).
Definition scheduler_paused (p : pool) : bool := match p_scheduler p with Some v => v_paused v | None => false end.
Definition worker_available (p : pool) (i : nat) : bool := match p_scheduler p with Some v => is_worker_available i v | None => false end.

Definition quarantine_all (qs : list nat) : pm unit := on_scheduler (fun v => foldr v_quarantine v qs).

(** A wait for the scheduler ([abort_streams], [drain], [drain_worker]): it may fail or be cancelled. *)
Record pause_point := Point { pt_error : option exn; pt_quarantines : list nat }.
Definition wait_for (pt : pause_point) : pm unit := quarantine_all (pt_quarantines pt);; match pt_error pt with None => sret tt |
    Some e => sthrow e end.

(** [await asyncio.gather( *[w.op.remote() for w in self._workers], return_exceptions=True)]. *)
Definition gather (op : remote_call) (g : waiting) : pm (list answer) :=
  p ← sget;
  let rs := called op g (p_workers p) in
  smod (set_workers rs.*1);; quarantine_all (quarantines g);;
  if cancelled g then sthrow CancelledError else sret rs.*2.

Definition check_model_id (model_id : option string) : pm unit :=
  p ← sget;
  match model_id, p_model_id p with Some m, Some m' => sraise_if (negb (String.eqb m m')) (ValueError "model_id mismatch") | _, _ => sret tt end.
Definition require_initialized : pm unit := p ← sget; sraise_if (bool_decide (p_scheduler p = None)) (RuntimeError "ReplicaPool not initialized").

(** [_stream_lifecycle], with the lock held. *)
Definition stream_lifecycle {A} (m : pm A) : pm A := smod (set_blocked true);; sfinally m (smod (set_blocked false)).

(** The checks of [stream_generate] and of [submit_generate_futures]. *)
Definition stream_generate_check (model_id : option string) : pm unit :=
  check_model_id model_id;; p ← sget;
  sraise_if (bool_decide (p_scheduler p = None) || p_stop_monitoring p || p_sleeping p ||
  p_stream_admission_blocked p) (RuntimeError "ReplicaPool is not available for streaming").
Definition submit_check : pm unit := require_initialized;; p ← sget; sraise_if (p_sleeping p) (RuntimeError "Model is sleeping; call /wake_up first").

(** ** Sleep and wake *)

Inductive status := Already | Sleeping | Ready | WeightsReady.

(** The part of [sleep] that holds the lock; it does not look again at what was checked before. *)
Definition sleep_locked (abort drained : pause_point) (calls : waiting) : pm status :=
  stream_lifecycle (
    p ← sget;
    let scheduler_was_paused := scheduler_paused p in
    on_scheduler v_pause;;
    son_error (wait_for abort;; wait_for drained) (swhen (negb scheduler_was_paused) (on_scheduler v_resume));;
    _ ← gather w_sleep calls;
    smod (set_sleep true false);;
    sret Sleeping).

Definition sleep (model_id : option string) (abort drained : pause_point) (calls : waiting) : pm status :=
  check_model_id model_id;; require_initialized;; p ← sget;
  if p_sleeping p && negb (p_weights_staged p) then sret Already else sleep_locked abort drained calls.

Definition wake_finalize (tags : option (list string)) : bool := match tags with None => true | Some l => bool_decide ("kv_cache" ∈ l) end.

(** The part of [wake_up] that holds the lock. *)
Definition wake_up_locked (tags : option (list string)) (calls : waiting) : pm status :=
  stream_lifecycle (
    rs ← gather (w_wake_up tags) calls;
    sraise_if (existsb is_exception rs) (RuntimeError "wake_up failed");;
    if wake_finalize tags then smod (set_sleep false false);; on_scheduler v_resume;; sret Ready
    else smod (fun p => set_sleep (p_sleeping p) true p);; sret WeightsReady).

Definition wake_up (model_id : option string) (tags : option (list string)) (calls : waiting) : pm status :=
  check_model_id model_id;; require_initialized;; p ← sget;
  if negb (p_sleeping p) then sret Already else wake_up_locked tags calls.

(** ** Prefix cache *)

Definition reset_prefix_cache (model_id : option string) (drain : bool) (drained : pause_point) (calls : waiting) : pm bool :=
  check_model_id model_id;; require_initialized;;
  stream_lifecycle (
    swhen drain (on_scheduler v_pause;; wait_for drained);;
    rs ← sfinally (gather w_reset_prefix_cache calls) (swhen drain (on_scheduler v_resume));
    sret (forallb answered_reset_ok rs)).

(** ** Weight synchronisation *)

Inductive strategy := Pause | Drain | Skip | Hotswap.
Inductive pause_mode := Keep | Abort.
#[export] Instance strategy_eq_dec : EqDecision strategy.
Proof. solve_decision. Defined.
#[export] Instance pause_mode_eq_dec : EqDecision pause_mode.
Proof. solve_decision. Defined.

Definition strategy_of (s : string) : res strategy :=
  if String.eqb s "pause" then Ok Pause else if String.eqb s "drain" then Ok Drain else if String.eqb s "skip" then Ok Skip else if
    String.eqb s "hotswap" then Ok Hotswap else Raise (ValueError "Unknown strategy").
Definition pause_mode_of (s : string) : res pause_mode := if String.eqb s "keep" then Ok Keep else if String.eqb s "abort" then Ok Abort
    else Raise (ValueError "Unknown pause_mode").

(** What happens during a synchronisation. *)
Record sync_events := SyncEvents {
  e_abort : pause_point;
  e_pause : waiting;
  e_unpause : waiting;               (* the calls that undo a pause that failed *)
  e_drain : pause_point;
  e_update : waiting;
  e_reset : waiting;
  e_resume : waiting;
}.

(** [_pause_generation_for_weight_sync], [_resume_generation_after_weight_sync], [_reset_prefix_cache_after_weight_sync]. *)
Definition pause_generation_for_weight_sync (ev : sync_events) (mode : pause_mode) (clear_cache : bool) : pm bool :=
  p ← sget;
  let clear_cache := clear_cache || (p_clear_cache_on_sync p && bool_decide (mode = Keep)) in
  rs ← gather w_pause_generation (e_pause ev);
  if existsb worker_result_failed rs then _ ← gather w_resume_generation (e_unpause ev); sthrow (RuntimeError "Failed to pause inference workers")
  else sret clear_cache.
Definition resume_generation_after_weight_sync (ev : sync_events) : pm unit :=
  rs ← gather w_resume_generation (e_resume ev);
  sraise_if (existsb worker_result_failed rs) (RuntimeError "Failed to resume inference workers").
Definition reset_prefix_cache_after_weight_sync (ev : sync_events) (require_success : bool) : pm unit :=
  rs ← gather w_reset_prefix_cache (e_reset ev);
  sraise_if (require_success && negb (forallb answered_reset_ok rs)) (RuntimeError "Prefix-cache reset failed after weight sync").

(** The variables that the [finally] block reads. *)
Record locals := Locals { l_scheduler_paused : bool; l_skipped : bool; l_generation_paused : bool; l_started : bool; l_succeeded : bool }.
Definition locals_new : locals := Locals false false false false false.

(** Code with local variables. *)
Definition lift_pool {A} (m : pm A) : stx (pool * locals) A := fun s => let '(p, r) := m s.1 in ((p, s.2), r).
Definition set_local (f : locals -> locals) : stx (pool * locals) unit := smod (fun s => (s.1, f s.2)).

(** How the new weights are sent: [None] for a broadcast; for point-to-point transfers the replicas that the groups cover. *)
Definition first_unassigned (groups : option (list nat)) (n : nat) : option nat :=
  match groups with None => None | Some covered => head (filter (fun i => i ∉ covered) (seq 0 n)) end.

(** The calls for the workers before the first one without a group are on their way when the exception is raised. *)
Definition send_before (v : nat) (g : waiting) (i : nat) : pm unit :=
  smod (fun p => set_workers ((called (w_sync_weights v) g (take i (p_workers p))).*1 ++ drop i (p_workers p)) p).

Definition update_weights (v : nat) (groups : option (list nat)) (ev : sync_events) : stx (pool * locals) unit :=
  s ← sget;
  let n := length (p_workers s.1) in
  lift_pool (smod (set_updating (seq 0 n)));;
  match first_unassigned groups n with
  | Some i =>
      swhen (0 <? i) (set_local (fun l => Locals (l_scheduler_paused l) (l_skipped l) (l_generation_paused l) true (l_succeeded l)));;
      lift_pool (send_before v (e_update ev) i);;
      sthrow (RuntimeError "Replica not assigned to any group")
  | None =>
      swhen (bool_decide (groups = None) || (0 <? n)) (set_local (fun l => Locals (l_scheduler_paused l) (l_skipped l) (l_generation_paused
      l) true (l_succeeded l)));;
      rs ← lift_pool (gather (w_sync_weights v) (e_update ev));
      sraise_if (existsb worker_result_failed rs) (RuntimeError "Weight sync failed")
  end.

Definition mark_all_unavailable (n : nat) : pm unit := on_scheduler (fun v => foldr v_unavailable v (seq 0 n)).
Definition mark_available (l : list nat) : pm unit := on_scheduler (fun v => foldr v_mark_available v l).

(** The [try] block of [sync_weights] and of [_run_broadcast_weight_sync]. *)
Definition sync_body (st : strategy) (mode : pause_mode) (clear_cache : bool) (v : nat) (groups : option (list nat)) (ev : sync_events) :
    stx (pool * locals) unit :=
  s ← sget;
  let n := length (p_workers s.1) in
  match st with
  | Pause | Drain => lift_pool (on_scheduler v_pause);; set_local (fun l => Locals true (l_skipped l) (l_generation_paused l) (l_started l)
    (l_succeeded l))
  | Skip => set_local (fun l => Locals (l_scheduler_paused l) true (l_generation_paused l) (l_started l) (l_succeeded l));;
    lift_pool (mark_all_unavailable n)
  | Hotswap => sret tt
  end;;
  lift_pool (wait_for (e_abort ev));;
  match st with
  | Pause =>
      _ ← lift_pool (pause_generation_for_weight_sync ev mode clear_cache);
      set_local (fun l => Locals (l_scheduler_paused l) (l_skipped l) true (l_started l) (l_succeeded l));;
      swhen (bool_decide (mode = Abort)) (lift_pool (wait_for (e_drain ev)))
  | Drain => lift_pool (wait_for (e_drain ev))
  | Skip | Hotswap => sret tt
  end;;
  update_weights v groups ev;;
  swhen (bool_decide (st = Pause)) (lift_pool (reset_prefix_cache_after_weight_sync ev (bool_decide (mode = Abort))));;
  set_local (fun l => Locals (l_scheduler_paused l) (l_skipped l) (l_generation_paused l) (l_started l) true).

(** Its [finally] block. *)
Definition sync_finally (st : strategy) (scheduler_was_paused : bool) (available_workers : list nat) (ev : sync_events) : stx (pool * locals) unit :=
  lift_pool (smod (set_updating []));; s ← sget;
  let l := s.2 in
  let can_restore_scheduling := l_succeeded l || negb (l_started l) in
  (if bool_decide (st = Pause) then
    swhen (l_generation_paused l && l_succeeded l) (lift_pool (resume_generation_after_weight_sync ev));;
    swhen (l_scheduler_paused l && (l_succeeded l || negb (l_generation_paused l)) && negb scheduler_was_paused) (lift_pool (on_scheduler v_resume))
  else swhen (l_scheduler_paused l && can_restore_scheduling && negb scheduler_was_paused) (lift_pool (on_scheduler v_resume)));;
  swhen (l_skipped l && can_restore_scheduling) (lift_pool (mark_available available_workers)).

Definition without_locals {A} (m : stx (pool * locals) A) : pm A := fun p => let '((p, _), r) := m (p, locals_new) in (p, r).

(** [sync_weights] with its groups, and [_run_broadcast_weight_sync] without. *)
Definition weight_sync (model_id : option string) (st mode : string) (clear_cache engine_only : bool) (v : nat) (groups : option (list nat))
    (ev : sync_events) : pm unit :=
  match strategy_of st, pause_mode_of mode with
  | Ok st, Ok mode =>
      check_model_id model_id;; require_initialized;;
      let st := if engine_only then Hotswap else st in
      stream_lifecycle (
        p ← sget;
        let scheduler_was_paused := scheduler_paused p in
        let available_workers := filter (fun i => worker_available p i = true) (seq 0 (length (p_workers p))) in
        without_locals (sfinally (sync_body st mode clear_cache v groups ev) (sync_finally st scheduler_was_paused available_workers ev)))
  | Raise e, _ | _, Raise e => sthrow e
  end.

(** [sync_weights]: without groups, all replicas are one if the address of the master is given. *)
Definition sync_weights (model_id : option string) (st mode : string) (clear_cache engine_only : bool) (v : nat) (groups : option (list
    nat)) (master : bool) (ev : sync_events) : pm unit :=
  p ← sget;
  match groups with
  | Some groups => weight_sync model_id st mode clear_cache engine_only v (Some groups) ev
  | None =>
      if master then weight_sync model_id st mode clear_cache engine_only v (Some (seq 0 (length (p_workers p)))) ev
      else
        match strategy_of st, pause_mode_of mode with
        | Ok _, Ok _ => check_model_id model_id;; require_initialized;; sthrow (ValueError "Provide either 'groups' or legacy flat fields")
        | Raise e, _ | _, Raise e => sthrow e
        end
  end.
Definition sync_weights_broadcast (model_id : option string) (st mode : string) (clear_cache engine_only : bool) (v : nat) (ev :
    sync_events) : pm unit :=
  weight_sync model_id st mode clear_cache engine_only v None ev.

(** [sync_spec_weights]: the weights of the draft model, which [w_version] does not count. *)
Definition sync_spec_weights (model_id : option string) (st : strategy) (groups : list nat) (abort drained : pause_point) (update : waiting)
    : pm unit :=
  check_model_id model_id;; require_initialized;;
  stream_lifecycle (
    p ← sget;
    let n := length (p_workers p) in
    let scheduler_was_paused := scheduler_paused p in
    let available_workers := filter (fun i => worker_available p i = true) (seq 0 n) in
    let restore := match st with Drain => swhen (negb scheduler_was_paused) (on_scheduler v_resume) |
      Skip => mark_available available_workers | _ => sret tt end in
    match st with Drain => on_scheduler v_pause | Skip => mark_all_unavailable n | Hotswap => sret tt |
      Pause => sthrow (ValueError "Unknown strategy") end;;
    son_error (wait_for abort;; swhen (bool_decide (st = Drain)) (wait_for drained)) restore;;
    match first_unassigned (Some groups) n with
    | Some _ => sthrow (RuntimeError "Replica not assigned to any group")
    | None => _ ← gather (fun w ok => (w, Answer false false)) update; restore
    end).

(** ** Slots *)

(** [_node_slots]: the running numbers within each node, with the number of workers of the node. *)
Fixpoint count_before (seen : list (option string)) (nodes : list (option string)) : list nat :=
  match nodes with [] => [] | n :: nodes => length (filter (fun m => m = n) seen) :: count_before (seen ++ [n]) nodes end.
Definition node_slots (nodes : list (option string)) : list (nat * nat) := zip_with (fun slot node => (slot,
    length (filter (fun m => m = node) nodes))) (count_before [] nodes) nodes.

(** [_free_slot]: one of the first [length taken + 1] numbers is free. *)
Fixpoint lowest_free (fuel : nat) (taken : list nat) (slot : nat) : nat :=
  match fuel with O => slot | S fuel => if bool_decide (slot ∈ taken) then lowest_free fuel taken (S slot) else slot end.
Definition free_slot (taken : list nat) (preferred : option nat) : nat :=
  match preferred with
  | Some s => if bool_decide (s ∉ taken) then s else lowest_free (S (length taken)) taken 0
  | None => lowest_free (S (length taken)) taken 0
  end.

(** [_place_new_worker]. *)
Definition taken_slots (slots : list (option string * nat)) (node : option string) (replacing : option nat) : list nat :=
  concat (imap (fun i os => if bool_decide (os.1 = node) && negb (bool_decide (replacing = Some i)) then [os.2] else []) slots).
Definition place_new_worker (p : pool) (w : worker) (preferred replacing : option nat) : option string * nat * nat :=
  let node := if p_multi_node p then None else w_node w in
  let taken := taken_slots (p_slots p) node replacing in
  (node, free_slot taken preferred, length (remove_dups taken) + 1).

(** [VLLM_PORT] of a worker; the two settings are at least 1. *)
Definition vllm_port (port_base port_stride : Z) (slot : nat) : Z := (port_base + Z.of_nat slot * port_stride)%Z.

(** ** Scaling *)

(** A new actor: its node, the weights of the checkpoint, and whether its initialization raises. *)
Record birth := Birth { b_node : option string; b_version : nat; b_error : option exn }.

Definition make_worker (b : birth) : pm worker :=
  p ← sget; smod (set_actors (S (p_actors p)));; sret (Worker (p_actors p) (b_node b) UNINITIALIZED false None).
Definition initialized (b : birth) (w : worker) : worker := Worker (w_id w) (w_node w) READY false (Some (b_version b)).

(** One turn of the loop of [scale_down]. *)
Definition remove_worker (pts : pause_point * pause_point) : pm unit :=
  p ← sget;
  on_scheduler (v_unavailable (length (p_workers p) - 1));;
  sfinally (wait_for pts.1;; wait_for pts.2)
    (smod (fun p => set_workers (take (length (p_workers p) - 1) (p_workers p)) p);;
     smod (fun p => if length (p_workers p) <? length (p_slots p) then set_pool_slots (take (length (p_slots p) - 1) (p_slots p)) p else p);;
     on_scheduler v_remove_last).
Fixpoint remove_workers (n : nat) (pts : list (pause_point * pause_point)) : pm unit :=
  match n with O => sret tt | S n => remove_worker (default (Point None [], Point None []) (head pts));; remove_workers n (tail pts) end.

Definition scale_down (target_count : Z) (pts : list (pause_point * pause_point)) : pm unit :=
  sraise_if (target_count <? 0)%Z (ValueError "target_count must be >= 0");; p ← sget;
  sraise_if (p_multi_node p && negb (target_count =? 1)%Z) (ValueError "placement-group-backed pools must contain exactly one replica");;
  require_initialized;;
  stream_lifecycle (p ← sget; remove_workers (length (p_workers p) - Z.to_nat target_count) pts).

(** One turn of the loop of [scale_up]; a failed initialization kills the actor and raises. *)
Definition add_new_worker (b : birth) : pm unit :=
  w ← make_worker b; p ← sget;
  let '(node, slot, _) := place_new_worker p w None None in
  match b_error b with
  | Some e => sthrow e
  | None => smod (fun p => set_workers (p_workers p ++ [initialized b w]) p);; smod (fun p => set_pool_slots (p_slots p ++ [(node,
    slot)]) p);; on_scheduler v_add
  end.
Fixpoint add_workers (bs : list birth) : pm unit := match bs with [] => sret tt | b :: bs => add_new_worker b;; add_workers bs end.

(** The actors that are made are numbered; [births] says what becomes of each. *)
Definition scale_up (target_count : Z) (births : nat -> birth) : pm unit :=
  p ← sget;
  sraise_if (p_multi_node p && negb (target_count =? 1)%Z) (ValueError "placement-group-backed pools must contain exactly one replica");;
  require_initialized;;
  let n := length (p_workers p) in add_workers (births <$> seq n (Z.to_nat target_count - n)).

(** ** Life of the pool *)

(** The arguments of [initialize] that decide the number of replicas, and that number. *)
Record layout := Layout {
  placement_group : bool;
  num_replicas : option Z;
  total_gpus : Z;                    (* what [ensure_ray] answers *)
  world_size : Z;
  bundle_indices : option nat;       (* their number *)
  placement_groups : option nat;
}.
Definition replica_count (ly : layout) : res Z :=
  n ← (if placement_group ly then Ok 1%Z
       else match num_replicas ly with
            | Some n => Ok n
            | None => let n := (total_gpus ly `div` world_size ly)%Z in if (n =? 0)%Z then Raise (RuntimeError "Not enough GPUs") else Ok n
            end);
  match bundle_indices ly with Some k => check (Z.of_nat k =? n)%Z (ValueError "bundle_indices length must match num_replicas") | None => Ok tt end;;
  match placement_groups ly with Some k => check ((Z.of_nat k =? 1) ||
    (Z.of_nat k =? n))%Z (ValueError "placement_groups length must be either 1 or num_replicas") | None => Ok tt end;;
  Ok n.

Definition reset_lifecycle_state : pm unit :=
  smod (fun p => Pool false (p_clear_cache_on_sync p) false None [] []
  (p_scheduler p) (p_stream_admission_blocked p) (p_stop_monitoring p) (p_updating_workers p) false false (p_actors p)).

(** The first of the exceptions of the initializations; the loop over no worker has a step of 0. *)
Definition first_error (bs : list birth) : option exn := match bs with [] => Some (ValueError "range() arg 3 must not be zero") |
    _ => head (omap b_error bs) end.
Fixpoint make_workers (bs : list birth) : pm (list worker) := match bs with [] => sret [] | b :: bs => w ← make_worker b;
    ws ← make_workers bs; sret (w :: ws) end.

Definition initialize_workers (placement_group : bool) (births : list birth) : pm unit :=
  ws ← make_workers births;
  let nodes := if placement_group then (fun _ => None) <$> births else b_node <$> births in
  smod (set_workers ws);;
  smod (set_pool_slots (zip nodes (node_slots nodes).*1));;
  match first_error births with
  | Some e => sthrow e
  | None => smod (set_workers (zip_with initialized births ws))
  end.

(** [initialize], after the checks of the arguments that precede [self._config = config]. *)
Definition initialize (model_id : option string) (clear_cache_on_sync : bool) (ly : layout) (births : nat -> birth) : pm nat :=
  p ← sget;
  sraise_if (p_configured p) (RuntimeError "Already initialized. Call shutdown() first.");;
  smod (fun p => Pool true clear_cache_on_sync (placement_group ly) model_id (p_workers p) (p_slots p) (p_scheduler p)
  (p_stream_admission_blocked p) (p_stop_monitoring p) (p_updating_workers p) (p_sleeping p) (p_weights_staged p) (p_actors p));;
  match replica_count ly with
  | Raise e => sthrow e
  | Ok n =>
      let bs := births <$> seq 0 (Z.to_nat n) in
      son_error (initialize_workers (placement_group ly) bs) reset_lifecycle_state;;
      smod (set_scheduler (Some (View false (replicate (length bs) (Flags true false)))));;
      smod (set_stop false);;
      sret (length bs)
  end.

(** [shutdown]: the scheduler may raise; the workers are killed and the state is reset in any case. *)
Definition shutdown (model_id : option string) (scheduler_error : option exn) : pm unit :=
  check_model_id model_id;;
  smod (set_stop true);;
  p ← sget;
  sfinally (match p_scheduler p, scheduler_error with Some _, Some e => sthrow e | _, _ => sret tt end) (smod (set_scheduler None);;
  reset_lifecycle_state).

(** [_restart_placement_worker]: attempts until one succeeds, the wait is cancelled or the deadline has passed (after the last one of the list). *)
Fixpoint restart_placement_worker (attempts : list birth) : pm worker :=
  match attempts with
  | [] => sthrow (RuntimeError "restart deadline")
  | b :: attempts =>
      w ← make_worker b;
      match b_error b with
      | None => sret (initialized b w)
      | Some e => if bool_decide (e = CancelledError) || bool_decide (attempts = []) then sthrow e else restart_placement_worker attempts
      end
  end.

(** [_restart_worker]; a pool on one node makes the first attempt only. *)
Definition restart_worker (idx : nat) (attempts : list birth) : pm unit :=
  p ← sget;
  sraise_if (length (p_workers p) <=? idx) (IndexError "list index out of range");;
  on_scheduler (v_unavailable idx);; p ← sget;
  let preferred := match p_slots p !! idx with Some os => os.2 | None => idx end in
  new ← (if p_multi_node p then w ← restart_placement_worker attempts; sret (w, (None, 0))
         else
           let b := default (Birth None 0 (Some CancelledError)) (head attempts) in
           w ← make_worker b;
           p ← sget;
           let '(node, slot, _) := place_new_worker p w (Some preferred) (Some idx) in
           match b_error b with Some e => sthrow e | None => sret (initialized b w, (node, slot)) end);
  smod (fun p => set_workers (<[idx := new.1]> (p_workers p)) p);;
  smod (fun p => set_pool_slots (<[idx := new.2]> (p_slots p)) p);;
  on_scheduler (fun v => v_mark_available idx (v_replace idx v)).

(** ** What the steps keep *)

Lemma called_length op g ws : length (called op g ws) = length ws.
Proof. apply length_imap. Qed.

Lemma called_lookup op g ws i wa : called op g ws !! i = Some wa -> exists w, ws !! i = Some w /\ wa = call_remote op w (fate_of g i).
Proof. unfold called. rewrite list_lookup_imap. destruct (ws !! i) as [w|]; [|done]. intros [= <-]. eauto. Qed.

Lemma called_keeps {B} (f : worker -> B) op g ws : (forall w ok, f (op w ok).1 = f w) -> f <$> (called op g ws).*1 = f <$> ws.
Proof.
  intros Hop. apply list_eq. intros i. rewrite !list_lookup_fmap. unfold called. rewrite list_lookup_imap.
  destruct (ws !! i) as [w|]; [|done]. simpl. destruct (fate_of g i); simpl; [done|]. by rewrite Hop.
Qed.

Lemma called_succeeds (P : worker -> Prop) op g ws :
  (forall w ok, worker_result_failed (op w ok).2 = false -> P (op w ok).1) -> existsb worker_result_failed (called op g ws).*2 = false ->
    Forall P (called op g ws).*1.
Proof.
  intros Hop Hno. apply Forall_lookup. intros i w' Hi. rewrite list_lookup_fmap in Hi.
  destruct (called op g ws !! i) as [wa|] eqn:Ei; [|done]. injection Hi as <-. destruct (called_lookup _ _ _ _ _ Ei) as (w & Hw & ->).
  assert (Hans : worker_result_failed (call_remote op w (fate_of g i)).2 = false).
  { apply not_true_iff_false. intros Ht. apply not_true_iff_false in Hno. apply Hno. apply existsb_exists.
    exists (call_remote op w (fate_of g i)).2. split; [|done]. apply list_elem_of_In, list_elem_of_fmap. eexists. split; [done|].
    by apply list_elem_of_lookup_2 in Ei. }
  unfold call_remote in *. destruct (fate_of g i); [done|]. by apply Hop.
Qed.

(** The view after quarantines: the same pause, fewer workers available. *)
Definition weaker (v v' : view) : Prop := v_paused v' = v_paused v /\ length (v_workers v') = length (v_workers v) /\
    forall i, is_worker_available i v' = true -> is_worker_available i v = true.

Lemma weaker_refl v : weaker v v.
Proof. done. Qed.
Lemma weaker_trans v1 v2 v3 : weaker v1 v2 -> weaker v2 v3 -> weaker v1 v3.
Proof. intros (H1 & H2 & H3) (H4 & H5 & H6). split; [congruence|]. split; [congruence|auto]. Qed.

Lemma available_alter f i j v b : is_worker_available i (View b (alter f j (v_workers v))) = match v_workers v !! i with Some x =>
    v_schedulable (if decide (i = j) then f x else x) | None => false end.
Proof.
  unfold is_worker_available. simpl. destruct (decide (i = j)) as [->|Hne]; [rewrite list_lookup_alter_eq;
  by destruct (v_workers v !! j)|rewrite list_lookup_alter_ne by done; by destruct (v_workers v !! i)].
Qed.

Lemma weaker_alter f j v : (forall x, v_schedulable (f x) = true -> v_schedulable x = true) -> weaker v (View (v_paused v) (alter f j (v_workers v))).
Proof.
  intros Hf. split; [done|]. split; [simpl; by rewrite length_alter|]. intros i. rewrite available_alter. unfold is_worker_available.
  destruct (v_workers v !! i) as [x|]; [|done]. destruct (decide (i = j)); auto.
Qed.

Lemma weaker_quarantine qs v : weaker v (foldr v_quarantine v qs).
Proof. induction qs as [|q qs IH]; [done|]. simpl. eapply weaker_trans; [exact IH|]. apply weaker_alter. done. Qed.

(** Two states that differ only in the workers and, weaker, in the scheduler. *)
Record frame (p p' : pool) : Prop := {
  fr_scheduler : match p_scheduler p, p_scheduler p' with Some v, Some v' => weaker v v' | None, None => True | _, _ => False end;
  fr_ids : length (p_workers p') = length (p_workers p);
  fr_same : p_configured p' = p_configured p /\ p_clear_cache_on_sync p' = p_clear_cache_on_sync p /\ p_multi_node p' = p_multi_node p /\
  p_model_id p' = p_model_id p /\ p_slots p' = p_slots p /\
    p_stop_monitoring p' = p_stop_monitoring p /\ p_sleeping p' = p_sleeping p /\ p_weights_staged p' = p_weights_staged p /\
    p_actors p' = p_actors p;
}.

Lemma frame_refl p : frame p p.
Proof. split; [|done|by split_and!]. destruct (p_scheduler p); [apply weaker_refl|done]. Qed.
Lemma frame_trans p q r : frame p q -> frame q r -> frame p r.
Proof.
  intros [H1 H2 H3] [H4 H5 H6]. split; [|congruence|naive_solver congruence].
  destruct (p_scheduler p), (p_scheduler q), (p_scheduler r); try done. by eapply weaker_trans.
Qed.

Lemma frame_quarantine qs p : frame p (set_scheduler (((fun v => foldr v_quarantine v qs) <$> p_scheduler p)) p).
Proof. split; [|done|by split_and!]. simpl. destruct (p_scheduler p); simpl; [apply weaker_quarantine|done]. Qed.

Lemma swp_wait pt Q p : (forall p', frame p p' -> p_workers p' = p_workers p -> p_updating_workers p' = p_updating_workers p ->
    Q p' (match pt_error pt with None => Ok tt | Some e => Raise e end)) -> swp (wait_for pt) Q p.
Proof.
  intros H. unfold wait_for. apply swp_bind. unfold quarantine_all, on_scheduler. apply swp_mod.
  specialize (H _ (frame_quarantine (pt_quarantines pt) p) eq_refl eq_refl). by destruct (pt_error pt).
Qed.

Lemma swp_gather op g Q p :
  (forall p', frame p p' -> p_workers p' = (called op g (p_workers p)).*1 ->
    Q p' (if cancelled g then Raise CancelledError else Ok (called op g (p_workers p)).*2)) -> swp (gather op g) Q p.
Proof.
  intros H. unfold gather. apply swp_bind, swp_get, swp_bind, swp_mod, swp_bind. unfold quarantine_all, on_scheduler. apply swp_mod.
  assert (Hf : frame p (set_workers (called op g (p_workers p)).*1 p)) by (split; [simpl; destruct (p_scheduler p);
  [apply weaker_refl|done]|simpl; by rewrite length_fmap, called_length|by split_and!]).
  specialize (H _ (frame_trans _ _ _ Hf (frame_quarantine (quarantines g) _)) eq_refl). by destruct (cancelled g).
Qed.

(** ** Weight synchronisation *)

Lemma swp_lift {A} (m : pm A) Q p l : swp m (fun p' r => Q (p', l) r) p -> swp (lift_pool m) Q (p, l).
Proof. unfold swp, lift_pool. simpl. by destruct (m p) as [p' r]. Qed.
Lemma swp_local f Q p l : Q (p, f l) (Ok tt) -> swp (set_local f) Q (p, l).
Proof. done. Qed.

Definition versions (p : pool) : list (option nat) := w_version <$> p_workers p.
Definition states (p : pool) : list WorkerLifecycleState := w_state <$> p_workers p.

Lemma pause_keeps w ok : w_state (w_pause_generation w ok).1 = w_state w /\ w_version (w_pause_generation w ok).1 = w_version w.
Proof. unfold w_pause_generation. destruct (w_state w) eqn:E, ok; simpl; by rewrite ?E. Qed.
Lemma resume_keeps w ok : w_state (w_resume_generation w ok).1 = w_state w /\ w_version (w_resume_generation w ok).1 = w_version w.
Proof. unfold w_resume_generation. destruct (w_state w) eqn:E, ok; simpl; by rewrite ?E. Qed.
Lemma reset_keeps w ok : (w_reset_prefix_cache w ok).1 = w.
Proof. unfold w_reset_prefix_cache. by destruct (w_state w). Qed.
Lemma update_keeps v w ok : w_state (w_sync_weights v w ok).1 = w_state w.
Proof. by destruct ok. Qed.

(** The scheduler while the weights are replaced: paused, or with no worker available, unless the weights are swapped hot. *)
Definition held (st : strategy) (v0 v : view) : Prop :=
  length (v_workers v) = length (v_workers v0) /\
  match st with
  | Pause | Drain => v_paused v = true /\ forall i, is_worker_available i v = true -> is_worker_available i v0 = true
  | Skip => v_paused v = v_paused v0 /\ forall i, is_worker_available i v = false
  | Hotswap => v_paused v = v_paused v0 /\ forall i, is_worker_available i v = true -> is_worker_available i v0 = true
  end.

Lemma held_weaker st v0 v v' : held st v0 v -> weaker v v' -> held st v0 v'.
Proof.
  intros [Hl H] (Hp & Hlen & Ha). split; [congruence|]. destruct st; destruct H as [H1 H2]; (split; [congruence|]); intros i; auto.
  apply not_true_iff_false. intros Hi%Ha. by rewrite H2 in Hi.
Qed.

Definition same_settings (p p' : pool) : Prop :=
  p_configured p' = p_configured p /\ p_clear_cache_on_sync p' = p_clear_cache_on_sync p /\ p_multi_node p' = p_multi_node p /\
  p_model_id p' = p_model_id p /\ p_slots p' = p_slots p /\
  p_stop_monitoring p' = p_stop_monitoring p /\ p_sleeping p' = p_sleeping p /\ p_weights_staged p' = p_weights_staged p /\ p_actors p' = p_actors p.

Lemma same_settings_trans p q r : same_settings p q -> same_settings q r -> same_settings p r.
Proof. unfold same_settings. naive_solver congruence. Qed.

Record during (st : strategy) (p0 : pool) (v0 : view) (s : pool * locals) : Prop := {
  du_view : exists v, p_scheduler s.1 = Some v /\ held st v0 v;
  du_states : states s.1 = states p0;
  du_same : same_settings p0 s.1;
  du_started : l_started s.2 = false -> versions s.1 = versions p0;
  du_flags : l_scheduler_paused s.2 = bool_decide (st = Pause \/ st = Drain) /\ l_skipped s.2 = bool_decide (st = Skip);
}.

Lemma during_frame st p0 v0 p l p' : during st p0 v0 (p, l) -> frame p p' -> states p' = states p -> (l_started l = false ->
    versions p' = versions p) -> during st p0 v0 (p', l).
Proof.
  intros [(v & Hv & Hh) Hs Hsame Hst Hfl] [Hsch Hlen Hsm] Hs' Hv'. simpl in *. rewrite Hv in Hsch.
  destruct (p_scheduler p') as [v'|] eqn:Ev'; [|done].
  split; simpl; [exists v'; split; [done|by eapply held_weaker]|congruence|by eapply same_settings_trans|intros Hl; rewrite Hv', Hst; done|done].
Qed.

Lemma during_workers st p0 v0 p l p' : during st p0 v0 (p, l) -> frame p p' -> p_workers p' = p_workers p -> during st p0 v0 (p', l).
Proof. intros Hd Hf Hw. apply (during_frame _ _ _ _ _ _ Hd Hf); unfold states, versions; by rewrite Hw. Qed.

Lemma during_local st p0 v0 p l l' : during st p0 v0 (p, l) -> l_scheduler_paused l' = l_scheduler_paused l -> l_skipped l' = l_skipped l ->
    (l_started l' = false -> l_started l = false) -> during st p0 v0 (p, l').
Proof. intros [H1 H2 H3 H4 [H5 H6]] Ha Hb Hc. simpl in *. split; simpl; auto. split; congruence. Qed.

Lemma unavailable_all n v : n = length (v_workers v) -> forall i, is_worker_available i (foldr v_unavailable v (seq 0 n)) = false.
Proof.
  intros Hn i. assert (H : forall l w, (i ∈ l \/ is_worker_available i w = false) -> is_worker_available i (foldr v_unavailable w l) = false).
  { intros l w. induction l as [|j l IH]; [by intros [?%not_elem_of_nil|]|]. intros Hi. simpl. unfold v_unavailable at 1.
    rewrite available_alter. destruct (v_workers (foldr v_unavailable w l) !! i) as [x|] eqn:Ex; [|done].
    destruct (decide (i = j)); [done|].
    specialize (IH ltac:(set_solver)). unfold is_worker_available in IH. by rewrite Ex in IH. }
  apply H. destruct (decide (i < n)); [left; apply elem_of_seq; lia|right]. unfold is_worker_available. rewrite lookup_ge_None_2; [done|lia].
Qed.

Lemma unavailable_all_len l v : length (v_workers (foldr v_unavailable v l)) = length (v_workers v) /\
    v_paused (foldr v_unavailable v l) = v_paused v.
Proof. induction l as [|j l [IH1 IH2]]; [done|]. simpl. by rewrite length_alter. Qed.

(** *** The [try] block *)

Lemma swp_start st p v Q :
  p_scheduler p = Some v -> length (v_workers v) = length (p_workers p) ->
  (forall s, during st p v s -> p_workers s.1 = p_workers p -> s.2 = Locals (bool_decide (st = Pause \/ st = Drain)) (bool_decide (st =
    Skip)) false false false -> Q s (Ok tt)) ->
  swp (match st with
      | Pause | Drain => lift_pool (on_scheduler v_pause);; set_local (fun l => Locals true (l_skipped l) (l_generation_paused l) (l_started
        l) (l_succeeded l))
      | Skip => set_local (fun l => Locals (l_scheduler_paused l) true (l_generation_paused l) (l_started l) (l_succeeded l));;
        lift_pool (mark_all_unavailable (length (p_workers p)))
      | Hotswap => sret tt
      end) Q (p, locals_new).
Proof.
  intros Hv Hl HQ. assert (Hp : forall l, l = Locals true false false false false -> st = Pause \/ st = Drain ->
  during st p v (set_scheduler (v_pause <$> p_scheduler p) p, l)).
  { intros l -> Hst. split; simpl; [rewrite Hv; simpl; eexists; split; [done|]; by destruct Hst; subst|done|done|done|by destruct Hst; subst]. }
  destruct st; [apply swp_bind, swp_lift, swp_mod, swp_local|apply swp_bind, swp_lift, swp_mod, swp_local|apply swp_bind, swp_local,
  swp_lift; unfold mark_all_unavailable, on_scheduler; apply swp_mod|apply swp_ret]; apply HQ; try done.
  - by apply Hp; [|left].
  - by apply Hp; [|right].
  - split; simpl; [|done|done|done|done]. rewrite Hv. simpl. eexists. split; [done|].
    destruct (unavailable_all_len (seq 0 (length (p_workers p))) v) as [H1 H2]. split; [done|]. split; [done|]. intros i.
    by apply unavailable_all.
  - split; simpl; [|done|done|done|done]. exists v. by split; [|split].
Qed.

Lemma gather_keeps st p0 v0 p l p' op g : during st p0 v0 (p, l) -> frame p p' -> p_workers p' = (called op g (p_workers p)).*1 ->
  (forall w ok, w_state (op w ok).1 = w_state w) -> (l_started l = false -> forall w ok, w_version (op w ok).1 = w_version w) ->
    during st p0 v0 (p', l).
Proof.
  intros Hd Hf Hw Hs Hv. apply (during_frame _ _ _ _ _ _ Hd Hf); unfold states, versions; rewrite Hw; [by apply called_keeps|]. intros Hl.
  by apply called_keeps, Hv.
Qed.

Lemma swp_pause_generation st p0 v0 ev mode cc p l Q :
  during st p0 v0 (p, l) -> (forall p' r, during st p0 v0 (p', l) -> (forall b, r = Ok b -> versions p' = versions p) -> Q (p', l) r) ->
  swp (lift_pool (pause_generation_for_weight_sync ev mode cc)) Q (p, l).
Proof.
  intros Hd HQ. apply swp_lift. unfold pause_generation_for_weight_sync. apply swp_bind, swp_get, swp_bind, swp_gather. intros p1 Hf1 Hw1.
  assert (Hd1 : during st p0 v0 (p1, l)) by (apply (gather_keeps _ _ _ _ _ _ _ _ Hd Hf1 Hw1); intros; apply pause_keeps).
  assert (Hv1 : versions p1 = versions p) by (unfold versions; rewrite Hw1; apply called_keeps; intros; apply pause_keeps).
  destruct (cancelled (e_pause ev)); [by apply HQ|]. destruct (existsb _ _); [|apply swp_ret, HQ; [done|by intros]].
  apply swp_bind, swp_gather. intros p2 Hf2 Hw2. assert (Hd2 : during st p0 v0 (p2,
  l)) by (apply (gather_keeps _ _ _ _ _ _ _ _ Hd1 Hf2 Hw2); intros; apply resume_keeps). destruct (cancelled (e_unpause ev)); by apply HQ.
Qed.

Lemma send_before_states v g i p : states (set_workers ((called (w_sync_weights v) g (take i (p_workers p))).*1 ++ drop i (p_workers p)) p)
    = states p.
Proof. unfold states. simpl. rewrite fmap_app, called_keeps by (intros; apply update_keeps). by rewrite <- fmap_app, take_drop. Qed.

Lemma swp_update st p0 v0 v groups ev p l Q :
  during st p0 v0 (p, l) -> l_succeeded l = false ->
  (forall p' l' r, during st p0 v0 (p', l') -> l_succeeded l' = false -> l_generation_paused l' = l_generation_paused l -> (r = Ok tt ->
    Forall (fun w => w_version w = Some v) (p_workers p')) -> Q (p', l') r) ->
  swp (update_weights v groups ev) Q (p, l).
Proof.
  intros Hd Hs HQ. unfold update_weights. apply swp_bind, swp_get, swp_bind, swp_lift, swp_mod. simpl. set (p1 := set_updating _ p).
  assert (Hd1 : during st p0 v0 (p1, l)) by (destruct Hd; by split).
  set (started := fun l => Locals (l_scheduler_paused l) (l_skipped l) (l_generation_paused l) true (l_succeeded l)).
  destruct (first_unassigned groups (length (p_workers p))) as [i|].
  - set (l1 := if 0 <? i then started l else l). assert (Hd2 : during st p0 v0 (p1, l1)) by (unfold l1; destruct (0 <? i);
    [apply (during_local _ _ _ _ l); done|done]).
    apply swp_bind. apply (swp_mono _ (fun s r => s = (p1, l1) /\ r = Ok tt)); [apply swp_when; unfold l1; intros ->;
    [by apply swp_local|done]|]. intros s r [-> ->]. apply swp_bind, swp_lift, swp_mod, swp_throw.
    apply HQ; [|by unfold l1; destruct (0 <? i)|by unfold l1; destruct (0 <? i)|done].
    apply (during_frame _ _ _ _ _ _ Hd2); [split; [simpl; by destruct (p_scheduler p)|simpl; rewrite length_app, length_fmap, called_length,
    length_take, length_drop; lia|by split_and!]|apply send_before_states|].
    unfold l1. destruct (0 <? i) eqn:Ei; [done|]. intros _. apply Nat.ltb_ge in Ei. replace i with 0 by lia. done.
  - set (b := bool_decide (groups = None) || (0 <? length (p_workers p))). set (l1 := if b then started l else l).
    assert (Hd2 : during st p0 v0 (p1, l1)) by (unfold l1; destruct b; [apply (during_local _ _ _ _ l); done|done]).
    apply swp_bind. apply (swp_mono _ (fun s r => s = (p1, l1) /\ r = Ok tt)); [apply swp_when; unfold l1; intros ->;
    [by apply swp_local|done]|]. intros s r [-> ->]. apply swp_bind, swp_lift, swp_gather. intros p2 Hf Hw.
    assert (Hd3 : during st p0 v0 (p2, l1)).
    { apply (during_frame _ _ _ _ _ _ Hd2 Hf); unfold states, versions; rewrite Hw; [apply called_keeps; intros; apply update_keeps|].
      unfold l1, b. destruct (bool_decide _ || _) eqn:Eb; [done|]. intros _. apply orb_false_iff in Eb as [_ Hn%Nat.ltb_ge].
      destruct (p_workers p) eqn:Ep; [|simpl in Hn; lia]. simpl. by rewrite Ep. }
    assert (Hsl : l_succeeded l1 = false /\ l_generation_paused l1 = l_generation_paused l) by (unfold l1; by destruct b).
    destruct Hsl as [Hs1 Hg1]. destruct (cancelled (e_update ev)); [by apply HQ|]. apply swp_raise_if; intros Hfail; apply HQ; try done.
    intros _. rewrite Hw. apply called_succeeds; [|done]. intros w ok. destruct ok; done.
Qed.

Lemma sync_body_spec st mode cc v groups ev p v0 :
  p_scheduler p = Some v0 -> length (v_workers v0) = length (p_workers p) ->
  swp (sync_body st mode cc v groups ev)
    (fun s r => during st p v0 s /\ (l_succeeded s.2 = true -> r = Ok tt /\ Forall (fun w => w_version w = Some v) (p_workers s.1)) /\
      (r = Ok tt -> l_succeeded s.2 = true) /\
       (l_generation_paused s.2 = false -> l_started s.2 = true -> st <> Pause) /\ (l_succeeded s.2 = true -> st = Pause ->
         l_generation_paused s.2 = true)) (p, locals_new).
Proof.
  intros Hv Hl. set (Q := fun _ _ => _). assert (Hearly : forall p' l' e, during st p v0 (p', l') -> l_succeeded l' = false ->
  (l_generation_paused l' = false -> l_started l' = true -> st <> Pause) ->
  Q (p', l') (Raise e)) by (intros p' l' e Hd Hs Hg; split_and!; simpl; try done; congruence).
  unfold sync_body. apply swp_bind, swp_get, swp_bind, (swp_start st p v0); [done..|]. intros [p1 l1] Hd1 Hw1 Hl1. simpl in Hw1, Hl1.
  subst l1. apply swp_bind, swp_lift, swp_wait. intros p2 Hf2 Hw2 _. pose proof (during_workers _ _ _ _ _ _ Hd1 Hf2 Hw2) as Hd2.
  destruct (pt_error (e_abort ev)) as [e|]; [by apply Hearly|]. apply swp_bind.
  set (R := fun (s : pool * locals) (r : res unit) => match r with Ok _ => during st p v0 s /\ l_succeeded s.2 = false /\
  l_started s.2 = false /\ (st = Pause -> l_generation_paused s.2 = true) | Raise e => Q s (Raise e) end).
  assert (Hmid : swp (match st with
      | Pause => _ ← lift_pool (pause_generation_for_weight_sync ev mode cc);
        set_local (fun l => Locals (l_scheduler_paused l) (l_skipped l) true (l_started l) (l_succeeded l));;
        swhen (bool_decide (mode = Abort)) (lift_pool (wait_for (e_drain ev)))
      | Drain => lift_pool (wait_for (e_drain ev)) | Skip | Hotswap => sret tt end) R (p2,
        Locals (bool_decide (st = Pause \/ st = Drain)) (bool_decide (st = Skip)) false false false)).
  { destruct st.
    - apply swp_bind, (swp_pause_generation _ _ _ _ _ _ _ _ _ Hd2). intros p3 [b|e] Hd3 Hver; [|by apply Hearly]. apply swp_bind, swp_local.
      simpl. assert (Hd3' : during Pause p v0 (p3, Locals true false true false false)) by (by apply (during_local _ _ _ _ _ _ Hd3)).
      apply swp_when; intros _; [|done]. apply swp_lift, swp_wait. intros p4 Hf4 Hw4 _.
      pose proof (during_workers _ _ _ _ _ _ Hd3' Hf4 Hw4). destruct (pt_error (e_drain ev)); [by apply Hearly|done].
    - apply swp_lift, swp_wait. intros p4 Hf4 Hw4 _. pose proof (during_workers _ _ _ _ _ _ Hd2 Hf4 Hw4).
      destruct (pt_error (e_drain ev)); [by apply Hearly|done].
    - done.
    - done. }
  eapply swp_mono; [exact Hmid|]. clear Hmid. intros [p3 l3] [[]|e] HR; [|exact HR]. destruct HR as (Hd3 & Hs3 & Hst3 & Hg3).
  simpl in Hs3, Hst3, Hg3. apply swp_bind, (swp_update _ _ _ _ _ _ _ _ _ Hd3 Hs3). intros p4 l4 r4 Hd4 Hs4 Hg4 Hall. 
  assert (Hgp : l_generation_paused l4 = false -> st <> Pause) by (intros Hg Hst; rewrite Hg4, Hg3 in Hg; done).
  destruct r4 as [[]|e]; [|by apply Hearly; [| |auto]]. specialize (Hall eq_refl). apply swp_bind, swp_when; intros _.
  - apply swp_lift. unfold reset_prefix_cache_after_weight_sync. apply swp_bind, swp_gather. intros p5 Hf5 Hw5.
    assert (Hd5 : during st p v0 (p5, l4)) by (apply (gather_keeps _ _ _ _ _ _ _ _ Hd4 Hf5 Hw5); intros; by rewrite reset_keeps).
    assert (Hall5 : Forall (fun w => w_version w = Some v) (p_workers p5)) by (rewrite Hw5; apply Forall_fmap, Forall_lookup;
    intros i wa Hi; destruct (called_lookup _ _ _ _ _ Hi) as (w & Hwi & ->); rewrite Forall_lookup in Hall; specialize (Hall i w Hwi);
    simpl; destruct (fate_of _ i); simpl; [done|by rewrite reset_keeps]).
    destruct (cancelled (e_reset ev)); [by apply Hearly; [| |auto]|]. apply swp_raise_if; intros _; [by apply Hearly; [| |auto]|].
    apply swp_local. split_and!; simpl; try done; [by apply (during_local _ _ _ _ _ _ Hd5)|auto|]. intros _ Hst.
    destruct (l_generation_paused l4); [done|]. by destruct (Hgp eq_refl).
  - apply swp_local. split_and!; simpl; try done; [by apply (during_local _ _ _ _ _ _ Hd4)|auto|]. intros _ Hst.
    destruct (l_generation_paused l4); [done|]. by destruct (Hgp eq_refl).
Qed.

(** *** The [finally] block *)

(** Requests are sent to some worker. *)
Definition serving (v : view) : Prop := v_paused v = false /\ exists i, is_worker_available i v = true.

Lemma mark_available_spec l v : length (v_workers (foldr v_mark_available v l)) = length (v_workers v) /\
    v_paused (foldr v_mark_available v l) = v_paused v /\
  forall i, is_worker_available i (foldr v_mark_available v l) = true -> is_worker_available i v = true \/ i ∈ l.
Proof.
  induction l as [|j l (IH1 & IH2 & IH3)]; [split_and!; auto|]. simpl. split; [by rewrite length_alter|]. split; [done|]. intros i.
  unfold v_mark_available at 1. rewrite available_alter. destruct (v_workers (foldr v_mark_available v l) !! i) as [x|] eqn:Ex; [|done].
  destruct (decide (i = j)) as [->|Hne]; [right; set_solver|]. intros Hx.
  assert (Hi : is_worker_available i (foldr v_mark_available v l) = true) by (unfold is_worker_available; by rewrite Ex).
  destruct (IH3 i Hi); [by left|right; set_solver].
Qed.

Record after_sync (st : strategy) (n : nat) (p0 : pool) (v0 : view) (p : pool) (r : res unit) : Prop := {
  as_view : exists v, p_scheduler p = Some v /\ length (v_workers v) = length (v_workers v0) /\ (v_paused v0 = true -> v_paused v = true) /\
    (forall i, is_worker_available i v = true -> is_worker_available i v0 = true) /\
    (st <> Hotswap -> serving v -> versions p = versions p0 \/ Forall (fun w => w_version w = Some n) (p_workers p)) /\
    (r = Ok tt -> v_paused v = v_paused v0);
  as_states : states p = states p0;
  as_same : same_settings p0 p;
  as_ok : r = Ok tt -> Forall (fun w => w_version w = Some n) (p_workers p);
  as_generating : r = Ok tt -> st = Pause -> Forall (fun w => w_state w = READY -> w_generation_paused w = false) (p_workers p);
}.

Lemma held_available st v0 v : held st v0 v -> forall i, is_worker_available i v = true -> is_worker_available i v0 = true.
Proof. intros [_ H] i Hi. destruct st; destruct H as [H1 H2]; auto. by rewrite H2 in Hi. Qed.

Lemma swp_resume_generation st p0 v0 ev p l Q :
  during st p0 v0 (p, l) -> (forall p' r, during st p0 v0 (p', l) -> versions p' = versions p -> (r = Ok tt ->
  Forall (fun w => w_state w = READY -> w_generation_paused w = false) (p_workers p')) -> Q (p', l) r) ->
  swp (lift_pool (resume_generation_after_weight_sync ev)) Q (p, l).
Proof.
  intros Hd HQ. apply swp_lift. unfold resume_generation_after_weight_sync. apply swp_bind, swp_gather. intros p1 Hf Hw.
  assert (Hd1 : during st p0 v0 (p1, l)) by (apply (gather_keeps _ _ _ _ _ _ _ _ Hd Hf Hw); intros; apply resume_keeps).
  assert (Hv1 : versions p1 = versions p) by (unfold versions; rewrite Hw; apply called_keeps; intros; apply resume_keeps).
  destruct (cancelled (e_resume ev)); [by apply HQ|]. apply swp_raise_if; intros Hno; apply HQ; try done.
  intros _. rewrite Hw. apply called_succeeds; [|done]. intros w ok. unfold w_resume_generation.
  destruct (w_state w) eqn:Ew, ok; simpl; rewrite ?Ew; done.
Qed.

Lemma all_version_eq v p p' : versions p' = versions p -> Forall (fun w => w_version w = Some v) (p_workers p) ->
    Forall (fun w => w_version w = Some v) (p_workers p').
Proof.
  intros Hv H. apply Forall_lookup. intros i w' Hi. assert (E : versions p' !! i = versions p !! i) by congruence. unfold versions in E.
  rewrite !list_lookup_fmap, Hi in E. destruct (p_workers p !! i) as [w|] eqn:Ew; [|done]. injection E as ->.
  rewrite Forall_lookup in H. by apply (H i).
Qed.

(** The restoring of the scheduler, from what the local variables say. *)
Lemma restore_spec st n p0 v0 p l r :
  p_scheduler p0 = Some v0 -> length (v_workers v0) = length (p_workers p0) -> during st p0 v0 (p, l) ->
  (l_succeeded l = true -> Forall (fun w => w_version w = Some n) (p_workers p)) -> (r = Ok tt -> l_succeeded l = true) ->
    (l_succeeded l = true -> r = Ok tt) ->
  (l_generation_paused l = false -> l_started l = true -> st <> Pause) -> (r = Ok tt -> st = Pause -> Forall (fun w => w_state w = READY ->
    w_generation_paused w = false) (p_workers p)) ->
  swp (swhen ((if bool_decide (st = Pause) then l_scheduler_paused l && (l_succeeded l ||
  negb (l_generation_paused l)) else l_scheduler_paused l && (l_succeeded l ||
  negb (l_started l))) && negb (v_paused v0)) (lift_pool (on_scheduler v_resume));;
      swhen (l_skipped l && (l_succeeded l || negb (l_started l))) (lift_pool (mark_available (filter (fun i => worker_available p0 i =
      true) (seq 0 (length (p_workers p0)))))))
    (fun s r' => r' = Ok tt /\ after_sync st n p0 v0 s.1 r) (p, l).
Proof.
  intros Hv0 Hlen Hd Hsucc Hok Hok' Hgp Hgen. destruct Hd as [(v & Hv & Hh) Hs Hsame Hst [Hfl1 Hfl2]]. simpl in *.
  set (b := _ && negb (v_paused v0)). set (v1 := if b then v_resume v else v). set (p1 := set_scheduler (Some v1) p).
  assert (Hok2 : l_succeeded l = true \/ l_started l = false -> versions p = versions p0 \/ Forall (fun w => w_version w = Some n)
  (p_workers p)) by (intros [?|?]; auto).
  apply swp_bind. apply (swp_mono _ (fun s r => s = (p1, l) /\ r = Ok tt)); [apply swp_when; unfold p1, v1; intros ->; [apply swp_lift,
  swp_mod; by rewrite Hv|split; [|done]; f_equal; rewrite <- Hv; by destruct p]|]. intros s r' [-> ->].
  pose proof (held_available _ _ _ Hh) as Hav. assert (Hav1 : forall i, is_worker_available i v1 = true ->
  is_worker_available i v0 = true) by (unfold v1; destruct b; auto). destruct Hh as [Hl Hh].
  apply swp_when; intros Hskip.
  - apply andb_true_iff in Hskip as [Hsk Hcan]. rewrite Hfl2 in Hsk. apply bool_decide_eq_true in Hsk as ->.
    unfold mark_available, on_scheduler. apply swp_lift, swp_mod. split; [done|]. cbn [fst p_scheduler p1]. set (l0 := filter _ _).
    destruct (mark_available_spec l0 v1) as (H1 & H2 & H3).
    assert (Hv1 : v1 = v) by (unfold v1, b; rewrite bool_decide_eq_false_2, Hfl1 by done; done). split; [|done|done|auto|done].
    exists (foldr v_mark_available v1 l0). split; [done|]. split; [congruence|]. rewrite H2, Hv1. destruct Hh as [Hh1 Hh2].
    split; [congruence|]. split; [|split; [|congruence]].
    + rewrite Hv1 in H3. intros i [Hi|Hi]%H3; [auto|]. apply list_elem_of_filter in Hi as [Hi _]. unfold worker_available in Hi. by rewrite Hv0 in Hi.
    + intros _ _. apply Hok2. apply orb_true_iff in Hcan as [?|?%negb_true_iff]; auto.
  - split; [done|]. split; simpl; [|done|done|auto|done]. exists v1. split; [done|]. split; [unfold v1; destruct b; done|].
    split; [|split; [done|split]].
    + unfold v1, b. intros Hp. rewrite Hp, andb_false_r. destruct st; naive_solver.
    + intros Hns [Hp [i Hi]]. apply Hok2. destruct st; [| | |done].
      * unfold v1, b in Hp. rewrite bool_decide_eq_true_2 in Hp by done. destruct Hh as [Hh1 _]. rewrite Hfl1 in Hp.
        rewrite bool_decide_eq_true_2 in Hp by (by left). destruct (l_succeeded l); [by left|]. right.
        destruct (l_generation_paused l) eqn:Eg; simpl in Hp; [congruence|]. destruct (l_started l) eqn:El; [|done].
        by destruct (Hgp eq_refl eq_refl).
      * unfold v1, b in Hp. rewrite bool_decide_eq_false_2 in Hp by done. destruct Hh as [Hh1 _]. rewrite Hfl1 in Hp.
        rewrite bool_decide_eq_true_2 in Hp by (by right). destruct (l_succeeded l); [by left|]. right.
        destruct (l_started l); [simpl in Hp; congruence|done].
      * assert (Hv1 : v1 = v) by (unfold v1, b; rewrite bool_decide_eq_false_2, Hfl1 by done; done). rewrite Hv1 in Hi.
        destruct Hh as [_ Hh2]. by rewrite Hh2 in Hi.
    + intros Hr%Hok. unfold v1, b. rewrite Hr, Hfl1. destruct st; destruct Hh as [Hh1 _]; simpl; rewrite ?andb_true_r;
      destruct (v_paused v0); simpl; try congruence; done.
Qed.


Lemma held_after n p0 v0 p l e : during Pause p0 v0 (p, l) -> after_sync Pause n p0 v0 p (Raise e).
Proof.
  intros [(v & Hv & Hl & Hp & Ha) Hs Hsame _ _]. simpl in *. split; try done. exists v. split_and!; try done. intros _ [Hn _]. congruence.
Qed.

Lemma sync_finally_spec st n p0 v0 ev p l r :
  p_scheduler p0 = Some v0 -> length (v_workers v0) = length (p_workers p0) -> during st p0 v0 (p, l) ->
  (l_succeeded l = true -> r = Ok tt /\ Forall (fun w => w_version w = Some n) (p_workers p)) -> (r = Ok tt -> l_succeeded l = true) ->
    (l_generation_paused l = false -> l_started l = true -> st <> Pause) ->
  (l_succeeded l = true -> st = Pause -> l_generation_paused l = true) ->
  swp (sync_finally st (v_paused v0) (filter (fun i => worker_available p0 i = true) (seq 0 (length (p_workers p0)))) ev)
    (fun s r' => after_sync st n p0 v0 s.1 (match r' with Ok _ => r | Raise e => Raise e end)) (p, l).
Proof.
  intros Hv0 Hlen Hd Hsucc Hok Hgp Hsg. unfold sync_finally. apply swp_bind, swp_lift, swp_mod, swp_bind, swp_get. cbn [fst snd].
  set (p1 := set_updating [] p). assert (Hd1 : during st p0 v0 (p1, l)) by (destruct Hd; by split).
  assert (Hsucc1 : l_succeeded l = true -> Forall (fun w => w_version w = Some n) (p_workers p1)) by (by intros [_ ?]%Hsucc).
  assert (Hrest : forall p2, during st p0 v0 (p2, l) -> versions p2 = versions p1 -> (r = Ok tt -> st = Pause ->
  Forall (fun w => w_state w = READY -> w_generation_paused w = false) (p_workers p2)) ->
    swp (swhen ((if bool_decide (st = Pause) then l_scheduler_paused l && (l_succeeded l ||
    negb (l_generation_paused l)) else l_scheduler_paused l && (l_succeeded l ||
    negb (l_started l))) && negb (v_paused v0)) (lift_pool (on_scheduler v_resume)) ;;
        swhen (l_skipped l && (l_succeeded l || negb (l_started l))) (lift_pool (mark_available (filter (fun i => worker_available p0 i =
        true) (seq 0 (length (p_workers p0)))))))
      (fun s r' => after_sync st n p0 v0 s.1 (match r' with Ok _ => r | Raise e => Raise e end)) (p2, l)).
  { intros p2 Hd2 Hv2 Hg2. eapply swp_mono; [apply (restore_spec st n p0 v0 p2 l r Hv0 Hlen Hd2); [intros Hs; apply (all_version_eq n p1);
    auto|done|by intros [? _]%Hsucc|done|done]|]. intros s r' [-> Ha]. done. }
  destruct (bool_decide (st = Pause)) eqn:Est.
  - apply bool_decide_eq_true in Est as ->. apply swp_bind, swp_bind, swp_when; intros Hb.
    + apply (swp_resume_generation _ _ _ _ _ _ _ Hd1). intros p2 [[]|e] Hd2 Hv2 Hg2; [apply swp_bind_inv, Hrest; auto|by eapply held_after].
    + apply swp_bind_inv, Hrest; [done|done|]. intros Hr%Hok _. specialize (Hsg Hr eq_refl). rewrite Hr, Hsg in Hb. done.
  - apply bool_decide_eq_false in Est. apply Hrest; [done|done|by intros].
Qed.

Lemma swp_lifecycle {A} (m : pm A) Q p : swp m (fun p' r => Q (set_blocked false p') r) (set_blocked true p) -> swp (stream_lifecycle m) Q p.
Proof. intros H. unfold stream_lifecycle. apply swp_bind, swp_mod, swp_finally. eapply swp_mono; [exact H|]. intros p' r HQ. by apply swp_mod. Qed.

Lemma swp_check_model m Q p : (forall e, Q p (Raise e)) -> Q p (Ok tt) -> swp (check_model_id m) Q p.
Proof. intros He Hok. unfold check_model_id. apply swp_bind, swp_get. destruct m as [m|], (p_model_id p) as [m'|]; try by apply swp_ret.
  apply swp_raise_if; auto. Qed.

Lemma swp_initialized Q p : (p_scheduler p = None -> forall e, Q p (Raise e)) -> (forall v, p_scheduler p = Some v -> Q p (Ok tt)) ->
    swp require_initialized Q p.
Proof.
  intros He Hok. unfold require_initialized. apply swp_bind, swp_get, swp_raise_if; intros Hb; [apply bool_decide_eq_true in Hb;
  auto|apply bool_decide_eq_false in Hb]. destruct (p_scheduler p) eqn:E; [by eapply Hok|done].
Qed.

Lemma after_sync_untouched st n p v e : p_scheduler p = Some v -> after_sync st n p v p (Raise e).
Proof. intros Hv. split; try done. exists v. split_and!; try done. intros _ _. by left. Qed.

(** A pool whose scheduler knows its workers. *)
Definition pool_matches (p : pool) : Prop := match p_scheduler p with Some v => length (v_workers v) = length (p_workers p) | None => True end.

Lemma weight_sync_spec model_id st st' mode mode' cc engine_only n groups ev p v :
  strategy_of st = Ok st' -> pause_mode_of mode = Ok mode' -> p_scheduler p = Some v -> pool_matches p ->
  swp (weight_sync model_id st mode cc engine_only n groups ev) (fun p' r => after_sync (if engine_only then Hotswap else st') n p v p' r) p.
Proof.
  intros Hst Hmode Hv Hm. unfold weight_sync. rewrite Hst, Hmode. apply swp_bind, swp_check_model; [intros; by apply after_sync_untouched|].
  apply swp_bind, swp_initialized; [congruence|]. intros _ _. apply swp_lifecycle, swp_bind, swp_get. set (p0 := set_blocked true p).
  set (st0 := if engine_only then Hotswap else st'). unfold pool_matches in Hm. rewrite Hv in Hm. unfold without_locals.
  assert (Hwas : scheduler_paused p0 = v_paused v) by (unfold scheduler_paused; simpl; by rewrite Hv). rewrite Hwas.
  set (m := sfinally _ _). assert (H : swp m (fun s r => after_sync st0 n p0 v s.1 r) (p0, locals_new)).
  { apply swp_finally. eapply swp_mono; [apply (sync_body_spec st0 mode' cc n groups ev p0 v); [exact Hv|done]|].
    intros [p1 l1] r (Hd & Hs & Hok & Hg & Hsg). simpl in Hs, Hok, Hg, Hsg.
    eapply swp_mono; [apply (sync_finally_spec st0 n p0 v ev p1 l1 r); done|]. intros s r' Ha. by destruct r'. }
  unfold swp in *. destruct (m (p0, locals_new)) as [[p' l'] r]. simpl in *. destruct H as [(v' & H1 & H2) H3 H4 H5 H6].
  split; simpl; [by exists v'|done| |done|done]. exact H4.
Qed.

(** ** The invariant of a pool *)

Record pool_inv (p : pool) : Prop := {
  pi_scheduler : match p_scheduler p with
    | None => p_workers p = [] /\ p_slots p = [] /\ p_sleeping p = false
    | Some v => p_configured p = true /\ length (v_workers v) = length (p_workers p) /\ length (p_slots p) = length (p_workers p) /\
        (v_paused v = false -> p_sleeping p = false /\ Forall (fun w => w_state w = READY) (p_workers p))
    end;
  pi_slots : NoDup (p_slots p);
  pi_single : p_multi_node p = true -> length (p_workers p) <= 1;
}.

Lemma pool_inv_new : pool_inv pool_new.
Proof. split; simpl; [done|constructor|lia]. Qed.

Lemma pool_inv_blocked b p : pool_inv p -> pool_inv (set_blocked b p).
Proof. intros [H1 H2 H3]. by split. Qed.
Lemma pool_inv_stop b p : pool_inv p -> pool_inv (set_stop b p).
Proof. intros [H1 H2 H3]. by split. Qed.
Lemma pool_inv_updating l p : pool_inv p -> pool_inv (set_updating l p).
Proof. intros [H1 H2 H3]. by split. Qed.
Lemma pool_inv_actors n p : pool_inv p -> pool_inv (set_actors n p).
Proof. intros [H1 H2 H3]. by split. Qed.
#[export] Hint Resolve pool_inv_new pool_inv_blocked pool_inv_stop pool_inv_updating pool_inv_actors : stx.

Lemma ready_states p p' : states p' = states p -> Forall (fun w => w_state w = READY) (p_workers p) ->
    Forall (fun w => w_state w = READY) (p_workers p').
Proof.
  intros Hs H. rewrite Forall_lookup in *. intros i w' Hi. assert (E : states p' !! i = states p !! i) by congruence. unfold states in E.
  rewrite !list_lookup_fmap, Hi in E. destruct (p_workers p !! i) as [w|] eqn:Ew; [|done]. injection E as ->. by apply (H i).
Qed.

(** A change of the workers and of the scheduler that a wait allows. *)
Lemma pool_inv_frame p p' : pool_inv p -> frame p p' -> (scheduler_paused p = false -> p_scheduler p <> None ->
    Forall (fun w => w_state w = READY) (p_workers p) -> Forall (fun w => w_state w = READY) (p_workers p')) -> pool_inv p'.
Proof.
  intros [H1 H2 H3] [Hs Hl (Hc & _ & Hm & _ & Hsl & _ & Hsleep & _)] Hr. split; [|congruence|intros; rewrite Hl; apply H3; congruence].
  unfold scheduler_paused in Hr. destruct (p_scheduler p) as [v|], (p_scheduler p') as [v'|]; try done.
  - destruct H1 as (H4 & H5 & H6 & H7), Hs as (Hp & Hlen & _). split_and!; [congruence..|]. intros Hv'. rewrite Hp in Hv'.
    destruct (H7 Hv') as [H8 H9]. split; [congruence|]. by apply Hr.
  - destruct H1 as (H4 & H5 & H6). rewrite H4 in Hl. split_and!; [by apply nil_length_inv|congruence..].
Qed.

Lemma pool_inv_wait p p' : pool_inv p -> frame p p' -> p_workers p' = p_workers p -> pool_inv p'.
Proof. intros Hp Hf Hw. apply (pool_inv_frame p p' Hp Hf). by rewrite Hw. Qed.

Lemma pool_inv_resume p : pool_inv p -> p_sleeping p = false -> Forall (fun w => w_state w = READY) (p_workers p) ->
    pool_inv (set_scheduler (v_resume <$> p_scheduler p) p).
Proof. intros [H1 H2 H3] Hs Hr. split; simpl; [|done|done]. destruct (p_scheduler p); simpl; [|done]. destruct H1 as (H4 & H5 & H6 & _).
  by split_and!. Qed.

Lemma pool_inv_pause p : pool_inv p -> pool_inv (set_scheduler (v_pause <$> p_scheduler p) p).
Proof. intros [H1 H2 H3]. split; simpl; [|done|done]. destruct (p_scheduler p); simpl; [|done]. destruct H1 as (H4 & H5 & H6 & _). by split_and!. Qed.

(** The marks of single workers. *)
Lemma pool_inv_marks f p : pool_inv p -> (forall v, v_paused (f v) = v_paused v /\ length (v_workers (f v)) = length (v_workers v)) ->
    pool_inv (set_scheduler (f <$> p_scheduler p) p).
Proof.
  intros [H1 H2 H3] Hf. split; simpl; [|done|done]. destruct (p_scheduler p) as [v|]; simpl; [|done].
  destruct H1 as (H4 & H5 & H6 & H7), (Hf v) as [E1 E2]. rewrite E1, E2. by split_and!.
Qed.

Abbreviation keeps m := (forall p, pool_inv p -> swp m (fun p' _ => pool_inv p') p).

Lemma sleep_locked_keeps abort drained calls p v :
  p_scheduler p = Some v -> pool_inv p -> swp (sleep_locked abort drained calls) (fun p' _ => pool_inv p') p.
Proof.
  intros Hv Hp. unfold sleep_locked. apply swp_lifecycle, swp_bind, swp_get, swp_bind, swp_mod.
  set (p0 := set_blocked true p).
  assert (Hp0 : pool_inv p0) by (by apply pool_inv_blocked). set (p1 := set_scheduler _ p0).
  assert (Hp1 : pool_inv p1) by (by apply pool_inv_pause). assert (Hpaused : scheduler_paused p1 = true) by (unfold scheduler_paused; simpl;
  by rewrite Hv).
  assert (Hrestore : forall p', frame p1 p' -> p_workers p' = p_workers p1 ->
  swp (swhen (negb (scheduler_paused p0)) (on_scheduler v_resume)) (fun q _ => pool_inv (set_blocked false q)) p').
  { intros p' Hf Hw. apply swp_when; intros Hb; [|eapply pool_inv_blocked, pool_inv_wait; done]. apply negb_true_iff in Hb. apply swp_mod.
    apply pool_inv_blocked, pool_inv_resume; [by eapply pool_inv_wait| |].
    - destruct Hp0 as [Hs _ _], Hf as [_ _ (_ & _ & _ & _ & _ & _ & Hsl & _)]. simpl in Hs. rewrite Hv in Hs. rewrite Hsl. apply Hs.
      unfold scheduler_paused in Hb. simpl in Hb. by rewrite Hv in Hb.
    - destruct Hp0 as [Hs _ _]. simpl in Hs. rewrite Hv in Hs. rewrite Hw. apply Hs. unfold scheduler_paused in Hb. simpl in Hb.
      by rewrite Hv in Hb. }
  apply swp_bind, swp_on_error, swp_bind, swp_wait. intros p2 Hf2 Hw2 _. destruct (pt_error abort) as [e|].
  { eapply swp_mono; [by apply Hrestore|]. by intros p3 []. }
  apply swp_wait. intros p3 Hf3 Hw3 _. assert (Hf : frame p1 p3) by (by eapply frame_trans).
  assert (Hw : p_workers p3 = p_workers p1) by congruence. destruct (pt_error drained) as [e|].
  { eapply swp_mono; [by apply Hrestore|]. by intros p4 []. }
  apply swp_bind, swp_gather. intros p4 Hf4 _. assert (Hf14 : frame p1 p4) by (by eapply frame_trans).
  assert (Hp4 : pool_inv p4) by (apply (pool_inv_frame p1); [done|done|by rewrite Hpaused]).
  destruct (cancelled calls); [by apply pool_inv_blocked|]. apply swp_bind, swp_mod, swp_ret, pool_inv_blocked.
  destruct Hp4 as [H1 H2 H3], Hf14 as [Hs _ _]. split; simpl; [|done|done]. simpl in Hs. rewrite Hv in Hs. simpl in Hs.
  destruct (p_scheduler p4) as [v4|]; [|done]. destruct H1 as (H4 & H5 & H6 & _), Hs as [Hs _]. split_and!; [done..|]. intros Hc.
  rewrite Hs in Hc. done.
Qed.

Lemma sleep_keeps model_id abort drained calls : keeps (sleep model_id abort drained calls).
Proof.
  intros p Hp. unfold sleep. apply swp_bind, swp_check_model; [done|]. apply swp_bind, swp_initialized; [done|]. intros v Hv.
  apply swp_bind, swp_get. destruct (_ && _); [by apply swp_ret|]. by eapply sleep_locked_keeps.
Qed.

(** Tags that name the cache and something else, but not the weights: none of those that the
    documentation of a wake has (none, the weights, the cache, or both). *)
Definition odd_wake (tags : option (list string)) : bool := wake_finalize tags && negb (is_kv_only_wake tags || is_full_wake tags).

Lemma wake_full_ready tags w ok : odd_wake tags = false -> wake_finalize tags = true -> worker_result_failed (w_wake_up tags w ok).2 = false ->
    w_state (w_wake_up tags w ok).1 = READY.
Proof.
  unfold odd_wake. intros Ho Hf. rewrite Hf in Ho. simpl in Ho. apply negb_false_iff in Ho. unfold w_wake_up.
  assert (Hwo : is_weights_only_wake tags = false).
  { unfold is_weights_only_wake, wake_finalize, normalize_wake_tags in *. destruct tags as [l|]; [|done]. simpl.
    apply bool_decide_eq_true in Hf. apply bool_decide_eq_false. intros E. assert ("kv_cache" ∈ (list_to_set l : gset string)) as Hin
      by (by apply elem_of_list_to_set). injection E as E. rewrite E in Hin. set_solver. }
  rewrite Hwo, Ho. simpl. unfold wake_collective. destruct (w_state w) eqn:E; simpl; [done|done| |destruct ok; done].
  destruct (is_kv_only_wake tags); simpl in *; [done|]. rewrite Ho. by destruct ok.
Qed.

Lemma wake_keeps_ready tags w ok : w_state w = READY -> w_state (w_wake_up tags w ok).1 = READY.
Proof. intros H. unfold w_wake_up. by rewrite H. Qed.

Lemma called_forall (P : worker -> Prop) op g ws : (forall w ok, P w -> P (op w ok).1) -> Forall P ws -> Forall P (called op g ws).*1.
Proof.
  intros Hop H. apply Forall_lookup. intros i w' Hi. rewrite list_lookup_fmap in Hi.
  destruct (called op g ws !! i) as [wa|] eqn:Ei; [|done]. injection Hi as <-. destruct (called_lookup _ _ _ _ _ Ei) as (w & Hw & ->).
  rewrite Forall_lookup in H. specialize (H i w Hw). unfold call_remote. destruct (fate_of g i); [done|by apply Hop].
Qed.

Lemma is_exception_failed ws tags g : existsb is_exception (called (w_wake_up tags) g ws).*2 = false ->
    existsb worker_result_failed (called (w_wake_up tags) g ws).*2 = false.
Proof.
  rewrite <- !not_true_iff_false. intros H Hf. apply H. apply existsb_exists in Hf as (a & Ha & Hfa). apply existsb_exists. exists a.
  split; [done|]. destruct a as [failed ok|]; [|done]. simpl in Hfa. subst failed.
  apply list_elem_of_In, list_elem_of_fmap in Ha as (wa & Ea & Ha). apply list_elem_of_lookup in Ha as [i Hi].
  destruct (called_lookup _ _ _ _ _ Hi) as (w & _ & ->). unfold call_remote in Ea. destruct (fate_of g i); [done|].
  unfold w_wake_up, wake_collective in Ea. destruct (w_state w), engine_ok; repeat case_match; simpl in Ea; discriminate Ea.
Qed.

Lemma wake_up_locked_keeps tags calls p v :
  odd_wake tags = false -> p_scheduler p = Some v -> pool_inv p -> swp (wake_up_locked tags calls) (fun p' _ => pool_inv p') p.
Proof.
  intros Htags Hv Hp. unfold wake_up_locked. apply swp_lifecycle, swp_bind, swp_gather.
  set (p0 := set_blocked true p). assert (Hp0 : pool_inv p0) by (by apply pool_inv_blocked). intros p1 Hf Hw.
  assert (Hp1 : pool_inv p1) by (apply (pool_inv_frame p0 p1 Hp0 Hf); intros _ _ Hr; rewrite Hw; apply called_forall; [intros;
  by apply wake_keeps_ready|done]). destruct (cancelled calls); [by apply pool_inv_blocked|].
  apply swp_bind, swp_raise_if; intros Hex; [by apply pool_inv_blocked|]. destruct (wake_finalize tags) eqn:Ef.
  - apply swp_bind, swp_mod, swp_bind, swp_mod, swp_ret, pool_inv_blocked. cbn [p_scheduler set_sleep].
    assert (Hr : Forall (fun w => w_state w = READY) (p_workers p1)) by (rewrite Hw; apply called_succeeds; [intros;
    by apply wake_full_ready|by apply is_exception_failed]).
    apply (pool_inv_resume (set_sleep false false p1)); [|done|done]. destruct Hp1 as [H1 H2 H3]. split; simpl; [|done|done].
    destruct (p_scheduler p1); naive_solver.
  - apply swp_bind, swp_mod, swp_ret, pool_inv_blocked. destruct Hp1 as [H1 H2 H3]. by split.
Qed.

Lemma wake_up_keeps model_id tags calls : odd_wake tags = false -> keeps (wake_up model_id tags calls).
Proof.
  intros Htags p Hp. unfold wake_up. apply swp_bind, swp_check_model; [done|]. apply swp_bind, swp_initialized; [done|]. intros v Hv.
  apply swp_bind, swp_get. destruct (negb _); [by apply swp_ret|]. by eapply wake_up_locked_keeps.
Qed.

(** With [drain] the scheduler is resumed in any case: it must not have been paused before. *)
Lemma reset_prefix_cache_keeps model_id drain drained calls p : (drain = true -> scheduler_paused p = false) -> pool_inv p ->
    swp (reset_prefix_cache model_id drain drained calls) (fun p' _ => pool_inv p') p.
Proof.
  intros Hd Hp. unfold reset_prefix_cache. apply swp_bind, swp_check_model; [done|]. apply swp_bind, swp_initialized; [done|]. intros v Hv.
  apply swp_lifecycle. set (p0 := set_blocked true p). assert (Hp0 : pool_inv p0) by (by apply pool_inv_blocked).
  assert (Hready : drain = true -> p_sleeping p0 = false /\ Forall (fun w => w_state w = READY) (p_workers p0)).
  { intros Hdr. specialize (Hd Hdr). unfold scheduler_paused in Hd. rewrite Hv in Hd. destruct Hp0 as [H1 _ _]. simpl in H1.
    rewrite Hv in H1. by apply H1. }
  assert (Hrest : forall p1, pool_inv p1 -> (drain = true -> p_sleeping p1 = false /\ Forall (fun w => w_state w = READY) (p_workers p1)) ->
    swp (rs ← sfinally (gather w_reset_prefix_cache calls) (swhen drain (on_scheduler v_resume));
    sret (forallb answered_reset_ok rs)) (fun p' _ => pool_inv (set_blocked false p')) p1).
  { intros p1 Hp1 Hr1. apply swp_bind, swp_finally, swp_gather. intros p2 Hf2 Hw2.
    assert (Hsame : Forall (fun w => w_state w = READY) (p_workers p1) ->
    Forall (fun w => w_state w = READY) (p_workers p2)) by (intros; rewrite Hw2; apply called_forall; [intros;
    by rewrite reset_keeps|done]).
    assert (Hp2 : pool_inv p2) by (apply (pool_inv_frame p1 p2); auto). apply swp_when; intros Hdr.
    - apply swp_mod. destruct (Hr1 Hdr) as [Hsl Hre]. assert (Hres : pool_inv (set_scheduler (v_resume <$> p_scheduler p2) p2)) by (apply
      pool_inv_resume; [done|destruct Hf2 as [_ _ (_ & _ & _ & _ & _ & _ & E & _)]; congruence|auto]).
      destruct (cancelled calls); by apply pool_inv_blocked.
    - destruct (cancelled calls); by apply pool_inv_blocked. }
  apply swp_bind, swp_when; intros Hdr; [|apply Hrest; [done|congruence]]. apply swp_bind, swp_mod, swp_wait. intros p2 Hf2 Hw2 _.
  assert (Hp2 : pool_inv p2) by (eapply pool_inv_wait; [|exact Hf2|exact Hw2]; by apply pool_inv_pause).
  destruct (pt_error drained); [by apply pool_inv_blocked|]. apply Hrest; [done|].
  destruct (Hready Hdr) as [Hsl Hre], Hf2 as [_ _ (_ & _ & _ & _ & _ & _ & E & _)]. intros _. by rewrite Hw2, E.
Qed.

Lemma weight_sync_keeps model_id st mode cc engine_only n groups ev : keeps (weight_sync model_id st mode cc engine_only n groups ev).
Proof.
  intros p Hp. destruct (strategy_of st) as [st'|e] eqn:Est; [|unfold weight_sync; by rewrite Est].
  destruct (pause_mode_of mode) as [mode'|e] eqn:Emode; [|unfold weight_sync; by rewrite Est, Emode].
  destruct (p_scheduler p) as [v|] eqn:Hv.
  - pose proof Hp as [H1 H2 H3]. rewrite Hv in H1. destruct H1 as (H4 & H5 & H6 & H7).
    eapply swp_mono; [apply (weight_sync_spec model_id st st' mode mode'); [done|done|exact Hv|by unfold pool_matches; rewrite Hv]|].
    intros p' r [(v' & Hv' & Hl & Hpa & _) Hs (Hc & _ & Hm & _ & Hsl & _ & Hsleep & _) _ _].
    assert (Hlen : length (p_workers p') = length (p_workers p)) by (apply (f_equal length) in Hs; unfold states in Hs;
    by rewrite !length_fmap in Hs). split; [rewrite Hv'|congruence|rewrite Hlen, Hm; exact H3]. split_and!; [congruence..|]. intros Hnp.
    destruct (v_paused v) eqn:Ep; [by rewrite Hpa in Hnp|]. destruct (H7 eq_refl). split; [congruence|by eapply ready_states].
  - unfold weight_sync. rewrite Est, Emode. apply swp_bind, swp_check_model; [done|]. apply swp_bind, swp_initialized; [done|]. intros v. congruence.
Qed.

Lemma marks_foldr (mark : nat -> view -> view) l : (forall i v, v_paused (mark i v) = v_paused v /\
    length (v_workers (mark i v)) = length (v_workers v)) ->
  forall v, v_paused (foldr mark v l) = v_paused v /\ length (v_workers (foldr mark v l)) = length (v_workers v).
Proof. intros Hm v. induction l as [|i l [IH1 IH2]]; [done|]. simpl. destruct (Hm i (foldr mark v l)) as [E1 E2]. by rewrite E1, E2. Qed.
Lemma mark_alter f i v : v_paused (View (v_paused v) (alter f i (v_workers v))) = v_paused v /\
    length (v_workers (View (v_paused v) (alter f i (v_workers v)))) = length (v_workers v).
Proof. split; [done|]. simpl. apply length_alter. Qed.

(** *** Draft weights *)

Lemma sync_spec_weights_keeps model_id st groups abort drained update : keeps (sync_spec_weights model_id st groups abort drained update).
Proof.
  intros p Hp. unfold sync_spec_weights. apply swp_bind, swp_check_model; [done|]. apply swp_bind, swp_initialized; [done|]. intros v Hv.
  apply swp_lifecycle, swp_bind, swp_get. set (p0 := set_blocked true p). assert (Hp0 : pool_inv p0) by (by apply pool_inv_blocked).
  set (n := length (p_workers p0)). set (avail := filter _ _).
  set (restore := match st with Drain => _ | Skip => _ | _ => _ end).
  assert (Hrestore : forall q, pool_inv q -> p_workers q = p_workers p0 -> p_sleeping q = p_sleeping p0 -> forall Q : pool -> res unit ->
  Prop, (forall q' r, pool_inv q' -> Q q' r) -> swp restore Q q).
  { intros q Hq Hw Hs Q HQ. unfold restore. destruct st; [by apply swp_ret, HQ| | |by apply swp_ret, HQ].
    - apply swp_when; intros Hb; [|by apply HQ]. apply negb_true_iff in Hb. unfold scheduler_paused in Hb. simpl in Hb. rewrite Hv in Hb.
      destruct Hp0 as [H1 _ _]. simpl in H1. rewrite Hv in H1. destruct H1 as (_ & _ & _ & H1). destruct (H1 Hb).
      apply swp_mod, HQ, pool_inv_resume; [done|by rewrite Hs|by rewrite Hw].
    - unfold mark_available, on_scheduler. apply swp_mod, HQ, pool_inv_marks; [done|]. apply marks_foldr. intros i w. apply mark_alter. }
  apply swp_bind. set (start := match st with Drain => _ | Skip => _ | Hotswap => _ | Pause => _ end).
  apply (swp_mono _ (fun q r => pool_inv q /\ p_workers q = p_workers p0 /\ p_sleeping q = p_sleeping p0)).
  { unfold start. destruct st; [done|apply swp_mod; split_and!; [by apply pool_inv_pause|done..]| |done].
    unfold mark_all_unavailable, on_scheduler. apply swp_mod. split_and!; [|done..]. apply pool_inv_marks; [done|]. apply marks_foldr.
    intros i w. apply mark_alter. }
  intros p1 [u|e] (Hp1 & Hw1 & Hs1); [|by apply pool_inv_blocked].
  assert (Hfr : forall q, frame p1 q -> p_workers q = p_workers p1 -> pool_inv q /\ p_workers q = p_workers p0 /\
  p_sleeping q = p_sleeping p0) by (intros q Hf Hw; split_and!;
  [by eapply pool_inv_wait|congruence|destruct Hf as [_ _ (_ & _ & _ & _ & _ & _ & E & _)]; congruence]).
  apply swp_bind, swp_on_error, swp_bind, swp_wait. intros p2 Hf2 Hw2 _. destruct (Hfr p2 Hf2 Hw2) as (Hp2 & Hw20 & Hs20).
  destruct (pt_error abort); [apply Hrestore; [done..|]; intros q []; by apply pool_inv_blocked|].
  assert (Hlast : forall q, pool_inv q -> p_workers q = p_workers p0 -> p_sleeping q = p_sleeping p0 ->
  swp (match first_unassigned (Some groups) n with Some _ => sthrow (RuntimeError "Replica not assigned to any group") |
  None => _ ← gather (fun w ok => (w, Answer false false)) update; restore end) (fun p' _ => pool_inv (set_blocked false p')) q).
  { intros q Hq Hw Hs. destruct (first_unassigned _ _); [by apply pool_inv_blocked|]. apply swp_bind, swp_gather. intros q' Hf' Hw'.
    assert (Hsame : p_workers q' = p_workers q).
    { rewrite Hw'. pose proof (called_keeps id (fun w (ok : bool) => (w, Answer false false)) update (p_workers q) ltac:(done)) as E.
      by rewrite !list_fmap_id in E. }
    assert (Hq' : pool_inv q') by (by eapply pool_inv_wait). destruct (cancelled update); [by apply pool_inv_blocked|].
    apply Hrestore; [done|congruence|destruct Hf' as [_ _ (_ & _ & _ & _ & _ & _ & E & _)]; congruence|]. intros ? ? ?.
    by apply pool_inv_blocked. }
  apply swp_when; intros _; [|by apply Hlast]. apply swp_wait. intros p3 Hf3 Hw3 _.
  destruct (Hfr p3) as (Hp3 & Hw30 & Hs30); [by eapply frame_trans|congruence|].
  destruct (pt_error drained); [apply Hrestore; [done..|]; intros q []; by apply pool_inv_blocked|by apply Hlast].
Qed.

(** *** Slots *)

Lemma lowest_free_spec fuel taken s : (forall j, j < s -> j ∈ taken) -> s + fuel > length (remove_dups taken) ->
    lowest_free fuel taken s ∉ taken /\ forall j, j < lowest_free fuel taken s -> j ∈ taken.
Proof.
  revert s. induction fuel as [|fuel IH]; intros s Hbelow Hlen; simpl.
  - exfalso. assert (Hle : length (seq 0 s) <= length (remove_dups taken)); [|rewrite length_seq in Hle; lia].
    apply NoDup_incl_length; [apply NoDup_ListNoDup, NoDup_seq|]. intros j Hj%list_elem_of_In%elem_of_seq.
    apply list_elem_of_In, elem_of_remove_dups, Hbelow. lia.
  - case_bool_decide as Hs; [|done]. apply IH; [|lia]. intros j Hj. destruct (decide (j = s)) as [->|]; [done|]. apply Hbelow. lia.
Qed.

Lemma remove_dups_length {A} `{EqDecision A} (l : list A) : length (remove_dups l) <= length l.
Proof. induction l as [|x l IH]; simpl; [lia|]. destruct (decide_rel _ _ _); simpl; lia. Qed.

Lemma free_slot_free taken preferred : free_slot taken preferred ∉ taken.
Proof.
  unfold free_slot. assert (H : lowest_free (S (length taken)) taken 0 ∉ taken) by (apply lowest_free_spec;
  [lia|pose proof (remove_dups_length taken); lia]). destruct preferred as [s|]; [|done]. by case_bool_decide.
Qed.

Lemma taken_slots_elem slots node replacing s : s ∈ taken_slots slots node replacing <-> exists i, slots !! i = Some (node, s) /\ replacing <> Some i.
Proof.
  unfold taken_slots. rewrite list_elem_of_In, in_concat. setoid_rewrite <- list_elem_of_In. setoid_rewrite elem_of_lookup_imap. split.
  - intros (l & (i & [n s'] & -> & Hi) & Hs). simpl in Hs. destruct (bool_decide (n = node)) eqn:En; [|by apply not_elem_of_nil in Hs].
    apply bool_decide_eq_true in En as ->. destruct (bool_decide (replacing = Some i)) eqn:Er; [by apply not_elem_of_nil in Hs|].
    apply bool_decide_eq_false in Er. apply list_elem_of_singleton in Hs as ->. eauto.
  - intros (i & Hi & Hr). exists [s]. split; [|by apply list_elem_of_singleton]. exists i, (node, s). split; [|done]. simpl.
    by rewrite (bool_decide_eq_true_2 (node = node)), (bool_decide_eq_false_2 (replacing = Some i)).
Qed.

Lemma place_new_worker_free p w preferred replacing node slot count j :
  place_new_worker p w preferred replacing = (node, slot, count) -> p_slots p !! j = Some (node, slot) -> replacing = Some j.
Proof.
  unfold place_new_worker. intros [= <- <- _] Hj. destruct (decide (replacing = Some j)) as [|Hne]; [done|].
  destruct (free_slot_free (taken_slots (p_slots p) (if p_multi_node p then None else w_node w) replacing) preferred).
  apply taken_slots_elem. eauto.
Qed.

(** The numbers of [_node_slots]: each worker is numbered after the earlier ones of its node. *)
Lemma count_before_lookup seen nodes i n : nodes !! i = Some n -> count_before seen nodes !! i = Some (length (filter (fun m => m = n) (seen
    ++ take i nodes))).
Proof.
  revert seen i. induction nodes as [|m nodes IH]; intros seen i Hi; [done|]. destruct i as [|i]; simpl in *.
  - injection Hi as ->. by rewrite app_nil_r.
  - rewrite (IH _ _ Hi), <- app_assoc. done.
Qed.

Lemma count_before_length seen nodes : length (count_before seen nodes) = length nodes.
Proof. revert seen. induction nodes as [|m nodes IH]; intros seen; simpl; [done|]. by rewrite IH. Qed.

Lemma node_slots_fst nodes : (node_slots nodes).*1 = count_before [] nodes.
Proof.
  unfold node_slots. apply list_eq. intros i. rewrite list_lookup_fmap, lookup_zip_with.
  destruct (count_before [] nodes !! i) as [c|] eqn:Ec; [|done]. simpl.
  assert (Hi : i < length nodes) by (rewrite <- (count_before_length []); by eapply lookup_lt_Some).
  by destruct (lookup_lt_is_Some_2 _ _ Hi) as [n ->].
Qed.

Lemma node_slots_distinct nodes : NoDup (zip nodes (node_slots nodes).*1).
Proof.
  rewrite node_slots_fst. apply NoDup_alt. intros i j [n c] Hi Hj.
  assert (Hlt : forall i j, i < j -> zip nodes (count_before [] nodes) !! i = Some (n, c) ->
  zip nodes (count_before [] nodes) !! j = Some (n, c) -> False).
  { clear. intros i j Hij Hi Hj. apply lookup_zip_Some in Hi as [Hi Hci], Hj as [Hj Hcj]. simpl in *.
    rewrite (count_before_lookup _ _ _ _ Hi) in Hci. rewrite (count_before_lookup _ _ _ _ Hj) in Hcj. injection Hci as Hci.
    injection Hcj as Hcj. simpl in Hci, Hcj.
    rewrite <- (take_drop i (take j nodes)), take_take, Nat.min_l, filter_app, length_app in Hcj by lia. rewrite Hci in Hcj.
    assert (Hd : drop i (take j nodes) !! 0 = Some n) by (rewrite lookup_drop, Nat.add_0_r, lookup_take_lt by lia; done).
    destruct (drop i (take j nodes)) as [|m rest]; [done|]. injection Hd as ->. rewrite filter_cons_True in Hcj by done. simpl in Hcj. lia.
    }
  destruct (Nat.lt_trichotomy i j) as [H|[H|H]]; [destruct (Hlt i j H Hi Hj)|done|destruct (Hlt j i H Hj Hi)].
Qed.

(** *** Scaling *)

Lemma NoDup_take {A} n (l : list A) : NoDup l -> NoDup (take n l).
Proof. intros H. eapply sublist_NoDup; [done|apply sublist_take]. Qed.

Lemma remove_worker_keeps pts : keeps (remove_worker pts).
Proof.
  intros p Hp. unfold remove_worker. apply swp_bind, swp_get, swp_bind. unfold on_scheduler at 1. apply swp_mod.
  set (p1 := set_scheduler _ p). assert (Hp1 : pool_inv p1) by (apply pool_inv_marks; [done|]; intros v; apply mark_alter).
  assert (Hpop : forall q, pool_inv q -> swp (smod (fun p => set_workers (take (length (p_workers p) - 1) (p_workers p)) p);;
  smod (fun p => if length (p_workers p) <? length (p_slots p) then set_pool_slots (take (length (p_slots p) - 1) (p_slots p)) p else p);;
  on_scheduler v_remove_last) (fun q _ => pool_inv q) q).
  { intros q [H1 H2 H3]. apply swp_bind, swp_mod, swp_bind, swp_mod. unfold on_scheduler. apply swp_mod.
    cbn [p_workers set_workers p_slots]. rewrite length_take. destruct (p_scheduler q) as [v|] eqn:Ev.
    - destruct H1 as (H4 & H5 & H6 & H7). assert (Hready : v_paused v = false -> p_sleeping q = false /\
      Forall (fun w => w_state w = READY) (take (length (p_workers q) - 1) (p_workers q))) by (intros Hv; destruct (H7 Hv); split;
      [done|by apply Forall_take]). destruct (_ <? _) eqn:Elt; split; simpl; rewrite ?Ev; simpl; rewrite ?length_take; [split_and!;
      [done|lia|lia|done]|by apply NoDup_take|intros Hm; specialize (H3 Hm); lia| |done|intros Hm; specialize (H3 Hm); lia].
      apply Nat.ltb_ge in Elt. split_and!; [done|lia|lia|done].
    - destruct H1 as (H4 & H5 & H6). rewrite H4, H5. simpl. split; simpl; [by rewrite Ev; simpl; rewrite H5|by rewrite H5; constructor|lia]. }
  apply swp_finally, swp_bind, swp_wait. intros p2 Hf2 Hw2 _. assert (Hp2 : pool_inv p2) by (by eapply pool_inv_wait).
  destruct (pt_error pts.1); [eapply swp_mono; [by apply Hpop|]; by intros ? []|]. apply swp_wait. intros p3 Hf3 Hw3 _.
  eapply swp_mono; [apply Hpop; by eapply pool_inv_wait|]. by intros ? [].
Qed.

Lemma swp_keeps_bind {A B} (m : pm A) (f : A -> pm B) p : swp m (fun p' _ => pool_inv p') p -> (forall a, keeps (f a)) ->
    swp (m ≫= f) (fun p' _ => pool_inv p') p.
Proof. intros Hm Hf. apply swp_bind. eapply swp_mono; [exact Hm|]. intros p' [a|e] Hp'; [by apply Hf|done]. Qed.

Lemma lifecycle_keeps {A} (m : pm A) : keeps m -> keeps (stream_lifecycle m).
Proof. intros Hm p Hp. apply swp_lifecycle. eapply swp_mono; [by apply Hm, pool_inv_blocked|]. intros p' r Hp'. by apply pool_inv_blocked. Qed.

Lemma raise_if_keeps b e : keeps (sraise_if b e).
Proof. intros p Hp. by apply swp_raise_if. Qed.
Lemma require_initialized_keeps : keeps require_initialized.
Proof. intros p Hp. by apply swp_initialized. Qed.
Lemma check_model_id_keeps m : keeps (check_model_id m).
Proof. intros p Hp. by apply swp_check_model. Qed.
#[export] Hint Resolve raise_if_keeps require_initialized_keeps check_model_id_keeps : stx.

Lemma remove_workers_keeps n pts : keeps (remove_workers n pts).
Proof. revert pts. induction n as [|n IH]; intros pts p Hp; [done|]. apply swp_keeps_bind; [by apply remove_worker_keeps|]. intros _. apply IH. Qed.

Lemma scale_down_keeps target pts : keeps (scale_down target pts).
Proof.
  intros p Hp. unfold scale_down. apply swp_keeps_bind; [auto with stx|]. intros _ q Hq.
  apply swp_bind, swp_get, swp_keeps_bind; [auto with stx|]. intros _ r Hr. apply swp_keeps_bind; [auto with stx|]. intros _.
  apply lifecycle_keeps. intros s Hs. apply swp_bind, swp_get. by apply remove_workers_keeps.
Qed.

(** What the scaling up needs beside the invariant: a placement group has room for one worker. *)
Lemma add_new_worker_keeps b p : pool_inv p -> p_scheduler p <> None -> (p_multi_node p = true -> p_workers p = []) ->
  swp (add_new_worker b) (fun p' r => pool_inv p' /\ p_scheduler p' <> None /\ p_multi_node p' = p_multi_node p /\ (r = Ok tt ->
  length (p_workers p') = S (length (p_workers p)))) p.
Proof.
  intros [H1 H2 H3] Hs Hm. unfold add_new_worker, make_worker.
  apply swp_bind, swp_bind, swp_get, swp_bind, swp_mod, swp_ret, swp_bind, swp_get. set (w := Worker _ _ _ _ _). set (p1 := set_actors _ p).
  destruct (place_new_worker p1 w None None) as [[node slot] count] eqn:Ep. destruct (p_scheduler p) as [v|] eqn:Ev; [|done].
  destruct H1 as (H4 & H5 & H6 & H7).
  destruct (b_error b); [split; [split; simpl; [rewrite Ev; by split_and!|done|done]|by simpl; rewrite Ev]|].
  apply swp_bind, swp_mod, swp_bind, swp_mod. unfold on_scheduler. apply swp_mod. simpl. rewrite Ev. simpl.
  split_and!; [|done|done|intros _; rewrite length_app; simpl; lia].
  split; simpl; rewrite ?length_app; simpl.
  - split_and!; [done|lia|lia|]. intros Hv. destruct (H7 Hv). split; [done|]. apply Forall_app. by split; [|constructor].
  - apply NoDup_app. split_and!; [done| |apply NoDup_singleton]. intros x Hx ->%list_elem_of_singleton.
    apply list_elem_of_lookup in Hx as [i Hi]. discriminate (place_new_worker_free _ _ _ _ _ _ _ i Ep Hi).
  - intros Hmn. by rewrite (Hm Hmn).
Qed.

Lemma add_workers_keeps bs p : pool_inv p -> p_scheduler p <> None -> (p_multi_node p = true -> length (p_workers p) + length bs <= 1) ->
    swp (add_workers bs) (fun p' _ => pool_inv p') p.
Proof.
  revert p. induction bs as [|b bs IH]; intros p Hp Hs Hm; [done|]. apply swp_bind.
  eapply swp_mono; [apply add_new_worker_keeps; [done|done|]|]. { intros E. specialize (Hm E). simpl in Hm. apply nil_length_inv. lia. }
  intros p' [[]|e] (Hp' & Hs' & Hm' & Hl); [|done]. apply IH; [done|done|]. rewrite Hm'. intros E. specialize (Hm E).
  specialize (Hl eq_refl). simpl in Hm. lia.
Qed.

Lemma scale_up_keeps target births : keeps (scale_up target births).
Proof.
  intros p Hp. unfold scale_up. apply swp_bind, swp_get, swp_bind, swp_raise_if; intros Hb; [done|].
  apply swp_bind, swp_initialized; [done|]. intros v Hv. apply add_workers_keeps; [done|congruence|]. intros Hm. rewrite Hm in Hb.
  simpl in Hb. apply negb_false_iff, Z.eqb_eq in Hb as ->. rewrite length_fmap, length_seq. destruct Hp as [_ _ H3]. specialize (H3 Hm).
  lia.
Qed.

(** *** The life of the pool *)

Lemma swp_make_workers bs Q p : (forall k ws, length ws = length bs -> Q (set_actors k p) (Ok ws)) -> swp (make_workers bs) Q p.
Proof.
  revert p Q. induction bs as [|b bs IH]; intros p Q HQ; simpl.
  - apply swp_ret. specialize (HQ (p_actors p) [] eq_refl). by destruct p.
  - apply swp_bind. unfold make_worker. apply swp_bind, swp_get, swp_bind, swp_mod, swp_ret, swp_bind, IH. intros k ws Hl.
    apply swp_ret, (HQ k). simpl. by rewrite Hl.
Qed.

Lemma reset_inv p : p_scheduler p = None -> swp reset_lifecycle_state (fun p' _ => pool_inv p') p.
Proof. intros Hs. unfold reset_lifecycle_state. apply swp_mod. split; simpl; [by rewrite Hs|constructor|lia]. Qed.

Lemma replica_count_single ly n : replica_count ly = Ok n -> placement_group ly = true -> n = 1%Z.
Proof. unfold replica_count. intros H E. rewrite E in H. apply bind_Ok_inv in H as (m & [= <-]
  & (? & _ & (? & _ & [= <-])%bind_Ok_inv)%bind_Ok_inv). done. Qed.

Lemma initialize_workers_spec pg bs p :
  p_scheduler p = None ->
  swp (initialize_workers pg bs) (fun p' r => p_scheduler p' = None /\ (r = Ok tt -> p_configured p' = p_configured p /\
  p_multi_node p' = p_multi_node p /\ p_sleeping p' = p_sleeping p /\
    length (p_workers p') = length bs /\ length (p_slots p') = length bs /\ NoDup (p_slots p') /\
    Forall (fun w => w_state w = READY) (p_workers p'))) p.
Proof.
  intros Hs. unfold initialize_workers. apply swp_bind, swp_make_workers. intros k ws Hl. set (nodes := if pg then _ else _).
  apply swp_bind, swp_mod, swp_bind, swp_mod. destruct (first_error bs) as [e|]; [by apply swp_throw|]. apply swp_mod. split; [done|].
  intros _. simpl.
  assert (Hn : length nodes = length bs) by (unfold nodes; destruct pg; by rewrite length_fmap). split_and!; [done..| | |apply node_slots_distinct|].
  - rewrite length_zip_with, Hl. lia.
  - rewrite node_slots_fst, length_zip_with, count_before_length, Hn. lia.
  - apply Forall_lookup. intros i w Hi. apply lookup_zip_with_Some in Hi as (b & w' & -> & _). done.
Qed.

Lemma initialize_keeps model_id cc ly births p : pool_inv p -> (p_configured p = false -> p_scheduler p = None) ->
    swp (initialize model_id cc ly births) (fun p' _ => pool_inv p' /\ (p_configured p' = false -> p_scheduler p' = None)) p.
Proof.
  intros Hp Hc. unfold initialize. apply swp_bind, swp_get, swp_bind, swp_raise_if; intros Hb; [done|]. specialize (Hc Hb).
  destruct Hp as [H1 H2 H3]. rewrite Hc in H1. destruct H1 as (H4 & H5 & H6). apply swp_bind, swp_mod.
  set (p1 := Pool _ _ _ _ _ _ _ _ _ _ _ _ _).
  assert (Hp1 : pool_inv p1) by (split; simpl; [by rewrite Hc|done|intros _; rewrite H4; simpl; lia]).
  destruct (replica_count ly) as [n|e] eqn:En; [|by apply swp_throw].
  apply swp_bind, swp_on_error. eapply swp_mono; [by apply initialize_workers_spec|]. intros p2 [[]|e] [Hs2 Hok]; [|].
  - specialize (Hok eq_refl) as (E1 & E2 & E3 & E4 & E5 & E6 & E7). apply swp_bind, swp_mod, swp_bind, swp_mod, swp_ret.
    split; [|simpl; by rewrite E1]. apply pool_inv_stop. split; simpl; [|done|].
    + rewrite length_replicate, E4, E5, E3. by split_and!.
    + rewrite E2, E4, length_fmap, length_seq. simpl. intros Hpg. by rewrite (replica_count_single _ _ En Hpg).
  - eapply (swp_mono _ (fun p' _ => pool_inv p' /\ p_scheduler p' = None)); [unfold reset_lifecycle_state; apply swp_mod; split; [|done];
    split; simpl; [by rewrite Hs2|constructor|lia]|]. intros p' [] [Hp' Hs']; done.
Qed.

Lemma shutdown_keeps model_id err p : pool_inv p -> swp (shutdown model_id err) (fun p' r => (p' = p /\ r <> Ok tt) \/ (pool_inv p' /\
    p_scheduler p' = None /\ p_configured p' = false)) p.
Proof.
  intros Hp. unfold shutdown. apply swp_bind, swp_check_model; [intros e; by left|].
  apply swp_bind, swp_mod, swp_bind, swp_get, swp_finally. simpl. set (p1 := set_stop true p).
  assert (H : forall r : res unit, swp (smod (set_scheduler None);; reset_lifecycle_state) (fun s' r' => match r' with Ok _ => (s' = p /\
  r <> Ok tt) \/ (pool_inv s' /\ p_scheduler s' = None /\ p_configured s' = false) | Raise e => (s' = p /\
  Raise e <> Ok tt) \/ (pool_inv s' /\ p_scheduler s' = None /\ p_configured s' = false) end) p1).
  { intros r. apply swp_bind, swp_mod. unfold reset_lifecycle_state. apply swp_mod. right. split; [|done]. split; simpl; [done|constructor|lia]. }
  destruct (p_scheduler p), err; apply H.
Qed.

Lemma swp_placement attempts Q p : (forall k r, (forall w, r = Ok w -> w_state w = READY) -> Q (set_actors k p) r) ->
    swp (restart_placement_worker attempts) Q p.
Proof.
  revert p Q. induction attempts as [|b attempts IH]; intros p Q HQ; simpl.
  - apply swp_throw. specialize (HQ (p_actors p) (Raise (RuntimeError "restart deadline")) ltac:(done)). by destruct p.
  - apply swp_bind. unfold make_worker. apply swp_bind, swp_get, swp_bind, swp_mod, swp_ret.
    destruct (b_error b) as [e|]; [|apply swp_ret, HQ; by intros w [= <-]]. destruct (_ || _); [by apply swp_throw, HQ|]. apply IH.
    intros k r Hr. by apply (HQ k).
Qed.

Lemma insert_distinct {A} i (x : A) l : NoDup l -> (forall j, l !! j = Some x -> j = i) -> NoDup (<[i := x]> l).
Proof.
  intros Hl Hx. apply NoDup_alt. intros j k y Hj Hk. destruct (decide (i < length l)) as [Hi|Hi]; [|rewrite list_insert_ge in Hj, Hk by lia;
  by eapply NoDup_lookup]. destruct (decide (j = i)) as [->|Hji], (decide (k = i)) as [->|Hki]; [done|..].
  - rewrite list_lookup_insert_eq in Hj by done. injection Hj as <-. rewrite list_lookup_insert_ne in Hk by done. symmetry. by apply Hx.
  - rewrite list_lookup_insert_eq in Hk by done. injection Hk as <-. rewrite list_lookup_insert_ne in Hj by done. by apply Hx.
  - rewrite list_lookup_insert_ne in Hj, Hk by done. by eapply NoDup_lookup.
Qed.

Lemma restart_tail idx w os p : pool_inv p -> w_state w = READY -> NoDup (<[idx := os]> (p_slots p)) ->
  swp (smod (fun p => set_workers (<[idx := w]> (p_workers p)) p);; smod (fun p => set_pool_slots (<[idx := os]> (p_slots p)) p);;
  on_scheduler (fun v => v_mark_available idx (v_replace idx v))) (fun p' _ => pool_inv p') p.
Proof.
  intros [H1 H2 H3] Hw Hd. apply swp_bind, swp_mod, swp_bind, swp_mod. unfold on_scheduler. apply swp_mod.
  split; simpl; [|done|by rewrite length_insert]. destruct (p_scheduler p) as [v|]; simpl; [|destruct H1 as (-> & ->
  & H1); by rewrite !list_insert_ge by (simpl; lia)].
  destruct H1 as (H4 & H5 & H6 & H7). rewrite !length_alter, !length_insert. split_and!; [done..|]. intros Hv. destruct (H7 Hv).
  split; [done|]. by apply Forall_insert.
Qed.

Lemma restart_worker_keeps idx attempts : keeps (restart_worker idx attempts).
Proof.
  intros p Hp. unfold restart_worker. apply swp_bind, swp_get, swp_bind, swp_raise_if; intros Hb; [done|]. apply Nat.leb_gt in Hb.
  apply swp_bind. unfold on_scheduler at 1. apply swp_mod, swp_bind, swp_get. set (p1 := set_scheduler _ p).
  assert (Hp1 : pool_inv p1) by (apply pool_inv_marks; [done|]; intros v; apply mark_alter). apply swp_bind.
  destruct (p_multi_node p1) eqn:Em.
  - apply swp_bind, swp_placement. intros k [w|e] Hr; [|by apply pool_inv_actors]. apply swp_ret.
    apply (restart_tail idx w (None, 0)); [by apply pool_inv_actors|by apply Hr|]. apply insert_distinct; [apply Hp1|].
    intros j Hj%lookup_lt_Some. destruct Hp1 as [H1 _ H3]. specialize (H3 Em). simpl in *.
    destruct (p_scheduler p); simpl in H1; [|destruct H1 as (H1 & _); rewrite H1 in Hb; simpl in Hb; lia]. destruct H1 as (_ & _ & H1 & _).
    lia.
  - set (b := default _ _). apply swp_bind. unfold make_worker. apply swp_bind, swp_get, swp_bind, swp_mod, swp_ret, swp_bind, swp_get.
    set (w := Worker _ _ _ _ _). set (p2 := set_actors _ p1). destruct (place_new_worker p2 w _ (Some idx)) as [[node slot] count] eqn:Ep.
    destruct (b_error b) as [e|]; [by apply pool_inv_actors|]. apply swp_ret.
    apply (restart_tail idx (initialized b w) (node, slot)); [by apply pool_inv_actors|done|].
    apply insert_distinct; [apply Hp1|]. intros j Hj. by injection (place_new_worker_free _ _ _ _ _ _ _ j Ep Hj).
Qed.

(** *** A synchronisation in which nothing goes wrong *)

Definition calm_wait (n : nat) (g : waiting) : Prop := cancelled g = false /\ forall i, i < n -> fate_of g i = Runs true.
Definition calm (n : nat) (ev : sync_events) : Prop :=
  pt_error (e_abort ev) = None /\ pt_error (e_drain ev) = None /\ calm_wait n (e_pause ev) /\ calm_wait n (e_update ev) /\
  calm_wait n (e_reset ev) /\ calm_wait n (e_resume ev).
Abbreviation all_ready p := (Forall (fun w => w_state w = READY) (p_workers p)).

Lemma swp_gather_calm op g n p Q :
  calm_wait n g -> length (p_workers p) = n -> all_ready p -> (forall w ok, w_state w = READY -> w_state (op w ok).1 = READY) ->
  (forall p', length (p_workers p') = n -> all_ready p' -> Q p' (Ok ((fun w => (op w true).2) <$> p_workers p))) -> swp (gather op g) Q p.
Proof.
  intros [Hc Hf] Hn Hr Hop HQ. apply swp_gather. intros p' [_ Hl _] Hw. rewrite Hc.
  replace (called op g (p_workers p)).*2 with ((fun w => (op w true).2) <$> p_workers p); [apply HQ; [congruence|rewrite Hw;
  by apply called_forall]|]. apply list_eq. intros i. rewrite !list_lookup_fmap. unfold called. rewrite list_lookup_imap.
  destruct (p_workers p !! i) as [w|] eqn:E; [|done]. simpl. rewrite (Hf i) by (rewrite <- Hn; by eapply lookup_lt_Some). done.
Qed.

Lemma no_failure op (ws : list worker) : Forall (fun w => w_state w = READY) ws -> (forall w, w_state w = READY ->
    worker_result_failed (op w).2 = false) -> existsb worker_result_failed ((fun w => (op w : worker * answer).2) <$> ws) = false.
Proof. intros Hr Hop. induction Hr as [|w ws Hw Hr IH]; [done|]. rewrite fmap_cons. simpl. by rewrite (Hop w Hw), IH. Qed.

Lemma all_reset (ws : list worker) : Forall (fun w => w_state w = READY) ws ->
    forallb answered_reset_ok ((fun w => (w_reset_prefix_cache w true).2) <$> ws) = true.
Proof. induction 1 as [|w ws Hw Hr IH]; [done|]. rewrite fmap_cons. simpl. rewrite IH. unfold w_reset_prefix_cache. by rewrite Hw. Qed.

Definition fine {A} (n : nat) (p : pool) (r : res A) : Prop := (exists a, r = Ok a) /\ length (p_workers p) = n /\ all_ready p.

Lemma wait_calm pt n p : pt_error pt = None -> length (p_workers p) = n -> all_ready p -> swp (wait_for pt) (fine n) p.
Proof. intros Hpt Hn Hr. apply swp_wait. intros p' _ Hw _. rewrite Hpt. split; [eauto|]. by rewrite Hw. Qed.

Lemma pause_calm ev mode cc n p : calm n ev -> length (p_workers p) = n -> all_ready p ->
    swp (pause_generation_for_weight_sync ev mode cc) (fine n) p.
Proof.
  intros (_ & _ & Hc & _) Hn Hr. unfold pause_generation_for_weight_sync. apply swp_bind, swp_get, swp_bind.
  eapply swp_gather_calm; [exact Hc|done|done|intros w ok Hw; by rewrite (proj1 (pause_keeps w ok))|]. intros p' Hl Hr'.
  rewrite no_failure; [|done|intros w Hw; unfold w_pause_generation; by rewrite Hw]. apply swp_ret. split; [eauto|done].
Qed.
Lemma resume_calm ev n p : calm n ev -> length (p_workers p) = n -> all_ready p -> swp (resume_generation_after_weight_sync ev) (fine n) p.
Proof.
  intros (_ & _ & _ & _ & _ & Hc) Hn Hr. unfold resume_generation_after_weight_sync. apply swp_bind.
  eapply swp_gather_calm; [exact Hc|done|done|intros w ok Hw; by rewrite (proj1 (resume_keeps w ok))|]. intros p' Hl Hr'.
  rewrite no_failure; [|done|intros w Hw; unfold w_resume_generation; by rewrite Hw]. split; [eauto|done].
Qed.
Lemma reset_calm ev b n p : calm n ev -> length (p_workers p) = n -> all_ready p -> swp (reset_prefix_cache_after_weight_sync ev b) (fine n) p.
Proof.
  intros (_ & _ & _ & _ & Hc & _) Hn Hr. unfold reset_prefix_cache_after_weight_sync. apply swp_bind.
  eapply swp_gather_calm; [exact Hc|done|done|intros w ok Hw; by rewrite reset_keeps|]. intros p' Hl Hr'.
  rewrite all_reset, andb_false_r by done. split; [eauto|done].
Qed.

Lemma lift_calm {A} (m : pm A) n p l : swp m (fine n) p -> swp (lift_pool m) (fun s r => fine n s.1 r) (p, l).
Proof. intros H. by apply swp_lift. Qed.
Lemma bind_calm {A B} (m : stx (pool * locals) A) (f : A -> stx (pool * locals) B) n s :
  swp m (fun s r => fine n s.1 r) s -> (forall a s, length (p_workers s.1) = n -> all_ready s.1 -> swp (f a) (fun s r => fine n s.1 r) s) ->
  swp (m ≫= f) (fun s r => fine n s.1 r) s.
Proof. intros Hm Hf. apply swp_bind. eapply swp_mono; [exact Hm|]. intros s' r ([a ->] & Hn & Hr). by apply Hf. Qed.
Lemma step_calm (m : stx (pool * locals) unit) n s : (forall s, p_workers (m s).1.1 = p_workers s.1 /\ (m s).2 = Ok tt) ->
    length (p_workers s.1) = n -> all_ready s.1 -> swp m (fun s r => fine n s.1 r) s.
Proof. intros Hm Hn Hr. unfold swp. destruct (Hm s) as [E1 E2]. rewrite E2. split; [eauto|]. by rewrite E1. Qed.
Lemma when_calm b (m : stx (pool * locals) unit) n s : length (p_workers s.1) = n -> all_ready s.1 -> swp m (fun s r => fine n s.1 r) s ->
    swp (swhen b m) (fun s r => fine n s.1 r) s.
Proof. intros Hn Hr Hm. apply swp_when; intros _; [done|]. split; [eauto|done]. Qed.

Lemma update_calm v groups ev n p l : calm n ev -> length (p_workers p) = n -> all_ready p -> first_unassigned groups n = None ->
    swp (update_weights v groups ev) (fun s r => fine n s.1 r) (p, l).
Proof.
  intros (_ & _ & _ & Hc & _) Hn Hr Hg. unfold update_weights. apply swp_bind, swp_get. cbn [fst]. rewrite Hn, Hg.
  apply swp_bind, swp_lift, swp_mod. apply bind_calm; [apply when_calm; [done|done|]; by apply step_calm|]. intros _ [p1 l1] Hn1 Hr1.
  simpl in Hn1, Hr1. apply swp_bind, swp_lift. eapply swp_gather_calm; [exact Hc|done|done|intros w ok Hw; by rewrite update_keeps|].
  intros p' Hl Hr'. rewrite (no_failure (fun w => w_sync_weights v w true)) by done. split; [eauto|done].
Qed.

Lemma sync_body_calm st mode cc v groups ev n p l : calm n ev -> length (p_workers p) = n -> all_ready p ->
    first_unassigned groups n = None -> swp (sync_body st mode cc v groups ev) (fun s r => fine n s.1 r) (p, l).
Proof.
  intros Hc Hn Hr Hg. unfold sync_body. apply swp_bind, swp_get. apply bind_calm; [destruct st; by apply step_calm|].
  intros _ [p1 l1] Hn1 Hr1. apply bind_calm; [apply lift_calm, wait_calm; [apply Hc|done|done]|]. intros _ [p2 l2] Hn2 Hr2. apply bind_calm.
  { destruct st; [|apply lift_calm, wait_calm; [apply Hc|done|done]|by apply step_calm|by apply step_calm].
    apply bind_calm; [by apply lift_calm, pause_calm|]. intros _ s Hns Hrs. apply bind_calm; [by apply step_calm|].
    intros _ [p4 l4] Hn4 Hr4. apply when_calm; [done|done|]. apply lift_calm, wait_calm; [apply Hc|done|done]. }
  intros _ [p3 l3] Hn3 Hr3. apply bind_calm; [by apply update_calm|]. intros _ [p4 l4] Hn4 Hr4.
  apply bind_calm; [apply when_calm; [done|done|]; by apply lift_calm, reset_calm|]. intros _ s Hns Hrs. by apply step_calm.
Qed.

Lemma sync_finally_calm st was avail ev n s : calm n ev -> length (p_workers s.1) = n -> all_ready s.1 ->
    swp (sync_finally st was avail ev) (fun s r => fine n s.1 r) s.
Proof.
  intros Hc Hn Hr. unfold sync_finally. apply bind_calm; [by apply step_calm|]. intros _ s1 Hn1 Hr1. apply swp_bind, swp_get.
  apply bind_calm; [|intros _ s2 Hn2 Hr2; apply when_calm; [done|done|]; by apply step_calm].
  destruct (bool_decide (st = Pause)); [|apply when_calm; [done|done|]; by apply step_calm].
  apply bind_calm; [|intros _ s2 Hn2 Hr2; apply when_calm; [done|done|]; by apply step_calm]. apply when_calm; [done|done|].
  destruct s1 as [p1 l1]. by apply lift_calm, resume_calm.
Qed.

Lemma weight_sync_calm model_id st st' mode mode' cc engine_only v groups ev p view :
  strategy_of st = Ok st' -> pause_mode_of mode = Ok mode' -> p_scheduler p = Some view -> (model_id = None \/ model_id = p_model_id p) ->
  calm (length (p_workers p)) ev -> all_ready p -> first_unassigned groups (length (p_workers p)) = None ->
  swp (weight_sync model_id st mode cc engine_only v groups ev) (fun _ r => r = Ok tt) p.
Proof.
  intros Hst Hmode Hv Hid Hc Hr Hg. unfold weight_sync. rewrite Hst, Hmode. apply swp_bind. unfold check_model_id. apply swp_bind, swp_get.
  assert (Hnext : forall Q, Q p (Ok tt) -> swp (match model_id, p_model_id p with Some m,
  Some m' => sraise_if (negb (String.eqb m m')) (ValueError "model_id mismatch") | _, _ => sret tt end) Q p).
  { intros Q HQ. destruct Hid as [->| ->]; [done|]. destruct (p_model_id p); [|done]. by rewrite String.eqb_refl. }
  apply Hnext. apply swp_bind, swp_initialized; [congruence|]. intros _ _. apply swp_lifecycle, swp_bind, swp_get. unfold without_locals.
  set (m := sfinally _ _). set (p0 := set_blocked true p). assert (H : swp m (fun s r => fine (length (p_workers p)) s.1 r) (p0,
  locals_new)).
  { apply swp_finally. eapply swp_mono; [by apply sync_body_calm|]. intros s r ([[] ->] & Hn1 & Hr1).
    eapply swp_mono; [by apply sync_finally_calm|]. intros s' r' ([[] ->] & ?). by split; [eauto|]. }
  unfold swp in *. destruct (m (p0, locals_new)) as [[p' l'] r]. simpl in *. by destruct H as [[[] ->] _].
Qed.

(** ** The view and the scheduler *)

Lemma view_pause s : view_of (sched_pause s) = v_pause (view_of s) /\ view_of (sched_resume s) = v_resume (view_of s).
Proof. done. Qed.

Lemma view_update f g idx s s' : update_worker f idx s = Ok s' -> (forall w,
    Flags (available (f w)) (quarantined (f w)) = g (Flags (available w) (quarantined w))) ->
  view_of s' = View (v_paused (view_of s)) (alter g (Z.to_nat idx) (v_workers (view_of s))).
Proof. intros (u & _ & [= <-])%bind_Ok_inv Hfg. unfold view_of. simpl. f_equal. apply list_eq. intros i. rewrite list_lookup_fmap.
  destruct (decide (i = Z.to_nat idx)) as [->|Hne]; [rewrite !list_lookup_alter_eq, list_lookup_fmap|rewrite !list_lookup_alter_ne,
  list_lookup_fmap by done; done]. destruct (sc_workers s !! Z.to_nat idx); simpl; [by rewrite Hfg|done]. Qed.

(** The marks of the scheduler are those of the view. *)
Lemma view_marks idx s s' :
  (mark_worker_unavailable idx s = Ok s' -> view_of s' = v_unavailable (Z.to_nat idx) (view_of s)) /\
  (mark_worker_available idx s = Ok s' -> view_of s' = v_mark_available (Z.to_nat idx) (view_of s)) /\
  (update_worker_handle idx s = Ok s' -> view_of s' = v_replace (Z.to_nat idx) (view_of s)) /\
  (update_worker quarantine idx s = Ok s' -> view_of s' = v_quarantine (Z.to_nat idx) (view_of s)) /\
  (remove_last_worker s = Ok s' -> view_of s' = v_remove_last (view_of s)).
Proof.
  split_and!; [by intros H; apply (view_update _ _ _ _ _ H)..|]. intros (u & _ & [= <-])%bind_Ok_inv. unfold view_of, v_remove_last. simpl.
    by rewrite length_fmap, fmap_take.
Qed.

Lemma view_add limit s : view_of (add_worker limit s) = v_add (view_of s).
Proof. unfold view_of, v_add. simpl. by rewrite fmap_app. Qed.

Lemma view_release obj s : view_of (release obj s) = view_of s.
Proof. unfold view_of, release. simpl. f_equal. rewrite <- list_fmap_compose. apply list_fmap_ext. intros i w _. simpl. by destruct (_ =? _). Qed.
Lemma view_release_last last s : view_of (release_last last s) = view_of s.
Proof. destruct last; [apply view_release|done]. Qed.

(** Requests do not change the view, and one is admitted only by a scheduler that is not paused, to a worker that is available. *)
Lemma view_turn cf id now s : sched_inv cf s ->
  view_of (process_turn cf id now s).2 = view_of s /\ forall idx, (process_turn cf id now s).1 = TurnAdmitted idx ->
  v_paused (view_of s) = false /\ is_worker_available idx (view_of s) = true.
Proof.
  intros [HA HF]. unfold process_turn. destruct (sc_tasks s !! id) as [[req [last|]]|]; try done.
  destruct (sc_stopped s); [split; [cbn [snd]; by rewrite view_release_last|done]|]. destruct (sc_paused s) eqn:Ep; [done|].
  destruct (decide (sc_workers s = [])) as [Hnil|Hws].
  { destruct (route_raised_core cf req now s HF) as [(asg & c & n & E) _]. destruct (route_nil cf req now s HF Hnil) as [e ->].
    cbn [fst snd]. rewrite view_release_last, E. done. }
  destruct (route_ok cf req now s HF Hws) as (idx & s1 & -> & (asg & c & n & ->) & [Hlt _] & _).
  cbn [with_affinity sc_workers sc_inflight sc_tasks]. destruct (lookup_lt_is_Some_2 _ _ Hlt) as [w Hw]. rewrite Hw.
  destruct (schedulable w && _) eqn:Es; [|done]. apply andb_true_iff in Es as [Es _].
  assert (Hview : forall k, (fun w => Flags (available w) (quarantined w)) <$> alter (set_active k) idx (sc_workers s) = (fun w => Flags
  (available w) (quarantined w)) <$> sc_workers s).
  { intros k. apply list_eq. intros i. rewrite !list_lookup_fmap.
    destruct (decide (i = idx)) as [->|Hne]; [rewrite list_lookup_alter_eq;
    by destruct (sc_workers s !! idx)|by rewrite list_lookup_alter_ne]. }
  assert (Hav : is_worker_available idx (view_of s) = true) by (unfold is_worker_available, view_of; simpl; by rewrite list_lookup_fmap, Hw).
  cbn [with_workers with_affinity sc_inflight]. destruct (sc_inflight s !! idx) as [ts|]; unfold view_of; simpl; rewrite Hview; [|done].
  split; [done|]. intros i [= <-]. by rewrite Ep.
Qed.

(** Streams do not change the view either before they end, and are admitted likewise. *)
Lemma view_stream_turn cf rid now s idx : sched_inv cf s -> (stream_turn cf rid now s).1 = StreamAdmitted idx ->
  v_paused (view_of s) = false /\ is_worker_available idx (view_of s) = true.
Proof.
  intros HI H. destruct (stream_turn_admits cf s rid now idx HI H) as (w & Hw & Hs & _).
  unfold is_worker_available, view_of. simpl. rewrite list_lookup_fmap, Hw. split; [|done]. unfold stream_turn in H.
  destruct (tb_streams (sc_table s) !! rid) as [[req [code|] [o|]]|]; try done. destruct (sc_stopped s); [done|]. by destruct (sc_paused s).
Qed.

(** ** Invariants of whole operations *)

(** What an operation relates by a preorder of pools, from its parts. *)
Section stable.
Context {S : Type} (proj : S -> pool) (R : pool -> pool -> Prop) `{HR : !PreOrder R}.

Definition stable {A} (m : stx S A) : Prop := forall s, R (proj s) (proj (m s).1).

Lemma stable_ret {A} (a : A) : stable (sret a).
Proof. intros s. simpl. reflexivity. Qed.
Lemma stable_throw {A} e : stable (sthrow (A := A) e).
Proof. intros s. simpl. reflexivity. Qed.
Lemma stable_get : stable sget.
Proof. intros s. simpl. reflexivity. Qed.
Lemma stable_mod f : (forall s, R (proj s) (proj (f s))) -> stable (smod f).
Proof. intros H s. apply H. Qed.
Lemma stable_bind {A B} (m : stx S A) (f : A -> stx S B) : stable m -> (forall a, stable (f a)) -> stable (m ≫= f).
Proof.
  intros Hm Hf s. specialize (Hm s). unfold mbind, stx_bind, sbind. destruct (m s) as [s1 [a|e]]; [|done].
  etransitivity; [exact Hm|apply Hf].
Qed.
Lemma stable_when b m : stable m -> stable (swhen b m).
Proof. destruct b; [done|]. intros _. apply stable_ret. Qed.
Lemma stable_raise_if b e : stable (sraise_if b e).
Proof. destruct b; [apply stable_throw|apply stable_ret]. Qed.
Lemma stable_finally {A} (m : stx S A) fin : stable m -> stable fin -> stable (sfinally m fin).
Proof.
  intros Hm Hf s. specialize (Hm s). unfold sfinally. destruct (m s) as [s1 r]. specialize (Hf s1). simpl in *.
  destruct (fin s1) as [s2 [u|e]]; by etransitivity.
Qed.
Lemma stable_on_error {A} (m : stx S A) h : stable m -> stable h -> stable (son_error m h).
Proof.
  intros Hm Hf s. specialize (Hm s). unfold son_error. destruct (m s) as [s1 [a|e]]; [done|]. specialize (Hf s1). simpl in *.
  destruct (h s1) as [s2 [u|e']]; by etransitivity.
Qed.
End stable.

Lemma stable_lift R {A} (m : pm A) : stable id R m -> stable fst R (lift_pool m).
Proof. intros H [p l]. specialize (H p). unfold lift_pool. simpl. by destruct (m p). Qed.
Lemma stable_without_locals R {A} (m : stx (pool * locals) A) : stable fst R m -> stable id R (without_locals m).
Proof. intros H p. specialize (H (p, locals_new)). unfold without_locals. by destruct (m (p, locals_new)) as [[p' l] r]. Qed.

Create HintDb stable.
#[export] Hint Resolve stable_ret stable_throw stable_get stable_bind stable_when stable_raise_if stable_finally stable_on_error stable_lift
    stable_without_locals : stable.
#[export] Hint Extern 3 (stable _ _ (match ?x with _ => _ end)) => destruct x : stable.
#[export] Hint Extern 1 (forall _, stable _ _ _) => intro : stable.

(** Only [shutdown] takes the scheduler away. *)
Definition alive (p p' : pool) : Prop := is_Some (p_scheduler p) -> is_Some (p_scheduler p').
#[export] Instance alive_preorder : PreOrder alive.
Proof. split; [intros p H; exact H|]. intros p q r H1 H2 H. by apply H2, H1. Qed.
#[export] Hint Resolve alive_preorder : stable.

Lemma alive_mod {S} (proj : S -> pool) f : (forall s, p_scheduler (proj (f s)) = p_scheduler (proj s)) -> stable proj alive (smod f).
Proof. intros H. apply stable_mod. intros s. unfold alive. by rewrite H. Qed.
#[export] Hint Extern 2 (stable _ alive (smod _)) => apply alive_mod; intros; reflexivity : stable.

Lemma alive_on_scheduler f : stable id alive (on_scheduler f).
Proof. apply stable_mod. intros p. unfold alive. simpl. by rewrite fmap_is_Some. Qed.
#[export] Hint Resolve alive_on_scheduler : stable.
Lemma alive_wait pt : stable id alive (wait_for pt).
Proof. unfold wait_for, quarantine_all. auto 10 with stable. Qed.
Lemma alive_gather op g : stable id alive (gather op g).
Proof. unfold gather, quarantine_all. auto 10 with stable. Qed.
Lemma alive_lifecycle {A} (m : pm A) : stable id alive m -> stable id alive (stream_lifecycle m).
Proof. intros H. unfold stream_lifecycle. auto 10 with stable. Qed.
Lemma alive_check_model_id m : stable id alive (check_model_id m).
Proof. unfold check_model_id. auto 10 with stable. Qed.
Lemma alive_require_initialized : stable id alive require_initialized.
Proof. unfold require_initialized. auto 10 with stable. Qed.
#[export] Hint Resolve alive_wait alive_gather alive_lifecycle alive_check_model_id alive_require_initialized : stable.

Lemma alive_weight_sync model_id st mode cc engine_only v groups ev : stable id alive (weight_sync model_id st mode cc engine_only v groups ev).
Proof.
  unfold weight_sync. destruct (strategy_of st) as [st'|]; [|auto with stable]. destruct (pause_mode_of mode); [|auto with stable].
  apply stable_bind; [apply _|auto with stable|]. intros _. apply stable_bind; [apply _|auto with stable|]. intros _.
  apply alive_lifecycle, stable_bind; [apply _|auto with stable|]. intros p. apply stable_without_locals, stable_finally; [apply _|..].
  - unfold sync_body, update_weights, send_before, set_local, pause_generation_for_weight_sync, reset_prefix_cache_after_weight_sync,
      mark_all_unavailable. auto 40 with stable.
  - unfold sync_finally, resume_generation_after_weight_sync, mark_available. auto 40 with stable.
Qed.

Lemma alive_sync_spec_weights model_id st groups abort drained update : stable id alive (sync_spec_weights model_id st groups abort drained update).
Proof. unfold sync_spec_weights, mark_all_unavailable, mark_available. auto 30 with stable. Qed.

Lemma alive_remove_workers n pts : stable id alive (remove_workers n pts).
Proof.
  revert pts. induction n as [|n IH]; intros pts; simpl; [auto with stable|]. apply stable_bind; [apply _| |auto]. unfold remove_worker.
  apply stable_bind; [apply _|auto with stable|]. intros p. apply stable_bind; [apply _|auto with stable|]. intros _.
  apply stable_finally; [apply _|auto with stable|]. apply stable_bind; [apply _|auto with stable|]. intros _.
  apply stable_bind; [apply _| |auto with stable]. apply alive_mod. intros q. unfold id. by destruct (_ <? _).
Qed.

Lemma alive_scale_down target pts : stable id alive (scale_down target pts).
Proof. unfold scale_down. auto 20 using alive_remove_workers with stable. Qed.

Lemma alive_scale_up target births : stable id alive (scale_up target births).
Proof.
  unfold scale_up. assert (H : forall bs, stable id alive (add_workers bs)); [|auto 20 with stable].
  induction bs as [|b bs IH]; simpl; [auto with stable|]. apply stable_bind; [apply _| |auto]. unfold add_new_worker, make_worker.
  apply stable_bind; [apply _|auto 20 with stable|]. intros w. apply stable_bind; [apply _|auto with stable|]. intros p.
  destruct (place_new_worker _ _ _ _) as [[node slot] count]. auto 20 with stable.
Qed.

(** ** The life of a pool *)

(** The operations that hold the pool's lock, each from the moment it gets the lock: what a call
    checked before it waited for the lock may have changed meanwhile.  A call whose checks fail
    changes nothing.  [OpSync] is [sync_weights] and [sync_weights_broadcast] (with the groups that
    the call computed), [OpQuarantine] the scheduler's quarantines in between. *)
Inductive pool_op :=
  | OpSleep (abort drained : pause_point) (calls : waiting)
  | OpWakeUp (tags : option (list string)) (calls : waiting)
  | OpResetPrefixCache (drain : bool) (drained : pause_point) (calls : waiting)
  | OpSync (st mode : string) (clear_cache engine_only : bool) (v : nat) (groups : option (list nat)) (ev : sync_events)
  | OpSyncSpec (st : strategy) (groups : list nat) (abort drained : pause_point) (update : waiting)
  | OpScaleDown (target : Z) (pts : list (pause_point * pause_point))
  | OpScaleUp (target : Z) (births : nat -> birth)
  | OpQuarantine (qs : list nat).

Definition run_pool_op (p : pool) (o : pool_op) : pool :=
  match o with
  | OpSleep abort drained calls => (sleep_locked abort drained calls p).1
  | OpWakeUp tags calls => (wake_up_locked tags calls p).1
  | OpResetPrefixCache drain drained calls => (reset_prefix_cache None drain drained calls p).1
  | OpSync st mode cc engine_only v groups ev => (weight_sync None st mode cc engine_only v groups ev p).1
  | OpSyncSpec st groups abort drained update => (sync_spec_weights None st groups abort drained update p).1
  | OpScaleDown target pts => (scale_down target pts p).1
  | OpScaleUp target births => (scale_up target births p).1
  | OpQuarantine qs => (quarantine_all qs p).1
  end.

(** The two calls that can resume the scheduler over workers that are not ready: a reset of the
    prefix cache that drains although the scheduler is paused, and a wake with odd tags. *)
Definition careless (p : pool) (o : pool_op) : bool :=
  match o with
  | OpResetPrefixCache drain _ _ => drain && scheduler_paused p
  | OpWakeUp tags _ => odd_wake tags
  | _ => false
  end.

Fixpoint run_pool_ops (p : pool) (os : list pool_op) : pool := match os with [] => p | o :: os => run_pool_ops (run_pool_op p o) os end.
Fixpoint careless_in (p : pool) (os : list pool_op) : bool :=
  match os with [] => false | o :: os => careless p o || careless_in (run_pool_op p o) os end.

Lemma run_pool_op_inv p o : careless p o = false -> is_Some (p_scheduler p) -> pool_inv p ->
  pool_inv (run_pool_op p o) /\ is_Some (p_scheduler (run_pool_op p o)).
Proof.
  intros Hc [v Hv] Hp. assert (Hs : is_Some (p_scheduler p)) by eauto.
  destruct o as [abort drained calls|tags calls|drain drained calls|st mode cc e n groups ev|st groups abort drained update|target
  pts|target births|qs]; simpl in *.
  - split; [by eapply sleep_locked_keeps|]. assert (H : stable id alive (sleep_locked abort drained calls)) by (unfold sleep_locked;
    auto 20 with stable). by apply H.
  - split; [by eapply wake_up_locked_keeps|]. assert (H : stable id alive (wake_up_locked tags calls)) by (unfold wake_up_locked;
    auto 20 with stable). by apply H.
  - split; [apply reset_prefix_cache_keeps; [|done]; destruct drain; [done|by intros]|].
    assert (H : stable id alive (reset_prefix_cache None drain drained calls)) by (unfold reset_prefix_cache; auto 20 with stable). by apply H.
  - split; [by apply weight_sync_keeps|by apply alive_weight_sync].
  - split; [by apply sync_spec_weights_keeps|by apply alive_sync_spec_weights].
  - split; [by apply scale_down_keeps|by apply alive_scale_down].
  - split; [by apply scale_up_keeps|by apply alive_scale_up].
  - split; [eapply pool_inv_wait; [exact Hp|apply frame_quarantine|done]|]. by apply alive_on_scheduler.
Qed.

Lemma run_pool_ops_inv os : forall p, careless_in p os = false -> is_Some (p_scheduler p) -> pool_inv p ->
  pool_inv (run_pool_ops p os) /\ is_Some (p_scheduler (run_pool_ops p os)).
Proof.
  induction os as [|o os IH]; intros p; simpl; [done|]. intros [Hc Hcs]%orb_false_iff Hs Hp.
  destruct (run_pool_op_inv p o Hc Hs Hp) as [Hp' Hs']. by apply IH.
Qed.

Lemma initialize_started model_id cc ly births p n :
  initialize model_id cc ly births pool_new = (p, Ok n) -> pool_inv p /\ is_Some (p_scheduler p).
Proof.
  intros E. split.
  - pose proof (initialize_keeps model_id cc ly births pool_new pool_inv_new (fun _ => eq_refl)) as H. unfold swp in H. rewrite E in H. apply H.
  - assert (H : swp (initialize model_id cc ly births) (fun p r => forall n, r = Ok n -> is_Some (p_scheduler p)) pool_new).
    { unfold initialize. apply swp_bind, swp_get, swp_bind, swp_raise_if; intros _; [done|]. apply swp_bind, swp_mod.
      destruct (replica_count ly) as [k|]; [|done]. apply swp_bind. set (bs := births <$> _). set (m := son_error _ _).
      set (p1 := Pool _ _ _ _ _ _ _ _ _ _ _ _ _). unfold swp at 1. destruct (m p1) as [p2 [u|e]]; [|done].
      apply swp_bind, swp_mod, swp_bind, swp_mod, swp_ret. simpl. eauto. }
    unfold swp in H. rewrite E in H. simpl in H. by eapply H.
Qed.

(** ** Reachable pools *)

(** The operations of the pool over several lives, each as one step, and quarantines by the
    scheduler in between; [initialize], [shutdown] and [_restart_worker], which do not hold the
    lock, do not overlap with others here.  A wake does not have odd tags; the prefix cache is
    reset with [drain] while the scheduler runs. *)
Inductive pool_step : pool -> pool -> Prop :=
  | do_initialize model_id cc ly births p : pool_step p (initialize model_id cc ly births p).1
  | do_shutdown model_id err p : pool_step p (shutdown model_id err p).1
  | do_sleep model_id abort drained calls p : pool_step p (sleep model_id abort drained calls p).1
  | do_wake_up model_id tags calls p : odd_wake tags = false -> pool_step p (wake_up model_id tags calls p).1
  | do_reset_prefix_cache model_id drain drained calls p : (drain = true -> scheduler_paused p = false) ->
    pool_step p (reset_prefix_cache model_id drain drained calls p).1
  | do_sync_weights model_id st mode cc engine_only n groups master ev p : pool_step p (sync_weights model_id st mode cc engine_only n
    groups master ev p).1
  | do_sync_weights_broadcast model_id st mode cc engine_only n ev p : pool_step p (sync_weights_broadcast model_id st mode cc engine_only n ev p).1
  | do_sync_spec_weights model_id st groups abort drained update p : pool_step p (sync_spec_weights model_id st groups abort drained update p).1
  | do_scale_down target pts p : pool_step p (scale_down target pts p).1
  | do_scale_up target births p : pool_step p (scale_up target births p).1
  | do_restart_worker idx attempts p : pool_step p (restart_worker idx attempts p).1
  | do_quarantine qs p : pool_step p (quarantine_all qs p).1.

Definition pool_reachable (p : pool) : Prop := rtc pool_step pool_new p.

Lemma sync_weights_keeps model_id st mode cc engine_only n groups master ev : keeps (sync_weights model_id st mode cc engine_only n groups master ev).
Proof.
  intros p Hp. unfold sync_weights. apply swp_bind, swp_get. destruct groups as [groups|]; [by apply weight_sync_keeps|].
  destruct master; [by apply weight_sync_keeps|]. destruct (strategy_of st); [|done]. destruct (pause_mode_of mode); [|done].
  apply swp_keeps_bind; [auto with stx|]. intros _ q Hq. apply swp_keeps_bind; [auto with stx|]. done.
Qed.

Lemma unconfigured p : pool_inv p -> p_configured p = false -> p_scheduler p = None.
Proof. intros [H _ _] Hc. destruct (p_scheduler p); [|done]. destruct H as [H _]. congruence. Qed.

Lemma pool_step_inv p p' : pool_step p p' -> pool_inv p -> pool_inv p'.
Proof.
  intros [] Hp.
  - apply (initialize_keeps model_id cc ly births); [done|by apply unconfigured].
  - destruct (shutdown_keeps model_id err _ Hp) as [[-> _]|[H _]]; done.
  - by apply sleep_keeps.
  - by apply wake_up_keeps.
  - by apply reset_prefix_cache_keeps.
  - by apply sync_weights_keeps.
  - by apply weight_sync_keeps.
  - by apply sync_spec_weights_keeps.
  - by apply scale_down_keeps.
  - by apply scale_up_keeps.
  - by apply restart_worker_keeps.
  - eapply pool_inv_wait; [exact Hp|apply frame_quarantine|done].
Qed.

Lemma pool_reachable_inv p : pool_reachable p -> pool_inv p.
Proof. intros H. unfold pool_reachable in H. apply (rtc_ind_r pool_inv pool_new) in H; [done|apply pool_inv_new|]. intros q r _ Hs Hq.
  by eapply pool_step_inv. Qed.

(** ** Claims *)



(** C18: a synchronisation of the weights that pauses, drains or skips, whatever happens to its
    calls and waits: a request or stream that the scheduler admits afterwards finds all workers ready, and
    with the weights they had before or all with the new ones; a synchronisation that returns
    has given every worker the new weights, restored the scheduler and resumed the generation;
    and it does return when every call arrives, every engine does its part and the groups cover
    the replicas. *)
Theorem sync_weights_safe model_id st st' mode mode' cc n groups ev p v p' r :
  pool_reachable p -> p_scheduler p = Some v -> strategy_of st = Ok st' -> pause_mode_of mode = Ok mode' -> st' <> Hotswap ->
  weight_sync model_id st mode cc false n groups ev p = (p', r) ->
  (forall cf s now idx, sched_reachable cf s -> p_scheduler p' = Some (view_of s) ->
    (exists id, (process_turn cf id now s).1 = TurnAdmitted idx) \/ (exists rid, (stream_turn cf rid now s).1 = StreamAdmitted idx) ->
    Forall (fun w => w_state w = READY) (p_workers p') /\ is_worker_available idx v = true /\
      (versions p' = versions p \/ Forall (fun w => w_version w = Some n) (p_workers p'))) /\
  (r = Ok tt -> Forall (fun w => w_version w = Some n) (p_workers p') /\ scheduler_paused p' = v_paused v /\ (st' = Pause ->
    Forall (fun w => w_state w = READY -> w_generation_paused w = false) (p_workers p'))) /\
  (calm (length (p_workers p)) ev -> Forall (fun w => w_state w = READY) (p_workers p) ->
    first_unassigned groups (length (p_workers p)) = None -> model_id = None \/ model_id = p_model_id p -> r = Ok tt).
Proof.
  intros Hp%pool_reachable_inv Hv Hst Hmode Hns E. assert (Hm : pool_matches p) by (destruct Hp as [H _ _]; unfold pool_matches;
  rewrite Hv in *; apply H).
  pose proof (weight_sync_spec model_id st st' mode mode' cc false n groups ev p v Hst Hmode Hv Hm) as Hs.
  pose proof (weight_sync_keeps model_id st mode cc false n groups ev p Hp) as Hk. unfold swp in Hs, Hk. rewrite E in Hs, Hk.
  simpl in Hs, Hk. destruct Hs as [(v' & Hv' & Hlen & Hpa & Hav & Hserve & Hok) Hstates Hsame Hall Hgen]. split_and!.
  - intros cf s now idx Hinv%reachable_sched_inv Hvs Hadm. rewrite Hv' in Hvs. injection Hvs as ->.
    assert (Hnpia : v_paused (view_of s) = false /\ is_worker_available idx (view_of s) = true).
    { destruct Hadm as [[id Hadm]|[rid Hadm]]; [exact (proj2 (view_turn cf id now s Hinv) idx Hadm)|exact (view_stream_turn cf rid now s idx
      Hinv Hadm)]. }
    destruct Hnpia as [Hnp Hia]. destruct Hk as [Hk _ _]. rewrite Hv' in Hk.
    split_and!; [by apply Hk|auto|]. apply Hserve; [done|]. split; [done|eauto].
  - intros Hr. split_and!; [auto|unfold scheduler_paused; rewrite Hv'; auto|auto].
  - intros Hc Hr Hg Hid. pose proof (weight_sync_calm model_id st st' mode mode' cc false n groups ev p v Hst Hmode Hv Hid Hc Hr Hg) as H.
    unfold swp in H. by rewrite E in H.
Qed.

(** ** A small pool *)

Module MiniPool.

Definition mini_births (i : nat) : birth := Birth (Some "node") 1 None.
Definition mini_layout : layout := Layout false (Some 2%Z) 8 1 None None.
Definition good : waiting := Waiting [Runs true; Runs true] false [].
Definition bad : waiting := Waiting [Runs true; Runs false] false [].
Definition point : pause_point := Point None [].
Definition events (update : waiting) : sync_events := SyncEvents point good good point update good good.

Definition started : pool := (initialize None true mini_layout mini_births pool_new).1.
Definition asleep : pool := (sleep None point point bad started).1.
Definition awake : pool := (wake_up None None good asleep).1.
Definition restarted : pool := (restart_worker 0 [Birth (Some "node") 2 None] awake).1.

Lemma started_reachable : pool_reachable started.
Proof. apply rtc_once. constructor. Qed.
Lemma awake_reachable : pool_reachable awake.
Proof. eapply rtc_r; [eapply rtc_r; [exact started_reachable|apply do_sleep]|]. by apply do_wake_up. Qed.
Lemma restarted_reachable : pool_reachable restarted.
Proof. eapply rtc_r; [exact awake_reachable|apply do_restart_worker]. Qed.

Definition nap : list pool_op := [OpSleep point point bad; OpWakeUp None good; OpSync "drain" "keep" false false 7 None (events good)].



Lemma good_calm : calm 2 (events good).
Proof. unfold calm, calm_wait. split_and!; try done; intros [|[|i]] Hi; try done; lia. Qed.

Lemma sync_weights_safe_witness :
  let p' := (weight_sync None "pause" "abort" false false 7 None (events good) awake).1 in
  Forall (fun w => w_version w = Some 7) (p_workers p') /\ scheduler_paused p' = false.
Proof.
  destruct (sync_weights_safe None "pause" Pause "abort" Abort false 7 None (events good) awake (View false [Flags true false; Flags true false])
    (weight_sync None "pause" "abort" false false 7 None (events good) awake).1 (weight_sync None "pause" "abort" false false 7 None (events
      good) awake).2
    awake_reachable) as (_ & H & Hcalm); [reflexivity|reflexivity|reflexivity|discriminate|vm_compute; reflexivity|].
  destruct H as (H1 & H2 & _); [|exact (conj H1 H2)]. apply Hcalm; [exact good_calm|vm_compute; repeat constructor|reflexivity|left; reflexivity].
Defined.

(** A worker that fails to load leaves the scheduler paused. *)
Example sync_failure_holds : let '(p', r) := weight_sync None "pause" "keep" false false 7 None (events bad) awake in
  r = Raise (RuntimeError "Weight sync failed") /\ scheduler_paused p' = true /\ versions p' = [Some 7; None].
Proof. vm_compute. done. Qed.

(** A cancellation while the generation is paused: the scheduler is resumed, the generation is not. *)
Example cancelled_pause_stalls : let '(p', r) := weight_sync None "pause" "keep" false false 7 None (SyncEvents point (Waiting [Runs true;
    Runs true] true []) good point good good good) awake in
  r = Raise CancelledError /\ scheduler_paused p' = false /\ Forall (fun w => w_generation_paused w = true) (p_workers p').
Proof. vm_compute. split; [done|]. split; [done|]. repeat constructor. Qed.

(** A reset of the prefix cache with [drain] resumes the scheduler of a pool that is asleep. *)
Example reset_wakes_scheduler : let '(p', r) := reset_prefix_cache None true point good asleep in
  r = Ok false /\ p_sleeping p' = true /\ scheduler_paused p' = false /\ w_state <$> head (p_workers p') = Some SLEEPING.
Proof. vm_compute. done. Qed.

(** Draft weights with a replica that no group covers: the scheduler stays paused, unlike with [sync_weights]. *)
Example spec_sync_stays_paused :
  scheduler_paused (sync_spec_weights None Drain [0] point point good awake).1 = true /\
  scheduler_paused (weight_sync None "drain" "keep" false false 7 (Some []) (events good) awake).1 = false.
Proof. vm_compute. done. Qed.

(** An [initialize] that finds no GPU: the pool counts as initialized. *)
Example no_gpu_no_retry : let p := (initialize None true (Layout false None 0 1 None None) mini_births pool_new).1 in
  p_scheduler p = None /\ (initialize None true mini_layout mini_births p).2 = Raise (RuntimeError "Already initialized. Call shutdown() first.").
Proof. vm_compute. done. Qed.

(** A worker whose node is not known is numbered apart from the others. *)
Example unknown_node_shares_slot : node_slots [Some "node"; None] = [(0, 1); (0, 1)].
Proof. vm_compute. done. Qed.

(** A wake of only the cache and something else resumes the scheduler while the workers have no cache. *)
Example odd_tags_wake : let p' := (wake_up None (Some ["kv_cache"; "scheduler"]) good (sleep None point point good started).1).1 in
  scheduler_paused p' = false /\ w_state <$> p_workers p' = [WEIGHTS_READY; WEIGHTS_READY].
Proof. vm_compute. done. Qed.

End MiniPool.
