(* ===== verification/MultiModel.v ===== *)
(** * The multi-model driver

    Source: [src/arctic_platform/inference/server/multi_model.py].

    A driver keeps a pool per model in a dictionary and shares the GPUs of the cluster evenly:
    loading a model without a number of replicas first scales the other pools down to their new
    share, and shutting one down starts tasks in the background that scale the others up.  The
    pools are those of [ReplicaPool], and every other operation of the driver is one of the pool
    of its model.  A background task is pending ([s_scale]) until it runs; it may fail, and
    nobody looks at its result.  A load has two halves, [plan_replicas] and [add_model], and other
    operations and tasks can run between them: a history is a list of events ([driver_event]). *)

From stdpp Require Import prelude strings list gmap.
From Stdlib Require Import ZArith Lia.
From S2P Require Import Prelude Dict Coroutine Scheduler ReplicaPool.
Local Open Scope Z_scope.

(** ** State *)

Record served := Served {
  s_pool : pool;
  s_world_size : Z;                  (* TP * PP of its configuration *)
  s_scale : option Z;                (* the target of [_scale_task], while it is not done *)
}.
Definition with_pool (p : pool) (s : served) : served := Served p (s_world_size s) (s_scale s).
Definition with_scale (t : option Z) (s : served) : served := Served (s_pool s) (s_world_size s) t.

Record driver := Driver { d_ray_initialized : bool; d_total_gpus : Z; d_pools : list (string * served) }.
Definition driver_new : driver := Driver false 0 [].
Definition set_pools (ps : list (string * served)) (d : driver) : driver := Driver (d_ray_initialized d) (d_total_gpus d) ps.

Abbreviation dm := (stx driver).

Definition pool_replicas (s : served) : Z := Z.of_nat (length (p_workers (s_pool s))).
Definition uses_placement_group (s : served) : bool := p_multi_node (s_pool s).

(** ** GPUs *)

(** [_ensure_ray]: [gpus] is what the cluster has. *)
Definition ensure_ray (gpus : Z) : dm unit :=
  d ← sget;
  if d_ray_initialized d then sret tt
  else sraise_if (gpus <=? 0) (RuntimeError "No GPUs available in the Ray cluster");; smod (fun d => Driver true gpus (d_pools d)).

Definition allocated_gpus (d : driver) : Z := sumZ ((fun ms => if uses_placement_group ms.2 then 0 else pool_replicas ms.2 * s_world_size
    ms.2) <$> d_pools d).
Definition available_gpus (d : driver) : Z := d_total_gpus d - allocated_gpus d.

Definition engine_share (per_model : Z) (mw : string * Z) : res (string * Z) :=
  let replicas := per_model `div` mw.2 in if replicas =? 0 then Raise (RuntimeError "Not enough GPUs") else Ok (mw.1, replicas).
Definition compute_even_share (total : Z) (engine_gpus : list (string * Z)) : res (list (string * Z)) :=
  match engine_gpus with [] => Ok [] | _ => mapM (M := res) (engine_share (total `div` Z.of_nat (length engine_gpus))) engine_gpus end.

(** [_rebalance_up]: an earlier task that is not done is cancelled. *)
Definition scale_target (plan : list (string * Z)) (ms : string * served) : string * served :=
  if uses_placement_group ms.2 then ms
  else match dict_get plan ms.1 with
       | Some target => if pool_replicas ms.2 <? target then (ms.1, with_scale (Some target) ms.2) else ms
       | None => ms
       end.
Definition ordinary_engines (d : driver) : list (string * Z) := (fun ms => (ms.1,
    s_world_size ms.2)) <$> filter (fun ms => uses_placement_group ms.2 = false) (d_pools d).
Definition rebalance_up : dm unit :=
  d ← sget;
  match ordinary_engines d with
  | [] => sret tt
  | engines => match compute_even_share (d_total_gpus d) engines with Raise e => sthrow e |
    Ok plan => smod (set_pools (scale_target plan <$> d_pools d)) end
  end.

(** The background task of a pool runs to its end. *)
Definition run_scale_task (mid : string) (births : nat -> birth) : dm unit :=
  d ← sget;
  match dict_get (d_pools d) mid with
  | Some s => match s_scale s with
              | Some t => smod (set_pools (dict_set (d_pools d) mid (Served (scale_up t births (s_pool s)).1 (s_world_size s) None)))
              | None => sret tt
              end
  | None => sret tt
  end.

(** ** Operations on one model *)

Definition get_pool (mid : option string) : dm (string * served) :=
  d ← sget;
  match mid with
  | None => sthrow (ValueError "model_id is required in multi-model mode")
  | Some m => match dict_get (d_pools d) m with Some s => sret (m, s) | None => sthrow (KeyError "Unknown model_id") end
  end.

(** [self._get_pool(model_id).op(...)]: what the driver does for sleeps, wakes, synchronisations and the like. *)
Definition route_to_pool {A} (mid : option string) (op : pm A) : dm A :=
  ms ← get_pool mid;
  let '(p, r) := op (s_pool ms.2) in
  smod (fun d => set_pools (dict_set (d_pools d) ms.1 (with_pool p ms.2)) d);;
  match r with Ok a => sret a | Raise e => sthrow e end.

(** ** Loading *)

(** The pools that have more replicas than the plan gives them are scaled down, in their order. *)
Fixpoint scale_downs (plan : list (string * Z)) (mids : list string) (pts : string -> list (pause_point * pause_point)) : dm unit :=
  match mids with
  | [] => sret tt
  | mid :: mids =>
      d ← sget;
      match dict_get (d_pools d) mid, dict_get plan mid with
      | Some s, Some target => if target <? pool_replicas s then route_to_pool (Some mid) (scale_down target (pts mid)) else sret tt
      | _, _ => sret tt
      end;;
      scale_downs plan mids pts
  end.

(** The first half of [initialize]: how many replicas the model gets. *)
Definition plan_replicas (mid : string) (ws : Z) (num_replicas : option Z) (placement_group : bool) (pts : string ->
    list (pause_point * pause_point)) : dm Z :=
  d ← sget;
  sraise_if (bool_decide (mid ∈ dict_keys (d_pools d))) (ValueError "model_id already loaded");;
  if placement_group then
    sraise_if (negb (bool_decide (d_pools d = []))) (RuntimeError "A placement-group-backed model requires exclusive use of the Driver");;
    sraise_if (negb (bool_decide (num_replicas = None \/ num_replicas = Some 1))) (ValueError
    "placement-group-backed models require num_replicas=1");;
    sret 1
  else
    sraise_if (existsb (fun ms => uses_placement_group ms.2) (d_pools d)) (RuntimeError "Cannot add an ordinary pool");;
    match num_replicas with
    | Some n => sret n
    | None =>
        let engine_gpus := dict_set ((fun ms => (ms.1, s_world_size ms.2)) <$> d_pools d) mid ws in
        match compute_even_share (d_total_gpus d) engine_gpus with
        | Raise e => sthrow e
        | Ok plan => scale_downs plan (dict_keys (d_pools d)) pts;; match dict_at plan mid with Ok n => sret n | Raise e => sthrow e end
        end
    end.

(** The second half: a new pool, which the driver keeps when its initialization succeeds. *)
Definition add_model (mid : string) (ws n : Z) (placement_group clear_cache_on_sync : bool) (births : nat -> birth) : dm nat :=
  let '(p, r) := ReplicaPool.initialize None clear_cache_on_sync (Layout placement_group (Some n) 0 ws None None) births pool_new in
  match r with
  | Raise e => sthrow e
  | Ok k => smod (fun d => set_pools (dict_set (d_pools d) mid (Served p ws None)) d);; sret k
  end.

(** [initialize]: [fresh] is the identifier that is made up when none is given. *)
Definition initialize (gpus : Z) (fresh : string) (model_id : option string) (ws : Z) (num_replicas : option Z) (placement_group
    clear_cache_on_sync : bool) (pts : string -> list (pause_point * pause_point)) (births : nat -> birth) : dm nat :=
  ensure_ray gpus;;
  let mid := default fresh model_id in
  n ← plan_replicas mid ws num_replicas placement_group pts;
  add_model mid ws n placement_group clear_cache_on_sync births.

(** ** Unloading *)

(** [pool.shutdown()] cancels its task; the model leaves the dictionary in any case. *)
Definition unload (mid : string) (err : option exn) : dm unit :=
  sfinally (route_to_pool (Some mid) (ReplicaPool.shutdown None err)) (smod (fun d => set_pools (dict_del (d_pools d) mid) d)).

Fixpoint unload_all (mids : list string) (errs : string -> option exn) : dm (list exn) :=
  match mids with
  | [] => sret []
  | mid :: mids => fun d => match unload mid (errs mid) d with
                            | (d, Ok _) => unload_all mids errs d
                            | (d, Raise e) => (es ← unload_all mids errs; sret (e :: es)) d
                            end
  end.

Definition shutdown (model_id : option string) (errs : string -> option exn) : dm unit :=
  match model_id with
  | Some mid => _ ← get_pool (Some mid); unload mid (errs mid);; d ← sget; if bool_decide (d_pools d = []) then sret tt else rebalance_up
  | None => d ← sget; es ← unload_all (dict_keys (d_pools d)) errs; match es with [] => sret tt | [e] => sthrow e |
    _ => sthrow (RuntimeError "Model pool shutdown failures") end
  end.

(** ** Operations that keep the number of workers *)

Definition same_size (p p' : pool) : Prop := length (p_workers p') = length (p_workers p) /\ p_multi_node p' = p_multi_node p.

#[export] Instance same_size_preorder : PreOrder same_size.
Proof. split; [by intros p|]. unfold same_size. intros p q r [] []. split; congruence. Qed.
#[export] Hint Resolve same_size_preorder : stable.

Abbreviation pool_stable := (stable id same_size).
Abbreviation local_stable := (stable (fst : pool * locals -> pool) same_size).

#[export] Hint Extern 2 (stable _ same_size (smod _)) => apply stable_mod; intros; by split : stable.

Lemma stable_on_scheduler f : pool_stable (on_scheduler f).
Proof. unfold on_scheduler. auto with stable. Qed.
#[export] Hint Resolve stable_on_scheduler : stable.
Lemma stable_wait pt : pool_stable (wait_for pt).
Proof. unfold wait_for, quarantine_all. auto with stable. Qed.
Lemma stable_gather op g : pool_stable (gather op g).
Proof.
  intros p. change (swp (gather op g) (fun p' _ => same_size p p') p). apply swp_gather. intros p' [_ Hl (_ & _ & Hm & _)] _. by split.
Qed.
Lemma stable_lifecycle {A} (m : pm A) : pool_stable m -> pool_stable (stream_lifecycle m).
Proof. intros H. unfold stream_lifecycle. auto 6 with stable. Qed.
Lemma stable_check_model_id m : pool_stable (check_model_id m).
Proof. unfold check_model_id. auto 6 with stable. Qed.
Lemma stable_require_initialized : pool_stable require_initialized.
Proof. unfold require_initialized. auto with stable. Qed.
#[export] Hint Resolve stable_wait stable_gather stable_lifecycle stable_check_model_id stable_require_initialized : stable.

Lemma stable_sleep abort drained calls : pool_stable (sleep_locked abort drained calls).
Proof. unfold sleep_locked. auto 20 with stable. Qed.
Lemma stable_wake_up tags calls : pool_stable (wake_up_locked tags calls).
Proof. unfold wake_up_locked. auto 20 with stable. Qed.
Lemma stable_reset_prefix_cache model_id drain drained calls : pool_stable (reset_prefix_cache model_id drain drained calls).
Proof. unfold reset_prefix_cache. auto 20 with stable. Qed.

Lemma stable_update v groups ev : local_stable (update_weights v groups ev).
Proof.
  unfold update_weights, send_before, set_local. apply stable_bind; [apply _|auto with stable|]. intros s.
  apply stable_bind; [apply _|auto with stable|].
  intros _. destruct (first_unassigned _ _) as [i|]; [|auto 20 with stable].
  apply stable_bind; [apply _|auto with stable|]. intros _. apply stable_bind; [apply _| |auto with stable]. apply stable_lift, stable_mod. intros p.
  split; [|done]. simpl. rewrite length_app, length_fmap, called_length, length_take, length_drop. lia.
Qed.
#[export] Hint Resolve stable_update : stable.

Lemma stable_weight_sync model_id st mode cc engine_only v groups ev : pool_stable (weight_sync model_id st mode cc engine_only v groups ev).
Proof.
  unfold weight_sync. destruct (strategy_of st) as [st'|]; [|auto with stable]. destruct (pause_mode_of mode); [|auto with stable].
  apply stable_bind; [apply _|auto with stable|]. intros _. apply stable_bind; [apply _|auto with stable|]. intros _.
  apply stable_lifecycle, stable_bind; [apply _|auto with stable|]. intros p. apply stable_without_locals, stable_finally; [apply _|..].
  - unfold sync_body, set_local, pause_generation_for_weight_sync, reset_prefix_cache_after_weight_sync, mark_all_unavailable. auto 30 with stable.
  - unfold sync_finally, resume_generation_after_weight_sync, mark_available. auto 30 with stable.
Qed.
#[export] Hint Resolve stable_weight_sync : stable.

Lemma stable_sync_spec_weights model_id st groups abort drained update : pool_stable (sync_spec_weights model_id st groups abort drained update).
Proof. unfold sync_spec_weights, mark_all_unavailable, mark_available. auto 20 with stable. Qed.

(** *** Scaling *)

Lemma remove_worker_size pts p : swp (remove_worker pts) (fun p' _ => length (p_workers p') = (length (p_workers p) - 1)%nat /\
    p_multi_node p' = p_multi_node p) p.
Proof.
  unfold remove_worker. apply swp_bind, swp_get, swp_bind. unfold on_scheduler at 1. apply swp_mod, swp_finally.
  set (p1 := set_scheduler _ p). assert (Hw : pool_stable (wait_for pts.1;; wait_for pts.2)) by auto with stable. unfold swp at 1.
  destruct (Hw p1) as [Hl Hm]. generalize dependent ((wait_for pts.1;; wait_for pts.2) p1). intros [p2 r] Hl Hm. simpl in *.
  apply swp_bind, swp_mod, swp_bind, swp_mod. unfold on_scheduler. apply swp_mod.
  assert (E : forall q : pool, length (p_workers q) = (length (p_workers p) - 1)%nat /\ p_multi_node q = p_multi_node p ->
  length (p_workers (set_scheduler (v_remove_last <$> p_scheduler q) q)) = (length (p_workers p) - 1)%nat /\
  p_multi_node (set_scheduler (v_remove_last <$> p_scheduler q) q) = p_multi_node p) by done.
  apply E. destruct (_ <? _)%nat; simpl; (split; [rewrite length_take; lia|done]).
Qed.

Lemma remove_workers_size n pts p :
  swp (remove_workers n pts) (fun p' r => (length (p_workers p') <= length (p_workers p))%nat /\ p_multi_node p' = p_multi_node p /\
  (r = Ok tt -> length (p_workers p') = (length (p_workers p) - n)%nat)) p.
Proof.
  revert pts p. induction n as [|n IH]; intros pts p; [split_and!; simpl; lia || done|]. apply swp_bind.
  eapply swp_mono; [apply remove_worker_size|]. intros p1 [u|e] [Hl Hm]; [|split_and!; [lia|done|done]]. eapply swp_mono; [apply IH|].
  intros p2 r (H1 & H2 & H3). split_and!; [lia|congruence|]. intros Hr. specialize (H3 Hr). lia.
Qed.

Lemma scale_down_size target pts p : 0 <= target ->
  swp (scale_down target pts) (fun p' r => (length (p_workers p') <= length (p_workers p))%nat /\ p_multi_node p' = p_multi_node p /\
  (r = Ok tt -> Z.of_nat (length (p_workers p')) <= target)) p.
Proof.
  intros Ht. unfold scale_down. apply swp_bind, swp_raise_if; intros Hneg; [apply Z.ltb_lt in Hneg; lia|].
  apply swp_bind, swp_get, swp_bind, swp_raise_if; intros Hb; [done|]. apply swp_bind, swp_initialized; [done|]. intros v Hv.
  apply swp_lifecycle, swp_bind, swp_get. eapply swp_mono; [apply remove_workers_size|]. intros p' r (H1 & H2 & H3). simpl in *.
  split_and!; [done|done|]. intros Hr. specialize (H3 Hr). lia.
Qed.

Lemma add_workers_size bs p : swp (add_workers bs) (fun p' r => (length (p_workers p') <= length (p_workers p) + length bs)%nat /\
    p_multi_node p' = p_multi_node p) p.
Proof.
  revert p. induction bs as [|b bs IH]; intros p; [split; simpl; [lia|done]|]. apply swp_bind. unfold add_new_worker, make_worker.
  apply swp_bind, swp_bind, swp_get, swp_bind, swp_mod, swp_ret, swp_bind, swp_get.
  destruct (place_new_worker _ _ _ _) as [[node slot] count]. destruct (b_error b); [split; simpl; [lia|done]|].
  apply swp_bind, swp_mod, swp_bind, swp_mod. unfold on_scheduler. apply swp_mod. eapply swp_mono; [apply IH|]. intros p' r. simpl.
  rewrite length_app. simpl. intros [H1 H2]. split; [lia|done].
Qed.

Lemma scale_up_size target births p : swp (scale_up target births) (fun p' _ => Z.of_nat (length (p_workers p')) <= Z.max (Z.of_nat (length
    (p_workers p))) target /\ p_multi_node p' = p_multi_node p) p.
Proof.
  unfold scale_up. apply swp_bind, swp_get, swp_bind, swp_raise_if; intros Hb; [split; [lia|done]|].
  apply swp_bind, swp_initialized; [intros; split; [lia|done]|]. intros v Hv. eapply swp_mono; [apply add_workers_size|]. intros p' r.
  simpl. rewrite length_fmap, length_seq. intros [H1 H2]. split; [lia|done].
Qed.

Lemma initialize_size cc pg n ws births : swp (ReplicaPool.initialize None cc (Layout pg (Some n) 0 ws None None) births)
  (fun p r => forall k, r = Ok k -> k = length (p_workers p) /\ (pg = false -> Z.of_nat (length (p_workers p)) = Z.max 0 n) /\
    p_multi_node p = pg) pool_new.
Proof.
  unfold ReplicaPool.initialize. apply swp_bind, swp_get, swp_bind, swp_raise_if; intros _; [done|]. apply swp_bind, swp_mod.
  set (p1 := Pool _ _ _ _ _ _ _ _ _ _ _ _ _). set (n' := if pg then 1 else n).
  assert (En : replica_count (Layout pg (Some n) 0 ws None None) = Ok n') by (by destruct pg). rewrite En.
  apply swp_bind, swp_on_error. eapply swp_mono; [by apply initialize_workers_spec|]. intros p2 [[]|e] [Hs2 Hok].
  - specialize (Hok eq_refl) as (_ & E2 & _ & E4 & _). apply swp_bind, swp_mod, swp_bind, swp_mod, swp_ret. intros k [= <-]. simpl.
    rewrite E4, length_fmap, length_seq. split_and!; [done| |done]. unfold n'. intros ->. lia.
  - unfold reset_lifecycle_state. apply swp_mod. done.
Qed.

(** ** The GPUs of the cluster *)

Definition fair_share (d : driver) : Z := d_total_gpus d `div` Z.of_nat (length (d_pools d)).

(** A pool within its share: what it has, and what its pending task will give it. *)
Record within_share (limit : Z) (s : served) : Prop := {
  wi_size : 1 <= s_world_size s;
  wi_fits : uses_placement_group s = false -> s_world_size s <= limit /\ pool_replicas s * s_world_size s <= limit /\
  forall t, s_scale s = Some t -> t * s_world_size s <= limit;
}.

Record driver_inv (d : driver) : Prop := {
  di_keys : NoDup (dict_keys (d_pools d));
  di_share : Forall (fun ms => within_share (fair_share d) ms.2) (d_pools d);
  di_total : 0 <= d_total_gpus d;
  di_placement : existsb (fun ms => uses_placement_group ms.2) (d_pools d) = true -> length (d_pools d) = 1%nat;
  di_ray : d_ray_initialized d = false -> d_pools d = [];
}.

Lemma within_share_mono l l' s : l <= l' -> within_share l s -> within_share l' s.
Proof. intros Hl [H1 H3]. split; [done|]. intros Hp. destruct (H3 Hp) as (H4 & H5 & H6). split_and!; [lia|lia|]. intros t Ht.
  specialize (H6 t Ht). lia. Qed.

Lemma sum_within limit (l : list (string * served)) : 0 <= limit -> Forall (fun ms => within_share limit ms.2) l ->
    sumZ ((fun ms => if uses_placement_group ms.2 then 0 else pool_replicas ms.2 * s_world_size ms.2) <$> l) <= limit * Z.of_nat (length l).
Proof.
  intros Hl. induction 1 as [|[m s] l [_ Hs] Hf IH]; [simpl; lia|]. rewrite fmap_cons. cbn [sumZ length snd] in *.
  destruct (uses_placement_group s); [lia|]. destruct (Hs eq_refl) as (_ & H & _). lia.
Qed.

Lemma allocated_bounded d : driver_inv d -> allocated_gpus d <= d_total_gpus d.
Proof.
  intros [H1 H2 H3 _ _]. unfold allocated_gpus. destruct (decide (d_pools d = [])) as [E|E]; [rewrite E; simpl; lia|].
  assert (Hn : 0 < Z.of_nat (length (d_pools d))) by (destruct (d_pools d); [done|simpl; lia]). pose proof (Z.div_pos _ _ H3 Hn) as Hq.
  pose proof (sum_within (fair_share d) (d_pools d) Hq H2) as Hs. unfold fair_share in *. pose proof (Z.mul_div_le (d_total_gpus d) _ Hn).
  lia.
Qed.

(** *** The even share *)

Lemma share_fits per mw mr : 1 <= mw.2 -> 0 <= per -> engine_share per mw = Ok mr -> mr.1 = mw.1 /\ 1 <= mr.2 /\ mr.2 * mw.2 <= per /\ mw.2 <= per.
Proof.
  intros Hw Hp. unfold engine_share. destruct (_ =? 0) eqn:E; [done|]. intros [= <-]. simpl. apply Z.eqb_neq in E.
  assert (0 <= per `div` mw.2) by (apply Z.div_pos; lia). pose proof (Z.mul_div_le per mw.2 ltac:(lia)). split_and!; [done|lia|lia|nia].
Qed.

Lemma even_share_get total engines plan m w : Forall (fun mw => 1 <= mw.2) engines -> 0 <= total -> NoDup (dict_keys engines) ->
    compute_even_share total engines = Ok plan -> dict_get engines m = Some w ->
  exists r, dict_get plan m = Some r /\ 1 <= r /\ r * w <= total `div` Z.of_nat (length engines) /\ w <= total `div` Z.of_nat (length engines).
Proof.
  intros Hw Ht Hnd Hp Hm. assert (Hper : 0 <= total `div` Z.of_nat (length engines)) by (destruct engines; [done|apply Z.div_pos; simpl;
  lia]). assert (E : mapM (M := res) (engine_share (total `div` Z.of_nat (length engines))) engines = Ok plan) by (by destruct engines).
  clear Hp. revert E. generalize (total `div` Z.of_nat (length engines)) as per, Hper. clear Hper.
  intros per Hper. revert plan. induction engines as [|[m0 w0] engines IH]; intros plan E; [done|]. simpl in E.
  apply bind_Ok_inv in E as (r & Hr & E). apply bind_Ok_inv in E as (plan' & Hplan & [= <-]). apply Forall_cons in Hw as [Hw0 Hw].
  destruct (share_fits _ _ _ Hw0 Hper Hr) as (E1 & E2 & E3 & E4). destruct r as [m1 r1]. simpl in *. subst m1.
  apply NoDup_cons in Hnd as [_ Hnd].
  destruct (decide (m = m0)) as [->|Hne]; [injection Hm as ->; eauto|]. by apply IH.
Qed.

Lemma even_share_pos total engines plan m t : Forall (fun mw => 1 <= mw.2) engines -> 0 <= total ->
    compute_even_share total engines = Ok plan -> dict_get plan m = Some t -> 0 <= t.
Proof.
  intros Hw Ht Hp Hm. destruct engines as [|mw engines]; [by injection Hp as <-|]. apply mapM_ok_inv in Hp.
  apply dict_get_elem, list_elem_of_lookup in Hm as [i Hi]. destruct (Forall2_lookup_r _ _ _ _ _ Hp Hi) as (mw' & Hm' & Hsh).
  rewrite Forall_lookup in Hw. assert (Hper : 0 <= total `div` Z.of_nat (length (mw :: engines))) by (apply Z.div_pos;
  [lia|rewrite length_cons; lia]). destruct (share_fits _ _ _ (Hw i mw' Hm') Hper Hsh) as (_ & H & _). simpl in H. lia.
Qed.

Lemma share_ok per (engines : list (string * Z)) : Forall (fun mw => 1 <= mw.2 <= per) engines ->
    exists plan, mapM (M := res) (engine_share per) engines = Ok plan.
Proof.
  intros Hw. destruct (mapM_total (engine_share per) engines) as (plan & Hp & _); [|by exists plan]. intros [m w] Hin.
  rewrite Forall_forall in Hw. destruct (Hw _ Hin) as [H1 H2]. cbn [snd] in *. exists (m, per `div` w). unfold engine_share. cbn [fst snd].
  assert (1 <= per `div` w) by (apply Z.div_le_lower_bound; lia). destruct (Z.eqb_spec (per `div` w) 0); [lia|done].
Qed.

(** *** Changes of the dictionary *)

Lemma dict_set_Forall (P : string * served -> Prop) l m s' : Forall P l -> P (m, s') -> Forall P (dict_set l m s').
Proof. intros Hl Hs. induction Hl as [|[m0 s0] l H0 Hl IH]; simpl; [by constructor|]. case_decide; constructor; subst; auto. Qed.

Lemma dict_set_length (l : list (string * served)) m s s' : dict_get l m = Some s -> length (dict_set l m s') = length l.
Proof. induction l as [|[m0 s0] l IH]; simpl; [done|]. destruct (decide _); [done|]. intros Hm. simpl. by rewrite IH. Qed.

Lemma dict_set_existsb (f : string * served -> bool) l m s s' : dict_get l m = Some s -> f (m, s') = f (m, s) ->
    existsb f (dict_set l m s') = existsb f l.
Proof. intros Hm Hf. induction l as [|[m0 s0] l IH]; simpl in *; [done|].
  case_decide as E; simpl; [subst m0; injection Hm as ->; by rewrite Hf|by rewrite IH]. Qed.

Lemma inv_update d m s s' : driver_inv d -> dict_get (d_pools d) m = Some s -> within_share (fair_share d) s' ->
    uses_placement_group s' = uses_placement_group s -> driver_inv (set_pools (dict_set (d_pools d) m s') d).
Proof.
  intros [H1 H2 H3 H4 H5] Hm Hw Hu. assert (Hl : length (dict_set (d_pools d) m s') = length (d_pools d)) by (by eapply dict_set_length).
  split; simpl; [by apply dict_set_nodup| |done| |].
  - unfold fair_share. simpl. rewrite Hl. by apply dict_set_Forall.
  - rewrite Hl, (dict_set_existsb _ _ _ s) by done. done.
  - intros Hr. rewrite (H5 Hr) in Hm. done.
Qed.

Lemma share_mono total n n' : 0 <= total -> (0 < n' <= n)%nat -> total `div` Z.of_nat n <= total `div` Z.of_nat n'.
Proof. intros Ht Hn. apply Z.div_le_compat_l; lia. Qed.

Lemma inv_delete d m : driver_inv d -> driver_inv (set_pools (dict_del (d_pools d) m) d).
Proof.
  intros [H1 H2 H3 H4 H5]. assert (Hl : (length (dict_del (d_pools d) m) <= length (d_pools d))%nat) by apply length_filter.
  split; simpl; [by apply dict_del_nodup| |done| |].
  - destruct (dict_del (d_pools d) m) as [|x l] eqn:E; [constructor|]. rewrite <- E in *. apply Forall_filter, (Forall_impl _ _ _ H2).
    intros [m0 s0]. apply within_share_mono. unfold fair_share. simpl. rewrite E in *. apply share_mono; [done|simpl in *; lia].
  - intros Hx. destruct (dict_del (d_pools d) m) as [|x l] eqn:E; [done|].
    assert (Hd : existsb (fun ms => uses_placement_group ms.2) (d_pools d) = true).
    { apply existsb_exists in Hx as (y & Hy & Hu). apply existsb_exists. exists y. split; [|done]. rewrite <- list_elem_of_In, <- E in *.
      unfold dict_del in Hy. by apply list_elem_of_filter in Hy as [_ Hy]. }
    specialize (H4 Hd). simpl in *. lia.
  - intros Hr. by rewrite (H5 Hr).
Qed.

(** *** Operations of one pool *)

Lemma swp_route {A} m (op : pm A) d s Q : dict_get (d_pools d) m = Some s ->
    Q (set_pools (dict_set (d_pools d) m (with_pool (op (s_pool s)).1 s)) d) (op (s_pool s)).2 -> swp (route_to_pool (Some m) op) Q d.
Proof.
  intros Hm HQ. unfold route_to_pool, get_pool. apply swp_bind, swp_bind, swp_get. rewrite Hm. apply swp_ret. cbn [snd].
  destruct (op (s_pool s)) as [p [a|e]]; apply swp_bind, swp_mod; exact HQ.
Qed.

(** An operation of a pool that starts no worker. *)
Definition quiet {A} (op : pm A) (p : pool) : Prop := (length (p_workers (op p).1) <= length (p_workers p))%nat /\
    p_multi_node (op p).1 = p_multi_node p.

Lemma stable_quiet {A} (op : pm A) p : pool_stable op -> quiet op p.
Proof. intros Hs. destruct (Hs p) as [Hl Hm]. unfold id in *. split; [lia|done]. Qed.

(** The operations that the driver routes to the pool of a model; scaling is its own business. *)
Definition routed (o : pool_op) : bool := match o with OpScaleDown _ _ | OpScaleUp _ _ => false | _ => true end.

Lemma routed_quiet o p : routed o = true -> quiet (fun p => (run_pool_op p o, Ok tt)) p.
Proof.
  intros Ho. destruct o; try done; unfold quiet; simpl.
  - apply (stable_quiet (sleep_locked abort drained calls)), stable_sleep.
  - apply (stable_quiet (wake_up_locked tags calls)), stable_wake_up.
  - apply (stable_quiet (reset_prefix_cache None drain drained calls)), stable_reset_prefix_cache.
  - apply (stable_quiet (weight_sync None st mode clear_cache engine_only v groups ev)), stable_weight_sync.
  - apply (stable_quiet (sync_spec_weights None st groups abort drained update)), stable_sync_spec_weights.
Qed.

Lemma within_step limit s p' : within_share limit s ->
    (length (p_workers p') <= length (p_workers (s_pool s)))%nat -> p_multi_node p' = p_multi_node (s_pool s) ->
    within_share limit (with_pool p' s).
Proof.
  intros [H1 H3] Hl Hm. split; [done|]. unfold uses_placement_group, pool_replicas in *. simpl.
  rewrite Hm. intros Hu. destruct (H3 Hu) as (H4 & H5 & H6). split_and!; [done| |done]. nia.
Qed.

(** A pool that scales up by its task stays within any limit that its task respects. *)
Lemma within_scaled limit s t births : within_share limit s -> s_scale s = Some t ->
    within_share limit (Served (scale_up t births (s_pool s)).1 (s_world_size s) None) /\
    p_multi_node (scale_up t births (s_pool s)).1 = p_multi_node (s_pool s).
Proof.
  intros [H1 H3] Et. destruct (scale_up_size t births (s_pool s)) as [Hl Hmn]. split; [|exact Hmn]. split; simpl; [done|].
  unfold uses_placement_group, pool_replicas in *. simpl. rewrite Hmn.
  intros Hu. destruct (H3 Hu) as (H4 & H5 & H6). specialize (H6 t Et). split_and!; [done| |done]. nia.
Qed.

Lemma share_of d m s : driver_inv d -> dict_get (d_pools d) m = Some s -> within_share (fair_share d) s.
Proof. intros [_ H _ _ _] Hm%dict_get_elem. rewrite Forall_forall in H. by apply (H (m, s)). Qed.

Lemma route_inv {A} mid (op : pm A) d : driver_inv d -> (forall m s, mid = Some m -> dict_get (d_pools d) m = Some s ->
    quiet op (s_pool s)) -> swp (route_to_pool mid op) (fun d' _ => driver_inv d') d.
Proof.
  intros Hd Hq. destruct mid as [m|]; [|done]. destruct (dict_get (d_pools d) m) as [s|] eqn:Hm; [|unfold route_to_pool, get_pool, swp;
  simpl; unfold mbind, stx_bind, sbind; simpl; by rewrite Hm].
  destruct (Hq m s eq_refl Hm) as (H2 & H3). eapply swp_route; [exact Hm|].
  eapply inv_update; [done|exact Hm| |by unfold uses_placement_group]. apply within_step; [by eapply share_of|done|done].
Qed.

Lemma run_scale_task_inv mid births d : driver_inv d -> swp (run_scale_task mid births) (fun d' _ => driver_inv d') d.
Proof.
  intros Hd. unfold run_scale_task. apply swp_bind, swp_get. destruct (dict_get (d_pools d) mid) as [s|] eqn:Hm; [|done].
  destruct (s_scale s) as [t|] eqn:Et; [|done]. apply swp_mod.
  destruct (within_scaled (fair_share d) s t births (share_of _ _ _ Hd Hm) Et) as [Hw Hmn]. eapply inv_update; [done|exact Hm|exact Hw|exact Hmn].
Qed.

(** *** Loading a model *)

(** The same models with the same sizes and tasks, and no more replicas. *)
Record shrunk (d d' : driver) : Prop := {
  sh_keys : dict_keys (d_pools d') = dict_keys (d_pools d);
  sh_total : d_total_gpus d' = d_total_gpus d /\ d_ray_initialized d' = d_ray_initialized d;
  sh_pools : forall m s', dict_get (d_pools d') m = Some s' -> exists s, dict_get (d_pools d) m = Some s /\
  s_world_size s' = s_world_size s /\ s_scale s' = s_scale s /\ uses_placement_group s' = uses_placement_group s /\
  pool_replicas s' <= pool_replicas s;
}.

Lemma shrunk_refl d : shrunk d d.
Proof. split; [done|done|]. intros m s' Hm. exists s'. split_and!; try done. Qed.
Lemma shrunk_trans d1 d2 d3 : shrunk d1 d2 -> shrunk d2 d3 -> shrunk d1 d3.
Proof.
  intros [H1 [H2 H3] H4] [H5 [H6 H7] H8]. split; [congruence|split; congruence|]. intros m s3 Hm.
  destruct (H8 m s3 Hm) as (s2 & Hm2 & E1 & E2 & E3 & E4). destruct (H4 m s2 Hm2) as (s1 & Hm1 & E5 & E6 & E7 & E8). exists s1.
  split_and!; try congruence. lia.
Qed.

Lemma scale_down_one d m s target pts : driver_inv d -> dict_get (d_pools d) m = Some s -> 0 <= target ->
  swp (route_to_pool (Some m) (scale_down target pts)) (fun d' r => driver_inv d' /\ shrunk d d' /\ (r = Ok tt ->
  forall s', dict_get (d_pools d') m = Some s' -> pool_replicas s' <= target)) d.
Proof.
  intros Hd Hm Ht. destruct (scale_down_size target pts (s_pool s) Ht) as (Hl & Hmn & Hok). eapply swp_route; [exact Hm|]. split_and!.
  - eapply inv_update; [done|exact Hm| |exact Hmn]. apply within_step; [by eapply share_of|done|done].
  - assert (Hk : m ∈ dict_keys (d_pools d)) by (apply dict_get_keys; by eexists). split; simpl; [by apply dict_keys_set_old|done|].
    intros m' s' Hm'. destruct (decide (m = m')) as [<-|Hne]; [|rewrite dict_get_set_ne in Hm' by done; exists s'; by split_and!].
    rewrite dict_get_set_eq in Hm'. injection Hm' as <-. exists s. unfold uses_placement_group, pool_replicas. simpl. split_and!; try done. lia.
  - intros Hr s'. simpl. rewrite dict_get_set_eq. intros [= <-]. unfold pool_replicas. simpl. auto.
Qed.

Lemma scale_downs_spec plan mids pts d : driver_inv d -> (forall m t, dict_get plan m = Some t -> 0 <= t) ->
  swp (scale_downs plan mids pts) (fun d' r => driver_inv d' /\ shrunk d d' /\ (r = Ok tt -> forall m s t, m ∈ mids ->
  dict_get (d_pools d') m = Some s -> dict_get plan m = Some t -> pool_replicas s <= t)) d.
Proof.
  intros Hd Hpos. revert d Hd. induction mids as [|mid mids IH]; intros d Hd; [split_and!; [done|apply shrunk_refl|];
  intros _ m s t []%not_elem_of_nil|]. simpl. apply swp_bind, swp_get.
  set (Q1 := fun d1 r => driver_inv d1 /\ shrunk d d1 /\ (r = Ok tt -> forall s t, dict_get (d_pools d1) mid = Some s ->
  dict_get plan mid = Some t -> pool_replicas s <= t)). apply swp_bind. apply (swp_mono _ Q1).
  - destruct (dict_get (d_pools d) mid) as [s|] eqn:Em; [|split_and!; [done|apply shrunk_refl|intros _ s0 t0 Hs0 Ht0; simpl in *;
    congruence]]. destruct (dict_get plan mid) as [target|] eqn:Et; [|split_and!; [done|apply shrunk_refl|intros _ s0 t0 Hs0 Ht0;
    simpl in *; congruence]]. destruct (Z.ltb_spec target (pool_replicas s)); [|split_and!; [done|apply shrunk_refl|intros _ s0 t0 Hs0 Ht0;
    simpl in *; simplify_eq; lia]].
    eapply swp_mono; [apply (scale_down_one d mid s target); [done|done|by eapply Hpos]|]. intros d1 r (H1 & H2 & H3).
    split_and!; [done|done|]. intros Hr s' t Hs' [= <-]. auto.
  - intros d1 [[]|e] (H1 & H2 & H3); [|split_and!; [done|done|done]]. eapply swp_mono; [by apply IH|]. intros d2 r (H4 & H5 & H6).
    split_and!; [done|by eapply shrunk_trans|]. intros Hr m s t [->|Hin]%elem_of_cons Hs Hp; [|by eapply H6].
    destruct (sh_pools _ _ H5 mid s Hs) as (s1 & Hs1 & _ & _ & _ & Hle). specialize (H3 eq_refl s1 t Hs1 Hp). lia.
Qed.

Definition no_task (d : driver) : Prop := Forall (fun ms => s_scale ms.2 = None) (d_pools d).

(** The share when one more model is loaded. *)
Definition next_share (d : driver) : Z := d_total_gpus d `div` Z.of_nat (S (length (d_pools d))).

(** What the plan leaves: room for the new model. *)
Record room (mid : string) (ws : Z) (pg : bool) (n : Z) (d : driver) : Prop := {
  ro_inv : driver_inv d;
  ro_new : mid ∉ dict_keys (d_pools d);
  ro_alone : if pg then d_pools d = [] else existsb (fun ms => uses_placement_group ms.2) (d_pools d) = false /\
    Forall (fun ms => within_share (next_share d) ms.2) (d_pools d) /\ ws <= next_share d /\ 1 <= n /\ n * ws <= next_share d;
}.

Lemma shrunk_placement d d' : shrunk d d' -> NoDup (dict_keys (d_pools d')) ->
    existsb (fun ms => uses_placement_group ms.2) (d_pools d) = false -> existsb (fun ms => uses_placement_group ms.2) (d_pools d') = false.
Proof.
  intros [_ _ Hs] Hnd Hno. apply not_true_iff_false. intros ([m s'] & Hin & Hu)%existsb_exists. apply not_true_iff_false in Hno.
  apply Hno, existsb_exists. apply list_elem_of_In, (dict_elem_get _ _ _ Hnd) in Hin. destruct (Hs m s' Hin) as (s & Hm & _ & _ & E & _).
  exists (m, s). split; [by apply list_elem_of_In, dict_get_elem|]. simpl in *. congruence.
Qed.

Lemma engines_get (l : list (string * served)) m s : dict_get l m = Some s ->
    dict_get ((fun ms => (ms.1, s_world_size ms.2)) <$> l) m = Some (s_world_size s).
Proof. induction l as [|[m0 s0] l IH]; [done|]. rewrite fmap_cons. simpl. destruct (decide _); [intros [= ->]; done|done]. Qed.
Lemma engines_keys (l : list (string * served)) : dict_keys ((fun ms => (ms.1, s_world_size ms.2)) <$> l) = dict_keys l.
Proof. unfold dict_keys. rewrite <- list_fmap_compose. done. Qed.

Lemma plan_replicas_spec mid ws pg pts d : driver_inv d -> no_task d -> 1 <= ws ->
  swp (plan_replicas mid ws None pg pts) (fun d' r => driver_inv d' /\ d_ray_initialized d' = d_ray_initialized d /\ forall n, r = Ok n ->
  room mid ws pg n d') d.
Proof.
  intros Hd Hno Hws. unfold plan_replicas. apply swp_bind, swp_get, swp_bind, swp_raise_if; intros Hb; [done|].
  apply bool_decide_eq_false in Hb. destruct pg.
  { apply swp_bind, swp_raise_if; intros Hne; [done|]. apply negb_false_iff, bool_decide_eq_true in Hne.
    apply swp_bind, swp_raise_if; intros _; [done|]. apply swp_ret. split_and!; [done|done|]. intros n [= <-]. by split. }
  apply swp_bind, swp_raise_if; intros Hpl; [done|]. set (engines := (fun ms => (ms.1, s_world_size ms.2)) <$> d_pools d).
  assert (Hnew : mid ∉ dict_keys engines) by (unfold engines; by rewrite engines_keys). rewrite dict_set_new by done.
  destruct (compute_even_share (d_total_gpus d) (engines ++ [(mid, ws)])) as [plan|e] eqn:Eplan; [|done].
  assert (Hlen : length (engines ++ [(mid, ws)]) = S (length (d_pools d))) by (unfold engines; rewrite length_app, length_fmap; simpl; lia).
  set (limit := next_share d).
  assert (Hpos1 : Forall (fun mw => 1 <= mw.2) (engines ++ [(mid, ws)])) by (apply Forall_app; split; [|by constructor]; unfold engines;
  apply Forall_fmap; eapply Forall_impl; [apply (di_share _ Hd)|]; by intros ms [H _]).
  assert (Hget : forall m w, dict_get (engines ++ [(mid, ws)]) m = Some w -> exists r, dict_get plan m = Some r /\ 1 <= r /\
  r * w <= limit /\ w <= limit).
  { intros m w Hm. unfold limit, next_share. rewrite <- Hlen. eapply even_share_get; [|apply Hd| |exact Eplan|exact Hm].
    - exact Hpos1.
    - rewrite <- dict_set_new by done. apply dict_set_nodup. unfold engines. rewrite engines_keys. apply Hd. }
  assert (Hpos : forall m t, dict_get plan m = Some t -> 0 <= t).
  { intros m t. eapply even_share_pos; [exact Hpos1|apply Hd|exact Eplan]. }
  apply swp_bind. eapply swp_mono; [by apply scale_downs_spec|]. intros d1 [[]|e] (Hd1 & Hsh & Hok); [|split_and!; [done|apply Hsh|done]].
  specialize (Hok eq_refl).
  destruct (Hget mid ws) as (n & Hn & Hn1 & Hn2 & Hn3). { rewrite <- dict_set_new by done. apply dict_get_set_eq. }
  unfold dict_at. rewrite Hn. apply swp_ret. split_and!; [done|apply Hsh|]. intros n' [= <-].
  assert (Hlen1 : length (d_pools d1) = length (d_pools d)) by (pose proof (f_equal length (sh_keys _ _ Hsh)) as E; unfold dict_keys in E;
  by rewrite !length_fmap in E). destruct (sh_total _ _ Hsh) as [Etot _].
  split; [done|by rewrite (sh_keys _ _ Hsh)|]. split; [by eapply shrunk_placement; [exact Hsh|apply Hd1|]|].
  assert (next_share d1 = limit) as -> by (unfold limit, next_share; by rewrite Etot, Hlen1). split_and!; [|done|done|done].
  apply Forall_forall. intros [m s'] Hin. apply (dict_elem_get _ _ _ (di_keys _ Hd1)) in Hin.
  destruct (sh_pools _ _ Hsh m s' Hin) as (s & Hs & E1 & E2 & E3 & E4).
  destruct (Hget m (s_world_size s)) as (r & Hr & Hr1 & Hr2 & Hr3). { rewrite <- dict_set_new by done.
  rewrite dict_get_set_ne; [by apply engines_get|]. intros ->. apply Hb, dict_get_keys. by eexists. }
  destruct (share_of _ _ _ Hd1 Hin) as [W1 _]. split; [done|]. intros _.
  assert (Hrep : pool_replicas s' <= r) by (eapply Hok; [|exact Hin|exact Hr]; apply dict_get_keys; by eexists). cbn [snd]. rewrite E1.
  split_and!; [done|nia|]. intros t Ht. rewrite E2 in Ht. unfold no_task in Hno. rewrite Forall_forall in Hno.
  specialize (Hno (m, s) (dict_get_elem _ _ _ Hs)). simpl in Hno. congruence.
Qed.

Lemma add_model_inv mid ws n pg cc births d : room mid ws pg n d -> d_ray_initialized d = true -> 1 <= ws ->
  swp (add_model mid ws n pg cc births) (fun d' r => driver_inv d' /\ forall k, r = Ok k -> (pg = false -> Z.of_nat k = n) /\
  dict_keys (d_pools d') = dict_keys (d_pools d) ++ [mid]) d.
Proof.
  intros [Hd Hnew Hroom] Hray Hws. unfold add_model. pose proof (initialize_size cc pg n ws births) as Hsize. unfold swp at 1 in Hsize.
  set (run := ReplicaPool.initialize None cc _ births pool_new) in *.
  destruct run as [p [k|e]]; [|by split].
  destruct (Hsize k eq_refl) as (Hk & Hlen & Hm). simpl in *. apply swp_bind, swp_mod, swp_ret. rewrite dict_set_new by done.
  split; [|intros k' [= <-]; split; [intros E; specialize (Hlen E); rewrite E in Hroom; destruct Hroom as (_ & _ & _ & Hn & _);
  lia|unfold dict_keys; simpl; by rewrite fmap_app]]. split; simpl.
  - rewrite <- dict_set_new by done. apply dict_set_nodup, Hd.
  - unfold fair_share. simpl. rewrite length_app. cbn [length]. rewrite Nat.add_1_r. fold (next_share d).
    destruct pg; [rewrite Hroom; simpl; constructor; [|constructor]; split; simpl; [done|]; unfold uses_placement_group; simpl;
    congruence|]. destruct Hroom as (_ & Hf & Hw & Hn & Hnw). apply Forall_app. split; [done|]. constructor; [|constructor].
    split; simpl; [done|]. intros _. unfold pool_replicas. simpl. specialize (Hlen eq_refl). rewrite Hlen. split_and!; [done|nia|done].
  - apply Hd.
  - rewrite existsb_app, length_app. destruct pg; [by rewrite Hroom|]. destruct Hroom as [Hno _]. rewrite Hno. simpl.
    unfold uses_placement_group. simpl. by rewrite Hm.
  - congruence.
Qed.

Lemma ensure_ray_inv gpus d : driver_inv d -> no_task d -> swp (ensure_ray gpus) (fun d' r => driver_inv d' /\ no_task d' /\
    d_pools d' = d_pools d /\ (r = Ok tt -> d_ray_initialized d' = true)) d.
Proof.
  intros Hd Hno. unfold ensure_ray. apply swp_bind, swp_get. destruct (d_ray_initialized d) eqn:Er; [done|].
  apply swp_bind, swp_raise_if; intros Hg; [done|]. apply Z.leb_gt in Hg. apply swp_mod. pose proof (di_ray _ Hd Er) as Hnil.
  split_and!; [|done|done|done]. split; simpl; rewrite ?Hnil; [constructor|constructor|lia|done|done].
Qed.

(** *** Unloading *)

Lemma ordinary_all d : driver_inv d -> ordinary_engines d = [] \/ (length (ordinary_engines d) = length (d_pools d) /\
    ordinary_engines d = ((fun ms => (ms.1, s_world_size ms.2)) <$> d_pools d) /\
    Forall (fun ms => uses_placement_group ms.2 = false) (d_pools d)).
Proof.
  intros Hd. unfold ordinary_engines. destruct (existsb (fun ms => uses_placement_group ms.2) (d_pools d)) eqn:E.
  - left. pose proof (di_placement _ Hd E) as Hl. destruct (d_pools d) as [|ms [|]]; try done. simpl in E. rewrite orb_false_r in E.
    rewrite filter_cons_False; [done|]. by rewrite E.
  - right. assert (Hall : Forall (fun ms => uses_placement_group ms.2 = false) (d_pools d)).
    { apply Forall_forall. intros ms Hin. apply not_true_iff_false. intros Hu. apply not_true_iff_false in E. apply E, existsb_exists.
      exists ms. split; [by apply list_elem_of_In|done]. }
    rewrite Prelude.filter_all; [|by apply Forall_forall]. split_and!; [by rewrite length_fmap|done|done].
Qed.

Lemma rebalance_up_inv d : driver_inv d -> swp rebalance_up (fun d' r => driver_inv d' /\ r = Ok tt) d.
Proof.
  intros Hd. unfold rebalance_up. apply swp_bind, swp_get. destruct (ordinary_all d Hd) as [->|(Hlen & Heq & Hord)]; [done|].
  destruct (ordinary_engines d) as [|e0 es] eqn:Eo; [done|]. rewrite <- Eo in *.
  assert (Hws : Forall (fun mw => 1 <= mw.2 <= fair_share d) (ordinary_engines d)).
  { rewrite Heq. apply Forall_fmap, Forall_forall. intros ms Hin. pose proof (di_share _ Hd) as Hf. rewrite Forall_forall in Hf, Hord.
    destruct (Hf _ Hin) as [W1 W3]. destruct (W3 (Hord _ Hin)) as (W4 & _). simpl. lia. }
  destruct (share_ok _ _ Hws) as [plan Hplan]. assert (Ec : compute_even_share (d_total_gpus d) (ordinary_engines d) = Ok plan) by (rewrite
  Eo in *; unfold compute_even_share; rewrite Hlen; exact Hplan). rewrite Ec. apply swp_mod. split; [|done].
  assert (Hkeys : dict_keys (scale_target plan <$> d_pools d) = dict_keys (d_pools d)) by (unfold dict_keys; rewrite <- list_fmap_compose;
  apply list_fmap_ext; intros i ms _; simpl; unfold scale_target; repeat case_match; done).
  split; simpl; [rewrite Hkeys; apply Hd| |apply Hd| |intros Hr; by rewrite (di_ray _ Hd Hr)].
  - unfold fair_share. simpl. rewrite length_fmap. fold (fair_share d). apply Forall_fmap, Forall_forall. intros [m s] Hin.
    pose proof (di_share _ Hd) as Hf. rewrite Forall_forall in Hf, Hord. pose proof (Hf _ Hin) as Hs. pose proof (Hord _ Hin) as Hu.
    cbn [fst snd compose] in *. unfold scale_target. cbn [fst snd]. rewrite Hu. destruct (dict_get plan m) as [t|] eqn:Et; [|done].
    destruct (_ <? _); [|done].
    destruct (even_share_get (d_total_gpus d) (ordinary_engines d) plan m (s_world_size s)) as (r & Hr & _ & Hrw & _); [eapply Forall_impl;
    [exact Hws|]; simpl; lia|apply Hd|rewrite Heq, engines_keys; apply Hd|exact Ec|rewrite Heq; by apply engines_get, dict_elem_get;
    [apply Hd|]|]. rewrite Hlen in Hrw. fold (fair_share d) in Hrw. assert (r = t) as -> by congruence.
    destruct Hs as [W1 W3]. split; simpl; [done|]. intros Hu'. destruct (W3 Hu') as (W4 & W5 & _). split_and!; [done|done|].
    by intros t' [= <-].
  - intros Hx. rewrite length_fmap. apply Hd. apply existsb_exists in Hx as (ms' & Hin & Hu).
    apply list_elem_of_In, list_elem_of_fmap in Hin as (ms & -> & Hin). apply existsb_exists. exists ms. split; [by apply list_elem_of_In|].
    unfold scale_target in Hu. repeat case_match; unfold uses_placement_group in *; simpl in *; congruence.
Qed.

Lemma unload_inv mid err d s : driver_inv d -> dict_get (d_pools d) mid = Some s -> swp (unload mid err) (fun d' r => driver_inv d' /\
    d_pools d' = dict_del (d_pools d) mid /\ (err = None -> r = Ok tt)) d.
Proof.
  intros Hd Hm. unfold unload. apply swp_finally. eapply swp_route; [exact Hm|]. apply swp_mod.
  set (p' := (ReplicaPool.shutdown None err (s_pool s)).1).
  assert (Hdel : forall l, dict_del (dict_set l mid (with_pool p' s)) mid = dict_del l mid).
  { intros l. induction l as [|[m0 s0] l IH]; simpl; [unfold dict_del; by rewrite filter_cons_False by (by simpl; tauto)|].
    unfold dict_del in *. destruct (decide (mid = m0)) as [<-|Hne]; [by rewrite !filter_cons_False by (simpl; tauto)|].
    rewrite !filter_cons_True by (simpl; congruence). by rewrite IH. }
  assert (Hp : driver_inv (set_pools (dict_del (d_pools d) mid) d)) by (by apply inv_delete). split_and!; simpl.
  - unfold set_pools in *. simpl. by rewrite Hdel.
  - by rewrite Hdel.
  - intros ->. unfold ReplicaPool.shutdown, check_model_id. unfold mbind, stx_bind, sbind, sfinally, smod, sret, sget. simpl.
    by destruct (p_scheduler (s_pool s)).
Qed.

Lemma unload_any mid err d : driver_inv d -> swp (unload mid err) (fun d' _ => driver_inv d') d.
Proof.
  intros Hd. destruct (dict_get (d_pools d) mid) as [s|] eqn:Hm; [eapply swp_mono; [by eapply unload_inv|]; by intros d' r [H _]|].
  unfold unload. apply swp_finally. unfold route_to_pool, get_pool. apply swp_bind, swp_bind, swp_get. rewrite Hm. apply swp_throw, swp_mod.
  by apply inv_delete.
Qed.

Lemma unload_all_inv mids errs d : driver_inv d -> swp (unload_all mids errs) (fun d' _ => driver_inv d') d.
Proof.
  revert d. induction mids as [|mid mids IH]; intros d Hd; [done|]. pose proof (unload_any mid (errs mid) d Hd) as Hu. unfold swp in *.
  simpl. destruct (unload mid (errs mid) d) as [d1 [u|e]]; simpl in *; [by apply IH|].
  change (swp (es ← unload_all mids errs; sret (e :: es)) (fun d' _ => driver_inv d') d1). apply swp_bind. specialize (IH d1 Hu).
  unfold swp. by destruct (unload_all mids errs d1) as [d2 [es|e']].
Qed.

Lemma shutdown_inv model_id errs d : driver_inv d -> swp (shutdown model_id errs) (fun d' r => driver_inv d' /\
    forall mid s, model_id = Some mid -> dict_get (d_pools d) mid = Some s -> errs mid = None -> r = Ok tt) d.
Proof.
  intros Hd. destruct model_id as [mid|]; simpl.
  - apply swp_bind. unfold get_pool. apply swp_bind, swp_get.
    destruct (dict_get (d_pools d) mid) as [s|] eqn:Hm; [|apply swp_throw; split; [done|]; intros; simplify_eq]. apply swp_ret, swp_bind.
    eapply swp_mono; [by eapply unload_inv|]. intros d1 [[]|e] (Hd1 & _ & Hok); [|split; [done|]; intros mid' s' [= <-] _ He;
    by specialize (Hok He)]. apply swp_bind, swp_get. case_bool_decide; [by split|]. eapply swp_mono; [by apply rebalance_up_inv|].
    intros d2 r [Hd2 ->]. by split.
  - apply swp_bind, swp_get, swp_bind. eapply swp_mono; [by apply unload_all_inv|]. intros d1 [[|e [|e' es]]|e] Hd1; by split.
Qed.

(** ** Histories *)

(** A load that has its plan and is initializing its pool. *)
Record loading := Loading { ld_mid : string; ld_world_size : Z; ld_replicas : Z; ld_placement : bool }.

(** What happens to a driver.  [initialize] is two events: it begins, which scales the others
    down, and ends when its pool is initialized; between them and between any others there can be
    further loads, shutdowns, the background tasks and the operations on the pools. *)
Inductive driver_event :=
  | EvBegin (gpus : Z) (mid : string) (ws : Z) (num_replicas : option Z) (placement_group : bool) (pts : string -> list (pause_point * pause_point))
  | EvEnd (load : nat) (clear_cache_on_sync : bool) (births : nat -> birth)
  | EvShutdown (model_id : option string) (errs : string -> option exn)
  | EvTask (mid : string) (births : nat -> birth)
  | EvRoute (model_id : option string) (o : pool_op).

Abbreviation dstate := (driver * list loading)%type.

Definition run_event (st : dstate) (ev : driver_event) : dstate :=
  let '(d, loads) := st in
  match ev with
  | EvBegin gpus mid ws n pg pts =>
      match (ensure_ray gpus;; plan_replicas mid ws n pg pts) d with
      | (d, Ok n) => (d, loads ++ [Loading mid ws n pg])
      | (d, Raise _) => (d, loads)
      end
  | EvEnd i cc births =>
      match loads !! i with
      | Some l => ((add_model (ld_mid l) (ld_world_size l) (ld_replicas l) (ld_placement l) cc births d).1, delete i loads)
      | None => st
      end
  | EvShutdown model_id errs => ((shutdown model_id errs d).1, loads)
  | EvTask mid births => ((run_scale_task mid births d).1, loads)
  | EvRoute mid o => if routed o then ((route_to_pool mid (fun p => (run_pool_op p o, Ok tt)) d).1, loads) else st
  end.

Fixpoint run_events (st : dstate) (evs : list driver_event) : dstate :=
  match evs with [] => st | ev :: evs => run_events (run_event st ev) evs end.

(** [initialize] is the two events one after the other. *)
Lemma initialize_events gpus fresh mid ws n pg cc pts births d :
  (initialize gpus fresh (Some mid) ws n pg cc pts births d).1 = (run_events (d, []) [EvBegin gpus mid ws n pg pts; EvEnd 0 cc births]).1.
Proof.
  unfold initialize. simpl. unfold mbind, stx_bind, sbind. destruct (ensure_ray gpus d) as [d1 [u|e]]; [|done].
  by destruct (plan_replicas mid ws n pg pts d1) as [d2 [k|e]].
Qed.

(** An event that keeps the shares: models are loaded without a number of replicas, while no task
    is pending and no other load is under way, and none is unloaded during a load. *)
Definition orderly_event (st : dstate) (ev : driver_event) : Prop :=
  match ev with
  | EvBegin _ _ ws n _ _ => n = None /\ 1 <= ws /\ no_task st.1 /\ st.2 = []
  | EvShutdown _ _ => st.2 = []
  | _ => True
  end.
Fixpoint orderly (st : dstate) (evs : list driver_event) : Prop :=
  match evs with [] => True | ev :: evs => orderly_event st ev /\ orderly (run_event st ev) evs end.

(** The GPUs of the loads that are under way. *)
Definition loading_gpus (loads : list loading) : Z :=
  sumZ ((fun l => if ld_placement l then 0 else ld_replicas l * ld_world_size l) <$> loads).

Definition state_inv (st : dstate) : Prop :=
  driver_inv st.1 /\
  match st.2 with
  | [] => True
  | [l] => room (ld_mid l) (ld_world_size l) (ld_placement l) (ld_replicas l) st.1 /\ d_ray_initialized st.1 = true /\ 1 <= ld_world_size l
  | _ => False
  end.

(** Changing one pool within its share keeps the room of a load under way. *)
Lemma room_update mid ws pg n d m s s' : room mid ws pg n d -> dict_get (d_pools d) m = Some s ->
    (forall limit, within_share limit s -> within_share limit s') -> uses_placement_group s' = uses_placement_group s ->
    room mid ws pg n (set_pools (dict_set (d_pools d) m s') d).
Proof.
  intros [Hd Hnew Hroom] Hm Hw Hu. assert (Hk : m ∈ dict_keys (d_pools d)) by (apply dict_get_keys; by eexists).
  assert (Hl : length (dict_set (d_pools d) m s') = length (d_pools d)) by (by eapply dict_set_length). split; simpl.
  - eapply inv_update; [done|exact Hm|apply Hw; by eapply share_of|done].
  - by rewrite dict_keys_set_old.
  - destruct pg; [by rewrite Hroom in Hm|]. unfold next_share. simpl. rewrite Hl, (dict_set_existsb _ _ _ s) by done.
    destruct Hroom as (H1 & H2 & H3 & H4 & H5). split_and!; [done| |done..]. apply dict_set_Forall; [done|]. apply Hw. rewrite Forall_forall in H2.
    by apply (H2 (m, s)), dict_get_elem.
Qed.

Lemma room_task mid ws pg n m births d : room mid ws pg n d -> room mid ws pg n (run_scale_task m births d).1.
Proof.
  intros Hr. change (swp (run_scale_task m births) (fun d' _ => room mid ws pg n d') d). unfold run_scale_task. apply swp_bind, swp_get.
  destruct (dict_get (d_pools d) m) as [s|] eqn:Hm; [|done]. destruct (s_scale s) as [t|] eqn:Et; [|done]. apply swp_mod.
  pose proof (ro_inv _ _ _ _ _ Hr) as Hd. eapply room_update; [done|exact Hm| |].
  - intros limit Hw. by apply within_scaled.
  - by apply (within_scaled (fair_share d) s t births); [eapply share_of|].
Qed.

Lemma room_route {A} mid ws pg n m (op : pm A) d : room mid ws pg n d -> (forall p, quiet op p) -> room mid ws pg n (route_to_pool m op d).1.
Proof.
  intros Hr Hq. destruct m as [m|]; [|done]. destruct (dict_get (d_pools d) m) as [s|] eqn:Hm.
  2: { unfold route_to_pool, get_pool. unfold mbind, stx_bind, sbind. simpl. by rewrite Hm. }
  change (swp (route_to_pool (Some m) op) (fun d' _ => room mid ws pg n d') d). eapply swp_route; [exact Hm|].
  destruct (Hq (s_pool s)) as [H1 H2]. eapply room_update; [done|exact Hm| |exact H2]. intros limit Hw. by apply within_step.
Qed.

Lemma unchanged_ray_task m births d : d_ray_initialized (run_scale_task m births d).1 = d_ray_initialized d.
Proof. unfold run_scale_task, mbind, stx_bind, sbind. simpl. destruct (dict_get _ _) as [s|]; [|done]. by destruct (s_scale s). Qed.
Lemma unchanged_ray_route {A} m (op : pm A) d : d_ray_initialized (route_to_pool m op d).1 = d_ray_initialized d.
Proof.
  unfold route_to_pool, get_pool, mbind, stx_bind, sbind. simpl. destruct m as [m|]; [|done]. destruct (dict_get _ _) as [s|]; [|done]. simpl.
  by destruct (op (s_pool s)) as [p [a|e]].
Qed.

Lemma begin_inv gpus mid ws pg pts d : driver_inv d -> no_task d -> 1 <= ws ->
  state_inv (run_event (d, []) (EvBegin gpus mid ws None pg pts)).
Proof.
  intros Hd Hno Hws. unfold run_event.
  assert (H : swp (ensure_ray gpus;; plan_replicas mid ws None pg pts) (fun d' r => driver_inv d' /\
    forall n, r = Ok n -> room mid ws pg n d' /\ d_ray_initialized d' = true) d).
  { apply swp_bind. eapply swp_mono; [by apply ensure_ray_inv|]. intros d1 [[]|e] (Hd1 & Hno1 & _ & Hray); [|done].
    eapply swp_mono; [by apply plan_replicas_spec|]. intros d2 r (Hd2 & Er & Hroom). split; [done|]. intros n Hn.
    split; [by apply Hroom|rewrite Er; by apply Hray]. }
  unfold swp in H. destruct ((ensure_ray gpus;; plan_replicas mid ws None pg pts) d) as [d' [n|e]]; simpl in H; destruct H as [Hd' Hr].
  - destruct (Hr n eq_refl). split; simpl; [done|]. by split_and!.
  - by split.
Qed.

Lemma run_event_inv st ev : state_inv st -> orderly_event st ev -> state_inv (run_event st ev).
Proof.
  destruct st as [d loads]. intros [Hd Hl] Ho. simpl in Hd, Hl.
  destruct ev as [gpus mid ws n pg pts|i cc births|model_id errs|mid births|mid o].
  - destruct Ho as (-> & Hws & Hno & Hload). simpl in Hno, Hload. subst loads. by apply begin_inv.
  - simpl. destruct loads as [|l [|]]; [by split| |done]. destruct i as [|i]; [|by split]. simpl. destruct Hl as (Hroom & Hray & Hws).
    split; [|done]. apply (add_model_inv _ _ _ _ cc births d Hroom Hray Hws).
  - simpl in Ho. subst loads. split; [|done]. by destruct (shutdown_inv model_id errs d Hd).
  - split; [by apply run_scale_task_inv|]. destruct loads as [|l [|]]; [done| |done]. destruct Hl as (Hroom & Hray & Hws).
    split_and!; [by apply room_task|simpl; by rewrite unchanged_ray_task|done].
  - simpl. destruct (routed o) eqn:Er; [|by split]. split; [apply route_inv; [done|]; intros m s _ _; by apply routed_quiet|].
    destruct loads as [|l [|]]; [done| |done]. destruct Hl as (Hroom & Hray & Hws).
    split_and!; [apply room_route; [done|]; intros p; by apply routed_quiet|simpl; by rewrite unchanged_ray_route|done].
Qed.

Lemma run_events_inv evs : forall st, state_inv st -> orderly st evs -> state_inv (run_events st evs).
Proof. induction evs as [|ev evs IH]; intros st Hst; simpl; [done|]. intros [Ho Hos]. apply IH; [by apply run_event_inv|done]. Qed.

Lemma state_inv_new : state_inv (driver_new, []).
Proof. split; [|done]. split; simpl; [constructor|constructor|lia|done|done]. Qed.

(** The cluster has room for the pools and for the load under way. *)
Lemma state_bounded st : state_inv st -> allocated_gpus st.1 + loading_gpus st.2 <= d_total_gpus st.1.
Proof.
  destruct st as [d loads]. intros [Hd Hl]. simpl in *. destruct loads as [|l [|]]; [|clear Hd|done].
  { pose proof (allocated_bounded d Hd). unfold loading_gpus. simpl. lia. }
  destruct Hl as ([Hd _ Hroom] & _ & Hws). unfold loading_gpus. simpl. destruct (ld_placement l).
  { pose proof (allocated_bounded d Hd). lia. }
  destruct Hroom as (_ & Hf & _ & _ & Hn). unfold allocated_gpus.
  assert (Hq : 0 <= next_share d) by (apply Z.div_pos; [apply Hd|lia]). pose proof (sum_within (next_share d) (d_pools d) Hq Hf) as Hs.
  assert (Hm : next_share d * (Z.of_nat (length (d_pools d)) + 1) <= d_total_gpus d).
  { unfold next_share. rewrite Z.mul_comm. replace (Z.of_nat (length (d_pools d)) + 1) with (Z.of_nat (S (length (d_pools d)))) by lia.
    apply Z.mul_div_le. lia. }
  lia.
Qed.

(** ** Claims *)

(** C21: every history of a driver in which models are loaded without a number of replicas, a load
    begins only while no background task is pending and no other load is under way, and no model
    is unloaded during a load, whatever else happens (tasks, failures, operations on the pools):
    the pools and the load under way together hold no more GPUs than the cluster has, no pool
    holds more than an even share, and a model whose workers stop can be unloaded, because the even
    share of the others exists.  Without any one of the four conditions the driver can ask for more
    GPUs than there are ([each_condition_needed]). *)
Theorem driver_never_oversubscribes evs :
  orderly (driver_new, []) evs ->
  let st := run_events (driver_new, []) evs in
  allocated_gpus st.1 + loading_gpus st.2 <= d_total_gpus st.1 /\
  (forall mid s, dict_get (d_pools st.1) mid = Some s -> uses_placement_group s = false ->
    pool_replicas s * s_world_size s <= d_total_gpus st.1 `div` Z.of_nat (length (d_pools st.1))) /\
  (forall mid s errs, dict_get (d_pools st.1) mid = Some s -> errs mid = None -> (shutdown (Some mid) errs st.1).2 = Ok tt).
Proof.
  intros Ho st. pose proof (run_events_inv evs _ state_inv_new Ho) as Hst. fold st in Hst. pose proof Hst as [Hd _].
  split_and!; [by apply state_bounded| |].
  - intros mid s Hm Hu. destruct (share_of _ mid s Hd Hm) as [_ H2]. by destruct (H2 Hu) as (_ & H3 & _).
  - intros mid s errs Hm He. destruct (shutdown_inv (Some mid) errs _ Hd) as [_ H]. exact (H mid s eq_refl Hm He).
Qed.

(** ** A small cluster *)

Module MiniDriver.

Definition births (i : nat) : birth := Birth (Some "node") 1 None.
Definition no_waits (mid : string) : list (pause_point * pause_point) := [].
Definition no_error (mid : string) : option exn := None.
Definition load_model (mid : string) (ws : Z) (d : driver) : driver := (initialize 8 "" (Some mid) ws None false true no_waits births d).1.
Definition replicas_of (d : driver) : list (string * Z) := (fun ms => (ms.1, pool_replicas ms.2)) <$> d_pools d.

Definition two : driver := load_model "B" 1 (load_model "A" 1 driver_new).
Definition one : driver := (shutdown (Some "B") no_error two).1.

(** The same as a history; a third model is being loaded. *)
Definition begin (mid : string) : driver_event := EvBegin 8 mid 1 None false no_waits.
Definition end_load : driver_event := EvEnd 0 true births.
Definition history : list driver_event :=
  [begin "A"; end_load; begin "B"; end_load; EvShutdown (Some "B") no_error; EvTask "A" births; begin "C"].
Definition gpus_left (evs : list driver_event) : Z := let st := run_events (driver_new, []) evs in available_gpus st.1 - loading_gpus st.2.

Lemma history_orderly : orderly (driver_new, []) history.
Proof. unfold history. split_and!; repeat split; try lia; try done; vm_compute; repeat constructor. Qed.

Lemma driver_never_oversubscribes_witness :
  let st := run_events (driver_new, []) history in
  replicas_of st.1 = [("A", 4)] /\ loading_gpus st.2 = 4 /\ allocated_gpus st.1 + loading_gpus st.2 <= d_total_gpus st.1.
Proof.
  split; [vm_compute; reflexivity|]. split; [vm_compute; reflexivity|]. exact (proj1 (driver_never_oversubscribes history history_orderly)).
Defined.

Example shares : replicas_of two = [("A", 4); ("B", 4)] /\ replicas_of (run_scale_task "A" births one).1 = [("A", 8)].
Proof. vm_compute. done. Qed.

(** Each condition of an orderly history is needed: a load while a task is pending (the task still
    scales to the share of before), two loads at once (both plan for themselves), an unload during
    a load (the others are scaled up without the new model), a number of replicas of the caller. *)
Example each_condition_needed :
  gpus_left [begin "A"; end_load; begin "B"; end_load; EvShutdown (Some "B") no_error; begin "C"; end_load; EvTask "A" births] = -4 /\
  gpus_left [begin "A"; end_load; begin "B"; begin "C"; end_load; end_load] = -4 /\
  gpus_left [begin "A"; end_load; begin "B"; end_load; begin "C"; EvShutdown (Some "B") no_error; end_load; EvTask "A" births] = -2 /\
  gpus_left [EvBegin 8 "A" 1 (Some 16) false no_waits; end_load] = -8.
Proof. vm_compute. done. Qed.

(** A load that fails leaves the others scaled down. *)
Example failed_load_keeps_share : let r := initialize 8 "" (Some "B") 1 None false true no_waits (fun _ => Birth None 1 (Some (RuntimeError
    "out of memory"))) (load_model "A" 1 driver_new) in
  r.2 = Raise (RuntimeError "out of memory") /\ replicas_of r.1 = [("A", 4)] /\ s_scale <$> dict_get (d_pools r.1) "A" = Some None.
Proof. vm_compute. done. Qed.

End MiniDriver.
