(* ===== verification/PackedReduction.v ===== *)
(** * Losses and metrics of packed microbatches

    Source: [src/arctic_platform/rl/processors/packed_reduction.py], and the part of
    [_run_pipeline_with_packing] ([rl/processors/pipeline.py]) that combines the results.

    A batch is split into microbatches; each gives a loss and a dictionary of metrics.  The
    objective says how they combine: losses that are local means are scaled by the share of
    their microbatch before the gradients are accumulated, losses that are normalized already
    are added up.  Numbers are exact rationals where the source has floats; a weight may also be
    infinite or not a number ([NonFinite]).  The objective's callback is a parameter. *)

From stdpp Require Import prelude strings list.
From Stdlib Require Import ZArith QArith Qcanon Lia.
From S2P Require Import Prelude Dict BatchMetrics.
Local Open Scope nat_scope.

(** ** Reductions *)

Inductive weight := Fin (q : Qc) | NonFinite.
#[export] Instance weight_eq_dec : EqDecision weight.
Proof. solve_decision. Defined.

Record PackedLossReduction := Reduction { loss_scales : list weight; reporting_weights : list weight; loss_is_additive : bool }.

Definition weight_ok (w : weight) : option Qc := match w with Fin q => if decide (0 <= q)%Qc then Some q else None | NonFinite => None end.
Definition validated_packed_weights (ws : list weight) : res (list Qc) :=
  check (negb (bool_decide (ws = []))) (ValueError "packed loss reduction requires at least one microbatch");;
  match mapM (M := option) weight_ok ws with Some qs => Ok qs |
    None => Raise (ValueError "packed loss reduction weights must be finite and non-negative") end.

(** All ones when the weights are all zero. *)
Definition ones_if_zero (qs : list Qc) : list Qc := if decide (sumQ qs = 0%Qc) then (fun _ => 1%Qc) <$> qs else qs.

Definition local_mean_packed_loss_reduction (ws : list weight) : res PackedLossReduction :=
  qs ← validated_packed_weights ws;
  let qs := ones_if_zero qs in
  Ok (Reduction ((fun q => Fin (q / sumQ qs)%Qc) <$> qs) (Fin <$> qs) false).
Definition additive_packed_loss_reduction (ws : list weight) : res PackedLossReduction :=
  qs ← validated_packed_weights ws;
  let qs := ones_if_zero qs in
  Ok (Reduction ((fun _ => Fin 1%Qc) <$> qs) (Fin <$> qs) true).

(** ** The scales that microbatches share *)

(** A value of a scale: a number, [None], or something that [float] refuses. *)
Inductive scale_value := SNum (q : Qc) | SNone | SOther (s : string).
#[export] Instance scale_value_eq_dec : EqDecision scale_value.
Proof. solve_decision. Defined.

Abbreviation scale_bag := (list (string * scale_value)).
Definition GLOBAL_SCALE_KEYS : list string := ["dp_size"; "batch_num_tokens"; "global_batch_size"].

(** [bag.get(key)], and whether the key is present and not [None]. *)
Definition scale_get (b : scale_bag) (k : string) : scale_value := default SNone (dict_get b k).
Definition scale_value_present (b : scale_bag) (k : string) : bool := negb (bool_decide (scale_get b k = SNone)).

Definition Qcabs (q : Qc) : Qc := if decide (0 <= q)%Qc then q else (- q)%Qc.
Definition Qcmax (a b : Qc) : Qc := if decide (a <= b)%Qc then b else a.
(** [math.isclose] with the tolerances of the source. *)
Definition isclose (a b : Qc) : bool :=
  bool_decide (Qcabs (a - b) <= Qcmax (Q2Qc (1 # 1000000) * Qcmax (Qcabs a) (Qcabs b)) (Q2Qc (1 # 1000000000)))%Qc.
Definition scale_values_equal (k : string) (l r : scale_value) : bool :=
  match l, r with SNum a, SNum b => if String.eqb k "batch_num_tokens" then isclose a b else bool_decide (a = b) | _, _ => bool_decide (l = r) end.

Definition scale_aligned (first other : scale_bag) (k : string) : bool :=
  match scale_value_present first k, scale_value_present other k with
  | false, false => true
  | true, true => scale_values_equal k (scale_get first k) (scale_get other k)
  | _, _ => false
  end.
Definition assert_aligned_global_loss_scales (mbs : list scale_bag) : res unit :=
  match mbs with
  | [] | [_] => Ok tt
  | first :: rest => check (forallb (fun mb => forallb (scale_aligned first mb) GLOBAL_SCALE_KEYS) rest) (ValueError
    "packed microbatch disagrees with microbatch 0")
  end.

Definition fill_scale (first : scale_bag) (config : scale_bag) (k : string) : scale_bag :=
  if negb (scale_value_present config k) && scale_value_present first k then dict_set config k (scale_get first k) else config.
Definition config_with_microbatch_scales (config : scale_bag) (mbs : list scale_bag) : scale_bag := fold_left (fill_scale (default []
    (head mbs))) GLOBAL_SCALE_KEYS config.

(** ** Resolving *)

(** What a callback answers: nothing, a reduction, or a value of another type. *)
Inductive callback_answer := NoReduction | Declared (r : PackedLossReduction) | WrongType.
(** [processing["loss_fn"]]: absent, [None], or a name. *)
Inductive loss_fn := DefaultLoss | NoLoss | NamedLoss (name : string).

Section resolve.
Context (resolve_loss : string -> res (list scale_bag -> scale_bag -> string -> res callback_answer)).

Definition check_reduction (n : nat) (r : PackedLossReduction) : res PackedLossReduction :=
  check ((length (loss_scales r) =? n) && (length (reporting_weights r) =? n)) (ValueError "packed reduction metadata must contain as many entries");;
  validated_packed_weights (loss_scales r);;
  qs ← validated_packed_weights (reporting_weights r);
  check (negb (bool_decide (sumQ qs = 0%Qc))) (ValueError "packed reporting weights must have a positive sum");;
  Ok r.

Definition resolve_packed_loss_reduction (fn : loss_fn) (config : scale_bag) (mbs : list scale_bag) (require_declared : bool) : res (option
    PackedLossReduction) :=
  let n := length mbs in
  check (negb (n =? 0)) (ValueError "packed loss reduction requires at least one microbatch");;
  assert_aligned_global_loss_scales mbs;;
  match fn with
  | NoLoss => r ← local_mean_packed_loss_reduction (replicate n (Fin 1%Qc)); Ok (Some r)
  | DefaultLoss | NamedLoss _ =>
      let name := match fn with NamedLoss name => name | _ => "ap_grpo" end in
      callback ← resolve_loss name;
      answer ← callback mbs (config_with_microbatch_scales config mbs) name;
      match answer with
      | NoReduction =>
          check (negb ((1 <? n) && require_declared)) (ValueError "loss_fn does not declare packed-microbatch reduction metadata");;
          if 1 <? n then Ok None else r ← local_mean_packed_loss_reduction [Fin 1%Qc]; Ok (Some r)
      | WrongType => Raise (TypeError "packed reduction callback must return PackedLossReduction")
      | Declared r => r ← check_reduction n r; Ok (Some r)
      end
  end.
End resolve.

(** ** Combining *)

(** The number of a weight; the weights of a resolved reduction are finite. *)
Definition wt (w : weight) : Qc := match w with Fin q => q | NonFinite => 0%Qc end.

(** What the engine accumulates: the losses it ran [backward] on. *)
Definition apply_packed_loss_reduction (engine : list Qc) (loss : Qc) (scale : weight) (backward : bool) : list Qc * option Qc :=
  let scaled := (loss * wt scale)%Qc in if backward then (engine ++ [scaled], None) else (engine, Some scaled).

Definition combine_packed_losses (losses : list Qc) (r : PackedLossReduction) : Qc :=
  if loss_is_additive r then sumQ losses
  else (sumQ (zip_with (fun l w => l * wt w) losses (reporting_weights r)) / sumQ (wt <$> reporting_weights r))%Qc.

Section metrics.
Context (declared : string -> bool).

Record sums := Sums { summed : list (string * Qc); averaged : list (string * Qc); averaged_weight : list (string * Qc) }.
Definition bump (d : list (string * Qc)) (k : string) (q : Qc) : list (string * Qc) := dict_set d k (default 0%Qc (dict_get d k) + q)%Qc.

Definition add_packed (w : Qc) (acc : sums) (kv : string * metric) : sums :=
  match kv.2 with
  | Num q =>
      if metric_is_summed declared kv.1 then Sums (bump (summed acc) kv.1 q) (averaged acc) (averaged_weight acc)
      else Sums (summed acc) (bump (averaged acc) kv.1 (q * w)%Qc) (bump (averaged_weight acc) kv.1 w)
  | _ => acc
  end.
Definition packed_sums (mws : list (metrics * Qc)) : sums := fold_left (fun acc mw => fold_left (add_packed mw.2) mw.1 acc) mws (Sums [] [] []).

Definition all_keys (mms : list metrics) : list string := (concat mms).*1.
Definition colliding (mms : list metrics) : list string := filter (fun k => (k +:+ ".sum") ∈ all_keys mms) (all_keys mms).

Definition average_of (total_weight : Qc) (acc : sums) (kv : string * Qc) : string * metric :=
  let w := default 0%Qc (dict_get (averaged_weight acc) kv.1) in (kv.1, Num (kv.2 / (if decide (w = 0%Qc) then total_weight else w))%Qc).

Definition combine_packed_metrics (mms : list metrics) (weights : list Qc) : res metrics :=
  let n := length mms in
  let total := sumQ weights in
  let '(total, weights) := if decide (total = 0%Qc) then (Q2Qc (inject_Z (Z.of_nat (Nat.max n 1))), replicate n 1%Qc) else (total, weights) in
  check (bool_decide (colliding mms = [])) (ValueError "packed metrics mix a rate key with its sum pair");;
  let acc := packed_sums (zip mms weights) in
  Ok (fold_left (fun out '(k, q) => dict_set out k (Num q)) (summed acc) (average_of total acc <$> averaged acc)).

(** The results of the microbatches of [_run_pipeline_with_packing]: every one has a loss. *)
Record packed_result := PackedResult { pr_engine : list Qc; pr_avg_loss : Qc; pr_metrics : metrics; pr_loss : option Qc }.

Definition run_microbatches (r : PackedLossReduction) (backward : bool) (losses : list Qc) : list Qc * list Qc :=
  fold_left (fun acc ls => let '(engine, scaled) := apply_packed_loss_reduction acc.1 ls.1 ls.2 backward in (engine, acc.2 ++ option_list scaled))
    (zip losses (loss_scales r)) ([], []).

Definition packed_results (r : PackedLossReduction) (backward : bool) (results : list (Qc * metrics)) : res packed_result :=
  let '(engine, tensors) := run_microbatches r backward results.*1 in
  m ← combine_packed_metrics results.*2 (wt <$> reporting_weights r);
  Ok (PackedResult engine (combine_packed_losses results.*1 r) m (if bool_decide (tensors = []) then None else Some (sumQ tensors))).
End metrics.

(** ** Weights *)

Lemma validated_Fin qs : qs <> [] -> Forall (fun q => 0 <= q)%Qc qs -> validated_packed_weights (Fin <$> qs) = Ok qs.
Proof.
  intros Hne Hq. unfold validated_packed_weights. rewrite bool_decide_eq_false_2 by (by destruct qs). simpl.
  assert (mapM (M := option) weight_ok (Fin <$> qs) = Some qs) as -> by (induction Hq as [|q qs H0 Hq IH]; [done|]; rewrite fmap_cons;
  simpl; rewrite decide_True by done; destruct qs; [done|]; by rewrite IH). done.
Qed.

Lemma validated_inv ws qs : validated_packed_weights ws = Ok qs -> ws = Fin <$> qs /\ ws <> [] /\ Forall (fun q => 0 <= q)%Qc qs.
Proof.
  unfold validated_packed_weights. intros (u & Hne%check_Ok_inv & H)%bind_Ok_inv. apply negb_true_iff, bool_decide_eq_false in Hne.
  destruct (mapM weight_ok ws) as [qs'|] eqn:E; [|done]. injection H as ->. apply mapM_Some in E. split_and!; [|done|].
  - induction E as [|w q ws qs Hw E IH]; [done|]. rewrite fmap_cons. f_equal; [|destruct ws; [by inv E|by apply IH]].
    unfold weight_ok in Hw. repeat case_match; by simplify_eq.
  - clear Hne. induction E as [|w q ws qs Hw E IH]; constructor; [|done]. unfold weight_ok in Hw. repeat case_match; by simplify_eq.
Qed.

Lemma sumQ_scale c l : sumQ ((fun q => q * c)%Qc <$> l) = (sumQ l * c)%Qc.
Proof. induction l as [|x l IH]; [simpl; ring|]. rewrite fmap_cons. simpl. rewrite IH. ring. Qed.

Lemma sumQ_ones {A} (l : list A) : sumQ ((fun _ => 1%Qc) <$> l) = Q2Qc (inject_Z (Z.of_nat (length l))).
Proof.
  induction l as [|x l IH]; [done|]. rewrite fmap_cons. cbn [sumQ foldr length]. fold (sumQ ((fun _ : A => 1%Qc) <$> l)). rewrite IH.
  apply Qc_is_canon. simpl. rewrite !Qred_correct. rewrite Nat2Z.inj_succ, <- Z.add_1_l, inject_Z_plus. done.
Qed.

(** ** What is added up for a key *)

Section sums.
Context (declared : string -> bool).
Abbreviation additive k := (metric_is_summed declared k).

(** The numbers reported for a key, with the weights of their microbatches. *)
Definition entry_of (k : string) (w : Qc) (kv : string * metric) : option (Qc * Qc) := (fun q => (w, q)) <$> num_entry k kv.
Definition entries_of (k : string) (mws : list (metrics * Qc)) : list (Qc * Qc) := concat ((fun mw : metrics * Qc => omap (entry_of k mw.2)
    mw.1) <$> mws).

Lemma bump_get d k q k' : dict_get (bump d k q) k' = if decide (k = k') then Some (default 0%Qc (dict_get d k) + q)%Qc else dict_get d k'.
Proof. unfold bump. destruct (decide (k = k')) as [->|Hne]; [by rewrite dict_get_set_eq|by rewrite dict_get_set_ne]. Qed.

(** A dictionary of sums that has seen some entries of a key. *)
Definition seen (d : list (string * Qc)) (k : string) (es : list Qc) : Prop := dict_get d k = match es with [] => None | _ => Some (sumQ es) end.

Lemma seen_bump d k es q : seen d k es -> seen (bump d k q) k (es ++ [q]).
Proof.
  unfold seen. rewrite bump_get, decide_True by done. intros ->.
  assert (H : Some (default 0%Qc (match es with [] => None | _ => Some (sumQ es) end) + q)%Qc = Some (sumQ (es ++ [q]))) by (f_equal;
  rewrite sumQ_app; destruct es; simpl; ring). by destruct es.
Qed.
Lemma seen_other d k k' es q : k' <> k -> seen d k es -> seen (bump d k' q) k es.
Proof. unfold seen. intros Hne H. by rewrite bump_get, decide_False. Qed.

Record tracks (k : string) (es : list (Qc * Qc)) (acc : sums) : Prop := {
  tr_summed : seen (summed acc) k (if additive k then es.*2 else []);
  tr_averaged : seen (averaged acc) k (if additive k then [] else (fun wq => wq.2 * wq.1)%Qc <$> es);
  tr_weight : seen (averaged_weight acc) k (if additive k then [] else es.*1);
}.

Lemma tracks_add k w es acc kv : tracks k es acc -> tracks k (es ++ option_list (entry_of k w kv)) (add_packed declared w acc kv).
Proof.
  intros Ht. destruct kv as [k' [q|b|s]]; unfold entry_of, num_entry, add_packed; cbn [fst snd]; [|simpl; by rewrite app_nil_r..].
  destruct (decide (k' = k)) as [->|Hne]; cbn [fmap option_fmap option_map option_list].
  - destruct Ht as [H1 H2 H3]. destruct (additive k) eqn:E; split; simpl; rewrite E in *; rewrite ?fmap_app; simpl; try done; by apply seen_bump.
  - rewrite app_nil_r. destruct Ht as [H1 H2 H3]. destruct (additive k') eqn:E; split; simpl; try done; by apply seen_other.
Qed.

Lemma tracks_items k w items : forall es acc, tracks k es acc -> tracks k (es ++ omap (entry_of k w) items) (fold_left (add_packed declared
    w) items acc).
Proof.
  induction items as [|kv items IH]; intros es acc Ht; [simpl; by rewrite app_nil_r|]. simpl. pose proof (tracks_add k w es acc kv Ht) as H.
  apply IH in H. rewrite <- app_assoc in H. by destruct (entry_of k w kv).
Qed.

Lemma packed_sums_tracks k mws : tracks k (entries_of k mws) (packed_sums declared mws).
Proof.
  unfold packed_sums, entries_of. assert (H : forall es acc, tracks k es acc ->
  tracks k (es ++ concat ((fun mw : metrics * Qc => omap (entry_of k mw.2) mw.1) <$> mws)) (fold_left (fun acc mw => fold_left (add_packed
  declared mw.2) mw.1 acc) mws acc)).
  { induction mws as [|mw mws IH]; intros es acc Ht; [simpl; by rewrite app_nil_r|]. rewrite fmap_cons. cbn [concat fold_left].
    rewrite app_assoc. by apply IH, tracks_items. }
  apply (H [] (Sums [] [] [])). split; by destruct (additive k).
Qed.

Lemma average_get total acc d k : dict_get (average_of total acc <$> d) k = (fun q => (average_of total acc (k, q)).2) <$> dict_get d k.
Proof. induction d as [|[k0 q0] d IH]; [done|]. rewrite fmap_cons. simpl. destruct (decide (k = k0)) as [->|]; [done|exact IH]. Qed.

Lemma sums_nodup mws : NoDup (dict_keys (summed (packed_sums declared mws))).
Proof.
  unfold packed_sums. apply (fold_left_inv (fun _ acc => NoDup (dict_keys (summed acc)))); [constructor|]. intros l mw acc Hacc _.
  apply (fold_left_inv (fun _ acc => NoDup (dict_keys (summed acc)))); [done|]. intros l' kv acc' Hacc' _. unfold add_packed.
  destruct kv.2; [|done..]. destruct (additive kv.1); [|done]. simpl. by apply dict_set_nodup.
Qed.

(** The reported value of a key. *)
Lemma combined_get mms ws out k : combine_packed_metrics declared mms ws = Ok out -> sumQ ws <> 0%Qc ->
  dict_get out k = match entries_of k (zip mms ws) with
                   | [] => None
                   | es => Some (Num (if additive k then sumQ es.*2 else (sumQ ((fun wq => wq.2 * wq.1) <$> es) / (if decide (sumQ es.*1 =
                     0) then sumQ ws else sumQ es.*1))%Qc))
                   end.
Proof.
  unfold combine_packed_metrics. intros H Hz. rewrite decide_False in H by done. apply bind_Ok_inv in H as (u & _ & [= <-]).
  destruct (packed_sums_tracks k (zip mms ws)) as [H1 H2 H3]. pose proof (sums_nodup (zip mms ws)) as Hnd.
  set (acc := packed_sums declared (zip mms ws)) in *. set (es := entries_of k (zip mms ws)) in *.
  rewrite (set_loop (fun _ => Num)) by done. unfold seen in *. rewrite H1, average_get, H2. unfold average_of. cbn [fst snd]. rewrite H3.
  destruct (additive k); [by destruct es as [|e es']|]. by destruct es as [|e es'].
Qed.
End sums.

(** ** A batch and its microbatches *)

(** The items of a microbatch, with their weights: its weight and its weighted sum. *)
Definition mb_weight (mb : list (Qc * Qc)) : Qc := sumQ mb.*1.
Definition mb_sum (mb : list (Qc * Qc)) : Qc := sumQ ((fun wx => wx.1 * wx.2)%Qc <$> mb).

Lemma weight_concat mbs : sumQ (mb_weight <$> mbs) = mb_weight (concat mbs).
Proof. induction mbs as [|mb mbs IH]; [done|]. rewrite fmap_cons. cbn [sumQ foldr concat]. fold (sumQ (mb_weight <$> mbs)). rewrite IH.
  unfold mb_weight. by rewrite fmap_app, sumQ_app. Qed.
Lemma sum_concat mbs : sumQ (mb_sum <$> mbs) = mb_sum (concat mbs).
Proof. induction mbs as [|mb mbs IH]; [done|]. rewrite fmap_cons. cbn [sumQ foldr concat]. fold (sumQ (mb_sum <$> mbs)). rewrite IH.
  unfold mb_sum. by rewrite fmap_app, sumQ_app. Qed.

Lemma sumQ_nonneg l : Forall (fun q => 0 <= q)%Qc l -> (0 <= sumQ l)%Qc.
Proof. induction 1 as [|q l Hq Hl IH]; [done|]. simpl. replace 0%Qc with (0 + 0)%Qc by ring. by apply Qcplus_le_compat. Qed.

Lemma weights_nonneg mbs : Forall (Forall (fun wx => 0 <= wx.1)%Qc) mbs -> Forall (fun q => 0 <= q)%Qc (mb_weight <$> mbs).
Proof. intros H. apply Forall_fmap. eapply Forall_impl; [exact H|]. intros mb Hmb. by apply sumQ_nonneg, Forall_fmap. Qed.

Definition local_mean_of (qs : list Qc) : PackedLossReduction := Reduction ((fun q => Fin (q / sumQ qs)%Qc) <$> qs) (Fin <$> qs) false.

Lemma local_mean_ok qs : qs <> [] -> Forall (fun q => 0 <= q)%Qc qs -> sumQ qs <> 0%Qc ->
    local_mean_packed_loss_reduction (Fin <$> qs) = Ok (local_mean_of qs).
Proof. intros Hne Hq Hs. unfold local_mean_packed_loss_reduction. rewrite validated_Fin by done. simpl. unfold ones_if_zero.
  by rewrite decide_False. Qed.

Lemma wt_Fin (qs : list Qc) : wt <$> (Fin <$> qs) = qs.
Proof. rewrite <- list_fmap_compose. apply list_fmap_id. Qed.

(** The scaled losses, which are accumulated by the engine or returned. *)
Definition scaled_losses (losses : list Qc) (scales : list weight) : list Qc := zip_with (fun l s => l * wt s)%Qc losses scales.

Lemma run_microbatches_ok r backward losses : run_microbatches r backward losses = if backward then (scaled_losses losses (loss_scales r),
    []) else ([], scaled_losses losses (loss_scales r)).
Proof.
  unfold run_microbatches, scaled_losses. assert (H : forall l e t, fold_left (fun acc ls => let '(engine,
  scaled) := apply_packed_loss_reduction acc.1 ls.1 ls.2 backward in (engine, acc.2 ++ option_list scaled)) l (e, t) =
    if backward then (e ++ ((fun ls => ls.1 * wt ls.2)%Qc <$> l), t) else (e, t ++ ((fun ls => ls.1 * wt ls.2)%Qc <$> l))).
  { intros l. induction l as [|ls l IH]; intros e t; [destruct backward; simpl; by rewrite app_nil_r|]. simpl.
    unfold apply_packed_loss_reduction at 2. destruct backward; rewrite IH; cbn [option_list fst snd]; rewrite ?app_nil_r, <- ?app_assoc;
    done. }
  rewrite H. assert (E : (fun ls : Qc * weight => (ls.1 * wt ls.2)%Qc) <$> zip losses (loss_scales r) = zip_with (fun l s => (l * wt s)%Qc)
  losses (loss_scales r)); [|by rewrite E; destruct backward].
  generalize (loss_scales r). induction losses as [|l losses IH]; intros [|s ss]; [done..|]. simpl. f_equal. apply IH.
Qed.

Lemma scaled_sum losses qs T : sumQ (scaled_losses losses ((fun q => Fin (q / T)%Qc) <$> qs)) = (sumQ (zip_with Qcmult losses qs) / T)%Qc.
Proof.
  unfold scaled_losses. revert qs. induction losses as [|l losses IH]; intros [|q qs]; [simpl; unfold Qcdiv; ring..|]. rewrite fmap_cons.
  cbn [zip_with sumQ foldr wt]. fold (sumQ (zip_with (fun l s => (l * wt s)%Qc) losses ((fun q => Fin (q / T)%Qc) <$> qs))). rewrite IH.
  fold (sumQ (zip_with Qcmult losses qs)). unfold Qcdiv. ring.
Qed.

Lemma zip_products (mbs : list (list (Qc * Qc))) losses : Forall2 (fun mb l => (l * mb_weight mb)%Qc = mb_sum mb) mbs losses ->
    zip_with Qcmult losses (mb_weight <$> mbs) = mb_sum <$> mbs.
Proof. induction 1 as [|mb l mbs losses H Hf IH]; [done|]. rewrite !fmap_cons. simpl. by rewrite H, IH. Qed.

Lemma combine_losses_local losses qs : combine_packed_losses losses (local_mean_of qs) = (sumQ (zip_with Qcmult losses qs) / sumQ qs)%Qc.
Proof.
  unfold combine_packed_losses, local_mean_of. simpl. rewrite wt_Fin. f_equal. f_equal. revert qs.
  induction losses as [|l losses IH]; intros [|q qs]; [done..|]. rewrite fmap_cons. simpl. f_equal. apply IH.
Qed.

(** *** Metrics *)

Lemma entries_all k mms ws qs : Forall (fun m => NoDup (dict_keys m)) mms -> Forall2 (fun m q => dict_get m k = Some (Num q)) mms qs ->
    length ws = length mms -> entries_of k (zip mms ws) = zip ws qs.
Proof.
  intros Hnd H. revert ws. induction H as [|m q mms qs Hm H IH]; intros [|w ws] Hl; try done. apply Forall_cons in Hnd as [Hd Hnd].
  unfold entries_of in *. cbn [zip_with]. rewrite fmap_cons. cbn [concat fst snd]. rewrite (IH Hnd) by (by injection Hl).
  assert (omap (entry_of k w) m = [(w, q)]) as ->; [|done].
  pose proof (num_entries_dict m k Hd) as E. rewrite Hm in E. unfold num_entries in E. clear -E. induction m as [|kv m IH]; [done|].
  simpl in *. unfold entry_of at 1. destruct (num_entry k kv) as [q'|]; simpl; [|by apply IH]. injection E as -> E'. f_equal. clear -E'.
  induction m as [|kv' m IH]; [done|]. simpl in *. unfold entry_of at 1. destruct (num_entry k kv'); [done|by apply IH].
Qed.

Lemma entry_values k w (m : metrics) : (omap (entry_of k w) m).*2 = num_entries k m.
Proof.
  unfold num_entries. induction m as [|kv m IH]; [done|]. cbn [omap list_omap]. unfold entry_of at 1.
  destruct (num_entry k kv); cbn [fmap option_fmap option_map]; [rewrite fmap_cons; cbn [snd]; f_equal|]; exact IH.
Qed.

Lemma entries_values k mms ws : length ws = length mms -> (entries_of k (zip mms ws)).*2 = num_entries k (concat mms).
Proof.
  revert ws. induction mms as [|m mms IH]; intros [|w ws] Hl; try done. unfold entries_of in *. cbn [zip_with concat]. rewrite fmap_cons.
  cbn [concat fst snd]. rewrite fmap_app, IH by (by injection Hl). rewrite num_entries_app. f_equal. apply entry_values.
Qed.

Lemma sum_zip_products (l : list Qc) : forall l', sumQ ((fun wq => wq.2 * wq.1)%Qc <$> zip l l') = sumQ (zip_with Qcmult l' l).
Proof. induction l as [|w l IH]; intros [|q l']; [done..|]. simpl. f_equal. apply IH. Qed.

Lemma zip_weights (ws qs : list Qc) : length ws = length qs -> (zip ws qs).*1 = ws.
Proof. intros H. apply fst_zip. lia. Qed.

Lemma same_weights (mbs vals : list (list (Qc * Qc))) : Forall2 (fun mb vs => vs.*1 = mb.*1) mbs vals -> mb_weight <$> vals = mb_weight <$> mbs.
Proof. induction 1 as [|mb vs mbs vals H Hf IH]; [done|]. rewrite !fmap_cons, IH. unfold mb_weight at 1 3. by rewrite H. Qed.

(** The value of a rate that every microbatch reports. *)
Lemma reported_rate declared (mbs vals : list (list (Qc * Qc))) (mms : list metrics) out k :
  combine_packed_metrics declared mms (mb_weight <$> mbs) = Ok out -> sumQ (mb_weight <$> mbs) <> 0%Qc -> metric_is_summed declared k = false ->
  Forall (fun m => NoDup (dict_keys m)) mms -> Forall2 (fun mb vs => vs.*1 = mb.*1) mbs vals ->
  Forall2 (fun vs m => exists q, dict_get m k = Some (Num q) /\ (q * mb_weight vs)%Qc = mb_sum vs) vals mms ->
  dict_get out k = Some (Num (mb_sum (concat vals) / mb_weight (concat mbs))%Qc).
Proof.
  intros Hc Hz Hk Hnd Hw Hq. assert (H : exists qs, Forall2 (fun m q => dict_get m k = Some (Num q)) mms qs /\
  Forall2 (fun vs q => (q * mb_weight vs)%Qc = mb_sum vs) vals qs).
  { clear -Hq. induction Hq as [|vs m vals mms (q & H1 & H2) Hq (qs & IH1 & IH2)]; [by exists []|]. exists (q :: qs). by split; constructor. }
  destruct H as (qs & Hqs & Hp). apply zip_products in Hp. rewrite (same_weights mbs vals Hw) in Hp.
  pose proof (Forall2_length _ _ _ Hw) as Hl1. pose proof (Forall2_length _ _ _ Hq) as Hl2. pose proof (Forall2_length _ _ _ Hqs) as Hl3.
  rewrite (combined_get declared mms _ out k Hc Hz), Hk, (entries_all k mms _ qs Hnd Hqs) by (rewrite length_fmap; lia).
  destruct (zip (mb_weight <$> mbs) qs) as [|e es] eqn:E.
  - exfalso. apply Hz. destruct mbs; [done|]. destruct qs; [|done]. simpl in *. lia.
  - rewrite <- E. cbv zeta. rewrite sum_zip_products, Hp, zip_weights, sum_concat, weight_concat by (rewrite length_fmap; lia).
    by rewrite decide_False by (by rewrite <- weight_concat).
Qed.

Lemma reported_sum declared (mms : list metrics) ws out k : combine_packed_metrics declared mms ws = Ok out -> sumQ ws <> 0%Qc ->
    length ws = length mms -> metric_is_summed declared k = true -> num_entries k (concat mms) <> [] ->
  dict_get out k = Some (Num (sumQ (num_entries k (concat mms)))).
Proof.
  intros Hc Hz Hl Hk Hne. pose proof (entries_values k mms ws Hl) as H. rewrite (combined_get declared mms ws out k Hc Hz), Hk.
  destruct (entries_of k (zip mms ws)) as [|e es]; [simpl in H; congruence|]. cbv zeta. by rewrite H.
Qed.

(** ** Claim *)

(** C22: splitting a batch into microbatches changes nothing: with losses that are weighted means
    of their microbatch and the weights of the microbatches, both the reported loss and the sum
    of the scaled losses (accumulated by the engine, or returned) are the weighted mean over
    the whole batch; additive metrics are the sums of what was reported, and a rate that every
    microbatch reports as its weighted mean becomes the weighted mean over the whole batch. *)
Theorem packed_split_invariant declared (mbs : list (list (Qc * Qc))) (losses : list Qc) (mms : list metrics) :
  mbs <> [] -> Forall (Forall (fun wx => 0 <= wx.1)%Qc) mbs -> (0 < mb_weight (concat mbs))%Qc ->
  Forall2 (fun mb l => (l * mb_weight mb)%Qc = mb_sum mb) mbs losses ->
  length mms = length mbs -> Forall (fun m => NoDup (dict_keys m)) mms -> colliding mms = [] ->
  exists r, local_mean_packed_loss_reduction (Fin <$> (mb_weight <$> mbs)) = Ok r /\
  forall backward, exists out, packed_results declared r backward (zip losses mms) = Ok out /\
    pr_avg_loss out = (mb_sum (concat mbs) / mb_weight (concat mbs))%Qc /\
    (if backward then sumQ (pr_engine out) = pr_avg_loss out /\ pr_loss out = None else pr_engine out = [] /\ pr_loss out = Some (pr_avg_loss out)) /\
    (forall k, metric_is_summed declared k = true -> num_entries k (concat mms) <> [] ->
      dict_get (pr_metrics out) k = Some (Num (sumQ (num_entries k (concat mms))))) /\
    (forall k vals, metric_is_summed declared k = false -> Forall2 (fun mb vs => vs.*1 = mb.*1) mbs vals ->
      Forall2 (fun vs m => exists q, dict_get m k = Some (Num q) /\ (q * mb_weight vs)%Qc = mb_sum vs) vals mms ->
      dict_get (pr_metrics out) k = Some (Num (mb_sum (concat vals) / mb_weight (concat mbs))%Qc)).
Proof.
  intros Hne Hpos Htot Hl Hlen Hnd Hcol. assert (Hz : sumQ (mb_weight <$> mbs) <> 0%Qc) by (rewrite weight_concat; intros E;
  rewrite E in Htot; by apply Qclt_not_eq in Htot).
  exists (local_mean_of (mb_weight <$> mbs)). split; [apply local_mean_ok; [by destruct mbs|by apply weights_nonneg|done]|].
    intros backward. pose proof (Forall2_length _ _ _ Hl) as Hll. pose proof (zip_products _ _ Hl) as Hp.
  assert (E1 : (zip losses mms).*1 = losses) by (apply fst_zip; lia). assert (E2 : (zip losses mms).*2 = mms) by (apply snd_zip; lia).
  unfold packed_results. rewrite E1, E2, run_microbatches_ok, combine_losses_local, Hp, sum_concat, weight_concat.
  assert (Hm : exists out, combine_packed_metrics declared mms (wt <$> reporting_weights (local_mean_of (mb_weight <$> mbs))) = Ok out).
  { unfold combine_packed_metrics. rewrite decide_False by (simpl; by rewrite wt_Fin). rewrite Hcol. by eexists. }
  destruct Hm as [out Hout]. rewrite Hout. simpl in Hout. rewrite wt_Fin in Hout.
  assert (Hs : sumQ (scaled_losses losses (loss_scales (local_mean_of (mb_weight <$> mbs)))) = (mb_sum (concat mbs) / mb_weight (concat
  mbs))%Qc) by (simpl; by rewrite scaled_sum, Hp, sum_concat, weight_concat).
  assert (Hmet : forall k, metric_is_summed declared k = true -> num_entries k (concat mms) <> [] ->
  dict_get out k = Some (Num (sumQ (num_entries k (concat mms))))) by (intros k;
  apply (reported_sum declared mms (mb_weight <$> mbs) out k Hout Hz); by rewrite length_fmap).
  assert (Hsc : scaled_losses losses (loss_scales (local_mean_of (mb_weight <$> mbs))) <> []) by (destruct mbs, losses; done). destruct backward.
  - eexists. split; [reflexivity|]. cbn [pr_avg_loss pr_engine pr_loss pr_metrics]. split_and!; [done|done|done|done|].
    intros k vals Hk Hw Hq. by eapply reported_rate.
  - eexists. split; [reflexivity|]. cbn [pr_avg_loss pr_engine pr_loss pr_metrics]. rewrite bool_decide_eq_false_2 by done.
    split_and!; [done|done|by rewrite Hs|done|]. intros k vals Hk Hw Hq. by eapply reported_rate.
Qed.

(** ** Reductions that are resolved *)

(** A reduction with [n] finite weights that are not negative, and a positive sum of the reporting weights. *)
Definition usable (n : nat) (r : PackedLossReduction) : Prop :=
  exists ss qs, loss_scales r = Fin <$> ss /\ reporting_weights r = Fin <$> qs /\ length ss = n /\ length qs = n /\
    Forall (fun q => 0 <= q)%Qc ss /\ Forall (fun q => 0 <= q)%Qc qs /\ sumQ qs <> 0%Qc.

Lemma check_reduction_usable n r r' : check_reduction n r = Ok r' -> r' = r /\ usable n r.
Proof.
  unfold check_reduction. intros (u & [H1%Nat.eqb_eq H2%Nat.eqb_eq]%check_Ok_inv%andb_true_iff & H)%bind_Ok_inv.
  apply bind_Ok_inv in H as (ss & (E1 & _ & P1)%validated_inv & H). apply bind_Ok_inv in H as (qs & (E2 & _ & P2)%validated_inv & H).
  apply bind_Ok_inv in H as (u' & Hz%check_Ok_inv & [= <-]). apply negb_true_iff, bool_decide_eq_false in Hz.
  split; [done|]. exists ss, qs. rewrite E1, length_fmap in H1. rewrite E2, length_fmap in H2. by split_and!.
Qed.

Lemma Qcdiv_nonneg p q : (0 <= p)%Qc -> (0 <= q)%Qc -> (0 <= p / q)%Qc.
Proof.
  intros Hp Hq. unfold Qcdiv. replace 0%Qc with (0 * / q)%Qc by ring. apply Qcmult_le_compat_r; [done|]. change (0 <= Qred (/ this q))%Q.
  rewrite Qred_correct. apply Qinv_le_0_compat. exact Hq.
Qed.

Lemma local_mean_usable qs : qs <> [] -> Forall (fun q => 0 <= q)%Qc qs -> sumQ qs <> 0%Qc -> usable (length qs) (local_mean_of qs).
Proof.
  intros Hne Hq Hz. exists ((fun q => q / sumQ qs)%Qc <$> qs), qs. simpl. rewrite length_fmap, <- list_fmap_compose. split_and!; try done.
  apply Forall_fmap. eapply Forall_impl; [exact Hq|]. intros q H. apply Qcdiv_nonneg; [done|by apply sumQ_nonneg].
Qed.

Lemma ones_usable n : exists r, local_mean_packed_loss_reduction (replicate (S n) (Fin 1%Qc)) = Ok r /\ usable (S n) r.
Proof.
  assert (Hpos : forall k, Forall (fun q => 0 <= q)%Qc (replicate k 1%Qc)) by (intros k; by apply Forall_replicate).
  assert (Hz : sumQ (replicate (S n) 1%Qc) <> 0%Qc).
  { simpl. intros E. assert (Hlt : (0 < 1 + sumQ (replicate n 1))%Qc); [|rewrite E in Hlt; by apply Qclt_not_eq in Hlt].
    eapply Qclt_le_trans; [|apply Qcplus_le_compat; [apply Qcle_refl|apply (sumQ_nonneg _ (Hpos n))]]. done. }
  rewrite <- (fmap_replicate Fin). exists (local_mean_of (replicate (S n) 1%Qc)). split; [by apply local_mean_ok|].
  rewrite <- (length_replicate (S n) 1%Qc) at 1. by apply local_mean_usable.
Qed.

(** Whatever a callback declares, a reduction that is resolved fits the microbatches. *)
Lemma resolve_usable resolve_loss fn config mbs required r : resolve_packed_loss_reduction resolve_loss fn config mbs required = Ok (Some r)
    -> usable (length mbs) r.
Proof.
  unfold resolve_packed_loss_reduction. intros (u & Hn%check_Ok_inv & H)%bind_Ok_inv. apply negb_true_iff, Nat.eqb_neq in Hn.
  apply bind_Ok_inv in H as (u' & _ & H). destruct (length mbs) as [|n] eqn:En; [done|]. destruct (ones_usable n) as (r1 & E1 & U1).
  assert (Hcall : forall name, (callback ← resolve_loss name; answer ← callback mbs (config_with_microbatch_scales config mbs) name;
      match answer with
      | NoReduction => check (negb ((1 <? S n) && required)) (ValueError "loss_fn does not declare packed-microbatch reduction metadata");;
        if 1 <? S n then Ok None else r ← local_mean_packed_loss_reduction [Fin 1%Qc]; Ok (Some r)
      | WrongType => Raise (TypeError "packed reduction callback must return PackedLossReduction")
      | Declared r => r ← check_reduction (S n) r; Ok (Some r)
      end) = Ok (Some r) -> usable (S n) r).
  { intros name (cb & _ & Hcb)%bind_Ok_inv. apply bind_Ok_inv in Hcb as (answer & _ & Hcb).
    destruct answer as [|rd|]; [|apply bind_Ok_inv in Hcb as (r' & [-> Hu]%check_reduction_usable & [= <-]); done|done].
    apply bind_Ok_inv in Hcb as (u2 & _ & Hcb). destruct (Nat.ltb_spec 1 (S n)); [done|]. assert (n = 0) as -> by lia.
    apply bind_Ok_inv in Hcb as (r' & Hr & [= <-]). simpl in E1. rewrite Hr in E1. by injection E1 as <-. }
  destruct fn; [by apply (Hcall "ap_grpo")| |by apply (Hcall name)]. apply bind_Ok_inv in H as (r' & Hr & [= <-]). rewrite Hr in E1.
  by injection E1 as <-.
Qed.

(** Losses that are added up: what the engine accumulates is what is reported. *)
Lemma additive_accumulates ws r losses : additive_packed_loss_reduction ws = Ok r -> length losses = length ws ->
    sumQ (scaled_losses losses (loss_scales r)) = combine_packed_losses losses r.
Proof.
  unfold additive_packed_loss_reduction. intros (qs & (E & _ & _)%validated_inv & [= <-])%bind_Ok_inv Hl.
  unfold combine_packed_losses, scaled_losses. simpl. assert (Hlen : length losses = length (ones_if_zero qs)) by (unfold ones_if_zero;
  rewrite Hl, E; destruct (decide _); by rewrite ?length_fmap). clear -Hlen. revert Hlen. generalize (ones_if_zero qs).
  induction losses as [|l losses IH]; intros [|q l'] H; try done. rewrite fmap_cons. simpl. rewrite IH by (by injection H). ring.
Qed.

(** ** A small batch *)

Module MiniReduction.

Definition nq (z : Z) : Qc := Q2Qc (inject_Z z).
(** Two microbatches of tokens with weights. *)
Definition tokens : list (list (Qc * Qc)) := [[(nq 1, nq 2); (nq 3, nq 4)]; [(nq 2, nq 5)]].
Definition mean_losses : list Qc := [Q2Qc (7 # 2); nq 5].
Definition reported : list metrics := [[("token_count", Num (nq 2)); ("entropy", Num (Q2Qc (7 # 2)))]; [("token_count", Num (nq 1));
    ("entropy", Num (nq 5))]].

(** (2 + 12 + 10) / 6 *)
Lemma packed_split_invariant_witness : exists r out, packed_results (fun _ => false) r true (zip mean_losses reported) = Ok out /\
    sumQ (pr_engine out) = nq 4 /\ dict_get (pr_metrics out) "entropy" = Some (Num (nq 4)).
Proof.
  destruct (packed_split_invariant (fun _ => false) tokens mean_losses reported) as (r & _ & H);
    [discriminate|vm_compute; repeat constructor; discriminate|vm_compute; reflexivity|constructor; [|constructor; [|constructor]];
      apply Qc_is_canon; vm_compute; reflexivity|reflexivity|repeat constructor; vm_compute; set_solver|vm_compute; reflexivity|].
  destruct (H true) as (out & H1 & H2 & [H3 _] & _ & H5). exists r, out. split; [exact H1|]. split.
  - rewrite H3, H2. apply Qc_is_canon. vm_compute. reflexivity.
  - rewrite (H5 "entropy" tokens); [|reflexivity|repeat constructor|].
    + f_equal. f_equal. apply Qc_is_canon. vm_compute. reflexivity.
    + constructor; [|constructor; [|constructor]]; eexists; (split; [reflexivity|]); apply Qc_is_canon; vm_compute; reflexivity.
Defined.

Example collision_refused : combine_packed_metrics (fun _ => false) [[("kl", Num 1%Qc)]; [("kl.sum", Num 1%Qc)]] [1%Qc; 1%Qc]
    = Raise (ValueError "packed metrics mix a rate key with its sum pair").
Proof. vm_compute. done. Qed.

Example misaligned_refused : assert_aligned_global_loss_scales [[("dp_size", SNum (nq 2))]; [("dp_size", SNone)]]
    = Raise (ValueError "packed microbatch disagrees with microbatch 0").
Proof. vm_compute. done. Qed.

End MiniReduction.
