(* ===== verification/ReplayExchange.v ===== *)
(** * The router-replay exchange: manifests, plan and rounds

    Source: [src/arctic_platform/inference/server/router_replay/all2all.py].

    Every rank publishes a manifest and derives, from the gathered manifests, the same plan
    ([compute_plan]), the same verdict on missing ids ([missing_is_tolerated]) and the same
    rounds ([plan_rounds]).  This file has these pure functions, a reference definition of the
    plan ([reference_plan], [reference_missing], [conflicting]) and the facts that the
    transfer itself ([ReplayTransfer]) relies on.  Log messages are not modelled. *)

From stdpp Require Import prelude strings gmap list sorting.
From Stdlib Require Import ZArith QArith Lia ZifyNat ZifyBool.
From S2P Require Import Prelude Dict ReplayCache.
Local Open Scope Z_scope.

(** ** Data *)

Inductive role := Sender | Receiver.
#[export] Instance role_eq_dec : EqDecision role.
Proof. solve_decision. Defined.
#[export] Instance rr_dtype_eq_dec : EqDecision rr_dtype.
Proof. solve_decision. Defined.

Record manifest := Manifest {
  m_role : role;
  m_rank : Z;
  m_held : list string;
  m_needed : list string;
  m_shapes : list (string * list nat);
  m_dtypes : option (list (string * rr_dtype));
  m_discard : bool;
  m_allow_missing : bool;
  m_supports_allow_missing : bool;
  m_staging_bytes : option Z;
  m_supports_staged_rounds : bool;
  m_token_ranges : option (list (string * (Z * Z)));
  m_supports_token_ranges : bool;
}.

Record transfer_op := TransferOp {
  sender_rank : Z;
  recv_rank : Z;
  sample_id : string;
  op_shape : list nat;
  op_discard : bool;
  op_dtype : rr_dtype;
  token_range : option (Z * Z);
}.

Definition itemsize (dt : rr_dtype) : Z :=
  match dt with UInt8 => 1 | UInt16 => 2 | Int32 => 4 | Int64 => 8 end.

Definition transfer_shape (op : transfer_op) : list nat :=
  match token_range op with
  | None => op_shape op
  | Some (start, stop) => Z.to_nat (stop - start) :: tail (op_shape op)
  end.

Definition op_nbytes (op : transfer_op) : Z :=
  fold_left (fun n dim => n * Z.of_nat dim) (transfer_shape op) (itemsize (op_dtype op)).

(** ** The plan *)

Definition missing_error (missing : gset string) : exn :=
  ErrorWithIds "RouterReplayMissingError" (py_sorted String.ltb (elements missing)).
Definition duplicate_ids_error (ids : list string) : exn := ErrorWithIds "RouterReplayDuplicateError" ids.

Definition by_rank (ms : list manifest) : list manifest := py_sorted (by_key m_rank Z.ltb) ms.

(** The four dictionaries of the loop over the senders. *)
Record owner_tables := OwnerTables {
  owner : list (string * Z);
  owners : list (string * list Z);
  shape_by_sid : list (string * list nat);
  dtype_by_sid : list (string * rr_dtype);
}.

Definition claim_sid (m : manifest) (tb : owner_tables) (sid : string) : res owner_tables :=
  let owners' := dict_set (owners tb) sid (default [] (dict_get (owners tb) sid) ++ [m_rank m]) in
  if decide (is_Some (dict_get (owner tb) sid))
  then Ok (OwnerTables (owner tb) owners' (shape_by_sid tb) (dtype_by_sid tb))
  else
    shape ← dict_at (m_shapes m) sid;
    dt ← match m_dtypes m with None => Ok UInt8 | Some dtypes => dict_at dtypes sid end;
    Ok (OwnerTables (dict_set (owner tb) sid (m_rank m)) owners'
          (dict_set (shape_by_sid tb) sid shape) (dict_set (dtype_by_sid tb) sid dt)).

Definition claim_manifest (tb : owner_tables) (m : manifest) : res owner_tables :=
  if decide (m_role m = Sender) then foldM (claim_sid m) tb (m_held m) else Ok tb.

Definition build_owners (ms : list manifest) : res owner_tables :=
  foldM claim_manifest (OwnerTables [] [] [] []) (by_rank ms).

Definition duplicate_exact (tb : owner_tables) : list string :=
  py_sorted String.ltb
    (filter (fun kv => (1 < length kv.2)%nat /\ is_exact_replay_id kv.1 = true) (owners tb)).*1.

(** [shape[0]] of a capture's shape. *)
Definition clamp_range (range : Z * Z) (shape : list nat) : res (Z * Z) :=
  n ← at_index shape 0;
  let start := Z.min (Z.max range.1 0) (Z.of_nat n) in
  Ok (start, Z.min (Z.max range.2 start) (Z.of_nat n)).

Definition op_range (slicing : bool) (m : manifest) (sid : string) (shape : list nat) : res (option (Z * Z)) :=
  match m_token_ranges m with
  | Some ranges =>
      match dict_get ranges sid with
      | Some range => if slicing then Some <$> clamp_range range shape else Ok None
      | None => Ok None
      end
  | None => Ok None
  end.

Definition plan_sid (slicing : bool) (tb : owner_tables) (m : manifest)
    (acc : list transfer_op * gset string) (sid : string) : res (list transfer_op * gset string) :=
  let '(plan, missing) := acc in
  match dict_get (owner tb) sid with
  | None => Ok (plan, missing ∪ {[sid]})
  | Some sender =>
      shape ← dict_at (shape_by_sid tb) sid;
      range ← op_range slicing m sid shape;
      dt ← dict_at (dtype_by_sid tb) sid;
      Ok (plan ++ [TransferOp sender (m_rank m) sid shape (m_discard m) dt range], missing)
  end.

Definition plan_manifest (slicing : bool) (tb : owner_tables)
    (acc : list transfer_op * gset string) (m : manifest) : res (list transfer_op * gset string) :=
  if decide (m_role m = Receiver) then foldM (plan_sid slicing tb m) acc (m_needed m) else Ok acc.

Definition compute_plan (ms : list manifest) : res (list transfer_op * gset string) :=
  let slicing := forallb m_supports_token_ranges ms in
  tb ← build_owners ms;
  match duplicate_exact tb with
  | [] => foldM (plan_manifest slicing tb) ([], ∅) (by_rank ms)
  | dups => Raise (duplicate_ids_error dups)
  end.

Definition missing_is_tolerated (ms : list manifest) (missing : gset string) : bool :=
  forallb m_supports_allow_missing ms &&
  forallb m_allow_missing
    (filter (fun m => m_role m = Receiver /\ Exists (fun sid => sid ∈ missing) (m_needed m)) ms).

(** ** The rounds *)

Definition budgets (ms : list manifest) : list Z :=
  filter (fun b => b <> 0) (omap m_staging_bytes ms).

Definition pad_rounds (index : nat) (rounds : list (list transfer_op)) : list (list transfer_op) :=
  rounds ++ replicate (S index - length rounds) [].

Definition place_op (budget : Z) (acc : list (list transfer_op) * list (Z * (nat * Z))) (op : transfer_op) :
    list (list transfer_op) * list (Z * (nat * Z)) :=
  let '(rounds, position) := acc in
  let '(index, used) := default (0%nat, 0) (dict_get position (sender_rank op)) in
  let '(index, used) :=
    if (0 <? used) && (budget <? used + op_nbytes op) then (S index, 0) else (index, used) in
  (append_at index op (pad_rounds index rounds),
   dict_set position (sender_rank op) (index, used + op_nbytes op)).

Definition plan_rounds (ms : list manifest) (plan : list transfer_op) : list (list transfer_op) :=
  match py_min Z.ltb (budgets ms) with
  | Some budget =>
      if bool_decide (plan = []) || negb (forallb m_supports_staged_rounds ms) then [plan]
      else (fold_left (place_op budget) plan ([], [])).1
  | None => [plan]
  end.

(** ** What the plan computes

    The loops over manifests and ids are loops over the flat lists [claims] (a sender and an
    id it holds) and [needs] (a receiver and an id it needs), in rank order. *)

Definition claims_in (ms : list manifest) : list (manifest * string) :=
  m ← ms; if decide (m_role m = Sender) then (fun sid => (m, sid)) <$> m_held m else [].
Definition needs_in (ms : list manifest) : list (manifest * string) :=
  m ← ms; if decide (m_role m = Receiver) then (fun sid => (m, sid)) <$> m_needed m else [].

Definition claims (ms : list manifest) : list (manifest * string) := claims_in (by_rank ms).
Definition needs (ms : list manifest) : list (manifest * string) := needs_in (by_rank ms).

(** The senders that hold an id, lowest rank first. *)
Definition holders_in (cl : list (manifest * string)) (sid : string) : list manifest :=
  (filter (fun c => c.2 = sid) cl).*1.
Definition holders (ms : list manifest) (sid : string) : list manifest := holders_in (claims ms) sid.

Definition shape_of (m : manifest) (sid : string) : option (list nat) := dict_get (m_shapes m) sid.
Definition dtype_of (m : manifest) (sid : string) : option rr_dtype :=
  match m_dtypes m with None => Some UInt8 | Some dtypes => dict_get dtypes sid end.

Definition clamped (range : Z * Z) (n : nat) : Z * Z :=
  let start := Z.min (Z.max range.1 0) (Z.of_nat n) in
  (start, Z.min (Z.max range.2 start) (Z.of_nat n)).

Definition range_for (ms : list manifest) (m : manifest) (sid : string) (shape : list nat) : option (Z * Z) :=
  if forallb m_supports_token_ranges ms then
    ranges ← m_token_ranges m; range ← dict_get ranges sid; n ← head shape; Some (clamped range n)
  else None.

(** The transfer a need gives rise to: from the lowest-ranked holder. *)
Definition op_for (ms : list manifest) (need : manifest * string) : option transfer_op :=
  let '(m, sid) := need in
  h ← head (holders ms sid); shape ← shape_of h sid; dt ← dtype_of h sid;
  Some (TransferOp (m_rank h) (m_rank m) sid shape (m_discard m) dt (range_for ms m sid shape)).

Definition reference_plan (ms : list manifest) : list transfer_op := omap (op_for ms) (needs ms).
Definition reference_missing (ms : list manifest) : gset string :=
  list_to_set (filter (fun sid => holders ms sid = []) (needs ms).*2).

(** An exact id claimed twice, by two senders or twice by one. *)
Definition conflicting (ms : list manifest) (sid : string) : Prop :=
  is_exact_replay_id sid = true /\ (1 < length (holders ms sid))%nat.

(** What a sender must advertise: the shape and the type of everything it holds; the shape has
    a token axis. *)
Definition advertises (m : manifest) : Prop :=
  forall sid, sid ∈ m_held m ->
    (exists n shape, shape_of m sid = Some (n :: shape)) /\ is_Some (dtype_of m sid).
Definition manifests_wf (ms : list manifest) : Prop :=
  forall m, m ∈ ms -> m_role m = Sender -> advertises m.

Lemma build_owners_flat tb l :
  foldM claim_manifest tb l = foldM (fun tb c => claim_sid c.1 tb c.2) tb (claims_in l).
Proof.
  unfold claims_in. rewrite foldM_bind. apply foldM_ext. intros tb' m. unfold claim_manifest.
  case_decide; [by rewrite foldM_fmap|done].
Qed.

Lemma plan_flat slicing tb acc l :
  foldM (plan_manifest slicing tb) acc l =
  foldM (fun acc c => plan_sid slicing tb c.1 acc c.2) acc (needs_in l).
Proof.
  unfold needs_in. rewrite foldM_bind. apply foldM_ext. intros acc' m. unfold plan_manifest.
  case_decide; [by rewrite foldM_fmap|done].
Qed.

Lemma elem_of_claims ms m sid : (m, sid) ∈ claims ms <-> m ∈ ms /\ m_role m = Sender /\ sid ∈ m_held m.
Proof.
  unfold claims, claims_in. rewrite list_elem_of_bind. unfold by_rank. setoid_rewrite py_sorted_perm. split.
  - intros (m' & Hin & Hm'). case_decide; [|set_solver].
    apply list_elem_of_fmap in Hin as (s & [= -> ->] & Hs). done.
  - intros (Hm & Hr & Hs). exists m. rewrite decide_True by done. split; [|done].
    apply list_elem_of_fmap. eauto.
Qed.

Lemma elem_of_needs ms m sid : (m, sid) ∈ needs ms <-> m ∈ ms /\ m_role m = Receiver /\ sid ∈ m_needed m.
Proof.
  unfold needs, needs_in. rewrite list_elem_of_bind. unfold by_rank. setoid_rewrite py_sorted_perm. split.
  - intros (m' & Hin & Hm'). case_decide; [|set_solver].
    apply list_elem_of_fmap in Hin as (s & [= -> ->] & Hs). done.
  - intros (Hm & Hr & Hs). exists m. rewrite decide_True by done. split; [|done].
    apply list_elem_of_fmap. eauto.
Qed.

Lemma elem_of_holders ms m sid :
  m ∈ holders ms sid <-> m ∈ ms /\ m_role m = Sender /\ sid ∈ m_held m.
Proof.
  rewrite <- elem_of_claims. unfold holders, holders_in. rewrite list_elem_of_fmap. split.
  - intros ([m' s] & -> & [Hs Hin]%list_elem_of_filter). simpl in *. by subst.
  - intros Hin. exists (m, sid). by rewrite list_elem_of_filter.
Qed.

Lemma holders_head_wf ms sid h :
  manifests_wf ms -> head (holders ms sid) = Some h ->
  exists n shape dt, shape_of h sid = Some (n :: shape) /\ dtype_of h sid = Some dt.
Proof.
  intros Hwf Hh. assert (Hin : h ∈ holders ms sid) by (destruct (holders ms sid); simplify_eq/=; set_solver).
  apply elem_of_holders in Hin as (Hm & Hr & Hs).
  destruct (Hwf h Hm Hr sid Hs) as [(n & shape & Hn) [dt Hdt]]. eauto.
Qed.

(** ** The owner tables *)

(** What the tables hold once the claims [cl] have been visited. *)
Record tables_ok (cl : list (manifest * string)) (tb : owner_tables) : Prop := {
  tk_owner : forall sid, dict_get (owner tb) sid = m_rank <$> head (holders_in cl sid);
  tk_owners : forall sid, dict_get (owners tb) sid =
    match holders_in cl sid with [] => None | hs => Some (m_rank <$> hs) end;
  tk_shape : forall sid, dict_get (shape_by_sid tb) sid = head (holders_in cl sid) ≫= fun h => shape_of h sid;
  tk_dtype : forall sid, dict_get (dtype_by_sid tb) sid = head (holders_in cl sid) ≫= fun h => dtype_of h sid;
  tk_nodup : NoDup (dict_keys (owners tb));
}.

Lemma holders_in_snoc cl m s sid :
  holders_in (cl ++ [(m, s)]) sid = holders_in cl sid ++ (if decide (s = sid) then [m] else []).
Proof.
  unfold holders_in. rewrite filter_app, fmap_app. f_equal. rewrite filter_cons, filter_nil.
  simpl. by case_decide.
Qed.

Lemma claim_sid_ok cl tb m sid shape dt :
  tables_ok cl tb -> shape_of m sid = Some shape -> dtype_of m sid = Some dt ->
  exists tb', claim_sid m tb sid = Ok tb' /\ tables_ok (cl ++ [(m, sid)]) tb'.
Proof.
  intros [H1 H2 H3 H4 H5] Hshape Hdt. unfold claim_sid.
  assert (Hget : dict_at (m_shapes m) sid = Ok shape) by (unfold dict_at; by setoid_rewrite Hshape).
  assert (Hgetd : match m_dtypes m with None => Ok UInt8 | Some dtypes => dict_at dtypes sid end = Ok dt).
  { unfold dtype_of in Hdt. destruct (m_dtypes m); [|by simplify_eq]. unfold dict_at. by rewrite Hdt. }
  assert (Hown : forall s, dict_get (dict_set (owners tb) sid (default [] (dict_get (owners tb) sid) ++ [m_rank m])) s =
    match holders_in (cl ++ [(m, sid)]) s with [] => None | hs => Some (m_rank <$> hs) end).
  { intros s. rewrite holders_in_snoc. case_decide as Hs; [subst s|].
    - rewrite dict_get_set_eq, H2. destruct (holders_in cl sid); csimpl; [done|]. by rewrite fmap_app.
    - rewrite dict_get_set_ne, H2, app_nil_r by done. done. }
  case_decide as Hc; rewrite H1 in Hc.
  - eexists. split; [done|]. split; simpl; [| exact Hown | | | by apply dict_set_nodup];
      intros s; rewrite holders_in_snoc, ?H1, ?H3, ?H4; (case_decide as Hs; [subst s|by rewrite app_nil_r]);
      destruct (holders_in cl sid); simpl in *; try done; by destruct Hc.
  - rewrite Hget. simpl. rewrite Hgetd. simpl. eexists. split; [done|].
    assert (Hnil : holders_in cl sid = []).
    { destruct (holders_in cl sid); [done|]. destruct Hc. simpl. eauto. }
    split; simpl; [| exact Hown | | | by apply dict_set_nodup];
      intros s; rewrite holders_in_snoc; (case_decide as Hs; [subst s; rewrite dict_get_set_eq, Hnil|
        rewrite dict_get_set_ne, app_nil_r by done; done]); done.
Qed.

Lemma build_owners_ok ms : manifests_wf ms -> exists tb, build_owners ms = Ok tb /\ tables_ok (claims ms) tb.
Proof.
  intros Hwf. unfold build_owners. rewrite build_owners_flat. fold (claims ms).
  apply (foldM_ok tables_ok).
  - split; intros; csimpl; try done. apply NoDup_nil_2.
  - intros pre [m sid] tb Htb Hin. simpl. apply elem_of_claims in Hin as (Hm & Hr & Hs).
    destruct (Hwf m Hm Hr sid Hs) as [(n & shape & Hn) [dt Hdt]]. by eapply claim_sid_ok.
Qed.

Lemma op_range_ok ms m sid n shape :
  op_range (forallb m_supports_token_ranges ms) m sid (n :: shape) = Ok (range_for ms m sid (n :: shape)).
Proof.
  unfold op_range, range_for, clamp_range, clamped.
  destruct (m_token_ranges m) as [ranges|]; [|by destruct (forallb _ _)]. simpl.
  destruct (dict_get ranges sid); [|by destruct (forallb _ _)]. by destruct (forallb _ _).
Qed.

(** The loop over the needs builds the reference plan and the missing set. *)
Lemma plan_needs_ok ms tb :
  manifests_wf ms -> tables_ok (claims ms) tb ->
  foldM (plan_manifest (forallb m_supports_token_ranges ms) tb) ([], ∅) (by_rank ms) =
  Ok (reference_plan ms, reference_missing ms).
Proof.
  intros Hwf Htb. rewrite plan_flat. fold (needs ms).
  destruct (foldM_ok
    (fun pre (acc : list transfer_op * gset string) =>
       acc = (omap (op_for ms) pre, list_to_set (filter (fun sid => holders ms sid = []) pre.*2)))
    (fun acc c => plan_sid (forallb m_supports_token_ranges ms) tb c.1 acc c.2) ([], ∅) (needs ms))
    as (b & Hb & ->); [done| |exact Hb].
  intros pre [m sid] [plan missing] [= -> ->] Hin. simpl.
  rewrite omap_app, fmap_app, filter_app, list_to_set_app_L. csimpl. rewrite filter_cons, filter_nil.
  unfold dict_at. rewrite (tk_owner _ _ Htb), (tk_shape _ _ Htb), (tk_dtype _ _ Htb).
  fold (holders ms sid). destruct (head (holders ms sid)) as [h|] eqn:Hh; simpl.
  - destruct (holders_head_wf ms sid h Hwf Hh) as (n & shape & dt & -> & ->). simpl.
    rewrite op_range_ok. simpl. eexists. split; [done|].
    rewrite decide_False by (by intros E; rewrite E in Hh). f_equal. set_solver.
  - eexists. split; [done|]. rewrite app_nil_r.
    rewrite decide_True by (by destruct (holders ms sid)). f_equal. set_solver.
Qed.

Lemma elem_of_duplicate_exact ms tb sid :
  tables_ok (claims ms) tb -> sid ∈ duplicate_exact tb <-> conflicting ms sid.
Proof.
  intros Htb. unfold duplicate_exact, conflicting, holders. rewrite py_sorted_perm, list_elem_of_fmap. split.
  - intros ([s rs] & -> & [[Hl He] Hin]%list_elem_of_filter). simpl in *.
    apply dict_elem_get in Hin; [|apply Htb]. rewrite (tk_owners _ _ Htb) in Hin.
    destruct (holders_in (claims ms) s); simplify_eq. rewrite length_fmap in Hl. done.
  - intros [He Hl]. exists (sid, m_rank <$> holders_in (claims ms) sid). split; [done|].
    apply list_elem_of_filter. simpl. rewrite length_fmap. split; [done|].
    apply dict_get_elem. rewrite (tk_owners _ _ Htb). by destruct (holders_in (claims ms) sid); simpl in Hl; [lia|].
Qed.

Lemma duplicate_exact_nodup ms tb : tables_ok (claims ms) tb -> NoDup (duplicate_exact tb).
Proof.
  intros Htb. unfold duplicate_exact. rewrite py_sorted_perm.
  eapply sublist_NoDup; [apply (tk_nodup _ _ Htb)|]. apply fmap_sublist, sublist_filter.
Qed.

Lemma compute_plan_cases ms :
  manifests_wf ms ->
  (exists ids, compute_plan ms = Raise (duplicate_ids_error ids) /\ ids <> [] /\ NoDup ids /\
     forall sid, sid ∈ ids <-> conflicting ms sid) \/
  (compute_plan ms = Ok (reference_plan ms, reference_missing ms) /\ forall sid, ~ conflicting ms sid).
Proof.
  intros Hwf. destruct (build_owners_ok ms Hwf) as (tb & Hb & Htb). unfold compute_plan. rewrite Hb.
  cbn [mbind res_bind]. pose proof (elem_of_duplicate_exact ms tb) as Hd.
  pose proof (duplicate_exact_nodup ms tb Htb) as Hn.
  destruct (duplicate_exact tb) as [|s ids] eqn:E.
  - right. rewrite plan_needs_ok by done. split; [done|]. intros sid Hc. apply Hd in Hc; [|done]. set_solver.
  - left. exists (s :: ids). split; [done|]. split; [done|]. split; [done|]. intros sid. by apply Hd.
Qed.

Lemma compute_plan_ok ms plan missing :
  manifests_wf ms -> compute_plan ms = Ok (plan, missing) ->
  plan = reference_plan ms /\ missing = reference_missing ms /\ forall sid, ~ conflicting ms sid.
Proof.
  intros Hwf Hp. destruct (compute_plan_cases ms Hwf) as [(ids & E & _)|[E Hc]]; rewrite E in Hp; by simplify_eq.
Qed.

Lemma elem_of_reference_missing ms sid :
  sid ∈ reference_missing ms <->
  (exists m, m ∈ ms /\ m_role m = Receiver /\ sid ∈ m_needed m) /\
  (forall m, m ∈ ms -> m_role m = Sender -> sid ∉ m_held m).
Proof.
  unfold reference_missing. rewrite elem_of_list_to_set, list_elem_of_filter, list_elem_of_fmap.
  assert (Hh : holders ms sid = [] <-> forall m, m ∈ ms -> m_role m = Sender -> sid ∉ m_held m).
  { split.
    - intros E m Hm Hr Hs. assert (H : m ∈ holders ms sid) by by apply elem_of_holders.
      rewrite E in H. set_solver.
    - intros H. destruct (holders ms sid) as [|m l] eqn:E; [done|].
      assert (Hm : m ∈ holders ms sid) by (rewrite E; set_solver).
      apply elem_of_holders in Hm as (Hm & Hr & Hs). by destruct (H m). }
  rewrite Hh. split.
  - intros [H ([m s] & -> & Hin%elem_of_needs)]. eauto.
  - intros [(m & Hin) H]. split; [done|]. exists (m, sid). split; [done|]. by apply elem_of_needs.
Qed.

(** ** The plan does not depend on the order of the manifests *)

Lemma by_rank_perm ms ms' : NoDup (m_rank <$> ms) -> ms ≡ₚ ms' -> by_rank ms = by_rank ms'.
Proof.
  intros Hnd HP. unfold by_rank.
  apply (StronglySorted_unique_strong (fun x y => Z.ltb (m_rank y) (m_rank x) = false)).
  - intros x y Hx Hy H1 H2. rewrite py_sorted_perm in Hx. rewrite py_sorted_perm, <- HP in Hy.
    assert (E : m_rank x = m_rank y) by lia.
    apply list_elem_of_lookup in Hx as [i Hi]. apply list_elem_of_lookup in Hy as [j Hj].
    assert (i = j) as ->; [|by simplify_eq].
    eapply NoDup_lookup; [exact Hnd| |]; rewrite list_lookup_fmap, ?Hi, ?Hj; simpl; [done|by rewrite E].
  - apply (py_sorted_sorted (by_key m_rank Z.ltb)).
  - apply (py_sorted_sorted (by_key m_rank Z.ltb)).
  - by rewrite !py_sorted_perm.
Qed.

#[export] Instance forallb_perm {A} (f : A -> bool) : Proper (Permutation ==> eq) (forallb f).
Proof.
  intros l k H. induction H; simpl; try congruence. destruct (f x), (f y); done.
Qed.

#[export] Instance py_min_Z_perm : Proper (Permutation ==> eq) (py_min Z.ltb).
Proof.
  intros l k H. destruct (py_min Z.ltb l) as [x|] eqn:Ex, (py_min Z.ltb k) as [y|] eqn:Ey; try done.
  - apply py_min_spec in Ex as [Hx Hlx]; [|apply _]. apply py_min_spec in Ey as [Hy Hly]; [|apply _].
    rewrite Forall_forall in Hlx, Hly. rewrite <- H in Hy. specialize (Hlx _ Hy).
    setoid_rewrite <- H in Hly. specialize (Hly _ Hx). f_equal. lia.
  - destruct k; [|done]. apply Permutation_nil_r in H. by subst.
  - destruct l; [|done]. apply Permutation_nil_l in H. by subst.
Qed.

Lemma compute_plan_perm ms ms' :
  NoDup (m_rank <$> ms) -> ms ≡ₚ ms' -> compute_plan ms = compute_plan ms'.
Proof.
  intros Hnd HP. unfold compute_plan, build_owners. rewrite (by_rank_perm ms ms' Hnd HP). by rewrite (forallb_perm _ _ _ HP).
Qed.

Lemma missing_is_tolerated_perm ms ms' missing :
  ms ≡ₚ ms' -> missing_is_tolerated ms missing = missing_is_tolerated ms' missing.
Proof.
  intros HP. unfold missing_is_tolerated. rewrite (forallb_perm m_supports_allow_missing _ _ HP).
  by rewrite (forallb_perm m_allow_missing _ _ (filter_Permutation _ _ _ HP)).
Qed.

Lemma budgets_perm ms ms' : ms ≡ₚ ms' -> budgets ms ≡ₚ budgets ms'.
Proof. intros HP. unfold budgets. by apply filter_Permutation, omap_Permutation. Qed.

Lemma plan_rounds_perm ms ms' plan : ms ≡ₚ ms' -> plan_rounds ms plan = plan_rounds ms' plan.
Proof.
  intros HP. unfold plan_rounds. rewrite (py_min_Z_perm _ _ (budgets_perm _ _ HP)).
  by rewrite (forallb_perm m_supports_staged_rounds _ _ HP).
Qed.

(** ** The rounds of a plan *)

Notation of_sender s := (filter (fun op => sender_rank op = s)).

Definition staged_bytes (ops : list transfer_op) : Z := sumZ (op_nbytes <$> ops).

(** A round of one sender fits the budget, unless one transfer makes up all of it. *)
Definition within_budget (budget : Z) (ops : list transfer_op) : Prop :=
  staged_bytes ops <= budget \/ exists op, op ∈ ops /\ op_nbytes op = staged_bytes ops.

Lemma op_nbytes_eq op :
  op_nbytes op = itemsize (op_dtype op) * Z.of_nat (foldr Nat.mul 1%nat (transfer_shape op)).
Proof.
  unfold op_nbytes. generalize (itemsize (op_dtype op)).
  induction (transfer_shape op) as [|n l IH]; intros z; simpl; [lia|]. rewrite IH. lia.
Qed.

Lemma op_nbytes_nonneg op : 0 <= op_nbytes op.
Proof. rewrite op_nbytes_eq. destruct (op_dtype op); simpl; lia. Qed.

Lemma staged_bytes_snoc ops op : staged_bytes (ops ++ [op]) = staged_bytes ops + op_nbytes op.
Proof. unfold staged_bytes. rewrite fmap_app, sumZ_app. simpl. lia. Qed.

Record rounds_inv (budget : Z) (pre : list transfer_op) (acc : list (list transfer_op) * list (Z * (nat * Z))) : Prop := {
  ri_concat : forall s, concat (of_sender s <$> acc.1) = of_sender s pre;
  ri_last : forall s, let '(i, used) := default (0%nat, 0) (dict_get acc.2 s) in
    (i < length acc.1 \/ i = 0)%nat /\ used = staged_bytes (of_sender s (default [] (acc.1 !! i))) /\
    forall k ops, (i < k)%nat -> acc.1 !! k = Some ops -> of_sender s ops = [];
  ri_budget : forall s ops, ops ∈ acc.1 -> of_sender s ops = [] \/ within_budget budget (of_sender s ops);
  ri_nonempty : forall ops, ops ∈ acc.1 -> ops <> [];
}.

Lemma pad_append (rounds : list (list transfer_op)) i op :
  (i <= length rounds)%nat ->
  append_at i op (pad_rounds i rounds) =
  take i rounds ++ (default [] (rounds !! i) ++ [op]) :: drop (S i) rounds.
Proof.
  intros Hi. unfold append_at, pad_rounds.
  destruct (decide (i = length rounds)) as [->|Hne].
  - replace (S (length rounds) - length rounds)%nat with 1%nat by lia. simpl.
    rewrite (list_alter_split _ _ _ []) by (rewrite lookup_app_r, Nat.sub_diag; done).
    rewrite take_app_length, drop_app_ge by lia.
    replace (S (length rounds) - length rounds)%nat with 1%nat by lia.
    rewrite lookup_ge_None_2, take_ge, (drop_ge rounds) by lia. done.
  - destruct (lookup_lt_is_Some_2 rounds i) as [ops Hops]; [lia|].
    replace (S i - length rounds)%nat with 0%nat by lia. simpl. rewrite app_nil_r.
    rewrite (list_alter_split _ _ _ ops) by done. by rewrite Hops.
Qed.

Lemma concat_fmap_nil {A B} (f : A -> list B) (l : list A) : (forall x, x ∈ l -> f x = []) -> concat (f <$> l) = [].
Proof.
  induction l as [|x l IH]; intros H; [done|]. csimpl. rewrite (H x) by set_solver. apply IH. set_solver.
Qed.

Lemma take_default_drop {B} (f : list transfer_op -> list B) (rounds : list (list transfer_op)) i :
  f [] = [] -> (i <= length rounds)%nat ->
  concat (f <$> rounds) = concat (f <$> take i rounds) ++ f (default [] (rounds !! i)) ++ concat (f <$> drop (S i) rounds).
Proof.
  intros Hf Hi. destruct (rounds !! i) as [ops|] eqn:E; simpl.
  - rewrite <- (take_drop_middle rounds i ops E) at 1. by rewrite fmap_app, fmap_cons, concat_app.
  - apply lookup_ge_None in E. rewrite Hf, take_ge, drop_ge by lia. csimpl. by rewrite app_nil_r.
Qed.

(** One placement into round [i], when the rounds after [i] have nothing of this sender. *)
Lemma place_concat (rounds : list (list transfer_op)) i op s :
  (i <= length rounds)%nat ->
  (forall k ops, (i < k)%nat -> rounds !! k = Some ops -> of_sender (sender_rank op) ops = []) ->
  concat (of_sender s <$> append_at i op (pad_rounds i rounds)) =
  concat (of_sender s <$> rounds) ++ of_sender s [op].
Proof.
  intros Hi Hlast. rewrite pad_append, fmap_app, fmap_cons, concat_app by done.
  cbn [concat]. rewrite (take_default_drop (of_sender s) rounds i) by done. rewrite filter_app, <- !app_assoc.
  do 2 f_equal. destruct (decide (sender_rank op = s)) as [<-|Hne].
  - rewrite concat_fmap_nil; [by rewrite app_nil_r|]. intros ops Hin. apply list_elem_of_lookup in Hin as [k Hk].
    rewrite lookup_drop in Hk. eapply (Hlast (S i + k)%nat); [lia|done].
  - rewrite filter_cons, decide_False, filter_nil by done. by rewrite app_nil_r.
Qed.

Lemma place_lookup (rounds : list (list transfer_op)) i op k :
  (i <= length rounds)%nat ->
  append_at i op (pad_rounds i rounds) !! k =
  if decide (k = i) then Some (default [] (rounds !! i) ++ [op]) else rounds !! k.
Proof.
  intros Hi. rewrite pad_append by done. case_decide as Hk.
  - subst k. rewrite lookup_app_r by (rewrite length_take; lia). rewrite length_take.
    by replace (i - i `min` length rounds)%nat with 0%nat by lia.
  - destruct (decide (k < i)%nat).
    + rewrite lookup_app_l by (rewrite length_take; lia). rewrite lookup_take. by case_decide; [|lia].
    + rewrite lookup_app_r by (rewrite length_take; lia). rewrite length_take.
      replace (k - i `min` length rounds)%nat with (S (k - S i))%nat by lia. simpl. rewrite lookup_drop.
      f_equal. lia.
Qed.

(** The round [place_op] chooses: the sender's last round, or the next one when it is full. *)
Definition next_round (budget : Z) (position : list (Z * (nat * Z))) (op : transfer_op) : nat * Z :=
  let '(index, used) := default (0%nat, 0) (dict_get position (sender_rank op)) in
  if (0 <? used) && (budget <? used + op_nbytes op) then (S index, 0) else (index, used).

Lemma place_op_eq budget rounds position op :
  place_op budget (rounds, position) op =
  (append_at (next_round budget position op).1 op (pad_rounds (next_round budget position op).1 rounds),
   dict_set position (sender_rank op)
     ((next_round budget position op).1, (next_round budget position op).2 + op_nbytes op)).
Proof.
  unfold place_op, next_round. destruct (default _ _) as [index used]. by destruct (_ && _).
Qed.

Lemma next_round_ok budget pre rounds position op i used :
  rounds_inv budget pre (rounds, position) -> next_round budget position op = (i, used) ->
  (i <= length rounds)%nat /\ used = staged_bytes (of_sender (sender_rank op) (default [] (rounds !! i))) /\
  (forall k ops, (i < k)%nat -> rounds !! k = Some ops -> of_sender (sender_rank op) ops = []) /\
  (used = 0 \/ used + op_nbytes op <= budget).
Proof.
  intros HI. unfold next_round. pose proof (ri_last _ _ _ HI (sender_rank op)) as HL. simpl in HL.
  destruct (default _ _) as [index u] eqn:E. destruct HL as (Hi & Hu & Hk).
  destruct (_ && _) eqn:Eb; intros [= <- <-].
  - assert (Hlt : (index < length rounds)%nat).
    { destruct Hi as [Hi| ->]; [done|]. destruct rounds; simpl in *; [|lia].
      cbn in Hu. lia. }
    split; [lia|]. split; [|split; [|by left]].
    + destruct (rounds !! S index) as [ops|] eqn:El; [|done]. simpl. by rewrite (Hk (S index) ops) by (lia || done).
    + intros k ops Hk' Hl. apply (Hk k); [lia|done].
  - split; [lia|]. split; [done|]. split; [done|].
    apply andb_false_iff in Eb as [Eb|Eb]; [left|right; lia].
    assert (0 <= u); [|lia]. rewrite Hu. apply sumZ_nonneg. apply Forall_fmap, Forall_true.
    intros x. simpl. apply op_nbytes_nonneg.
Qed.

Lemma place_other (rounds : list (list transfer_op)) i op s k :
  (i <= length rounds)%nat -> s <> sender_rank op ->
  of_sender s (default [] (append_at i op (pad_rounds i rounds) !! k)) = of_sender s (default [] (rounds !! k)).
Proof.
  intros Hi Hne. rewrite place_lookup by done. case_decide as Hk; [|done]. subst k. simpl.
  by rewrite filter_app, filter_cons, decide_False, filter_nil, app_nil_r by done.
Qed.

(** The placement keeps what is known of the last round of every sender. *)
Lemma place_op_last budget pre rounds position op i used s :
  rounds_inv budget pre (rounds, position) -> next_round budget position op = (i, used) ->
  let rounds' := append_at i op (pad_rounds i rounds) in
  let '(j, u) := default (0%nat, 0) (dict_get (dict_set position (sender_rank op) (i, used + op_nbytes op)) s) in
  (j < length rounds' \/ j = 0)%nat /\ u = staged_bytes (of_sender s (default [] (rounds' !! j))) /\
  forall k ops, (j < k)%nat -> rounds' !! k = Some ops -> of_sender s ops = [].
Proof.
  intros HI E. destruct (next_round_ok _ _ _ _ _ _ _ HI E) as (Hi & Hu & Hk & Hb). simpl.
  destruct (decide (s = sender_rank op)) as [->|Hne].
  - rewrite dict_get_set_eq. simpl. rewrite place_lookup, decide_True by done. simpl.
    rewrite filter_app, filter_cons, decide_True, filter_nil, staged_bytes_snoc by done.
    split; [left; apply lookup_lt_is_Some; rewrite place_lookup, decide_True by done; eauto|].
    split; [lia|]. intros k ops Hik. rewrite place_lookup, decide_False by (done || lia). by apply Hk.
  - rewrite dict_get_set_ne by done. pose proof (ri_last _ _ _ HI s) as HL. simpl in HL.
    destruct (default (0%nat, 0) (dict_get position s)) as [j u]. destruct HL as (Hj & Huj & Hkj).
    split; [|split; [by rewrite place_other|]].
    + destruct Hj as [Hj|Hj]; [left|by right]. apply lookup_lt_is_Some.
      rewrite place_lookup by done. case_decide; [eauto|]. by apply lookup_lt_is_Some.
    + intros k ops Hjk Hl. pose proof (place_other rounds i op s k Hi Hne) as Hfk. rewrite Hl in Hfk.
      simpl in Hfk. rewrite Hfk. destruct (rounds !! k) eqn:Er; [|done]. simpl. by eapply Hkj.
Qed.

Lemma place_op_inv budget pre acc op :
  rounds_inv budget pre acc -> rounds_inv budget (pre ++ [op]) (place_op budget acc op).
Proof.
  destruct acc as [rounds position]. intros HI. rewrite place_op_eq.
  destruct (next_round budget position op) as [i used] eqn:E.
  destruct (next_round_ok _ _ _ _ _ _ _ HI E) as (Hi & Hu & Hk & Hb). cbn [fst snd]. split; simpl.
  - intros s. rewrite place_concat by done. rewrite filter_app. f_equal. apply HI.
  - intros s. by apply (place_op_last budget pre).
  - intros s ops [k Hk']%list_elem_of_lookup. rewrite place_lookup in Hk' by done.
    case_decide as Hki; [subst k; simplify_eq|apply (ri_budget _ _ _ HI s); by eapply list_elem_of_lookup_2].
    rewrite filter_app, filter_cons, filter_nil. case_decide as Hs.
    + right. subst s. unfold within_budget. rewrite staged_bytes_snoc.
      destruct Hb as [Hb|Hb]; [right|by left]. exists op. split; [set_solver|lia].
    + rewrite app_nil_r. destruct (rounds !! i) as [ops|] eqn:Er; [|by left].
      apply (ri_budget _ _ _ HI s). by eapply list_elem_of_lookup_2.
  - intros ops [k Hk']%list_elem_of_lookup. rewrite place_lookup in Hk' by done.
    case_decide; [simplify_eq; by destruct (default _ _)|].
    apply (ri_nonempty _ _ _ HI). by eapply list_elem_of_lookup_2.
Qed.

Lemma place_all_inv budget plan : rounds_inv budget plan (fold_left (place_op budget) plan ([], [])).
Proof.
  apply (fold_left_inv (rounds_inv budget)).
  - split; simpl; intros; set_solver.
  - intros. by apply place_op_inv.
Qed.

(** Whatever the manifests, the rounds of each sender are its part of the plan, in order. *)
Lemma plan_rounds_concat ms plan s : concat (of_sender s <$> plan_rounds ms plan) = of_sender s plan.
Proof.
  unfold plan_rounds. destruct (py_min _ _) as [budget|]; [destruct (_ || _)|].
  - csimpl. by rewrite app_nil_r.
  - apply place_all_inv.
  - csimpl. by rewrite app_nil_r.
Qed.

(** ** Properties *)

(** C11: the planner decides every set of manifests.  If an exact replay id is held twice it
    raises [RouterReplayDuplicateError] with exactly those ids.  Otherwise the plan has one
    transfer for each id that a receiver needs and some sender holds, in the order of the
    receivers' ranks and of their requests, from the lowest-ranked sender that holds it, with
    the shape and type that sender advertised and the requested token range clamped to the
    capture; and the missing set is exactly the ids that a receiver needs and nobody holds. *)
Theorem replay_plan_decides (ms : list manifest) :
  manifests_wf ms ->
  match compute_plan ms with
  | Raise e => exists ids, e = duplicate_ids_error ids /\ ids <> [] /\ NoDup ids /\
      forall sid, sid ∈ ids <-> conflicting ms sid
  | Ok (plan, missing) =>
      (forall sid, ~ conflicting ms sid) /\ plan = reference_plan ms /\
      forall sid, sid ∈ missing <->
        (exists m, m ∈ ms /\ m_role m = Receiver /\ sid ∈ m_needed m) /\
        (forall m, m ∈ ms -> m_role m = Sender -> sid ∉ m_held m)
  end.
Proof.
  intros Hwf. destruct (compute_plan_cases ms Hwf) as [(ids & -> & H)|[-> Hc]]; [eauto|].
  split; [done|]. split; [done|]. apply elem_of_reference_missing.
Qed.

(** The rounds of a plan.  Each sender's part of the plan is cut into consecutive pieces,
    one per round, in plan order; when a staging budget is in force, a round stages at most
    the smallest advertised budget for each sender unless a single capture makes up all of
    its bytes, and no round is empty. *)
Theorem plan_rounds_budgeted (ms : list manifest) (plan : list transfer_op) :
  (forall s, concat (of_sender s <$> plan_rounds ms plan) = of_sender s plan) /\
  forall budget, py_min Z.ltb (budgets ms) = Some budget -> forallb m_supports_staged_rounds ms = true ->
    plan <> [] ->
    forall ops, ops ∈ plan_rounds ms plan ->
      ops <> [] /\ forall s, of_sender s ops = [] \/ within_budget budget (of_sender s ops).
Proof.
  split; [intros s; apply plan_rounds_concat|]. intros budget Hb Hs Hp ops. unfold plan_rounds.
  rewrite Hb, Hs, bool_decide_eq_false_2 by done. simpl. intros Hops.
  pose proof (place_all_inv budget plan) as HI. split; [by apply (ri_nonempty _ _ _ HI)|].
  intros s. by apply (ri_budget _ _ _ HI).
Qed.

(** ** Witnesses *)

Definition demo_sender (rank : Z) (held : list string) : manifest :=
  Manifest Sender rank held [] ((fun s => (s, [4; 2]%nat)) <$> held) (Some ((fun s => (s, UInt16)) <$> held))
    true false true (Some 24) true None true.
Definition demo_manifests : list manifest :=
  [demo_sender 2 ["a"; "b"]; demo_sender 1 ["b"; "c"];
   Manifest Receiver 0 [] ["a"; "c"; "b"; "z"] [] None true true true None true (Some [("b", (1, 9))]) true].

Lemma demo_manifests_wf : manifests_wf demo_manifests.
Proof.
  intros m Hm Hr sid Hs. repeat apply elem_of_cons in Hm as [->|Hm]; [| |done|set_solver];
    repeat apply elem_of_cons in Hs as [->|Hs]; try set_solver; cbv; eauto.
Qed.

Lemma replay_plan_decides_witness :
  compute_plan demo_manifests =
  Ok ([TransferOp 2 0 "a" [4; 2]%nat true UInt16 None; TransferOp 1 0 "c" [4; 2]%nat true UInt16 None;
       TransferOp 1 0 "b" [4; 2]%nat true UInt16 (Some (1, 4))], {["z"]}) /\
  forall sid, ~ conflicting demo_manifests sid.
Proof.
  pose proof (replay_plan_decides demo_manifests demo_manifests_wf) as H.
  assert (E : compute_plan demo_manifests =
    Ok ([TransferOp 2 0 "a" [4; 2]%nat true UInt16 None; TransferOp 1 0 "c" [4; 2]%nat true UInt16 None;
         TransferOp 1 0 "b" [4; 2]%nat true UInt16 (Some (1, 4))], {["z"]})) by (vm_compute; reflexivity).
  split; [exact E|]. rewrite E in H. apply H.
Defined.

Definition demo_plan : list transfer_op :=
  [TransferOp 2 0 "a" [4; 2]%nat true UInt16 None; TransferOp 1 0 "c" [4; 2]%nat true UInt16 None;
   TransferOp 1 0 "b" [4; 2]%nat true UInt16 (Some (1, 4))].

Lemma plan_rounds_budgeted_witness :
  length (plan_rounds demo_manifests demo_plan) = 2%nat /\
  forall ops, ops ∈ plan_rounds demo_manifests demo_plan -> ops <> [].
Proof.
  split; [vm_compute; reflexivity|]. intros ops Hops.
  destruct (plan_rounds_budgeted demo_manifests demo_plan) as [_ H].
  apply (H 24); [vm_compute; reflexivity|vm_compute; reflexivity|discriminate|exact Hops].
Defined.
