(* ===== verification/ReplayTransfer.v ===== *)
(** * The router-replay exchange: a step of the whole group

    Source: [src/arctic_platform/inference/server/router_replay/all2all.py].

    [send] and [recv] block in the collectives, so each is split where it waits: what it does
    before the gather ([begin_step]), what it posts to NCCL ([run_data_exchange_send],
    [recv_posts]) and what it does afterwards ([send_finish], [recv_finish]).  [exchange]
    composes the parts of all ranks, from the TX caches of the senders to the RX caches of the
    receivers (both of [ReplayCache]).

    NCCL is the class [Nccl]: the bytes a fused group operation delivers; [NcclOk] is the law
    that matching posts are delivered in order, and [fifo_nccl] an instance.  Tensors travel
    as raw little-endian bytes; copies between devices do not change a value.  One clock
    reading serves a whole step of a rank (the RX cache stores times and never reads them). *)

From stdpp Require Import prelude strings gmap list sorting.
From Stdlib Require Import ZArith QArith Lia ZifyNat ZifyBool.
From S2P Require Import Prelude Dict ReplayCache ReplayExchange.
Local Open Scope Z_scope.

(** ** Tensors as raw bytes

    [t.view(torch.uint8)] of a contiguous tensor, and the same bytes seen as a tensor again. *)

Fixpoint to_le (n : nat) (z : Z) : list Z :=
  match n with O => [] | S n => z mod 256 :: to_le n (z / 256) end.
Fixpoint of_le (bs : list Z) : Z :=
  match bs with [] => 0 | b :: bs => b + 256 * of_le bs end.

Definition is_signed (dt : rr_dtype) : bool := match dt with UInt8 | UInt16 => false | _ => true end.
Definition item_bytes (dt : rr_dtype) : nat := Z.to_nat (itemsize dt).

Definition decode_item (dt : rr_dtype) (bs : list Z) : Z :=
  let u := of_le bs in
  if is_signed dt && (2 ^ (8 * itemsize dt - 1) <=? u) then u - 2 ^ (8 * itemsize dt) else u.

Fixpoint decode_items (dt : rr_dtype) (count : nat) (bs : list Z) : list Z :=
  match count with
  | O => []
  | S count => decode_item dt (take (item_bytes dt) bs) :: decode_items dt count (drop (item_bytes dt) bs)
  end.

(** A view at another item size needs at least one dimension. *)
Definition viewable (dt : rr_dtype) (shape : list nat) : bool :=
  negb (bool_decide (shape = [])) || (itemsize dt =? 1).

Definition view_error : exn := RuntimeError "self.dim() cannot be 0 to view".

Definition encode (t : rr_tensor) : list Z := rr_values t ≫= to_le (item_bytes (rr_dt t)).
Definition decode (dt : rr_dtype) (shape : list nat) (bs : list Z) : rr_tensor :=
  RRTensor dt shape (decode_items dt (foldr Nat.mul 1%nat shape) bs).

(** [t[start:stop]] along the first axis. *)
Definition slice_bound (n : nat) (i : Z) : nat :=
  Z.to_nat (if i <? 0 then Z.max 0 (i + Z.of_nat n) else Z.min i (Z.of_nat n)).

Definition slice_rows (start stop : Z) (t : rr_tensor) : res rr_tensor :=
  match rr_shape t with
  | [] => Raise (IndexError "slice() cannot be applied to a 0-dim tensor")
  | n :: shape =>
      let first := slice_bound n start in
      let count := (slice_bound n stop - first)%nat in
      let stride := foldr Nat.mul 1%nat shape in
      Ok (RRTensor (rr_dt t) (count :: shape) (take (count * stride) (drop (first * stride) (rr_values t))))
  end.

(** ** [RouterReplayGroup] *)

Record group := Group {
  g_role : role;
  g_rank : Z;
  g_world_size : Z;
  g_device : string;
  g_staging_bytes : Z;
  g_closed : bool;
  n_exchanges : nat;
  n_rounds : nat;
  n_tensors_sent : nat;
  n_tensors_recv : nat;
  n_missing_raises : nat;
}.

(** [__init__]; [env_staging] is the value of the environment variable or its default. *)
Definition group_init (r : role) (rank world_size : Z) (device : string) (staging_bytes : option Z) (env_staging : Z) : res group :=
  let staging := default env_staging staging_bytes in
  _ ← check (0 <? staging) (ValueError "router-replay staging_bytes must be positive");
  Ok (Group r rank world_size device staging false 0 0 0 0 0).

Definition group_close (g : group) : group :=
  Group (g_role g) (g_rank g) (g_world_size g) (g_device g) (g_staging_bytes g) true
    (n_exchanges g) (n_rounds g) (n_tensors_sent g) (n_tensors_recv g) (n_missing_raises g).

Definition count_rounds (n : nat) (g : group) : group :=
  Group (g_role g) (g_rank g) (g_world_size g) (g_device g) (g_staging_bytes g) (g_closed g)
    (n_exchanges g) (n + n_rounds g) (n_tensors_sent g) (n_tensors_recv g) (n_missing_raises g).
Definition count_sent (n : nat) (g : group) : group :=
  Group (g_role g) (g_rank g) (g_world_size g) (g_device g) (g_staging_bytes g) (g_closed g)
    (S (n_exchanges g)) (n_rounds g) (n + n_tensors_sent g) (n_tensors_recv g) (n_missing_raises g).
Definition count_recv (n : nat) (g : group) : group :=
  Group (g_role g) (g_rank g) (g_world_size g) (g_device g) (g_staging_bytes g) (g_closed g)
    (S (n_exchanges g)) (n_rounds g) (n_tensors_sent g) (n + n_tensors_recv g) (n_missing_raises g).
Definition count_missing (g : group) : group :=
  Group (g_role g) (g_rank g) (g_world_size g) (g_device g) (g_staging_bytes g) (g_closed g)
    (n_exchanges g) (n_rounds g) (n_tensors_sent g) (n_tensors_recv g) (S (n_missing_raises g)).

Definition build_send_manifest (g : group) (snapshot : list (string * rr_tensor)) (cache_device : option string) : manifest :=
  let stages := match cache_device with Some d => negb (bool_decide (d = g_device g)) | None => false end in
  Manifest Sender (g_rank g) (dict_keys snapshot) [] (prod_map id rr_shape <$> snapshot)
    (Some (prod_map id rr_dt <$> snapshot)) true false true
    (if stages then Some (g_staging_bytes g) else None) true None true.

Definition build_recv_manifest (g : group) (needed : list string) (discard allow_missing : bool)
    (ranges : option (list (string * (Z * Z)))) : manifest :=
  Manifest Receiver (g_rank g) [] needed [] None discard allow_missing true None true ranges true.

(** [_exchange_manifest] after the gather. *)
Definition exchange_manifest (ms : list manifest) : res (list transfer_op * gset string * list (list transfer_op)) :=
  '(plan, missing) ← compute_plan ms;
  if negb (bool_decide (missing = ∅)) && negb (missing_is_tolerated ms missing)
  then Raise (missing_error missing)
  else Ok (plan, missing, plan_rounds ms plan).

(** ** Phase C, the sender *)

Definition stage_op (snapshot : list (string * rr_tensor)) (op : transfer_op) : res (transfer_op * list Z) :=
  t ← dict_at snapshot (sample_id op);
  t ← match token_range op with Some (start, stop) => slice_rows start stop t | None => Ok t end;
  _ ← check (viewable (rr_dt t) (rr_shape t)) view_error;
  Ok (op, encode t).

(** The sends of one fused operation: destination and bytes, in the order they are posted. *)
Definition send_posts (staged : list (transfer_op * list Z)) : list (Z * list Z) :=
  (fun x => (recv_rank x.1, x.2)) <$>
  filter (fun x => token_range x.1 = None \/ (0 < length x.2)%nat) staged.

Fixpoint send_rounds (snapshot : list (string * rr_tensor)) (my_rounds : list (list transfer_op)) :
    list (list (Z * list Z)) * res nat :=
  match my_rounds with
  | [] => ([], Ok 0%nat)
  | ops :: rest =>
      match mapM (stage_op snapshot) ops with
      | Raise e => ([], Raise e)
      | Ok staged =>
          let '(posts, n) := send_rounds snapshot rest in
          (send_posts staged :: posts, Nat.add (length staged) <$> n)
      end
  end.

Definition run_data_exchange_send (rank : Z) (rounds : list (list transfer_op)) (snapshot : list (string * rr_tensor)) :
    list (list (Z * list Z)) * res nat :=
  let my_rounds : list (list transfer_op) := of_sender rank <$> rounds in
  match mapM (fun op => check (bool_decide (is_Some (dict_get snapshot (sample_id op))))
                (RuntimeError "router-replay: snapshot is inconsistent")) (concat my_rounds) with
  | Raise e => ([], Raise e)
  | Ok _ => send_rounds snapshot my_rounds
  end.

(** ** Phase C, the receiver *)

Definition posts_recv (op : transfer_op) : bool :=
  match token_range op with
  | None => true
  | Some _ => (0 <? foldr Nat.mul 1%nat (transfer_shape op))%nat
  end.

Notation to_receiver r := (filter (fun op => recv_rank op = r)).

(** The receives of one fused operation: source and size, in the order they are posted. *)
Definition recv_posts (mine : list transfer_op) : res (list (Z * Z)) :=
  mapM (fun op => _ ← check (viewable (op_dtype op) (transfer_shape op)) view_error;
                  Ok (sender_rank op, op_nbytes op)) (filter (fun op => posts_recv op = true) mine).

(** The destination tensors once the bytes have landed; an empty slice is not posted. *)
Fixpoint fill_dests (mine : list transfer_op) (landed : list (list Z)) : list (transfer_op * rr_tensor) :=
  match mine with
  | [] => []
  | op :: rest =>
      if posts_recv op
      then (op, decode (op_dtype op) (transfer_shape op) (default [] (head landed))) :: fill_dests rest (tail landed)
      else (op, RRTensor (op_dtype op) (transfer_shape op) []) :: fill_dests rest landed
  end.

Fixpoint put_all (dests : list (transfer_op * rr_tensor)) (t : Z) (c : cache) : cache * res unit :=
  match dests with
  | [] => (c, Ok ())
  | (op, dest) :: rest =>
      match cache_put (sample_id op) (PutTensor dest) t c with
      | (c, Raise e) => (c, Raise e)
      | (c, Ok _) => put_all rest t c
      end
  end.

(** [landed] gives, for each posted round, the bytes NCCL wrote to the posted receives. *)
Fixpoint recv_rounds (rank : Z) (rounds : list (list transfer_op)) (landed : list (list (list Z))) (t : Z) (c : cache) :
    cache * res nat :=
  match rounds with
  | [] => (c, Ok 0%nat)
  | ops :: rest =>
      match recv_posts (to_receiver rank ops) with
      | Raise e => (c, Raise e)
      | Ok _ =>
          let dests := fill_dests (to_receiver rank ops) (default [] (head landed)) in
          match put_all dests t c with
          | (c, Raise e) => (c, Raise e)
          | (c, Ok _) =>
              let '(c, n) := recv_rounds rank rest (tail landed) t c in
              (c, Nat.add (length dests) <$> n)
          end
      end
  end.

(** ** [send] and [recv] *)

Definition discard_ids (rank : Z) (plan : list transfer_op) : list string :=
  sample_id <$> filter (fun op => sender_rank op = rank /\ op_discard op = true) plan.

(** [if discard_sample_ids: cache_tx.discard(discard_sample_ids)]. *)
Definition discard_sent (ids : list string) (t : Z) (c : cache) : cache :=
  match ids with [] => c | _ => (tx_discard ids t c).1 end.

(** The part of [send] after the gather; the posts of the rounds it got through are kept. *)
Definition send_finish (g : group) (ms : list manifest) (snapshot : list (string * rr_tensor)) (t : Z) (c : cache) :
    group * cache * list (list (Z * list Z)) * res nat :=
  match exchange_manifest ms with
  | Raise e => (g, c, [], Raise e)
  | Ok (plan, _, rounds) =>
      let '(posts, n_sent) := run_data_exchange_send (g_rank g) rounds snapshot in
      match n_sent with
      | Raise e => (g, c, posts, Raise e)
      | Ok n =>
          let c := discard_sent (discard_ids (g_rank g) plan) t c in
          (count_sent n (count_rounds (length rounds) g), c, posts, Ok n)
      end
  end.

(** [list(dict.fromkeys(l))]. *)
Definition dict_fromkeys (l : list string) : list string :=
  dict_keys (fold_left (fun d sid => dict_set d sid ()) l []).

Definition capture_slices (rank : Z) (plan : list transfer_op) : list (string * (Z * nat)) :=
  fold_left (fun d op => match token_range op with
                         | Some (start, _) => if decide (recv_rank op = rank)
                             then dict_set d (sample_id op) (start, default 0%nat (head (op_shape op))) else d
                         | None => d
                         end) plan [].

Record recv_report := RecvReport {
  tensors_recv : nat;
  dropped_sample_ids : list string;
  slices : option (list (string * (Z * nat)));
}.

Definition is_missing_error (e : exn) : bool :=
  match e with ErrorWithIds cls _ => bool_decide (cls = "RouterReplayMissingError") | _ => false end.

Definition recv_finish (g : group) (ms : list manifest) (needed : list string) (has_ranges : bool)
    (landed : list (list (list Z))) (t : Z) (c : cache) : group * cache * res recv_report :=
  match exchange_manifest ms with
  | Raise e => ((if is_missing_error e then count_missing g else g), c, Raise e)
  | Ok (plan, missing, rounds) =>
      let dropped := dict_fromkeys (filter (fun sid => sid ∈ missing) needed) in
      match recv_rounds (g_rank g) rounds landed t c with
      | (c, Raise e) => (g, c, Raise e)
      | (c, Ok n) =>
          (count_recv n (count_rounds (length rounds) g), c,
           Ok (RecvReport n dropped (if has_ranges then Some (capture_slices (g_rank g) plan) else None)))
      end
  end.

(** ** NCCL

    What one fused group operation delivers: from the sends every rank posted, the bytes
    written to the receives that rank [r] posted, in their order. *)
Class Nccl := {
  nccl_deliver : list (Z * list (Z * list Z)) -> Z -> list (Z * Z) -> list (list Z);
}.

Definition sent_to (posts : list (Z * list (Z * list Z))) (s r : Z) : list (list Z) :=
  p ← filter (fun p => p.1 = s) posts; (filter (fun m => m.1 = r) p.2).*2.

Definition received_from (s : Z) (recvs : list (Z * Z)) (out : list (list Z)) : list (list Z) :=
  (filter (fun x => x.1.1 = s) (zip recvs out)).*2.

(** Between two ranks, sends and receives match in the order they are posted, provided their
    number and sizes agree. *)
Class NcclOk (nccl : Nccl) := {
  nccl_in_order : forall posts r recvs,
    (forall s, (fun m => Z.of_nat (length m)) <$> sent_to posts s r = (filter (fun x => x.1 = s) recvs).*2) ->
    length (nccl_deliver posts r recvs) = length recvs /\
    forall s, received_from s recvs (nccl_deliver posts r recvs) = sent_to posts s r;
}.

(** ** One step of the whole group *)

Inductive participant :=
  | PSend (g : group) (c : cache) (cache_device : option string)
  | PRecv (g : group) (c : cache) (needed : list string) (discard allow_missing : bool)
      (ranges : option (list (string * (Z * Z)))).

(** What each rank does before the gather: the checks, the snapshot or the defensive clear. *)
Definition begin_step (t : Z) (p : participant) : res (participant * manifest) :=
  match p with
  | PSend g c dev =>
      _ ← check (negb (g_closed g)) (RuntimeError "RouterReplayGroup is closed");
      _ ← check (bool_decide (g_role g = Sender)) (RuntimeError "send() called on role");
      let '(c, snapshot) := tx_snapshot t c in
      snapshot ← snapshot;
      Ok (PSend g c dev, build_send_manifest g snapshot dev)
  | PRecv g c needed discard allow ranges =>
      _ ← check (negb (g_closed g)) (RuntimeError "RouterReplayGroup is closed");
      _ ← check (bool_decide (g_role g = Receiver)) (RuntimeError "recv() called on role");
      Ok (PRecv g (base_clear c).1 needed discard allow ranges, build_recv_manifest g needed discard allow ranges)
  end.

Inductive report := Sent (n : nat) | Received (r : recv_report).

Section step.
Context `{nccl : Nccl}.

(** The sends every rank posts in each round; a snapshot is the data of the cache it was
    taken from. *)
Definition posts_of (ms : list manifest) (t : Z) (p : participant) : Z * list (list (Z * list Z)) :=
  match p with
  | PSend g c _ => (g_rank g, (send_finish g ms (data c) t c).1.2)
  | PRecv g _ _ _ _ _ => (g_rank g, [])
  end.

Definition round_posts (posts : list (Z * list (list (Z * list Z)))) (k : nat) : list (Z * list (Z * list Z)) :=
  (fun p => (p.1, default [] (p.2 !! k))) <$> posts.

(** The bytes landed at rank [r] in round [k]. *)
Definition landed_round (posts : list (Z * list (list (Z * list Z)))) (r : Z) (k : nat) (ops : list transfer_op) : list (list Z) :=
  match recv_posts (to_receiver r ops) with
  | Ok recvs => nccl_deliver (round_posts posts k) r recvs
  | Raise _ => []
  end.

Definition landed_at (ms : list manifest) (posts : list (Z * list (list (Z * list Z)))) (r : Z) : list (list (list Z)) :=
  match exchange_manifest ms with
  | Ok (_, _, rounds) => imap (landed_round posts r) rounds
  | Raise _ => []
  end.

Definition finish_step (ms : list manifest) (posts : list (Z * list (list (Z * list Z)))) (t : Z) (p : participant) :
    participant * res report :=
  match p with
  | PSend g c dev =>
      let '(g, c, _, n) := send_finish g ms (data c) t c in (PSend g c dev, Sent <$> n)
  | PRecv g c needed discard allow ranges =>
      let '(g, c, rep) :=
        recv_finish g ms needed (bool_decide (is_Some ranges)) (landed_at ms posts (g_rank g)) t c in
      (PRecv g c needed discard allow ranges, Received <$> rep)
  end.

(** One exchange: every rank calls [send] or [recv]; [all_gather_obj] gives every rank the
    list of all manifests.  A rank that raises before the gather keeps the step from starting. *)
Definition exchange (t : Z) (ps : list participant) : res (list (participant * res report)) :=
  begun ← mapM (begin_step t) ps;
  let ms := begun.*2 in
  let posts := posts_of ms t <$> begun.*1 in
  Ok (finish_step ms posts t <$> begun.*1).
End step.

(** A concrete NCCL: one queue of messages per sender. *)
Fixpoint fifo_take (queue : Z -> list (list Z)) (recvs : list (Z * Z)) : list (list Z) :=
  match recvs with
  | [] => []
  | (s, _) :: rest =>
      default [] (head (queue s)) ::
      fifo_take (fun s' => if decide (s' = s) then tail (queue s') else queue s') rest
  end.

#[export] Instance fifo_nccl : Nccl := {
  nccl_deliver posts r recvs := fifo_take (fun s => sent_to posts s r) recvs;
}.

Lemma fifo_take_ok recvs queue :
  (forall s, length (queue s) = length (filter (fun x : Z * Z => x.1 = s) recvs)) ->
  length (fifo_take queue recvs) = length recvs /\
  forall s, received_from s recvs (fifo_take queue recvs) = queue s.
Proof.
  revert queue; induction recvs as [|[s0 n] rest IH]; intros queue Hq.
  - split; [done|]. intros s. specialize (Hq s). by destruct (queue s).
  - assert (Hh : exists m ms, queue s0 = m :: ms).
    { specialize (Hq s0). rewrite filter_cons, decide_True in Hq by done. destruct (queue s0); simpl in *; [lia|eauto]. }
    destruct Hh as (m & ms & Hm).
    edestruct (IH (fun s' => if decide (s' = s0) then tail (queue s') else queue s')) as [Hl Hr].
    { intros s. specialize (Hq s). rewrite filter_cons in Hq. simpl in *. destruct (decide (s = s0)) as [->|].
      - rewrite decide_True in Hq by done. rewrite Hm in *. simpl in *. lia.
      - by rewrite decide_False in Hq by done. }
    split; [simpl; by rewrite Hl|]. intros s. specialize (Hr s). unfold received_from in *. simpl.
    rewrite filter_cons. simpl. destruct (decide (s = s0)) as [->|].
    + rewrite decide_True by done. csimpl. by rewrite Hr, Hm.
    + rewrite decide_False by done. exact Hr.
Qed.

#[export] Instance fifo_nccl_ok : NcclOk fifo_nccl.
Proof.
  split. intros posts r recvs Hs. apply fifo_take_ok. intros s. specialize (Hs s).
  apply (f_equal length) in Hs. by rewrite !length_fmap in Hs.
Qed.

(** ** The byte codec *)

Definition in_range (dt : rr_dtype) (z : Z) : Prop :=
  if is_signed dt then - 2 ^ (8 * itemsize dt - 1) <= z < 2 ^ (8 * itemsize dt - 1)
  else 0 <= z < 2 ^ (8 * itemsize dt).

(** A tensor whose values fill its shape and fit its type. *)
Record tensor_wf (t : rr_tensor) : Prop := {
  tw_length : length (rr_values t) = foldr Nat.mul 1%nat (rr_shape t);
  tw_range : Forall (in_range (rr_dt t)) (rr_values t);
}.

Lemma length_to_le n z : length (to_le n z) = n.
Proof. revert z; induction n as [|n IH]; intros z; simpl; [done|]. by rewrite IH. Qed.

Lemma of_le_to_le n z : of_le (to_le n z) = z mod 256 ^ Z.of_nat n.
Proof.
  revert z; induction n as [|n IH]; intros z; [by rewrite Z.mod_1_r|]. cbn [to_le of_le].
  rewrite IH, Nat2Z.inj_succ, Z.pow_succ_r, Z.rem_mul_r by lia. done.
Qed.

Lemma decode_item_to_le dt z : in_range dt z -> decode_item dt (to_le (item_bytes dt) z) = z.
Proof.
  unfold in_range, decode_item, item_bytes. rewrite of_le_to_le. intros H.
  assert (E : 256 ^ Z.of_nat (Z.to_nat (itemsize dt)) = 2 ^ (8 * itemsize dt)) by by destruct dt. rewrite E.
  destruct dt; cbn [is_signed itemsize] in *; cbn [andb]; try (rewrite Z.mod_small; lia).
  - destruct (decide (0 <= z)); [rewrite Z.mod_small by lia; case_match; lia|].
    rewrite <- (Z.mod_add z 1), Z.mod_small by lia. case_match; lia.
  - destruct (decide (0 <= z)); [rewrite Z.mod_small by lia; case_match; lia|].
    rewrite <- (Z.mod_add z 1), Z.mod_small by lia. case_match; lia.
Qed.

Lemma decode_items_encode dt vs :
  Forall (in_range dt) vs -> decode_items dt (length vs) (vs ≫= to_le (item_bytes dt)) = vs.
Proof.
  induction 1 as [|z vs Hz Hvs IH]; [done|]. cbn [length decode_items mbind list_bind].
  rewrite take_app_length', drop_app_length' by (by rewrite length_to_le).
  rewrite decode_item_to_le by done. f_equal. exact IH.
Qed.

Lemma decode_encode t : tensor_wf t -> decode (rr_dt t) (rr_shape t) (encode t) = t.
Proof.
  intros [Hl Hr]. unfold decode, encode. rewrite <- Hl, decode_items_encode by done. by destruct t.
Qed.

Lemma length_encode t : Z.of_nat (length (encode t)) = itemsize (rr_dt t) * Z.of_nat (length (rr_values t)).
Proof.
  unfold encode, item_bytes. assert (0 < itemsize (rr_dt t)) by (by destruct (rr_dt t)).
  induction (rr_values t) as [|z vs IH]; cbn [mbind list_bind length]; [lia|].
  rewrite length_app, length_to_le. cbn in IH. lia.
Qed.

(** ** Slices of a capture *)

Lemma slice_rows_ok t n shape start stop :
  tensor_wf t -> rr_shape t = n :: shape -> 0 <= start <= stop -> stop <= Z.of_nat n ->
  exists t', slice_rows start stop t = Ok t' /\ rr_dt t' = rr_dt t /\
    rr_shape t' = Z.to_nat (stop - start) :: shape /\ tensor_wf t'.
Proof.
  intros [Hl Hr] Hs H1 H2. unfold slice_rows. rewrite Hs. eexists. split; [done|].
  unfold slice_bound. do 2 (case_match; [lia|]).
  rewrite !Z.min_l by lia. cbn [rr_dt rr_shape rr_values].
  replace (Z.to_nat stop - Z.to_nat start)%nat with (Z.to_nat (stop - start)) by lia.
  split; [done|]. split; [done|]. rewrite Hs in Hl. cbn [foldr] in Hl. split; cbn.
  - rewrite length_take, length_drop, Hl. nia.
  - by apply Forall_take, Forall_drop.
Qed.

(** ** What a transfer moves *)

(** The part of the sender's capture that an op moves. *)
Definition moved (snapshot : list (string * rr_tensor)) (op : transfer_op) : option rr_tensor :=
  t ← dict_get snapshot (sample_id op);
  match token_range op with
  | None => Some t
  | Some (start, stop) => match slice_rows start stop t with Ok t' => Some t' | Raise _ => None end
  end.

Definition payload (snapshot : list (string * rr_tensor)) (op : transfer_op) : list Z :=
  from_option encode [] (moved snapshot op).

(** The op describes the capture the snapshot has, and its range is inside the token axis. *)
Definition op_ok (snapshot : list (string * rr_tensor)) (op : transfer_op) : Prop :=
  exists t n shape, dict_get snapshot (sample_id op) = Some t /\ tensor_wf t /\
    rr_shape t = n :: shape /\ op_shape op = n :: shape /\ op_dtype op = rr_dt t /\
    match token_range op with None => True | Some (a, b) => 0 <= a <= b /\ b <= Z.of_nat n end.

Record moves (snapshot : list (string * rr_tensor)) (op : transfer_op) (t : rr_tensor) : Prop := {
  mv_moved : moved snapshot op = Some t;
  mv_wf : tensor_wf t;
  mv_dt : rr_dt t = op_dtype op;
  mv_shape : rr_shape t = transfer_shape op;
  mv_axis : transfer_shape op <> [];
}.

Lemma op_ok_moves snapshot op : op_ok snapshot op -> exists t, moves snapshot op t.
Proof.
  intros (t & n & shape & Hget & Hwf & Hs & Hos & Hdt & Hr).
  destruct (token_range op) as [[a b]|] eqn:E.
  - destruct (slice_rows_ok t n shape a b Hwf Hs) as (t' & Hsl & Hdt' & Hs' & Hwf'); [tauto..|].
    exists t'. split; unfold moved, transfer_shape; rewrite ?Hget, ?E, ?Hos; simpl; rewrite ?Hsl; congruence || done.
  - exists t. split; unfold moved, transfer_shape; rewrite ?Hget, ?E, ?Hos; simpl; congruence || done.
Qed.

Lemma moves_payload snapshot op t : moves snapshot op t -> payload snapshot op = encode t.
Proof. intros H. unfold payload. by rewrite (mv_moved _ _ _ H). Qed.

Lemma moves_nbytes snapshot op t : moves snapshot op t -> Z.of_nat (length (payload snapshot op)) = op_nbytes op.
Proof.
  intros H. rewrite (moves_payload _ _ _ H), length_encode, op_nbytes_eq, (tw_length _ (mv_wf _ _ _ H)).
  by rewrite (mv_dt _ _ _ H), (mv_shape _ _ _ H).
Qed.

Lemma moves_decode snapshot op t :
  moves snapshot op t -> decode (op_dtype op) (transfer_shape op) (payload snapshot op) = t.
Proof.
  intros H. rewrite (moves_payload _ _ _ H), <- (mv_dt _ _ _ H), <- (mv_shape _ _ _ H).
  apply decode_encode, H.
Qed.

Lemma moves_viewable snapshot op t : moves snapshot op t -> viewable (op_dtype op) (transfer_shape op) = true.
Proof. intros H. unfold viewable. by rewrite bool_decide_eq_false_2 by apply H. Qed.

Lemma moves_stage snapshot op t : moves snapshot op t -> stage_op snapshot op = Ok (op, payload snapshot op).
Proof.
  intros H. rewrite (moves_payload _ _ _ H). pose proof (moves_viewable _ _ _ H) as Hv.
  pose proof (mv_moved _ _ _ H) as Hm. unfold moved in Hm. unfold stage_op, dict_at.
  destruct (dict_get snapshot (sample_id op)) as [t0|]; [|done]. simpl in *.
  assert (Ht : match token_range op with Some (a, b) => slice_rows a b t0 | None => Ok t0 end = Ok t).
  { destruct (token_range op) as [[a b]|]; [|by simplify_eq]. by destruct (slice_rows a b t0); simplify_eq. }
  rewrite Ht. simpl. by rewrite (mv_dt _ _ _ H), (mv_shape _ _ _ H), Hv.
Qed.

(** Sender and receiver agree on which transfers go through NCCL. *)
Lemma moves_posted snapshot op t :
  moves snapshot op t ->
  (token_range op = None \/ (0 < length (payload snapshot op))%nat) <-> posts_recv op = true.
Proof.
  intros H. pose proof (moves_nbytes _ _ _ H) as Hn. rewrite op_nbytes_eq in Hn. unfold posts_recv.
  assert (0 < itemsize (op_dtype op)) by by destruct (op_dtype op).
  destruct (token_range op) as [r|]; [|naive_solver]. rewrite Nat.ltb_lt. split; [intros [?|?]; [done|nia]|right; nia].
Qed.

Lemma moves_unposted snapshot op t :
  moves snapshot op t -> posts_recv op = false -> RRTensor (op_dtype op) (transfer_shape op) [] = t.
Proof.
  intros H Hp. unfold posts_recv in Hp. destruct (token_range op); [|done]. apply Nat.ltb_ge in Hp.
  pose proof (tw_length _ (mv_wf _ _ _ H)) as Hl. rewrite (mv_shape _ _ _ H) in Hl.
  rewrite <- (mv_dt _ _ _ H), <- (mv_shape _ _ _ H). destruct t as [dt sh vs]; simpl in *.
  destruct vs; [done|]. simpl in Hl. lia.
Qed.

(** The posts of one sender for the ops of a round. *)
Definition sends_for (snapshot : list (string * rr_tensor)) (ops : list transfer_op) : list (Z * list Z) :=
  (fun op => (recv_rank op, payload snapshot op)) <$> filter (fun op => posts_recv op = true) ops.

Lemma send_posts_eq snapshot ops :
  Forall (op_ok snapshot) ops -> send_posts ((fun op => (op, payload snapshot op)) <$> ops) = sends_for snapshot ops.
Proof.
  unfold send_posts, sends_for. induction 1 as [|op ops Hop Hops IH]; [done|]. csimpl. rewrite !filter_cons. csimpl.
  destruct (op_ok_moves _ _ Hop) as [t Ht]. pose proof (moves_posted _ _ _ Ht) as Hp.
  repeat case_decide; csimpl; rewrite ?IH; tauto.
Qed.

Lemma send_rounds_ok snapshot (rounds : list (list transfer_op)) :
  Forall (Forall (op_ok snapshot)) rounds ->
  send_rounds snapshot rounds = (sends_for snapshot <$> rounds, Ok (length (concat rounds))).
Proof.
  induction 1 as [|ops rounds Hops Hr IH]; [done|]. cbn [send_rounds].
  rewrite (mapM_ok _ (fun op => (op, payload snapshot op))).
  - rewrite IH. rewrite send_posts_eq by done. csimpl. rewrite length_app, length_fmap. done.
  - intros op Hin. rewrite Forall_forall in Hops. destruct (op_ok_moves _ _ (Hops op Hin)) as [t Ht].
    by eapply moves_stage.
Qed.

Lemma run_data_exchange_send_ok rank (rounds : list (list transfer_op)) snapshot :
  Forall (op_ok snapshot) (concat (of_sender rank <$> rounds)) ->
  run_data_exchange_send rank rounds snapshot =
  (sends_for snapshot ∘ of_sender rank <$> rounds, Ok (length (concat (of_sender rank <$> rounds)))).
Proof.
  intros H. unfold run_data_exchange_send. rewrite (mapM_ok _ (fun _ => ())).
  - rewrite send_rounds_ok by (by apply Forall_concat). by rewrite list_fmap_compose.
  - intros op Hin. rewrite Forall_forall in H. destruct (H op Hin) as (t & n & shape & Hg & _).
    rewrite bool_decide_eq_true_2; [done|]. rewrite Hg. eauto.
Qed.

(** ** What the receiver gets *)

(** Receives that agree, sender by sender, with what was sent are filled in their own order. *)
Lemma received_all (ops : list transfer_op) (f : transfer_op -> list Z) (out : list (list Z)) :
  length out = length ops ->
  (forall s, received_from s ((fun op => (sender_rank op, op_nbytes op)) <$> ops) out = f <$> of_sender s ops) ->
  out = f <$> ops.
Proof.
  revert out; induction ops as [|op ops IH]; intros [|m out] Hl Hr; try done. csimpl.
  assert (Hs := Hr (sender_rank op)). unfold received_from in Hs. csimpl in Hs. rewrite !filter_cons in Hs.
  csimpl in Hs. rewrite !decide_True in Hs by done. csimpl in Hs. injection Hs as -> _. f_equal.
  apply IH; [simpl in Hl; lia|]. intros s. specialize (Hr s). unfold received_from in *. csimpl in Hr.
  rewrite !filter_cons in Hr. csimpl in Hr.
  destruct (decide (sender_rank op = s)); csimpl in Hr; [by injection Hr|done].
Qed.

Section receive.
(** The snapshot of each sender, by its rank. *)
Context (snap : Z -> list (string * rr_tensor)).

Definition from_source (op : transfer_op) : Prop := op_ok (snap (sender_rank op)) op.
Definition pay (op : transfer_op) : list Z := payload (snap (sender_rank op)) op.
Definition arrives (op : transfer_op) : rr_tensor :=
  default (RRTensor UInt8 [] []) (moved (snap (sender_rank op)) op).

(** What should land at [r] in a round. *)
Definition landing (r : Z) (ops : list transfer_op) : list (list Z) :=
  pay <$> filter (fun op => posts_recv op = true) (to_receiver r ops).

Lemma arrives_moves op : from_source op -> moves (snap (sender_rank op)) op (arrives op).
Proof.
  intros [t Ht]%op_ok_moves. unfold arrives. by rewrite (mv_moved _ _ _ Ht).
Qed.

Lemma arrives_nbytes op : from_source op -> nbytes (arrives op) = op_nbytes op.
Proof.
  intros H%arrives_moves. unfold nbytes, numel. rewrite (mv_shape _ _ _ H), op_nbytes_eq.
  unfold element_size. by rewrite (mv_dt _ _ _ H).
Qed.

Lemma fill_dests_ok ops :
  Forall from_source ops ->
  fill_dests ops (pay <$> filter (fun op => posts_recv op = true) ops) = (fun op => (op, arrives op)) <$> ops.
Proof.
  induction 1 as [|op ops Hop Hops IH]; [done|]. cbn [fill_dests]. rewrite filter_cons.
  pose proof (arrives_moves op Hop) as Hm. case_decide as E.
  - rewrite E. csimpl. cbn [tail]. rewrite IH. unfold pay at 1. by rewrite (moves_decode _ _ _ Hm).
  - apply not_true_is_false in E. rewrite E, IH. csimpl. by rewrite (moves_unposted _ _ _ Hm E).
Qed.

Lemma recv_posts_ok ops :
  Forall from_source ops ->
  recv_posts ops = Ok ((fun op => (sender_rank op, op_nbytes op)) <$> filter (fun op => posts_recv op = true) ops).
Proof.
  intros H. apply mapM_ok. intros op [_ Hin]%list_elem_of_filter. rewrite Forall_forall in H.
  by rewrite (moves_viewable _ _ _ (arrives_moves op (H op Hin))).
Qed.

(** A round whose sends are posted as the plan says lands at [r] as the plan says. *)
Lemma landed_ok `{!NcclOk nccl} posts r ops :
  Forall from_source ops ->
  (forall s, sent_to posts s r = pay <$> filter (fun op => posts_recv op = true) (of_sender s (to_receiver r ops))) ->
  forall recvs, recv_posts (to_receiver r ops) = Ok recvs ->
  nccl_deliver posts r recvs = landing r ops.
Proof.
  unfold landing. intros Hops Hsent recvs Hrec.
  assert (Hmine : Forall from_source (to_receiver r ops)) by by apply Forall_filter.
  rewrite recv_posts_ok in Hrec by done. injection Hrec as <-.
  set (mine := filter (fun op => posts_recv op = true) (to_receiver r ops)).
  assert (Hsent' : forall s, sent_to posts s r = pay <$> of_sender s mine).
  { intros s. rewrite Hsent. unfold mine. f_equal. rewrite !list_filter_filter.
    apply list_filter_iff. intros op. tauto. }
  destruct (nccl_in_order posts r ((fun op => (sender_rank op, op_nbytes op)) <$> mine)) as [Hl Hr].
  - intros s. rewrite Hsent', <- list_fmap_compose. clear Hsent Hsent'.
    assert (Hm : Forall from_source mine) by by apply Forall_filter. induction Hm as [|op l Hop Hl IH]; [done|].
    csimpl. rewrite !filter_cons. csimpl. case_decide; csimpl; [|done]. rewrite IH. f_equal.
    eapply moves_nbytes. by apply arrives_moves.
  - rewrite length_fmap in Hl. apply received_all; [done|]. intros s. by rewrite Hr.
Qed.
End receive.

(** ** The puts of the receiver *)

Definition narrow (dt : rr_dtype) : Prop := dt = UInt8 \/ dt = UInt16.

Lemma coerce_narrow t : narrow (rr_dt t) -> coerce (PutTensor t) = Ok t.
Proof. intros [E|E]; simpl; by rewrite E. Qed.

Lemma rx_put_ok sid t now c :
  cache_inv c -> narrow (rr_dt t) -> bytes_in_use c + nbytes t <= max_bytes (cfg c) ->
  exists c', cache_put sid (PutTensor t) now c = (c', Ok ()) /\ cache_inv c' /\ cfg c' = cfg c /\
    bytes_in_use c' <= bytes_in_use c + nbytes t /\ data c' = dict_set (data c) sid t.
Proof.
  intros HI Hn Hb. pose proof (put_core_inv base_hooks sid (PutTensor t) true now c HI) as HI'.
  pose proof (size_nonneg c sid HI) as Hs.
  unfold cache_put, put_core in *. rewrite coerce_narrow in * by done. cbn [negb andb suppress_put_new evict_for_put base_hooks] in *.
  destruct (_ <? _) eqn:E; [lia|]. eexists. split; [done|]. split; [done|]. split; [done|]. simpl. split; [lia|done].
Qed.

Section receive_all.
Context (snap : Z -> list (string * rr_tensor)).
Notation arrives := (arrives snap).
Notation pay := (pay snap).
Notation from_source := (from_source snap).

Definition stores (ops : list transfer_op) (d : list (string * rr_tensor)) : list (string * rr_tensor) :=
  fold_left (fun d op => dict_set d (sample_id op) (arrives op)) ops d.

Lemma put_all_ok ops now c :
  cache_inv c -> Forall from_source ops -> Forall (fun op => narrow (op_dtype op)) ops ->
  bytes_in_use c + staged_bytes ops <= max_bytes (cfg c) ->
  exists c', put_all ((fun op => (op, arrives op)) <$> ops) now c = (c', Ok ()) /\ cache_inv c' /\ cfg c' = cfg c /\
    bytes_in_use c' <= bytes_in_use c + staged_bytes ops /\ data c' = stores ops (data c).
Proof.
  intros HI Hf. revert c HI. induction Hf as [|op ops Hop Hops IH]; intros c HI Hn Hb.
  - exists c. unfold staged_bytes. simpl. split; [done|]. split; [done|]. split; [done|]. split; [lia|done].
  - inversion Hn as [|? ? Hn1 Hn2]; subst. unfold staged_bytes in *. csimpl in *.
    pose proof (op_nbytes_nonneg op). assert (0 <= sumZ (op_nbytes <$> ops)).
    { apply sumZ_nonneg, Forall_fmap, Forall_true. intros x. simpl. apply op_nbytes_nonneg. }
    destruct (rx_put_ok (sample_id op) (arrives op) now c HI) as (c1 & E & HI1 & Hc1 & Hb1 & Hd1).
    + by rewrite (mv_dt _ _ _ (arrives_moves snap op Hop)).
    + rewrite arrives_nbytes by done. lia.
    + rewrite arrives_nbytes in Hb1 by done. rewrite E.
      destruct (IH c1 HI1 Hn2) as (c2 & E2 & HI2 & Hc2 & Hb2 & Hd2); [rewrite Hc1; lia|].
      exists c2. split; [done|]. split; [done|]. split; [congruence|]. split; [lia|]. by rewrite Hd2, Hd1.
Qed.

Lemma recv_rounds_ok rank (rounds : list (list transfer_op)) now c :
  cache_inv c -> Forall from_source (concat rounds) -> Forall (fun op => narrow (op_dtype op)) (concat rounds) ->
  bytes_in_use c + staged_bytes (to_receiver rank (concat rounds)) <= max_bytes (cfg c) ->
  exists c', recv_rounds rank rounds (landing snap rank <$> rounds) now c =
    (c', Ok (length (to_receiver rank (concat rounds)))) /\
    cache_inv c' /\ cfg c' = cfg c /\ data c' = stores (to_receiver rank (concat rounds)) (data c).
Proof.
  revert c; induction rounds as [|ops rounds IH]; intros c HI Hf Hn Hb; [by exists c|].
  simpl in Hf, Hn. apply Forall_app in Hf as [Hf1 Hf2]. apply Forall_app in Hn as [Hn1 Hn2].
  cbn [concat] in Hb |- *. rewrite filter_app in Hb |- *. unfold staged_bytes in Hb. rewrite fmap_app, sumZ_app in Hb.
  assert (0 <= sumZ (op_nbytes <$> to_receiver rank (concat rounds))).
  { apply sumZ_nonneg, Forall_fmap, Forall_true. intros x. simpl. apply op_nbytes_nonneg. }
  rewrite fmap_cons. cbn [recv_rounds head tail default from_option].
  rewrite (recv_posts_ok snap) by by apply Forall_filter. unfold id.
  assert (Hfill : fill_dests (to_receiver rank ops) (landing snap rank ops) =
                  (fun op => (op, arrives op)) <$> to_receiver rank ops).
  { by apply fill_dests_ok, Forall_filter. }
  rewrite !Hfill.
  destruct (put_all_ok (to_receiver rank ops) now c HI) as (c1 & E1 & HI1 & Hc1 & Hb1 & Hd1);
    [by apply Forall_filter|by apply Forall_filter|unfold staged_bytes; lia|].
  rewrite E1. destruct (IH c1 HI1 Hf2 Hn2) as (c2 & E2 & HI2 & Hc2 & Hd2).
  { unfold staged_bytes in *. rewrite Hc1. lia. }
  rewrite E2. exists c2. split; [by rewrite length_app, length_fmap|]. split; [done|]. split; [congruence|].
  rewrite Hd2, Hd1. unfold stores. by rewrite fold_left_app.
Qed.
End receive_all.

(** ** What one step promises

    The specification does not mention manifests, plans or rounds. *)

Definition p_group (p : participant) : group :=
  match p with PSend g _ _ => g | PRecv g _ _ _ _ _ => g end.
Definition p_rank (p : participant) : Z := g_rank (p_group p).
Definition p_role (p : participant) : role :=
  match p with PSend _ _ _ => Sender | PRecv _ _ _ _ _ _ => Receiver end.

Definition capture_ok (t : rr_tensor) : Prop := tensor_wf t /\ narrow (rr_dt t) /\ rr_shape t <> [].

(** The ranks of a group that is ready for a step: distinct ranks, open, each calling the
    method of its role, with caches that honour their invariant and captures that have a
    token axis. *)
Record ready (ps : list participant) : Prop := {
  rd_ranks : NoDup (p_rank <$> ps);
  rd_open : forall p, p ∈ ps -> g_closed (p_group p) = false /\ g_role (p_group p) = p_role p;
  rd_tx : forall g c dev, PSend g c dev ∈ ps -> cache_inv c /\ forall sid t, dict_get (data c) sid = Some t -> capture_ok t;
  rd_rx : forall g c needed d a r, PRecv g c needed d a r ∈ ps -> cache_inv c;
}.

Definition held_by (sid : string) (p : participant) : option rr_tensor :=
  match p with PSend _ c _ => dict_get (data c) sid | PRecv _ _ _ _ _ _ => None end.

Definition by_p_rank (ps : list participant) : list participant := py_sorted (by_key p_rank Z.ltb) ps.

(** The capture of the lowest-ranked sender that holds the id. *)
Definition source_of (ps : list participant) (sid : string) : option rr_tensor :=
  head (omap (held_by sid) (by_p_rank ps)).

(** The part of it that a receiver asked for. *)
Definition delivered (ps : list participant) (ranges : option (list (string * (Z * Z)))) (sid : string) : option rr_tensor :=
  t ← source_of ps sid;
  match ranges ≫= fun d => dict_get d sid with
  | None => Some t
  | Some range =>
      let '(a, b) := clamped range (default 0%nat (head (rr_shape t))) in
      match slice_rows a b t with Ok t' => Some t' | Raise _ => None end
  end.

(** A receiver that asks for the id and lets the sender drop it. *)
Definition consumed (ps : list participant) (sid : string) : Prop :=
  exists g c needed a r, PRecv g c needed true a r ∈ ps /\ sid ∈ needed.

(** ** The manifests of a step *)

Definition manifest_of (p : participant) : manifest :=
  match p with
  | PSend g c dev => build_send_manifest g (data c) dev
  | PRecv g _ needed discard allow ranges => build_recv_manifest g needed discard allow ranges
  end.

Definition begun (t : Z) (p : participant) : participant :=
  match p with
  | PSend g c dev => PSend g (tx_snapshot t c).1 dev
  | PRecv g c needed discard allow ranges => PRecv g (base_clear c).1 needed discard allow ranges
  end.

Notation manifests ps := (manifest_of <$> (ps : list participant)).

Lemma begin_ok t ps :
  ready ps -> mapM (begin_step t) ps = Ok ((fun p => (begun t p, manifest_of p)) <$> ps).
Proof.
  intros HR. apply mapM_ok. intros p Hp. destruct (rd_open _ HR p Hp) as [Hc Hr].
  destruct p as [g c dev|g c needed d a r]; simpl in *; rewrite Hc, Hr; done.
Qed.

Lemma m_rank_manifest p : m_rank (manifest_of p) = p_rank p.
Proof. by destruct p. Qed.
Lemma m_role_manifest p : m_role (manifest_of p) = p_role p.
Proof. by destruct p. Qed.

Lemma manifests_ranks ps : m_rank <$> manifests ps = p_rank <$> ps.
Proof. rewrite <- list_fmap_compose. apply list_fmap_ext. intros i p _. apply m_rank_manifest. Qed.

Lemma all_support ps : forallb m_supports_token_ranges (manifests ps) = true /\
  forallb m_supports_staged_rounds (manifests ps) = true /\ forallb m_supports_allow_missing (manifests ps) = true.
Proof. induction ps as [|[] ps IH]; csimpl; tauto. Qed.

Lemma dict_get_fmap {A B} (f : A -> B) (d : list (string * A)) k :
  dict_get (prod_map id f <$> d) k = f <$> dict_get d k.
Proof. induction d as [|[k' v] d IH]; csimpl; [done|]. by case_decide. Qed.

Lemma dict_keys_fmap {A B} (f : A -> B) (d : list (string * A)) : dict_keys (prod_map id f <$> d) = dict_keys d.
Proof. unfold dict_keys. induction d as [|[k' v] d IH]; csimpl; [done|]. by rewrite IH. Qed.

Lemma manifests_are_wf ps : ready ps -> manifests_wf (manifests ps).
Proof.
  intros HR m Hm Hr sid Hs. apply list_elem_of_fmap in Hm as (p & -> & Hp).
  destruct p as [g c dev|]; [|done]. destruct (rd_tx _ HR _ _ _ Hp) as [HI Hc]. simpl in Hs.
  apply dict_get_keys in Hs as [t Ht]. destruct (Hc _ _ Ht) as (_ & _ & Hne).
  unfold shape_of, dtype_of. simpl. rewrite !dict_get_fmap, Ht. simpl. split; [|eauto].
  destruct (rr_shape t); [done|]. eauto.
Qed.

Lemma by_rank_manifests ps : by_rank (manifests ps) = manifests (by_p_rank ps).
Proof. unfold by_rank, by_p_rank. apply py_sorted_fmap. intros x y. unfold by_key. by rewrite !m_rank_manifest. Qed.

(** ** The plan of a step and the captures it moves *)

Definition holding (sid : string) (ps : list participant) : list participant :=
  filter (fun p => is_Some (held_by sid p)) ps.

Lemma holders_in_app cl cl' sid : holders_in (cl ++ cl') sid = holders_in cl sid ++ holders_in cl' sid.
Proof. unfold holders_in. by rewrite filter_app, fmap_app. Qed.

Lemma holders_in_own m (l : list string) sid :
  head (holders_in ((fun s => (m, s)) <$> l) sid) = if decide (sid ∈ l) then Some m else None.
Proof.
  unfold holders_in. induction l as [|s l IH]; [by rewrite decide_False by set_solver|]. csimpl.
  rewrite filter_cons. cbn [snd]. destruct (decide (s = sid)) as [->|].
  - by rewrite decide_True by set_solver.
  - rewrite IH. repeat case_decide; set_solver.
Qed.

Lemma head_app {A} (l k : list A) : head (l ++ k) = match head l with Some x => Some x | None => head k end.
Proof. by destruct l. Qed.

Lemma holders_head ps sid :
  head (holders (manifests ps) sid) = manifest_of <$> head (holding sid (by_p_rank ps)).
Proof.
  unfold holders, claims. rewrite by_rank_manifests. generalize (by_p_rank ps) as l.
  induction l as [|p l IH]; [done|]. unfold holding in *. rewrite filter_cons. csimpl.
  unfold claims_in in *. cbn [mbind list_bind]. rewrite holders_in_app, head_app.
  destruct p as [g c dev|g c needed d a r]; simpl.
  - rewrite holders_in_own. 
    destruct (decide (is_Some (dict_get (data c) sid))) as [Hs|Hs].
    + rewrite decide_True by by apply dict_get_keys. done.
    + rewrite decide_False by by rewrite <- dict_get_keys in Hs. exact IH.
  - exact IH.
Qed.

Lemma source_of_holding ps sid : source_of ps sid = head (holding sid (by_p_rank ps)) ≫= held_by sid.
Proof.
  unfold source_of, holding. generalize (by_p_rank ps) as l. induction l as [|p l IH]; [done|].
  rewrite filter_cons. csimpl. destruct (held_by sid p) eqn:E.
  - rewrite decide_True by eauto. simpl. by rewrite E.
  - rewrite decide_False by (by intros []). exact IH.
Qed.

Definition needed_of (p : participant) : list string := m_needed (manifest_of p).

Lemma op_for_cases ps p sid :
  ready ps ->
  match op_for (manifests ps) (manifest_of p, sid) with
  | Some op =>
      exists g c dev t n shape, PSend g c dev ∈ ps /\ dict_get (data c) sid = Some t /\ source_of ps sid = Some t /\
        rr_shape t = n :: shape /\
        op = TransferOp (g_rank g) (p_rank p) sid (n :: shape) (m_discard (manifest_of p)) (rr_dt t)
               (range ← m_token_ranges (manifest_of p) ≫= fun d => dict_get d sid; Some (clamped range n))
  | None => source_of ps sid = None
  end.
Proof.
  intros HR. unfold op_for. rewrite holders_head, source_of_holding.
  destruct (head (holding sid (by_p_rank ps))) as [q|] eqn:Eq; simpl; [|done].
  assert (Hq : q ∈ ps /\ is_Some (held_by sid q)).
  { assert (H : q ∈ holding sid (by_p_rank ps)) by (destruct (holding _ _); simplify_eq/=; set_solver).
    unfold holding, by_p_rank in H. rewrite list_elem_of_filter, py_sorted_perm in H. tauto. }
  destruct Hq as [Hin [t Ht]]. destruct q as [g c dev|]; simpl in Ht; [|done].
  unfold shape_of, dtype_of. simpl. rewrite !dict_get_fmap, Ht. simpl.
  destruct (rd_tx _ HR _ _ _ Hin) as [_ Hc]. destruct (Hc _ _ Ht) as (_ & _ & Hne).
  destruct (rr_shape t) as [|n shape] eqn:Es; [done|].
  exists g, c, dev, t, n, shape. split_and!; try done. rewrite m_rank_manifest. f_equal.
  unfold range_for. destruct (all_support ps) as (-> & _). by destruct (m_token_ranges (manifest_of p)).
Qed.

Lemma elem_of_plan ps op :
  op ∈ reference_plan (manifests ps) <->
  exists p sid, p ∈ ps /\ p_role p = Receiver /\ sid ∈ needed_of p /\
    op_for (manifests ps) (manifest_of p, sid) = Some op.
Proof.
  unfold reference_plan. rewrite list_elem_of_omap. split.
  - intros ([m sid] & Hn & Ho). apply elem_of_needs in Hn as (Hm & Hr & Hs).
    apply list_elem_of_fmap in Hm as (p & -> & Hp). rewrite m_role_manifest in Hr. exists p, sid. done.
  - intros (p & sid & Hp & Hr & Hs & Ho). exists (manifest_of p, sid). split; [|done].
    apply elem_of_needs. rewrite m_role_manifest. split; [|done]. by apply list_elem_of_fmap_2.
Qed.

(** The snapshot of the sender with a given rank. *)
Definition snap_of (ps : list participant) (s : Z) : list (string * rr_tensor) :=
  default [] (head (omap (fun p => match p with
                                   | PSend g c _ => if decide (g_rank g = s) then Some (data c) else None
                                   | _ => None end) ps)).

Lemma snap_of_in ps g c dev : NoDup (p_rank <$> ps) -> PSend g c dev ∈ ps -> snap_of ps (g_rank g) = data c.
Proof.
  unfold snap_of. induction ps as [|p ps IH]; csimpl; [set_solver|].
  intros [Hn Hnd]%NoDup_cons [<-|Hin]%elem_of_cons; [by rewrite decide_True|].
  destruct p as [g' c' d'|]; simpl; [|by apply IH].
  rewrite decide_False; [by apply IH|]. intros E. apply Hn. apply list_elem_of_fmap. exists (PSend g c dev). done.
Qed.

(** Every op of the plan moves a capture its sender has. *)
Lemma plan_from_source ps op :
  ready ps -> op ∈ reference_plan (manifests ps) -> from_source (snap_of ps) op /\ narrow (op_dtype op).
Proof.
  intros HR (p & sid & Hp & Hr & Hs & Ho)%elem_of_plan. pose proof (op_for_cases ps p sid HR) as H. rewrite Ho in H.
  destruct H as (g & c & dev & t & n & shape & Hin & Ht & _ & Hsh & ->).
  destruct (rd_tx _ HR _ _ _ Hin) as [_ Hc]. destruct (Hc _ _ Ht) as (Hwf & Hnar & _). split; [|done].
  unfold from_source, op_ok. simpl. rewrite (snap_of_in ps g c dev (rd_ranks _ HR) Hin).
  exists t, n, shape. split_and!; try done.
  destruct (m_token_ranges (manifest_of p) ≫= fun d => dict_get d sid) as [range|]; simpl; [lia|done].
Qed.

(** ** The posts and the landings of a step *)

Lemma sent_to_unique (F : participant -> list (Z * list Z)) ps p r :
  NoDup (p_rank <$> ps) -> p ∈ ps ->
  sent_to ((fun p => (p_rank p, F p)) <$> ps) (p_rank p) r = (filter (fun m => m.1 = r) (F p)).*2.
Proof.
  unfold sent_to. induction ps as [|q ps IH]; csimpl; [set_solver|].
  intros [Hn Hnd]%NoDup_cons [->|Hin]%elem_of_cons; rewrite filter_cons; csimpl.
  - rewrite decide_True by done. cbn [mbind list_bind snd].
    rewrite (filter_none (fun x : Z * list (Z * list Z) => x.1 = p_rank q)); [by rewrite app_nil_r|].
    intros [s l] Hx E. simpl in E. subst s. apply list_elem_of_fmap in Hx as (p & [= E _] & Hp).
    apply Hn. rewrite E. by apply list_elem_of_fmap_2.
  - rewrite decide_False; [by apply IH|]. intros E. apply Hn. rewrite E. by apply list_elem_of_fmap_2.
Qed.

Lemma sent_to_nobody (F : participant -> list (Z * list Z)) ps s r :
  s ∉ (p_rank <$> ps) -> sent_to ((fun p => (p_rank p, F p)) <$> ps) s r = [].
Proof.
  intros Hs. unfold sent_to. rewrite (filter_none (fun x : Z * list (Z * list Z) => x.1 = s)); [done|]. intros [s' l] Hx E. simpl in E. subst s'.
  apply list_elem_of_fmap in Hx as (p & [= -> _] & Hp). apply Hs. by apply list_elem_of_fmap_2.
Qed.

(** The order of the two filters of a post does not matter. *)
Lemma sends_for_to snapshot r ops :
  (filter (fun m => m.1 = r) (sends_for snapshot ops)).*2 =
  payload snapshot <$> filter (fun op => posts_recv op = true) (to_receiver r ops).
Proof.
  unfold sends_for. induction ops as [|op ops IH]; [done|]. rewrite !filter_cons.
  destruct (decide (posts_recv op = true)), (decide (recv_rank op = r)); csimpl.
  - rewrite !filter_cons_True by done. csimpl. by rewrite IH.
  - rewrite filter_cons_False by done. exact IH.
  - rewrite filter_cons_False by done. exact IH.
  - exact IH.
Qed.

Section one_step.
Context `{!NcclOk nccl} (t : Z) (ps : list participant) (HR : ready ps).
Notation ms := (manifests ps).
Notation plan := (reference_plan ms).
Notation rounds := (plan_rounds ms plan).
Notation snap := (snap_of ps).

(** The exchange goes ahead. *)
Hypothesis Hgo : exchange_manifest ms = Ok (plan, reference_missing ms, rounds).

Lemma rounds_plan : concat rounds ≡ₚ plan.
Proof.
  apply (filter_by_key_perm sender_rank). intros s. rewrite <- (plan_rounds_concat ms plan s).
  generalize rounds as rs. induction rs as [|ops rs IH]; [done|]. csimpl. by rewrite filter_app, IH.
Qed.

Lemma rounds_from_source : Forall (from_source snap) (concat rounds) /\ Forall (fun op => narrow (op_dtype op)) (concat rounds).
Proof.
  rewrite !Forall_forall. split; intros op Hin; rewrite rounds_plan in Hin; by destruct (plan_from_source ps op HR Hin).
Qed.

Lemma sender_ops_ok g c dev : PSend g c dev ∈ ps ->
  Forall (op_ok (data c)) (concat (of_sender (g_rank g) <$> rounds)).
Proof.
  intros Hin. rewrite plan_rounds_concat. apply Forall_forall. intros op [Hs Hop]%list_elem_of_filter.
  destruct (plan_from_source ps op HR Hop) as [H _]. unfold from_source in H.
  by rewrite Hs, (snap_of_in ps g c dev (rd_ranks _ HR) Hin) in H.
Qed.

Definition posts_in (p : participant) : list (list (Z * list Z)) :=
  match p with
  | PSend g c _ => sends_for (data c) ∘ of_sender (g_rank g) <$> rounds
  | PRecv _ _ _ _ _ _ => []
  end.

Lemma posts_of_ok p : p ∈ ps -> posts_of ms t (begun t p) = (p_rank p, posts_in p).
Proof.
  intros Hin. destruct p as [g c dev|g c needed d a r]; [|done]. simpl. unfold send_finish.
  cbn [data tx_snapshot with_touched fst]. rewrite Hgo.
  rewrite run_data_exchange_send_ok; [done|]. by eapply sender_ops_ok.
Qed.

Definition all_posts : list (Z * list (list (Z * list Z))) := (fun p => (p_rank p, posts_in p)) <$> ps.

Lemma all_posts_ok : posts_of ms t <$> (begun t <$> ps) = all_posts.
Proof.
  unfold all_posts. rewrite <- list_fmap_compose. apply list_fmap_ext. intros i p Hp.
  apply posts_of_ok. by eapply list_elem_of_lookup_2.
Qed.

(** Only the ranks of senders occur as sources of the plan. *)
Lemma no_ops_from s ops : ops ∈ rounds -> (forall g c dev, PSend g c dev ∈ ps -> g_rank g <> s) -> of_sender s ops = [].
Proof.
  intros Hops Hs. apply filter_none. intros op Hop E.
  assert (Hin : op ∈ plan).
  { rewrite <- rounds_plan. apply list_elem_of_In, in_concat. exists ops. split; by apply list_elem_of_In. }
  apply elem_of_plan in Hin as (p & sid & _ & _ & _ & Ho). pose proof (op_for_cases ps p sid HR) as H. rewrite Ho in H.
  destruct H as (g & c & dev & t' & n & shape & Hin & _ & _ & _ & ->). by apply (Hs g c dev).
Qed.

Lemma round_sent k ops s r :
  rounds !! k = Some ops ->
  sent_to (round_posts all_posts k) s r =
  pay snap <$> filter (fun op => posts_recv op = true) (of_sender s (to_receiver r ops)).
Proof.
  intros Hk. assert (Hops : ops ∈ rounds) by by eapply list_elem_of_lookup_2.
  replace (of_sender s (to_receiver r ops)) with (to_receiver r (of_sender s ops))
    by (rewrite !list_filter_filter; apply list_filter_iff; tauto).
  unfold round_posts, all_posts. rewrite <- list_fmap_compose. unfold compose. cbn [fst snd].
  destruct (decide (s ∈ (p_rank <$> ps))) as [(p & -> & Hp)%list_elem_of_fmap|Hn].
  - rewrite (sent_to_unique (fun p => default [] (posts_in p !! k))) by (done || apply HR).
    destruct p as [g c dev|g c needed d a rg]; simpl.
    + rewrite list_lookup_fmap, Hk. simpl. rewrite sends_for_to. apply list_fmap_ext. intros i op Hop.
      apply list_elem_of_lookup_2 in Hop. apply list_elem_of_filter in Hop as [_ Hop].
      apply list_elem_of_filter in Hop as [_ Hop]. apply list_elem_of_filter in Hop as [Hs _].
      unfold pay. rewrite Hs. unfold p_rank. simpl. by rewrite (snap_of_in ps g c dev (rd_ranks _ HR) Hp).
    + rewrite no_ops_from; [done|done|]. intros g' c' dev' Hp' E.
      assert (PSend g' c' dev' = PRecv g c needed d a rg); [|done].
      apply list_elem_of_lookup in Hp as [i Hi]. apply list_elem_of_lookup in Hp' as [j Hj].
      assert (i = j) as ->; [|by simplify_eq]. eapply NoDup_lookup; [apply (rd_ranks _ HR)| |];
        rewrite list_lookup_fmap, ?Hi, ?Hj; simpl; [done|]. by rewrite <- E.
  - rewrite (sent_to_nobody (fun p => default [] (posts_in p !! k))) by done.
    rewrite no_ops_from; [done|done|]. intros g c dev Hp <-. apply Hn. by apply (list_elem_of_fmap_2 p_rank _ (PSend g c dev)).
Qed.

Lemma landed_at_ok r : landed_at ms all_posts r = landing snap r <$> rounds.
Proof.
  unfold landed_at. rewrite Hgo. apply list_eq. intros k. rewrite list_lookup_imap, list_lookup_fmap.
  destruct (rounds !! k) as [ops|] eqn:Hk; [|done]. simpl. f_equal. unfold landed_round.
  assert (Hsrc : Forall (from_source snap) ops).
  { destruct rounds_from_source as [H _]. rewrite Forall_forall in H. apply Forall_forall. intros op Hop. apply H.
    apply list_elem_of_In, in_concat. exists ops. split; apply list_elem_of_In; [by eapply list_elem_of_lookup_2|done]. }
  pose proof (recv_posts_ok snap (to_receiver r ops) (Forall_filter _ _ _ Hsrc)) as Hrec. rewrite Hrec.
  eapply (landed_ok snap); [done| |exact Hrec]. intros s. by apply round_sent.
Qed.

(** *** The receivers *)

Lemma same_participant p q : p ∈ ps -> q ∈ ps -> p_rank p = p_rank q -> p = q.
Proof.
  intros [i Hi]%list_elem_of_lookup [j Hj]%list_elem_of_lookup E.
  assert (i = j) as ->; [|by simplify_eq]. eapply NoDup_lookup; [apply (rd_ranks _ HR)| |];
    rewrite list_lookup_fmap, ?Hi, ?Hj; simpl; [done|by rewrite E].
Qed.

Lemma elem_of_incoming p op :
  p ∈ ps -> p_role p = Receiver ->
  op ∈ to_receiver (p_rank p) (concat rounds) <-> exists sid, sid ∈ needed_of p /\ op_for ms (manifest_of p, sid) = Some op.
Proof.
  intros Hp Hr. rewrite list_elem_of_filter, rounds_plan, elem_of_plan. split.
  - intros (Hrank & q & sid & Hq & _ & Hs & Ho). exists sid.
    assert (Hrq : recv_rank op = p_rank q).
    { pose proof (op_for_cases ps q sid HR) as H. rewrite Ho in H. by destruct H as (? & ? & ? & ? & ? & ? & _ & _ & _ & _ & ->). }
    assert (q = p) as -> by (apply same_participant; congruence). done.
  - intros (sid & Hs & Ho). split; [|eauto 10].
    pose proof (op_for_cases ps p sid HR) as H. rewrite Ho in H. by destruct H as (? & ? & ? & ? & ? & ? & _ & _ & _ & _ & ->).
Qed.

Lemma op_for_arrives p sid op :
  p ∈ ps -> p_role p = Receiver -> sid ∈ needed_of p -> op_for ms (manifest_of p, sid) = Some op ->
  sample_id op = sid /\ Some (arrives snap op) = delivered ps (m_token_ranges (manifest_of p)) sid.
Proof.
  intros Hp Hr Hs Ho. assert (Hplan : op ∈ plan) by (apply elem_of_plan; eauto 10).
  destruct (plan_from_source ps op HR Hplan) as [Hsrc _]. pose proof (arrives_moves snap op Hsrc) as Hmv.
  pose proof (op_for_cases ps p sid HR) as H. rewrite Ho in H.
  destruct H as (g & c & dev & t' & n & shape & Hin & Ht & Hso & Hsh & ->). split; [done|].
  rewrite <- (mv_moved _ _ _ Hmv). unfold moved, delivered. cbn [sample_id sender_rank token_range].
  rewrite (snap_of_in ps g c dev (rd_ranks _ HR) Hin), Ht, Hso. cbn [mbind option_bind]. rewrite Hsh. simpl.
  by destruct (m_token_ranges (manifest_of p) ≫= fun d => dict_get d sid).
Qed.

Lemma incoming_data p sid d :
  p ∈ ps -> p_role p = Receiver -> d = stores snap (to_receiver (p_rank p) (concat rounds)) [] ->
  dict_get d sid =
  if decide (sid ∈ needed_of p) then delivered ps (m_token_ranges (manifest_of p)) sid else None.
Proof.
  intros Hp Hr ->. unfold stores.
  destruct (dict_get_fold_set sample_id (arrives snap) (to_receiver (p_rank p) (concat rounds)) [] sid) as [H1 H2].
  { intros x y Hx Hy E. apply elem_of_incoming in Hx as (s1 & Hs1 & Ho1); [|done..].
    apply elem_of_incoming in Hy as (s2 & Hs2 & Ho2); [|done..].
    destruct (op_for_arrives p s1 x) as [E1 _]; [done..|]. destruct (op_for_arrives p s2 y) as [E2 _]; [done..|].
    congruence. }
  assert (Hn : ~ (sid ∈ needed_of p /\ is_Some (op_for ms (manifest_of p, sid))) ->
    sid ∉ (sample_id <$> to_receiver (p_rank p) (concat rounds))).
  { intros Hn (x & -> & Hx)%list_elem_of_fmap. apply elem_of_incoming in Hx as (s1 & Hs1 & Ho1); [|done..].
    destruct (op_for_arrives p s1 x) as [<- _]; [done..|]. apply Hn. split; [done|]. eauto. }
  destruct (decide (sid ∈ needed_of p)) as [Hs|Hs]; [|apply H2, Hn; tauto].
  destruct (op_for ms (manifest_of p, sid)) as [op|] eqn:Ho.
  - destruct (op_for_arrives p sid op) as [E1 E2]; [done..|]. rewrite <- E2. apply H1; [|done].
    apply elem_of_incoming; [done..|]. eauto.
  - pose proof (op_for_cases ps p sid HR) as H. rewrite Ho in H. unfold delivered. rewrite H. simpl.
    apply H2, Hn. by intros [_ []].
Qed.

Lemma receiver_outcome g c needed d a r :
  PRecv g c needed d a r ∈ ps ->
  staged_bytes (to_receiver (g_rank g) plan) <= max_bytes (cfg c) ->
  exists g' c' rep, finish_step ms all_posts t (begun t (PRecv g c needed d a r)) = (PRecv g' c' needed d a r, Ok (Received rep)) /\
    cache_inv c' /\
    (forall sid, dict_get (data c') sid = if decide (sid ∈ needed) then delivered ps r sid else None) /\
    tensors_recv rep = length (to_receiver (g_rank g) plan) /\
    dropped_sample_ids rep = dict_fromkeys (filter (fun sid => sid ∈ reference_missing ms) needed).
Proof.
  intros Hp Hcap. simpl. unfold recv_finish. rewrite Hgo, landed_at_ok.
  destruct rounds_from_source as [Hsrc Hnar].
  assert (Hperm : to_receiver (g_rank g) (concat rounds) ≡ₚ to_receiver (g_rank g) plan) by by rewrite rounds_plan.
  destruct (recv_rounds_ok snap (g_rank g) rounds t (base_clear c).1) as (c' & E & HI' & Hcfg & Hd); try done.
  - apply (clear_inv c (tombstones c)). by eapply (rd_rx _ HR).
  - unfold staged_bytes in *. cbn [base_clear fst bytes_in_use cfg]. rewrite Hperm. lia.
  - cbn [base_clear fst] in E. rewrite E. do 3 eexists. split; [done|]. split; [done|]. split; [|split; [|done]].
    + intros sid. apply (incoming_data (PRecv g c needed d a r)); done.
    + simpl. by rewrite Hperm.
Qed.

(** *** The senders *)

Lemma sender_outcome g c dev :
  PSend g c dev ∈ ps ->
  exists g' c', finish_step ms all_posts t (begun t (PSend g c dev)) =
    (PSend g' c' dev, Ok (Sent (length (of_sender (g_rank g) plan)))) /\
    cache_inv c' /\
    c' = discard_sent (discard_ids (g_rank g) plan) t (tx_snapshot t c).1.
Proof.
  intros Hp. simpl. unfold send_finish. rewrite Hgo.
  cbn [data tx_snapshot with_touched fst]. rewrite run_data_exchange_send_ok by by eapply sender_ops_ok.
  rewrite plan_rounds_concat. do 2 eexists. split; [done|]. split; [|done].
  destruct (rd_tx _ HR _ _ _ Hp) as [HI _]. unfold discard_sent.
  destruct (discard_ids (g_rank g) plan) as [|i ids].
  - exact (tx_exec_inv OpSnapshot t t c HI).
  - apply (tx_exec_inv (OpDiscard (i :: ids)) t t), (tx_exec_inv OpSnapshot t t c HI).
Qed.

(** The ids a sender discards: those it sent to a receiver that asked for it. *)
Lemma elem_of_discard_ids g c dev sid :
  PSend g c dev ∈ ps ->
  sid ∈ discard_ids (g_rank g) plan <->
  consumed ps sid /\ (exists h, head (holding sid (by_p_rank ps)) = Some h /\ p_rank h = g_rank g).
Proof.
  intros Hp. unfold discard_ids. rewrite list_elem_of_fmap. split.
  - intros (op & -> & [[Hs Hd] Hop]%list_elem_of_filter). apply elem_of_plan in Hop as (q & sid & Hq & Hr & Hsid & Ho).
    pose proof (op_for_cases ps q sid HR) as H. rewrite Ho in H.
    destruct H as (g' & c' & dev' & t' & n & shape & Hin' & Ht' & _ & _ & ->). simpl in *. split.
    + destruct q as [|gq cq nq dq aq rq]; [done|]. simpl in Hd. subst dq. by repeat eexists.
    + unfold op_for in Ho. rewrite holders_head in Ho.
      destruct (head (holding sid (by_p_rank ps))) as [h|]; [|done]. exists h. split; [done|]. simpl in Ho.
      destruct (shape_of _ _); [|done]. simpl in Ho. destruct (dtype_of _ _); [|done]. simpl in Ho.
      rewrite <- m_rank_manifest. congruence.
  - intros [(gr & cr & needed & a & r & Hr & Hsid) (h & Hh & Hrank)].
    pose proof (op_for_cases ps (PRecv gr cr needed true a r) sid HR) as H.
    destruct (op_for ms _) as [op|] eqn:Ho.
    + exists op. assert (Hplan : op ∈ plan) by (apply elem_of_plan; exists (PRecv gr cr needed true a r), sid; done).
      rewrite list_elem_of_filter. unfold op_for in Ho. rewrite holders_head, Hh in Ho. simpl in Ho.
      destruct (shape_of _ _); [|done]. simpl in Ho. destruct (dtype_of _ _); [|done]. simpl in Ho.
      rewrite m_rank_manifest, Hrank in Ho. split; [by injection Ho as <-|]. split; [|done]. by injection Ho as <-.
    + rewrite source_of_holding, Hh in H. simpl in H.
      assert (Hh' : h ∈ holding sid (by_p_rank ps)) by (destruct (holding _ _); simplify_eq/=; set_solver).
      apply list_elem_of_filter in Hh' as [[x Hx] _]. congruence.
Qed.
End one_step.

(** ** Discarding *)

Lemma discard_fold_data (f : nat * cache -> string -> nat * cache) ids n c :
  (forall n c i, data (f (n, c) i).2 = dict_del (data c) i) ->
  data (fold_left f ids (n, c)).2 = filter (fun kv => kv.1 ∉ ids) (data c).
Proof.
  intros Hf. revert n c; induction ids as [|i ids IH]; intros n c; [by rewrite filter_all by set_solver|].
  cbn [fold_left]. specialize (Hf n c i). destruct (f (n, c) i) as [n' c']. simpl in Hf. rewrite IH, Hf.
  unfold dict_del. rewrite list_filter_filter. apply list_filter_iff. intros [k v]. simpl. set_solver.
Qed.

Lemma not_held_del c i : held c i = false -> dict_del (data c) i = data c.
Proof. intros H. apply dict_del_not_in. rewrite <- held_spec. congruence. Qed.

Lemma tx_discard_one_data now n c i : data (tx_discard_one now (n, c) i).2 = dict_del (data c) i.
Proof.
  simpl. destruct (held c i) eqn:E; [done|]. rewrite not_held_del by done. by destruct (is_exact_replay_id i).
Qed.

Lemma tx_discard_data ids now c : data (tx_discard ids now c).1 = filter (fun kv => kv.1 ∉ ids) (data c).
Proof.
  unfold tx_discard. pose proof (discard_fold_data _ ids 0 (expire_tombstones now c) (tx_discard_one_data now)) as H.
  destruct (fold_left _ _ _) as [n c']. simpl in *. rewrite H.
  destruct (expire_tombstones_eq now c) as [ts ->]. done.
Qed.

(** ** Properties *)

Lemma exchange_go ps :
  ready ps -> (forall sid, ~ conflicting (manifests ps) sid) ->
  reference_missing (manifests ps) = ∅ \/ missing_is_tolerated (manifests ps) (reference_missing (manifests ps)) = true ->
  exchange_manifest (manifests ps) =
  Ok (reference_plan (manifests ps), reference_missing (manifests ps),
      plan_rounds (manifests ps) (reference_plan (manifests ps))).
Proof.
  intros HR Hc Hm. unfold exchange_manifest.
  destruct (compute_plan_cases _ (manifests_are_wf ps HR)) as [(ids & _ & Hne & _ & Hids)|[-> _]].
  - destruct ids as [|i ids]; [done|]. exfalso. apply (Hc i), Hids. set_solver.
  - cbn [mbind res_bind]. destruct Hm as [Hm|Hm].
    + by rewrite bool_decide_eq_true_2.
    + rewrite Hm. by rewrite andb_false_r.
Qed.

Lemma exchange_eq `{Nccl} t ps :
  ready ps ->
  exchange t ps =
  Ok (finish_step (manifests ps) (posts_of (manifests ps) t <$> (begun t <$> ps)) t <$> (begun t <$> ps)).
Proof.
  intros HR. unfold exchange. rewrite begin_ok by done. cbn [mbind res_bind]. rewrite <- !list_fmap_compose.
  do 2 f_equal. 
Qed.

Lemma dict_get_filter_key {V} (ids : list string) (d : list (string * V)) k :
  dict_get (filter (fun kv => kv.1 ∉ ids) d) k = if decide (k ∈ ids) then None else dict_get d k.
Proof.
  induction d as [|[k' v] d IH]; simpl; [by case_decide|]. rewrite filter_cons. simpl.
  destruct (decide (k = k')) as [<-|Hne].
  - destruct (decide (k ∈ ids)) as [Hk|Hk]; [by rewrite decide_False by tauto|].
    rewrite decide_True by done. simpl. by rewrite decide_True.
  - destruct (decide (k' ∉ ids)); [|done]. simpl. by rewrite (decide_False (P := k = k')).
Qed.

(** What is left in a sender's cache. *)
Lemma kept_data t c ids sid :
  dict_get (data (discard_sent ids t (tx_snapshot t c).1)) sid =
  if decide (sid ∈ ids) then None else dict_get (data c) sid.
Proof.
  rewrite <- dict_get_filter_key. unfold discard_sent. destruct ids as [|i ids]; [by rewrite filter_all by set_solver|].
  by rewrite tx_discard_data.
Qed.

Lemma elem_of_dict_fromkeys l sid : sid ∈ dict_fromkeys l <-> sid ∈ l.
Proof.
  unfold dict_fromkeys. assert (H : forall d, sid ∈ dict_keys (fold_left (fun d s => dict_set d s ()) l d) <-> sid ∈ l \/ sid ∈ dict_keys d).
  { induction l as [|s l IH]; intros d; simpl; [set_solver|]. rewrite IH, dict_keys_set. set_solver. }
  rewrite H. set_solver.
Qed.

Lemma missing_no_source ps p sid :
  ready ps -> p ∈ ps -> p_role p = Receiver -> sid ∈ needed_of p ->
  sid ∈ reference_missing (manifests ps) <-> source_of ps sid = None.
Proof.
  intros HR Hp Hr Hs. rewrite elem_of_reference_missing, source_of_holding.
  assert (Hh : head (holding sid (by_p_rank ps)) = None <->
    forall m, m ∈ manifests ps -> m_role m = Sender -> sid ∉ m_held m).
  { transitivity (head (holders (manifests ps) sid) = None).
    { rewrite holders_head. by destruct (head (holding sid (by_p_rank ps))). }
    split.
    - intros Hn m Hm Hrm Hsm. assert (H : m ∈ holders (manifests ps) sid) by by apply elem_of_holders.
      destruct (holders (manifests ps) sid); set_solver.
    - intros Hn. destruct (holders (manifests ps) sid) as [|m l] eqn:E; [done|].
      assert (Hm : m ∈ holders (manifests ps) sid) by (rewrite E; set_solver).
      apply elem_of_holders in Hm as (Hm & Hrm & Hsm). by destruct (Hn m). }
  rewrite <- Hh. split.
  - by intros [_ ->].
  - intros Hn. split; [exists (manifest_of p); rewrite m_role_manifest; split; [by apply list_elem_of_fmap_2|done]|].
    destruct (head (holding sid (by_p_rank ps))) as [h|] eqn:E; [|done]. simpl in Hn.
    assert (Hh' : h ∈ holding sid (by_p_rank ps)) by (destruct (holding _ _); simplify_eq/=; set_solver).
    apply list_elem_of_filter in Hh' as [[x Hx] _]. congruence.
Qed.

(** The ranks agree without talking: the plan, the verdict on missing ids and the rounds
    depend only on which manifests were published, not on the order in which a rank receives
    them. *)
Theorem replay_plan_agreed (ms ms' : list manifest) :
  NoDup (m_rank <$> ms) -> ms ≡ₚ ms' -> exchange_manifest ms = exchange_manifest ms'.
Proof.
  intros Hnd HP. unfold exchange_manifest. rewrite (compute_plan_perm ms ms' Hnd HP).
  destruct (compute_plan ms') as [[plan missing]|e]; [|done]. cbn [mbind res_bind].
  by rewrite (missing_is_tolerated_perm _ _ missing HP), (plan_rounds_perm _ _ plan HP).
Qed.

(** C10: a step of the exchange delivers.  If no exact id is held twice, every missing id is
    tolerated and the captures a receiver asked for fit its cache, then every rank returns;
    each receiver's cache holds, for each id it needs, the requested token range of the
    capture of the lowest-ranked sender that has it, bit for bit, and nothing else; ids
    nobody has are reported as dropped; and a sender loses exactly the captures it sent to a
    receiver that let it discard them. *)
Theorem exchange_delivers `{!NcclOk nccl} (t : Z) (ps : list participant) :
  ready ps ->
  (forall sid, ~ conflicting (manifests ps) sid) ->
  (reference_missing (manifests ps) = ∅ \/ missing_is_tolerated (manifests ps) (reference_missing (manifests ps)) = true) ->
  (forall g c needed d a r, PRecv g c needed d a r ∈ ps ->
     staged_bytes (to_receiver (g_rank g) (reference_plan (manifests ps))) <= max_bytes (cfg c)) ->
  exists outs, exchange t ps = Ok outs /\ forall i p, ps !! i = Some p -> exists p' rep, outs !! i = Some (p', Ok rep) /\
    match p, p', rep with
    | PRecv g c needed d a r, PRecv g' c' _ _ _ _, Received rp =>
        cache_inv c' /\
        (forall sid, dict_get (data c') sid = if decide (sid ∈ needed) then delivered ps r sid else None) /\
        (forall sid, sid ∈ dropped_sample_ids rp <-> sid ∈ needed /\ source_of ps sid = None)
    | PSend g c _, PSend g' c' _, Sent n =>
        cache_inv c' /\ n = length (of_sender (g_rank g) (reference_plan (manifests ps))) /\
        forall sid x, dict_get (data c') sid = Some x <->
          dict_get (data c) sid = Some x /\
          ~ (consumed ps sid /\ exists h, head (holding sid (by_p_rank ps)) = Some h /\ p_rank h = g_rank g)
    | _, _, _ => False
    end.
Proof.
  intros HR Hc Hm Hcap. pose proof (exchange_go ps HR Hc Hm) as Hgo.
  eexists. split; [by apply exchange_eq|]. intros i p Hp.
  rewrite (all_posts_ok t ps HR Hgo), !list_lookup_fmap, Hp. simpl.
  assert (Hin : p ∈ ps) by by eapply list_elem_of_lookup_2.
  destruct p as [g c dev|g c needed d a r].
  - destruct (sender_outcome t ps HR Hgo g c dev Hin) as (g' & c' & -> & HI & ->).
    do 2 eexists. split; [done|]. split; [done|]. split; [done|]. intros sid x. rewrite kept_data.
    pose proof (elem_of_discard_ids ps HR Hgo g c dev sid Hin) as Hd. case_decide; [|tauto].
    split; [done|]. tauto.
  - destruct (receiver_outcome t ps HR Hgo g c needed d a r Hin) as (g' & c' & rep & -> & HI & Hdata & _ & Hdrop); [by eapply Hcap|].
    do 2 eexists. split; [done|]. split; [done|]. split; [done|]. intros sid. rewrite Hdrop, elem_of_dict_fromkeys, list_elem_of_filter.
    pose proof (missing_no_source ps (PRecv g c needed d a r) sid HR Hin eq_refl) as Hs.
    unfold needed_of in Hs. simpl in Hs. tauto.
Qed.

(** A step that cannot go ahead is refused by every rank with the same error, before any
    data moves: no sender loses a capture, and every receiver's cache is left empty.  That is
    so when an exact id is held twice, or some missing id is needed by a receiver that does not
    tolerate it. *)
Theorem exchange_refused `{Nccl} (t : Z) (ps : list participant) :
  ready ps ->
  (exists sid, conflicting (manifests ps) sid) \/
  (exists p sid, p ∈ ps /\ p_role p = Receiver /\ m_allow_missing (manifest_of p) = false /\
     sid ∈ needed_of p /\ source_of ps sid = None) ->
  exists e outs,
    ((exists ids, e = duplicate_ids_error ids) \/ e = missing_error (reference_missing (manifests ps))) /\
    exchange t ps = Ok outs /\ forall i p, ps !! i = Some p -> exists p', outs !! i = Some (p', Raise e) /\
    match p, p' with
    | PSend _ c _, PSend _ c' _ => data c' = data c
    | PRecv _ _ _ _ _ _, PRecv _ c' _ _ _ _ => data c' = []
    | _, _ => False
    end.
Proof.
  intros HR Hno. assert (He : exists e, ((exists ids, e = duplicate_ids_error ids) \/ e = missing_error (reference_missing (manifests ps))) /\
    exchange_manifest (manifests ps) = Raise e).
  { unfold exchange_manifest. destruct (compute_plan_cases _ (manifests_are_wf ps HR)) as [(ids & -> & _)|[-> Hc]].
    { eexists. split; [left; by eexists|done]. }
    destruct Hno as [[sid Hs]|(p & sid & Hp & Hr & Ha & Hs & Hsrc)]; [by destruct (Hc sid)|].
    assert (Hmiss : sid ∈ reference_missing (manifests ps)) by by eapply missing_no_source.
    cbn [mbind res_bind]. rewrite bool_decide_eq_false_2 by set_solver.
    assert (missing_is_tolerated (manifests ps) (reference_missing (manifests ps)) = false) as ->; [|eexists; split; [by right|done]].
    unfold missing_is_tolerated. apply andb_false_iff. right. apply not_true_is_false. rewrite forallb_forall.
    intros Hall. specialize (Hall (manifest_of p)). rewrite Ha in Hall. discriminate Hall.
    apply list_elem_of_In, list_elem_of_filter. rewrite m_role_manifest. split; [|by apply list_elem_of_fmap_2].
    split; [done|]. apply Exists_exists. eauto. }
  destruct He as (e & Hk & He). exists e. eexists. split; [done|]. split; [by apply exchange_eq|]. intros i p Hp.
  rewrite !list_lookup_fmap, Hp. simpl. destruct p; simpl; unfold send_finish, recv_finish; rewrite He; eexists; split; done.
Qed.

(** ** Witnesses *)

Definition demo_capture (n : nat) (first : Z) : rr_tensor :=
  RRTensor UInt16 [n; 2]%nat ((fun i => first + Z.of_nat i) <$> seq 0 (n * 2)).
Definition demo_tx (l : list (string * rr_tensor)) : cache :=
  fold_left (fun c kv => tx_exec (OpPut kv.1 (PutTensor kv.2)) 1 1 c) l (cache_init 100 60 0 (1 # 2)).
Definition demo_group (r : role) (rank : Z) : group := Group r rank 3 "cuda:0" 8 false 0 0 0 0 0.

Definition demo_step : list participant :=
  [PSend (demo_group Sender 2) (demo_tx [("rr1:a", demo_capture 3 300); ("b", demo_capture 2 7)]) (Some "cpu");
   PRecv (demo_group Receiver 0) (cache_init 64 0 0 (1 # 1)) ["rr1:a"; "b"; "z"] true true (Some [("rr1:a", (1, 3))]);
   PSend (demo_group Sender 1) (demo_tx [("b", demo_capture 2 9)]) (Some "cpu")].

Lemma demo_capture_ok n first : 0 <= first < 1000 -> (n < 100)%nat -> capture_ok (demo_capture n first).
Proof.
  intros Hf Hn. split; [|split; [by right|done]]. split; cbn [demo_capture rr_values rr_shape rr_dt].
  - rewrite length_fmap, length_seq. simpl. lia.
  - apply Forall_fmap, Forall_forall. intros i Hi%elem_of_seq. unfold in_range. simpl. lia.
Qed.

Lemma demo_tx_inv l : cache_inv (demo_tx l).
Proof.
  unfold demo_tx. assert (H : forall c, cache_inv c -> cache_inv (fold_left (fun c kv => tx_exec (OpPut kv.1 (PutTensor kv.2)) 1 1 c) l c)).
  { induction l as [|kv l IH]; intros c HI; [done|]. cbn [fold_left]. apply IH. by apply tx_exec_inv. }
  apply H. apply cache_inv_init. lia.
Qed.

Lemma demo_ready : ready demo_step.
Proof.
  split.
  - apply (bool_decide_unpack _). vm_compute. exact I.
  - intros p Hp. repeat apply elem_of_cons in Hp as [->|Hp]; [done..|set_solver].
  - intros g c dev Hp. repeat apply elem_of_cons in Hp as [Hp|Hp]; [..|set_solver]; try discriminate Hp;
      injection Hp as -> -> ->; (split; [apply demo_tx_inv|]); intros sid t Ht; apply dict_get_elem in Ht.
    + assert (E : data (demo_tx [("rr1:a", demo_capture 3 300); ("b", demo_capture 2 7)]) =
                  [("rr1:a", demo_capture 3 300); ("b", demo_capture 2 7)]) by (vm_compute; reflexivity).
      rewrite E in Ht. repeat apply elem_of_cons in Ht as [Ht|Ht]; [..|set_solver]; injection Ht as -> ->; apply demo_capture_ok; lia.
    + assert (E : data (demo_tx [("b", demo_capture 2 9)]) = [("b", demo_capture 2 9)]) by (vm_compute; reflexivity).
      rewrite E in Ht. repeat apply elem_of_cons in Ht as [Ht|Ht]; [..|set_solver]; injection Ht as -> ->; apply demo_capture_ok; lia.
  - intros g c needed d a r Hp. repeat apply elem_of_cons in Hp as [Hp|Hp]; [..|set_solver]; try discriminate Hp.
    injection Hp as -> -> -> -> -> ->. apply cache_inv_init. lia.
Qed.

Lemma demo_no_conflict sid : ~ conflicting (manifests demo_step) sid.
Proof.
  intros [He Hl]. assert (Hh : exists m, m ∈ holders (manifests demo_step) sid).
  { destruct (holders (manifests demo_step) sid) as [|m l]; [simpl in Hl; lia|]. exists m. set_solver. }
  destruct Hh as [m (Hm & Hr & Hs)%elem_of_holders].
  assert (Hk : sid ∈ ["rr1:a"; "b"]).
  { repeat apply elem_of_cons in Hm as [->|Hm]; [| |  |set_solver]; try discriminate Hr; vm_compute in Hs; set_solver. }
  repeat apply elem_of_cons in Hk as [->|Hk]; [..|set_solver]; vm_compute in Hl; vm_compute in He; try discriminate He; lia.
Qed.

Lemma exchange_delivers_witness :
  exists outs, exchange (nccl := fifo_nccl) 5 demo_step = Ok outs /\
    exists g c n d a r rep, outs !! 1%nat = Some (PRecv g c n d a r, Ok (Received rep)) /\
      dict_get (data c) "rr1:a" = Some (RRTensor UInt16 [2; 2]%nat [302; 303; 304; 305]) /\
      dict_get (data c) "b" = Some (demo_capture 2 9) /\ "z" ∈ dropped_sample_ids rep.
Proof.
  destruct (exchange_delivers (nccl := fifo_nccl) 5 demo_step demo_ready demo_no_conflict) as (outs & E & H).
  - right. vm_compute. reflexivity.
  - intros g c needed d a r Hp. repeat apply elem_of_cons in Hp as [Hp|Hp]; [..|set_solver]; try discriminate Hp.
    injection Hp as -> -> -> -> -> ->. vm_compute. discriminate.
  - exists outs. split; [exact E|].
    destruct (H 1%nat _ eq_refl) as (p' & rep & Ho & Hp). destruct p' as [|g c n d a r], rep as [|rep]; try done.
    exists g, c, n, d, a, r, rep. destruct Hp as (_ & Hd & Hz). split; [exact Ho|].
    split; [rewrite Hd; vm_compute; reflexivity|]. split; [rewrite Hd; vm_compute; reflexivity|].
    apply Hz. split; [set_solver|]. vm_compute. reflexivity.
Defined.

Definition demo_refused : list participant :=
  [PSend (demo_group Sender 1) (demo_tx [("b", demo_capture 2 9)]) None;
   PRecv (demo_group Receiver 0) (cache_init 64 0 0 (1 # 1)) ["b"; "z"] true false None].

Lemma demo_refused_ready : ready demo_refused.
Proof.
  split.
  - apply (bool_decide_unpack _). vm_compute. exact I.
  - intros p Hp. repeat apply elem_of_cons in Hp as [->|Hp]; [done..|set_solver].
  - intros g c dev Hp. repeat apply elem_of_cons in Hp as [Hp|Hp]; [..|set_solver]; try discriminate Hp.
    injection Hp as -> -> ->. split; [apply demo_tx_inv|]. intros sid t Ht. apply dict_get_elem in Ht.
    assert (E : data (demo_tx [("b", demo_capture 2 9)]) = [("b", demo_capture 2 9)]) by (vm_compute; reflexivity).
    rewrite E in Ht. repeat apply elem_of_cons in Ht as [Ht|Ht]; [..|set_solver]. injection Ht as -> ->. apply demo_capture_ok; lia.
  - intros g c needed d a r Hp. repeat apply elem_of_cons in Hp as [Hp|Hp]; [..|set_solver]; try discriminate Hp.
    injection Hp as -> -> -> -> -> ->. apply cache_inv_init. lia.
Qed.

Lemma exchange_refused_witness :
  exists e outs, exchange (nccl := fifo_nccl) 5 demo_refused = Ok outs /\
    exists p p', outs = [(p, Raise e); (p', Raise e)].
Proof.
  destruct (exchange_refused (H := fifo_nccl) 5 demo_refused demo_refused_ready) as (e & outs & _ & E & H).
  - right. exists (PRecv (demo_group Receiver 0) (cache_init 64 0 0 (1 # 1)) ["b"; "z"] true false None), "z".
    split; [set_solver|]. split; [done|]. split; [done|]. split; [set_solver|]. vm_compute. reflexivity.
  - exists e, outs. split; [exact E|].
    destruct (H 0%nat _ eq_refl) as (p & Hp & _). destruct (H 1%nat _ eq_refl) as (p' & Hp' & _). exists p, p'.
    vm_compute in E. injection E as <-. simpl in *. injection Hp as <- <-. injection Hp' as <-. reflexivity.
Defined.

Lemma replay_plan_agreed_witness :
  exchange_manifest demo_manifests = exchange_manifest (reverse demo_manifests) /\ is_ok (exchange_manifest demo_manifests) = true.
Proof.
  split; [|vm_compute; reflexivity]. apply replay_plan_agreed; [|by rewrite reverse_Permutation].
  apply (bool_decide_unpack _). vm_compute. exact I.
Defined.
